(* ===== verification/_CoqProject ===== *)
-Q . S2P
Prelude.v
PySort.v
RadixKey.v
TreeNode.v
EvictPolicy.v
RadixCache.v
RadixInv.v
RadixSplit.v
RadixLeaf.v
RadixLock.v
RadixSpec.v
RadixOps.v
RadixMatch.v
RadixInsert.v
RadixLockOps.v
RadixEvict.v
RadixTotal.v
Allocator.v
AllocKernel.v
AllocSafe.v
ReqPool.v
MemKernels.v
ReqCache.v
RadixTheorems.v
MemCommon.v
BatchAlloc.v
MemTheorems.v
PrefillDelayer.v
SchedInput.v
SchedReq.v
ReqMatch.v
SchedulePolicy.v
PolicyDfs.v
PolicyOrder.v
PrefillAdder.v
AdderInv.v
PrefillPass.v
PassInv.v
Retract.v
RetractInv.v
SchedTheorems.v
DecodeTheorems.v
PyStr.v
ReasoningParser.v
ReasoningInv.v
Harmony.v
HarmonyInv.v
ReqFinish.v
ParserTheorems.v
DPDispatch.v
MMCache.v
LoraPool.v
LoraInv.v
ServiceTheorems.v
Eplb.v
EplbInv.v
EplbPlace.v
ExpertTheorems.v
Detok.v
DetokInv.v
DetokText.v
DetokTheorems.v
SwaLru.v
SwaCache.v
SwaAbs.v
SwaInv.v
SwaOps.v
SwaNodes.v
SwaEvict.v
SwaLocks.v
SwaMatch.v
SwaRevive.v
SwaInsert.v
SwaSpec.v
SwaReach.v
SwaReq.v
SwaAlloc.v
SwaMem.v
SwaTheorems.v
