(* ===== verification/Prelude.v ===== *)
(** * A verification of the memory and scheduling core of the SGLang runtime

    SGLang serves language models.  A scheduler process keeps requests in a waiting
    queue, prefills some of them, and decodes the running ones a token at a time; the
    keys and values of every token live in a pool of slots on the device, and a radix
    tree shares the slots of equal prefixes between requests.  The code is Python under
    src/python/sglang/srt; this development models the part of it that decides which
    slot holds what, which request runs next and what is given up when slots run out.

    ** The parts and how they interact

    The scheduler asks [SchedulePolicy] for an order of the waiting queue, offers the
    requests one by one to a [PrefillAdder], which matches each against the [RadixCache],
    locks what it found and counts slots, and hands the admitted requests to
    [alloc_for_extend].  That takes rows of the [ReqToTokenPool] and slots of an
    allocator, evicting from the tree when too few are free.  After a forward pass
    [cache_unfinished_req] and [cache_finished_req] move slots from requests into the
    tree.  Before each decode step [update_running_batch] checks that the next slots can
    be had, and retracts requests otherwise; after it [check_finished] decides which
    requests are done, and the detectors split their text into reasoning and answer.  The
    prefill delayer, the input blocker and the receive skipper stand at the door of the
    scheduler loop.

    ** Files

    - Prelude, PySort: outcomes of Python calls ([result]: a value, an exception, or a
      loop that has not ended), the state monad [ST] with weakest preconditions [wp] and
      their tactics [wp_step], [wp_steps], occurrence counts [occ] with the rewrite base
      of that name, slices, stable sorting.
    - RadixKey, TreeNode, EvictPolicy: [RadixKey] and [TreeNode] of
      mem_cache/radix_cache.py, hashes of mem_cache/utils.py, mem_cache/evict_policy.py.
    - RadixCache: [class RadixCache] with every method that changes the tree, and
      mem_cache/events.py.  Nodes live in a store of objects; the methods are state
      passing over [RadixCache A], where [A] is an allocator of class [KVAllocator].
    - RadixInv (the invariant), RadixSplit, RadixLeaf, RadixLock (the three kinds of
      change to a tree), RadixSpec (the abstract contract: a partial map from prefixes to
      slots), RadixOps, RadixMatch, RadixInsert, RadixLockOps, RadixEvict, RadixTotal
      (one operation each), RadixTheorems (the contract of the cache).
    - Allocator, AllocKernel, AllocSafe: mem_cache/allocator.py with its Triton kernels
      as lists of stores, and the helpers of utils/common.py they call.
    - ReqPool, MemKernels, ReqCache, MemCommon, BatchAlloc: [ReqToTokenPool] of
      mem_cache/memory_pool.py, the KV attributes of [Req], the kernels and functions of
      mem_cache/common.py, [cache_finished_req], [cache_unfinished_req]; MemTheorems has
      their contracts.
    - PrefillDelayer, SchedInput: managers/prefill_delayer.py,
      managers/scheduler_input_blocker.py, utils/poll_based_barrier.py,
      managers/scheduler_recv_skipper.py.
    - SchedReq, ReqMatch: the attributes of [Req] the scheduler uses,
      [init_next_round_input] and [match_prefix_for_req].
    - SchedulePolicy, PolicyDfs, PolicyOrder: [SchedulePolicy] of
      managers/schedule_policy.py, its depth-first order, and what a policy may do to the
      queue.
    - PrefillAdder, AdderInv: [PrefillAdder], the budget invariant, preemption.
    - PrefillPass, PassInv: [_get_new_batch_prefill_raw] of managers/scheduler.py, and what
      leads from one pass to the next: [validate_input_length], the KV bookkeeping of
      [prepare_for_extend] and [process_batch_result_prefill].
    - Retract, RetractInv: [check_decode_mem], [retract_decode] of
      managers/schedule_batch.py and [update_running_batch] of managers/scheduler.py.
    - SchedTheorems, DecodeTheorems: the contracts of the scheduling parts.
    - PyStr: Python strings as lists of code points, and decoding of UTF-8 bytes.
    - ReasoningParser, ReasoningInv: parser/reasoning_parser.py, every detector and
      [ReasoningParser].
    - Harmony, HarmonyInv: parser/harmony_parser.py without the regular expressions of
      [TextStrategy].
    - ReqFinish: the finish checks of [Req] and the ids for the detokenizer
      (managers/schedule_batch.py).
    - ParserTheorems: the contracts of these three.
    - DPDispatch: [DPBudget] and the dispatching of [DataParallelController]
      (managers/data_parallel_controller.py).
    - MMCache: [MultiModalStaticCache] (mem_cache/multimodal_cache.py).
    - LoraPool, LoraInv: lora/eviction_policy.py, the slots of
      [LoRAMemoryPool] (lora/mem_pool.py) and the adapters of [LoRAManager]
      (lora/lora_manager.py), their invariant, and the states they can reach.  Weights are
      their names; the checks of loading, strict loading included, are modelled.
    - ServiceTheorems: the contracts of these three.
    - Eplb, EplbInv, EplbPlace: eplb/eplb_algorithms/deepseek.py, replication and packing,
      and the placement they give; ExpertTheorems has their contracts.
    - Detok, DetokInv, DetokText: the incremental decoding of
      managers/detokenizer_manager.py and [find_printable_text] of utils.py, the table of
      states, one request through the batches, and the text of a prefix of tokens;
      DetokTheorems has the contract.
    - SwaLru, SwaCache: [TreeNode], [LRUList] and [SWARadixCache] of
      mem_cache/swa_radix_cache.py.  A node has a slot of the full pool for each token
      and, unless it is a tombstone, a slot of the window pool behind it.  The two LRU
      lists are doubly linked through attributes of the nodes, as in the code.
    - SwaAbs (the state with lists instead of links, and the simulation by it), SwaInv (the
      invariant of windows and locks), SwaOps (the invariant of the cache), SwaNodes,
      SwaEvict, SwaLocks, SwaMatch, SwaRevive, SwaInsert (one operation each), SwaSpec
      (what can be read off a cache), SwaReach (clients and the states they reach).
    - SwaReq: [cache_finished_req] and [cache_unfinished_req] of that cache, and
      [maybe_evict_swa] of managers/schedule_batch.py for decode batches.
    - SwaAlloc: [SWATokenToKVPoolAllocator] of mem_cache/swa_memory_pool.py.
    - SwaMem: [alloc_token_slots] and [evict_from_tree_cache] of mem_cache/common.py with
      that allocator; SwaTheorems has the contracts of these.

    ** Interfaces

    [KVAllocator] (RadixCache) is what the tree calls on an allocator, and
    [KVAllocatorLaws] what it may rely on; the token allocator and the paged one are
    instances, so the theorems about requests entering and leaving the tree hold for
    both.  Freeing gives back [kv_gives]: the slots themselves, or all slots of their
    pages.  [SWAAllocator] (SwaCache) and [SWAAllocatorLaws] (SwaOps) are the same for the
    two pools of the sliding-window cache; the allocator with pages of one slot is an
    instance.  [Torch] and [TorchLaws] (Eplb) are what the placement of experts relies on of
    the tensor library.  [Env] (TreeNode) is the clock and SHA-256; [EnvLaws] says that the clock does
    not run backwards, and only the theorems on recency use it.

    ** What the theorems show

    - The tree (RadixTheorems): the invariant holds in every reachable state, every
      operation returns there, [match_prefix] finds the longest cached prefix, [insert]
      adds exactly the missing suffix, locks protect whole paths and are undone exactly,
      [evict] frees enough or everything unlocked, in the order of its strategy, and
      never a locked slot.
    - The slots (MemTheorems): no slot is lost, duplicated or handed out twice, through
      allocation, caching, release and eviction; kernels agree with their reference
      loops; allocation fails only when free plus evictable slots are too few.
    - The queue (SchedTheorems): no policy loses or duplicates a request; an admitted
      batch fits into memory; chunks end on pages; prefill is not delayed forever; ranks
      decide alike; preemption takes the least important requests and no more than
      needed.  It can lose one: [preempted_request_lost] runs the scheduler from its start
      to a pass that does.
    - Decoding (DecodeTheorems): after [update_running_batch] the next step fits, the
      requests with least progress are given up first, and their slots come back.
    - Output (ParserTheorems): streaming separates reasoning and answer as parsing the
      whole output does, the tokens of the Harmony format tile the text, and an output ends
      with its stop token, at its limit, or with a stop string or pattern in its tail.
    - Service (ServiceTheorems): dispatching by load keeps together the loads of what was
      sent to the ranks, round robin finds the next active rank, the multimodal cache stays
      within its limit and drops the entries whose last use is longest ago, and a LoRA batch
      that was accepted gets its slots unless an adapter cannot be loaded.
    - Experts (ExpertTheorems): every expert has a place, the maps of a placement agree,
      and no other replication has a smaller largest load.
    - Text (DetokTheorems): the pieces sent to a request are its text, each character
      once, for byte-level tokenizers and outputs without a character cut off right after
      a CJK one; otherwise text is sent twice ([detok_sends_twice]).

    - Sliding windows (SwaTheorems): from every state a client can reach every legal call
      returns, no assertion fires, the counters and lists are exact and every slot of
      both pools is accounted for; a match ends at the deepest whole window, eviction
      frees enough or everything, so that an allocation fails only when free and evictable
      slots are too few, and requests keep what they need of their windows.  Two
      errors of the code are shown by reachable states: an insertion frees slots that are
      locked, and a failed [alloc_decode] loses pages.

    Each property has a concrete instance whose name ends in [_witness], evaluated on a
    small tree ([cache2], [world2]) of four cached tokens, or a cache with a window of two
    tokens ([client2]).

    ** Fuel and bounds

    Loops of the tree walk take fuel from the number of nodes of the store, those of the
    Harmony parser from the length of the text ([Running] if it ran out); [reachable_progress] and the specifications of the
    operations show that this is always enough.  Slot numbers, token ids and lengths are
    unbounded integers: tensors are int64 and pools far smaller than 2^63.  Times and
    ratios are exact integers or rationals; floating-point rounding is not modelled.

    ** Assumptions of the theorems

    KV-cache events ([enable_kv_cache_events]) are modelled, but the theorems on the tree
    ([insert], [evict], reachable states) and those that build on them (requests entering
    the tree, allocation with eviction, the prefill pass, decoding) are for a cache that
    does not emit them, the default.

    Masked lanes of a Triton load without a default are undefined, and each load has its
    own ([MaskedLanes]).  [alloc_extend_kernel] subtracts two such loads, so its theorems
    ask that they agree where they are masked ([lanes_agree]); without it the kernel may
    write anything ([extend_kernel_needs_lanes]).

    [prefill_pass_fits] is for a scheduler without priority preemption and diffusion
    models over the token allocator; [next_decode_fits] is over the token allocator, its
    last part without speculation and with pages of one slot.  [stream_like_oneshot] is
    for detectors that do not override the streaming methods, with streamed reasoning, an
    end tag, no second start tag and no tool tag.  [output_ends_at_stop] is for requests
    without a terminated grammar or a pending abort.

    *** Sliding windows

    A client is anything that keeps the rules of [legal] (SwaReach): it locks nodes whose
    last window is whole, gives back each lock once, and inserts only slots it owns, with
    window slots exactly from [swa_evicted_seqlen] on.  [cfg_ok] asks for a window of at
    least one token and for the default setting in which chains of single children are
    not compacted; compaction is modelled ([compact_chain]) but its own comment says that
    it breaks the accounting.  [req_ready] and [batch_ready] (SwaReq) say what a request
    that was prefilled holds: a lock where its protected prefix ends and the slots beyond.

    ** Not modelled

    The device (KV tensors, attention, models, samplers, weights of adapters), processes
    and sockets (tokenizer, entrypoints), disaggregation, mamba and
    hierarchical caches, speculative workers, grammars and the frontend language.
    In the modelled functions the branches for these are left out, as each file says.

    Access times of the sliding-window cache serve its sanity checks only and are left
    out with them.

    ** Plan

    Next: the paged two-pool allocator as an instance of [SWAAllocatorLaws], the chunk
    cache, mixed prefill and decode batches, and the detectors of
    tool calls. *)
From stdpp Require Export base numbers sets gmap strings fin_maps list.
From stdpp Require Import options.

(** ** Python outcomes *)

(** The exceptions the modelled code raises.  [Dangling] stands for a reference
    to an object that does not exist: Python cannot produce it, and the
    theorems on each component show that the model never does. *)
Inductive py_error :=
  | AssertionError
  | ValueError
  | IndexError
  | KeyError
  | TypeError
  | AttributeError
  | RuntimeError
  | NotImplementedError
  | UnboundLocalError
  | ZeroDivisionError
  | Dangling.

#[global] Instance py_error_eq_dec : EqDecision py_error.
Proof. solve_decision. Defined.

(** A call either returns, raises, or (a loop whose fuel is exhausted) is still
    running. *)
Inductive result (A : Type) :=
  | Ok (a : A)
  | Raise (e : py_error)
  | Running.
Arguments Ok {A} _.
Arguments Raise {A} _.
Arguments Running {A}.

Lemma Ok_inj {A} (a b : A) : Ok a = Ok b → a = b.
Proof. by intros [= ->]. Qed.

#[global] Instance result_ret : MRet result := @Ok.
#[global] Instance result_bind : MBind result := λ A B f m,
  match m with Ok a => f a | Raise e => Raise e | Running => Running end.

#[global] Instance result_fmap : FMap result := λ A B f m,
  match m with Ok a => Ok (f a) | Raise e => Raise e | Running => Running end.

(** [assert b]. *)
Definition py_assert (b : bool) : result unit :=
  if b then Ok tt else Raise AssertionError.

(** Reading an [Optional] where the code assumes a value. *)
Definition unwrap {A} (e : py_error) (o : option A) : result A :=
  match o with Some a => Ok a | None => Raise e end.

Definition is_ok {A} (r : result A) : bool :=
  match r with Ok _ => true | _ => false end.

(** ** Stateful code: state passing over [result] *)

Definition ST (S A : Type) : Type := S → result (A * S).

Section state_monad.
Context {S : Type}.

Definition st_ret {A} (a : A) : ST S A := λ s, Ok (a, s).
Definition st_bind {A B} (m : ST S A) (f : A → ST S B) : ST S B := λ s,
  match m s with
  | Ok (a, s') => f a s'
  | Raise e => Raise e
  | Running => Running
  end.
Definition st_gets {A} (f : S → A) : ST S A := λ s, Ok (f s, s).
Definition st_modify (f : S → S) : ST S unit := λ s, Ok (tt, f s).
Definition st_lift {A} (r : result A) : ST S A := λ s,
  match r with Ok a => Ok (a, s) | Raise e => Raise e | Running => Running end.

Definition st_raise {A} (e : py_error) : ST S A := λ _, Raise e.

(** Total-correctness weakest precondition: [wp m Q s] says that [m] started
    in [s] returns (no exception, no exhausted fuel) and [Q] holds of the
    value and the final state. *)
Definition wp {A} (m : ST S A) (Q : A → S → Prop) (s : S) : Prop :=
  match m s with Ok (a, s') => Q a s' | _ => False end.

Lemma wp_ret {A} (a : A) Q s : Q a s → wp (st_ret a) Q s.
Proof. done. Qed.
Lemma wp_bind {A B} (m : ST S A) (f : A → ST S B) Q s :
  wp m (λ a s', wp (f a) Q s') s → wp (st_bind m f) Q s.
Proof. unfold wp, st_bind. destruct (m s) as [[a s']| |]; done. Qed.
Lemma wp_gets {A} (f : S → A) Q s : Q (f s) s → wp (st_gets f) Q s.
Proof. done. Qed.
Lemma wp_modify f Q (s : S) : Q tt (f s) → wp (st_modify f) Q s.
Proof. done. Qed.
Lemma wp_lift {A} (r : result A) a Q s : r = Ok a → Q a s → wp (st_lift r) Q s.
Proof. by intros ->. Qed.
Lemma wp_mono {A} (m : ST S A) (Q R : A → S → Prop) s :
  wp m Q s → (∀ a s', Q a s' → R a s') → wp m R s.
Proof. unfold wp. destruct (m s) as [[a s']| |]; auto. Qed.
Lemma wp_ok {A} (m : ST S A) Q s :
  wp m Q s → ∃ a s', m s = Ok (a, s') ∧ Q a s'.
Proof. unfold wp. destruct (m s) as [[a s']| |]; [eauto|done|done]. Qed.
Lemma wp_intro {A} (m : ST S A) (Q : A → S → Prop) s a s' :
  m s = Ok (a, s') → Q a s' → wp m Q s.
Proof. unfold wp. by intros ->. Qed.
End state_monad.

#[global] Instance ST_ret S : MRet (ST S) := λ A, st_ret.
#[global] Instance ST_bind S : MBind (ST S) := λ A B f m, st_bind m f.

Create HintDb py discriminated.

(** One step of symbolic execution of a stateful program. *)
Ltac wp_step :=
  cbv beta;
  lazymatch goal with
  | |- wp (mbind _ _) _ _ => apply wp_bind
  | |- wp (st_bind _ _) _ _ => apply wp_bind
  | |- wp (mret _) _ _ => apply wp_ret
  | |- wp (st_ret _) _ _ => apply wp_ret
  | |- wp (st_gets _) _ _ => apply wp_gets
  | |- wp (st_modify _) _ _ => apply wp_modify
  | |- wp (st_lift _) _ _ => eapply wp_lift; [first [eassumption | reflexivity]|]
  end.
Ltac wp_steps := repeat wp_step.

(** ** Sums over finite sets *)

(** [gsum f X] is the sum of [f x] over the elements of [X]. *)
Definition gsum (f : nat → Z) (X : gset nat) : Z :=
  foldr (λ x acc, (f x + acc)%Z) 0%Z (elements X).

Section gsum.
Implicit Types (f g : nat → Z) (X Y : gset nat) (x : nat).
Local Open Scope Z_scope.

Lemma foldr_sum_perm f (l l' : list nat) :
  l ≡ₚ l' → foldr (λ x acc, f x + acc) 0 l = foldr (λ x acc, f x + acc) 0 l'.
Proof. induction 1; simpl; lia. Qed.

Lemma gsum_empty f : gsum f ∅ = 0.
Proof. unfold gsum. by rewrite elements_empty. Qed.

Lemma gsum_insert f x X : x ∉ X → gsum f ({[x]} ∪ X) = f x + gsum f X.
Proof.
  intros Hx. unfold gsum.
  by rewrite (foldr_sum_perm f _ (x :: elements X)) by by apply elements_union_singleton.
Qed.

Lemma gsum_delete f x X : x ∈ X → gsum f X = f x + gsum f (X ∖ {[x]}).
Proof.
  intros Hx. rewrite <-gsum_insert by set_solver.
  f_equal. apply set_eq. intros y. destruct (decide (y = x)); set_solver.
Qed.

Lemma gsum_ext f g X : (∀ x, x ∈ X → f x = g x) → gsum f X = gsum g X.
Proof.
  intros Heq. unfold gsum.
  assert (Forall (λ x, f x = g x) (elements X)) as Hl
    by (apply Forall_forall; intros x ?%elem_of_elements; auto).
  induction Hl as [|y l Hy _ IH]; simpl; lia.
Qed.

(** Changing [f] at a single point of [X]. *)
Lemma gsum_update f g x X :
  x ∈ X → (∀ y, y ∈ X → y ≠ x → f y = g y) → gsum g X = gsum f X + (g x - f x).
Proof.
  intros Hx Heq. rewrite !(gsum_delete _ x X) by done.
  rewrite (gsum_ext f g (X ∖ {[x]})) by set_solver. lia.
Qed.

Lemma gsum_nonneg f X : (∀ x, x ∈ X → 0 <= f x) → 0 <= gsum f X.
Proof.
  intros Hf. unfold gsum.
  assert (Forall (λ x, 0 <= f x) (elements X)) as Hl
    by (apply Forall_forall; intros x ?%elem_of_elements; auto).
  induction Hl as [|y l Hy _ IH]; simpl; lia.
Qed.

Lemma gsum_le_one f x X : (∀ y, y ∈ X → 0 <= f y) → x ∈ X → f x <= gsum f X.
Proof.
  intros Hf Hx. rewrite (gsum_delete f x X) by done.
  assert (0 <= gsum f (X ∖ {[x]})); [|lia]. apply gsum_nonneg. set_solver.
Qed.

Lemma gsum_zero f X : (∀ x, x ∈ X → f x = 0) → gsum f X = 0.
Proof.
  intros Hf. rewrite (gsum_ext f (λ _, 0)) by done.
  unfold gsum. induction (elements X); simpl; lia.
Qed.
End gsum.

(** ** Occurrence counts in lists of KV slots *)

Definition occ (i : Z) (l : list Z) : Z := Z.of_nat (length (filter (λ x, x = i) l)).

Lemma occ_nil i : occ i [] = 0%Z.
Proof. done. Qed.
Lemma occ_app i l1 l2 : occ i (l1 ++ l2) = (occ i l1 + occ i l2)%Z.
Proof. unfold occ. rewrite filter_app, length_app. lia. Qed.
Lemma occ_nonneg i l : (0 <= occ i l)%Z.
Proof. unfold occ. lia. Qed.
Lemma occ_perm i l1 l2 : l1 ≡ₚ l2 → occ i l1 = occ i l2.
Proof. intros H. unfold occ. by rewrite H. Qed.
Lemma occ_take_drop i n l : occ i l = (occ i (take n l) + occ i (drop n l))%Z.
Proof. by rewrite <-occ_app, take_drop. Qed.

Lemma occ_cons i x l : occ i (x :: l) = ((if decide (x = i) then 1 else 0) + occ i l)%Z.
Proof. unfold occ. rewrite filter_cons. case_decide; simpl; lia. Qed.
Lemma occ_notin i l : i ∉ l → occ i l = 0%Z.
Proof.
  induction l as [|x l IH]; [done|]. rewrite not_elem_of_cons, occ_cons. intros [? ?].
  rewrite decide_False, IH by done. done.
Qed.
Lemma occ_NoDup i l : NoDup l → occ i l = if decide (i ∈ l) then 1%Z else 0%Z.
Proof.
  induction 1 as [|x l Hx Hl IH]; [done|]. rewrite occ_cons.
  destruct (decide (x = i)) as [->|E].
  - rewrite occ_notin by done. rewrite decide_True by (by left). done.
  - rewrite IH. destruct (decide (i ∈ l)) as [Hi|Hi]; case_decide as Hc; try done; exfalso.
    + apply Hc. by right.
    + apply elem_of_cons in Hc as [->|]; done.
Qed.

Create Rewrite HintDb occ.
#[global] Hint Rewrite occ_nil occ_app : occ.

(** ** Python slices with natural bounds *)

(** [l[a:b]] for [0 <= a] and [0 <= b]. *)
Definition py_slice {A} (a b : nat) (l : list A) : list A := take (b - a) (drop a l).

Lemma py_slice_length {A} a b (l : list A) :
  length (py_slice a b l) = Nat.min (b - a) (length l - a).
Proof. unfold py_slice. by rewrite length_take, length_drop. Qed.

(** Cutting [l] at [a <= b]. *)
Lemma py_slice_split {A} a b (l : list A) :
  a ≤ b → drop a l = py_slice a b l ++ drop b l.
Proof.
  intros Hab. unfold py_slice.
  rewrite <-(take_drop (b - a) (drop a l)) at 1. f_equal.
  rewrite drop_drop. f_equal. lia.
Qed.

(** ** Alignment *)

(** [x // y * y]. *)
Definition floor_align (x y : nat) : nat := x / y * y.

Lemma floor_align_le x y : floor_align x y ≤ x.
Proof.
  unfold floor_align. destruct (decide (y = 0)) as [->|]; [simpl; lia|].
  pose proof (Nat.Div0.mul_div_le x y). lia.
Qed.
Lemma floor_align_mod x y : floor_align x y `mod` y = 0.
Proof.
  unfold floor_align. destruct (decide (y = 0)) as [->|]; [simpl; lia|].
  by apply Nat.Div0.mod_mul.
Qed.
Lemma floor_align_id x y : x `mod` y = 0 → floor_align x y = x.
Proof.
  unfold floor_align. intros H.
  pose proof (Nat.div_mod_eq x y). lia.
Qed.
Lemma floor_align_mono x x' y : x ≤ x' → floor_align x y ≤ floor_align x' y.
Proof.
  intros H. unfold floor_align. destruct (decide (y = 0)) as [->|]; [simpl; lia|].
  apply Nat.mul_le_mono_r, Nat.Div0.div_le_mono; lia.
Qed.
Lemma floor_align_1 x : floor_align x 1 = x.
Proof. unfold floor_align. rewrite Nat.div_1_r. lia. Qed.
Lemma floor_align_greatest x y z : z `mod` y = 0 → z ≤ x → z ≤ floor_align x y.
Proof.
  intros Hz Hle. rewrite <-(floor_align_id z y) by done. by apply floor_align_mono.
Qed.

#[export] Hint Resolve floor_align_le floor_align_mod : py.

(** Distinct multiples of [y] are at least [y] apart. *)
Lemma aligned_lt i n y :
  i `mod` y = 0 → n `mod` y = 0 → i < n → i + y ≤ n.
Proof.
  rewrite !Nat.Lcm0.mod_divide. intros [q ->] [q' ->] Hlt.
  assert (S q ≤ q') as Hq by nia.
  apply (Nat.mul_le_mono_r _ _ y) in Hq. lia.
Qed.
Lemma aligned_add i j y : i `mod` y = 0 → j `mod` y = 0 → (i + j) `mod` y = 0.
Proof. rewrite !Nat.Lcm0.mod_divide. apply Nat.divide_add_r. Qed.
Lemma aligned_sub i j y : i `mod` y = 0 → j `mod` y = 0 → (i - j) `mod` y = 0.
Proof. rewrite !Nat.Lcm0.mod_divide. apply Nat.divide_sub_r. Qed.
Lemma aligned_self y : y `mod` y = 0.
Proof. apply Nat.Div0.mod_same. Qed.

Lemma aligned_0 y : 0 `mod` y = 0.
Proof. apply Nat.Div0.mod_0_l. Qed.

#[export] Hint Resolve aligned_add aligned_sub aligned_self aligned_0 : py.

(** ** Prefixes *)

(** Of two prefixes of a list the shorter is a prefix of the longer. *)
Lemma prefix_le {A} (l1 l2 l : list A) :
  l1 `prefix_of` l → l2 `prefix_of` l → length l1 ≤ length l2 → l1 `prefix_of` l2.
Proof.
  intros H1 H2 Hle. destruct (prefix_weak_total _ _ _ H1 H2) as [|[k Hk]]; [done|].
  rewrite Hk, length_app in Hle. destruct k; simpl in Hle; [|lia].
  by rewrite Hk, app_nil_r.
Qed.
Lemma prefix_take_eq {A} (l1 l2 : list A) j :
  l1 `prefix_of` l2 → j ≤ length l1 → take j l1 = take j l2.
Proof. intros [l ->] ?. by rewrite take_app_le. Qed.
Lemma prefix_take_id {A} (l1 l2 : list A) : l1 `prefix_of` l2 → l1 = take (length l1) l2.
Proof. intros [l ->]. by rewrite take_app_length. Qed.

(** Filters agree on a list when their predicates do on its elements. *)
Lemma filter_ext_in {A} (Q R : A → Prop) `{∀ x, Decision (Q x)} `{∀ x, Decision (R x)} (l : list A) :
  (∀ x, x ∈ l → Q x ↔ R x) → filter Q l = filter R l.
Proof.
  induction l as [|x l IH]; intros Hl; [done|]. rewrite !filter_cons, IH by (intros y Hy; apply Hl; by right).
  assert (Q x ↔ R x) as Hx by (apply Hl; by left). do 2 case_decide; tauto.
Qed.
Lemma filter_full {A} (Q : A → Prop) `{∀ x, Decision (Q x)} l : Forall Q l → filter Q l = l.
Proof. induction 1 as [|x l Hx _ IH]; [done|]. by rewrite filter_cons_True, IH. Qed.
Lemma filter_nothing {A} (Q : A → Prop) `{∀ x, Decision (Q x)} l : Forall (λ x, ¬ Q x) l → filter Q l = [].
Proof. induction 1 as [|x l Hx _ IH]; [done|]. by rewrite filter_cons_False. Qed.
Lemma elem_of_concat {A} (x : A) ls : x ∈ concat ls ↔ ∃ l, l ∈ ls ∧ x ∈ l.
Proof. rewrite list_elem_of_In, in_concat. by setoid_rewrite list_elem_of_In. Qed.
