(* ===== verification/PySort.v ===== *)
(** [list.sort] and [sorted]: a stable sort by a key.  [le x y] says that the key
    of [x] is not greater than that of [y]. *)
From S2P Require Import Prelude.
From Stdlib Require Import Sorted.
From stdpp Require Import options.

Section sort.
Context {A : Type} (le : A → A → bool).

Fixpoint py_insert (x : A) (l : list A) : list A :=
  match l with
  | [] => [x]
  | y :: l => if le x y then x :: y :: l else y :: py_insert x l
  end.
Definition py_sort (l : list A) : list A := foldr py_insert [] l.

Lemma py_insert_perm x l : py_insert x l ≡ₚ x :: l.
Proof using.
  induction l as [|y l IH]; simpl; [done|]. destruct (le x y); [done|]. rewrite IH. apply Permutation_swap.
Qed.

Lemma py_sort_perm l : py_sort l ≡ₚ l.
Proof using. induction l as [|x l IH]; simpl; [done|]. by rewrite py_insert_perm, IH. Qed.

(** Elements with keys that are not apart keep their order. *)
Lemma py_sort_stable (P : A → Prop) `{∀ x, Decision (P x)} l :
  (∀ x y, P x → P y → le x y = true) → filter P (py_sort l) = filter P l.
Proof using.
  intros HP. induction l as [|x l IH]; [done|]. cbn [py_sort foldr]. fold (py_sort l).
  assert (∀ k, filter P (py_insert x k) = if decide (P x) then x :: filter P k else filter P k) as Hi.
  { induction k as [|y k IHk]; cbn [py_insert].
    - rewrite filter_cons. done.
    - destruct (le x y) eqn:E; rewrite !filter_cons.
      + done.
      + rewrite IHk. destruct (decide (P x)) as [Hx|Hx], (decide (P y)) as [Hy|Hy]; try done.
        rewrite HP in E by done. done. }
  rewrite Hi, filter_cons, IH. done.
Qed.

Context (le_total : ∀ x y, le x y = true ∨ le y x = true).
Context (le_trans : ∀ x y z, le x y = true → le y z = true → le x z = true).

Lemma py_insert_sorted x l : StronglySorted le l → StronglySorted le (py_insert x l).
Proof using le_total le_trans.
  induction 1 as [|y l Hl IH Hy]; simpl; [by repeat constructor|].
  destruct (le x y) eqn:E.
  - constructor; [by constructor|]. constructor; [by rewrite E|].
    eapply Forall_impl; [exact Hy|]. simpl. intros z Hz%Is_true_true. apply Is_true_true. by eapply le_trans.
  - constructor; [done|]. rewrite py_insert_perm. constructor; [|done].
    destruct (le_total x y) as [|Hyx]; [congruence|by rewrite Hyx].
Qed.

Lemma py_sort_sorted l : StronglySorted le (py_sort l).
Proof using le_total le_trans. induction l; simpl; [constructor|by apply py_insert_sorted]. Qed.
End sort.
