(* ===== verification/RadixKey.v ===== *)
(** Keys of the radix tree: [class RadixKey] of
    python/sglang/srt/mem_cache/radix_cache.py.

    A key is a list of raw token ids with an optional namespace tag; in EAGLE
    mode the key is read as a list of bigrams over the raw tokens.  The logical
    units of a key ([iter]) are what prefix matching is about; every operation
    of the class is related to them. *)
From S2P Require Import Prelude.
From stdpp Require Import options.

Record RadixKey := MkRadixKey {
  token_ids : list Z;
  extra_key : option string;
  is_bigram : bool;
}.

#[global] Instance RadixKey_eq_dec : EqDecision RadixKey.
Proof. solve_decision. Defined.

(** A logical unit of a key: a token, or a bigram of tokens. *)
Inductive key_unit := UTok (t : Z) | UBi (a b : Z).

#[global] Instance key_unit_eq_dec : EqDecision key_unit.
Proof. solve_decision. Defined.

(** [__len__] *)
Definition key_len (k : RadixKey) : nat :=
  if is_bigram k then
    let n := length (token_ids k) in
    if decide (0 < n) then n - 1 else 0
  else length (token_ids k).

(** [__iter__] *)
Definition iter (k : RadixKey) : list key_unit :=
  if is_bigram k then zip_with UBi (token_ids k) (tail (token_ids k))
  else UTok <$> token_ids k.

(** [slice.indices(len)] for the default step: missing bounds default to the
    whole sequence, negative ones count from the end, both are clamped. *)
Definition slice_indices (start stop : option Z) (len : nat) : nat * nat :=
  let clamp (d : Z) (o : option Z) : nat :=
    let v := default d o in
    let v := if bool_decide (v < 0)%Z then Z.max 0 (v + Z.of_nat len)
             else Z.min v (Z.of_nat len) in
    Z.to_nat v in
  (clamp 0%Z start, clamp (Z.of_nat len) stop).

(** The body of [__getitem__] once the bounds are normalised. *)
Definition key_slice (k : RadixKey) (start stop : nat) : RadixKey :=
  if is_bigram k then
    let raw := if decide (start < stop) then py_slice start (stop + 1) (token_ids k) else [] in
    MkRadixKey raw (extra_key k) true
  else MkRadixKey (py_slice start stop (token_ids k)) (extra_key k) false.

(** [__getitem__] on a slice [start:stop:step]. *)
Definition getitem_slice (k : RadixKey) (start stop step : option Z) : result RadixKey :=
  if bool_decide (default 1%Z step = 1%Z) then
    let '(a, b) := slice_indices start stop (key_len k) in
    Ok (key_slice k a b)
  else Raise ValueError.

(** [__getitem__] on an integer. *)
Definition getitem_int (k : RadixKey) (idx : Z) : result RadixKey :=
  let len := Z.of_nat (key_len k) in
  let idx := if bool_decide (idx < 0)%Z then (idx + len)%Z else idx in
  if bool_decide (idx < 0)%Z || bool_decide (len <= idx)%Z then Raise IndexError
  else getitem_slice k (Some idx) (Some (idx + 1)%Z) None.

(** [self[:n]] and [self[n:]], the two slices the tree code takes. *)
Definition key_prefix (k : RadixKey) (n : nat) : result RadixKey :=
  getitem_slice k None (Some (Z.of_nat n)) None.
Definition key_suffix (k : RadixKey) (n : nat) : result RadixKey :=
  getitem_slice k (Some (Z.of_nat n)) None None.

(** [page_aligned] *)
Definition page_aligned (k : RadixKey) (page_size : nat) : result RadixKey :=
  if decide (page_size = 1) then Ok k
  else
    let aligned_len := key_len k / page_size * page_size in
    key_prefix k aligned_len.

(** [maybe_to_bigram_view]: the flag of the key flips, and a value paired with
    the raw tokens is cut to the bigram count. *)
Definition maybe_to_bigram_view (k : RadixKey) (is_eagle : bool) (value : option (list Z))
    : RadixKey * option (list Z) :=
  if is_eagle && negb (is_bigram k) then
    let k' := MkRadixKey (token_ids k) (extra_key k) true in
    (k', take (key_len k') <$> value)
  else (k, value).

(** [_check_compatible] *)
Definition check_compatible (k other : RadixKey) : result unit :=
  if decide (extra_key k = extra_key other) then Ok tt else Raise ValueError.

(** The [zip] loop of [match]: count equal leading elements. *)
Fixpoint common_len {A} `{EqDecision A} (t0 t1 : list A) : nat :=
  match t0, t1 with
  | a :: t0', b :: t1' => if decide (a = b) then S (common_len t0' t1') else 0
  | _, _ => 0
  end.

(** The page loop of [match]: compare page by page from [i] on. *)
Fixpoint match_pages (fuel : nat) (t0 t1 : list Z) (page_size min_len i : nat) : result nat :=
  match fuel with
  | 0 => Running
  | S fuel =>
      if decide (i < min_len) then
        if decide (py_slice i (i + page_size) t0 = py_slice i (i + page_size) t1)
        then match_pages fuel t0 t1 page_size min_len (i + page_size)
        else Ok i
      else Ok i
  end.

(** [match].  The page loop advances by [page_size >= 1], so [min_len + 1]
    rounds are enough. *)
Definition key_match (k other : RadixKey) (page_size : nat) : result nat :=
  _ ← check_compatible k other;
  let t0 := token_ids k in
  let t1 := token_ids other in
  if is_bigram k then
    let i := Z.of_nat (common_len t0 t1) in
    let matched := Z.to_nat
      (Z.max 0 (Z.min (i - 1) (Z.min (Z.of_nat (key_len k)) (Z.of_nat (key_len other))))) in
    Ok (if decide (1 < page_size) then matched / page_size * page_size else matched)
  else if decide (page_size = 1) then Ok (common_len t0 t1)
  else
    let min_len := Nat.min (key_len k) (key_len other) in
    match_pages (S min_len) t0 t1 page_size min_len 0.

(** Dictionary keys: a token, a tuple of tokens, a bigram or a tuple of
    bigrams, under the namespace tag. *)
Inductive plain_key :=
  | KTok (t : Z)
  | KToks (ts : list Z)
  | KBi (p : Z * Z)
  | KBis (ps : list (Z * Z)).

#[global] Instance plain_key_eq_dec : EqDecision plain_key.
Proof. solve_decision. Defined.
#[global] Instance plain_key_countable : Countable plain_key.
Proof.
  refine (inj_countable'
    (λ k, match k with
          | KTok t => inl (inl t) | KToks ts => inl (inr ts)
          | KBi p => inr (inl p) | KBis ps => inr (inr ps) end)
    (λ s, match s with
          | inl (inl t) => KTok t | inl (inr ts) => KToks ts
          | inr (inl p) => KBi p | inr (inr ps) => KBis ps end) _).
  by intros [].
Defined.

Abbreviation ckey := (option string * plain_key)%type.

(** [t[j], t[j+1]] for the bigrams of the first page. *)
Fixpoint bigrams (t : list Z) (n : nat) {struct n} : result (list (Z * Z)) :=
  match n with
  | 0 => Ok []
  | S n =>
      match t with
      | a :: ((b :: _) as t') => rest ← bigrams t' n; Ok ((a, b) :: rest)
      | _ => Raise IndexError
      end
  end.

(** [child_key] *)
Definition child_key (k : RadixKey) (page_size : nat) : result ckey :=
  let t := token_ids k in
  plain ←
    (if is_bigram k then
       if decide (page_size = 1) then
         match t with
         | a :: b :: _ => Ok (KBi (a, b))
         | _ => Raise IndexError
         end
       else KBis <$> bigrams t page_size
     else
       if decide (page_size = 1) then
         match t with
         | a :: _ => Ok (KTok a)
         | [] => Raise IndexError
         end
       else Ok (KToks (take page_size t)));
  Ok (extra_key k, plain).

(** ** Lemmas *)

Lemma key_len_alt k :
  key_len k = if is_bigram k then length (token_ids k) - 1 else length (token_ids k).
Proof. unfold key_len. destruct (is_bigram k); [case_decide|]; lia. Qed.

Lemma iter_length k : length (iter k) = key_len k.
Proof.
  rewrite key_len_alt. unfold iter. destruct (is_bigram k).
  - rewrite length_zip_with. destruct (token_ids k); cbn [length tail] in *; lia.
  - by rewrite length_fmap.
Qed.

Lemma zip_tail_lookup (t : list Z) i :
  zip_with UBi t (tail t) !! i =
    a ← t !! i; b ← t !! S i; Some (UBi a b).
Proof.
  rewrite lookup_zip_with. destruct t as [|x t]; [done|].
  destruct i; simpl; [done|]. done.
Qed.

Lemma py_slice_lookup {A} a b (l : list A) i :
  py_slice a b l !! i = if decide (i < b - a) then l !! (a + i) else None.
Proof.
  unfold py_slice. case_decide.
  - by rewrite lookup_take_lt, lookup_drop.
  - by rewrite lookup_take_ge by lia.
Qed.

(** Slicing a key slices its logical units. *)
Lemma key_slice_iter k a b :
  b ≤ key_len k → iter (key_slice k a b) = py_slice a b (iter k).
Proof.
  rewrite key_len_alt. intros Hb. unfold iter, key_slice.
  destruct (is_bigram k) eqn:E; simpl.
  - apply list_eq. intros i.
    rewrite py_slice_lookup, zip_tail_lookup, zip_tail_lookup.
    case_decide as Hab; [|rewrite decide_False by lia; done].
    rewrite !py_slice_lookup. repeat case_decide; try lia; simpl; try done.
    + by rewrite Nat.add_succ_r.
    + destruct (_ !! _); done.
  - unfold py_slice. by rewrite fmap_take, fmap_drop.
Qed.

Lemma key_slice_extra k a b : extra_key (key_slice k a b) = extra_key k.
Proof. unfold key_slice. by destruct (is_bigram k). Qed.
Lemma key_slice_bigram k a b : is_bigram (key_slice k a b) = is_bigram k.
Proof. unfold key_slice. by destruct (is_bigram k). Qed.

Lemma key_prefix_ok k n : key_prefix k n = Ok (key_slice k 0 (Nat.min n (key_len k))).
Proof.
  unfold key_prefix, getitem_slice, slice_indices. simpl.
  rewrite bool_decide_eq_false_2 by lia. do 2 f_equal; lia.
Qed.
Lemma key_suffix_ok k n :
  key_suffix k n = Ok (key_slice k (Nat.min n (key_len k)) (key_len k)).
Proof.
  unfold key_suffix, getitem_slice, slice_indices. simpl.
  rewrite !bool_decide_eq_false_2 by lia. do 2 f_equal; lia.
Qed.

(** What [self[:n]] and [self[n:]] do to the units; the namespace and the mode
    are kept. *)
Lemma key_prefix_spec k n :
  ∃ k', key_prefix k n = Ok k' ∧ iter k' = take n (iter k)
    ∧ extra_key k' = extra_key k ∧ is_bigram k' = is_bigram k.
Proof.
  eexists; split_and!; [apply key_prefix_ok| |apply key_slice_extra|apply key_slice_bigram].
  rewrite key_slice_iter by lia. unfold py_slice. rewrite Nat.sub_0_r, drop_0.
  destruct (decide (n ≤ key_len k)).
  - by rewrite Nat.min_l by lia.
  - rewrite !take_ge; rewrite ?iter_length; (done || lia).
Qed.
Lemma key_suffix_spec k n :
  ∃ k', key_suffix k n = Ok k' ∧ iter k' = drop n (iter k)
    ∧ extra_key k' = extra_key k ∧ is_bigram k' = is_bigram k.
Proof.
  eexists; split_and!; [apply key_suffix_ok| |apply key_slice_extra|apply key_slice_bigram].
  rewrite key_slice_iter by lia. unfold py_slice.
  rewrite take_ge by (rewrite length_drop, iter_length; lia).
  destruct (decide (n ≤ key_len k)).
  - by rewrite Nat.min_l by lia.
  - rewrite !drop_ge; rewrite ?iter_length; (done || lia).
Qed.

Lemma page_aligned_spec k ps :
  ∃ k', page_aligned k ps = Ok k' ∧ iter k' = take (floor_align (key_len k) ps) (iter k)
    ∧ extra_key k' = extra_key k ∧ is_bigram k' = is_bigram k.
Proof.
  unfold page_aligned. case_decide as Hps.
  - subst. exists k. rewrite floor_align_1, <-iter_length, take_ge; auto.
  - apply key_prefix_spec.
Qed.

Lemma maybe_to_bigram_view_spec k e v :
  (is_bigram k = true → e = true) →
  let '(k', v') := maybe_to_bigram_view k e v in
  is_bigram k' = e ∧ extra_key k' = extra_key k ∧ token_ids k' = token_ids k ∧
  (is_bigram k = e → k' = k ∧ v' = v).
Proof.
  intros He. unfold maybe_to_bigram_view.
  destruct e, (is_bigram k) eqn:E; simpl; try done; naive_solver.
Qed.

(** *** Longest common prefixes *)
Section common_len.
Context {A} `{EqDecision A}.
Implicit Types l : list A.

Lemma common_len_take l1 l2 :
  take (common_len l1 l2) l1 = take (common_len l1 l2) l2.
Proof.
  revert l2. induction l1 as [|a l1 IH]; intros [|b l2]; simpl; try done.
  case_decide; simpl; [|done]. subst. by f_equal.
Qed.
Lemma common_len_le_l l1 l2 : common_len l1 l2 ≤ length l1.
Proof.
  revert l2. induction l1 as [|a l1 IH]; intros [|b l2]; simpl; try lia.
  case_decide; [specialize (IH l2)|]; lia.
Qed.
Lemma common_len_le_r l1 l2 : common_len l1 l2 ≤ length l2.
Proof.
  revert l2. induction l1 as [|a l1 IH]; intros [|b l2]; simpl; try lia.
  case_decide; [specialize (IH l2)|]; lia.
Qed.
(** [common_len] is the greatest length on which the lists agree. *)
Lemma common_len_greatest n l1 l2 :
  n ≤ length l1 → n ≤ length l2 → take n l1 = take n l2 → n ≤ common_len l1 l2.
Proof.
  revert l1 l2. induction n as [|n IH]; intros [|a l1] [|b l2]; simpl; try lia.
  intros ?? [= -> ?]. rewrite decide_True by done.
  apply le_n_S, IH; [lia|lia|done].
Qed.
Lemma common_len_iff n l1 l2 :
  n ≤ common_len l1 l2 ↔ n ≤ length l1 ∧ n ≤ length l2 ∧ take n l1 = take n l2.
Proof.
  split; [|intros (?&?&?); by apply common_len_greatest].
  intros Hn. pose proof (common_len_le_l l1 l2). pose proof (common_len_le_r l1 l2).
  split_and!; [lia..|].
  rewrite <-(Nat.min_l n (common_len l1 l2)) by done.
  by rewrite <-!take_take, common_len_take.
Qed.
End common_len.

Lemma common_len_comm {A} `{EqDecision A} (l1 l2 : list A) :
  common_len l1 l2 = common_len l2 l1.
Proof.
  apply Nat.le_antisymm; apply common_len_iff; rewrite common_len_take;
    auto using common_len_le_l, common_len_le_r.
Qed.

Lemma common_len_fmap_tok (t0 t1 : list Z) :
  common_len (UTok <$> t0) (UTok <$> t1) = common_len t0 t1.
Proof.
  revert t1. induction t0 as [|a t0 IH]; intros [|b t1]; simpl; try done.
  repeat case_decide; simplify_eq; try done. by rewrite IH.
Qed.

(** [L] equal raw tokens are [L - 1] equal bigrams. *)
Lemma common_len_bigram (t0 t1 : list Z) :
  common_len (zip_with UBi t0 (tail t0)) (zip_with UBi t1 (tail t1))
  = common_len t0 t1 - 1.
Proof.
  revert t1. induction t0 as [|a t0 IH]; intros [|b t1]; simpl; try done.
  { by destruct t0. }
  destruct t0 as [|a' t0], t1 as [|b' t1]; simpl.
  1-3: by repeat case_decide.
  specialize (IH (b' :: t1)). simpl in IH.
  repeat case_decide; simplify_eq; simpl in *; try lia.
Qed.

(** *** [match] *)

Lemma take_eq_slices {A} (t0 t1 : list A) i n :
  take i t0 = take i t1 → i ≤ n →
  take n t0 = take n t1 ↔ py_slice i n t0 = py_slice i n t1.
Proof.
  intros Hi Hn. unfold py_slice.
  assert (∀ t : list A, take n t = take i t ++ take (n - i) (drop i t)) as Hsplit.
  { intros t. rewrite <-(take_drop i (take n t)), take_take, Nat.min_l by done. f_equal.
    by rewrite take_drop_commute, Nat.add_comm, Nat.sub_add by done. }
  rewrite !Hsplit, Hi. split; [by intros ?%app_inv_head|by intros ->].
Qed.

(** The page loop finds the longest common prefix rounded down to pages. *)
Lemma match_pages_spec fuel t0 t1 ps i :
  1 ≤ ps →
  length t0 `mod` ps = 0 → length t1 `mod` ps = 0 → i `mod` ps = 0 →
  i ≤ common_len t0 t1 →
  Nat.min (length t0) (length t1) < fuel + i →
  match_pages fuel t0 t1 ps (Nat.min (length t0) (length t1)) i
  = Ok (floor_align (common_len t0 t1) ps).
Proof.
  intros Hps H0 H1. revert i. induction fuel as [|fuel IH]; intros i Hi Hle Hfuel.
  { pose proof (common_len_le_l t0 t1). pose proof (common_len_le_r t0 t1). lia. }
  simpl. pose proof (common_len_le_l t0 t1) as Hl. pose proof (common_len_le_r t0 t1) as Hr.
  pose proof Hle as (_&_&Htake)%common_len_iff.
  case_decide as Hlt.
  - assert (i + ps ≤ length t0) by (apply aligned_lt; auto with lia).
    assert (i + ps ≤ length t1) by (apply aligned_lt; auto with lia).
    case_decide as Heq.
    + apply IH; [|apply common_len_iff; split_and!; [done..|]|lia].
      * auto with py.
      * by apply (take_eq_slices t0 t1 i (i + ps) Htake); [lia|].
    + f_equal. apply Nat.le_antisymm; [by apply floor_align_greatest|].
      destruct (decide (i < floor_align (common_len t0 t1) ps)) as [Hc|Hc]; [|lia].
      destruct Heq. apply (take_eq_slices t0 t1 i (i + ps) Htake); [lia|].
      apply (common_len_iff (i + ps)).
      etrans; [apply aligned_lt; [done| |exact Hc]|]; auto with py.
  - f_equal. assert (i = common_len t0 t1) as <- by lia. by rewrite floor_align_id.
Qed.

(** [match] returns the number of leading logical units the keys share, rounded
    down to whole pages. *)
Lemma key_match_spec k1 k2 ps :
  1 ≤ ps →
  extra_key k1 = extra_key k2 →
  is_bigram k1 = is_bigram k2 →
  key_len k1 `mod` ps = 0 → key_len k2 `mod` ps = 0 →
  key_match k1 k2 ps = Ok (floor_align (common_len (iter k1) (iter k2)) ps).
Proof.
  intros Hps Hx Hb H1 H2. unfold key_match, check_compatible, iter.
  rewrite (decide_True _ _ Hx), <-Hb. cbn [mbind result_bind].
  rewrite key_len_alt in H1, H2. rewrite !key_len_alt, <-Hb in *.
  destruct (is_bigram k1).
  - rewrite common_len_bigram. f_equal.
    set (i := common_len _ _).
    assert (i ≤ length (token_ids k1)) by apply common_len_le_l.
    assert (i ≤ length (token_ids k2)) by apply common_len_le_r.
    replace (Z.to_nat _) with (i - 1) by lia.
    case_decide; [done|]. by replace ps with 1 by lia; rewrite floor_align_1.
  - rewrite common_len_fmap_tok. case_decide; [by subst; rewrite floor_align_1|].
    apply match_pages_spec; auto with py lia.
Qed.

(** Keys of different namespaces are refused. *)
Lemma key_match_namespace k1 k2 ps :
  extra_key k1 ≠ extra_key k2 → key_match k1 k2 ps = Raise ValueError.
Proof. intros H. unfold key_match, check_compatible. by rewrite (decide_False _ _ H). Qed.

(** *** [child_key] *)

Lemma bigrams_ok t n :
  n < length t → ∃ l, bigrams t n = Ok l
    ∧ (λ p, UBi p.1 p.2) <$> l = take n (zip_with UBi t (tail t)).
Proof.
  revert t. induction n as [|n IH]; intros t Hn; simpl.
  { exists []. by rewrite take_0. }
  destruct t as [|a [|b t]]; simpl in Hn; [lia..|].
  destruct (IH (b :: t)) as (l & -> & Hl); [simpl; lia|].
  exists ((a, b) :: l). split; [done|]. rewrite fmap_cons, Hl. done.
Qed.

(** The child key of a key of at least one page is defined, and two such keys
    of the same mode have the same child key exactly when they are in the same
    namespace and agree on their first page. *)
Lemma child_key_ok k ps :
  1 ≤ ps → ps ≤ key_len k → ∃ ck, child_key k ps = Ok ck.
Proof.
  rewrite key_len_alt. intros Hps Hlen. unfold child_key.
  destruct (is_bigram k); case_decide; simpl.
  - destruct (token_ids k) as [|a [|b t]]; simpl in *; [lia..|]. eauto.
  - destruct (bigrams_ok (token_ids k) ps) as (l & -> & _); [lia|]. eauto.
  - destruct (token_ids k) as [|a t]; simpl in *; [lia|]. eauto.
  - eauto.
Qed.

Lemma child_key_extra k ps ck : child_key k ps = Ok ck → ck.1 = extra_key k.
Proof. unfold child_key. intros H. destruct (if is_bigram k then _ else _); by simplify_eq/=. Qed.

Lemma child_key_page k1 k2 ps c1 c2 :
  1 ≤ ps → ps ≤ key_len k1 → ps ≤ key_len k2 → is_bigram k1 = is_bigram k2 →
  child_key k1 ps = Ok c1 → child_key k2 ps = Ok c2 →
  c1 = c2 ↔ extra_key k1 = extra_key k2 ∧ take ps (iter k1) = take ps (iter k2).
Proof.
  rewrite !key_len_alt. intros Hps Hl1 Hl2 Hb. unfold child_key, iter.
  rewrite <-Hb in *. destruct (is_bigram k1); case_decide; simpl.
  - subst ps. destruct (token_ids k1) as [|a1 [|b1 t1]], (token_ids k2) as [|a2 [|b2 t2]];
      simpl in *; try lia. intros [= <-] [= <-]. rewrite !take_0.
    split; [by intros [= -> -> ->]|by intros [-> [= -> ->]]].
  - destruct (bigrams_ok (token_ids k1) ps) as (l1 & -> & <-); [lia|].
    destruct (bigrams_ok (token_ids k2) ps) as (l2 & -> & <-); [lia|].
    intros [= <-] [= <-]. split; [by intros [= -> ->]|]. intros [-> Hpg]. do 2 f_equal.
    assert (Inj (=) (=) (λ p : Z * Z, UBi p.1 p.2)) by (intros [] [] [= -> ->]; done).
    by apply (inj (fmap (λ p : Z * Z, UBi p.1 p.2))) in Hpg.
  - subst ps. destruct (token_ids k1) as [|a1 t1], (token_ids k2) as [|a2 t2];
      simpl in *; try lia. intros [= <-] [= <-]. rewrite !take_0.
    split; [by intros [= -> ->]|by intros [-> [= ->]]].
  - intros [= <-] [= <-]. rewrite <-!fmap_take. split; [by intros [= -> ->]|].
    intros [-> Hpg]. do 2 f_equal.
    assert (Inj (=) (=) UTok) by (by intros ?? [= ->]).
    by apply (inj (fmap UTok)) in Hpg.
Qed.

(** ** Tagged units

    The logical units of a key tagged with its namespace: keys of different
    namespaces share no tagged unit, so prefixes of tagged units are what the
    tree stores. *)
Abbreviation tunit := (option string * key_unit)%type.

Definition titer (k : RadixKey) : list tunit := pair (extra_key k) <$> iter k.

Lemma titer_length k : length (titer k) = key_len k.
Proof. unfold titer. by rewrite length_fmap, iter_length. Qed.

Lemma titer_slice k k' (f : list key_unit → list key_unit) (f' : list tunit → list tunit) :
  iter k' = f (iter k) → extra_key k' = extra_key k →
  (∀ ns l, pair ns <$> f l = f' (pair ns <$> l)) → titer k' = f' (titer k).
Proof. intros Hi He Hf. unfold titer. by rewrite Hi, He. Qed.

(** The slices the tree takes, on tagged units. *)
Lemma key_prefix_titer k n :
  ∃ k', key_prefix k n = Ok k' ∧ titer k' = take n (titer k) ∧ is_bigram k' = is_bigram k
    ∧ extra_key k' = extra_key k.
Proof.
  destruct (key_prefix_spec k n) as (k' & ? & ? & ? & ?). exists k'. split_and!; [done| |done..].
  eapply titer_slice; [done..|]. intros; apply fmap_take.
Qed.
Lemma key_suffix_titer k n :
  ∃ k', key_suffix k n = Ok k' ∧ titer k' = drop n (titer k) ∧ is_bigram k' = is_bigram k
    ∧ extra_key k' = extra_key k.
Proof.
  destruct (key_suffix_spec k n) as (k' & ? & ? & ? & ?). exists k'. split_and!; [done| |done..].
  eapply titer_slice; [done..|]. intros; apply fmap_drop.
Qed.
Lemma page_aligned_titer k ps :
  ∃ k', page_aligned k ps = Ok k' ∧ titer k' = take (floor_align (key_len k) ps) (titer k)
    ∧ is_bigram k' = is_bigram k ∧ extra_key k' = extra_key k.
Proof.
  destruct (page_aligned_spec k ps) as (k' & ? & ? & ? & ?). exists k'. split_and!; [done| |done..].
  eapply titer_slice; [done..|]. intros; apply fmap_take.
Qed.

Lemma common_len_tag (ns : option string) (l1 l2 : list key_unit) :
  common_len (pair ns <$> l1) (pair ns <$> l2) = common_len l1 l2.
Proof.
  revert l2. induction l1 as [|a l1 IH]; intros [|b l2]; simpl; try done.
  repeat case_decide; simplify_eq; try done. f_equal. apply IH.
Qed.

Lemma key_match_titer k1 k2 ps :
  1 ≤ ps → extra_key k1 = extra_key k2 → is_bigram k1 = is_bigram k2 →
  key_len k1 `mod` ps = 0 → key_len k2 `mod` ps = 0 →
  key_match k1 k2 ps = Ok (floor_align (common_len (titer k1) (titer k2)) ps).
Proof.
  intros Hps Hx Hb H1 H2. rewrite key_match_spec by done. unfold titer.
  by rewrite Hx, common_len_tag.
Qed.

(** Child keys are the first pages of tagged units. *)
Lemma child_key_titer k1 k2 ps c1 c2 :
  1 ≤ ps → ps ≤ key_len k1 → ps ≤ key_len k2 → is_bigram k1 = is_bigram k2 →
  child_key k1 ps = Ok c1 → child_key k2 ps = Ok c2 →
  c1 = c2 ↔ take ps (titer k1) = take ps (titer k2).
Proof.
  intros Hps Hl1 Hl2 Hb Hc1 Hc2. rewrite (child_key_page k1 k2 ps) by done.
  unfold titer. rewrite <-!fmap_take. split; [by intros [-> ->]|]. intros Heq.
  rewrite <-iter_length in Hl1, Hl2.
  assert (extra_key k1 = extra_key k2) as Hx.
  { destruct ps, (iter k1), (iter k2); simpl in *; try lia. congruence. }
  split; [done|]. rewrite Hx in Heq.
  assert (Inj (=) (=) (@pair (option string) key_unit (extra_key k2))) by (by intros ?? [= ->]).
  by apply (inj (fmap (pair (extra_key k2)))) in Heq.
Qed.
