(* ===== verification/TreeNode.v ===== *)
(** Tree nodes ([class TreeNode] of radix_cache.py), the outside world the tree
    reads (the monotonic clock and SHA-256), and the page hashes of a node
    (mem_cache/utils.py). *)
From S2P Require Import Prelude RadixKey.
From stdpp Require Import options.

(** What the standard library supplies: the reading of [time.monotonic()] at
    its [n]-th call, and [hashlib.sha256(bytes).hexdigest()]. *)
Class Env := {
  monotonic : nat → Z;
  sha256_hex : list Z → string;
}.

(** The clock does not go backwards. *)
Class EnvLaws `{Env} : Prop := {
  monotonic_le : ∀ i j, i ≤ j → (monotonic i <= monotonic j)%Z;
}.

(** A node object.  Nodes are shared and mutated in place, so they live in a
    store and refer to each other by identity; [nid] is the node's identity.
    [nkey] of a node under construction is the empty key until it is assigned. *)
Record TreeNode := MkNode {
  children : gmap ckey nat;
  parent : option nat;
  nkey : RadixKey;
  value : option (list Z);
  lock_ref : Z;
  last_access_time : Z;
  creation_time : Z;
  hit_count : Z;
  host_ref_counter : Z;
  host_value : option (list Z);
  hash_value : option (list string);
  priority : Z;
  nid : nat;
}.

(** [TreeNode.__init__]: [t1] and [t2] are the two clock readings. *)
Definition new_TreeNode (t1 t2 prio : Z) (id : nat) : TreeNode := {|
  children := ∅;
  parent := None;
  nkey := MkRadixKey [] None false;
  value := None;
  lock_ref := 0;
  last_access_time := t1;
  creation_time := t2;
  hit_count := 0;
  host_ref_counter := 0;
  host_value := None;
  hash_value := None;
  priority := prio;
  nid := id;
|}.

Definition evicted (x : TreeNode) : bool :=
  match value x with None => true | Some _ => false end.
Definition backuped (x : TreeNode) : bool :=
  match host_value x with None => false | Some _ => true end.

(** Assignments to single fields. *)
Definition set_children (f : gmap ckey nat → gmap ckey nat) (x : TreeNode) : TreeNode :=
  MkNode (f (children x)) (parent x) (nkey x) (value x) (lock_ref x) (last_access_time x)
    (creation_time x) (hit_count x) (host_ref_counter x) (host_value x) (hash_value x)
    (priority x) (nid x).
Definition set_lock_ref (f : Z → Z) (x : TreeNode) : TreeNode :=
  MkNode (children x) (parent x) (nkey x) (value x) (f (lock_ref x)) (last_access_time x)
    (creation_time x) (hit_count x) (host_ref_counter x) (host_value x) (hash_value x)
    (priority x) (nid x).
Definition set_last_access_time (t : Z) (x : TreeNode) : TreeNode :=
  MkNode (children x) (parent x) (nkey x) (value x) (lock_ref x) t
    (creation_time x) (hit_count x) (host_ref_counter x) (host_value x) (hash_value x)
    (priority x) (nid x).
Definition set_hit_count (f : Z → Z) (x : TreeNode) : TreeNode :=
  MkNode (children x) (parent x) (nkey x) (value x) (lock_ref x) (last_access_time x)
    (creation_time x) (f (hit_count x)) (host_ref_counter x) (host_value x) (hash_value x)
    (priority x) (nid x).
Definition set_host_ref_counter (f : Z → Z) (x : TreeNode) : TreeNode :=
  MkNode (children x) (parent x) (nkey x) (value x) (lock_ref x) (last_access_time x)
    (creation_time x) (hit_count x) (f (host_ref_counter x)) (host_value x) (hash_value x)
    (priority x) (nid x).
Definition set_hash_value (h : option (list string)) (x : TreeNode) : TreeNode :=
  MkNode (children x) (parent x) (nkey x) (value x) (lock_ref x) (last_access_time x)
    (creation_time x) (hit_count x) (host_ref_counter x) (host_value x) h
    (priority x) (nid x).
Definition set_priority (f : Z → Z) (x : TreeNode) : TreeNode :=
  MkNode (children x) (parent x) (nkey x) (value x) (lock_ref x) (last_access_time x)
    (creation_time x) (hit_count x) (host_ref_counter x) (host_value x) (hash_value x)
    (f (priority x)) (nid x).

(** [protect_host] and [release_host] *)
Definition protect_host (x : TreeNode) : TreeNode := set_host_ref_counter (λ c, c + 1)%Z x.
Definition release_host (x : TreeNode) : result TreeNode :=
  if bool_decide (0 < host_ref_counter x)%Z
  then Ok (set_host_ref_counter (λ c, c - 1)%Z x)
  else Raise RuntimeError.

(** [get_last_hash_value] *)
Definition get_last_hash_value (x : TreeNode) : option string :=
  match hash_value x with None => None | Some hs => last hs end.

(** [TreeNode.__lt__] *)
Definition node_lt (x y : TreeNode) : bool :=
  bool_decide (last_access_time x < last_access_time y)%Z.

(** ** Hashing *)

(** [int.to_bytes(4, "little", signed=False)]; a value that does not fit raises
    OverflowError, an ArithmeticError kept here as ValueError. *)
Definition to_bytes4 (t : Z) : result (list Z) :=
  if bool_decide (0 <= t < 2 ^ 32)%Z then
    Ok [Z.land t 255; Z.land (Z.shiftr t 8) 255;
        Z.land (Z.shiftr t 16) 255; Z.land (Z.shiftr t 24) 255]
  else Raise ValueError.

Definition hex_digit (a : Ascii.ascii) : option Z :=
  let n := Z.of_nat (Ascii.nat_of_ascii a) in
  if bool_decide (48 <= n <= 57)%Z then Some (n - 48)%Z
  else if bool_decide (97 <= n <= 102)%Z then Some (n - 87)%Z
  else if bool_decide (65 <= n <= 70)%Z then Some (n - 55)%Z
  else None.

(** [bytes.fromhex] on a string without spaces. *)
Fixpoint fromhex (s : string) : result (list Z) :=
  match s with
  | EmptyString => Ok []
  | String a (String b s') =>
      hi ← unwrap ValueError (hex_digit a);
      lo ← unwrap ValueError (hex_digit b);
      rest ← fromhex s';
      Ok ((16 * hi + lo)%Z :: rest)
  | String _ EmptyString => Raise ValueError
  end.

(** [int(s, 16)] on a string of hex digits, accumulating from the left. *)
Fixpoint int_of_hex (acc : Z) (s : string) : result Z :=
  match s with
  | EmptyString => Ok acc
  | String a s' => d ← unwrap ValueError (hex_digit a); int_of_hex (16 * acc + d)%Z s'
  end.

(** [hash_str_to_int64]: the first sixteen hex digits read as a signed 64-bit
    integer. *)
Definition hash_str_to_int64 (s : string) : result Z :=
  match String.substring 0 16 s with
  | EmptyString => Raise ValueError
  | s16 =>
      v ← int_of_hex 0 s16;
      Ok (if bool_decide (2 ^ 63 <= v)%Z then (v - 2 ^ 64)%Z else v)
  end.

Section hashing.
Context `{Env}.

(** The bytes fed to the hasher for the units [start, end) of a key. *)
Fixpoint page_bytes (k : RadixKey) (start n : nat) : result (list Z) :=
  match n with
  | 0 => Ok []
  | S n =>
      t0 ← unwrap IndexError (token_ids k !! start);
      b0 ← to_bytes4 t0;
      b1 ← (if is_bigram k then
              t1 ← unwrap IndexError (token_ids k !! S start); to_bytes4 t1
            else Ok []);
      rest ← page_bytes k (S start) n;
      Ok (b0 ++ b1 ++ rest)
  end.

(** [RadixKey.hash_page] *)
Definition hash_page (k : RadixKey) (start stop : nat) (prior_hash : option string)
    : result string :=
  prior ← (match prior_hash with
           | Some h => if decide (h = EmptyString) then Ok [] else fromhex h
           | None => Ok []
           end);
  body ← page_bytes k start (stop - start);
  Ok (sha256_hex (prior ++ body)).

(** The page loop of [compute_node_hash_values]: [n] pages from [start] on. *)
Fixpoint hash_pages (k : RadixKey) (page_size len start n : nat) (parent_hash : option string)
    : result (list string) :=
  match n with
  | 0 => Ok []
  | S n =>
      if decide (start < len) then
        h ← hash_page k start (Nat.min (start + page_size) len) parent_hash;
        rest ← hash_pages k page_size len (start + page_size) n (Some h);
        Ok (h :: rest)
      else Ok []
  end.

(** [compute_node_hash_values]: the parent's last page hash seeds the chain. *)
Definition compute_node_hash_values (node : TreeNode) (parent_node : option TreeNode)
    (page_size : nat) : result (list string) :=
  let parent_hash :=
    match parent_node with
    | Some p =>
        match hash_value p with
        | Some hs => if decide (0 < key_len (nkey p)) then last hs else None
        | None => None
        end
    | None => None
    end in
  hash_pages (nkey node) page_size (key_len (nkey node)) 0 (key_len (nkey node)) parent_hash.
End hashing.

(** [split_node_hash_value] *)
Definition split_node_hash_value (child_hash : option (list string)) (split_len page_size : nat)
    : option (list string) * option (list string) :=
  match child_hash with
  | None => (None, None)
  | Some hs =>
      let split_pages := if decide (page_size = 1) then split_len else split_len / page_size in
      (Some (take split_pages hs), Some (drop split_pages hs))
  end.
