(* ===== verification/EvictPolicy.v ===== *)
(** Eviction strategies (mem_cache/evict_policy.py) and the priority queue the
    eviction loop pops from. *)
From S2P Require Import Prelude RadixKey TreeNode.
From stdpp Require Import options.

Inductive EvictionStrategy :=
  | LRUStrategy
  | LFUStrategy
  | FIFOStrategy
  | MRUStrategy
  | FILOStrategy
  | PriorityStrategy
  | SLRUStrategy (protected_threshold : Z).

(** [get_priority]: a float or a tuple, kept as the list of its components. *)
Definition get_priority (st : EvictionStrategy) (node : TreeNode) : list Z :=
  match st with
  | LRUStrategy => [last_access_time node]
  | LFUStrategy => [hit_count node; last_access_time node]
  | FIFOStrategy => [creation_time node]
  | MRUStrategy => [(- last_access_time node)%Z]
  | FILOStrategy => [(- creation_time node)%Z]
  | PriorityStrategy => [priority node; last_access_time node]
  | SLRUStrategy protected_threshold =>
      let is_protected := if bool_decide (protected_threshold <= hit_count node)%Z then 1%Z else 0%Z in
      [is_protected; last_access_time node]
  end.

(** The policy names the cache accepts, after lower-casing. *)
Definition strategy_of_policy (eviction_policy : string) : result EvictionStrategy :=
  if decide (eviction_policy = "lru") then Ok LRUStrategy
  else if decide (eviction_policy = "lfu") then Ok LFUStrategy
  else if decide (eviction_policy = "fifo") then Ok FIFOStrategy
  else if decide (eviction_policy = "mru") then Ok MRUStrategy
  else if decide (eviction_policy = "filo") then Ok FILOStrategy
  else if decide (eviction_policy = "priority") then Ok PriorityStrategy
  else if decide (eviction_policy = "slru") then Ok (SLRUStrategy 2)
  else Raise ValueError.

(** Python's order on tuples of numbers. *)
Fixpoint lex_lt (p q : list Z) : bool :=
  match p, q with
  | [], [] => false
  | [], _ :: _ => true
  | _ :: _, [] => false
  | a :: p', b :: q' => if decide (a = b) then lex_lt p' q' else bool_decide (a < b)%Z
  end.

(** An entry of the eviction heap: the priority and the node. *)
Record heap_item := MkItem { item_prio : list Z; item_id : nat; item_node : TreeNode }.

(** [(priority, node) < (priority, node)]: the priority decides, and nodes of
    equal priority are compared by [TreeNode.__lt__] (which is false of a node
    and itself, as the tuple comparison is for identical nodes). *)
Definition item_lt (a b : heap_item) : bool :=
  if decide (item_prio a = item_prio b) then node_lt (item_node a) (item_node b)
  else lex_lt (item_prio a) (item_prio b).

(** [heapq.heappop]: remove and return a smallest item. *)
Fixpoint heappop (h : list heap_item) : option (heap_item * list heap_item) :=
  match h with
  | [] => None
  | x :: h' =>
      match heappop h' with
      | None => Some (x, [])
      | Some (m, rest) => if item_lt m x then Some (m, x :: rest) else Some (x, h')
      end
  end.

(** [heapq.heappush] *)
Definition heappush (h : list heap_item) (x : heap_item) : list heap_item := x :: h.

(** ** Lemmas *)

Lemma lex_lt_irrefl p : lex_lt p p = false.
Proof. induction p as [|a p IH]; [done|]. simpl. by rewrite decide_True. Qed.

Lemma lex_lt_trans p q r : lex_lt p q = true → lex_lt q r = true → lex_lt p r = true.
Proof.
  revert q r. induction p as [|a p IH]; intros [|b q] [|c r]; simpl; try done.
  repeat case_decide; subst; try done; rewrite ?bool_decide_eq_true; try lia; eauto.
Qed.

Lemma lex_lt_total p q : lex_lt p q = false → p ≠ q → lex_lt q p = true.
Proof.
  revert q. induction p as [|a p IH]; intros [|b q]; simpl; try done.
  repeat case_decide; subst; try done.
  - intros Hlt Hne. apply IH; [done|]. congruence.
  - rewrite bool_decide_eq_false, bool_decide_eq_true. lia.
Qed.

(** [item_lt] is a strict weak order: "not smaller" is transitive. *)
Lemma item_lt_irrefl a : item_lt a a = false.
Proof.
  unfold item_lt, node_lt. rewrite decide_True by done. apply bool_decide_eq_false. lia.
Qed.

Lemma lex_nlt_trans p q r : lex_lt q p = false → lex_lt r q = false → lex_lt r p = false.
Proof.
  intros Hqp Hrq. destruct (lex_lt r p) eqn:E; [|done].
  destruct (decide (r = q)) as [->|Hne]; [congruence|].
  apply lex_lt_total in Hrq; [|done]. rewrite (lex_lt_trans q r p) in Hqp; done.
Qed.

Lemma item_nlt_trans a b c : item_lt b a = false → item_lt c b = false → item_lt c a = false.
Proof.
  unfold item_lt, node_lt. intros Hab Hbc.
  destruct (decide (item_prio b = item_prio a)) as [Eba|Nba],
    (decide (item_prio c = item_prio b)) as [Ecb|Ncb].
  - rewrite decide_True by congruence. rewrite bool_decide_eq_false in *. lia.
  - rewrite decide_False by congruence. congruence.
  - rewrite decide_False by congruence. congruence.
  - destruct (decide (item_prio c = item_prio a)) as [E|N].
    + rewrite E in Hbc. apply lex_lt_total in Hbc; congruence.
    + by eapply lex_nlt_trans.
Qed.

Lemma item_lt_asym a b : item_lt a b = true → item_lt b a = false.
Proof.
  unfold item_lt, node_lt. destruct (decide (item_prio a = item_prio b)) as [E|N].
  - rewrite decide_True, bool_decide_eq_true, bool_decide_eq_false by done. lia.
  - rewrite decide_False by congruence. intros Hab. destruct (lex_lt (item_prio b) _) eqn:Hba; [|done].
    pose proof (lex_lt_trans _ _ _ Hab Hba) as Hc. by rewrite lex_lt_irrefl in Hc.
Qed.

(** [heappop] takes one item out, and no remaining item is smaller. *)
Lemma heappop_spec h :
  match heappop h with
  | None => h = []
  | Some (m, rest) => h ≡ₚ m :: rest ∧ Forall (λ y, item_lt y m = false) rest
  end.
Proof.
  induction h as [|x h IH]; simpl; [done|].
  destruct (heappop h) as [[m rest]|]; [|by subst; auto].
  destruct IH as [Hp Hall]. destruct (item_lt m x) eqn:E.
  - split; [rewrite Hp; apply Permutation_swap|].
    constructor; [by apply item_lt_asym|done].
  - split; [done|]. rewrite Hp. constructor; [done|].
    eapply Forall_impl; [exact Hall|]. intros y Hy. by eapply item_nlt_trans.
Qed.
