(* ===== verification/RadixCache.v ===== *)
(** The radix cache ([class RadixCache] of mem_cache/radix_cache.py) and its
    event emission (mem_cache/events.py): the state, and one definition per
    method.  The theorems are in the Radix* files that follow.

    The node objects live in a store [nodes]; the allocator the cache frees
    slots to is used through the interface [KVAllocator]. *)
From S2P Require Import Prelude RadixKey TreeNode EvictPolicy.
From stdpp Require Import options.

(** What the cache calls on [token_to_kv_pool_allocator]. *)
Class KVAllocator (A : Type) := {
  kv_free : list Z → A → result A;
  kv_available_size : A → Z;
}.

(** What the cache relies on: [kv_count a i] is how often the allocator [a] holds
    slot [i] as free.  Freeing [l] never fails and adds the slots [kv_gives a l], once
    each: an allocator of pages takes the pages of [l] back in whole.  For the lists
    with [kv_fits] (whole pages) these are the slots of [l] themselves.  Freeing does
    not change any of this, nor whether frees take effect at once ([kv_open]). *)
Class KVAllocatorLaws (A : Type) `{KVAllocator A} := {
  kv_ok : A → Prop;
  kv_fits : A → list Z → Prop;
  kv_count : A → Z → Z;
  kv_open : A → bool;
  kv_gives : A → list Z → list Z;
  kv_gives_fits : ∀ a l i, kv_ok a → kv_fits a l → occ i (kv_gives a l) = occ i l;
  kv_free_gives : ∀ a l, kv_ok a →
    ∃ a', kv_free l a = Ok a' ∧ kv_ok a' ∧ (∀ i, kv_count a' i = (kv_count a i + occ i (kv_gives a l))%Z)
      ∧ ((∀ l', kv_fits a' l' ↔ kv_fits a l') ∧ kv_open a' = kv_open a ∧ ∀ l', kv_gives a' l' = kv_gives a l');
}.

(** Allocators that take back the same lists in the same way. *)
Definition kv_like {A} `{KVAllocatorLaws A} (a a' : A) : Prop :=
  (∀ l', kv_fits a' l' ↔ kv_fits a l') ∧ kv_open a' = kv_open a ∧ ∀ l', kv_gives a' l' = kv_gives a l'.

#[global] Instance kv_like_preorder {A} `{KVAllocatorLaws A} : PreOrder kv_like.
Proof.
  split; [done|]. intros a b c (H1 & H2 & H3) (H4 & H5 & H6).
  split_and!; [intros l; by rewrite H4, H1|congruence|intros l; by rewrite H6, H3].
Qed.

(** Freeing whole pages. *)
Lemma kv_free_ok {A} `{KVAllocatorLaws A} (a : A) l :
  kv_ok a → kv_fits a l →
  ∃ a', kv_free l a = Ok a' ∧ kv_ok a' ∧ (∀ i, kv_count a' i = (kv_count a i + occ i l)%Z) ∧ kv_like a a'.
Proof.
  intros Ha Hl. destruct (kv_free_gives a l Ha) as (a' & E & Ha' & Hc & Hlike). exists a'. split_and!; [done|done| |done].
  intros i. by rewrite Hc, kv_gives_fits.
Qed.

(** KV cache events (disaggregation/kv_events.py) as far as the tree fills
    them in; the medium is the GPU in every call of this class. *)
Inductive KVCacheEvent :=
  | BlockStored (block_hash : Z) (parent_block_hash : option Z)
      (page_tokens : list key_unit) (block_size : nat)
  | BlockRemoved (block_hash : Z)
  | AllBlocksCleared.

(** The fixed parameters of a cache. *)
Record CacheConfig := MkConfig {
  disable : bool;
  page_size : nat;
  is_eagle : bool;
  enable_kv_cache_events : bool;
  disable_finished_insert : bool;
  eviction_strategy : EvictionStrategy;
}.

Record RadixCache (A : Type) := MkCache {
  cfg : CacheConfig;
  root_node : nat;
  nodes : gmap nat TreeNode;
  counter : nat;
  ticks : nat;
  evictable_size_ : Z;
  protected_size_ : Z;
  evictable_leaves : gset nat;
  kv_event_queue : list KVCacheEvent;
  allocator : A;
}.
Arguments MkCache {A}.
Arguments cfg {A}. Arguments root_node {A}. Arguments nodes {A}. Arguments counter {A}.
Arguments ticks {A}. Arguments evictable_size_ {A}. Arguments protected_size_ {A}.
Arguments evictable_leaves {A}. Arguments kv_event_queue {A}. Arguments allocator {A}.

Section radix_cache.
Context `{Env} {A : Type} `{KVAllocator A}.
Abbreviation cache := (RadixCache A).
Abbreviation M := (ST cache).

(** Assignments to single attributes of the cache. *)
Definition set_nodes (f : gmap nat TreeNode → gmap nat TreeNode) (c : cache) : cache :=
  MkCache (cfg c) (root_node c) (f (nodes c)) (counter c) (ticks c) (evictable_size_ c)
    (protected_size_ c) (evictable_leaves c) (kv_event_queue c) (allocator c).
Definition set_counter (n : nat) (c : cache) : cache :=
  MkCache (cfg c) (root_node c) (nodes c) n (ticks c) (evictable_size_ c)
    (protected_size_ c) (evictable_leaves c) (kv_event_queue c) (allocator c).
Definition set_ticks (n : nat) (c : cache) : cache :=
  MkCache (cfg c) (root_node c) (nodes c) (counter c) n (evictable_size_ c)
    (protected_size_ c) (evictable_leaves c) (kv_event_queue c) (allocator c).
Definition add_evictable (d : Z) (c : cache) : cache :=
  MkCache (cfg c) (root_node c) (nodes c) (counter c) (ticks c) (evictable_size_ c + d)%Z
    (protected_size_ c) (evictable_leaves c) (kv_event_queue c) (allocator c).
Definition add_protected (d : Z) (c : cache) : cache :=
  MkCache (cfg c) (root_node c) (nodes c) (counter c) (ticks c) (evictable_size_ c)
    (protected_size_ c + d)%Z (evictable_leaves c) (kv_event_queue c) (allocator c).
Definition set_leaves (f : gset nat → gset nat) (c : cache) : cache :=
  MkCache (cfg c) (root_node c) (nodes c) (counter c) (ticks c) (evictable_size_ c)
    (protected_size_ c) (f (evictable_leaves c)) (kv_event_queue c) (allocator c).
Definition set_queue (f : list KVCacheEvent → list KVCacheEvent) (c : cache) : cache :=
  MkCache (cfg c) (root_node c) (nodes c) (counter c) (ticks c) (evictable_size_ c)
    (protected_size_ c) (evictable_leaves c) (f (kv_event_queue c)) (allocator c).
Definition set_allocator (a : A) (c : cache) : cache :=
  MkCache (cfg c) (root_node c) (nodes c) (counter c) (ticks c) (evictable_size_ c)
    (protected_size_ c) (evictable_leaves c) (kv_event_queue c) a.

(** Attribute access on node objects. *)
Definition get_node (n : nat) : M TreeNode := λ c,
  match nodes c !! n with Some x => Ok (x, c) | None => Raise Dangling end.
Definition put_node (n : nat) (x : TreeNode) : M unit := st_modify (set_nodes <[n := x]>).
Definition upd_node (n : nat) (f : TreeNode → TreeNode) : M unit :=
  x ← get_node n; put_node n (f x).

(** [time.monotonic()] *)
Definition time_monotonic : M Z := λ c, Ok (monotonic (ticks c), set_ticks (S (ticks c)) c).

(** [TreeNode(priority=prio)]: a fresh object, numbered by [TreeNode.counter]. *)
Definition make_TreeNode (prio : Z) : M TreeNode :=
  t1 ← time_monotonic;
  t2 ← time_monotonic;
  id ← st_gets counter;
  _ ← st_modify (set_counter (S id));
  mret (new_TreeNode t1 t2 prio id).

(** ** Events *)

(** The page loop of [_record_store_event]: [n] pages from [start] on. *)
Fixpoint store_events (k : RadixKey) (hs : list string) (ps len start n : nat)
    (page_index : nat) (parent_block_hash : option Z) : result (list KVCacheEvent) :=
  match n with
  | 0 => Ok []
  | S n =>
      if decide (start < len) then
        let stop := Nat.min (start + ps) len in
        let page_tokens := py_slice start stop (iter k) in
        h ← unwrap IndexError (hs !! page_index);
        block_hash ← hash_str_to_int64 h;
        rest ← store_events k hs ps len (start + ps) n (S page_index) (Some block_hash);
        Ok (BlockStored block_hash parent_block_hash page_tokens (length page_tokens) :: rest)
      else Ok []
  end.

(** The hashes of a node, computed and stored on it when still missing. *)
Definition ensure_hash_value (node : nat) : M (list string) :=
  x ← get_node node;
  match hash_value x with
  | Some hs => mret hs
  | None =>
      ps ← st_gets (λ c, page_size (cfg c));
      px ← (match parent x with
            | Some p => y ← get_node p; mret (Some y)
            | None => mret None
            end);
      hs ← st_lift (compute_node_hash_values x px ps);
      _ ← upd_node node (set_hash_value (Some hs));
      mret hs
  end.

(** [_record_store_event] *)
Definition record_store_event (node : nat) : M unit :=
  cf ← st_gets cfg;
  if enable_kv_cache_events cf then
    hs ← ensure_hash_value node;
    x ← get_node node;
    root ← st_gets root_node;
    parent_block_hash ←
      (match parent x with
       | Some p =>
           if decide (p = root) then mret None
           else
             y ← get_node p;
             (match hash_value y with
              | Some phs =>
                  match last phs with
                  | Some h => b ← st_lift (hash_str_to_int64 h); mret (Some b)
                  | None => mret None
                  end
              | None => mret None
              end)
       | None => mret None
       end);
    let len := key_len (nkey x) in
    evs ← st_lift (store_events (nkey x) hs (page_size cf) len 0 len 0 parent_block_hash);
    st_modify (set_queue (λ q, q ++ evs))
  else mret tt.

Fixpoint remove_events (hs : list string) (ps len start n page_index : nat)
    : result (list KVCacheEvent) :=
  match n with
  | 0 => Ok []
  | S n =>
      if decide (start < len) then
        h ← unwrap IndexError (hs !! page_index);
        block_hash ← hash_str_to_int64 h;
        rest ← remove_events hs ps len (start + ps) n (S page_index);
        Ok (BlockRemoved block_hash :: rest)
      else Ok []
  end.

(** [_record_remove_event] *)
Definition record_remove_event (node : nat) : M unit :=
  cf ← st_gets cfg;
  if enable_kv_cache_events cf then
    hs ← ensure_hash_value node;
    x ← get_node node;
    let len := key_len (nkey x) in
    evs ← st_lift (remove_events hs (page_size cf) len 0 len 0);
    st_modify (set_queue (λ q, q ++ evs))
  else mret tt.

(** [_record_all_cleared_event] *)
Definition record_all_cleared_event : M unit :=
  cf ← st_gets cfg;
  if enable_kv_cache_events cf then st_modify (set_queue (λ q, q ++ [AllBlocksCleared]))
  else mret tt.

(** [take_events] *)
Definition take_events : M (list KVCacheEvent) :=
  cf ← st_gets cfg;
  if enable_kv_cache_events cf then
    events ← st_gets kv_event_queue;
    _ ← st_modify (set_queue (λ _, []));
    mret events
  else mret [].

(** ** Internal helpers *)

(** Some child object is not evicted. *)
Definition has_live_child (c : cache) (x : TreeNode) : bool :=
  existsb (λ n, match nodes c !! n with Some y => negb (evicted y) | None => false end)
    (map snd (map_to_list (children x))).

(** [_update_leaf_status] *)
Definition update_leaf_status (node : nat) : M unit :=
  x ← get_node node;
  if evicted x || bool_decide (0 < lock_ref x)%Z then
    st_modify (set_leaves (λ L, L ∖ {[node]}))
  else
    live ← st_gets (λ c, has_live_child c x);
    if (live : bool) then st_modify (set_leaves (λ L, L ∖ {[node]}))
    else st_modify (set_leaves (λ L, {[node]} ∪ L)).

(** [_inc_hit_count] *)
Definition inc_hit_count (node : nat) (chunked : bool) : M unit :=
  if chunked then mret tt else upd_node node (set_hit_count (λ h, h + 1)%Z).

(** [_split_node]: a new node takes the first [split_len] units of [child]
    and becomes its parent. *)
Definition split_node (key : RadixKey) (child : nat) (split_len : nat) : M nat :=
  cf ← st_gets cfg;
  x ← get_node child;
  nn ← make_TreeNode (priority x);
  rest_key ← st_lift (key_suffix key split_len);
  rest_ck ← st_lift (child_key rest_key (page_size cf));
  pre_key ← st_lift (key_prefix (nkey x) split_len);
  post_key ← st_lift (key_suffix (nkey x) split_len);
  v ← st_lift (unwrap TypeError (value x));
  p ← st_lift (unwrap AttributeError (parent x));
  ck ← st_lift (child_key key (page_size cf));
  let '(new_hash, child_hash) := split_node_hash_value (hash_value x) split_len (page_size cf) in
  let new_node := MkNode {[ rest_ck := child ]} (Some p) pre_key (Some (take split_len v))
    (lock_ref x) (last_access_time nn) (creation_time nn) (hit_count x)
    (host_ref_counter nn) (host_value nn) new_hash (priority nn) (nid nn) in
  let child' := MkNode (children x) (Some (nid nn)) post_key (Some (drop split_len v))
    (lock_ref x) (last_access_time x) (creation_time x) (hit_count x)
    (host_ref_counter x) (host_value x) child_hash (priority x) (nid x) in
  _ ← put_node (nid nn) new_node;
  _ ← put_node child child';
  _ ← upd_node p (set_children <[ck := nid nn]>);
  mret (nid nn).

(** The loop of [_match_prefix_helper].  Every iteration that continues has
    consumed at least one unit of the key. *)
Fixpoint match_loop (fuel : nat) (node : nat) (key : RadixKey) (ck : ckey)
    (vals : list (list Z)) (access_time : Z) : M (list (list Z) * nat) :=
  match fuel with
  | 0 => λ _, Running
  | S fuel =>
      if decide (0 < key_len key) then
        nx ← get_node node;
        match children nx !! ck with
        | None => mret (vals, node)
        | Some child =>
            _ ← upd_node child (set_last_access_time access_time);
            x ← get_node child;
            cf ← st_gets cfg;
            prefix_len ← st_lift (key_match (nkey x) key (page_size cf));
            if decide (prefix_len < key_len (nkey x)) then
              new_node ← split_node (nkey x) child prefix_len;
              y ← get_node new_node;
              v ← st_lift (unwrap TypeError (value y));
              mret (vals ++ [v], new_node)
            else
              v ← st_lift (unwrap TypeError (value x));
              key' ← st_lift (key_suffix key prefix_len);
              ck' ← (if decide (0 < key_len key') then st_lift (child_key key' (page_size cf))
                     else mret ck);
              match_loop fuel child key' ck' (vals ++ [v]) access_time
        end
      else mret (vals, node)
  end.

(** [_match_prefix_helper] *)
Definition match_prefix_helper (node : nat) (key : RadixKey) : M (list (list Z) * nat) :=
  access_time ← time_monotonic;
  _ ← upd_node node (set_last_access_time access_time);
  cf ← st_gets cfg;
  ck ← st_lift (child_key key (page_size cf));
  match_loop (S (key_len key)) node key ck [] access_time.

(** The loop of [_insert_helper]: it returns the matched length, the node it
    stopped at, and what is left of the key, its child key and the value. *)
Fixpoint insert_loop (fuel : nat) (node : nat) (key : RadixKey) (ck : ckey) (val : list Z)
    (prio : Z) (chunked : bool) (access_time : Z) (total_prefix_length : nat)
    : M (nat * nat * RadixKey * ckey * list Z) :=
  match fuel with
  | 0 => λ _, Running
  | S fuel =>
      if decide (0 < key_len key) then
        nx ← get_node node;
        match children nx !! ck with
        | None => mret (total_prefix_length, node, key, ck, val)
        | Some child =>
            _ ← upd_node child (set_last_access_time access_time);
            x ← get_node child;
            cf ← st_gets cfg;
            prefix_len ← st_lift (key_match (nkey x) key (page_size cf));
            key' ← st_lift (key_suffix key prefix_len);
            let val' := drop prefix_len val in
            node' ←
              (if decide (prefix_len < key_len (nkey x)) then
                 new_node ← split_node (nkey x) child prefix_len;
                 _ ← upd_node new_node (set_priority (λ p, Z.max p prio));
                 _ ← inc_hit_count new_node chunked;
                 mret new_node
               else
                 _ ← upd_node child (set_priority (λ p, Z.max p prio));
                 _ ← inc_hit_count child chunked;
                 mret child);
            ck' ← (if decide (0 < key_len key') then st_lift (child_key key' (page_size cf))
                   else mret ck);
            insert_loop fuel node' key' ck' val' prio chunked access_time
              (total_prefix_length + prefix_len)
        end
      else mret (total_prefix_length, node, key, ck, val)
  end.

(** The last block of [_insert_helper]: the rest of the key becomes a leaf
    below [node]. *)
Definition insert_leaf (node : nat) (key : RadixKey) (ck : ckey) (val : list Z) (prio : Z)
    (chunked : bool) : M unit :=
  nn ← make_TreeNode prio;
  let new_node := MkNode (children nn) (Some node) key (Some val) (lock_ref nn)
    (last_access_time nn) (creation_time nn) (hit_count nn) (host_ref_counter nn)
    (host_value nn) (hash_value nn) (priority nn) (nid nn) in
  _ ← put_node (nid nn) new_node;
  _ ← inc_hit_count (nid nn) chunked;
  _ ← upd_node node (set_children <[ck := nid nn]>);
  _ ← st_modify (add_evictable (Z.of_nat (key_len key)));
  _ ← update_leaf_status node;
  _ ← update_leaf_status (nid nn);
  record_store_event (nid nn).

(** [_insert_helper] *)
Definition insert_helper (node : nat) (key : RadixKey) (val : list Z)
    (prio : option Z) (chunked : bool) : M nat :=
  let prio := default 0%Z prio in
  access_time ← time_monotonic;
  _ ← upd_node node (set_last_access_time access_time);
  _ ← upd_node node (set_priority (λ p, Z.max p prio));
  if decide (key_len key = 0) then mret 0
  else
    cf ← st_gets cfg;
    ck ← st_lift (child_key key (page_size cf));
    r ← insert_loop (S (key_len key)) node key ck val prio chunked access_time 0;
    let '(total_prefix_length, node, key, ck, val) := r in
    if decide (0 < key_len key) then
      _ ← insert_leaf node key ck val prio chunked;
      mret total_prefix_length
    else mret total_prefix_length.

(** [_delete_leaf]: [children.pop(key, None)], then the assertion. *)
Definition delete_leaf (node : nat) : M unit :=
  cf ← st_gets cfg;
  x ← get_node node;
  ck ← st_lift (child_key (nkey x) (page_size cf));
  p ← st_lift (unwrap AttributeError (parent x));
  y ← get_node p;
  _ ← put_node p (set_children (delete ck) y);
  _ ← st_lift (py_assert (bool_decide (children y !! ck = Some node)));
  _ ← st_modify (add_evictable (- Z.of_nat (key_len (nkey x))));
  _ ← st_modify (set_leaves (λ L, L ∖ {[node]}));
  update_leaf_status p.

(** ** Public operations *)

Record MatchResult := MkMatch {
  device_indices : list Z;
  last_device_node : nat;
  last_host_node : nat;
  host_hit_length : nat;
}.

(** [reset]: a new root, with the minimum priority [-sys.maxsize]. *)
Definition reset : M unit :=
  nn ← make_TreeNode (- (2 ^ 63 - 1))%Z;
  let root := MkNode (children nn) (parent nn) (MkRadixKey [] None false) (Some []) 1
    (last_access_time nn) (creation_time nn) (hit_count nn) (host_ref_counter nn)
    (Some []) (Some []) (priority nn) (nid nn) in
  _ ← st_modify (λ c, MkCache (cfg c) (nid nn) (<[nid nn := root]> (nodes c)) (counter c)
        (ticks c) 0 0 ∅ (kv_event_queue c) (allocator c));
  record_all_cleared_event.

(** [match_prefix] *)
Definition match_prefix (key : RadixKey) : M MatchResult :=
  cf ← st_gets cfg;
  root ← st_gets root_node;
  let empty_match_result := MkMatch [] root root 0 in
  let '(key, _) := maybe_to_bigram_view key (is_eagle cf) None in
  if disable cf || bool_decide (key_len key = 0) then mret empty_match_result
  else
    key ← st_lift (page_aligned key (page_size cf));
    if decide (key_len key = 0) then mret empty_match_result
    else
      r ← match_prefix_helper root key;
      let '(vals, last_node) := r in
      mret (MkMatch (concat vals) last_node last_node 0).

(** [insert]: returns [InsertResult.prefix_len]. *)
Definition insert_cache (key : RadixKey) (val : option (list Z)) (prio : option Z)
    (chunked : bool) : M nat :=
  cf ← st_gets cfg;
  if disable cf then mret 0
  else
    let '(key, val) := maybe_to_bigram_view key (is_eagle cf) val in
    key ← st_lift (page_aligned key (page_size cf));
    let val := match val with
               | Some v => take (key_len key) v
               | None => take (key_len key) (token_ids key)
               end in
    root ← st_gets root_node;
    insert_helper root key val prio chunked.

(** The loop of [inc_lock_ref]; a walk to the root visits each node at most
    once. *)
Fixpoint inc_lock_loop (fuel : nat) (node : nat) (delta : Z) : M Z :=
  match fuel with
  | 0 => λ _, Running
  | S fuel =>
      root ← st_gets root_node;
      if decide (node = root) then mret delta
      else
        x ← get_node node;
        let n := Z.of_nat (key_len (nkey x)) in
        d ← (if decide (lock_ref x = 0%Z) then
               _ ← st_modify (add_evictable (- n));
               _ ← st_modify (add_protected n);
               mret (delta - n)%Z
             else mret delta);
        _ ← upd_node node (set_lock_ref (λ l, l + 1)%Z);
        _ ← update_leaf_status node;
        p ← st_lift (unwrap AttributeError (parent x));
        inc_lock_loop fuel p d
  end.

(** [inc_lock_ref]: returns [IncLockRefResult.delta]. *)
Definition inc_lock_ref (node : nat) : M Z :=
  cf ← st_gets cfg;
  if disable cf then mret 0%Z
  else
    n ← st_gets (λ c, size (nodes c));
    inc_lock_loop (S n) node 0.

Fixpoint dec_lock_loop (fuel : nat) (node : nat) (delta : Z) : M Z :=
  match fuel with
  | 0 => λ _, Running
  | S fuel =>
      root ← st_gets root_node;
      if decide (node = root) then mret delta
      else
        x ← get_node node;
        let n := Z.of_nat (key_len (nkey x)) in
        d ← (if decide (lock_ref x = 1%Z) then
               _ ← st_modify (add_evictable n);
               _ ← st_modify (add_protected (- n));
               mret (delta + n)%Z
             else mret delta);
        _ ← upd_node node (set_lock_ref (λ l, l - 1)%Z);
        _ ← update_leaf_status node;
        (* a node without a parent that is not the root is of another tree *)
        p ← st_lift (unwrap AssertionError (parent x));
        dec_lock_loop fuel p d
  end.

(** [dec_lock_ref]: returns [DecLockRefResult.delta]. *)
Definition dec_lock_ref (node : nat) : M Z :=
  cf ← st_gets cfg;
  if disable cf then mret 0%Z
  else
    n ← st_gets (λ c, size (nodes c));
    dec_lock_loop (S n) node 0.

(** The entry of a node in the eviction heap. *)
Definition heap_entry (st : EvictionStrategy) (n : nat) (x : TreeNode) : heap_item :=
  MkItem (get_priority st x) n x.

(** [self.token_to_kv_pool_allocator.free(l)] *)
Definition alloc_free (l : list Z) : M unit := λ c,
  match kv_free l (allocator c) with
  | Ok a => Ok (tt, set_allocator a c)
  | Raise e => Raise e
  | Running => Running
  end.

(** The loop of [evict]: every iteration takes one node off the tree. *)
Fixpoint evict_loop (fuel : nat) (num_tokens num_evicted : Z) (heap : list heap_item) : M Z :=
  match fuel with
  | 0 => λ _, Running
  | S fuel =>
      if bool_decide (num_evicted < num_tokens)%Z then
        match heappop heap with
        | None => mret num_evicted
        | Some (it, heap) =>
            cf ← st_gets cfg;
            let x := item_id it in
            xn ← get_node x;
            v ← st_lift (unwrap TypeError (value xn));
            _ ← alloc_free v;
            let num_evicted := (num_evicted + Z.of_nat (length v))%Z in
            _ ← delete_leaf x;
            p ← st_lift (unwrap AttributeError (parent xn));
            pn ← get_node p;
            let heap :=
              if bool_decide (children pn = ∅) && bool_decide (lock_ref pn = 0%Z)
              then heappush heap (heap_entry (eviction_strategy cf) p pn)
              else heap in
            _ ← record_remove_event x;
            evict_loop fuel num_tokens num_evicted heap
        end
      else mret num_evicted
  end.

(** The entries of the evictable leaves. *)
Definition leaf_entries (c : cache) : list heap_item :=
  omap (λ n, heap_entry (eviction_strategy (cfg c)) n <$> nodes c !! n)
    (elements (evictable_leaves c)).

(** [evict]: returns [EvictResult.num_tokens_evicted]. *)
Definition evict (num_tokens : Z) : M Z :=
  cf ← st_gets cfg;
  if disable cf then mret 0%Z
  else
    heap ← st_gets leaf_entries;
    n ← st_gets (λ c, size (nodes c));
    evict_loop (S n) num_tokens 0 heap.

Definition evictable_size (c : cache) : Z := evictable_size_ c.
Definition protected_size (c : cache) : Z := protected_size_ c.

(** The loop of [_total_size_helper]: a stack of nodes still to be counted. *)
Fixpoint total_size_loop (fuel : nat) (c : cache) (stack : list nat) (total : Z) : result Z :=
  match fuel with
  | 0 => Running
  | S fuel =>
      match stack with
      | [] => Ok total
      | n :: stack =>
          x ← unwrap Dangling (nodes c !! n);
          v ← unwrap TypeError (value x);
          let kids := List.filter (λ m, match nodes c !! m with
                                        | Some y => negb (evicted y)
                                        | None => false end)
                        (map snd (map_to_list (children x))) in
          total_size_loop fuel c (kids ++ stack) (total + Z.of_nat (length v))
      end
  end.

(** [total_size] *)
Definition total_size (c : cache) : result Z :=
  total_size_loop (S (size (nodes c))) c [root_node c] 0.
End radix_cache.

(** [RadixCache.__init__]: the policy is looked up, then [reset] makes the root. *)
Definition init_cache `{Env} {A} (disable : bool) (page_size : nat) (is_eagle events : bool)
    (disable_finished_insert : bool) (eviction_policy : string) (node_counter clock : nat) (a : A)
    : result (RadixCache A) :=
  strat ← strategy_of_policy eviction_policy;
  let cf := MkConfig disable page_size is_eagle events disable_finished_insert strat in
  let c := MkCache cf 0 ∅ node_counter clock 0 0 ∅ [] a in
  match reset c with
  | Ok (_, c) => Ok c
  | Raise e => Raise e
  | Running => Running
  end.
