(* ===== verification/RadixInv.v ===== *)
(** The invariant of the radix cache.

    [view] keeps what the invariant speaks about: it forgets the clock, the
    access times, hit counts, priorities, hashes, events and the allocator.
    The invariant relates the view to the abstract tree [G] (for every live
    node: the tagged units on the path from the root, and the slots cached for
    them) and to the number [L n] of locks held on each node. *)
From S2P Require Import Prelude RadixKey TreeNode EvictPolicy RadixCache.
From stdpp Require Import options.

Record core := MkCore {
  c_children : gmap ckey nat;
  c_parent : option nat;
  c_key : RadixKey;
  c_value : option (list Z);
  c_lock : Z;
}.

Definition node_core (x : TreeNode) : core :=
  MkCore (children x) (parent x) (nkey x) (value x) (lock_ref x).

Record tview := MkView {
  tv_ps : nat;
  tv_eagle : bool;
  tv_root : nat;
  tv_h : gmap nat core;
  tv_next : nat;
  tv_ev : Z;
  tv_pr : Z;
  tv_leaves : gset nat;
}.

Definition view {A} (c : RadixCache A) : tview :=
  MkView (page_size (cfg c)) (is_eagle (cfg c)) (root_node c) (node_core <$> nodes c)
    (counter c) (evictable_size_ c) (protected_size_ c) (evictable_leaves c).

(** What the abstract tree says of a live node. *)
Record gnode := MkG {
  g_path : list tunit;
  g_vals : list Z;
}.

Section inv.
Implicit Types (v : tview) (h : gmap nat core) (G : gmap nat gnode) (L : nat → Z).
Implicit Types (n m p q : nat) (x y : core).

(** Lookups with the obvious defaults. *)
Definition hlen h n : Z :=
  match h !! n with Some x => Z.of_nat (key_len (c_key x)) | None => 0 end.
Definition hlock h n : Z := match h !! n with Some x => c_lock x | None => 0 end.
Definition hpar h n : option nat := h !! n ≫= c_parent.

(** The edge from a live node to its parent. *)
Record node_ok v G n (g : gnode) x p (gp : gnode) (px : core) : Prop := {
  no_heap : tv_h v !! n = Some x;
  no_par : c_parent x = Some p;
  no_gpar : G !! p = Some gp;
  no_parheap : tv_h v !! p = Some px;
  no_link : ∃ ck, child_key (c_key x) (tv_ps v) = Ok ck ∧ c_children px !! ck = Some n;
  no_mode : is_bigram (c_key x) = tv_eagle v;
  no_pos : 0 < key_len (c_key x);
  no_aligned : key_len (c_key x) `mod` tv_ps v = 0;
  no_path : g_path g = g_path gp ++ titer (c_key x);
  no_vals : ∃ vv, c_value x = Some vv ∧ length vv = key_len (c_key x)
              ∧ g_vals g = g_vals gp ++ vv;
}.

(** The shape of the tree. *)
Record tree_ok v G : Prop := {
  to_ps : 1 ≤ tv_ps v;
  to_root : ∃ x, tv_h v !! tv_root v = Some x ∧ c_parent x = None ∧ c_lock x = 1%Z
              ∧ c_value x = Some [] ∧ key_len (c_key x) = 0;
  to_groot : G !! tv_root v = Some (MkG [] []);
  to_fresh : ∀ n, is_Some (tv_h v !! n) → n < tv_next v;
  to_node : ∀ n g, G !! n = Some g → n ≠ tv_root v →
    ∃ x p gp px, node_ok v G n g x p gp px;
  to_child : ∀ p gp px ck n, G !! p = Some gp → tv_h v !! p = Some px →
    c_children px !! ck = Some n →
    ∃ g x, G !! n = Some g ∧ tv_h v !! n = Some x ∧ c_parent x = Some p
      ∧ n ≠ tv_root v ∧ child_key (c_key x) (tv_ps v) = Ok ck;
}.

(** The live nodes below the root. *)
Definition inner v G : gset nat := dom G ∖ {[tv_root v]}.

(** Locks: a node's count is the number of locks held on it plus the counts
    of its children. *)
Definition child_locks h G n : Z :=
  gsum (λ m, if decide (hpar h m = Some n) then hlock h m else 0%Z) (dom G).

Record locks_ok v G L : Prop := {
  lo_nonneg : ∀ n, n ∈ inner v G → (0 <= hlock (tv_h v) n)%Z;
  lo_sum : ∀ n, n ∈ inner v G →
    hlock (tv_h v) n = (L n + child_locks (tv_h v) G n)%Z;
  lo_out : ∀ n, n ∉ dom G → L n = 0%Z;
}.

(** The counters and the set of evictable leaves. *)
Definition ev_w (l a : Z) : Z := if decide (l = 0%Z) then a else 0%Z.
Definition pr_w (l a : Z) : Z := if decide (l = 0%Z) then 0%Z else a.
Definition ev_weight h n : Z := ev_w (hlock h n) (hlen h n).
Definition pr_weight h n : Z := pr_w (hlock h n) (hlen h n).

Definition is_evictable_leaf v G n : Prop :=
  n ∈ inner v G ∧ hlock (tv_h v) n = 0%Z
  ∧ ∃ x, tv_h v !! n = Some x ∧ c_children x = ∅.

Record sizes_ok v G : Prop := {
  so_ev : tv_ev v = gsum (ev_weight (tv_h v)) (inner v G);
  so_pr : tv_pr v = gsum (pr_weight (tv_h v)) (inner v G);
  so_leaves : ∀ n, n ∈ tv_leaves v ↔ is_evictable_leaf v G n;
}.

Record Inv v G L : Prop := {
  inv_tree : tree_ok v G;
  inv_locks : locks_ok v G L;
  inv_sizes : sizes_ok v G;
}.

(** How often the live nodes hold slot [i]. *)
Definition hval h n : list Z := default [] (h !! n ≫= c_value).
Definition slot_count v G (i : Z) : Z := gsum (λ n, occ i (hval (tv_h v) n)) (inner v G).

(** Locks are taken, never owed. *)
Definition locks_nonneg L : Prop := ∀ n, (0 <= L n)%Z.

(** *** Basic facts *)

Lemma elem_of_inner v G n : n ∈ inner v G ↔ is_Some (G !! n) ∧ n ≠ tv_root v.
Proof. unfold inner. rewrite elem_of_difference, elem_of_dom. set_solver. Qed.

Lemma tree_live v G n g : tree_ok v G → G !! n = Some g → is_Some (tv_h v !! n).
Proof.
  intros Ht Hg. destruct (decide (n = tv_root v)) as [->|Hn].
  - destruct (to_root _ _ Ht) as (x & -> & _). eauto.
  - destruct (to_node _ _ Ht n g) as (x & p & gp & px & Hok); [done..|].
    rewrite (no_heap _ _ _ _ _ _ _ _ Hok). eauto.
Qed.

Lemma tree_fresh v G : tree_ok v G → G !! tv_next v = None.
Proof.
  intros Ht. destruct (G !! tv_next v) as [g|] eqn:E; [|done].
  apply (tree_live v) in E; [|done]. apply (to_fresh _ _ Ht) in E. lia.
Qed.

Lemma tree_heap_fresh v G : tree_ok v G → tv_h v !! tv_next v = None.
Proof.
  intros Ht. destruct (tv_h v !! tv_next v) as [g|] eqn:E; [|done].
  assert (tv_next v < tv_next v); [|lia]. apply (to_fresh _ _ Ht). eauto.
Qed.

(** The value of a live node has one slot per unit of its key. *)
Lemma node_ok_len v G n g x p gp px :
  node_ok v G n g x p gp px →
  length (g_path g) = length (g_path gp) + key_len (c_key x).
Proof. intros Hok. by rewrite (no_path _ _ _ _ _ _ _ _ Hok), length_app, titer_length. Qed.

Lemma node_ok_lt v G n g x p gp px :
  node_ok v G n g x p gp px → length (g_path gp) < length (g_path g).
Proof.
  intros Hok. rewrite (node_ok_len _ _ _ _ _ _ _ _ Hok).
  pose proof (no_pos _ _ _ _ _ _ _ _ Hok). lia.
Qed.

Lemma node_ok_ne v G n g x p gp px :
  node_ok v G n g x p gp px → G !! n = Some g → n ≠ p.
Proof.
  intros Hok Hg ->. pose proof (node_ok_lt _ _ _ _ _ _ _ _ Hok).
  pose proof (no_gpar _ _ _ _ _ _ _ _ Hok). simplify_eq. lia.
Qed.

(** Induction on a live node along the path to the root. *)
Lemma tree_ind v G (P : nat → gnode → Prop) :
  tree_ok v G →
  P (tv_root v) (MkG [] []) →
  (∀ n g x p gp px, G !! n = Some g → n ≠ tv_root v → node_ok v G n g x p gp px →
    P p gp → P n g) →
  ∀ n g, G !! n = Some g → P n g.
Proof.
  intros Ht Hroot Hstep n g. remember (length (g_path g)) as k eqn:Ek.
  revert n g Ek. induction (lt_wf k) as [k _ IH]. intros n g -> Hg.
  destruct (decide (n = tv_root v)) as [->|Hn].
  - rewrite (to_groot _ _ Ht) in Hg. by simplify_eq.
  - destruct (to_node _ _ Ht n g) as (x & p & gp & px & Hok); [done..|].
    eapply Hstep; [done..|]. eapply IH; [|done|].
    + by eapply node_ok_lt.
    + by eapply no_gpar.
Qed.

(** Path lengths are whole pages, with one slot per unit. *)
Lemma tree_path_shape v G n g :
  tree_ok v G → G !! n = Some g →
  length (g_path g) `mod` tv_ps v = 0 ∧ length (g_vals g) = length (g_path g).
Proof.
  intros Ht. revert n g. apply (tree_ind v); [done| |].
  - simpl. split; [apply aligned_0|done].
  - intros n g x p gp px Hg Hn Hok [IH1 IH2].
    rewrite (node_ok_len _ _ _ _ _ _ _ _ Hok).
    pose proof (no_aligned _ _ _ _ _ _ _ _ Hok).
    destruct (no_vals _ _ _ _ _ _ _ _ Hok) as (vv & _ & Hl & ->).
    rewrite length_app. split; [auto with py|lia].
Qed.

(** The shape does not depend on the counters. *)
Lemma tree_ok_ext v v' G :
  tree_ok v G → tv_ps v' = tv_ps v → tv_eagle v' = tv_eagle v → tv_root v' = tv_root v →
  tv_h v' = tv_h v → tv_next v' = tv_next v → tree_ok v' G.
Proof.
  destruct v, v'. simpl. intros [? ? ? ? Hnode Hchild] -> -> -> -> ->.
  constructor; simpl; try done.
  intros n g Hg Hn. destruct (Hnode n g Hg Hn) as (x & p & gp & px & []).
  exists x, p, gp, px. by constructor.
Qed.

(** A live node and its children hold values. *)
Lemma tree_values v G n g x :
  tree_ok v G → G !! n = Some g → tv_h v !! n = Some x → is_Some (c_value x).
Proof.
  intros Ht Hg Hx. destruct (decide (n = tv_root v)) as [->|Hn].
  - destruct (to_root _ _ Ht) as (xr & ? & _ & _ & Hv & _). simplify_eq. by rewrite Hv.
  - destruct (to_node _ _ Ht n g) as (x' & p & gp & px & Hok); [done..|].
    destruct (no_vals _ _ _ _ _ _ _ _ Hok) as (vv & Hv & _).
    pose proof (no_heap _ _ _ _ _ _ _ _ Hok). simplify_eq. eauto.
Qed.
Lemma tree_kid_values v G n g x ck m :
  tree_ok v G → G !! n = Some g → tv_h v !! n = Some x → c_children x !! ck = Some m →
  ∃ y, tv_h v !! m = Some y ∧ is_Some (c_value y).
Proof.
  intros Ht Hg Hx Hm.
  destruct (to_child _ _ Ht n g x ck m) as (gm & y & ? & Hy & _); [done..|].
  eauto using tree_values.
Qed.

(** A live node that is not the root has a positive path, so only the root
    has the empty one. *)
Lemma tree_root_path v G n g :
  tree_ok v G → G !! n = Some g → g_path g = [] → n = tv_root v.
Proof.
  intros Ht Hg Hp. destruct (decide (n = tv_root v)) as [|Hn]; [done|].
  destruct (to_node _ _ Ht n g) as (x & p & gp & px & Hok); [done..|].
  pose proof (node_ok_lt _ _ _ _ _ _ _ _ Hok). rewrite Hp in *. simpl in *. lia.
Qed.
Lemma evictable_nonneg {A} (c : RadixCache A) G L : Inv (view c) G L → (0 <= evictable_size_ c)%Z.
Proof.
  intros HI. destruct (inv_sizes _ _ _ HI) as [Hev _ _]. simpl in Hev. rewrite Hev.
  apply gsum_nonneg. intros n _. unfold ev_weight, ev_w, hlen. repeat case_match; lia.
Qed.
End inv.

Arguments no_heap {_ _ _ _ _ _ _ _}.
Arguments no_par {_ _ _ _ _ _ _ _}.
Arguments no_gpar {_ _ _ _ _ _ _ _}.
Arguments no_parheap {_ _ _ _ _ _ _ _}.
Arguments no_link {_ _ _ _ _ _ _ _}.
Arguments no_mode {_ _ _ _ _ _ _ _}.
Arguments no_pos {_ _ _ _ _ _ _ _}.
Arguments no_aligned {_ _ _ _ _ _ _ _}.
Arguments no_path {_ _ _ _ _ _ _ _}.
Arguments no_vals {_ _ _ _ _ _ _ _}.
Arguments to_ps {_ _}.
Arguments to_root {_ _}.
Arguments to_groot {_ _}.
Arguments to_fresh {_ _}.
Arguments to_node {_ _}.
Arguments to_child {_ _}.
