(* ===== verification/RadixSplit.v ===== *)
(** [_split_node] on the view: a split refines the tree and keeps the
    invariant; the paths, slots and locks of the existing nodes are unchanged. *)
From S2P Require Import Prelude RadixKey TreeNode EvictPolicy RadixCache RadixInv.
From stdpp Require Import options.

Section split.
Implicit Types (v : tview) (h : gmap nat core) (G : gmap nat gnode) (L : nat → Z).
Implicit Types (n m p q r k : nat) (x y px : core) (g gp : gnode) (pre post : RadixKey).
Implicit Types (vv : list Z).

(** The view after [child] = [n] has been split at [k]: the new node is the
    next identity. *)
Definition split_new (x : core) (n p : nat) (rest_ck : ckey) (pre : RadixKey) (k : nat)
    (vv : list Z) : core :=
  MkCore {[rest_ck := n]} (Some p) pre (Some (take k vv)) (c_lock x).
Definition split_child (x : core) (m : nat) (post : RadixKey) (k : nat) (vv : list Z) : core :=
  MkCore (c_children x) (Some m) post (Some (drop k vv)) (c_lock x).
Definition add_child (px : core) (ck : ckey) (m : nat) : core :=
  MkCore (<[ck := m]> (c_children px)) (c_parent px) (c_key px) (c_value px) (c_lock px).

Definition split_view v n x p px (ck rest_ck : ckey) pre post k vv : tview :=
  let m := tv_next v in
  MkView (tv_ps v) (tv_eagle v) (tv_root v)
    (<[p := add_child px ck m]>
      (<[n := split_child x m post k vv]>
        (<[m := split_new x n p rest_ck pre k vv]> (tv_h v))))
    (S m) (tv_ev v) (tv_pr v) (tv_leaves v).

Definition split_gnode (gp : gnode) (x : core) (k : nat) (vv : list Z) : gnode :=
  MkG (g_path gp ++ take k (titer (c_key x))) (g_vals gp ++ take k vv).

(** What the split is applied to. *)
Record split_pre v G n g x p gp px (ck rest_ck : ckey) pre post k vv : Prop := {
  sp_tree : tree_ok v G;
  sp_live : G !! n = Some g;
  sp_inner : n ≠ tv_root v;
  sp_ok : node_ok v G n g x p gp px;
  sp_value : c_value x = Some vv;
  sp_pos : 0 < k;
  sp_lt : k < key_len (c_key x);
  sp_aligned : k `mod` tv_ps v = 0;
  sp_ck : child_key (c_key x) (tv_ps v) = Ok ck;
  sp_rest : child_key post (tv_ps v) = Ok rest_ck;
  sp_pre_iter : titer pre = take k (titer (c_key x));
  sp_pre_mode : is_bigram pre = is_bigram (c_key x);
  sp_post_iter : titer post = drop k (titer (c_key x));
  sp_post_mode : is_bigram post = is_bigram (c_key x);
}.

Section lemmas.
Context v G n g x p gp px (ck rest_ck : ckey) pre post k vv.
Context (Hsp : split_pre v G n g x p gp px ck rest_ck pre post k vv).
Abbreviation m := (tv_next v).
Abbreviation v' := (split_view v n x p px ck rest_ck pre post k vv).
Abbreviation gm := (split_gnode gp x k vv).
Abbreviation G' := (<[m := gm]> G).

Local Lemma split_facts :
  n ≠ m ∧ p ≠ m ∧ n ≠ p ∧ tv_root v ≠ m ∧ G !! m = None ∧ tv_h v !! m = None.
Proof using Hsp.
  pose proof Hsp as [Ht Hlive Hn Hok]. pose proof (tree_fresh _ _ Ht) as Hm.
  pose proof (tree_heap_fresh _ _ Ht) as Hhm.
  pose proof (no_gpar Hok). pose proof (to_groot Ht).
  pose proof (node_ok_ne _ _ _ _ _ _ _ _ Hok Hlive).
  split_and!; congruence.
Qed.

Lemma split_key_len : key_len pre = k ∧ key_len post = key_len (c_key x) - k.
Proof using Hsp.
  pose proof Hsp as []. rewrite <-!titer_length.
  rewrite sp_pre_iter0, sp_post_iter0, length_take, length_drop, titer_length. lia.
Qed.

(** The new node keeps the dictionary key of the old one. *)
Lemma split_pre_ck : child_key pre (tv_ps v) = Ok ck.
Proof using Hsp.
  pose proof split_key_len as [Hlp _]. pose proof Hsp as [Ht ?? Hok].
  pose proof (to_ps Ht).
  assert (tv_ps v ≤ k) by (apply (aligned_lt 0 k); auto with py).
  destruct (child_key_ok pre (tv_ps v)) as [ck' Hck']; [lia..|].
  rewrite Hck'. f_equal.
  apply (child_key_titer pre (c_key x) (tv_ps v) ck' ck); [done|lia|lia|done..|].
  rewrite sp_pre_iter0, take_take. f_equal. lia.
Qed.

Lemma split_lookup_old q y :
  tv_h v !! q = Some y → q ≠ n → q ≠ p → tv_h v' !! q = Some y.
Proof using Hsp.
  destruct split_facts as (?&?&?&?&?&?). intros Hq ??. simpl.
  rewrite !lookup_insert_ne by congruence. done.
Qed.
Lemma split_lookup_n : tv_h v' !! n = Some (split_child x m post k vv).
Proof using Hsp.
  destruct split_facts as (?&?&?&?&?&?). simpl.
  rewrite lookup_insert_ne by done. apply lookup_insert_eq.
Qed.
Lemma split_lookup_p : tv_h v' !! p = Some (add_child px ck m).
Proof using Hsp. apply lookup_insert_eq. Qed.
Lemma split_lookup_m : tv_h v' !! m = Some (split_new x n p rest_ck pre k vv).
Proof using Hsp.
  destruct split_facts as (?&?&?&?&?&?). simpl.
  rewrite !lookup_insert_ne by done. apply lookup_insert_eq.
Qed.

(** Every node of the old heap keeps its children up to the redirected
    edge, its parent, key and value unless it is [n], and its lock count. *)
Lemma split_lookup_inv q y' :
  tv_h v' !! q = Some y' →
  (q = m ∧ y' = split_new x n p rest_ck pre k vv)
  ∨ (q = n ∧ y' = split_child x m post k vv)
  ∨ (q = p ∧ y' = add_child px ck m)
  ∨ (q ≠ m ∧ q ≠ n ∧ q ≠ p ∧ tv_h v !! q = Some y').
Proof using Hsp.
  destruct split_facts as (?&?&?&?&?&?). simpl.
  rewrite !lookup_insert. repeat case_decide; subst; intros; simplify_eq; auto 10.
Qed.

Lemma split_node_new : node_ok v' G' m gm (split_new x n p rest_ck pre k vv) p gp
  (add_child px ck m).
Proof using Hsp.
  destruct split_facts as (?&?&?&?&?&?). pose proof split_key_len as [Hlp _].
  pose proof split_pre_ck as Hck. pose proof Hsp as [Ht ?? Hok].
  destruct (no_vals Hok) as (vv0 & Hvv & Hlen & Hvals).
  assert (vv0 = vv) as -> by congruence.
  constructor; simpl; try done.
  - apply split_lookup_m.
  - rewrite lookup_insert_ne by done. by apply (no_gpar Hok).
  - apply split_lookup_p.
  - exists ck. split; [done|]. apply lookup_insert_eq.
  - rewrite sp_pre_mode0. apply (no_mode Hok).
  - lia.
  - by rewrite Hlp.
  - by rewrite sp_pre_iter0.
  - exists (take k vv). split_and!; [done| |done]. rewrite length_take. lia.
Qed.

Lemma split_node_child :
  node_ok v' G' n g (split_child x m post k vv) m gm (split_new x n p rest_ck pre k vv).
Proof using Hsp.
  destruct split_facts as (?&?&?&?&?&?). pose proof split_key_len as [_ Hlp].
  pose proof Hsp as [Ht ?? Hok].
  destruct (no_vals Hok) as (vv0 & Hvv & Hlen & Hvals).
  assert (vv0 = vv) as -> by congruence.
  constructor; simpl; try done.
  - apply split_lookup_n.
  - apply lookup_insert_eq.
  - apply split_lookup_m.
  - exists rest_ck. split; [done|]. apply lookup_singleton_eq.
  - rewrite sp_post_mode0. apply (no_mode Hok).
  - lia.
  - rewrite Hlp. pose proof (no_aligned Hok). auto with py.
  - by rewrite <-app_assoc, sp_post_iter0, take_drop, <-(no_path Hok).
  - exists (drop k vv). split_and!; [done|rewrite length_drop; lia|].
    by rewrite <-app_assoc, take_drop.
Qed.

(** The other nodes hang where they hung, [n]'s children included. *)
Lemma split_node_other q gq y r gr ry :
  G !! q = Some gq → q ≠ n → node_ok v G q gq y r gr ry →
  ∃ y' ry', node_ok v' G' q gq y' r gr ry' ∧ c_key y' = c_key y.
Proof using Hsp.
  destruct split_facts as (?&?&?&?&?&?). intros Hq Hqn Hokq.
  pose proof (sp_ok _ _ _ _ _ _ _ _ _ _ _ _ _ _ Hsp) as Hok.
  assert (q ≠ m) by congruence.
  assert (r ≠ m) by (pose proof (no_gpar Hokq); congruence).
  assert (∃ y', tv_h v' !! q = Some y' ∧ c_parent y' = c_parent y ∧ c_key y' = c_key y
            ∧ c_value y' = c_value y) as (y' & Hy' & Epar & Ekey & Eval).
  { destruct (decide (q = p)) as [->|].
    - exists (add_child px ck m). split; [apply split_lookup_p|].
      pose proof (no_heap Hokq). pose proof (no_parheap Hok). by simplify_eq.
    - exists y. split; [|done]. apply split_lookup_old; [apply (no_heap Hokq)|done..]. }
  destruct (no_link Hokq) as (ckq & Hckq & Hlink).
  assert (∃ ry', tv_h v' !! r = Some ry' ∧ c_children ry' !! ckq = Some q)
    as (ry' & Hry' & Hlink').
  { pose proof (no_parheap Hokq) as Hry. destruct (decide (r = p)) as [->|].
    - exists (add_child px ck m). split; [apply split_lookup_p|].
      pose proof (no_parheap Hok). simplify_eq. simpl.
      rewrite lookup_insert_ne; [done|]. intros ->.
      destruct (no_link Hok) as (ck' & ? & ?).
      pose proof (sp_ck _ _ _ _ _ _ _ _ _ _ _ _ _ _ Hsp). congruence.
    - destruct (decide (r = n)) as [->|].
      + exists (split_child x m post k vv). split; [apply split_lookup_n|].
        pose proof (no_heap Hok). by simplify_eq.
      + exists ry. split; [by apply split_lookup_old|done]. }
  exists y', ry'. split; [|done]. constructor; rewrite ?Epar, ?Ekey, ?Eval; simpl; try apply Hokq; try done.
  - rewrite lookup_insert_ne by done. apply (no_gpar Hokq).
  - exists ckq. done.
Qed.

(** The edges of the new heap. *)
Lemma split_edges r gr ry' ckq q :
  G' !! r = Some gr → tv_h v' !! r = Some ry' → c_children ry' !! ckq = Some q →
  q = m ∧ r = p ∧ ckq = ck ∨ q = n ∧ r = m ∧ ckq = rest_ck ∨
  (q ≠ m ∧ q ≠ n ∧ ∃ ry, G !! r = Some gr ∧ tv_h v !! r = Some ry
     ∧ c_children ry !! ckq = Some q).
Proof using Hsp.
  destruct split_facts as (?&?&?&?&?&?). intros Hr Hry' Hq.
  pose proof (sp_tree _ _ _ _ _ _ _ _ _ _ _ _ _ _ Hsp) as Ht.
  pose proof (sp_ok _ _ _ _ _ _ _ _ _ _ _ _ _ _ Hsp) as Hok.
  pose proof (no_heap Hok) as Hx. pose proof (no_par Hok) as Hxp.
  assert (∀ ry, r ≠ p → G !! r = Some gr → tv_h v !! r = Some ry →
    c_children ry !! ckq = Some q → q ≠ m ∧ q ≠ n) as Hkeep.
  { intros ry Hrp Hgr Hry Hl.
    destruct (to_child Ht r gr ry ckq q) as (gq & xq & ? & ? & Hpar & _); [done..|].
    split; congruence. }
  apply split_lookup_inv in Hry'
    as [[-> ->]|[[-> ->]|[[-> ->]|(?&?&?&Hry)]]]; simpl in Hq.
  - apply lookup_singleton_Some in Hq as [<- <-]. auto.
  - rewrite lookup_insert_ne in Hr by done. destruct (Hkeep x); eauto 10.
  - rewrite lookup_insert_ne in Hr by done.
    pose proof (no_parheap Hok) as Hpx.
    rewrite lookup_insert in Hq. case_decide as Eck; simplify_eq; [by auto|].
    destruct (to_child Ht p gr px ckq q) as (gq & xq & ? & ? & Hpar & _ & Hckq); [done..|].
    pose proof (sp_ck _ _ _ _ _ _ _ _ _ _ _ _ _ _ Hsp).
    assert (q ≠ n) by congruence. assert (q ≠ m) by congruence. eauto 10.
  - rewrite lookup_insert_ne in Hr by done. destruct (Hkeep ry'); eauto 10.
Qed.

Lemma split_to_child r gr ry' ckq q :
  G' !! r = Some gr → tv_h v' !! r = Some ry' → c_children ry' !! ckq = Some q →
  ∃ gq xq, G' !! q = Some gq ∧ tv_h v' !! q = Some xq ∧ c_parent xq = Some r
    ∧ q ≠ tv_root v' ∧ child_key (c_key xq) (tv_ps v') = Ok ckq.
Proof using Hsp.
  destruct split_facts as (?&?&?&?&?&?). intros Hr Hry' Hq.
  pose proof (sp_tree _ _ _ _ _ _ _ _ _ _ _ _ _ _ Hsp) as Ht.
  destruct (split_edges r gr ry' ckq q)
    as [(->&->&->)|[(->&->&->)|(Hqm & Hqn & ry & Hgr & Hry & Hlink)]]; [done..| | |].
  - exists gm, (split_new x n p rest_ck pre k vv). split_and!; [|apply split_lookup_m|..].
    + apply lookup_insert_eq.
    + done.
    + simpl. congruence.
    + apply split_pre_ck.
  - exists g, (split_child x m post k vv). pose proof Hsp as [].
    split_and!; [by rewrite lookup_insert_ne|apply split_lookup_n|done..].
  - destruct (to_child Ht r gr ry ckq q) as (gq & xq & Hgq & Hxq & Hpar & Hqr & Hckq); [done..|].
    destruct (to_node Ht q gq) as (y & r' & gr' & ry0 & Hokq); [done..|].
    destruct (split_node_other q gq y r' gr' ry0) as (y' & ry'' & Hok' & Ekey); [done..|].
    pose proof (no_heap Hokq). pose proof (no_par Hok'). pose proof (no_par Hokq). simplify_eq.
    exists gq, y'. rewrite Ekey.
    split_and!; [by rewrite lookup_insert_ne|apply (no_heap Hok')|done..].
Qed.

Lemma split_tree_ok : tree_ok v' G'.
Proof using Hsp.
  destruct split_facts as (?&?&?&?&?&?).
  pose proof split_node_new as Hnew. pose proof split_node_child as Hchild.
  pose proof Hsp as [Ht Hlive Hinner Hok].
  constructor.
  - apply (to_ps Ht).
  - destruct (to_root Ht) as (xr & Hr & ?&?&?&?). destruct (decide (p = tv_root v)) as [Hp|].
    + assert (xr = px) as -> by (pose proof (no_parheap Hok); congruence).
      exists (add_child px ck m). split; [|done].
      change (tv_root v') with (tv_root v). rewrite <-Hp. apply split_lookup_p.
    + exists xr. split; [by apply split_lookup_old|done].
  - simpl. rewrite lookup_insert_ne by done. apply (to_groot Ht).
  - intros q [y' Hy']. simpl.
    apply split_lookup_inv in Hy' as [[-> _]|Hq]; [lia|].
    enough (q < m) by lia. apply (to_fresh Ht).
    pose proof (no_heap Hok). pose proof (no_parheap Hok). naive_solver.
  - intros q gq Hq Hqr. destruct (decide (q = m)) as [->|].
    + rewrite lookup_insert_eq in Hq. simplify_eq. eauto.
    + rewrite lookup_insert_ne in Hq by done. destruct (decide (q = n)) as [->|].
      { simplify_eq. eauto 10. }
      destruct (to_node Ht q gq) as (y & r & gr & ry & Hokq); [done..|].
      destruct (split_node_other q gq y r gr ry) as (y' & ry' & ? & _); eauto 10.
  - apply split_to_child.
Qed.

(** *** Locks and sizes *)

Lemma split_inner : inner v' G' = {[m]} ∪ inner v G ∧ m ∉ inner v G.
Proof using Hsp.
  destruct split_facts as (?&?&?&?&Hm&?).
  assert (m ∉ dom G) by (by apply not_elem_of_dom).
  unfold inner. simpl. rewrite dom_insert_L. set_solver.
Qed.

Lemma split_hlock q : q ≠ m → hlock (tv_h v') q = hlock (tv_h v) q.
Proof using Hsp.
  destruct split_facts as (?&?&?&?&?&?). intros Hqm.
  pose proof (sp_ok _ _ _ _ _ _ _ _ _ _ _ _ _ _ Hsp) as Hok.
  pose proof (no_heap Hok). pose proof (no_parheap Hok). unfold hlock. simpl.
  rewrite !lookup_insert. repeat case_decide; subst; simplify_map_eq; done.
Qed.
Lemma split_hlock_m : hlock (tv_h v') m = hlock (tv_h v) n.
Proof using Hsp.
  pose proof (sp_ok _ _ _ _ _ _ _ _ _ _ _ _ _ _ Hsp) as Hok.
  unfold hlock. rewrite split_lookup_m, (no_heap Hok). done.
Qed.

Lemma split_hpar q : q ≠ m → q ≠ n → hpar (tv_h v') q = hpar (tv_h v) q.
Proof using Hsp.
  destruct split_facts as (?&?&?&?&?&?). intros Hqm Hqn.
  pose proof (sp_ok _ _ _ _ _ _ _ _ _ _ _ _ _ _ Hsp) as Hok.
  pose proof (no_parheap Hok). unfold hpar. simpl.
  rewrite !lookup_insert. repeat case_decide; subst; simplify_map_eq; done.
Qed.

(** No live node has the fresh identity as its parent. *)
Lemma split_no_kids q : q ∈ dom G → hpar (tv_h v) q ≠ Some m.
Proof using Hsp.
  destruct split_facts as (?&?&?&?&?&?). intros [gq Hq]%elem_of_dom Hpar.
  pose proof (sp_tree _ _ _ _ _ _ _ _ _ _ _ _ _ _ Hsp) as Ht. unfold hpar in Hpar.
  destruct (decide (q = tv_root v)) as [->|].
  - destruct (to_root Ht) as (xr & Hr & Hp & _). rewrite Hr in Hpar. simpl in Hpar. congruence.
  - destruct (to_node Ht q gq) as (y & r & gr & ry & Hokq); [done..|].
    rewrite (no_heap Hokq) in Hpar. simpl in Hpar.
    pose proof (no_par Hokq). pose proof (no_gpar Hokq). congruence.
Qed.

Lemma split_child_locks q :
  child_locks (tv_h v') G' q
  = (child_locks (tv_h v) G q + if decide (q = m) then hlock (tv_h v) n else 0)%Z.
Proof using Hsp.
  destruct split_facts as (?&?&?&?&Hm&?).
  pose proof Hsp as [Ht Hlive _ Hok].
  assert (m ∉ dom G) by (by apply not_elem_of_dom).
  assert (n ∈ dom G) by (by apply elem_of_dom).
  unfold child_locks. rewrite dom_insert_L, gsum_insert by done.
  rewrite (gsum_update
    (λ r, if decide (hpar (tv_h v) r = Some q) then hlock (tv_h v) r else 0%Z) _ n); [|done|].
  - rewrite split_hlock_m, split_hlock by done.
    assert (hpar (tv_h v') m = Some p) by (unfold hpar; by rewrite split_lookup_m).
    assert (hpar (tv_h v') n = Some m) by (unfold hpar; by rewrite split_lookup_n).
    assert (hpar (tv_h v) n = Some p)
      by (unfold hpar; rewrite (no_heap Hok); apply (no_par Hok)).
    repeat case_decide; first [lia | exfalso; congruence].
  - intros r Hr Hrn. assert (r ≠ m) by set_solver. by rewrite split_hpar, split_hlock.
Qed.

Lemma split_locks_ok L : locks_ok v G L → locks_ok v' G' L.
Proof using Hsp.
  destruct split_facts as (?&?&?&?&Hm&?). destruct split_inner as [Ein _].
  pose proof Hsp as [Ht Hlive Hn Hok]. intros [Hnn Hsum Hout].
  assert (n ∈ inner v G) as Hnin by (apply elem_of_inner; eauto).
  constructor.
  - intros q. rewrite Ein, elem_of_union, elem_of_singleton. intros [->|Hq].
    + rewrite split_hlock_m. auto.
    + destruct (decide (q = m)) as [->|]; [rewrite split_hlock_m|rewrite split_hlock]; auto.
  - intros q. rewrite Ein, elem_of_union, elem_of_singleton, split_child_locks.
    intros [->|Hq].
    + rewrite decide_True, split_hlock_m by done.
      rewrite Hout by (by apply not_elem_of_dom).
      unfold child_locks. rewrite gsum_zero; [lia|].
      intros r Hr. by rewrite decide_False by (by apply split_no_kids).
    + apply elem_of_inner in Hq as Hq'. destruct Hq' as [[gq Hgq] _].
      assert (q ≠ m) by congruence.
      rewrite decide_False, split_hlock by done. rewrite Hsum by done. lia.
  - intros q Hq. apply Hout. contradict Hq. rewrite dom_insert_L. set_solver.
Qed.

Lemma split_hlen q : q ≠ m → q ≠ n → hlen (tv_h v') q = hlen (tv_h v) q.
Proof using Hsp.
  destruct split_facts as (?&?&?&?&?&?). intros Hqm Hqn.
  pose proof (sp_ok _ _ _ _ _ _ _ _ _ _ _ _ _ _ Hsp) as Hok.
  pose proof (no_parheap Hok). unfold hlen. simpl.
  rewrite !lookup_insert. repeat case_decide; subst; simplify_map_eq; done.
Qed.
Lemma split_hlen_mn :
  (hlen (tv_h v') m + hlen (tv_h v') n)%Z = hlen (tv_h v) n.
Proof using Hsp.
  destruct split_key_len as [Hpre Hpost].
  pose proof Hsp as [Ht Hlive _ Hok]. unfold hlen.
  rewrite split_lookup_m, split_lookup_n, (no_heap Hok). simpl. lia.
Qed.

(** A weight that depends on the lock count and is linear in the length is
    not changed by the split. *)
Lemma split_gsum (w : Z → Z → Z) :
  (∀ l a b, w l (a + b) = w l a + w l b)%Z →
  gsum (λ q, w (hlock (tv_h v') q) (hlen (tv_h v') q)) (inner v' G')
  = gsum (λ q, w (hlock (tv_h v) q) (hlen (tv_h v) q)) (inner v G).
Proof using Hsp.
  intros Hlin. destruct split_facts as (?&?&?&?&?&?).
  destruct split_inner as [-> Hmin]. pose proof Hsp as [Ht Hlive Hn Hok].
  assert (n ∈ inner v G) as Hnin by (apply elem_of_inner; eauto).
  rewrite gsum_insert by done.
  rewrite (gsum_update (λ q, w (hlock (tv_h v) q) (hlen (tv_h v) q)) _ n); [|done|].
  - rewrite split_hlock_m, split_hlock, <-split_hlen_mn, Hlin by done. lia.
  - intros q Hq Hqn. assert (q ≠ m) by set_solver. by rewrite split_hlock, split_hlen.
Qed.

(** The slots of the edge are shared out between the two halves. *)
Lemma split_slots i : slot_count v' G' i = slot_count v G i.
Proof using Hsp.
  destruct split_facts as (?&?&?&?&?&?). unfold slot_count.
  destruct split_inner as [-> Hmin]. pose proof Hsp as [Ht Hlive Hn Hok Hvv].
  rewrite gsum_insert by done.
  rewrite (gsum_update (λ q, occ i (hval (tv_h v) q)) (λ q, occ i (hval (tv_h v') q)) n
    (inner v G)); [|by apply elem_of_inner; eauto|].
  - unfold hval. rewrite split_lookup_m, split_lookup_n, (no_heap Hok). simpl.
    rewrite Hvv. simpl. rewrite (occ_take_drop i k vv). lia.
  - intros q Hq Hqn. assert (q ≠ m) by congruence. unfold hval. simpl. rewrite !lookup_insert.
    pose proof (no_parheap Hok).
    repeat case_decide; subst; simplify_map_eq; done.
Qed.

Lemma split_leaf q : is_evictable_leaf v' G' q ↔ is_evictable_leaf v G q.
Proof using Hsp.
  destruct split_facts as (?&?&?&?&?&?). destruct split_inner as [Ein Hmin].
  pose proof Hsp as [Ht Hlive Hn Hok]. unfold is_evictable_leaf. rewrite Ein.
  destruct (decide (q = m)) as [->|Hqm].
  { split; [|by intros [? _]]. intros (_ & _ & y & Hy & Hc).
    rewrite split_lookup_m in Hy. simplify_eq/=. }
  rewrite split_hlock by done. rewrite elem_of_union, elem_of_singleton.
  assert ((∃ y, tv_h v' !! q = Some y ∧ c_children y = ∅) ↔
          (∃ y, tv_h v !! q = Some y ∧ c_children y = ∅)) as Hkids; [|naive_solver].
  destruct (decide (q = p)) as [->|]; [|destruct (decide (q = n)) as [->|]].
  - rewrite split_lookup_p, (no_parheap Hok). split; intros (y & [= <-] & Hc); simpl in Hc.
    + by apply insert_non_empty in Hc.
    + destruct (no_link Hok) as (ck' & _ & Hl). by rewrite Hc in Hl.
  - rewrite split_lookup_n, (no_heap Hok). split; intros (y & [= <-] & Hc); eauto.
  - simpl. by rewrite !lookup_insert_ne.
Qed.

Lemma split_sizes_ok : sizes_ok v G → sizes_ok v' G'.
Proof using Hsp.
  intros [Hev Hpr Hlv]. constructor.
  - simpl tv_ev. rewrite Hev. symmetry.
    apply (split_gsum ev_w). intros; unfold ev_w; case_decide; lia.
  - simpl tv_pr. rewrite Hpr. symmetry.
    apply (split_gsum pr_w). intros; unfold pr_w; case_decide; lia.
  - intros q. rewrite split_leaf. apply Hlv.
Qed.

Lemma split_Inv L : Inv v G L → Inv v' G' L.
Proof using Hsp.
  intros [_ Hl Hs].
  split; [apply split_tree_ok|by apply split_locks_ok|by apply split_sizes_ok].
Qed.
End lemmas.
End split.
