(* ===== verification/RadixLeaf.v ===== *)
(** Adding a leaf (the end of [_insert_helper]) and removing one
    ([_delete_leaf]) on the view. *)
From S2P Require Import Prelude RadixKey TreeNode EvictPolicy RadixCache RadixInv RadixSplit.
From stdpp Require Import options.

Section facts.
Implicit Types (v : tview) (h : gmap nat core) (G : gmap nat gnode) (L : nat → Z).

(** The parent of a live inner node is live; nothing is a child of a node
    that is not live. *)
Lemma tree_hpar_live v G q p :
  tree_ok v G → q ∈ dom G → hpar (tv_h v) q = Some p → is_Some (G !! p).
Proof.
  intros Ht [gq Hq]%elem_of_dom Hpar. unfold hpar in Hpar.
  destruct (decide (q = tv_root v)) as [->|].
  - destruct (to_root Ht) as (xr & Hr & Hp & _). rewrite Hr in Hpar. simpl in Hpar. congruence.
  - destruct (to_node Ht q gq) as (y & r & gr & ry & Hokq); [done..|].
    rewrite (no_heap Hokq) in Hpar. simpl in Hpar.
    pose proof (no_par Hokq). pose proof (no_gpar Hokq). simplify_eq. eauto.
Qed.

(** A node without children has no child locks. *)
Lemma no_children_locks v G n x :
  tree_ok v G → tv_h v !! n = Some x → c_children x = ∅ →
  child_locks (tv_h v) G n = 0%Z.
Proof.
  intros Ht Hx Hc. apply gsum_zero. intros q Hq. case_decide as Hpar; [|done].
  exfalso. apply elem_of_dom in Hq as [gq Hq]. unfold hpar in Hpar.
  destruct (decide (q = tv_root v)) as [->|].
  - destruct (to_root Ht) as (xr & Hr & Hp & _). rewrite Hr in Hpar. simpl in Hpar. congruence.
  - destruct (to_node Ht q gq) as (y & r & gr & ry & Hokq); [done..|].
    rewrite (no_heap Hokq) in Hpar. simpl in Hpar. rewrite (no_par Hokq) in Hpar. simplify_eq.
    destruct (no_link Hokq) as (ck & _ & Hl). pose proof (no_parheap Hokq).
    simplify_eq. by rewrite Hc in Hl.
Qed.
End facts.

Section add_leaf.
Context (v : tview) (G : gmap nat gnode).
Context (p : nat) (gp : gnode) (px : core) (K : RadixKey) (ck : ckey) (vv : list Z).

Abbreviation m := (tv_next v).
Definition leaf_core : core := MkCore ∅ (Some p) K (Some vv) 0.
Definition leaf_view : tview :=
  MkView (tv_ps v) (tv_eagle v) (tv_root v)
    (<[p := add_child px ck m]> (<[m := leaf_core]> (tv_h v))) (S m)
    (tv_ev v + Z.of_nat (key_len K)) (tv_pr v) ({[m]} ∪ (tv_leaves v ∖ {[p]})).
Definition leaf_gnode : gnode :=
  MkG (g_path gp ++ titer K) (g_vals gp ++ vv).
Abbreviation v' := leaf_view.
Abbreviation G' := (<[m := leaf_gnode]> G).

Record leaf_pre : Prop := {
  lp_live : G !! p = Some gp;
  lp_heap : tv_h v !! p = Some px;
  lp_pos : 0 < key_len K;
  lp_aligned : key_len K `mod` tv_ps v = 0;
  lp_mode : is_bigram K = tv_eagle v;
  lp_ck : child_key K (tv_ps v) = Ok ck;
  lp_free : c_children px !! ck = None;
  lp_vals : length vv = key_len K;
}.
Context (Ht : tree_ok v G) (Hlp : leaf_pre).

Lemma leaf_facts : p ≠ m ∧ tv_root v ≠ m ∧ G !! m = None ∧ tv_h v !! m = None.
Proof using Ht Hlp.
  pose proof (tree_fresh _ _ Ht). pose proof (tree_heap_fresh _ _ Ht).
  pose proof (lp_live Hlp). pose proof (to_groot Ht). split_and!; congruence.
Qed.

Lemma leaf_lookup_p : tv_h v' !! p = Some (add_child px ck m).
Proof using Hlp. apply lookup_insert_eq. Qed.
Lemma leaf_lookup_m : tv_h v' !! m = Some leaf_core.
Proof using Ht Hlp.
  destruct leaf_facts as (?&?&?&?). simpl. rewrite lookup_insert_ne by done.
  apply lookup_insert_eq.
Qed.
Lemma leaf_lookup_ne q : q ≠ m → q ≠ p → tv_h v' !! q = tv_h v !! q.
Proof using Ht Hlp. intros. simpl. by rewrite !lookup_insert_ne. Qed.

Lemma leaf_node_new : node_ok v' G' m leaf_gnode leaf_core p gp (add_child px ck m).
Proof using Ht Hlp.
  destruct leaf_facts as (?&?&?&?). pose proof Hlp as [].
  constructor; simpl; try done.
  - apply leaf_lookup_m.
  - by rewrite lookup_insert_ne.
  - apply leaf_lookup_p.
  - exists ck. split; [done|]. apply lookup_insert_eq.
  - eauto.
Qed.

Lemma leaf_node_other q gq y r gr ry :
  G !! q = Some gq → node_ok v G q gq y r gr ry →
  ∃ y' ry', node_ok v' G' q gq y' r gr ry' ∧ c_key y' = c_key y.
Proof using Ht Hlp.
  destruct leaf_facts as (?&?&?&?). intros Hq Hokq. pose proof Hlp as [].
  assert (q ≠ m) by congruence.
  assert (r ≠ m) by (pose proof (no_gpar Hokq); congruence).
  assert (∃ y', tv_h v' !! q = Some y' ∧ c_parent y' = c_parent y ∧ c_key y' = c_key y
            ∧ c_value y' = c_value y) as (y' & Hy' & Epar & Ekey & Eval).
  { pose proof (no_heap Hokq) as Hy. destruct (decide (q = p)) as [->|].
    - exists (add_child px ck m). split; [apply leaf_lookup_p|].
      assert (y = px) as -> by congruence. done.
    - exists y. by rewrite leaf_lookup_ne. }
  destruct (no_link Hokq) as (ckq & Hckq & Hlink).
  assert (∃ ry', tv_h v' !! r = Some ry' ∧ c_children ry' !! ckq = Some q)
    as (ry' & Hry' & Hlink').
  { pose proof (no_parheap Hokq) as Hry. destruct (decide (r = p)) as [->|].
    - exists (add_child px ck m). split; [apply leaf_lookup_p|].
      assert (ry = px) as -> by congruence. simpl.
      rewrite lookup_insert_ne; [done|]. congruence.
    - exists ry. by rewrite leaf_lookup_ne. }
  exists y', ry'. split; [|done].
  constructor; rewrite ?Epar, ?Ekey, ?Eval; simpl; try apply Hokq; try done.
  - rewrite lookup_insert_ne by done. apply (no_gpar Hokq).
  - exists ckq. done.
Qed.

Lemma leaf_to_child r gr ry' ckq q :
  G' !! r = Some gr → tv_h v' !! r = Some ry' → c_children ry' !! ckq = Some q →
  ∃ gq xq, G' !! q = Some gq ∧ tv_h v' !! q = Some xq ∧ c_parent xq = Some r
    ∧ q ≠ tv_root v' ∧ child_key (c_key xq) (tv_ps v') = Ok ckq.
Proof using Ht Hlp.
  destruct leaf_facts as (?&?&?&?). intros Hr Hry' Hq. pose proof Hlp as [].
  destruct (decide (r = m)) as [->|Hrm].
  { rewrite leaf_lookup_m in Hry'. by simplify_eq/=. }
  rewrite lookup_insert_ne in Hr by done.
  assert (q = m ∧ r = p ∧ ckq = ck ∨
    ∃ ry, tv_h v !! r = Some ry ∧ c_children ry !! ckq = Some q)
    as [(->&->&->)|(ry & Hry & Hl)].
  { destruct (decide (r = p)) as [->|].
    - rewrite leaf_lookup_p in Hry'. simplify_eq/=. rewrite lookup_insert in Hq.
      case_decide; simplify_eq; eauto.
    - rewrite leaf_lookup_ne in Hry' by done. eauto. }
  - exists leaf_gnode, leaf_core.
    split_and!; [apply lookup_insert_eq|apply leaf_lookup_m|done|done|done].
  - destruct (to_child Ht r gr ry ckq q) as (gq & xq & Hgq & Hxq & Hpar & Hqr & Hckq); [done..|].
    destruct (to_node Ht q gq) as (y & r' & gr' & ry0 & Hokq); [done..|].
    destruct (leaf_node_other q gq y r' gr' ry0) as (y' & ry'' & Hok' & Ekey); [done..|].
    pose proof (no_heap Hokq). pose proof (no_par Hok'). pose proof (no_par Hokq).
    assert (y = xq) as -> by congruence.
    exists gq, y'. rewrite Ekey.
    split_and!; [rewrite lookup_insert_ne; congruence|apply (no_heap Hok')|congruence|done..].
Qed.

Lemma leaf_tree_ok : tree_ok v' G'.
Proof using Ht Hlp.
  destruct leaf_facts as (?&?&?&?). pose proof leaf_node_new as Hnew.
  constructor.
  - apply (to_ps Ht).
  - destruct (to_root Ht) as (xr & Hr & ?&?&?&?). change (tv_root v') with (tv_root v).
    destruct (decide (p = tv_root v)) as [Hp|].
    + assert (xr = px) as -> by (pose proof (lp_heap Hlp); congruence).
      exists (add_child px ck m). split; [|done]. rewrite <-Hp. apply leaf_lookup_p.
    + exists xr. rewrite leaf_lookup_ne by congruence. done.
  - simpl. rewrite lookup_insert_ne by done. apply (to_groot Ht).
  - intros q Hq. simpl. destruct (decide (q = m)) as [->|]; [lia|].
    enough (q < m) by lia. apply (to_fresh Ht).
    destruct (decide (q = p)) as [->|]; [rewrite (lp_heap Hlp); eauto|].
    by rewrite leaf_lookup_ne in Hq.
  - intros q gq Hq Hqr. destruct (decide (q = m)) as [->|].
    + rewrite lookup_insert_eq in Hq. simplify_eq. eauto.
    + rewrite lookup_insert_ne in Hq by done.
      destruct (to_node Ht q gq) as (y & r & gr & ry & Hokq); [done..|].
      destruct (leaf_node_other q gq y r gr ry) as (y' & ry' & ? & _); eauto 10.
  - apply leaf_to_child.
Qed.

(** *** Locks and sizes *)

Lemma leaf_same q :
  q ≠ m → hlock (tv_h v') q = hlock (tv_h v) q ∧ hpar (tv_h v') q = hpar (tv_h v) q
          ∧ hlen (tv_h v') q = hlen (tv_h v) q.
Proof using Ht Hlp.
  intros Hqm. unfold hlock, hpar, hlen. destruct (decide (q = p)) as [->|].
  - by rewrite leaf_lookup_p, (lp_heap Hlp).
  - by rewrite leaf_lookup_ne.
Qed.

Lemma leaf_inner : inner v' G' = {[m]} ∪ inner v G ∧ (m ∉ inner v G) ∧ m ∉ dom G.
Proof using Ht Hlp.
  destruct leaf_facts as (?&?&Hm&?).
  assert (m ∉ dom G) by (by apply not_elem_of_dom).
  unfold inner. simpl. rewrite dom_insert_L. set_solver.
Qed.

Lemma leaf_locks_ok L : locks_ok v G L → locks_ok v' G' L.
Proof using Ht Hlp.
  destruct leaf_inner as (Ein & Hmin & Hmd). intros [Hnn Hsum Hout].
  assert (hlock (tv_h v') m = 0%Z) as Hm0 by (unfold hlock; by rewrite leaf_lookup_m).
  assert (∀ q, child_locks (tv_h v') G' q = child_locks (tv_h v) G q) as Hcl.
  { intros q. unfold child_locks. rewrite dom_insert_L, gsum_insert by done.
    rewrite Hm0. rewrite (gsum_ext _
      (λ r, if decide (hpar (tv_h v) r = Some q) then hlock (tv_h v) r else 0%Z)).
    - case_decide; lia.
    - intros r Hr. by destruct (leaf_same r) as (-> & -> & _); [set_solver|]. }
  constructor.
  - intros q. rewrite Ein, elem_of_union, elem_of_singleton.
    intros [->|Hq]; [lia|]. destruct (leaf_same q) as (-> & _); [set_solver|]. auto.
  - intros q. rewrite Ein, elem_of_union, elem_of_singleton, Hcl. intros [->|Hq].
    + rewrite Hm0, Hout by done. unfold child_locks. rewrite gsum_zero; [lia|].
      intros r Hr. case_decide as Hpar; [|done].
      apply (tree_hpar_live v G) in Hpar as [? ?]; [|done|done].
      destruct leaf_facts as (?&?&?&?). congruence.
    + destruct (leaf_same q) as (-> & _); [set_solver|]. auto.
  - intros q Hq. apply Hout. contradict Hq. rewrite dom_insert_L. set_solver.
Qed.

Lemma leaf_is_leaf q :
  is_evictable_leaf v' G' q ↔ q = m ∨ (q ≠ p ∧ is_evictable_leaf v G q).
Proof using Ht Hlp.
  destruct leaf_facts as (?&?&?&?). destruct leaf_inner as (Ein & Hmin & _).
  unfold is_evictable_leaf. rewrite Ein, elem_of_union, elem_of_singleton.
  destruct (decide (q = m)) as [->|Hqm].
  { split; [by left|]. intros _. split_and!; [by left|unfold hlock; by rewrite leaf_lookup_m|].
    rewrite leaf_lookup_m. eauto. }
  destruct (leaf_same q) as (-> & _); [done|]. destruct (decide (q = p)) as [->|].
  - rewrite leaf_lookup_p. split; [|naive_solver].
    intros (_ & _ & y & [= <-] & Hc). simpl in Hc. by apply insert_non_empty in Hc.
  - rewrite leaf_lookup_ne by done. naive_solver.
Qed.

Lemma leaf_sizes_ok : sizes_ok v G → sizes_ok v' G'.
Proof using Ht Hlp.
  destruct leaf_inner as (Ein & Hmin & _). intros [Hev Hpr Hlv].
  assert (hlock (tv_h v') m = 0%Z) as Hm0 by (unfold hlock; by rewrite leaf_lookup_m).
  assert (hlen (tv_h v') m = Z.of_nat (key_len K)) as Hml
    by (unfold hlen; by rewrite leaf_lookup_m).
  assert (∀ w : Z → Z → Z,
    gsum (λ q, w (hlock (tv_h v') q) (hlen (tv_h v') q)) (inner v' G')
    = (w 0 (Z.of_nat (key_len K)) +
       gsum (λ q, w (hlock (tv_h v) q) (hlen (tv_h v) q)) (inner v G))%Z) as Hsum.
  { intros w. rewrite Ein, gsum_insert by done. rewrite Hm0, Hml. f_equal.
    apply gsum_ext. intros q Hq. by destruct (leaf_same q) as (-> & _ & ->); [set_solver|]. }
  constructor.
  - simpl tv_ev. rewrite Hev. unfold ev_weight. rewrite (Hsum ev_w).
    change (ev_w 0 ?a) with a. lia.
  - simpl tv_pr. rewrite Hpr. unfold pr_weight. by rewrite (Hsum pr_w).
  - intros q. rewrite leaf_is_leaf, <-Hlv. simpl. set_solver.
Qed.

Lemma leaf_slots i : slot_count v' G' i = (occ i vv + slot_count v G i)%Z.
Proof using Ht Hlp.
  destruct leaf_inner as (Ein & Hmin & _). unfold slot_count. rewrite Ein, gsum_insert by done.
  f_equal; [unfold hval; by rewrite leaf_lookup_m|].
  apply gsum_ext. intros q Hq. f_equal. unfold hval. destruct (decide (q = p)) as [->|].
  - by rewrite leaf_lookup_p, (lp_heap Hlp).
  - by rewrite leaf_lookup_ne by set_solver.
Qed.

Lemma leaf_Inv L : Inv v G L → Inv v' G' L.
Proof using Ht Hlp.
  intros [_ Hl Hs]. split; [apply leaf_tree_ok|by apply leaf_locks_ok|by apply leaf_sizes_ok].
Qed.
End add_leaf.

Section del_leaf.
Context (v : tview) (G : gmap nat gnode).
Context (n : nat) (g : gnode) (x : core) (p : nat) (gp : gnode) (px : core) (ck : ckey).

Definition del_child : core :=
  MkCore (delete ck (c_children px)) (c_parent px) (c_key px) (c_value px) (c_lock px).
(** The parent becomes an evictable leaf when it has no child left and is
    not locked. *)
Definition del_leaves : gset nat :=
  if decide (delete ck (c_children px) = ∅ ∧ c_lock px = 0%Z)
  then {[p]} ∪ (tv_leaves v ∖ {[n]}) else (tv_leaves v ∖ {[n]}) ∖ {[p]}.
Definition del_view : tview :=
  MkView (tv_ps v) (tv_eagle v) (tv_root v) (<[p := del_child]> (tv_h v)) (tv_next v)
    (tv_ev v - Z.of_nat (key_len (c_key x))) (tv_pr v) del_leaves.
Abbreviation v' := del_view.
Abbreviation G' := (delete n G).

Record del_pre : Prop := {
  dp_live : G !! n = Some g;
  dp_inner : n ≠ tv_root v;
  dp_ok : node_ok v G n g x p gp px;
  dp_ck : child_key (c_key x) (tv_ps v) = Ok ck;
  dp_kids : c_children x = ∅;
  dp_lock : c_lock x = 0%Z;
}.
Context (Ht : tree_ok v G) (Hdp : del_pre).

Lemma del_ne : n ≠ p.
Proof using Ht Hdp. pose proof Hdp as [? ? Hok]. by eapply node_ok_ne. Qed.

Lemma del_link : c_children px !! ck = Some n.
Proof using Ht Hdp.
  pose proof Hdp as [? ? Hok Hck]. destruct (no_link Hok) as (ck' & ? & ?). congruence.
Qed.

(** Nothing but the edge to [n] changes in the heap. *)
Lemma del_lookup q y :
  tv_h v !! q = Some y → ∃ y', tv_h v' !! q = Some y' ∧ c_parent y' = c_parent y
    ∧ c_key y' = c_key y ∧ c_value y' = c_value y ∧ c_lock y' = c_lock y
    ∧ c_children y' = (if decide (q = p) then delete ck (c_children y) else c_children y).
Proof using Ht Hdp.
  pose proof Hdp as [? ? Hok]. intros Hq. simpl. destruct (decide (q = p)) as [->|].
  - assert (y = px) as -> by (pose proof (no_parheap Hok); congruence).
    exists del_child. rewrite lookup_insert_eq. done.
  - exists y. rewrite lookup_insert_ne by done. done.
Qed.

Lemma del_lookup_inv q y' :
  tv_h v' !! q = Some y' → ∃ y, tv_h v !! q = Some y
    ∧ c_parent y' = c_parent y ∧ c_key y' = c_key y ∧ c_value y' = c_value y
    ∧ c_lock y' = c_lock y
    ∧ c_children y' = (if decide (q = p) then delete ck (c_children y) else c_children y).
Proof using Ht Hdp.
  intros Hq. assert (is_Some (tv_h v !! q)) as [y Hy].
  { pose proof Hdp as [? ? Hok]. simpl in Hq. rewrite lookup_insert in Hq.
    case_decide; subst; [rewrite (no_parheap Hok)|]; eauto. }
  destruct (del_lookup q y) as (y'' & Hy'' & ?); [done|].
  rewrite Hq in Hy''. simplify_eq. eauto.
Qed.

Lemma del_node q gq y r gr ry :
  G !! q = Some gq → q ≠ n → node_ok v G q gq y r gr ry →
  ∃ y' ry', node_ok v' G' q gq y' r gr ry' ∧ c_key y' = c_key y.
Proof using Ht Hdp.
  intros Hq Hqn Hokq. pose proof Hdp as [? ? Hok Hck Hkids]. pose proof del_link as Hl.
  destruct (no_link Hokq) as (ckq & Hckq & Hlink).
  destruct (del_lookup q y) as (y' & ? & Epar & Ekey & Eval & _ & _); [apply (no_heap Hokq)|].
  destruct (del_lookup r ry) as (ry' & ? & _ & _ & _ & _ & Ekids); [apply (no_parheap Hokq)|].
  assert (r ≠ n).
  { intros ->. pose proof (no_heap Hok). pose proof (no_parheap Hokq). simplify_eq.
    by rewrite Hkids in Hlink. }
  exists y', ry'. split; [|done].
  constructor; rewrite ?Epar, ?Ekey, ?Eval; simpl; try apply Hokq; try done.
  - rewrite lookup_delete_ne by done. apply (no_gpar Hokq).
  - exists ckq. split; [done|]. rewrite Ekids. case_decide as Hrp; [|done].
    rewrite lookup_delete_ne; [done|]. intros <-. subst r.
    pose proof (no_parheap Hokq). pose proof (no_parheap Hok). congruence.
Qed.

Lemma del_tree_ok : tree_ok v' G'.
Proof using Ht Hdp.
  pose proof Hdp as [Hlive Hn Hok Hck Hkids]. pose proof del_ne as Hnp. constructor.
  - apply (to_ps Ht).
  - destruct (to_root Ht) as (xr & Hr & Hp & Hlk & Hv & Hk).
    destruct (del_lookup _ _ Hr) as (y' & Hy' & Ep & Ek & Ev & El & _).
    exists y'. rewrite Ep, Ek, Ev, El. done.
  - simpl. rewrite lookup_delete_ne by done. apply (to_groot Ht).
  - intros q [y' (y & Hy & _)%del_lookup_inv]. apply (to_fresh Ht). eauto.
  - intros q gq Hq Hqr. apply lookup_delete_Some in Hq as [Hqn Hq].
    destruct (to_node Ht q gq) as (y & r & gr & ry & Hokq); [done..|].
    destruct (del_node q gq y r gr ry) as (y' & ry' & ? & _); eauto 10.
  - intros r gr ry' ckq q Hr Hry' Hq. apply lookup_delete_Some in Hr as [Hrn Hr].
    apply del_lookup_inv in Hry' as (ry & Hry & _ & _ & _ & _ & Ekids).
    assert (c_children ry !! ckq = Some q ∧ q ≠ n) as [Hl Hqn].
    { rewrite Ekids in Hq. case_decide as Hrp.
      - apply lookup_delete_Some in Hq as [? Hq]. split; [done|]. intros ->.
        destruct (to_child Ht r gr ry ckq n) as (? & xn & ? & ? & ? & ? & ?); [done..|].
        pose proof (no_heap Hok). congruence.
      - split; [done|]. intros ->.
        destruct (to_child Ht r gr ry ckq n) as (? & xn & ? & ? & ? & ? & ?); [done..|].
        pose proof (no_heap Hok). pose proof (no_par Hok). congruence. }
    destruct (to_child Ht r gr ry ckq q) as (gq & xq & Hgq & Hxq & Hpar & Hqr & Hckq); [done..|].
    destruct (del_lookup q xq) as (xq' & Hxq' & Ep & Ek & _); [done|].
    exists gq, xq'. rewrite Ep, Ek. by rewrite lookup_delete_ne.
Qed.

Lemma del_same q :
  hlock (tv_h v') q = hlock (tv_h v) q ∧ hpar (tv_h v') q = hpar (tv_h v) q
  ∧ hlen (tv_h v') q = hlen (tv_h v) q.
Proof using Ht Hdp.
  unfold hlock, hpar, hlen. destruct (tv_h v !! q) as [y|] eqn:Hq.
  - destruct (del_lookup q y Hq) as (y' & -> & Ep & Ek & _ & El & _). simpl.
    by rewrite Ep, Ek, El.
  - destruct (tv_h v' !! q) as [y'|] eqn:Hq'; [|done].
    destruct (del_lookup_inv q y' Hq') as (y & ? & _). congruence.
Qed.

Lemma del_inner : inner v G = {[n]} ∪ inner v' G' ∧ n ∉ inner v' G'.
Proof using Ht Hdp.
  pose proof Hdp as [Hlive Hn]. assert (n ∈ dom G) by (by apply elem_of_dom).
  unfold inner. simpl. rewrite dom_delete_L.
  split; [|set_solver]. apply set_eq. intros q. destruct (decide (q = n)); set_solver.
Qed.

Local Lemma del_hlock_n : hlock (tv_h v) n = 0%Z.
Proof using Ht Hdp. pose proof Hdp as [? ? Hok]. unfold hlock. by rewrite (no_heap Hok). Qed.

Lemma del_locks_ok L : locks_ok v G L → locks_ok v' G' L.
Proof using Ht Hdp.
  pose proof Hdp as [Hlive Hn Hok Hck Hkids Hlock]. intros [Hnn Hsum Hout].
  destruct del_inner as [Ein Hnin]. pose proof del_hlock_n as Hl0.
  assert (∀ q, child_locks (tv_h v') G' q = child_locks (tv_h v) G q) as Hcl.
  { intros q. unfold child_locks. rewrite dom_delete_L.
    rewrite (gsum_delete _ n (dom G)) by (by apply elem_of_dom).
    rewrite Hl0. rewrite (gsum_ext _
      (λ r, if decide (hpar (tv_h v) r = Some q) then hlock (tv_h v) r else 0%Z)).
    - case_decide; lia.
    - intros r _. by destruct (del_same r) as (-> & -> & _). }
  constructor.
  - intros q Hq. destruct (del_same q) as (-> & _). apply Hnn. rewrite Ein. set_solver.
  - intros q Hq. rewrite Hcl. destruct (del_same q) as (-> & _).
    apply Hsum. rewrite Ein. set_solver.
  - intros q Hq. destruct (decide (q = n)) as [->|].
    + specialize (Hsum n). rewrite Hl0, (no_children_locks v G n x) in Hsum;
        [|done|apply (no_heap Hok)|done].
      rewrite Ein in Hsum. specialize (Hsum ltac:(set_solver)). lia.
    + apply Hout. contradict Hq. rewrite dom_delete_L. set_solver.
Qed.

Lemma del_is_leaf q :
  is_evictable_leaf v' G' q ↔
  (q ≠ n ∧ q ≠ p ∧ is_evictable_leaf v G q)
  ∨ (q = p ∧ delete ck (c_children px) = ∅ ∧ c_lock px = 0%Z).
Proof using Ht Hdp.
  pose proof Hdp as [Hlive Hn Hok Hck Hkids Hlock]. destruct del_inner as [Ein Hnin].
  pose proof del_ne as Hnp. unfold is_evictable_leaf. rewrite Ein.
  destruct (del_same q) as (-> & _). destruct (decide (q = p)) as [->|Hqp].
  - assert (tv_h v' !! p = Some del_child) as -> by apply lookup_insert_eq.
    assert (hlock (tv_h v) p = c_lock px) as ->
      by (unfold hlock; by rewrite (no_parheap Hok)).
    split; [intros (_ & ? & y & [= <-] & ?); auto|].
    intros [(_ & ? & _)|(_ & ? & Hl0)]; [done|]. split_and!; [|done|exists del_child; done].
    apply elem_of_inner. simpl. rewrite lookup_delete_ne by done.
    split; [rewrite (no_gpar Hok); eauto|]. intros ->.
    destruct (to_root Ht) as (xr & ? & ? & ? & _). pose proof (no_parheap Hok).
    simplify_eq. lia.
  - simpl. rewrite lookup_insert_ne by done. set_solver.
Qed.

Lemma del_sizes_ok : sizes_ok v G → sizes_ok v' G'.
Proof using Ht Hdp.
  pose proof Hdp as [Hlive Hn Hok Hck Hkids Hlock]. intros [Hev Hpr Hlv].
  destruct del_inner as [Ein Hnin]. pose proof del_hlock_n as Hl0.
  assert (hlen (tv_h v) n = Z.of_nat (key_len (c_key x))) as Hlen
    by (unfold hlen; by rewrite (no_heap Hok)).
  assert (∀ w : Z → Z → Z,
    gsum (λ q, w (hlock (tv_h v) q) (hlen (tv_h v) q)) (inner v G)
    = (w 0 (Z.of_nat (key_len (c_key x))) +
       gsum (λ q, w (hlock (tv_h v') q) (hlen (tv_h v') q)) (inner v' G'))%Z) as Hsum.
  { intros w. rewrite Ein, gsum_insert by done. rewrite Hl0, Hlen. f_equal.
    apply gsum_ext. intros q _. by destruct (del_same q) as (-> & _ & ->). }
  constructor.
  - simpl tv_ev. rewrite Hev. unfold ev_weight. rewrite (Hsum ev_w).
    change (ev_w 0 ?a) with a. lia.
  - simpl tv_pr. rewrite Hpr. unfold pr_weight. by rewrite (Hsum pr_w).
  - intros q. rewrite del_is_leaf, <-Hlv. simpl. unfold del_leaves.
    destruct (decide (q = p)); case_decide;
      rewrite ?elem_of_union, ?elem_of_difference, ?elem_of_singleton; tauto.
Qed.

Lemma del_slots i : slot_count v G i = (occ i (hval (tv_h v) n) + slot_count v' G' i)%Z.
Proof using Ht Hdp.
  destruct del_inner as (Ein & Hnin). unfold slot_count. rewrite Ein, gsum_insert by done.
  f_equal. apply gsum_ext. intros q _. f_equal. unfold hval.
  destruct (tv_h v !! q) as [y|] eqn:Hq.
  - destruct (del_lookup q y Hq) as (y' & -> & _ & _ & Ev & _). simpl. by rewrite Ev.
  - destruct (tv_h v' !! q) as [y'|] eqn:Hq'; [|done].
    destruct (del_lookup_inv q y' Hq') as (y & ? & _). congruence.
Qed.

Lemma del_Inv L : Inv v G L → Inv v' G' L.
Proof using Ht Hdp.
  intros [_ Hl Hs]. split; [apply del_tree_ok|by apply del_locks_ok|by apply del_sizes_ok].
Qed.
End del_leaf.
