(* ===== verification/RadixLock.v ===== *)
(** Changing the lock count of one node on the view: the step of the loops of
    [inc_lock_ref] and [dec_lock_ref]. *)
From S2P Require Import Prelude RadixKey TreeNode EvictPolicy RadixCache RadixInv RadixSplit RadixLeaf.
From stdpp Require Import options.

(** Moving a lock: [d] more on [n]. *)
Definition add_lock (L : nat → Z) (n : nat) (d : Z) : nat → Z :=
  λ k, (L k + if decide (k = n) then d else 0)%Z.

(** The invariant only reads the locks of the inner nodes. *)
Lemma Inv_locks_ext v G (L L' : nat → Z) :
  Inv v G L → (∀ k, k ∈ inner v G → L k = L' k) → (∀ k, k ∉ dom G → L' k = 0%Z) →
  Inv v G L'.
Proof.
  intros [Ht [Hnn Hsum _] Hs] Heq Hout. split; [done| |done]. constructor; [done| |done].
  intros k Hk. rewrite <-Heq by done. auto.
Qed.

Section lock_step.
Context (v : tview) (G : gmap nat gnode) (n : nat) (g : gnode) (x : core).
Context (p : nat) (gp : gnode) (px : core) (d : Z).

Definition with_lock (y : core) (l : Z) : core :=
  MkCore (c_children y) (c_parent y) (c_key y) (c_value y) l.
Abbreviation l' := (c_lock x + d)%Z.
Abbreviation len := (Z.of_nat (key_len (c_key x))).
Definition lock_leaves : gset nat :=
  if decide (l' = 0%Z ∧ c_children x = ∅) then {[n]} ∪ tv_leaves v else tv_leaves v ∖ {[n]}.
Definition lock_view : tview :=
  MkView (tv_ps v) (tv_eagle v) (tv_root v) (<[n := with_lock x l']> (tv_h v)) (tv_next v)
    (tv_ev v + (ev_w l' len - ev_w (c_lock x) len))
    (tv_pr v + (pr_w l' len - pr_w (c_lock x) len)) lock_leaves.
Abbreviation v' := lock_view.

Context (Ht : tree_ok v G) (Hlive : G !! n = Some g) (Hn : n ≠ tv_root v).
Context (Hok : node_ok v G n g x p gp px) (Hl' : (0 <= l')%Z).

(** Only the lock count of [n] changes in the heap. *)
Lemma lock_lookup q :
  tv_h v' !! q = (λ y, if decide (q = n) then with_lock y l' else y) <$> (tv_h v !! q).
Proof using Hok.
  simpl. rewrite lookup_insert. case_decide as E.
  - subst q. rewrite (no_heap Hok). simpl. by rewrite decide_True.
  - destruct (tv_h v !! q); simpl; [|done]. by rewrite decide_False by congruence.
Qed.

Lemma lock_lookup_core q y :
  tv_h v !! q = Some y → ∃ y', tv_h v' !! q = Some y' ∧ c_children y' = c_children y
    ∧ c_parent y' = c_parent y ∧ c_key y' = c_key y ∧ c_value y' = c_value y
    ∧ (q ≠ n → y' = y).
Proof using Hok.
  intros Hq. rewrite lock_lookup, Hq. simpl. eexists. split; [done|].
  case_decide; split_and!; done.
Qed.
Lemma lock_lookup_core_inv q y' :
  tv_h v' !! q = Some y' → ∃ y, tv_h v !! q = Some y ∧ c_children y' = c_children y
    ∧ c_parent y' = c_parent y ∧ c_key y' = c_key y ∧ c_value y' = c_value y
    ∧ (q ≠ n → y' = y).
Proof using Hok.
  rewrite lock_lookup. intros (y & -> & Hy)%fmap_Some. exists y. split; [done|].
  rewrite Hy. case_decide; split_and!; done.
Qed.

Lemma lock_tree_ok : tree_ok v' G.
Proof using Ht Hok Hn.
  constructor.
  - apply (to_ps Ht).
  - destruct (to_root Ht) as (xr & Hr & ?&?&?&?).
    destruct (lock_lookup_core _ _ Hr) as (y' & Hy' & _ & _ & _ & _ & Eq).
    exists y'. rewrite (Eq ltac:(done)) in *. done.
  - apply (to_groot Ht).
  - intros q [y' (y & Hy & _)%lock_lookup_core_inv]. apply (to_fresh Ht). eauto.
  - intros q gq Hq Hqr. destruct (to_node Ht q gq) as (y & r & gr & ry & Hokq); [done..|].
    destruct (lock_lookup_core _ _ (no_heap Hokq)) as (y' & Hy' & _ & Ep & Ek & Ev & _).
    destruct (lock_lookup_core _ _ (no_parheap Hokq)) as (ry' & Hry' & Ec & _).
    exists y', r, gr, ry'. constructor; rewrite ?Ep, ?Ek, ?Ev, ?Ec; try apply Hokq; done.
  - intros r gr ry' ckq q Hr (ry & Hry & Ec & _)%lock_lookup_core_inv Hq. rewrite Ec in Hq.
    destruct (to_child Ht r gr ry ckq q) as (gq & xq & ? & Hxq & ? & ? & ?); [done..|].
    destruct (lock_lookup_core _ _ Hxq) as (y' & Hy' & _ & Ep & Ek & _).
    exists gq, y'. by rewrite Ep, Ek.
Qed.

Lemma lock_hlock q : hlock (tv_h v') q = if decide (q = n) then l' else hlock (tv_h v) q.
Proof using Hok.
  unfold hlock. rewrite lock_lookup. case_decide as E.
  - subst q. by rewrite (no_heap Hok).
  - by destruct (tv_h v !! q).
Qed.
Lemma lock_hpar q : hpar (tv_h v') q = hpar (tv_h v) q.
Proof using Hok.
  unfold hpar. rewrite lock_lookup. destruct (tv_h v !! q); [|done]. simpl. by case_decide.
Qed.
Lemma lock_hlen q : hlen (tv_h v') q = hlen (tv_h v) q.
Proof using Hok.
  unfold hlen. rewrite lock_lookup. destruct (tv_h v !! q); [|done]. simpl. by case_decide.
Qed.

Lemma lock_child_locks q :
  child_locks (tv_h v') G q
  = (child_locks (tv_h v) G q + if decide (q = p) then d else 0)%Z.
Proof using Hok Hlive Hn.
  unfold child_locks.
  rewrite (gsum_update
    (λ r, if decide (hpar (tv_h v) r = Some q) then hlock (tv_h v) r else 0%Z) _ n).
  - assert (hpar (tv_h v) n = Some p) as Hp
      by (unfold hpar; rewrite (no_heap Hok); apply (no_par Hok)).
    assert (hlock (tv_h v) n = c_lock x) as Hx by (unfold hlock; by rewrite (no_heap Hok)).
    rewrite lock_hpar, lock_hlock, Hx. rewrite (decide_True (P := n = n)) by done.
    repeat case_decide; first [lia | exfalso; congruence].
  - by apply elem_of_dom.
  - intros r _ Hrn. rewrite lock_hpar, lock_hlock. by rewrite (decide_False (P := r = n)).
Qed.

Lemma lock_locks_ok L : locks_ok v G L → locks_ok v' G (add_lock (add_lock L n d) p (- d)).
Proof using Hok Hlive Hn Hl'.
  intros [Hnn Hsum Hout]. unfold add_lock. constructor.
  - intros q Hq. rewrite lock_hlock. case_decide; [done|]. auto.
  - intros q Hq. rewrite lock_hlock, lock_child_locks.
    specialize (Hsum q Hq). case_decide as Hqn.
    + subst q. assert (hlock (tv_h v) n = c_lock x) as Hx
        by (unfold hlock; by rewrite (no_heap Hok)).
      case_decide; lia.
    + case_decide; lia.
  - intros q Hq. rewrite Hout by done.
    rewrite !decide_False; [lia| |]; intros ->; apply Hq, elem_of_dom; eauto.
    rewrite (no_gpar Hok). eauto.
Qed.

Lemma lock_is_leaf q :
  is_evictable_leaf v' G q ↔
  (q ≠ n ∧ is_evictable_leaf v G q) ∨ (q = n ∧ l' = 0%Z ∧ c_children x = ∅).
Proof using Hok Hlive Hn.
  unfold is_evictable_leaf. change (inner v' G) with (inner v G).
  rewrite lock_hlock, lock_lookup. destruct (decide (q = n)) as [->|].
  - rewrite (no_heap Hok). simpl. split.
    + intros (_ & ? & y & [= <-] & Hc). auto.
    + intros [[? _]|(_ & ? & ?)]; [done|]. split_and!; [apply elem_of_inner; eauto|done|].
      eexists. split; [done|]. done.
  - destruct (tv_h v !! q); simpl; naive_solver.
Qed.

Lemma lock_sizes_ok : sizes_ok v G → sizes_ok v' G.
Proof using Hok Hlive Hn.
  intros [Hev Hpr Hlv].
  assert (n ∈ inner v G) as Hin by (apply elem_of_inner; eauto).
  assert (hlock (tv_h v) n = c_lock x) as Hx by (unfold hlock; by rewrite (no_heap Hok)).
  assert (hlen (tv_h v) n = len) as Hlen by (unfold hlen; by rewrite (no_heap Hok)).
  assert (∀ w : Z → Z → Z,
    gsum (λ q, w (hlock (tv_h v') q) (hlen (tv_h v') q)) (inner v G)
    = (gsum (λ q, w (hlock (tv_h v) q) (hlen (tv_h v) q)) (inner v G)
       + (w l' len - w (c_lock x) len))%Z) as Hsum.
  { intros w. rewrite (gsum_update (λ q, w (hlock (tv_h v) q) (hlen (tv_h v) q)) _ n).
    - rewrite lock_hlock, lock_hlen, decide_True, Hx, Hlen by done. done.
    - done.
    - intros q _ Hqn. by rewrite lock_hlock, lock_hlen, decide_False. }
  constructor.
  - change (inner v' G) with (inner v G). simpl tv_ev. rewrite Hev. symmetry. apply (Hsum ev_w).
  - change (inner v' G) with (inner v G). simpl tv_pr. rewrite Hpr. symmetry. apply (Hsum pr_w).
  - intros q. rewrite lock_is_leaf, <-Hlv. simpl. unfold lock_leaves.
    destruct (decide (q = n)); case_decide;
      rewrite ?elem_of_union, ?elem_of_difference, ?elem_of_singleton; tauto.
Qed.

Lemma lock_slots i : slot_count v' G i = slot_count v G i.
Proof using Hok.
  unfold slot_count. change (inner v' G) with (inner v G). apply gsum_ext. intros q _.
  f_equal. unfold hval. rewrite lock_lookup. destruct (tv_h v !! q); [|done]. simpl.
  by case_decide.
Qed.

Lemma lock_Inv L : Inv v G L → Inv v' G (add_lock (add_lock L n d) p (- d)).
Proof using Ht Hok Hlive Hn Hl'.
  intros [_ Hl Hs]. split; [apply lock_tree_ok|by apply lock_locks_ok|by apply lock_sizes_ok].
Qed.
End lock_step.
