(* ===== verification/RadixSpec.v ===== *)
(** The contract of the prefix cache: a partial map from prefixes (lists of
    tagged units, a whole number of pages long) to KV slots.

    [cached ps G us vs] says that the abstract tree [G] holds the slots [vs]
    for the prefix [us].  The tree structure makes this a partial function, and
    a descent from the root finds the longest cached prefix of a key. *)
From S2P Require Import Prelude RadixKey TreeNode EvictPolicy RadixCache RadixInv RadixSplit RadixLeaf.
From stdpp Require Import options.

Definition cached (ps : nat) (G : gmap nat gnode) (us : list tunit) (vs : list Z) : Prop :=
  ∃ n g k, G !! n = Some g ∧ 0 < k ≤ length (g_path g) ∧ k `mod` ps = 0
    ∧ us = take k (g_path g) ∧ vs = take k (g_vals g).

(** [vs] are the slots of the longest cached prefix of [us] (none if nothing
    is cached). *)
Record longest_match (ps : nat) (G : gmap nat gnode) (us : list tunit) (vs : list Z) : Prop := {
  lm_le : length vs ≤ length us;
  lm_cached : vs = [] ∨ cached ps G (take (length vs) us) vs;
  lm_max : ∀ j vs', length vs < j ≤ length us → ¬ cached ps G (take j us) vs';
}.

Section radix.
Context (v : tview) (G : gmap nat gnode) (Ht : tree_ok v G).
Implicit Types (n p a c : nat) (g gp : gnode) (x px : core).

(** Siblings differ in their first page. *)
Lemma edge_uniq n1 g1 x1 n2 g2 x2 p gp px1 px2 :
  node_ok v G n1 g1 x1 p gp px1 → node_ok v G n2 g2 x2 p gp px2 →
  take (length (g_path gp) + tv_ps v) (g_path g1)
    = take (length (g_path gp) + tv_ps v) (g_path g2) →
  n1 = n2.
Proof using Ht.
  intros H1 H2. rewrite (no_path H1), (no_path H2), !take_app_add.
  intros Heq%app_inv_head.
  destruct (no_link H1) as (ck1 & Hck1 & Hl1), (no_link H2) as (ck2 & Hck2 & Hl2).
  assert (px1 = px2) as <- by (pose proof (no_parheap H1); pose proof (no_parheap H2); congruence).
  enough (ck1 = ck2) by congruence.
  pose proof (no_mode H1). pose proof (no_mode H2).
  apply (child_key_titer (c_key x1) (c_key x2) (tv_ps v)); try done.
  - apply (to_ps Ht).
  - apply (aligned_lt 0); [apply aligned_0|apply (no_aligned H1)|apply (no_pos H1)].
  - apply (aligned_lt 0); [apply aligned_0|apply (no_aligned H2)|apply (no_pos H2)].
  - congruence.
Qed.

(** A node is at least one page deeper than its parent. *)
Lemma node_ok_page n g x p gp px :
  node_ok v G n g x p gp px → length (g_path gp) + tv_ps v ≤ length (g_path g).
Proof using Ht.
  intros Hok. rewrite (node_ok_len _ _ _ _ _ _ _ _ Hok).
  assert (tv_ps v ≤ key_len (c_key x)); [|lia].
  apply (aligned_lt 0); [apply aligned_0|apply (no_aligned Hok)|apply (no_pos Hok)].
Qed.

Lemma node_ok_prefix n g x p gp px :
  node_ok v G n g x p gp px → g_path gp `prefix_of` g_path g.
Proof. intros Hok. rewrite (no_path Hok). by eexists. Qed.

(** The child of [p] whose path is a prefix of [g_path g] is unique. *)
Lemma edge_uniq_prefix n1 g1 x1 n2 g2 x2 p gp px1 px2 :
  node_ok v G n1 g1 x1 p gp px1 → node_ok v G n2 g2 x2 p gp px2 →
  g_path g1 `prefix_of` g_path g2 → n1 = n2.
Proof using Ht.
  intros H1 H2 Hpre. eapply edge_uniq; [done..|].
  apply prefix_take_eq; [done|]. by eapply node_ok_page.
Qed.

(** One step of the way from a live node [a] down to a live node [n] below it. *)
Definition step_down a (g : gnode) : Prop :=
  ∃ c gc xc ga ax, G !! c = Some gc ∧ node_ok v G c gc xc a ga ax
    ∧ g_path gc `prefix_of` g_path g.

Definition way_down_to (n : nat) (g : gnode) : Prop :=
  ∀ a ga, G !! a = Some ga → g_path ga `prefix_of` g_path g → a = n ∨ step_down a g.

(** A live node strictly below [p] and not below the child [n] of [p] is [n]. *)
Lemma edge_inside n g x p gp px a ga :
  G !! n = Some g → node_ok v G n g x p gp px → G !! a = Some ga →
  (∀ n' g', length (g_path g') < length (g_path g) → G !! n' = Some g' → way_down_to n' g') →
  g_path ga `prefix_of` g_path g → length (g_path gp) < length (g_path ga) → a = n.
Proof using Ht.
  intros Hn Hok Ha IH Hpre Hgt.
  pose proof (node_ok_lt _ _ _ _ _ _ _ _ Hok) as Hlt. pose proof (no_gpar Hok) as Hp.
  pose proof (node_ok_prefix _ _ _ _ _ _ Hok) as Hpp.
  assert (a ≠ tv_root v) as Har.
  { intros ->. rewrite (to_groot Ht) in Ha. simplify_eq. simpl in Hgt. lia. }
  pose proof (prefix_length _ _ Hpre) as Hlen.
  destruct (to_node Ht a ga) as (xa & b & gb & bx & Hoka); [done..|].
  pose proof (node_ok_lt _ _ _ _ _ _ _ _ Hoka) as Hlta. pose proof (no_gpar Hoka) as Hb.
  assert (g_path gb `prefix_of` g_path g) as Hpb by (etrans; [by eapply node_ok_prefix|done]).
  destruct (decide (length (g_path gp) ≤ length (g_path gb))) as [Hle|Hle].
  - destruct (IH b gb ltac:(lia) Hb p gp) as [->|(c & gc & xc & gp' & ax & Hc & Hokc & Hpc)];
      [done|by eapply prefix_le| |].
    + assert (gp = gb) as <- by congruence. by eapply edge_uniq_prefix.
    + exfalso. pose proof (no_gpar Hokc). assert (gp' = gp) as -> by congruence.
      assert (c = n) as -> by (eapply edge_uniq_prefix; [done..|]; by etrans).
      assert (gc = g) as -> by congruence. apply prefix_length in Hpc. lia.
  - exfalso. destruct (IH p gp ltac:(lia) Hp b gb)
      as [->|(c & gc & xc & gb' & ax & Hc & Hokc & Hpc)]; [done| | |].
    + eapply prefix_le; [done..|lia].
    + assert (gp = gb) as <- by congruence. lia.
    + pose proof (no_gpar Hokc). assert (gb' = gb) as -> by congruence.
      assert (c = a) as ->.
      { eapply edge_uniq_prefix; [done..|]. etrans; [exact Hpc|]. eapply prefix_le; [done..|lia]. }
      assert (gc = ga) as -> by congruence. apply prefix_length in Hpc. lia.
Qed.

Lemma way_down n g : G !! n = Some g → way_down_to n g.
Proof using Ht.
  remember (length (g_path g)) as k eqn:Ek. revert n g Ek.
  induction (lt_wf k) as [k _ IH]. intros n g -> Hn a ga Ha Hpre.
  destruct (decide (n = tv_root v)) as [->|Hroot].
  { rewrite (to_groot Ht) in Hn. simplify_eq/=. apply prefix_nil_inv in Hpre.
    left. by eapply tree_root_path. }
  destruct (to_node Ht n g) as (x & p & gp & px & Hok); [done..|].
  pose proof (node_ok_lt _ _ _ _ _ _ _ _ Hok) as Hlt.
  pose proof (node_ok_prefix _ _ _ _ _ _ Hok) as Hpp. pose proof (no_gpar Hok) as Hp.
  destruct (decide (length (g_path ga) ≤ length (g_path gp))) as [Hle|Hgt].
  - right. destruct (IH _ Hlt p gp eq_refl Hp a ga) as [->|(c & gc & xc & ga' & ax & Hc & Hokc & Hpc)];
      [done|by eapply prefix_le| |].
    + exists n, g, x, gp, px. split_and!; [done..|]. reflexivity.
    + exists c, gc, xc, ga', ax. split_and!; [done..|]. by etrans.
  - left. eapply edge_inside; [done..| |done|lia]. intros n' g' ?. by apply (IH (length (g_path g'))).
Qed.

(** Live nodes are determined by their paths. *)
Lemma path_inj n g n' g' :
  G !! n = Some g → G !! n' = Some g' → g_path g = g_path g' → n = n'.
Proof using Ht.
  intros Hn Hn' Heq. destruct (way_down n' g' Hn' n g)
    as [|(c & gc & xc & ga & ax & Hc & Hok & Hpc)]; [done|by rewrite Heq|done|].
  pose proof (node_ok_lt _ _ _ _ _ _ _ _ Hok). pose proof (no_gpar Hok).
  assert (ga = g) as -> by congruence. apply prefix_length in Hpc. rewrite Heq in *. lia.
Qed.

(** The node on the way to [n] whose edge holds the [k]-th unit. *)
Record covers (k m : nat) (gm g : gnode) (xm : core) (p : nat) (gp : gnode) (px : core) : Prop := {
  cov_live : G !! m = Some gm;
  cov_ok : node_ok v G m gm xm p gp px;
  cov_above : length (g_path gp) < k;
  cov_below : k ≤ length (g_path gm);
  cov_path : g_path gm `prefix_of` g_path g;
  cov_vals : g_vals gm `prefix_of` g_vals g;
}.

Lemma cover n g k :
  G !! n = Some g → 0 < k ≤ length (g_path g) →
  ∃ m gm xm p gp px, covers k m gm g xm p gp px.
Proof using Ht.
  revert n g. apply (tree_ind v G (λ n g, 0 < k ≤ length (g_path g) →
    ∃ m gm xm p gp px, covers k m gm g xm p gp px) Ht); [simpl; lia|].
  intros n g x p gp px Hn Hroot Hok IH Hk.
  destruct (decide (k ≤ length (g_path gp))) as [Hle|Hlt].
  - destruct IH as (m & gm & xm & r & gr & rx & []); [lia|].
    exists m, gm, xm, r, gr, rx. constructor; try done.
    + etrans; [done|]. by eapply node_ok_prefix.
    + etrans; [done|]. destruct (no_vals Hok) as (vv & _ & _ & ->). by eexists.
  - exists n, g, x, p, gp, px. constructor; (done || lia).
Qed.

Lemma cover_uniq_le k m1 g1 t1 x1 p1 gp1 px1 m2 g2 t2 x2 p2 gp2 px2 :
  covers k m1 g1 t1 x1 p1 gp1 px1 → covers k m2 g2 t2 x2 p2 gp2 px2 →
  k `mod` tv_ps v = 0 → take k (g_path g1) = take k (g_path g2) →
  length (g_path gp1) ≤ length (g_path gp2) → m1 = m2.
Proof using Ht.
  intros [Hl1 Hok1 Ha1 Hb1 _ _] [Hl2 Hok2 Ha2 Hb2 _ _] Hk Heq Hle.
  pose proof (no_gpar Hok1) as Hp1. pose proof (no_gpar Hok2) as Hp2.
  assert (length (g_path gp1) + tv_ps v ≤ k) as Hpage.
  { apply aligned_lt; [|done..]. by apply (tree_path_shape v G p1). }
  assert (∀ j, j ≤ k → take j (g_path g1) = take j (g_path g2)) as Htake.
  { intros j Hj. rewrite <-(Nat.min_l j k) by done. by rewrite <-!take_take, Heq. }
  assert (g_path gp1 `prefix_of` g_path gp2) as Hpre.
  { rewrite (prefix_take_id (g_path gp1) (g_path g1)) by (by eapply node_ok_prefix).
    rewrite Htake by lia.
    rewrite (prefix_take_id (g_path gp2) (g_path g2)) by (by eapply node_ok_prefix).
    rewrite <-(Nat.min_l (length (g_path gp1)) (length (g_path gp2))) by done.
    rewrite <-take_take. apply prefix_take. }
  destruct (way_down p2 gp2 Hp2 p1 gp1) as [->|(c & gc & xc & ga & ax & Hc & Hokc & Hpc)]; [done..| |].
  - assert (gp2 = gp1) as -> by congruence. eapply edge_uniq; [done..|]. by apply Htake.
  - exfalso. pose proof (no_gpar Hokc). assert (ga = gp1) as -> by congruence.
    assert (c = m1) as ->.
    { eapply edge_uniq; [done..|]. rewrite Htake by done.
      apply prefix_take_eq; [etrans; [done|]; by eapply node_ok_prefix|].
      by eapply node_ok_page. }
    assert (gc = g1) as -> by congruence. apply prefix_length in Hpc. lia.
Qed.

(** Nodes that agree on a page-aligned prefix agree on its slots. *)
Lemma vals_agree n g a ga k :
  G !! n = Some g → G !! a = Some ga → k `mod` tv_ps v = 0 →
  k ≤ length (g_path g) → k ≤ length (g_path ga) →
  take k (g_path g) = take k (g_path ga) → take k (g_vals g) = take k (g_vals ga).
Proof using Ht.
  intros Hn Ha Hk Hkn Hka Heq. destruct (decide (k = 0)) as [->|Hk0]; [by rewrite !take_0|].
  destruct (cover n g k Hn) as (m1 & g1 & x1 & p1 & gp1 & px1 & Hc1); [lia|].
  destruct (cover a ga k Ha) as (m2 & g2 & x2 & p2 & gp2 & px2 & Hc2); [lia|].
  pose proof Hc1 as [Hl1 _ _ Hb1 Hp1 Hv1]. pose proof Hc2 as [Hl2 _ _ Hb2 Hp2 Hv2].
  assert (take k (g_path g1) = take k (g_path g2)) as Heq'.
  { by rewrite !(prefix_take_eq _ _ k Hp1), !(prefix_take_eq _ _ k Hp2). }
  assert (m1 = m2) as <-.
  { destruct (decide (length (g_path gp1) ≤ length (g_path gp2))).
    - by eapply cover_uniq_le.
    - symmetry. eapply cover_uniq_le; [done..|lia]. }
  assert (g1 = g2) as <- by congruence. destruct (tree_path_shape v G m1 g1 Ht Hl1) as [_ Hlen].
  by rewrite <-(prefix_take_eq _ _ k Hv1), <-(prefix_take_eq _ _ k Hv2) by lia.
Qed.

(** What is cached for a prefix is unique. *)
Lemma cached_functional us vs1 vs2 :
  cached (tv_ps v) G us vs1 → cached (tv_ps v) G us vs2 → vs1 = vs2.
Proof using Ht.
  intros (n & g & k & Hn & Hk & Hal & -> & ->) (n' & g' & k' & Hn' & Hk' & Hal' & Heq & ->).
  assert (k = k') as <-.
  { apply (f_equal length) in Heq. rewrite !length_take in Heq. lia. }
  eapply vals_agree; (done || lia).
Qed.

Lemma cached_length us vs : cached (tv_ps v) G us vs → length us = length vs.
Proof using Ht.
  intros (n & g & k & Hn & Hk & _ & -> & ->).
  destruct (tree_path_shape v G n g Ht Hn). rewrite !length_take. lia.
Qed.

(** *** The descent finds the longest cached prefix *)

(** A live node whose path is a prefix of [us] and below which no child
    continues along [us] for a whole page. *)
Lemma descent_stops n g us j :
  G !! n = Some g → g_path g = take j us → j ≤ length us →
  (∀ c gc xc px, G !! c = Some gc → node_ok v G c gc xc n g px →
    take (length (g_path g) + tv_ps v) (g_path gc)
      ≠ take (length (g_path g) + tv_ps v) us) →
  longest_match (tv_ps v) G us (g_vals g).
Proof using Ht.
  intros Hn Hpath Hj Hno.
  destruct (tree_path_shape v G n g Ht Hn) as [Hal Hlen].
  assert (length (g_path g) = j) as Hgj by (rewrite Hpath, length_take; lia).
  constructor; [lia| |].
  - destruct (decide (j = 0)) as [->|]; [left; apply nil_length_inv; lia|]. right.
    exists n, g, j. rewrite Hlen, Hgj, Hpath, take_take, Nat.min_l by lia.
    split_and!; [done|lia|lia|congruence|done|].
    by rewrite take_ge by lia.
  - intros i vs' Hi (a & ga & k & Ha & Hk & Hkal & Heq & ->).
    assert (k = i) as -> by (apply (f_equal length) in Heq; rewrite !length_take in Heq; lia).
    assert (g_path g `prefix_of` g_path ga) as Hpre.
    { rewrite Hpath. rewrite <-(Nat.min_l j i) by lia. rewrite <-take_take, Heq, take_take.
      apply prefix_take. }
    destruct (way_down a ga Ha n g) as [->|(c & gc & xc & g' & ax & Hc & Hok & Hpc)]; [done..| |].
    { assert (g = ga) as <- by congruence. lia. }
    assert (g' = g) as -> by (pose proof (no_gpar Hok); congruence).
    apply (Hno c gc xc ax Hc Hok).
    assert (length (g_path g) + tv_ps v ≤ i) as Hpg by (apply aligned_lt; (done || lia)).
    rewrite (prefix_take_eq _ _ _ Hpc) by (by eapply node_ok_page).
    rewrite <-(Nat.min_l (length (g_path g) + tv_ps v) i) by done.
    by rewrite <-!take_take, Heq.
Qed.

(** The descent ends inside the edge to the child [c]: the key follows it for
    exactly [k] units. *)
Lemma descent_splits n g c gc xc px us k vv :
  G !! n = Some g → G !! c = Some gc → node_ok v G c gc xc n g px →
  c_value xc = Some vv → g_path g `prefix_of` us →
  0 < k → k < key_len (c_key xc) → k `mod` tv_ps v = 0 →
  length (g_path g) + k ≤ length us →
  take (length (g_path g) + k) (g_path gc) = take (length (g_path g) + k) us →
  (length (g_path g) + k + tv_ps v ≤ length us →
   take (length (g_path g) + k + tv_ps v) (g_path gc)
     ≠ take (length (g_path g) + k + tv_ps v) us) →
  longest_match (tv_ps v) G us (g_vals g ++ take k vv).
Proof using Ht.
  intros Hn Hc Hok Hvv Hpre Hk0 Hk Hal Hus Hsame Hdiff.
  destruct (tree_path_shape v G n g Ht Hn) as [Hgal Hglen].
  destruct (no_vals Hok) as (vv' & Hvv' & Hvlen & Hgv).
  assert (vv' = vv) as -> by congruence.
  assert (length (g_vals g ++ take k vv) = length (g_path g) + k) as Hlen.
  { rewrite length_app, length_take. lia. }
  pose proof (node_ok_len _ _ _ _ _ _ _ _ Hok) as Hgc.
  constructor; rewrite ?Hlen; [done| |].
  - right. exists c, gc, (length (g_path g) + k). rewrite Hsame, Hgv, <-Hglen, take_app_add.
    split_and!; [done|lia|lia|rewrite Hglen; by auto with py|done|done].
  - intros i vs' Hi (a & ga & j & Ha & Hj & Hjal & Heq & ->).
    assert (j = i) as -> by (apply (f_equal length) in Heq; rewrite !length_take in Heq; lia).
    assert (∀ j, j ≤ i → take j us = take j (g_path ga)) as Htake.
    { intros j Hji. rewrite <-(Nat.min_l j i) by done. by rewrite <-!take_take, Heq. }
    assert (length (g_path g) + k + tv_ps v ≤ i) as Hpg
      by (apply aligned_lt; [by auto with py|done|lia]).
    destruct (way_down a ga Ha n g) as [->|(c' & gc' & xc' & g' & ax & Hc' & Hok' & Hpc)]; [done| | |].
    { rewrite (prefix_take_id _ _ Hpre), Htake by lia. apply prefix_take. }
    { assert (g = ga) as <- by congruence. lia. }
    assert (g' = g) as -> by (pose proof (no_gpar Hok'); congruence).
    assert (tv_ps v ≤ k) as Hpk by (apply (aligned_lt 0); [apply aligned_0|done..]).
    assert (c' = c) as ->.
    { eapply edge_uniq; [done..|].
      rewrite (prefix_take_eq _ _ _ Hpc) by (by eapply node_ok_page). rewrite <-Htake by lia.
      rewrite <-(Nat.min_l (length (g_path g) + tv_ps v) (length (g_path g) + k)) by lia.
      by rewrite <-!take_take, Hsame. }
    assert (gc' = gc) as -> by congruence. apply Hdiff; [lia|].
    pose proof (no_aligned Hok).
    assert (k + tv_ps v ≤ key_len (c_key xc)) by (by apply aligned_lt).
    rewrite (prefix_take_eq _ _ _ Hpc) by lia. by rewrite Htake.
Qed.
End radix.

(** ** Refinement of abstract trees by splits *)

(** [G'] has the nodes of [G], and further nodes that cut existing paths. *)
Record refines (G G' : gmap nat gnode) : Prop := {
  rf_sub : G ⊆ G';
  rf_cut : ∀ m gm, G' !! m = Some gm → ∃ n g, G !! n = Some g
    ∧ g_path gm `prefix_of` g_path g ∧ g_vals gm `prefix_of` g_vals g;
}.

#[global] Instance refines_preorder : PreOrder refines.
Proof.
  split.
  - intros G. split; [done|]. intros m gm Hm. exists m, gm. done.
  - intros G1 G2 G3 [Hs1 Hc1] [Hs2 Hc2]. split; [by etrans|].
    intros m gm Hm. destruct (Hc2 m gm Hm) as (n & g & Hn & Hp & Hv).
    destruct (Hc1 n g Hn) as (n' & g' & ? & ? & ?). exists n', g'. split_and!; [done|by etrans..].
Qed.

(** Splits do not change what is cached. *)
Lemma refines_cached v v' G G' us vs :
  tree_ok v G → tree_ok v' G' → tv_ps v = tv_ps v' → refines G G' →
  cached (tv_ps v) G us vs ↔ cached (tv_ps v) G' us vs.
Proof.
  intros Ht Ht' Hps [Hsub Hcut]. split; intros (n & g & k & Hn & Hk & Hal & -> & ->).
  - exists n, g, k. split_and!; [by eapply lookup_weaken|lia|lia|done..].
  - destruct (Hcut n g Hn) as (n' & g' & Hn' & Hp & Hv). exists n', g', k.
    destruct (tree_path_shape v' G' n g Ht' Hn) as [_ Hlen].
    pose proof (prefix_length _ _ Hp).
    rewrite (prefix_take_eq _ _ k Hp), (prefix_take_eq _ _ k Hv) by lia.
    split_and!; [done|lia|lia|done..].
Qed.

Lemma refines_longest v v' G G' us vs :
  tree_ok v G → tree_ok v' G' → tv_ps v = tv_ps v' → refines G G' →
  longest_match (tv_ps v) G us vs ↔ longest_match (tv_ps v) G' us vs.
Proof.
  intros Ht Ht' Hps Hr.
  pose proof (λ us vs, refines_cached v v' G G' us vs Ht Ht' Hps Hr) as Hc.
  split; intros [Hle Hca Hmax]; (constructor; [done| |]).
  - destruct Hca as [|Hca]; [by left|right; by apply Hc].
  - intros j vs' Hj ?%Hc. by eapply Hmax.
  - destruct Hca as [|Hca]; [by left|right; by apply Hc].
  - intros j vs' Hj ?%Hc. by eapply Hmax.
Qed.

(** A split refines. *)
Lemma split_refines v G n g x p gp px k vv m :
  node_ok v G n g x p gp px → G !! n = Some g → G !! m = None →
  c_value x = Some vv → refines G (<[m := split_gnode gp x k vv]> G).
Proof.
  intros Hok Hn Hm Hvv. destruct (no_vals Hok) as (vv' & Hvv' & _ & Hgv).
  assert (vv' = vv) as -> by congruence. split.
  - by apply insert_subseteq.
  - intros q gq. rewrite lookup_insert. case_decide as E; intros Hq; simplify_eq.
    + exists n, g. simpl. rewrite (no_path Hok), Hgv.
      split_and!; [done|apply prefix_app, prefix_take..].
    + exists q, gq. done.
Qed.
