(* ===== verification/RadixOps.v ===== *)
(** Symbolic execution of the node primitives of the cache, and the
    specification of [split_node]. *)
From S2P Require Import Prelude RadixKey TreeNode EvictPolicy RadixCache RadixInv RadixSplit.
From stdpp Require Import options.

(** What a descent of the tree leaves alone. *)
Record frame {A} (c c' : RadixCache A) : Prop := {
  fr_cfg : cfg c' = cfg c;
  fr_root : root_node c' = root_node c;
  fr_alloc : allocator c' = allocator c;
  fr_queue : kv_event_queue c' = kv_event_queue c;
  fr_ev : evictable_size_ c' = evictable_size_ c;
  fr_pr : protected_size_ c' = protected_size_ c;
  fr_leaves : evictable_leaves c' = evictable_leaves c;
}.

#[global] Instance frame_preorder A : PreOrder (@frame A).
Proof. split; [done|]. intros c1 c2 c3 [] []. split; congruence. Qed.

#[export] Hint Extern 0 (frame _ _) => by split : py.

Section ops.
Context `{Env} {A : Type} `{KVAllocator A}.
Implicit Types (c : RadixCache A) (G : gmap nat gnode) (L : nat → Z) (x : TreeNode).

Lemma wp_get_node c n x (Q : TreeNode → RadixCache A → Prop) :
  nodes c !! n = Some x → Q x c → wp (get_node n) Q c.
Proof. intros Hx HQ. unfold wp, get_node. by rewrite Hx. Qed.

Lemma wp_upd_node c n x f (Q : unit → RadixCache A → Prop) :
  nodes c !! n = Some x → Q tt (set_nodes <[n := f x]> c) → wp (upd_node n f) Q c.
Proof. intros Hx HQ. unfold upd_node. wp_step. by eapply wp_get_node. Qed.

(** Writing a node that differs only in fields the view forgets. *)
Lemma view_touch c n x x' :
  nodes c !! n = Some x → node_core x' = node_core x →
  view (set_nodes <[n := x']> c) = view c.
Proof.
  intros Hx Hcore. unfold view. simpl. f_equal. rewrite fmap_insert, Hcore.
  apply insert_id. by rewrite lookup_fmap, Hx.
Qed.

Lemma wp_touch c n x f (Q : unit → RadixCache A → Prop) :
  nodes c !! n = Some x → node_core (f x) = node_core x →
  (∀ c', view c' = view c → frame c c' → nodes c' !! n = Some (f x) → Q tt c') →
  wp (upd_node n f) Q c.
Proof.
  intros Hx Hcore HQ. eapply wp_upd_node; [done|]. apply HQ.
  - by eapply view_touch.
  - auto with py.
  - simpl. apply lookup_insert_eq.
Qed.

Lemma view_lookup c n x :
  nodes c !! n = Some x → tv_h (view c) !! n = Some (node_core x).
Proof. intros Hx. simpl. by rewrite lookup_fmap, Hx. Qed.
Lemma view_lookup_inv c n y :
  tv_h (view c) !! n = Some y → ∃ x, nodes c !! n = Some x ∧ y = node_core x.
Proof. simpl. rewrite lookup_fmap. intros (x & ? & ?)%fmap_Some. eauto. Qed.

(** Reading the clock. *)
Lemma wp_time c (Q : Z → RadixCache A → Prop) :
  (∀ t c', view c' = view c → frame c c' → nodes c' = nodes c → Q t c') →
  wp time_monotonic Q c.
Proof. intros HQ. unfold wp, time_monotonic. apply HQ; auto with py. Qed.

(** A new node object: fresh, unlocked and not yet in the store. *)
Lemma wp_make_TreeNode c prio (Q : TreeNode → RadixCache A → Prop) :
  (∀ t1 t2 c', nodes c' = nodes c → frame c c' → counter c' = S (counter c) →
    Q (new_TreeNode t1 t2 prio (counter c)) c') →
  wp (make_TreeNode prio) Q c.
Proof. intros HQ. unfold wp, make_TreeNode. simpl. apply HQ; auto with py. Qed.

(** *** [split_node] *)
Lemma wp_split_node c G L n g x p gp px k (Q : nat → RadixCache A → Prop) :
  Inv (view c) G L → nodes c !! n = Some x → G !! n = Some g → n ≠ root_node c →
  node_ok (view c) G n g (node_core x) p gp px →
  0 < k → k < key_len (nkey x) → k `mod` page_size (cfg c) = 0 →
  (∀ c' vv y, value x = Some vv → nodes c' !! counter c = Some y →
    value y = Some (take k vv) → G !! counter c = None → frame c c' →
    Inv (view c') (<[counter c := split_gnode gp (node_core x) k vv]> G) L →
    (∀ i, slot_count (view c') (<[counter c := split_gnode gp (node_core x) k vv]> G) i
          = slot_count (view c) G i) →
    Q (counter c) c') →
  wp (split_node (nkey x) n k) Q c.
Proof.
  intros HInv Hx Hg Hn Hok Hk0 Hk Hal HQ.
  destruct (key_prefix_titer (nkey x) k) as (pre & Hpre & Hpit & Hpmode & _).
  destruct (key_suffix_titer (nkey x) k) as (post & Hpost & Hsit & Hsmode & _).
  destruct (no_vals Hok) as (vv & Hvv & Hlen & Hgv). simpl in Hvv, Hlen.
  destruct (no_link Hok) as (ck & Hck & Hlink). simpl in Hck.
  pose proof (no_par Hok) as Hpar. simpl in Hpar.
  pose proof (inv_tree _ _ _ HInv) as Ht. pose proof (to_ps Ht) as Hps.
  pose proof (no_aligned Hok) as Hnal. simpl in Hps, Hnal.
  assert (key_len post = key_len (nkey x) - k) as Hlpost.
  { by rewrite <-titer_length, Hsit, length_drop, titer_length. }
  assert (page_size (cfg c) ≤ key_len post) as Hpage.
  { apply (aligned_lt 0); [apply aligned_0|rewrite Hlpost; by auto with py|lia]. }
  destruct (child_key_ok post (page_size (cfg c)) Hps Hpage) as (rest_ck & Hrest).
  destruct (view_lookup_inv _ _ _ (no_parheap Hok)) as (pn & Hpn & ->).
  pose proof (tree_fresh _ _ Ht) as Hfr. pose proof (tree_heap_fresh _ _ Ht) as Hhfr.
  simpl in Hfr, Hhfr.
  assert (counter c ≠ p) as Hcp by (intros E; rewrite E, (no_gpar Hok) in Hfr; done).
  pose proof (node_ok_ne _ _ _ _ _ _ _ _ Hok Hg) as Hnp.
  assert (split_pre (view c) G n g (node_core x) p gp (node_core pn) ck rest_ck pre post k vv)
    as Hsp by (constructor; done).
  unfold split_node. wp_steps. eapply wp_get_node; [done|].
  wp_steps. apply wp_make_TreeNode. intros t1 t2 c1 Hn1 Hf1 Hc1.
  wp_steps. rewrite Hpar, Hvv. wp_steps.
  destruct (split_node_hash_value _ _ _) as [nh ch]. wp_steps.
  unfold put_node. wp_steps.
  eapply wp_upd_node; [simpl; rewrite Hn1, !lookup_insert_ne by done; exact Hpn|].
  wp_steps.
  pose proof (split_slots _ _ _ _ _ _ _ _ _ _ _ _ _ _ Hsp) as Hslots.
  apply (split_Inv _ _ _ _ _ _ _ _ _ _ _ _ _ _ Hsp) in HInv.
  match goal with |- Q _ ?c' =>
    assert (view c' = split_view (view c) n (node_core x) p (node_core pn) ck rest_ck pre post k vv)
      as Hview end.
  { destruct Hf1 as [Hcfg Hroot _ _ He1 Hp1 Hl1]. unfold view, split_view. simpl.
    by rewrite Hcfg, Hroot, Hc1, He1, Hp1, Hl1, Hn1, !fmap_insert. }
  eapply (HQ _ vv); [done| | | | |by rewrite Hview|by rewrite Hview].
  - simpl. rewrite lookup_insert_ne by done. rewrite lookup_insert_ne by congruence.
    apply lookup_insert_eq.
  - done.
  - done.
  - etrans; [exact Hf1|]. by split.
Qed.

(** *** [update_leaf_status] *)

(** The update to [evictable_leaves]: a node with children or a lock is
    taken out, any other is put in. *)
Definition leaf_update (n : nat) (x : TreeNode) : gset nat → gset nat :=
  if decide (children x = ∅ ∧ (lock_ref x <= 0)%Z) then λ S, {[n]} ∪ S else λ S, S ∖ {[n]}.

Lemma has_live_child_spec c x :
  (∀ ck m, children x !! ck = Some m → ∃ y, nodes c !! m = Some y ∧ is_Some (value y)) →
  has_live_child c x = bool_decide (children x ≠ ∅).
Proof.
  intros Hkids. unfold has_live_child. apply eq_true_iff_eq.
  rewrite existsb_exists, bool_decide_eq_true. split.
  - intros (m & Hm & _) Hempty. rewrite Hempty, map_to_list_empty in Hm. done.
  - intros (ck & m & Hck)%map_choose. destruct (Hkids ck m Hck) as (y & Hy & Hv).
    exists m. rewrite Hy. split.
    + apply in_map_iff. exists (ck, m). split; [done|].
      apply list_elem_of_In. by apply elem_of_map_to_list.
    + unfold evicted. by destruct Hv as [? ->].
Qed.

Lemma wp_update_leaf_status c n x (Q : unit → RadixCache A → Prop) :
  nodes c !! n = Some x → is_Some (value x) →
  (∀ ck m, children x !! ck = Some m → ∃ y, nodes c !! m = Some y ∧ is_Some (value y)) →
  Q tt (set_leaves (leaf_update n x) c) → wp (update_leaf_status n) Q c.
Proof.
  intros Hx [v Hv] Hkids HQ. unfold update_leaf_status. wp_step.
  eapply wp_get_node; [done|]. unfold leaf_update in HQ. unfold evicted. rewrite Hv. simpl.
  case_bool_decide as Hlock.
  - wp_step. rewrite decide_False in HQ by lia. done.
  - wp_steps. rewrite has_live_child_spec by done. case_bool_decide as Hc; cbv iota; wp_step.
    + by rewrite decide_False in HQ by tauto.
    + rewrite decide_True in HQ; [done|]. destruct (decide (children x = ∅)); [|tauto]. auto with lia.
Qed.

(** The case that arises: a live node of a well-formed tree. *)
Lemma wp_update_live c G n g x (Q : unit → RadixCache A → Prop) :
  tree_ok (view c) G → G !! n = Some g → nodes c !! n = Some x →
  Q tt (set_leaves (leaf_update n x) c) → wp (update_leaf_status n) Q c.
Proof.
  intros Ht Hg Hx HQ. pose proof (view_lookup _ _ _ Hx) as Hvx.
  eapply wp_update_leaf_status; [done| | |done].
  - exact (tree_values _ _ _ _ _ Ht Hg Hvx).
  - intros ck m Hm.
    destruct (tree_kid_values _ _ _ _ _ ck m Ht Hg Hvx Hm) as (y' & Hy & Hv).
    destruct (view_lookup_inv _ _ _ Hy) as (y & Hy' & ->). by exists y.
Qed.

(** With events off nothing is recorded. *)
Lemma wp_store_event_off c n (Q : unit → RadixCache A → Prop) :
  enable_kv_cache_events (cfg c) = false → Q tt c → wp (record_store_event n) Q c.
Proof. intros Hoff HQ. unfold record_store_event. wp_step. wp_step. rewrite Hoff. by wp_step. Qed.
Lemma wp_remove_event_off c n (Q : unit → RadixCache A → Prop) :
  enable_kv_cache_events (cfg c) = false → Q tt c → wp (record_remove_event n) Q c.
Proof. intros Hoff HQ. unfold record_remove_event. wp_step. wp_step. rewrite Hoff. by wp_step. Qed.
End ops.

(** What every operation of the tree but [evict] leaves alone. *)
Record env_frame {A} (c c' : RadixCache A) : Prop := {
  ef_cfg : cfg c' = cfg c;
  ef_root : root_node c' = root_node c;
  ef_alloc : allocator c' = allocator c;
  ef_queue : kv_event_queue c' = kv_event_queue c;
}.

#[global] Instance env_frame_preorder A : PreOrder (@env_frame A).
Proof. split; [done|]. intros c1 c2 c3 [] []. split; congruence. Qed.

Lemma frame_env {A} (c c' : RadixCache A) : frame c c' → env_frame c c'.
Proof. by intros []. Qed.
