(* ===== verification/RadixMatch.v ===== *)
(** [match_prefix] returns the slots of the longest cached prefix.

    The section [descent] describes one step of the walk down the tree, which
    [_match_prefix_helper] and [_insert_helper] share. *)
From S2P Require Import Prelude RadixKey TreeNode EvictPolicy RadixCache RadixInv RadixSplit RadixLeaf.
From S2P Require Import RadixSpec RadixOps.
From stdpp Require Import options.

(** A key the tree can be asked about: a whole number of pages, in the mode of
    the tree. *)
Record tree_key {A} (c : RadixCache A) (key : RadixKey) : Prop := {
  tk_aligned : key_len key `mod` page_size (cfg c) = 0;
  tk_mode : is_bigram key = is_eagle (cfg c);
}.

Lemma tree_key_frame {A} (c c' : RadixCache A) key :
  frame c c' → tree_key c key → tree_key c' key.
Proof. intros [Hcfg _] []. by split; rewrite Hcfg. Qed.

Lemma tree_key_suffix {A} (c : RadixCache A) key k key' :
  tree_key c key → k `mod` page_size (cfg c) = 0 → key_suffix key k = Ok key' →
  tree_key c key' ∧ titer key' = drop k (titer key) ∧ key_len key' = key_len key - k.
Proof.
  intros [Hal Hm] Hk Hs. destruct (key_suffix_titer key k) as (key'' & Hs' & Hit & Hm' & _).
  assert (key'' = key') as -> by congruence.
  assert (key_len key' = key_len key - k) as Hlen
    by (by rewrite <-!titer_length, Hit, length_drop).
  split; [|done]. split; [rewrite Hlen; by auto with py|congruence].
Qed.

(** The edge to [child], entered for the [k > 0] leading units it shares with
    [key]: it is followed to its end, or left after [k] units. *)
Record edge_match ps (x : core) (key : RadixKey) (k : nat) : Prop := {
  em_pos : 0 < k;
  em_aligned : k `mod` ps = 0;
  em_edge : k ≤ key_len (c_key x);
  em_key : k ≤ key_len key;
  em_same : take k (titer (c_key x)) = take k (titer key);
  em_diff : k + ps ≤ key_len (c_key x) → k + ps ≤ key_len key →
    take (k + ps) (titer (c_key x)) ≠ take (k + ps) (titer key);
}.

Section descent.
Context (v : tview) (G : gmap nat gnode) (Ht : tree_ok v G).
Context (node : nat) (g : gnode) (nx : core) (key : RadixKey) (ck : ckey).
Context (Hg : G !! node = Some g) (Hnx : tv_h v !! node = Some nx).
Context (Hpos : 0 < key_len key) (Hal : key_len key `mod` tv_ps v = 0).
Context (Hmode : is_bigram key = tv_eagle v) (Hck : child_key key (tv_ps v) = Ok ck).

Local Lemma key_page : tv_ps v ≤ key_len key.
Proof using Hal Hpos. apply (aligned_lt 0); [apply aligned_0|done..]. Qed.

(** No entry under the child key: no child continues along the key. *)
Lemma descend_none :
  c_children nx !! ck = None →
  ∀ c gc xc px, G !! c = Some gc → node_ok v G c gc xc node g px →
    take (length (g_path g) + tv_ps v) (g_path gc)
      ≠ take (length (g_path g) + tv_ps v) (g_path g ++ titer key).
Proof using Ht Hnx Hpos Hal Hmode Hck.
  intros Hnone c gc xc px Hc Hok. rewrite (no_path Hok), !take_app_add.
  intros Heq%app_inv_head. destruct (no_link Hok) as (ck' & Hck' & Hlink).
  assert (px = nx) as -> by (pose proof (no_parheap Hok); congruence).
  assert (ck' = ck) as ->; [|congruence].
  apply (child_key_titer (c_key xc) key (tv_ps v)); try done.
  - apply (to_ps Ht).
  - apply (aligned_lt 0); [apply aligned_0|apply (no_aligned Hok)|apply (no_pos Hok)].
  - apply key_page.
  - by rewrite (no_mode Hok).
Qed.

(** The longest match ends at [node]. *)
Lemma descend_none_longest :
  c_children nx !! ck = None →
  longest_match (tv_ps v) G (g_path g ++ titer key) (g_vals g).
Proof using Ht Hg Hnx Hpos Hal Hmode Hck.
  intros Hnone. eapply (descent_stops v G Ht node g _ (length (g_path g))); [done| | |].
  - by rewrite take_app_length.
  - rewrite length_app. lia.
  - by apply descend_none.
Qed.

Lemma descend_some child :
  c_children nx !! ck = Some child →
  ∃ gc xc k, G !! child = Some gc ∧ child ≠ tv_root v ∧ node_ok v G child gc xc node g nx
    ∧ key_match (c_key xc) key (tv_ps v) = Ok k ∧ edge_match (tv_ps v) xc key k.
Proof using Ht Hg Hnx Hpos Hal Hmode Hck.
  intros Hchild. pose proof (to_ps Ht) as Hps. pose proof key_page as Hpage.
  destruct (to_child Ht node g nx ck child) as (gc & xc & Hgc & Hxc & Hpar & Hroot & Hck'); [done..|].
  destruct (to_node Ht child gc) as (x' & p' & gp' & px' & Hok); [done..|].
  assert (x' = xc) as -> by (pose proof (no_heap Hok); congruence).
  assert (p' = node) as -> by (pose proof (no_par Hok); congruence).
  assert (gp' = g) as -> by (pose proof (no_gpar Hok); congruence).
  assert (px' = nx) as -> by (pose proof (no_parheap Hok); congruence).
  assert (tv_ps v ≤ key_len (c_key xc)) as Hcpage
    by (apply (aligned_lt 0); [apply aligned_0|apply (no_aligned Hok)|apply (no_pos Hok)]).
  assert (is_bigram (c_key xc) = is_bigram key) as Hm by (by rewrite (no_mode Hok)).
  assert (extra_key (c_key xc) = extra_key key) as Hextra.
  { apply child_key_extra in Hck, Hck'. congruence. }
  assert (take (tv_ps v) (titer (c_key xc)) = take (tv_ps v) (titer key)) as Hfirst
    by (by apply (child_key_titer (c_key xc) key (tv_ps v) ck ck)).
  set (m := common_len (titer (c_key xc)) (titer key)).
  assert (tv_ps v ≤ floor_align m (tv_ps v)) as Hfl.
  { apply floor_align_greatest; [apply aligned_self|].
    apply common_len_greatest; rewrite ?titer_length; done. }
  assert (floor_align m (tv_ps v) ≤ m) as Hm' by auto with py.
  pose proof Hm' as (Hl1 & Hl2 & Hsame)%common_len_iff. rewrite titer_length in Hl1, Hl2.
  exists gc, xc, (floor_align m (tv_ps v)). split_and!; [done..| |].
  - apply key_match_titer; try done. apply (no_aligned Hok).
  - constructor; try done; try lia; auto with py.
    intros ? ? Heq.
    assert (floor_align m (tv_ps v) + tv_ps v ≤ floor_align m (tv_ps v)); [|lia].
    apply floor_align_greatest; [auto with py|].
    apply common_len_greatest; rewrite ?titer_length; done.
Qed.

Context (child : nat) (gc : gnode) (xc px : core) (k : nat).
Context (Hgc : G !! child = Some gc) (Hok : node_ok v G child gc xc node g px).
Context (Hem : edge_match (tv_ps v) xc key k).

(** The edge is followed to its end. *)
Lemma descend_full :
  key_len (c_key xc) ≤ k →
  k = key_len (c_key xc) ∧ g_path gc ++ drop k (titer key) = g_path g ++ titer key.
Proof using Hok Hem.
  clear Hpos Hal. pose proof Hem as []. intros Hk. assert (k = key_len (c_key xc)) as Hkk by lia.
  split; [done|]. rewrite (no_path Hok), <-app_assoc. f_equal.
  rewrite <-(take_drop k (titer key)) at 2. f_equal.
  rewrite <-em_same0, take_ge; [done|]. rewrite titer_length. lia.
Qed.

(** The edge is left in the middle. *)
Lemma descend_split vv :
  c_value xc = Some vv → k < key_len (c_key xc) →
  longest_match (tv_ps v) G (g_path g ++ titer key) (g_vals g ++ take k vv).
Proof using Ht Hg Hgc Hok Hem.
  clear Hpos Hal. pose proof Hem as []. intros Hvv Hk. pose proof (no_aligned Hok).
  assert (k + tv_ps v ≤ key_len (c_key xc)) as Hkps by (by apply aligned_lt).
  eapply (descent_splits v G Ht node g child gc xc px); try done.
  - by eexists.
  - rewrite length_app, titer_length. lia.
  - by rewrite (no_path Hok), !take_app_add, em_same0.
  - rewrite length_app, titer_length. intros Hlen.
    rewrite (no_path Hok), <-Nat.add_assoc, !take_app_add. intros Heq%app_inv_head.
    apply em_diff0; [done|lia|done].
Qed.
End descent.

(** *** [_match_prefix_helper] *)
Section match_prefix.
Context `{Env} {A : Type} `{KVAllocator A}.
Implicit Types (c : RadixCache A) (G : gmap nat gnode) (L : nat → Z).

(** What the walk along [us] establishes: it found [vs] and stopped at [last]. *)
Definition match_post c G L (us : list tunit) (vs : list Z) (last : nat) (c' : RadixCache A)
    : Prop :=
  ∃ G', Inv (view c') G' L ∧ refines G G' ∧ frame c c'
    ∧ G' !! last = Some (MkG (take (length vs) us) vs)
    ∧ longest_match (page_size (cfg c)) G us vs
    ∧ (∀ i, slot_count (view c') G' i = slot_count (view c) G i).

Lemma match_post_here c G L us node g :
  Inv (view c) G L → G !! node = Some g → g_path g `prefix_of` us →
  longest_match (page_size (cfg c)) G us (g_vals g) →
  match_post c G L us (g_vals g) node c.
Proof.
  intros HInv Hg Hpre Hlm. exists G. split_and!; [done|done|done| |done|done].
  rewrite Hg. f_equal.
  destruct (tree_path_shape _ _ _ _ (inv_tree _ _ _ HInv) Hg) as [_ ->].
  rewrite <-(prefix_take_id _ _ Hpre). by destruct g.
Qed.

Lemma match_post_mono c1 c2 G1 G2 L us vs last c' :
  Inv (view c1) G1 L → Inv (view c2) G2 L → frame c1 c2 → refines G1 G2 →
  (∀ i, slot_count (view c2) G2 i = slot_count (view c1) G1 i) →
  match_post c2 G2 L us vs last c' → match_post c1 G1 L us vs last c'.
Proof.
  intros HI1 HI2 Hf Hr Hs (G' & ? & ? & ? & ? & Hlm & Hs'). exists G'.
  split_and!; [done|by etrans|by etrans|done| |intros i; by rewrite Hs', Hs].
  rewrite (fr_cfg _ _ Hf) in Hlm.
  apply (refines_longest (view c1) (view c2) G1 G2); [apply HI1|apply HI2| |done|done].
  simpl. by rewrite (fr_cfg _ _ Hf).
Qed.

(** The child key of what is left of a key. *)
Lemma wp_next_key c G L key ck (Q : ckey → RadixCache A → Prop) :
  Inv (view c) G L → tree_key c key →
  (∀ ck', (0 < key_len key → child_key key (page_size (cfg c)) = Ok ck') → Q ck' c) →
  wp (if decide (0 < key_len key) then st_lift (child_key key (page_size (cfg c)))
      else mret ck) Q c.
Proof.
  intros HInv [Hal _] HQ. case_decide as Hpos; [|wp_step; by apply HQ].
  destruct (child_key_ok key (page_size (cfg c))) as [ck' Hck'].
  - exact (to_ps (inv_tree _ _ _ HInv)).
  - apply (aligned_lt 0); [apply aligned_0|done..].
  - wp_step. by apply HQ.
Qed.

(** Nothing is left of the key. *)
Lemma match_post_end c G L node g key :
  Inv (view c) G L → G !! node = Some g → key_len key = 0 →
  match_post c G L (g_path g ++ titer key) (g_vals g) node c.
Proof.
  intros HInv Hg Hk. pose proof (inv_tree _ _ _ HInv) as Ht.
  assert (titer key = []) as -> by (apply nil_length_inv; by rewrite titer_length).
  rewrite app_nil_r. apply match_post_here; [done..|].
  apply (descent_stops (view c) G Ht node g _ (length (g_path g))); [done|by rewrite take_ge|done|].
  intros c0 gc xc px Hc Hok Heq. apply (f_equal length) in Heq. rewrite !length_take in Heq.
  pose proof (node_ok_page _ _ Ht _ _ _ _ _ _ Hok). pose proof (to_ps Ht). lia.
Qed.

(** The walk ends inside an edge, which is split there. *)
Lemma wp_match_split c G L node g child gc x px key k vals :
  Inv (view c) G L → G !! node = Some g → nodes c !! child = Some x → G !! child = Some gc →
  child ≠ root_node c → node_ok (view c) G child gc (node_core x) node g px →
  edge_match (page_size (cfg c)) (node_core x) key k → k < key_len (nkey x) → concat vals = g_vals g →
  wp (new_node ← split_node (nkey x) child k;
      y ← get_node new_node;
      v ← st_lift (unwrap TypeError (value y));
      mret (vals ++ [v], new_node))
    (λ r c', match_post c G L (g_path g ++ titer key) (concat r.1) r.2 c') c.
Proof.
  intros HInv Hg Hx Hgc Hroot Hok Hem Hk Hvals. pose proof (inv_tree _ _ _ HInv) as Ht.
  destruct (no_vals Hok) as (vv & Hvv & Hvlen & _). simpl in Hvv, Hvlen.
  wp_step. eapply wp_split_node; [exact HInv|done|done|done|done|apply Hem|done|apply Hem|].
  intros c2 vv' y Hvv' Hy Hvy Hfresh Hf2 HInv2 Hs2. assert (vv' = vv) as -> by (simpl in Hvv'; congruence).
  wp_step. eapply wp_get_node; [done|]. rewrite Hvy. wp_steps. simpl.
  rewrite concat_app, Hvals. simpl. rewrite app_nil_r.
  eexists. split_and!; [exact HInv2|by eapply split_refines|done| | |done].
  - rewrite lookup_insert_eq. f_equal. unfold split_gnode. simpl. f_equal.
    destruct (tree_path_shape _ _ _ _ Ht Hg) as [_ Hglen].
    pose proof (em_same _ _ _ _ Hem) as Hsame. simpl in Hsame.
    rewrite Hsame, length_app, Hglen, take_app_add. f_equal. by rewrite length_take, Nat.min_l by lia.
  - by eapply (descend_split (view c)).
Qed.

Lemma wp_match_loop fuel c G L node g key ck vals t :
  Inv (view c) G L → G !! node = Some g → concat vals = g_vals g →
  tree_key c key → key_len key < fuel →
  (0 < key_len key → child_key key (page_size (cfg c)) = Ok ck) →
  wp (match_loop fuel node key ck vals t)
    (λ r c', match_post c G L (g_path g ++ titer key) (concat r.1) r.2 c') c.
Proof.
  revert c G node g key ck vals. induction fuel as [|fuel IH]; [lia|].
  intros c G node g key ck vals HInv Hg Hvals [Hal Hmode] Hfuel Hck. simpl.
  pose proof (inv_tree _ _ _ HInv) as Ht.
  case_decide as Hpos; [specialize (Hck Hpos)|].
  2: { wp_step. simpl. rewrite Hvals. apply match_post_end; [done..|lia]. }
  destruct (tree_live _ _ _ _ Ht Hg) as [nx' Hnx'].
  destruct (view_lookup_inv _ _ _ Hnx') as (nx & Hnx & ->). clear Hnx'.
  wp_step. eapply wp_get_node; [done|]. pose proof (view_lookup _ _ _ Hnx) as Hvnx.
  destruct (children nx !! ck) as [child|] eqn:Hchild.
  2: { wp_step. simpl. rewrite Hvals. apply match_post_here; [done..|by eexists|].
    by eapply (descend_none_longest (view c)). }
  destruct (descend_some (view c) G Ht node g (node_core nx) key ck Hg Hvnx Hpos Hal Hmode Hck child)
    as (gc & xc & k & Hgc & Hroot & Hok & Hmatch & Hem); [done|].
  destruct (view_lookup_inv _ _ _ (no_heap Hok)) as (x & Hx & ->).
  wp_step. eapply wp_touch; [done|done|]. intros c1 Hv1 Hf1 Hx1.
  wp_steps. eapply wp_get_node; [done|]. wp_steps. rewrite (fr_cfg _ _ Hf1). wp_step.
  rewrite <-(fr_cfg _ _ Hf1). rewrite <-Hv1 in HInv, Hok, Ht, Hem.
  assert (∀ us vs last c', match_post c1 G L us vs last c' → match_post c G L us vs last c') as Hmono.
  { intros us vs last c'. apply match_post_mono; [by rewrite <-Hv1|done..|by rewrite Hv1]. }
  case_decide as Hk; simpl in Hk.
  - eapply wp_mono; [by eapply (wp_match_split c1 G L node g child); try done; rewrite (fr_root _ _ Hf1)|].
    intros r c2. apply Hmono.
  - destruct (no_vals Hok) as (vv & Hvv & _ & Hgvals). simpl in Hvv |- *. rewrite Hvv.
    destruct (key_suffix_titer key k) as (key' & Hs & _).
    destruct (tree_key_suffix c key k key') as (Htk' & Hit & Hlen'); [done|rewrite <-(fr_cfg _ _ Hf1); apply Hem|done|].
    wp_steps. destruct (descend_full _ _ _ _ _ _ _ _ _ _ Hok Hem) as [Hkeq Happ]; [simpl; lia|].
    assert (tree_key c1 key') as Htk1 by (by eapply tree_key_frame).
    eapply wp_next_key; [done..|]. intros ck' Hck'. eapply wp_mono.
    + eapply (IH c1 G child gc); [done..| |done| |done].
      * rewrite concat_app, Hvals, Hgvals. simpl. by rewrite app_nil_r.
      * pose proof (em_pos _ _ _ _ Hem). lia.
    + intros [vals' last] c2. simpl. rewrite Hit, Happ. apply Hmono.
Qed.

(** The units of a caller's key the tree looks at: the whole pages of its
    bigram view in EAGLE mode, of the key itself otherwise. *)
Definition query_units c (key : RadixKey) : list tunit :=
  let k := (maybe_to_bigram_view key (is_eagle (cfg c)) None).1 in
  take (floor_align (key_len k) (page_size (cfg c))) (titer k).

(** A caller's key is not yet a bigram view unless the tree is one. *)
Definition query_ok c (key : RadixKey) : Prop := is_bigram key = true → is_eagle (cfg c) = true.

Lemma query_key c key :
  query_ok c key →
  let k := (maybe_to_bigram_view key (is_eagle (cfg c)) None).1 in
  ∃ key', page_aligned k (page_size (cfg c)) = Ok key' ∧ tree_key c key'
    ∧ titer key' = query_units c key.
Proof.
  intros Hq k. pose proof (maybe_to_bigram_view_spec key (is_eagle (cfg c)) None Hq) as Hv.
  destruct (page_aligned_titer k (page_size (cfg c))) as (key' & Hpa & Hit & Hm & _).
  exists key'. split_and!; [done| |done]. split.
  - rewrite <-titer_length, Hit, length_take, titer_length, Nat.min_l by auto with py.
    auto with py.
  - rewrite Hm. subst k. destruct (maybe_to_bigram_view _ _ _) as [k' v']. by destruct Hv.
Qed.

Lemma root_match c G L us :
  Inv (view c) G L → us = [] → match_post c G L us [] (root_node c) c.
Proof.
  intros HInv ->. pose proof (to_groot (inv_tree _ _ _ HInv)) as Hroot.
  apply (match_post_here c G L [] _ (MkG [] [])); [done|done|done|].
  constructor; simpl; [lia|by left|]. intros j vs. lia.
Qed.

Lemma wp_match_helper c G L key :
  Inv (view c) G L → tree_key c key → 0 < key_len key →
  wp (match_prefix_helper (root_node c) key)
    (λ r c', match_post c G L (titer key) (concat r.1) r.2 c') c.
Proof.
  intros HInv Htk Hpos. pose proof (inv_tree _ _ _ HInv) as Ht.
  pose proof (to_groot Ht) as Hgroot. destruct (to_root Ht) as (x' & Hx' & _).
  destruct (view_lookup_inv _ _ _ Hx') as (x & Hx & ->).
  unfold match_prefix_helper. wp_step. apply wp_time. intros t c1 Hv1 Hf1 Hn1.
  wp_step. eapply wp_touch; [rewrite Hn1; exact Hx|done|]. intros c2 Hv2 Hf2 _.
  assert (frame c c2) as Hf by (by etrans).
  assert (view c2 = view c) as Hv by congruence.
  destruct (child_key_ok key (page_size (cfg c))) as [ck Hck];
    [exact (to_ps Ht)|apply (aligned_lt 0); [apply aligned_0|apply Htk|done]|].
  wp_steps. rewrite (fr_cfg _ _ Hf). wp_steps.
  eapply wp_mono.
  - eapply (wp_match_loop _ c2 G L _ (MkG [] [])); [by rewrite Hv|done|done| |lia|].
    + by eapply tree_key_frame.
    + by rewrite (fr_cfg _ _ Hf).
  - intros r c3. simpl. apply match_post_mono; [done|by rewrite Hv|done..|by rewrite Hv].
Qed.

Lemma wp_match_prefix c G L key :
  Inv (view c) G L → disable (cfg c) = false → query_ok c key →
  wp (match_prefix key)
    (λ r c', match_post c G L (query_units c key) (device_indices r) (last_device_node r) c'
      ∧ last_host_node r = last_device_node r ∧ host_hit_length r = 0) c.
Proof.
  intros HInv Hdis Hq. destruct (query_key c key Hq) as (key' & Hpa & Htk & Hit).
  unfold match_prefix. wp_steps. rewrite Hdis.
  unfold query_units in *. destruct (maybe_to_bigram_view _ _ _) as [k v]. simpl in *.
  case_bool_decide as Hlen.
  { wp_step. split; [|done]. apply root_match; [done|].
    rewrite Hlen. unfold floor_align. by rewrite Nat.Div0.div_0_l, take_0. }
  wp_steps. case_decide as Hlen'.
  { wp_step. split; [|done]. apply root_match; [done|]. rewrite <-Hit.
    apply nil_length_inv. by rewrite titer_length. }
  wp_steps. eapply wp_mono; [apply wp_match_helper; [done|done|lia]|].
  intros [vals last] c' Hp. wp_steps. simpl in *. by rewrite <-Hit.
Qed.

(** A disabled cache, or an empty key, matches nothing and changes nothing. *)
Lemma match_prefix_disabled c key :
  disable (cfg c) = true →
  match_prefix key c = Ok (MkMatch [] (root_node c) (root_node c) 0, c).
Proof.
  intros Hdis. unfold match_prefix, mbind, ST_bind, st_bind, st_gets.
  destruct (maybe_to_bigram_view _ _ _). by rewrite Hdis.
Qed.
End match_prefix.
