(* ===== verification/RadixInsert.v ===== *)
(** [insert]: the missing suffix of a key is added below its longest cached
    prefix, and nothing else changes in what is cached. *)
From S2P Require Import Prelude RadixKey TreeNode EvictPolicy RadixCache RadixInv RadixSplit RadixLeaf.
From S2P Require Import RadixSpec RadixOps RadixMatch.
From stdpp Require Import options.

(** ** What is cached after a leaf is added *)

(** [us'] extends [us] (whose slots are [vs]) along [us2] (with slots [vs2]). *)
Definition extends (ps : nat) (us us2 : list tunit) (vs vs2 : list Z)
    (us' : list tunit) (vs' : list Z) : Prop :=
  ∃ j, 0 < j ≤ length us2 ∧ (length us + j) `mod` ps = 0
    ∧ us' = us ++ take j us2 ∧ vs' = vs ++ take j vs2.

Lemma cached_insert ps G m p gp us2 vs2 us vs :
  G !! m = None → G !! p = Some gp → length (g_vals gp) = length (g_path gp) →
  cached ps (<[m := MkG (g_path gp ++ us2) (g_vals gp ++ vs2)]> G) us vs ↔
  cached ps G us vs ∨ extends ps (g_path gp) us2 (g_vals gp) vs2 us vs.
Proof.
  intros Hm Hp Hlen. split.
  - intros (n & g & k & Hn & Hk & Hal & -> & ->). rewrite lookup_insert in Hn.
    case_decide as E; [|left; exists n, g, k; done].
    simplify_eq/=. rewrite length_app in Hk.
    destruct (decide (k ≤ length (g_path gp))) as [Hle|Hgt].
    + left. exists p, gp, k. rewrite !take_app_le by lia. split_and!; [done|lia|lia|done..].
    + right. exists (k - length (g_path gp)). rewrite <-Nat.le_add_sub by lia.
      split_and!; [lia..|done| |].
      * rewrite <-take_app_add. f_equal. lia.
      * rewrite <-take_app_add. f_equal. lia.
  - intros [(n & g & k & Hn & ?)|(j & Hj & Hal & -> & ->)].
    + exists n, g, k. rewrite lookup_insert_ne by congruence. done.
    + exists m, (MkG (g_path gp ++ us2) (g_vals gp ++ vs2)), (length (g_path gp) + j).
      rewrite lookup_insert_eq. simpl. rewrite length_app, take_app_add.
      rewrite <-Hlen, take_app_add. split_and!; [done|lia|lia|by rewrite Hlen|done|done].
Qed.

(** The whole of [us ++ us2] is now the longest match for itself. *)
Lemma longest_full ps G us vs :
  length vs = length us → us = [] ∨ cached ps G us vs → longest_match ps G us vs.
Proof.
  intros Hlen Hc. constructor; [lia| |intros; lia].
  destruct Hc as [->|Hc]; [left; by apply nil_length_inv|right].
  by rewrite take_ge by lia.
Qed.

Section insert.
Context `{Env} {A : Type} `{KVAllocator A}.
Implicit Types (c : RadixCache A) (G : gmap nat gnode) (L : nat → Z).

(** Where the walk of [_insert_helper] along [us] (with slots [VAL]) ends. *)
Definition insert_walk c G L (us : list tunit) (VAL : list Z)
    (r : nat * nat * RadixKey * ckey * list Z) (c' : RadixCache A) : Prop :=
  let '(total, node, key, ck, val) := r in
  ∃ G' g nx, Inv (view c') G' L ∧ refines G G' ∧ frame c c'
    ∧ (∀ i, slot_count (view c') G' i = slot_count (view c) G i)
    ∧ G' !! node = Some g ∧ nodes c' !! node = Some nx
    ∧ g_path g ++ titer key = us ∧ total = length (g_path g) ∧ val = drop total VAL
    ∧ tree_key c' key
    ∧ (0 < key_len key → child_key key (page_size (cfg c')) = Ok ck ∧ children nx !! ck = None).

Lemma insert_walk_mono c1 c2 G1 G2 L us VAL r c' :
  frame c1 c2 → refines G1 G2 →
  (∀ i, slot_count (view c2) G2 i = slot_count (view c1) G1 i) →
  insert_walk c2 G2 L us VAL r c' → insert_walk c1 G1 L us VAL r c'.
Proof.
  destruct r as [[[[total node] key] ck] val].
  intros Hf Hr Hs (G' & g & nx & ? & ? & ? & Hs' & ?). exists G', g, nx.
  split_and!; [done|by etrans|by etrans|intros i; by rewrite Hs', Hs|naive_solver..].
Qed.

(** Raising the priority and the hit count of a node. *)
Lemma wp_bump c n x prio chunked (Q : nat → RadixCache A → Prop) :
  nodes c !! n = Some x →
  (∀ c', view c' = view c → frame c c' → Q n c') →
  wp (_ ← upd_node n (set_priority (λ p, Z.max p prio));
      _ ← inc_hit_count n chunked; mret n) Q c.
Proof.
  intros Hx HQ. wp_step. eapply wp_touch; [done|done|]. intros c1 Hv1 Hf1 Hx1.
  wp_step. unfold inc_hit_count. destruct chunked; [wp_steps; auto|].
  eapply wp_touch; [done|done|]. intros c2 Hv2 Hf2 _. wp_step. apply HQ; [congruence|by etrans].
Qed.

(** The edge to [child] is cut or followed: either way the walk is now at a node
    whose path has [k] more units. *)
Lemma wp_insert_step c G L node g child gc x px key key' k prio chunked :
  Inv (view c) G L → nodes c !! child = Some x → G !! child = Some gc → child ≠ root_node c →
  node_ok (view c) G child gc (node_core x) node g px → edge_match (page_size (cfg c)) (node_core x) key k →
  titer key' = drop k (titer key) →
  wp (if decide (k < key_len (nkey x))
      then new_node ← split_node (nkey x) child k;
           _ ← upd_node new_node (set_priority (λ p, Z.max p prio)); _ ← inc_hit_count new_node chunked; mret new_node
      else _ ← upd_node child (set_priority (λ p, Z.max p prio)); _ ← inc_hit_count child chunked; mret child)
    (λ node' c', ∃ G' g', Inv (view c') G' L ∧ refines G G' ∧ frame c c'
      ∧ (∀ i, slot_count (view c') G' i = slot_count (view c) G i)
      ∧ G' !! node' = Some g' ∧ g_path g' ++ titer key' = g_path g ++ titer key
      ∧ length (g_path g') = length (g_path g) + k) c.
Proof.
  intros HInv Hx Hgc Hroot Hok Hem Hit. case_decide as Hk; simpl in Hk.
  - wp_step. eapply wp_split_node; [exact HInv|done|done|done|done|apply Hem|done|apply Hem|].
    intros c2 vv y Hvv Hy Hvy Hfresh Hf2 HInv2 Hs2. eapply wp_bump; [done|]. intros c3 Hv3 Hf3. eexists _, _.
    rewrite Hv3. split_and!; [exact HInv2|by eapply split_refines|by etrans|done|apply lookup_insert_eq| |]; simpl.
    + pose proof (em_same _ _ _ _ Hem) as Hsame. simpl in Hsame. by rewrite Hsame, Hit, <-app_assoc, take_drop.
    + rewrite length_app, length_take, titer_length. lia.
  - destruct (descend_full _ _ _ _ _ _ _ _ _ _ Hok Hem) as [Hkeq Happ]; [simpl; lia|].
    eapply wp_bump; [done|]. intros c2 Hv2 Hf2. exists G, gc. rewrite Hv2, Hit.
    split_and!; [done|done|done|done|done|done|]. rewrite (node_ok_len _ _ _ _ _ _ _ _ Hok). lia.
Qed.

Lemma wp_insert_loop fuel c G L node g key ck VAL val prio chunked t total :
  Inv (view c) G L → G !! node = Some g → tree_key c key → key_len key < fuel →
  (0 < key_len key → child_key key (page_size (cfg c)) = Ok ck) →
  total = length (g_path g) → val = drop total VAL →
  wp (insert_loop fuel node key ck val prio chunked t total)
    (insert_walk c G L (g_path g ++ titer key) VAL) c.
Proof.
  revert c G node g key ck val total. induction fuel as [|fuel IH]; [lia|].
  intros c G node g key ck val total HInv Hg Htk Hfuel Hck Htotal Hval. simpl.
  pose proof (inv_tree _ _ _ HInv) as Ht.
  destruct (tree_live _ _ _ _ Ht Hg) as [nx' Hnx'].
  destruct (view_lookup_inv _ _ _ Hnx') as (nx & Hnx & ->). clear Hnx'.
  case_decide as Hpos; [specialize (Hck Hpos)|].
  2: { wp_step. exists G, g, nx. by split_and!. }
  wp_step. eapply wp_get_node; [done|]. pose proof (view_lookup _ _ _ Hnx) as Hvnx.
  destruct (children nx !! ck) as [child|] eqn:Hchild.
  2: { wp_step. exists G, g, nx. by split_and!. }
  destruct (descend_some (view c) G Ht node g (node_core nx) key ck Hg Hvnx Hpos
      (tk_aligned _ _ Htk) (tk_mode _ _ Htk) Hck child)
    as (gc & xc & k & Hgc & Hroot & Hok & Hmatch & Hem); [done|].
  destruct (view_lookup_inv _ _ _ (no_heap Hok)) as (x & Hx & ->).
  destruct (key_suffix_titer key k) as (key' & Hs & _).
  destruct (tree_key_suffix c key k key') as (Htk' & Hit & Hlen'); [done|apply Hem|done|].
  wp_step. eapply wp_touch; [done|done|]. intros c1 Hv1 Hf1 Hx1.
  wp_steps. eapply wp_get_node; [done|]. wp_steps. rewrite (fr_cfg _ _ Hf1). wp_steps.
  rewrite <-Hv1 in HInv, Hok, Ht, Hem. eapply wp_mono.
  { eapply (wp_insert_step c1 G L node g child gc (set_last_access_time t x)); [exact HInv|exact Hx1|done|by rewrite (fr_root _ _ Hf1)|exact Hok|exact Hem|done]. }
  intros node' c2 (G' & g' & HInv2 & Hr2 & Hf2 & Hs2 & Hg2 & Hus2 & Hlen2).
  assert (frame c c2) as Hf by (by etrans). assert (tree_key c2 key') by (by eapply tree_key_frame).
  wp_step. rewrite <-(fr_cfg _ _ Hf). eapply wp_next_key; [done..|]. intros ck' Hck'.
  eapply wp_mono.
  - eapply (IH c2 G' node' g'); [done..| |done|lia|].
    + pose proof (em_pos _ _ _ _ Hem). lia.
    + by rewrite Hval, drop_drop.
  - intros r c3. rewrite Hus2. apply insert_walk_mono; [done|done|]. intros i. by rewrite Hs2, Hv1.
Qed.

(** *** Adding the leaf *)

(** A hit on one node leaves the others alone. *)
Lemma wp_inc_hit_other c n m x y chunked :
  nodes c !! n = Some x → nodes c !! m = Some y → n ≠ m →
  wp (inc_hit_count n chunked) (λ _ c', view c' = view c ∧ frame c c' ∧ nodes c' !! m = Some y) c.
Proof.
  intros Hn Hm Hne. unfold inc_hit_count. destruct chunked; [by wp_step|].
  eapply wp_upd_node; [done|]. split_and!; [by eapply view_touch|auto with py|]. simpl. by rewrite lookup_insert_ne.
Qed.

(** A new leaf enters the set of evictable leaves, its parent leaves it. *)
Lemma leaf_sets node nx ck m new key val S :
  node_core new = leaf_core node key val →
  leaf_update m new (leaf_update node (set_children <[ck := m]> nx) S) = {[m]} ∪ (S ∖ {[node]}).
Proof.
  intros Hcore. unfold leaf_update at 1. rewrite decide_True by (injection Hcore as <- _ _ _ <-; done).
  f_equal. unfold leaf_update. rewrite decide_False; [done|]. intros [Hempty _].
  by apply (insert_non_empty (children nx) ck m).
Qed.

Lemma wp_insert_leaf c G L node g nx key ck val prio chunked :
  Inv (view c) G L → enable_kv_cache_events (cfg c) = false →
  G !! node = Some g → nodes c !! node = Some nx →
  tree_key c key → 0 < key_len key → child_key key (page_size (cfg c)) = Ok ck →
  children nx !! ck = None → length val = key_len key →
  wp (insert_leaf node key ck val prio chunked) (λ _ c',
    ∃ m, G !! m = None ∧
      let G' := <[m := MkG (g_path g ++ titer key) (g_vals g ++ val)]> G in
      Inv (view c') G' L ∧ env_frame c c' ∧ protected_size_ c' = protected_size_ c
      ∧ evictable_size_ c' = (evictable_size_ c + Z.of_nat (key_len key))%Z
      ∧ ∀ i, slot_count (view c') G' i = (occ i val + slot_count (view c) G i)%Z) c.
Proof.
  intros HInv Hoff Hg Hnx [Hal Hmode] Hpos Hck Hnone Hlen.
  pose proof (inv_tree _ _ _ HInv) as Ht.
  assert (leaf_pre (view c) G node g (node_core nx) key ck val) as Hlp
    by (constructor; try done; by apply view_lookup).
  pose proof (leaf_facts _ _ _ _ _ _ _ _ Ht Hlp) as (Hne & Hrm & Hfresh & Hhfresh).
  pose proof (leaf_tree_ok _ _ _ _ _ _ _ _ Ht Hlp) as Ht'.
  apply (leaf_Inv _ _ _ _ _ _ _ _ Ht Hlp) in HInv.
  pose proof (leaf_slots _ _ _ _ _ _ _ _ Ht Hlp) as Hslots. simpl in Hne, Hfresh.
  unfold insert_leaf. wp_step. apply wp_make_TreeNode. intros t1 t2 c1 Hn1 Hf1 Hc1.
  unfold put_node. wp_steps. simpl nid.
  set (new := MkNode _ _ _ _ _ _ _ _ _ _ _ _ _).
  set (c2 := set_nodes _ c1).
  assert (nodes c2 !! counter c = Some new) as Hnew by apply lookup_insert_eq.
  assert (nodes c2 !! node = Some nx) as Hnx2 by (unfold c2; simpl; by rewrite lookup_insert_ne, Hn1).
  eapply wp_mono; [by eapply (wp_inc_hit_other c2 (counter c) node)|].
  intros ? c3 (Hv3 & Hf3 & Hnx3). wp_step. eapply wp_upd_node; [done|]. wp_steps.
  set (c4 := add_evictable _ _).
  assert (frame c c3) as Hf by (etrans; [exact Hf1|]; etrans; [|exact Hf3]; auto with py).
  assert (tv_h (view c4) = tv_h (leaf_view (view c) node (node_core nx) key ck val)) as Hh4.
  { unfold c4. simpl. rewrite fmap_insert. f_equal.
    change (node_core <$> nodes c3) with (tv_h (view c3)). rewrite Hv3. simpl.
    by rewrite fmap_insert, Hn1. }
  assert (counter c3 = S (counter c)) as Hcnt.
  { change (counter c3) with (tv_next (view c3)). rewrite Hv3. simpl. done. }
  assert (∀ S, tree_ok (view (set_leaves S c4)) (<[counter c := leaf_gnode g key val]> G)) as Ht4.
  { intros S. eapply tree_ok_ext; [exact Ht'|..]; simpl; try (by rewrite (fr_cfg _ _ Hf)).
    - by rewrite (fr_root _ _ Hf).
    - exact Hh4.
    - done. }
  assert (nodes c4 !! node = Some (set_children <[ck := counter c]> nx)) as Hnode4
    by apply lookup_insert_eq.
  destruct (view_lookup_inv c4 (counter c) (leaf_core node key val)) as (new4 & Hnew4 & Hcore4).
  { rewrite Hh4. apply (leaf_lookup_m _ _ _ _ _ _ _ _ Ht Hlp). }
  eapply (wp_update_live _ _ _ g); [apply (Ht4 id)|by rewrite lookup_insert_ne|done|].
  wp_step. eapply wp_update_live; [apply Ht4|apply lookup_insert_eq|exact Hnew4|].
  apply wp_store_event_off; [simpl; by rewrite (fr_cfg _ _ Hf)|].
  set (c5 := set_leaves _ (set_leaves _ c4)).
  assert (view c5 = leaf_view (view c) node (node_core nx) key ck val) as Hv5.
  { unfold leaf_view. unfold c5, view at 1. simpl.
    rewrite (fr_cfg _ _ Hf), (fr_root _ _ Hf), (fr_ev _ _ Hf), (fr_pr _ _ Hf), (fr_leaves _ _ Hf), Hcnt.
    f_equal; [exact Hh4|by apply (leaf_sets node nx ck (counter c) new4 key val)]. }
  exists (counter c). rewrite Hv5. split_and!; [done|done| |..|done]; simpl.
  - apply frame_env in Hf as []. by split.
  - apply (fr_pr _ _ Hf).
  - by rewrite (fr_ev _ _ Hf).
Qed.

(** *** [insert] *)

(** What inserting the slots [VAL] under [us] establishes; [r] is the returned
    prefix length. *)
Record insert_post c G L (us : list tunit) (VAL : list Z) (r : nat) (c' : RadixCache A)
    (G' : gmap nat gnode) (vs : list Z) : Prop := {
  ip_inv : Inv (view c') G' L;
  ip_nodes : G ⊆ G';
  ip_match : longest_match (page_size (cfg c)) G us vs;
  ip_result : r = length vs;
  ip_cached : ∀ us' vs', cached (page_size (cfg c)) G' us' vs' ↔
    cached (page_size (cfg c)) G us' vs'
    ∨ extends (page_size (cfg c)) (take r us) (drop r us) vs (drop r VAL) us' vs';
  ip_slots : ∀ i, slot_count (view c') G' i = (slot_count (view c) G i + occ i (drop r VAL))%Z;
  ip_ev : evictable_size_ c' = (evictable_size_ c + Z.of_nat (length us - r))%Z;
  ip_pr : protected_size_ c' = protected_size_ c;
  ip_env : env_frame c c';
}.

(** The walk ended with nothing left of the key. *)
Lemma insert_post_walk c G L us VAL total node key ck val c' :
  Inv (view c) G L → key_len key = 0 → length VAL = length us →
  insert_walk c G L us VAL (total, node, key, ck, val) c' →
  ∃ G' vs, insert_post c G L us VAL total c' G' vs.
Proof.
  intros HInv Hkey HVAL (G' & g & nx & HInv' & Hr & Hf & Hs & Hg & Hnx & Hus & -> & Hval & _).
  pose proof (inv_tree _ _ _ HInv) as Ht. pose proof (inv_tree _ _ _ HInv') as Ht'.
  assert (page_size (cfg c) = page_size (cfg c')) as Hps by (by rewrite (fr_cfg _ _ Hf)).
  assert (titer key = []) as Hnil by (apply nil_length_inv; by rewrite titer_length).
  rewrite Hnil, app_nil_r in Hus. subst us.
  destruct (tree_path_shape _ _ _ _ Ht' Hg) as [Hal Hlen].
  exists G', (g_vals g). constructor.
  - done.
  - apply Hr.
  - apply (refines_longest (view c) (view c') G G'); try done. simpl. rewrite Hps.
    apply longest_full; [done|].
    destruct (g_path g) as [|u us'] eqn:Hp; [by left|right].
    exists node, g, (length (g_path g)). rewrite Hp, take_ge by done.
    rewrite take_ge by (rewrite Hlen; done). split_and!; [done|simpl; lia|done|done|done|done].
  - done.
  - intros us' vs'. rewrite <-(refines_cached (view c) (view c') G G') by done.
    split; [by left|]. intros [?|(j & Hj & _)]; [done|]. rewrite length_drop in Hj. lia.
  - intros i. rewrite Hs, drop_ge by lia. by rewrite occ_nil, Z.add_0_r.
  - rewrite (fr_ev _ _ Hf). lia.
  - apply (fr_pr _ _ Hf).
  - by apply frame_env.
Qed.

(** The walk stopped at a node, and the rest of the key became its child. *)
Lemma insert_post_leaf c G L us VAL total node key ck val c1 c2 m G1 g nx :
  Inv (view c) G L → length VAL = length us →
  Inv (view c1) G1 L → refines G G1 → frame c c1 →
  (∀ i, slot_count (view c1) G1 i = slot_count (view c) G i) →
  G1 !! node = Some g → nodes c1 !! node = Some nx → g_path g ++ titer key = us →
  total = length (g_path g) → val = drop total VAL → tree_key c1 key → 0 < key_len key →
  child_key key (page_size (cfg c1)) = Ok ck → children nx !! ck = None →
  G1 !! m = None →
  let G2 := <[m := MkG (g_path g ++ titer key) (g_vals g ++ val)]> G1 in
  Inv (view c2) G2 L → env_frame c1 c2 → protected_size_ c2 = protected_size_ c1 →
  evictable_size_ c2 = (evictable_size_ c1 + Z.of_nat (key_len key))%Z →
  (∀ i, slot_count (view c2) G2 i = (occ i val + slot_count (view c1) G1 i)%Z) →
  insert_post c G L us VAL total c2 G2 (g_vals g).
Proof.
  intros HInv HVAL HInv1 Hr Hf Hs Hg Hnx Hus Htotal Hval Htk Hpos Hck Hnone Hm G2 HInv2 He
    Hpr Hev Hs2.
  pose proof (inv_tree _ _ _ HInv) as Ht. pose proof (inv_tree _ _ _ HInv1) as Ht1.
  assert (page_size (cfg c) = page_size (cfg c1)) as Hps by (by rewrite (fr_cfg _ _ Hf)).
  destruct (tree_path_shape _ _ _ _ Ht1 Hg) as [Hal Hlen].
  assert (length us = total + key_len key) as Husl by (rewrite <-Hus, length_app, titer_length; lia).
  constructor.
  - done.
  - etrans; [apply Hr|]. by apply insert_subseteq.
  - apply (refines_longest (view c) (view c1) G G1); try done. simpl. rewrite Hps, <-Hus.
    eapply (descend_none_longest (view c1) G1 Ht1 node g (node_core nx)); try done.
    + by apply view_lookup.
    + apply Htk.
    + apply Htk.
  - by rewrite Hlen.
  - intros us' vs'. unfold G2. rewrite cached_insert by done.
    rewrite <-(refines_cached (view c) (view c1) G G1) by done.
    rewrite <-Hus, Htotal, take_app_length, drop_app_length, <-Htotal, <-Hval. done.
  - intros i. rewrite Hs2, Hs, <-Hval. lia.
  - rewrite Hev, (fr_ev _ _ Hf). lia.
  - by rewrite Hpr, (fr_pr _ _ Hf).
  - etrans; [by apply frame_env|done].
Qed.

Lemma wp_insert_helper c G L key VAL prio chunked :
  Inv (view c) G L → enable_kv_cache_events (cfg c) = false → tree_key c key →
  length VAL = key_len key →
  wp (insert_helper (root_node c) key VAL prio chunked)
    (λ r c', ∃ G' vs, insert_post c G L (titer key) VAL r c' G' vs) c.
Proof.
  intros HInv Hoff Htk HVAL. pose proof (inv_tree _ _ _ HInv) as Ht.
  pose proof (to_groot Ht) as Hgroot. destruct (to_root Ht) as (x' & Hx' & _).
  destruct (view_lookup_inv _ _ _ Hx') as (x & Hx & ->).
  unfold insert_helper. wp_step. apply wp_time. intros t c1 Hv1 Hf1 Hn1.
  wp_step. eapply wp_touch; [rewrite Hn1; exact Hx|done|]. intros c2 Hv2 Hf2 Hx2.
  wp_step. eapply wp_touch; [exact Hx2|done|]. intros c3 Hv3 Hf3 Hx3.
  assert (frame c c3) as Hf by (by etrans; [|etrans]).
  assert (view c3 = view c) as Hv by congruence.
  assert (length VAL = length (titer key)) by (by rewrite titer_length).
  case_decide as Hlen.
  { wp_step. eapply (insert_post_walk c G L _ VAL 0 (root_node c) key (None, KTok 0) VAL); [done..|].
    destruct (view_lookup_inv c3 (root_node c) (node_core x)) as (nx & Hnx & _); [by rewrite Hv|].
    eexists G, _, nx. rewrite Hv.
    split_and!; [done|done|done|done|exact Hgroot|done|done|done|done|by eapply tree_key_frame|lia]. }
  destruct (child_key_ok key (page_size (cfg c))) as [ck Hck];
    [exact (to_ps Ht)|apply (aligned_lt 0); [apply aligned_0|apply Htk|lia]|].
  wp_steps. rewrite (fr_cfg _ _ Hf). wp_steps.
  eapply wp_mono.
  { eapply (wp_insert_loop _ c3 G L _ (MkG [] []) key ck VAL); [by rewrite Hv|done| |lia| |done|done].
    - by eapply tree_key_frame.
    - by rewrite (fr_cfg _ _ Hf). }
  intros [[[[total node] key'] ck'] val'] c4 Hwalk. simpl app in Hwalk.
  apply (insert_walk_mono c c3 G G) in Hwalk; [|done|done|by rewrite Hv].
  case_decide as Hpos.
  - pose proof Hwalk as (G1 & g & nx & HInv1 & Hr & Hf4 & Hs & Hg & Hnx & Hus & Htot & Hval & Htk' & Hlast).
    destruct (Hlast Hpos) as [Hck' Hnone].
    wp_step. eapply wp_mono.
    + eapply (wp_insert_leaf c4 G1 L node g nx); try done; [by rewrite (fr_cfg _ _ Hf4)|].
      apply (f_equal length) in Hus. rewrite length_app, !titer_length in Hus.
      rewrite Hval, length_drop. lia.
    + intros _ c5 (m & Hm & HInv5 & He & Hpr & Hev & Hs5). wp_step. eexists _, _.
      by eapply (insert_post_leaf c G L _ VAL total node key' ck' val' c4).
  - wp_step. eapply insert_post_walk; [done| | |done]; [lia|done].
Qed.

(** The slots a caller's value contributes, cut to the pages of the key; the
    tokens themselves stand in for a missing value. *)
Definition insert_vals c (key : RadixKey) (val : option (list Z)) : list Z :=
  take (length (query_units c key)) (default (token_ids key) val).

(** The caller passes a slot for every unit. *)
Definition vals_ok c (key : RadixKey) (val : option (list Z)) : Prop :=
  ∀ v, val = Some v → length (query_units c key) ≤ length v.

Lemma page_aligned_tokens k ps k' :
  page_aligned k ps = Ok k' →
  take (key_len k') (token_ids k') = take (key_len k') (token_ids k)
  ∧ key_len k' ≤ length (token_ids k).
Proof.
  unfold page_aligned. case_decide.
  { intros [= <-]. split; [done|]. unfold key_len. repeat case_match; lia. }
  rewrite key_prefix_ok. intros [= <-]. set (n := Nat.min _ _).
  assert (n ≤ key_len k) as Hn by (unfold n; lia). clearbody n.
  rewrite <-iter_length, key_slice_iter by done. rewrite py_slice_length, iter_length.
  assert (key_len k ≤ length (token_ids k)) by (unfold key_len; repeat case_match; lia).
  rewrite !Nat.sub_0_r, Nat.min_l by done. split; [|lia].
  unfold key_slice, py_slice. destruct (is_bigram k); simpl; [case_decide|]; simpl.
  - rewrite take_take, Nat.sub_0_r, Nat.min_l by lia. done.
  - assert (n = 0) as -> by lia. by rewrite !take_0.
  - by rewrite take_take, Nat.sub_0_r, Nat.min_l by lia.
Qed.

Lemma wp_insert_cache c G L key val prio chunked :
  Inv (view c) G L → disable (cfg c) = false → enable_kv_cache_events (cfg c) = false →
  query_ok c key → vals_ok c key val →
  wp (insert_cache key val prio chunked)
    (λ r c', ∃ G' vs, insert_post c G L (query_units c key) (insert_vals c key val) r c' G' vs) c.
Proof.
  intros HInv Hdis Hoff Hq Hv.
  destruct (query_key c key Hq) as (key' & Hpa & Htk & Hit).
  pose proof (page_aligned_tokens _ _ _ Hpa) as [Htok Htoklen].
  assert (key_len key' = length (query_units c key)) as Hlen by (by rewrite <-Hit, titer_length).
  assert (∀ v, (maybe_to_bigram_view key (is_eagle (cfg c)) v).1
    = (maybe_to_bigram_view key (is_eagle (cfg c)) None).1) as Hview.
  { intros v. unfold maybe_to_bigram_view. by destruct (_ && _). }
  assert (token_ids (maybe_to_bigram_view key (is_eagle (cfg c)) None).1 = token_ids key) as Htk0.
  { unfold maybe_to_bigram_view. by destruct (_ && _). }
  assert (length (query_units c key)
    ≤ key_len (maybe_to_bigram_view key (is_eagle (cfg c)) None).1) as Hle.
  { unfold query_units. rewrite length_take, titer_length. lia. }
  unfold insert_cache. wp_steps. rewrite Hdis.
  pose proof (Hview val) as Hval. destruct (maybe_to_bigram_view _ _ val) as [k v] eqn:Hkv.
  simpl in Hval. subst k. wp_steps.
  assert (match v with
          | Some v => take (key_len key') v
          | None => take (key_len key') (token_ids key')
          end = insert_vals c key val) as ->.
  { unfold insert_vals. rewrite <-Hlen, Htk0 in *. destruct val as [w|]; simpl.
    - assert (v = Some w ∨ v = Some (take (key_len
        (maybe_to_bigram_view key (is_eagle (cfg c)) None).1) w)) as [->| ->]; [|done|].
      + revert Hkv. unfold maybe_to_bigram_view. destruct (_ && _); intros [= <-]; auto.
      + by rewrite take_take, Nat.min_l.
    - assert (v = None) as ->; [|done].
      revert Hkv. unfold maybe_to_bigram_view. by destruct (_ && _); intros [= <-]. }
  rewrite <-Hit. apply wp_insert_helper; [done..|].
  unfold insert_vals. rewrite <-Hlen. apply length_take_le.
  destruct val as [w|]; simpl; [rewrite Hlen; by apply Hv|by rewrite <-Htk0].
Qed.

Lemma insert_vals_length c key val :
  query_ok c key → vals_ok c key val →
  length (insert_vals c key val) = length (query_units c key)
  ∧ length (query_units c key) `mod` page_size (cfg c) = 0.
Proof.
  intros Hq Hv. destruct (query_key c key Hq) as (key' & Hpa & Htk & Hit).
  rewrite <-Hit, titer_length. split; [|apply Htk].
  unfold insert_vals. rewrite <-Hit, titer_length. apply length_take_le.
  destruct val as [v|]; simpl; [rewrite <-titer_length, Hit; by apply Hv|].
  apply page_aligned_tokens in Hpa as [_ Hle]. etrans; [exact Hle|].
  unfold maybe_to_bigram_view. by destruct (_ && _).
Qed.

Lemma insert_cache_disabled c key val prio chunked :
  disable (cfg c) = true → insert_cache key val prio chunked c = Ok (0, c).
Proof.
  intros Hdis. unfold insert_cache, mbind, ST_bind, st_bind, st_gets. by rewrite Hdis.
Qed.
End insert.
