(* ===== verification/RadixLockOps.v ===== *)
(** [inc_lock_ref] and [dec_lock_ref]: a lock on a node protects the whole path
    to the root, and the two operations are inverse. *)
From S2P Require Import Prelude RadixKey TreeNode EvictPolicy RadixCache RadixInv RadixSplit RadixLeaf.
From S2P Require Import RadixLock RadixSpec RadixOps.
From stdpp Require Import options.

(** ** Walks to the root are short *)

(** The number of live nodes with a shorter path: it decreases towards the root. *)
Definition rank (G : gmap nat gnode) (g : gnode) : nat :=
  size (filter (λ '(_, gm), length (g_path gm) < length (g_path g)) G).

Lemma rank_parent v G n g x p gp px :
  node_ok v G n g x p gp px → rank G gp < rank G g.
Proof.
  intros Hok. pose proof (node_ok_lt _ _ _ _ _ _ _ _ Hok) as Hlt.
  unfold rank. rewrite <-!size_dom. apply subset_size. split.
  - intros m. rewrite !elem_of_dom. intros [gm [Hm Hl]%map_lookup_filter_Some].
    exists gm. apply map_lookup_filter_Some. split; [done|lia].
  - intros Hsub. specialize (Hsub p). rewrite !elem_of_dom in Hsub.
    destruct Hsub as [gm [Hm Hl]%map_lookup_filter_Some].
    + exists gp. apply map_lookup_filter_Some. split; [apply (no_gpar Hok)|done].
    + pose proof (no_gpar Hok). simplify_eq. lia.
Qed.

Lemma rank_bound {A} (c : RadixCache A) G g :
  tree_ok (view c) G → rank G g ≤ size (nodes c).
Proof.
  intros Ht. unfold rank. etrans; [apply map_subseteq_size, map_filter_subseteq|].
  rewrite <-!size_dom. apply subseteq_size. intros n [gn Hn]%elem_of_dom.
  destruct (tree_live _ _ _ _ Ht Hn) as [x Hx].
  destruct (view_lookup_inv _ _ _ Hx) as (y & Hy & _). by apply elem_of_dom.
Qed.

(** The nodes from [n] up to, but without, the root. *)
Definition on_path (G : gmap nat gnode) (root n q : nat) : bool :=
  match G !! q, G !! n with
  | Some gq, Some gn => bool_decide (g_path gq `prefix_of` g_path gn) && negb (bool_decide (q = root))
  | _, _ => false
  end.

Lemma on_path_root v G q : tree_ok v G → on_path G (tv_root v) (tv_root v) q = false.
Proof.
  intros Ht. unfold on_path. rewrite (to_groot Ht). destruct (G !! q) as [gq|] eqn:Hq; [|done].
  case_bool_decide as Hp; [|done]. apply prefix_nil_inv in Hp.
  by rewrite (tree_root_path v G q gq Ht Hq Hp), bool_decide_true.
Qed.

Lemma on_path_step v G n g x p gp px q :
  tree_ok v G → G !! n = Some g → n ≠ tv_root v → node_ok v G n g x p gp px →
  on_path G (tv_root v) n q = bool_decide (q = n) || on_path G (tv_root v) p q
  ∧ on_path G (tv_root v) p n = false.
Proof.
  intros Ht Hg Hn Hok. pose proof (no_gpar Hok) as Hp.
  pose proof (node_ok_lt _ _ _ _ _ _ _ _ Hok) as Hlt.
  pose proof (node_ok_prefix _ _ _ _ _ _ _ _ Hok) as Hpre.
  assert (on_path G (tv_root v) p n = false) as Hpn.
  { unfold on_path. rewrite Hg, Hp. rewrite bool_decide_false; [done|].
    intros Hc%prefix_length. lia. }
  split; [|done]. destruct (decide (q = n)) as [->|Hqn].
  { rewrite (bool_decide_true (n = n)) by done. unfold on_path. rewrite Hg.
    by rewrite (bool_decide_true (_ `prefix_of` _)), (bool_decide_false (n = _)) by done. }
  rewrite (bool_decide_false (q = n)) by done. unfold on_path.
  destruct (G !! q) as [gq|] eqn:Hq; [|done]. rewrite Hg, Hp. simpl. f_equal.
  apply bool_decide_ext. split; [|intros; by etrans]. intros Hqg.
  destruct (decide (length (g_path gq) ≤ length (g_path gp))); [by eapply prefix_le|].
  exfalso. apply Hqn. eapply (edge_inside v G Ht n g x p gp px q gq); try done; [|lia].
  intros n' g' _ Hn'. by apply way_down.
Qed.

Section lock_ops.
Context `{Env} {A : Type} `{KVAllocator A}.
Implicit Types (c : RadixCache A) (G : gmap nat gnode) (L : nat → Z) (x : TreeNode).

Abbreviation len x := (Z.of_nat (key_len (nkey x))).

(** What taking ([d = 1]) or returning ([d = -1]) a lock on [n] does; [P] are
    the nodes whose count changes. *)
Record lock_post c G L (n : nat) (d : Z) (P : nat → bool) (delta : Z) c' : Prop := {
  lk_inv : Inv (view c') G (add_lock L n d);
  lk_env : env_frame c c';
  lk_delta : evictable_size_ c' = (evictable_size_ c + delta)%Z;
  lk_sum : (evictable_size_ c' + protected_size_ c' = evictable_size_ c + protected_size_ c)%Z;
  lk_slots : ∀ i, slot_count (view c') G i = slot_count (view c) G i;
  lk_lock : ∀ q, hlock (tv_h (view c')) q
                 = (hlock (tv_h (view c)) q + if P q then d else 0)%Z;
  lk_len : ∀ q, hlen (tv_h (view c')) q = hlen (tv_h (view c)) q;
}.

(** The change to the evictable size one step makes. *)
Definition ev_change (l d : Z) x : Z := (ev_w (l + d) (len x) - ev_w l (len x))%Z.

Lemma hlock_lookup c n x : nodes c !! n = Some x → hlock (tv_h (view c)) n = lock_ref x.
Proof. intros Hx. unfold hlock. by rewrite (view_lookup _ _ _ Hx). Qed.

(** The part the two loops share: the count of one node changes, then the
    leaf set is brought up to date. *)
Lemma wp_lock_step {B} c c1 G L n g x p gp px d f (body : ST (RadixCache A) B)
    (Q : B → RadixCache A → Prop) :
  Inv (view c) G L → G !! n = Some g → n ≠ root_node c → nodes c !! n = Some x →
  node_ok (view c) G n g (node_core x) p gp px → (0 <= lock_ref x + d)%Z →
  f (lock_ref x) = (lock_ref x + d)%Z →
  env_frame c c1 → nodes c1 = nodes c → counter c1 = counter c →
  evictable_leaves c1 = evictable_leaves c →
  evictable_size_ c1 = (evictable_size_ c + ev_change (lock_ref x) d x)%Z →
  protected_size_ c1 = (protected_size_ c - ev_change (lock_ref x) d x)%Z →
  (∀ c', lock_post c G (add_lock L p (- d)) n d (λ q, bool_decide (q = n)) (ev_change (lock_ref x) d x) c' → wp body Q c') →
  wp (_ ← upd_node n (set_lock_ref f); _ ← update_leaf_status n; body) Q c1.
Proof.
  intros HInv Hg Hn Hx Hok Hnn Hf He Hnodes Hcnt Hlv Hev Hpr HQ.
  pose proof (inv_tree _ _ _ HInv) as Ht. pose proof He as [Hcfg Hroot _ _].
  pose proof (lock_tree_ok (view c) G n g (node_core x) p gp px d Ht Hn Hok) as Ht'.
  wp_step. eapply wp_upd_node; [by rewrite Hnodes|]. wp_step.
  set (c2 := set_nodes _ c1).
  assert (tv_h (view c2) = tv_h (lock_view (view c) n (node_core x) d)) as Hh.
  { unfold c2. simpl. rewrite Hnodes, fmap_insert. f_equal. unfold node_core, with_lock.
    simpl. by rewrite Hf. }
  eapply (wp_update_live _ G n g); [|done|apply lookup_insert_eq|].
  { eapply tree_ok_ext; [exact Ht'|..]; simpl; try congruence. exact Hh. }
  set (c3 := set_leaves _ c2).
  assert (view c3 = lock_view (view c) n (node_core x) d) as Hv.
  { unfold lock_view. unfold view at 1. simpl. rewrite Hcfg, Hroot, Hcnt, Hev, Hpr, Hlv.
    f_equal.
    - exact Hh.
    - unfold ev_change, ev_w, pr_w. repeat case_decide; lia.
    - unfold leaf_update, lock_leaves. simpl. rewrite Hf.
      repeat case_decide; try done; exfalso; (lia || naive_solver lia). }
  apply HQ. constructor.
  - rewrite Hv. eapply Inv_locks_ext.
    + by eapply lock_Inv.
    + intros k Hk. unfold add_lock. lia.
    + intros k Hk. destruct (inv_locks _ _ _ HInv) as [_ _ Hout]. unfold add_lock.
      rewrite Hout by done. pose proof (no_gpar Hok).
      repeat case_decide; subst; try done; exfalso; apply Hk, elem_of_dom; eauto.
  - etrans; [exact He|]. by split.
  - simpl. by rewrite Hev.
  - simpl. rewrite Hev, Hpr. lia.
  - intros i. rewrite Hv. eapply lock_slots. exact Hok.
  - intros q. rewrite Hv, (lock_hlock _ _ _ _ _ _ _ _ _ Hok).
    case_decide as E; [subst q; rewrite bool_decide_true by done|rewrite bool_decide_false by done; lia].
    by rewrite (hlock_lookup c n x Hx).
  - intros q. rewrite Hv. eapply lock_hlen. exact Hok.
Qed.

(** At the root nothing is left to do. *)
Lemma lock_post_root c G L d :
  Inv (view c) G L → lock_post c G L (root_node c) d (on_path G (root_node c) (root_node c)) 0 c.
Proof.
  intros HInv. constructor; [|done|lia|done|done| |done].
  2: { intros q. pose proof (on_path_root (view c) G q (inv_tree _ _ _ HInv)) as Hp.
    simpl tv_root in Hp. rewrite Hp. lia. }
  eapply Inv_locks_ext; [done|..].
  - intros k [_ Hk]%elem_of_inner. unfold add_lock. rewrite decide_False by done. lia.
  - intros k Hk. unfold add_lock. destruct (inv_locks _ _ _ HInv) as [_ _ ->]; [|done].
    rewrite decide_False; [done|]. intros ->. apply Hk, elem_of_dom.
    exists (MkG [] []). exact (to_groot (inv_tree _ _ _ HInv)).
Qed.

(** One step towards the root, then the rest of the way. *)
Lemma lock_post_trans c c1 c2 G L n g (x : core) p gp px d d1 d2 :
  G !! n = Some g → n ≠ root_node c → node_ok (view c) G n g x p gp px → Inv (view c) G L →
  lock_post c G (add_lock L p (- d)) n d (λ q, bool_decide (q = n)) d1 c1 →
  lock_post c1 G (add_lock (add_lock L p (- d)) n d) p d (on_path G (root_node c1) p) d2 c2 →
  lock_post c G L n d (on_path G (root_node c) n) (d1 + d2) c2.
Proof.
  intros Hn Hr Hok HInv [_ He1 Hd1 Hs1 Hc1 Hk1 Hn1] [Hi2 He2 Hd2 Hs2 Hc2 Hk2 Hn2].
  pose proof (ef_root _ _ He1) as Hroot. constructor.
  - eapply Inv_locks_ext; [exact Hi2|..].
    + intros k _. unfold add_lock. repeat case_decide; lia.
    + intros k Hk. unfold add_lock. destruct (inv_locks _ _ _ HInv) as [_ _ ->]; [|done].
      rewrite decide_False; [done|]. intros ->. apply Hk, elem_of_dom. eauto.
  - by etrans.
  - lia.
  - lia.
  - intros i. by rewrite Hc2.
  - intros q. rewrite Hk2, Hk1, Hroot.
    destruct (on_path_step (view c) G n g x p gp px q (inv_tree _ _ _ HInv) Hn Hr Hok) as [E1 E2].
    simpl tv_root in E1, E2. rewrite E1. case_bool_decide as Eq; simpl; [|lia].
    subst q. rewrite E2. lia.
  - intros q. by rewrite Hn2.
Qed.

(** The nodes of the tree a lock walk meets. *)
Lemma lock_walk_node c G n g :
  tree_ok (view c) G → G !! n = Some g → n ≠ root_node c →
  ∃ x p gp px, nodes c !! n = Some x ∧ parent x = Some p ∧ G !! p = Some gp
    ∧ node_ok (view c) G n g (node_core x) p gp px.
Proof.
  intros Ht Hg Hn. destruct (to_node Ht n g) as (x' & p & gp & px & Hok); [done..|].
  destruct (view_lookup_inv _ _ _ (no_heap Hok)) as (x & Hx & ->).
  exists x, p, gp, px. split_and!; [done|apply (no_par Hok)|apply (no_gpar Hok)|done].
Qed.

Lemma wp_inc_lock_loop fuel c G L n g delta :
  Inv (view c) G L → G !! n = Some g → rank G g < fuel →
  wp (inc_lock_loop fuel n delta)
    (λ r c', lock_post c G L n 1 (on_path G (root_node c) n) (r - delta) c') c.
Proof.
  revert c L n g delta. induction fuel as [|fuel IH]; [lia|].
  intros c L n g delta HInv Hg Hfuel. pose proof (inv_tree _ _ _ HInv) as Ht. simpl.
  wp_steps. case_decide as Hroot.
  { wp_step. rewrite Z.sub_diag, Hroot. by apply lock_post_root. }
  destruct (lock_walk_node c G n g Ht Hg Hroot) as (x & p & gp & px & Hx & Hpar & Hgp & Hok).
  assert (0 <= lock_ref x)%Z as Hnn.
  { rewrite <-(hlock_lookup c n x Hx). apply (inv_locks _ _ _ HInv).
    apply elem_of_inner. eauto. }
  wp_step. eapply wp_get_node; [done|]. rewrite Hpar. wp_step.
  eapply (wp_mono _ (λ d1 c1, d1 = (delta + ev_change (lock_ref x) 1 x)%Z ∧
    env_frame c c1 ∧ nodes c1 = nodes c ∧ counter c1 = counter c
    ∧ evictable_leaves c1 = evictable_leaves c
    ∧ evictable_size_ c1 = (evictable_size_ c + ev_change (lock_ref x) 1 x)%Z
    ∧ protected_size_ c1 = (protected_size_ c - ev_change (lock_ref x) 1 x)%Z)).
  { unfold ev_change, ev_w. case_decide as Hl0; wp_steps; simpl;
      rewrite ?(decide_False (P := (lock_ref x + 1 = 0)%Z)) by lia.
    - split_and!; (lia || done).
    - split_and!; (lia || done). }
  intros d1 c1 (-> & He & ? & ? & ? & ? & ?).     eapply (wp_lock_step c c1 G L n g x p gp px 1); try done; [lia|].
  intros c2 Hpost. wp_steps. eapply wp_mono.
  - eapply (IH c2 _ p gp); [apply Hpost|done|].
    pose proof (rank_parent _ _ _ _ _ _ _ _ Hok). lia.
  - intros r c3 Hpost'. cbv beta in Hpost'.
    eapply (lock_post_trans c c2 c3) in Hpost'; [|done|done|done|done|exact Hpost].
    replace (r - delta)%Z with (ev_change (lock_ref x) 1 x
      + (r - (delta + ev_change (lock_ref x) 1 x)))%Z by lia. exact Hpost'.
Qed.

(** Returning a lock: there must be one to return. *)
Definition has_lock L (n : nat) : Prop := (1 <= L n)%Z ∧ ∀ m, m ≠ n → (0 <= L m)%Z.

Lemma child_locks_nonneg c G L n :
  Inv (view c) G L → (0 <= child_locks (tv_h (view c)) G n)%Z.
Proof.
  intros HInv. apply gsum_nonneg. intros m Hm. case_decide as Hpar; [|done].
  apply (inv_locks _ _ _ HInv), elem_of_inner. split; [by apply elem_of_dom|]. intros ->.
  destruct (to_root (inv_tree _ _ _ HInv)) as (xr & Hr & Hp & _).
  unfold hpar in Hpar. rewrite Hr in Hpar. simpl in Hpar. congruence.
Qed.

Lemma wp_dec_lock_loop fuel c G L n g delta :
  Inv (view c) G L → G !! n = Some g → has_lock L n → rank G g < fuel →
  wp (dec_lock_loop fuel n delta)
    (λ r c', lock_post c G L n (-1) (on_path G (root_node c) n) (r - delta) c') c.
Proof.
  revert c L n g delta. induction fuel as [|fuel IH]; [lia|].
  intros c L n g delta HInv Hg [HL1 HL0] Hfuel. pose proof (inv_tree _ _ _ HInv) as Ht. simpl.
  wp_steps. case_decide as Hroot.
  { wp_step. rewrite Z.sub_diag, Hroot. by apply lock_post_root. }
  destruct (lock_walk_node c G n g Ht Hg Hroot) as (x & p & gp & px & Hx & Hpar & Hgp & Hok).
  assert (1 <= lock_ref x)%Z as Hnn.
  { rewrite <-(hlock_lookup c n x Hx). destruct (inv_locks _ _ _ HInv) as [_ Hsum _].
    rewrite Hsum by (apply elem_of_inner; eauto).
    pose proof (child_locks_nonneg c G L n HInv). lia. }
  wp_step. eapply wp_get_node; [done|]. rewrite Hpar. wp_step.
  eapply (wp_mono _ (λ d1 c1, d1 = (delta + ev_change (lock_ref x) (-1) x)%Z ∧
    env_frame c c1 ∧ nodes c1 = nodes c ∧ counter c1 = counter c
    ∧ evictable_leaves c1 = evictable_leaves c
    ∧ evictable_size_ c1 = (evictable_size_ c + ev_change (lock_ref x) (-1) x)%Z
    ∧ protected_size_ c1 = (protected_size_ c - ev_change (lock_ref x) (-1) x)%Z)).
  { unfold ev_change, ev_w. rewrite (decide_False (P := (lock_ref x = 0)%Z)) by lia.
    case_decide as Hl1; wp_steps; simpl.
    - rewrite decide_True by lia. split_and!; (lia || done).
    - rewrite decide_False by lia. split_and!; (lia || done). }
  intros d1 c1 (-> & He & ? & ? & ? & ? & ?).
  eapply (wp_lock_step c c1 G L n g x p gp px (-1)); try done; [lia|].
  intros c2 Hpost. wp_steps. eapply wp_mono.
  - eapply (IH c2 _ p gp); [apply Hpost|done| |].
    + split; unfold add_lock.
      * assert (0 <= L p)%Z; [|repeat case_decide; simplify_eq; lia].
        apply HL0. intros ->. by eapply node_ok_ne.
      * intros m Hm. rewrite (decide_False (P := m = p)) by done.
        case_decide; [subst; lia|]. pose proof (HL0 m). lia.
    + pose proof (rank_parent _ _ _ _ _ _ _ _ Hok). lia.
  - intros r c3 Hpost'. cbv beta in Hpost'.
    eapply (lock_post_trans c c2 c3) in Hpost'; [|done|done|done|done|exact Hpost].
    replace (r - delta)%Z with (ev_change (lock_ref x) (-1) x
      + (r - (delta + ev_change (lock_ref x) (-1) x)))%Z by lia. exact Hpost'.
Qed.

(** *** The public operations *)

Lemma wp_inc_lock_ref c G L n :
  Inv (view c) G L → disable (cfg c) = false → is_Some (G !! n) →
  wp (inc_lock_ref n) (lock_post c G L n 1 (on_path G (root_node c) n)) c.
Proof.
  intros HInv Hdis [g Hg]. unfold inc_lock_ref. wp_steps. rewrite Hdis. wp_steps.
  eapply wp_mono; [eapply wp_inc_lock_loop; [done..|]|].
  - pose proof (rank_bound c G g (inv_tree _ _ _ HInv)). lia.
  - intros r c'. cbv beta. by rewrite Z.sub_0_r.
Qed.

Lemma wp_dec_lock_ref c G L n :
  Inv (view c) G L → disable (cfg c) = false → is_Some (G !! n) → has_lock L n →
  wp (dec_lock_ref n) (lock_post c G L n (-1) (on_path G (root_node c) n)) c.
Proof.
  intros HInv Hdis [g Hg] HL. unfold dec_lock_ref. wp_steps. rewrite Hdis. wp_steps.
  eapply wp_mono; [eapply wp_dec_lock_loop; [done..|]|].
  - pose proof (rank_bound c G g (inv_tree _ _ _ HInv)). lia.
  - intros r c'. cbv beta. by rewrite Z.sub_0_r.
Qed.

(** The evictable size depends on which nodes are locked only. *)
Lemma evictable_ext c c' G L L' :
  Inv (view c) G L → Inv (view c') G L' → root_node c' = root_node c →
  (∀ q, hlock (tv_h (view c')) q = hlock (tv_h (view c)) q) →
  (∀ q, hlen (tv_h (view c')) q = hlen (tv_h (view c)) q) →
  evictable_size_ c' = evictable_size_ c.
Proof.
  intros HI HI' Hroot Hk Hn.
  destruct (inv_sizes _ _ _ HI) as [Hev0 _ _], (inv_sizes _ _ _ HI') as [Hev2 _ _].
  change (evictable_size_ c') with (tv_ev (view c')).
  change (evictable_size_ c) with (tv_ev (view c)). rewrite Hev2, Hev0.
  assert (inner (view c') G = inner (view c) G) as -> by (unfold inner; simpl; by rewrite Hroot).
  apply gsum_ext. intros q _. unfold ev_weight. by rewrite Hk, Hn.
Qed.

Lemma add_lock_has L n : locks_nonneg L → has_lock (add_lock L n 1) n.
Proof.
  intros HL. split; unfold add_lock; [pose proof (HL n); rewrite decide_True by done; lia|].
  intros m Hm. pose proof (HL m). rewrite decide_False by done. lia.
Qed.

(** Releasing the lock just taken brings back locks and counters. *)
Lemma wp_inc_dec c G L n :
  Inv (view c) G L → locks_nonneg L → disable (cfg c) = false → is_Some (G !! n) →
  wp (inc_lock_ref n) (λ d c1, lock_post c G L n 1 (on_path G (root_node c) n) d c1
    ∧ wp (dec_lock_ref n) (λ d' c2, d' = (- d)%Z ∧ Inv (view c2) G L ∧ env_frame c c2
        ∧ (∀ q, hlock (tv_h (view c2)) q = hlock (tv_h (view c)) q)
        ∧ evictable_size_ c2 = evictable_size_ c ∧ protected_size_ c2 = protected_size_ c) c1) c.
Proof.
  intros HInv HL Hdis Hn. eapply wp_mono; [by apply wp_inc_lock_ref|].
  intros d c1 Hp. split; [done|]. destruct Hp as [HI1 He1 Hd1 Hs1 _ Hk1 Hn1].
  eapply wp_mono.
  { apply (wp_dec_lock_ref c1 G (add_lock L n 1) n); [done|by rewrite (ef_cfg _ _ He1)|done|by apply add_lock_has]. }
  intros d' c2 [HI2 He2 Hd2 Hs2 _ Hk2 Hn2].
  assert (Inv (view c2) G L) as HI.
  { eapply Inv_locks_ext; [exact HI2|intros k _; unfold add_lock; case_decide; lia|].
    by destruct (inv_locks _ _ _ HInv). }
  assert (∀ q, hlock (tv_h (view c2)) q = hlock (tv_h (view c)) q) as Hk.
  { intros q. rewrite Hk2, Hk1, (ef_root _ _ He1). destruct (on_path _ _ _ _); lia. }
  assert (evictable_size_ c2 = evictable_size_ c) as Hev.
  { apply (evictable_ext c c2 G L L); try done; [by rewrite (ef_root _ _ He2), (ef_root _ _ He1)|].
    intros q. by rewrite Hn2, Hn1. }
  split_and!; try done; [lia|by etrans|lia].
Qed.

Lemma lock_ref_disabled c n :
  disable (cfg c) = true →
  inc_lock_ref n c = Ok (0%Z, c) ∧ dec_lock_ref n c = Ok (0%Z, c).
Proof.
  intros Hdis. unfold inc_lock_ref, dec_lock_ref, mbind, ST_bind, st_bind, st_gets.
  by rewrite Hdis.
Qed.
End lock_ops.
