(* ===== verification/RadixEvict.v ===== *)
(** [evict]: unlocked leaves are removed in priority order until enough slots
    are freed; slots are neither lost nor freed twice. *)
From S2P Require Import Prelude RadixKey TreeNode EvictPolicy RadixCache RadixInv RadixSplit RadixLeaf.
From S2P Require Import RadixLock RadixSpec RadixOps RadixLockOps.
From stdpp Require Import options.

(** ** Progress: an unlocked node has an evictable leaf below it *)
Section progress.
Context (v : tview) (G : gmap nat gnode) (L : nat → Z).
Context (HInv : Inv v G L) (HL : locks_nonneg L).

(** The children of an unlocked node are unlocked. *)
Lemma unlocked_child n g x ck m :
  G !! n = Some g → n ≠ tv_root v → tv_h v !! n = Some x → c_lock x = 0%Z →
  c_children x !! ck = Some m →
  ∃ gm, G !! m = Some gm ∧ m ≠ tv_root v ∧ hlock (tv_h v) m = 0%Z
    ∧ length (g_path g) < length (g_path gm).
Proof using HInv HL.
  intros Hg Hn Hx Hlock Hm. pose proof (inv_tree _ _ _ HInv) as Ht.
  destruct (inv_locks _ _ _ HInv) as [Hnn Hsum _].
  destruct (to_child Ht n g x ck m) as (gm & y & Hgm & Hy & Hpar & Hroot & _); [done..|].
  exists gm. split_and!; [done..| |].
  - assert (0 <= hlock (tv_h v) m)%Z by (apply Hnn, elem_of_inner; eauto).
    specialize (Hsum n ltac:(apply elem_of_inner; eauto)).
    unfold hlock at 1 in Hsum. rewrite Hx, Hlock in Hsum.
    assert (hlock (tv_h v) m <= child_locks (tv_h v) G n)%Z; [|pose proof (HL n); lia].
    unfold child_locks.
    pose proof (gsum_le_one (λ q, if decide (hpar (tv_h v) q = Some n)
      then hlock (tv_h v) q else 0%Z) m (dom G)) as Hle. cbv beta in Hle.
    rewrite (decide_True (P := hpar (tv_h v) m = Some n)) in Hle;
      [|unfold hpar; by rewrite Hy].
    apply Hle; [|by apply elem_of_dom]. intros q Hq. case_decide as Hp; [|done].
    apply Hnn, elem_of_inner. split; [by apply elem_of_dom|]. intros ->.
    destruct (to_root Ht) as (xr & Hr & Hpr & _). unfold hpar in Hp. rewrite Hr in Hp.
    simpl in Hp. congruence.
  - destruct (to_node Ht m gm) as (y' & p & gp & px & Hok); [done..|].
    pose proof (node_ok_lt _ _ _ _ _ _ _ _ Hok). pose proof (no_heap Hok).
    pose proof (no_par Hok). pose proof (no_gpar Hok).
    assert (p = n) as -> by congruence. assert (gp = g) as -> by congruence. done.
Qed.

Lemma path_bound : ∃ b, ∀ n g, G !! n = Some g → length (g_path g) < b.
Proof using.
  clear HInv HL. induction G as [|n g G' Hn IH] using map_ind.
  - exists 0. intros n g. by rewrite lookup_empty.
  - destruct IH as [b Hb]. exists (S (Nat.max b (length (g_path g)))). intros m gm.
    rewrite lookup_insert. case_decide; [intros [= ->]; lia|]. intros Hm%Hb. lia.
Qed.

Lemma unlocked_leaf n g :
  G !! n = Some g → n ≠ tv_root v → hlock (tv_h v) n = 0%Z →
  ∃ m, is_evictable_leaf v G m.
Proof using HInv HL.
  destruct path_bound as [b Hb].
  remember (b - length (g_path g)) as k eqn:Ek. revert n g Ek.
  induction (lt_wf k) as [k _ IH]. intros n g -> Hg Hn Hlock.
  destruct (tree_live v G n g (inv_tree _ _ _ HInv) Hg) as [x Hx].
  destruct (decide (c_children x = ∅)) as [Hempty|(ck & m & Hm)%map_choose].
  { exists n. split_and!; [apply elem_of_inner; eauto|done|eauto]. }
  unfold hlock in Hlock. rewrite Hx in Hlock.
  destruct (unlocked_child n g x ck m) as (gm & Hgm & Hmr & Hml & Hlt); [done..|].
  pose proof (Hb _ _ Hg). pose proof (Hb _ _ Hgm).
  eapply (IH (b - length (g_path gm))); [lia|done..].
Qed.

(** No evictable leaf: nothing is evictable. *)
Lemma no_leaves_no_evictable : tv_leaves v = ∅ → tv_ev v = 0%Z.
Proof using HInv HL.
  intros Hempty. destruct (inv_sizes _ _ _ HInv) as [-> _ Hlv]. apply gsum_zero.
  intros n [[g Hg] Hn]%elem_of_inner. unfold ev_weight, ev_w. case_decide as Hlock; [|done].
  destruct (unlocked_leaf n g) as [m Hm]; [done..|]. apply Hlv in Hm. set_solver.
Qed.
End progress.

Section evict.
Context `{Env} {A : Type} `{KVAllocator A} `{!KVAllocatorLaws A}.
Implicit Types (c : RadixCache A) (G : gmap nat gnode) (L : nat → Z) (x : TreeNode).

(** *** [_delete_leaf] *)
Lemma wp_delete_leaf c G L n g x p gp px ck (Q : unit → RadixCache A → Prop) :
  Inv (view c) G L → nodes c !! n = Some x → nodes c !! p = Some px →
  del_pre (view c) G n g (node_core x) p gp (node_core px) ck →
  (∀ c', view c' = del_view (view c) n (node_core x) p (node_core px) ck →
    env_frame c c' → protected_size_ c' = protected_size_ c →
    nodes c' = <[p := set_children (delete ck) px]> (nodes c) → Q tt c') →
  wp (delete_leaf n) Q c.
Proof using.
  intros HInv Hx Hpx Hdp HQ. pose proof (inv_tree _ _ _ HInv) as Ht.
  pose proof (del_tree_ok _ _ _ _ _ _ _ _ _ Ht Hdp) as Ht'.
  pose proof (del_link _ _ _ _ _ _ _ _ _ Ht Hdp) as Hlink. simpl in Hlink.
  pose proof Hdp as [Hlive Hinner Hok Hck Hkids Hlock]. simpl in Hck.
  pose proof (no_par Hok) as Hpar. simpl in Hpar.
  unfold delete_leaf. wp_steps. eapply wp_get_node; [done|]. rewrite Hpar. wp_steps.
  eapply wp_get_node; [done|]. unfold put_node. wp_steps.
  rewrite bool_decide_true by done. wp_steps.
  set (c1 := set_leaves _ _).
  eapply (wp_update_live c1 (delete n G) p gp (set_children (delete ck) px)).
  - eapply tree_ok_ext; [exact Ht'|..]; try done. unfold c1. simpl. by rewrite fmap_insert.
  - rewrite lookup_delete_ne by (by eapply node_ok_ne). apply (no_gpar Hok).
  - apply lookup_insert_eq.
  - apply HQ; try done.
    unfold del_view, view at 1. simpl. rewrite fmap_insert. f_equal.
    unfold leaf_update, del_leaves. simpl.
    assert (0 <= lock_ref px)%Z as Hnn.
    { rewrite <-(hlock_lookup c p px Hpx). destruct (decide (p = root_node c)) as [->|Hp].
      - destruct (to_root Ht) as (xr & Hr & _ & Hl & _). unfold hlock. change (root_node c) with (tv_root (view c)). rewrite Hr. lia.
      - apply (inv_locks _ _ _ HInv), elem_of_inner. rewrite (no_gpar Hok). eauto. }
    repeat case_decide; try done; exfalso; naive_solver lia.
Qed.

(** *** One removal *)

(** The values of the live nodes can be given back to the allocator. *)
Definition vals_fit c G : Prop :=
  ∀ n, n ∈ inner (view c) G → kv_fits (allocator c) (hval (tv_h (view c)) n).

(** Removing the evictable leaf [n] with value [v]; [p] is its parent. *)
Record removed c G L (n p : nat) (x px : TreeNode) (v : list Z) (c' : RadixCache A) : Prop := {
  rm_inv : Inv (view c') (delete n G) L;
  rm_live : is_Some (G !! n);
  rm_fit : vals_fit c' (delete n G);
  rm_kv : kv_ok (allocator c');
  rm_alloc : kv_free v (allocator c) = Ok (allocator c');
  rm_cfg : cfg c' = cfg c;
  rm_root : root_node c' = root_node c;
  rm_queue : kv_event_queue c' = kv_event_queue c;
  rm_ev : evictable_size_ c' = (evictable_size_ c - Z.of_nat (length v))%Z;
  rm_pr : protected_size_ c' = protected_size_ c;
  rm_slots : ∀ i, (kv_count (allocator c') i + slot_count (view c') (delete n G) i
                   = kv_count (allocator c) i + slot_count (view c) G i)%Z;
  rm_hpar : ∀ q, hpar (tv_h (view c')) q = hpar (tv_h (view c)) q;
  rm_ne : n ≠ p;
  rm_parent : nodes c' !! p = Some px;
  rm_other : ∀ m, m ≠ p → nodes c' !! m = nodes c !! m;
  rm_inner : p ∉ evictable_leaves c;
  rm_leaves : evictable_leaves c' =
    if decide (children px = ∅ ∧ lock_ref px = 0%Z)
    then {[p]} ∪ (evictable_leaves c ∖ {[n]}) else evictable_leaves c ∖ {[n]};
}.

(** An evictable leaf satisfies the precondition of the deletion. *)
Lemma evictable_del_pre c G L n :
  Inv (view c) G L → n ∈ evictable_leaves c →
  ∃ g x p gp px ck, nodes c !! n = Some x ∧ nodes c !! p = Some px
    ∧ del_pre (view c) G n g (node_core x) p gp (node_core px) ck.
Proof using.
  intros HInv Hn. apply (inv_sizes _ _ _ HInv) in Hn as ([[g Hg] Hr]%elem_of_inner & Hl & x' & Hx' & Hc).
  destruct (to_node (inv_tree _ _ _ HInv) n g) as (x'' & p & gp & px' & Hok); [done..|].
  assert (x'' = x') as -> by (pose proof (no_heap Hok); congruence).
  destruct (view_lookup_inv _ _ _ Hx') as (x & Hx & ->).
  destruct (view_lookup_inv _ _ _ (no_parheap Hok)) as (px & Hpx & ->).
  destruct (no_link Hok) as (ck & Hck & Hlink).
  exists g, x, p, gp, px, ck. split_and!; [done..|].
  constructor; try done. by rewrite (hlock_lookup c n x Hx) in Hl.
Qed.

Lemma evict_step c G L n :
  Inv (view c) G L → n ∈ evictable_leaves c → vals_fit c G → kv_ok (allocator c) →
  ∃ x p px v a c', nodes c !! n = Some x ∧ value x = Some v ∧ parent x = Some p
    ∧ kv_free v (allocator c) = Ok a ∧ delete_leaf n (set_allocator a c) = Ok (tt, c')
    ∧ removed c G L n p x px v c'.
Proof using.
  intros HInv Hn Hfit Hkv. pose proof (inv_tree _ _ _ HInv) as Ht.
  destruct (evictable_del_pre c G L n HInv Hn) as (g & x & p & gp & px & ck & Hx & Hpx & Hdp).
  pose proof Hdp as [Hlive Hinner Hok Hck Hkids Hlock].
  destruct (no_vals Hok) as (v & Hv & Hvlen & _). simpl in Hv, Hvlen.
  assert (hval (tv_h (view c)) n = v) as Hhval
    by (unfold hval; rewrite (view_lookup _ _ _ Hx); simpl; by rewrite Hv).
  destruct (kv_free_ok (allocator c) v) as (a & Hfree & Hkv' & Hcount & Hfits); [done| |].
  { rewrite <-Hhval. apply Hfit, elem_of_inner. eauto. }
  pose proof (del_Inv _ _ _ _ _ _ _ _ _ Ht Hdp L HInv) as HInv'.
  pose proof (del_slots _ _ _ _ _ _ _ _ _ Ht Hdp) as Hslots.
  pose proof (del_ne _ _ _ _ _ _ _ _ _ Ht Hdp) as Hne.
  pose proof (del_inner _ _ _ _ _ _ _ _ _ Ht Hdp) as [Hin _].
  pose proof (del_link _ _ _ _ _ _ _ _ _ Ht Hdp) as Hlink.
  assert (p ∉ evictable_leaves c) as Hpl.
  { intros Hp. apply (inv_sizes _ _ _ HInv) in Hp as (_ & _ & y & Hy & Hc).
    rewrite (view_lookup _ _ _ Hpx) in Hy. simplify_eq. by rewrite Hc in Hlink. }
  assert (wp (delete_leaf n) (λ _ c', removed c G L n p x (set_children (delete ck) px) v c')
    (set_allocator a c)) as (u & c' & Hdel & Hrm)%wp_ok.
  { eapply wp_delete_leaf; [exact HInv|done..|].
    intros c' Hv' [ef_cfg0 ef_root0 ef_alloc0 ef_queue0] Hpr Hnodes. change (view (set_allocator a c)) with (view c) in Hv'.
    simpl in ef_cfg0, ef_root0, ef_alloc0, ef_queue0, Hpr, Hnodes.
    constructor; rewrite ?Hv'; try done.
    - intros m Hm. rewrite ef_alloc0. apply Hfits.
      assert (hval (tv_h (view c')) m = hval (tv_h (view c)) m) as ->.
      { unfold hval. simpl. rewrite Hnodes, !lookup_fmap, lookup_insert.
        case_decide; [subst; by rewrite Hpx|done]. }
      apply Hfit. rewrite Hin. apply elem_of_union_r. by rewrite <-Hv'.
    - by rewrite ef_alloc0.
    - by rewrite ef_alloc0.
    - change (tv_ev (view c') = (evictable_size_ c - Z.of_nat (length v))%Z).
      rewrite Hv'. simpl. by rewrite Hvlen.
    - intros i. rewrite ef_alloc0, Hcount, (Hslots i), Hhval. lia.
    - intros q. by destruct (del_same _ _ _ _ _ _ _ _ _ Ht Hdp q) as (_ & -> & _).
    - rewrite Hnodes. apply lookup_insert_eq.
    - intros m Hm. by rewrite Hnodes, lookup_insert_ne.
    - change (evictable_leaves c') with (tv_leaves (view c')). rewrite Hv'. simpl.
      unfold del_leaves. simpl. case_decide; [done|]. apply difference_disjoint_L.
      apply disjoint_singleton_r. by intros [Hp _]%elem_of_difference. }
  exists x, p, (set_children (delete ck) px), v, a, c'. destruct u. split_and!; try done.
  apply (no_par Hok).
Qed.

(** *** The specification of the loop: a run of removals *)

(** The entry of a leaf in the heap. *)
Definition entry c (n : nat) (it : heap_item) : Prop :=
  ∃ x, nodes c !! n = Some x ∧ it = heap_entry (eviction_strategy (cfg c)) n x.

(** [n] is an evictable leaf, and no other one has a smaller priority. *)
Definition is_victim c (n : nat) : Prop :=
  n ∈ evictable_leaves c ∧
  ∀ m it it', m ∈ evictable_leaves c → entry c n it → entry c m it' → item_lt it' it = false.

(** Removing one victim: its slots [v] go to the allocator. *)
Definition evict_one (n : nat) (v : list Z) c c' : Prop :=
  ∃ x a, nodes c !! n = Some x ∧ value x = Some v
    ∧ kv_free v (allocator c) = Ok a ∧ delete_leaf n (set_allocator a c) = Ok (tt, c').

(** [evict_run want done c vs c']: from [done] freed slots on, victims are
    removed one by one, with slot lists [vs], as long as fewer than [want]
    slots are freed. *)
Inductive evict_run (want : Z) : Z → RadixCache A → list (list Z) → RadixCache A → Prop :=
  | run_stop k c : (want <= k)%Z ∨ evictable_leaves c = ∅ → evict_run want k c [] c
  | run_step k n v c c1 vs c2 :
      (k < want)%Z → is_victim c n → evict_one n v c c1 →
      evict_run want (k + Z.of_nat (length v)) c1 vs c2 → evict_run want k c (v :: vs) c2.

(** The heap holds exactly the entries of the evictable leaves. *)
Record heap_ok c (heap : list heap_item) : Prop := {
  ho_ids : item_id <$> heap ≡ₚ elements (evictable_leaves c);
  ho_entries : Forall (λ it, entry c (item_id it) it) heap;
}.

Lemma heap_ok_pop c heap it rest :
  heap_ok c heap → heappop heap = Some (it, rest) →
  is_victim c (item_id it) ∧ heap ≡ₚ it :: rest.
Proof using.
  intros [Hids Hent] Hpop. pose proof (heappop_spec heap) as Hs. rewrite Hpop in Hs.
  destruct Hs as [Hperm Hmin]. split; [|done]. rewrite Hperm in Hids, Hent.
  apply Forall_cons in Hent as [Hit Hrest].
  assert (∀ m, m ∈ evictable_leaves c → m = item_id it ∨ ∃ it', it' ∈ rest ∧ m = item_id it') as Hin.
  { intros m Hm. apply elem_of_elements in Hm. rewrite <-Hids, fmap_cons, elem_of_cons in Hm.
    destruct Hm as [|(it' & -> & ?)%list_elem_of_fmap]; eauto. }
  split.
  - apply elem_of_elements. rewrite <-Hids. apply elem_of_cons. by left.
  - intros m it1 it2 Hm (x1 & Hx1 & ->) (x2 & Hx2 & ->).
    destruct Hit as (x & Hx & Eit). assert (x1 = x) as -> by congruence. rewrite <-Eit.
    destruct (Hin m Hm) as [->|(it' & Hit' & ->)].
    + assert (x2 = x) as -> by congruence. rewrite <-Eit. apply item_lt_irrefl.
    + rewrite Forall_forall in Hmin, Hrest.
      destruct (Hrest it' Hit') as (y & Hy & Eit'). assert (x2 = y) as -> by congruence.
      rewrite <-Eit'. by apply Hmin.
Qed.

(** After a removal, with the parent pushed if it became a leaf. *)
Lemma heap_ok_removed c G L heap it rest p x px v c' :
  heap_ok c heap → heap ≡ₚ it :: rest → removed c G L (item_id it) p x px v c' →
  heap_ok c' (if bool_decide (children px = ∅) && bool_decide (lock_ref px = 0%Z)
              then heappush rest (heap_entry (eviction_strategy (cfg c)) p px) else rest).
Proof using.
  intros [Hids Hent] Hperm Hrm. rewrite Hperm in Hids, Hent.
  apply Forall_cons in Hent as [Hit Hrest]. rewrite fmap_cons in Hids.
  pose proof (NoDup_elements (evictable_leaves c)) as Hnd. rewrite <-Hids in Hnd.
  apply NoDup_cons in Hnd as [Hnin Hnd].
  assert (item_id <$> rest ≡ₚ elements (evictable_leaves c ∖ {[item_id it]})) as Hrids.
  { apply NoDup_Permutation; [done|apply NoDup_elements|]. intros m.
    rewrite elem_of_elements, elem_of_difference, elem_of_singleton, <-elem_of_elements, <-Hids.
    rewrite elem_of_cons. split; [|tauto]. intros Hm. split; [by right|]. by intros ->. }
  assert (Forall (λ it, entry c' (item_id it) it) rest) as Hent'.
  { rewrite Forall_forall in *. intros i Hi. destruct (Hrest i Hi) as (y & Hy & Ey).
    exists y. rewrite (rm_cfg _ _ _ _ _ _ _ _ _ Hrm). split; [|done].
    rewrite (rm_other _ _ _ _ _ _ _ _ _ Hrm); [done|]. intros Hp.
    apply (rm_inner _ _ _ _ _ _ _ _ _ Hrm). rewrite <-Hp. apply elem_of_elements.
    rewrite <-Hids. apply elem_of_cons. right. apply list_elem_of_fmap. eauto. }
  pose proof (rm_leaves _ _ _ _ _ _ _ _ _ Hrm) as Hlv.
  assert (bool_decide (children px = ∅) && bool_decide (lock_ref px = 0%Z)
    = bool_decide (children px = ∅ ∧ lock_ref px = 0%Z)) as ->
    by (by rewrite bool_decide_and).
  case_decide as Hc; rewrite ?bool_decide_true, ?bool_decide_false by done; split.
  - simpl. rewrite Hlv, elements_union_singleton, Hrids; [done|].
    intros [Hp _]%elem_of_difference. by apply (rm_inner _ _ _ _ _ _ _ _ _ Hrm).
  - constructor; [|done]. exists px. rewrite (rm_cfg _ _ _ _ _ _ _ _ _ Hrm).
    split; [apply (rm_parent _ _ _ _ _ _ _ _ _ Hrm)|done].
  - by rewrite Hlv.
  - done.
Qed.

(** Freeing the lists [vs] one after the other. *)
Fixpoint frees (vs : list (list Z)) (a : A) : result A :=
  match vs with
  | [] => Ok a
  | v :: vs => a ← kv_free v a; frees vs a
  end.

(** What evicting establishes: [vs] are the lists of slots that were freed. *)
Record evict_post c G L (want k : Z) (r : Z) c' (G' : gmap nat gnode) (vs : list (list Z))
    : Prop := {
  ev_inv : Inv (view c') G' L;
  ev_sub : G' ⊆ G;
  ev_run : evict_run want k c vs c';
  ev_result : r = (k + Z.of_nat (length (concat vs)))%Z;
  ev_size : evictable_size_ c' = (evictable_size_ c - Z.of_nat (length (concat vs)))%Z;
  ev_pr : protected_size_ c' = protected_size_ c;
  ev_enough : (want <= r)%Z ∨ evictable_size_ c' = 0%Z;
  ev_slots : ∀ i, (kv_count (allocator c') i + slot_count (view c') G' i
                   = kv_count (allocator c) i + slot_count (view c) G i)%Z;
  ev_alloc : frees vs (allocator c) = Ok (allocator c');
  ev_kv : kv_ok (allocator c');
  ev_fit : vals_fit c' G';
  ev_hpar : ∀ q, hpar (tv_h (view c')) q = hpar (tv_h (view c)) q;
  ev_cfg : cfg c' = cfg c;
  ev_root : root_node c' = root_node c;
  ev_queue : kv_event_queue c' = kv_event_queue c;
}.

Lemma evict_post_stop c G L want k :
  Inv (view c) G L → locks_nonneg L → vals_fit c G → kv_ok (allocator c) →
  (want <= k)%Z ∨ evictable_leaves c = ∅ → evict_post c G L want k k c G [].
Proof using.
  intros HInv HL Hfit Hkv Hstop. constructor; simpl; try done; try lia.
  - by constructor.
  - destruct Hstop as [|Hempty]; [by left|right]. by eapply (no_leaves_no_evictable (view c)).
Qed.

Lemma evict_post_step c G L want k n v c1 p x px r c2 G2 vs :
  (k < want)%Z → is_victim c n → evict_one n v c c1 → removed c G L n p x px v c1 →
  evict_post c1 (delete n G) L want (k + Z.of_nat (length v)) r c2 G2 vs →
  evict_post c G L want k r c2 G2 (v :: vs).
Proof using.
  intros Hk Hvic Hone [] []. constructor; simpl; rewrite ?length_app; try done; try lia; try congruence.
  - etrans; [done|]. apply delete_subseteq.
  - by econstructor.
  - by rewrite rm_alloc0.
  - intros q. by rewrite ev_hpar0.
Qed.

(** Whatever is above a surviving node survives. *)
Lemma evict_upward c G L want k r c' G' vs n g m gm :
  Inv (view c) G L → evict_post c G L want k r c' G' vs →
  G !! n = Some g → is_Some (G' !! n) → G !! m = Some gm → g_path gm `prefix_of` g_path g →
  is_Some (G' !! m).
Proof using.
  intros HInv Hpost Hn. pose proof (inv_tree _ _ _ HInv) as Ht.
  pose proof (inv_tree _ _ _ (ev_inv _ _ _ _ _ _ _ _ _ Hpost)) as Ht'.
  revert n g Hn m gm. apply (tree_ind (view c) G (λ n g, ∀ m gm, is_Some (G' !! n) →
    G !! m = Some gm → g_path gm `prefix_of` g_path g → is_Some (G' !! m)) Ht).
  - intros m gm Hr Hm Hp. apply prefix_nil_inv in Hp. by rewrite (tree_root_path _ _ _ _ Ht Hm Hp).
  - intros n g x p gp px Hn Hroot Hok IH m gm [g' Hn'] Hm Hpre.
    assert (is_Some (G' !! p)) as Hp.
    { destruct (to_node Ht' n g' Hn') as (x' & p' & gp' & px' & Hok').
      { intros E. apply Hroot. rewrite E. exact (ev_root _ _ _ _ _ _ _ _ _ Hpost). }
      assert (Some p' = Some p) as [= ->]; [|rewrite (no_gpar Hok'); eauto].
      pose proof (ev_hpar _ _ _ _ _ _ _ _ _ Hpost n) as Hh. unfold hpar in Hh.
      rewrite (no_heap Hok), (no_heap Hok') in Hh. simpl in Hh.
      by rewrite (no_par Hok), (no_par Hok') in Hh. }
    destruct (decide (length (g_path gm) ≤ length (g_path gp))) as [Hle|Hgt].
    + apply (IH m gm Hp Hm). eapply prefix_le; [done|by eapply node_ok_prefix|done].
    + assert (m = n) as ->; [|eauto].
      eapply (edge_inside (view c) G Ht n g x p gp px m gm); try done; [|lia].
      intros n2 g2 _ Hn2. by apply way_down.
Qed.

Lemma wp_evict_loop fuel c G L want k heap :
  Inv (view c) G L → locks_nonneg L → vals_fit c G → kv_ok (allocator c) →
  enable_kv_cache_events (cfg c) = false → heap_ok c heap → size G < fuel →
  wp (evict_loop fuel want k heap) (λ r c', ∃ G' vs, evict_post c G L want k r c' G' vs) c.
Proof using.
  revert c G k heap. induction fuel as [|fuel IH]; [lia|].
  intros c G k heap HInv HL Hfit Hkv Hoff Hheap Hfuel. simpl.
  case_bool_decide as Hk.
  2: { wp_step. exists G, []. apply evict_post_stop; try done. left. lia. }
  destruct (heappop heap) as [[it rest]|] eqn:Hpop.
  2: { pose proof (heappop_spec heap) as Hs. rewrite Hpop in Hs. subst heap.
    wp_step. exists G, []. apply evict_post_stop; try done. right.
    pose proof (ho_ids _ _ Hheap) as Hids. simpl in Hids. symmetry in Hids.
    apply Permutation_nil_r in Hids. by apply elements_empty_inv in Hids; apply leibniz_equiv. }
  destruct (heap_ok_pop c heap it rest Hheap Hpop) as [Hvic Hperm].
  destruct (evict_step c G L (item_id it) HInv) as (x & p & px & v & a & c1 & Hx & Hv & Hp & Hfree
    & Hdel & Hrm); [apply Hvic|done..|].
  wp_steps. eapply wp_get_node; [done|]. rewrite Hv, Hp. wp_steps.
  eapply (wp_intro _ _ _ tt (set_allocator a c)); [unfold alloc_free; by rewrite Hfree|].
  wp_step. eapply wp_intro; [exact Hdel|]. wp_steps.
  eapply wp_get_node; [apply (rm_parent _ _ _ _ _ _ _ _ _ Hrm)|].
  wp_step. apply wp_remove_event_off; [by rewrite (rm_cfg _ _ _ _ _ _ _ _ _ Hrm)|].
  eapply wp_mono.
  - eapply (IH c1 (delete (item_id it) G)); try apply Hrm; try done.
    + by rewrite (rm_cfg _ _ _ _ _ _ _ _ _ Hrm).
    + by eapply heap_ok_removed.
    + destruct (rm_live _ _ _ _ _ _ _ _ _ Hrm) as [g Hg].
      rewrite map_size_delete, Hg. assert (size G ≠ 0); [|simpl; lia].
      intros E%map_size_empty_inv. by rewrite E in Hg.
  - intros r c2 (G2 & vs & Hpost). exists G2, (v :: vs).
    eapply evict_post_step; try done. by exists x, a.
Qed.

Lemma leaf_entries_ok c G L : Inv (view c) G L → heap_ok c (leaf_entries c).
Proof using.
  intros HInv. unfold leaf_entries. split.
  - assert (∀ l, (∀ n, n ∈ l → is_Some (nodes c !! n)) →
      item_id <$> omap (λ n, heap_entry (eviction_strategy (cfg c)) n <$> nodes c !! n) l = l) as ->;
      [|done|].
    + induction l as [|n l IH]; intros Hl; [done|]. simpl.
      destruct (Hl n) as [x Hx]; [by left|]. rewrite Hx. simpl. f_equal. apply IH.
      intros m Hm. apply Hl. by right.
    + intros n Hn%elem_of_elements. apply (inv_sizes _ _ _ HInv) in Hn as (_ & _ & y & Hy & _).
      destruct (view_lookup_inv _ _ _ Hy) as (x & Hx & _). eauto.
  - apply Forall_forall. intros it (n & Hn & Hit)%list_elem_of_omap.
    apply fmap_Some in Hit as (x & Hx & ->). exists x. done.
Qed.

Lemma wp_evict c G L want :
  Inv (view c) G L → locks_nonneg L → vals_fit c G → kv_ok (allocator c) →
  enable_kv_cache_events (cfg c) = false → disable (cfg c) = false →
  wp (evict want) (λ r c', ∃ G' vs, evict_post c G L want 0 r c' G' vs) c.
Proof using.
  intros HInv HL Hfit Hkv Hoff Hdis. unfold evict. wp_steps. rewrite Hdis. wp_steps.
  apply wp_evict_loop; try done; [by eapply leaf_entries_ok|].
  pose proof (inv_tree _ _ _ HInv) as Ht. apply Nat.lt_succ_r. rewrite <-!size_dom.
  apply subseteq_size. intros n [gn Hn]%elem_of_dom.
  destruct (tree_live _ _ _ _ Ht Hn) as [x Hx].
  destruct (view_lookup_inv _ _ _ Hx) as (y & Hy & _). by apply elem_of_dom.
Qed.

Lemma evict_disabled c want : disable (cfg c) = true → evict want c = Ok (0%Z, c).
Proof using.
  intros Hdis. unfold evict, mbind, ST_bind, st_bind, st_gets. by rewrite Hdis.
Qed.
End evict.
