(* ===== verification/RadixTotal.v ===== *)
(** [reset], [__init__] and [total_size]: a fresh cache satisfies the
    invariant, and the count of a traversal agrees with the two counters. *)
From S2P Require Import Prelude RadixKey TreeNode EvictPolicy RadixCache RadixInv RadixSplit RadixLeaf.
From S2P Require Import RadixLock RadixSpec RadixOps RadixLockOps.
From stdpp Require Import options.

(** The abstract tree with nothing but a root. *)
Definition empty_tree (root : nat) : gmap nat gnode := {[root := MkG [] []]}.
Definition no_locks : nat → Z := λ _, 0%Z.

(** Node objects are numbered by the counter. *)
Definition store_fresh {A} (c : RadixCache A) : Prop :=
  ∀ n, is_Some (nodes c !! n) → n < counter c.

Section reset.
Context `{Env} {A : Type} `{KVAllocator A}.
Implicit Types (c : RadixCache A) (G : gmap nat gnode).

Lemma empty_view_Inv v x :
  1 ≤ tv_ps v → tv_h v !! tv_root v = Some x → c_parent x = None → c_lock x = 1%Z →
  c_value x = Some [] → key_len (c_key x) = 0 → c_children x = ∅ →
  (∀ n, is_Some (tv_h v !! n) → n < tv_next v) →
  tv_ev v = 0%Z → tv_pr v = 0%Z → tv_leaves v = ∅ →
  Inv v (empty_tree (tv_root v)) no_locks.
Proof using.
  intros Hps Hx Hpar Hlock Hval Hkey Hkids Hfresh Hev Hpr Hlv.
  assert (inner v (empty_tree (tv_root v)) = ∅) as Hin
    by (unfold inner, empty_tree; rewrite dom_singleton_L; set_solver).
  unfold empty_tree in *. split; constructor; try done.
  - exists x. done.
  - apply lookup_singleton_eq.
  - intros n g [<- _]%lookup_singleton_Some. done.
  - intros p gp px ck n [<- _]%lookup_singleton_Some Hpx. simplify_eq. by rewrite Hkids.
  - rewrite Hin. set_solver.
  - rewrite Hin. set_solver.
  - by rewrite Hin, gsum_empty.
  - by rewrite Hin, gsum_empty.
  - intros n. unfold is_evictable_leaf. rewrite Hin, Hlv. set_solver.
Qed.

(** [reset] forgets every node: only a new root is live. *)
Lemma wp_reset c :
  1 ≤ page_size (cfg c) → store_fresh c →
  wp reset (λ _ c', Inv (view c') (empty_tree (root_node c')) no_locks
    ∧ evictable_size_ c' = 0%Z ∧ protected_size_ c' = 0%Z ∧ root_node c' = counter c
    ∧ cfg c' = cfg c ∧ allocator c' = allocator c
    ∧ kv_event_queue c' = kv_event_queue c
        ++ (if enable_kv_cache_events (cfg c) then [AllBlocksCleared] else [])) c.
Proof using.
  intros Hps Hfresh. unfold reset. wp_step. apply wp_make_TreeNode.
  intros t1 t2 c1 Hn1 Hf1 Hc1. wp_steps. unfold record_all_cleared_event. wp_steps.
  simpl cfg. rewrite (fr_cfg _ _ Hf1).
  set (c2 := MkCache _ _ _ _ _ _ _ _ _ _).
  assert (∀ q, Inv (view (set_queue q c2)) (empty_tree (root_node c2)) no_locks) as HInv.
  { intros q. apply (empty_view_Inv (view (set_queue q c2))
      (MkCore ∅ None (MkRadixKey [] None false) (Some []) 1)); simpl;
      rewrite ?(fr_cfg _ _ Hf1); try done.
    - rewrite fmap_insert. apply lookup_insert_eq.
    - intros n. rewrite fmap_insert, lookup_insert, Hc1, Hn1. case_decide; [lia|].
      rewrite lookup_fmap, fmap_is_Some. intros Hn%Hfresh. lia. }
  destruct (enable_kv_cache_events (cfg c)); wp_step.
  - split_and!; [apply HInv|..]; simpl; first [done|apply Hf1|by rewrite (fr_queue _ _ Hf1)].
  - split_and!; [apply (HInv id)|..]; simpl;
      first [done|apply Hf1|by rewrite (fr_queue _ _ Hf1), app_nil_r].
Qed.

(** [RadixCache.__init__]: a known policy name gives a usable cache. *)
Lemma init_cache_spec dis ps eagle events dfi policy strat n0 t0 (a : A) :
  1 ≤ ps → strategy_of_policy policy = Ok strat →
  ∃ c, init_cache dis ps eagle events dfi policy n0 t0 a = Ok c
    ∧ Inv (view c) (empty_tree (root_node c)) no_locks
    ∧ cfg c = MkConfig dis ps eagle events dfi strat ∧ allocator c = a
    ∧ evictable_size_ c = 0%Z ∧ protected_size_ c = 0%Z.
Proof using.
  intros Hps Hstrat. unfold init_cache. rewrite Hstrat. cbn [mbind result_bind].
  set (c0 := MkCache _ _ _ _ _ _ _ _ _ _).
  destruct (wp_ok _ _ _ (wp_reset c0 Hps ltac:(intros n [? Hn]; simpl in Hn; by rewrite lookup_empty in Hn)))
    as ([] & c' & -> & ? & ? & ? & ? & ? & ? & ?).
  exists c'. done.
Qed.
End reset.

(** ** [total_size] *)
Section total.
Context `{Env} {A : Type} `{KVAllocator A}.
Context (c : RadixCache A) (G : gmap nat gnode) (Ht : tree_ok (view c) G).

(** The children the traversal pushes. *)
Definition kids (x : TreeNode) : list nat :=
  List.filter (λ m, match nodes c !! m with Some y => negb (evicted y) | None => false end)
    (map snd (map_to_list (children x))).

Lemma elem_of_kids n g x m :
  G !! n = Some g → nodes c !! n = Some x →
  m ∈ kids x ↔ is_Some (G !! m) ∧ hpar (tv_h (view c)) m = Some n.
Proof using Ht.
  intros Hg Hx. pose proof (view_lookup _ _ _ Hx) as Hvx. unfold kids.
  rewrite list_elem_of_In, filter_In, in_map_iff. split.
  - intros [((ck, m') & <- & Hin) _]. apply list_elem_of_In, elem_of_map_to_list in Hin.
    destruct (to_child Ht n g _ ck m' Hg Hvx Hin) as (gm & y & Hgm & Hy & Hpar & _).
    cbn [snd]. split; [eauto|]. unfold hpar. by rewrite Hy.
  - intros [[gm Hgm] Hpar]. unfold hpar in Hpar.
    assert (m ≠ root_node c) as Hroot.
    { intros ->. destruct (to_root Ht) as (xr & Hr & Hp & _). simpl tv_root in Hr.
      rewrite Hr in Hpar. simpl in Hpar. congruence. }
    destruct (to_node Ht m gm) as (y' & p & gp & px & Hok); [done..|].
    rewrite (no_heap Hok) in Hpar. simpl in Hpar.
    assert (p = n) as -> by (pose proof (no_par Hok); congruence).
    assert (px = node_core x) as -> by (pose proof (no_parheap Hok); congruence).
    destruct (no_link Hok) as (ck & _ & Hlink).
    destruct (view_lookup_inv _ _ _ (no_heap Hok)) as (y & Hy & ->).
    destruct (no_vals Hok) as (vv & Hvv & _). split.
    + exists (ck, m). split; [done|]. apply list_elem_of_In. by apply elem_of_map_to_list.
    + rewrite Hy. unfold evicted. simpl in Hvv. by rewrite Hvv.
Qed.

Lemma children_NoDup n g x :
  G !! n = Some g → nodes c !! n = Some x → NoDup (map_to_list (children x)).*2.
Proof using Ht.
  intros Hg Hx. apply NoDup_fmap_2_strong; [|apply NoDup_map_to_list].
  intros [ck1 m1] [ck2 m2] H1 H2 E. simpl in E. subst m2.
  apply elem_of_map_to_list in H1, H2.
  destruct (to_child Ht n g _ ck1 m1 Hg (view_lookup _ _ _ Hx) H1) as (? & y1 & _ & Hy1 & _ & _ & Hck1).
  destruct (to_child Ht n g _ ck2 m1 Hg (view_lookup _ _ _ Hx) H2) as (? & y2 & _ & Hy2 & _ & _ & Hck2).
  congruence.
Qed.

Lemma kids_NoDup n g x : G !! n = Some g → nodes c !! n = Some x → NoDup (kids x).
Proof using Ht.
  intros Hg Hx. unfold kids. pose proof (children_NoDup n g x Hg Hx) as Hnd.
  apply NoDup_ListNoDup in Hnd. apply NoDup_ListNoDup. by apply List.NoDup_filter.
Qed.

(** [R] are the nodes not yet counted: closed under children, and entered
    through the stack. *)
Record pending_nodes (R : gset nat) (stack : list nat) : Prop := {
  pn_live : R ⊆ dom G;
  pn_nodup : NoDup stack;
  pn_stack : ∀ n, n ∈ stack → n ∈ R ∧ ∀ p, hpar (tv_h (view c)) n = Some p → p ∉ R;
  pn_down : ∀ n p, n ∈ dom G → hpar (tv_h (view c)) n = Some p → p ∈ R → n ∈ R;
  pn_up : ∀ n, n ∈ R → n ∈ stack ∨ ∃ p, hpar (tv_h (view c)) n = Some p ∧ p ∈ R;
}.

Lemma pending_empty R : pending_nodes R [] → R = ∅.
Proof using Ht.
  intros [Hlive _ _ _ Hup].
  assert (∀ n g, G !! n = Some g → n ∉ R) as Hno.
  { apply (tree_ind (view c)); [done| |].
    - intros Hn. destruct (Hup _ Hn) as [?%elem_of_nil|(p & Hp & _)]; [done|].
      destruct (to_root Ht) as (xr & Hr & Hpar & _). unfold hpar in Hp. rewrite Hr in Hp.
      simpl in Hp. congruence.
    - intros n g x p gp px Hg Hn Hok IH HnR.
      destruct (Hup _ HnR) as [?%elem_of_nil|(p' & Hp' & HR)]; [done|].
      unfold hpar in Hp'. rewrite (no_heap Hok) in Hp'. simpl in Hp'.
      pose proof (no_par Hok). by simplify_eq. }
  apply set_eq. intros n. split; [|set_solver]. intros Hn.
  pose proof (Hlive _ Hn) as [g Hg]%elem_of_dom. by destruct (Hno n g Hg).
Qed.

Lemma pending_pop R n stack g x :
  pending_nodes R (n :: stack) → G !! n = Some g → nodes c !! n = Some x →
  pending_nodes (R ∖ {[n]}) (kids x ++ stack).
Proof using Ht.
  intros [Hlive Hnd Hst Hdown Hup] Hg Hx. apply NoDup_cons in Hnd as [Hn Hnd].
  assert (hpar (tv_h (view c)) n ≠ Some n) as Hself.
  { intros Hp. destruct (Hst n) as [HnR Hpn]; [by left|]. by apply (Hpn n). }
  destruct (Hst n) as [HnR Hparn]; [by left|].
  constructor.
  - set_solver.
  - apply NoDup_app. split_and!; [by eapply kids_NoDup| |done].
    intros m [_ Hm]%(elem_of_kids n g x m Hg Hx) Hms.
    destruct (Hst m) as [_ Hpm]; [by right|]. by apply (Hpm n).
  - intros m [Hm|Hm]%elem_of_app.
    + apply (elem_of_kids n g x m Hg Hx) in Hm as [[gm Hgm] Hpar].
      assert (m ∈ R) by (apply (Hdown m n); [by apply elem_of_dom|done..]).
      assert (m ≠ n) by (intros ->; done).
      split; [set_solver|]. intros p Hp. assert (p = n) as -> by congruence. set_solver.
    + destruct (Hst m) as [HmR Hpm]; [by right|]. assert (m ≠ n) by (intros ->; done).
      split; [set_solver|]. intros p Hp. pose proof (Hpm p Hp). set_solver.
  - intros m p Hm Hp HpR. assert (p ∈ R) by set_solver.
    assert (m ∈ R) by (by apply (Hdown m p)).
    assert (m ≠ n) by (intros ->; by apply (Hparn p)). set_solver.
  - intros m Hm. assert (m ∈ R ∧ m ≠ n) as [HmR Hmn] by set_solver.
    destruct (Hup m HmR) as [Hms|(p & Hp & HpR)].
    + left. apply elem_of_app. right. apply elem_of_cons in Hms as [|]; done.
    + destruct (decide (p = n)) as [->|Hpn].
      * left. apply elem_of_app. left. apply (elem_of_kids n g x m Hg Hx).
        split; [by apply elem_of_dom, Hlive|done].
      * right. exists p. split; [done|set_solver].
Qed.

Lemma total_size_loop_spec fuel R stack total :
  pending_nodes R stack → size R < fuel →
  total_size_loop fuel c stack total = Ok (total + gsum (hlen (tv_h (view c))) R)%Z.
Proof using Ht.
  revert R stack total. induction fuel as [|fuel IH]; intros R stack total HR Hfuel; [lia|].
  destruct stack as [|n stack]; cbn [total_size_loop].
  { rewrite (pending_empty R HR), gsum_empty. f_equal. lia. }
  destruct (pn_stack _ _ HR n) as [HnR _]; [by left|].
  pose proof (pn_live _ _ HR _ HnR) as [g Hg]%elem_of_dom.
  destruct (tree_live _ _ _ _ Ht Hg) as [x' Hx'].
  destruct (view_lookup_inv _ _ _ Hx') as (x & Hx & ->). rewrite Hx. cbn [unwrap mbind result_bind].
  destruct (tree_values _ _ _ _ _ Ht Hg Hx') as [v Hv]. simpl in Hv. rewrite Hv.
  cbn [unwrap mbind result_bind].
  fold (kids x). rewrite (IH (R ∖ {[n]})).
  - rewrite (gsum_delete _ n R) by done. f_equal.
    assert (hlen (tv_h (view c)) n = Z.of_nat (length v)) as ->; [|lia].
    unfold hlen. rewrite Hx'. f_equal.
    destruct (decide (n = root_node c)) as [->|Hn].
    + destruct (to_root Ht) as (xr & Hr & _ & _ & Hvr & Hkr). simpl tv_root in Hr.
      simplify_eq. simpl in Hvr, Hkr. simpl. simplify_eq. done.
    + destruct (to_node Ht n g) as (y & p & gp & px & Hok); [done..|].
      destruct (no_vals Hok) as (vv & Hvv & Hlen & _). pose proof (no_heap Hok).
      simplify_eq. simpl in Hvv. simplify_eq. done.
  - by eapply pending_pop.
  - assert (size R = S (size (R ∖ {[n]}))); [|lia].
    rewrite size_difference by set_solver. rewrite size_singleton.
    assert (size R ≠ 0); [|lia]. intros E%size_empty_inv. set_solver.
Qed.

Lemma total_size_spec L :
  Inv (view c) G L → total_size c = Ok (evictable_size_ c + protected_size_ c)%Z.
Proof using Ht.
  intros HInv. unfold total_size. rewrite (total_size_loop_spec _ (dom G)).
  - f_equal. destruct (inv_sizes _ _ _ HInv) as [Hev Hpr _]. simpl in Hev, Hpr.
    rewrite Hev, Hpr. pose proof (to_groot Ht) as Hroot.
    rewrite (gsum_delete _ (root_node c) (dom G)) by (apply elem_of_dom; eauto).
    assert (hlen (tv_h (view c)) (root_node c) = 0%Z) as ->.
    { destruct (to_root Ht) as (xr & Hr & _ & _ & _ & Hk). unfold hlen.
      change (root_node c) with (tv_root (view c)). by rewrite Hr, Hk. }
    fold (inner (view c) G).
    assert (∀ X, gsum (hlen (tv_h (view c))) X
      = (gsum (ev_weight (tv_h (view c))) X + gsum (pr_weight (tv_h (view c))) X)%Z) as Hsum.
    { intros X. unfold gsum. induction (elements X) as [|y l IH]; [done|].
      simpl in *. unfold ev_weight, pr_weight, ev_w, pr_w in *. case_decide; lia. }
    exact (Hsum (inner (view c) G)).
  - pose proof (to_groot Ht) as Hroot.
    assert (hpar (tv_h (view c)) (root_node c) = None) as Hpr.
    { destruct (to_root Ht) as (xr & Hr & Hp & _). unfold hpar.
      change (root_node c) with (tv_root (view c)). by rewrite Hr. }
    constructor.
    + done.
    + apply NoDup_singleton.
    + intros n ->%list_elem_of_singleton. split; [apply elem_of_dom; eauto|].
      intros p. rewrite Hpr. done.
    + done.
    + intros n [g Hg]%elem_of_dom. destruct (decide (n = root_node c)) as [->|Hn]; [left; by left|].
      right. destruct (to_node Ht n g) as (x & p & gp & px & Hok); [done..|]. exists p.
      split; [|apply elem_of_dom; rewrite (no_gpar Hok); eauto].
      unfold hpar. rewrite (no_heap Hok). apply (no_par Hok).
  - apply Nat.lt_succ_r. rewrite <-!size_dom.
    apply subseteq_size. intros n [g Hg]%elem_of_dom.
    destruct (tree_live _ _ _ _ Ht Hg) as [x Hx].
    destruct (view_lookup_inv _ _ _ Hx) as (y & Hy & _). by apply elem_of_dom.
Qed.
End total.
