(* ===== verification/Allocator.v ===== *)
(** KV slot allocators: mem_cache/allocator.py ([BaseTokenToKVPoolAllocator],
    [TokenToKVPoolAllocator], [PagedTokenToKVPoolAllocator]) and
    [get_num_new_pages], [ceil_div], [ceil_align], [next_power_of_2] of
    srt/utils/common.py.

    Index tensors are lists of [Z]; a page [q] of size [ps] is the slots
    [q * ps .. q * ps + ps - 1].  The paged [alloc_extend] and [alloc_decode]
    take the kernel that fills the output as the definitions of AllocKernel. *)
From S2P Require Import Prelude RadixCache.
From Stdlib Require Import Sorting.Mergesort Orders.
From stdpp Require Import options.

(** ** Integer helpers (srt/utils/common.py) *)

Definition ceil_div (x y : Z) : Z := ((x + y - 1) / y)%Z.
Definition ceil_align (x y : Z) : Z := (ceil_div x y * y)%Z.

(** [1 << (n - 1).bit_length() if n > 0 else 1] *)
Definition bit_length (n : Z) : Z := if decide (n = 0%Z) then 0%Z else (Z.log2 (Z.abs n) + 1)%Z.
Definition next_power_of_2 (n : Z) : Z :=
  if decide (0 < n)%Z then Z.shiftl 1 (bit_length (n - 1)) else 1%Z.

(** [torch.sum] *)
Definition zsum (l : list Z) : Z := foldr Z.add 0%Z l.

(** [get_num_new_pages] *)
Definition get_num_new_pages (seq_lens : list Z) (page_size : Z) (prefix_lens : option (list Z))
    (decode : bool) : result Z :=
  match prefix_lens, decode with
  | _, true =>
      Ok (zsum ((λ s, if decide (s `mod` page_size = 1)%Z then 1%Z else 0%Z) <$> seq_lens))
  | None, false => Raise AssertionError
  | Some prefix_lens, false =>
      let num_pages_after := (λ s, (s + page_size - 1) / page_size)%Z <$> seq_lens in
      let num_pages_before := (λ p, (p + page_size - 1) / page_size)%Z <$> prefix_lens in
      Ok (zsum (zip_with Z.sub num_pages_after num_pages_before))
  end.

(** ** The state *)

Record KVPool := MkPool {
  pool_size : Z;
  pool_ps : Z;
  need_sort : bool;
  debug_mode : bool;
  free_pages : list Z;
  release_pages : list Z;
  is_not_in_free_group : bool;
  free_group : list (list Z);
}.

Definition set_free (f r : list Z) (a : KVPool) : KVPool :=
  MkPool (pool_size a) (pool_ps a) (need_sort a) (debug_mode a) f r
    (is_not_in_free_group a) (free_group a).
Definition set_group (b : bool) (g : list (list Z)) (a : KVPool) : KVPool :=
  MkPool (pool_size a) (pool_ps a) (need_sort a) (debug_mode a) (free_pages a) (release_pages a)
    b g.

(** [torch.sort] on index tensors. *)
Module ZOrder <: TotalLeBool.
Definition t := Z.
Definition leb := Z.leb.
Theorem leb_total : ∀ x y, leb x y = true ∨ leb y x = true.
Proof. intros x y. unfold leb. rewrite !Z.leb_le. lia. Qed.
End ZOrder.
Module ZSort := Sort ZOrder.

(** [torch.arange(a, a + n)] *)
Definition arange (a : Z) (n : nat) : list Z := seqZ a (Z.of_nat n).

(** ** BaseTokenToKVPoolAllocator *)
Module Base.
Definition available_size (a : KVPool) : Z :=
  ((Z.of_nat (length (free_pages a)) + Z.of_nat (length (release_pages a))) * pool_ps a)%Z.

Definition backup_state (a : KVPool) : list Z * list Z := (free_pages a, release_pages a).
Definition restore_state (st : list Z * list Z) (a : KVPool) : KVPool := set_free st.1 st.2 a.

Definition free_group_begin (a : KVPool) : KVPool := set_group false [] a.

(** [free] is the method of the subclass. *)
Definition free_group_end (free : list Z → KVPool → result KVPool) (a : KVPool) : result KVPool :=
  let a := set_group true (free_group a) a in
  match free_group a with
  | [] => Ok a
  | g => free (concat g) a
  end.

Definition merge_and_sort_free (a : KVPool) : KVPool :=
  if decide (0 < length (release_pages a)) then
    set_free (ZSort.sort (free_pages a ++ release_pages a)) [] a
  else a.
End Base.

(** ** TokenToKVPoolAllocator *)
Module Token.
(** [clear]: slot 0 is kept for the outputs of padded tokens. *)
Definition clear (a : KVPool) : KVPool :=
  MkPool (pool_size a) (pool_ps a) (need_sort a) (debug_mode a)
    (arange 1 (Z.to_nat (pool_size a))) [] true [].

Definition init (size : Z) (need_sort : bool) : KVPool :=
  clear (MkPool size 1 need_sort false [] [] true []).

Definition available_size (a : KVPool) : Z :=
  (Z.of_nat (length (free_pages a)) + Z.of_nat (length (release_pages a)))%Z.

Definition alloc (need_size : nat) (a : KVPool) : option (list Z) * KVPool :=
  let a := if need_sort a && bool_decide (length (free_pages a) < need_size)
           then Base.merge_and_sort_free a else a in
  if decide (length (free_pages a) < need_size) then (None, a)
  else (Some (take need_size (free_pages a)),
        set_free (drop need_size (free_pages a)) (release_pages a) a).

Definition free (free_index : list Z) (a : KVPool) : KVPool :=
  match free_index with
  | [] => a
  | _ =>
      if is_not_in_free_group a then
        if need_sort a then set_free (free_pages a) (release_pages a ++ free_index) a
        else set_free (free_pages a ++ free_index) (release_pages a) a
      else set_group (is_not_in_free_group a) (free_group a ++ [free_index]) a
  end.

Definition free_group_end (a : KVPool) : result KVPool :=
  Base.free_group_end (λ l a, Ok (free l a)) a.
End Token.

(** The cache's allocator with pages of one slot. *)
#[global] Instance Token_KVAllocator : KVAllocator KVPool := {|
  kv_free l a := Ok (Token.free l a);
  kv_available_size := Token.available_size;
|}.

(** ** PagedTokenToKVPoolAllocator *)
Module Paged.
Definition num_pages (a : KVPool) : Z := (pool_size a / pool_ps a)%Z.

Definition clear (a : KVPool) : KVPool :=
  MkPool (pool_size a) (pool_ps a) (need_sort a) (debug_mode a)
    (arange 1 (Z.to_nat (num_pages a))) [] true [].

Definition init (size page_size : Z) (need_sort debug_mode : bool) : KVPool :=
  clear (MkPool size page_size need_sort debug_mode [] [] true []).

(** [(out_pages[:, None] * page_size + arange(page_size)).reshape(-1)] *)
Definition page_slots (ps : Z) (q : Z) : list Z := (λ o, q * ps + o)%Z <$> arange 0 (Z.to_nat ps).
Definition pages_slots (ps : Z) (pages : list Z) : list Z := concat (page_slots ps <$> pages).

Definition alloc (need_size : Z) (a : KVPool) : result (option (list Z) * KVPool) :=
  _ ← (if debug_mode a then py_assert (bool_decide (need_size `mod` pool_ps a = 0)%Z) else Ok tt);
  let num_pages := Z.to_nat (need_size / pool_ps a) in
  let a := if need_sort a && bool_decide (length (free_pages a) < num_pages)
           then Base.merge_and_sort_free a else a in
  if decide (length (free_pages a) < num_pages) then Ok (None, a)
  else
    let out_pages := take num_pages (free_pages a) in
    Ok (Some (pages_slots (pool_ps a) out_pages),
        set_free (drop num_pages (free_pages a)) (release_pages a) a).

(** [torch.unique] sorts and removes duplicates. *)
Definition unique (l : list Z) : list Z := ZSort.sort (remove_dups l).

Definition free (free_index : list Z) (a : KVPool) : result KVPool :=
  match free_index with
  | [] => Ok a
  | _ =>
      let a :=
        if is_not_in_free_group a then
          let free_page_indices := unique ((λ i, i / pool_ps a)%Z <$> free_index) in
          if need_sort a then set_free (free_pages a) (free_page_indices ++ release_pages a) a
          else set_free (free_page_indices ++ free_pages a) (release_pages a) a
        else set_group (is_not_in_free_group a) (free_group a ++ [free_index]) a in
      _ ← (if debug_mode a
           then py_assert (bool_decide (length (unique (free_pages a)) = length (free_pages a)))
           else Ok tt);
      Ok a
  end.

Definition free_group_end (a : KVPool) : result KVPool := Base.free_group_end free a.
End Paged.

(** ** Lemmas: the integer helpers *)

Lemma ceil_div_spec x y : (0 < y)%Z → (x <= ceil_div x y * y < x + y)%Z.
Proof.
  intros Hy. unfold ceil_div.
  pose proof (Z.div_mod (x + y - 1) y). pose proof (Z.mod_pos_bound (x + y - 1) y). lia.
Qed.

Lemma ceil_align_spec x y :
  (0 < y)%Z → (x <= ceil_align x y < x + y)%Z ∧ (ceil_align x y `mod` y = 0)%Z.
Proof.
  intros Hy. unfold ceil_align. split; [by apply ceil_div_spec|apply Z.mod_mul; lia].
Qed.

Lemma next_power_of_2_spec n :
  (0 < n)%Z → ∃ k, (0 <= k)%Z ∧ next_power_of_2 n = (2 ^ k)%Z
    ∧ (n <= next_power_of_2 n < 2 * n)%Z.
Proof.
  intros Hn. unfold next_power_of_2, bit_length. rewrite decide_True by done. case_decide as H0.
  - exists 0%Z. rewrite Z.shiftl_0_r. assert (n = 1%Z) as -> by lia. lia.
  - rewrite Z.abs_eq by lia. pose proof (Z.log2_spec (n - 1)). pose proof (Z.log2_nonneg (n - 1)).
    exists (Z.log2 (n - 1) + 1)%Z. rewrite Z.shiftl_mul_pow2, Z.mul_1_l by lia.
    split; [lia|]. split; [done|]. rewrite Z.pow_succ_r in * by lia.
    replace (Z.log2 (n - 1) + 1)%Z with (Z.succ (Z.log2 (n - 1))) by lia.
    rewrite Z.pow_succ_r by lia. lia.
Qed.

Lemma next_power_of_2_ge n : (n <= next_power_of_2 n)%Z.
Proof.
  destruct (decide (0 < n)%Z) as [Hn|Hn].
  - destruct (next_power_of_2_spec n Hn) as (? & _ & _ & ?). lia.
  - unfold next_power_of_2. rewrite decide_False by done. lia.
Qed.

Lemma zsum_app l1 l2 : zsum (l1 ++ l2) = (zsum l1 + zsum l2)%Z.
Proof. unfold zsum. induction l1 as [|x l1 IH]; simpl; lia. Qed.

(** For decoding the page count is the general one with [prefix = seq - 1], as
    long as pages have at least two slots. *)
Lemma decode_new_page s ps :
  (2 <= ps)%Z →
  ((s + ps - 1) / ps - (s - 1 + ps - 1) / ps)%Z = if decide (s `mod` ps = 1)%Z then 1%Z else 0%Z.
Proof.
  intros Hps.
  pose proof (Z.div_mod (s + ps - 1) ps ltac:(lia)). pose proof (Z.mod_pos_bound (s + ps - 1) ps ltac:(lia)).
  pose proof (Z.div_mod (s - 1 + ps - 1) ps ltac:(lia)).
  pose proof (Z.mod_pos_bound (s - 1 + ps - 1) ps ltac:(lia)).
  pose proof (Z.div_mod s ps ltac:(lia)). pose proof (Z.mod_pos_bound s ps ltac:(lia)).
  set (a := ((s + ps - 1) / ps)%Z) in *. set (b := ((s - 1 + ps - 1) / ps)%Z) in *.
  set (d := (s / ps)%Z) in *.
  case_decide as Hm.
  - assert (a = d + 1)%Z by nia. assert (b = d)%Z by nia. lia.
  - destruct (decide (s `mod` ps = 0)%Z).
    + assert (a = d)%Z by nia. assert (b = d)%Z by nia. lia.
    + assert (a = d + 1)%Z by nia. assert (b = d + 1)%Z by nia. lia.
Qed.

(** ** Lemmas: the base class *)

Lemma sort_perm l : ZSort.sort l ≡ₚ l.
Proof. symmetry. apply ZSort.Permuted_sort. Qed.

(** All pages the pool holds, free or waiting to be merged. *)
Definition held (a : KVPool) : list Z := free_pages a ++ release_pages a.

Lemma merge_spec a :
  held (Base.merge_and_sort_free a) ≡ₚ held a ∧
  pool_ps (Base.merge_and_sort_free a) = pool_ps a ∧
  need_sort (Base.merge_and_sort_free a) = need_sort a ∧
  is_not_in_free_group (Base.merge_and_sort_free a) = is_not_in_free_group a ∧
  free_group (Base.merge_and_sort_free a) = free_group a ∧
  debug_mode (Base.merge_and_sort_free a) = debug_mode a ∧
  free_pages (Base.merge_and_sort_free a) ≡ₚ held a.
Proof.
  unfold held, Base.merge_and_sort_free. case_decide as Hr; simpl.
  - rewrite app_nil_r. split_and!; try done; apply sort_perm.
  - destruct (release_pages a); [|simpl in Hr; lia]. rewrite app_nil_r. done.
Qed.

(** The pool an allocation of [n] pages looks at: merged first if it has to be. *)
Definition before_alloc (n : nat) (a : KVPool) : KVPool :=
  if need_sort a && bool_decide (length (free_pages a) < n) then Base.merge_and_sort_free a else a.

Lemma before_alloc_spec n a :
  held (before_alloc n a) ≡ₚ held a ∧ pool_ps (before_alloc n a) = pool_ps a ∧
  need_sort (before_alloc n a) = need_sort a ∧
  is_not_in_free_group (before_alloc n a) = is_not_in_free_group a ∧
  free_group (before_alloc n a) = free_group a ∧
  debug_mode (before_alloc n a) = debug_mode a ∧
  (need_sort a = true → length (free_pages (before_alloc n a)) < n →
   length (free_pages (before_alloc n a)) = length (held a)).
Proof.
  unfold before_alloc. destruct (need_sort a) eqn:Hs; simpl; [|done].
  case_bool_decide as Hn; [|split_and!; try done; lia].
  destruct (merge_spec a) as (?&?&?&?&?&?&Hf). split_and!; try done; [congruence|].
  intros _ _. by rewrite Hf.
Qed.

(** ** Lemmas: TokenToKVPoolAllocator *)

(** The lists waiting for the end of the free group.  After the group the old
    list stays in the attribute, but is not pending any more. *)
Definition pending (a : KVPool) : list Z :=
  if is_not_in_free_group a then [] else concat (free_group a).

(** Without sorting nothing is ever put aside. *)
Definition pool_wf (a : KVPool) : Prop := need_sort a = false → release_pages a = [].

Definition token_count (a : KVPool) (i : Z) : Z := occ i (held a ++ pending a).

Lemma token_free_count l a i :
  token_count (Token.free l a) i = (token_count a i + occ i l)%Z.
Proof.
  unfold token_count, held, pending, Token.free. destruct l as [|x l]; [rewrite occ_nil; lia|].
  destruct (is_not_in_free_group a) eqn:Hg; [destruct (need_sort a)|]; simpl; rewrite ?Hg;
    rewrite ?concat_app, ?app_nil_r; autorewrite with occ; simpl; rewrite ?app_nil_r; lia.
Qed.

Lemma token_free_flag l a : is_not_in_free_group (Token.free l a) = is_not_in_free_group a.
Proof.
  unfold Token.free. destruct l; [done|].
  destruct (is_not_in_free_group a) eqn:E; [destruct (need_sort a)|]; done.
Qed.

Lemma token_free_wf l a : pool_wf a → pool_wf (Token.free l a).
Proof.
  unfold pool_wf, Token.free. intros Ha. destruct l as [|x l]; [done|].
  destruct (is_not_in_free_group a); [|done]. destruct (need_sort a) eqn:Hs; simpl; [congruence|].
  auto.
Qed.

#[global] Instance Token_Laws : KVAllocatorLaws KVPool.
Proof.
  refine {| kv_ok := pool_wf; kv_fits _ _ := True; kv_count := token_count; kv_open := is_not_in_free_group; kv_gives _ l := l |}; [done|].
  intros a l Ha. exists (Token.free l a).
  split_and!; [done|by apply token_free_wf|intros; apply token_free_count|done|apply token_free_flag|done].
Defined.

(** [alloc] takes [n] slots out of the pool, or fails and keeps them all. *)
Lemma token_alloc_spec n a :
  pool_wf a →
  match Token.alloc n a with
  | (Some out, a') =>
      length out = n ∧ held a ≡ₚ out ++ held a' ∧ pending a' = pending a ∧ pool_wf a'
      ∧ (Token.available_size a' = Token.available_size a - Z.of_nat n)%Z
  | (None, a') =>
      (Token.available_size a < Z.of_nat n)%Z ∧ held a' ≡ₚ held a ∧ pending a' = pending a
      ∧ pool_wf a' ∧ Token.available_size a' = Token.available_size a
  end.
Proof.
  intros Hwf. unfold Token.alloc.
  change (if need_sort a && _ then Base.merge_and_sort_free a else a) with (before_alloc n a).
  destruct (before_alloc_spec n a) as (Hheld & Hps & Hns & Hng & Hfg & Hdb & Hsort).
  assert (pending (before_alloc n a) = pending a) as Hpend by (unfold pending; by rewrite Hng, Hfg).
  assert (pool_wf (before_alloc n a)) as Hwf'.
  { unfold pool_wf in *. rewrite Hns. intros E. specialize (Hwf E). unfold before_alloc.
    by rewrite E. }
  assert (∀ b, Token.available_size b = Z.of_nat (length (held b))) as Hav
    by (intros b; unfold Token.available_size, held; rewrite length_app; lia).
  set (b := before_alloc n a) in *. case_decide as Hn.
  - rewrite !Hav, Hheld. split_and!; try done.
    destruct (need_sort a) eqn:Hs; [rewrite Hsort in Hn; [lia|done|done]|].
    unfold held in *. rewrite Hwf' in Hheld by done. rewrite app_nil_r in Hheld.
    rewrite <-Hheld. lia.
  - assert (held a ≡ₚ take n (free_pages b) ++ drop n (free_pages b) ++ release_pages b) as Hsplit.
    { rewrite <-Hheld. unfold held. by rewrite app_assoc, take_drop. }
    split_and!; [rewrite length_take; lia|done|done|done|].
    rewrite !Hav, Hsplit. unfold held. simpl. rewrite !length_app, length_take. lia.
Qed.

(** Freeing what was allocated gives the pool its slots back. *)
Lemma token_alloc_free n a out a' :
  pool_wf a → Token.alloc n a = (Some out, a') →
  ∀ i, token_count (Token.free out a') i = token_count a i.
Proof.
  intros Hwf Halloc i. pose proof (token_alloc_spec n a Hwf) as Hs. rewrite Halloc in Hs.
  destruct Hs as (_ & Hheld & Hpend & _). rewrite token_free_count. unfold token_count.
  rewrite Hpend. autorewrite with occ. rewrite (occ_perm i (held a) _ Hheld).
  autorewrite with occ. lia.
Qed.

(** Frees inside a group take effect at its end, all at once. *)
Lemma token_group_end a :
  is_not_in_free_group a = false →
  ∃ a', Token.free_group_end a = Ok a' ∧ is_not_in_free_group a' = true
    ∧ (∀ i, token_count a' i = token_count a i).
Proof.
  intros Hg. unfold Token.free_group_end, Base.free_group_end. simpl.
  assert (∀ i, token_count (set_group true (free_group a) a) i = occ i (held a)) as Hc.
  { intros i. unfold token_count, held, pending. simpl. by rewrite app_nil_r. }
  destruct (free_group a) as [|x g] eqn:Hfg.
  - eexists. split; [done|]. split; [done|]. intros i. rewrite Hc. unfold token_count, pending.
    rewrite Hg, Hfg. simpl. by rewrite app_nil_r.
  - eexists. split; [done|]. split.
    { apply token_free_flag. }
    intros i. rewrite token_free_count, Hc. unfold token_count, pending.
    rewrite Hg, Hfg. simpl. autorewrite with occ. lia.
Qed.

(** A cleared pool holds the slots [1 .. size] once each: slot 0 is never handed out. *)
Lemma token_init_count size ns i :
  token_count (Token.init size ns) i = if decide (1 <= i <= size)%Z then 1%Z else 0%Z.
Proof.
  unfold token_count, held, pending, Token.init, Token.clear. simpl. rewrite !app_nil_r.
  rewrite occ_NoDup by apply NoDup_seqZ. unfold arange.
  repeat case_decide; try done; exfalso; rewrite elem_of_seqZ in *; lia.
Qed.

(** ** Lemmas: PagedTokenToKVPoolAllocator *)

Lemma unique_elem x l : x ∈ Paged.unique l ↔ x ∈ l.
Proof. unfold Paged.unique. by rewrite sort_perm, elem_of_remove_dups. Qed.
Lemma unique_NoDup l : NoDup (Paged.unique l).
Proof. unfold Paged.unique. rewrite sort_perm. apply NoDup_remove_dups. Qed.

(** A list of slots that covers every page it touches, exactly once. *)
Definition whole_pages (ps : Z) (l : list Z) : Prop :=
  ∀ i, occ i l = if decide ((i / ps)%Z ∈ ((λ j, j / ps)%Z <$> l)) then 1%Z else 0%Z.

Lemma page_slots_occ ps q i :
  (0 < ps)%Z → occ i (Paged.page_slots ps q) = if decide (q = i / ps)%Z then 1%Z else 0%Z.
Proof.
  intros Hps. unfold Paged.page_slots.
  assert (i ∈ ((λ o, q * ps + o)%Z <$> arange 0 (Z.to_nat ps)) ↔ q = (i / ps)%Z) as Hin.
  { rewrite list_elem_of_fmap. unfold arange. setoid_rewrite elem_of_seqZ.
    rewrite Z2Nat.id by lia. split.
    - intros (o & -> & Ho). rewrite Z.add_comm, Z.div_add by lia. rewrite Z.div_small by lia. lia.
    - intros ->. exists (i `mod` ps)%Z. pose proof (Z.mod_pos_bound i ps Hps).
      pose proof (Z.div_mod i ps). lia. }
  rewrite occ_NoDup; [by repeat case_decide; tauto|].
  apply NoDup_fmap_2; [intros x y; lia|apply NoDup_seqZ].
Qed.

(** A slot occurs in a list of pages as often as its page does. *)
Lemma pages_slots_occ ps pages i :
  (0 < ps)%Z → occ i (Paged.pages_slots ps pages) = occ (i / ps)%Z pages.
Proof.
  intros Hps. unfold Paged.pages_slots. induction pages as [|q pages IH]; [done|].
  rewrite fmap_cons. cbn [concat]. rewrite occ_app, occ_cons, page_slots_occ, IH by done. done.
Qed.

Lemma pages_slots_length ps pages :
  (0 <= ps)%Z → length (Paged.pages_slots ps pages) = length pages * Z.to_nat ps.
Proof.
  intros Hps. unfold Paged.pages_slots. induction pages as [|q pages IH]; [done|].
  rewrite fmap_cons. cbn [concat length]. rewrite length_app, IH. unfold Paged.page_slots, arange. rewrite length_fmap, length_seqZ. lia.
Qed.

Lemma occ_pos i l : (0 < occ i l)%Z ↔ i ∈ l.
Proof.
  split.
  - intros Hpos. destruct (decide (i ∈ l)); [done|]. rewrite occ_notin in Hpos by done. lia.
  - induction l as [|x l IH]; [by intros ?%elem_of_nil|]. rewrite occ_cons.
    pose proof (occ_nonneg i l). intros [->|Hi]%elem_of_cons; [rewrite decide_True by done; lia|].
    specialize (IH Hi). case_decide; lia.
Qed.

(** Distinct pages make a list the allocator can take back. *)
Lemma pages_slots_whole ps pages :
  (0 < ps)%Z → NoDup pages → whole_pages ps (Paged.pages_slots ps pages).
Proof.
  intros Hps Hnd i. rewrite pages_slots_occ, occ_NoDup by done.
  assert ((i / ps)%Z ∈ ((λ j, j / ps)%Z <$> Paged.pages_slots ps pages) ↔ (i / ps)%Z ∈ pages) as Hiff.
  { rewrite list_elem_of_fmap. split.
    - intros (j & Hj & Hin). rewrite Hj. apply occ_pos in Hin.
      rewrite pages_slots_occ in Hin by done. by apply occ_pos.
    - intros Hin. exists i. split; [done|]. apply occ_pos. rewrite pages_slots_occ by done.
      by apply occ_pos. }
  repeat case_decide; tauto.
Qed.

(** How often the pool holds slot [i]. *)
Definition paged_count (a : KVPool) (i : Z) : Z :=
  (occ (i / pool_ps a) (held a) + occ i (pending a))%Z.

(** What freeing [l] adds to the pool: the pages of [l] in whole, or, while frees are
    collected, the slots of [l]. *)
Definition paged_gives (a : KVPool) (l : list Z) : list Z :=
  if is_not_in_free_group a then Paged.pages_slots (pool_ps a) (Paged.unique ((λ j, j / pool_ps a)%Z <$> l)) else l.

Lemma paged_gives_whole a l i :
  (0 < pool_ps a)%Z → whole_pages (pool_ps a) l → occ i (paged_gives a l) = occ i l.
Proof.
  intros Hps Hwhole. unfold paged_gives. destruct (is_not_in_free_group a); [|done].
  rewrite pages_slots_occ, occ_NoDup by (done || apply unique_NoDup). rewrite Hwhole.
  pose proof (unique_elem (i / pool_ps a)%Z ((λ j, j / pool_ps a)%Z <$> l)). repeat case_decide; tauto.
Qed.

Lemma paged_free_count l a :
  (0 < pool_ps a)%Z → debug_mode a = false →
  ∃ a', Paged.free l a = Ok a' ∧ pool_ps a' = pool_ps a ∧ debug_mode a' = false
    ∧ need_sort a' = need_sort a ∧ is_not_in_free_group a' = is_not_in_free_group a
    ∧ (∀ i, paged_count a' i = (paged_count a i + occ i (paged_gives a l))%Z).
Proof.
  intros Hps Hdb. unfold Paged.free, paged_gives. destruct l as [|x l]; [exists a|].
  { split_and!; try done. intros i. destruct (is_not_in_free_group a); rewrite ?pages_slots_occ by done; rewrite ?occ_nil; simpl; lia. }
  set (l' := x :: l) in *. clearbody l'. unfold paged_count, held, pending.
  destruct (is_not_in_free_group a) eqn:Hg; [destruct (need_sort a) eqn:Hs|]; simpl; rewrite Hdb;
    (eexists; split_and!; [done..|]); intros i; simpl; rewrite ?Hg; rewrite ?concat_app; autorewrite with occ;
    rewrite ?pages_slots_occ by done; simpl; rewrite ?app_nil_r; lia.
Qed.

(** In debug mode freeing a page that is already free is caught. *)
Lemma paged_double_free l a i :
  debug_mode a = true → is_not_in_free_group a = true → need_sort a = false →
  i ∈ l → (i / pool_ps a)%Z ∈ free_pages a → Paged.free l a = Raise AssertionError.
Proof.
  intros Hdb Hg Hs Hi Hq. unfold Paged.free. destruct l as [|x l]; [by apply elem_of_nil in Hi|].
  rewrite Hg, Hs. simpl. rewrite Hdb. unfold py_assert. rewrite bool_decide_false; [done|].
  set (u := Paged.unique ((λ j, j / pool_ps a)%Z <$> (x :: l))). intros Hlen.
  assert (NoDup (u ++ free_pages a)) as Hnd.
  { assert (∀ k : list Z, length (Paged.unique k) = length k → NoDup k) as Hlemma.
    { intros k Hk. unfold Paged.unique in Hk. rewrite sort_perm in Hk.
      assert (k ≡ₚ remove_dups k) as ->; [|apply NoDup_remove_dups].
      symmetry. apply submseteq_length_Permutation; [|lia].
      apply NoDup_submseteq; [apply NoDup_remove_dups|]. intros y. by rewrite elem_of_remove_dups. }
    by apply Hlemma. }
  apply NoDup_app in Hnd as (_ & Hdisj & _). apply (Hdisj (i / pool_ps a)%Z); [|done].
  apply unique_elem, list_elem_of_fmap. eauto.
Qed.

(** [alloc] hands out whole pages: the first pages of the free list. *)
Lemma paged_alloc_spec n a :
  (0 < pool_ps a)%Z → debug_mode a = false → pool_wf a → (0 <= n)%Z →
  match Paged.alloc n a with
  | Ok (Some out, a') =>
      ∃ pages, out = Paged.pages_slots (pool_ps a) pages ∧ length pages = Z.to_nat (n / pool_ps a)
        ∧ held a ≡ₚ pages ++ held a' ∧ pending a' = pending a ∧ pool_wf a'
        ∧ pool_ps a' = pool_ps a ∧ (∀ i, paged_count a i = (paged_count a' i + occ i out)%Z)
  | Ok (None, a') =>
      length (held a) < Z.to_nat (n / pool_ps a) ∧ held a' ≡ₚ held a ∧ pending a' = pending a
      ∧ pool_wf a' ∧ pool_ps a' = pool_ps a
  | _ => False
  end.
Proof.
  intros Hps Hdb Hwf Hn. unfold Paged.alloc. rewrite Hdb. cbn [mbind result_bind].
  set (k := Z.to_nat (n / pool_ps a)).
  change (if need_sort a && _ then Base.merge_and_sort_free a else a) with (before_alloc k a).
  destruct (before_alloc_spec k a) as (Hheld & Hpsb & Hns & Hng & Hfg & Hdbb & Hsort).
  assert (pending (before_alloc k a) = pending a) as Hpend by (unfold pending; by rewrite Hng, Hfg).
  assert (pool_wf (before_alloc k a)) as Hwf'.
  { unfold pool_wf in *. rewrite Hns. intros E. specialize (Hwf E). unfold before_alloc.
    by rewrite E. }
  set (b := before_alloc k a) in *. case_decide as Hlt.
  - split_and!; try done. destruct (need_sort a) eqn:Hs; [rewrite Hsort in Hlt; done|].
    unfold held in *. rewrite Hwf', app_nil_r in Hheld by done. by rewrite <-Hheld.
  - exists (take k (free_pages b)). rewrite Hpsb.
    assert (held a ≡ₚ take k (free_pages b) ++ drop k (free_pages b) ++ release_pages b) as Hsplit.
    { rewrite <-Hheld. unfold held. by rewrite app_assoc, take_drop. }
    split_and!; try done; [rewrite length_take; lia|].
    intros i. rewrite pages_slots_occ by done. unfold paged_count. simpl.
    rewrite (occ_perm _ _ _ Hsplit), Hpsb. unfold held, pending in *. simpl in *.
    rewrite Hng, Hfg in *. autorewrite with occ. lia.
Qed.

(** The paged allocator as the cache's allocator. *)
Record PagedPool := MkPaged { paged_pool : KVPool }.

#[global] Instance Paged_KVAllocator : KVAllocator PagedPool := {|
  kv_free l a := MkPaged <$> Paged.free l (paged_pool a);
  kv_available_size a := Base.available_size (paged_pool a);
|}.

#[global] Instance Paged_Laws : KVAllocatorLaws PagedPool.
Proof.
  refine {|
    kv_ok a := (0 < pool_ps (paged_pool a))%Z ∧ debug_mode (paged_pool a) = false;
    kv_fits a l := whole_pages (pool_ps (paged_pool a)) l;
    kv_count a i := paged_count (paged_pool a) i;
    kv_open a := is_not_in_free_group (paged_pool a);
    kv_gives a l := paged_gives (paged_pool a) l;
  |}.
  - intros [a] l i [Hps _] Hfit. by apply paged_gives_whole.
  - intros [a] l [Hps Hdb]. simpl in *.
    destruct (paged_free_count l a Hps Hdb) as (a' & -> & Hps' & Hdb' & _ & Hfg & Hc).
    exists (MkPaged a'). simpl. unfold paged_gives in *. rewrite Hps', Hfg. done.
Defined.
