(* ===== verification/AllocKernel.v ===== *)
(** The paged allocation kernels of mem_cache/allocator.py
    ([alloc_extend_kernel], [alloc_decode_kernel]), the reference loop
    [alloc_extend_naive], and the two operations of
    [PagedTokenToKVPoolAllocator] that launch the kernels.

    A kernel program returns the list of its stores (address, value); the
    output tensor is read off the stores of all programs, which touch disjoint
    addresses.  Reads the code leaves unspecified (masked lanes without
    [other], addresses past the end of a tensor, the contents of a fresh
    tensor) are the arbitrary functions of the section; each of the loads of a
    kernel has masked lanes of its own, in each program. *)
From S2P Require Import Prelude RadixCache Allocator.
From stdpp Require Import options.
Local Open Scope Z_scope.

Definition BLOCK_EXTEND : Z := 4096.

(** [torch.cumsum(l, 0)] *)
Fixpoint cumsum (acc : Z) (l : list Z) : list Z :=
  match l with
  | [] => []
  | x :: l => (acc + x) :: cumsum (acc + x) l
  end.

(** [t[i]] and [t[a:b]] on a tensor of indices. *)
Definition at_ (t : list Z) (i : nat) : Z := default 0 (t !! i).
Definition tslice (a b : Z) (t : list Z) : list Z := py_slice (Z.to_nat a) (Z.to_nat b) t.

(** [out[a : a + len(vs)] = vs] *)
Definition store_slice (a : Z) (vs : list Z) : list (Z * Z) := zip (arange a (length vs)) vs.

(** The loads with masked lanes, and what those lanes hold: by load, program and lane. *)
Inductive lens_load := SeqLens | PreLens.
Definition MaskedLanes : Type := lens_load → Z → Z → Z.

(** [alloc_extend_kernel] adds up the differences of two loads over all lanes, the masked
    ones included: it needs both loads to leave the same value in a masked lane (zero, as
    compilers do, or any other). *)
Definition lanes_agree (masked : MaskedLanes) : Prop := ∀ pid l, masked SeqLens pid l = masked PreLens pid l.

Section kernels.
Context (masked : MaskedLanes) (oob : Z → Z) (fresh : Z → Z).

Definition tl_load (t : list Z) (addr : Z) : Z :=
  if decide (0 <= addr) then default (oob addr) (t !! Z.to_nat addr) else oob addr.

(** [tl.load(ptr + arange(0, bs_upper), mask = arange <= pid)] *)
Definition load_lanes (which : lens_load) (t : list Z) (bs_upper pid : Z) : list Z :=
  (λ l, if decide (l <= pid) then tl_load t l else masked which pid l) <$> arange 0 (Z.to_nat bs_upper).

Definition alloc_extend_kernel (pid : Z) (pre_lens_ptr seq_lens_ptr last_loc_ptr free_page_ptr : list Z)
    (bs_upper page_size : Z) : list (Z * Z) :=
  let seq_lens := load_lanes SeqLens seq_lens_ptr bs_upper pid in
  let pre_lens := load_lanes PreLens pre_lens_ptr bs_upper pid in
  let extend_lens := zip_with Z.sub seq_lens pre_lens in
  let seq_len := tl_load seq_lens_ptr pid in
  let pre_len := tl_load pre_lens_ptr pid in
  let extend_len := seq_len - pre_len in
  let sum_extend_lens := zsum extend_lens in
  let output_start_loc := sum_extend_lens - extend_len in
  let num_pages_after := (λ s, (s + page_size - 1) / page_size) <$> seq_lens in
  let num_pages_before := (λ p, (p + page_size - 1) / page_size) <$> pre_lens in
  let num_new_pages := zip_with Z.sub num_pages_after num_pages_before in
  let num_page_start_loc_self :=
    (seq_len + page_size - 1) / page_size - (pre_len + page_size - 1) / page_size in
  let sum_num_new_pages := zsum num_new_pages in
  let new_page_start_loc := sum_num_new_pages - num_page_start_loc_self in
  (* Part 1: fill the old partial page *)
  let last_loc := tl_load last_loc_ptr pid in
  let num_part1 :=
    Z.min seq_len ((pre_len + page_size - 1) / page_size * page_size) - pre_len in
  let offset_one_page := arange 0 (Z.to_nat page_size) in
  let part1 := (λ o, (output_start_loc + o, last_loc + 1 + o))
                 <$> filter (λ o, o < num_part1) offset_one_page in
  if decide (pre_len + num_part1 = seq_len) then part1
  else
    (* Part 2: fill the new full pages *)
    let num_part2 :=
      seq_len / page_size * page_size - (pre_len + page_size - 1) / page_size * page_size in
    let num_blocks := (num_part2 + BLOCK_EXTEND - 1) / BLOCK_EXTEND in
    let block block_id :=
      let offsets := filter (λ o, o < num_part2)
        ((λ o, block_id * BLOCK_EXTEND + o) <$> arange 0 (Z.to_nat BLOCK_EXTEND)) in
      (λ offset,
         let page_start := tl_load free_page_ptr (new_page_start_loc + offset / page_size) in
         (output_start_loc + num_part1 + offset, page_start * page_size + offset `mod` page_size))
        <$> offsets in
    let part2 := concat (block <$> arange 0 (Z.to_nat num_blocks)) in
    if decide (pre_len + num_part1 + num_part2 = seq_len) then part1 ++ part2
    else
      (* Part 3: fill the new partial page *)
      let num_part3 := seq_len - seq_len / page_size * page_size in
      let start_loc :=
        tl_load free_page_ptr (new_page_start_loc + num_page_start_loc_self - 1) in
      let part3 := (λ o, (output_start_loc + num_part1 + num_part2 + o, start_loc * page_size + o))
                     <$> filter (λ o, o < num_part3) offset_one_page in
      part1 ++ part2 ++ part3.

Definition alloc_decode_kernel (pid : Z) (seq_lens_ptr last_loc_ptr free_page_ptr : list Z)
    (bs_upper page_size : Z) : list (Z * Z) :=
  let seq_lens := load_lanes SeqLens seq_lens_ptr bs_upper pid in
  (* tl.where(load_offset <= pid, seq_lens - 1, seq_lens) *)
  let pre_lens := zip_with (λ l s, if decide (l <= pid) then s - 1 else s)
                    (arange 0 (Z.to_nat bs_upper)) seq_lens in
  let seq_len := tl_load seq_lens_ptr pid in
  let pre_len := seq_len - 1 in
  let num_pages_after := (λ s, (s + page_size - 1) / page_size) <$> seq_lens in
  let num_pages_before := (λ p, (p + page_size - 1) / page_size) <$> pre_lens in
  let num_new_pages := zip_with Z.sub num_pages_after num_pages_before in
  let num_page_start_loc_self :=
    (seq_len + page_size - 1) / page_size - (pre_len + page_size - 1) / page_size in
  let sum_num_new_pages := zsum num_new_pages in
  let new_page_start_loc := sum_num_new_pages - num_page_start_loc_self in
  if decide (num_page_start_loc_self = 0) then
    let last_loc := tl_load last_loc_ptr pid in [(pid, last_loc + 1)]
  else
    let page := tl_load free_page_ptr new_page_start_loc in [(pid, page * page_size)].

(** A tensor of [n] fresh elements after the stores. *)
Definition stored (ws : list (Z * Z)) (k : Z) : Z :=
  match last (filter (λ w, w.1 = k) ws) with Some w => w.2 | None => fresh k end.
Definition out_tensor (n : nat) (ws : list (Z * Z)) : list Z := stored ws <$> arange 0 n.

(** [kernel[(bs,)](...)] *)
Definition launch (bs : nat) (kernel : Z → list (Z * Z)) : list (Z * Z) :=
  concat (kernel <$> arange 0 bs).

(** [PagedTokenToKVPoolAllocator.alloc_extend] *)
Definition alloc_extend (prefix_lens prefix_lens_cpu seq_lens seq_lens_cpu last_loc : list Z)
    (extend_num_tokens : nat) (num_new_pages : option Z) (a : KVPool)
    : result (option (list Z) * KVPool) :=
  let ps := pool_ps a in
  _ ← (if debug_mode a then
         py_assert (bool_decide (Forall (λ '(l, p), (l + 1) `mod` ps = p `mod` ps)
                                   (zip last_loc prefix_lens)))
       else Ok tt);
  let bs := length prefix_lens in
  let a := if need_sort a && bool_decide
                (Z.of_nat (length (free_pages a)) < Z.of_nat extend_num_tokens / ps + Z.of_nat bs + 1)
           then Base.merge_and_sort_free a else a in
  let out_indices := out_tensor extend_num_tokens
    (launch bs (λ pid, alloc_extend_kernel pid prefix_lens seq_lens last_loc (free_pages a)
                         (next_power_of_2 (Z.of_nat bs)) ps)) in
  _ ← (if debug_mode a
       then py_assert (bool_decide (length (Paged.unique out_indices) = length out_indices))
       else Ok tt);
  num_new_pages ← (match num_new_pages with
                   | Some n => Ok n
                   | None => get_num_new_pages seq_lens_cpu ps (Some prefix_lens_cpu) false
                   end);
  if decide (Z.of_nat (length (free_pages a)) < num_new_pages) then Ok (None, a)
  else Ok (Some out_indices,
           set_free (drop (Z.to_nat num_new_pages) (free_pages a)) (release_pages a) a).

(** [PagedTokenToKVPoolAllocator.alloc_decode] *)
Definition alloc_decode (seq_lens seq_lens_cpu last_loc : list Z) (a : KVPool)
    : result (option (list Z) * KVPool) :=
  let ps := pool_ps a in
  _ ← (if debug_mode a then
         py_assert (bool_decide (Forall (λ '(l, s), (l + 2) `mod` ps = s `mod` ps)
                                   (zip last_loc seq_lens)))
       else Ok tt);
  let bs := length seq_lens in
  let a := if need_sort a && bool_decide (length (free_pages a) < bs)%nat
           then Base.merge_and_sort_free a else a in
  let out_indices := out_tensor bs
    (launch bs (λ pid, alloc_decode_kernel pid seq_lens last_loc (free_pages a)
                         (next_power_of_2 (Z.of_nat bs)) ps)) in
  _ ← (if debug_mode a
       then py_assert (bool_decide (length (Paged.unique out_indices) = length out_indices))
       else Ok tt);
  num_new_pages ← get_num_new_pages seq_lens_cpu ps None true;
  if decide (Z.of_nat (length (free_pages a)) < num_new_pages) then Ok (None, a)
  else Ok (Some out_indices,
           set_free (drop (Z.to_nat num_new_pages) (free_pages a)) (release_pages a) a).
End kernels.

(** The body of the loop of [alloc_extend_naive] for request [i]. *)
Definition naive_request (prefix_lens seq_lens last_loc free_pages : list Z) (page_size : Z) (i : nat)
    : list (Z * Z) :=
  let extend_lens := zip_with Z.sub seq_lens prefix_lens in
  let end_pos := cumsum 0 extend_lens in
  let start_pos := zip_with Z.sub end_pos extend_lens in
  let num_new_pages := zip_with (λ s p, (s + page_size - 1) / page_size
                                        - (p + page_size - 1) / page_size) seq_lens prefix_lens in
  let num_full_new_pages := zip_with (λ s p, s / page_size - (p + page_size - 1) / page_size)
                              seq_lens prefix_lens in
  let need_page := zip_with Z.sub num_new_pages num_full_new_pages in
  let end_new_pages := cumsum 0 num_new_pages in
  let start_new_pages := zip_with Z.sub end_new_pages num_new_pages in
  let pos_in_page := arange 0 (Z.to_nat page_size) in
  let pre := at_ prefix_lens i in
  let seq := at_ seq_lens i in
  let num1 := Z.min seq ((pre + page_size - 1) / page_size * page_size) - pre in
  let part1 := if decide (num1 = 0) then []
               else store_slice (at_ start_pos i)
                      ((λ o, at_ last_loc i + 1 + o) <$> take (Z.to_nat num1) pos_in_page) in
  if decide (pre + num1 = seq) then part1
  else
    let num2 := (seq / page_size - (pre + page_size - 1) / page_size) * page_size in
    let part2 :=
      if decide (num2 = 0) then []
      else
        let pages := (λ q, q * page_size)
          <$> tslice (at_ start_new_pages i) (at_ end_new_pages i - at_ need_page i) free_pages in
        store_slice (at_ start_pos i + num1)
          (concat ((λ q, (λ o, q + o) <$> pos_in_page) <$> pages)) in
    if decide (pre + num1 + num2 = seq) then part1 ++ part2
    else
      let num3 := seq - seq / page_size * page_size in
      let part3 :=
        if decide (num3 = 0) then []
        else store_slice (at_ end_pos i - num3)
               ((λ o, at_ free_pages (Z.to_nat (at_ end_new_pages i - 1)) * page_size + o)
                  <$> take (Z.to_nat num3) pos_in_page) in
      part1 ++ part2 ++ part3.

(** [alloc_extend_naive]: the stores to [out_indices]. *)
Definition alloc_extend_naive (prefix_lens seq_lens last_loc free_pages : list Z) (page_size : Z)
    : list (Z * Z) :=
  concat (naive_request prefix_lens seq_lens last_loc free_pages page_size
            <$> seq 0 (length prefix_lens)).

(** ** Ranges *)

Lemma arange_app a n m : arange a (n + m) = arange a n ++ arange (a + Z.of_nat n) m.
Proof. unfold arange. rewrite Nat2Z.inj_add, seqZ_app by lia. done. Qed.

Lemma arange_S a n : arange a (S n) = arange a n ++ [a + Z.of_nat n].
Proof.
  replace (S n) with (n + 1)%nat by lia. rewrite arange_app. f_equal.
Qed.

Lemma arange_shift a b n : (λ o, a + o) <$> arange b n = arange (a + b) n.
Proof. unfold arange. apply fmap_add_seqZ. Qed.

Lemma arange_fmap {B} (f : Z → B) a n : f <$> arange a n = (λ o, f (a + o)) <$> arange 0 n.
Proof.
  replace a with (a + 0) at 1 by lia. rewrite <-arange_shift, <-list_fmap_compose. done.
Qed.

Lemma elem_of_arange x a n : x ∈ arange a n ↔ a <= x < a + Z.of_nat n.
Proof. unfold arange. apply elem_of_seqZ. Qed.

Lemma arange_length a n : length (arange a n) = n.
Proof. unfold arange. rewrite length_seqZ. lia. Qed.

Lemma arange_lookup a n i : (i < n)%nat → arange a n !! i = Some (a + Z.of_nat i).
Proof. intros Hi. apply lookup_seqZ. lia. Qed.

Lemma arange_fmap_ext {B} (f g : Z → B) a n :
  (∀ x, a <= x < a + Z.of_nat n → f x = g x) → f <$> arange a n = g <$> arange a n.
Proof.
  intros Hfg. apply list_fmap_ext. intros i x Hx. apply Hfg, elem_of_arange.
  by apply list_elem_of_lookup_2 in Hx.
Qed.

(** Masking a range keeps its beginning. *)
Lemma filter_arange a n m :
  0 <= n <= Z.of_nat m → filter (λ o, o < a + n) (arange a m) = arange a (Z.to_nat n).
Proof.
  intros Hn. replace m with (Z.to_nat n + (m - Z.to_nat n))%nat by lia.
  rewrite arange_app, filter_app.
  assert (∀ l : list Z, (∀ x, x ∈ l → x < a + n) → filter (λ o, o < a + n) l = l) as Hall.
  { intros l. induction l as [|x l IH]; [done|]. intros Hl. rewrite filter_cons_True.
    - f_equal. apply IH. intros y Hy. apply Hl. by right.
    - apply Hl. by left. }
  assert (∀ l : list Z, (∀ x, x ∈ l → ¬ x < a + n) → filter (λ o, o < a + n) l = []) as Hnone.
  { intros l. induction l as [|x l IH]; [done|]. intros Hl. rewrite filter_cons_False.
    - apply IH. intros y Hy. apply Hl. by right.
    - apply Hl. by left. }
  rewrite Hall, Hnone, app_nil_r; [done| |]; intros x Hx%elem_of_arange; lia.
Qed.

Lemma filter_arange_0 n m :
  0 <= n <= Z.of_nat m → filter (λ o, o < n) (arange 0 m) = arange 0 (Z.to_nat n).
Proof. apply (filter_arange 0). Qed.

(** The blocked loop visits the masked range once, in order. *)
Lemma blocks_range B (n : Z) (m : nat) :
  0 < B →
  concat ((λ b, filter (λ o, o < n) ((λ o, b * B + o) <$> arange 0 (Z.to_nat B))) <$> arange 0 m)
  = filter (λ o, o < n) (arange 0 (m * Z.to_nat B)).
Proof.
  intros HB. induction m as [|m IH]; [done|].
  rewrite arange_S, fmap_app, concat_app, IH. cbn [fmap list_fmap concat]. rewrite app_nil_r.
  replace (S m * Z.to_nat B)%nat with (m * Z.to_nat B + Z.to_nat B)%nat by lia.
  rewrite arange_app, filter_app. f_equal. rewrite arange_shift. do 2 f_equal. lia.
Qed.

Lemma concat_fmap_fmap {X Y} (f : X → Y) (ls : Z → list X) l :
  concat ((λ b, f <$> ls b) <$> l) = f <$> concat (ls <$> l).
Proof.
  induction l as [|x l IH]; [done|]. rewrite !fmap_cons. cbn [concat].
  rewrite fmap_app, IH. done.
Qed.

(** ** Prefix sums over the batch *)

Lemma zsum_take_S l i x : l !! i = Some x → zsum (take (S i) l) = zsum (take i l) + x.
Proof. intros Hx. rewrite (take_S_r _ _ _ Hx), zsum_app. simpl. lia. Qed.

Lemma cumsum_lookup acc l i x :
  l !! i = Some x → cumsum acc l !! i = Some (acc + zsum (take (S i) l)).
Proof.
  revert acc i. induction l as [|y l IH]; intros acc [|i]; simpl; try done.
  - intros [= ->]. f_equal. lia.
  - intros Hx. rewrite (IH _ _ Hx). simpl. f_equal. lia.
Qed.

Lemma zip_with_fmap_same {X Y W} (h : Y → Y → W) (f g : X → Y) l :
  zip_with h (f <$> l) (g <$> l) = (λ x, h (f x) (g x)) <$> l.
Proof. induction l as [|x l IH]; [done|]. simpl. f_equal. apply IH. Qed.

(** The sum over the lanes of a program: what lies behind the mask cancels. *)
Lemma zsum_lanes (F : Z → Z) (l : list Z) U (pid : nat) :
  (pid < length l)%nat → Z.of_nat (length l) <= U →
  (∀ i x, (i <= pid)%nat → l !! i = Some x → F (Z.of_nat i) = x) →
  (∀ i, Z.of_nat pid < i → F i = 0) →
  zsum (F <$> arange 0 (Z.to_nat U)) = zsum (take (S pid) l).
Proof.
  intros Hpid HU HF H0.
  replace (Z.to_nat U) with (S pid + (Z.to_nat U - S pid))%nat by lia.
  rewrite arange_app, fmap_app, zsum_app.
  assert (∀ l', (∀ i, i ∈ l' → F i = 0) → zsum (F <$> l') = 0) as Hzero.
  { intros l'. induction l' as [|i l' IH]; [done|]. intros Hl.
    change (zsum (F <$> i :: l')) with (F i + zsum (F <$> l')). rewrite Hl by (by left). rewrite IH; [done|].
    intros j Hj. apply Hl. by right. }
  rewrite (Hzero (arange (0 + Z.of_nat (S pid)) _)); [|intros i Hi%elem_of_arange; apply H0; lia]. rewrite Z.add_0_r. f_equal.
  apply list_eq. intros i. destruct (decide (i < S pid)%nat).
  - rewrite list_lookup_fmap, arange_lookup by done. simpl.
    rewrite lookup_take_lt by done.
    destruct (l !! i) as [x|] eqn:Hx; [|apply lookup_ge_None in Hx; lia].
    f_equal. rewrite Z.add_0_l in *. apply HF; [lia|done].
  - rewrite !lookup_ge_None_2; [done| |].
    + rewrite length_take. lia.
    + rewrite length_fmap, arange_length. lia.
Qed.

(** ** The reference: where position [j] of a request goes *)

(** The slot of position [j] of a request that has [pre] tokens, the last at slot
    [last]: the rest of the old page first, then the new pages [page 0],
    [page 1], ... *)
Definition slot_at (ps pre last : Z) (page : Z → Z) (j : Z) : Z :=
  let c := ceil_align pre ps in
  if decide (j < c) then last + 1 + (j - pre)
  else page ((j - c) / ps) * ps + (j - c) `mod` ps.

(** The slots of the positions [pre .. seq - 1]. *)
Definition request_slots (ps pre sq last : Z) (page : Z → Z) : list Z :=
  (λ k, slot_at ps pre last page (pre + k)) <$> arange 0 (Z.to_nat (sq - pre)).

(** The stores that put them at [start], [start + 1], ... *)
Definition request_stores (start ps pre sq last : Z) (page : Z → Z) : list (Z * Z) :=
  (λ k, (start + k, slot_at ps pre last page (pre + k))) <$> arange 0 (Z.to_nat (sq - pre)).

Section parts.
Context (ps pre sq last start : Z) (page : Z → Z).
Context (Hps : 0 < ps) (Hpre : 0 <= pre <= sq).
Abbreviation c := (ceil_align pre ps).
Abbreviation n1 := (Z.min sq c - pre).
Abbreviation n2 := (sq / ps * ps - c).
Abbreviation n3 := (sq - sq / ps * ps).

Lemma part_bounds :
  0 <= n1 < ps ∧ 0 <= n3 < ps ∧ (c < sq → 0 <= n2 ∧ n1 = c - pre) ∧ (sq <= c → n1 = sq - pre)
  ∧ n2 `mod` ps = 0.
Proof using Hps Hpre.
  destruct (ceil_align_spec pre ps Hps) as [Hc Hcm].
  pose proof (Z.div_mod sq ps ltac:(lia)) as Hd. pose proof (Z.mod_pos_bound sq ps Hps) as Hm.
  split_and!; try lia.
  - intros Hlt. split; [|lia]. unfold ceil_align in *.
    assert (ceil_div pre ps <= sq / ps); [|nia]. apply Z.div_le_lower_bound; lia.
  - unfold ceil_align. rewrite <-Z.mul_sub_distr_r. apply Z.mod_mul. lia.
Qed.

Definition part1 : list (Z * Z) := (λ o, (start + o, last + 1 + o)) <$> arange 0 (Z.to_nat n1).
Definition part2 : list (Z * Z) :=
  (λ o, (start + n1 + o, page (o / ps) * ps + o `mod` ps)) <$> arange 0 (Z.to_nat n2).
Definition part3 : list (Z * Z) :=
  (λ o, (start + n1 + n2 + o, page (n2 / ps) * ps + o)) <$> arange 0 (Z.to_nat n3).

Lemma stores_part1 : sq <= c → part1 = request_stores start ps pre sq last page.
Proof using Hps Hpre.
  intros Hle. destruct part_bounds as (? & ? & ? & Hn1 & ?). unfold part1, request_stores.
  rewrite Hn1 by done. apply arange_fmap_ext. intros x Hx. f_equal. unfold slot_at.
  rewrite decide_True by lia. lia.
Qed.

Lemma stores_parts : c < sq → part1 ++ part2 ++ part3 = request_stores start ps pre sq last page.
Proof using Hps Hpre.
  intros Hlt. destruct part_bounds as (Hb1 & Hb3 & Hn & _ & Hmod).
  destruct (Hn Hlt) as [Hb2 Hn1]. unfold request_stores.
  replace (Z.to_nat (sq - pre)) with (Z.to_nat n1 + (Z.to_nat n2 + Z.to_nat n3))%nat by lia.
  rewrite !arange_app, !fmap_app. unfold part1, part2, part3.
  rewrite (arange_fmap _ (0 + Z.of_nat (Z.to_nat n1))).
  rewrite (arange_fmap _ (0 + Z.of_nat (Z.to_nat n1) + Z.of_nat (Z.to_nat n2))).
  f_equal; [|f_equal]; apply arange_fmap_ext; intros x Hx; unfold slot_at.
  - rewrite decide_True by lia. f_equal. lia.
  - rewrite decide_False by lia. f_equal; [lia|].
    replace (pre + (0 + Z.of_nat (Z.to_nat n1) + x) - c) with x by lia. done.
  - rewrite decide_False by lia. f_equal; [lia|].
    replace (pre + (0 + Z.of_nat (Z.to_nat n1) + Z.of_nat (Z.to_nat n2) + x) - c)
      with (x + n2 / ps * ps) by (pose proof (Z.div_mod n2 ps ltac:(lia)); lia).
    rewrite Z.div_add, Z.mod_add by lia.
    rewrite (Z.div_small x), (Z.mod_small x) by lia. done.
Qed.

Lemma part3_nil : pre + n1 + n2 = sq → c < sq → part3 = [].
Proof using Hps Hpre.
  intros He Hlt. destruct part_bounds as (_ & _ & Hn & _). destruct (Hn Hlt).
  unfold part3. replace (Z.to_nat n3) with 0%nat by lia. done.
Qed.

(** The number of pages a request needs. *)
Lemma new_pages_part :
  c < sq → n3 ≠ 0 → (sq + ps - 1) / ps - (pre + ps - 1) / ps - 1 = n2 / ps.
Proof using Hps Hpre.
  intros Hlt H3. unfold ceil_align, ceil_div.
  rewrite <-Z.mul_sub_distr_r, Z.div_mul by lia.
  assert ((sq + ps - 1) / ps = sq / ps + 1); [|lia].
  pose proof (Z.div_mod sq ps ltac:(lia)). pose proof (Z.mod_pos_bound sq ps Hps).
  symmetry. apply (Z.div_unique _ _ _ (sq `mod` ps - 1)); lia.
Qed.
End parts.

(** ** The kernel and the reference loop *)

(** A batch of requests to extend. *)
Record batch_ok (pre_lens seq_lens last_locs : list Z) : Prop := {
  bo_seq : length seq_lens = length pre_lens;
  bo_last : length last_locs = length pre_lens;
  bo_valid : ∀ i p s, pre_lens !! i = Some p → seq_lens !! i = Some s → 0 <= p <= s;
}.

Section batch.
Context (pre_lens seq_lens last_locs free : list Z) (ps : Z).
Context (Hps : 0 < ps) (Hb : batch_ok pre_lens seq_lens last_locs).

Definition ext_lens : list Z := zip_with Z.sub seq_lens pre_lens.
Definition new_pages : list Z :=
  zip_with (λ s p, (s + ps - 1) / ps - (p + ps - 1) / ps) seq_lens pre_lens.
(** Where the output and the new pages of request [i] start. *)
Definition ext_start (i : nat) : Z := zsum (take i ext_lens).
Definition page_start (i : nat) : Z := zsum (take i new_pages).

Context (i : nat) (p s l : Z).
Context (Hp : pre_lens !! i = Some p) (Hs : seq_lens !! i = Some s) (Hl : last_locs !! i = Some l).

Local Lemma ext_lens_i : ext_lens !! i = Some (s - p).
Proof using Hp Hs. unfold ext_lens. rewrite lookup_zip_with, Hs, Hp. done. Qed.
Local Lemma new_pages_i : new_pages !! i = Some ((s + ps - 1) / ps - (p + ps - 1) / ps).
Proof using Hp Hs. unfold new_pages. rewrite lookup_zip_with, Hs, Hp. done. Qed.

Local Lemma valid_i : 0 <= p <= s.
Proof using Hb Hp Hs. by eapply bo_valid. Qed.

Lemma tl_load_at oob (t : list Z) x : t !! i = Some x → tl_load oob t (Z.of_nat i) = x.
Proof using. intros Hx. unfold tl_load. rewrite decide_True, Nat2Z.id, Hx by lia. done. Qed.

(** What the masked sums of program [i] compute. *)
Lemma lanes_sum masked oob (h : Z → Z → Z) U :
  lanes_agree masked → (∀ x, h x x = 0) → Z.of_nat (length pre_lens) <= U →
  zsum (zip_with h (load_lanes masked oob SeqLens seq_lens U (Z.of_nat i))
                   (load_lanes masked oob PreLens pre_lens U (Z.of_nat i)))
  = zsum (take (S i) (zip_with h seq_lens pre_lens)).
Proof using Hb Hp Hs.
  intros Hm Hh HU. unfold load_lanes. rewrite zip_with_fmap_same.
  assert (i < length pre_lens)%nat by (by eapply lookup_lt_Some).
  apply zsum_lanes.
  - rewrite length_zip_with, (bo_seq _ _ _ Hb). lia.
  - rewrite length_zip_with, (bo_seq _ _ _ Hb). lia.
  - intros k x Hk Hx. rewrite !decide_True by lia.
    apply lookup_zip_with_Some in Hx as (y & z & -> & Hy & Hz).
    unfold tl_load. rewrite !decide_True, !Nat2Z.id, Hy, Hz by lia. done.
  - intros k Hk. rewrite !decide_False by lia. rewrite Hm. apply Hh.
Qed.

Lemma kernel_request masked oob U :
  lanes_agree masked → Z.of_nat (length pre_lens) <= U →
  alloc_extend_kernel masked oob (Z.of_nat i) pre_lens seq_lens last_locs free U ps
  = request_stores (ext_start i) ps p s l (λ m, tl_load oob free (page_start i + m)).
Proof using Hps Hb Hp Hs Hl.
  intros Hm HU. pose proof valid_i as Hv. unfold alloc_extend_kernel.
  rewrite !(tl_load_at oob _ _ Hp), !(tl_load_at oob _ _ Hs), !(tl_load_at oob _ _ Hl).
  rewrite zip_with_fmap_l, zip_with_fmap_r.
  rewrite (lanes_sum masked oob Z.sub U), (lanes_sum masked oob _ U) by (done || intros; lia).
  rewrite (zsum_take_S (zip_with Z.sub _ _) _ _ ext_lens_i).
  rewrite (zsum_take_S (zip_with _ seq_lens pre_lens) _ _ new_pages_i).
  fold ext_lens new_pages.
  change (zsum (take i ext_lens)) with (ext_start i).
  change (zsum (take i new_pages)) with (page_start i).
  rewrite !Z.add_simpl_r. set (page := λ m, tl_load oob free (page_start i + m)).
  fold (ceil_div p ps). fold (ceil_align p ps).
  destruct (part_bounds ps p s Hps Hv) as (Hb1 & Hb3 & Hn & Hn1 & Hmod).
  rewrite (filter_arange_0 (Z.min s (ceil_align p ps) - p)) by lia.
  rewrite (filter_arange_0 (s - s / ps * ps)) by lia.
  change ((λ o, (ext_start i + o, l + 1 + o)) <$> arange 0 (Z.to_nat (Z.min s (ceil_align p ps) - p)))
    with (part1 ps p s l (ext_start i)).
  case_decide as E1; [apply stores_part1; (done || lia)|].
  assert (ceil_align p ps < s) as Hlt by lia. destruct (Hn Hlt) as [Hn2 Hn1'].
  rewrite concat_fmap_fmap, blocks_range by done.
  rewrite filter_arange_0.
  2: { split; [done|]. set (n2 := s / ps * ps - ceil_align p ps) in *.
    pose proof (ceil_div_spec n2 BLOCK_EXTEND) as Hcd. unfold ceil_div in Hcd.
    unfold BLOCK_EXTEND in *. lia. }
  change ((λ offset, _) <$> arange 0 (Z.to_nat (s / ps * ps - ceil_align p ps)))
    with (part2 ps p s (ext_start i) page).
  rewrite <-(stores_parts ps p s l (ext_start i) page Hps Hv Hlt).
  case_decide as E2; [rewrite (part3_nil ps p s (ext_start i) page Hps Hv E2 Hlt), app_nil_r; done|].
  do 2 f_equal. unfold part3. apply arange_fmap_ext. intros x Hx. f_equal. do 2 f_equal.
  unfold page. f_equal. rewrite <-(new_pages_part ps p s Hps Hv Hlt) by lia.
  unfold ceil_div. lia.
Qed.

Lemma store_slice_fmap a (f : Z → Z) n :
  store_slice a (f <$> arange 0 n) = (λ o, (a + o, f o)) <$> arange 0 n.
Proof using.
  unfold store_slice. rewrite length_fmap, arange_length.
  replace (arange a n) with ((λ o, a + o) <$> arange 0 n)
    by (rewrite arange_shift; f_equal; lia).
  apply (zip_with_fmap_same pair).
Qed.

Lemma take_arange n m a : (n <= m)%nat → take n (arange a m) = arange a n.
Proof using.
  intros Hn. replace m with (n + (m - n))%nat by lia. rewrite arange_app.
  apply take_app_length'. by rewrite arange_length.
Qed.

(** Pages laid out one after the other. *)
Lemma pages_layout (L : list Z) :
  concat ((λ q, (λ o, q + o) <$> arange 0 (Z.to_nat ps)) <$> ((λ q, q * ps) <$> L))
  = (λ o, at_ L (Z.to_nat (o / ps)) * ps + o `mod` ps)
      <$> arange 0 (length L * Z.to_nat ps).
Proof using Hps.
  clear - Hps. induction L as [|q L IH] using rev_ind; [done|].
  rewrite !fmap_app, concat_app, IH, length_app. cbn [fmap list_fmap concat length].
  rewrite app_nil_r, Nat.mul_add_distr_r, Nat.mul_1_l, arange_app, fmap_app. f_equal.
  - apply arange_fmap_ext. intros x Hx. do 2 f_equal. unfold at_. rewrite lookup_app_l; [done|].
    apply Nat2Z.inj_lt. rewrite Z2Nat.id by (apply Z.div_pos; lia).
    apply Z.div_lt_upper_bound; lia.
  - rewrite (arange_fmap _ (0 + _)). apply arange_fmap_ext. intros x Hx.
    replace (0 + Z.of_nat (length L * Z.to_nat ps) + x) with (x + Z.of_nat (length L) * ps) by lia.
    rewrite Z.div_add, Z.mod_add by lia. rewrite (Z.div_small x), (Z.mod_small x) by lia.
    unfold at_. rewrite lookup_app_r by lia.
    replace (Z.to_nat (0 + Z.of_nat (length L)) - length L)%nat with 0%nat by lia. done.
Qed.

Lemma at_Some (t : list Z) k x : t !! k = Some x → at_ t k = x.
Proof using. unfold at_. by intros ->. Qed.

Lemma page_start_nonneg : 0 <= page_start i.
Proof using Hps Hb.
  clear Hp Hs Hl. unfold page_start.
  assert (Forall (λ x, 0 <= x) new_pages) as Hall.
  { apply Forall_forall. intros x (k & Hk)%list_elem_of_lookup.
    apply lookup_zip_with_Some in Hk as (y & z & -> & Hy & Hz).
    pose proof (bo_valid _ _ _ Hb k z y Hz Hy).
    assert ((z + ps - 1) / ps <= (y + ps - 1) / ps); [|lia]. apply Z.div_le_mono; lia. }
  apply (Forall_take _ i) in Hall. unfold zsum. induction Hall; simpl; lia.
Qed.

(** Reading the free list inside its bounds. *)
Lemma free_page oob start m :
  0 <= start → 0 <= m → start + m < Z.of_nat (length free) →
  at_ free (Z.to_nat (start + m)) = tl_load oob free (start + m).
Proof using.
  intros Hs0 Hm Hlen. unfold at_, tl_load. rewrite decide_True by lia.
  destruct (lookup_lt_is_Some_2 free (Z.to_nat (start + m))) as [x ->]; [lia|done].
Qed.

(** The rest of the last page, as the loop stores it. *)
Lemma naive_part1 base :
  (if decide (Z.min s (ceil_align p ps) - p = 0) then []
   else store_slice base ((λ o, l + 1 + o) <$> take (Z.to_nat (Z.min s (ceil_align p ps) - p)) (arange 0 (Z.to_nat ps))))
  = part1 ps p s l base.
Proof using Hps Hb Hp Hs Hl.
  destruct (part_bounds ps p s Hps valid_i) as (Hb1 & Hb3 & _).
  rewrite take_arange, store_slice_fmap by lia. unfold part1. case_decide as E; [rewrite E|]; done.
Qed.

(** The whole pages. *)
Lemma naive_part2 oob base start e :
  ceil_align p ps < s → 0 <= start → e = start + (s / ps - ceil_div p ps) → e <= Z.of_nat (length free) →
  (if decide (s / ps * ps - ceil_align p ps = 0) then [] else
     store_slice (base + (Z.min s (ceil_align p ps) - p))
       (concat ((λ q, (λ o, q + o) <$> arange 0 (Z.to_nat ps)) <$> ((λ q, q * ps) <$> tslice start e free))))
  = part2 ps p s base (λ m, tl_load oob free (start + m)).
Proof using Hps Hb Hp Hs Hl.
  intros Hlt Hs0 -> He. destruct (part_bounds ps p s Hps valid_i) as (Hb1 & Hb3 & Hc & Hc1 & Hmod).
  destruct (Hc Hlt) as [Hn2 Hn1].
  assert ((s / ps - ceil_div p ps) * ps = s / ps * ps - ceil_align p ps) as Hn2' by (unfold ceil_align; lia).
  assert (0 <= s / ps - ceil_div p ps) as Hfull by nia. set (L := tslice _ _ _).
  assert (length L = Z.to_nat (s / ps - ceil_div p ps)) as HL by (unfold L, tslice; rewrite py_slice_length; lia).
  assert (length L * Z.to_nat ps = Z.to_nat (s / ps * ps - ceil_align p ps))%nat as HLn
    by (rewrite HL, <-Hn2', Z2Nat.inj_mul by lia; done).
  rewrite pages_layout, store_slice_fmap, HLn. unfold part2. case_decide as E; [rewrite E; done|].
  apply arange_fmap_ext. intros x Hx. do 3 f_equal.
  assert (0 <= x / ps < s / ps - ceil_div p ps) as Hq
    by (split; [apply Z.div_pos|apply Z.div_lt_upper_bound]; lia).
  rewrite <-free_page by lia. unfold at_, L, tslice. f_equal.
  unfold py_slice. rewrite lookup_take_lt, lookup_drop by lia. f_equal. lia.
Qed.

(** The tensors at the row of the request. *)
Lemma naive_tensors :
  at_ (cumsum 0 ext_lens) i = ext_start i + (s - p)
  ∧ at_ (zip_with Z.sub (cumsum 0 ext_lens) ext_lens) i = ext_start i
  ∧ at_ (cumsum 0 new_pages) i = page_start i + ((s + ps - 1) / ps - (p + ps - 1) / ps)
  ∧ at_ (zip_with Z.sub (cumsum 0 new_pages) new_pages) i = page_start i.
Proof using Hps Hb Hp Hs Hl.
  pose proof (cumsum_lookup 0 _ _ _ ext_lens_i) as He.
  rewrite (zsum_take_S _ _ _ ext_lens_i), Z.add_0_l in He. fold (ext_start i) in He.
  pose proof (cumsum_lookup 0 _ _ _ new_pages_i) as Hn.
  rewrite (zsum_take_S _ _ _ new_pages_i), Z.add_0_l in Hn. fold (page_start i) in Hn.
  split_and!; apply at_Some; try done.
  - rewrite lookup_zip_with, He, ext_lens_i. simpl. f_equal. lia.
  - rewrite lookup_zip_with, Hn, new_pages_i. simpl. f_equal. lia.
Qed.

(** The reference loop stores the same, given enough free pages. *)
Lemma naive_request_spec oob :
  page_start (S i) <= Z.of_nat (length free) →
  naive_request pre_lens seq_lens last_locs free ps i
  = request_stores (ext_start i) ps p s l (λ m, tl_load oob free (page_start i + m)).
Proof using Hps Hb Hp Hs Hl.
  intros Hfree. pose proof valid_i as Hv. pose proof page_start_nonneg as Hnn.
  unfold page_start in Hfree. rewrite (zsum_take_S _ _ _ new_pages_i) in Hfree.
  fold (page_start i) in Hfree. destruct naive_tensors as (He1 & He2 & Hn1' & Hn2').
  unfold naive_request. fold ext_lens. fold new_pages.
  rewrite !(at_Some _ _ _ Hp), !(at_Some _ _ _ Hs), !(at_Some _ _ _ Hl), ?He1, ?He2, ?Hn1', ?Hn2'.
  rewrite (at_Some (zip_with Z.sub new_pages _) i
    ((s + ps - 1) / ps - (p + ps - 1) / ps - (s / ps - (p + ps - 1) / ps)))
    by (rewrite lookup_zip_with, new_pages_i; simpl; rewrite lookup_zip_with, Hs, Hp; done).
  fold (ceil_div p ps) in *. fold (ceil_align p ps).
  rewrite Z.mul_sub_distr_r. fold (ceil_align p ps).
  destruct (part_bounds ps p s Hps Hv) as (Hb1 & Hb3 & Hc & Hc1 & Hmod).
  rewrite naive_part1. case_decide as E1; [apply stores_part1; (done || lia)|].
  assert (ceil_align p ps < s) as Hlt by lia. destruct (Hc Hlt) as [Hn2 Hn1].
  set (page := λ m, tl_load oob free (page_start i + m)).
  rewrite <-(stores_parts ps p s l (ext_start i) page Hps Hv Hlt).
  assert (s / ps <= (s + ps - 1) / ps) as Hfl by (apply Z.div_le_mono; lia).
  rewrite (naive_part2 oob) by (done || lia).
  case_decide as E2; [rewrite (part3_nil ps p s (ext_start i) page Hps Hv E2 Hlt), app_nil_r; done|].
  do 2 f_equal. rewrite decide_False by lia. rewrite take_arange, store_slice_fmap by lia.
  unfold part3. pose proof (new_pages_part ps p s Hps Hv Hlt ltac:(lia)) as Hnp.
  apply arange_fmap_ext. intros x Hx. f_equal; [lia|]. do 2 f_equal. unfold page.
  assert (0 <= (s / ps * ps - ceil_align p ps + x) / ps) by (apply Z.div_pos; lia).
  rewrite <-free_page; [do 2 f_equal; unfold ceil_div in *; lia|done| |unfold ceil_div in *; lia].
  apply Z.div_pos; lia.
Qed.
End batch.

(** ** The output tensor *)

Lemma arange_cons a n : arange a (S n) = a :: arange (a + 1) n.
Proof. unfold arange. rewrite Nat2Z.inj_succ, seqZ_cons by lia. f_equal. f_equal; lia. Qed.

Lemma stored_zip fresh a vs k :
  (k < length vs)%nat →
  stored fresh (zip (arange a (length vs)) vs) (a + Z.of_nat k) = at_ vs k.
Proof.
  revert a k. induction vs as [|v vs IH]; intros a k Hk; simpl in Hk; [lia|].
  cbn [length]. rewrite arange_cons. cbn [zip zip_with]. unfold stored. rewrite filter_cons.
  assert (∀ b w, (b < a + 1) → filter (λ w : Z * Z, w.1 = b) (zip (arange (a + 1) (length w)) w) = [])
    as Hnil.
  { intros b w Hlt. assert (a + 1 > b) as Hgt by lia. revert Hgt. generalize (a + 1). clear.
    induction w as [|x w IHw]; intros a Hgt; [done|]. cbn [length]. rewrite arange_cons.
    cbn [zip zip_with]. rewrite filter_cons_False by (simpl; lia). apply IHw. lia. }
  destruct k as [|k]; simpl.
  - rewrite decide_True by lia. rewrite Hnil by lia. done.
  - rewrite decide_False by lia. fold (stored fresh (zip (arange (a + 1) (length vs)) vs) (a + Z.of_nat (S k))).
    replace (a + Z.of_nat (S k)) with (a + 1 + Z.of_nat k) by lia. rewrite IH by lia. done.
Qed.

(** Stores to all addresses in order determine the tensor. *)
Lemma out_tensor_zip fresh vs :
  out_tensor fresh (length vs) (zip (arange 0 (length vs)) vs) = vs.
Proof.
  unfold out_tensor. apply list_eq. intros k. rewrite list_lookup_fmap.
  destruct (decide (k < length vs)%nat) as [Hk|Hk].
  - rewrite arange_lookup by done. simpl. rewrite stored_zip by done.
    unfold at_. destruct (vs !! k) eqn:E; [done|]. apply lookup_ge_None in E. lia.
  - rewrite !lookup_ge_None_2; [done|lia|rewrite arange_length; lia].
Qed.

Lemma request_stores_zip start ps pre sq last page :
  request_stores start ps pre sq last page
  = zip (arange start (Z.to_nat (sq - pre))) (request_slots ps pre sq last page).
Proof.
  unfold request_stores, request_slots.
  replace (arange start _) with ((λ o, start + o) <$> arange 0 (Z.to_nat (sq - pre)))
    by (rewrite arange_shift; f_equal; lia).
  symmetry. apply (zip_with_fmap_same pair).
Qed.

Lemma request_slots_length ps pre sq last page :
  length (request_slots ps pre sq last page) = Z.to_nat (sq - pre).
Proof. unfold request_slots. by rewrite length_fmap, arange_length. Qed.

(** ** alloc_extend and alloc_decode *)

(** The slots of a batch: request [i] takes its new pages from the free list,
    after those of the requests before it. *)
Definition batch_slots (oob : Z → Z) (pre_lens seq_lens last_locs free : list Z) (ps : Z) (bs : nat)
    : list (list Z) :=
  (λ i, request_slots ps (at_ pre_lens i) (at_ seq_lens i) (at_ last_locs i)
          (λ m, tl_load oob free (page_start pre_lens seq_lens ps i + m))) <$> seq 0 bs.

Section extend.
Context (masked : MaskedLanes) (Hm : lanes_agree masked) (oob fresh : Z → Z).
Context (pre_lens seq_lens last_locs : list Z).
Context (Hb : batch_ok pre_lens seq_lens last_locs).

Lemma batch_lookup i :
  (i < length pre_lens)%nat →
  pre_lens !! i = Some (at_ pre_lens i) ∧ seq_lens !! i = Some (at_ seq_lens i)
  ∧ last_locs !! i = Some (at_ last_locs i).
Proof using Hb.
  intros Hi. pose proof Hb as [Hs Hl _]. unfold at_.
  destruct (lookup_lt_is_Some_2 pre_lens i) as [? ->]; [lia|].
  destruct (lookup_lt_is_Some_2 seq_lens i) as [? ->]; [lia|].
  destruct (lookup_lt_is_Some_2 last_locs i) as [? ->]; [lia|]. done.
Qed.

(** The stores of the first [k] programs fill the output from the left. *)
Lemma launch_prefix free ps U k :
  0 < ps → Z.of_nat (length pre_lens) <= U → (k <= length pre_lens)%nat →
  let vs := concat (batch_slots oob pre_lens seq_lens last_locs free ps k) in
  launch k (λ pid, alloc_extend_kernel masked oob pid pre_lens seq_lens last_locs free U ps)
    = zip (arange 0 (length vs)) vs
  ∧ Z.of_nat (length vs) = ext_start pre_lens seq_lens k.
Proof using Hm Hb.
  intros Hps HU. induction k as [|k IH]; intros Hk; [done|].
  destruct IH as [IHl IHn]; [lia|].
  destruct (batch_lookup k) as (Hp & Hs & Hl); [lia|].
  pose proof (bo_valid _ _ _ Hb k _ _ Hp Hs) as Hv.
  unfold launch, batch_slots in *. rewrite arange_S, seq_S, !fmap_app, !concat_app.
  cbn [fmap list_fmap concat]. rewrite !app_nil_r, IHl, Z.add_0_l, Nat.add_0_l.
  erewrite kernel_request by done. rewrite request_stores_zip, length_app, request_slots_length.
  split.
  - rewrite arange_app, zip_with_app by (by rewrite arange_length). f_equal. f_equal.
    f_equal. lia.
  - rewrite Nat2Z.inj_add, IHn. unfold ext_start.
    rewrite (zsum_take_S _ k _ (ext_lens_i _ _ _ _ _ Hp Hs)). lia.
Qed.

(** The whole output of a launch. *)
Lemma launch_output free ps U n :
  0 < ps → Z.of_nat (length pre_lens) <= U →
  Z.of_nat n = zsum (zip_with Z.sub seq_lens pre_lens) →
  out_tensor fresh n (launch (length pre_lens)
    (λ pid, alloc_extend_kernel masked oob pid pre_lens seq_lens last_locs free U ps))
  = concat (batch_slots oob pre_lens seq_lens last_locs free ps (length pre_lens)).
Proof using Hm Hb.
  intros Hps HU Hn.
  destruct (launch_prefix free ps U (length pre_lens) Hps HU) as [-> Hlen]; [lia|].
  unfold ext_start, ext_lens in Hlen. rewrite take_ge in Hlen.
  2: { rewrite length_zip_with, (bo_seq _ _ _ Hb). lia. }
  set (vs := concat _) in *. assert (n = length vs) as -> by lia. apply out_tensor_zip.
Qed.
End extend.

(** The pool a batch allocation looks at. *)
Definition extend_pool (extend_num_tokens bs : nat) (a : KVPool) : KVPool :=
  if need_sort a && bool_decide (Z.of_nat (length (free_pages a))
       < Z.of_nat extend_num_tokens / pool_ps a + Z.of_nat bs + 1)
  then Base.merge_and_sort_free a else a.

Lemma extend_pool_spec n bs a :
  held (extend_pool n bs a) ≡ₚ held a ∧ pool_ps (extend_pool n bs a) = pool_ps a
  ∧ debug_mode (extend_pool n bs a) = debug_mode a.
Proof.
  unfold extend_pool. destruct (_ && _); [|done].
  destruct (merge_spec a) as (?&?&?&?&?&?&?). done.
Qed.

Section operations.
Context (masked : MaskedLanes) (oob fresh : Z → Z).

Lemma alloc_extend_spec pre_lens seq_lens last_locs n nn a :
  lanes_agree masked → batch_ok pre_lens seq_lens last_locs → 0 < pool_ps a → debug_mode a = false →
  Z.of_nat n = zsum (zip_with Z.sub seq_lens pre_lens) →
  let N := zsum (new_pages pre_lens seq_lens (pool_ps a)) in
  nn = None ∨ nn = Some N →
  let b := extend_pool n (length pre_lens) a in
  alloc_extend masked oob fresh pre_lens pre_lens seq_lens seq_lens last_locs n nn a
  = if decide (Z.of_nat (length (free_pages b)) < N) then Ok (None, b)
    else Ok (Some (concat (batch_slots oob pre_lens seq_lens last_locs (free_pages b) (pool_ps a)
                             (length pre_lens))),
             set_free (drop (Z.to_nat N) (free_pages b)) (release_pages b) b).
Proof.
  intros Hm Hb Hps Hdb Hn N HN b. unfold alloc_extend. rewrite Hdb. cbn [mbind result_bind].
  fold (extend_pool n (length pre_lens) a). fold b.
  destruct (extend_pool_spec n (length pre_lens) a) as (_ & Hpsb & Hdbb).
  fold b in Hdbb. rewrite Hdbb, Hdb. cbn [mbind result_bind].
  rewrite (launch_output masked Hm oob fresh pre_lens seq_lens last_locs Hb)
    by (done || apply next_power_of_2_ge).
  assert (match nn with Some n => Ok n | None => get_num_new_pages seq_lens (pool_ps a)
    (Some pre_lens) false end = Ok N) as ->; [|done].
  destruct HN as [->| ->]; [|done]. simpl. f_equal. unfold N, new_pages.
  by rewrite zip_with_fmap_l, zip_with_fmap_r.
Qed.

(** What the positions of a request get: the old page is filled up, then the
    request's own new pages in order; a slot and its position agree modulo
    the page size. *)
Lemma slot_at_old ps pre last page j :
  j < ceil_align pre ps → slot_at ps pre last page j = last + 1 + (j - pre).
Proof. intros Hj. unfold slot_at. by rewrite decide_True. Qed.

Lemma slot_at_page ps pre last page j :
  0 < ps → 0 <= pre → (last + 1) `mod` ps = pre `mod` ps → pre <= j →
  slot_at ps pre last page j `mod` ps = j `mod` ps.
Proof.
  intros Hps Hpre Hlast Hj. unfold slot_at. case_decide as Hc.
  - rewrite Z.add_mod, Hlast, <-Z.add_mod by lia. f_equal. lia.
  - rewrite Z.add_comm, Z.mod_add, Z.mod_mod by lia.
    destruct (ceil_align_spec pre ps Hps) as [_ Hm].
    rewrite Zminus_mod, Hm, Z.sub_0_r, Z.mod_mod by lia. done.
Qed.

Lemma decode_lanes which seq_lens U i s ps :
  0 < ps → seq_lens !! i = Some s → Z.of_nat (length seq_lens) <= U →
  let lanes := load_lanes masked oob which seq_lens U (Z.of_nat i) in
  zsum (zip_with Z.sub ((λ s, (s + ps - 1) / ps) <$> lanes)
    ((λ p, (p + ps - 1) / ps) <$>
      zip_with (λ l s, if decide (l <= Z.of_nat i) then s - 1 else s)
        (arange 0 (Z.to_nat U)) lanes))
  = zsum (take (S i) ((λ s, (s + ps - 1) / ps - (s - 1 + ps - 1) / ps) <$> seq_lens)).
Proof.
  intros Hps Hs HU lanes. unfold lanes, load_lanes.
  assert (i < length seq_lens)%nat by (by eapply lookup_lt_Some).
  rewrite <-(list_fmap_id (arange 0 (Z.to_nat U))) at 2.
  rewrite zip_with_fmap_same, <-!list_fmap_compose, zip_with_fmap_same.
  apply zsum_lanes.
  - by rewrite length_fmap.
  - by rewrite length_fmap.
  - intros k x Hk Hx. simpl. rewrite !decide_True by lia.
    rewrite list_lookup_fmap in Hx. destruct (seq_lens !! k) as [y|] eqn:Hy; [|done].
    injection Hx as <-. unfold tl_load. rewrite !decide_True, !Nat2Z.id, Hy by lia. done.
  - intros k Hk. simpl. rewrite !decide_False by lia. lia.
Qed.

(** One decoded token: the next slot of the page, or the first of a new one. *)
Definition decode_slot (ps s last page : Z) : Z :=
  if decide (s `mod` ps = 1) then page * ps else last + 1.

(** New pages taken by the requests before [i]. *)
Definition decode_start (ps : Z) (seq_lens : list Z) (i : nat) : Z :=
  zsum (take i ((λ s, if decide (s `mod` ps = 1) then 1 else 0) <$> seq_lens)).

Lemma decode_kernel_spec seq_lens last_locs free U i s l ps :
  2 <= ps → seq_lens !! i = Some s → last_locs !! i = Some l → Z.of_nat (length seq_lens) <= U →
  alloc_decode_kernel masked oob (Z.of_nat i) seq_lens last_locs free U ps
  = [(Z.of_nat i, decode_slot ps s l (tl_load oob free (decode_start ps seq_lens i)))].
Proof.
  intros Hps Hs Hl HU. unfold alloc_decode_kernel.
  rewrite !(tl_load_at i oob _ _ Hs), !(tl_load_at i oob _ _ Hl).
  rewrite (decode_lanes SeqLens seq_lens U i s ps) by (done || lia).
  rewrite (list_fmap_ext _ (λ s, if decide (s `mod` ps = 1) then 1 else 0))
    by (intros; by apply decode_new_page).
  rewrite (zsum_take_S _ i (if decide (s `mod` ps = 1) then 1 else 0))
    by (rewrite list_lookup_fmap, Hs; done).
  fold (decode_start ps seq_lens i). rewrite decode_new_page, Z.add_simpl_r by done.
  unfold decode_slot. by repeat case_decide.
Qed.

Lemma alloc_decode_spec seq_lens last_locs a :
  length last_locs = length seq_lens → 2 <= pool_ps a → debug_mode a = false →
  let ps := pool_ps a in
  let b := before_alloc (length seq_lens) a in
  let N := decode_start ps seq_lens (length seq_lens) in
  alloc_decode masked oob fresh seq_lens seq_lens last_locs a
  = if decide (Z.of_nat (length (free_pages b)) < N) then Ok (None, b)
    else Ok (Some ((λ i, decode_slot ps (at_ seq_lens i) (at_ last_locs i)
                           (tl_load oob (free_pages b) (decode_start ps seq_lens i)))
                     <$> seq 0 (length seq_lens)),
             set_free (drop (Z.to_nat N) (free_pages b)) (release_pages b) b).
Proof.
  intros Hlen Hps Hdb ps b N. unfold alloc_decode. rewrite Hdb. cbn [mbind result_bind].
  fold (before_alloc (length seq_lens) a). fold b.
  destruct (before_alloc_spec (length seq_lens) a) as (_ & Hpsb & _ & _ & _ & Hdbb & _).
  fold b in Hdbb. rewrite Hdbb, Hdb. cbn [mbind result_bind get_num_new_pages].
  set (vs := (λ i, decode_slot ps (at_ seq_lens i) (at_ last_locs i)
    (tl_load oob (free_pages b) (decode_start ps seq_lens i))) <$> seq 0 (length seq_lens)).
  assert (length vs = length seq_lens) as Hvs by (unfold vs; by rewrite length_fmap, length_seq).
  assert (launch (length seq_lens) (λ pid, alloc_decode_kernel masked oob pid seq_lens last_locs
    (free_pages b) (next_power_of_2 (Z.of_nat (length seq_lens))) (pool_ps a))
    = zip (arange 0 (length vs)) vs) as ->.
  { unfold launch. rewrite Hvs. unfold vs.
    assert (arange 0 (length seq_lens) = Z.of_nat <$> seq 0 (length seq_lens)) as ->.
    { unfold arange, seqZ. rewrite Nat2Z.id. apply list_fmap_ext. intros. lia. }
    rewrite (zip_with_fmap_same pair), <-list_fmap_compose.
    assert (∀ k, (k <= length seq_lens)%nat → concat ((λ i : nat, alloc_decode_kernel masked oob
      (Z.of_nat i) seq_lens last_locs (free_pages b) (next_power_of_2 (Z.of_nat (length seq_lens)))
      (pool_ps a)) <$> seq 0 k) = (λ i : nat, (Z.of_nat i, decode_slot ps (at_ seq_lens i)
      (at_ last_locs i) (tl_load oob (free_pages b) (decode_start ps seq_lens i)))) <$> seq 0 k) as Hk;
      [|by apply Hk].
    induction k as [|k IH]; intros Hle; [done|].
    rewrite seq_S, !fmap_app, concat_app, IH by lia. f_equal. cbn [fmap list_fmap concat].
    rewrite app_nil_r, Nat.add_0_l.
    destruct (lookup_lt_is_Some_2 seq_lens k) as [s Hs]; [lia|].
    destruct (lookup_lt_is_Some_2 last_locs k) as [l Hl]; [lia|].
    rewrite (at_Some _ _ _ Hs), (at_Some _ _ _ Hl). apply decode_kernel_spec; try done.
    apply next_power_of_2_ge. }
  replace (out_tensor fresh (length seq_lens) _) with vs by (by rewrite <-Hvs, out_tensor_zip).
  assert (zsum ((λ s, if decide (s `mod` pool_ps a = 1) then 1 else 0) <$> seq_lens) = N) as ->; [|done].
  unfold N, decode_start. rewrite take_ge by (by rewrite length_fmap). done.
Qed.
End operations.

(** ** The kernel and the reference loop on a whole batch *)

Lemma page_start_mono pre_lens seq_lens last_locs ps i j :
  0 < ps → batch_ok pre_lens seq_lens last_locs →
  (i <= j)%nat → page_start pre_lens seq_lens ps i <= page_start pre_lens seq_lens ps j.
Proof.
  intros Hps Hb Hij. unfold page_start.
  rewrite <-(take_drop i (take j _)), zsum_app, take_take, Nat.min_l by lia.
  assert (Forall (λ x, 0 <= x) (drop i (take j (new_pages pre_lens seq_lens ps)))) as Hf.
  { apply Forall_drop, Forall_take, Forall_lookup. intros k x Hk. unfold new_pages in Hk.
    apply lookup_zip_with_Some in Hk as (s & p & -> & Hs & Hp).
    pose proof (bo_valid _ _ _ Hb k p s Hp Hs).
    assert ((p + ps - 1) / ps <= (s + ps - 1) / ps) by (apply Z.div_le_mono; lia). lia. }
  assert (0 <= zsum (drop i (take j (new_pages pre_lens seq_lens ps)))); [|lia].
  induction Hf; simpl; [lia|]. unfold zsum in *. simpl. lia.
Qed.

Lemma page_start_all pre_lens seq_lens last_locs ps :
  batch_ok pre_lens seq_lens last_locs →
  page_start pre_lens seq_lens ps (length pre_lens) = zsum (new_pages pre_lens seq_lens ps).
Proof.
  intros Hb. unfold page_start. rewrite take_ge; [done|]. unfold new_pages.
  rewrite length_zip_with, (bo_seq _ _ _ Hb). lia.
Qed.

Lemma launch_naive masked oob pre_lens seq_lens last_locs free ps U :
  lanes_agree masked → 0 < ps → batch_ok pre_lens seq_lens last_locs → Z.of_nat (length pre_lens) <= U →
  zsum (new_pages pre_lens seq_lens ps) <= Z.of_nat (length free) →
  launch (length pre_lens)
    (λ pid, alloc_extend_kernel masked oob pid pre_lens seq_lens last_locs free U ps)
  = alloc_extend_naive pre_lens seq_lens last_locs free ps.
Proof.
  intros Hm Hps Hb HU Hen. rewrite <-(page_start_all _ _ _ _ Hb) in Hen.
  unfold launch, alloc_extend_naive.
  assert (arange 0 (length pre_lens) = Z.of_nat <$> seq 0 (length pre_lens)) as ->.
  { unfold arange, seqZ. rewrite Nat2Z.id. apply list_fmap_ext. intros. lia. }
  rewrite <-list_fmap_compose. f_equal. apply list_fmap_ext. intros k i Hi. simpl.
  apply lookup_seq in Hi as [Hi1 Hi2]. simpl in Hi1.
  destruct (batch_lookup _ _ _ Hb i ltac:(lia)) as (Hp & Hs & Hl).
  pose proof (page_start_mono _ _ _ ps (S i) (length pre_lens) Hps Hb ltac:(lia)).
  rewrite (kernel_request _ _ _ free ps Hps Hb i _ _ _ Hp Hs Hl) by done.
  symmetry. apply naive_request_spec; try done. lia.
Qed.
