(* ===== verification/AllocSafe.v ===== *)
(** The slots a paged batch allocation hands out are pairwise distinct: no two
    tokens of a batch share a slot, and no new token gets a slot of a page that
    is in use.  This is also what the [debug_mode] assertions of
    [PagedTokenToKVPoolAllocator.alloc_extend] check at run time. *)
From S2P Require Import Prelude RadixCache Allocator AllocKernel.
From stdpp Require Import options.
Local Open Scope Z_scope.

(** A batch whose partly filled pages belong to one request each and are not in
    the free list. *)
Record batch_owned (pre_lens seq_lens last_locs free : list Z) (ps : Z) : Prop := {
  ow_batch : batch_ok pre_lens seq_lens last_locs;
  ow_aligned : ∀ i p l, pre_lens !! i = Some p → last_locs !! i = Some l →
    (l + 1) `mod` ps = p `mod` ps;
  ow_free : NoDup free;
  ow_used : ∀ i p l, pre_lens !! i = Some p → last_locs !! i = Some l →
    p `mod` ps ≠ 0 → l / ps ∉ free;
  ow_apart : ∀ i j p q l m, i ≠ j →
    pre_lens !! i = Some p → last_locs !! i = Some l → p `mod` ps ≠ 0 →
    pre_lens !! j = Some q → last_locs !! j = Some m → q `mod` ps ≠ 0 → l / ps ≠ m / ps;
}.

(** The page of position [j] of a request. *)
Definition slot_page (ps pre last : Z) (page : Z → Z) (j : Z) : Z :=
  if decide (j < ceil_align pre ps) then last / ps else page ((j - ceil_align pre ps) / ps).

Lemma slot_at_form ps pre last page j :
  0 < ps → (last + 1) `mod` ps = pre `mod` ps → pre <= j →
  slot_at ps pre last page j = slot_page ps pre last page j * ps + j `mod` ps.
Proof.
  intros Hps Hal Hj. unfold slot_at, slot_page. destruct (ceil_align_spec pre ps Hps) as [[Hc1 Hc2] Hc3].
  set (c := ceil_align pre ps) in *. case_decide as Hlt.
  - pose proof (Z.div_mod last ps ltac:(lia)). pose proof (Z.mod_pos_bound last ps Hps).
    pose proof (Z.div_mod (last + 1) ps ltac:(lia)). pose proof (Z.div_mod pre ps ltac:(lia)).
    pose proof (Z.mod_pos_bound pre ps Hps). pose proof (Z.div_mod c ps ltac:(lia)).
    pose proof (Z.div_mod j ps ltac:(lia)). pose proof (Z.mod_pos_bound j ps Hps).
    assert (c / ps = pre / ps + 1) by nia. assert (j / ps = pre / ps) by nia.
    assert (pre `mod` ps ≠ 0) by nia. assert (last / ps = (last + 1) / ps) by nia. nia.
  - f_equal. rewrite Zminus_mod, Hc3, Z.sub_0_r, Z.mod_mod by lia. done.
Qed.

(** Positions on the old page exist only if it is partly filled. *)
Lemma old_page_partial ps pre j :
  0 < ps → pre <= j → j < ceil_align pre ps → pre `mod` ps ≠ 0.
Proof.
  intros Hps Hj Hlt Hm. unfold ceil_align, ceil_div in Hlt.
  pose proof (Z.div_mod pre ps ltac:(lia)).
  replace (pre + ps - 1) with (pre / ps * ps + (ps - 1)) in Hlt by lia.
  rewrite Z.div_add_l, (Z.div_small (ps - 1)) in Hlt by lia. lia.
Qed.

(** Equal slots are on the same page at the same offset. *)
Lemma slot_split ps a b x y :
  0 < ps → a * ps + x `mod` ps = b * ps + y `mod` ps → a = b ∧ x `mod` ps = y `mod` ps.
Proof.
  intros Hps Heq. pose proof (Z.mod_pos_bound x ps Hps). pose proof (Z.mod_pos_bound y ps Hps).
  assert (a = b) by nia. subst. lia.
Qed.

Lemma congr_close ps x y : 0 < ps → x `mod` ps = y `mod` ps → - ps < x - y < ps → x = y.
Proof.
  intros Hps Hm Hd. pose proof (Z.div_mod x ps ltac:(lia)). pose proof (Z.div_mod y ps ltac:(lia)).
  assert (x / ps = y / ps) by nia. nia.
Qed.

Lemma NoDup_concat_seq {A} (g : nat → list A) n :
  (∀ i, (i < n)%nat → NoDup (g i)) →
  (∀ i j x, (i < j < n)%nat → x ∈ g i → x ∉ g j) →
  NoDup (concat (g <$> seq 0 n)).
Proof.
  induction n as [|n IH]; intros Hnd Hdis; [constructor|].
  rewrite seq_S, fmap_app, concat_app. cbn [fmap list_fmap concat]. rewrite app_nil_r, Nat.add_0_l.
  apply NoDup_app. split_and!; [apply IH; [intros; apply Hnd|intros i j x ?; apply Hdis]; lia| |apply Hnd; lia].
  intros x (l & Hl & Hx)%elem_of_concat. apply list_elem_of_fmap in Hl as (i & -> & Hi%elem_of_seq).
  apply (Hdis i n); [lia|done].
Qed.

(** The pages of request [i]: its new pages come from its own part of the free list. *)
Section owned.
Context (oob : Z → Z) (pre_lens seq_lens last_locs free : list Z) (ps : Z).
Context (Hps : 0 < ps) (Hown : batch_owned pre_lens seq_lens last_locs free ps).
Context (Henough : page_start pre_lens seq_lens ps (length pre_lens) <= Z.of_nat (length free)).

Let Hbatch : batch_ok pre_lens seq_lens last_locs := ow_batch _ _ _ _ _ Hown.
Let page (i : nat) : Z → Z := λ m, tl_load oob free (page_start pre_lens seq_lens ps i + m).
Let c (p : Z) : Z := ceil_align p ps.

(** Where position [j] of request [i] reads the free list. *)
Local Lemma page_index i p s j :
  pre_lens !! i = Some p → seq_lens !! i = Some s → c p <= j < s →
  let k := page_start pre_lens seq_lens ps i + (j - c p) / ps in
  page_start pre_lens seq_lens ps i <= k < page_start pre_lens seq_lens ps (S i)
  ∧ ∃ q, free !! Z.to_nat k = Some q ∧ page i ((j - c p) / ps) = q ∧ 0 <= k.
Proof using Hps Hown Henough.
  intros Hp Hs Hj k.
  assert (page_start pre_lens seq_lens ps (S i)
    = page_start pre_lens seq_lens ps i + ((s + ps - 1) / ps - (p + ps - 1) / ps)) as HS.
  { unfold page_start. erewrite zsum_take_S; [done|]. unfold new_pages.
    by rewrite lookup_zip_with, Hs, Hp. }
  assert (0 <= (j - c p) / ps) by (apply Z.div_pos; lia).
  assert ((j - c p) / ps < (s + ps - 1) / ps - (p + ps - 1) / ps).
  { apply Z.div_lt_upper_bound; [lia|]. unfold c, ceil_align, ceil_div in Hj.
    pose proof (ceil_div_spec s ps Hps) as Hc. unfold ceil_div in Hc.
    rewrite Z.mul_sub_distr_l. unfold c, ceil_align, ceil_div. lia. }
  pose proof (page_start_mono pre_lens seq_lens last_locs ps 0 i Hps Hbatch ltac:(lia)) as Hz0.
  change (page_start pre_lens seq_lens ps 0) with 0 in Hz0.
  assert (i < length pre_lens)%nat by (by eapply lookup_lt_Some).
  pose proof (page_start_mono pre_lens seq_lens last_locs ps (S i) (length pre_lens) Hps Hbatch ltac:(lia)).
  split; [lia|]. destruct (lookup_lt_is_Some_2 free (Z.to_nat k)) as [q Hq]; [lia|].
  exists q. split_and!; [done| |lia]. unfold page, tl_load.
  fold k. rewrite decide_True, Hq by lia. done.
Qed.

Let slot (i : nat) (p l j : Z) : Z := slot_at ps p l (page i) j.

(** Two positions of the batch with the same slot are the same position. *)
Lemma slot_inj i j p q l m s t x y :
  pre_lens !! i = Some p → seq_lens !! i = Some s → last_locs !! i = Some l → p <= x < s →
  pre_lens !! j = Some q → seq_lens !! j = Some t → last_locs !! j = Some m → q <= y < t →
  slot i p l x = slot j q m y → i = j ∧ x = y.
Proof using Hps Hown Henough.
  intros Hp Hs Hl Hx Hq Ht Hm Hy Heq. unfold slot in Heq.
  rewrite !slot_at_form in Heq by (try eapply ow_aligned; eauto; lia).
  apply slot_split in Heq as [Hpage Hoff]; [|done]. unfold slot_page in Hpage. fold (c p) (c q) in Hpage.
  assert (∀ i p s x, pre_lens !! i = Some p → seq_lens !! i = Some s → c p <= x < s →
    page i ((x - c p) / ps) ∈ free) as Hin.
  { intros i' p' s' x' Hp' Hs' Hx'.
    destruct (page_index i' p' s' x' Hp' Hs' Hx') as (_ & z & Hz & -> & _).
    by eapply list_elem_of_lookup_2. }
  assert (x < c p → p `mod` ps ≠ 0) as Hpx by (intros; apply (old_page_partial ps p x); unfold c in *; lia).
  assert (y < c q → q `mod` ps ≠ 0) as Hqy by (intros; apply (old_page_partial ps q y); unfold c in *; lia).
  destruct (decide (x < c p)) as [Hxo|Hxn], (decide (y < c q)) as [Hyo|Hyn].
  - destruct (decide (i = j)) as [->|Hne].
    + split; [done|]. simplify_eq. apply (congr_close ps); [done..|].
      pose proof (ceil_align_spec p ps Hps). unfold c in *. lia.
    + destruct (ow_apart _ _ _ _ _ Hown i j p q l m); auto.
  - destruct (ow_used _ _ _ _ _ Hown i p l); [auto..|].
    rewrite Hpage. by apply (Hin j q t y); [..|lia].
  - destruct (ow_used _ _ _ _ _ Hown j q m); [auto..|].
    rewrite <-Hpage. by apply (Hin i p s x); [..|lia].
  - destruct (page_index i p s x Hp Hs ltac:(lia)) as (Hki & z & Hz & Ez & ?).
    destruct (page_index j q t y Hq Ht ltac:(lia)) as (Hkj & z' & Hz' & Ez' & ?).
    assert (z = z') as <- by congruence.
    pose proof (NoDup_lookup _ _ _ _ (ow_free _ _ _ _ _ Hown) Hz Hz') as Hk.
    assert (i = j) as <-.
    { destruct (decide (i < j)%nat); [pose proof (page_start_mono pre_lens seq_lens last_locs ps (S i) j Hps Hbatch ltac:(lia)); lia|].
      destruct (decide (j < i)%nat); [pose proof (page_start_mono pre_lens seq_lens last_locs ps (S j) i Hps Hbatch ltac:(lia)); lia|]. lia. }
    split; [done|]. simplify_eq.
    pose proof (Z.div_mod (x - c p) ps ltac:(lia)) as Hdx. pose proof (Z.div_mod (y - c p) ps ltac:(lia)) as Hdy.
    assert ((x - c p) `mod` ps = (y - c p) `mod` ps) as Hmm by (by rewrite Zminus_mod, Hoff, <-Zminus_mod).
    assert ((x - c p) / ps = (y - c p) / ps) as Hdd by lia. rewrite Hmm, Hdd in Hdx. lia.
Qed.

(** The page of a slot is not among the pages left over. *)
Lemma slot_not_left i p s l x :
  pre_lens !! i = Some p → seq_lens !! i = Some s → last_locs !! i = Some l → p <= x < s →
  slot i p l x / ps ∉ drop (Z.to_nat (page_start pre_lens seq_lens ps (length pre_lens))) free.
Proof using Hps Hown Henough.
  intros Hp Hs Hl Hx. unfold slot. rewrite slot_at_form by (try eapply ow_aligned; eauto; lia).
  rewrite Z.div_add_l, (Z.div_small (x `mod` ps)), Z.add_0_r by (try apply Z.mod_pos_bound; lia).
  unfold slot_page. fold (c p). destruct (decide (x < c p)) as [Ho|Hn].
  - intros Hin. destruct (ow_used _ _ _ _ _ Hown i p l Hp Hl).
    + apply (old_page_partial ps p x); unfold c in *; lia.
    + eapply elem_of_submseteq; [exact Hin|apply sublist_submseteq, sublist_drop].
  - destruct (page_index i p s x Hp Hs ltac:(lia)) as (Hk & q & Hq & -> & ?).
    intros (k & Hk')%list_elem_of_lookup. rewrite lookup_drop in Hk'.
    pose proof (NoDup_lookup _ _ _ _ (ow_free _ _ _ _ _ Hown) Hq Hk').
    assert (i < length pre_lens)%nat by (by eapply lookup_lt_Some).
    pose proof (page_start_mono pre_lens seq_lens last_locs ps (S i) (length pre_lens) Hps Hbatch ltac:(lia)). lia.
Qed.

Lemma batch_slots_left x :
  x ∈ concat (batch_slots oob pre_lens seq_lens last_locs free ps (length pre_lens)) →
  x / ps ∉ drop (Z.to_nat (page_start pre_lens seq_lens ps (length pre_lens))) free.
Proof using Hps Hown Henough.
  intros (l & (i & -> & Hi%elem_of_seq)%list_elem_of_fmap & (y & -> & Hy%elem_of_arange)%list_elem_of_fmap)%elem_of_concat.
  destruct (batch_lookup _ _ _ (ow_batch _ _ _ _ _ Hown) i ltac:(lia)) as (Hp & Hs & Hl).
  apply (slot_not_left i _ _ _ _ Hp Hs Hl). lia.
Qed.

(** No slot is handed out twice. *)
Lemma batch_slots_NoDup :
  NoDup (concat (batch_slots oob pre_lens seq_lens last_locs free ps (length pre_lens))).
Proof using Hps Hown Henough.
  pose proof (ow_batch _ _ _ _ _ Hown) as Hb.
  assert (∀ i, (i < length pre_lens)%nat → pre_lens !! i = Some (at_ pre_lens i)
    ∧ seq_lens !! i = Some (at_ seq_lens i) ∧ last_locs !! i = Some (at_ last_locs i)) as Hat.
  { intros i Hi. by apply batch_lookup. }
  apply NoDup_concat_seq.
  - intros i Hi. destruct (Hat i Hi) as (Hp & Hs & Hl). apply NoDup_fmap_2_strong; [|apply NoDup_seqZ].
    intros x y Hx%elem_of_arange Hy%elem_of_arange Heq.
    destruct (slot_inj i i _ _ _ _ _ _ (at_ pre_lens i + x) (at_ pre_lens i + y)
      Hp Hs Hl ltac:(lia) Hp Hs Hl ltac:(lia) Heq). lia.
  - intros i j z Hij. destruct (Hat i ltac:(lia)) as (Hp & Hs & Hl), (Hat j ltac:(lia)) as (Hq & Ht & Hm).
    intros (x & -> & Hx%elem_of_arange)%list_elem_of_fmap (y & Heq & Hy%elem_of_arange)%list_elem_of_fmap.
    destruct (slot_inj i j _ _ _ _ _ _ (at_ pre_lens i + x) (at_ pre_lens j + y)
      Hp Hs Hl ltac:(lia) Hq Ht Hm ltac:(lia) Heq). lia.
Qed.
End owned.

Section operation.
Context (masked : MaskedLanes) (Hm : lanes_agree masked) (oob fresh : Z → Z).

Lemma NoDup_unique_length l : NoDup l → length (Paged.unique l) = length l.
Proof.
  intros Hl. unfold Paged.unique. rewrite sort_perm. apply Permutation_length.
  apply NoDup_Permutation; [apply NoDup_remove_dups|done|]. intros x. apply elem_of_remove_dups.
Qed.

(** With enough pages [alloc_extend] returns in debug mode too: its assertions hold. *)
Lemma alloc_extend_safe pre_lens seq_lens last_locs n nn a :
  let b := extend_pool n (length pre_lens) a in
  let N := zsum (new_pages pre_lens seq_lens (pool_ps a)) in
  0 < pool_ps a → batch_owned pre_lens seq_lens last_locs (free_pages b) (pool_ps a) →
  Z.of_nat n = zsum (zip_with Z.sub seq_lens pre_lens) → nn = None ∨ nn = Some N →
  N <= Z.of_nat (length (free_pages b)) →
  ∃ out a', alloc_extend masked oob fresh pre_lens pre_lens seq_lens seq_lens last_locs n nn a
      = Ok (Some out, a')
    ∧ out = concat (batch_slots oob pre_lens seq_lens last_locs (free_pages b) (pool_ps a)
                      (length pre_lens))
    ∧ NoDup out ∧ free_pages a' = drop (Z.to_nat N) (free_pages b)
    ∧ ∀ x, x ∈ out → x / pool_ps a ∉ free_pages a'.
Proof using Hm.
  intros b N Hps Hown Hn HN Hen. pose proof (ow_batch _ _ _ _ _ Hown) as Hb.
  destruct (extend_pool_spec n (length pre_lens) a) as (_ & Hpsb & Hdbb).
  assert (page_start pre_lens seq_lens (pool_ps a) (length pre_lens) = N) as Hst.
  { unfold page_start, N. rewrite take_ge; [done|]. unfold new_pages.
    rewrite length_zip_with, (bo_seq _ _ _ Hb). lia. }
  set (out := concat (batch_slots oob pre_lens seq_lens last_locs (free_pages b) (pool_ps a)
                        (length pre_lens))).
  assert (NoDup out) as Hnd by (by apply batch_slots_NoDup; rewrite ?Hst).
  exists out, (set_free (drop (Z.to_nat N) (free_pages b)) (release_pages b) b).
  split_and!; [|done|done|done|].
  2: { intros x Hx. simpl. rewrite <-Hst.
    by apply (batch_slots_left oob pre_lens seq_lens last_locs); [| |rewrite Hst|]. }
  unfold alloc_extend. fold (extend_pool n (length pre_lens) a). fold b.
  rewrite (launch_output masked Hm oob fresh pre_lens seq_lens last_locs Hb)
    by (done || apply next_power_of_2_ge). fold out. fold b in Hdbb. rewrite Hdbb.
  assert (Forall (λ '(l, p), (l + 1) `mod` pool_ps a = p `mod` pool_ps a) (zip last_locs pre_lens)) as Hf.
  { apply Forall_lookup. intros i [l p] (? & ? & [= -> ->] & Hl & Hp)%lookup_zip_with_Some.
    by eapply ow_aligned. }
  rewrite (bool_decide_true _ Hf), (bool_decide_true _ (NoDup_unique_length _ Hnd)).
  assert (match nn with Some n => Ok n | None => get_num_new_pages seq_lens (pool_ps a)
    (Some pre_lens) false end = Ok N) as ->.
  { destruct HN as [->| ->]; [|done]. simpl. f_equal. unfold N, new_pages.
    by rewrite zip_with_fmap_l, zip_with_fmap_r. }
  destruct (debug_mode a); cbn [py_assert mbind result_bind]; by rewrite decide_False by lia.
Qed.
End operation.
