(* ===== verification/ReqPool.v ===== *)
(** Requests and the pool that maps them to KV slots: [ReqToTokenPool] of
    mem_cache/memory_pool.py and the KV bookkeeping of [Req]
    (managers/schedule_batch.py).

    A row of [req_to_token] is the list of slots of one request.  Rows are
    views of one tensor; a slice that is read and a slice that is written are
    separated the way the code separates them. *)
From S2P Require Import Prelude RadixKey.
From stdpp Require Import options.

(** The attributes of [Req] the memory management uses. *)
Record Req := MkReq {
  origin_input_ids : list Z;
  output_ids : list Z;
  fill_ids : list Z;
  req_extra_key : option string;
  req_priority : option Z;
  req_pool_idx : option nat;
  prefix_indices : list Z;
  last_node : option nat;
  cache_protected_len : nat;
  kv_committed_len : nat;
  kv_allocated_len : nat;
  kv_committed_freed : bool;
  kv_overallocated_freed : bool;
  is_chunked : Z;
  reasoning_tokens : Z;
  skip_radix_cache_insert : bool;
}.

(** [self.req_pool_idx = i] *)
Definition set_pool_idx (i : option nat) (r : Req) : Req :=
  MkReq (origin_input_ids r) (output_ids r) (fill_ids r) (req_extra_key r) (req_priority r) i
    (prefix_indices r) (last_node r) (cache_protected_len r) (kv_committed_len r)
    (kv_allocated_len r) (kv_committed_freed r) (kv_overallocated_freed r) (is_chunked r)
    (reasoning_tokens r) (skip_radix_cache_insert r).
(** The assignments at the end of [cache_unfinished_req]. *)
Definition set_prefix (idx : list Z) (protected : nat) (node : option nat) (r : Req) : Req :=
  MkReq (origin_input_ids r) (output_ids r) (fill_ids r) (req_extra_key r) (req_priority r)
    (req_pool_idx r) idx node protected (kv_committed_len r)
    (kv_allocated_len r) (kv_committed_freed r) (kv_overallocated_freed r) (is_chunked r)
    (reasoning_tokens r) (skip_radix_cache_insert r).
(** The two "freed" flags. *)
Definition set_freed (committed overallocated : bool) (r : Req) : Req :=
  MkReq (origin_input_ids r) (output_ids r) (fill_ids r) (req_extra_key r) (req_priority r)
    (req_pool_idx r) (prefix_indices r) (last_node r) (cache_protected_len r) (kv_committed_len r)
    (kv_allocated_len r) committed overallocated (is_chunked r)
    (reasoning_tokens r) (skip_radix_cache_insert r).

(** [seqlen] *)
Definition seqlen (r : Req) : nat := length (origin_input_ids r) + length (output_ids r).

(** [_cache_commit_len]; [strip] is the server argument [strip_thinking_cache]. *)
Definition cache_commit_len (strip : bool) (r : Req) : nat :=
  if strip && bool_decide (0 < reasoning_tokens r)%Z
  then Nat.min (kv_committed_len r) (length (origin_input_ids r))
  else kv_committed_len r.

Definition pop_committed_kv_cache (strip : bool) (r : Req) : result (nat * Req) :=
  _ ← py_assert (negb (kv_committed_freed r));
  let r := set_freed true (kv_overallocated_freed r) r in
  Ok (cache_commit_len strip r, r).

Definition pop_overallocated_kv_cache (strip : bool) (r : Req) : result (nat * nat * Req) :=
  _ ← py_assert (negb (kv_overallocated_freed r));
  let r := set_freed (kv_committed_freed r) true r in
  Ok (cache_commit_len strip r, kv_allocated_len r, r).

(** ** ReqToTokenPool *)

Record ReqToTokenPool := MkRPool {
  rp_size : nat;
  max_context_len : nat;
  req_to_token : list (list Z);
  free_slots : list nat;
}.

(** [list(range(1, size + 1))]: row 0 is the padding row. *)
Definition all_slots (size : nat) : list nat := seq 1 size.

Definition rp_init (size max_context_len : nat) : ReqToTokenPool :=
  MkRPool size max_context_len (replicate (S size) (replicate max_context_len 0%Z)) (all_slots size).

Definition rp_available_size (p : ReqToTokenPool) : nat := length (free_slots p).

Definition set_slots (s : list nat) (p : ReqToTokenPool) : ReqToTokenPool :=
  MkRPool (rp_size p) (max_context_len p) (req_to_token p) s.
Definition set_table (t : list (list Z)) (p : ReqToTokenPool) : ReqToTokenPool :=
  MkRPool (rp_size p) (max_context_len p) t (free_slots p).

(** [req_to_token[idx]] *)
Definition get_row (p : ReqToTokenPool) (idx : nat) : result (list Z) :=
  unwrap IndexError (req_to_token p !! idx).

(** [row[a:b] = values]: the slice is clamped to the row; a single value is
    broadcast, any other difference of lengths is an error. *)
Definition row_write (a b : nat) (values row : list Z) : result (list Z) :=
  let a := Nat.min a (length row) in
  let b := Nat.min b (length row) in
  let n := b - a in
  let put vs := take a row ++ vs ++ drop (a + n) row in
  if decide (length values = n) then Ok (put values)
  else match values with
       | [v] => Ok (put (replicate n v))
       | _ => Raise RuntimeError
       end.

(** [write((idx, slice(a, b)), values)] *)
Definition write_slice (idx a b : nat) (values : list Z) (p : ReqToTokenPool)
    : result ReqToTokenPool :=
  row ← get_row p idx;
  row ← row_write a b values row;
  Ok (set_table (<[idx := row]> (req_to_token p)) p).

(** [write((rows, cols), values)]: one element per row. *)
Fixpoint write_points (rows cols : list nat) (values : list Z) (p : ReqToTokenPool)
    : result ReqToTokenPool :=
  match rows, cols, values with
  | [], [], [] => Ok p
  | i :: rows, j :: cols, v :: values =>
      row ← get_row p i;
      _ ← unwrap IndexError (row !! j);
      write_points rows cols values (set_table (<[i := <[j := v]> row]> (req_to_token p)) p)
  | _, _, _ => Raise RuntimeError
  end.

(** [alloc(reqs)]: requests without a row get one, the others keep theirs. *)
Fixpoint assign_slots (reqs : list Req) (sel : list nat) : list Req :=
  match reqs with
  | [] => []
  | r :: reqs =>
      match req_pool_idx r with
      | Some _ => r :: assign_slots reqs sel
      | None => set_pool_idx (head sel) r :: assign_slots reqs (tail sel)
      end
  end.

Definition reusing (r : Req) : bool := bool_decide (is_Some (req_pool_idx r)).

Definition rp_alloc (reqs : list Req) (p : ReqToTokenPool)
    : result (option (list nat) * list Req * ReqToTokenPool) :=
  let reuse := List.filter reusing reqs in
  _ ← py_assert (forallb (λ r, bool_decide (0 < is_chunked r)%Z
                               || bool_decide (0 < kv_committed_len r)) reuse);
  let need_size := length reqs - length reuse in
  if decide (length (free_slots p) < need_size) then Ok (None, reqs, p)
  else
    let select_index := take need_size (free_slots p) in
    let reqs := assign_slots reqs select_index in
    Ok (Some (omap req_pool_idx reqs), reqs, set_slots (drop need_size (free_slots p)) p).

Definition rp_free (r : Req) (p : ReqToTokenPool) : result (Req * ReqToTokenPool) :=
  match req_pool_idx r with
  | None => Raise AssertionError
  | Some i => Ok (set_pool_idx None r, set_slots (free_slots p ++ [i]) p)
  end.

Definition rp_clear (p : ReqToTokenPool) : ReqToTokenPool := set_slots (all_slots (rp_size p)) p.

(** ** Lemmas *)

(** Writing a slice of the right length: reads of the row see exactly it. *)
Lemma row_write_ok a b values row :
  a ≤ b → b ≤ length row → length values = b - a →
  row_write a b values row = Ok (take a row ++ values ++ drop b row).
Proof.
  intros Hab Hb Hv. unfold row_write. rewrite !Nat.min_l by lia.
  rewrite decide_True by done. by rewrite <-Nat.le_add_sub.
Qed.

Lemma write_slice_ok idx a b values p row :
  req_to_token p !! idx = Some row → a ≤ b → b ≤ length row → length values = b - a →
  write_slice idx a b values p
  = Ok (set_table (<[idx := take a row ++ values ++ drop b row]> (req_to_token p)) p).
Proof.
  intros Hrow Hab Hb Hv. unfold write_slice, get_row. rewrite Hrow. cbn [mbind result_bind unwrap].
  by rewrite row_write_ok.
Qed.

(** A slice of the wrong length is refused. *)
Lemma write_slice_mismatch idx a b values p row :
  req_to_token p !! idx = Some row → b ≤ length row → a ≤ b →
  length values ≠ b - a → length values ≠ 1 → write_slice idx a b values p = Raise RuntimeError.
Proof.
  intros Hrow Hb Hab Hv H1. unfold write_slice, get_row. rewrite Hrow. cbn [mbind result_bind unwrap].
  unfold row_write. rewrite !Nat.min_l, decide_False by lia.
  destruct values as [|v [|w vs]]; simpl in *; try done.
Qed.

(** [pop_committed_kv_cache] succeeds once. *)
Lemma pop_committed_twice strip r n r' :
  pop_committed_kv_cache strip r = Ok (n, r') →
  n = cache_commit_len strip r ∧ pop_committed_kv_cache strip r' = Raise AssertionError.
Proof.
  unfold pop_committed_kv_cache. destruct (kv_committed_freed r); simpl; [done|].
  intros [= <- <-]. done.
Qed.

(** The committed and the over-allocated range tile the allocated one. *)
Lemma pop_ranges strip r n r1 s e r2 :
  pop_committed_kv_cache strip r = Ok (n, r1) → pop_overallocated_kv_cache strip r1 = Ok (s, e, r2) →
  s = n ∧ e = kv_allocated_len r ∧ kv_committed_freed r2 = true ∧ kv_overallocated_freed r2 = true.
Proof.
  unfold pop_committed_kv_cache, pop_overallocated_kv_cache.
  destruct (kv_committed_freed r); simpl; [done|]. intros [= <- <-]. simpl.
  destruct (kv_overallocated_freed r); simpl; [done|]. intros [= <- <- <-]. done.
Qed.

(** *** Allocation of rows *)

(** The rows held by requests. *)
Definition rows_of (reqs : list Req) : list nat := omap req_pool_idx reqs.

Lemma rows_of_cons r reqs :
  rows_of (r :: reqs) = match req_pool_idx r with Some i => i :: rows_of reqs | None => rows_of reqs end.
Proof. done. Qed.

Lemma reusing_length reqs : length (List.filter reusing reqs) = length (rows_of reqs).
Proof.
  induction reqs as [|r reqs IH]; [done|]. rewrite rows_of_cons. simpl. unfold reusing at 1.
  destruct (req_pool_idx r); [rewrite bool_decide_true by eauto|rewrite bool_decide_false by (by intros [])];
    simpl; by rewrite IH.
Qed.

Lemma rows_of_length reqs : length (rows_of reqs) ≤ length reqs.
Proof.
  induction reqs as [|r reqs IH]; [done|]. rewrite rows_of_cons.
  destruct (req_pool_idx r); simpl; lia.
Qed.

Lemma assign_slots_spec reqs sel :
  length sel = length reqs - length (rows_of reqs) →
  rows_of (assign_slots reqs sel) ≡ₚ sel ++ rows_of reqs
  ∧ length (rows_of (assign_slots reqs sel)) = length reqs
  ∧ Forall2 (λ r r', ∃ i, r' = set_pool_idx (Some i) r ∧ (∀ j, req_pool_idx r = Some j → i = j))
      reqs (assign_slots reqs sel).
Proof.
  revert sel. induction reqs as [|r reqs IH]; intros sel Hlen.
  { destruct sel; [|done]. split; [done|]. split; [done|]. constructor. }
  pose proof (rows_of_length reqs) as Hle. rewrite rows_of_cons in *.
  cbn [assign_slots]. destruct (req_pool_idx r) as [i|] eqn:Hi; simpl in Hlen.
  - destruct (IH sel) as (Hp & Hl & Hf); [lia|]. rewrite rows_of_cons, Hi. split_and!.
    + rewrite Hp. apply Permutation_middle.
    + simpl. by rewrite Hl.
    + constructor; [|done]. exists i. split; [destruct r; simpl in *; by subst|naive_solver].
  - destruct sel as [|i sel]; simpl in Hlen; [lia|]. cbn [head tail].
    destruct (IH sel) as (Hp & Hl & Hf); [lia|]. rewrite rows_of_cons.
    cbn [req_pool_idx set_pool_idx length app]. split_and!.
    + by rewrite Hp.
    + by rewrite Hl.
    + constructor; [|done]. exists i. naive_solver.
Qed.

(** [alloc] gives every request a row: free rows move to the requests, none is
    shared, and requests that had one keep it. *)
Lemma rp_alloc_spec reqs p rows reqs' p' :
  rp_alloc reqs p = Ok (Some rows, reqs', p') →
  rows = rows_of reqs' ∧ length rows = length reqs
  ∧ rows ++ free_slots p' ≡ₚ rows_of reqs ++ free_slots p
  ∧ req_to_token p' = req_to_token p
  ∧ Forall2 (λ r r', ∃ i, r' = set_pool_idx (Some i) r ∧ (∀ j, req_pool_idx r = Some j → i = j)) reqs reqs'.
Proof.
  unfold rp_alloc. destruct (py_assert _) as [[]| |]; [|done..]. cbn [mbind result_bind].
  rewrite reusing_length. case_decide as Hn; [done|]. intros [= <- <- <-].
  pose proof (rows_of_length reqs).
  destruct (assign_slots_spec reqs (take (length reqs - length (rows_of reqs)) (free_slots p)))
    as (Hp & Hl & Hf); [rewrite length_take; lia|].
  split_and!; try done. simpl. fold (rows_of (assign_slots reqs (take (length reqs - length (rows_of reqs)) (free_slots p)))).
  rewrite Hp, (Permutation_app_comm _ (rows_of reqs)), <-app_assoc, take_drop. done.
Qed.

(** It fails only when the pool is short of rows, or a request that reuses its
    row is neither chunked nor has committed KV. *)
Lemma rp_alloc_none reqs p :
  Forall (λ r, is_Some (req_pool_idx r) → (0 < is_chunked r)%Z ∨ 0 < kv_committed_len r) reqs →
  (∃ rows reqs' p', rp_alloc reqs p = Ok (Some rows, reqs', p'))
  ∨ (rp_alloc reqs p = Ok (None, reqs, p)
     ∧ length (free_slots p) < length reqs - length (rows_of reqs)).
Proof.
  intros Hall. unfold rp_alloc.
  assert (forallb (λ r, bool_decide (0 < is_chunked r)%Z || bool_decide (0 < kv_committed_len r))
    (List.filter reusing reqs) = true) as ->.
  { apply forallb_forall. intros r [Hin Hr]%filter_In. apply list_elem_of_In in Hin.
    rewrite Forall_forall in Hall. unfold reusing in Hr. apply bool_decide_eq_true in Hr.
    destruct (Hall r Hin Hr); [rewrite bool_decide_true by done|rewrite (bool_decide_true (0 < kv_committed_len r)) by done];
      by rewrite ?orb_true_r. }
  cbn [py_assert mbind result_bind]. rewrite reusing_length.
  case_decide; [by right|]. left. eauto.
Qed.

(** Freeing the row of a request gives it back. *)
Lemma rp_alloc_free r i p :
  req_pool_idx r = Some i →
  rp_free r p = Ok (set_pool_idx None r, set_slots (free_slots p ++ [i]) p).
Proof. intros Hi. unfold rp_free. by rewrite Hi. Qed.
