(* ===== verification/MemKernels.v ===== *)
(** The request table on the device: [write_cache_indices] with its kernel
    [write_req_to_token_pool_triton], and the four versions of [get_last_loc]
    (mem_cache/common.py).

    A kernel sees [req_to_token] as one flat tensor, row after row; its programs
    return their stores as in AllocKernel.  The index tensors are int64 tensors,
    whose products stay far below 2^63, so addresses are plain integers. *)
From S2P Require Import Prelude RadixKey RadixCache Allocator AllocKernel ReqPool.
From stdpp Require Import options.
Local Open Scope Z_scope.

(** ** Indexing with tensors *)

(** [l[j]]: a negative index counts from the end. *)
Definition t_index {A} (l : list A) (j : Z) : result A :=
  let n := Z.of_nat (length l) in
  if decide (- n <= j < n) then unwrap IndexError (l !! Z.to_nat (if decide (j < 0) then j + n else j))
  else Raise IndexError.

(** [table[rows, cols]] for two index tensors of the same shape. *)
Fixpoint gather (table : list (list Z)) (rows cols : list Z) : result (list Z) :=
  match rows, cols with
  | [], [] => Ok []
  | i :: rows, j :: cols =>
      row ← t_index table i;
      v ← t_index row j;
      vs ← gather table rows cols;
      Ok (v :: vs)
  | _, _ => Raise IndexError
  end.

(** ** get_last_loc *)

(** [torch.where(prefix_lens > 0, req_to_token[req_pool_indices, prefix_lens - 1], -1)] *)
Definition get_last_loc_torch (req_to_token : list (list Z)) (req_pool_indices prefix_lens : list Z)
    : result (list Z) :=
  vs ← gather req_to_token req_pool_indices ((λ n, n - 1) <$> prefix_lens);
  Ok (zip_with (λ n v, if decide (0 < n) then v else -1) prefix_lens vs).

Section kernels.
Context (oob fresh : Z → Z).

(** [tl.load(ptr + addr, mask=mask, other=other)] *)
Definition load_other (t : list Z) (mask : bool) (other addr : Z) : Z :=
  if mask then tl_load oob t addr else other.

(** [get_last_loc_kernel] *)
Definition get_last_loc_kernel (req_to_token req_pool_indices prefix_lens : list Z)
    (num_tokens stride BLOCK_SIZE pid : Z) : list (Z * Z) :=
  let lane offset :=
    let mask := bool_decide (offset < num_tokens) in
    let prefix_len := load_other prefix_lens mask 0 offset in
    let req_pool_index := load_other req_pool_indices mask 0 offset in
    let token_mask := bool_decide (0 < prefix_len) in
    let token_index := req_pool_index * stride + (prefix_len - 1) in
    (offset, load_other req_to_token token_mask (-1) token_index) in
  lane <$> filter (λ offset, offset < num_tokens)
             ((λ o, pid * BLOCK_SIZE + o) <$> arange 0 (Z.to_nat BLOCK_SIZE)).

(** [_get_last_loc_safe_kernel]; the two branches on [PREFIX_DTYPE_IS_I64]
    compute the same address, the result is an int32 like the table. *)
Definition get_last_loc_safe_kernel (req_to_token req_pool_indices prefix_lens : list Z)
    (num_tokens stride BLOCK_SIZE pid : Z) : list (Z * Z) :=
  let lane offset :=
    let mask := bool_decide (offset < num_tokens) in
    let prefix_len := load_other prefix_lens mask 0 offset in
    let req_pool_index := load_other req_pool_indices mask 0 offset in
    let token_index := req_pool_index * stride + (prefix_len - 1) in
    let token_mask := mask && bool_decide (0 < prefix_len) in
    (offset, load_other req_to_token token_mask (-1) token_index) in
  lane <$> filter (λ offset, offset < num_tokens)
             ((λ o, pid * BLOCK_SIZE + o) <$> arange 0 (Z.to_nat BLOCK_SIZE)).

(** [get_last_loc_triton]; [stride] is [req_to_token.stride(0)]. *)
Definition get_last_loc_triton (req_to_token : list (list Z)) (stride : Z)
    (req_pool_indices prefix_lens : list Z) : list Z :=
  let BLOCK_SIZE := 256 in
  let num_tokens := Z.of_nat (length prefix_lens) in
  out_tensor fresh (length prefix_lens)
    (launch (Z.to_nat (ceil_div num_tokens BLOCK_SIZE))
       (get_last_loc_kernel (concat req_to_token) req_pool_indices prefix_lens num_tokens stride BLOCK_SIZE)).

(** [get_last_loc_triton_safe] *)
Definition get_last_loc_triton_safe (req_to_token : list (list Z)) (stride : Z)
    (req_pool_indices prefix_lens : list Z) : list Z :=
  let num_tokens := Z.of_nat (length prefix_lens) in
  let BLOCK_SIZE := 256 in
  out_tensor fresh (length prefix_lens)
    (launch (Z.to_nat (ceil_div num_tokens BLOCK_SIZE))
       (get_last_loc_safe_kernel (concat req_to_token) req_pool_indices prefix_lens num_tokens stride
          BLOCK_SIZE)).

(** [get_last_loc]; [is_hip] and [attn_backend] are the platform and the server
    argument it reads. *)
Definition get_last_loc (is_hip : bool) (attn_backend : string) (req_to_token : list (list Z))
    (stride : Z) (req_pool_indices prefix_lens : list Z) : result (list Z) :=
  let uses_triton_dispatch :=
    negb (bool_decide (attn_backend = "ascend") || bool_decide (attn_backend = "torch_native")) in
  if is_hip && uses_triton_dispatch then
    Ok (get_last_loc_triton_safe req_to_token stride req_pool_indices prefix_lens)
  else if uses_triton_dispatch then
    Ok (get_last_loc_triton req_to_token stride req_pool_indices prefix_lens)
  else get_last_loc_torch req_to_token req_pool_indices prefix_lens.

(** ** write_cache_indices *)

(** A masked copy loop of a kernel in blocks of [B]. *)
Definition copy_blocks (B n : Z) (dst : Z) (src : list Z) (src_start : Z) : list (Z * Z) :=
  concat ((λ i, (λ offset, (dst + offset, tl_load oob src (src_start + offset)))
                  <$> filter (λ o, o < n) ((λ o, i * B + o) <$> arange 0 (Z.to_nat B)))
          <$> arange 0 (Z.to_nat (ceil_div n B))).

(** [write_req_to_token_pool_triton]; [prefix_tensors] are the tensors behind the
    pointers. *)
Definition write_req_to_token_pool_triton (req_pool_indices : list Z) (prefix_tensors : list (list Z))
    (pre_lens seq_lens extend_lens out_cache_loc : list Z) (stride pid : Z) : list (Z * Z) :=
  let BLOCK_SIZE := 512 in
  let req_pool_index := tl_load oob req_pool_indices pid in
  let pre_len := tl_load oob pre_lens pid in
  let seq_len := tl_load oob seq_lens pid in
  let prefix_tensor := default [] (prefix_tensors !! Z.to_nat pid) in
  let cumsum_start := zsum ((λ i, tl_load oob extend_lens i) <$> arange 0 (Z.to_nat pid)) in
  copy_blocks BLOCK_SIZE pre_len (req_pool_index * stride) prefix_tensor 0
  ++ copy_blocks BLOCK_SIZE (seq_len - pre_len) (req_pool_index * stride + pre_len)
       out_cache_loc cumsum_start.
End kernels.

(** Memory after stores. *)
Definition apply_stores (ws : list (Z * Z)) (m : list Z) : list Z :=
  foldl (λ m w, <[Z.to_nat w.1 := w.2]> m) m ws.

(** The loop of [write_cache_indices] for backends without triton. *)
Fixpoint write_cache_loop (out_cache_loc : list Z) (pt : nat)
    (reqs : list (nat * nat * nat * nat * list Z)) (p : ReqToTokenPool) : result ReqToTokenPool :=
  match reqs with
  | [] => Ok p
  | (req_idx, prefix_len, seq_len, extend_len, prefix_tensor) :: reqs =>
      p ← write_slice req_idx 0 prefix_len prefix_tensor p;
      p ← write_slice req_idx prefix_len seq_len (py_slice pt (pt + extend_len) out_cache_loc) p;
      write_cache_loop out_cache_loc (pt + extend_len) reqs p
  end.

(** A flat tensor as rows of [W] elements. *)
Definition chunks (W n : nat) (m : list Z) : list (list Z) :=
  (λ r, py_slice (r * W) (r * W + W) m) <$> seq 0 n.

(** One request of the batch: row, prefix length, sequence length, extension
    length, prefix slots. *)
Abbreviation wreq := (nat * nat * nat * nat * list Z)%type.
Definition w_row (r : wreq) : nat := r.1.1.1.1.
Definition w_pre (r : wreq) : nat := r.1.1.1.2.
Definition w_seq (r : wreq) : nat := r.1.1.2.
Definition w_ext (r : wreq) : nat := r.1.2.
Definition w_prefix (r : wreq) : list Z := r.2.

(** [write_cache_indices]; [triton] is [support_triton(attention_backend)].  The
    kernel writes [req_to_token] in place; its second dimension is
    [max_context_len]. *)
Definition write_cache_indices (oob : Z → Z) (triton : bool) (out_cache_loc : list Z)
    (reqs : list wreq) (p : ReqToTokenPool) : result ReqToTokenPool :=
  if triton then
    let ints (f : wreq → nat) := (λ r, Z.of_nat (f r)) <$> reqs in
    let W := max_context_len p in
    let ws := launch (length reqs)
      (write_req_to_token_pool_triton oob (ints w_row) (w_prefix <$> reqs) (ints w_pre) (ints w_seq)
         (ints w_ext) out_cache_loc (Z.of_nat W)) in
    Ok (set_table (chunks W (length (req_to_token p)) (apply_stores ws (concat (req_to_token p)))) p)
  else write_cache_loop out_cache_loc 0 reqs p.

(** ** Lemmas: blocked copies and stores *)

Lemma load_slice oob (src : list Z) (a n : nat) :
  (a + n <= length src)%nat →
  (λ o, tl_load oob src (Z.of_nat a + o)) <$> arange 0 n = py_slice a (a + n) src.
Proof.
  intros Hle. apply list_eq. intros k. rewrite list_lookup_fmap.
  destruct (decide (k < n)%nat) as [Hk|Hk].
  - rewrite arange_lookup by done. simpl. unfold tl_load. rewrite decide_True by lia.
    replace (Z.to_nat (Z.of_nat a + (0 + Z.of_nat k))) with (a + k)%nat by lia.
    unfold py_slice. rewrite lookup_take_lt by lia. rewrite lookup_drop.
    destruct (lookup_lt_is_Some_2 src (a + k)) as [x ->]; [lia|done].
  - rewrite !lookup_ge_None_2; [done|rewrite py_slice_length; lia|rewrite arange_length; lia].
Qed.

(** A blocked copy stores the slice, in order. *)
Lemma copy_blocks_spec oob B dst src (a n : nat) :
  0 < B → (a + n <= length src)%nat →
  copy_blocks oob B (Z.of_nat n) dst src (Z.of_nat a) = store_slice dst (py_slice a (a + n) src).
Proof.
  intros HB Hle. unfold copy_blocks.
  rewrite (concat_fmap_fmap (λ offset, (dst + offset, tl_load oob src (Z.of_nat a + offset)))).
  rewrite (blocks_range B) by done.
  pose proof (ceil_div_spec (Z.of_nat n) B HB) as Hc.
  rewrite filter_arange_0 by nia. rewrite Nat2Z.id. unfold store_slice.
  assert (length (py_slice a (a + n) src) = n) as -> by (rewrite py_slice_length; lia).
  rewrite <-(load_slice oob) by done.
  replace (arange dst n) with ((λ o, dst + o) <$> arange 0 n) by (rewrite arange_shift; f_equal; lia).
  symmetry. apply (zip_with_fmap_same pair).
Qed.

Lemma apply_stores_app ws1 ws2 m : apply_stores (ws1 ++ ws2) m = apply_stores ws2 (apply_stores ws1 m).
Proof. apply foldl_app. Qed.

(** Storing a slice replaces it. *)
Lemma apply_slice (a : nat) vs m :
  (a + length vs <= length m)%nat →
  apply_stores (store_slice (Z.of_nat a) vs) m = take a m ++ vs ++ drop (a + length vs) m.
Proof.
  unfold store_slice. revert a m. induction vs as [|v vs IH]; intros a m Hle.
  - simpl. by rewrite Nat.add_0_r, take_drop.
  - cbn [length] in *. rewrite arange_cons. cbn [zip zip_with].
    change (apply_stores ((Z.of_nat a, v) :: ?ws) m) with (apply_stores ws (<[Z.to_nat (Z.of_nat a) := v]> m)).
    rewrite Nat2Z.id. replace (Z.of_nat a + 1) with (Z.of_nat (S a)) by lia.
    rewrite IH by (rewrite length_insert; lia).
    rewrite insert_take_drop by lia.
    rewrite take_app_ge, drop_app_ge; rewrite length_take_le by lia; [|lia..].
    replace (S a - a)%nat with 1%nat by lia. replace (S a + length vs - a)%nat with (S (length vs)) by lia.
    simpl. rewrite drop_drop, <-app_assoc. simpl. do 4 f_equal. lia.
Qed.

Section flat.
Context (W : nat).
Definition width_ok (table : list (list Z)) : Prop := Forall (λ row, length row = W) table.

Lemma concat_length table : width_ok table → length (concat table) = (length table * W)%nat.
Proof using. induction 1 as [|row t Hr _ IH]; simpl; [done|]. rewrite length_app, IH, Hr. lia. Qed.

Lemma concat_row table i row :
  width_ok table → table !! i = Some row →
  concat table = concat (take i table) ++ row ++ concat (drop (S i) table)
  ∧ length (concat (take i table)) = (i * W)%nat.
Proof using.
  intros Hw Hi. split.
  - rewrite <-(take_drop_middle table i row Hi) at 1. rewrite concat_app. done.
  - rewrite concat_length by (by apply Forall_take).
    apply lookup_lt_Some in Hi. rewrite length_take_le by lia. done.
Qed.

(** Writing a slice of a row, seen in the flat tensor. *)
Lemma flat_write table i row a vs :
  width_ok table → table !! i = Some row → (a + length vs <= W)%nat →
  apply_stores (store_slice (Z.of_nat i * Z.of_nat W + Z.of_nat a) vs) (concat table)
  = concat (<[i := take a row ++ vs ++ drop (a + length vs) row]> table).
Proof using.
  intros Hw Hi Hle. destruct (concat_row table i row Hw Hi) as [Hc Hl].
  assert (length row = W) as Hrow by (by eapply Forall_lookup_1 in Hw).
  replace (Z.of_nat i * Z.of_nat W + Z.of_nat a) with (Z.of_nat (i * W + a)) by lia.
  pose proof (lookup_lt_Some _ _ _ Hi).
  rewrite apply_slice.
  2: { rewrite concat_length by done. nia. }
  rewrite insert_take_drop by done. rewrite concat_app. cbn [concat].
  rewrite Hc at 1 2.
  rewrite take_app_ge, drop_app_ge by lia. rewrite Hl.
  replace (i * W + a - i * W)%nat with a by lia.
  replace (i * W + a + length vs - i * W)%nat with (a + length vs)%nat by lia.
  rewrite take_app_le, drop_app_le by lia. by rewrite <-!app_assoc.
Qed.

Lemma chunks_concat table : width_ok table → chunks W (length table) (concat table) = table.
Proof using.
  intros Hw. unfold chunks. apply list_eq. intros i. rewrite list_lookup_fmap.
  destruct (table !! i) as [row|] eqn:Hi.
  - rewrite lookup_seq_lt by (by eapply lookup_lt_Some). simpl. f_equal.
    destruct (concat_row table i row Hw Hi) as [-> Hl]. unfold py_slice.
    replace (i * W + W - i * W)%nat with W by lia. rewrite drop_app_ge by lia.
    rewrite Hl, Nat.sub_diag, drop_0, take_app_le.
    + apply take_ge. by eapply Forall_lookup_1 in Hw as ->.
    + by eapply Forall_lookup_1 in Hw as ->.
  - rewrite lookup_seq_ge; [done|]. by apply lookup_ge_None.
Qed.
End flat.

(** ** Lemmas: write_cache_indices *)

(** A request whose data fit the table. *)
Record wreq_ok (W n : nat) (r : wreq) : Prop := {
  wr_row : (w_row r < n)%nat;
  wr_prefix : length (w_prefix r) = w_pre r;
  wr_seq : (w_pre r <= w_seq r <= W)%nat;
  wr_ext : w_ext r = (w_seq r - w_pre r)%nat;
}.

(** Slots taken from [out_cache_loc] by the requests before. *)
Definition w_total (reqs : list wreq) : nat := sum_list_with w_ext reqs.

(** What the row of a request becomes. *)
Definition w_result (out : list Z) (pt : nat) (r : wreq) (row : list Z) : list Z :=
  w_prefix r ++ py_slice pt (pt + w_ext r) out ++ drop (w_seq r) row.

(** The stores of one request. *)
Definition w_stores (W : nat) (out : list Z) (pt : nat) (r : wreq) : list (Z * Z) :=
  store_slice (Z.of_nat (w_row r) * Z.of_nat W) (w_prefix r)
  ++ store_slice (Z.of_nat (w_row r) * Z.of_nat W + Z.of_nat (w_pre r)) (py_slice pt (pt + w_ext r) out).

Section write.
Context (W : nat) (out : list Z).

(** One request: the two slice writes, and the same stores in flat memory. *)
Lemma write_one pt r p row :
  width_ok W (req_to_token p) → wreq_ok W (length (req_to_token p)) r →
  req_to_token p !! w_row r = Some row → (pt + w_ext r <= length out)%nat →
  let p' := set_table (<[w_row r := w_result out pt r row]> (req_to_token p)) p in
  (∀ reqs, write_cache_loop out pt (r :: reqs) p = write_cache_loop out (pt + w_ext r) reqs p')
  ∧ width_ok W (req_to_token p')
  ∧ apply_stores (w_stores W out pt r) (concat (req_to_token p)) = concat (req_to_token p').
Proof using.
  intros Hw [Hrow Hpre Hseq Hext] Hr Hpt p'.
  assert (length row = W) as Hlen by (by eapply Forall_lookup_1 in Hw).
  set (sl := py_slice pt (pt + w_ext r) out).
  assert (length sl = w_ext r) as Hsl by (unfold sl; rewrite py_slice_length; lia).
  set (row1 := take 0 row ++ w_prefix r ++ drop (w_pre r) row).
  assert (length row1 = W) as Hlen1 by (unfold row1; rewrite !length_app, length_drop; simpl; lia).
  set (t1 := <[w_row r := row1]> (req_to_token p)).
  assert (width_ok W t1) as Hw1 by (by apply Forall_insert).
  assert (t1 !! w_row r = Some row1) as Ht1 by (by apply list_lookup_insert_eq).
  assert (take (w_pre r) row1 ++ sl ++ drop (w_seq r) row1 = w_result out pt r row) as Hres.
  { unfold row1, w_result. rewrite take_0. simpl. rewrite take_app_le, take_ge by lia. do 2 f_equal.
    rewrite drop_app_ge by lia. rewrite drop_drop. f_equal. lia. }
  split_and!.
  - intros reqs. destruct r as [[[[i pre] sq] ext] prefix]. unfold w_row, w_pre, w_seq, w_ext, w_prefix in *.
    simpl in *. rewrite (write_slice_ok i 0 pre prefix p row) by (done || lia).
    cbn [mbind result_bind]. rewrite (write_slice_ok i pre sq sl _ row1) by (done || lia).
    cbn [mbind result_bind req_to_token set_table]. unfold p'. f_equal. unfold set_table. simpl.
    f_equal. rewrite list_insert_insert_eq. by rewrite Hres.
  - unfold p'. simpl. apply Forall_insert; [done|]. rewrite <-Hres, !length_app, length_take, length_drop. lia.
  - unfold w_stores. rewrite apply_stores_app. fold sl.
    pose proof (flat_write W (req_to_token p) (w_row r) row 0 (w_prefix r) Hw Hr ltac:(lia)) as Hf.
    rewrite Z.add_0_r, Nat.add_0_l, Hpre in Hf. rewrite Hf. fold row1. fold t1.
    rewrite (flat_write W _ _ row1) by (done || lia). unfold p', t1. simpl. f_equal.
    rewrite list_insert_insert_eq, Hsl. do 1 f_equal. rewrite <-Hres. do 3 f_equal. lia.
Qed.

(** The stores of a batch, request after request. *)
Fixpoint batch_stores (pt : nat) (reqs : list wreq) : list (Z * Z) :=
  match reqs with
  | [] => []
  | r :: reqs => w_stores W out pt r ++ batch_stores (pt + w_ext r) reqs
  end.

Lemma batch_stores_app pt reqs1 reqs2 :
  batch_stores pt (reqs1 ++ reqs2) = batch_stores pt reqs1 ++ batch_stores (pt + w_total reqs1) reqs2.
Proof using.
  revert pt. induction reqs1 as [|r reqs1 IH]; intros pt; simpl; [f_equal; lia|].
  rewrite IH, app_assoc. do 2 f_equal. unfold w_total. simpl. lia.
Qed.

Lemma write_loop_flat reqs pt p :
  width_ok W (req_to_token p) → Forall (wreq_ok W (length (req_to_token p))) reqs →
  (pt + w_total reqs <= length out)%nat →
  ∃ t, write_cache_loop out pt reqs p = Ok (set_table t p) ∧ width_ok W t
    ∧ length t = length (req_to_token p)
    ∧ apply_stores (batch_stores pt reqs) (concat (req_to_token p)) = concat t
    ∧ (∀ i, i ∉ (w_row <$> reqs) → t !! i = req_to_token p !! i)
    ∧ (NoDup (w_row <$> reqs) → ∀ k r row, reqs !! k = Some r → req_to_token p !! w_row r = Some row →
         t !! w_row r = Some (w_result out (pt + w_total (take k reqs)) r row)).
Proof using.
  revert pt p. induction reqs as [|r reqs IH]; intros pt p Hw Hok Hpt.
  { exists (req_to_token p). split_and!; try done. by destruct p. }
  apply Forall_cons in Hok as [Hr Hok]. unfold w_total in Hpt. simpl in Hpt. fold (w_total reqs) in Hpt.
  destruct (lookup_lt_is_Some_2 (req_to_token p) (w_row r)) as [row Hrow]; [apply Hr|].
  destruct (write_one pt r p row Hw Hr Hrow ltac:(lia)) as (Hloop & Hw' & Hflat).
  set (p' := set_table _ p) in *.
  assert (length (req_to_token p') = length (req_to_token p)) as Hlen by (simpl; by rewrite length_insert).
  destruct (IH (pt + w_ext r)%nat p' Hw' ltac:(by rewrite Hlen) ltac:(lia))
    as (t & Ht & Hwt & Hlt & Hft & Hout & Hin).
  exists t. split_and!; [by rewrite Hloop, Ht|done|congruence| | |].
  - simpl. by rewrite apply_stores_app, Hflat.
  - intros i [Hi Hni]%not_elem_of_cons. rewrite Hout by done. simpl. by rewrite list_lookup_insert_ne.
  - intros [Hnotin Hnd]%NoDup_cons [|k] r' row'.
    + intros [= ->] Hrow'. rewrite Hout by done. simpl. rewrite list_lookup_insert_eq by apply Hr.
      rewrite Nat.add_0_r. by simplify_eq.
    + intros Hk Hrow'. simpl in Hk. rewrite (Hin Hnd k r' row' Hk).
      * unfold w_total. simpl. do 2 f_equal. lia.
      * simpl. rewrite list_lookup_insert_ne; [done|]. intros E. apply Hnotin. rewrite E.
        by eapply list_elem_of_fmap_2, list_elem_of_lookup_2.
Qed.

(** What the kernel's program [i] stores. *)
Lemma write_program oob reqs i r n :
  reqs !! i = Some r → wreq_ok W n r → (w_total (take (S i) reqs) <= length out)%nat →
  let ints (f : wreq → nat) := (λ r, Z.of_nat (f r)) <$> reqs in
  write_req_to_token_pool_triton oob (ints w_row) (w_prefix <$> reqs) (ints w_pre) (ints w_seq)
    (ints w_ext) out (Z.of_nat W) (Z.of_nat i)
  = w_stores W out (w_total (take i reqs)) r.
Proof using.
  intros Hi [Hrow Hpre Hseq Hext] Hle ints. unfold write_req_to_token_pool_triton.
  assert (∀ f, tl_load oob (ints f) (Z.of_nat i) = Z.of_nat (f r)) as Hload.
  { intros f. apply tl_load_at. unfold ints. by rewrite list_lookup_fmap, Hi. }
  rewrite !Hload, Nat2Z.id, list_lookup_fmap, Hi. cbn [fmap option_fmap option_map default].
  assert (zsum ((λ k, tl_load oob (ints w_ext) k) <$> arange 0 i) = Z.of_nat (w_total (take i reqs))) as Hsum.
  { clear Hle. apply lookup_lt_Some in Hi. revert Hi. generalize i. clear -ints.
    induction i as [|i IH]; intros Hi; [done|].
    rewrite arange_S, fmap_app, zsum_app, IH by lia.
    destruct (lookup_lt_is_Some_2 reqs i) as [r Hr]; [lia|].
    rewrite (take_S_r _ _ _ Hr). unfold w_total. rewrite sum_list_with_app. cbn [fmap list_fmap zsum foldr].
    rewrite Z.add_0_l, (tl_load_at i oob (ints w_ext) (Z.of_nat (w_ext r)))
      by (unfold ints; by rewrite list_lookup_fmap, Hr). simpl. lia. }
  rewrite Hsum. unfold w_stores. rewrite (take_S_r _ _ _ Hi) in Hle.
  unfold w_total in Hle. rewrite sum_list_with_app in Hle. simpl in Hle. fold (w_total (take i reqs)) in Hle.
  f_equal.
  - unfold id. change 0 with (Z.of_nat 0). rewrite copy_blocks_spec by lia. f_equal.
    unfold py_slice. rewrite drop_0. apply take_ge. lia.
  - replace (Z.of_nat (w_seq r) - Z.of_nat (w_pre r)) with (Z.of_nat (w_ext r)) by lia.
    by rewrite copy_blocks_spec by lia.
Qed.

Lemma write_launch oob reqs n :
  Forall (wreq_ok W n) reqs → (w_total reqs <= length out)%nat →
  let ints (f : wreq → nat) := (λ r, Z.of_nat (f r)) <$> reqs in
  launch (length reqs)
    (write_req_to_token_pool_triton oob (ints w_row) (w_prefix <$> reqs) (ints w_pre) (ints w_seq)
       (ints w_ext) out (Z.of_nat W)) = batch_stores 0 reqs.
Proof using.
  intros Hok Hle ints. unfold launch.
  assert (∀ k, (k <= length reqs)%nat → w_total (take k reqs) <= w_total reqs)%nat as Hmono.
  { intros k _. rewrite <-(take_drop k reqs) at 2. unfold w_total. rewrite sum_list_with_app. lia. }
  assert (∀ k, (k <= length reqs)%nat → concat (write_req_to_token_pool_triton oob (ints w_row)
    (w_prefix <$> reqs) (ints w_pre) (ints w_seq) (ints w_ext) out (Z.of_nat W) <$> arange 0 k)
    = batch_stores 0 (take k reqs)) as Hk.
  { induction k as [|k IH]; intros Hk; [by rewrite take_0|].
    destruct (lookup_lt_is_Some_2 reqs k) as [r Hr]; [lia|].
    rewrite arange_S, fmap_app, concat_app, IH by lia.
    rewrite (take_S_r _ _ _ Hr), batch_stores_app. f_equal. simpl. rewrite !app_nil_r.
    apply (write_program oob reqs k r n Hr); [by eapply Forall_lookup_1|].
    pose proof (Hmono (S k) Hk). lia. }
  rewrite Hk by lia. by rewrite take_ge.
Qed.
End write.

(** The kernel writes the table as the loop does. *)
Lemma write_cache_equiv oob out reqs p :
  width_ok (max_context_len p) (req_to_token p) →
  Forall (wreq_ok (max_context_len p) (length (req_to_token p))) reqs → (w_total reqs <= length out)%nat →
  write_cache_indices oob true out reqs p = write_cache_indices oob false out reqs p.
Proof.
  intros Hw Hok Hle. unfold write_cache_indices.
  rewrite (write_launch _ _ _ _ (length (req_to_token p))) by done.
  destruct (write_loop_flat (max_context_len p) out reqs 0 p Hw Hok ltac:(lia))
    as (t & -> & Hwt & Hlt & -> & _).
  rewrite <-Hlt, chunks_concat by done. done.
Qed.

(** ** Lemmas: get_last_loc *)

(** The slot of the last token of a prefix of [n] tokens in row [i], -1 if the
    prefix is empty. *)
Definition last_slot (table : list (list Z)) (i n : Z) : Z :=
  if decide (0 < n) then at_ (default [] (table !! Z.to_nat i)) (Z.to_nat (n - 1)) else -1.

(** Queries inside the table. *)
Record loc_ok (table : list (list Z)) (W : nat) (idx lens : list Z) : Prop := {
  lo_width : width_ok W table;
  lo_pos : (0 < W)%nat;
  lo_len : length idx = length lens;
  lo_row : Forall (λ i, 0 <= i < Z.of_nat (length table)) idx;
  lo_col : Forall (λ n, 0 <= n <= Z.of_nat W) lens;
}.

Lemma t_index_nat {A} (l : list A) j x :
  0 <= j → l !! Z.to_nat j = Some x → t_index l j = Ok x.
Proof.
  intros Hj Hx. pose proof (lookup_lt_Some _ _ _ Hx). unfold t_index.
  rewrite decide_True, (decide_False (P := j < 0)), Hx by lia. done.
Qed.

Lemma t_index_last {A} (l : list A) : (0 < length l)%nat → ∃ x, t_index l (-1) = Ok x.
Proof.
  intros Hl. unfold t_index. rewrite decide_True, decide_True by lia.
  destruct (lookup_lt_is_Some_2 l (Z.to_nat (-1 + Z.of_nat (length l)))) as [x ->]; [lia|].
  by exists x.
Qed.

Lemma last_loc_torch_spec table W idx lens :
  loc_ok table W idx lens →
  get_last_loc_torch table idx lens = Ok (zip_with (last_slot table) idx lens).
Proof.
  intros [Hw HW Hlen Hrow Hcol]. unfold get_last_loc_torch.
  revert lens Hlen Hcol. induction Hrow as [|i idx Hi _ IH]; intros [|n lens]; try done.
  intros [= Hlen] [Hn Hcol]%Forall_cons. specialize (IH lens Hlen Hcol).
  destruct (lookup_lt_is_Some_2 table (Z.to_nat i)) as [row Hrow]; [lia|].
  assert (length row = W) as Hrl by (by eapply Forall_lookup_1 in Hw).
  rewrite fmap_cons. cbn [gather zip_with]. rewrite (t_index_nat table i row) by (done || lia).
  cbn [mbind result_bind].
  destruct (gather table idx ((λ n, n - 1) <$> lens)) as [vs| |] eqn:E; [|done..].
  cbn [mbind result_bind] in IH. injection IH as IH.
  destruct (decide (0 < n)) as [Hpos|Hz].
  - destruct (lookup_lt_is_Some_2 row (Z.to_nat (n - 1))) as [v Hv]; [lia|].
    rewrite (t_index_nat row (n - 1) v) by (done || lia). cbn [mbind result_bind zip_with].
    rewrite IH. do 2 f_equal. unfold last_slot. rewrite decide_True, Hrow by done. simpl. by rewrite (at_Some _ _ _ Hv).
  - destruct (t_index_last row) as [v Hv]; [lia|]. replace (n - 1) with (-1) by lia. rewrite Hv.
    cbn [mbind result_bind zip_with]. rewrite IH. do 2 f_equal. unfold last_slot. by rewrite decide_False.
Qed.

Lemma flat_lookup W table i row (k : nat) :
  width_ok W table → table !! i = Some row → (k < W)%nat → concat table !! (i * W + k)%nat = row !! k.
Proof.
  intros Hw Hi Hk. destruct (concat_row W table i row Hw Hi) as [-> Hl].
  assert (length row = W) by (by eapply Forall_lookup_1 in Hw).
  rewrite lookup_app_r by lia. rewrite Hl. replace (i * W + k - i * W)%nat with k by lia.
  by rewrite lookup_app_l by lia.
Qed.

(** A launch whose programs compute one lane per output element. *)
Lemma lanes_output fresh B (N : nat) (f : Z → Z) :
  0 < B →
  out_tensor fresh N (launch (Z.to_nat (ceil_div (Z.of_nat N) B))
    (λ pid, (λ o, (o, f o)) <$> filter (λ o, o < Z.of_nat N)
               ((λ o, pid * B + o) <$> arange 0 (Z.to_nat B))))
  = f <$> arange 0 N.
Proof.
  intros HB. unfold launch. rewrite (concat_fmap_fmap (λ o, (o, f o))), blocks_range by done.
  pose proof (ceil_div_spec (Z.of_nat N) B HB). rewrite filter_arange_0 by nia. rewrite Nat2Z.id.
  rewrite <-(out_tensor_zip fresh (f <$> arange 0 N)), length_fmap, arange_length. f_equal.
  rewrite <-(list_fmap_id (arange 0 N)) at 2. symmetry. apply (zip_with_fmap_same pair).
Qed.

(** The two kernels compute the same lane. *)
Lemma last_loc_lane oob table W idx lens k :
  loc_ok table W idx lens → (k < length lens)%nat →
  let mask := bool_decide (Z.of_nat k < Z.of_nat (length lens)) in
  let n := load_other oob lens mask 0 (Z.of_nat k) in
  let i := load_other oob idx mask 0 (Z.of_nat k) in
  mask = true
  ∧ load_other oob (concat table) (bool_decide (0 < n)) (-1) (i * Z.of_nat W + (n - 1))
    = last_slot table (at_ idx k) (at_ lens k).
Proof.
  intros [Hw HW Hlen Hrow Hcol] Hk mask n i.
  assert (mask = true) as Hm by (unfold mask; apply bool_decide_true; lia). split; [done|].
  destruct (lookup_lt_is_Some_2 lens k) as [n' Hn]; [lia|].
  destruct (lookup_lt_is_Some_2 idx k) as [i' Hi]; [lia|].
  assert (n = n') as -> by (unfold n, load_other; rewrite Hm; by apply tl_load_at).
  assert (i = i') as -> by (unfold i, load_other; rewrite Hm; by apply tl_load_at).
  rewrite (at_Some _ _ _ Hn), (at_Some _ _ _ Hi). unfold load_other, last_slot.
  assert (0 <= i' < Z.of_nat (length table)) by exact (Forall_lookup_1 _ _ _ _ Hrow Hi).
  assert (0 <= n' <= Z.of_nat W) by exact (Forall_lookup_1 _ _ _ _ Hcol Hn).
  destruct (decide (0 < n')) as [Hpos|Hz]; [|by rewrite bool_decide_false].
  rewrite bool_decide_true by done.
  destruct (lookup_lt_is_Some_2 table (Z.to_nat i')) as [row Ht]; [lia|]. rewrite Ht. simpl.
  unfold tl_load, at_. rewrite decide_True by nia.
  replace (Z.to_nat (i' * Z.of_nat W + (n' - 1))) with (Z.to_nat i' * W + Z.to_nat (n' - 1))%nat by nia.
  rewrite (flat_lookup W table _ row) by (done || lia).
  assert (length row = W) by (by eapply Forall_lookup_1 in Hw).
  destruct (lookup_lt_is_Some_2 row (Z.to_nat (n' - 1))) as [x ->]; [lia|done].
Qed.

Lemma zip_with_at (f : Z → Z → Z) l1 l2 :
  length l1 = length l2 →
  zip_with f l1 l2 = (λ o, f (at_ l1 (Z.to_nat o)) (at_ l2 (Z.to_nat o))) <$> arange 0 (length l2).
Proof.
  intros Hlen. apply list_eq. intros k. rewrite lookup_zip_with, list_lookup_fmap.
  destruct (decide (k < length l2)%nat) as [Hk|Hk].
  - rewrite arange_lookup, Z.add_0_l by done. cbn [fmap option_fmap option_map].
    rewrite Nat2Z.id. unfold at_.
    destruct (lookup_lt_is_Some_2 l1 k) as [x ->]; [lia|].
    destruct (lookup_lt_is_Some_2 l2 k) as [y ->]; [lia|]. done.
  - rewrite (lookup_ge_None_2 l1), (lookup_ge_None_2 (arange _ _)); [done|rewrite arange_length; lia|lia].
Qed.

Lemma last_loc_triton_spec oob fresh table W idx lens :
  loc_ok table W idx lens →
  get_last_loc_triton oob fresh table (Z.of_nat W) idx lens = zip_with (last_slot table) idx lens
  ∧ get_last_loc_triton_safe oob fresh table (Z.of_nat W) idx lens = zip_with (last_slot table) idx lens.
Proof.
  intros Hlo. rewrite zip_with_at by apply Hlo.
  unfold get_last_loc_triton, get_last_loc_triton_safe, get_last_loc_kernel, get_last_loc_safe_kernel.
  split; rewrite (lanes_output fresh 256) by done; apply arange_fmap_ext; intros x Hx;
    replace x with (Z.of_nat (Z.to_nat x)) by lia;
    destruct (last_loc_lane oob table W idx lens (Z.to_nat x) Hlo ltac:(lia)) as [Hm Hl];
    rewrite Nat2Z.id, <-Hl; [done|]. by rewrite Hm at 1.
Qed.
