(* ===== verification/ReqCache.v ===== *)
(** Requests entering the radix cache: [cache_finished_req] and
    [cache_unfinished_req] of mem_cache/radix_cache.py, over the state of the
    cache (with its allocator) and of the request pool.

    The theorems follow every KV slot: a slot is free in the allocator, held by
    the tree, or owned by a request, and the two operations move slots between
    these places without losing or duplicating one. *)
From S2P Require Import Prelude RadixKey TreeNode EvictPolicy RadixCache RadixInv RadixSplit RadixLeaf.
From S2P Require Import RadixLock RadixSpec RadixOps RadixMatch RadixInsert RadixLockOps RadixEvict ReqPool.
From stdpp Require Import options.

Record World (A : Type) := MkWorld { w_cache : RadixCache A; w_pool : ReqToTokenPool }.
Arguments MkWorld {A}. Arguments w_cache {A}. Arguments w_pool {A}.

Section req_cache.
Context `{Env} {A : Type} `{KVAllocator A}.
Abbreviation W := (ST (World A)).

(** A call on the cache. *)
Definition in_cache {B} (m : ST (RadixCache A) B) : W B := λ w,
  match m (w_cache w) with
  | Ok (b, c) => Ok (b, MkWorld c (w_pool w))
  | Raise e => Raise e
  | Running => Running
  end.
(** A call on the request pool. *)
Definition in_pool (f : ReqToTokenPool → result ReqToTokenPool) : W unit := λ w,
  match f (w_pool w) with
  | Ok p => Ok (tt, MkWorld (w_cache w) p)
  | Raise e => Raise e
  | Running => Running
  end.

(** [req_to_token_pool.req_to_token[req.req_pool_idx, :n]] *)
Definition req_row (req : Req) : W (list Z) :=
  idx ← st_lift (unwrap TypeError (req_pool_idx req));
  p ← st_gets w_pool;
  st_lift (get_row p idx).

(** [RadixKey(token_ids, req.extra_key, is_bigram=self.is_eagle).page_aligned(...)] *)
Definition req_key (req : Req) (toks : list Z) : W RadixKey :=
  cf ← st_gets (λ w, cfg (w_cache w));
  st_lift (page_aligned (MkRadixKey toks (req_extra_key req) (is_eagle cf)) (page_size cf)).

(** [getattr(req, "priority", 0) or 0] *)
Definition priority_of (req : Req) : Z := default 0%Z (req_priority req).

(** [cache_finished_req] *)
Definition cache_finished_req (strip : bool) (req : Req) (is_insert : bool) : W Req :=
  cf ← st_gets (λ w, cfg (w_cache w));
  let is_insert := if disable_finished_insert cf then false else is_insert in
  pop ← st_lift (pop_committed_kv_cache strip req);
  let '(kv_committed_len, req) := pop in
  row ← req_row req;
  if disable cf then
    _ ← in_cache (alloc_free (take kv_committed_len row));
    mret req
  else
    let toks := take kv_committed_len (origin_input_ids req ++ output_ids req) in
    let kv_indices := take (length toks) row in
    radix_key ← req_key req toks;
    let key_len := key_len radix_key in
    let values := take key_len kv_indices in
    _ ← (if (is_insert : bool) then
           prefix_len ← in_cache (insert_cache radix_key (Some values) (Some (priority_of req)) false);
           in_cache (alloc_free (py_slice (cache_protected_len req) prefix_len kv_indices))
         else in_cache (alloc_free (py_slice (cache_protected_len req) key_len kv_indices)));
    _ ← in_cache (alloc_free (drop key_len kv_indices));
    _ ← (match last_node req with
         | Some n => _ ← in_cache (dec_lock_ref n); mret tt
         | None => mret tt
         end);
    mret req.

(** [cache_unfinished_req] *)
Definition cache_unfinished_req (req : Req) (chunked : bool) : W Req :=
  cf ← st_gets (λ w, cfg (w_cache w));
  if disable cf then mret req
  else
    let toks := fill_ids req in
    row ← req_row req;
    let kv_indices := take (length toks) row in
    radix_key ← req_key req toks;
    let values := take (key_len radix_key) kv_indices in
    new_prefix_len ← in_cache
      (insert_cache radix_key (Some values) (Some (priority_of req)) chunked);
    _ ← in_cache (alloc_free (py_slice (cache_protected_len req) new_prefix_len kv_indices));
    match_result ← in_cache (match_prefix radix_key);
    let new_indices := device_indices match_result in
    let new_last_node := last_device_node match_result in
    _ ← st_lift (py_assert (bool_decide (length new_indices = key_len radix_key)));
    idx ← st_lift (unwrap TypeError (req_pool_idx req));
    _ ← in_pool (write_slice idx (cache_protected_len req) (length new_indices)
                   (drop (cache_protected_len req) new_indices));
    node ← st_lift (unwrap AttributeError (last_node req));
    _ ← in_cache (dec_lock_ref node);
    _ ← in_cache (inc_lock_ref new_last_node);
    (* [kv_indices] is a view: its tail is read after the write above *)
    row ← req_row req;
    let kv_indices := take (length toks) row in
    let prefix := if decide (length new_indices < length kv_indices)
                  then new_indices ++ drop (length new_indices) kv_indices
                  else new_indices in
    mret (set_prefix prefix (length new_indices) (Some new_last_node) req).

(** *** Symbolic execution over the two states *)
Lemma wp_in_cache {B} (m : ST (RadixCache A) B) w (Q : B → World A → Prop) :
  wp m (λ b c, Q b (MkWorld c (w_pool w))) (w_cache w) → wp (in_cache m) Q w.
Proof. unfold wp, in_cache. destruct (m (w_cache w)) as [[b c]| |]; done. Qed.

Lemma wp_in_pool f w p (Q : unit → World A → Prop) :
  f (w_pool w) = Ok p → Q tt (MkWorld (w_cache w) p) → wp (in_pool f) Q w.
Proof. intros Hf HQ. unfold wp, in_pool. by rewrite Hf. Qed.

Lemma wp_req_row req idx row w (Q : list Z → World A → Prop) :
  req_pool_idx req = Some idx → req_to_token (w_pool w) !! idx = Some row → Q row w →
  wp (req_row req) Q w.
Proof.
  intros Hidx Hrow HQ. unfold req_row. rewrite Hidx. wp_steps. unfold get_row. rewrite Hrow.
  by wp_step.
Qed.
End req_cache.

(** ** Facts about matches and insertions *)

Lemma longest_aligned ps G us vs : longest_match ps G us vs → length vs `mod` ps = 0.
Proof.
  intros [Hle [->|(n & g & k & _ & Hk & Hal & Hus & Hvs)] _]; [apply aligned_0|].
  apply (f_equal length) in Hus. rewrite !length_take in Hus.
  assert (length vs = k) as -> by lia. done.
Qed.

(** A live node on the path of a key is within its longest match. *)
Lemma protected_match v G us vs n g :
  tree_ok v G → longest_match (tv_ps v) G us vs → G !! n = Some g → g_path g `prefix_of` us →
  length (g_path g) ≤ length vs ∧ take (length (g_path g)) vs = g_vals g.
Proof.
  intros Ht [Hle Hc Hmax] Hg Hpre. destruct (tree_path_shape v G n g Ht Hg) as [Hal Hlen].
  pose proof (prefix_length _ _ Hpre) as Hpl.
  destruct (decide (length (g_path g) = 0)) as [E|E].
  { rewrite E, take_0. split; [lia|]. symmetry. apply nil_length_inv. lia. }
  assert (cached (tv_ps v) G (take (length (g_path g)) us) (g_vals g)) as Hcg.
  { exists n, g, (length (g_path g)). rewrite <-(prefix_take_id _ _ Hpre).
    split_and!; try done; [lia|by rewrite take_ge|by rewrite take_ge by lia]. }
  destruct (decide (length (g_path g) ≤ length vs)) as [Hin|Hout].
  2: { exfalso. by apply (Hmax (length (g_path g)) (g_vals g)); [lia|]. }
  split; [done|]. destruct Hc as [->|Hc]; [simpl in Hin; lia|].
  eapply (cached_functional v G Ht); [|exact Hcg].
  destruct Hc as (m & gm & k & Hm & Hk & Hkal & Hus & Hvs).
  assert (k = length vs) as ->.
  { apply (f_equal length) in Hus. rewrite !length_take in Hus. lia. }
  exists m, gm, (length (g_path g)). split_and!; try done; [lia|lia| |].
  - rewrite <-(Nat.min_l (length (g_path g)) (length vs)) by done.
    by rewrite <-!take_take, Hus.
  - rewrite Hvs at 1. by rewrite take_take, Nat.min_l.
Qed.

Section insert_match.
Context `{Env} {A : Type} `{KVAllocator A}.

(** After an insertion the whole key is cached. *)
Lemma insert_full (c c' : RadixCache A) G L us VAL r G' vs0 vs :
  insert_post c G L us VAL r c' G' vs0 → length VAL = length us →
  length us `mod` page_size (cfg c) = 0 →
  longest_match (page_size (cfg c)) G' us vs →
  vs = vs0 ++ drop r VAL ∧ length vs = length us.
Proof using.
  intros [HInv' _ Hm Hr Hcached _ _ _ Henv] HVAL Hal Hl. subst r.
  assert (tv_ps (view c') = page_size (cfg c)) as Hps by (simpl; by rewrite (ef_cfg _ _ Henv)).
  set (full := vs0 ++ drop (length vs0) VAL).
  assert (length full = length us) as Hfull.
  { unfold full. rewrite length_app, length_drop. pose proof (lm_le _ _ _ _ Hm). lia. }
  destruct (decide (us = [])) as [->|Hne].
  { simpl in *. pose proof (lm_le _ _ _ _ Hl) as Hle. simpl in Hle.
    assert (vs = []) as -> by (apply nil_length_inv; lia).
    split; [|done]. symmetry. by apply nil_length_inv. }
  assert (0 < length us) as Hpos by (destruct us; simpl; [done|lia]).
  assert (cached (page_size (cfg c)) G' us full) as Hc.
  { apply Hcached. pose proof (lm_le _ _ _ _ Hm) as Hle.
    destruct (decide (length vs0 = length us)) as [E|E].
    - left. unfold full. rewrite drop_ge, app_nil_r by lia.
      destruct (lm_cached _ _ _ _ Hm) as [->|Hc0]; [simpl in E; lia|].
      by rewrite take_ge in Hc0 by lia.
    - right. exists (length us - length vs0).
      rewrite length_drop, length_take, Nat.min_l, <-Nat.le_add_sub by lia.
      rewrite (take_ge (drop _ us)), (take_ge (drop _ VAL)) by (rewrite length_drop; lia).
      split_and!; [lia|lia|done|by rewrite take_drop|done]. }
  assert (length vs = length us) as Hlen.
  { pose proof (lm_le _ _ _ _ Hl). destruct (decide (length vs < length us)) as [Hlt|]; [|lia].
    exfalso. apply (lm_max _ _ _ _ Hl (length us) full); [lia|by rewrite take_ge]. }
  split; [|done]. destruct (lm_cached _ _ _ _ Hl) as [->|Hcv]; [simpl in Hlen; lia|].
  rewrite take_ge in Hcv by lia. rewrite <-Hps in Hcv, Hc.
  by eapply (cached_functional (view c') G' (inv_tree _ _ _ HInv')).
Qed.

Lemma query_units_aligned (c : RadixCache A) key :
  tree_key c key → query_units c key = titer key.
Proof using.
  intros [Hal Hm]. unfold query_units, maybe_to_bigram_view. rewrite Hm.
  assert (is_eagle (cfg c) && negb (is_eagle (cfg c)) = false) as -> by (by destruct (is_eagle (cfg c))).
  simpl. rewrite floor_align_id by done. apply take_ge. rewrite titer_length. lia.
Qed.
End insert_match.

Section conservation.
Context `{Env} {A : Type} `{KVAllocator A} `{!KVAllocatorLaws A}.
Implicit Types (c : RadixCache A) (w : World A) (G : gmap nat gnode) (L : nat → Z).

(** How often slot [i] is free or in the tree. *)
Definition ledger c G (i : Z) : Z := (kv_count (allocator c) i + slot_count (view c) G i)%Z.

Lemma wp_alloc_free_gives c G l (Q : unit → RadixCache A → Prop) :
  kv_ok (allocator c) →
  (∀ c', view c' = view c → cfg c' = cfg c → root_node c' = root_node c →
    kv_ok (allocator c') → kv_like (allocator c) (allocator c') →
    (∀ i, ledger c' G i = (ledger c G i + occ i (kv_gives (allocator c) l))%Z) → Q tt c') →
  wp (alloc_free l) Q c.
Proof using.
  intros Hok HQ. destruct (kv_free_gives (allocator c) l Hok) as (a & Ha & Hok' & Hc & Hf).
  eapply (wp_intro _ _ _ tt (set_allocator a c)); [unfold alloc_free; by rewrite Ha|].
  apply HQ; try done. intros i. unfold ledger. simpl.
  change (view (set_allocator a c)) with (view c). rewrite Hc. lia.
Qed.

Lemma wp_alloc_free c G l (Q : unit → RadixCache A → Prop) :
  kv_ok (allocator c) → kv_fits (allocator c) l →
  (∀ c', view c' = view c → cfg c' = cfg c → root_node c' = root_node c →
    kv_ok (allocator c') → kv_like (allocator c) (allocator c') →
    (∀ i, ledger c' G i = (ledger c G i + occ i l)%Z) → Q tt c') →
  wp (alloc_free l) Q c.
Proof using.
  intros Hok Hfit HQ. apply (wp_alloc_free_gives c G); [done|]. intros c' Hv Hcfg Hroot Hok' Hlike Hled.
  apply HQ; try done. intros i. by rewrite Hled, kv_gives_fits.
Qed.

(** What a running request looks like: row [row], with the first
    [cache_protected_len] slots those of the locked tree node [n], and the
    others its own. *)
Record req_ok w G (req : Req) (toks row : list Z) (key : RadixKey) (idx n : nat) : Prop := {
  ro_idx : req_pool_idx req = Some idx;
  ro_row : req_to_token (w_pool w) !! idx = Some row;
  ro_len : length toks ≤ length row;
  ro_node : last_node req = Some n;
  ro_key : page_aligned (MkRadixKey toks (req_extra_key req) (is_eagle (cfg (w_cache w))))
             (page_size (cfg (w_cache w))) = Ok key;
  ro_path : cache_protected_len req ≤ key_len key;
  ro_live : G !! n = Some (MkG (take (cache_protected_len req) (titer key))
                               (take (cache_protected_len req) row));
}.

(** The slots the request owns. *)
Definition owned (req : Req) (toks row : list Z) : list Z :=
  drop (cache_protected_len req) (take (length toks) row).

(** The slices it gives back are whole pages. *)
Definition own_fits (a : A) ps (req : Req) (kv : list Z) (len : nat) : Prop :=
  ∀ b, b `mod` ps = 0 → b ≤ len → kv_fits a (py_slice (cache_protected_len req) b kv).

Lemma req_key_tree c toks ek key :
  page_aligned (MkRadixKey toks ek (is_eagle (cfg c))) (page_size (cfg c)) = Ok key →
  tree_key c key ∧ key_len key ≤ length toks.
Proof using.
  intros Hk. split.
  - destruct (page_aligned_titer (MkRadixKey toks ek (is_eagle (cfg c))) (page_size (cfg c)))
      as (key' & Hk' & Hit & Hm & _). assert (key' = key) as -> by congruence. split; [|done].
    rewrite <-titer_length, Hit, length_take, titer_length, Nat.min_l by auto with py.
    auto with py.
  - by apply page_aligned_tokens in Hk as [_ ?].
Qed.

(** Inserting the slots of a request. *)
Lemma wp_insert_req c G L key vals prio chunked :
  Inv (view c) G L → disable (cfg c) = false → enable_kv_cache_events (cfg c) = false →
  tree_key c key → length vals = key_len key →
  wp (insert_cache key (Some vals) prio chunked)
    (λ r c', ∃ G' vs, insert_post c G L (titer key) vals r c' G' vs) c.
Proof using.
  intros HInv Hdis Hoff Htk Hlen. pose proof (query_units_aligned c key Htk) as Hq.
  eapply wp_mono; [eapply wp_insert_cache; try done|].
  - unfold query_ok. by rewrite (tk_mode _ _ Htk).
  - intros v [= <-]. rewrite Hq, titer_length. lia.
  - intros r c' (G' & vs & Hp). exists G', vs. rewrite Hq in Hp. unfold insert_vals in Hp.
    simpl in Hp. rewrite Hq, titer_length, take_ge in Hp by lia. done.
Qed.

Lemma occ_split3 i a b k (l : list Z) :
  a ≤ b → b ≤ k →
  (occ i (drop a l) = occ i (py_slice a b l) + occ i (drop b (take k l)) + occ i (drop k l))%Z.
Proof using.
  intros Hab Hbk. rewrite (py_slice_split a b l), occ_app by done.
  assert (drop b l = drop b (take k l) ++ drop k l) as ->; [|rewrite occ_app; lia].
  rewrite (py_slice_split b k l) by done. f_equal. unfold py_slice.
  by rewrite take_drop_commute, <-Nat.le_add_sub.
Qed.

(** *** [cache_unfinished_req] *)

(** The row after the rewrite: the tree's slots, then the rest as before. *)
Lemma rewritten_row (row vs : list Z) p :
  p ≤ length vs → take p vs = take p row →
  take p row ++ drop p vs ++ drop (length vs) row = vs ++ drop (length vs) row.
Proof using. intros Hp Heq. by rewrite <-Heq, app_assoc, take_drop. Qed.

(** The slots of the whole pages are in the tree, duplicates are free: [vs] are the
    slots the tree now has for the key, at a node below [G]'s. *)
Record reinserted c G L (key : RadixKey) (p : nat) (kv : list Z) (mr : MatchResult) c' G' : Prop := {
  ri_inv : Inv (view c') G' L;
  ri_tree : G ⊆ G';
  ri_cfg : cfg c' = cfg c;
  ri_kv : kv_ok (allocator c');
  ri_last : G' !! last_device_node mr = Some (MkG (titer key) (device_indices mr));
  ri_len : length (device_indices mr) = key_len key;
  ri_protected : take p (device_indices mr) = take p kv;
  ri_ledger : ∀ i, (ledger c' G' i + occ i (drop (key_len key) kv) = ledger c G i + occ i (drop p kv))%Z;
}.

Lemma wp_reinsert {B} w G L req row key idx n prio chunked (body : MatchResult → ST (World A) B) Q :
  let c := w_cache w in
  let kv := take (length (fill_ids req)) row in
  Inv (view c) G L → kv_ok (allocator c) → disable (cfg c) = false → enable_kv_cache_events (cfg c) = false →
  req_ok w G req (fill_ids req) row key idx n → own_fits (allocator c) (page_size (cfg c)) req kv (key_len key) →
  (∀ mr c' G', reinserted c G L key (cache_protected_len req) kv mr c' G' → wp (body mr) Q (MkWorld c' (w_pool w))) →
  wp (in_cache (insert_cache key (Some (take (key_len key) kv)) prio chunked))
    (λ r, wp (_ ← in_cache (alloc_free (py_slice (cache_protected_len req) r kv));
              mr ← in_cache (match_prefix key);
              body mr) Q) w.
Proof using.
  intros c kv HInv Hkv Hdis Hoff [Hidx Hrow Hlen Hnode Hkey Hpath Hlive] Hfit Hbody.
  destruct (req_key_tree c (fill_ids req) (req_extra_key req) key Hkey) as [Htk Hkl].
  assert (length kv = length (fill_ids req)) as Hkvl by (unfold kv; rewrite length_take; lia).
  assert (length (titer key) `mod` page_size (cfg c) = 0) as Hal by (rewrite titer_length; apply Htk).
  apply wp_in_cache. eapply wp_mono.
  { apply (wp_insert_req c G L key (take (key_len key) kv)); try done. rewrite length_take. lia. }
  intros r c1 (G1 & vs0 & Hip). pose proof Hip as [HI1 Hsub1 Hm1 Hr1 _ Hs1 _ _ He1].
  destruct (protected_match (view c) G (titer key) vs0 n _ (inv_tree _ _ _ HInv) Hm1 Hlive)
    as [Hprot Hvals0]; [apply prefix_take|]. simpl in Hprot, Hvals0.
  rewrite length_take, titer_length, Nat.min_l in Hprot, Hvals0 by done.
  pose proof (lm_le _ _ _ _ Hm1) as Hrk. rewrite titer_length in Hrk.
  wp_step. apply wp_in_cache. simpl w_cache. eapply (wp_alloc_free c1 G1); [by rewrite (ef_alloc _ _ He1)| |].
  { rewrite (ef_alloc _ _ He1). apply Hfit; [|lia]. rewrite Hr1. by eapply longest_aligned. }
  intros c2 Hv2 Hcfg2 Hroot2 Hkv2 _ Hled2.
  assert (cfg c2 = cfg c) as Hcfg by (rewrite Hcfg2; apply He1).
  assert (tree_key c2 key) as Htk2 by (destruct Htk; split; by rewrite Hcfg).
  wp_step. apply wp_in_cache. simpl w_cache. eapply wp_mono.
  { apply (wp_match_prefix c2 G1 L key); [by rewrite Hv2|by rewrite Hcfg|]. unfold query_ok. by rewrite (tk_mode _ _ Htk2). }
  intros mr c3 [(G3 & HI3 & Hr3 & Hf3 & Hlast & Hm3 & Hs3) _].
  rewrite (query_units_aligned c2 key Htk2), Hcfg in Hm3. rewrite (query_units_aligned c2 key Htk2) in Hlast.
  destruct (insert_full c c1 G L (titer key) (take (key_len key) kv) r G1 vs0 (device_indices mr) Hip) as [Hvs Hvsl];
    [rewrite length_take, titer_length; lia|done|done|]. rewrite titer_length in Hvsl.
  apply (Hbody mr c3 G3). split; [done| |by rewrite (fr_cfg _ _ Hf3)|by rewrite (fr_alloc _ _ Hf3)| |done| |].
  - etrans; [exact Hsub1|apply Hr3].
  - rewrite Hlast, take_ge by (rewrite titer_length; lia). done.
  - rewrite Hvs, take_app_le, Hvals0 by lia. unfold kv. rewrite take_take, Nat.min_l by lia. done.
  - intros i. specialize (Hled2 i). unfold ledger in *. rewrite Hs3, (fr_alloc _ _ Hf3).
    rewrite (ef_alloc _ _ He1), Hs1 in Hled2. rewrite (occ_split3 i (cache_protected_len req) r (key_len key) kv) by lia. lia.
Qed.

(** The lock of the request moves. *)
Lemma wp_move_lock {B} w G L n m (body : ST (World A) B) Q :
  Inv (view (w_cache w)) G L → disable (cfg (w_cache w)) = false → is_Some (G !! n) → is_Some (G !! m) → has_lock L n →
  (∀ c', Inv (view c') G (add_lock (add_lock L n (-1)) m 1) → env_frame (w_cache w) c' →
    (∀ i, ledger c' G i = ledger (w_cache w) G i) → wp body Q (MkWorld c' (w_pool w))) →
  wp (in_cache (dec_lock_ref n)) (λ _, wp (_ ← in_cache (inc_lock_ref m); body) Q) w.
Proof using.
  intros HI Hdis Hn Hm HL Hbody. apply wp_in_cache. eapply wp_mono; [by apply (wp_dec_lock_ref (w_cache w) G L n)|].
  intros d c1 [HI1 He1 _ _ Hs1]. wp_step. apply wp_in_cache. simpl w_cache.
  eapply wp_mono; [apply (wp_inc_lock_ref c1 G (add_lock L n (-1)) m); [done|by rewrite (ef_cfg _ _ He1)|done]|].
  intros d2 c2 [HI2 He2 _ _ Hs2]. apply Hbody; [done|by etrans|].
  intros i. unfold ledger. by rewrite Hs2, Hs1, (ef_alloc _ _ He2), (ef_alloc _ _ He1).
Qed.

(** Reading the row back after the tree's slots were written to it. *)
Lemma row_rewritten (row vs : list Z) n :
  length vs ≤ n → n ≤ length row →
  let row' := vs ++ drop (length vs) row in
  length row' = length row ∧ take (length vs) row' = vs ∧ drop (length vs) row' = drop (length vs) row
  ∧ drop (length vs) (take n row') = drop (length vs) (take n row)
  ∧ (if decide (length vs < length (take n row')) then vs ++ drop (length vs) (take n row') else vs) = take n row'.
Proof using.
  intros Hv Hn row'. assert (length row' = length row) as Hl by (unfold row'; rewrite length_app, length_drop; lia).
  assert (drop (length vs) row' = drop (length vs) row) as Hd by apply drop_app_length.
  split_and!; [done|apply take_app_length|done|by rewrite !skipn_firstn_comm, Hd|].
  assert (take (length vs) (take n row') = vs) as Ht by (rewrite take_take, Nat.min_l by lia; apply take_app_length).
  case_decide as Hlt; [rewrite <-Ht at 1; apply take_drop|]. rewrite length_take in Hlt.
  rewrite <-Ht at 1. apply take_ge. rewrite length_take. lia.
Qed.

Lemma wp_cache_unfinished w G L req row key idx n chunked :
  let c := w_cache w in
  Inv (view c) G L → kv_ok (allocator c) → disable (cfg c) = false →
  enable_kv_cache_events (cfg c) = false → has_lock L n →
  req_ok w G req (fill_ids req) row key idx n →
  own_fits (allocator c) (page_size (cfg c)) req (take (length (fill_ids req)) row) (key_len key) →
  wp (cache_unfinished_req req chunked) (λ req' w', ∃ G' m row',
    Inv (view (w_cache w')) G' (add_lock (add_lock L n (-1)) m 1)
    ∧ kv_ok (allocator (w_cache w'))
    ∧ req_ok w' G' req' (fill_ids req) row' key idx m
    ∧ cache_protected_len req' = key_len key
    ∧ prefix_indices req' = take (length (fill_ids req)) row'
    ∧ drop (key_len key) row' = drop (key_len key) row
    ∧ (∀ i, ledger (w_cache w') G' i + occ i (owned req' (fill_ids req) row')
            = ledger c G i + occ i (owned req (fill_ids req) row))%Z) w.
Proof using.
  intros c HInv Hkv Hdis Hoff HL Hro Hfit. pose proof Hro as [Hidx Hrow Hlen Hnode Hkey Hpath Hlive].
  destruct (req_key_tree c (fill_ids req) (req_extra_key req) key Hkey) as [_ Hkl].
  unfold cache_unfinished_req. wp_steps. fold c. rewrite Hdis.
  wp_step. eapply wp_req_row; [done..|]. unfold req_key. wp_steps.
  eapply (wp_reinsert w G L req row key idx n); [done..|]. intros mr c3 G3 [HI3 Hsub3 Hcfg3 Hkv3 Hlast Hvsl Hvp Hled3].
  set (vs := device_indices mr) in *. set (m := last_device_node mr) in *.
  wp_step. eapply wp_lift; [unfold py_assert; rewrite bool_decide_true by lia; done|].
  wp_step. rewrite Hidx. wp_steps. eapply wp_in_pool.
  { apply (write_slice_ok idx _ _ _ _ row); [done|lia|lia|]. rewrite length_drop. lia. }
  rewrite (rewritten_row row vs (cache_protected_len req) ltac:(lia))
    by (rewrite Hvp, take_take, Nat.min_l by lia; done).
  destruct (row_rewritten row vs (length (fill_ids req)) ltac:(lia) Hlen) as (Hrowl & Htk & Hdr & Hdt & Hpre).
  set (row' := vs ++ drop (length vs) row) in *.
  assert (idx < length (req_to_token (w_pool w))) as Hidxlt by (by eapply lookup_lt_Some).
  rewrite Hnode. wp_steps. eapply (wp_move_lock _ G3 L n m); simpl w_cache;
    [done|by rewrite Hcfg3|eexists; by eapply lookup_weaken|by eexists|done|]. intros c5 HI5 He5 Hled5.
  wp_step. eapply (wp_req_row _ idx row'); [done|simpl; by apply list_lookup_insert_eq|]. wp_step. fold vs m.
  rewrite Hpre. exists G3, m, row'. simpl in *. rewrite <-Hvsl.
  split_and!; [done|by rewrite (ef_alloc _ _ He5)| |done|done|done|].
  - constructor; simpl; try done; [by apply list_lookup_insert_eq|by rewrite Hrowl|
      by rewrite (ef_cfg _ _ He5), Hcfg3|lia|].
    rewrite Hlast, Htk, take_ge by (rewrite titer_length; lia). done.
  - intros i. rewrite Hled5. unfold owned. simpl. rewrite Hdt. specialize (Hled3 i). by rewrite Hvsl.
Qed.

(** *** [cache_finished_req] *)

(** The tokens of the committed KV cache. *)
Definition committed_tokens (strip : bool) (req : Req) : list Z :=
  take (cache_commit_len strip req) (origin_input_ids req ++ output_ids req).

(** What happens to the slots of the whole pages: they are inserted, and the
    duplicates freed, or all freed. *)
Definition finish_pages c G L (req : Req) (kv : list Z) (key : RadixKey) (is_insert : bool)
    (c' : RadixCache A) : Prop :=
  ∃ G', Inv (view c') G' L ∧ G ⊆ G' ∧ kv_ok (allocator c') ∧ cfg c' = cfg c
    ∧ kv_like (allocator c) (allocator c')
    ∧ (∀ i, ledger c' G' i
            = ledger c G i + occ i (drop (cache_protected_len req) (take (key_len key) kv)))%Z
    ∧ (if is_insert then ∀ vs, longest_match (page_size (cfg c)) G' (titer key) vs →
                           length vs = key_len key
       else G' = G).

Lemma wp_finish_pages w G L (req : Req) kv key n ins :
  let c := w_cache w in
  Inv (view c) G L → kv_ok (allocator c) → disable (cfg c) = false →
  enable_kv_cache_events (cfg c) = false → tree_key c key →
  cache_protected_len req ≤ key_len key → key_len key ≤ length kv →
  G !! n = Some (MkG (take (cache_protected_len req) (titer key))
                     (take (cache_protected_len req) kv)) →
  own_fits (allocator c) (page_size (cfg c)) req kv (key_len key) →
  wp (if (ins : bool) then
        prefix_len ← in_cache (insert_cache key (Some (take (key_len key) kv))
                                 (Some (priority_of req)) false);
        in_cache (alloc_free (py_slice (cache_protected_len req) prefix_len kv))
      else in_cache (alloc_free (py_slice (cache_protected_len req) (key_len key) kv)))
    (λ _ w', finish_pages c G L req kv key ins (w_cache w') ∧ w_pool w' = w_pool w) w.
Proof using.
  intros c HInv Hkv Hdis Hoff Htk Hpath Hkl Hlive Hfit.
  assert (∀ b, b ≤ key_len key → py_slice (cache_protected_len req) b kv
    = drop (cache_protected_len req) (take b kv)) as Hslice.
  { intros b Hb. unfold py_slice. by rewrite skipn_firstn_comm. }
  destruct ins.
  - wp_step. apply wp_in_cache. eapply wp_mono.
    { apply (wp_insert_req c G L key (take (key_len key) kv)); try done. rewrite length_take. lia. }
    intros r c1 (G1 & vs0 & Hip). pose proof Hip as [HI1 Hsub1 Hm1 Hr1 _ Hs1 _ _ He1].
    destruct (protected_match (view c) G (titer key) vs0 n _ (inv_tree _ _ _ HInv) Hm1 Hlive)
      as [Hprot _]; [apply prefix_take|]. simpl in Hprot.
    rewrite length_take, titer_length, Nat.min_l in Hprot by done.
    assert (r ≤ key_len key) as Hrk by (pose proof (lm_le _ _ _ _ Hm1); rewrite titer_length in *; lia).
    apply wp_in_cache. simpl w_cache. eapply (wp_alloc_free c1 G1).
    { by rewrite (ef_alloc _ _ He1). }
    { rewrite (ef_alloc _ _ He1). apply Hfit; [|done]. rewrite Hr1. by eapply longest_aligned. }
    intros c2 Hv2 Hcfg2 Hroot2 Hkv2 Hfit2 Hled2. split; [|done]. exists G1. simpl.
    split_and!; [by rewrite Hv2|done|done|by rewrite Hcfg2, (ef_cfg _ _ He1)
      |by rewrite (ef_alloc _ _ He1) in Hfit2| |].
    + intros i. rewrite Hled2. unfold ledger. rewrite (ef_alloc _ _ He1), Hs1.
      assert (drop (cache_protected_len req) (take (key_len key) kv)
        = py_slice (cache_protected_len req) r kv ++ drop r (take (key_len key) kv)) as ->;
        [|rewrite occ_app; lia].
      rewrite (py_slice_split _ r (take (key_len key) kv)) by lia. f_equal.
      rewrite Hslice by done. unfold py_slice.
      rewrite !skipn_firstn_comm, take_take. f_equal. lia.
    + intros vs Hvs. rewrite <-titer_length.
      eapply (insert_full c c1 G L _ (take (key_len key) kv)); [exact Hip| | |done].
      * rewrite titer_length, length_take. lia.
      * rewrite titer_length. apply Htk.
  - apply wp_in_cache. eapply (wp_alloc_free c G); [done|apply Hfit; [apply Htk|done]|].
    intros c1 Hv1 Hcfg1 Hroot1 Hkv1 Hfit1 Hled1. split; [|done]. exists G. simpl.
    split_and!; [by rewrite Hv1|done|done|done|done| |done].
    intros i. by rewrite Hled1, Hslice.
Qed.

(** What a finished request gives back: the slots of its whole pages, and what freeing
    the slots behind them gives, its last page in whole. *)
Definition given_back (a : A) (req : Req) (toks row : list Z) (len : nat) : list Z :=
  drop (cache_protected_len req) (take len row) ++ kv_gives a (drop len (take (length toks) row)).

(** Without a partial page these are the slots it owns. *)
Lemma given_back_owned a req toks row len i :
  kv_ok a → cache_protected_len req ≤ len → len ≤ length toks → length toks ≤ length row →
  kv_fits a (drop len (take (length toks) row)) →
  occ i (given_back a req toks row len) = occ i (owned req toks row).
Proof using.
  intros Hk Hp Hl Hr Hf. unfold given_back, owned. rewrite occ_app, kv_gives_fits, <-occ_app by done. f_equal.
  rewrite <-(take_drop len (take (length toks) row)) at 2. rewrite take_take, Nat.min_l by lia. rewrite drop_app_le; [done|].
  rewrite length_take. lia.
Qed.

Lemma wp_cache_finished w G L strip req row key idx n is_insert :
  let c := w_cache w in
  let toks := committed_tokens strip req in
  let ins := if disable_finished_insert (cfg c) then false else is_insert in
  Inv (view c) G L → kv_ok (allocator c) → disable (cfg c) = false →
  enable_kv_cache_events (cfg c) = false → has_lock L n → kv_committed_freed req = false →
  req_ok w G req toks row key idx n →
  own_fits (allocator c) (page_size (cfg c)) req (take (length toks) row) (key_len key) →
  wp (cache_finished_req strip req is_insert) (λ req' w', ∃ G',
    Inv (view (w_cache w')) G' (add_lock L n (-1)) ∧ kv_ok (allocator (w_cache w'))
    ∧ req' = set_freed true (kv_overallocated_freed req) req ∧ w_pool w' = w_pool w
    ∧ kv_like (allocator c) (allocator (w_cache w')) ∧ cfg (w_cache w') = cfg c
    ∧ (∀ i, ledger (w_cache w') G' i = ledger c G i + occ i (given_back (allocator c) req toks row (key_len key)))%Z
    ∧ (if ins then ∀ vs, longest_match (page_size (cfg c)) G' (titer key) vs →
                     length vs = key_len key
       else G' = G)) w.
Proof using.
  intros c toks ins HInv Hkv Hdis Hoff HL Hfreed Hro Hfit.
  pose proof Hro as [Hidx Hrow Hlen Hnode Hkey Hpath Hlive].
  destruct (req_key_tree c toks (req_extra_key req) key Hkey) as [Htk Hkl].
  set (kv := take (length toks) row) in *.
  assert (length kv = length toks) as Hkvl by (unfold kv; rewrite length_take; lia).
  unfold cache_finished_req. wp_steps. fold c. fold ins.
  unfold pop_committed_kv_cache. rewrite Hfreed. wp_steps.
  set (req1 := set_freed true (kv_overallocated_freed req) req).
  cbv beta iota. wp_step. eapply (wp_req_row req1); [done..|]. rewrite Hdis.
  change (take (cache_commit_len strip req1) (origin_input_ids req1 ++ output_ids req1)) with toks.
  fold kv. unfold req_key. wp_steps. eapply wp_mono.
  { apply (wp_finish_pages w G L req1 kv key n ins); try done; [lia|].
    simpl. rewrite Hlive. do 2 f_equal. unfold kv. by rewrite take_take, Nat.min_l by (simpl in *; lia). }
  intros _ w1 [(G1 & HI1 & Hsub & Hkv1 & Hcfg1 & Hfit1 & Hled1 & Hins) Hpool].
  wp_step. apply wp_in_cache. eapply (wp_alloc_free_gives _ G1); [done|].
  intros c2 Hv2 Hcfg2 _ Hkv2 Hfit2 Hled2. wp_step. simpl last_node. rewrite Hnode. wp_step.
  apply wp_in_cache. simpl w_cache. eapply wp_mono.
  { apply (wp_dec_lock_ref c2 G1 L n); [by rewrite Hv2|by rewrite Hcfg2, Hcfg1| |done].
    eexists. by eapply lookup_weaken. }
  intros d c3 [HI3 He3 _ _ Hs3]. wp_steps. exists G1. simpl. split_and!; try done.
  - by rewrite (ef_alloc _ _ He3).
  - rewrite (ef_alloc _ _ He3). by etrans.
  - by rewrite (ef_cfg _ _ He3), Hcfg2, Hcfg1.
  - intros i. unfold ledger. rewrite Hs3, (ef_alloc _ _ He3). fold (ledger c2 G1 i).
    rewrite Hled2, Hled1, (proj2 (proj2 Hfit1)). unfold given_back. fold kv. rewrite occ_app.
    replace (take (key_len key) row) with (take (key_len key) kv) by (unfold kv; by rewrite take_take, Nat.min_l by lia).
    unfold ledger, c, req1. simpl. lia.
Qed.

(** With the cache disabled the committed slots are freed. *)
Lemma wp_cache_finished_disabled w strip req row idx is_insert :
  let c := w_cache w in
  kv_ok (allocator c) → disable (cfg c) = true → kv_committed_freed req = false →
  req_pool_idx req = Some idx → req_to_token (w_pool w) !! idx = Some row →
  wp (cache_finished_req strip req is_insert) (λ req' w',
    req' = set_freed true (kv_overallocated_freed req) req ∧ w_pool w' = w_pool w
    ∧ nodes (w_cache w') = nodes c ∧ kv_ok (allocator (w_cache w'))
    ∧ (∀ i, kv_count (allocator (w_cache w')) i
            = kv_count (allocator c) i + occ i (kv_gives (allocator c) (take (cache_commit_len strip req) row)))%Z) w.
Proof using.
  intros c Hkv Hdis Hfreed Hidx Hrow. unfold cache_finished_req. wp_steps. fold c.
  unfold pop_committed_kv_cache. rewrite Hfreed. wp_steps.
  cbv beta iota. wp_step. eapply (wp_req_row (set_freed true (kv_overallocated_freed req) req)); [done..|]. rewrite Hdis.
  wp_step. apply wp_in_cache. fold c.
  change (cache_commit_len strip (set_freed true (kv_overallocated_freed req) req))
    with (cache_commit_len strip req).
  destruct (kv_free_gives (allocator c) (take (cache_commit_len strip req) row) Hkv) as (a & Ha & Hok' & Hc & Hf).
  eapply (wp_intro _ _ _ tt (set_allocator a c)); [unfold alloc_free; by rewrite Ha|].
  wp_step. done.
Qed.
End conservation.
