(* ===== verification/RadixTheorems.v ===== *)
(** The contract of the radix cache, operation by operation, and the states the
    scheduler can reach with them. *)
From S2P Require Import Prelude RadixKey TreeNode EvictPolicy RadixCache RadixInv RadixSplit RadixLeaf.
From S2P Require Import RadixLock RadixSpec RadixOps RadixMatch RadixInsert RadixLockOps RadixEvict RadixTotal Allocator ReqCache.
From stdpp Require Import options.

(** A concrete environment and caches for the examples below. *)
Section examples.
#[local] Instance test_env : Env := {| monotonic n := Z.of_nat n; sha256_hex _ := "" |}.

Definition cfg0 (ps : nat) (eagle : bool) : CacheConfig :=
  MkConfig false ps eagle false false LRUStrategy.
(** A new cache over a pool of 16 slots. *)
Definition cache0 (ps : nat) : RadixCache KVPool :=
  match init_cache false ps false false false "lru" 0 0 (Token.init 16 false) with
  | Ok c => c
  | _ => MkCache (cfg0 ps false) 0 ∅ 0 0 0 0 ∅ [] (Token.init 16 false)
  end.
Definition key_of (toks : list Z) : RadixKey := MkRadixKey toks None false.

Lemma cache0_Inv ps : 1 ≤ ps → Inv (view (cache0 ps)) (empty_tree (root_node (cache0 ps))) no_locks
  ∧ cfg (cache0 ps) = cfg0 ps false ∧ allocator (cache0 ps) = Token.init 16 false.
Proof.
  intros Hps. unfold cache0.
  destruct (init_cache_spec false ps false false false "lru" LRUStrategy 0 0 (Token.init 16 false))
    as (c & -> & HInv & Hcfg & Ha & _); [done|done|]. done.
Qed.

(** The cache after inserting [1; 2; 3; 4] with slots [5; 6; 7; 8]. *)
Definition cache1 : RadixCache KVPool :=
  match insert_cache (key_of [1; 2; 3; 4]%Z) (Some [5; 6; 7; 8]%Z) None false (cache0 1) with
  | Ok (_, c) => c
  | _ => cache0 1
  end.
Lemma cache1_on : disable (cfg cache1) = false.
Proof. vm_compute. reflexivity. Qed.
Lemma cache1_off : enable_kv_cache_events (cfg cache1) = false.
Proof. vm_compute. reflexivity. Qed.
Lemma cache1_Inv : ∃ G, Inv (view cache1) G no_locks.
Proof.
  destruct (cache0_Inv 1 ltac:(lia)) as (HInv & Hcfg & _).
  destruct (wp_ok _ _ _ (wp_insert_cache (cache0 1) _ _ (key_of [1; 2; 3; 4]%Z)
    (Some [5; 6; 7; 8]%Z) None false HInv ltac:(by rewrite Hcfg) ltac:(by rewrite Hcfg)
    ltac:(done) ltac:(intros v [= <-]; vm_compute; lia))) as (r & c' & E & G' & vs & Hpost).
  exists G'. unfold cache1. rewrite E. apply Hpost.
Qed.

(** [match_prefix] on [1; 2] splits the node; [cache2] is the cache with the
    upper half, [node2], locked. *)
Definition match1 : MatchResult * RadixCache KVPool :=
  match match_prefix (key_of [1; 2]%Z) cache1 with
  | Ok r => r
  | _ => (MkMatch [] 0 0 0, cache1)
  end.
Definition node2 : nat := last_device_node match1.1.
Definition cache2 : RadixCache KVPool :=
  match inc_lock_ref node2 match1.2 with
  | Ok (_, c) => c
  | _ => match1.2
  end.
Definition lock2 : nat → Z := add_lock no_locks node2 1.
Definition gnode2 : gnode := MkG [(None, UTok 1); (None, UTok 2)] [5; 6]%Z.

Lemma match1_eq : match_prefix (key_of [1; 2]%Z) cache1 = Ok match1.
Proof. vm_compute. reflexivity. Qed.
Lemma match1_on : disable (cfg match1.2) = false.
Proof. vm_compute. reflexivity. Qed.
Lemma match1_Inv : ∃ G, Inv (view match1.2) G no_locks ∧ G !! node2 = Some gnode2.
Proof.
  destruct cache1_Inv as [G HI].
  destruct (wp_ok _ _ _ (wp_match_prefix cache1 G no_locks (key_of [1; 2]%Z) HI cache1_on ltac:(done)))
    as (r & c' & E & (G' & HI' & _ & _ & Hlast & _) & _).
  rewrite match1_eq in E. apply Ok_inj in E. exists G'. unfold node2. rewrite E. split; [exact HI'|].
  assert (device_indices r = [5; 6]%Z) as Hd.
  { assert (device_indices match1.1 = [5; 6]%Z) as Hd by (vm_compute; reflexivity).
    rewrite E in Hd. exact Hd. }
  assert (take 2 (query_units cache1 (key_of [1; 2]%Z)) = g_path gnode2) as Ht by (vm_compute; reflexivity).
  simpl. rewrite Hlast, Hd. change (length [5; 6]%Z) with 2. rewrite Ht. reflexivity.
Qed.

Lemma cache2_on : disable (cfg cache2) = false.
Proof. vm_compute. reflexivity. Qed.
Lemma cache2_off : enable_kv_cache_events (cfg cache2) = false.
Proof. vm_compute. reflexivity. Qed.
Lemma cache2_Inv : ∃ G, Inv (view cache2) G lock2 ∧ G !! node2 = Some gnode2.
Proof.
  destruct match1_Inv as (G & HI & Hn).
  destruct (wp_ok _ _ _ (wp_inc_lock_ref match1.2 G no_locks node2 HI match1_on ltac:(eauto)))
    as (d & c' & E & [HI' _]).
  exists G. unfold cache2. rewrite E. split; [exact HI'|exact Hn].
Qed.
Lemma lock2_nonneg : locks_nonneg lock2.
Proof. intros m. unfold lock2, add_lock, no_locks. case_decide; lia. Qed.
End examples.

Section contract.
Context `{Env} {A : Type} `{KVAllocator A}.
Implicit Types (c : RadixCache A) (G : gmap nat gnode) (L : nat → Z).

(** C2: [match_prefix] returns, and gives the slots of the longest cached
    prefix of the key (in whole pages), with the node where that prefix ends.
    It may split a node, but what is cached, the size counters, the leaf set,
    the locks and the allocator stay as they were. *)
Theorem match_prefix_longest c G L key :
  Inv (view c) G L → disable (cfg c) = false → query_ok c key →
  ∃ r c' G', match_prefix key c = Ok (r, c')
    ∧ longest_match (page_size (cfg c)) G (query_units c key) (device_indices r)
    ∧ G' !! last_device_node r
      = Some (MkG (take (length (device_indices r)) (query_units c key)) (device_indices r))
    ∧ Inv (view c') G' L
    ∧ (∀ us vs, cached (page_size (cfg c)) G' us vs ↔ cached (page_size (cfg c)) G us vs)
    ∧ frame c c'.
Proof using.
  intros HInv Hdis Hq.
  destruct (wp_ok _ _ _ (wp_match_prefix c G L key HInv Hdis Hq))
    as (r & c' & E & (G' & HI & Hr & Hf & Hlast & Hm & _) & _).
  exists r, c', G'. split_and!; try done. intros us vs. symmetry.
  apply (refines_cached (view c) (view c')); [apply HInv|apply HI| |done].
  simpl. by rewrite (fr_cfg _ _ Hf).
Qed.

(** C3: [insert] returns the length of the longest prefix that was already
    cached; afterwards exactly the prefixes of the key have been added, with
    the new slots behind the old ones, and the evictable size has grown by the
    number of new slots.
    KV-cache events are off. *)
Theorem insert_correct c G L key val prio chunked :
  Inv (view c) G L → disable (cfg c) = false → enable_kv_cache_events (cfg c) = false →
  query_ok c key → vals_ok c key val →
  let us := query_units c key in
  let VAL := insert_vals c key val in
  ∃ r c' G' vs, insert_cache key val prio chunked c = Ok (r, c')
    ∧ Inv (view c') G' L
    ∧ longest_match (page_size (cfg c)) G us vs ∧ r = length vs
    ∧ (∀ us' vs', cached (page_size (cfg c)) G' us' vs' ↔
         cached (page_size (cfg c)) G us' vs'
         ∨ extends (page_size (cfg c)) (take r us) (drop r us) vs (drop r VAL) us' vs')
    ∧ evictable_size c' = (evictable_size c + Z.of_nat (length us - r))%Z
    ∧ protected_size c' = protected_size c ∧ env_frame c c'.
Proof using.
  intros HInv Hdis Hoff Hq Hv us VAL.
  destruct (wp_ok _ _ _ (wp_insert_cache c G L key val prio chunked HInv Hdis Hoff Hq Hv))
    as (r & c' & E & G' & vs & []). exists r, c', G', vs. done.
Qed.

(** C21: round trip: a key that has just been inserted is matched in full, and
    the slots found are those cached before followed by the new ones.
    KV-cache events are off. *)
Theorem insert_match_roundtrip c G L key val prio chunked :
  Inv (view c) G L → disable (cfg c) = false → enable_kv_cache_events (cfg c) = false →
  query_ok c key → vals_ok c key val →
  ∃ r c1 m c2 vs, insert_cache key val prio chunked c = Ok (r, c1)
    ∧ match_prefix key c1 = Ok (m, c2)
    ∧ longest_match (page_size (cfg c)) G (query_units c key) vs ∧ r = length vs
    ∧ device_indices m = vs ++ drop r (insert_vals c key val)
    ∧ length (device_indices m) = length (query_units c key).
Proof using.
  intros HInv Hdis Hoff Hq Hv.
  destruct (wp_ok _ _ _ (wp_insert_cache c G L key val prio chunked HInv Hdis Hoff Hq Hv))
    as (r & c1 & E1 & G1 & vs & Hip).
  pose proof (ip_env _ _ _ _ _ _ _ _ _ Hip) as He. pose proof (ef_cfg _ _ He) as Hcfg.
  destruct (wp_ok _ _ _ (wp_match_prefix c1 G1 L key (ip_inv _ _ _ _ _ _ _ _ _ Hip)
    ltac:(by rewrite Hcfg) ltac:(unfold query_ok; by rewrite Hcfg)))
    as (m & c2 & E2 & (G2 & _ & _ & _ & _ & Hm & _) & _).
  assert (query_units c1 key = query_units c key) as Hqu by (unfold query_units; by rewrite Hcfg).
  rewrite Hqu, Hcfg in Hm.
  destruct (insert_vals_length c key val Hq Hv) as [Hlv Hal].
  destruct (insert_full c c1 G L _ _ r G1 vs (device_indices m) Hip Hlv Hal Hm) as [Hd Hl].
  exists r, c1, m, c2, vs. split_and!; [done|done|apply Hip|apply Hip|done|done].
Qed.

(** Taking a lock on a live node raises [lock_ref] by one on exactly the
    nodes from it up to the root; the evictable size changes by the returned
    delta, and what is no longer evictable is protected. *)
Theorem inc_lock_ref_correct c G L n :
  Inv (view c) G L → disable (cfg c) = false → is_Some (G !! n) →
  ∃ delta c', inc_lock_ref n c = Ok (delta, c')
    ∧ Inv (view c') G (add_lock L n 1)
    ∧ (∀ q, hlock (tv_h (view c')) q
            = hlock (tv_h (view c)) q + if on_path G (root_node c) n q then 1 else 0)%Z
    ∧ evictable_size c' = (evictable_size c + delta)%Z
    ∧ (evictable_size c' + protected_size c' = evictable_size c + protected_size c)%Z
    ∧ env_frame c c'.
Proof using.
  intros HInv Hdis Hn.
  destruct (wp_ok _ _ _ (wp_inc_lock_ref c G L n HInv Hdis Hn)) as (d & c' & E & []).
  exists d, c'. done.
Qed.

(** [inc_lock_ref] followed by [dec_lock_ref] on the same node returns,
    with opposite deltas, and restores the locks and the size counters. *)
Theorem inc_dec_lock_restore c G L n :
  Inv (view c) G L → locks_nonneg L → disable (cfg c) = false → is_Some (G !! n) →
  ∃ d c1 c2, inc_lock_ref n c = Ok (d, c1) ∧ dec_lock_ref n c1 = Ok ((- d)%Z, c2)
    ∧ Inv (view c2) G L
    ∧ (∀ q, hlock (tv_h (view c2)) q = hlock (tv_h (view c)) q)
    ∧ evictable_size c2 = evictable_size c ∧ protected_size c2 = protected_size c.
Proof using.
  intros HInv HL Hdis Hn.
  destruct (wp_ok _ _ _ (wp_inc_dec c G L n HInv HL Hdis Hn)) as (d & c1 & E1 & _ & Hdec).
  destruct (wp_ok _ _ _ Hdec) as (d' & c2 & E2 & -> & ? & _ & ? & ? & ?).
  exists d, c1, c2. done.
Qed.

(** the traversal of [total_size] returns, and counts what the two
    counters say. *)
Theorem total_size_counters c G L :
  Inv (view c) G L → total_size c = Ok (evictable_size c + protected_size c)%Z.
Proof using. intros HInv. eapply total_size_spec; [apply HInv|done]. Qed.

(** The cache is a partial map from prefixes to slots: a prefix has at most
    one list of slots, one slot per unit. *)
Theorem cached_partial_map c G L us vs1 vs2 :
  Inv (view c) G L → cached (page_size (cfg c)) G us vs1 → cached (page_size (cfg c)) G us vs2 →
  vs1 = vs2 ∧ length us = length vs1.
Proof using.
  intros HInv H1 H2. pose proof (inv_tree _ _ _ HInv) as Ht.
  split; [by eapply (cached_functional (view c) G Ht)|by eapply (cached_length (view c) G Ht)].
Qed.

(** [reset] leaves an empty cache with a new root and announces it when
    events are on; the allocator is not touched. *)
Theorem reset_empty c :
  1 ≤ page_size (cfg c) → store_fresh c →
  ∃ c', reset c = Ok (tt, c')
    ∧ Inv (view c') (empty_tree (root_node c')) no_locks
    ∧ evictable_size c' = 0%Z ∧ protected_size c' = 0%Z ∧ allocator c' = allocator c
    ∧ kv_event_queue c' = kv_event_queue c
        ++ (if enable_kv_cache_events (cfg c) then [AllBlocksCleared] else []).
Proof using.
  intros Hps Hf. destruct (wp_ok _ _ _ (wp_reset c Hps Hf)) as ([] & c' & E & ? & ? & ? & ? & ? & ? & ?).
  by exists c'.
Qed.
End contract.

Section eviction.
Context `{Env} {A : Type} `{KVAllocator A} `{!KVAllocatorLaws A}.
Implicit Types (c : RadixCache A) (G : gmap nat gnode) (L : nat → Z).

(** C4: [evict] returns; it frees at least the requested number of slots, or
    everything that is not locked, and the counter of evictable slots drops by
    the number it returns.  A slot that leaves the tree goes to the allocator,
    once.
    KV-cache events are off. *)
Theorem evict_enough c G L want :
  Inv (view c) G L → locks_nonneg L → vals_fit c G → kv_ok (allocator c) →
  enable_kv_cache_events (cfg c) = false → disable (cfg c) = false →
  ∃ r c' G', evict want c = Ok (r, c') ∧ Inv (view c') G' L
    ∧ ((want <= r)%Z ∨ evictable_size c' = 0%Z)
    ∧ evictable_size c' = (evictable_size c - r)%Z ∧ protected_size c' = protected_size c
    ∧ (∀ i, ledger c' G' i = ledger c G i).
Proof using.
  intros HInv HL Hfit Hkv Hoff Hdis.
  destruct (wp_ok _ _ _ (wp_evict c G L want HInv HL Hfit Hkv Hoff Hdis))
    as (r & c' & E & G' & vs & []). exists r, c', G'. unfold evictable_size, protected_size, ledger.
  split_and!; try done. lia.
Qed.

(** C5: [evict] never removes a node that is locked, nor one above a locked
    node; what stays keeps its path and its slots.
    KV-cache events are off. *)
Theorem evict_keeps_locked c G L want r c' :
  Inv (view c) G L → locks_nonneg L → vals_fit c G → kv_ok (allocator c) →
  enable_kv_cache_events (cfg c) = false → disable (cfg c) = false →
  evict want c = Ok (r, c') →
  ∃ G', Inv (view c') G' L ∧ G' ⊆ G
    ∧ ∀ n g m gm, G !! n = Some g → (1 <= L n)%Z → G !! m = Some gm →
        g_path gm `prefix_of` g_path g → G' !! m = Some gm.
Proof using.
  intros HInv HL Hfit Hkv Hoff Hdis E.
  destruct (wp_ok _ _ _ (wp_evict c G L want HInv HL Hfit Hkv Hoff Hdis))
    as (r' & c'' & E' & G' & vs & Hpost). assert (c'' = c') as -> by congruence.
  pose proof (ev_sub _ _ _ _ _ _ _ _ _ Hpost) as Hsub. pose proof (ev_inv _ _ _ _ _ _ _ _ _ Hpost) as HI'.
  exists G'. split_and!; [done|done|]. intros n g m gm Hn HLn Hm Hpre.
  destruct (G' !! n) as [g'|] eqn:Hn'.
  2: { apply not_elem_of_dom in Hn'. destruct (inv_locks _ _ _ HI') as [_ _ Hout].
    rewrite Hout in HLn by done. lia. }
  assert (g' = g) as -> by (pose proof (lookup_weaken _ _ _ _ Hn' Hsub); congruence).
  destruct (evict_upward _ _ _ _ _ _ _ _ _ n g m gm HInv Hpost Hn ltac:(eauto) Hm Hpre) as [gm' Hm'].
  rewrite Hm'. f_equal. pose proof (lookup_weaken _ _ _ _ Hm' Hsub). congruence.
Qed.

(** C6: the removals of [evict] are a run of victims: each is an unlocked leaf
    of least priority among the leaves at that moment, its slots are freed when
    it is removed, and the run stops as soon as enough slots are freed.
    KV-cache events are off. *)
Theorem evict_order c G L want r c' :
  Inv (view c) G L → locks_nonneg L → vals_fit c G → kv_ok (allocator c) →
  enable_kv_cache_events (cfg c) = false → disable (cfg c) = false →
  evict want c = Ok (r, c') →
  ∃ vs, evict_run want 0 c vs c' ∧ r = Z.of_nat (length (concat vs))
    ∧ frees vs (allocator c) = Ok (allocator c').
Proof using.
  intros HInv HL Hfit Hkv Hoff Hdis E.
  destruct (wp_ok _ _ _ (wp_evict c G L want HInv HL Hfit Hkv Hoff Hdis))
    as (r' & c'' & E' & G' & vs & []). rewrite E in E'. injection E' as <- <-.
  by exists vs.
Qed.
End eviction.

(** ** The states of the scheduler's cache

    The scheduler uses the cache over a token allocator: it matches prefixes,
    inserts keys, locks the node a match ended at, releases locks it holds, and
    evicts.  [reachable c L]: the cache [c] with [L n] locks held on node [n]. *)
Section reachability.
Context `{Env} (ps : nat) (eagle dfi : bool) (policy : string) (pool : KVPool).

Inductive reachable : RadixCache KVPool → (nat → Z) → Prop :=
  | reach_init n0 t0 c :
      init_cache false ps eagle false dfi policy n0 t0 pool = Ok c → reachable c no_locks
  | reach_match c L key r c' :
      reachable c L → query_ok c key → match_prefix key c = Ok (r, c') → reachable c' L
  | reach_insert c L key val prio chunked r c' :
      reachable c L → query_ok c key → vals_ok c key val →
      insert_cache key val prio chunked c = Ok (r, c') → reachable c' L
  | reach_lock c L key r c1 d c2 :
      reachable c L → query_ok c key → match_prefix key c = Ok (r, c1) →
      inc_lock_ref (last_device_node r) c1 = Ok (d, c2) →
      reachable c2 (add_lock L (last_device_node r) 1)
  | reach_unlock c L n d c' :
      reachable c L → (1 <= L n)%Z → dec_lock_ref n c = Ok (d, c') →
      reachable c' (add_lock L n (-1))
  | reach_evict c L want r c' :
      reachable c L → evict want c = Ok (r, c') → reachable c' L.

(** What holds of every such state. *)
Definition good (c : RadixCache KVPool) (L : nat → Z) : Prop :=
  (∃ G, Inv (view c) G L ∧ vals_fit c G) ∧ locks_nonneg L ∧ pool_wf (allocator c)
  ∧ disable (cfg c) = false ∧ enable_kv_cache_events (cfg c) = false.

Lemma fits_any (c : RadixCache KVPool) G : vals_fit c G.
Proof using. by intros n _. Qed.

Lemma locks_add L n d : locks_nonneg L → (0 <= L n + d)%Z → locks_nonneg (add_lock L n d).
Proof using. intros HL Hd m. unfold add_lock. pose proof (HL m). case_decide; subst; lia. Qed.

Lemma locks_has L n : locks_nonneg L → (1 <= L n)%Z → has_lock L n.
Proof using. intros HL Hn. split; [done|]. intros m _. apply HL. Qed.

Lemma locked_live (c : RadixCache KVPool) G L n :
  Inv (view c) G L → (1 <= L n)%Z → is_Some (G !! n).
Proof using.
  intros HInv Hn. destruct (G !! n) eqn:E; [eauto|]. apply not_elem_of_dom in E.
  destruct (inv_locks _ _ _ HInv) as [_ _ Hout]. rewrite Hout in Hn by done. lia.
Qed.

Ltac solve_good := split_and!; [eexists; split; [eassumption|apply fits_any]|done..].

Lemma good_match c L key :
  good c L → query_ok c key →
  ∃ r c' G', match_prefix key c = Ok (r, c') ∧ good c' L
    ∧ Inv (view c') G' L ∧ is_Some (G' !! last_device_node r).
Proof using.
  intros ((G & HI & _) & HL & Hwf & Hd & He) Hq.
  destruct (wp_ok _ _ _ (wp_match_prefix c G L key HI Hd Hq))
    as (r & c' & E & (G' & HI' & Hr & Hf & Hlast & _) & _).
  exists r, c', G'. split_and!; [done| |done|by rewrite Hlast].
  unfold good. rewrite (fr_cfg _ _ Hf), (fr_alloc _ _ Hf). solve_good.
Qed.

Lemma good_insert c L key val prio chunked :
  good c L → query_ok c key → vals_ok c key val →
  ∃ r c', insert_cache key val prio chunked c = Ok (r, c') ∧ good c' L.
Proof using.
  intros ((G & HI & _) & HL & Hwf & Hd & He) Hq Hv.
  destruct (wp_ok _ _ _ (wp_insert_cache c G L key val prio chunked HI Hd He Hq Hv))
    as (r & c' & E & G' & vs & [HI' _ _ _ _ _ _ _ Hf]).
  exists r, c'. split; [done|]. unfold good. rewrite (ef_cfg _ _ Hf), (ef_alloc _ _ Hf). solve_good.
Qed.

Lemma good_inc c L G n :
  good c L → Inv (view c) G L → is_Some (G !! n) →
  ∃ d c', inc_lock_ref n c = Ok (d, c') ∧ good c' (add_lock L n 1).
Proof using.
  intros (_ & HL & Hwf & Hd & He) HI Hn.
  destruct (wp_ok _ _ _ (wp_inc_lock_ref c G L n HI Hd Hn)) as (d & c' & E & [HI' Hf]).
  assert (locks_nonneg (add_lock L n 1)) by (apply locks_add; [done|pose proof (HL n); lia]).
  exists d, c'. split; [done|]. unfold good. rewrite (ef_cfg _ _ Hf), (ef_alloc _ _ Hf). solve_good.
Qed.

Lemma good_dec c L n :
  good c L → (1 <= L n)%Z →
  ∃ d c', dec_lock_ref n c = Ok (d, c') ∧ good c' (add_lock L n (-1)).
Proof using.
  intros ((G & HI & _) & HL & Hwf & Hd & He) Hn.
  destruct (wp_ok _ _ _ (wp_dec_lock_ref c G L n HI Hd (locked_live _ _ _ _ HI Hn) (locks_has _ _ HL Hn)))
    as (d & c' & E & [HI' Hf]).
  assert (locks_nonneg (add_lock L n (-1))) by (apply locks_add; [done|lia]).
  exists d, c'. split; [done|]. unfold good. rewrite (ef_cfg _ _ Hf), (ef_alloc _ _ Hf). solve_good.
Qed.

Lemma good_evict c L want :
  good c L → ∃ r c', evict want c = Ok (r, c') ∧ good c' L.
Proof using.
  intros ((G & HI & Hfit) & HL & Hwf & Hd & He).
  destruct (wp_ok _ _ _ (wp_evict c G L want HI HL Hfit Hwf He Hd)) as (r & c' & E & G' & vs & []).
  exists r, c'. split; [done|]. unfold good. rewrite ev_cfg. solve_good.
Qed.

Context (Hps : 1 ≤ ps) (Hpool : pool_wf pool).

Lemma reachable_good c L : reachable c L → good c L.
Proof using Hps Hpool.
  induction 1 as [n0 t0 c Hc|c L key r c' _ IH Hq E|c L key val prio chunked r c' _ IH Hq Hv E
    |c L key r c1 d c2 _ IH Hq E1 E2|c L n d c' _ IH Hn E|c L want r c' _ IH E].
  - unfold init_cache in Hc. destruct (strategy_of_policy policy) as [strat| |] eqn:Hs; [|done..].
    destruct (init_cache_spec false ps eagle false dfi policy strat n0 t0 pool Hps Hs)
      as (c' & Hc' & HI & Hcfg & Ha & _).
    unfold init_cache in Hc'. rewrite Hs in Hc'. assert (c' = c) as -> by congruence.
    unfold good. rewrite Hcfg, Ha. split_and!; try done. eexists. split; [exact HI|apply fits_any].
  - destruct (good_match c L key IH Hq) as (r' & c'' & G' & E' & Hg & _). congruence.
  - destruct (good_insert c L key val prio chunked IH Hq Hv) as (r' & c'' & E' & Hg). congruence.
  - destruct (good_match c L key IH Hq) as (r' & c'' & G' & E' & Hg & HI & Hlast).
    rewrite E1 in E'. injection E' as <- <-.
    destruct (good_inc c1 L G' _ Hg HI Hlast) as (d' & c3 & E3 & Hg3). congruence.
  - destruct (good_dec c L n IH Hn) as (d' & c'' & E' & Hg). congruence.
  - destruct (good_evict c L want IH) as (r' & c'' & E' & Hg). congruence.
Qed.

(** C1: in every state the scheduler can reach, the cache satisfies its
    invariant: the tree is well formed, every [lock_ref] is the number of locks
    held at or below the node, and the size counters and the leaf set are
    exact.
    KV-cache events are off. *)
Theorem reachable_invariant c L :
  reachable c L → ∃ G, Inv (view c) G L.
Proof using Hps Hpool. intros Hr. destruct (reachable_good c L Hr) as ((G & HI & _) & _). eauto. Qed.

(** C20: in every such state no operation fails or hangs: matching, inserting,
    evicting, and releasing a held lock all return.
    KV-cache events are off. *)
Theorem reachable_progress c L :
  reachable c L →
  (∀ key, query_ok c key → ∃ r c', match_prefix key c = Ok (r, c')
     ∧ ∃ d c'', inc_lock_ref (last_device_node r) c' = Ok (d, c''))
  ∧ (∀ key val prio chunked, query_ok c key → vals_ok c key val →
       ∃ r c', insert_cache key val prio chunked c = Ok (r, c'))
  ∧ (∀ want, ∃ r c', evict want c = Ok (r, c'))
  ∧ (∀ n, (1 <= L n)%Z → ∃ d c', dec_lock_ref n c = Ok (d, c')).
Proof using Hps Hpool.
  intros Hg%reachable_good. split_and!.
  - intros key Hq. destruct (good_match c L key Hg Hq) as (r & c' & G' & E & Hg' & HI & Hl).
    exists r, c'. split; [done|]. destruct (good_inc c' L G' _ Hg' HI Hl) as (d & c'' & ? & _). eauto.
  - intros key val prio chunked Hq Hv.
    destruct (good_insert c L key val prio chunked Hg Hq Hv) as (r & c' & ? & _). eauto.
  - intros want. destruct (good_evict c L want Hg) as (r & c' & ? & _). eauto.
  - intros n Hn. destruct (good_dec c L n Hg Hn) as (d & c' & ? & _). eauto.
Qed.
End reachability.

(** ** The theorems at concrete caches *)
Section witnesses.
#[local] Existing Instance test_env.

Lemma match_prefix_longest_witness :
  ∃ G r c', Inv (view cache1) G no_locks
    ∧ match_prefix (key_of [1; 2; 3; 9]%Z) cache1 = Ok (r, c')
    ∧ longest_match 1 G (query_units cache1 (key_of [1; 2; 3; 9]%Z)) (device_indices r)
    ∧ device_indices r = [5; 6; 7]%Z.
Proof.
  destruct cache1_Inv as [G HI].
  destruct (match_prefix_longest cache1 G no_locks (key_of [1; 2; 3; 9]%Z) HI)
    as (r & c' & G' & E & Hm & _); [exact cache1_on|done|].
  exists G, r, c'. split; [exact HI|]. split; [exact E|]. split; [exact Hm|].
  assert (match match_prefix (key_of [1; 2; 3; 9]%Z) cache1 with
          | Ok (r, _) => device_indices r | _ => [] end = [5; 6; 7]%Z) as Hd
    by (vm_compute; reflexivity).
  rewrite E in Hd. exact Hd.
Defined.

Lemma insert_correct_witness :
  ∃ G r c' G', Inv (view cache1) G no_locks
    ∧ insert_cache (key_of [1; 2; 7]%Z) (Some [9; 10; 11]%Z) None false cache1 = Ok (r, c')
    ∧ Inv (view c') G' no_locks ∧ r = 2 ∧ evictable_size c' = 5%Z.
Proof.
  destruct cache1_Inv as [G HI].
  destruct (insert_correct cache1 G no_locks (key_of [1; 2; 7]%Z) (Some [9; 10; 11]%Z) None false HI)
    as (r & c' & G' & vs & E & HI' & _); [exact cache1_on|exact cache1_off|done|intros v [= <-]; vm_compute; lia|].
  exists G, r, c', G'. split; [exact HI|]. split; [exact E|]. split; [exact HI'|].
  assert (match insert_cache (key_of [1; 2; 7]%Z) (Some [9; 10; 11]%Z) None false cache1 with
          | Ok (r, c) => (r, evictable_size c) | _ => (0, 0%Z) end = (2, 5%Z)) as Hd
    by (vm_compute; reflexivity).
  rewrite E in Hd. injection Hd as Hr Hev. split; [exact Hr|exact Hev].
Defined.

Lemma insert_match_roundtrip_witness :
  ∃ r c1 m c2, insert_cache (key_of [1; 2; 7]%Z) (Some [9; 10; 11]%Z) None false cache1 = Ok (r, c1)
    ∧ match_prefix (key_of [1; 2; 7]%Z) c1 = Ok (m, c2) ∧ length (device_indices m) = 3.
Proof.
  destruct cache1_Inv as [G HI].
  destruct (insert_match_roundtrip cache1 G no_locks (key_of [1; 2; 7]%Z) (Some [9; 10; 11]%Z)
    None false HI) as (r & c1 & m & c2 & vs & E1 & E2 & _ & _ & _ & Hl);
    [exact cache1_on|exact cache1_off|done|intros v [= <-]; vm_compute; lia|].
  exists r, c1, m, c2. split; [exact E1|]. split; [exact E2|]. rewrite Hl. vm_compute. reflexivity.
Defined.

Lemma inc_lock_ref_correct_witness :
  ∃ delta c', inc_lock_ref node2 match1.2 = Ok (delta, c')
    ∧ evictable_size c' = (evictable_size match1.2 + delta)%Z ∧ delta = (-2)%Z.
Proof.
  destruct match1_Inv as (G & HI & Hn).
  destruct (inc_lock_ref_correct match1.2 G no_locks node2 HI) as (d & c' & E & _ & _ & Hev & _);
    [exact match1_on|exists gnode2; exact Hn|].
  exists d, c'. split; [exact E|]. split; [exact Hev|].
  assert (match inc_lock_ref node2 match1.2 with Ok (d, _) => d | _ => 0%Z end = (-2)%Z) as Hd
    by (vm_compute; reflexivity).
  rewrite E in Hd. exact Hd.
Defined.

Lemma inc_dec_lock_restore_witness :
  ∃ d c1 c2, inc_lock_ref node2 match1.2 = Ok (d, c1)
    ∧ dec_lock_ref node2 c1 = Ok ((- d)%Z, c2)
    ∧ evictable_size c2 = evictable_size match1.2.
Proof.
  destruct match1_Inv as (G & HI & Hn).
  destruct (inc_dec_lock_restore match1.2 G no_locks node2 HI)
    as (d & c1 & c2 & E1 & E2 & _ & _ & Hev & _);
    [intros m; unfold no_locks; lia|exact match1_on|exists gnode2; exact Hn|].
  exists d, c1, c2. split; [exact E1|]. split; [exact E2|exact Hev].
Defined.

Lemma total_size_counters_witness :
  total_size cache1 = Ok (evictable_size cache1 + protected_size cache1)%Z.
Proof.
  destruct cache1_Inv as [G HI]. apply (total_size_counters cache1 G no_locks HI).
Defined.

Lemma cached_partial_map_witness :
  ∃ G vs, Inv (view cache1) G no_locks
    ∧ cached 1 G (query_units cache1 (key_of [1; 2]%Z)) vs
    ∧ length (query_units cache1 (key_of [1; 2]%Z)) = length vs.
Proof.
  destruct cache1_Inv as [G HI].
  destruct (wp_ok _ _ _ (wp_match_prefix cache1 G no_locks (key_of [1; 2]%Z) HI cache1_on ltac:(done)))
    as (r & c' & E & (G' & _ & _ & _ & _ & Hm & _) & _).
  assert (match match_prefix (key_of [1; 2]%Z) cache1 with
          | Ok (r, _) => device_indices r | _ => [] end = [5; 6]%Z) as Hd
    by (vm_compute; reflexivity).
  rewrite E in Hd. destruct (lm_cached _ _ _ _ Hm) as [Hn|Hc]; [by rewrite Hd in Hn|].
  assert (take (length (device_indices r)) (query_units cache1 (key_of [1; 2]%Z))
    = query_units cache1 (key_of [1; 2]%Z)) as Ht by (rewrite Hd; vm_compute; reflexivity).
  rewrite Ht in Hc. exists G, (device_indices r). split; [exact HI|]. split; [exact Hc|].
  apply (cached_partial_map cache1 G no_locks _ _ (device_indices r) HI Hc Hc).
Defined.

Lemma reset_empty_witness :
  ∃ c', reset (cache0 4) = Ok (tt, c') ∧ evictable_size c' = 0%Z.
Proof.
  destruct (cache0_Inv 4 ltac:(lia)) as (HI & Hcfg & _).
  destruct (reset_empty (cache0 4)) as (c' & E & _ & Hev & _).
  - rewrite Hcfg. simpl. lia.
  - intros n Hn. apply (to_fresh (inv_tree _ _ _ HI)). simpl. rewrite lookup_fmap. by apply fmap_is_Some.
  - exists c'. split; [exact E|exact Hev].
Defined.

Lemma evict_enough_witness :
  ∃ r c', evict 3 cache1 = Ok (r, c') ∧ ((3 <= r)%Z ∨ evictable_size c' = 0%Z) ∧ r = 4%Z.
Proof.
  destruct cache1_Inv as [G HI].
  destruct (evict_enough cache1 G no_locks 3 HI) as (r & c' & G' & E & _ & Hen & _);
    [done|by intros n _|by vm_compute|exact cache1_off|exact cache1_on|].
  exists r, c'. split; [exact E|]. split; [exact Hen|].
  assert (match evict 3 cache1 with Ok (r, _) => r | _ => 0%Z end = 4%Z) as Hd
    by (vm_compute; reflexivity).
  rewrite E in Hd. exact Hd.
Defined.

Lemma evict_keeps_locked_witness :
  ∃ r c' G', evict 9 cache2 = Ok (r, c') ∧ Inv (view c') G' lock2 ∧ r = 2%Z
    ∧ G' !! node2 = Some gnode2.
Proof.
  destruct cache2_Inv as (G & HI & Hn).
  destruct (evict 9 cache2) as [[r c']| |] eqn:E; [|exfalso; revert E; vm_compute; discriminate..].
  destruct (evict_keeps_locked cache2 G lock2 9 r c' HI) as (G' & HI' & _ & Hkeep);
    [exact lock2_nonneg|by intros n _|by vm_compute|exact cache2_off|exact cache2_on|exact E|].
  exists r, c', G'. split; [reflexivity|]. split; [exact HI'|]. split.
  - assert (match evict 9 cache2 with Ok (r, _) => r | _ => 0%Z end = 2%Z) as Hd
      by (vm_compute; reflexivity).
    rewrite E in Hd. exact Hd.
  - apply (Hkeep node2 gnode2 node2 gnode2 Hn); [|exact Hn|exists []; rewrite app_nil_r; reflexivity].
    unfold lock2, add_lock. rewrite decide_True by reflexivity. unfold no_locks. lia.
Defined.

Lemma evict_order_witness :
  ∃ c' vs, evict_run 3 0 cache1 vs c' ∧ length (concat vs) = 4.
Proof.
  destruct cache1_Inv as [G HI].
  destruct (evict 3 cache1) as [[r c']| |] eqn:E; [|exfalso; revert E; vm_compute; discriminate..].
  destruct (evict_order cache1 G no_locks 3 r c' HI) as (vs & Hrun & Hr & _);
    [done|by intros n _|by vm_compute|exact cache1_off|exact cache1_on|exact E|].
  exists c', vs. split; [exact Hrun|].
  assert (match evict 3 cache1 with Ok (r, _) => r | _ => 0%Z end = 4%Z) as Hd
    by (vm_compute; reflexivity).
  rewrite E in Hd. subst r. lia.
Defined.

(** [cache2] is reached by an insertion, a match and a lock. *)
Lemma reachable_cache2 : reachable 1 false false "lru" (Token.init 16 false) cache2 lock2.
Proof.
  assert (reachable 1 false false "lru" (Token.init 16 false) (cache0 1) no_locks) as H0.
  { apply (reach_init _ _ _ _ _ 0 0). vm_compute. reflexivity. }
  assert (reachable 1 false false "lru" (Token.init 16 false) cache1 no_locks) as H1.
  { eapply (reach_insert _ _ _ _ _ (cache0 1) _ (key_of [1; 2; 3; 4]%Z) (Some [5; 6; 7; 8]%Z) None false 0);
      [exact H0|done|intros v [= <-]; vm_compute; lia|vm_compute; reflexivity]. }
  destruct (inc_lock_ref node2 match1.2) as [[d c]| |] eqn:E; [|exfalso; revert E; vm_compute; discriminate..].
  assert (c = cache2) as <- by (unfold cache2; rewrite E; reflexivity).
  eapply (reach_lock _ _ _ _ _ cache1 _ (key_of [1; 2]%Z) match1.1 match1.2 d); [exact H1|done| |exact E].
  rewrite match1_eq. destruct match1. reflexivity.
Qed.

Lemma reachable_invariant_witness : ∃ G, Inv (view cache2) G lock2.
Proof.
  apply (reachable_invariant 1 false false "lru" (Token.init 16 false));
    [lia|done|apply reachable_cache2].
Defined.

Lemma reachable_progress_witness :
  (∃ r c', evict 5 cache2 = Ok (r, c')) ∧ ∃ d c', dec_lock_ref node2 cache2 = Ok (d, c').
Proof.
  destruct (reachable_progress 1 false false "lru" (Token.init 16 false) ltac:(lia) ltac:(done)
    cache2 lock2 reachable_cache2) as (_ & _ & Hev & Hdec).
  split; [apply Hev|]. apply Hdec. unfold lock2, add_lock. rewrite decide_True by reflexivity.
  unfold no_locks. lia.
Defined.
End witnesses.
