(* ===== verification/MemCommon.v ===== *)
(** Allocation on behalf of the scheduler: mem_cache/common.py, over the radix
    cache with its allocator and the request pool.

    Modelled for a radix cache with a token or paged allocator (the branches for
    sliding-window allocators and for mamba states belong to other cache
    classes).  Server arguments the functions read are parameters. *)
From S2P Require Import Prelude RadixKey TreeNode EvictPolicy RadixCache RadixInv RadixSplit RadixLeaf.
From S2P Require Import RadixLock RadixSpec RadixOps RadixMatch RadixInsert RadixLockOps RadixEvict Allocator AllocKernel.
From S2P Require Import ReqPool MemKernels ReqCache.
From stdpp Require Import options.

(** ** Page arithmetic *)

(** [kv_indices[::page_size]] *)
Definition every_nth (n : nat) (l : list Z) : list Z :=
  omap (λ k, l !! (k * n)) (seq 0 ((length l + n - 1) / n)).

Definition kv_to_page_indices (kv_indices : list Z) (page_size : nat) : list Z :=
  if decide (page_size = 1) then kv_indices
  else (λ i, i / Z.of_nat page_size)%Z <$> every_nth page_size kv_indices.

Definition kv_to_page_num (num_kv_indices page_size : nat) : nat :=
  (num_kv_indices + page_size - 1) / page_size.

Definition page_align_floor (length page_size : nat) : nat := length / page_size * page_size.

(** ** Slots for tokens *)
Section tree.
Context `{Env} {A : Type} `{KVAllocator A}.

(** [evict_from_tree_cache], standard allocator. *)
Definition evict_from_tree_cache (num_tokens : Z) : ST (RadixCache A) unit :=
  available ← st_gets (λ c, kv_available_size (allocator c));
  if bool_decide (available < num_tokens)%Z then
    _ ← evict num_tokens; mret tt
  else mret tt.

(** [maybe_cache_unfinished_req] *)
Definition maybe_cache_unfinished_req (req : Req) (chunked : bool) : ST (World A) Req :=
  if skip_radix_cache_insert req then mret req else cache_unfinished_req req chunked.
End tree.

Section token.
Context `{Env}.
Abbreviation M := (ST (RadixCache KVPool)).

(** [allocator.alloc(n)] *)
Definition token_alloc (n : nat) : M (option (list Z)) := λ c,
  let '(o, a) := Token.alloc n (allocator c) in Ok (o, set_allocator a c).

(** [alloc_token_slots]: the second component is [allocator.backup_state()]. *)
Definition alloc_token_slots (num_tokens : nat) (backup_state : bool)
    : M (list Z * option (list Z * list Z)) :=
  _ ← evict_from_tree_cache (Z.of_nat num_tokens);
  state ← st_gets (λ c, if backup_state then Some (Base.backup_state (allocator c)) else None);
  out_cache_loc ← token_alloc num_tokens;
  match out_cache_loc with
  | None => st_raise RuntimeError
  | Some out => mret (out, state)
  end.
End token.

Section paged.
Context `{Env} (masked : MaskedLanes) (oob fresh : Z → Z).
Abbreviation M := (ST (RadixCache PagedPool)).

Definition paged_op (f : KVPool → result (option (list Z) * KVPool)) : M (option (list Z)) := λ c,
  match f (paged_pool (allocator c)) with
  | Ok (o, a) => Ok (o, set_allocator (MkPaged a) c)
  | Raise e => Raise e
  | Running => Running
  end.

(** [alloc_paged_token_slots_extend] *)
Definition alloc_paged_token_slots_extend
    (prefix_lens prefix_lens_cpu seq_lens seq_lens_cpu last_loc : list Z)
    (extend_num_tokens : nat) (backup_state : bool) : M (list Z * option (list Z * list Z)) :=
  ps ← st_gets (λ c, pool_ps (paged_pool (allocator c)));
  let num_tokens := (Z.of_nat extend_num_tokens + Z.of_nat (length seq_lens_cpu) * ps)%Z in
  _ ← evict_from_tree_cache num_tokens;
  state ← st_gets (λ c, if backup_state then Some (Base.backup_state (paged_pool (allocator c)))
                        else None);
  out_cache_loc ← paged_op (alloc_extend masked oob fresh prefix_lens prefix_lens_cpu seq_lens
                              seq_lens_cpu last_loc extend_num_tokens None);
  match out_cache_loc with
  | None => st_raise RuntimeError
  | Some out => mret (out, state)
  end.

(** [alloc_paged_token_slots_decode] *)
Definition alloc_paged_token_slots_decode (seq_lens seq_lens_cpu last_loc : list Z) : M (list Z) :=
  ps ← st_gets (λ c, pool_ps (paged_pool (allocator c)));
  let num_tokens := (Z.of_nat (length seq_lens) * ps)%Z in
  _ ← evict_from_tree_cache num_tokens;
  out_cache_loc ← paged_op (alloc_decode masked oob fresh seq_lens seq_lens_cpu last_loc);
  match out_cache_loc with
  | None => st_raise RuntimeError
  | Some out => mret out
  end.
End paged.

(** ** Rows of requests *)

(** [alloc_req_slots] for the plain pool. *)
Definition alloc_req_slots (reqs : list Req) (p : ReqToTokenPool)
    : result (list nat * list Req * ReqToTokenPool) :=
  r ← rp_alloc reqs p;
  let '(o, reqs, p) := r in
  match o with
  | None => Raise RuntimeError
  | Some idx => Ok (idx, reqs, p)
  end.

(** ** Releasing a request *)
Section release.
Context `{Env} {A : Type} `{KVAllocator A}.

(** [release_kv_cache] for a cache without mamba states; [page_size], [spec]
    (a speculative algorithm is set) and [strip] are server arguments. *)
Definition release_kv_cache (page_size : nat) (spec strip : bool) (req : Req) (is_insert : bool)
    : ST (World A) Req :=
  match req_pool_idx req with
  | None => st_raise AssertionError
  | Some _ =>
      req ← cache_finished_req strip req (is_insert && negb (skip_radix_cache_insert req));
      match req_pool_idx req with
      | None => mret req
      | Some _ =>
          pop ← st_lift (pop_overallocated_kv_cache strip req);
          let '(start_p, end_p, req) := pop in
          _ ← st_lift (if negb spec && negb strip then py_assert (bool_decide (start_p = end_p))
                       else Ok tt);
          let start_p := if decide (1 < page_size)
                         then Z.to_nat (ceil_align (Z.of_nat start_p) (Z.of_nat page_size))
                         else start_p in
          _ ← (if decide (start_p < end_p) then
                 row ← req_row req;
                 in_cache (alloc_free (py_slice start_p end_p row))
               else mret tt);
          p ← st_gets w_pool;
          r ← st_lift (rp_free req p);
          let '(req, p) := r in
          _ ← in_pool (λ _, Ok p);
          mret req
      end
  end.
End release.

(** ** Lemmas: allocating with eviction *)
Section token_slots.
Context `{Env}.
Implicit Types (c : RadixCache KVPool) (G : gmap nat gnode) (L : nat → Z).

Lemma token_free_available l a :
  is_not_in_free_group a = true →
  Token.available_size (Token.free l a) = (Token.available_size a + Z.of_nat (length l))%Z.
Proof using.
  intros Hg. unfold Token.free. destruct l as [|x l]; [simpl; lia|]. rewrite Hg.
  unfold Token.available_size. destruct (need_sort a); simpl; rewrite length_app; simpl; lia.
Qed.

Lemma frees_available vs (a a' : KVPool) :
  is_not_in_free_group a = true → frees vs a = Ok a' →
  Token.available_size a' = (Token.available_size a + Z.of_nat (length (concat vs)))%Z
  ∧ is_not_in_free_group a' = true.
Proof using.
  revert a. induction vs as [|v vs IH]; intros a Hg; [intros [= <-]; simpl; split; [lia|done]|].
  intros Hf. simpl in Hf. destruct (IH (Token.free v a)) as [-> ?]; [|done|].
  - by rewrite token_free_flag.
  - rewrite token_free_available by done. simpl. rewrite length_app. split; [lia|done].
Qed.

(** The state an allocation runs in. *)
Record alloc_ready c G L : Prop := {
  ar_inv : Inv (view c) G L;
  ar_locks : locks_nonneg L;
  ar_pool : pool_wf (allocator c);
  ar_group : is_not_in_free_group (allocator c) = true;
  ar_on : disable (cfg c) = false;
  ar_off : enable_kv_cache_events (cfg c) = false;
}.

(** Eviction on demand: as many slots are available as were free or
    evictable, up to the number asked for. *)
Lemma wp_evict_from_tree c G L n :
  alloc_ready c G L →
  wp (evict_from_tree_cache n) (λ _ c', ∃ G', alloc_ready c' G' L ∧ G' ⊆ G ∧ cfg c' = cfg c
    ∧ ((n <= Token.available_size (allocator c'))%Z
       ∨ Token.available_size (allocator c')
         = Token.available_size (allocator c) + evictable_size_ c)%Z
    ∧ (Token.available_size (allocator c') + evictable_size_ c'
       = Token.available_size (allocator c) + evictable_size_ c)%Z
    ∧ (∀ i, ledger c' G' i = ledger c G i)) c.
Proof using.
  intros [HI HL Hwf Hg Hon Hoff]. unfold evict_from_tree_cache. wp_steps. simpl kv_available_size.
  case_bool_decide as Hav.
  - wp_step. eapply wp_mono; [eapply wp_evict; try done; by intros m _|].
    intros r c' (G' & vs & []). wp_step. exists G'.
    destruct (frees_available vs _ _ Hg ev_alloc) as [Hav' Hg'].
    pose proof (evictable_nonneg c' G' L ev_inv).
    assert (0 <= Token.available_size (allocator c))%Z by (unfold Token.available_size; lia).
    split_and!; [constructor; rewrite ?ev_cfg; try done|done|done|destruct ev_enough; [left|right]; lia|lia|done].
  - wp_step. exists G. split_and!; [by constructor|done|done|left; lia|lia|done].
Qed.

(** [alloc_token_slots] succeeds exactly when the free and the evictable slots
    suffice, and then hands out that many slots. *)
Lemma alloc_token_slots_spec c G L n backup :
  alloc_ready c G L →
  if decide (Z.of_nat n <= Token.available_size (allocator c) + evictable_size_ c)%Z then
    ∃ out st c' G', alloc_token_slots n backup c = Ok ((out, st), c') ∧ alloc_ready c' G' L
      ∧ length out = n ∧ (∀ i, ledger c' G' i + occ i out = ledger c G i)%Z
  else alloc_token_slots n backup c = Raise RuntimeError.
Proof using.
  intros Hr. destruct (wp_ok _ _ _ (wp_evict_from_tree c G L (Z.of_nat n) Hr))
    as ([] & c1 & E & G1 & Hr1 & _ & _ & Hmax & Hsum & Hled).
  pose proof (evictable_nonneg c1 G1 L (ar_inv _ _ _ Hr1)) as Hnn.
  pose proof (token_alloc_spec n (allocator c1) (ar_pool _ _ _ Hr1)) as Ha.
  unfold alloc_token_slots, mbind, ST_bind, st_bind, st_gets. rewrite E. unfold token_alloc.
  destruct (Token.alloc n (allocator c1)) as [[out|] a'] eqn:Halloc.
  - destruct Ha as (Hlen & Hheld & Hpend & Hwf & Hav).
    assert (0 <= Token.available_size a')%Z by (unfold Token.available_size; lia).
    rewrite decide_True by lia.
    eexists out, _, (set_allocator a' c1), G1. split; [done|]. split; [|split; [done|]].
    + destruct Hr1. constructor; try done. simpl.
      assert (is_not_in_free_group a' = is_not_in_free_group (allocator c1)) as ->; [|done].
      revert Halloc. unfold Token.alloc. fold (before_alloc n (allocator c1)).
      destruct (before_alloc_spec n (allocator c1)) as (_ & _ & _ & Hg & _).
      case_decide; [done|]. intros [= _ <-]. done.
    + intros i. rewrite <-Hled. unfold ledger. simpl. unfold token_count.
      change (view (set_allocator a' c1)) with (view c1).
      rewrite Hpend. autorewrite with occ. rewrite (occ_perm i _ _ Hheld).
      autorewrite with occ. lia.
  - destruct Ha as (Hlt & _). rewrite decide_False by lia. done.
Qed.
End token_slots.

(** ** Lemmas: page indices and last locations *)

(** Reading every [ps]-th slot of a run of pages gives the pages. *)
Lemma every_nth_pages ps pages n :
  1 ≤ ps → n ≤ length pages * ps →
  (λ i, i / Z.of_nat ps)%Z <$> every_nth ps (take n (Paged.pages_slots (Z.of_nat ps) pages))
  = take (kv_to_page_num n ps) pages.
Proof.
  intros Hps Hn.
  assert (length (Paged.pages_slots (Z.of_nat ps) pages) = length pages * ps) as Hl
    by (rewrite pages_slots_length, Nat2Z.id by lia; done).
  unfold every_nth. rewrite length_take, Nat.min_l by lia. fold (kv_to_page_num n ps).
  assert (kv_to_page_num n ps ≤ length pages) as Hk.
  { unfold kv_to_page_num. apply Nat.lt_succ_r, Nat.Div0.div_lt_upper_bound. nia. }
  assert (∀ k q, k < kv_to_page_num n ps → pages !! k = Some q →
    take n (Paged.pages_slots (Z.of_nat ps) pages) !! (k * ps) = Some (q * Z.of_nat ps)%Z) as Hlook.
  { intros k q Hkn Hq. assert (k * ps < n) as Hlt.
    { unfold kv_to_page_num in Hkn.
      assert (ps * S k ≤ ps * ((n + ps - 1) / ps)) by (apply Nat.mul_le_mono_l; lia).
      pose proof (Nat.Div0.mul_div_le (n + ps - 1) ps). lia. }
    rewrite lookup_take_lt by done. clear Hl Hk Hn Hkn Hlt. unfold Paged.pages_slots.
    revert k Hq. induction pages as [|q' pages IH]; intros [|k]; simpl; try done.
    - intros [= ->]. unfold Paged.page_slots, arange. destruct ps as [|ps]; [lia|].
      rewrite Nat2Z.id, seqZ_cons by lia. simpl. f_equal. lia.
    - intros Hq. rewrite lookup_app_r; unfold Paged.page_slots at 1; rewrite length_fmap, arange_length, Nat2Z.id;
        [|lia]. replace (ps + k * ps - ps) with (k * ps) by lia. by apply IH. }
  revert Hlook Hk. generalize (kv_to_page_num n ps). clear Hn.
  intros m Hlook Hm. assert (∀ j, j ≤ m → (λ i, i / Z.of_nat ps)%Z <$>
    omap (λ k, take n (Paged.pages_slots (Z.of_nat ps) pages) !! (k * ps)) (seq 0 j) = take j pages) as Hj;
    [|by apply Hj].
  induction j as [|j IH]; intros Hjm; [done|].
  destruct (lookup_lt_is_Some_2 pages j) as [q Hq]; [lia|].
  rewrite seq_S, omap_app, fmap_app, IH by lia. simpl. rewrite (Hlook j q) by (done || lia). simpl.
  rewrite (take_S_r _ _ _ Hq), Z.div_mul by lia. done.
Qed.

(** ** Lemmas: releasing a request *)
Section release_lemmas.
Context `{Env} {A : Type} `{KVAllocator A} `{!KVAllocatorLaws A}.
Implicit Types (w : World A) (G : gmap nat gnode) (L : nat → Z).

(** Where the over-allocated range starts, after rounding to a page. *)
Definition over_start (page_size n : nat) : nat :=
  if decide (1 < page_size) then Z.to_nat (ceil_align (Z.of_nat n) (Z.of_nat page_size)) else n.

(** What freeing the over-allocated slots gives. *)
Definition given_over (a : A) (start : nat) (req : Req) (row : list Z) : list Z :=
  if decide (start < kv_allocated_len req) then kv_gives a (py_slice start (kv_allocated_len req) row) else [].

(** What else holds of a released request and the state it leaves. *)
Record released (c : RadixCache A) (req : Req) (idx : nat) (p : ReqToTokenPool) (G G' : gmap nat gnode)
    (req' : Req) (is_insert : bool) (w' : World A) : Prop := {
  re_idx : req_pool_idx req' = None;
  re_same : ∃ f, req' = set_pool_idx None (set_freed true f req);
  re_rows : req_to_token (w_pool w') = req_to_token p;
  re_slots : free_slots (w_pool w') = free_slots p ++ [idx];
  re_kv : kv_ok (allocator (w_cache w'));
  re_like : kv_like (allocator c) (allocator (w_cache w'));
  re_cfg : cfg (w_cache w') = cfg c;
  re_tree : is_insert = false → G' = G;
}.

Lemma wp_release w G L ps spec strip req row key idx n is_insert :
  let c := w_cache w in
  let toks := committed_tokens strip req in
  let start := over_start ps (cache_commit_len strip req) in
  Inv (view c) G L → kv_ok (allocator c) → disable (cfg c) = false →
  enable_kv_cache_events (cfg c) = false → has_lock L n →
  kv_committed_freed req = false → kv_overallocated_freed req = false →
  (spec = true ∨ strip = true ∨ cache_commit_len strip req = kv_allocated_len req) →
  req_ok w G req toks row key idx n →
  own_fits (allocator c) (page_size (cfg c)) req (take (length toks) row) (key_len key) →
  wp (release_kv_cache ps spec strip req is_insert) (λ req' w', ∃ G',
    Inv (view (w_cache w')) G' (add_lock L n (-1))
    ∧ released c req idx (w_pool w) G G' req' is_insert w'
    ∧ (∀ i, ledger (w_cache w') G' i
            = ledger c G i + occ i (given_back (allocator c) req toks row (key_len key))
              + occ i (given_over (allocator c) start req row))%Z) w.
Proof using.
  intros c toks start HInv Hkv Hdis Hoff HL Hcf Hof Hassert Hro Hown.
  pose proof Hro as [Hidx Hrow _ _ _ _ _].
  unfold release_kv_cache. rewrite Hidx. wp_step. eapply wp_mono.
  { apply (wp_cache_finished w G L strip req row key idx n); done. }
  intros req1 w1 (G1 & HI1 & Hkv1 & -> & Hpool & Hfit & Hcfg & Hled & Hins). simpl req_pool_idx. rewrite Hidx.
  unfold pop_overallocated_kv_cache. simpl kv_overallocated_freed. rewrite Hof. wp_steps.
  cbv beta iota. set (req2 := set_freed _ true _).
  change (cache_commit_len strip _) with (cache_commit_len strip req).
  simpl kv_allocated_len. wp_step. eapply wp_lift.
  { instantiate (1 := tt). destruct Hassert as [->|[->|Heq]]; [done|by destruct spec|].
    destruct (negb spec && negb strip); [|done]. unfold py_assert. by rewrite bool_decide_true. }
  fold (over_start ps (cache_commit_len strip req)). fold start. wp_step.
  eapply (wp_mono _ (λ _ w2, w_pool w2 = w_pool w1 ∧ Inv (view (w_cache w2)) G1 (add_lock L n (-1))
    ∧ kv_ok (allocator (w_cache w2)) ∧ kv_like (allocator (w_cache w1)) (allocator (w_cache w2))
    ∧ cfg (w_cache w2) = cfg (w_cache w1)
    ∧ ∀ i, ledger (w_cache w2) G1 i
           = (ledger (w_cache w1) G1 i + occ i (given_over (allocator c) start req row))%Z)).
  { clearbody start. unfold given_over. destruct (decide (start < kv_allocated_len req)) as [Hlt|Hge].
    - wp_step. eapply (wp_req_row _ idx row); [done|by rewrite Hpool|].
      apply wp_in_cache. eapply (wp_alloc_free_gives _ G1); [done|].
      intros c2 Hv2 Hcfg2 _ Hkv2 Hfit2 Hled2. simpl. rewrite Hv2. split_and!; [done..|].
      intros i. by rewrite Hled2, (proj2 (proj2 Hfit)).
    - wp_step. split_and!; [done..|]. intros i. rewrite occ_nil. lia. }
  intros _ w2 (Hp2 & HI2 & Hkv2 & Hfit2 & Hcfg2 & Hled2). wp_steps.
  assert (rp_free req2 (w_pool w2) = Ok (set_pool_idx None req2,
    set_slots (free_slots (w_pool w2) ++ [idx]) (w_pool w2))) as Hfree.
  { unfold rp_free. simpl req_pool_idx. by rewrite Hidx. }
  wp_steps. cbv beta iota. wp_steps. exists G1. simpl. split_and!; [done| |].
  - split; simpl; rewrite ?Hp2, ?Hpool; try done; [by eexists|by etrans|by rewrite Hcfg2, Hcfg|].
    intros ->. simpl in Hins. by destruct (disable_finished_insert _).
  - intros i. rewrite Hled2, Hled. unfold c, toks. lia.
Qed.
End release_lemmas.
