(* ===== verification/BatchAlloc.v ===== *)
(** [alloc_for_extend] and [alloc_for_decode] (mem_cache/common.py): rows and
    slots for a batch, written to the request table.

    The branch on [tree_cache.page_size == 1] chooses how slots are allocated and
    goes with the allocator of the cache, so it appears as two instances of the
    common steps.  [batch.maybe_evict_swa()] does nothing for the caches modelled
    here. *)
From S2P Require Import Prelude RadixKey TreeNode EvictPolicy RadixCache RadixInv RadixSplit RadixLeaf.
From S2P Require Import RadixLock RadixSpec RadixOps RadixMatch RadixInsert RadixLockOps RadixEvict Allocator AllocKernel.
From S2P Require Import ReqPool MemKernels ReqCache MemCommon.
From stdpp Require Import options.

(** The attributes of [ScheduleBatch] the two functions read. *)
Record ExtendBatch := MkExtend {
  eb_reqs : list Req;
  eb_prefix_lens : list nat;
  eb_extend_lens : list nat;
  eb_seq_lens : list nat;
  eb_extend_num_tokens : nat;
}.

Record DecodeBatch := MkDecode {
  db_req_pool_indices : list nat;
  db_seq_lens : list nat;
  db_encoder_lens : option (list nat);
}.

Section batch.
Context `{Env} (masked : MaskedLanes) (oob fresh : Z → Z) (triton : bool).

Section steps.
Context {A : Type} `{KVAllocator A}.

Definition in_pool_ret {B} (f : ReqToTokenPool → result (B * ReqToTokenPool)) : ST (World A) B := λ w,
  match f (w_pool w) with
  | Ok (b, p) => Ok (b, MkWorld (w_cache w) p)
  | Raise e => Raise e
  | Running => Running
  end.

(** [alloc_for_extend]; [slots] allocates [out_cache_loc] given the prefix
    tensors.  The requests come back with their rows. *)
Definition alloc_for_extend (slots : list (list Z) → ST (RadixCache A) (list Z)) (b : ExtendBatch)
    : ST (World A) (list Z * list nat * list Req) :=
  let prefix_tensors := prefix_indices <$> eb_reqs b in
  r ← in_pool_ret (alloc_req_slots (eb_reqs b));
  let '(req_pool_indices, reqs) := r in
  out_cache_loc ← in_cache (slots prefix_tensors);
  _ ← in_pool (write_cache_indices oob triton out_cache_loc
                 (zip (zip (zip (zip req_pool_indices (eb_prefix_lens b)) (eb_seq_lens b))
                         (eb_extend_lens b)) prefix_tensors));
  mret (out_cache_loc, req_pool_indices, reqs).

(** [alloc_for_decode]; [slots] allocates [out_cache_loc]. *)
Definition alloc_for_decode (slots : ReqToTokenPool → ST (RadixCache A) (list Z)) (b : DecodeBatch)
    : ST (World A) (list Z) :=
  p ← st_gets w_pool;
  out_cache_loc ← in_cache (slots p);
  let locs := match db_encoder_lens b with
              | Some lens => zip_with Nat.add lens (db_seq_lens b)
              | None => db_seq_lens b
              end in
  _ ← in_pool (write_points (db_req_pool_indices b) locs out_cache_loc);
  mret out_cache_loc.
End steps.

(** [tree_cache.page_size == 1] *)
Definition alloc_for_extend_token (b : ExtendBatch) : ST (World KVPool) (list Z * list nat * list Req) :=
  alloc_for_extend (λ _, r ← alloc_token_slots (eb_extend_num_tokens b) false; mret r.1) b.

(** The paged branch: [last_loc] is the last prefix slot, -1 without a prefix. *)
Definition alloc_for_extend_paged (b : ExtendBatch)
    : ST (World PagedPool) (list Z * list nat * list Req) :=
  let ints (l : list nat) := Z.of_nat <$> l in
  alloc_for_extend (λ prefix_tensors,
    let last_loc := (λ t, default (-1)%Z (last t)) <$> prefix_tensors in
    r ← alloc_paged_token_slots_extend masked oob fresh (ints (eb_prefix_lens b))
          (ints (eb_prefix_lens b)) (ints (eb_seq_lens b)) (ints (eb_seq_lens b)) last_loc
          (eb_extend_num_tokens b) false;
    mret r.1) b.

Definition alloc_for_decode_token (token_per_req : nat) (b : DecodeBatch) : ST (World KVPool) (list Z) :=
  alloc_for_decode (λ _, r ← alloc_token_slots (length (db_seq_lens b) * token_per_req) false;
                         mret r.1) b.

Definition alloc_for_decode_paged (token_per_req : nat) (b : DecodeBatch) : ST (World PagedPool) (list Z) :=
  alloc_for_decode (λ p,
    last_loc ← st_lift (gather (req_to_token p) (Z.of_nat <$> db_req_pool_indices b)
                          ((λ s, Z.of_nat s - 1)%Z <$> db_seq_lens b));
    let seq_lens_next := (λ s, Z.of_nat (s + token_per_req)) <$> db_seq_lens b in
    alloc_paged_token_slots_decode masked oob fresh seq_lens_next seq_lens_next last_loc) b.
End batch.

(** ** Lemmas *)

(** The lengths of a batch agree with its requests. *)
Record extend_ok (W : nat) (b : ExtendBatch) : Prop := {
  eo_prefix : eb_prefix_lens b = (λ r, length (prefix_indices r)) <$> eb_reqs b;
  eo_ext_len : length (eb_extend_lens b) = length (eb_reqs b);
  eo_seq : eb_seq_lens b = zip_with Nat.add (eb_prefix_lens b) (eb_extend_lens b);
  eo_fits : Forall (λ s, s ≤ W) (eb_seq_lens b);
  eo_total : eb_extend_num_tokens b = sum_list (eb_extend_lens b);
}.

(** Rows in use and free rows: each row of the table at most once. *)
Definition rows_ok (p : ReqToTokenPool) (reqs : list Req) : Prop :=
  NoDup (rows_of reqs ++ free_slots p)
  ∧ Forall (λ i, i < length (req_to_token p)) (rows_of reqs ++ free_slots p).

(** What the batch passes to [write_cache_indices]. *)
Definition extend_wreqs (b : ExtendBatch) (rows : list nat) : list wreq :=
  zip (zip (zip (zip rows (eb_prefix_lens b)) (eb_seq_lens b)) (eb_extend_lens b))
    (prefix_indices <$> eb_reqs b).

Section lemmas.
Context `{Env} (masked : MaskedLanes) (oob fresh : Z → Z) (triton : bool).

Lemma extend_wreqs_lookup W b rows k i r :
  extend_ok W b → rows !! k = Some i → eb_reqs b !! k = Some r →
  ∃ e, eb_extend_lens b !! k = Some e
    ∧ extend_wreqs b rows !! k
      = Some (i, length (prefix_indices r), length (prefix_indices r) + e, e, prefix_indices r).
Proof using.
  intros [Hp Hl Hs _ _] Hi Hr.
  destruct (lookup_lt_is_Some_2 (eb_extend_lens b) k) as [e He].
  { rewrite Hl. by eapply lookup_lt_Some. }
  exists e. split; [done|]. unfold extend_wreqs.
  rewrite !lookup_zip_with, Hi, Hs, Hp, lookup_zip_with, !list_lookup_fmap, Hr, He. done.
Qed.

Lemma extend_wreqs_length W b rows :
  extend_ok W b → length rows = length (eb_reqs b) → length (extend_wreqs b rows) = length (eb_reqs b).
Proof using.
  intros [Hp Hl Hs _ _] Hr. unfold extend_wreqs.
  rewrite !length_zip_with, Hs, length_zip_with, Hp, !length_fmap. lia.
Qed.

Lemma extend_wreqs_proj {B} (f : wreq → B) W b rows (l : list B) :
  extend_ok W b → length rows = length (eb_reqs b) → length l = length (eb_reqs b) →
  (∀ k i r e, rows !! k = Some i → eb_reqs b !! k = Some r → eb_extend_lens b !! k = Some e →
     l !! k = Some (f (i, length (prefix_indices r), length (prefix_indices r) + e, e, prefix_indices r))) →
  f <$> extend_wreqs b rows = l.
Proof using.
  intros Hb Hr Hl Hf. apply list_eq. intros k. rewrite list_lookup_fmap.
  destruct (decide (k < length (eb_reqs b))) as [Hk|Hk].
  - destruct (lookup_lt_is_Some_2 rows k) as [i Hi]; [lia|].
    destruct (lookup_lt_is_Some_2 (eb_reqs b) k) as [r Hr']; [lia|].
    destruct (extend_wreqs_lookup W b rows k i r Hb Hi Hr') as (e & He & ->).
    by rewrite (Hf k i r e).
  - rewrite !lookup_ge_None_2; [done|lia|]. rewrite (extend_wreqs_length W) by done. lia.
Qed.

Lemma extend_wreqs_ok b rows W n :
  extend_ok W b → length rows = length (eb_reqs b) → Forall (λ i, i < n) rows →
  Forall (wreq_ok W n) (extend_wreqs b rows).
Proof using.
  intros Hb Hr Hn. apply Forall_lookup. intros k x Hx.
  assert (k < length (eb_reqs b)) as Hk.
  { rewrite <-(extend_wreqs_length W b rows) by done. by eapply lookup_lt_Some. }
  destruct (lookup_lt_is_Some_2 rows k) as [i Hi]; [lia|].
  destruct (lookup_lt_is_Some_2 (eb_reqs b) k) as [r Hr']; [lia|].
  destruct (extend_wreqs_lookup W b rows k i r Hb Hi Hr') as (e & He & Hx').
  rewrite Hx' in Hx. injection Hx as <-.
  assert (length (prefix_indices r) + e ≤ W).
  { apply (Forall_lookup_1 _ _ k _ (eo_fits _ _ Hb)).
    rewrite (eo_seq _ _ Hb), lookup_zip_with, (eo_prefix _ _ Hb), list_lookup_fmap, Hr', He. done. }
  assert (i < n) by (by eapply Forall_lookup_1 in Hn).
  split; unfold w_row, w_pre, w_seq, w_ext, w_prefix; simpl; lia.
Qed.

Lemma extend_wreqs_total b rows W k :
  extend_ok W b → length rows = length (eb_reqs b) →
  w_total (take k (extend_wreqs b rows)) = sum_list (take k (eb_extend_lens b)).
Proof using.
  intros Hb Hr. unfold w_total.
  assert (w_ext <$> extend_wreqs b rows = eb_extend_lens b) as <-.
  { apply (extend_wreqs_proj w_ext W); [done..|apply Hb|]. by intros k' i r e _ _ ->. }
  rewrite <-fmap_take. induction (take k (extend_wreqs b rows)) as [|x l IH]; [done|].
  cbn. f_equal. exact IH.
Qed.

Context {A : Type} `{KVAllocator A}.

Lemma wp_in_pool_ret {B} (f : ReqToTokenPool → result (B * ReqToTokenPool)) (w : World A) b p Q :
  f (w_pool w) = Ok (b, p) → Q b (MkWorld (w_cache w) p) → wp (in_pool_ret f) Q w.
Proof using. intros Hf HQ. unfold wp, in_pool_ret. by rewrite Hf. Qed.

(** Given slots, an extend batch gets its rows filled: prefix, then new slots. *)
Lemma wp_alloc_for_extend (w : World A) slots b Qc :
  extend_ok (max_context_len (w_pool w)) b → rows_ok (w_pool w) (eb_reqs b) →
  width_ok (max_context_len (w_pool w)) (req_to_token (w_pool w)) →
  Forall (λ r, is_Some (req_pool_idx r) → (0 < is_chunked r)%Z ∨ 0 < kv_committed_len r) (eb_reqs b) →
  length (eb_reqs b) - length (rows_of (eb_reqs b)) ≤ length (free_slots (w_pool w)) →
  wp (slots (prefix_indices <$> eb_reqs b))
    (λ out c', length out = eb_extend_num_tokens b ∧ Qc out c') (w_cache w) →
  wp (alloc_for_extend oob triton slots b) (λ '(out, rows, reqs') w',
    Qc out (w_cache w') ∧ length out = eb_extend_num_tokens b
    ∧ rows = rows_of reqs' ∧ NoDup rows ∧ length rows = length (eb_reqs b)
    ∧ rows ++ free_slots (w_pool w') ≡ₚ rows_of (eb_reqs b) ++ free_slots (w_pool w)
    ∧ ∀ k i r e row, rows !! k = Some i → eb_reqs b !! k = Some r → eb_extend_lens b !! k = Some e →
        req_to_token (w_pool w) !! i = Some row →
        let s := sum_list (take k (eb_extend_lens b)) in
        req_to_token (w_pool w') !! i
        = Some (prefix_indices r ++ py_slice s (s + e) out
                ++ drop (length (prefix_indices r) + e) row)) w.
Proof using.
  intros Hb [Hnd Hlt] Hw Hre Hfree Hslots. unfold alloc_for_extend. wp_step.
  destruct (rp_alloc_none (eb_reqs b) (w_pool w) Hre) as [(rows & reqs' & p1 & Ha)|[_ ?]]; [|lia].
  destruct (rp_alloc_spec _ _ _ _ _ Ha) as (Hrows & Hrl & Hperm & Htab & _).
  eapply (wp_in_pool_ret _ _ (rows, reqs') p1).
  { unfold alloc_req_slots. by rewrite Ha. }
  cbv beta iota. wp_step. apply wp_in_cache. simpl w_cache. simpl w_pool.
  eapply wp_mono; [exact Hslots|]. intros out c' [Hout HQ]. simpl.
  fold (extend_wreqs b rows). wp_step.
  assert (max_context_len p1 = max_context_len (w_pool w)) as Hmc.
  { unfold rp_alloc in Ha. destruct (py_assert _) as [[]| |]; [|done..]. cbn [mbind result_bind] in Ha.
    case_decide; [done|]. by injection Ha as _ _ <-. }
  rewrite <-Htab in Hw, Hlt. rewrite <-Hmc in Hw, Hb.
  assert (NoDup rows) as Hndr by (rewrite <-Hperm in Hnd; by apply NoDup_app in Hnd as (? & _)).
  assert (Forall (λ i, i < length (req_to_token p1)) rows) as Hlr
    by (rewrite <-Hperm in Hlt; by apply Forall_app in Hlt as [? _]).
  pose proof (extend_wreqs_ok b rows _ _ Hb Hrl Hlr) as Hok.
  assert (w_total (extend_wreqs b rows) ≤ length out) as Htot.
  { rewrite Hout, (eo_total _ _ Hb). pose proof (extend_wreqs_total b rows _ (length (eb_reqs b)) Hb Hrl) as Ht.
    rewrite !take_ge in Ht; [by rewrite Ht|by rewrite (eo_ext_len _ _ Hb)|by rewrite (extend_wreqs_length _ b rows Hb Hrl)]. }
  destruct (write_loop_flat _ out (extend_wreqs b rows) 0 p1 Hw Hok Htot) as (t & Hloop & _ & _ & _ & _ & Hres).
  eapply wp_in_pool.
  { instantiate (1 := set_table t p1). simpl. destruct triton; [rewrite write_cache_equiv by done|]; exact Hloop. }
  simpl. wp_step. split_and!; try done.
  intros k i r e row Hi Hr He Hrow. destruct (extend_wreqs_lookup _ b rows k i r Hb Hi Hr) as (e' & He' & Hx).
  assert (e' = e) as -> by congruence.
  assert (w_row <$> extend_wreqs b rows = rows) as Hwr.
  { apply (extend_wreqs_proj w_row (max_context_len p1)); [done..|]. by intros. }
  rewrite Hwr in Hres. specialize (Hres Hndr k _ row Hx).
  unfold w_result, w_row, w_prefix, w_ext, w_seq in Hres. simpl in Hres.
  simpl. rewrite Hres by (by rewrite Htab).
  by rewrite (extend_wreqs_total b rows _ k Hb Hrl).
Qed.

(** One element per row. *)
Lemma write_points_spec rows cols values p :
  NoDup rows → length cols = length rows → length values = length rows →
  Forall2 (λ i j, ∃ row, req_to_token p !! i = Some row ∧ j < length row) rows cols →
  ∃ t, write_points rows cols values p = Ok (set_table t p)
    ∧ (∀ i, i ∉ rows → t !! i = req_to_token p !! i)
    ∧ ∀ k i j v row, rows !! k = Some i → cols !! k = Some j → values !! k = Some v →
        req_to_token p !! i = Some row → t !! i = Some (<[j := v]> row).
Proof using.
  intros Hnd Hc Hv Hok. revert values p Hnd Hc Hv Hok.
  revert cols. induction rows as [|i rows IH]; intros [|j cols] [|v values] p; try done.
  - intros _ _ _ _. exists (req_to_token p). split_and!; [by destruct p|done|done].
  - intros [Hi Hnd]%NoDup_cons [= Hc] [= Hv] Hok. apply Forall2_cons in Hok as [(row & Hrow & Hj) Hok].
    cbn [write_points]. unfold get_row. rewrite Hrow. cbn [unwrap mbind result_bind].
    destruct (lookup_lt_is_Some_2 row j Hj) as [x ->]. cbn [unwrap mbind result_bind].
    set (p1 := set_table _ p).
    assert (∀ i', i' ≠ i → req_to_token p1 !! i' = req_to_token p !! i') as Hne.
    { intros i' Hne. simpl. by rewrite list_lookup_insert_ne. }
    destruct (IH cols values p1 Hnd Hc Hv) as (t & -> & Hout & Hin).
    { eapply Forall2_impl; [exact Hok|]. intros i' j' (row' & Hrow' & Hj').
      destruct (decide (i' = i)) as [->|Hn]; [|exists row'; by rewrite Hne].
      exists (<[j := v]> row). rewrite length_insert. split; [|congruence].
      simpl. apply list_lookup_insert_eq. by eapply lookup_lt_Some. }
    exists t. split_and!; [done| |].
    + intros i' [? ?]%not_elem_of_cons. by rewrite Hout, Hne.
    + intros [|k] i' j' v' row'; simpl.
      * intros [= <-] [= <-] [= <-] Hr. rewrite Hout by done. simpl.
        rewrite list_lookup_insert_eq by (by eapply lookup_lt_Some). congruence.
      * intros Hi' Hj' Hv' Hr. eapply Hin; [done..|]. rewrite Hne; [done|].
        intros ->. apply Hi. by eapply list_elem_of_lookup_2.
Qed.

(** Given slots, a decode batch gets the next position of each row filled. *)
Lemma wp_alloc_for_decode (w : World A) slots b Qc :
  NoDup (db_req_pool_indices b) → length (db_seq_lens b) = length (db_req_pool_indices b) →
  db_encoder_lens b = None →
  Forall2 (λ i s, ∃ row, req_to_token (w_pool w) !! i = Some row ∧ s < length row)
    (db_req_pool_indices b) (db_seq_lens b) →
  wp (slots (w_pool w)) (λ out c', length out = length (db_seq_lens b) ∧ Qc out c') (w_cache w) →
  wp (alloc_for_decode slots b) (λ out w',
    Qc out (w_cache w') ∧ free_slots (w_pool w') = free_slots (w_pool w)
    ∧ (∀ i, i ∉ db_req_pool_indices b → req_to_token (w_pool w') !! i = req_to_token (w_pool w) !! i)
    ∧ ∀ k i s v row, db_req_pool_indices b !! k = Some i → db_seq_lens b !! k = Some s →
        out !! k = Some v → req_to_token (w_pool w) !! i = Some row →
        req_to_token (w_pool w') !! i = Some (<[s := v]> row)) w.
Proof using.
  intros Hnd Hlen Henc Hrows Hslots. unfold alloc_for_decode. wp_steps. apply wp_in_cache.
  eapply wp_mono; [exact Hslots|]. intros out c' [Hout HQ]. rewrite Henc. cbv zeta. wp_step.
  destruct (write_points_spec (db_req_pool_indices b) (db_seq_lens b) out (w_pool w)
    Hnd Hlen ltac:(lia) Hrows) as (t & Ht & Hne & Hin).
  eapply wp_in_pool; [exact Ht|]. wp_step. split_and!; try done.
Qed.
End lemmas.

(** Over the token allocator: the whole operation. *)
Section token_batch.
Context `{Env} (oob : Z → Z) (triton : bool).

Lemma wp_token_slots (c : RadixCache KVPool) G L n :
  alloc_ready c G L → (Z.of_nat n <= Token.available_size (allocator c) + evictable_size_ c)%Z →
  wp (r ← alloc_token_slots n false; mret r.1) (λ out c', length out = n
    ∧ ∃ G', alloc_ready c' G' L ∧ ∀ i, (ledger c' G' i + occ i out = ledger c G i)%Z) c.
Proof using.
  intros Hr Hn. pose proof (alloc_token_slots_spec c G L n false Hr) as Hs.
  rewrite decide_True in Hs by done. destruct Hs as (out & st & c' & G' & E & Hr' & Hl & Hled).
  wp_step. eapply wp_intro; [exact E|]. wp_step. simpl. eauto.
Qed.
End token_batch.
