(* ===== verification/MemTheorems.v ===== *)
(** The contracts of the keys, the allocators, the request table and of the
    operations that tie them to the radix cache. *)
From S2P Require Import Prelude RadixKey TreeNode EvictPolicy RadixCache RadixInv RadixSplit RadixLeaf.
From S2P Require Import RadixLock RadixSpec RadixOps RadixMatch RadixInsert RadixLockOps RadixEvict RadixTotal.
From S2P Require Import Allocator AllocKernel AllocSafe ReqPool MemKernels ReqCache RadixTheorems MemCommon BatchAlloc.
From stdpp Require Import options.

(** ** Keys *)

(** [RadixKey.match] of two keys of one namespace gives the greatest
    whole number of pages on which they agree, counted in units (tokens, or
    bigrams in the EAGLE view). *)
Theorem key_match_greatest k1 k2 ps :
  1 ≤ ps → extra_key k1 = extra_key k2 → is_bigram k1 = is_bigram k2 →
  key_len k1 `mod` ps = 0 → key_len k2 `mod` ps = 0 →
  ∃ n, key_match k1 k2 ps = Ok n ∧ n `mod` ps = 0
    ∧ n ≤ key_len k1 ∧ n ≤ key_len k2 ∧ take n (iter k1) = take n (iter k2)
    ∧ ∀ m, m `mod` ps = 0 → m ≤ key_len k1 → m ≤ key_len k2 →
        take m (iter k1) = take m (iter k2) → m ≤ n.
Proof.
  intros Hps He Hb H1 H2. exists (floor_align (common_len (iter k1) (iter k2)) ps).
  pose proof (floor_align_le (common_len (iter k1) (iter k2)) ps) as Hle.
  pose proof (common_len_le_l (iter k1) (iter k2)) as Hl1. rewrite iter_length in Hl1.
  pose proof (common_len_le_r (iter k1) (iter k2)) as Hl2. rewrite iter_length in Hl2.
  split_and!; [by apply key_match_spec|auto with py|lia|lia| |].
  - apply common_len_iff; rewrite ?iter_length; lia.
  - intros m Hm Hm1 Hm2 Heq. apply floor_align_greatest; [done|].
    apply common_len_iff; rewrite ?iter_length; done.
Qed.

Lemma key_match_greatest_witness :
  ∃ n, key_match (MkRadixKey [1; 2; 3; 4]%Z None false) (MkRadixKey [1; 2; 3; 9]%Z None false) 2 = Ok n
    ∧ n = 2.
Proof.
  destruct (key_match_greatest (MkRadixKey [1; 2; 3; 4]%Z None false) (MkRadixKey [1; 2; 3; 9]%Z None false) 2)
    as (n & E & _); [lia|reflexivity..|].
  exists n. split; [exact E|].
  assert (key_match (MkRadixKey [1; 2; 3; 4]%Z None false) (MkRadixKey [1; 2; 3; 9]%Z None false) 2 = Ok 2) as E2
    by reflexivity.
  rewrite E in E2. apply Ok_inj in E2. exact E2.
Defined.

(** Two keys of at least a page have the same [child_key] exactly when they
    are in the same namespace and start with the same page. *)
Theorem child_key_first_page k1 k2 ps :
  1 ≤ ps → ps ≤ key_len k1 → ps ≤ key_len k2 → is_bigram k1 = is_bigram k2 →
  ∃ c1 c2, child_key k1 ps = Ok c1 ∧ child_key k2 ps = Ok c2
    ∧ (c1 = c2 ↔ extra_key k1 = extra_key k2 ∧ take ps (iter k1) = take ps (iter k2)).
Proof.
  intros Hps H1 H2 Hb. destruct (child_key_ok k1 ps) as [c1 E1]; [done..|].
  destruct (child_key_ok k2 ps) as [c2 E2]; [done..|].
  exists c1, c2. split_and!; [done..|]. by apply (child_key_page k1 k2 ps).
Qed.

Lemma child_key_first_page_witness :
  ∃ c1 c2, child_key (MkRadixKey [1; 2; 3]%Z None false) 2 = Ok c1
    ∧ child_key (MkRadixKey [1; 2; 4]%Z None false) 2 = Ok c2 ∧ c1 = c2.
Proof.
  destruct (child_key_first_page (MkRadixKey [1; 2; 3]%Z None false) (MkRadixKey [1; 2; 4]%Z None false) 2)
    as (c1 & c2 & E1 & E2 & Hiff); [lia|vm_compute; lia|vm_compute; lia|reflexivity|].
  exists c1, c2. split; [exact E1|]. split; [exact E2|]. apply Hiff. split; reflexivity.
Defined.

(** ** The token allocator *)

(** [TokenToKVPoolAllocator.alloc] takes exactly the requested number of
    slots out of the pool, or fails and keeps all of them when fewer are free;
    sorting the released slots in first does not lose or duplicate any. *)
Theorem token_alloc_correct n a :
  pool_wf a →
  match Token.alloc n a with
  | (Some out, a') =>
      length out = n ∧ held a ≡ₚ out ++ held a' ∧ pending a' = pending a ∧ pool_wf a'
      ∧ (Token.available_size a' = Token.available_size a - Z.of_nat n)%Z
  | (None, a') =>
      (Token.available_size a < Z.of_nat n)%Z ∧ held a' ≡ₚ held a ∧ pending a' = pending a
      ∧ pool_wf a' ∧ Token.available_size a' = Token.available_size a
  end.
Proof. apply token_alloc_spec. Qed.

Lemma token_alloc_correct_witness :
  ∃ out a', Token.alloc 3 (Token.init 16 true) = (Some out, a') ∧ length out = 3.
Proof.
  pose proof (token_alloc_correct 3 (Token.init 16 true)) as Hs.
  eexists _, _. split; [vm_compute; reflexivity|].
  apply Hs. intros Hn. discriminate Hn.
Defined.

(** A pool holds each slot as often after allocating and freeing as before. *)
Theorem token_alloc_free_roundtrip n a out a' :
  pool_wf a → Token.alloc n a = (Some out, a') →
  ∀ i, token_count (Token.free out a') i = token_count a i.
Proof. apply token_alloc_free. Qed.

Lemma token_alloc_free_roundtrip_witness :
  ∃ out a', Token.alloc 3 (Token.init 16 false) = (Some out, a')
    ∧ token_count (Token.free out a') 2 = token_count (Token.init 16 false) 2.
Proof.
  eexists _, _. split; [vm_compute; reflexivity|].
  apply (token_alloc_free_roundtrip 3 (Token.init 16 false)); [by intros _|vm_compute; reflexivity].
Defined.

(** Frees inside a free group take effect at its end: [free_group_begin],
    any frees, [free_group_end] leave the pool with the slots it held and
    everything that was freed. *)
Theorem token_free_group a ls :
  is_not_in_free_group a = true →
  ∃ a', Token.free_group_end (foldl (λ a l, Token.free l a) (Base.free_group_begin a) ls) = Ok a'
    ∧ is_not_in_free_group a' = true
    ∧ ∀ i, token_count a' i = (token_count a i + occ i (concat ls))%Z.
Proof.
  intros Hg. set (b := foldl _ _ _).
  assert (is_not_in_free_group b = false
    ∧ ∀ i, token_count b i = (token_count a i + occ i (concat ls))%Z) as [Hb Hc].
  { unfold b. assert (is_not_in_free_group (Base.free_group_begin a) = false
      ∧ ∀ i, token_count (Base.free_group_begin a) i = token_count a i) as [Hb0 Hc0].
    { split; [done|]. intros i. unfold token_count, held, pending. simpl. by rewrite Hg. }
    clear b. induction ls as [|l ls IH] using rev_ind; [split; [done|]; intros i; rewrite Hc0, occ_nil; lia|].
    rewrite foldl_app. simpl. destruct IH as [IHb IHc]. rewrite token_free_flag. split; [done|].
    intros i. rewrite token_free_count, IHc, concat_app, occ_app. simpl. rewrite app_nil_r. lia. }
  destruct (token_group_end b Hb) as (a' & E & Hf & Hc'). exists a'. split_and!; [done..|].
  intros i. by rewrite Hc'.
Qed.

Lemma token_free_group_witness :
  ∃ a', Token.free_group_end (foldl (λ a l, Token.free l a) (Base.free_group_begin (Token.init 4 false))
      [[7; 8]; [9]]%Z) = Ok a' ∧ token_count a' 9 = 1%Z.
Proof.
  destruct (token_free_group (Token.init 4 false) [[7; 8]; [9]]%Z eq_refl) as (a' & E & _ & Hc).
  exists a'. split; [exact E|]. rewrite Hc. vm_compute. reflexivity.
Defined.

(** ** The paged allocator *)

(** [PagedTokenToKVPoolAllocator.alloc] hands out whole pages: the slots of
    [need_size // page_size] pages of the pool, page after page, or fails and
    keeps all pages when there are fewer. *)
Theorem paged_alloc_correct n a :
  (0 < pool_ps a)%Z → debug_mode a = false → pool_wf a → (0 <= n)%Z →
  match Paged.alloc n a with
  | Ok (Some out, a') =>
      ∃ pages, out = Paged.pages_slots (pool_ps a) pages ∧ length pages = Z.to_nat (n / pool_ps a)
        ∧ held a ≡ₚ pages ++ held a' ∧ pending a' = pending a ∧ pool_wf a'
        ∧ pool_ps a' = pool_ps a ∧ (∀ i, paged_count a i = (paged_count a' i + occ i out)%Z)
  | Ok (None, a') =>
      length (held a) < Z.to_nat (n / pool_ps a) ∧ held a' ≡ₚ held a ∧ pending a' = pending a
      ∧ pool_wf a' ∧ pool_ps a' = pool_ps a
  | _ => False
  end.
Proof. apply paged_alloc_spec. Qed.

Lemma paged_alloc_correct_witness :
  ∃ out a' pages, Paged.alloc 8 (Paged.init 16 4 false false) = Ok (Some out, a')
    ∧ out = Paged.pages_slots 4 pages ∧ length pages = 2.
Proof.
  pose proof (paged_alloc_correct 8 (Paged.init 16 4 false false)) as Hs.
  destruct (Paged.alloc 8 (Paged.init 16 4 false false)) as [[[out|] a']| |] eqn:E;
    [|exfalso; revert E; vm_compute; discriminate..].
  destruct Hs as (pages & Ho & Hl & _); [vm_compute; reflexivity|reflexivity|by intros _|lia|].
  exists out, a', pages. split; [reflexivity|]. split; [exact Ho|exact Hl].
Defined.

(** in debug mode freeing a slot of a page that is already free raises. *)
Theorem paged_double_free_detected l a i :
  debug_mode a = true → is_not_in_free_group a = true → need_sort a = false →
  i ∈ l → (i / pool_ps a)%Z ∈ free_pages a → Paged.free l a = Raise AssertionError.
Proof. apply paged_double_free. Qed.

Lemma paged_double_free_detected_witness :
  Paged.free [5; 6]%Z (Paged.init 16 4 false true) = Raise AssertionError.
Proof.
  apply (paged_double_free_detected [5; 6]%Z (Paged.init 16 4 false true) 5); [reflexivity..| |].
  - left.
  - vm_compute. left.
Defined.


(** A batch of two requests over pages of four slots: 2 tokens on page 5 and 6
    new ones; nothing yet and 5 new ones. *)
Lemma batch2_ok : batch_ok [2; 0]%Z [8; 5]%Z [21; -1]%Z.
Proof.
  split; [done..|]. intros [|[|[|i]]] p s; simpl; intros [= <-] [= <-]; lia.
Qed.

(** Masked lanes that are not zero, but the same for both loads. *)
Definition garbage : MaskedLanes := λ _ pid l, (13 * pid + l)%Z.


(** Lanes that disagree break the kernel: with 4 against 0 in the masked lane the first
    program stores behind the tokens of the batch and takes the page of another. *)
Lemma extend_kernel_needs_lanes :
  let masked : MaskedLanes := λ which _ _, match which with SeqLens => 4%Z | PreLens => 0%Z end in
  launch 1 (λ pid, alloc_extend_kernel masked (λ _, 0%Z) pid [0; 0]%Z [1; 1]%Z [-1; -1]%Z [3; 7; 9]%Z 2 4) = [(4, 28)]%Z
  ∧ naive_request [0; 0]%Z [1; 1]%Z [-1; -1]%Z [3; 7; 9]%Z 4 0 = [(0, 12)]%Z.
Proof. vm_compute. done. Qed.

(** [alloc_extend] gives position [j] of every request the slot [slot_at]:
    the rest of its last page, then its new pages of the free list in order; it
    fails, keeping the pool, exactly when the free list is too short. *)
Theorem alloc_extend_correct masked oob fresh pre_lens seq_lens last_locs n nn a :
  lanes_agree masked → batch_ok pre_lens seq_lens last_locs → (0 < pool_ps a)%Z → debug_mode a = false →
  Z.of_nat n = zsum (zip_with Z.sub seq_lens pre_lens) →
  let N := zsum (new_pages pre_lens seq_lens (pool_ps a)) in
  nn = None ∨ nn = Some N →
  let b := extend_pool n (length pre_lens) a in
  alloc_extend masked oob fresh pre_lens pre_lens seq_lens seq_lens last_locs n nn a
  = if decide (Z.of_nat (length (free_pages b)) < N)%Z then Ok (None, b)
    else Ok (Some (concat (batch_slots oob pre_lens seq_lens last_locs (free_pages b) (pool_ps a)
                             (length pre_lens))),
             set_free (drop (Z.to_nat N) (free_pages b)) (release_pages b) b).
Proof. apply alloc_extend_spec. Qed.

Lemma alloc_extend_correct_witness :
  ∃ a', alloc_extend garbage (λ _, 0%Z) (λ _, 0%Z) [2; 0]%Z [2; 0]%Z [8; 5]%Z [8; 5]%Z [21; -1]%Z 11 None
      (set_free [3; 7; 9]%Z [] (Paged.init 64 4 false false))
    = Ok (Some [22; 23; 12; 13; 14; 15; 28; 29; 30; 31; 36]%Z, a') ∧ free_pages a' = [].
Proof.
  eexists. split.
  - rewrite (alloc_extend_correct garbage (λ _, 0%Z) (λ _, 0%Z) [2; 0]%Z [8; 5]%Z [21; -1]%Z 11 None
      (set_free [3; 7; 9]%Z [] (Paged.init 64 4 false false)));
      [vm_compute; reflexivity|intros pid l; reflexivity|apply batch2_ok|vm_compute; reflexivity|reflexivity|reflexivity|left; reflexivity].
  - reflexivity.
Defined.



(** [alloc_decode] gives every request the next slot of its last page, or the
    first slot of a new page of the free list when that page is full; new pages
    go to the requests in order. *)
Theorem alloc_decode_correct masked oob fresh seq_lens last_locs a :
  length last_locs = length seq_lens → (2 <= pool_ps a)%Z → debug_mode a = false →
  let ps := pool_ps a in
  let b := before_alloc (length seq_lens) a in
  let N := decode_start ps seq_lens (length seq_lens) in
  alloc_decode masked oob fresh seq_lens seq_lens last_locs a
  = if decide (Z.of_nat (length (free_pages b)) < N)%Z then Ok (None, b)
    else Ok (Some ((λ i, decode_slot ps (at_ seq_lens i) (at_ last_locs i)
                           (tl_load oob (free_pages b) (decode_start ps seq_lens i)))
                     <$> seq 0 (length seq_lens)),
             set_free (drop (Z.to_nat N) (free_pages b)) (release_pages b) b).
Proof. apply alloc_decode_spec. Qed.

Lemma alloc_decode_correct_witness :
  ∃ a', alloc_decode garbage (λ _, 0%Z) (λ _, 0%Z) [5; 7; 9]%Z [5; 7; 9]%Z [15; 21; 31]%Z
      (set_free [3; 7; 9]%Z [] (Paged.init 64 4 false false)) = Ok (Some [12; 22; 28]%Z, a').
Proof.
  eexists. rewrite (alloc_decode_correct garbage (λ _, 0%Z) (λ _, 0%Z) [5; 7; 9]%Z [15; 21; 31]%Z
    (set_free [3; 7; 9]%Z [] (Paged.init 64 4 false false)));
    [vm_compute; reflexivity|reflexivity|vm_compute; discriminate|reflexivity].
Defined.

(** ** Requests, the table and the cache *)

(** [ReqToTokenPool.alloc] gives each request without a row one of the free
    rows and leaves the others theirs: the rows of the batch and the free rows
    are the same rows as before, so no row is shared or lost. *)
Theorem rp_alloc_rows reqs p rows reqs' p' :
  rp_alloc reqs p = Ok (Some rows, reqs', p') →
  rows = rows_of reqs' ∧ length rows = length reqs
  ∧ rows ++ free_slots p' ≡ₚ rows_of reqs ++ free_slots p
  ∧ req_to_token p' = req_to_token p
  ∧ Forall2 (λ r r', ∃ i, r' = set_pool_idx (Some i) r ∧ (∀ j, req_pool_idx r = Some j → i = j)) reqs reqs'.
Proof. apply rp_alloc_spec. Qed.

(** A request of three tokens, two of them cached at [node2]. *)
Definition req2 : Req :=
  MkReq [1; 2; 9]%Z [] [1; 2; 9]%Z None None (Some 1) [5; 6]%Z (Some node2) 2 3 3 false false 0 0 false.
Definition row2 : list Z := [5; 6; 12; 0]%Z.
Definition pool2 : ReqToTokenPool := MkRPool 3 4 [[0; 0; 0; 0]; row2; [0; 0; 0; 0]; [0; 0; 0; 0]]%Z [2; 3].
Definition world2 : World KVPool := MkWorld cache2 pool2.
Definition key2 : RadixKey := MkRadixKey [1; 2; 9]%Z None false.

Lemma rp_alloc_rows_witness :
  ∃ rows reqs' p', rp_alloc [req2; set_pool_idx None req2] pool2 = Ok (Some rows, reqs', p')
    ∧ length rows = 2.
Proof.
  destruct (rp_alloc [req2; set_pool_idx None req2] pool2) as [[[[rows|] reqs'] p']| |] eqn:E;
    [|exfalso; revert E; vm_compute; discriminate..].
  exists rows, reqs', p'. split; [reflexivity|].
  destruct (rp_alloc_rows [req2; set_pool_idx None req2] pool2 rows reqs' p' E) as (_ & Hl & _). exact Hl.
Defined.

Section world2.
#[local] Existing Instance test_env.

Lemma req2_ok G : G !! node2 = Some gnode2 → req_ok world2 G req2 [1; 2; 9]%Z row2 key2 1 node2.
Proof.
  intros Hn. split; [reflexivity|reflexivity|vm_compute; lia|reflexivity|vm_compute; reflexivity|vm_compute; lia|].
  rewrite Hn. vm_compute. reflexivity.
Qed.

Lemma lock2_has : has_lock lock2 node2.
Proof.
  apply locks_has; [exact lock2_nonneg|]. unfold lock2, add_lock. rewrite decide_True by reflexivity.
  unfold no_locks. lia.
Qed.

Lemma pool_cache2 : pool_wf (allocator cache2).
Proof. vm_compute. reflexivity. Qed.
End world2.

Section conservation.
Context `{Env} {A : Type} `{KVAllocator A} `{!KVAllocatorLaws A}.
Implicit Types (w : World A) (G : gmap nat gnode) (L : nat → Z).

(** C18: [cache_unfinished_req] returns; it moves the request's lock to the node
    that now holds its whole (page-aligned) prefix, rewrites the request's row
    and prefix to the cached slots, and every slot is afterwards where it was:
    in the pool, in the tree, or owned by the request.
    KV-cache events are off. *)
Theorem cache_unfinished_conserves w G L req row key idx n chunked :
  let c := w_cache w in
  Inv (view c) G L → kv_ok (allocator c) → disable (cfg c) = false →
  enable_kv_cache_events (cfg c) = false → has_lock L n →
  req_ok w G req (fill_ids req) row key idx n →
  own_fits (allocator c) (page_size (cfg c)) req (take (length (fill_ids req)) row) (key_len key) →
  ∃ req' w' G' m row', cache_unfinished_req req chunked w = Ok (req', w')
    ∧ Inv (view (w_cache w')) G' (add_lock (add_lock L n (-1)) m 1)
    ∧ req_ok w' G' req' (fill_ids req) row' key idx m
    ∧ cache_protected_len req' = key_len key
    ∧ prefix_indices req' = take (length (fill_ids req)) row'
    ∧ drop (key_len key) row' = drop (key_len key) row
    ∧ (∀ i, ledger (w_cache w') G' i + occ i (owned req' (fill_ids req) row')
            = ledger c G i + occ i (owned req (fill_ids req) row))%Z.
Proof using.
  intros c HI Hk Hd He HL Hr Hf.
  destruct (wp_ok _ _ _ (wp_cache_unfinished w G L req row key idx n chunked HI Hk Hd He HL Hr Hf))
    as (req' & w' & E & G' & m & row' & ? & _ & Hpost). exists req', w', G', m, row'. done.
Qed.

(** C19: with KV-cache events off, [cache_finished_req] returns, drops the request's lock,
    and gives what the request owned to the tree or the pool, exactly once: the slots of
    its whole committed pages, and the pages of the committed slots behind them in whole
    ([kv_gives]; with pages of one slot, those slots).  With insertion on, the whole
    page-aligned sequence is cached afterwards; with insertion off the tree keeps its
    contents. *)
Theorem cache_finished_conserves w G L strip req row key idx n is_insert :
  let c := w_cache w in
  let toks := committed_tokens strip req in
  let ins := if disable_finished_insert (cfg c) then false else is_insert in
  Inv (view c) G L → kv_ok (allocator c) → disable (cfg c) = false →
  enable_kv_cache_events (cfg c) = false → has_lock L n → kv_committed_freed req = false →
  req_ok w G req toks row key idx n →
  own_fits (allocator c) (page_size (cfg c)) req (take (length toks) row) (key_len key) →
  ∃ req' w' G', cache_finished_req strip req is_insert w = Ok (req', w')
    ∧ Inv (view (w_cache w')) G' (add_lock L n (-1))
    ∧ req' = set_freed true (kv_overallocated_freed req) req ∧ w_pool w' = w_pool w
    ∧ (∀ i, ledger (w_cache w') G' i = ledger c G i + occ i (given_back (allocator c) req toks row (key_len key)))%Z
    ∧ (if ins then ∀ vs, longest_match (page_size (cfg c)) G' (titer key) vs →
                     length vs = key_len key
       else G' = G).
Proof using.
  intros c toks ins HI Hk Hd He HL Hcf Hr Hf.
  destruct (wp_ok _ _ _ (wp_cache_finished w G L strip req row key idx n is_insert HI Hk Hd He HL Hcf Hr Hf))
    as (req' & w' & E & G' & ? & _ & ? & ? & _ & _ & Hpost). exists req', w', G'. done.
Qed.

(** [release_kv_cache] returns and gives back everything a finished request
    holds: its lock, its row, its committed slots and its over-allocated slots
    from the next page on; each slot reaches the tree or the pool once. *)
Theorem release_conserves w G L ps spec strip req row key idx n is_insert :
  let c := w_cache w in
  let toks := committed_tokens strip req in
  let start := over_start ps (cache_commit_len strip req) in
  Inv (view c) G L → kv_ok (allocator c) → disable (cfg c) = false →
  enable_kv_cache_events (cfg c) = false → has_lock L n →
  kv_committed_freed req = false → kv_overallocated_freed req = false →
  (spec = true ∨ strip = true ∨ cache_commit_len strip req = kv_allocated_len req) →
  req_ok w G req toks row key idx n →
  own_fits (allocator c) (page_size (cfg c)) req (take (length toks) row) (key_len key) →
  ∃ req' w' G', release_kv_cache ps spec strip req is_insert w = Ok (req', w')
    ∧ Inv (view (w_cache w')) G' (add_lock L n (-1))
    ∧ req_pool_idx req' = None
    ∧ free_slots (w_pool w') = free_slots (w_pool w) ++ [idx]
    ∧ (∀ i, ledger (w_cache w') G' i
            = ledger c G i + occ i (given_back (allocator c) req toks row (key_len key))
              + occ i (given_over (allocator c) start req row))%Z.
Proof using.
  intros c toks start HI Hk Hd He HL Hcf Hof Ha Hr Hf.
  destruct (wp_ok _ _ _ (wp_release w G L ps spec strip req row key idx n is_insert
    HI Hk Hd He HL Hcf Hof Ha Hr Hf)) as (req' & w' & E & G' & ? & [] & Hled).
  exists req', w', G'. done.
Qed.
End conservation.

Section conservation_witnesses.
#[local] Existing Instance test_env.

Lemma cache_unfinished_conserves_witness :
  ∃ req' w', cache_unfinished_req req2 false world2 = Ok (req', w')
    ∧ cache_protected_len req' = 3 ∧ prefix_indices req' = [5; 6; 12]%Z.
Proof.
  destruct cache2_Inv as (G & HI & Hn).
  destruct (cache_unfinished_conserves world2 G lock2 req2 row2 key2 1 node2 false HI)
    as (req' & w' & G' & m & row' & E & _ & _ & Hc & _);
    [exact pool_cache2|exact cache2_on|exact cache2_off|exact lock2_has|exact (req2_ok G Hn)
    |by intros b _ _|].
  exists req', w'. split; [exact E|]. split; [exact Hc|].
  assert (match cache_unfinished_req req2 false world2 with Ok (r, _) => prefix_indices r | _ => [] end
    = [5; 6; 12]%Z) as Hp by (vm_compute; reflexivity).
  rewrite E in Hp. exact Hp.
Defined.

(** Pages of four slots, pages 1 and 2 in use: a request of five tokens, none of them
    cached, finishes in the middle of page 2. *)
Definition paged4 : PagedPool := MkPaged (MkPool 16 4 false false [3; 4]%Z [] true []).
Definition pcache0 : RadixCache PagedPool :=
  match init_cache false 4 false false false "lru" 0 0 paged4 with
  | Ok c => c
  | _ => MkCache (cfg0 4 false) 0 ∅ 0 0 0 0 ∅ [] paged4
  end.
Definition pnode : nat := root_node pcache0.
Definition pcache : RadixCache PagedPool := match inc_lock_ref pnode pcache0 with Ok (_, c) => c | _ => pcache0 end.
Definition plock : nat → Z := add_lock no_locks pnode 1.
Definition preq : Req :=
  MkReq [1; 2; 3; 4; 5]%Z [] [1; 2; 3; 4; 5]%Z None None (Some 1) [] (Some pnode) 0 5 5 false false 0 0 false.
Definition prow : list Z := [4; 5; 6; 7; 8; 0]%Z.
Definition pworld : World PagedPool := MkWorld pcache (MkRPool 2 6 [[0; 0; 0; 0; 0; 0]; prow]%Z []).
Definition pkey : RadixKey := MkRadixKey [1; 2; 3; 4]%Z None false.

Lemma pcache_Inv : Inv (view pcache) (empty_tree pnode) plock.
Proof.
  unfold plock, pcache, pnode, pcache0.
  destruct (init_cache_spec false 4 false false false "lru" LRUStrategy 0 0 paged4) as (c & -> & HI & Hcfg & _ & _); [lia|done|].
  destruct (wp_ok _ _ _ (wp_inc_lock_ref c (empty_tree (root_node c)) no_locks (root_node c) HI ltac:(by rewrite Hcfg)
    ltac:(eexists; apply lookup_singleton_eq))) as (d & c' & -> & [HI' _]). exact HI'.
Qed.

Lemma paged4_whole b : b `mod` 4 = 0 → b ≤ 4 → whole_pages 4 (py_slice 0 b [4; 5; 6; 7; 8]%Z).
Proof.
  intros Hm Hb. assert (b = 0 ∨ b = 4) as [->| ->] by (destruct b as [|[|[|[|[|b]]]]]; simpl in *; lia).
  - intros i. done.
  - apply (pages_slots_whole 4 [1]%Z); [lia|apply NoDup_singleton].
Qed.

(** The slots 8 to 11 of the last page are given back in whole. *)
Lemma cache_finished_conserves_witness :
  ∃ req' w' G', cache_finished_req false preq true pworld = Ok (req', w')
    ∧ (∀ i, ledger (w_cache w') G' i = ledger pcache (empty_tree pnode) i + occ i [4; 5; 6; 7; 8; 9; 10; 11])%Z.
Proof.
  destruct (cache_finished_conserves pworld (empty_tree pnode) plock false preq prow pkey 1 pnode true pcache_Inv)
    as (req' & w' & G' & E & _ & _ & _ & Hled & _).
  - split; [vm_compute; reflexivity|vm_compute; reflexivity].
  - vm_compute. reflexivity.
  - vm_compute. reflexivity.
  - split; [vm_compute; discriminate|]. intros m Hm. unfold plock, add_lock, no_locks. rewrite decide_False by exact Hm. lia.
  - reflexivity.
  - split; [reflexivity|reflexivity|vm_compute; lia|reflexivity|vm_compute; reflexivity|vm_compute; lia|vm_compute; reflexivity].
  - exact paged4_whole.
  - exists req', w', G'. split; [exact E|]. exact Hled.
Defined.

Lemma release_conserves_witness :
  ∃ req' w', release_kv_cache 1 false false req2 true world2 = Ok (req', w')
    ∧ req_pool_idx req' = None ∧ free_slots (w_pool w') = [2; 3; 1].
Proof.
  destruct cache2_Inv as (G & HI & Hn).
  destruct (release_conserves world2 G lock2 1 false false req2 row2 key2 1 node2 true HI)
    as (req' & w' & G' & E & _ & Hi & Hf & _);
    [exact pool_cache2|exact cache2_on|exact cache2_off|exact lock2_has|reflexivity|reflexivity
    |right; right; reflexivity|exact (req2_ok G Hn)|by intros b _ _|].
  exists req', w'. split; [exact E|]. split; [exact Hi|exact Hf].
Defined.
End conservation_witnesses.

(** ** Batches *)

Section batches.
Context `{Env}.

(** [alloc_token_slots] succeeds exactly when the free slots and the
    evictable slots of the tree cover the request, after evicting what it needs;
    otherwise it raises.  No slot is lost or duplicated on the way. *)
Theorem alloc_token_slots_iff (c : RadixCache KVPool) G L n backup :
  alloc_ready c G L →
  if decide (Z.of_nat n <= Token.available_size (allocator c) + evictable_size_ c)%Z then
    ∃ out st c' G', alloc_token_slots n backup c = Ok ((out, st), c') ∧ alloc_ready c' G' L
      ∧ length out = n ∧ (∀ i, ledger c' G' i + occ i out = ledger c G i)%Z
  else alloc_token_slots n backup c = Raise RuntimeError.
Proof using. apply alloc_token_slots_spec. Qed.

(** Every implementation [get_last_loc] can choose (torch, triton, the HIP
    variant) returns the slot of the last token of each prefix, -1 for an empty
    one. *)
Theorem get_last_loc_agrees oob fresh is_hip backend table W idx lens :
  loc_ok table W idx lens →
  get_last_loc oob fresh is_hip backend table (Z.of_nat W) idx lens
  = Ok (zip_with (last_slot table) idx lens).
Proof using.
  intros Hl. unfold get_last_loc. destruct (last_loc_triton_spec oob fresh table W idx lens Hl) as [Ht Hs].
  rewrite Ht, Hs, (last_loc_torch_spec table W) by done. by destruct is_hip, (negb _).
Qed.

(** [write_cache_indices] writes the same table through the triton kernel as
    through the torch loop. *)
Theorem write_kernel_is_loop oob out reqs p :
  width_ok (max_context_len p) (req_to_token p) →
  Forall (wreq_ok (max_context_len p) (length (req_to_token p))) reqs → w_total reqs ≤ length out →
  write_cache_indices oob true out reqs p = write_cache_indices oob false out reqs p.
Proof using. apply write_cache_equiv. Qed.

(** [alloc_for_extend] with pages of one slot: given enough rows and enough
    free or evictable slots it returns; every request gets a row of its own,
    which holds its cached prefix followed by its new slots, and the new slots
    leave the pool or the tree exactly once. *)
Theorem extend_batch_correct oob triton (w : World KVPool) G L b :
  alloc_ready (w_cache w) G L →
  extend_ok (max_context_len (w_pool w)) b → rows_ok (w_pool w) (eb_reqs b) →
  width_ok (max_context_len (w_pool w)) (req_to_token (w_pool w)) →
  Forall (λ r, is_Some (req_pool_idx r) → (0 < is_chunked r)%Z ∨ 0 < kv_committed_len r) (eb_reqs b) →
  length (eb_reqs b) - length (rows_of (eb_reqs b)) ≤ length (free_slots (w_pool w)) →
  (Z.of_nat (eb_extend_num_tokens b)
   <= Token.available_size (allocator (w_cache w)) + evictable_size_ (w_cache w))%Z →
  ∃ out rows reqs' w' G', alloc_for_extend_token oob triton b w = Ok ((out, rows, reqs'), w')
    ∧ alloc_ready (w_cache w') G' L ∧ length out = eb_extend_num_tokens b
    ∧ (∀ i, ledger (w_cache w') G' i + occ i out = ledger (w_cache w) G i)%Z
    ∧ rows = rows_of reqs' ∧ NoDup rows ∧ length rows = length (eb_reqs b)
    ∧ ∀ k i r e row, rows !! k = Some i → eb_reqs b !! k = Some r → eb_extend_lens b !! k = Some e →
        req_to_token (w_pool w) !! i = Some row →
        let s := sum_list (take k (eb_extend_lens b)) in
        req_to_token (w_pool w') !! i
        = Some (prefix_indices r ++ py_slice s (s + e) out
                ++ drop (length (prefix_indices r) + e) row).
Proof using.
  intros Hr Hb Hrows Hw Hre Hfree Hn. unfold alloc_for_extend_token.
  destruct (wp_ok _ _ _ (wp_alloc_for_extend oob triton w
    (λ _, r ← alloc_token_slots (eb_extend_num_tokens b) false; mret r.1) b _ Hb Hrows Hw Hre Hfree
    (wp_token_slots _ G L _ Hr Hn))) as ([[out rows] reqs'] & w' & E & (G' & Hr' & Hled) & ? & ? & ? & ? & _ & ?).
  exists out, rows, reqs', w', G'. split_and!; done.
Qed.

(** [alloc_for_decode] with pages of one slot: one new slot per request,
    written at the next position of its row; no other row changes. *)
Theorem decode_batch_correct (w : World KVPool) G L b :
  alloc_ready (w_cache w) G L →
  NoDup (db_req_pool_indices b) → length (db_seq_lens b) = length (db_req_pool_indices b) →
  db_encoder_lens b = None →
  Forall2 (λ i s, ∃ row, req_to_token (w_pool w) !! i = Some row ∧ s < length row)
    (db_req_pool_indices b) (db_seq_lens b) →
  (Z.of_nat (length (db_seq_lens b))
   <= Token.available_size (allocator (w_cache w)) + evictable_size_ (w_cache w))%Z →
  ∃ out w' G', alloc_for_decode_token 1 b w = Ok (out, w')
    ∧ alloc_ready (w_cache w') G' L
    ∧ (∀ i, ledger (w_cache w') G' i + occ i out = ledger (w_cache w) G i)%Z
    ∧ (∀ i, i ∉ db_req_pool_indices b → req_to_token (w_pool w') !! i = req_to_token (w_pool w) !! i)
    ∧ ∀ k i s v row, db_req_pool_indices b !! k = Some i → db_seq_lens b !! k = Some s →
        out !! k = Some v → req_to_token (w_pool w) !! i = Some row →
        req_to_token (w_pool w') !! i = Some (<[s := v]> row).
Proof using.
  intros Hr Hnd Hlen Henc Hrows Hn. unfold alloc_for_decode_token. rewrite Nat.mul_1_r.
  destruct (wp_ok _ _ _ (wp_alloc_for_decode w
    (λ _, r ← alloc_token_slots (length (db_seq_lens b)) false; mret r.1) b _ Hnd Hlen Henc Hrows
    (wp_token_slots _ G L _ Hr Hn))) as (out & w' & E & (G' & Hr' & Hled) & _ & ? & ?).
  exists out, w', G'. done.
Qed.
End batches.

Section batch_witnesses.
#[local] Existing Instance test_env.

Lemma ready2 G : Inv (view cache2) G lock2 → alloc_ready cache2 G lock2.
Proof.
  intros HI. split; [exact HI|exact lock2_nonneg|exact pool_cache2|vm_compute; reflexivity
    |exact cache2_on|exact cache2_off].
Qed.

(** 16 slots are free and two of the tree's are not locked: 17 need an eviction. *)
Lemma alloc_token_slots_iff_witness :
  ∃ out st c', alloc_token_slots 17 false cache2 = Ok ((out, st), c') ∧ length out = 17.
Proof.
  destruct cache2_Inv as (G & HI & _).
  pose proof (alloc_token_slots_iff cache2 G lock2 17 false (ready2 G HI)) as Hs.
  rewrite decide_True in Hs by (vm_compute; discriminate).
  destruct Hs as (out & st & c' & G' & E & _ & Hl & _). exists out, st, c'. split; [exact E|exact Hl].
Defined.

Lemma get_last_loc_agrees_witness :
  get_last_loc (λ _, 0%Z) (λ _, 0%Z) false "triton" [[0; 0]; [7; 8]; [9; 6]]%Z (Z.of_nat 2) [1; 2; 1]%Z
    [2; 1; 0]%Z = Ok [8; 9; -1]%Z.
Proof.
  rewrite (get_last_loc_agrees (λ _, 0%Z) (λ _, 0%Z) false "triton" [[0; 0]; [7; 8]; [9; 6]]%Z 2
    [1; 2; 1]%Z [2; 1; 0]%Z).
  - vm_compute. reflexivity.
  - split; [repeat constructor|lia|reflexivity|repeat constructor; vm_compute; discriminate
      |repeat constructor; vm_compute; discriminate].
Defined.

Definition wreqs2 : list wreq := [(1, 2, 3, 1, [5; 6]%Z); (2, 0, 2, 2, [])].

Lemma write_kernel_is_loop_witness :
  write_cache_indices (λ _, 0%Z) true [10; 11; 12]%Z wreqs2 pool2
  = write_cache_indices (λ _, 0%Z) false [10; 11; 12]%Z wreqs2 pool2.
Proof.
  apply (write_kernel_is_loop (λ _, 0%Z) [10; 11; 12]%Z wreqs2 pool2).
  - repeat constructor.
  - repeat constructor; vm_compute; lia.
  - vm_compute. lia.
Defined.

(** The second request of the batch is new, the first continues in its row. *)
Definition batch2 : ExtendBatch :=
  MkExtend [req2; set_prefix [] 0 None (set_pool_idx None req2)] [2; 0] [1; 2] [3; 2] 3.

Lemma extend_batch_correct_witness :
  ∃ out rows reqs' w', alloc_for_extend_token (λ _, 0%Z) true batch2 world2 = Ok ((out, rows, reqs'), w')
    ∧ length out = 3 ∧ NoDup rows.
Proof.
  destruct cache2_Inv as (G & HI & _).
  destruct (extend_batch_correct (λ _, 0%Z) true world2 G lock2 batch2 (ready2 G HI))
    as (out & rows & reqs' & w' & G' & E & _ & Hl & _ & _ & Hnd & _).
  - split; [reflexivity|reflexivity|reflexivity|repeat constructor; vm_compute; lia|reflexivity].
  - split; [apply (bool_decide_unpack _); vm_compute; exact I|repeat constructor; vm_compute; lia].
  - repeat constructor.
  - apply Forall_cons. split; [intros _; right; vm_compute; lia|].
    apply Forall_cons. split; [intros [x Hx]; discriminate Hx|constructor].
  - vm_compute. lia.
  - vm_compute. discriminate.
  - exists out, rows, reqs', w'. split; [exact E|]. split; [exact Hl|exact Hnd].
Defined.

Lemma decode_batch_correct_witness :
  ∃ out w', alloc_for_decode_token 1 (MkDecode [1] [3] None) world2 = Ok (out, w').
Proof.
  destruct cache2_Inv as (G & HI & _).
  destruct (decode_batch_correct world2 G lock2 (MkDecode [1] [3] None) (ready2 G HI))
    as (out & w' & G' & E & _).
  - apply (bool_decide_unpack (NoDup [1])). vm_compute. exact I.
  - reflexivity.
  - reflexivity.
  - repeat constructor. exists row2. split; [reflexivity|vm_compute; lia].
  - vm_compute. discriminate.
  - exists out, w'. exact E.
Defined.
End batch_witnesses.
