(* ===== verification/PrefillDelayer.v ===== *)
(** The prefill delayer: managers/prefill_delayer.py.

    Ranks agree, pass by pass, whether to prefill now or to wait for the others.
    A pass gathers five integers from every data-parallel rank; the gathered rows
    are what [torch.distributed] returns, an argument here.  Times and usage ratios
    are exact rationals; floating-point rounding is not modelled. *)
From S2P Require Import Prelude.
From Stdlib Require Import QArith Lqa.
From stdpp Require Import options.
Local Open Scope Z_scope.

(** [_State] *)
Record DelayState := MkDelay { delayed_count : Z; start_time : Q }.
Definition bump_delayed_count (s : DelayState) : DelayState :=
  MkDelay (delayed_count s + 1) (start_time s).

Inductive reason := RNone | RTokenWatermark | RDelay | RWaitSuccess | RNoWait | RWaitTimeout.
Inductive prefillable_status := StAll | StNone | StMixed.

(** [_NegotiateOutput] *)
Record NegotiateOutput := MkOut {
  next_state : option DelayState;
  input_estimation : prefillable_status;
  output_allow : bool;
  output_reason : reason;
  num_prefillable : Z;
  num_token_watermark_force_allow : Z;
}.

(** The row a rank contributes to the gather. *)
Record RankInfo := MkInfo {
  i_prefillable : Z;
  i_force_allow : Z;
  i_running_batch : Z;
  i_max_prefill_bs : Z;
  i_waiting_queue_len : Z;
}.

(** [PrefillDelayer]: configuration and state. *)
Record PrefillDelayer := MkDelayer {
  max_delay_passes : Z;
  token_usage_low_watermark : option Q;
  queue_min_ratio : option Q;
  max_delay_ms : Q;
  dp_size : Z;
  enable_dp_attention : bool;
  curr_state : option DelayState;
  skip_first_delayer : bool;
}.

Definition init_delayer (max_delay_passes : Z) (watermark ratio max_ms : option Q) (dp_size : Z)
    (enable_dp_attention disable_overlap_schedule : bool) : result PrefillDelayer :=
  _ ← py_assert (negb disable_overlap_schedule);
  Ok (MkDelayer max_delay_passes watermark ratio (default 5000%Q max_ms) dp_size enable_dp_attention
        None true).

Definition set_delay_state (s : option DelayState) (skip : bool) (d : PrefillDelayer) : PrefillDelayer :=
  MkDelayer (max_delay_passes d) (token_usage_low_watermark d) (queue_min_ratio d) (max_delay_ms d)
    (dp_size d) (enable_dp_attention d) s skip.

(** [t.max()] and [t.min()] of a non-empty tensor. *)
Definition zmax (l : list Z) : Z := match l with [] => 0 | x :: l => foldr Z.max x l end.
Definition zmin (l : list Z) : Z := match l with [] => 0 | x :: l => foldr Z.min x l end.
Definition sum_z (l : list Z) : Z := foldr Z.add 0 l.

(** [int(x)]: truncation towards zero. *)
Definition q_int (x : Q) : Z := Z.quot (Qnum x) (Zpos (Qden x)).

Definition b2z (b : bool) : Z := if b then 1 else 0.

(** What a rank passes to a negotiation. *)
Record NegotiateArgs := MkArgs {
  local_prefillable : bool;
  token_usage : Q;
  running_batch : Z;
  max_prefill_bs : Z;
  max_running_requests : Z;
  waiting_queue_len : Z;
}.

(** [local_info] of [_gather_info]. *)
Definition local_info (d : PrefillDelayer) (a : NegotiateArgs) : RankInfo :=
  let local_token_watermark_force_allow :=
    local_prefillable a && match token_usage_low_watermark d with
                           | Some x => negb (Qle_bool x (token_usage a))
                           | None => false
                           end in
  MkInfo (b2z (local_prefillable a)) (b2z local_token_watermark_force_allow) (running_batch a)
    (max_prefill_bs a) (waiting_queue_len a).

Definition status_of (rows : list RankInfo) : prefillable_status :=
  if bool_decide (0 < zmin (i_prefillable <$> rows)) then StAll
  else if bool_decide (zmax (i_prefillable <$> rows) = 0) then StNone else StMixed.

Definition force_allow (rows : list RankInfo) : bool := bool_decide (0 < zmax (i_force_allow <$> rows)).

(** The queue-based trigger; [now] is the reading of [time.perf_counter()]. *)
Definition queue_condition (d : PrefillDelayer) (prev : option DelayState) (now : Q)
    (rows : list RankInfo) : bool :=
  match queue_min_ratio d with
  | Some ratio =>
      let running := zmax (i_running_batch <$> rows) in
      if bool_decide (0 < running) then
        let queue_min_effective :=
          Z.min (q_int (inject_Z running * ratio)) (zmax (i_max_prefill_bs <$> rows)) in
        let c := bool_decide (0 < queue_min_effective)
                 && bool_decide (zmax (i_waiting_queue_len <$> rows) < queue_min_effective) in
        match prev with
        | Some s =>
            let elapsed_ms := ((now - start_time s) * 1000)%Q in
            c && negb (Qle_bool (max_delay_ms d) elapsed_ms)
        | None => c
        end
      else false
  | None => false
  end.

Definition slot_condition (d : PrefillDelayer) (a : NegotiateArgs) (rows : list RankInfo) : bool :=
  let max_running_requests :=
    if enable_dp_attention d then max_running_requests a
    else (max_running_requests a + dp_size d - 1) / dp_size d in
  bool_decide (max_running_requests - zmax (i_running_batch <$> rows) < zmax (i_max_prefill_bs <$> rows)).

Definition wait_reason (prev : option DelayState) : reason :=
  match prev with Some _ => RWaitSuccess | None => RNoWait end.

(** [_negotiate_should_allow_prefill_pure], with the flag [skip_first_delayer] it
    may clear; [rows] is the gathered tensor, [now] the clock. *)
Definition negotiate_pure (d : PrefillDelayer) (now : Q) (rows : list RankInfo) (a : NegotiateArgs)
    : NegotiateOutput * bool :=
  let prev := curr_state d in
  let status := status_of rows in
  let out next allow reason :=
    MkOut next status allow reason (sum_z (i_prefillable <$> rows)) (sum_z (i_force_allow <$> rows)) in
  let bumped := bump_delayed_count (default (MkDelay 0 now) prev) in
  match status with
  | StAll =>
      if force_allow rows then (out None true RTokenWatermark, skip_first_delayer d)
      else if slot_condition d a rows || queue_condition d prev now rows then
        if skip_first_delayer d then
          (out None true (wait_reason prev), false)
        else (out (Some bumped) false RDelay, skip_first_delayer d)
      else (out None true (wait_reason prev), skip_first_delayer d)
  | StNone => (out None true RNone, skip_first_delayer d)
  | StMixed =>
      if force_allow rows then (out None true RTokenWatermark, skip_first_delayer d)
      else
        let prev_delayed_count := match prev with Some s => delayed_count s | None => 0 end in
        if bool_decide (prev_delayed_count < max_delay_passes d - 1) then
          (out (Some bumped) false RDelay, skip_first_delayer d)
        else (out None true RWaitTimeout, skip_first_delayer d)
  end.

(** [_negotiate_should_allow_prefill] *)
Definition negotiate (now : Q) (rows : list RankInfo) (a : NegotiateArgs) (d : PrefillDelayer)
    : NegotiateOutput * PrefillDelayer :=
  let '(out, skip) := negotiate_pure d now rows a in
  (out, set_delay_state (next_state out) skip d).

(** ** PrefillDelayerSinglePassExecutor *)

Record SinglePass := MkPass { sp_delayer : PrefillDelayer; sp_usage : Q; sp_result : option NegotiateOutput }.

Definition init_single_pass (d : PrefillDelayer) (usage : Q) : SinglePass := MkPass d usage None.

(** [negotiate_should_allow_prefill]: the first call negotiates, later calls of
    the pass repeat its answer.  [gather] maps the rank's row to the rows of all. *)
Definition negotiate_should_allow_prefill (now : Q) (gather : RankInfo → list RankInfo)
    (a : NegotiateArgs) (e : SinglePass) : bool * SinglePass :=
  match sp_result e with
  | Some out => (output_allow out, e)
  | None =>
      let a := MkArgs (local_prefillable a) (sp_usage e) (running_batch a) (max_prefill_bs a)
                 (max_running_requests a) (waiting_queue_len a) in
      let '(out, d) := negotiate now (gather (local_info (sp_delayer e) a)) a (sp_delayer e) in
      (output_allow out, MkPass d (sp_usage e) (Some out))
  end.

(** [finalize]: a pass that never negotiated does so now, for its ranks' sake.
    What it records is for metrics only. *)
Definition finalize (now : Q) (gather : RankInfo → list RankInfo) (e : SinglePass) : SinglePass :=
  match sp_result e with
  | Some _ => e
  | None => (negotiate_should_allow_prefill now gather (MkArgs false 0%Q 0 0 0 0) e).2
  end.

(** ** Lemmas *)

(** A sequence of passes: each has a clock reading, gathered rows and arguments. *)
Abbreviation pass := (Q * list RankInfo * NegotiateArgs)%type.
Fixpoint run_passes (ps : list pass) (d : PrefillDelayer) : list NegotiateOutput * PrefillDelayer :=
  match ps with
  | [] => ([], d)
  | (now, rows, a) :: ps =>
      let '(out, d) := negotiate now rows a d in
      let '(outs, d) := run_passes ps d in
      (out :: outs, d)
  end.

(** How long the delayer has been waiting. *)
Definition waited (d : PrefillDelayer) : Z :=
  match curr_state d with Some s => delayed_count s | None => 0 end.

(** A pass in which some ranks can prefill, some cannot, and none is starved. *)
Definition undecided (p : pass) : Prop := status_of p.1.2 = StMixed ∧ force_allow p.1.2 = false.

Lemma negotiate_undecided p d :
  undecided p →
  let r := negotiate p.1.1 p.1.2 p.2 d in
  max_delay_passes r.2 = max_delay_passes d
  ∧ if decide (waited d < max_delay_passes d - 1)
    then output_allow r.1 = false ∧ output_reason r.1 = RDelay ∧ waited r.2 = waited d + 1
    else output_allow r.1 = true ∧ output_reason r.1 = RWaitTimeout ∧ waited r.2 = 0.
Proof.
  intros [Hst Hf]. unfold negotiate, negotiate_pure. rewrite Hst, Hf. unfold waited.
  destruct (curr_state d) as [s|] eqn:Es; case_bool_decide as Hb; simpl; (split; [done|]);
    destruct (decide _) as [Hd|Hd]; simpl in *; try lia; done.
Qed.

(** While no pass is decided, the number of passes and the waiting time add up. *)
Lemma waiting_passes ps d :
  Forall undecided ps → Forall (λ o, output_allow o = false) (run_passes ps d).1 →
  waited (run_passes ps d).2 = waited d + Z.of_nat (length ps)
  ∧ (ps = [] ∨ waited d + Z.of_nat (length ps) <= max_delay_passes d - 1).
Proof.
  revert d. induction ps as [|[[now rows] a] ps IH]; intros d Hps Hout; [simpl; split; [lia|by left]|].
  apply Forall_cons in Hps as [Hp Hps].
  pose proof (negotiate_undecided (now, rows, a) d Hp) as [Hmax Hn]. simpl in Hmax, Hn.
  cbn [run_passes] in *. destruct (negotiate now rows a d) as [out d1]. simpl in Hmax, Hn.
  destruct (run_passes ps d1) as [outs d2] eqn:Hrun. simpl in *.
  apply Forall_cons in Hout as [Ho Hout]. destruct (decide _) as [Hlt|Hge]; [|destruct Hn; congruence].
  destruct Hn as (_ & _ & Hw). specialize (IH d1 Hps). rewrite Hrun in IH.
  destruct (IH Hout) as [IH1 IH2]. simpl in IH1. split; [lia|]. right.
  destruct IH2 as [->|IH2]; [simpl; lia|lia].
Qed.

(** Two ranks in step: the same configuration and the same waiting state, up to
    the local clock. *)
Record in_step (d1 d2 : PrefillDelayer) : Prop := {
  st_passes : max_delay_passes d1 = max_delay_passes d2;
  st_dp : dp_size d1 = dp_size d2;
  st_attn : enable_dp_attention d1 = enable_dp_attention d2;
  st_queue1 : queue_min_ratio d1 = None;
  st_queue2 : queue_min_ratio d2 = None;
  st_count : delayed_count <$> curr_state d1 = delayed_count <$> curr_state d2;
  st_skip : skip_first_delayer d1 = skip_first_delayer d2;
}.

Lemma negotiate_in_step d1 d2 now1 now2 rows a1 a2 :
  in_step d1 d2 → max_running_requests a1 = max_running_requests a2 →
  let r1 := negotiate now1 rows a1 d1 in
  let r2 := negotiate now2 rows a2 d2 in
  output_allow r1.1 = output_allow r2.1 ∧ output_reason r1.1 = output_reason r2.1 ∧ in_step r1.2 r2.2.
Proof.
  intros [Hp Hd Ha Hq1 Hq2 Hc Hs] Hm. unfold negotiate, negotiate_pure, queue_condition, slot_condition.
  rewrite Hq1, Hq2, Hp, Hd, Ha, Hs, Hm.
  assert (wait_reason (curr_state d1) = wait_reason (curr_state d2)) as Hw
    by (destruct (curr_state d1), (curr_state d2); done).
  assert ((match curr_state d1 with Some s => delayed_count s | None => 0 end)
    = (match curr_state d2 with Some s => delayed_count s | None => 0 end)) as Hn
    by (destruct (curr_state d1), (curr_state d2); simpl in Hc; congruence).
  assert (delayed_count (bump_delayed_count (default (MkDelay 0 now1) (curr_state d1)))
    = delayed_count (bump_delayed_count (default (MkDelay 0 now2) (curr_state d2)))) as Hb
    by (destruct (curr_state d1), (curr_state d2); simpl in *; congruence).
  rewrite Hw, Hn. set (slot := bool_decide (_ - zmax _ < _)).
  set (more := bool_decide (_ < max_delay_passes d2 - 1)).
  destruct (status_of rows), (force_allow rows), slot, more, (skip_first_delayer d2); simpl;
    (split_and!; [done|done|split; simpl; solve [done|congruence|by f_equal|by rewrite Hb|simpl in Hb; by rewrite Hb]]).
Qed.

(** The passes of one rank: everything but the gathered rows is its own. *)
Lemma passes_in_step ps1 ps2 d1 d2 :
  in_step d1 d2 →
  Forall2 (λ p1 p2, p1.1.2 = p2.1.2 ∧ max_running_requests p1.2 = max_running_requests p2.2) ps1 ps2 →
  output_allow <$> (run_passes ps1 d1).1 = output_allow <$> (run_passes ps2 d2).1
  ∧ in_step (run_passes ps1 d1).2 (run_passes ps2 d2).2.
Proof.
  intros Hd Hps. revert d1 d2 Hd.
  induction Hps as [|[[now1 rows1] a1] [[now2 rows2] a2] ps1 ps2 [Hr Hm] _ IH]; intros d1 d2 Hd; [done|].
  simpl in Hr, Hm. subst rows2. cbn [run_passes].
  pose proof (negotiate_in_step d1 d2 now1 now2 rows1 a1 a2 Hd Hm) as (Ho & _ & Hd').
  destruct (negotiate now1 rows1 a1 d1) as [o1 d1'], (negotiate now2 rows1 a2 d2) as [o2 d2']. simpl in Ho, Hd'.
  specialize (IH d1' d2' Hd').
  destruct (run_passes ps1 d1') as [os1 e1], (run_passes ps2 d2') as [os2 e2]. simpl in *.
  destruct IH as [IH1 IH2]. split; [by f_equal|done].
Qed.
