(* ===== verification/SchedInput.v ===== *)
(** What the scheduler receives, and when: [SchedulerInputBlocker]
    (managers/scheduler_input_blocker.py) with its [PollBasedBarrier]
    (utils/poll_based_barrier.py), and [SchedulerRecvSkipper]
    (managers/scheduler_recv_skipper.py).

    [torch.distributed.all_reduce] with MIN over the world is the conjunction of
    the local flag and [others], the flags of the other ranks. *)
From S2P Require Import Prelude.
From stdpp Require Import options.

(** ** PollBasedBarrier *)

Record PollBasedBarrier := MkBarrier { bar_noop : bool; local_arrived : bool }.

Definition init_barrier (noop : bool) : PollBasedBarrier := MkBarrier noop false.

Definition local_arrive (b : PollBasedBarrier) : result PollBasedBarrier :=
  _ ← py_assert (negb (local_arrived b));
  Ok (MkBarrier (bar_noop b) true).

Definition compute_global_arrived (others : bool) (b : PollBasedBarrier) : bool :=
  (bar_noop b || local_arrived b) && others.

Definition poll_global_arrived (others : bool) (b : PollBasedBarrier) : bool * PollBasedBarrier :=
  let global_arrived := compute_global_arrived others b in
  let output := local_arrived b && global_arrived in
  (output, if output then MkBarrier (bar_noop b) false else b).

(** ** SchedulerInputBlocker *)

Inductive block_state := UNBLOCKED | BLOCKED | GLOBAL_UNBLOCK_BARRIER.

#[global] Instance block_state_eq_dec : EqDecision block_state.
Proof. solve_decision. Defined.

Section blocker.
Context {R : Type}.

(** A received object: a [BlockReqInput] of either type, or another request. *)
Inductive recv_obj := RBlock | RUnblock | RReq (r : R).

Record SchedulerInputBlocker := MkBlocker {
  bl_state : block_state;
  pending_reqs : list R;
  bl_noop : bool;
  global_unblock_barrier : PollBasedBarrier;
}.
Abbreviation M := (ST SchedulerInputBlocker).

Definition init_blocker (noop : bool) : SchedulerInputBlocker :=
  MkBlocker UNBLOCKED [] noop (init_barrier noop).

Definition set_bl_state (s : block_state) (b : SchedulerInputBlocker) : SchedulerInputBlocker :=
  MkBlocker s (pending_reqs b) (bl_noop b) (global_unblock_barrier b).
Definition set_pending (l : list R) (b : SchedulerInputBlocker) : SchedulerInputBlocker :=
  MkBlocker (bl_state b) l (bl_noop b) (global_unblock_barrier b).
Definition set_barrier (x : PollBasedBarrier) (b : SchedulerInputBlocker) : SchedulerInputBlocker :=
  MkBlocker (bl_state b) (pending_reqs b) (bl_noop b) x.

(** [_change_state] *)
Definition change_state (original target : block_state) : M unit :=
  s ← st_gets bl_state;
  _ ← st_lift (py_assert (bool_decide (s = original)));
  st_modify (set_bl_state target).

Definition execute_block_req : M unit := change_state UNBLOCKED BLOCKED.

Definition execute_unblock_req : M unit :=
  _ ← change_state BLOCKED GLOBAL_UNBLOCK_BARRIER;
  b ← st_gets global_unblock_barrier;
  b ← st_lift (local_arrive b);
  st_modify (set_barrier b).

Definition handle_arrive_unblock_barrier : M (list R) :=
  _ ← change_state GLOBAL_UNBLOCK_BARRIER UNBLOCKED;
  output_reqs ← st_gets pending_reqs;
  _ ← st_modify (set_pending []);
  mret output_reqs.

Definition handle_recv_req (recv_req : recv_obj) : M (list R) :=
  match recv_req with
  | RBlock => _ ← execute_block_req; mret []
  | RUnblock => _ ← execute_unblock_req; mret []
  | RReq r =>
      s ← st_gets bl_state;
      if decide (s = UNBLOCKED) then mret [r]
      else
        _ ← st_modify (λ b, set_pending (pending_reqs b ++ [r]) b);
        mret []
  end.

Fixpoint handle_recv_reqs (recv_reqs : list recv_obj) : M (list R) :=
  match recv_reqs with
  | [] => mret []
  | x :: recv_reqs =>
      out ← handle_recv_req x;
      rest ← handle_recv_reqs recv_reqs;
      mret (out ++ rest)
  end.

(** [handle]: [output_reqs] exists only on ranks that receive. *)
Definition handle (recv_reqs : option (list recv_obj)) (others : bool) : M (option (list R)) :=
  noop ← st_gets bl_noop;
  _ ← st_lift (py_assert (bool_decide ((recv_reqs = None) ↔ noop = true)));
  output_reqs ← (match recv_reqs with
                 | Some l => out ← handle_recv_reqs l; mret (Some out)
                 | None => mret None
                 end);
  b ← st_gets global_unblock_barrier;
  let '(arrived, b) := poll_global_arrived others b in
  _ ← st_modify (set_barrier b);
  s ← st_gets bl_state;
  if bool_decide (s = GLOBAL_UNBLOCK_BARRIER) && arrived then
    match output_reqs with
    | Some out =>
        more ← handle_arrive_unblock_barrier;
        mret (Some (out ++ more))
    | None => st_raise UnboundLocalError
    end
  else mret output_reqs.

(** ** Lemmas: the input blocker *)

(** The ordinary requests among what is received. *)
Definition ordinary (l : list recv_obj) : list R :=
  omap (λ x, match x with RReq r => Some r | _ => None end) l.

(** The local flag is up exactly between an unblock request and its release, and
    nothing waits while the input is open. *)
Record blocker_ok (b : SchedulerInputBlocker) : Prop := {
  bk_recv : bl_noop b = false;
  bk_flag : local_arrived (global_unblock_barrier b) = bool_decide (bl_state b = GLOBAL_UNBLOCK_BARRIER);
  bk_open : bl_state b = UNBLOCKED → pending_reqs b = [];
}.

(** Blocking and unblocking in the order the guard region sends them. *)
Fixpoint well_nested (s : block_state) (l : list recv_obj) : Prop :=
  match l with
  | [] => True
  | RReq _ :: l => well_nested s l
  | RBlock :: l => s = UNBLOCKED ∧ well_nested BLOCKED l
  | RUnblock :: l => s = BLOCKED ∧ well_nested GLOBAL_UNBLOCK_BARRIER l
  end.

Lemma wp_recv_one x b :
  blocker_ok b → well_nested (bl_state b) [x] →
  wp (handle_recv_req x) (λ out b', blocker_ok b'
    ∧ out ++ pending_reqs b' = pending_reqs b ++ ordinary [x]
    ∧ (bl_state b ≠ UNBLOCKED → out = [])
    ∧ bl_state b' = match x with RBlock => BLOCKED | RUnblock => GLOBAL_UNBLOCK_BARRIER | RReq _ => bl_state b end) b.
Proof using.
  intros [Hr Hf Ho] Hn. destruct b as [s pend noop [bn fl]]. simpl in *. subst.
  destruct x as [| |r]; simpl in Hn.
  - destruct Hn as [-> _]. unfold wp. simpl. rewrite Ho by done. split_and!; try done.
  - destruct Hn as [-> _]. unfold wp. simpl. rewrite app_nil_r. split_and!; try done.
  - cbn [handle_recv_req]. wp_steps. cbn [bl_state].
    destruct (decide (s = UNBLOCKED)) as [->|Hs]; wp_steps; simpl.
    + rewrite Ho by done. split_and!; try done.
    + split_and!; try done.
Qed.

Lemma well_nested_cons s x l :
  well_nested s (x :: l) →
  well_nested s [x]
  ∧ well_nested (match x with RBlock => BLOCKED | RUnblock => GLOBAL_UNBLOCK_BARRIER | RReq _ => s end) l.
Proof using. destruct x; simpl; tauto. Qed.

Lemma wp_recv_reqs l b :
  blocker_ok b → well_nested (bl_state b) l →
  wp (handle_recv_reqs l) (λ out b', blocker_ok b'
    ∧ out ++ pending_reqs b' = pending_reqs b ++ ordinary l) b.
Proof using.
  revert b. induction l as [|x l IH]; intros b Hb Hn; cbn [handle_recv_reqs].
  { wp_step. by rewrite app_nil_r. }
  apply well_nested_cons in Hn as [Hx Hn]. wp_step.
  eapply wp_mono; [by apply wp_recv_one|]. intros out b1 (Hb1 & Hout & _ & Hs1). wp_step.
  eapply wp_mono; [apply IH; [done|by rewrite Hs1]|]. intros rest b2 (Hb2 & Hrest). wp_step. split; [done|].
  rewrite <-app_assoc, Hrest, app_assoc, Hout, <-app_assoc. f_equal. unfold ordinary. by destruct x.
Qed.

(** One call: what goes out and what waits is what waited and what came in, in
    order; when everyone has arrived at the barrier nothing waits any more. *)
Lemma wp_handle l others b :
  blocker_ok b → well_nested (bl_state b) l →
  wp (handle (Some l) others) (λ o b', ∃ out, o = Some out ∧ blocker_ok b'
    ∧ out ++ pending_reqs b' = pending_reqs b ++ ordinary l
    ∧ (others = true → bl_state b' ≠ GLOBAL_UNBLOCK_BARRIER)) b.
Proof using.
  intros Hb Hn. unfold handle. wp_steps. pose proof Hb as [Hr _ _]. rewrite Hr.
  eapply wp_lift; [by rewrite bool_decide_true|]. wp_steps.
  eapply wp_mono; [by apply wp_recv_reqs|]. intros out b1 [Hb1 Hout]. wp_steps.
  destruct b1 as [s1 pend1 noop1 [bn1 fl1]]. destruct Hb1 as [Hr1 Hf1 Ho1]. simpl in *. subst.
  unfold poll_global_arrived, compute_global_arrived. cbn [global_unblock_barrier bar_noop local_arrived].
  destruct (decide (s1 = GLOBAL_UNBLOCK_BARRIER)) as [->|Hs1].
  - rewrite !bool_decide_true by done. simpl. rewrite orb_true_r. simpl. destruct others.
    + unfold wp. simpl. exists (out ++ pend1). rewrite app_nil_r. split_and!; try done.
    + unfold wp. simpl. exists out. split_and!; try done.
  - rewrite (bool_decide_false (s1 = _)) by done. cbn [andb]. cbv beta iota. wp_steps. simpl bl_state.
    rewrite (bool_decide_false (s1 = _)) by done. cbn [andb]. wp_step.
    exists out. split_and!; try done. split; simpl; [done|by rewrite bool_decide_false|done].
Qed.

(** A sequence of calls and its combined output. *)
Fixpoint run_handle (calls : list (list recv_obj * bool)) : M (list R) :=
  match calls with
  | [] => mret []
  | (l, others) :: calls =>
      o ← handle (Some l) others;
      rest ← run_handle calls;
      mret (default [] o ++ rest)
  end.

(** A call that returns got its block and unblock requests in order. *)
Lemma recv_returns_nested l b r :
  blocker_ok b → handle_recv_reqs l b = Ok r → well_nested (bl_state b) l.
Proof using.
  revert b r. induction l as [|x l IH]; intros b r Hb E; [done|].
  assert (well_nested (bl_state b) [x]) as Hx.
  { clear IH. destruct b as [[] pend noop bar], x; try done; vm_compute in E; done. }
  assert (∃ out b1, handle_recv_req x b = Ok (out, b1) ∧ blocker_ok b1
    ∧ bl_state b1 = match x with RBlock => BLOCKED | RUnblock => GLOBAL_UNBLOCK_BARRIER | RReq _ => bl_state b end)
    as (out & b1 & E1 & Hb1 & Hs1).
  { destruct (wp_ok _ _ _ (wp_recv_one x b Hb Hx)) as (out & b1 & E1 & Hb1 & _ & _ & Hs1). eauto. }
  cbn [handle_recv_reqs] in E. unfold mbind, ST_bind, st_bind in E. rewrite E1 in E.
  destruct (handle_recv_reqs l b1) as [r'| |] eqn:E2; [|done..].
  specialize (IH b1 _ Hb1 E2). rewrite Hs1 in IH. destruct x; simpl in Hx |- *; tauto.
Qed.

Lemma handle_returns_nested l others b r :
  blocker_ok b → handle (Some l) others b = Ok r → well_nested (bl_state b) l.
Proof using.
  intros Hb E. unfold handle, mbind, ST_bind, st_bind, st_gets, st_lift in E.
  destruct (py_assert _) as [[]| |]; [|done..].
  destruct (handle_recv_reqs l b) as [r'| |] eqn:E2; [|done..].
  by eapply recv_returns_nested.
Qed.

Lemma run_handle_keeps calls b out b' :
  blocker_ok b → run_handle calls b = Ok (out, b') →
  blocker_ok b' ∧ out ++ pending_reqs b' = pending_reqs b ++ ordinary (concat calls.*1).
Proof using.
  revert b out b'. induction calls as [|[l others] calls IH]; intros b out b' Hb E.
  { injection E as <- <-. by rewrite app_nil_r. }
  cbn [run_handle] in E. unfold mbind, ST_bind, st_bind in E.
  destruct (handle (Some l) others b) as [[o b1]| |] eqn:E1; [|done..].
  pose proof (handle_returns_nested _ _ _ _ Hb E1) as Hn.
  destruct (wp_ok _ _ _ (wp_handle l others b Hb Hn)) as (o' & b1' & E1' & out1 & -> & Hb1 & Hout1 & _).
  rewrite E1 in E1'. injection E1' as -> ->.
  destruct (run_handle calls b1') as [[rest b2]| |] eqn:E2; [|done..]. injection E as <- <-.
  destruct (IH b1' _ _ Hb1 E2) as [Hb2 Hrest]. split; [done|]. simpl.
  rewrite <-app_assoc, Hrest, app_assoc, Hout1, <-app_assoc. f_equal.
  unfold ordinary. by rewrite omap_app.
Qed.
End blocker.
Arguments recv_obj : clear implicits.
Arguments SchedulerInputBlocker : clear implicits.

(** ** SchedulerRecvSkipper *)

(** [ForwardMode], as far as the weights distinguish it. *)
Inductive forward_mode := DECODE | TARGET_VERIFY | OTHER_MODE.

Record SchedulerRecvSkipper := MkSkipper {
  sk_counter : Z;
  sk_threshold : Z;
  default_weight : Z;
  weight_decode : Z;
  weight_target_verify : Z;
  weight_none : Z;
}.

(** [maybe_create] *)
Definition maybe_create (scheduler_recv_interval : Z) (enable_dp_attention : bool)
    (w_default w_decode w_verify w_none : Z) : result (option SchedulerRecvSkipper) :=
  if bool_decide (scheduler_recv_interval <= 1)%Z then Ok None
  else
    _ ← py_assert (negb enable_dp_attention);
    Ok (Some (MkSkipper 0 scheduler_recv_interval w_default w_decode w_verify w_none)).

(** [self._weight_of_forward_mode.get(last_forward_mode, self._default_weight)] *)
Definition weight_of (k : SchedulerRecvSkipper) (m : option forward_mode) : Z :=
  match m with
  | Some DECODE => weight_decode k
  | Some TARGET_VERIFY => weight_target_verify k
  | Some OTHER_MODE => default_weight k
  | None => weight_none k
  end.

Definition set_sk_counter (n : Z) (k : SchedulerRecvSkipper) : SchedulerRecvSkipper :=
  MkSkipper n (sk_threshold k) (default_weight k) (weight_decode k) (weight_target_verify k) (weight_none k).

Definition skipper_handle (last_forward_mode : option forward_mode) (k : SchedulerRecvSkipper)
    : bool * SchedulerRecvSkipper :=
  let counter := (sk_counter k + weight_of k last_forward_mode)%Z in
  if bool_decide (sk_threshold k <= counter)%Z then (true, set_sk_counter 0 k)
  else (false, set_sk_counter counter k).

Fixpoint run_skipper (ms : list (option forward_mode)) (k : SchedulerRecvSkipper)
    : list bool * SchedulerRecvSkipper :=
  match ms with
  | [] => ([], k)
  | m :: ms =>
      let '(b, k) := skipper_handle m k in
      let '(bs, k) := run_skipper ms k in
      (b :: bs, k)
  end.

(** As long as nothing is received the counter is the sum of the weights. *)
Lemma skipper_waits ms k :
  Forall (λ b, b = false) (run_skipper ms k).1 →
  sk_counter (run_skipper ms k).2 = (sk_counter k + foldr Z.add 0 (weight_of k <$> ms))%Z
  ∧ (ms = [] ∨ sk_counter k + foldr Z.add 0 (weight_of k <$> ms) < sk_threshold k)%Z.
Proof.
  revert k. induction ms as [|m ms IH]; intros k; [simpl; split; [lia|by left]|].
  cbn [run_skipper]. unfold skipper_handle at 1 2. case_bool_decide as Hc.
  - destruct (run_skipper ms _) as [bs k']. simpl. by intros [? _]%Forall_cons.
  - set (k1 := set_sk_counter _ k). specialize (IH k1). destruct (run_skipper ms k1) as [bs k'] eqn:E.
    simpl in *. intros [_ Hbs]%Forall_cons. specialize (IH Hbs).
    change (weight_of k1) with (weight_of k) in IH.
    destruct IH as [IH1 IH2]. unfold fmap in *. split; [lia|]. right. destruct IH2 as [->|IH2]; [simpl in *|]; lia.
Qed.
