(* ===== verification/SchedReq.v ===== *)
(** A request as the scheduler sees it: the attributes of [Req]
    (managers/schedule_batch.py) that the policies of managers/schedule_policy.py
    read and write, on top of its KV bookkeeping (ReqPool). *)
From S2P Require Import Prelude RadixKey RadixCache ReqPool.
From stdpp Require Import options.
Local Open Scope Z_scope.

(** [embed_overrides], [has_embeds]: [positional_embed_overrides] and
    [input_embeds] are not [None]; [streaming_session]: there is a session and it
    streams. *)
Record SReq := MkSReq {
  sr_req : Req;
  rid : nat;
  extend_input_len : Z;
  logprob_start_len : Z;
  extend_logprob_start_len : Z;
  max_new_tokens : Z;
  ignore_eos : bool;
  host_hit_length : Z;
  priority : Z;
  wait_queue_entry_time : Z;
  finished : bool;
  routing_key : option string;
  return_logprob : bool;
  streaming_session : bool;
  embed_overrides : bool;
  has_embeds : bool;
}.

(** Requests are Python objects, compared by identity; [rid] stands for the object
    and for its identifier. *)
Definition same_req (r s : SReq) : bool := bool_decide (rid r = rid s).

Definition set_req (q : Req) (r : SReq) : SReq :=
  MkSReq q (rid r) (extend_input_len r) (logprob_start_len r) (extend_logprob_start_len r)
    (max_new_tokens r) (ignore_eos r) (host_hit_length r) (priority r) (wait_queue_entry_time r)
    (finished r) (routing_key r) (return_logprob r) (streaming_session r) (embed_overrides r) (has_embeds r).
Definition set_extend (n lp : Z) (r : SReq) : SReq :=
  MkSReq (sr_req r) (rid r) n (logprob_start_len r) lp
    (max_new_tokens r) (ignore_eos r) (host_hit_length r) (priority r) (wait_queue_entry_time r)
    (finished r) (routing_key r) (return_logprob r) (streaming_session r) (embed_overrides r) (has_embeds r).
Definition set_host_hit (n : Z) (r : SReq) : SReq :=
  MkSReq (sr_req r) (rid r) (extend_input_len r) (logprob_start_len r) (extend_logprob_start_len r)
    (max_new_tokens r) (ignore_eos r) n (priority r) (wait_queue_entry_time r)
    (finished r) (routing_key r) (return_logprob r) (streaming_session r) (embed_overrides r) (has_embeds r).
Definition set_logprob_start (n : Z) (r : SReq) : SReq :=
  MkSReq (sr_req r) (rid r) (extend_input_len r) n (extend_logprob_start_len r)
    (max_new_tokens r) (ignore_eos r) (host_hit_length r) (priority r) (wait_queue_entry_time r)
    (finished r) (routing_key r) (return_logprob r) (streaming_session r) (embed_overrides r) (has_embeds r).

Definition set_entry_time (t : Z) (r : SReq) : SReq :=
  MkSReq (sr_req r) (rid r) (extend_input_len r) (logprob_start_len r) (extend_logprob_start_len r)
    (max_new_tokens r) (ignore_eos r) (host_hit_length r) (priority r) t
    (finished r) (routing_key r) (return_logprob r) (streaming_session r) (embed_overrides r) (has_embeds r).

(** [self.fill_ids = ids] *)
Definition set_fill_ids (ids : list Z) (q : Req) : Req :=
  MkReq (origin_input_ids q) (output_ids q) ids (req_extra_key q) (req_priority q) (req_pool_idx q)
    (prefix_indices q) (last_node q) (cache_protected_len q) (kv_committed_len q)
    (kv_allocated_len q) (kv_committed_freed q) (kv_overallocated_freed q) (is_chunked q)
    (reasoning_tokens q) (skip_radix_cache_insert q).

(** [set_extend_input_len] *)
Definition set_extend_input_len (n : Z) (r : SReq) : SReq :=
  let prefix_len := Z.of_nat (length (prefix_indices (sr_req r))) in
  let start := if decide (logprob_start_len r = -1) then Z.of_nat (length (fill_ids (sr_req r)))
               else Z.max (logprob_start_len r) prefix_len in
  set_extend n (Z.min (start - prefix_len) n) r.

(** [req.fill_ids = req.fill_ids[:n]] for [0 <= n]. *)
Definition truncate_fill_ids (n : Z) (r : SReq) : SReq :=
  set_req (set_fill_ids (take (Z.to_nat n) (fill_ids (sr_req r))) (sr_req r)) r.
