(* ===== verification/ReqMatch.v ===== *)
(** Matching a request against the tree cache: [match_prefix_for_req]
    (managers/schedule_policy.py), [zero_match_result] (mem_cache/base_prefix_cache.py)
    and [Req.init_next_round_input] (managers/schedule_batch.py).

    [force_miss] is SGLANG_RADIX_FORCE_MISS.  Diffusion requests ([is_dllm]) and the
    position tensors of multimodal requests are left out. *)
From S2P Require Import Prelude RadixKey TreeNode EvictPolicy RadixCache RadixInv RadixSplit RadixLeaf.
From S2P Require Import RadixSpec RadixOps RadixMatch ReqPool SchedReq.
From stdpp Require Import options.

Section req_match.
Context `{Env} {A : Type} (force_miss : bool).
Abbreviation M := (ST (RadixCache A)).

(** [zero_match_result]; a radix cache always has a root node. *)
Definition zero_match_result (r : MatchResult) : M MatchResult :=
  root ← st_gets root_node;
  mret (MkMatch (take 0 (device_indices r)) root root 0).

Definition matched (key : RadixKey) : M MatchResult :=
  r ← match_prefix key;
  if force_miss then zero_match_result r else mret r.

(** The assignments of the result to the request; [protected] is the new
    [cache_protected_len]. *)
Definition take_match (r : MatchResult) (protected : nat) (req : SReq) : SReq :=
  set_host_hit (Z.of_nat (RadixCache.host_hit_length r))
    (set_req (set_prefix (device_indices r) protected (Some (last_device_node r)) (sr_req req)) req).

(** [match_prefix_for_req]: the radix cache reports no [cache_protected_len], so
    the request keeps its own. *)
Definition match_prefix_for_req (req : SReq) (tokens : option (list Z)) : M (MatchResult * SReq) :=
  let q := sr_req req in
  let tokens := default (origin_input_ids q ++ output_ids q) tokens in
  r ← matched (MkRadixKey tokens (req_extra_key q) false);
  mret (r, take_match r (cache_protected_len q) req).

(** [init_next_round_input] up to the match: the tokens to run over ... *)
Definition init_fill (req : SReq) : SReq :=
  let q := sr_req req in
  let req := set_req (set_fill_ids (origin_input_ids q ++ output_ids q) q) req in
  if streaming_session req && return_logprob req && bool_decide (0 <= logprob_start_len req)%Z
  then set_logprob_start (-1) req else req.

(** ... and those that may be taken from the cache: at least one token is left to
    compute. *)
Definition match_tokens (req : SReq) : list Z :=
  let input_len := Z.of_nat (length (fill_ids (sr_req req))) in
  let max_prefix_len := (input_len - 1)%Z in
  let max_prefix_len :=
    if return_logprob req && bool_decide (0 <= logprob_start_len req)%Z
    then Z.min max_prefix_len (logprob_start_len req) else max_prefix_len in
  let max_prefix_len := Z.max max_prefix_len 0 in
  if embed_overrides req then [] else take (Z.to_nat max_prefix_len) (fill_ids (sr_req req)).

Definition finish_round (req : SReq) : SReq :=
  set_extend_input_len (Z.of_nat (length (fill_ids (sr_req req)))
                        - Z.of_nat (length (prefix_indices (sr_req req)))) req.

(** [init_next_round_input()] without a cache, for the chunked request. *)
Definition init_next_round (req : SReq) : SReq := finish_round (init_fill req).

(** [init_next_round_input(tree_cache)] *)
Definition init_next_round_input (req : SReq) : M SReq :=
  let req := init_fill req in
  r ← matched (MkRadixKey (match_tokens req) (req_extra_key (sr_req req)) false);
  mret (finish_round (take_match r (length (device_indices r)) req)).

(** ** Lemmas *)

Implicit Types (c : RadixCache A) (G : gmap nat gnode) (L : nat → Z).

(** What a request was found to have in the cache. *)
Record req_matched c G (us : list tunit) (req : SReq) : Prop := {
  rm_node : ∃ n, last_node (sr_req req) = Some n
    ∧ G !! n = Some (MkG (take (length (prefix_indices (sr_req req))) us) (prefix_indices (sr_req req)));
  rm_longest : force_miss = false → longest_match (page_size (cfg c)) G us (prefix_indices (sr_req req));
  rm_host : host_hit_length req = 0%Z;
}.

Definition tokens_units c (tokens : list Z) (ek : option string) : list tunit :=
  query_units c (MkRadixKey tokens ek false).

Lemma wp_matched c G L tokens ek :
  Inv (view c) G L → disable (cfg c) = false →
  wp (matched (MkRadixKey tokens ek false)) (λ r c', ∃ G', Inv (view c') G' L ∧ refines G G' ∧ frame c c'
    ∧ (∀ protected req, req_matched c' G' (tokens_units c tokens ek) (take_match r protected req))
    ∧ length (device_indices r) ≤ length (tokens_units c tokens ek)
    ∧ (∀ i, slot_count (view c') G' i = slot_count (view c) G i)) c.
Proof using.
  intros HI Hdis. unfold matched. wp_step.
  eapply wp_mono; [apply (wp_match_prefix c G L); [done|done|intros Hb; discriminate Hb]|].
  intros r c' [(G' & HI' & Hr & Hf & Hlast & Hlm & Hs) [_ Hhost]].
  assert (length (device_indices r) ≤ length (tokens_units c tokens ek)) as Hlen by apply Hlm.
  destruct force_miss eqn:Hfm; [unfold zero_match_result|]; wp_steps; exists G'; split_and!; try done.
  - intros protected req. split; simpl; [|congruence|done]. exists (root_node c'). split; [done|].
    apply (to_groot (inv_tree _ _ _ HI')).
  - simpl. lia.
  - intros protected req. split; simpl; [by eexists| |by rewrite Hhost].
    intros _. rewrite (fr_cfg _ _ Hf).
    apply (refines_longest (view c) (view c') G G'); [apply HI|apply HI'|simpl; by rewrite (fr_cfg _ _ Hf)|done|done].
Qed.
Lemma tokens_units_length c tokens ek : length (tokens_units c tokens ek) ≤ length tokens.
Proof using.
  unfold tokens_units, query_units. rewrite length_take, titer_length.
  unfold maybe_to_bigram_view, key_len. destruct (is_eagle (cfg c)); simpl; [case_decide|]; lia.
Qed.

Lemma match_tokens_lt req : fill_ids (sr_req req) ≠ [] → length (match_tokens req) < length (fill_ids (sr_req req)).
Proof using.
  intros Hne. assert (0 < length (fill_ids (sr_req req))) by (destruct (fill_ids _); [done|simpl; lia]).
  unfold match_tokens. destruct (embed_overrides req); [simpl; lia|].
  rewrite length_take. destruct (return_logprob req && _); lia.
Qed.

Lemma init_fill_spec req :
  fill_ids (sr_req (init_fill req)) = origin_input_ids (sr_req req) ++ output_ids (sr_req req)
  ∧ rid (init_fill req) = rid req ∧ max_new_tokens (init_fill req) = max_new_tokens req
  ∧ ignore_eos (init_fill req) = ignore_eos req
  ∧ req_extra_key (sr_req (init_fill req)) = req_extra_key (sr_req req).
Proof using. unfold init_fill. simpl. by destruct (_ && _ && _). Qed.

(** The key a request is looked up with. *)
Definition round_units c (req : SReq) : list tunit :=
  tokens_units c (match_tokens (init_fill req)) (req_extra_key (sr_req req)).

(** A request ready to be offered to the adder: all of its tokens, split into what
    the cache holds and at least one token to compute. *)
Record round_ready c G (req req' : SReq) : Prop := {
  rr_matched : req_matched c G (round_units c req) req';
  rr_fill : fill_ids (sr_req req') = origin_input_ids (sr_req req) ++ output_ids (sr_req req);
  rr_extend : (extend_input_len req' + Z.of_nat (length (prefix_indices (sr_req req')))
               = Z.of_nat (length (fill_ids (sr_req req'))))%Z;
  rr_work : origin_input_ids (sr_req req) ++ output_ids (sr_req req) ≠ [] → (1 <= extend_input_len req')%Z;
  rr_protected : cache_protected_len (sr_req req') = length (prefix_indices (sr_req req'));
  rr_rid : rid req' = rid req;
  rr_new : max_new_tokens req' = max_new_tokens req;
}.

Lemma wp_init_next_round_input c G L req :
  Inv (view c) G L → disable (cfg c) = false →
  wp (init_next_round_input req) (λ req' c', ∃ G', Inv (view c') G' L ∧ refines G G' ∧ frame c c'
    ∧ round_ready c' G' req req' ∧ (∀ i, slot_count (view c') G' i = slot_count (view c) G i)) c.
Proof using.
  intros HI Hdis. destruct (init_fill_spec req) as (Hfill & Hrid & Hnew & _ & Hek).
  unfold init_next_round_input. cbv zeta. wp_step. eapply wp_mono; [by apply (wp_matched c G L)|].
  intros r c' (G' & HI' & Hr & Hf & Hm & Hlen & Hs). wp_step. exists G'. split_and!; try done.
  rewrite Hek in Hm, Hlen. fold (round_units c req) in Hm, Hlen.
  pose proof (tokens_units_length c (match_tokens (init_fill req)) (req_extra_key (sr_req req))) as Htl.
  specialize (Hm (length (device_indices r)) (init_fill req)). destruct Hm as [Hn Hl Hh].
  assert (round_units c' req = round_units c req) as Hu
    by (unfold round_units, tokens_units, query_units; by rewrite (fr_cfg _ _ Hf)).
  split; simpl; try done.
  - rewrite Hu. by split.
  - lia.
  - intros Hne. rewrite <-Hfill in Hne. pose proof (match_tokens_lt (init_fill req) Hne).
    unfold round_units in Hlen. lia.
Qed.
End req_match.
