(* ===== verification/SchedulePolicy.v ===== *)
(** [SchedulePolicy] of managers/schedule_policy.py: the order of the waiting
    queue.

    Arguments stand for what the source takes from outside: [order] enumerates the
    values of a [children] dict (the model keeps no insertion order), [shuffle] is
    [random.shuffle], [torch_empty n] the [n] uninitialised entries of
    [torch.empty], and the thresholds come from the environment.  The two caches
    number their nodes separately; no node of one is ever looked up in the other. *)
From S2P Require Import Prelude PySort RadixKey TreeNode EvictPolicy RadixCache ReqPool SchedReq ReqMatch.
From Stdlib Require String.
From stdpp Require Import options.
Local Open Scope Z_scope.

Inductive CacheAwarePolicy := LPM | DFS_WEIGHT.
Inductive CacheAgnosticPolicy := FCFS | LOF | RANDOM | ROUTING_KEY.
Inductive Policy := Aware (p : CacheAwarePolicy) | Agnostic (p : CacheAgnosticPolicy).

#[global] Instance CacheAwarePolicy_eq_dec : EqDecision CacheAwarePolicy.
Proof. solve_decision. Defined.
#[global] Instance CacheAgnosticPolicy_eq_dec : EqDecision CacheAgnosticPolicy.
Proof. solve_decision. Defined.
#[global] Instance Policy_eq_dec : EqDecision Policy.
Proof. solve_decision. Defined.

(** The constructors of the two enumerations from their values. *)
Definition cache_aware_of (s : string) : option CacheAwarePolicy :=
  if decide (s = "lpm"%string) then Some LPM
  else if decide (s = "dfs-weight"%string) then Some DFS_WEIGHT
  else None.
Definition cache_agnostic_of (s : string) : option CacheAgnosticPolicy :=
  if decide (s = "fcfs"%string) then Some FCFS
  else if decide (s = "lof"%string) then Some LOF
  else if decide (s = "random"%string) then Some RANDOM
  else if decide (s = "routing-key"%string) then Some ROUTING_KEY
  else None.

(** [_validate_and_adjust_policy]; [dis] is the cache's attribute [disable]. *)
Definition validate_and_adjust_policy (s : string) (dis : bool) : result Policy :=
  match cache_aware_of s with
  | Some p => Ok (if dis then Agnostic FCFS else Aware p)
  | None => Agnostic <$> unwrap ValueError (cache_agnostic_of s)
  end.

(** The policy object; [waiting_queue_radix_tree] is a cache without an
    allocator. *)
Record SchedulePolicy := MkPolicy {
  sp_policy : Policy;
  enable_priority_scheduling : bool;
  priority_sign : Z;
  waiting_queue_radix_tree : RadixCache unit;
}.

(** [RadixCache.create_simulated()] *)
Definition create_simulated `{Env} (node_counter clock : nat) : result (RadixCache unit) :=
  init_cache false 1 false false false "lru" node_counter clock tt.

(** [__init__] *)
Definition init_policy `{Env} (s : string) (dis enable_priority low_values_first : bool)
    (node_counter clock : nat) : result SchedulePolicy :=
  p ← validate_and_adjust_policy s dis;
  t ← create_simulated node_counter clock;
  Ok (MkPolicy p enable_priority (if low_values_first then 1 else -1) t).

(** ** Sort keys *)

(** Python compares tuples by their first difference. *)
Definition lex_le {X} (le : X → X → bool) (x y : Z * X) : bool :=
  bool_decide (x.1 < y.1) || bool_decide (x.1 = y.1) && le x.2 y.2.
Definition z_le (x y : Z) : bool := bool_decide (x <= y).

Section sorts.
Implicit Types (r : SReq) (q : list SReq).

(** [None] stands for [float("inf")]. *)
Definition prefix_key (deprioritized : gset nat) r : option Z :=
  if decide (rid r ∈ deprioritized) then None
  else Some (- Z.of_nat (length (prefix_indices (sr_req r)))).
Definition inf_le (x y : option Z) : bool :=
  match x, y with
  | _, None => true
  | None, Some _ => false
  | Some a, Some b => z_le a b
  end.
Definition sort_by_longest_prefix (deprioritized : gset nat) q : list SReq :=
  py_sort (λ r s, inf_le (prefix_key deprioritized r) (prefix_key deprioritized s)) q.

Definition sort_by_longest_output (enable_priority : bool) (sign : Z) q : list SReq :=
  if enable_priority
  then py_sort (λ r s, lex_le z_le (priority r * sign, - max_new_tokens r)
                                   (priority s * sign, - max_new_tokens s)) q
  else py_sort (λ r s, z_le (- max_new_tokens r) (- max_new_tokens s)) q.

Definition sort_by_priority_and_fcfs (sign : Z) q : list SReq :=
  py_sort (λ r s, lex_le z_le (priority r * sign, wait_queue_entry_time r)
                              (priority s * sign, wait_queue_entry_time s)) q.

(** The routing key of a request, if it is a non-empty string. *)
Definition some_key r : option string :=
  match routing_key r with
  | Some k => if decide (k = EmptyString) then None else Some k
  | None => None
  end.
(** [Counter(...)[key]] *)
Definition key_count (running : list SReq) (k : string) : Z :=
  Z.of_nat (length (filter (λ r, some_key r = Some k) running)).
Definition routing_sort_key (running : list SReq) r : Z * (Z * string) :=
  match some_key r with
  | Some k => if decide (0 < key_count running k) then (0, (- key_count running k, k)) else (1, (0, k))
  | None => (1, (0, EmptyString))
  end.
Definition sort_by_routing_key (running q : list SReq) : list SReq :=
  if decide (omap some_key running = []) then q
  else py_sort (λ r s, lex_le (lex_le String.leb) (routing_sort_key running r) (routing_sort_key running s)) q.
End sorts.

(** ** The policy *)
Section policy.
Context `{Env} {A : Type}.
Context (order : gmap ckey nat → list nat) (shuffle : list SReq → list SReq) (torch_empty : nat → list Z).
Context (force_miss : bool) (CHECK_THRESHOLD DEPRIORITIZE_THRESHOLD : Z).

(** [_determine_active_policy] *)
Definition determine_active_policy (p : SchedulePolicy) (q : list SReq) : Policy :=
  if bool_decide (sp_policy p = Aware LPM) && bool_decide (128 < Z.of_nat (length q))
  then Agnostic FCFS else sp_policy p.

(** The tree of the waiting queue and the tree cache. *)
Record PState := MkPState { ps_queue_tree : RadixCache unit; ps_tree : RadixCache A }.
Definition on_tree {B} (m : ST (RadixCache A) B) : ST PState B := λ s,
  match m (ps_tree s) with
  | Ok (b, t) => Ok (b, MkPState (ps_queue_tree s) t)
  | Raise e => Raise e
  | Running => Running
  end.
Definition on_queue_tree {B} (m : ST (RadixCache unit) B) : ST PState B := λ s,
  match m (ps_queue_tree s) with
  | Ok (b, t) => Ok (b, MkPState t (ps_tree s))
  | Raise e => Raise e
  | Running => Running
  end.

(** The loop of [_compute_prefix_matches]: the requests with their matches, and
    the identifiers to put last. *)
Fixpoint compute_matches (q : list SReq) : ST PState (list SReq * gset nat) :=
  match q with
  | [] => mret ([], ∅)
  | r :: q =>
      let prefix_ids := origin_input_ids (sr_req r) ++ output_ids (sr_req r) in
      let key := MkRadixKey prefix_ids (req_extra_key (sr_req r)) false in
      m ← on_tree (match_prefix_for_req force_miss r (Some prefix_ids));
      let r := m.2 in
      dep ← (if bool_decide (Z.of_nat (length (prefix_indices (sr_req r))) <= CHECK_THRESHOLD) then
               m ← on_queue_tree (matched force_miss key);
               if bool_decide (DEPRIORITIZE_THRESHOLD <= Z.of_nat (length (device_indices m)))
               then mret {[rid r]}
               else
                 _ ← on_queue_tree (insert_cache key (Some (torch_empty (length prefix_ids))) (Some 0) false);
                 mret ∅
             else mret (∅ : gset nat));
      rest ← compute_matches q;
      mret (r :: rest.1, dep ∪ rest.2)
  end.

(** [_compute_prefix_matches] *)
Definition compute_prefix_matches (q : list SReq) : ST PState (list SReq * gset nat) :=
  _ ← on_queue_tree reset;
  compute_matches q.

(** ** Depth-first weights *)

(** [last_node_to_reqs[node]] *)
Definition reqs_at (q : list SReq) (n : nat) : list SReq := filter (λ r, last_node (sr_req r) = Some n) q.

(** [node_to_weight], a [defaultdict(int)]. *)
Definition weight (w : gmap nat Z) (n : nat) : Z := default 0 (w !! n).
Definition init_weight (q : list SReq) : gmap nat Z :=
  list_to_map ((λ n, (n, Z.of_nat (length (reqs_at q n)))) <$> omap (λ r, last_node (sr_req r)) q).

(** A loop over a list that may fail. *)
Fixpoint r_fold {X B} (f : B → X → result B) (l : list X) (b : B) : result B :=
  match l with
  | [] => Ok b
  | x :: l => b ← f b x; r_fold f l b
  end.

(** [_calc_weight]; [fuel] bounds the depth of the tree. *)
Fixpoint calc_weight (fuel : nat) (c : RadixCache A) (cur : nat) (w : gmap nat Z) : result (gmap nat Z) :=
  match fuel with
  | O => Running
  | S fuel =>
      x ← unwrap Dangling (nodes c !! cur);
      r_fold (λ w child,
        w ← calc_weight fuel c child w;
        Ok (<[cur := weight w cur + weight w child]> w)) (order (children x)) w
  end.

(** [_get_dfs_priority]; the queue is the accumulator. *)
Fixpoint get_dfs_priority (fuel : nat) (c : RadixCache A) (w : gmap nat Z) (q : list SReq)
    (cur : nat) (acc : list SReq) : result (list SReq) :=
  match fuel with
  | O => Running
  | S fuel =>
      x ← unwrap Dangling (nodes c !! cur);
      let kids := py_sort (λ m n, z_le (- weight w m) (- weight w n)) (order (children x)) in
      acc ← r_fold (λ acc child, get_dfs_priority fuel c w q child acc) kids acc;
      Ok (acc ++ reqs_at q cur)
  end.

(** [_sort_by_dfs_weight]; a tree is not deeper than it has nodes. *)
Definition sort_by_dfs_weight (q : list SReq) (c : RadixCache A) : result (list SReq) :=
  let fuel := S (size (nodes c)) in
  w ← calc_weight fuel c (root_node c) (init_weight q);
  get_dfs_priority fuel c w q (root_node c) [].

(** [calc_priority]: whether prefixes were matched, and the queue. *)
Definition calc_priority (p : SchedulePolicy) (q : list SReq) (running : option (list SReq))
    : ST (RadixCache A) (bool * list SReq * SchedulePolicy) := λ tree,
  if decide (sp_policy p = Agnostic FCFS) then
    Ok ((false, if enable_priority_scheduling p then sort_by_priority_and_fcfs (priority_sign p) q else q, p),
        tree)
  else
    match determine_active_policy p q with
    | Aware pol =>
        match compute_prefix_matches q (MkPState (waiting_queue_radix_tree p) tree) with
        | Ok ((q, deprioritized), s) =>
            let p := MkPolicy (sp_policy p) (enable_priority_scheduling p) (priority_sign p) (ps_queue_tree s) in
            match pol with
            | LPM => Ok ((true, sort_by_longest_prefix deprioritized q, p), ps_tree s)
            | DFS_WEIGHT =>
                match sort_by_dfs_weight q (ps_tree s) with
                | Ok q => Ok ((true, q, p), ps_tree s)
                | Raise e => Raise e
                | Running => Running
                end
            end
        | Raise e => Raise e
        | Running => Running
        end
    | Agnostic FCFS => Ok ((false, q, p), tree)
    | Agnostic LOF =>
        Ok ((false, sort_by_longest_output (enable_priority_scheduling p) (priority_sign p) q, p), tree)
    | Agnostic RANDOM => Ok ((false, shuffle q, p), tree)
    | Agnostic ROUTING_KEY =>
        Ok ((false, match running with Some l => sort_by_routing_key l q | None => q end, p), tree)
    end.
End policy.
Arguments MkPState {A}. Arguments ps_queue_tree {A}. Arguments ps_tree {A}.
