(* ===== verification/PolicyDfs.v ===== *)
(** The depth-first order of the waiting queue: [_calc_weight] computes for every
    node the number of requests that end below it, and [_get_dfs_priority] lists
    every request exactly once. *)
From S2P Require Import Prelude PySort RadixKey TreeNode EvictPolicy RadixCache RadixInv RadixSplit RadixLeaf.
From S2P Require Import RadixSpec RadixOps RadixTotal ReqPool SchedReq ReqMatch SchedulePolicy.
From Stdlib Require Import Sorted.
From stdpp Require Import options.

Lemma gsum_union f (X Y : gset nat) : X ## Y → gsum f (X ∪ Y) = (gsum f X + gsum f Y)%Z.
Proof.
  intros Hd. unfold gsum. rewrite (foldr_sum_perm f _ _ (elements_disj_union X Y Hd)).
  induction (elements X) as [|x l IH]; simpl in *; lia.
Qed.

Lemma gsum_singleton f x : gsum f {[x]} = f x.
Proof. unfold gsum. rewrite elements_singleton. simpl. lia. Qed.

(** ** Subtrees *)

(** The live nodes at or below a node. *)
Definition subtree (G : gmap nat gnode) (n : nat) : gset nat :=
  match G !! n with
  | Some g => dom (filter (λ '(_, gm), g_path g `prefix_of` g_path gm) G)
  | None => ∅
  end.

Lemma elem_of_subtree G n m :
  m ∈ subtree G n ↔ ∃ g gm, G !! n = Some g ∧ G !! m = Some gm ∧ g_path g `prefix_of` g_path gm.
Proof.
  unfold subtree. destruct (G !! n) as [g|] eqn:Hn.
  - rewrite elem_of_dom. split.
    + intros [gm [Hm Hp]%map_lookup_filter_Some]. eauto.
    + intros (g' & gm & [= <-] & Hm & Hp). exists gm. by apply map_lookup_filter_Some.
  - split; [set_solver|]. by intros (? & ? & ? & _).
Qed.

(** The live nodes of a list of subtrees. *)
Definition forest (G : gmap nat gnode) (l : list nat) : gset nat := ⋃ (subtree G <$> l).

Lemma elem_of_forest G l m : m ∈ forest G l ↔ ∃ k, k ∈ l ∧ m ∈ subtree G k.
Proof.
  unfold forest. rewrite elem_of_union_list. split.
  - intros (X & (k & -> & Hk)%list_elem_of_fmap & Hm). eauto.
  - intros (k & Hk & Hm). exists (subtree G k). split; [|done]. apply list_elem_of_fmap. eauto.
Qed.

Section dfs.
Context {A : Type} (c : RadixCache A) (G : gmap nat gnode) (Ht : tree_ok (view c) G).

(** What the traversals see of a node and its children. *)
Record node_kids (n : nat) (ks : list nat) : Prop := {
  nk_nodup : NoDup ks;
  nk_kid : ∀ k, k ∈ ks → ∃ g gk xk px, G !! n = Some g ∧ G !! k = Some gk ∧ node_ok (view c) G k gk xk n g px;
  nk_all : ∀ k gk xk g px, node_ok (view c) G k gk xk n g px → k ∈ ks;
}.

Lemma kids_perm n ks ks' : node_kids n ks → ks' ≡ₚ ks → node_kids n ks'.
Proof using.
  intros [Hnd Hk Ha] Hp. split; [by rewrite Hp|intros k; rewrite Hp; apply Hk|].
  intros k gk xk g px Hok. rewrite Hp. by eapply Ha.
Qed.

(** A subtree is its root and the subtrees of the children, which are disjoint. *)
Lemma subtree_kids n g ks :
  G !! n = Some g → node_kids n ks → subtree G n = {[n]} ∪ forest G ks ∧ n ∉ forest G ks.
Proof using Ht.
  intros Hg [Hnd Hk Ha]. split.
  - apply set_eq. intros m. rewrite elem_of_union, elem_of_singleton, elem_of_forest, elem_of_subtree. split.
    + intros (g' & gm & E & Hm & Hp). assert (g' = g) as -> by congruence.
      destruct (way_down _ _ Ht m gm Hm n g Hg Hp) as [->|(k & gk & xk & ga & ax & Hgk & Hok & Hpk)]; [by left|].
      right. exists k. split; [by eapply Ha|]. apply elem_of_subtree. eauto.
    + intros [->|(k & Hkin & (gk & gm & Hgk & Hm & Hp)%elem_of_subtree)]; [by eauto|].
      destruct (Hk k Hkin) as (g' & gk' & xk & px & E & E' & Hok). simplify_eq.
      exists g, gm. split_and!; [done..|]. etrans; [by eapply node_ok_prefix|done].
  - rewrite elem_of_forest. intros (k & Hkin & (gk & gm & Hgk & Hm & Hp)%elem_of_subtree).
    destruct (Hk k Hkin) as (g' & gk' & xk & px & E & E' & Hok). simplify_eq.
    pose proof (node_ok_lt _ _ _ _ _ _ _ _ Hok). apply prefix_length in Hp. lia.
Qed.

Lemma forest_cons n k ks :
  (∃ ks', node_kids n ks' ∧ (k :: ks) `suffix_of` ks') →
  forest G (k :: ks) = subtree G k ∪ forest G ks ∧ subtree G k ## forest G ks.
Proof using Ht.
  intros (ks' & [Hnd Hk _] & Hsuf).
  split; [done|]. intros m Hm1 Hm2. destruct Hsuf as [pre ->].
  apply NoDup_app in Hnd as (_ & _ & [Hnk' _]%NoDup_cons).
  apply elem_of_forest in Hm2 as (k2 & Hk2 & (gk2 & gm & Hgk2 & Hm & Hp2)%elem_of_subtree).
  apply elem_of_subtree in Hm1 as (gk & gm' & Hgk & Hm' & Hp). simplify_eq.
  destruct (Hk k) as (g & g1 & x1 & px1 & Hg & E1 & Hok1); [apply elem_of_app; right; by left|].
  destruct (Hk k2) as (g' & g2 & x2 & px2 & Hg' & E2 & Hok2); [apply elem_of_app; right; by right|]. simplify_eq.
  assert (k = k2) as ->; [|done].
  destruct (prefix_weak_total _ _ _ Hp Hp2); [|symmetry]; by eapply edge_uniq_prefix.
Qed.

(** Children have smaller subtrees. *)
Lemma subtree_size n g ks k :
  G !! n = Some g → node_kids n ks → k ∈ ks → size (subtree G k) < size (subtree G n).
Proof using Ht.
  intros Hg Hnk Hk. destruct (subtree_kids n g ks Hg Hnk) as [-> Hn].
  apply subset_size. split; [|intros Hsub].
  - intros m Hm. apply elem_of_union_r, elem_of_forest. eauto.
  - apply Hn, elem_of_forest. exists k. split; [done|]. apply Hsub. set_solver.
Qed.

Lemma root_subtree : subtree G (root_node c) = dom G.
Proof using Ht.
  apply set_eq. intros m. rewrite elem_of_subtree, elem_of_dom. pose proof (to_groot Ht) as Hr. simpl in Hr. split.
  - intros (g & gm & _ & Hm & _). eauto.
  - intros [gm Hm]. exists (MkG [] []), gm. split_and!; [done..|]. apply prefix_nil.
Qed.
Context (order : gmap ckey nat → list nat).
Context (Horder : ∀ m, order m ≡ₚ (map_to_list m).*2).

Lemma kids_of n g x : G !! n = Some g → nodes c !! n = Some x → node_kids n (order (children x)).
Proof using Ht Horder.
  intros Hg Hx. pose proof (view_lookup _ _ _ Hx) as Hvx. split.
  - rewrite Horder. by apply (children_NoDup c G Ht n g).
  - intros k. rewrite Horder. intros ((ck, k') & -> & Hin)%list_elem_of_fmap.
    apply elem_of_map_to_list in Hin. simpl.
    destruct (to_child Ht n g _ ck k' Hg Hvx Hin) as (gk & xk & Hgk & Hxk & Hpar & Hr & _).
    destruct (to_node Ht k' gk Hgk Hr) as (x' & p & gp & px & Hok).
    assert (p = n) as -> by (pose proof (no_par Hok); pose proof (no_heap Hok); congruence).
    assert (gp = g) as -> by (pose proof (no_gpar Hok); congruence). eauto 8.
  - intros k gk xk g' px Hok. rewrite Horder. destruct (no_link Hok) as (ck & _ & Hck).
    assert (px = node_core x) as -> by (pose proof (no_parheap Hok); congruence).
    apply list_elem_of_fmap. exists (ck, k). split; [done|]. by apply elem_of_map_to_list.
Qed.

(** ** Weights *)

Lemma weight_insert (w : gmap nat Z) n z m :
  weight (<[n := z]> w) m = if decide (m = n) then z else weight w m.
Proof using. unfold weight. rewrite lookup_insert. repeat case_decide; try done; congruence. Qed.

Context (cnt : nat → Z).

(** What [calc_weight] does to the weights of a subtree. *)
Definition weighed (X : gset nat) (w w' : gmap nat Z) : Prop :=
  (∀ m, m ∈ X → weight w' m = gsum cnt (subtree G m)) ∧ (∀ m, m ∉ X → weight w' m = weight w m).
Definition unweighed (X : gset nat) (w : gmap nat Z) : Prop := ∀ m, m ∈ X → weight w m = cnt m.

Lemma fold_weights fuel n ks0 ks w :
  node_kids n ks0 → ks `suffix_of` ks0 → n ∉ forest G ks →
  (∀ k w, k ∈ ks → unweighed (subtree G k) w →
    ∃ w', calc_weight order fuel c k w = Ok w' ∧ weighed (subtree G k) w w') →
  unweighed (forest G ks) w →
  ∃ w', r_fold (λ w child, w ← calc_weight order fuel c child w;
                  Ok (<[n := (weight w n + weight w child)%Z]> w)) ks w = Ok w'
    ∧ (∀ m, m ∈ forest G ks → weight w' m = gsum cnt (subtree G m))
    ∧ weight w' n = (weight w n + gsum cnt (forest G ks))%Z
    ∧ (∀ m, m ∉ forest G ks → m ≠ n → weight w' m = weight w m).
Proof using Ht Horder.
  intros Hnk. revert w. induction ks as [|k ks IH]; intros w Hsuf Hn Hrec Hun.
  { exists w. change (forest G []) with (∅ : gset nat). rewrite gsum_empty. split_and!; [done|set_solver|lia|done]. }
  destruct (forest_cons n k ks) as [Hf Hdisj]; [by eauto|]. rewrite Hf in Hn, Hun |- *.
  assert (ks `suffix_of` ks0) as Hsuf' by (etrans; [|exact Hsuf]; by exists [k]).
  destruct (Hrec k w) as (w1 & E1 & Hin1 & Hout1); [by left|intros m Hm; apply Hun; set_solver|].
  assert (k ∈ subtree G k) as Hkk.
  { destruct Hsuf as [pre ->]. destruct (nk_kid _ _ Hnk k) as (g & gk & ? & ? & _ & Hgk & _);
      [apply elem_of_app; right; by left|]. apply elem_of_subtree. eauto. }
  set (w2 := <[n := (weight w1 n + weight w1 k)%Z]> w1).
  destruct (IH w2) as (w' & E' & Hin' & Hn' & Hout'); [done|set_solver|intros k' w'' Hk'; apply Hrec; by right| |].
  { intros m Hm. unfold w2. rewrite weight_insert. rewrite decide_False by set_solver.
    rewrite Hout1 by set_solver. apply Hun. set_solver. }
  exists w'. split_and!.
  - cbn [r_fold]. rewrite E1. cbn [mbind result_bind]. exact E'.
  - intros m [Hm|Hm]%elem_of_union; [|by apply Hin'].
    rewrite Hout' by set_solver. unfold w2. rewrite weight_insert, decide_False by set_solver. by apply Hin1.
  - rewrite Hn'. unfold w2. rewrite weight_insert, decide_True by done.
    rewrite gsum_union by done. rewrite (Hout1 n) by set_solver. rewrite (Hin1 k Hkk). lia.
  - intros m Hm Hmn. rewrite Hout' by set_solver. unfold w2.
    rewrite weight_insert, decide_False by done. apply Hout1. set_solver.
Qed.

Lemma calc_weight_spec fuel n g w :
  G !! n = Some g → size (subtree G n) < fuel → unweighed (subtree G n) w →
  ∃ w', calc_weight order fuel c n w = Ok w' ∧ weighed (subtree G n) w w'.
Proof using Ht Horder.
  revert n g w. induction fuel as [|fuel IH]; intros n g w Hg Hsz Hun; [lia|].
  destruct (tree_live _ _ _ _ Ht Hg) as [x' Hx']. destruct (view_lookup_inv _ _ _ Hx') as (x & Hx & ->).
  pose proof (kids_of n g x Hg Hx) as Hnk. destruct (subtree_kids n g _ Hg Hnk) as [Hst Hn].
  destruct (fold_weights fuel n _ (order (children x)) w Hnk) as (w' & E & Hin & Hnw & Hout); [done|done| | |].
  - intros k w0 Hk Hun0. destruct (nk_kid _ _ Hnk k Hk) as (_ & gk & _ & _ & _ & Hgk & _).
    apply (IH k gk); [done| |done]. pose proof (subtree_size n g _ k Hg Hnk Hk). lia.
  - intros m Hm. apply Hun. rewrite Hst. set_solver.
  - exists w'. split; [cbn [calc_weight]; rewrite Hx; exact E|]. split.
    + intros m Hm. destruct (decide (m = n)) as [->|Hmn]; [|apply Hin; set_solver].
      rewrite Hnw, Hst, gsum_union, gsum_singleton by set_solver. f_equal. apply Hun. set_solver.
    + intros m Hm. rewrite Hst in Hm. apply Hout; set_solver.
Qed.
End dfs.
Arguments node_kids {A} c G n ks.

(** ** The list *)

Lemma filter_none {X} (P : X → Prop) `{∀ x, Decision (P x)} l : (∀ x, x ∈ l → ¬ P x) → filter P l = [].
Proof.
  intros Hl. induction l as [|x l IH]; [done|]. rewrite filter_cons_False by (apply Hl; by left).
  apply IH. intros y Hy. apply Hl. by right.
Qed.

Section listing.
Context (q : list SReq).

Lemma reqs_at_app l1 l2 n : reqs_at (l1 ++ l2) n = reqs_at l1 n ++ reqs_at l2 n.
Proof using. apply filter_app. Qed.

(** [l] has the requests of [q] whose node is in [X], those of a node in the order
    of [q]. *)
Record listed (X : gset nat) (l : list SReq) : Prop := {
  ls_at : ∀ n, reqs_at l n = if decide (n ∈ X) then reqs_at q n else [];
  ls_in : ∀ r, r ∈ l → ∃ n, n ∈ X ∧ last_node (sr_req r) = Some n;
}.

Lemma listed_nil : listed ∅ [].
Proof using.
  split; [|intros r Hr; by apply elem_of_nil in Hr]. intros n. by rewrite decide_False by set_solver.
Qed.

Lemma listed_app X Y l1 l2 : X ## Y → listed X l1 → listed Y l2 → listed (X ∪ Y) (l1 ++ l2).
Proof using.
  intros Hd [H1 H1'] [H2 H2']. split.
  - intros n. rewrite reqs_at_app, H1, H2.
    destruct (decide (n ∈ X)) as [Hx|Hx].
    + rewrite (decide_False (P := n ∈ Y)) by (intros Hy; by apply (Hd n)).
      rewrite decide_True by (by apply elem_of_union_l). apply app_nil_r.
    + destruct (decide (n ∈ Y)) as [Hy|Hy]; [rewrite decide_True by (by apply elem_of_union_r); done|].
      rewrite decide_False; [done|]. by intros [|]%elem_of_union.
  - intros r [(n & Hn & E)%H1'|(n & Hn & E)%H2']%elem_of_app; exists n; set_solver.
Qed.

Lemma listed_node n : listed {[n]} (reqs_at q n).
Proof using.
  split.
  - intros m. unfold reqs_at. rewrite list_filter_filter. destruct (decide (m ∈ {[n]})) as [Hm|Hm].
    + apply elem_of_singleton in Hm as ->. apply list_filter_iff. tauto.
    + apply filter_none. intros r _ [E1 E2]. apply Hm, elem_of_singleton. congruence.
  - intros r [Hr _]%list_elem_of_filter. exists n. split; [by apply elem_of_singleton|done].
Qed.
End listing.

Lemma reqs_at_cons r q n :
  reqs_at (r :: q) n = if decide (last_node (sr_req r) = Some n) then r :: reqs_at q n else reqs_at q n.
Proof. unfold reqs_at. by rewrite filter_cons. Qed.

(** The requests of a set of nodes, node by node. *)
Definition by_node (q : list SReq) (X : gset nat) : list SReq := elements X ≫= reqs_at q.

Lemma by_node_ext l q (X : gset nat) : (∀ n, n ∈ X → reqs_at l n = reqs_at q n) → by_node l X = by_node q X.
Proof.
  intros Heq. unfold by_node. assert (Forall (λ n, reqs_at l n = reqs_at q n) (elements X)) as Hf
    by (apply Forall_forall; intros n Hn%elem_of_elements; auto).
  induction Hf as [|n ns Hn _ IH]; [done|]. rewrite !bind_cons, Hn. by f_equal.
Qed.

Lemma by_node_all q (X : gset nat) :
  (∀ r, r ∈ q → ∃ n, n ∈ X ∧ last_node (sr_req r) = Some n) → by_node q X ≡ₚ q.
Proof.
  induction q as [|r q IH]; intros Hq.
  { unfold by_node. induction (elements X); [done|]. by rewrite bind_cons. }
  destruct (Hq r) as (n & Hn & E); [by left|].
  assert (∀ q', by_node q' X ≡ₚ reqs_at q' n ++ by_node q' (X ∖ {[n]})) as Hsplit.
  { intros q'. unfold by_node. rewrite (union_difference_singleton_L n X) at 1 by done.
    rewrite elements_union_singleton by set_solver. done. }
  rewrite Hsplit, reqs_at_cons, decide_True by done.
  rewrite (by_node_ext (r :: q) q).
  - rewrite <-app_comm_cons, <-Hsplit. constructor. apply IH. intros s Hs. apply Hq. by right.
  - intros m Hm. rewrite reqs_at_cons, decide_False; [done|]. set_solver.
Qed.

(** Two lists of requests on live nodes that agree node by node. *)
Lemma listed_perm (X : gset nat) (l q : list SReq) :
  (∀ r, r ∈ q → ∃ n, n ∈ X ∧ last_node (sr_req r) = Some n) → listed q X l → l ≡ₚ q.
Proof.
  intros Hq [Hat Hin]. rewrite <-(by_node_all q X Hq), <-(by_node_all l X Hin).
  rewrite (by_node_ext l q); [done|]. intros n Hn. by rewrite Hat, decide_True.
Qed.

(** ** The traversal *)

Section traversal.
Context {A : Type} (c : RadixCache A) (G : gmap nat gnode) (Ht : tree_ok (view c) G).
Context (order : gmap ckey nat → list nat) (q : list SReq).

(** The number of requests that end in a subtree. *)
Definition demand (n : nat) : Z := gsum (λ m, Z.of_nat (length (reqs_at q m))) (subtree G n).

(** The order that is asked for: subtrees first, those with more requests before
    those with fewer, then the requests of the node itself. *)
Inductive dfs_list : nat → list SReq → Prop :=
  | dfs_node n ks l :
      node_kids c G n ks → StronglySorted (λ k k', demand k' <= demand k)%Z ks →
      dfs_forest ks l → dfs_list n (l ++ reqs_at q n)
with dfs_forest : list nat → list SReq → Prop :=
  | dfs_nil : dfs_forest [] []
  | dfs_cons k ks l l' : dfs_list k l → dfs_forest ks l' → dfs_forest (k :: ks) (l ++ l').

Context (w : gmap nat Z) (Hw : ∀ m, is_Some (G !! m) → weight w m = demand m).
Context (Horder : ∀ m, order m ≡ₚ (map_to_list m).*2).

Lemma fold_dfs fuel n ks0 ks acc :
  node_kids c G n ks0 → ks `suffix_of` ks0 →
  (∀ k acc, k ∈ ks → ∃ l, get_dfs_priority order fuel c w q k acc = Ok (acc ++ l)
    ∧ dfs_list k l ∧ listed q (subtree G k) l) →
  ∃ l, r_fold (λ acc child, get_dfs_priority order fuel c w q child acc) ks acc = Ok (acc ++ l)
    ∧ dfs_forest ks l ∧ listed q (forest G ks) l.
Proof using Ht.
  intros Hnk. revert acc. induction ks as [|k ks IH]; intros acc Hsuf Hrec.
  { exists []. simpl. rewrite app_nil_r. split_and!; [done|constructor|apply listed_nil]. }
  destruct (forest_cons c G Ht n k ks) as [-> Hdisj]; [by eauto|].
  destruct (Hrec k acc) as (l & E & Hl & Hls); [by left|].
  destruct (IH (acc ++ l)) as (ls & E' & Hls' & Hli);
    [etrans; [|exact Hsuf]; by exists [k]|intros k' acc' Hk'; apply Hrec; by right|].
  exists (l ++ ls). split_and!; [|by constructor|by apply listed_app].
  cbn [r_fold]. rewrite E. cbn [mbind result_bind]. rewrite E'. by rewrite app_assoc.
Qed.

Lemma sorted_kids n ks :
  node_kids c G n ks →
  StronglySorted (λ k k', demand k' <= demand k)%Z (py_sort (λ m n, z_le (- weight w m) (- weight w n)) ks).
Proof using Hw.
  intros Hnk. pose proof (kids_perm c G n ks _ Hnk (py_sort_perm (λ m n, z_le (- weight w m) (- weight w n)) ks)) as Hp.
  assert (StronglySorted (λ m n, z_le (- weight w m) (- weight w n)) (py_sort (λ m n, z_le (- weight w m) (- weight w n)) ks)) as Hs.
  { apply py_sort_sorted; unfold z_le.
    - intros x y. rewrite !bool_decide_eq_true. lia.
    - intros x y z. rewrite !bool_decide_eq_true. lia. }
  assert (∀ k, k ∈ py_sort (λ m n, z_le (- weight w m) (- weight w n)) ks → weight w k = demand k) as Hk.
  { intros k Hk. destruct (nk_kid _ _ _ _ Hp k Hk) as (_ & gk & _ & _ & _ & Hgk & _). apply Hw. eauto. }
  clear Hp Hnk. induction Hs as [|k l Hl IH Hkl]; constructor.
  - apply IH. intros k' Hk'. apply Hk. by right.
  - rewrite Forall_forall in Hkl |- *. intros k' Hk'. specialize (Hkl k' Hk').
    unfold z_le in Hkl. apply bool_decide_unpack in Hkl. rewrite !Hk in Hkl by (by left + by right). lia.
Qed.

Lemma dfs_priority_spec fuel n g acc :
  G !! n = Some g → size (subtree G n) < fuel →
  ∃ l, get_dfs_priority order fuel c w q n acc = Ok (acc ++ l) ∧ dfs_list n l ∧ listed q (subtree G n) l.
Proof using Ht Horder Hw.
  revert n g acc. induction fuel as [|fuel IH]; intros n g acc Hg Hsz; [lia|].
  destruct (tree_live _ _ _ _ Ht Hg) as [x' Hx']. destruct (view_lookup_inv _ _ _ Hx') as (x & Hx & ->).
  pose proof (kids_of c G Ht order Horder n g x Hg Hx) as Hnk0.
  set (ks := py_sort (λ m n, z_le (- weight w m) (- weight w n)) (order (children x))).
  pose proof (kids_perm c G n _ ks Hnk0 (py_sort_perm _ _)) as Hnk.
  destruct (subtree_kids c G Ht n g ks Hg Hnk) as [Hst Hn].
  destruct (fold_dfs fuel n ks ks acc Hnk) as (ls & E & Hls & Hli); [done| |].
  - intros k acc' Hk. destruct (nk_kid _ _ _ _ Hnk k Hk) as (_ & gk & _ & _ & _ & Hgk & _).
    apply (IH k gk); [done|]. pose proof (subtree_size c G Ht n g ks k Hg Hnk Hk). lia.
  - exists (ls ++ reqs_at q n). split_and!.
    + cbn [get_dfs_priority]. rewrite Hx. cbn [unwrap mbind result_bind]. fold ks. rewrite E.
      cbn [mbind result_bind]. by rewrite app_assoc.
    + apply (dfs_node n ks); [done|by eapply sorted_kids|done].
    + rewrite Hst, (union_comm_L {[n]}). apply listed_app; [set_solver|done|apply listed_node].
Qed.
End traversal.

(** ** [_sort_by_dfs_weight] *)

Lemma init_weight_spec q n : weight (init_weight q) n = Z.of_nat (length (reqs_at q n)).
Proof.
  unfold weight, init_weight. set (f := λ n : nat, (n, Z.of_nat (length (reqs_at q n)))).
  set (ns := omap _ q). destruct (list_to_map (f <$> ns) !! n) as [z|] eqn:E.
  - apply elem_of_list_to_map_2, list_elem_of_fmap in E as (m & [= -> ->] & _). done.
  - apply not_elem_of_list_to_map in E. rewrite <-list_fmap_compose in E.
    assert (reqs_at q n = []) as ->; [|done]. apply filter_none. intros r Hr Hn.
    apply E, list_elem_of_fmap. exists n. split; [done|]. apply list_elem_of_omap. eauto.
Qed.

Lemma sort_by_dfs_weight_spec {A} (c : RadixCache A) G order q :
  tree_ok (view c) G → (∀ m, order m ≡ₚ (map_to_list m).*2) →
  ∃ l, sort_by_dfs_weight order q c = Ok l ∧ dfs_list c G q (root_node c) l ∧ listed q (dom G) l.
Proof.
  intros Ht Horder. pose proof (to_groot Ht) as Hroot. simpl in Hroot.
  assert (size (subtree G (root_node c)) < S (size (nodes c))) as Hsz.
  { rewrite (root_subtree c G Ht). apply Nat.lt_succ_r. rewrite <-size_dom. apply subseteq_size.
    intros n [g Hg]%elem_of_dom. destruct (tree_live _ _ _ _ Ht Hg) as [x Hx].
    destruct (view_lookup_inv _ _ _ Hx) as (y & Hy & _). by apply elem_of_dom. }
  unfold sort_by_dfs_weight.
  destruct (calc_weight_spec c G Ht order Horder (λ m, Z.of_nat (length (reqs_at q m)))
    _ _ _ (init_weight q) Hroot Hsz) as (w & -> & Hin & _); [intros m _; apply init_weight_spec|].
  cbn [mbind result_bind].
  destruct (dfs_priority_spec c G Ht order q w) with (fuel := S (size (nodes c)))
    (n := root_node c) (g := MkG [] []) (acc := @nil SReq) as (l & E & Hl & Hli); [| done|done|done|].
  - intros m Hm. apply Hin. rewrite (root_subtree c G Ht). by apply elem_of_dom.
  - exists l. rewrite (root_subtree c G Ht) in Hli. done.
Qed.
