(* ===== verification/PolicyOrder.v ===== *)
(** What [SchedulePolicy.calc_priority] does to the waiting queue: it never loses
    or duplicates a request, under every policy it returns, and a cache-aware
    policy leaves every request matched against the tree cache. *)
From S2P Require Import Prelude PySort RadixKey TreeNode EvictPolicy RadixCache RadixInv RadixSplit RadixLeaf.
From S2P Require Import RadixSpec RadixOps RadixMatch RadixInsert RadixTotal.
From S2P Require Import ReqPool SchedReq ReqMatch SchedulePolicy PolicyDfs.
From Stdlib Require Import Sorted.
From stdpp Require Import options.

(** ** Sort keys *)
Section sort_keys.
Local Open Scope Z_scope.

(** Sorting by a key with a total preorder: the result is sorted, and requests with
    equal keys stay in their order. *)
Lemma py_sort_by_key {X K} (key : X → K) (le : K → K → bool) l :
  (∀ a b, le a b = true ∨ le b a = true) → (∀ a b c, le a b = true → le b c = true → le a c = true) →
  StronglySorted (λ x y, le (key x) (key y)) (py_sort (λ x y, le (key x) (key y)) l).
Proof.
  intros Htot Htrans. apply py_sort_sorted; [intros x y; apply Htot|intros x y z; apply Htrans].
Qed.

Lemma z_le_total a b : z_le a b = true ∨ z_le b a = true.
Proof. unfold z_le. rewrite !bool_decide_eq_true. lia. Qed.
Lemma z_le_trans a b c : z_le a b = true → z_le b c = true → z_le a c = true.
Proof. unfold z_le. rewrite !bool_decide_eq_true. lia. Qed.

Lemma inf_le_total a b : inf_le a b = true ∨ inf_le b a = true.
Proof. destruct a as [a|], b as [b|]; simpl; [apply z_le_total|tauto..]. Qed.
Lemma inf_le_trans a b c : inf_le a b = true → inf_le b c = true → inf_le a c = true.
Proof. destruct a as [a|], b as [b|], c as [c|]; simpl; try done. apply z_le_trans. Qed.

Lemma lex_le_iff (a b : Z * Z) : lex_le z_le a b = true ↔ a.1 < b.1 ∨ a.1 = b.1 ∧ a.2 <= b.2.
Proof.
  unfold lex_le, z_le. rewrite orb_true_iff, andb_true_iff, !bool_decide_eq_true. tauto.
Qed.
Lemma lex_le_total (a b : Z * Z) : lex_le z_le a b = true ∨ lex_le z_le b a = true.
Proof. rewrite !lex_le_iff. lia. Qed.
Lemma lex_le_trans (a b c : Z * Z) : lex_le z_le a b = true → lex_le z_le b c = true → lex_le z_le a c = true.
Proof. rewrite !lex_le_iff. lia. Qed.

Lemma sort_by_routing_key_perm running q : sort_by_routing_key running q ≡ₚ q.
Proof. unfold sort_by_routing_key. destruct (decide _); [done|apply py_sort_perm]. Qed.
Lemma sort_by_longest_output_perm pr sign q : sort_by_longest_output pr sign q ≡ₚ q.
Proof. unfold sort_by_longest_output. destruct pr; apply py_sort_perm. Qed.
End sort_keys.

(** ** Matching the queue *)
Section matches.
Context `{Env} {A : Type}.
Context (torch_empty : nat → list Z) (Hempty : ∀ n, length (torch_empty n) = n).
Context (force_miss : bool) (CHECK DEPRIORITIZE : Z).
Implicit Types (G : gmap nat gnode) (L : nat → Z) (c : RadixCache A).

(** The tree of the waiting queue. *)
Definition queue_tree_ok (t : RadixCache unit) : Prop :=
  (∃ Gq Lq, Inv (view t) Gq Lq) ∧ disable (cfg t) = false ∧ enable_kv_cache_events (cfg t) = false.

(** [r'] is [r] with a match of all its tokens. *)
Definition seq_units c (r : SReq) : list tunit :=
  tokens_units c (origin_input_ids (sr_req r) ++ output_ids (sr_req r)) (req_extra_key (sr_req r)).
Definition rematched c G (r r' : SReq) : Prop :=
  (∃ m, r' = take_match m (cache_protected_len (sr_req r)) r) ∧ req_matched force_miss c G (seq_units c r) r'.

Lemma rematched_refines c c' G G' L L' r r' :
  Inv (view c) G L → Inv (view c') G' L' → frame c c' → refines G G' → rematched c G r r' → rematched c' G' r r'.
Proof using.
  intros HI HI' Hf Hr [Hm [(n & Hn & Hg) Hlm Hh]]. split; [done|].
  assert (seq_units c' r = seq_units c r) as Hu
    by (unfold seq_units, tokens_units, query_units; by rewrite (fr_cfg _ _ Hf)).
  rewrite Hu. split; [|intros Hfm|done].
  - exists n. split; [done|]. by eapply lookup_weaken, Hr.
  - rewrite (fr_cfg _ _ Hf). apply (refines_longest (view c) (view c') G G'); [apply HI|apply HI'| |done|by apply Hlm].
    simpl. by rewrite (fr_cfg _ _ Hf).
Qed.

Lemma wp_on_tree {B} (m : ST (RadixCache A) B) s (Q : B → PState → Prop) :
  wp m (λ b t, Q b (MkPState (ps_queue_tree s) t)) (ps_tree s) → wp (on_tree m) Q s.
Proof using. unfold wp, on_tree. by destruct (m (ps_tree s)) as [[b t]| |]. Qed.
Lemma wp_on_queue_tree {B} (m : ST (RadixCache unit) B) s (Q : B → @PState A → Prop) :
  wp m (λ b t, Q b (MkPState t (ps_tree s))) (ps_queue_tree s) → wp (on_queue_tree m) Q s.
Proof using. unfold wp, on_queue_tree. by destruct (m (ps_queue_tree s)) as [[b t]| |]. Qed.

Lemma wp_queue_matched t key :
  queue_tree_ok t → is_bigram key = false → wp (matched force_miss key) (λ _ t', queue_tree_ok t') t.
Proof using.
  intros [(Gq & Lq & HI) [Hd He]] Hb. destruct key as [ids ek b]. simpl in Hb. subst b.
  eapply wp_mono; [by apply (wp_matched force_miss t Gq Lq)|].
  intros m t' (G' & HI' & _ & Hf & _). split; [eauto|]. by rewrite (fr_cfg _ _ Hf).
Qed.

Lemma wp_queue_insert t ids ek :
  queue_tree_ok t →
  wp (insert_cache (MkRadixKey ids ek false) (Some (torch_empty (length ids))) (Some 0%Z) false)
    (λ _ t', queue_tree_ok t') t.
Proof using Hempty.
  intros [(Gq & Lq & HI) [Hd He]].
  eapply wp_mono; [apply (wp_insert_cache t Gq Lq); [done|done|done|intros Hb; discriminate Hb|]|].
  - intros v [= <-]. rewrite Hempty. apply tokens_units_length.
  - intros m t' (G' & vs & Hp). split; [exists G', Lq; apply Hp|].
    destruct (ip_env _ _ _ _ _ _ _ _ _ Hp) as [Hcfg]. by rewrite Hcfg.
Qed.

(** What one round over the queue leaves behind. *)
Definition matched_queue c G L (q q' : list SReq) (dep : gset nat) (s : @PState A) : Prop :=
  queue_tree_ok (ps_queue_tree s)
  ∧ ∃ G', Inv (view (ps_tree s)) G' L ∧ refines G G' ∧ frame c (ps_tree s)
    ∧ Forall2 (rematched (ps_tree s) G') q q' ∧ (∀ i, i ∈ dep → i ∈ rid <$> q).

(** One request: its match, and whether it is put last. *)
Lemma wp_match_one s G L r (Q : MatchResult * SReq → @PState A → Prop) :
  Inv (view (ps_tree s)) G L → disable (cfg (ps_tree s)) = false →
  (∀ m s' G', ps_queue_tree s' = ps_queue_tree s → Inv (view (ps_tree s')) G' L → refines G G' →
    frame (ps_tree s) (ps_tree s') → rematched (ps_tree s') G' r m.2 → Q m s') →
  wp (on_tree (match_prefix_for_req force_miss r (Some (origin_input_ids (sr_req r) ++ output_ids (sr_req r))))) Q s.
Proof using.
  intros HI Hd HQ. apply wp_on_tree. unfold match_prefix_for_req. simpl default. wp_step.
  eapply wp_mono; [by apply (wp_matched force_miss (ps_tree s) G L)|].
  intros m t' (G' & HI' & Hr & Hf & Hm & _ & _). wp_step.
  apply (HQ _ _ G'); simpl; [done|done|done|done|]. split; [by eexists|].
  assert (seq_units t' r = tokens_units (ps_tree s) (origin_input_ids (sr_req r) ++ output_ids (sr_req r))
    (req_extra_key (sr_req r))) as -> by (unfold seq_units, tokens_units, query_units; by rewrite (fr_cfg _ _ Hf)).
  apply Hm.
Qed.

(** Whether a request is put last; only the tree of the queue changes. *)
Lemma wp_in_batch (s : @PState A) ids ek (b : bool) i (Q : gset nat → @PState A → Prop) :
  queue_tree_ok (ps_queue_tree s) →
  (∀ dep s', queue_tree_ok (ps_queue_tree s') → ps_tree s' = ps_tree s → dep ⊆ {[i]} → Q dep s') →
  wp (if b then
        m ← on_queue_tree (matched force_miss (MkRadixKey ids ek false));
        if bool_decide (DEPRIORITIZE <= Z.of_nat (length (device_indices m)))%Z then mret {[i]}
        else
          _ ← on_queue_tree (insert_cache (MkRadixKey ids ek false) (Some (torch_empty (length ids))) (Some 0%Z) false);
          mret ∅
      else mret ∅) Q s.
Proof using Hempty.
  intros Hq HQ. destruct b; [|wp_step; apply HQ; set_solver].
  wp_step. apply wp_on_queue_tree. eapply wp_mono; [by apply wp_queue_matched|]. intros m t' Ht'.
  case_bool_decide; [wp_step; by apply HQ|]. wp_step. apply wp_on_queue_tree.
  eapply wp_mono; [by apply wp_queue_insert|]. intros ? t'' Ht''. wp_step. apply HQ; [done|done|set_solver].
Qed.

Lemma wp_compute_matches q s G L :
  Inv (view (ps_tree s)) G L → disable (cfg (ps_tree s)) = false → queue_tree_ok (ps_queue_tree s) →
  wp (compute_matches torch_empty force_miss CHECK DEPRIORITIZE q)
    (λ r s', matched_queue (ps_tree s) G L q r.1 r.2 s') s.
Proof using Hempty.
  revert s G. induction q as [|r q IH]; intros s G HI Hd Hq; cbn [compute_matches].
  { wp_step. split; [done|]. exists G. split_and!; [done|done|done|constructor|set_solver]. }
  wp_step. eapply wp_match_one; [done|done|]. intros m s1 G1 Hqt HI1 Hr1 Hf1 Hm1.
  wp_step. eapply wp_in_batch; [by rewrite Hqt|]. intros dep s2 Hq2 Ht2 Hdep.
  wp_step. eapply wp_mono; [apply (IH s2 G1); [by rewrite Ht2|by rewrite Ht2, (fr_cfg _ _ Hf1)|done]|].
  intros [q' dep'] s3 (Hq3 & G3 & HI3 & Hr3 & Hf3 & Hrest & Hdep'). wp_step. rewrite Ht2 in Hf3.
  split; [done|]. exists G3. split_and!; [done|by etrans|by etrans| |].
  - constructor; [|done]. by apply (rematched_refines (ps_tree s1) (ps_tree s3) G1 G3 L L).
  - destruct Hm1 as [[m' Hm'] _]. rewrite Hm' in Hdep. cbn [fst snd]. intros i [Hi|Hi]%elem_of_union; rewrite fmap_cons.
    + apply Hdep, elem_of_singleton in Hi as ->. by left.
    + right. by apply Hdep'.
Qed.

Lemma wp_compute_prefix_matches q s G L :
  Inv (view (ps_tree s)) G L → disable (cfg (ps_tree s)) = false → queue_tree_ok (ps_queue_tree s) →
  wp (compute_prefix_matches torch_empty force_miss CHECK DEPRIORITIZE q)
    (λ r s', matched_queue (ps_tree s) G L q r.1 r.2 s') s.
Proof using Hempty.
  intros HI Hd [(Gq & Lq & HIq) [Hdq Heq]]. unfold compute_prefix_matches. wp_step. apply wp_on_queue_tree.
  eapply wp_mono; [apply (wp_reset (ps_queue_tree s))|].
  - apply (to_ps (inv_tree _ _ _ HIq)).
  - intros n [x Hx]. apply (to_fresh (inv_tree _ _ _ HIq)). rewrite (view_lookup _ _ _ Hx). eauto.
  - intros ? t' (HI' & _ & _ & _ & Hcfg & _). eapply (wp_compute_matches q (MkPState t' (ps_tree s)) G L); [done|done|].
    simpl. split; [eauto|by rewrite Hcfg].
Qed.

(** ** The policy *)
Context (order : gmap ckey nat → list nat) (shuffle : list SReq → list SReq).
Context (Horder : ∀ m, order m ≡ₚ (map_to_list m).*2) (Hshuffle : ∀ l, shuffle l ≡ₚ l).

(** [calc_priority] under a cache-aware policy. *)
Lemma aware_matches p q tree G L :
  Inv (view tree) G L → disable (cfg tree) = false → queue_tree_ok (waiting_queue_radix_tree p) →
  ∃ q1 dep s, compute_prefix_matches torch_empty force_miss CHECK DEPRIORITIZE q
      (MkPState (waiting_queue_radix_tree p) tree) = Ok ((q1, dep), s)
    ∧ matched_queue tree G L q q1 dep s.
Proof using Hempty.
  intros HI Hd Hq.
  destruct (wp_ok _ _ _ (wp_compute_prefix_matches q (MkPState (waiting_queue_radix_tree p) tree) G L HI Hd Hq))
    as ([q1 dep] & s & E & Hm). exists q1, dep, s. done.
Qed.

(** The outcome of [calc_priority]: [q'] is a permutation of the queue, every
    request of which is unchanged or matched. *)
Definition prioritized (tree : RadixCache A) G L (q : list SReq) (b : bool) (q' : list SReq)
    (tree' : RadixCache A) : Prop :=
  ∃ G' q1, Inv (view tree') G' L ∧ refines G G' ∧ frame tree tree' ∧ q' ≡ₚ q1
    ∧ if b then Forall2 (rematched tree' G') q q1 else q1 = q.

Lemma calc_priority_spec p q running tree G L :
  Inv (view tree) G L → (∀ pol, sp_policy p = Aware pol → disable (cfg tree) = false) →
  queue_tree_ok (waiting_queue_radix_tree p) →
  ∃ b q' p' tree', calc_priority order shuffle torch_empty force_miss CHECK DEPRIORITIZE p q running tree
      = Ok ((b, q', p'), tree')
    ∧ queue_tree_ok (waiting_queue_radix_tree p') ∧ prioritized tree G L q b q' tree'.
Proof using Hempty Horder Hshuffle.
  intros HI Hd Hq. unfold calc_priority. destruct (decide _) as [_|_].
  { do 4 eexists. split; [done|]. split; [done|]. exists G, q. split_and!; [done|done|done| |done].
    destruct (enable_priority_scheduling p); [apply py_sort_perm|done]. }
  unfold determine_active_policy.
  assert (∀ q' : list SReq, q' ≡ₚ q → ∃ b q'' p' tree', Ok ((false, q', p), tree) = Ok ((b, q'', p'), tree')
    ∧ queue_tree_ok (waiting_queue_radix_tree p') ∧ prioritized tree G L q b q'' tree') as Hplain.
  { intros q' Hp. do 4 eexists. split; [done|]. split; [done|]. exists G, q. done. }
  destruct (bool_decide _ && _) ; [by apply Hplain|].
  destruct (sp_policy p) as [pol|[]] eqn:Ep; [|by apply Hplain|..].
  - destruct (aware_matches p q tree G L) as (q1 & dep & s & -> & Hqt & G' & HI' & Hr & Hf & Hall & _); [done|by eapply Hd|done|].
    destruct pol; [do 4 eexists; split; [done|]; split; [done|]; exists G', q1; split_and!;
      [done|done|done|apply py_sort_perm|done]|].
    destruct (sort_by_dfs_weight_spec (ps_tree s) G' order q1) as (l & -> & _ & Hl); [apply HI'|done|].
    do 4 eexists. split; [done|]. split; [done|]. exists G', q1. split_and!; [done|done|done| |done].
    apply (listed_perm (dom G')); [|done]. intros r1 Hr1.
    apply list_elem_of_lookup in Hr1 as [i Hi].
    destruct (Forall2_lookup_r _ _ _ _ _ Hall Hi) as (r & _ & _ & [(n & Hn & Hg) _ _]).
    exists n. split; [apply elem_of_dom; eauto|done].
  - apply Hplain, sort_by_longest_output_perm.
  - by apply Hplain.
  - apply Hplain. destruct running; [apply sort_by_routing_key_perm|done].
Qed.
End matches.
