(* ===== verification/PrefillAdder.v ===== *)
(** [PrefillAdder] of managers/schedule_policy.py: which waiting requests join the
    next prefill batch.

    The budget counts the slots that are free or evictable in the tree cache,
    less what the running and the admitted requests may still need.  The ratio of
    new tokens is an exact rational ([rem_total_token_offset] is a float in the
    code; rounding is not modelled).  Modelled for the plain radix cache: the
    branches for sliding-window pools ([is_hybrid_swa]), for caches with mamba
    states and for host load-back belong to other cache classes; loading back from
    a plain cache raises, as in [BasePrefixCache]. *)
From S2P Require Import Prelude PySort RadixKey TreeNode EvictPolicy RadixCache ReqPool ReqCache MemCommon PrefillDelayer SchedReq.
From Stdlib Require Import QArith Lqa.
From stdpp Require Import options.
Local Open Scope Z_scope.

Definition IGNORE_EOS_RESERVE_TOKENS : Z := 1.

Inductive AddReqResult := CONTINUE | NO_TOKEN | OTHER.

#[global] Instance AddReqResult_eq_dec : EqDecision AddReqResult.
Proof. solve_decision. Defined.

(** [DllmConfig], as far as it is used. *)
Record DllmConfig := MkDllm { dllm_block_size : Z; dllm_max_running_requests : Z }.

Record PrefillAdder := MkAdder {
  ad_page_size : Z;
  new_token_ratio : Q;
  running_reqs : list SReq;
  rem_input_tokens : Z;
  rem_chunk_tokens : option Z;
  dllm_config : option DllmConfig;
  rem_dllm_tokens : Z;
  rem_total_token_offset : Q;
  cur_rem_token_offset : Z;
  req_states : option (list (Q * Z));
  can_run_list : list SReq;
  preempt_list : list SReq;
  new_chunked_req : option SReq;
  log_hit_tokens : Z;
  log_input_tokens : Z;
  preemption_threshold : Z;
  cp_enabled : bool;
  ad_max_prefill_bs : Z;
  ad_max_running_requests : Z;
  prefill_max_requests : option Z;
  delayer_pass : option SinglePass;
  ad_waiting_queue_len : Z;
}.

(** Updates of the fields that change. *)
Definition set_budget (ri : Z) (rc : option Z) (rd : Z) (rt : Q) (cr : Z) (lh li : Z) (a : PrefillAdder)
    : PrefillAdder :=
  MkAdder (ad_page_size a) (new_token_ratio a) (running_reqs a) ri rc (dllm_config a) rd rt cr
    (req_states a) (can_run_list a) (preempt_list a) (new_chunked_req a) lh li
    (preemption_threshold a) (cp_enabled a) (ad_max_prefill_bs a) (ad_max_running_requests a)
    (prefill_max_requests a) (delayer_pass a) (ad_waiting_queue_len a).
Definition set_lists (run : list SReq) (can : list SReq) (pre : list SReq) (chunked : option SReq)
    (states : option (list (Q * Z))) (a : PrefillAdder) : PrefillAdder :=
  MkAdder (ad_page_size a) (new_token_ratio a) run (rem_input_tokens a) (rem_chunk_tokens a)
    (dllm_config a) (rem_dllm_tokens a) (rem_total_token_offset a) (cur_rem_token_offset a)
    states can pre chunked (log_hit_tokens a) (log_input_tokens a)
    (preemption_threshold a) (cp_enabled a) (ad_max_prefill_bs a) (ad_max_running_requests a)
    (prefill_max_requests a) (delayer_pass a) (ad_waiting_queue_len a).
Definition set_pass (e : option SinglePass) (a : PrefillAdder) : PrefillAdder :=
  MkAdder (ad_page_size a) (new_token_ratio a) (running_reqs a) (rem_input_tokens a)
    (rem_chunk_tokens a) (dllm_config a) (rem_dllm_tokens a) (rem_total_token_offset a)
    (cur_rem_token_offset a) (req_states a) (can_run_list a) (preempt_list a) (new_chunked_req a)
    (log_hit_tokens a) (log_input_tokens a)
    (preemption_threshold a) (cp_enabled a) (ad_max_prefill_bs a) (ad_max_running_requests a)
    (prefill_max_requests a) e (ad_waiting_queue_len a).

Definition add_can_run (r : SReq) (a : PrefillAdder) : PrefillAdder :=
  set_lists (running_reqs a) (can_run_list a ++ [r]) (preempt_list a) (new_chunked_req a) (req_states a) a.
Definition set_new_chunked (r : SReq) (a : PrefillAdder) : PrefillAdder :=
  set_lists (running_reqs a) (can_run_list a) (preempt_list a) (Some r) (req_states a) a.
Definition set_req_states (l : list (Q * Z)) (a : PrefillAdder) : PrefillAdder :=
  set_lists (running_reqs a) (can_run_list a) (preempt_list a) (new_chunked_req a) (Some l) a.

(** The clip is read from the environment at start-up. *)
Section adder.
Context (CLIP_MAX_NEW_TOKENS : Z).

(** [_get_running_request_total_token_offset] *)
Definition running_offset (ratio : Q) (r : SReq) : Q :=
  (inject_Z (Z.min (max_new_tokens r - Z.of_nat (length (output_ids (sr_req r)))) CLIP_MAX_NEW_TOKENS)
   * ratio)%Q.

Definition qsum (l : list Q) : Q := foldr Qplus 0%Q l.

(** [__init__] *)
Definition init_adder (page_size : Z) (running_batch : list SReq) (ratio : Q) (rem_input : Z)
    (rem_chunk : option Z) (num_mixed_decode_tokens threshold max_prefill_bs max_running : Z)
    (prefill_max : option Z) (delayer : option SinglePass) (dllm : option DllmConfig)
    (cp : bool) (waiting_len : Z) : PrefillAdder :=
  MkAdder page_size ratio running_batch (rem_input - num_mixed_decode_tokens)
    ((λ c, c - num_mixed_decode_tokens) <$> rem_chunk) dllm
    (match dllm with Some d => dllm_max_running_requests d * dllm_block_size d | None => 0 end)
    (inject_Z num_mixed_decode_tokens + qsum (running_offset ratio <$> running_batch))%Q
    num_mixed_decode_tokens None [] [] None 0 0 threshold cp max_prefill_bs max_running prefill_max
    delayer waiting_len.

(** [ceil_paged_tokens]: [-(-tokens // page_size) * page_size]. *)
Definition ceil_paged_tokens (page_size tokens : Z) : Z := - ((- tokens) / page_size) * page_size.

(** [_update_prefill_budget] *)
Definition update_prefill_budget (prefix_len extend_input_len max_new : Z) (a : PrefillAdder)
    : PrefillAdder :=
  let extend_input_len := ceil_paged_tokens (ad_page_size a) extend_input_len in
  let page_overhead := ad_page_size a in
  set_budget (rem_input_tokens a - extend_input_len)
    (match dllm_config a with
     | Some _ => rem_chunk_tokens a
     | None => (λ c, c - extend_input_len) <$> rem_chunk_tokens a
     end)
    (match dllm_config a with
     | Some _ => rem_dllm_tokens a - extend_input_len
     | None => rem_dllm_tokens a
     end)
    (rem_total_token_offset a + inject_Z (extend_input_len + max_new + page_overhead))%Q
    (cur_rem_token_offset a + (extend_input_len + page_overhead))
    (log_hit_tokens a + prefix_len) (log_input_tokens a + extend_input_len) a.

(** [add_req_state]: the estimate for one request, if it still has tokens to
    generate. *)
Definition req_state (ratio : Q) (r : SReq) : option (Q * Z) :=
  let new_token_ratio := if ignore_eos r then 1%Q else ratio in
  let tokens_left :=
    (inject_Z (max_new_tokens r) * new_token_ratio
     - inject_Z (Z.of_nat (length (output_ids (sr_req r)))))%Q in
  let tokens_occupied := Z.of_nat (seqlen (sr_req r)) in
  if Qle_bool tokens_left 0 then None else Some (tokens_left, tokens_occupied).

(** The index the insertion loop stops at: the first state with at least as many
    tokens left, the last index if there is none. *)
Fixpoint insert_index (tokens_left : Q) (l : list (Q * Z)) : nat :=
  match l with
  | [] => 0
  | s :: l => if Qle_bool tokens_left s.1 then 0
              else match l with [] => 0 | _ => S (insert_index tokens_left l) end
  end%nat.

Definition insert_state (s : Q * Z) (l : list (Q * Z)) : list (Q * Z) :=
  let i := insert_index s.1 l in take i l ++ s :: drop i l.

(** [self.req_states.sort(key=lambda x: x[0])], a stable sort. *)
Definition sort_states : list (Q * Z) → list (Q * Z) := py_sort (λ s t, Qle_bool s.1 t.1).

(** The simulation of [add_one_req_ignore_eos]: requests end in the order of
    their remaining tokens; the pool must never run out on the way. *)
Fixpoint states_fit (cur_rem_tokens tokens_freed : Z) (l : list (Q * Z)) : bool :=
  match l with
  | [] => true
  | (tokens_left, tokens_occupied) :: rest =>
      let bs := Z.of_nat (length l) in
      let min_free_tokens :=
        (inject_Z (cur_rem_tokens + tokens_freed) - tokens_left * inject_Z bs)%Q in
      if Qle_bool min_free_tokens (inject_Z (IGNORE_EOS_RESERVE_TOKENS * bs)) then false
      else states_fit cur_rem_tokens (tokens_freed + tokens_occupied) rest
  end.

(** ** Operations on the adder and the cache *)
Context `{Env} {A : Type} `{KVAllocator A}.

Record AState := MkAState { as_adder : PrefillAdder; as_world : World A }.
Abbreviation M := (ST AState).

Definition get_adder : M PrefillAdder := st_gets as_adder.
Definition upd_adder (f : PrefillAdder → PrefillAdder) : M unit :=
  st_modify (λ s, MkAState (f (as_adder s)) (as_world s)).
Definition on_world {B} (m : ST (World A) B) : M B := λ s,
  match m (as_world s) with
  | Ok (b, w) => Ok (b, MkAState (as_adder s) w)
  | Raise e => Raise e
  | Running => Running
  end.

(** [available_size() + evictable_size()] *)
Definition available_and_evictable (s : AState) : Z :=
  kv_available_size (allocator (w_cache (as_world s))) + evictable_size (w_cache (as_world s)).
Definition rem_total_tokens (s : AState) : Q :=
  (inject_Z (available_and_evictable s) - rem_total_token_offset (as_adder s))%Q.
Definition cur_rem_tokens (s : AState) : Z :=
  available_and_evictable s - cur_rem_token_offset (as_adder s).

Definition budget_state (s : AState) : AddReqResult :=
  let a := as_adder s in
  if Qle_bool (rem_total_tokens s) 0 || bool_decide (cur_rem_tokens s <= 0) then NO_TOKEN
  else if bool_decide (rem_input_tokens a <= 0) then OTHER
  else match dllm_config a with
       | Some _ => if bool_decide (rem_dllm_tokens a <= 0) then OTHER else CONTINUE
       | None => match rem_chunk_tokens a with
                 | Some c => if bool_decide (c <= 0) then OTHER else CONTINUE
                 | None => CONTINUE
                 end
       end.

(** [_get_dllm_remain_tokens] *)
Definition get_dllm_remain_tokens (d : DllmConfig) (s : AState) : Z :=
  let rem := Z.min (Z.min (rem_dllm_tokens (as_adder s)) (dllm_block_size d)) (q_int (rem_total_tokens s)) in
  if bool_decide (rem <= 0) then rem_dllm_tokens (as_adder s) else rem.

(** [_add_dllm_req]; returns the request as it was added. *)
Definition add_dllm_req (d : DllmConfig) (req : SReq) (prefix_len : Z) : M SReq :=
  a ← get_adder;
  let trunc_len :=
    Z.min (rem_dllm_tokens a) (dllm_block_size d) / ad_page_size a * ad_page_size a in
  let req := truncate_fill_ids (prefix_len + trunc_len)
               (set_extend trunc_len (extend_logprob_start_len req) req) in
  _ ← upd_adder (add_can_run req);
  _ ← upd_adder (update_prefill_budget prefix_len trunc_len 0);
  mret req.

(** [tree_cache.inc_lock_ref(node)] and [dec_lock_ref]: without a node only a
    disabled cache accepts the call. *)
Definition lock_call (f : nat → ST (RadixCache A) Z) (node : option nat) : M Z :=
  on_world (in_cache (
    cf ← st_gets cfg;
    match node with
    | Some n => f n
    | None => if disable cf then mret 0 else st_raise AttributeError
    end)).

(** [add_dllm_staging_req] *)
Definition add_dllm_staging_req (req : SReq) : M (AddReqResult * SReq) :=
  a ← get_adder;
  match dllm_config a with
  | None => st_raise AssertionError
  | Some d =>
      rem ← st_gets (get_dllm_remain_tokens d);
      if bool_decide (rem <= 0) then mret (NO_TOKEN, req)
      else
        let truncated := bool_decide (rem < extend_input_len req) in
        let req := set_extend (Z.min (extend_input_len req) rem) (extend_logprob_start_len req) req in
        let req := truncate_fill_ids
          (Z.of_nat (length (prefix_indices (sr_req req))) + extend_input_len req) req in
        _ ← upd_adder (add_can_run req);
        let max_new := if truncated then 0 else Z.min (max_new_tokens req) CLIP_MAX_NEW_TOKENS in
        _ ← upd_adder (update_prefill_budget 0 (extend_input_len req) max_new);
        rem ← st_gets (get_dllm_remain_tokens d);
        mret (if bool_decide (rem <= 0) then NO_TOKEN else CONTINUE, req)
  end.

(** [add_chunked_req]: the request that was cut in the last pass goes first; the
    result is [Some] if it is cut again. *)
Definition add_chunked_req (req : SReq) : M (option SReq) :=
  a ← get_adder;
  rem ← (match dllm_config a with
         | Some d => st_gets (get_dllm_remain_tokens d)
         | None =>
             chunk ← st_lift (unwrap TypeError (rem_chunk_tokens a));
             rem ← st_gets (λ s, Z.min chunk (q_int (rem_total_tokens s)));
             mret (if bool_decide (rem <= 0) then chunk else rem)
         end);
  let truncated := bool_decide (rem < extend_input_len req) in
  let req := set_extend_input_len (Z.min (extend_input_len req) rem) req in
  let req := truncate_fill_ids
    (Z.of_nat (length (prefix_indices (sr_req req))) + extend_input_len req) req in
  _ ← upd_adder (add_can_run req);
  _ ← upd_adder (update_prefill_budget 0 (extend_input_len req)
        (if truncated then 0 else Z.min (max_new_tokens req) CLIP_MAX_NEW_TOKENS));
  mret (if truncated then Some req else None).

(** The prefill delayer of the pass; [now] is the clock and [gather] the
    collective. *)
Context (now : Q) (gather : RankInfo → list RankInfo).

Definition ask_delayer (args : NegotiateArgs) : M bool :=
  a ← get_adder;
  match delayer_pass a with
  | None => mret true
  | Some e =>
      let '(allow, e) := negotiate_should_allow_prefill now gather args e in
      _ ← upd_adder (set_pass (Some e));
      mret allow
  end.

(** [add_one_req_ignore_eos] *)
Definition add_one_req_ignore_eos (req : SReq) : M (AddReqResult * SReq) :=
  a ← get_adder;
  let paged_input := ceil_paged_tokens (ad_page_size a) (extend_input_len req) in
  cur ← st_gets cur_rem_tokens;
  total ← st_gets rem_total_tokens;
  if bool_decide (cur < paged_input) || negb (Qle_bool (inject_Z paged_input) total) then
    mret (NO_TOKEN, req)
  else
    let states :=
      match req_states a with
      | None => sort_states (omap (req_state (new_token_ratio a))
                               (req :: running_reqs a ++ can_run_list a))
      | Some l => match req_state (new_token_ratio a) req with
                  | Some s => insert_state s l
                  | None => l
                  end
      end in
    _ ← upd_adder (set_req_states states);
    if negb (states_fit (cur - paged_input) 0 states) then mret (NO_TOKEN, req)
    else
      allow ← ask_delayer (MkArgs true 0%Q 0 0 0 0);
      if negb allow then mret (OTHER, req)
      else
        match dllm_config a with
        | Some d =>
            if bool_decide (rem_dllm_tokens a <= 0) then mret (OTHER, req)
            else
              req ← add_dllm_req d req 0;
              r ← st_gets budget_state;
              mret (r, req)
        | None =>
            let whole := match rem_chunk_tokens a with
                         | None => true
                         | Some c => bool_decide (extend_input_len req <= c)
                         end in
            if whole then
              _ ← upd_adder (add_can_run req);
              _ ← upd_adder (update_prefill_budget 0 (extend_input_len req)
                               (Z.min (max_new_tokens req) CLIP_MAX_NEW_TOKENS));
              r ← st_gets budget_state;
              mret (r, req)
            else
              let trunc_len := default 0 (rem_chunk_tokens a) in
              if bool_decide (trunc_len <= 0) then mret (OTHER, req)
              else
                let req := truncate_fill_ids trunc_len (set_extend_input_len trunc_len req) in
                _ ← upd_adder (add_can_run req);
                _ ← upd_adder (set_new_chunked req);
                _ ← upd_adder (update_prefill_budget 0 trunc_len 0);
                r ← st_gets budget_state;
                mret (r, req)
        end.

(** The chunk length of [add_one_req]: whole pages, aligned as asked, so that
    prefix and chunk end on a page; [None] if nothing is left. *)
Definition chunk_length (ps chunk prefix_len : Z) (truncation_align_size : option Z) : option Z :=
  let trunc_len := chunk / ps * ps in
  if bool_decide (trunc_len <= 0) then None
  else
    let aligned :=
      match truncation_align_size with
      | Some al => if bool_decide (trunc_len < al) then None else Some (al * (trunc_len / al))
      | None => Some trunc_len
      end in
    match aligned with
    | None => None
    | Some trunc_len =>
        let now_input_len := (trunc_len + prefix_len) / ps * ps in
        let trunc_len := now_input_len - prefix_len in
        if bool_decide (trunc_len <= 0) then None else Some trunc_len
    end.

(** The body of [with self._lock_node(req.last_node)]: [Some] is the request as
    it was added, [None] an early return with the result beside it. *)
Definition locked_body (req : SReq) (total_tokens : Z) (truncation_align_size : option Z)
    : M (option AddReqResult * SReq) :=
  total ← st_gets rem_total_tokens;
  if Qle_bool total (inject_Z total_tokens) then mret (Some NO_TOKEN, req)
  else if bool_decide (0 < host_hit_length req) then st_raise NotImplementedError
  else
    a ← get_adder;
    let ps := ad_page_size a in
    let prefix_len := Z.of_nat (length (prefix_indices (sr_req req))) in
    let input_tokens := ceil_paged_tokens ps (extend_input_len req) in
    if bool_decide (rem_input_tokens a <= input_tokens) && bool_decide (can_run_list a ≠ [])
    then mret (Some OTHER, req)
    else
      match dllm_config a with
      | Some d =>
          if bool_decide (rem_dllm_tokens a <= 0) then mret (Some OTHER, req)
          else
            match truncation_align_size with
            | Some _ => st_raise AssertionError
            | None =>
                req ← add_dllm_req d req prefix_len;
                _ ← lock_call inc_lock_ref (last_node (sr_req req));
                mret (None, req)
            end
      | None =>
          let whole := match rem_chunk_tokens a with
                       | None => true
                       | Some c => bool_decide (input_tokens <= c)
                       end in
          if whole then
            _ ← upd_adder (add_can_run req);
            _ ← lock_call inc_lock_ref (last_node (sr_req req));
            _ ← upd_adder (update_prefill_budget prefix_len input_tokens
                             (Z.min (max_new_tokens req) CLIP_MAX_NEW_TOKENS));
            mret (None, req)
          else
            match chunk_length ps (default 0 (rem_chunk_tokens a)) prefix_len truncation_align_size with
            | None => mret (Some OTHER, req)
            | Some trunc_len =>
                let req := truncate_fill_ids (prefix_len + trunc_len) (set_extend_input_len trunc_len req) in
                _ ← upd_adder (add_can_run req);
                _ ← upd_adder (set_new_chunked req);
                _ ← lock_call inc_lock_ref (last_node (sr_req req));
                _ ← upd_adder (update_prefill_budget prefix_len trunc_len 0);
                mret (None, req)
            end
      end.

(** [add_one_req] *)
Definition add_one_req (req : SReq) (truncation_align_size : option Z) : M (AddReqResult * SReq) :=
  a ← get_adder;
  allow ← ask_delayer (MkArgs true 0%Q (Z.of_nat (length (running_reqs a))) (ad_max_prefill_bs a)
                         (ad_max_running_requests a) (ad_waiting_queue_len a));
  if negb allow then mret (OTHER, req)
  else if cp_enabled a && bool_decide (can_run_list a ≠ []) then mret (OTHER, req)
  else if match prefill_max_requests a with
          | Some x => bool_decide (x <= Z.of_nat (length (can_run_list a)))
          | None => false
          end then mret (OTHER, req)
  else
    dis ← st_gets (λ s, disable (cfg (w_cache (as_world s))));
    if ignore_eos req && dis then add_one_req_ignore_eos req
    else
      let max_new := Z.min (Z.max (max_new_tokens req - Z.of_nat (length (output_ids (sr_req req)))) 0)
                       CLIP_MAX_NEW_TOKENS in
      let total_tokens := extend_input_len req + max_new + ad_page_size a in
      let real_input_tokens :=
        ceil_paged_tokens (ad_page_size a) (extend_input_len req - host_hit_length req) in
      total ← st_gets rem_total_tokens;
      if Qle_bool total (inject_Z total_tokens) then mret (NO_TOKEN, req)
      else if bool_decide (rem_input_tokens a <= real_input_tokens) && bool_decide (can_run_list a ≠ [])
      then mret (OTHER, req)
      else
        let node := last_node (sr_req req) in
        _ ← lock_call inc_lock_ref node;
        r ← locked_body req total_tokens truncation_align_size;
        _ ← lock_call dec_lock_ref node;
        let '(early, req) := r in
        match early with
        | Some res => mret (res, req)
        | None => res ← st_gets budget_state; mret (res, req)
        end.

(** ** Preemption *)

(** [reset_for_retract] of the KV bookkeeping: a request with input embeddings
    starts over. *)
Definition reset_for_retract (r : SReq) : SReq :=
  let q := sr_req r in
  set_extend 0 0 (set_req
    (MkReq (origin_input_ids q) (if has_embeds r then [] else output_ids q) (fill_ids q) (req_extra_key q)
       (req_priority q) (req_pool_idx q) [] None 0 0 0 false false 0 (reasoning_tokens q)
       (skip_radix_cache_insert q)) r).

(** [ScheduleBatch.release_req] without hisparse and KV offloading; [steps] is
    SGLANG_RETRACT_DECODE_STEPS. *)
Definition release_req (page_size : nat) (spec strip : bool) (steps : Z) (req : SReq) (remaining : Z)
    : ST (World A) SReq :=
  q ← release_kv_cache page_size spec strip (sr_req req) false;
  _ ← in_cache (evict_from_tree_cache (remaining * steps));
  mret (reset_for_retract (set_req q req)).

(** Running requests in the order in which they may be preempted: least important
    first, and among these the latest. *)
Definition preempt_le (sign : Z) (x y : SReq) : bool :=
  let kx := priority x * - sign in
  let ky := priority y * - sign in
  bool_decide (kx < ky)
  || bool_decide (kx = ky) && bool_decide (- wait_queue_entry_time x <= - wait_queue_entry_time y).

(** The loop that collects victims; the second component is what is still
    missing. *)
Fixpoint collect_preemptible (sign threshold : Z) (ratio : Q) (req : SReq) (l : list SReq) (missing : Q)
    : list SReq * Q :=
  match l with
  | [] => ([], missing)
  | r :: l =>
      if bool_decide (threshold < (priority req - priority r) * - sign) then
        let missing := (missing - running_offset ratio r)%Q in
        if Qle_bool missing 0 then ([r], missing)
        else let '(rest, m) := collect_preemptible sign threshold ratio req l missing in (r :: rest, m)
      else ([], missing)
  end.

(** The victims [preempt_to_schedule] settles on, [None] if they do not suffice. *)
Definition choose_preemptible (low_first : bool) (req : SReq) (s : AState) : option (list SReq) :=
  let a := as_adder s in
  let sign := if low_first then 1 else -1 in
  let valid := List.filter (λ r, negb (existsb (same_req r) (preempt_list a)) && negb (finished r))
                 (running_reqs a) in
  let missing := (inject_Z (extend_input_len req + Z.min (max_new_tokens req) CLIP_MAX_NEW_TOKENS)
                  - rem_total_tokens s)%Q in
  let '(victims, missing) :=
    collect_preemptible sign (preemption_threshold a) (new_token_ratio a) req
      (py_sort (preempt_le sign) valid) missing in
  match victims with
  | [] => None
  | _ => if Qle_bool missing 0 then Some victims else None
  end.

(** The loop that releases the victims and keeps the others. *)
Fixpoint release_victims (page_size : nat) (spec strip : bool) (steps : Z) (victims : list SReq)
    (total : Z) (released : Z) (l : list SReq) : M (list SReq * list SReq) :=
  match l with
  | [] => mret ([], [])
  | r :: l =>
      if existsb (same_req r) victims then
        _ ← upd_adder (λ a, set_budget (rem_input_tokens a) (rem_chunk_tokens a) (rem_dllm_tokens a)
              (rem_total_token_offset a - running_offset (new_token_ratio a) r)%Q
              (cur_rem_token_offset a) (log_hit_tokens a) (log_input_tokens a) a);
        r ← on_world (release_req page_size spec strip steps r (total - (released + 1)));
        rest ← release_victims page_size spec strip steps victims total (released + 1) l;
        mret (r :: rest.1, rest.2)
      else
        rest ← release_victims page_size spec strip steps victims total released l;
        mret (rest.1, r :: rest.2)
  end.

(** [preempt_to_schedule]; [set_order] is the order in which [preempt_list.extend]
    walks the set of victims. *)
Definition preempt_to_schedule (set_order : list SReq → list SReq) (page_size : nat)
    (spec strip low_first : bool) (steps : Z) (req : SReq) : M bool :=
  v ← st_gets (choose_preemptible low_first req);
  match v with
  | None => mret false
  | Some victims =>
      a ← get_adder;
      r ← release_victims page_size spec strip steps victims (Z.of_nat (length (running_reqs a))) 0
            (running_reqs a);
      _ ← upd_adder (λ a, set_lists r.2 (can_run_list a) (preempt_list a ++ set_order r.1) (new_chunked_req a)
                            (req_states a) a);
      mret true
  end.
End adder.
