(* ===== verification/AdderInv.v ===== *)
(** Admission is safe: whatever [PrefillAdder.add_one_req] admits, the slots the
    batch needs, with one page of slack per request, are free or evictable.  The
    locks it takes on the way leave the cache as the admitted requests need it. *)
From S2P Require Import Prelude PySort RadixKey TreeNode EvictPolicy RadixCache RadixInv RadixSplit RadixLeaf RadixLock RadixSpec RadixOps RadixLockOps ReqPool ReqCache MemCommon PrefillDelayer SchedReq PrefillAdder.
From Stdlib Require Import QArith Lqa.
From Stdlib Require Import QArith Lqa Sorted.
From stdpp Require Import options.

Local Open Scope Z_scope.

(** ** Arithmetic *)

Lemma ceil_paged_ge ps t : 0 < ps → t <= ceil_paged_tokens ps t < t + ps.
Proof.
  intros Hps. unfold ceil_paged_tokens. pose proof (Z.div_mod (- t) ps ltac:(lia)).
  pose proof (Z.mod_pos_bound (- t) ps Hps). lia.
Qed.

Lemma ceil_paged_mod ps t : 0 < ps → ceil_paged_tokens ps t `mod` ps = 0.
Proof. intros Hps. unfold ceil_paged_tokens. apply Z.mod_mul. lia. Qed.

Lemma floor_mul_le x y : 0 < y → x / y * y <= x.
Proof. intros Hy. pose proof (Z.mul_div_le x y Hy). lia. Qed.

(** A chunk is shorter than what was asked for. *)
Lemma chunk_length_lt ps chunk prefix al extend n :
  0 < ps → chunk < ceil_paged_tokens ps extend → (∀ k, al = Some k → 0 < k) →
  chunk_length ps chunk prefix al = Some n → 0 < n < extend.
Proof.
  intros Hps Hlt Hal. unfold chunk_length. case_bool_decide as Hpos; [done|].
  set (t := chunk / ps * ps) in *.
  assert (t < extend) as Ht.
  { pose proof (floor_mul_le chunk ps Hps). pose proof (ceil_paged_ge ps extend Hps) as Hc.
    pose proof (ceil_paged_mod ps extend Hps) as Hm. unfold t in *.
    pose proof (Z.div_mod (ceil_paged_tokens ps extend) ps ltac:(lia)) as Hd. rewrite Hm in Hd.
    assert (chunk / ps < ceil_paged_tokens ps extend / ps) by (apply Z.div_lt_upper_bound; lia). nia. }
  assert (∀ u v, u <= t → (if bool_decide ((u + prefix) / ps * ps - prefix <= 0) then None
    else Some ((u + prefix) / ps * ps - prefix)) = Some v → 0 < v < extend) as Hlast.
  { intros u v Hu. case_bool_decide; [done|]. intros [= <-].
    pose proof (floor_mul_le (u + prefix) ps Hps). lia. }
  destruct al as [k|]; [|by apply Hlast]. case_bool_decide; [done|].
  apply Hlast. pose proof (floor_mul_le t k (Hal k eq_refl)). lia.
Qed.

(** What passes the test of the total budget fits. *)
Lemma admit_fits av off (nd t : Z) :
  Qle_bool (inject_Z av - off) (inject_Z t) = false → (inject_Z nd <= off)%Q → nd + t < av.
Proof.
  intros Hq Hnd. apply not_true_iff_false in Hq. rewrite Qle_bool_iff in Hq.
  assert (inject_Z (nd + t) < inject_Z av)%Q as Hlt by (rewrite inject_Z_plus; lra).
  by rewrite <-Zlt_Qlt in Hlt.
Qed.

(** ** The invariant *)

(** Slots for the new tokens of the admitted requests, and a page each. *)
Definition need (ps : Z) (l : list SReq) : Z := foldr (λ r n, extend_input_len r + ps + n) 0 l.

Lemma need_app ps l r : need ps (l ++ [r]) = need ps l + (extend_input_len r + ps).
Proof. induction l as [|x l IH]; simpl; [lia|]. unfold need in *. lia. Qed.

Section admission.
Context (CLIP : Z) (HCLIP : 0 <= CLIP).
Context `{Env} {A : Type} `{KVAllocator A}.
Context (now : Q) (gather : RankInfo → list RankInfo).

Implicit Types (s : @AState A) (G : gmap nat gnode) (L : nat → Z) (a : PrefillAdder).

Definition cache_of s : RadixCache A := w_cache (as_world s).

Record adder_base s G L : Prop := {
  am_inv : Inv (view (cache_of s)) G L;
  am_locks : locks_nonneg L;
  am_on : disable (cfg (cache_of s)) = false;
  am_ps : 0 < ad_page_size (as_adder s);
  am_dllm : dllm_config (as_adder s) = None;
  am_offset : (inject_Z (need (ad_page_size (as_adder s)) (can_run_list (as_adder s)))
               <= rem_total_token_offset (as_adder s))%Q;
}.

(** Between calls the admitted requests fit. *)
Record adder_ok s G L : Prop := {
  am_base : adder_base s G L;
  am_mem : need (ad_page_size (as_adder s)) (can_run_list (as_adder s)) <= available_and_evictable s;
}.

(** A request the scheduler offers: it has been matched against the cache. *)
Record offered G (req : SReq) (n : nat) : Prop := {
  of_node : last_node (sr_req req) = Some n;
  of_live : is_Some (G !! n);
  of_host : host_hit_length req = 0;
  of_new : 0 <= max_new_tokens req;
}.

(** What no call changes. *)
Record adder_kept s s' : Prop := {
  ak_pool : w_pool (as_world s') = w_pool (as_world s);
  ak_page : ad_page_size (as_adder s') = ad_page_size (as_adder s);
  ak_running : running_reqs (as_adder s') = running_reqs (as_adder s);
  ak_preempt : preempt_list (as_adder s') = preempt_list (as_adder s);
  ak_cfg : cfg (cache_of s') = cfg (cache_of s);
  ak_alloc : allocator (cache_of s') = allocator (cache_of s);
}.

#[global] Instance adder_kept_preorder : PreOrder adder_kept.
Proof using. split; [done|]. intros s1 s2 s3 [] []. split; congruence. Qed.

(** What a call may do: nothing but change the pass of the delayer, or admit the
    request and lock its node. *)
Definition added s G L n (req : SReq) (res : AddReqResult) (req' : SReq) s' : Prop :=
  adder_kept s s' ∧ rid req' = rid req
  ∧ ((res ≠ CONTINUE ∧ adder_ok s' G L ∧ can_run_list (as_adder s') = can_run_list (as_adder s))
     ∨ (adder_ok s' G (add_lock L n 1)
        ∧ can_run_list (as_adder s') = can_run_list (as_adder s) ++ [req'])).

(** *** Wrappers *)

Lemma wp_get_adder s Q : Q (as_adder s) s → wp get_adder Q s.
Proof using. done. Qed.
Lemma wp_upd_adder f s (Q : unit → AState → Prop) :
  Q tt (MkAState (f (as_adder s)) (as_world s)) → wp (upd_adder f) Q s.
Proof using. done. Qed.

Lemma wp_lock_call f n s (Q : Z → AState → Prop) :
  wp (f n) (λ d c, Q d (MkAState (as_adder s) (MkWorld c (w_pool (as_world s))))) (cache_of s) →
  wp (lock_call f (Some n)) Q s.
Proof using.
  unfold lock_call, on_world, in_cache, mbind, ST_bind, st_bind, st_gets, wp, cache_of.
  by destruct (f n (w_cache (as_world s))) as [[d c]| |].
Qed.

Lemma wp_ask_delayer args s (Q : bool → AState → Prop) :
  (∀ b e, Q b (MkAState (set_pass e (as_adder s)) (as_world s))) → wp (ask_delayer now gather args) Q s.
Proof using.
  intros HQ. unfold ask_delayer. wp_step. apply wp_get_adder.
  destruct (delayer_pass (as_adder s)) as [e|] eqn:He.
  - destruct (negotiate_should_allow_prefill now gather args e) as [allow e'].
    wp_step. apply wp_upd_adder. wp_step. apply HQ.
  - wp_step. specialize (HQ true None). destruct s as [[] w]. simpl in *. subst. exact HQ.
Qed.

(** *** The body under the lock *)

(** What the body leaves behind when it admits [req']. *)
Record admitted s n (req req' : SReq) s' : Prop := {
  ad_rid : rid req' = rid req;
  ad_run : running_reqs (as_adder s') = running_reqs (as_adder s);
  ad_pre : preempt_list (as_adder s') = preempt_list (as_adder s);
  ad_node : last_node (sr_req req') = Some n;
  ad_list : can_run_list (as_adder s') = can_run_list (as_adder s) ++ [req'];
  ad_psz : ad_page_size (as_adder s') = ad_page_size (as_adder s);
  ad_nodllm : dllm_config (as_adder s') = None;
  ad_off : (inject_Z (need (ad_page_size (as_adder s)) (can_run_list (as_adder s')))
            <= rem_total_token_offset (as_adder s'))%Q;
  ad_fits : need (ad_page_size (as_adder s)) (can_run_list (as_adder s')) <= available_and_evictable s;
  ad_pool : w_pool (as_world s') = w_pool (as_world s);
  ad_lock : ∃ d, inc_lock_ref n (cache_of s) = Ok (d, cache_of s');
}.

(** Recording the request, locking its node, charging the budget. *)
Lemma wp_admit s G L n req req' t m prefix (f : PrefillAdder → PrefillAdder) :
  adder_base s G L → is_Some (G !! n) → rid req' = rid req → last_node (sr_req req') = Some n →
  extend_input_len req' <= ceil_paged_tokens (ad_page_size (as_adder s)) t → 0 <= m →
  need (ad_page_size (as_adder s)) (can_run_list (as_adder s))
    + (extend_input_len req' + ad_page_size (as_adder s)) <= available_and_evictable s →
  (∀ a, ad_page_size (f a) = ad_page_size a ∧ can_run_list (f a) = can_run_list a ++ [req']
        ∧ dllm_config (f a) = dllm_config a ∧ rem_total_token_offset (f a) = rem_total_token_offset a
        ∧ running_reqs (f a) = running_reqs a ∧ preempt_list (f a) = preempt_list a) →
  wp (_ ← lock_call inc_lock_ref (last_node (sr_req req'));
      _ ← upd_adder (update_prefill_budget prefix t m);
      mret (@None AddReqResult, req')) (λ '(early, r) s', early = None ∧ admitted s n req r s')
    (MkAState (f (as_adder s)) (as_world s)).
Proof using.
  intros [HI HL Hon Hps Hd Hoff] Hn Hrid Hnode Hext Hm Hfit Hf. rewrite Hnode. wp_step.
  destruct (Hf (as_adder s)) as (Hf1 & Hf2 & Hf3 & Hf4 & Hf5 & Hf6).
  apply wp_lock_call. change (cache_of (MkAState _ (as_world s))) with (cache_of s).
  destruct (wp_ok _ _ _ (wp_inc_lock_ref (cache_of s) G L n HI Hon Hn)) as (d & c' & E & _).
  eapply wp_intro; [exact E|]. wp_step. apply wp_upd_adder. wp_step. split; [done|].
  split; simpl; [done|by rewrite Hf5|by rewrite Hf6|done|by rewrite Hf2|done|by rewrite Hf3| | |done|by exists d].
  - rewrite Hf2, Hf4, Hf1, need_app, inject_Z_plus.
    assert (inject_Z (extend_input_len req' + ad_page_size (as_adder s))
      <= inject_Z (ceil_paged_tokens (ad_page_size (as_adder s)) t + m + ad_page_size (as_adder s)))%Q
      by (rewrite <-Zle_Qle; lia). lra.
  - rewrite Hf2, need_app. done.
Qed.

(** The budget test is repeated under the first lock, so what is admitted fits
    what stays evictable under it. *)
Lemma wp_locked_body G L req n total_tokens al s :
  offered G req n → (∀ k, al = Some k → 0 < k) →
  extend_input_len req + ad_page_size (as_adder s) <= total_tokens → adder_base s G L →
  wp (locked_body CLIP req total_tokens al)
    (λ '(early, req') s', (∃ res, early = Some res ∧ res ≠ CONTINUE) ∧ req' = req ∧ s' = s ∨ early = None ∧ admitted s n req req' s') s.
Proof using HCLIP.
  intros [Hnode Hn Hhost Hnew] Hal Htot Hok. pose proof Hok as [HI HL Hon Hps Hd Hoff].
  unfold locked_body. wp_steps. destruct (Qle_bool _ _) eqn:Hq; [wp_step; left; naive_solver|].
  pose proof (admit_fits _ _ _ _ Hq Hoff) as Hfit.
  rewrite Hhost, bool_decide_false by lia. wp_step. apply wp_get_adder. cbv zeta.
  destruct (bool_decide _ && bool_decide _); [wp_step; left; naive_solver|]. rewrite Hd.
  set (ps := ad_page_size (as_adder s)) in *. set (it := ceil_paged_tokens ps (extend_input_len req)) in *.
  pose proof (ceil_paged_ge ps (extend_input_len req) Hps) as Hc1. pose proof (ceil_paged_ge ps it Hps) as Hc2.
  destruct (match rem_chunk_tokens (as_adder s) with None => true | Some c => bool_decide (it <= c) end) eqn:Hw.
  - wp_step. apply wp_upd_adder. eapply wp_mono.
    { apply (wp_admit s G L n req req it _ _ (add_can_run req)); [done|done|done|done|etrans; [apply Hc1|apply Hc2]|lia| |done]. unfold ps in *. lia. }
    intros [early r] s' Hr. by right.
  - destruct (rem_chunk_tokens (as_adder s)) as [c|]; [|done]. apply bool_decide_eq_false in Hw.
    simpl default. destruct (chunk_length _ _ _ _) as [tl|] eqn:Hcl; [|wp_step; left; eauto].
    apply (chunk_length_lt _ _ _ _ (extend_input_len req)) in Hcl; [|done|unfold it in *; lia|done].
    set (req' := truncate_fill_ids _ _).
    assert (extend_input_len req' = tl) as He by done.
    pose proof (ceil_paged_ge ps tl Hps).
    wp_step. apply wp_upd_adder. wp_step. apply wp_upd_adder. eapply wp_mono.
    { apply (wp_admit s G L n req req' tl 0 _ (λ a, set_new_chunked req' (add_can_run req' a))); [done|done|done|done|unfold ps in *; lia|lia| |done].
      rewrite He. unfold ps in *. lia. }
    intros [early r] s' Hr. by right.
Qed.

(** *** One request *)

(** Any refusal leaves the state as it was, up to the delayer's pass. *)
Lemma added_refuse s G L n req res e :
  res ≠ CONTINUE → adder_ok s G L → added s G L n req res req (MkAState (set_pass e (as_adder s)) (as_world s)).
Proof using. intros Hres [[] ?]. split; [by split|]. split; [done|]. left. split; [done|]. by split. Qed.

Lemma wp_add_one_req s G L req n al :
  adder_ok s G L → offered G req n → (∀ k, al = Some k → 0 < k) →
  wp (add_one_req CLIP now gather req al) (λ '(res, req') s', added s G L n req res req' s') s.
Proof using HCLIP.
  intros Hok Hoff Hal. pose proof Hok as [[HI HL Hon Hps Hd Ho] Hmem]. pose proof Hoff as [Hnode Hn Hhost Hnew].
  unfold add_one_req. wp_step. apply wp_get_adder. wp_step. apply wp_ask_delayer. intros allow e.
  set (s1 := MkAState (set_pass e (as_adder s)) (as_world s)).
  destruct (negb allow); [wp_step; by apply added_refuse|].
  destruct (cp_enabled _ && _); [wp_step; by apply added_refuse|].
  destruct (match prefill_max_requests _ with Some x => _ | None => false end); [wp_step; by apply added_refuse|].
  wp_step. wp_step. simpl as_world. fold (cache_of s). rewrite Hon, andb_false_r. wp_steps.
  destruct (Qle_bool _ _); [wp_step; by apply added_refuse|].
  destruct (bool_decide _ && _); [wp_step; by apply added_refuse|].
  set (total := _ + _ + ad_page_size _). rewrite Hnode.
  assert (extend_input_len req + ad_page_size (as_adder s) <= total) as Htot by (unfold total; lia).
  clearbody total. wp_step. apply wp_lock_call. change (cache_of s1) with (cache_of s).
  eapply wp_mono; [by apply (wp_inc_dec (cache_of s) G L n)|]. intros d c1 [[HI1 He1 Hev1 _ _ _ _] Hdec].
  set (s2 := MkAState (as_adder s1) (MkWorld c1 (w_pool (as_world s1)))).
  assert (locks_nonneg (add_lock L n 1)) as HL1.
  { intros m. pose proof (HL m). unfold add_lock. case_decide; lia. }
  assert (adder_base s2 G (add_lock L n 1)) as Hb2.
  { split; simpl; try done. unfold cache_of. simpl. by rewrite (ef_cfg _ _ He1). }
  wp_step. eapply wp_mono; [by apply (wp_locked_body G (add_lock L n 1) req n total al s2)|].
  intros [early req'] s' [((res & -> & Hres) & -> & ->)|[-> [Hrid Hrun Hpre Hnode' Hlist Hpsz Hnod Hoff' Hfits Hpool [d' Einc]]]]; wp_step;
    apply wp_lock_call.
  - eapply wp_mono; [exact Hdec|]. intros ? c2 (_ & HI2 & He2 & _ & Hev2 & _). wp_step.
    split; [split; simpl; try done; [apply He2|apply He2]|]. split; [done|]. left. split; [done|]. split; [|done]. split.
    + split; simpl; try done. unfold cache_of. simpl. by rewrite (ef_cfg _ _ He2).
    + unfold available_and_evictable, evictable_size in *. simpl. by rewrite (ef_alloc _ _ He2), Hev2.
  - destruct (wp_ok _ _ _ (wp_inc_dec c1 G (add_lock L n 1) n HI1 HL1 ltac:(by rewrite (ef_cfg _ _ He1)) Hn))
      as (d2 & c2 & E2 & _ & Hdec2).
    change (cache_of s2) with c1 in Einc. rewrite E2 in Einc. injection Einc as _ <-.
    eapply wp_mono; [exact Hdec2|]. intros ? c3 (_ & HI3 & He3 & _ & Hev3 & _). wp_steps.
    split; [split; simpl; try done; unfold cache_of; simpl; rewrite ?(ef_cfg _ _ He3), ?(ef_alloc _ _ He3); apply He1|].
    split; [done|]. right. split; [|done]. split.
    + split; simpl; try done.
      * unfold cache_of. simpl. by rewrite (ef_cfg _ _ He3), (ef_cfg _ _ He1).
      * by rewrite Hpsz.
      * by rewrite Hpsz.
    + unfold available_and_evictable, evictable_size in *. simpl in *.
      rewrite Hpsz, (ef_alloc _ _ He3), Hev3. exact Hfits.
Qed.

(** Matching further requests changes nothing the adder counts. *)
Lemma adder_ok_match s G L G' c' :
  adder_ok s G L → Inv (view c') G' L → frame (cache_of s) c' →
  adder_ok (MkAState (as_adder s) (MkWorld c' (w_pool (as_world s)))) G' L.
Proof using.
  intros [[HI HL Hon Hps Hd Ho] Hmem] HI' Hf. split; [split|]; simpl; try done.
  - unfold cache_of. simpl. by rewrite (fr_cfg _ _ Hf).
  - unfold available_and_evictable, evictable_size in *. simpl.
    fold (cache_of s) in *. by rewrite (fr_alloc _ _ Hf), (fr_ev _ _ Hf).
Qed.
End admission.

(** Which running requests [preempt_to_schedule] gives up: enough of the least
    important ones, and not more than are needed. *)

Local Open Scope Z_scope.

Section preempt.
Context (CLIP : Z) {A : Type} `{KVAllocator A}.

(** What the running requests [l] are estimated to need still. *)
Definition estimate (ratio : Q) (l : list SReq) : Q := qsum (running_offset CLIP ratio <$> l).

Lemma estimate_cons ratio r l : estimate ratio (r :: l) = (running_offset CLIP ratio r + estimate ratio l)%Q.
Proof using. done. Qed.
Lemma estimate_nil ratio : estimate ratio [] = 0%Q.
Proof using. done. Qed.

(** [k] victims are taken from the front of [l]: each is out-prioritised, and every
    shorter selection was not enough. *)
Record collected (sign threshold : Z) (ratio : Q) (req : SReq) (l : list SReq) (missing : Q) (k : nat)
    (victims : list SReq) (left : Q) : Prop := {
  co_take : victims = take k l;
  co_len : (k <= length l)%nat;
  co_left : (left == missing - estimate ratio victims)%Q;
  co_prio : Forall (λ r, threshold < (priority req - priority r) * - sign) victims;
  co_min : ∀ j, (0 < j < k)%nat → (0 < missing - estimate ratio (take j l))%Q;
}.

Lemma collect_preemptible_spec sign threshold ratio req l missing :
  ∃ k, collected sign threshold ratio req l missing k
    (collect_preemptible CLIP sign threshold ratio req l missing).1
    (collect_preemptible CLIP sign threshold ratio req l missing).2.
Proof using.
  revert missing. induction l as [|r l IH]; intros missing; cbn [collect_preemptible].
  { exists 0%nat. split; simpl; [done|lia| |constructor|lia]. rewrite estimate_nil. lra. }
  case_bool_decide as Hp.
  2:{ exists 0%nat. split; simpl; [done|lia| |constructor|lia]. rewrite estimate_nil. lra. }
  set (m1 := (missing - running_offset CLIP ratio r)%Q). destruct (Qle_bool m1 0) eqn:Hq.
  { exists 1%nat. split; cbn [fst snd]; [by rewrite firstn_cons, firstn_O|simpl; lia| |by repeat constructor|lia].
    rewrite estimate_cons, estimate_nil. unfold m1. lra. }
  destruct (IH m1) as (k & Hk). destruct (collect_preemptible _ _ _ _ _ _ _) as [rest m] eqn:E. cbn [fst snd] in *.
  destruct Hk as [Ht Hlen Hl Hpr Hmin]. exists (S k). split; cbn [fst snd].
  - rewrite firstn_cons. by f_equal.
  - simpl. lia.
  - rewrite estimate_cons. unfold m1 in Hl. lra.
  - by constructor.
  - intros [|j] Hj; [lia|]. rewrite firstn_cons, estimate_cons. destruct j as [|j].
    + rewrite firstn_O, estimate_nil. apply not_true_iff_false in Hq. rewrite Qle_bool_iff in Hq. unfold m1 in Hq. lra.
    + specialize (Hmin (S j) ltac:(lia)). unfold m1 in Hmin. lra.
Qed.

(** The order of the candidates. *)
Definition gives_way (sign : Z) (x y : SReq) : Prop :=
  priority y * sign < priority x * sign
  ∨ priority x * sign = priority y * sign ∧ wait_queue_entry_time y <= wait_queue_entry_time x.

Lemma preempt_le_iff sign x y : preempt_le sign x y = true ↔ gives_way sign x y.
Proof using.
  unfold preempt_le, gives_way. rewrite orb_true_iff, andb_true_iff, !bool_decide_eq_true. lia.
Qed.

Lemma sorted_split {X} (R : X → X → Prop) k (l : list X) x y :
  StronglySorted R l → x ∈ take k l → y ∈ drop k l → R x y.
Proof using.
  intros Hs. rewrite <-(take_drop k l) in Hs. induction (take k l) as [|z t IH]; intros Hx Hy.
  { by apply elem_of_nil in Hx. }
  simpl in Hs. apply StronglySorted_inv in Hs as [Hs Hz]. apply elem_of_cons in Hx as [->|Hx].
  - rewrite Forall_forall in Hz. apply Hz. apply elem_of_app. by right.
  - by apply IH.
Qed.

(** The requests that may be preempted at all. *)
Definition preemptible (s : @AState A) (r : SReq) : Prop :=
  r ∈ running_reqs (as_adder s) ∧ existsb (same_req r) (preempt_list (as_adder s)) = false ∧ finished r = false.

Lemma choose_preemptible_spec low_first req s victims :
  choose_preemptible CLIP low_first req s = Some victims →
  let a := as_adder s in
  let sign := if low_first then 1 else -1 in
  let wanted := inject_Z (extend_input_len req + Z.min (max_new_tokens req) CLIP) in
  victims ≠ []
  ∧ Forall (λ r, preemptible s r ∧ preemption_threshold a < (priority req - priority r) * - sign) victims
  ∧ (∀ v r, v ∈ victims → preemptible s r → r ∈ victims ∨ gives_way sign v r)
  ∧ (wanted <= rem_total_tokens s + estimate (new_token_ratio a) victims)%Q
  ∧ (∀ j, (0 < j < length victims)%nat →
       rem_total_tokens s + estimate (new_token_ratio a) (take j victims) < wanted)%Q.
Proof using.
  unfold choose_preemptible. cbv zeta. set (a := as_adder s). set (sign := if low_first then 1 else -1).
  set (valid := List.filter _ _). set (missing := (_ - rem_total_tokens s)%Q).
  pose proof (collect_preemptible_spec sign (preemption_threshold a) (new_token_ratio a) req
    (py_sort (preempt_le sign) valid) missing) as [k Hk].
  destruct (collect_preemptible _ _ _ _ _ _ _) as [vs m]. cbn [fst snd] in Hk.
  destruct Hk as [Ht Hlen Hl Hp Hmin].
  destruct vs as [|v0 vs']; [done|]. destruct (Qle_bool m 0) eqn:Hq; [|done]. intros [= <-].
  assert (∀ r, r ∈ py_sort (preempt_le sign) valid ↔ preemptible s r) as Hval.
  { intros r. rewrite (py_sort_perm (preempt_le sign) valid), list_elem_of_In. unfold valid.
    rewrite filter_In, andb_true_iff, !negb_true_iff, <-list_elem_of_In. done. }
  assert (StronglySorted (λ x y, preempt_le sign x y) (py_sort (preempt_le sign) valid)) as Hs.
  { apply py_sort_sorted; intros x y; [|intros z]; rewrite !preempt_le_iff; unfold gives_way; lia. }
  split_and!; [done| | | |].
  - apply Forall_forall. intros r Hr. rewrite Forall_forall in Hp. split; [|by apply Hp].
    apply Hval. rewrite Ht in Hr. rewrite <-(take_drop k). apply elem_of_app. by left.
  - intros v r Hv Hr%Hval. rewrite <-(take_drop k) in Hr. apply elem_of_app in Hr as [Hr|Hr]; [left; by rewrite Ht|right].
    rewrite Ht in Hv. apply preempt_le_iff, Is_true_true. by apply (sorted_split _ k _ _ _ Hs).
  - apply Qle_bool_iff in Hq. rewrite Hl in Hq. unfold missing in Hq. lra.
  - intros j Hj. specialize (Hmin j). rewrite Ht in Hj |- *. rewrite length_take in Hj.
    rewrite take_take, Nat.min_l by lia. specialize (Hmin ltac:(lia)). unfold missing in Hmin. lra.
Qed.
End preempt.
