(* ===== verification/PrefillPass.v ===== *)
(** One prefill pass of the scheduler: [_get_new_batch_prefill_raw] of
    managers/scheduler.py, from the waiting queue to the requests of the new batch.

    Modelled for a scheduler without LoRA, hierarchical cache, disaggregation,
    grammar queue, dynamic chunking and a limit on queued requests, up to the
    creation of the [ScheduleBatch] (tensors and mixing with the running batch are not
    part of the model), and for the token allocator what happens between two passes. *)
From S2P Require Import Prelude PySort RadixKey TreeNode EvictPolicy RadixCache Allocator ReqPool ReqCache MemCommon BatchAlloc.
From S2P Require Import PrefillDelayer SchedReq ReqMatch SchedulePolicy PrefillAdder.
From Stdlib Require Import QArith.
From stdpp Require Import options.
Local Open Scope Z_scope.

(** What does not change between passes; [sc_retract_steps] is
    SGLANG_RETRACT_DECODE_STEPS, [sc_cp] says that the context-parallel mode of
    prefill is on. *)
Record SchedConfig := MkSchedCfg {
  sc_page_size : nat;
  pp_max_micro_batch_size : Z;
  enable_priority_preemption : bool;
  schedule_low_priority_values_first : bool;
  sc_threshold : Z;
  max_prefill_tokens : Z;
  chunked_prefill_size : option Z;
  is_mixed_chunk : bool;
  sc_max_running_requests : Z;
  sc_prefill_max_requests : option Z;
  sc_dllm : option DllmConfig;
  sc_cp : bool;
  truncation_align_size : option Z;
  sc_spec : bool;
  sc_strip : bool;
  sc_retract_steps : Z;
}.

Section pass.
Context (CLIP : Z) `{Env} {A : Type} `{KVAllocator A}.
Context (now : Q) (gather : RankInfo → list RankInfo).
Context (order : gmap ckey nat → list nat) (shuffle : list SReq → list SReq) (torch_empty : nat → list Z).
Context (force_miss : bool) (CHECK DEPRIORITIZE : Z).
Context (clock : nat → Z) (set_order : list SReq → list SReq) (sc : SchedConfig).

(** The scheduler's state; [sc_reqs] and [batch_is_full] belong to the running
    batch. *)
Record Scheduler := MkSched {
  waiting_queue : list SReq;
  sc_reqs : list SReq;
  batch_is_full : bool;
  chunked_req : option SReq;
  chunked_req_scheduled_last_iter : bool;
  sc_ratio : Q;
  sc_max_prefill_bs : Z;
  sc_policy : SchedulePolicy;
  sc_world : World A;
}.

(** [get_num_allocatable_reqs] *)
Definition get_num_allocatable_reqs (running_bs : Z) (w : World A) : Z :=
  Z.min (pp_max_micro_batch_size sc - running_bs) (Z.of_nat (rp_available_size (w_pool w))).

(** The loop over the waiting queue: [batch_is_full] at its end, and the queue with
    its requests as they are then. *)
Fixpoint prefill_loop (q : list SReq) (full : bool) : ST (@AState A) (bool * list SReq) :=
  match q with
  | [] => mret (full, [])
  | req :: rest =>
      n ← st_gets (λ s, get_num_allocatable_reqs (Z.of_nat (length (running_reqs (as_adder s)))) (as_world s));
      a ← get_adder;
      let full := if bool_decide (n <= Z.of_nat (length (can_run_list a))) then true else full in
      go ← (if full : bool then
              if enable_priority_preemption sc then
                preempt_to_schedule CLIP set_order (sc_page_size sc) (sc_spec sc) (sc_strip sc)
                  (schedule_low_priority_values_first sc) (sc_retract_steps sc) req
              else mret false
            else mret true);
      if negb go then mret (full, req :: rest)
      else
        req ← on_world (in_cache (init_next_round_input force_miss req));
        r ← add_one_req CLIP now gather req (truncation_align_size sc);
        match r.1 with
        | CONTINUE => rest ← prefill_loop rest full; mret (rest.1, r.2 :: rest.2)
        | NO_TOKEN => mret (true, r.2 :: rest)
        | OTHER => mret (full, r.2 :: rest)
        end
  end.

(** [_add_request_to_queue] for the preempted requests: each enters at the end, at
    the time [clock i]. *)
Definition requeue (q l : list SReq) : list SReq := q ++ imap (λ i r, set_entry_time (clock i) r) l.

(** [req in l], by identity. *)
Definition req_in (l : list SReq) (r : SReq) : bool := existsb (same_req r) l.

(** [req.is_chunked += 1] *)
Definition bump_chunked (r : SReq) : SReq :=
  let q := sr_req r in
  set_req (MkReq (origin_input_ids q) (output_ids q) (fill_ids q) (req_extra_key q) (req_priority q)
    (req_pool_idx q) (prefix_indices q) (last_node q) (cache_protected_len q) (kv_committed_len q)
    (kv_allocated_len q) (kv_committed_freed q) (kv_overallocated_freed q) (is_chunked q + 1)
    (reasoning_tokens q) (skip_radix_cache_insert q)) r.

(** The adder of the pass, after the priority of the queue was computed. *)
Definition new_adder (s : Scheduler) (delayer : option SinglePass) : PrefillAdder :=
  init_adder CLIP (Z.of_nat (sc_page_size sc)) (sc_reqs s) (sc_ratio s) (max_prefill_tokens sc)
    (chunked_prefill_size sc) (if is_mixed_chunk sc then Z.of_nat (length (sc_reqs s)) else 0)
    (sc_threshold sc) (sc_max_prefill_bs s) (sc_max_running_requests sc) (sc_prefill_max_requests sc)
    delayer (sc_dllm sc) (sc_cp sc) (Z.of_nat (length (waiting_queue s))).

(** The chunked request goes first. *)
Definition add_chunked (chunked : option SReq) : ST (@AState A) (option SReq) :=
  match chunked with
  | Some r => add_chunked_req CLIP (init_next_round r)
  | None => mret None
  end.

(** The end of the pass: [q] is the queue after the loop, [full] the flag, [chunked]
    the result of [add_chunked], [s'] the state of the adder. *)
Definition finish_pass (s : Scheduler) (p : SchedulePolicy) (q : list SReq) (full : bool)
    (chunked : option SReq) (s' : @AState A) : result (option (list SReq) * option SinglePass * Scheduler) :=
  let a := as_adder s' in
  let scheduled := match chunked with Some r => req_in (can_run_list a) r | None => false end in
  match can_run_list a with
  | [] =>
      Ok (None, delayer_pass a,
          MkSched q (running_reqs a) full chunked scheduled (sc_ratio s) (sc_max_prefill_bs s) p (as_world s'))
  | can_run =>
      let waiting := requeue (List.filter (λ r, negb (req_in can_run r)) q) (preempt_list a) in
      cs ← (match new_chunked_req a with
            | Some r => _ ← py_assert (match chunked with None => true | Some _ => false end); Ok (Some r, true)
            | None => Ok (chunked, scheduled)
            end);
      let chunked := bump_chunked <$> cs.1 in
      let can_run := match chunked with
                     | Some r => (λ x, if same_req x r then bump_chunked x else x) <$> can_run
                     | None => can_run
                     end in
      Ok (Some can_run, delayer_pass a,
          MkSched waiting (running_reqs a) full chunked cs.2 (sc_ratio s)
            (Z.max (sc_max_prefill_bs s) (Z.of_nat (length can_run))) p (as_world s'))
  end.

(** [_get_new_batch_prefill_raw]: the requests of the new batch, if there is one;
    [delayer] is the executor of the prefill delayer, if it is on. *)
Definition get_new_batch_prefill_raw (delayer : option SinglePass) (s : Scheduler)
    : result (option (list SReq) * option SinglePass * Scheduler) :=
  let full := if enable_priority_preemption sc then false else batch_is_full s in
  let skip full := MkSched (waiting_queue s) (sc_reqs s) full (chunked_req s)
    (chunked_req_scheduled_last_iter s) (sc_ratio s) (sc_max_prefill_bs s) (sc_policy s) (sc_world s) in
  let no_chunk := match chunked_req s with None => true | Some _ => false end in
  if (full || bool_decide (waiting_queue s = [])) && no_chunk then Ok (None, delayer, skip full)
  else if bool_decide (get_num_allocatable_reqs (Z.of_nat (length (sc_reqs s))) (sc_world s) <= 0)
          && no_chunk && negb (enable_priority_preemption sc)
  then Ok (None, delayer, skip true)
  else
    match calc_priority order shuffle torch_empty force_miss CHECK DEPRIORITIZE (sc_policy s)
            (waiting_queue s) (Some (sc_reqs s)) (w_cache (sc_world s)) with
    | Ok ((_, q, p), tree) =>
        let as0 := MkAState (new_adder s delayer) (MkWorld tree (w_pool (sc_world s))) in
        match (chunked ← add_chunked (chunked_req s); r ← prefill_loop q full; mret (chunked, r)) as0 with
        | Ok ((chunked, (full, q)), s') => finish_pass s p q full chunked s'
        | Raise e => Raise e
        | Running => Running
        end
    | Raise e => Raise e
    | Running => Running
    end.
End pass.
Arguments MkSched {A}. Arguments waiting_queue {A}. Arguments sc_reqs {A}. Arguments batch_is_full {A}.
Arguments chunked_req {A}. Arguments sc_ratio {A}. Arguments sc_policy {A}. Arguments sc_world {A}.
Arguments sc_max_prefill_bs {A}. Arguments chunked_req_scheduled_last_iter {A}.

(** ** Between two passes

    What happens to requests before they wait and after their batch was made: the
    checks of [handle_generate_request], [prepare_for_extend], the forward pass
    (which returns one token per request) and [process_batch_result_prefill], in the
    order of [event_loop_normal], for the token allocator. *)

(** [TpModelWorker.__init__]: [max_req_len]; prompts stay 5 tokens below it. *)
Definition tp_max_req_len (context_len max_token_pool_size : Z) : Z :=
  Z.min (context_len - 1) (max_token_pool_size - 1).

(** [init_req_max_new_tokens] *)
Definition init_req_max_new_tokens (max_req_len : Z) (r : SReq) : SReq :=
  MkSReq (sr_req r) (rid r) (extend_input_len r) (logprob_start_len r) (extend_logprob_start_len r)
    (Z.min (max_new_tokens r) (max_req_len - Z.of_nat (length (origin_input_ids (sr_req r))) - 1))
    (ignore_eos r) (host_hit_length r) (priority r) (wait_queue_entry_time r)
    (finished r) (routing_key r) (return_logprob r) (streaming_session r) (embed_overrides r) (has_embeds r).

(** [req.origin_input_ids = ids] *)
Definition set_origin (ids : list Z) (q : Req) : Req :=
  MkReq ids (output_ids q) (fill_ids q) (req_extra_key q) (req_priority q) (req_pool_idx q)
    (prefix_indices q) (last_node q) (cache_protected_len q) (kv_committed_len q)
    (kv_allocated_len q) (kv_committed_freed q) (kv_overallocated_freed q) (is_chunked q)
    (reasoning_tokens q) (skip_radix_cache_insert q).

(** [validate_input_length]: the request, its prompt cut if need be; [None] stands
    for the error message. *)
Definition validate_input_length (max_req_input_len : Z) (allow_auto_truncate : bool) (r : SReq) : option SReq :=
  let ids := origin_input_ids (sr_req r) in
  if bool_decide (max_req_input_len <= Z.of_nat (length ids)) then
    if allow_auto_truncate then Some (set_req (set_origin (take (Z.to_nat max_req_input_len) ids) (sr_req r)) r)
    else None
  else Some r.

(** [handle_generate_request] and [_add_request_to_queue] for a text request without
    session, logprobs and grammar that passes the checks: it enters the queue at
    time [t]. *)
Definition handle_generate_request {A} (max_req_len : Z) (allow_auto_truncate : bool) (t : Z) (r : SReq)
    (s : @Scheduler A) : option (@Scheduler A) :=
  r ← validate_input_length (max_req_len - 5) allow_auto_truncate (init_req_max_new_tokens max_req_len r);
  Some (MkSched (waiting_queue s ++ [set_entry_time t r]) (sc_reqs s) (batch_is_full s) (chunked_req s)
          (chunked_req_scheduled_last_iter s) (sc_ratio s) (sc_max_prefill_bs s) (sc_policy s) (sc_world s)).

(** [req.kv_committed_len = req.kv_allocated_len = n] *)
Definition set_kv_lens (n : nat) (q : Req) : Req :=
  MkReq (origin_input_ids q) (output_ids q) (fill_ids q) (req_extra_key q) (req_priority q) (req_pool_idx q)
    (prefix_indices q) (last_node q) (cache_protected_len q) n n (kv_committed_freed q)
    (kv_overallocated_freed q) (is_chunked q) (reasoning_tokens q) (skip_radix_cache_insert q).

(** [req.output_ids.append(t)] *)
Definition push_output (t : Z) (q : Req) : Req :=
  MkReq (origin_input_ids q) (output_ids q ++ [t]) (fill_ids q) (req_extra_key q) (req_priority q) (req_pool_idx q)
    (prefix_indices q) (last_node q) (cache_protected_len q) (kv_committed_len q) (kv_allocated_len q)
    (kv_committed_freed q) (kv_overallocated_freed q) (is_chunked q) (reasoning_tokens q)
    (skip_radix_cache_insert q).

Definition set_is_chunked (n : Z) (q : Req) : Req :=
  MkReq (origin_input_ids q) (output_ids q) (fill_ids q) (req_extra_key q) (req_priority q) (req_pool_idx q)
    (prefix_indices q) (last_node q) (cache_protected_len q) (kv_committed_len q) (kv_allocated_len q)
    (kv_committed_freed q) (kv_overallocated_freed q) n (reasoning_tokens q) (skip_radix_cache_insert q).

Definition set_finished (b : bool) (r : SReq) : SReq :=
  MkSReq (sr_req r) (rid r) (extend_input_len r) (logprob_start_len r) (extend_logprob_start_len r)
    (max_new_tokens r) (ignore_eos r) (host_hit_length r) (priority r) (wait_queue_entry_time r)
    b (routing_key r) (return_logprob r) (streaming_session r) (embed_overrides r) (has_embeds r).

Section around.
Context `{Env} (oob : Z → Z) (triton : bool).
Abbreviation W := (ST (World KVPool)).

(** [prepare_for_extend], KV bookkeeping: the tensors of the batch, its slots, and
    the loop over its requests. *)
Definition extend_batch (reqs : list SReq) : ExtendBatch :=
  let prefix_len r := length (prefix_indices (sr_req r)) in
  MkExtend (sr_req <$> reqs) (prefix_len <$> reqs) ((λ r, Z.to_nat (extend_input_len r)) <$> reqs)
    ((λ r, length (fill_ids (sr_req r))) <$> reqs)
    (sum_list ((λ r, length (drop (prefix_len r) (fill_ids (sr_req r)))) <$> reqs)).

Fixpoint extend_reqs (reqs : list SReq) (rows : list Req) : result (list SReq) :=
  match reqs, rows with
  | r :: reqs, q :: rows =>
      let seq_len := length (fill_ids (sr_req r)) in
      _ ← py_assert (bool_decide (Z.of_nat seq_len - Z.of_nat (length (prefix_indices (sr_req r)))
                                  = extend_input_len r));
      l ← extend_reqs reqs rows;
      Ok (set_req (set_kv_lens seq_len q) r :: l)
  | _, _ => Ok []
  end.

Definition prepare_for_extend (reqs : list SReq) : W (list SReq) :=
  r ← alloc_for_extend_token oob triton (extend_batch reqs);
  st_lift (extend_reqs reqs r.2).

(** [process_batch_result_prefill] of a generation model, without logprobs, hidden
    states and grammars; [ends] is the outcome of [check_finished]. *)
Definition prefill_result (ends : SReq → bool) (sc : SchedConfig) (r : SReq) (next_token_id : Z) : W SReq :=
  let q := sr_req r in
  if finished r then mret r
  else if bool_decide (is_chunked q <= 0) then
    let q := push_output next_token_id q in
    if ends (set_req q r) then
      q ← release_kv_cache (sc_page_size sc) (sc_spec sc) (sc_strip sc) q true;
      mret (set_finished true (set_req q r))
    else q ← maybe_cache_unfinished_req q false; mret (set_req q r)
  else mret (set_req (set_is_chunked (is_chunked q - 1) q) r).

Fixpoint process_batch_result_prefill (ends : SReq → bool) (sc : SchedConfig) (reqs : list SReq)
    (next_token_ids : list Z) : W (list SReq) :=
  match reqs, next_token_ids with
  | r :: reqs, t :: ts =>
      r ← prefill_result ends sc r t;
      l ← process_batch_result_prefill ends sc reqs ts;
      mret (r :: l)
  | reqs, _ => mret reqs
  end.

(** [get_next_batch_to_run] up to the next pass: the requests of the last batch that
    go on join the running batch. *)
Definition merge_last_batch (last : list SReq) (s : @Scheduler KVPool) : @Scheduler KVPool :=
  let kept := List.filter (λ r, negb (finished r)) last in
  let full := if bool_decide (length kept < length last)%nat then false else batch_is_full s in
  let full := if bool_decide (kept ≠ []) && bool_decide (sc_reqs s = []) then false else full in
  MkSched (waiting_queue s) (sc_reqs s ++ kept) full (chunked_req s) (chunked_req_scheduled_last_iter s)
    (sc_ratio s) (sc_max_prefill_bs s) (sc_policy s) (sc_world s).

(** The batch of a pass runs: [toks] are the tokens the model samples. *)
Definition run_prefill (ends : SReq → bool) (sc : SchedConfig) (batch : list SReq) (toks : list Z)
    (s : @Scheduler KVPool) : result (@Scheduler KVPool) :=
  match (l ← prepare_for_extend batch; process_batch_result_prefill ends sc l toks) (sc_world s) with
  | Ok (l, w) =>
      Ok (merge_last_batch l
            (MkSched (waiting_queue s) (sc_reqs s) (batch_is_full s) (chunked_req s)
               (chunked_req_scheduled_last_iter s) (sc_ratio s) (sc_max_prefill_bs s) (sc_policy s) w))
  | Raise e => Raise e
  | Running => Running
  end.

(** The scheduler at start: no requests, an empty tree, all rows and slots free. *)
Definition init_scheduler (policy eviction_policy : string) (enable_priority low_values_first : bool)
    (size : Z) (need_sort : bool) (rows context_len : nat) (ratio : Q) : result (@Scheduler KVPool) :=
  c ← init_cache false 1 false false false eviction_policy 0 0 (Token.init size need_sort);
  p ← init_policy policy false enable_priority low_values_first 0 0;
  Ok (MkSched [] [] false None false ratio 0 p (MkWorld c (rp_init rows context_len))).
End around.
