(* ===== verification/PassInv.v ===== *)
(** What a prefill pass guarantees: the requests it takes are a prefix of the
    ordered waiting queue, no request is lost, and the KV slots of the new batch are
    free or can be evicted. *)
From S2P Require Import Prelude PySort RadixKey TreeNode EvictPolicy RadixCache RadixInv RadixSplit RadixLeaf.
From S2P Require Import RadixLock RadixSpec RadixOps RadixLockOps ReqPool ReqCache MemCommon.
From S2P Require Import PrefillDelayer SchedReq ReqMatch SchedulePolicy PolicyDfs PolicyOrder PrefillAdder AdderInv PrefillPass.
From Stdlib Require Import QArith Lqa.
From stdpp Require Import options.
Local Open Scope Z_scope.

Section pass.
Context (CLIP : Z) (HCLIP : 0 <= CLIP).
Context `{Env} {A : Type} `{KVAllocator A}.
Context (now : Q) (gather : RankInfo → list RankInfo).
Context (force_miss : bool) (set_order : list SReq → list SReq) (sc : SchedConfig).
Context (Hno_preempt : enable_priority_preemption sc = false).
Context (Halign : ∀ k, truncation_align_size sc = Some k → 0 < k).

Implicit Types (s : @AState A) (G : gmap nat gnode) (L : nat → Z).

(** Calls on the cache of the adder's state. *)
Lemma wp_on_cache {B} (m : ST (RadixCache A) B) s (Q : B → @AState A → Prop) :
  wp m (λ b c, Q b (MkAState (as_adder s) (MkWorld c (w_pool (as_world s))))) (cache_of s) →
  wp (on_world (in_cache m)) Q s.
Proof using. unfold wp, on_world, in_cache, cache_of. by destruct (m _) as [[b c]| |]. Qed.

(** What offering a request may do: nothing, or admit it as the last one. *)
Definition offered_one s (req : SReq) (res : AddReqResult) (req' : SReq) s' : Prop :=
  adder_kept s s' ∧ rid req' = rid req ∧ (∃ G L, adder_ok s' G L)
  ∧ (res ≠ CONTINUE ∧ can_run_list (as_adder s') = can_run_list (as_adder s)
     ∨ can_run_list (as_adder s') = can_run_list (as_adder s) ++ [req']).

Lemma wp_offer s G L req :
  adder_ok s G L → 0 <= max_new_tokens req →
  wp (req ← on_world (in_cache (init_next_round_input force_miss req));
      add_one_req CLIP now gather req (truncation_align_size sc))
    (λ r s', offered_one s req r.1 r.2 s') s.
Proof using HCLIP Halign.
  intros Hok Hnew. wp_step. apply wp_on_cache. pose proof (am_base _ _ _ Hok) as Hb.
  eapply wp_mono; [apply (wp_init_next_round_input force_miss (cache_of s) G L req); apply Hb|].
  intros req1 c1 (G1 & HI1 & Hr & Hf & [[(n & Hn & Hg) _ Hhost] _ _ _ _ Hrid Hmax] & _).
  set (s1 := MkAState (as_adder s) (MkWorld c1 (w_pool (as_world s)))).
  assert (adder_ok s1 G1 L) as Hok1 by (by apply (adder_ok_match s G L)).
  assert (adder_kept s s1) as Hk1.
  { split; simpl; try done; unfold cache_of; simpl; [apply (fr_cfg _ _ Hf)|apply (fr_alloc _ _ Hf)]. }
  eapply wp_mono; [apply (wp_add_one_req CLIP HCLIP now gather s1 G1 L req1 n); [done| |done]|].
  { split; [done|eauto|done|by rewrite Hmax]. }
  intros [res req2] s2 (Hk2 & Hrid2 & Hcase). split; [by etrans|]. split; [simpl; congruence|].
  destruct Hcase as [(Hres & Hok2 & Hl)|(Hok2 & Hl)]; (split; [eauto|]); [by left|by right].
Qed.

(** The loop takes a prefix of the queue. *)
Definition took s (q : list SReq) (r : bool * list SReq) s' : Prop :=
  adder_kept s s' ∧ (∃ G L, adder_ok s' G L) ∧ rid <$> r.2 = rid <$> q
  ∧ ∃ k, can_run_list (as_adder s') = can_run_list (as_adder s) ++ take k r.2.

Lemma took_none s G L q full : adder_ok s G L → took s q (full, q) s.
Proof using. intros Hok. split_and!; [done|eauto|done|]. exists 0%nat. by rewrite take_0, app_nil_r. Qed.

Lemma took_last s req res req' rest full s' :
  offered_one s req res req' s' → took s (req :: rest) (full, req' :: rest) s'.
Proof using.
  intros (Hk & Hrid & Hok & Hl). split_and!; [done|done|cbn [snd]; rewrite !fmap_cons; by f_equal|].
  destruct Hl as [[_ Hl]|Hl]; rewrite Hl; [exists 0%nat|exists 1%nat]; simpl; rewrite ?take_0, ?app_nil_r; done.
Qed.

Lemma wp_prefill_loop q full s G L :
  adder_ok s G L → Forall (λ r, 0 <= max_new_tokens r) q →
  wp (prefill_loop CLIP now gather force_miss set_order sc q full) (λ r s', took s q r s') s.
Proof using HCLIP Halign Hno_preempt.
  intros Hok Hq. revert s G L full Hok. induction Hq as [|req rest Hreq Hrest IH]; intros s G L full Hok;
    cbn [prefill_loop].
  { wp_step. by eapply took_none. }
  wp_step. wp_step. wp_step. apply wp_get_adder. cbv zeta. rewrite Hno_preempt.
  set (full' := if bool_decide _ then true else full). wp_step.
  assert (∀ b : bool, wp (if b then mret false else mret true) (λ go s', go = negb b ∧ s' = s) s) as Hgo
    by (intros []; by wp_step).
  eapply wp_mono; [apply Hgo|]. intros go s0 [-> ->]. destruct full'; simpl.
  { wp_step. by eapply took_none. }
  pose proof (wp_offer s G L req Hok Hreq) as Ho. apply wp_ok in Ho as ([res req'] & s' & E & Ho).
  unfold mbind, ST_bind, st_bind in E |- *. unfold wp.
  destruct (on_world _ s) as [[req1 s1]| |]; [|done..]. rewrite E. simpl fst.
  destruct res; [|by eapply took_last..].
  destruct Ho as (Hk & Hrid & (G' & L' & Hok') & [[Hc _]|Hl]); [done|].
  pose proof (IH s' G' L' false Hok') as Hw. apply wp_ok in Hw as ([f q'] & s'' & E' & Hk2 & Hok2 & Hrids & k & Hk').
  cbn [fst snd]. rewrite E'. simpl in *. split_and!; [by etrans|done|cbn [snd]; rewrite !fmap_cons; by f_equal|].
  exists (S k). simpl. rewrite Hk', Hl. by rewrite <-app_assoc.
Qed.
End pass.

(** ** The whole pass *)

Lemma qsum_nonneg l : Forall (λ x, 0 <= x)%Q l → (0 <= qsum l)%Q.
Proof. induction 1 as [|x l Hx _ IH]; simpl in *; [lra|]. unfold qsum in *. lra. Qed.

Lemma running_offset_nonneg CLIP ratio r :
  0 <= CLIP → (0 <= ratio)%Q → Z.of_nat (length (output_ids (sr_req r))) <= max_new_tokens r →
  (0 <= running_offset CLIP ratio r)%Q.
Proof.
  intros HC Hr Hm. unfold running_offset. apply Qmult_le_0_compat; [|done].
  change 0%Q with (inject_Z 0). rewrite <-Zle_Qle. lia.
Qed.

(** The requests that were not taken. *)
Lemma filter_not_taken k (q : list SReq) :
  NoDup (rid <$> q) → List.filter (λ r, negb (req_in (take k q) r)) q = drop k q.
Proof.
  intros Hnd. transitivity (List.filter (λ r, negb (req_in (take k q) r)) (take k q ++ drop k q));
    [by rewrite take_drop|]. rewrite List.filter_app.
  rewrite <-(take_drop k q), fmap_app in Hnd. apply NoDup_app in Hnd as (_ & Hdisj & _).
  assert (∀ l, (∀ r, r ∈ l → r ∈ take k q) → List.filter (λ r, negb (req_in (take k q) r)) l = []) as H1.
  { induction l as [|r l IH]; intros Hl; [done|]. simpl.
    assert (req_in (take k q) r = true) as ->.
    { apply existsb_exists. exists r. split; [apply list_elem_of_In, Hl; by left|]. unfold same_req. by case_bool_decide. }
    simpl. apply IH. intros r' Hr'. apply Hl. by right. }
  assert (∀ l, (∀ r, r ∈ l → r ∈ drop k q) → List.filter (λ r, negb (req_in (take k q) r)) l = l) as H2.
  { induction l as [|r l IH]; intros Hl; [done|]. simpl.
    assert (req_in (take k q) r = false) as ->.
    { apply not_true_iff_false. intros (x & Hx & Hsame)%existsb_exists. apply list_elem_of_In in Hx.
      unfold same_req in Hsame. apply bool_decide_eq_true in Hsame.
      apply (Hdisj (rid x)); apply list_elem_of_fmap; [by eauto|]. exists r. split; [done|]. apply Hl. by left. }
    simpl. f_equal. apply IH. intros r' Hr'. apply Hl. by right. }
  rewrite H1, H2 by done. done.
Qed.

(** The mark on the chunked request changes nothing that is counted. *)
Lemma bump_need ps (f : SReq → bool) l :
  need ps ((λ x, if f x then bump_chunked x else x) <$> l) = need ps l
  ∧ rid <$> ((λ x, if f x then bump_chunked x else x) <$> l) = rid <$> l.
Proof.
  induction l as [|x l [IH1 IH2]]; [done|]. unfold need in *. rewrite !fmap_cons. simpl.
  rewrite IH1, IH2. by destruct (f x).
Qed.

Section whole_pass.
Context (CLIP : Z) (HCLIP : 0 <= CLIP).
Context `{Env} {A : Type} `{KVAllocator A}.
Context (now : Q) (gather : RankInfo → list RankInfo).
Context (order : gmap ckey nat → list nat) (shuffle : list SReq → list SReq) (torch_empty : nat → list Z).
Context (Horder : ∀ m, order m ≡ₚ (map_to_list m).*2) (Hshuffle : ∀ l, shuffle l ≡ₚ l).
Context (Hempty : ∀ n, length (torch_empty n) = n).
Context (force_miss : bool) (CHECK DEPRIORITIZE : Z) (clock : nat → Z) (set_order : list SReq → list SReq) (sc : SchedConfig).

(** What the scheduler's configuration must satisfy here. *)
Record plain_config : Prop := {
  pc_preempt : enable_priority_preemption sc = false;
  pc_align : ∀ k, truncation_align_size sc = Some k → 0 < k;
  pc_page : (0 < sc_page_size sc)%nat;
  pc_dllm : sc_dllm sc = None;
}.

Implicit Types (s : @Scheduler A) (G : gmap nat gnode) (L : nat → Z).

Record sched_ok s G L : Prop := {
  sk_inv : Inv (view (w_cache (sc_world s))) G L;
  sk_locks : locks_nonneg L;
  sk_on : disable (cfg (w_cache (sc_world s))) = false;
  sk_free : 0 <= kv_available_size (allocator (w_cache (sc_world s)));
  sk_ratio : (0 <= sc_ratio s)%Q;
  sk_running : Forall (λ r, Z.of_nat (length (output_ids (sr_req r))) <= max_new_tokens r) (sc_reqs s);
  sk_waiting : Forall (λ r, 0 <= max_new_tokens r) (waiting_queue s);
  sk_ids : NoDup (rid <$> waiting_queue s);
  sk_queue : queue_tree_ok (waiting_queue_radix_tree (sc_policy s));
}.

(** The outcome of a pass without a chunked request. *)
Record pass_done s (batch : option (list SReq)) s' : Prop := {
  pd_tree : ∃ G' L', Inv (view (w_cache (sc_world s'))) G' L' ∧ locks_nonneg L';
  pd_pool : w_pool (sc_world s') = w_pool (sc_world s);
  pd_cfg : cfg (w_cache (sc_world s')) = cfg (w_cache (sc_world s));
  pd_alloc : allocator (w_cache (sc_world s')) = allocator (w_cache (sc_world s));
  pd_running : sc_reqs s' = sc_reqs s;
  pd_kept : rid <$> (default [] batch ++ waiting_queue s') ≡ₚ rid <$> waiting_queue s;
  pd_fits : need (Z.of_nat (sc_page_size sc)) (default [] batch)
    <= kv_available_size (allocator (w_cache (sc_world s'))) + evictable_size (w_cache (sc_world s'));
}.

Lemma new_adder_ok s G L G' tree delayer :
  plain_config → sched_ok s G L → Inv (view tree) G' L → frame (w_cache (sc_world s)) tree →
  adder_ok (MkAState (new_adder CLIP sc s delayer) (MkWorld tree (w_pool (sc_world s)))) G' L.
Proof using HCLIP.
  intros Hpc Hs HI Hf. split; [split|]; simpl.
  - done.
  - apply Hs.
  - unfold cache_of. simpl. rewrite (fr_cfg _ _ Hf). apply Hs.
  - destruct Hpc. lia.
  - apply Hpc.
  - rewrite <-(Qplus_0_l 0). apply Qplus_le_compat.
    + change 0%Q with (inject_Z 0). rewrite <-Zle_Qle. destruct (is_mixed_chunk sc); lia.
    + apply qsum_nonneg, Forall_fmap. eapply Forall_impl; [apply Hs|]. intros r Hr. simpl.
      apply running_offset_nonneg; [done|apply Hs|done].
  - unfold available_and_evictable, evictable_size. simpl. rewrite (fr_alloc _ _ Hf), (fr_ev _ _ Hf).
    pose proof (sk_free _ _ _ Hs). pose proof (evictable_nonneg _ _ _ (sk_inv _ _ _ Hs)). lia.
Qed.

(** A state in which the loop starts. *)
Record fresh_pass s as0 (q : list SReq) : Prop := {
  fp_ids : NoDup (rid <$> q);
  fp_perm : rid <$> q ≡ₚ rid <$> waiting_queue s;
  fp_can : can_run_list (as_adder as0) = [];
  fp_pre : preempt_list (as_adder as0) = [];
  fp_run : running_reqs (as_adder as0) = sc_reqs s;
  fp_page : ad_page_size (as_adder as0) = Z.of_nat (sc_page_size sc);
  fp_pool : w_pool (as_world as0) = w_pool (sc_world s);
  fp_frame : frame (w_cache (sc_world s)) (cache_of as0);
}.

Lemma finish_pass_ok s p q0 q full as0 (s1 : @AState A) :
  fresh_pass s as0 q0 → took as0 q0 (full, q) s1 →
  ∃ b d s', finish_pass clock s p q full None s1 = Ok (b, d, s') ∧ pass_done s b s' ∧ sc_policy s' = p.
Proof using.
  intros [Hids Hperm Hcan Hpre Hrun Hpage Hpool Hf] ([] & (G' & L' & Hok) & Hrid & k & Htook).
  rewrite Hcan, app_nil_l in Htook. simpl in Hrid, Htook. rewrite <-Hrid in Hids, Hperm.
  pose proof (am_base _ _ _ Hok) as Hb. pose proof (am_mem _ _ _ Hok) as Hmem.
  assert (ad_page_size (as_adder s1) = Z.of_nat (sc_page_size sc)) as Hps by congruence.
  assert (∀ b w r full' ch sch bs, rid <$> (default [] b ++ w) ≡ₚ rid <$> q → r = running_reqs (as_adder s1) →
    need (Z.of_nat (sc_page_size sc)) (default [] b) <= available_and_evictable s1 →
    pass_done s b (MkSched w r full' ch sch (sc_ratio s) bs p (as_world s1))) as Hdone.
  { intros b w r full' ch sch bs Hw -> Hn. split; simpl.
    - exists G', L'. split; apply Hb.
    - congruence.
    - etrans; [exact ak_cfg|apply (fr_cfg _ _ Hf)].
    - etrans; [exact ak_alloc|apply (fr_alloc _ _ Hf)].
    - congruence.
    - by rewrite Hw.
    - done. }
  unfold finish_pass. rewrite Htook. destruct (take k q) as [|r1 l1] eqn:Etk.
  { eexists None, _, _. split; [done|]. split; [|done]. apply Hdone; [done|done|]. rewrite Htook in Hmem. exact Hmem. }
  rewrite <-Etk, filter_not_taken by done.
  assert (preempt_list (as_adder s1) = []) as -> by congruence.
  unfold requeue. simpl imap. rewrite app_nil_r.
  destruct (new_chunked_req (as_adder s1)) as [rc|]; cbn [mbind result_bind py_assert fmap option_fmap option_map fst snd];
    do 3 eexists; (split; [done|]); (split; [|done]); apply Hdone; try done; simpl default.
  - rewrite fmap_app, (proj2 (bump_need 0 _ (take k q))), <-fmap_app, take_drop. done.
  - rewrite (proj1 (bump_need _ _ (take k q))), <-Hps, Etk, <-Htook. exact Hmem.
  - by rewrite take_drop.
  - rewrite <-Hps, Etk, <-Htook. exact Hmem.
Qed.

(** Nothing done: the batch is full, or nothing waits. *)
Lemma skip_done s G L full :
  sched_ok s G L →
  pass_done s None (MkSched (waiting_queue s) (sc_reqs s) full (chunked_req s)
    (chunked_req_scheduled_last_iter s) (sc_ratio s) (sc_max_prefill_bs s) (sc_policy s) (sc_world s)).
Proof using.
  intros Hs. split; simpl; try done.
  - exists G, L. split; apply Hs.
  - unfold evictable_size. pose proof (sk_free _ _ _ Hs). pose proof (evictable_nonneg _ _ _ (sk_inv _ _ _ Hs)). lia.
Qed.

Lemma rematched_ids (c : RadixCache A) G q q1 :
  Forall2 (rematched force_miss c G) q q1 →
  rid <$> q1 = rid <$> q ∧ (Forall (λ r, 0 <= max_new_tokens r) q → Forall (λ r, 0 <= max_new_tokens r) q1).
Proof using.
  induction 1 as [|r r1 q q1 [[m ->] _] _ [IH1 IH2]]; [done|]. split; [rewrite !fmap_cons, IH1; done|].
  intros [Hr Hq]%Forall_cons. constructor; [exact Hr|by apply IH2].
Qed.

Lemma get_new_batch_prefill_ok delayer s G L :
  plain_config → sched_ok s G L → chunked_req s = None →
  ∃ b d s', get_new_batch_prefill_raw CLIP now gather order shuffle torch_empty force_miss CHECK DEPRIORITIZE clock set_order sc
      delayer s = Ok (b, d, s') ∧ pass_done s b s' ∧ queue_tree_ok (waiting_queue_radix_tree (sc_policy s')).
Proof using HCLIP Horder Hshuffle Hempty.
  intros Hpc Hs Hch. unfold get_new_batch_prefill_raw. rewrite (pc_preempt Hpc), Hch. cbv zeta. rewrite <-Hch.
  destruct (_ && true).
  { do 3 eexists. split; [done|]. split; [by eapply skip_done|apply Hs]. }
  destruct (_ && true && _).
  { do 3 eexists. split; [done|]. split; [by eapply skip_done|apply Hs]. }
  destruct (calc_priority_spec torch_empty Hempty force_miss CHECK DEPRIORITIZE order shuffle Horder Hshuffle
    (sc_policy s) (waiting_queue s) (Some (sc_reqs s)) (w_cache (sc_world s)) G L)
    as (b & q & p' & tree & -> & Hqt & G' & q1 & HI' & Hr & Hf & Hq & Hb); [apply Hs|intros _ _; apply Hs|apply Hs|].
  assert (rid <$> q1 = rid <$> waiting_queue s ∧ Forall (λ r, 0 <= max_new_tokens r) q1) as [Hid1 Hnew1].
  { destruct b; [|subst q1; split; [done|apply Hs]]. destruct (rematched_ids _ _ _ _ Hb) as [? Hn].
    split; [done|]. apply Hn, Hs. }
  set (as0 := MkAState _ _). rewrite Hch.
  assert (adder_ok as0 G' L) as Hok by (by eapply new_adder_ok).
  assert (fresh_pass s as0 q) as Hfp.
  { split; simpl; try done.
    - rewrite Hq, Hid1. apply Hs.
    - by rewrite Hq, Hid1. }
  unfold add_chunked, mbind, ST_bind, st_bind, mret, ST_ret, st_ret.
  assert (Forall (λ r, 0 <= max_new_tokens r) q) as Hnew by (by rewrite Hq).
  destruct (wp_ok _ _ _ (wp_prefill_loop CLIP HCLIP now gather force_miss set_order sc (pc_preempt Hpc) (pc_align Hpc)
    q (batch_is_full s) as0 G' L Hok Hnew)) as ([full q'] & s1 & -> & Htook).
  destruct (finish_pass_ok s p' q q' full as0 s1 Hfp Htook) as (b' & d' & s' & -> & Hdone & Hp).
  do 3 eexists. split; [done|]. split; [done|]. by rewrite Hp.
Qed.
End whole_pass.
