(* ===== verification/Retract.v ===== *)
(** Decoding under memory pressure: [ScheduleBatch.check_decode_mem],
    [retract_decode], [retract_all] (managers/schedule_batch.py) and
    [Scheduler.update_running_batch] (managers/scheduler.py) up to the call of
    [prepare_for_decode].

    The hierarchical cache, mamba pools, metrics and the forced retraction of tests
    are left out; the new-token ratio is an exact rational. *)
From S2P Require Import Prelude PySort RadixKey TreeNode EvictPolicy RadixCache Allocator ReqPool ReqCache MemCommon.
From S2P Require Import PrefillDelayer SchedReq SchedulePolicy PrefillAdder.
From Stdlib Require Import QArith.
From stdpp Require Import options.
Local Open Scope Z_scope.

(** The speculative settings: [v1] has steps, top-k and draft tokens, where [None]
    is an unset argument. *)
Inductive SpecMode :=
  | SpecNone
  | SpecV1 (num_steps eagle_topk : option Z) (num_draft_tokens : Z)
  | SpecV2 (num_steps eagle_topk : option Z) (num_draft_tokens : Z).

(** [x or 1] *)
Definition or_one (x : option Z) : Z := match x with Some n => if decide (n = 0) then 1 else n | None => 1 end.

(** [get_alloc_len_per_decode] for a speculative algorithm. *)
Definition get_alloc_len_per_decode (page_size : Z) (num_steps eagle_topk : option Z) (draft : Z) : result Z :=
  if bool_decide (page_size = 1) || bool_decide (or_one eagle_topk = 1)
  then Ok (Z.max (or_one num_steps * or_one eagle_topk) draft)
  else Raise NotImplementedError.

Definition zsum (l : list Z) : Z := foldr Z.add 0 l.

(** [_new_tokens_required_next_decode_spec_v2] *)
Definition tokens_required_spec_v2 (alloc_len page_size : Z) (requests : list SReq) : Z :=
  zsum ((λ r, let cur := Z.of_nat (kv_allocated_len (sr_req r)) in
              let x := Z.max 0 (Z.of_nat (kv_committed_len (sr_req r)) + 2 * alloc_len - cur) in
              ceil_align (cur + x) page_size - ceil_align cur page_size) <$> requests).

(** [new_tokens_required_next_decode] *)
Definition new_tokens_required_next_decode (mode : SpecMode) (page_size : Z) (requests : list SReq) : result Z :=
  match mode with
  | SpecNone =>
      Ok (Z.of_nat (length (filter (λ r, Z.of_nat (kv_committed_len (sr_req r)) `mod` page_size = 0) requests))
          * page_size)
  | SpecV2 num_steps eagle_topk draft =>
      alloc_len ← get_alloc_len_per_decode page_size num_steps eagle_topk draft;
      Ok (tokens_required_spec_v2 alloc_len page_size requests)
  | SpecV1 num_steps eagle_topk draft =>
      let len_per_topk := or_one num_steps in
      let spec_topk := or_one eagle_topk in
      let '(len_per_topk, spec_tokens) :=
        if bool_decide (1 < page_size) && bool_decide (1 < spec_topk) then
          (ceil_align (len_per_topk + page_size) page_size, ceil_align draft page_size)
        else if bool_decide (1 < page_size) then (ceil_align len_per_topk page_size, ceil_align draft page_size)
        else (len_per_topk, draft) in
      Ok (Z.max (len_per_topk * spec_topk) spec_tokens * Z.of_nat (length requests))
  end.

Section retract.
Context `{Env} {A : Type} `{KVAllocator A}.
Context (mode : SpecMode) (page_size : nat) (strip : bool) (steps : Z).
Abbreviation W := (ST (World A)).

Definition speculative : bool := match mode with SpecNone => false | _ => true end.

(** [check_decode_mem] *)
Definition check_decode_mem (requests : list SReq) : W bool :=
  num_tokens ← st_lift (new_tokens_required_next_decode mode (Z.of_nat page_size) requests);
  _ ← in_cache (evict_from_tree_cache num_tokens);
  av ← st_gets (λ w, kv_available_size (allocator (w_cache w)));
  mret (bool_decide (num_tokens <= av)).

(** The order of retraction, most advanced requests first; [sort(reverse=True)]
    keeps the order of equal keys. *)
Definition progress_key (r : SReq) : Z * Z :=
  (Z.of_nat (length (output_ids (sr_req r))), - Z.of_nat (length (origin_input_ids (sr_req r)))).
Definition retract_order (reqs : list SReq) : list SReq :=
  if speculative then reqs else py_sort (λ r s, lex_le z_le (progress_key s) (progress_key r)) reqs.

(** The loop: [stack] is [sorted_indices], its last element first; returned are what
    is left of it and the retracted requests. *)
Fixpoint retract_loop (stack : list SReq) (first_iter : bool) : W (list SReq * list SReq) :=
  match stack with
  | [] => if first_iter then st_raise IndexError else mret ([], [])
  | r :: rest =>
      fits ← (if first_iter : bool then mret false else check_decode_mem (rev stack));
      if fits : bool then mret (stack, [])
      else match rest with
           | [] => mret (stack, [])
           | _ =>
               r ← release_req page_size speculative strip steps r (Z.of_nat (length rest));
               rem ← retract_loop rest false;
               mret (rem.1, r :: rem.2)
           end
  end.

(** [retract_decode]: the requests that stay, the retracted and the aborted ones,
    and the new estimate of the ratio of new tokens. *)
Definition new_estimate_ratio (reqs : list SReq) : Q :=
  let total_decoded_tokens := zsum ((λ r, Z.of_nat (length (output_ids (sr_req r)))) <$> reqs) in
  let total_max_new_tokens := zsum (max_new_tokens <$> reqs) in
  let ratio := (inject_Z (total_decoded_tokens + steps * Z.of_nat (length reqs))
                / inject_Z (total_max_new_tokens + 1))%Q in
  if Qle_bool 1 ratio then 1%Q else ratio.

Definition retract_decode (reqs : list SReq) : W (list SReq * list SReq * list SReq * Q) :=
  r ← retract_loop (rev (retract_order reqs)) true;
  let '(stack, retracted) := r in
  last ← (if bool_decide (length stack <= 1)%nat
          then fits ← check_decode_mem (rev stack); mret (negb fits)
          else mret false);
  if last : bool then
    match stack with
    | [] => st_raise IndexError
    | r :: rest =>
        r ← release_req page_size speculative strip steps r 0;
        mret (rev rest, retracted, [r], new_estimate_ratio (rev rest))
    end
  else mret (rev stack, retracted, [], new_estimate_ratio (rev stack)).

(** [retract_all] *)
Fixpoint release_all (reqs : list SReq) (remaining : Z) : W (list SReq) :=
  match reqs with
  | [] => mret []
  | r :: reqs =>
      r ← release_req page_size speculative strip steps r remaining;
      rest ← release_all reqs (remaining - 1);
      mret (r :: rest)
  end.
Definition retract_all (reqs : list SReq) : W (list SReq) := release_all reqs (Z.of_nat (length reqs)).

(** [update_running_batch] before [prepare_for_decode]: the running requests, the
    requests that go back to the queue, those aborted, and the new ratio. *)
Definition update_running_batch (decay min_ratio ratio : Q) (reqs : list SReq)
    : W (list SReq * list SReq * list SReq * Q) :=
  match List.filter (λ r, negb (finished r)) reqs with
  | [] => mret ([], [], [], ratio)
  | reqs =>
      fits ← check_decode_mem reqs;
      if fits : bool then
        let lower := (ratio - decay)%Q in
        mret (reqs, [], [], if Qle_bool lower min_ratio then min_ratio else lower)
      else retract_decode reqs
  end.
End retract.
