(* ===== verification/RetractInv.v ===== *)
(** Retraction gives back everything the retracted requests hold, leaves the others
    intact, and ends with a batch whose next decode step fits. *)
From S2P Require Import Prelude PySort RadixKey TreeNode EvictPolicy RadixCache RadixInv RadixSplit RadixLeaf.
From S2P Require Import RadixLock RadixSpec RadixOps RadixLockOps Allocator ReqPool ReqCache MemCommon.
From S2P Require Import PrefillDelayer SchedReq SchedulePolicy PolicyOrder PrefillAdder Retract.
From Stdlib Require Import QArith Sorted.
From stdpp Require Import sorting options.
Local Open Scope Z_scope.

(** ** A batch of running requests *)
Section running.
Context `{Env} (mode : SpecMode) (ps : nat) (strip : bool) (steps : Z).
Implicit Types (w : World KVPool) (G : gmap nat gnode) (L : nat → Z) (r : SReq).

(** How many requests of a batch hold a lock on node [m]. *)
Definition locks_of (reqs : list SReq) (m : nat) : Z :=
  Z.of_nat (length (filter (λ r, last_node (sr_req r) = Some m) reqs)).
Definition batch_locks L (reqs : list SReq) (m : nat) : Z := L m + locks_of reqs m.

Lemma locks_of_cons r reqs m :
  locks_of (r :: reqs) m = (if decide (last_node (sr_req r) = Some m) then 1 else 0) + locks_of reqs m.
Proof using. unfold locks_of. rewrite filter_cons. case_decide; simpl; lia. Qed.

(** A running request: its slots are committed, nothing of it was freed. *)
Record runs w G r : Prop := {
  rn_ok : ∃ row key idx n, req_ok w G (sr_req r) (committed_tokens strip (sr_req r)) row key idx n;
  rn_committed : kv_committed_freed (sr_req r) = false;
  rn_over : kv_overallocated_freed (sr_req r) = false;
  rn_alloc : speculative mode = true ∨ strip = true ∨ cache_commit_len strip (sr_req r) = kv_allocated_len (sr_req r);
}.

(** The slots of its own: past its cached prefix, and over-allocated ones. *)
Definition slots_in r (row : list Z) : list Z :=
  owned (sr_req r) (committed_tokens strip (sr_req r)) row
  ++ py_slice (over_start ps (cache_commit_len strip (sr_req r))) (kv_allocated_len (sr_req r)) row.
Definition own_slots w r : list Z :=
  match req_pool_idx (sr_req r) ≫= (req_to_token (w_pool w) !!.) with Some row => slots_in r row | None => [] end.
Definition batch_slots w (reqs : list SReq) (i : Z) : Z := zsum ((λ r, occ i (own_slots w r)) <$> reqs).

(** [L] are the locks held by others. *)
Record batch_ok w G L (reqs : list SReq) : Prop := {
  bo_ready : alloc_ready (w_cache w) G (batch_locks L reqs);
  bo_others : locks_nonneg L;
  bo_runs : Forall (runs w G) reqs;
  bo_rows : NoDup (free_slots (w_pool w) ++ omap (λ r, req_pool_idx (sr_req r)) reqs);
}.

Lemma batch_locks_nonneg L reqs : locks_nonneg L → locks_nonneg (batch_locks L reqs).
Proof using. intros HL m. unfold batch_locks, locks_of. specialize (HL m). lia. Qed.

Lemma batch_locks_cons L r reqs n m :
  last_node (sr_req r) = Some n → add_lock (batch_locks L (r :: reqs)) n (-1) m = batch_locks L reqs m.
Proof using.
  intros Hn. unfold add_lock, batch_locks. rewrite locks_of_cons, Hn.
  destruct (decide (m = n)) as [->|Hm]; [rewrite decide_True by done; lia|].
  rewrite decide_False by congruence. lia.
Qed.

Lemma batch_has_lock L r reqs n :
  locks_nonneg L → r ∈ reqs → last_node (sr_req r) = Some n → has_lock (batch_locks L reqs) n.
Proof using.
  intros HL Hr Hn. split; [|intros m _; by apply batch_locks_nonneg].
  unfold batch_locks, locks_of. specialize (HL n).
  assert (r ∈ filter (λ r, last_node (sr_req r) = Some n) reqs) as Hin by (by apply list_elem_of_filter).
  apply list_elem_of_lookup in Hin as [k Hk%lookup_lt_Some]. lia.
Qed.

(** A smaller tree that keeps what is locked. *)
Lemma locked_stays (c : RadixCache KVPool) G G' L n g :
  Inv (view c) G' L → G' ⊆ G → 1 <= L n → G !! n = Some g → G' !! n = Some g.
Proof using.
  intros HI Hsub HL Hg. destruct (G' !! n) as [g'|] eqn:E.
  - pose proof (lookup_weaken _ _ _ _ E Hsub). congruence.
  - apply not_elem_of_dom in E. destruct (inv_locks _ _ _ HI) as [_ _ Hout]. rewrite Hout in HL by done. lia.
Qed.

(** What keeps a request running: the rows, the configuration, and its node. *)
Lemma runs_mono w w' G G' r :
  runs w G r → req_to_token (w_pool w') = req_to_token (w_pool w) → cfg (w_cache w') = cfg (w_cache w) →
  (∀ n g, last_node (sr_req r) = Some n → G !! n = Some g → G' !! n = Some g) → runs w' G' r.
Proof using.
  intros [(row & key & idx & n & [? ? ? Hn ? ? Hlive]) ? ? ?] Hrows Hcfg HG. split; [|done..].
  exists row, key, idx, n. split; rewrite ?Hrows, ?Hcfg; try done. by apply HG.
Qed.

Lemma batch_shrink w w' G G' L reqs :
  Forall (runs w G) reqs → locks_nonneg L → req_to_token (w_pool w') = req_to_token (w_pool w) →
  cfg (w_cache w') = cfg (w_cache w) → Inv (view (w_cache w')) G' (batch_locks L reqs) → G' ⊆ G →
  Forall (runs w' G') reqs.
Proof using.
  intros Hr HL Hrows Hcfg HI Hsub. rewrite Forall_forall in Hr |- *. intros r Hin. eapply runs_mono; [by apply Hr|done|done|].
  intros n g Hn Hg. eapply locked_stays; [exact HI|done| |done]. by eapply batch_has_lock.
Qed.

Lemma batch_slots_rows w w' reqs i :
  req_to_token (w_pool w') = req_to_token (w_pool w) → batch_slots w' reqs i = batch_slots w reqs i.
Proof using. intros Hrows. unfold batch_slots, own_slots. by rewrite Hrows. Qed.

(** ** Evicting and checking *)

(** Eviction on demand keeps the batch running. *)
Lemma wp_batch_evict w G L reqs k :
  batch_ok w G L reqs →
  wp (in_cache (evict_from_tree_cache k)) (λ _ w', ∃ G', batch_ok w' G' L reqs ∧ w_pool w' = w_pool w
    ∧ (∀ i, ledger (w_cache w') G' i = ledger (w_cache w) G i)) w.
Proof using.
  intros [Hready HL Hruns Hrows]. apply wp_in_cache.
  eapply wp_mono; [by apply (wp_evict_from_tree (w_cache w) G (batch_locks L reqs) k)|].
  intros ? c' (G' & Hr' & Hsub & Hcfg & _ & _ & Hled). exists G'. split_and!; [|done|done].
  split; [done|done| |done]. eapply batch_shrink; [done|done|done|done|apply Hr'|done].
Qed.

Lemma wp_check_decode_mem w G L reqs k :
  batch_ok w G L reqs → new_tokens_required_next_decode mode (Z.of_nat ps) reqs = Ok k →
  wp (check_decode_mem mode ps reqs) (λ b w', ∃ G', batch_ok w' G' L reqs ∧ w_pool w' = w_pool w
    ∧ (∀ i, ledger (w_cache w') G' i = ledger (w_cache w) G i)
    ∧ b = bool_decide (k <= Token.available_size (allocator (w_cache w')))) w.
Proof using.
  intros Hb Hk. unfold check_decode_mem. wp_steps. eapply wp_mono; [by apply (wp_batch_evict w G L)|].
  intros ? w' (G' & Hb' & Hp & Hl). wp_steps. exists G'. done.
Qed.

(** ** Releasing a request *)

(** Everything a step may do to the slots: what leaves the batch is in the ledger. *)
Definition conserves w G w' G' (reqs reqs' : list SReq) : Prop :=
  ∀ i, ledger (w_cache w') G' i + batch_slots w' reqs' i = ledger (w_cache w) G i + batch_slots w reqs i.

Lemma own_slots_ok w G r row key idx n :
  req_ok w G (sr_req r) (committed_tokens strip (sr_req r)) row key idx n →
  own_slots w r = slots_in r row.
Proof using. intros [Hidx Hrow _ _ _ _ _]. unfold own_slots. rewrite Hidx. simpl. by rewrite Hrow. Qed.

(** Pages of one slot: exactly its slots are given back. *)
Lemma token_given (a : KVPool) req toks row len start i :
  pool_wf a → (cache_protected_len req ≤ len)%nat → (len ≤ length toks)%nat → (length toks ≤ length row)%nat →
  occ i (given_back a req toks row len) = occ i (owned req toks row)
  ∧ occ i (given_over a start req row) = occ i (py_slice start (kv_allocated_len req) row).
Proof using.
  intros Ha Hp Hl Hr. split; [by apply given_back_owned|]. unfold given_over. case_decide as Hs; [done|].
  unfold py_slice. by replace (kv_allocated_len req - start)%nat with 0%nat by lia.
Qed.

(** A request that left the batch: it keeps its tokens (its prompt only, if it has input
    embeddings) and everything the client asked for, and has no row, no slots and no lock. *)
Definition retracted_req r : SReq := reset_for_retract (set_req (set_pool_idx None (sr_req r)) r).

Lemma wp_batch_release w G L r reqs :
  batch_ok w G L (r :: reqs) →
  wp (release_kv_cache ps (speculative mode) strip (sr_req r) false) (λ q w', batch_ok w' G L reqs
    ∧ reset_for_retract (set_req q r) = retracted_req r
    ∧ req_to_token (w_pool w') = req_to_token (w_pool w) ∧ conserves w G w' G (r :: reqs) reqs) w.
Proof using.
  intros [Hready HL Hruns Hrows]. apply Forall_cons in Hruns as [[(row & key & idx & n & Hro) Hcf Hof Ha] Hruns].
  pose proof Hro as [Hidx Hrow _ Hnode _ _ Hlive]. pose proof Hready as [HI HLn Hpool Hgrp Hon Hoff].
  eapply wp_mono.
  { apply (wp_release w G (batch_locks L (r :: reqs)) ps (speculative mode) strip (sr_req r) row key idx n false); try done.
    eapply batch_has_lock; [done|by left|done]. }
  intros r' w' (G' & HI' & [_ [f Hq] Hrt Hsl Hkv (_ & Hlike & _) Hcfg HG] & Hled). specialize (HG eq_refl). subst G'.
  assert (Inv (view (w_cache w')) G (batch_locks L reqs)) as HI2.
  { eapply Inv_locks_ext; [exact HI'|intros m _; by apply batch_locks_cons|].
    intros m Hm. destruct (inv_locks _ _ _ HI') as [_ _ Hout]. by rewrite <-(batch_locks_cons L r reqs n), Hout. }
  split_and!; [|by rewrite Hq|done|].
  - split.
    + split; rewrite ?Hcfg; try done; [by apply batch_locks_nonneg|]. simpl in Hlike. congruence.
    + done.
    + eapply (batch_shrink w w' G G L); [done|done|done|done|exact HI2|done].
    + rewrite Hsl. simpl in Hrows. rewrite Hidx in Hrows. by rewrite <-app_assoc.
  - intros i. rewrite Hled. unfold batch_slots. rewrite fmap_cons. simpl zsum.
    rewrite (own_slots_ok w G r row key idx n Hro). unfold slots_in. rewrite occ_app.
    destruct (token_given (allocator (w_cache w)) (sr_req r) (committed_tokens strip (sr_req r)) row (key_len key)
      (over_start ps (cache_commit_len strip (sr_req r))) i) as [-> ->];
      [done|by apply (ro_path _ _ _ _ _ _ _ _ Hro)|by apply (req_key_tree _ _ _ _ (ro_key _ _ _ _ _ _ _ _ Hro))
      |by apply (ro_len _ _ _ _ _ _ _ _ Hro)|]. fold (batch_slots w' reqs i) (batch_slots w reqs i).
    rewrite (batch_slots_rows w w') by done. unfold zsum, batch_slots, zsum. lia.
Qed.

Lemma wp_release_req w G L r reqs remaining :
  batch_ok w G L (r :: reqs) →
  wp (release_req ps (speculative mode) strip steps r remaining) (λ r' w', ∃ G', batch_ok w' G' L reqs
    ∧ r' = retracted_req r ∧ req_to_token (w_pool w') = req_to_token (w_pool w) ∧ conserves w G w' G' (r :: reqs) reqs) w.
Proof using.
  intros Hb. unfold release_req. wp_step. eapply wp_mono; [by apply wp_batch_release|].
  intros q w1 (Hb1 & Hq & Hr1 & Hc1). wp_step. eapply wp_mono; [by apply (wp_batch_evict w1 G L reqs)|].
  intros ? w2 (G2 & Hb2 & Hp2 & Hl2). wp_step. exists G2.
  assert (req_to_token (w_pool w2) = req_to_token (w_pool w)) as Hr2 by congruence.
  split_and!; [done|done|done|]. intros i. rewrite Hl2, (batch_slots_rows w1 w2) by congruence. apply Hc1.
Qed.

(** ** Retraction *)

(** The requirement of a batch does not depend on the order of its requests. *)
Lemma zsum_perm (l l' : list Z) : l ≡ₚ l' → zsum l = zsum l'.
Proof using. unfold zsum. induction 1; simpl; lia. Qed.

Lemma required_perm reqs reqs' :
  reqs ≡ₚ reqs' →
  new_tokens_required_next_decode mode (Z.of_nat ps) reqs = new_tokens_required_next_decode mode (Z.of_nat ps) reqs'.
Proof using.
  intros Hp. unfold new_tokens_required_next_decode. destruct mode; [by rewrite Hp|by rewrite (Permutation_length Hp)|].
  destruct (get_alloc_len_per_decode _ _ _ _); simpl; [|done..]. unfold tokens_required_spec_v2. f_equal.
  apply zsum_perm. by rewrite Hp.
Qed.

Lemma batch_slots_perm w reqs reqs' i : reqs ≡ₚ reqs' → batch_slots w reqs i = batch_slots w reqs' i.
Proof using. intros Hp. unfold batch_slots. apply zsum_perm. by rewrite Hp. Qed.

Lemma batch_ok_perm w G L reqs reqs' : reqs ≡ₚ reqs' → batch_ok w G L reqs → batch_ok w G L reqs'.
Proof using.
  intros Hp [Hready HL Hruns Hrows].
  assert (∀ m, batch_locks L reqs m = batch_locks L reqs' m) as Heq.
  { intros m. unfold batch_locks, locks_of. by rewrite Hp. }
  split; [|done|by rewrite <-Hp|by rewrite <-Hp].
  destruct Hready as [HI HLn ? ? ? ?]. split; try done; [|by apply batch_locks_nonneg].
  eapply Inv_locks_ext; [exact HI|done|]. intros m Hm. rewrite <-Heq. by destruct (inv_locks _ _ _ HI) as [_ _ ->].
Qed.

(** The settings are supported: [get_alloc_len_per_decode] does not raise. *)
Definition supported : bool := is_ok (new_tokens_required_next_decode mode (Z.of_nat ps) []).

Lemma supported_total reqs :
  supported = true → ∃ k, new_tokens_required_next_decode mode (Z.of_nat ps) reqs = Ok k.
Proof using.
  unfold supported, new_tokens_required_next_decode. destruct mode; simpl; [by eexists|repeat case_match; by eexists|].
  destruct (get_alloc_len_per_decode _ _ _ _); simpl; [by eexists|done..].
Qed.

Lemma required_nil k : new_tokens_required_next_decode mode (Z.of_nat ps) [] = Ok k → k = 0.
Proof using.
  unfold new_tokens_required_next_decode. destruct mode; simpl; [by intros [= <-]|repeat case_match; intros [= <-]; lia|].
  destruct (get_alloc_len_per_decode _ _ _ _); simpl; [by intros [= <-]|done..].
Qed.

(** The next decode step of [reqs] fits into the free slots. *)
Definition decode_fits w (reqs : list SReq) : Prop :=
  ∃ k, new_tokens_required_next_decode mode (Z.of_nat ps) reqs = Ok k ∧ k <= Token.available_size (allocator (w_cache w)).

Lemma decode_fits_perm w reqs reqs' : reqs ≡ₚ reqs' → decode_fits w reqs → decode_fits w reqs'.
Proof using. intros Hp (k & Hk & Hle). exists k. by rewrite <-(required_perm _ _ Hp). Qed.

Context (Hsup : supported = true).

Lemma wp_check_rev w G L stack :
  batch_ok w G L stack →
  wp (check_decode_mem mode ps (rev stack)) (λ b w', ∃ G', batch_ok w' G' L stack ∧ conserves w G w' G' stack stack
    ∧ if b : bool then decode_fits w' stack else ¬ decode_fits w' stack) w.
Proof using Hsup.
  intros Hb. assert (rev stack ≡ₚ stack) as Hp by (symmetry; apply Permutation_rev).
  destruct (supported_total (rev stack) Hsup) as [k Hk]. eapply wp_mono.
  { by apply (wp_check_decode_mem w G L _ k); [apply (batch_ok_perm w G L stack)|]. }
  intros b w' (G' & Hb' & Hpool & Hl & ->). exists G'. split_and!; [by eapply batch_ok_perm| |].
  - intros i. by rewrite Hl, (batch_slots_rows w w') by congruence.
  - rewrite (required_perm _ _ Hp) in Hk. case_bool_decide; [by exists k|]. intros (k' & Hk' & ?).
    rewrite Hk in Hk'. by simplify_eq.
Qed.

Lemma conserves_trans w1 G1 w2 G2 w3 G3 l1 l2 l3 :
  conserves w1 G1 w2 G2 l1 l2 → conserves w2 G2 w3 G3 l2 l3 → conserves w1 G1 w3 G3 l1 l3.
Proof using. intros H1 H2 i. by rewrite H2, H1. Qed.

(** The loop retracts a prefix of the stack, at least one request stays, and it ends
    with one request or with a batch that fits. *)
Lemma wp_retract_loop stack : ∀ first w G L,
  stack ≠ [] → batch_ok w G L stack →
  wp (retract_loop mode ps strip steps stack first) (λ res w', ∃ G' gone,
    stack = gone ++ res.1 ∧ res.1 ≠ [] ∧ res.2 = retracted_req <$> gone
    ∧ batch_ok w' G' L res.1 ∧ conserves w G w' G' stack res.1
    ∧ (length res.1 = 1%nat ∨ decode_fits w' res.1)
    ∧ (first = true → (1 < length stack)%nat → gone ≠ [])) w.
Proof using Hsup.
  induction stack as [|r rest IH]; intros first w G L Hne Hb; [done|]. simpl. wp_step.
  eapply (wp_mono _ (λ b w', ∃ G', batch_ok w' G' L (r :: rest) ∧ conserves w G w' G' (r :: rest) (r :: rest)
    ∧ if b : bool then first = false ∧ decode_fits w' (r :: rest) else True)).
  { destruct first; [wp_step; by exists G|]. eapply wp_mono; [by apply (wp_check_rev w G L (r :: rest))|].
    intros b w' (G' & Hb' & Hc & Hf). exists G'. by destruct b. }
  intros b w1 (G1 & Hb1 & Hc1 & Hf1). destruct b.
  - destruct Hf1 as [-> Hf1]. wp_step. exists G1, []. simpl. split_and!; try done. by right.
  - destruct rest as [|r2 rest]; [wp_step; exists G1, []; simpl; split_and!; try done; [by left|intros _ ?; lia]|].
    wp_step. eapply wp_mono; [by apply (wp_release_req w1 G1 L r (r2 :: rest))|].
    intros r' w2 (G2 & Hb2 & -> & _ & Hc2). wp_step. eapply wp_mono; [by apply (IH false w2 G2 L)|].
    intros [rem out] w3 (G3 & gone & Hgone & Hrem & Hout & Hb3 & Hc3 & Hend & _). wp_step.
    exists G3, (r :: gone). simpl in *. split_and!; try done; [by rewrite Hgone|by f_equal|].
    by eapply conserves_trans; [|eapply conserves_trans].
Qed.

(** [retract_decode]: the batch is split; what stays fits or is empty. *)
Record retract_result w G L (reqs kept retracted aborted : list SReq) w' G' : Prop := {
  rr_batch : batch_ok w' G' L kept;
  rr_kept : ∃ gone, retract_order mode reqs = kept ++ rev gone
              ∧ retracted ++ aborted = retracted_req <$> gone;
  rr_abort : (length aborted ≤ 1)%nat ∧ (aborted ≠ [] → kept = []);
  rr_fits : decode_fits w' kept;
  rr_slots : conserves w G w' G' reqs kept;
}.

Lemma retract_order_perm reqs : retract_order mode reqs ≡ₚ reqs.
Proof using. unfold retract_order. destruct (speculative mode); [done|apply py_sort_perm]. Qed.

(** The check of the last request. *)
Lemma wp_check_last w G L rem :
  rem ≠ [] → batch_ok w G L rem → (length rem = 1%nat ∨ decode_fits w rem) →
  wp (if bool_decide (length rem <= 1)%nat then fits ← check_decode_mem mode ps (rev rem); mret (negb fits) else mret false)
    (λ b w', ∃ G', batch_ok w' G' L rem ∧ conserves w G w' G' rem rem
      ∧ if b : bool then length rem = 1%nat else decode_fits w' rem) w.
Proof using Hsup.
  intros Hne Hb Hend. case_bool_decide as Hl.
  - wp_step. eapply wp_mono; [by apply (wp_check_rev w G L)|]. intros b w' (G' & Hb' & Hc & Hf). wp_step.
    exists G'. destruct rem as [|? [|]]; [done| |simpl in Hl; lia]. by destruct b.
  - wp_step. exists G. split_and!; [done|done|]. destruct Hend as [Hend|]; [lia|done].
Qed.

(** The last request is aborted: nothing is left. *)
Lemma wp_abort_last w G L r :
  batch_ok w G L [r] →
  wp (release_req ps (speculative mode) strip steps r 0) (λ r' w', ∃ G', batch_ok w' G' L [] ∧ r' = retracted_req r
    ∧ decode_fits w' [] ∧ conserves w G w' G' [r] []) w.
Proof using Hsup.
  intros Hb. eapply wp_mono; [by apply (wp_release_req w G L r [])|].
  intros r' w' (G' & Hb' & Hr & _ & Hc). exists G'. split_and!; [done..| |done].
  destruct (supported_total [] Hsup) as [k Hk]. exists k. split; [done|]. apply required_nil in Hk as ->.
  unfold Token.available_size. lia.
Qed.

Lemma wp_retract_decode w G L reqs :
  reqs ≠ [] → batch_ok w G L reqs →
  wp (retract_decode mode ps strip steps reqs) (λ '(kept, retracted, aborted, ratio) w', ∃ G',
    retract_result w G L reqs kept retracted aborted w' G' ∧ ratio = new_estimate_ratio steps kept
    ∧ ((1 < length reqs)%nat → retracted ≠ [])) w.
Proof using Hsup.
  intros Hne Hb. unfold retract_decode. set (stack := rev (retract_order mode reqs)).
  assert (reqs ≡ₚ stack) as Hp by (unfold stack; by rewrite <-Permutation_rev, retract_order_perm).
  assert (stack ≠ []) as Hst by (intros Hn; rewrite Hn in Hp; by apply Permutation_nil_r in Hp).
  wp_step. eapply wp_mono; [by apply (wp_retract_loop stack true w G L); [|apply (batch_ok_perm w G L reqs)]|].
  intros [rem out] w1 (G1 & gone & Hgone & Hrem & Hout & Hb1 & Hc1 & Hend & Hsome). simpl in *.
  assert (retract_order mode reqs = rev rem ++ rev gone) as Hord.
  { by rewrite <-rev_app_distr, <-Hgone; unfold stack; rewrite rev_involutive. }
  assert (∀ w2 G2, conserves w1 G1 w2 G2 rem rem → conserves w G w2 G2 reqs (rev rem)) as Hcons.
  { intros w2 G2 Hc2 i. rewrite (batch_slots_perm w2 _ rem) by (symmetry; apply Permutation_rev).
    rewrite (batch_slots_perm w reqs stack) by done. by apply (conserves_trans w G w1 G1 w2 G2 stack rem rem). }
  assert ((1 < length reqs)%nat → out ≠ []) as Hsome'.
  { intros Hl ->. rewrite (Permutation_length Hp) in Hl. destruct gone; [by apply Hsome|done]. }
  wp_step. eapply wp_mono; [by apply (wp_check_last w1 G1 L rem)|].
  intros b w2 (G2 & Hb2 & Hc2 & Hf). specialize (Hcons w2 G2 Hc2).
  assert (rem ≡ₚ rev rem) as Hrev by apply Permutation_rev. destruct b.
  - destruct rem as [|r [|]]; [done| |done]. wp_step. eapply wp_mono; [by apply (wp_abort_last w2 G2 L r)|].
    intros r' w3 (G3 & Hb3 & Hr & Hf3 & Hc3). wp_step. exists G3. split_and!; [|done|done].
    split; [done| |simpl; split; [lia|done]|done|by eapply conserves_trans]. exists (gone ++ [r]).
    simpl in Hord. rewrite rev_app_distr, !fmap_app, Hout. simpl. by rewrite Hr.
  - wp_step. exists G2. split_and!; [|done|done]. split; [by eapply batch_ok_perm| |simpl; split; [lia|done]|by eapply decode_fits_perm|done].
    exists gone. by rewrite app_nil_r.
Qed.

(** [update_running_batch]: the batch may shrink, and then the next step fits. *)
Lemma wp_update_running_batch decay min_ratio ratio w G L reqs :
  let live := List.filter (λ r, negb (finished r)) reqs in
  batch_ok w G L live →
  wp (update_running_batch mode ps strip steps decay min_ratio ratio reqs) (λ '(kept, retracted, aborted, _) w', ∃ G',
    batch_ok w' G' L kept ∧ (∃ gone, kept ++ gone ≡ₚ live ∧ retracted ++ aborted ≡ₚ retracted_req <$> gone)
    ∧ (length aborted ≤ 1)%nat ∧ (aborted ≠ [] → kept = []) ∧ decode_fits w' kept ∧ conserves w G w' G' live kept) w.
Proof using Hsup.
  intros live Hb. unfold update_running_batch. fold live. destruct live as [|r rest] eqn:Hlive.
  - wp_step. exists G. split_and!; try done; [by exists []|simpl; lia|]. destruct (supported_total [] Hsup) as [k Hk]. exists k. split; [done|].
    apply required_nil in Hk as ->. unfold Token.available_size. lia.
  - clearbody live. clear Hlive live. set (l := r :: rest) in *. destruct (supported_total l Hsup) as [k Hk].
    wp_step. eapply wp_mono; [by apply (wp_check_decode_mem w G L l k)|].
    intros b w1 (G1 & Hb1 & Hp1 & Hl1 & ->).
    assert (conserves w G w1 G1 l l) as Hc1 by (intros i; by rewrite Hl1, (batch_slots_rows w w1) by congruence).
    case_bool_decide as Hle.
    + wp_step. exists G1. split_and!; try done; [exists []; by rewrite app_nil_r|simpl; lia|by exists k].
    + eapply wp_mono; [by apply (wp_retract_decode w1 G1 L l)|].
      intros [[[kept retracted] aborted] rt] w2 (G2 & [Hb2 (gone & Hord & Hgone) [Hlen Hab] Hf Hc2] & _). exists G2.
      split_and!; try done; [|by eapply conserves_trans]. exists (rev gone).
      by rewrite <-Hord, retract_order_perm, Hgone, <-Permutation_rev.
Qed.

(** What comes later in the order of retraction has made no more progress. *)
Lemma progress_split reqs kept gone :
  mode = SpecNone → retract_order mode reqs = kept ++ gone →
  ∀ r s, r ∈ kept → s ∈ gone → lex_le z_le (progress_key s) (progress_key r) = true.
Proof using.
  intros Hm Hsplit r s Hr Hs.
  assert (StronglySorted (λ r s, lex_le z_le (progress_key s) (progress_key r)) (kept ++ gone)) as Hsort.
  { rewrite <-Hsplit. unfold retract_order, speculative. rewrite Hm. apply py_sort_sorted.
    - intros. apply lex_le_total.
    - intros x y z Hxy Hyz. by apply (lex_le_trans _ (progress_key y)). }
  apply Is_true_true. exact (StronglySorted_app_1_elem_of _ _ _ _ _ Hsort Hr Hs).
Qed.
End running.
