(* ===== verification/SchedTheorems.v ===== *)
(** The properties of the scheduling components, with an instance of each. *)
From S2P Require Import Prelude PySort RadixKey TreeNode EvictPolicy RadixCache RadixInv RadixSplit RadixLeaf.
From S2P Require Import RadixLock RadixSpec RadixOps RadixMatch RadixLockOps RadixTotal Allocator ReqPool ReqCache.
From S2P Require Import RadixTheorems MemCommon MemTheorems PrefillDelayer SchedInput SchedReq ReqMatch.
From S2P Require Import SchedulePolicy PolicyDfs PolicyOrder PrefillAdder AdderInv PrefillPass PassInv.
From Stdlib Require Import QArith Sorted.
From stdpp Require Import options.
Local Open Scope Z_scope.

(** ** Examples *)

#[local] Existing Instance test_env.

(** A request with tokens [toks] that has not been scheduled. *)
Definition new_req (toks : list Z) (i : nat) (prio max_new : Z) : SReq :=
  MkSReq (MkReq toks [] [] None None None [] None 0 0 0 false false 0 0 false)
    i 0 (-1) 0 max_new false 0 prio 0 false None false false false false.
(** The running request of [world2]. *)
Definition run2 : SReq := MkSReq req2 3 0 (-1) 0 4 false 0 0 0 false None false false false false.

Definition dict_order (m : gmap ckey nat) : list nat := (map_to_list m).*2.
Definition empty_policy (p : Policy) : SchedulePolicy :=
  MkPolicy p true (-1) (match create_simulated 0 0 with Ok t => t | _ => MkCache (cfg0 1 false) 0 ∅ 0 0 0 0 ∅ [] tt end).

Lemma empty_policy_ok p : queue_tree_ok (waiting_queue_radix_tree (empty_policy p)).
Proof.
  unfold empty_policy, create_simulated. cbn [waiting_queue_radix_tree].
  destruct (init_cache_spec false 1 false false false "lru" LRUStrategy 0 0 tt) as (c & -> & HI & Hcfg & _); [lia|done|].
  split; [eauto|]. by rewrite Hcfg.
Qed.

Lemma dict_order_perm m : dict_order m ≡ₚ (map_to_list m).*2.
Proof. done. Qed.

Definition sched_cfg (preempt : bool) (max_batch : Z) : SchedConfig :=
  MkSchedCfg 1 max_batch preempt false 0 1000 None false 8 None None false None false false 1.
Definition sched2 (pol : Policy) (q : list SReq) : @Scheduler KVPool :=
  MkSched q [run2] false None false (1 # 2) 0 (empty_policy pol) world2.

Definition queue2 : list SReq := [new_req [4; 5] 7 0 2; new_req [1; 2; 9; 8] 8 0 2].

Lemma sched2_ok pol G : Inv (view cache2) G lock2 → sched_ok (sched2 pol queue2) G lock2.
Proof.
  intros HI. split; simpl.
  - exact HI.
  - exact lock2_nonneg.
  - exact cache2_on.
  - by vm_compute.
  - by vm_compute.
  - repeat constructor. by vm_compute.
  - by repeat constructor.
  - by apply NoDup_ListNoDup; repeat constructor; simpl; intuition lia.
  - exact (empty_policy_ok pol).
Qed.

Lemma plain_cfg : plain_config (sched_cfg false 4).
Proof. split; simpl; [done|done|lia|done]. Qed.

(** ** The prefill pass *)

(** The tokens a batch has to compute, one new KV slot each. *)
Definition batch_tokens (l : list SReq) : Z := foldr (λ r n, extend_input_len r + n) 0 l.

Lemma batch_tokens_need ps l : 0 <= ps → batch_tokens l <= need ps l.
Proof. intros Hps. induction l as [|r l IH]; simpl in *; [lia|]. unfold need in *. lia. Qed.

(** C24: without priority preemption and diffusion models, with the tree cache on and
    its events off, over the token allocator (pages of one slot), a prefill pass
    without a chunked request returns; the requests of the new batch and those left
    waiting are the requests that waited, each once; the running batch, the request
    pool and the allocator are as before; and the slots for the new tokens can be
    allocated, evicting from the tree if need be. *)
Theorem prefill_pass_fits CLIP now gather order shuffle torch_empty force_miss check depr clock set_order sc delayer
    (s : @Scheduler KVPool) G L :
  0 <= CLIP → (∀ m, order m ≡ₚ (map_to_list m).*2) → (∀ l, shuffle l ≡ₚ l) → (∀ n, length (torch_empty n) = n) →
  plain_config sc → sched_ok s G L → alloc_ready (w_cache (sc_world s)) G L → chunked_req s = None →
  ∃ b d s', get_new_batch_prefill_raw CLIP now gather order shuffle torch_empty force_miss check depr clock set_order sc delayer s
      = Ok (b, d, s')
    ∧ rid <$> (default [] b ++ waiting_queue s') ≡ₚ rid <$> waiting_queue s
    ∧ sc_reqs s' = sc_reqs s ∧ w_pool (sc_world s') = w_pool (sc_world s)
    ∧ allocator (w_cache (sc_world s')) = allocator (w_cache (sc_world s))
    ∧ ∃ out st c', alloc_token_slots (Z.to_nat (batch_tokens (default [] b))) false (w_cache (sc_world s'))
        = Ok ((out, st), c') ∧ length out = Z.to_nat (batch_tokens (default [] b)).
Proof.
  intros HC Ho Hsh He Hpc Hs Hr Hch.
  destruct (get_new_batch_prefill_ok CLIP HC now gather order shuffle torch_empty Ho Hsh He force_miss check depr clock
    set_order sc delayer s G L Hpc Hs Hch) as (b & d & s' & E & [(G' & L' & HI & HL) Hp Hc Ha Hrun Hk Hf] & _).
  exists b, d, s'. split_and!; [done..|].
  assert (alloc_ready (w_cache (sc_world s')) G' L') as Hr'.
  { destruct Hr. split; [done|done|by rewrite Ha|by rewrite Ha|by rewrite Hc|by rewrite Hc]. }
  pose proof (alloc_token_slots_spec (w_cache (sc_world s')) G' L' (Z.to_nat (batch_tokens (default [] b))) false Hr') as Hs'.
  rewrite decide_True in Hs'.
  - destruct Hs' as (out & st & c' & G'' & -> & _ & Hl & _). eauto.
  - pose proof (batch_tokens_need (Z.of_nat (sc_page_size sc)) (default [] b) ltac:(lia)).
    pose proof (evictable_nonneg _ _ _ HI). pose proof (sk_free _ _ _ Hs) as Hfree. rewrite <-Ha in Hfree.
    unfold evictable_size in Hf. change (kv_available_size ?a) with (Token.available_size a) in *. lia.
Qed.

Lemma prefill_pass_fits_witness :
  ∃ b s', get_new_batch_prefill_raw 4096 0 (λ r, [r]) dict_order id (λ n, repeat 0 n) false 32 32 Z.of_nat id
      (sched_cfg false 4) None (sched2 (Aware LPM) queue2) = Ok (b, None, s')
    ∧ rid <$> default [] b = [8; 7]%nat.
Proof.
  destruct cache2_Inv as (G & HI & _).
  destruct (prefill_pass_fits 4096 0 (λ r, [r]) dict_order id (λ n, repeat 0 n) false 32 32 Z.of_nat id
    (sched_cfg false 4) None (sched2 (Aware LPM) queue2) G lock2)
    as (b & d & s' & E & _); [lia|exact dict_order_perm|reflexivity|intros n; apply repeat_length|exact plain_cfg
    |exact (sched2_ok (Aware LPM) G HI)|exact (ready2 G HI)|reflexivity|].
  exists b, s'.
  assert (match get_new_batch_prefill_raw 4096 0 (λ r, [r]) dict_order id (λ n, repeat 0 n) false 32 32 Z.of_nat id
      (sched_cfg false 4) None (sched2 (Aware LPM) queue2) with
    | Ok (b, None, _) => rid <$> default [] b | _ => [] end = [8; 7]%nat) as H by (vm_compute; reflexivity).
  rewrite E in H. destruct d; [discriminate H|]. split; [exact E|exact H].
Defined.

(** ** Preemption

    The scheduler states that arrivals and prefill batches lead to, from the start
    of the program: no chunked prefill, prompts that [validate_input_length]
    accepts, whatever tokens the model samples, requests that end when
    [max_new_tokens] are there. *)
Definition at_limit (r : SReq) : bool :=
  bool_decide (max_new_tokens r <= Z.of_nat (length (output_ids (sr_req r)))).

Section served.
Context (set_order : list SReq → list SReq) (sc : SchedConfig) (size : Z) (context_len rows : nat) (ratio : Q).
Abbreviation pass := (get_new_batch_prefill_raw 4096 0 (λ r, [r]) dict_order id (λ n, repeat 0 n) false 32 32
  Z.of_nat set_order sc None).

Inductive served : @Scheduler KVPool → Prop :=
| served_start s :
    init_scheduler "fcfs" "lru" true (schedule_low_priority_values_first sc) size false rows context_len ratio
      = Ok s → served s
| served_request s toks i prio max_new t s' :
    served s → toks ≠ [] → i ∉ (rid <$> waiting_queue s ++ sc_reqs s) →
    handle_generate_request (tp_max_req_len (Z.of_nat context_len) size) false t
      (new_req toks i prio max_new) s = Some s' → served s'
| served_prefill s b d s1 toks s' :
    served s → pass s = Ok (Some b, d, s1) → chunked_req s1 = None → length toks = length b →
    run_prefill (λ _, 0) true at_limit sc b toks s1 = Ok s' → served s'.
End served.

(** Two running requests at most, the default threshold, 64 slots. *)
Definition preempt_cfg : SchedConfig :=
  MkSchedCfg 1 2 true false 10 16384 None false 2 None None false None false false 20.

(** C35: preemption can lose requests.  In a state the scheduler reaches, the
    requests 3 and 4 are running and not finished, and the more important request 7
    waits.  The pass preempts 3 for 7 (whose prompt is not counted yet), then finds
    that 7 does not fit; it returns without a batch, and request 3 is neither
    running nor waiting any more.  It is so whatever the model sampled and in
    whatever order sets are walked. *)
Theorem preempted_request_lost set_order t u :
  ∃ s s', served set_order preempt_cfg 64 64 2 (7 # 10) s
    ∧ (rid <$> sc_reqs s) = [4; 3]%nat ∧ Forall (λ r, finished r = false) (sc_reqs s)
    ∧ ((λ r, last (output_ids (sr_req r))) <$> sc_reqs s) = [Some t; Some u]
    ∧ (rid <$> waiting_queue s) = [7]%nat
    ∧ get_new_batch_prefill_raw 4096 0 (λ r, [r]) dict_order id (λ n, repeat 0 n) false 32 32 Z.of_nat set_order
        preempt_cfg None s = Ok (None, None, s')
    ∧ (rid <$> sc_reqs s') = [4]%nat ∧ (rid <$> waiting_queue s') = [7]%nat ∧ chunked_req s' = None.
Proof.
  eexists _, _. split_and!.
  { eapply (served_request _ _ _ _ _ _ _ (Z.of_nat <$> seq 100 40) 7 11 8 2).
    + eapply (served_prefill _ _ _ _ _ _ _ _ _ _ [t; u]).
      { eapply (served_request _ _ _ _ _ _ _ (Z.of_nat <$> seq 20 30) 4 10 8 1).
        - eapply (served_request _ _ _ _ _ _ _ (Z.of_nat <$> seq 1 10) 3 0 8 0).
          + apply served_start. vm_compute. reflexivity.
          + done.
          + refine (bool_decide_eq_false_1 _ _). vm_compute. reflexivity.
          + vm_compute. reflexivity.
        - done.
        - refine (bool_decide_eq_false_1 _ _). vm_compute. reflexivity.
        - vm_compute. reflexivity. }
      all: [> vm_compute; reflexivity ..].
    + done.
    + refine (bool_decide_eq_false_1 _ _). vm_compute. reflexivity.
    + vm_compute. reflexivity. }
  all: [> vm_compute; first [reflexivity | repeat constructor] ..].
Qed.

(** The requests [preempt_to_schedule] gives up are running, not finished, not
    given up already and less important by more than the threshold; whoever stays
    is at least as important, or as important and older; they are enough, and no
    fewer of them would be. *)
Theorem preempt_choice {A} `{KVAllocator A} CLIP low_first req (s : @AState A) victims :
  choose_preemptible CLIP low_first req s = Some victims →
  let a := as_adder s in
  let sign := if low_first then 1 else -1 in
  let wanted := inject_Z (extend_input_len req + Z.min (max_new_tokens req) CLIP) in
  victims ≠ []
  ∧ Forall (λ r, preemptible s r ∧ preemption_threshold a < (priority req - priority r) * - sign) victims
  ∧ (∀ v r, v ∈ victims → preemptible s r → r ∈ victims ∨ gives_way sign v r)
  ∧ (wanted <= rem_total_tokens s + estimate CLIP (new_token_ratio a) victims)%Q
  ∧ (∀ j, (0 < j < length victims)%nat →
       rem_total_tokens s + estimate CLIP (new_token_ratio a) (take j victims) < wanted)%Q.
Proof. apply choose_preemptible_spec. Qed.

Definition adder_preempt : @AState KVPool :=
  MkAState (new_adder 4096 (sched_cfg true 1) (sched2 (Agnostic FCFS) []) None) world2.

Lemma preempt_choice_witness :
  choose_preemptible 4096 false (new_req [4; 5] 7 10 2) adder_preempt = Some [run2]
  ∧ preemptible adder_preempt run2.
Proof.
  assert (choose_preemptible 4096 false (new_req [4; 5] 7 10 2) adder_preempt = Some [run2]) as E
    by (vm_compute; reflexivity).
  split; [exact E|]. destruct (preempt_choice _ _ _ _ _ E) as (_ & Hv & _). inversion Hv as [|? ? Hr _]. exact (proj1 Hr).
Defined.

(** ** Requests *)

(** [init_next_round_input] leaves the request with all its tokens, the slots of
    the longest prefix the cache holds of what may be taken from it, and at least
    one token to compute; it changes nothing of what is cached. *)
Theorem round_input_correct {A} `{Env} force_miss (c : RadixCache A) G L req :
  Inv (view c) G L → disable (cfg c) = false →
  ∃ req' c' G', init_next_round_input force_miss req c = Ok (req', c')
    ∧ Inv (view c') G' L ∧ refines G G' ∧ frame c c' ∧ rid req' = rid req
    ∧ fill_ids (sr_req req') = origin_input_ids (sr_req req) ++ output_ids (sr_req req)
    ∧ (force_miss = false →
       longest_match (page_size (cfg c)) G (round_units c req) (prefix_indices (sr_req req')))
    ∧ extend_input_len req' + Z.of_nat (length (prefix_indices (sr_req req')))
      = Z.of_nat (length (fill_ids (sr_req req')))
    ∧ (fill_ids (sr_req req') ≠ [] → 1 <= extend_input_len req').
Proof.
  intros HI Hd. destruct (wp_ok _ _ _ (wp_init_next_round_input force_miss c G L req HI Hd))
    as (req' & c' & E & G' & HI' & Hr & Hf & [[Hn Hlm Hh] Hfill Hext Hwork _ Hrid _] & _).
  exists req', c', G'. split_and!; try done; [|intros Hne; apply Hwork; congruence].
  intros Hfm. specialize (Hlm Hfm).
  assert (round_units c' req = round_units c req) as Hu
    by (unfold round_units, tokens_units, query_units; by rewrite (fr_cfg _ _ Hf)).
  rewrite Hu, (fr_cfg _ _ Hf) in Hlm. eapply (refines_longest (view c) (view c')); [apply HI|apply HI'| |done|done].
  simpl. by rewrite (fr_cfg _ _ Hf).
Qed.

Lemma round_input_correct_witness :
  ∃ req' c', init_next_round_input false (new_req [1; 2; 9; 8] 8 0 2) cache2 = Ok (req', c')
    ∧ prefix_indices (sr_req req') = [5; 6] ∧ 1 <= extend_input_len req'.
Proof.
  destruct cache2_Inv as (G & HI & _).
  destruct (round_input_correct false cache2 G lock2 (new_req [1; 2; 9; 8] 8 0 2) HI cache2_on)
    as (req' & c' & G' & E & _ & _ & _ & _ & Hfill & _ & _ & Hwork).
  exists req', c'. split; [exact E|]. split; [|apply Hwork; rewrite Hfill; discriminate].
  assert (match init_next_round_input false (new_req [1; 2; 9; 8] 8 0 2) cache2 with
    | Ok (r, _) => prefix_indices (sr_req r) | _ => [] end = [5; 6]) as H by (vm_compute; reflexivity).
  rewrite E in H. exact H.
Defined.

(** when [add_one_req] cuts a request, the chunk is not empty, shorter than what
    was asked for and within the budget of the pass; prefix and chunk end on a page. *)
Theorem chunk_ends_on_page ps chunk prefix al extend n :
  0 < ps → chunk < ceil_paged_tokens ps extend → (∀ k, al = Some k → 0 < k) →
  chunk_length ps chunk prefix al = Some n →
  0 < n < extend ∧ n <= chunk ∧ (prefix + n) `mod` ps = 0.
Proof.
  intros Hps Hlt Hal Hn. pose proof (chunk_length_lt _ _ _ _ _ _ Hps Hlt Hal Hn) as Hb.
  split; [done|]. unfold chunk_length in Hn. case_bool_decide; [done|].
  set (t := chunk / ps * ps) in *. pose proof (floor_mul_le chunk ps Hps).
  assert (∀ u, u <= t → (if bool_decide ((u + prefix) / ps * ps - prefix <= 0) then None
    else Some ((u + prefix) / ps * ps - prefix)) = Some n → n <= chunk ∧ (prefix + n) `mod` ps = 0) as Hlast.
  { intros u Hu. case_bool_decide; [done|]. intros [= <-]. pose proof (floor_mul_le (u + prefix) ps Hps).
    split; [lia|]. replace (prefix + _) with ((u + prefix) / ps * ps) by lia. apply Z.mod_mul. lia. }
  destruct al as [k|]; [|by apply (Hlast t)]. case_bool_decide; [done|].
  apply (Hlast (k * (t / k))); [|done]. pose proof (floor_mul_le t k (Hal k eq_refl)). lia.
Qed.

Lemma chunk_ends_on_page_witness : chunk_length 4 23 5 (Some 8) = Some 15 ∧ (5 + 15) `mod` 4 = 0.
Proof.
  split; [reflexivity|].
  refine (proj2 (proj2 (chunk_ends_on_page 4 23 5 (Some 8) 40 15 _ _ _ _))); [lia|reflexivity|intros k [= <-]; lia|reflexivity].
Defined.

(** ** The order of the waiting queue *)

(** Under every policy [calc_priority] returns and permutes the waiting queue;
    under a cache-aware one every request then carries a match of all its tokens,
    valid in the tree as it is afterwards.  The tree caches what it cached. *)
Theorem calc_priority_keeps {A} `{Env} order shuffle torch_empty force_miss check depr p q running
    (tree : RadixCache A) G L :
  (∀ m, order m ≡ₚ (map_to_list m).*2) → (∀ l, shuffle l ≡ₚ l) → (∀ n, length (torch_empty n) = n) →
  Inv (view tree) G L → (∀ pol, sp_policy p = Aware pol → disable (cfg tree) = false) →
  queue_tree_ok (waiting_queue_radix_tree p) →
  ∃ b q' p' tree' G' q1,
    calc_priority order shuffle torch_empty force_miss check depr p q running tree = Ok ((b, q', p'), tree')
    ∧ q' ≡ₚ q1 ∧ (if b then Forall2 (rematched force_miss tree' G') q q1 else q1 = q)
    ∧ Inv (view tree') G' L ∧ refines G G' ∧ frame tree tree'.
Proof.
  intros Ho Hs He HI Hd Hq.
  destruct (calc_priority_spec torch_empty He force_miss check depr order shuffle Ho Hs p q running tree G L HI Hd Hq)
    as (b & q' & p' & tree' & E & _ & G' & q1 & HI' & Hr & Hf & Hp & Hb).
  exists b, q', p', tree', G', q1. done.
Qed.

Lemma calc_priority_keeps_witness :
  ∃ q' p' tree', calc_priority dict_order id (λ n, repeat 0 n) false 32 32 (empty_policy (Aware DFS_WEIGHT))
      queue2 None cache2 = Ok ((true, q', p'), tree') ∧ length q' = 2%nat.
Proof.
  destruct cache2_Inv as (G & HI & _).
  destruct (calc_priority_keeps dict_order id (λ n, repeat 0 n) false 32 32 (empty_policy (Aware DFS_WEIGHT))
    queue2 None cache2 G lock2) as (b & q' & p' & tree' & G' & q1 & E & Hp & Hb & _);
    [exact dict_order_perm|reflexivity|intros n; apply repeat_length|exact HI|intros pol _; exact cache2_on
    |exact (empty_policy_ok (Aware DFS_WEIGHT))|].
  assert (match calc_priority dict_order id (λ n, repeat 0 n) false 32 32 (empty_policy (Aware DFS_WEIGHT))
      queue2 None cache2 with Ok ((b, _, _), _) => b | _ => false end = true) as Ht by (vm_compute; reflexivity).
  rewrite E in Ht. subst b. exists q', p', tree'. split; [exact E|].
  rewrite (Permutation_length Hp), <-(Forall2_length _ _ _ Hb). reflexivity.
Defined.

(** C25: [_sort_by_dfs_weight] returns the depth-first order that puts subtrees with
    more waiting requests first, and lists each request on a live node once, those
    of one node in the order they arrived. *)
Theorem dfs_weight_order {A} (c : RadixCache A) G order q :
  tree_ok (view c) G → (∀ m, order m ≡ₚ (map_to_list m).*2) →
  (∀ r, r ∈ q → ∃ n, is_Some (G !! n) ∧ last_node (sr_req r) = Some n) →
  ∃ l, sort_by_dfs_weight order q c = Ok l ∧ dfs_list c G q (root_node c) l ∧ l ≡ₚ q
    ∧ ∀ n, reqs_at l n = reqs_at q n.
Proof.
  intros Ht Ho Hq. destruct (sort_by_dfs_weight_spec c G order q Ht Ho) as (l & E & Hl & Hls).
  assert (∀ r, r ∈ q → ∃ n, n ∈ dom G ∧ last_node (sr_req r) = Some n) as Hq'.
  { intros r (n & Hn & E')%Hq. exists n. split; [by apply elem_of_dom|done]. }
  exists l. split_and!; [done|done|by eapply listed_perm|]. intros n. rewrite (ls_at _ _ _ Hls).
  case_decide as Hn; [done|]. symmetry. apply filter_none. intros r (m & Hm & Em)%Hq' En. congruence.
Qed.

(** A request that was matched at [node2]. *)
Definition at_node2 (i : nat) : SReq := set_req req2 (new_req [1; 2; 9] i 0 2).

Lemma dfs_weight_order_witness :
  ∃ l, sort_by_dfs_weight dict_order [at_node2 1; at_node2 2] cache2 = Ok l ∧ l ≡ₚ [at_node2 1; at_node2 2].
Proof.
  destruct cache2_Inv as (G & HI & Hn).
  destruct (dfs_weight_order cache2 G dict_order [at_node2 1; at_node2 2]) as (l & E & _ & Hp & _);
    [exact (inv_tree _ _ _ HI)|exact dict_order_perm| |].
  - intros r Hr. exists node2. split; [rewrite Hn; eauto|].
    apply elem_of_cons in Hr as [->|[->|Hr]%elem_of_cons]; [reflexivity..|by apply elem_of_nil in Hr].
  - exists l. split; [exact E|exact Hp].
Defined.

(** [_sort_by_longest_prefix] puts longer matches first and the deprioritised
    requests last; requests with equal keys keep their order. *)
Theorem longest_prefix_order dep q :
  let l := sort_by_longest_prefix dep q in
  l ≡ₚ q
  ∧ StronglySorted (λ r s, rid s ∈ dep ∨ (¬ (rid r ∈ dep)
      ∧ (length (prefix_indices (sr_req s)) <= length (prefix_indices (sr_req r)))%nat)) l
  ∧ ∀ k, filter (λ r, prefix_key dep r = k) l = filter (λ r, prefix_key dep r = k) q.
Proof.
  unfold sort_by_longest_prefix. split_and!.
  - apply py_sort_perm.
  - pose proof (py_sort_by_key (prefix_key dep) inf_le q inf_le_total inf_le_trans) as Hs.
    induction Hs as [|r l Hl IH Hr]; constructor; [done|]. eapply Forall_impl; [exact Hr|].
    intros s Hle%Is_true_true. unfold prefix_key in Hle. destruct (decide (rid s ∈ dep)); [by left|].
    destruct (decide (rid r ∈ dep)); simpl in Hle; [done|]. right. split; [done|].
    unfold z_le in Hle. apply bool_decide_eq_true in Hle. lia.
  - intros k. apply py_sort_stable. intros x y -> ->. destruct k; [|done]. apply bool_decide_eq_true. lia.
Qed.

(** ** Prefill delay *)

(** C37: as long as some ranks can prefill and others cannot, no prefill is delayed
    for [max_delay_passes] passes in a row. *)
Theorem delay_bounded ps d :
  Forall undecided ps → 0 <= waited d → max_delay_passes d <= Z.of_nat (length ps) → ps ≠ [] →
  Exists (λ o, output_allow o = true) (run_passes ps d).1.
Proof.
  intros Hps Hw Hlen Hne. destruct (decide (Exists (λ o, output_allow o = true) (run_passes ps d).1)) as [|Hno]; [done|].
  exfalso. assert (Forall (λ o, output_allow o = false) (run_passes ps d).1) as Hf.
  { apply Forall_forall. intros o Ho. destruct (output_allow o) eqn:E; [|done]. exfalso. apply Hno, Exists_exists. eauto. }
  destruct (waiting_passes ps d Hps Hf) as [_ [|Hle]]; [done|lia].
Qed.

Definition delayer0 : PrefillDelayer := MkDelayer 3 None None 5000 2 true None false.
Definition mixed_pass : Q * list RankInfo * NegotiateArgs :=
  (0%Q, [MkInfo 1 0 0 0 0; MkInfo 0 0 0 0 0], MkArgs true 0 0 0 8 0).

Lemma delay_bounded_witness :
  Exists (λ o, output_allow o = true) (run_passes [mixed_pass; mixed_pass; mixed_pass] delayer0).1.
Proof.
  apply (delay_bounded [mixed_pass; mixed_pass; mixed_pass] delayer0); [|vm_compute; discriminate..].
  repeat constructor.
Defined.

(** With the queue trigger off, two ranks that start in step and gather the same
    rows decide alike in every pass, whatever their clocks and local states. *)
Theorem ranks_in_step ps1 ps2 d1 d2 :
  in_step d1 d2 →
  Forall2 (λ p1 p2, p1.1.2 = p2.1.2 ∧ max_running_requests p1.2 = max_running_requests p2.2) ps1 ps2 →
  output_allow <$> (run_passes ps1 d1).1 = output_allow <$> (run_passes ps2 d2).1
  ∧ in_step (run_passes ps1 d1).2 (run_passes ps2 d2).2.
Proof. apply passes_in_step. Qed.

Lemma ranks_in_step_witness :
  output_allow <$> (run_passes [mixed_pass] delayer0).1
  = output_allow <$> (run_passes [((7 # 2)%Q, mixed_pass.1.2, MkArgs false 1 3 2 8 5)] delayer0).1.
Proof.
  refine (proj1 (ranks_in_step [mixed_pass] [((7 # 2)%Q, mixed_pass.1.2, MkArgs false 1 3 2 8 5)] delayer0 delayer0 _ _)).
  - split; reflexivity.
  - repeat constructor.
Defined.

(** ** Input *)

(** The input blocker neither loses, duplicates nor reorders requests: what has
    gone out and what is held back is, in order, what was held back and what came
    in; and nothing is held back while the input is open. *)
Theorem blocker_keeps_requests {R} calls (b : SchedulerInputBlocker R) out b' :
  blocker_ok b → run_handle calls b = Ok (out, b') →
  out ++ pending_reqs b' = pending_reqs b ++ ordinary (concat calls.*1)
  ∧ (bl_state b' = UNBLOCKED → pending_reqs b' = []).
Proof. intros Hb E. destruct (run_handle_keeps calls b out b' Hb E) as [Hb' Hk]. split; [done|apply Hb']. Qed.

Definition calls0 : list (list (recv_obj Z) * bool) :=
  [([RReq 1; RBlock; RReq 2], false); ([RUnblock; RReq 3], false); ([RReq 4], true)].

Lemma blocker_keeps_requests_witness :
  ∃ b', run_handle calls0 (init_blocker false) = Ok ([1; 2; 3; 4], b') ∧ pending_reqs b' = [].
Proof.
  destruct (run_handle calls0 (init_blocker false)) as [[out b']| |] eqn:E;
    [|exfalso; revert E; vm_compute; discriminate..].
  assert (blocker_ok (R := Z) (init_blocker false)) as Hb by (split; reflexivity).
  destruct (blocker_keeps_requests _ _ _ _ Hb E) as [Hk Ho].
  exists b'. vm_compute in E. injection E as <- <-. split; [reflexivity|apply Ho; reflexivity].
Defined.

(** the receive skipper never skips for long: while it skips, the weights of the
    passes since the last receipt stay below the threshold. *)
Theorem recv_skips_bounded ms k :
  (∀ m, 1 <= weight_of k m) → 0 <= sk_counter k →
  Forall (λ b, b = false) (run_skipper ms k).1 →
  ms = [] ∨ sk_counter k + Z.of_nat (length ms) < sk_threshold k.
Proof.
  intros Hw Hc Hf. destruct (skipper_waits ms k Hf) as [_ [->|Hlt]]; [by left|]. right.
  assert (Z.of_nat (length ms) <= foldr Z.add 0 (weight_of k <$> ms)); [|lia].
  clear Hlt Hf. induction ms as [|m ms IH]; [done|]. rewrite fmap_cons. cbn [foldr length]. pose proof (Hw m). lia.
Qed.

Lemma recv_skips_bounded_witness :
  ([Some DECODE; Some DECODE] : list (option forward_mode)) = [] ∨ 0 + 2 < 4.
Proof.
  apply (recv_skips_bounded [Some DECODE; Some DECODE] (MkSkipper 0 4 1000 1 1 1)).
  - intros [[]|]; vm_compute; discriminate.
  - vm_compute. discriminate.
  - vm_compute. repeat constructor.
Defined.

(** ** Estimates without end-of-sequence *)

(** The insertion loop of [add_one_req_ignore_eos] misplaces a request with more
    tokens left than all others: it enters before the last of them, and the list
    that [states_fit] walks is not sorted any more. *)
Theorem late_state_misplaced l x s :
  Forall (λ t, Qle_bool s.1 t.1 = false) (l ++ [x]) → insert_state s (l ++ [x]) = l ++ [s; x].
Proof.
  intros Hl. unfold insert_state.
  assert (insert_index s.1 (l ++ [x]) = length l) as ->.
  { induction l as [|y l IH]; simpl in Hl; apply Forall_cons in Hl as [Hy Hl]; cbn [insert_index app]; rewrite Hy; [done|].
    specialize (IH Hl). destruct (l ++ [x]) eqn:E; [by destruct l|]. simpl length. by rewrite <-IH. }
  by rewrite take_app_length, drop_app_length.
Qed.

Lemma late_state_misplaced_witness :
  insert_state (9%Q, 1) [(2%Q, 3); (5%Q, 4)] = [(2%Q, 3); (9%Q, 1); (5%Q, 4)].
Proof. apply (late_state_misplaced [(2%Q, 3)] (5%Q, 4) (9%Q, 1)). repeat constructor. Defined.
