(* ===== verification/DecodeTheorems.v ===== *)
(** The properties of decoding under memory pressure, with an instance of each. *)
From S2P Require Import Prelude PySort RadixKey TreeNode EvictPolicy RadixCache RadixInv RadixSplit RadixLeaf.
From S2P Require Import RadixLock RadixSpec RadixOps RadixLockOps RadixTotal Allocator ReqPool ReqCache RadixTheorems MemCommon.
From S2P Require Import MemTheorems PrefillDelayer SchedReq SchedulePolicy PrefillAdder Retract RetractInv.
From Stdlib Require Import QArith.
From stdpp Require Import options.
Local Open Scope Z_scope.

Section decode.
Context `{Env}.

(** One slot per request: with pages of one slot and no speculation, the slots a batch
    needs are those [alloc_token_slots] asks for. *)
Lemma required_one reqs :
  new_tokens_required_next_decode SpecNone 1 reqs = Ok (Z.of_nat (length reqs)).
Proof using.
  unfold new_tokens_required_next_decode. rewrite Z.mul_1_r. do 2 f_equal.
  induction reqs as [|r reqs IH]; [done|]. rewrite filter_cons, decide_True by apply Z.mod_1_r. simpl. by f_equal.
Qed.

(** C26: over a token allocator (pages of one slot in the pool) [update_running_batch]
    returns, without an out-of-memory error: it splits the unfinished requests into those
    that keep running, unchanged, and those that leave, of which at most one is aborted,
    and only when no request is kept; a request that leaves keeps its tokens and what the
    client asked for and has lost its row, its slots and its lock.  Its slots are free or
    in the tree again, the running ones keep theirs.  What the next decode step is said to
    need ([new_tokens_required_next_decode]) is then free, and without speculation and
    with pages of one slot the allocation of that step succeeds.  KV-cache events are off. *)
Theorem next_decode_fits ps strip steps decay min_ratio ratio (w : World KVPool) G L mode reqs :
  let live := List.filter (λ r, negb (finished r)) reqs in
  supported mode ps = true → batch_ok mode strip w G L live →
  ∃ kept retracted aborted ratio' w' G',
    update_running_batch mode ps strip steps decay min_ratio ratio reqs w = Ok ((kept, retracted, aborted, ratio'), w')
    ∧ batch_ok mode strip w' G' L kept
    ∧ (∃ gone, kept ++ gone ≡ₚ live ∧ retracted ++ aborted ≡ₚ retracted_req <$> gone)
    ∧ (length aborted ≤ 1)%nat ∧ (aborted ≠ [] → kept = [])
    ∧ conserves ps strip w G w' G' live kept
    ∧ decode_fits mode ps w' kept
    ∧ (mode = SpecNone → ps = 1%nat → ∃ out st c', alloc_token_slots (length kept) false (w_cache w') = Ok ((out, st), c')
         ∧ length out = length kept).
Proof using.
  intros live Hsup Hb.
  destruct (wp_ok _ _ _ (wp_update_running_batch mode ps strip steps Hsup decay min_ratio ratio w G L reqs Hb))
    as ([[[kept retracted] aborted] rt] & w' & E & G' & Hb' & Hids & Hlen & Hab & Hfit & Hc).
  exists kept, retracted, aborted, rt, w', G'. split_and!; try done. intros -> ->. destruct Hfit as (k & Hk & Hle).
  rewrite required_one in Hk. injection Hk as <-.
  pose proof (alloc_token_slots_spec (w_cache w') G' _ (length kept) false (bo_ready _ _ _ _ _ _ Hb')) as Ha.
  pose proof (evictable_nonneg _ _ _ (ar_inv _ _ _ (bo_ready _ _ _ _ _ _ Hb'))).
  rewrite decide_True in Ha by lia. destruct Ha as (out & st & c' & ? & ? & ? & ? & _). by exists out, st, c'.
Qed.

(** When [retract_decode] runs without speculation, the requests with the least
    progress leave first (fewest output tokens, then the longest prompt); at least one
    request is retracted when there are two or more, and the ratio of new tokens is
    estimated from the requests that stay. *)
Theorem retract_least_progress ps strip steps (w : World KVPool) G L reqs :
  reqs ≠ [] → batch_ok SpecNone strip w G L reqs →
  ∃ kept gone retracted aborted w',
    retract_decode SpecNone ps strip steps reqs w = Ok ((kept, retracted, aborted, new_estimate_ratio steps kept), w')
    ∧ kept ++ gone ≡ₚ reqs ∧ retracted ++ aborted ≡ₚ retracted_req <$> gone
    ∧ ((1 < length reqs)%nat → retracted ≠ [])
    ∧ (∀ r s, r ∈ kept → s ∈ gone → lex_le z_le (progress_key s) (progress_key r) = true).
Proof using.
  intros Hne Hb.
  destruct (wp_ok _ _ _ (wp_retract_decode SpecNone ps strip steps eq_refl w G L reqs Hne Hb))
    as ([[[kept retracted] aborted] rt] & w' & E & G' & [_ (gone & Hord & Hids) _ _ _] & -> & Hsome).
  exists kept, (rev gone), retracted, aborted, w'. split_and!; [done| | |done|].
  - by rewrite <-Hord, retract_order_perm.
  - by rewrite Hids, <-Permutation_rev.
  - by apply (progress_split SpecNone reqs).
Qed.
End decode.

(** ** Instances *)
Section decode_witnesses.
#[local] Existing Instance test_env.

(** Three requests run on the cached prefix of [node2]; no slot is free. *)
Definition lock_more (c : RadixCache KVPool) : RadixCache KVPool :=
  match inc_lock_ref node2 c with Ok (_, c) => c | _ => c end.
Definition cache3 : RadixCache KVPool :=
  set_allocator (MkPool 16 1 false false [] [] true []) (lock_more (lock_more cache2)).
Definition pool3 : ReqToTokenPool := MkRPool 3 4 [[0; 0; 0; 0]; [5; 6; 12; 0]; [5; 6; 13; 0]; [5; 6; 14; 0]] [].
Definition world3 : World KVPool := MkWorld cache3 pool3.
Definition run3 (i row : nat) (outs : list Z) (prompt : list Z) : SReq :=
  MkSReq (MkReq prompt outs (prompt ++ outs) None None (Some row) [5; 6] (Some node2) 2 3 3 false false 0 0 false)
    i 0 (-1) 0 4 false 0 0 0 false None false false false false.
Definition reqs3 : list SReq := [run3 1 1 [] [1; 2; 9]; run3 2 2 [9] [1; 2]; run3 3 3 [8] [1; 2]].

Lemma view_set_allocator {A} a (c : RadixCache A) : view (set_allocator a c) = view c.
Proof. done. Qed.

Lemma cache3_Inv : ∃ G, Inv (view cache3) G (batch_locks no_locks reqs3) ∧ G !! node2 = Some gnode2.
Proof.
  destruct cache2_Inv as (G & HI & Hn). exists G. split; [|exact Hn].
  assert (∀ c L, Inv (view c) G L → disable (cfg c) = false →
    Inv (view (lock_more c)) G (add_lock L node2 1) ∧ disable (cfg (lock_more c)) = false) as Hmore.
  { intros c L HIc Hd. destruct (wp_ok _ _ _ (wp_inc_lock_ref c G L node2 HIc Hd ltac:(eauto))) as (d & c' & E & Hc').
    unfold lock_more. rewrite E. destruct Hc' as [HI' [-> _ _ _] _ _ _ _ _]. done. }
  destruct (Hmore cache2 lock2 HI cache2_on) as [HI1 Hd1]. destruct (Hmore _ _ HI1 Hd1) as [HI2 _].
  assert (∀ m, add_lock (add_lock lock2 node2 1) node2 1 m = batch_locks no_locks reqs3 m) as Heq.
  { intros m. unfold batch_locks, reqs3. rewrite !locks_of_cons. unfold add_lock, lock2, add_lock, no_locks, locks_of.
    simpl last_node. destruct (decide (m = node2)) as [->|Hm]; [rewrite decide_True by done; done|].
    rewrite decide_False by congruence. done. }
  unfold cache3. rewrite view_set_allocator.
  eapply Inv_locks_ext; [exact HI2|intros m _; apply Heq|]. intros m Hm. rewrite <-Heq.
  destruct (inv_locks _ _ _ HI2) as [_ _ Hout]. by apply Hout.
Qed.

Lemma run3_runs G i row outs prompt s t :
  G !! node2 = Some gnode2 → req_to_token pool3 !! row = Some [5; 6; s; 0] → prompt ++ outs = [1; 2; t] →
  runs SpecNone false world3 G (run3 i row outs prompt).
Proof.
  intros Hn Hrow Ht. split; [|reflexivity|reflexivity|right; right; reflexivity].
  assert (committed_tokens false (sr_req (run3 i row outs prompt)) = [1; 2; t]) as Htok.
  { unfold committed_tokens. simpl. rewrite Ht. reflexivity. }
  exists [5; 6; s; 0], (MkRadixKey [1; 2; t] None false), row, node2.
  rewrite Htok. split; [reflexivity|exact Hrow|vm_compute; lia|reflexivity|vm_compute; reflexivity|vm_compute; lia|].
  rewrite Hn. vm_compute. reflexivity.
Qed.

Lemma reqs3_ok G :
  Inv (view cache3) G (batch_locks no_locks reqs3) → G !! node2 = Some gnode2 →
  batch_ok SpecNone false world3 G no_locks reqs3.
Proof.
  intros HI Hn. split.
  - split; [exact HI|apply batch_locks_nonneg; intros m; unfold no_locks; lia|vm_compute; reflexivity..].
  - intros m. unfold no_locks. lia.
  - unfold reqs3. repeat apply Forall_cons_2; [..|constructor]; by eapply run3_runs.
  - apply (bool_decide_unpack _). vm_compute. exact I.
Qed.

(** The tree gives up two slots, so one of the three requests leaves. *)
Lemma next_decode_fits_witness :
  ∃ kept retracted ratio' w', update_running_batch SpecNone 1 false 20 (1 # 10) (1 # 5) (1 # 2) reqs3 world3
      = Ok ((kept, retracted, [], ratio'), w')
    ∧ rid <$> kept = [2; 3]%nat ∧ rid <$> retracted = [1]%nat.
Proof.
  destruct cache3_Inv as (G & HI & Hn).
  destruct (next_decode_fits 1 false 20 (1 # 10) (1 # 5) (1 # 2) world3 G no_locks SpecNone reqs3 eq_refl
    (reqs3_ok G HI Hn)) as (kept & retracted & aborted & rt & w' & G' & E & _).
  exists kept, retracted, rt, w'.
  assert (match update_running_batch SpecNone 1 false 20 (1 # 10) (1 # 5) (1 # 2) reqs3 world3 with
    | Ok ((k, r, a, _), _) => bool_decide ((rid <$> k, rid <$> r, length a) = ([2; 3]%nat, [1]%nat, 0%nat)) | _ => false end
    = true) as Hc by (vm_compute; reflexivity).
  rewrite E in Hc. apply bool_decide_eq_true in Hc. injection Hc as Hk Hr Ha.
  destruct aborted; [|discriminate Ha]. split; [exact E|]. split; [exact Hk|exact Hr].
Defined.

Lemma retract_least_progress_witness :
  ∃ kept retracted aborted rt w', retract_decode SpecNone 1 false 20 reqs3 world3 = Ok ((kept, retracted, aborted, rt), w')
    ∧ retracted ≠ [].
Proof.
  destruct cache3_Inv as (G & HI & Hn).
  destruct (retract_least_progress 1 false 20 world3 G no_locks reqs3 ltac:(discriminate) (reqs3_ok G HI Hn))
    as (kept & gone & retracted & aborted & w' & E & _ & _ & Hs & _).
  exists kept, retracted, aborted, (new_estimate_ratio 20 kept), w'. split; [exact E|]. apply Hs. simpl. lia.
Defined.
End decode_witnesses.
