(* ===== verification/PyStr.v ===== *)
(** Python strings: lists of code points with [find], [in], [startswith], [replace]
    and [strip]. *)
From S2P Require Import Prelude.
From Stdlib Require Import Ascii.
From stdpp Require Import list options.

Definition text : Type := list Z.

(** A literal of the source. *)
Fixpoint of_ascii (s : string) : text :=
  match s with
  | EmptyString => []
  | String c s => Z.of_N (N_of_ascii c) :: of_ascii s
  end.

(** [s.startswith(t)] *)
Definition starts (t s : text) : bool := bool_decide (t `prefix_of` s).

(** [s.find(t)], [None] for -1. *)
Fixpoint find (t s : text) : option nat :=
  if starts t s then Some 0 else match s with [] => None | _ :: s => S <$> find t s end.
(** [t in s] *)
Definition contains (t s : text) : bool := match find t s with Some _ => true | None => false end.

(** [s.replace(t, "", 1)] *)
Definition remove_first (t s : text) : text :=
  match find t s with Some i => take i s ++ drop (i + length t) s | None => s end.

(** [s.replace(t, "")]: [skip] characters of an occurrence are still to be dropped. *)
Fixpoint remove_from (t : text) (skip : nat) (s : text) : text :=
  match s with
  | [] => []
  | x :: s' =>
      match skip with
      | S k => remove_from t k s'
      | 0 => if starts t (x :: s') then remove_from t (length t - 1) s' else x :: remove_from t 0 s'
      end
  end.
Definition remove_all (t s : text) : text := match t with [] => s | _ => remove_from t 0 s end.

(** [str.isspace] of one character. *)
Definition isspace (x : Z) : bool :=
  bool_decide (9 <= x <= 13)%Z || bool_decide (28 <= x <= 32)%Z || bool_decide (x = 133)%Z
  || bool_decide (x = 160)%Z || bool_decide (x = 5760)%Z || bool_decide (8192 <= x <= 8202)%Z
  || bool_decide (x = 8232)%Z || bool_decide (x = 8233)%Z || bool_decide (x = 8239)%Z
  || bool_decide (x = 8287)%Z || bool_decide (x = 12288)%Z.

Fixpoint lstrip (s : text) : text :=
  match s with [] => [] | x :: s' => if isspace x then lstrip s' else s end.
Definition rstrip (s : text) : text := reverse (lstrip (reverse s)).
Definition strip (s : text) : text := rstrip (lstrip s).

(** ** Occurrences *)

(** [a] is what precedes the first [t] in [s], [b] what follows it. *)
Record first_occ (t s a b : text) : Prop := {
  fo_split : s = a ++ t ++ b;
  fo_first : ∀ a' b', s = a' ++ t ++ b' → length a ≤ length a';
}.

Lemma starts_spec t s : starts t s = true ↔ ∃ b, s = t ++ b.
Proof. unfold starts. rewrite bool_decide_eq_true. done. Qed.

Lemma find_None t s : find t s = None ↔ ∀ a b, s ≠ a ++ t ++ b.
Proof.
  split.
  - revert t. induction s as [|x s IH]; intros t; simpl; destruct (starts t _) eqn:E; try done.
    + intros _ a b Hs. assert (starts t [] = true); [|congruence]. apply starts_spec.
      destruct a; [by exists b|done].
    + destruct (find t s) eqn:Ef; simpl; [done|]. intros _ [|y a] b Hs.
      * assert (starts t (x :: s) = true); [|congruence]. apply starts_spec. by exists b.
      * simplify_eq/=. by eapply (IH t).
  - intros Hno. induction s as [|x s IH]; simpl; destruct (starts t _) eqn:E.
    + apply starts_spec in E as [b E]. by destruct (Hno [] b).
    + done.
    + apply starts_spec in E as [b E]. by destruct (Hno [] b).
    + rewrite IH; [done|]. intros a b ->. by apply (Hno (x :: a) b).
Qed.

Lemma find_Some t s i : find t s = Some i → ∃ a b, first_occ t s a b ∧ length a = i.
Proof.
  revert i. induction s as [|x s IH]; intros i; simpl; destruct (starts t _) eqn:E; try done.
  - apply starts_spec in E as [b E]. intros [= <-]. exists [], b. split; [|done]. split; [done|]. simpl. lia.
  - apply starts_spec in E as [b E]. intros [= <-]. exists [], b. split; [|done]. split; [done|]. simpl. lia.
  - destruct (find t s) as [j|] eqn:Ef; simpl; [|done]. intros [= <-].
    destruct (IH j eq_refl) as (a & b & [Hs Hf] & Hl). exists (x :: a), b. split; [|simpl; lia].
    split; [by rewrite Hs|]. intros [|y a'] b' Heq; simpl.
    + assert (starts t (x :: s) = true); [|congruence]. apply starts_spec. by exists b'.
    + injection Heq as -> Heq. apply Hf in Heq. lia.
Qed.

Lemma first_occ_find t s a b : first_occ t s a b → find t s = Some (length a).
Proof.
  intros [Hs Hf]. destruct (find t s) as [i|] eqn:E.
  - apply find_Some in E as (a' & b' & [Hs' Hf'] & <-). f_equal.
    apply Hf in Hs'. apply Hf' in Hs. lia.
  - rewrite find_None in E. by destruct (E a b).
Qed.

Lemma find_first_occ t s a b : s = a ++ t ++ b → find t s = Some (length a) → first_occ t s a b.
Proof.
  intros Hs Hf. apply find_Some in Hf as (a' & b' & [Hs' Hmin] & Hl). split; [done|].
  intros c e Hc. rewrite <-Hl. by apply (Hmin c e).
Qed.

Lemma contains_spec t s : contains t s = true ↔ ∃ a b, s = a ++ t ++ b.
Proof.
  unfold contains. destruct (find t s) eqn:E.
  - split; [|done]. intros _. apply find_Some in E as (a & b & [Hs _] & _). by exists a, b.
  - split; [done|]. intros (a & b & ->). rewrite find_None in E. by destruct (E a b).
Qed.

Lemma contains_false t s : contains t s = false ↔ ∀ a b, s ≠ a ++ t ++ b.
Proof.
  rewrite <-not_true_iff_false, contains_spec. naive_solver.
Qed.

(** A part of a text without [t] has no [t]. *)
Lemma contains_part t a s b : contains t (a ++ s ++ b) = false → contains t s = false.
Proof.
  rewrite !contains_false. intros Hno c d ->. apply (Hno (a ++ c) (d ++ b)). by rewrite <-!app_assoc.
Qed.

(** The first occurrence as taken and dropped. *)
Lemma first_occ_take t s a b :
  first_occ t s a b → take (length a) s = a ∧ drop (length a + length t) s = b.
Proof.
  intros [-> _]. rewrite take_app_length, <-drop_drop, drop_app_length, drop_app_length. done.
Qed.

(** ** Stripping *)

Lemma lstrip_app_space s s' : Forall (λ x, isspace x = true) s → lstrip (s ++ s') = lstrip s'.
Proof. induction 1 as [|x s Hx _ IH]; simpl; [done|]. by rewrite Hx. Qed.

Lemma lstrip_split s : ∃ w, s = w ++ lstrip s ∧ Forall (λ x, isspace x = true) w.
Proof.
  induction s as [|x s (w & Hs & Hw)]; simpl; [by exists []|]. destruct (isspace x) eqn:E.
  - exists (x :: w). split; [by rewrite Hs at 1|by constructor].
  - by exists [].
Qed.

Lemma rstrip_split s : ∃ w, s = rstrip s ++ w ∧ Forall (λ x, isspace x = true) w.
Proof.
  destruct (lstrip_split (reverse s)) as (w & Hs & Hw). exists (reverse w). split; [|by apply Forall_reverse].
  unfold rstrip. rewrite <-reverse_app, <-Hs. by rewrite reverse_involutive.
Qed.

(** A text that neither begins nor ends with a space, and is not empty. *)
Definition solid (t : text) : Prop :=
  match head t, last t with Some x, Some y => isspace x = false ∧ isspace y = false | _, _ => False end.

Definition spaces (w : text) : Prop := Forall (λ x, isspace x = true) w.

Lemma rstrip_app_space s w : spaces w → rstrip (s ++ w) = rstrip s.
Proof. intros Hw. unfold rstrip. rewrite reverse_app, lstrip_app_space; [done|by apply Forall_reverse]. Qed.

(** What is left does not begin with a space. *)
Lemma lstrip_head s x u : lstrip s = x :: u → isspace x = false.
Proof. induction s as [|y s IH]; simpl; [done|]. destruct (isspace y) eqn:Hy; [done|]. by intros [= <- _]. Qed.

Lemma lstrip_app s s' : lstrip s ≠ [] → lstrip (s ++ s') = lstrip s ++ s'.
Proof. induction s as [|y s IH]; simpl; [done|]. by destruct (isspace y). Qed.

Lemma rstrip_app s s' : rstrip s ≠ [] → rstrip (s' ++ s) = s' ++ rstrip s.
Proof.
  unfold rstrip. intros Hs. rewrite reverse_app, lstrip_app, reverse_app, reverse_involutive; [done|].
  by destruct (lstrip (reverse s)).
Qed.

Lemma lstrip_nonspace x s : isspace x = false → lstrip (x :: s) = x :: s.
Proof. simpl. by intros ->. Qed.

Lemma solid_lstrip t : solid t → lstrip t = t.
Proof. unfold solid. destruct t as [|x t]; [done|]. destruct (last (x :: t)); [|done]. intros [Hx _]. by apply lstrip_nonspace. Qed.

Lemma solid_nonempty t : solid t → t ≠ [].
Proof. by intros Ht ->. Qed.

Lemma solid_reverse t : solid t → solid (reverse t).
Proof. unfold solid. rewrite head_reverse, last_reverse. destruct (head t), (last t); tauto. Qed.

Lemma solid_rstrip t : solid t → rstrip t = t.
Proof. intros Ht. unfold rstrip. rewrite solid_lstrip by (by apply solid_reverse). by rewrite reverse_involutive. Qed.

Lemma rstrip_lstrip s : rstrip (lstrip s) = lstrip (rstrip s).
Proof.
  destruct (lstrip_split s) as (w & Hs & Hw). destruct (lstrip s) as [|x u] eqn:E.
  - rewrite app_nil_r in Hs. subst w. destruct (rstrip_split s) as (w' & Hs' & _).
    rewrite Hs' in Hw. apply Forall_app in Hw as [Hw _]. by rewrite <-(app_nil_r (rstrip s)), lstrip_app_space.
  - apply lstrip_head in E. destruct (rstrip_split (x :: u)) as (w' & Hs' & Hw').
    destruct (rstrip (x :: u)) as [|y u'] eqn:Er.
    + simpl in Hs'. subst w'. apply Forall_cons in Hw' as [Hw' _]. congruence.
    + injection Hs' as <- _. rewrite Hs, rstrip_app, Er, lstrip_app_space by (done || by rewrite Er).
      by rewrite lstrip_nonspace.
Qed.

Lemma lstrip_idemp s : lstrip (lstrip s) = lstrip s.
Proof. destruct (lstrip s) as [|x u] eqn:E; [done|]. by rewrite lstrip_nonspace by (by eapply lstrip_head). Qed.
Lemma rstrip_idemp s : rstrip (rstrip s) = rstrip s.
Proof. unfold rstrip. by rewrite reverse_involutive, lstrip_idemp. Qed.

Lemma strip_lstrip s : strip (lstrip s) = strip s.
Proof. unfold strip. by rewrite lstrip_idemp. Qed.
Lemma strip_rstrip s : strip (rstrip s) = strip s.
Proof. unfold strip. by rewrite !rstrip_lstrip, rstrip_idemp. Qed.
Lemma strip_app_space s w : spaces w → strip (s ++ w) = strip s.
Proof. intros Hw. by rewrite <-strip_rstrip, rstrip_app_space, strip_rstrip. Qed.

(** Around a solid text the two ends are stripped separately. *)
Lemma strip_around a t b : solid t → strip (a ++ t ++ b) = lstrip a ++ t ++ rstrip b.
Proof.
  intros Ht. assert (lstrip (a ++ t ++ b) = lstrip a ++ t ++ b) as Hl.
  { destruct (lstrip_split a) as (w & Ha & Hw). destruct (lstrip a) as [|x u] eqn:E.
    - rewrite app_nil_r in Ha. subst w. rewrite lstrip_app_space by done.
      rewrite lstrip_app; rewrite solid_lstrip; [done|done|by apply solid_nonempty|done].
    - rewrite lstrip_app by (by rewrite E). by rewrite E. }
  unfold strip. rewrite Hl. assert (rstrip (t ++ b) = t ++ rstrip b) as Hr.
  { destruct (rstrip_split b) as (w & Hb & Hw). destruct (rstrip b) as [|x u] eqn:E.
    - simpl in Hb. subst w. rewrite rstrip_app_space, app_nil_r by done. by apply solid_rstrip.
    - rewrite rstrip_app by (by rewrite E). by rewrite E. }
  rewrite rstrip_app, Hr; [done|]. rewrite Hr. pose proof (solid_nonempty t Ht). by destruct t.
Qed.

(** ** Removing *)

Lemma remove_from_none t s : t ≠ [] → contains t s = false → remove_from t 0 s = s.
Proof.
  intros Ht. induction s as [|x s IH]; intros Hno; [done|]. cbn [remove_from]. destruct (starts t (x :: s)) eqn:E.
  - apply starts_spec in E as [b E]. rewrite contains_false in Hno. by destruct (Hno [] b).
  - f_equal. apply IH. rewrite contains_false in *. intros a b ->. by apply (Hno (x :: a) b).
Qed.

Lemma remove_from_skip t w s : remove_from t (length w) (w ++ s) = remove_from t 0 s.
Proof. induction w as [|x w IH]; [done|]. exact IH. Qed.

Lemma remove_all_none t s : t ≠ [] → contains t s = false → remove_all t s = s.
Proof. intros Ht Hno. unfold remove_all. destruct t; [done|]. by apply remove_from_none. Qed.

Lemma remove_all_lead t s : t ≠ [] → contains t s = false → remove_all t (t ++ s) = s.
Proof.
  intros Ht Hno. unfold remove_all. destruct t as [|x t]; [done|]. cbn [app remove_from].
  assert (starts (x :: t) (x :: t ++ s) = true) as -> by (apply starts_spec; by exists s).
  replace (length (x :: t) - 1) with (length t) by (simpl; lia). rewrite remove_from_skip. by apply remove_from_none.
Qed.

Lemma remove_first_lead t s : remove_first t (t ++ s) = s.
Proof.
  unfold remove_first. rewrite (first_occ_find t (t ++ s) [] s); [|split; [done|simpl; lia]].
  simpl. by rewrite drop_app_length.
Qed.

(** The first occurrence in a suffix that still has it. *)
Lemma first_occ_suffix t s a1 a2 b : first_occ t s (a1 ++ a2) b → first_occ t (a2 ++ t ++ b) a2 b.
Proof.
  intros [Hs Hf]. split; [done|]. intros a' b' Heq. specialize (Hf (a1 ++ a') b').
  rewrite !length_app, <-!app_assoc in Hf. rewrite Hs, <-!app_assoc, Heq in Hf. specialize (Hf eq_refl). lia.
Qed.

(** Cutting off behind the occurrence. *)
Lemma first_occ_cut t s a b1 b2 : first_occ t s a (b1 ++ b2) → first_occ t (a ++ t ++ b1) a b1.
Proof.
  intros [Hs Hf]. split; [done|]. intros a' b' Heq. apply (Hf a' (b' ++ b2)).
  rewrite Hs, (app_assoc t), (app_assoc a), Heq. by rewrite <-!app_assoc.
Qed.

(** Before the occurrence there is none. *)
Lemma first_occ_before t s a b p q : first_occ t s a b → t ≠ [] → a = p ++ q → contains t p = false.
Proof.
  intros [Hs Hf] Ht Ha. apply contains_false. intros c d Hp. specialize (Hf c (d ++ q ++ t ++ b)).
  rewrite Hs, Ha, Hp, <-!app_assoc in Hf. specialize (Hf eq_refl). rewrite !length_app in Hf. destruct t; [done|].
  simpl in Hf. lia.
Qed.

(** ** [bytes.decode("utf-8", errors="replace")]

    A decoder state: nothing, or a character that has begun, with its value so far, the
    number of bytes that are missing and the bounds of the next one.  A byte that does not
    fit ends the begun character with one replacement character and is looked at again. *)
Section utf8.
Local Open Scope Z_scope.

Definition utf8_replacement : Z := 65533.
Record begun := MkBegun { u_value : Z; u_missing : nat; u_low : Z; u_high : Z }.

Definition utf8_start (b : Z) : text * option begun :=
  if bool_decide (0 <= b <= 127) then ([b], None)
  else if bool_decide (194 <= b <= 223) then ([], Some (MkBegun (b - 192) 1 128 191))
  else if bool_decide (224 <= b <= 239) then
    ([], Some (MkBegun (b - 224) 2 (if decide (b = 224) then 160 else 128) (if decide (b = 237) then 159 else 191)))
  else if bool_decide (240 <= b <= 244) then
    ([], Some (MkBegun (b - 240) 3 (if decide (b = 240) then 144 else 128) (if decide (b = 244) then 143 else 191)))
  else ([utf8_replacement], None).
Definition utf8_step (s : option begun) (b : Z) : text * option begun :=
  match s with
  | None => utf8_start b
  | Some u =>
      if bool_decide (u_low u <= b <= u_high u) then
        let v := u_value u * 64 + (b - 128) in
        match u_missing u with
        | S (S n) => ([], Some (MkBegun v (S n) 128 191))
        | _ => ([v], None)
        end
      else (utf8_replacement :: (utf8_start b).1, (utf8_start b).2)
  end.
Fixpoint utf8_run (s : option begun) (bs : list Z) : text * option begun :=
  match bs with
  | [] => ([], s)
  | b :: bs => let '(t, s) := utf8_step s b in let '(t', s) := utf8_run s bs in (t ++ t', s)
  end.
Definition utf8_end (s : option begun) : text := match s with None => [] | Some _ => [utf8_replacement] end.
Definition utf8_decode (bs : list Z) : text := let '(t, s) := utf8_run None bs in t ++ utf8_end s.

Lemma utf8_run_app a b : ∀ s,
  utf8_run s (a ++ b) = ((utf8_run s a).1 ++ (utf8_run (utf8_run s a).2 b).1, (utf8_run (utf8_run s a).2 b).2).
Proof.
  induction a as [|x a IH]; intros s; simpl; [by destruct (utf8_run s b)|]. destruct (utf8_step s x) as [t s1]. rewrite IH.
  destruct (utf8_run s1 a) as [t1 s2]. simpl. by rewrite app_assoc.
Qed.

Lemma utf8_decode_run bs : utf8_decode bs = (utf8_run None bs).1 ++ utf8_end (utf8_run None bs).2.
Proof. unfold utf8_decode. by destruct (utf8_run None bs). Qed.

(** Behind a text that does not end with a broken character decoding starts anew. *)
Lemma utf8_decode_app a b :
  last (utf8_decode a) ≠ Some utf8_replacement → utf8_decode (a ++ b) = utf8_decode a ++ utf8_decode b.
Proof.
  rewrite !utf8_decode_run, utf8_run_app. destruct (utf8_run None a) as [t [u|]]; simpl.
  - by rewrite last_snoc.
  - intros _. by rewrite app_nil_r, app_assoc.
Qed.

(** Only broken characters at the end change when bytes are added. *)
Lemma utf8_decode_stable a b t k :
  utf8_decode a = t ++ replicate k utf8_replacement → last t ≠ Some utf8_replacement → t `prefix_of` utf8_decode (a ++ b).
Proof.
  rewrite !utf8_decode_run, utf8_run_app. destruct (utf8_run None a) as [ta s]. simpl. intros E Hl.
  assert (t `prefix_of` ta) as Hp; [|by do 2 apply prefix_app_r]. destruct s as [u|]; simpl in E; [|rewrite app_nil_r in E; subst; by apply prefix_app_r].
  destruct k as [|k]; [rewrite app_nil_r in E; subst; by rewrite last_snoc in Hl|].
  rewrite replicate_S_end, app_assoc in E. apply app_inj_2 in E as [-> _]; [|done]. by apply prefix_app_r.
Qed.
End utf8.

(** A two-byte and a three-byte character, a broken one, and one cut at the end. *)
Example utf8_decode_examples :
  utf8_decode [195; 169; 227; 129; 174; 97]%Z = [233; 12398; 97]%Z
  ∧ utf8_decode [227; 129; 97; 227]%Z = [65533; 97; 65533]%Z ∧ utf8_decode [237; 160; 128]%Z = [65533; 65533; 65533]%Z.
Proof. by vm_compute. Qed.
