(* ===== verification/ReasoningParser.v ===== *)
(** Separating the reasoning of a model from its answer: parser/reasoning_parser.py.

    A detector finds the tags around the reasoning, either in the whole output
    ([detect_and_parse]) or chunk by chunk ([parse_streaming_increment]).  The GPT-OSS
    detector delegates to [HarmonyParser.parse], an argument here.  The model name of
    [ReasoningParser] is an ASCII string. *)
From S2P Require Import Prelude PyStr.
From Stdlib Require Import Ascii.
From stdpp Require Import options.
Local Open Scope string_scope.
Local Open Scope list_scope.

Definition t_ (s : string) : text := of_ascii s.

(** [StreamingParseResult] *)
Record ParseResult := MkParse { normal_text : text; reasoning_text : text }.

(** [event_type], [content], [raw_text] of an event of the Harmony parser. *)
Record Event := MkEvent { event_type : string; content : text; raw_text : option text }.

(** Which class overrides the two methods, with the attributes it adds. *)
Inductive Override {H : Type} :=
  | NoOverride
  | GptOss (parser : H)
  | AppendThink (is_first_chunk : bool)
  | Nemotron3 (force_nonempty_content : bool).
Arguments Override : clear implicits.

Section detectors.
Context {H : Type} (harmony_new : H) (harmony_parse : H → text → list Event * H).

(** The attributes of a detector. *)
Record Detector := MkDetector {
  think_start_token : text;
  think_end_token : text;
  think_excluded_tokens : option (list text);
  tool_start_token : option text;
  force_reasoning : bool;
  stream_reasoning : bool;
  thinks_internally : bool;
  reasoning_default : string;
  think_start_self_label : text;
  previous_content : text;
  override : Override H;
  in_reasoning : bool;
  buffer : text;
  stripped_think_start : bool;
}.

Definition set_state (r : bool) (b : text) (st : bool) (d : Detector) : Detector :=
  MkDetector (think_start_token d) (think_end_token d) (think_excluded_tokens d) (tool_start_token d)
    (force_reasoning d) (stream_reasoning d) (thinks_internally d) (reasoning_default d)
    (think_start_self_label d) (previous_content d) (override d) r b st.
Definition set_override (o : Override H) (d : Detector) : Detector :=
  MkDetector (think_start_token d) (think_end_token d) (think_excluded_tokens d) (tool_start_token d)
    (force_reasoning d) (stream_reasoning d) (thinks_internally d) (reasoning_default d)
    (think_start_self_label d) (previous_content d) o (in_reasoning d) (buffer d) (stripped_think_start d).
Definition set_self_label (l : text) (d : Detector) : Detector :=
  MkDetector (think_start_token d) (think_end_token d) (think_excluded_tokens d) (tool_start_token d)
    (force_reasoning d) (stream_reasoning d) (thinks_internally d) (reasoning_default d)
    l (previous_content d) (override d) (in_reasoning d) (buffer d) (stripped_think_start d).
Definition set_reasoning_default (s : string) (d : Detector) : Detector :=
  MkDetector (think_start_token d) (think_end_token d) (think_excluded_tokens d) (tool_start_token d)
    (force_reasoning d) (stream_reasoning d) (thinks_internally d) s (think_start_self_label d)
    (previous_content d) (override d) (in_reasoning d) (buffer d) (stripped_think_start d).

(** [BaseReasoningFormatDetector.__init__]; [continue] is [previous_content] when
    [continue_final_message] is set. *)
Definition base_init (start stop : text) (excluded : option (list text)) (force stream : bool)
    (tool : option text) (continue : option text) (internally : bool) (switch : string) : Detector :=
  let prev := default [] continue in
  let r := if contains start prev then true else force in
  let r := if contains stop prev then false else r in
  MkDetector start stop excluded tool force stream internally switch [] prev NoOverride r [] false.

(** [BaseReasoningFormatDetector.detect_and_parse] *)
Definition base_detect_and_parse (d : Detector) (t : text) : ParseResult :=
  if negb (in_reasoning d || contains (think_start_token d) t) then MkParse t []
  else
    let processed := strip (remove_all (think_start_token d ++ think_start_self_label d) t) in
    if negb (contains (think_end_token d) processed) && negb (contains (think_end_token d) (previous_content d)) then
      match tool_start_token d with
      | Some tool =>
          match find tool processed with
          | Some i => MkParse (drop i processed) (strip (take i processed))
          | None => MkParse [] processed
          end
      | None => MkParse [] processed
      end
    else
      match find (think_end_token d) processed with
      | Some i => MkParse (strip (drop (i + length (think_end_token d)) processed)) (take i processed)
      | None => MkParse processed []
      end.

(** [if self.tool_start_token]: unset and empty do not count. *)
Definition tool_token (d : Detector) : option text :=
  match tool_start_token d with Some [] | None => None | Some t => Some t end.

(** [token.startswith(current_text) and token != current_text] *)
Definition may_begin (current token : text) : bool := starts current token && bool_decide (token ≠ current).

(** [BaseReasoningFormatDetector.parse_streaming_increment] *)
Definition base_parse_streaming_increment (d : Detector) (new_text : text) : ParseResult * Detector :=
  let buf := buffer d ++ new_text in
  let think_start_text := think_start_token d ++ think_start_self_label d in
  let tokens_to_check := [think_start_text; think_end_token d] ++ option_list (tool_token d) in
  if existsb (may_begin buf) tokens_to_check
  then (MkParse [] [], set_state (in_reasoning d) buf (stripped_think_start d) d)
  else
    let strip_start := negb (stripped_think_start d) && contains think_start_text buf in
    let current_text := if strip_start then remove_first think_start_text buf else buf in
    let stripped := stripped_think_start d || strip_start in
    let r := in_reasoning d || strip_start in
    match (if r then find (think_end_token d) current_text else None) with
    | Some end_idx =>
        (MkParse (drop (end_idx + length (think_end_token d)) current_text) (rstrip (take end_idx current_text)),
         set_state false [] stripped d)
    | None =>
        if r then
          match (t ← tool_token d; find t current_text) with
          | Some tool_idx =>
              (MkParse (drop tool_idx current_text) (take tool_idx current_text), set_state false [] stripped d)
          | None =>
              if stream_reasoning d then (MkParse [] current_text, set_state true [] stripped d)
              else (MkParse [] [], set_state true buf stripped d)
          end
        else (MkParse current_text [], set_state false [] stripped d)
    end.

(** What [GptOssDetector] makes of the events. *)
Definition of_events (events : list Event) : ParseResult :=
  MkParse
    (concat ((λ e, if bool_decide (event_type e = "normal") then content e
                   else if bool_decide (event_type e = "tool_call") then
                     match raw_text e with Some (x :: t) => x :: t | _ => content e end
                   else []) <$> events))
    (concat ((λ e, if bool_decide (event_type e = "reasoning") then content e else []) <$> events)).

(** [detect_and_parse] *)
Definition detect_and_parse (d : Detector) (t : text) : ParseResult * Detector :=
  match override d with
  | NoOverride => (base_detect_and_parse d t, d)
  | GptOss p =>
      let '(events, p) := harmony_parse p t in
      let '(flushed, p) := harmony_parse p [] in
      (of_events (events ++ flushed), set_override (GptOss p) d)
  | AppendThink _ => (MkParse (think_start_token d ++ t) [], d)
  | Nemotron3 force_nonempty =>
      let ret := base_detect_and_parse d t in
      (if force_nonempty && bool_decide (normal_text ret = []) then MkParse (reasoning_text ret) (normal_text ret)
       else ret, d)
  end.

(** [parse_streaming_increment] *)
Definition parse_streaming_increment (d : Detector) (new_text : text) : ParseResult * Detector :=
  match override d with
  | NoOverride | Nemotron3 _ => base_parse_streaming_increment d new_text
  | GptOss p => let '(events, p) := harmony_parse p new_text in (of_events events, set_override (GptOss p) d)
  | AppendThink first =>
      (MkParse (if first then new_text else think_start_token d ++ new_text) [], set_override (AppendThink true) d)
  end.

(** ** The detector classes *)

(** The keyword arguments [ReasoningParser] passes; [None]: not passed. *)
Record Kwargs := MkKwargs {
  kw_stream_reasoning : bool;
  kw_force_reasoning : option bool;
  kw_continue : option text;
  kw_force_nonempty_content : option bool;
}.

Inductive DetectorClass :=
  | DeepSeekR1Detector | Qwen3Detector | KimiDetector | KimiK2Detector | Glm45Detector | GptOssDetector
  | MiniMaxAppendThinkDetector | Nemotron3Detector | MistralDetector | HunyuanDetector | Gemma4Detector
  | DeepSeekV3Detector | MimoDetector | PoolsideV1Detector.

(** U+25C1 and U+25B7 *)
Definition kimi_tag (s : string) : text := [9665%Z] ++ t_ s ++ [9655%Z].

(** The constructors; [force_reasoning] defaults to [False] unless said otherwise. *)
Definition kw_force (k : Kwargs) : bool := default false (kw_force_reasoning k).
Definition init_DeepSeekR1 (k : Kwargs) : Detector :=
  base_init (t_ "<think>") (t_ "</think>") None true (kw_stream_reasoning k) None (kw_continue k) false "always".
Definition init_Qwen3 (k : Kwargs) : Detector :=
  base_init (t_ "<think>") (t_ "</think>")
    (Some (t_ <$> ["<tool_call>"; "</tool_call>"; "<|im_end|>"; "<|endoftext|>"]))
    (kw_force k) (kw_stream_reasoning k) None (kw_continue k) true "enable_thinking".
Definition init_Kimi (k : Kwargs) : Detector :=
  base_init (kimi_tag "think") (kimi_tag "/think") None false (kw_stream_reasoning k) None (kw_continue k) false "always".
Definition init_KimiK2 (k : Kwargs) : Detector :=
  base_init (t_ "<think>") (t_ "</think>")
    (Some (t_ <$> ["<think>"; "<|tool_calls_section_begin|>"; "<|tool_call_begin|>"; "<|tool_call_argument_begin|>";
                   "<|tool_call_section_end|>"; "<|tool_call_end|>"; "[EOS]"; "<|im_end|>"; "<|end_header_id|>"; "[EOT]"]))
    (kw_force k) (kw_stream_reasoning k) (Some (t_ "<|tool_calls_section_begin|>")) (kw_continue k) false "thinking".
(** This class has no [continue_final_message]. *)
Definition init_Glm45 (k : Kwargs) : Detector :=
  base_init (t_ "<think>") (t_ "</think>")
    (Some (t_ <$> ["<tool_call>"; "</tool_call>"; "<eop>"; "<|user|>"; "<|endoftext|>"]))
    (kw_force k) (kw_stream_reasoning k) (Some (t_ "<tool_call>")) None true "enable_thinking".
Definition init_GptOss (k : Kwargs) : Detector :=
  set_override (GptOss harmony_new)
    (base_init (t_ "<|channel|>analysis<|message|>") (t_ "<|end|>") None (default true (kw_force_reasoning k))
       (kw_stream_reasoning k) None (kw_continue k) false "always").
Definition init_MiniMaxAppendThink (k : Kwargs) : Detector :=
  set_override (AppendThink false)
    (base_init (t_ "<think>") (t_ "</think>") None (kw_force k) (kw_stream_reasoning k) None (kw_continue k) false "always").
Definition init_Nemotron3 (k : Kwargs) : Detector :=
  set_override (Nemotron3 (default false (kw_force_nonempty_content k)))
    (base_init (t_ "<think>") (t_ "</think>") None (kw_force k) (kw_stream_reasoning k) None (kw_continue k) false
       "enable_thinking").
Definition init_Mistral (k : Kwargs) : Detector :=
  base_init (t_ "[THINK]") (t_ "[/THINK]") None (kw_force k) (kw_stream_reasoning k) None (kw_continue k) false "mistral".
Definition init_Hunyuan (k : Kwargs) : Detector :=
  base_init (t_ "<think>") (t_ "</think>") None (kw_force k) (kw_stream_reasoning k) (Some (t_ "<tool_calls>"))
    (kw_continue k) false "always".
Definition init_Gemma4 (k : Kwargs) : Detector :=
  set_self_label (t_ "thought" ++ [10%Z])
    (base_init (t_ "<|channel>") (t_ "<channel|>") None (kw_force k) (kw_stream_reasoning k) None (kw_continue k) false
       "explicit_enable_thinking").
Definition init_DeepSeekV3 (k : Kwargs) : Detector := set_reasoning_default "explicit_thinking" (init_Qwen3 k).
Definition init_Mimo (k : Kwargs) : Detector := set_reasoning_default "explicit_enable_thinking" (init_Qwen3 k).
Definition init_PoolsideV1 (k : Kwargs) : Detector := set_reasoning_default "explicit_enable_thinking" (init_Qwen3 k).

(** [detector_class( **kwargs )]: an argument the class does not have is a [TypeError]. *)
Definition construct (c : DetectorClass) (k : Kwargs) : result Detector :=
  let unexpected :=
    match c with
    | Nemotron3Detector => false
    | Glm45Detector => bool_decide (kw_continue k ≠ None) || bool_decide (kw_force_nonempty_content k ≠ None)
    | _ => bool_decide (kw_force_nonempty_content k ≠ None)
    end in
  if unexpected then Raise TypeError
  else Ok match c with
          | DeepSeekR1Detector => init_DeepSeekR1 k
          | Qwen3Detector => init_Qwen3 k
          | KimiDetector => init_Kimi k
          | KimiK2Detector => init_KimiK2 k
          | Glm45Detector => init_Glm45 k
          | GptOssDetector => init_GptOss k
          | MiniMaxAppendThinkDetector => init_MiniMaxAppendThink k
          | Nemotron3Detector => init_Nemotron3 k
          | MistralDetector => init_Mistral k
          | HunyuanDetector => init_Hunyuan k
          | Gemma4Detector => init_Gemma4 k
          | DeepSeekV3Detector => init_DeepSeekV3 k
          | MimoDetector => init_Mimo k
          | PoolsideV1Detector => init_PoolsideV1 k
          end.

(** ** ReasoningParser *)

Definition ascii_lower (c : ascii) : ascii :=
  let n := N_of_ascii c in if bool_decide (65 ≤ n ≤ 90)%N then ascii_of_N (n + 32) else c.
Fixpoint lower (s : string) : string :=
  match s with EmptyString => EmptyString | String c s => String (ascii_lower c) (lower s) end.

Definition DetectorMap : list (string * DetectorClass) :=
  [("deepseek-r1", DeepSeekR1Detector); ("deepseek-v3", DeepSeekV3Detector); ("deepseek-v4", DeepSeekV3Detector);
   ("glm45", Glm45Detector); ("hunyuan", HunyuanDetector); ("gpt-oss", GptOssDetector); ("kimi", KimiDetector);
   ("kimi_k2", KimiK2Detector); ("mimo", MimoDetector); ("poolside_v1", PoolsideV1Detector); ("qwen3", Qwen3Detector);
   ("qwen3-thinking", Qwen3Detector); ("minimax", Qwen3Detector);
   ("minimax-append-think", MiniMaxAppendThinkDetector); ("step3", DeepSeekR1Detector); ("step3p5", DeepSeekR1Detector);
   ("mistral", MistralDetector); ("nemotron_3", Nemotron3Detector); ("interns1", Qwen3Detector);
   ("gemma4", Gemma4Detector)].

(** [ReasoningParser.__init__]; [continue] is the last message of a chat request that
    continues an assistant message, [nonempty] that its template arguments set
    [force_nonempty_content]. *)
Definition init_parser (model_type : option string) (stream : bool) (force : option bool) (continue : option text)
    (nonempty : bool) : result Detector :=
  match model_type with
  | None | Some EmptyString => Raise ValueError
  | Some model =>
      match list_find (λ e, e.1 = lower model) DetectorMap with
      | None => Raise ValueError
      | Some (_, (_, c)) =>
          let force := if bool_decide (lower model ∈ ["qwen3-thinking"; "gpt-oss"; "minimax"]) then Some true else force in
          construct c (MkKwargs stream force continue (if nonempty then Some true else None))
      end
  end.

(** [parse_non_stream], [parse_stream_chunk]: reasoning first. *)
Definition parse_non_stream (d : Detector) (full_text : text) : (text * text) * Detector :=
  let '(ret, d) := detect_and_parse d full_text in ((reasoning_text ret, normal_text ret), d).
Definition parse_stream_chunk (d : Detector) (chunk_text : text) : (text * text) * Detector :=
  let '(ret, d) := parse_streaming_increment d chunk_text in ((reasoning_text ret, normal_text ret), d).

(** A whole stream: everything said as reasoning, as answer, and the detector. *)
Fixpoint parse_stream (d : Detector) (chunks : list text) : (text * text) * Detector :=
  match chunks with
  | [] => (([], []), d)
  | c :: chunks =>
      let '((r, n), d) := parse_stream_chunk d c in
      let '((rs, ns), d) := parse_stream d chunks in
      ((r ++ rs, n ++ ns), d)
  end.
End detectors.
Arguments Detector : clear implicits.
