(* ===== verification/ReasoningInv.v ===== *)
(** Streaming finds what the one-time parser finds, whatever the chunks, as long as the
    end tag arrives in one piece. *)
From S2P Require Import Prelude PyStr ReasoningParser.
From stdpp Require Import options.

Section stream.
Context {H : Type} (harmony_parse : H → text → list Event * H).
Implicit Types (d : Detector H) (c : text).

Definition start_text d : text := think_start_token d ++ think_start_self_label d.

(** The tags of a detector can be told apart. *)
Record tags_ok d : Prop := {
  tg_stream : stream_reasoning d = true;
  tg_override : override d = NoOverride;
  tg_start : start_text d ≠ [];
  tg_end : solid (think_end_token d);
  tg_start_end : contains (think_end_token d) (start_text d) = false;
  tg_tool_end : ∀ t, tool_token d = Some t → contains (think_end_token d) t = false;
}.

(** The text of an output: the start tag or nothing, the reasoning, the end tag and the
    answer.  It has no further start tag and no tool tag. *)
Record output_ok d (lead pre post : text) : Prop := {
  ou_lead : lead = start_text d ∨ lead = [] ∧ in_reasoning d = true;
  ou_first : first_occ (think_end_token d) (lead ++ pre ++ think_end_token d ++ post) (lead ++ pre) post;
  ou_start : contains (start_text d) (pre ++ think_end_token d ++ post) = false;
  ou_tool : ∀ t, tool_token d = Some t → contains t (pre ++ think_end_token d ++ post) = false;
}.

(** A chunk is kept back when the buffer may be the beginning of a tag. *)
Definition held d buf : bool :=
  existsb (may_begin buf) ([start_text d; think_end_token d] ++ option_list (tool_token d)).

Lemma may_begin_false buf t u : contains u buf = true → contains u t = false → may_begin buf t = false.
Proof using.
  intros Hc Ht. unfold may_begin. destruct (starts buf t) eqn:E; [|done]. apply starts_spec in E as [b ->].
  apply contains_spec in Hc as (x & y & ->). rewrite contains_false in Ht.
  destruct (Ht x (y ++ b)). by rewrite <-!app_assoc.
Qed.

(** A buffer with the end tag is not kept back. *)
Lemma held_end d buf :
  tags_ok d → contains (think_end_token d) buf = true → held d buf = false.
Proof using.
  intros [_ _ _ Hsolid Hse Hte] Hc. unfold held. simpl existsb.
  rewrite (may_begin_false buf (start_text d) (think_end_token d)) by done.
  assert (may_begin buf (think_end_token d) = false) as ->.
  { unfold may_begin. destruct (starts buf _) eqn:E; [|done]. apply starts_spec in E as [b E].
    apply contains_spec in Hc as (x & y & Hb).
    assert (b = []) as -> by (destruct b; [done|]; apply (f_equal length) in Hb; rewrite E in Hb at 1;
      apply (f_equal length) in E; rewrite !length_app in *; simpl in *; lia).
    rewrite app_nil_r in E. rewrite bool_decide_false; [done|]. by intros []. }
  destruct (tool_token d) as [t|] eqn:Et; [|done]. simpl.
  by rewrite (may_begin_false buf t (think_end_token d)) by eauto.
Qed.

(** ** One increment *)

(** What the increment works on when nothing is kept back. *)
Definition strips d buf : bool := negb (stripped_think_start d) && contains (start_text d) buf.
Definition current d buf : text := if strips d buf then remove_first (start_text d) buf else buf.

(** The increment in these terms. *)
Lemma increment_eq d c :
  let buf := buffer d ++ c in
  let stripped := stripped_think_start d || strips d buf in
  base_parse_streaming_increment d c
  = if held d buf then (MkParse [] [], set_state (in_reasoning d) buf (stripped_think_start d) d)
    else match (if in_reasoning d || strips d buf then find (think_end_token d) (current d buf) else None) with
         | Some i => (MkParse (drop (i + length (think_end_token d)) (current d buf)) (rstrip (take i (current d buf))),
                      set_state false [] stripped d)
         | None =>
             if in_reasoning d || strips d buf then
               match (t ← tool_token d; find t (current d buf)) with
               | Some i => (MkParse (drop i (current d buf)) (take i (current d buf)), set_state false [] stripped d)
               | None => if stream_reasoning d then (MkParse [] (current d buf), set_state true [] stripped d)
                         else (MkParse [] [], set_state true buf stripped d)
               end
             else (MkParse (current d buf) [], set_state false [] stripped d)
         end.
Proof using. done. Qed.

(** In the reasoning, before the end tag. *)
Lemma increment_reasoning d c :
  let buf := buffer d ++ c in
  stream_reasoning d = true → held d buf = false → in_reasoning d || strips d buf = true →
  contains (think_end_token d) (current d buf) = false →
  (∀ t, tool_token d = Some t → contains t (current d buf) = false) →
  base_parse_streaming_increment d c
  = (MkParse [] (current d buf), set_state true [] (stripped_think_start d || strips d buf) d).
Proof using.
  intros buf Hs Hh Hr He Ht. rewrite increment_eq. fold buf. rewrite Hh, Hr.
  unfold contains in He. destruct (find _ _); [done|].
  assert ((t ← tool_token d; find t (current d buf)) = None) as ->.
  { destruct (tool_token d) as [t|]; [|done]. simpl. specialize (Ht t eq_refl). unfold contains in Ht. by destruct (find _ _). }
  by rewrite Hs.
Qed.

(** The end tag arrives. *)
Lemma increment_end d c a b :
  let buf := buffer d ++ c in
  held d buf = false → in_reasoning d || strips d buf = true →
  first_occ (think_end_token d) (current d buf) a b →
  base_parse_streaming_increment d c
  = (MkParse b (rstrip a), set_state false [] (stripped_think_start d || strips d buf) d).
Proof using.
  intros buf Hh Hr Hf. rewrite increment_eq. fold buf. rewrite Hh, Hr, (first_occ_find _ _ _ _ Hf).
  by destruct (first_occ_take _ _ _ _ Hf) as [-> ->].
Qed.

(** In the answer. *)
Lemma increment_normal d c :
  let buf := buffer d ++ c in
  held d buf = false → in_reasoning d = false → strips d buf = false →
  base_parse_streaming_increment d c = (MkParse buf [], set_state false [] (stripped_think_start d) d).
Proof using.
  intros buf Hh Hr Hst. rewrite increment_eq. fold buf. unfold current. rewrite Hh, Hr, Hst. simpl. by rewrite orb_false_r.
Qed.

(** ** The stream *)
Context (d0 : Detector H) (lead pre post : text) (Htags : tags_ok d0) (Hout : output_ok d0 lead pre post).

(** After the chunks with text [P], before the end tag, with reasoning [R]: still
    waiting for the whole start tag, or past it. *)
Definition before_end (P R : text) d : Prop :=
  (lead = start_text d0 ∧ R = [] ∧ ∃ r, d = set_state r P false d0)
  ∨ ∃ b, d = set_state true b (bool_decide (lead ≠ [])) d0 ∧ P = lead ++ R ++ b.

Lemma end_nonempty : think_end_token d0 ≠ [].
Proof using Htags. apply solid_nonempty, Htags. Qed.

(** A part of the reasoning has no tag in it. *)
Lemma part_clean a p q :
  pre = a ++ p ++ q →
  contains (think_end_token d0) p = false ∧ contains (start_text d0) p = false
  ∧ ∀ t, tool_token d0 = Some t → contains t p = false.
Proof using Htags Hout.
  intros Hpre. destruct Hout as [_ Hf Hst Htl]. split_and!.
  - apply (contains_part _ (lead ++ a) p []). rewrite app_nil_r.
    eapply (first_occ_before _ _ _ _ _ q Hf end_nonempty). by rewrite Hpre, <-!app_assoc.
  - apply (contains_part _ a p (q ++ think_end_token d0 ++ post)). by rewrite <-Hst, Hpre, <-!app_assoc.
  - intros t Ht. apply (contains_part _ a p (q ++ think_end_token d0 ++ post)).
    by rewrite <-(Htl t Ht), Hpre, <-!app_assoc.
Qed.

Lemma chunk_base d c :
  (∃ r b st, d = set_state r b st d0) →
  parse_stream_chunk harmony_parse d c
  = let '(ret, d) := base_parse_streaming_increment d c in ((reasoning_text ret, normal_text ret), d).
Proof using Htags.
  intros (r & b & st & ->). unfold parse_stream_chunk, parse_streaming_increment. simpl override.
  by rewrite (tg_override _ Htags).
Qed.

(** The whole start tag is there, or the text is a beginning of it. *)
Lemma lead_or_held P q :
  lead = start_text d0 → lead ++ pre = P ++ q → (∃ p, P = start_text d0 ++ p ∧ pre = p ++ q) ∨ held d0 P = true.
Proof using Hout.
  intros Hl Heq. destruct (decide (length lead ≤ length P)) as [Hle|Hlt].
  - left. assert (take (length lead) P = lead) as Hp.
    { apply (f_equal (take (length lead))) in Heq. rewrite take_app_length, take_app_le in Heq by done. done. }
    exists (drop (length lead) P). rewrite <-Hl. split; [by rewrite <-Hp at 1; rewrite take_drop|].
    apply (f_equal (drop (length lead))) in Heq. rewrite drop_app_length, drop_app_le in Heq by done. done.
  - right. unfold held. simpl. assert (may_begin P (start_text d0) = true) as ->; [|done].
    rewrite <-Hl. unfold may_begin. rewrite andb_true_iff, bool_decide_eq_true. split.
    + apply starts_spec. exists (drop (length P) lead). apply (f_equal (take (length P))) in Heq.
      rewrite take_app_length, take_app_le in Heq by lia. by rewrite <-Heq at 1; rewrite take_drop.
    + intros ->. lia.
Qed.

Lemma chunk_before P R d c q :
  before_end P R d → lead ++ pre = P ++ c ++ q →
  ∃ r d', parse_stream_chunk harmony_parse d c = ((r, []), d') ∧ before_end (P ++ c) (R ++ r) d'.
Proof using Htags Hout.
  intros Hb Heq. destruct Hb as [(Hl & -> & r & ->)|(b & -> & HP)]; rewrite chunk_base by eauto.
  - destruct (held d0 (P ++ c)) eqn:Hh.
    + rewrite increment_eq. change (held _ _) with (held d0 (P ++ c)). rewrite Hh.
      eexists [], _. split; [done|]. left. eauto.
    + rewrite app_assoc in Heq. destruct (lead_or_held (P ++ c) q Hl Heq) as [(p & Hp & Hpre)|]; [|congruence].
      destruct (part_clean [] p q Hpre) as (He & _ & Ht).
      assert (contains (start_text d0) (P ++ c) = true) as Hc by (apply contains_spec; exists [], p; done).
      assert (current (set_state r P false d0) (P ++ c) = p) as Hcur.
      { unfold current, strips. simpl. change (start_text (set_state _ _ _ _)) with (start_text d0).
        rewrite Hc, Hp. apply remove_first_lead. }
      assert (strips (set_state r P false d0) (P ++ c) = true) as Hst by (unfold strips; simpl; exact Hc).
      rewrite increment_reasoning; simpl buffer; rewrite ?Hcur, ?Hst, ?orb_true_r; try done; [|apply Htags].
      eexists p, _. split; [done|]. right. exists []. rewrite app_nil_r. split; [|by rewrite Hl].
      rewrite bool_decide_true; [done|]. rewrite Hl. apply Htags.
  - assert (pre = R ++ (b ++ c) ++ q) as Hpre.
    { rewrite HP, <-!app_assoc in Heq. apply app_inv_head in Heq. by rewrite <-!app_assoc. }
    destruct (part_clean R (b ++ c) q Hpre) as (He & Hs & Ht).
    set (d := set_state true b _ d0).
    assert (strips d (b ++ c) = false) as Hst.
    { unfold strips. change (start_text d) with (start_text d0). rewrite Hs. apply andb_false_r. }
    destruct (held d0 (b ++ c)) eqn:Hh.
    + rewrite increment_eq. simpl buffer. change (held d (b ++ c)) with (held d0 (b ++ c)). rewrite Hh.
      eexists [], _. split; [done|]. right. exists (b ++ c). split; [done|]. by rewrite HP, app_nil_r, <-!app_assoc.
    + assert (current d (b ++ c) = b ++ c) as Hcur by (unfold current; by rewrite Hst).
      rewrite increment_reasoning; simpl buffer; rewrite ?Hcur, ?Hst; try done; [|apply Htags].
      eexists (b ++ c), _. split; [done|]. right. exists []. rewrite orb_false_r. split; [done|].
      by rewrite HP, app_nil_r, <-!app_assoc.
Qed.

(** The chunk with the end tag. *)
Lemma chunk_end P R d x y z :
  before_end P R d → lead ++ pre = P ++ x → post = y ++ z →
  ∃ r w, parse_stream_chunk harmony_parse d (x ++ think_end_token d0 ++ y)
           = ((r, y), set_state false [] (bool_decide (lead ≠ [])) d0)
         ∧ pre = R ++ r ++ w ∧ spaces w.
Proof using Htags Hout.
  intros Hb Heq Hpost. pose proof (ou_first _ _ _ _ Hout) as Hf. rewrite Hpost in Hf.
  set (E := think_end_token d0) in *.
  assert (∀ a, contains E (a ++ E ++ y) = true) as HE by (intros a; apply contains_spec; by exists a, y).
  destruct Hb as [(Hl & -> & r & ->)|(b & -> & HP)]; rewrite chunk_base by eauto.
  - set (d := set_state r P false d0). assert (P ++ x ++ E ++ y = start_text d0 ++ pre ++ E ++ y) as Hbuf.
    { by rewrite app_assoc, <-Heq, Hl, <-!app_assoc. }
    assert (strips d (P ++ x ++ E ++ y) = true) as Hst.
    { unfold strips. simpl. change (start_text d) with (start_text d0). rewrite Hbuf. apply contains_spec. by exists [], (pre ++ E ++ y). }
    rewrite (increment_end d _ pre y); simpl buffer; [|apply (held_end d0 _ Htags)| |].
    + exists (rstrip pre). destruct (rstrip_split pre) as (w & Hw & Hsp). exists w. split; [|done].
      rewrite Hst, orb_true_r, bool_decide_true; [done|]. rewrite Hl. apply Htags.
    + rewrite app_assoc. apply HE.
    + by rewrite Hst, orb_true_r.
    + unfold current. rewrite Hst, Hbuf. change (start_text d) with (start_text d0). rewrite remove_first_lead.
      eapply first_occ_cut, first_occ_suffix, Hf.
  - assert (pre = R ++ b ++ x) as Hpre.
    { rewrite HP, <-!app_assoc in Heq. by apply app_inv_head in Heq. }
    set (d := set_state true b _ d0).
    assert (strips d (b ++ x ++ E ++ y) = false) as Hst.
    { unfold strips. change (start_text d) with (start_text d0). rewrite (contains_part _ R _ z); [apply andb_false_r|].
      rewrite <-(ou_start _ _ _ _ Hout), Hpre, Hpost. by rewrite <-!app_assoc. }
    rewrite (increment_end d _ (b ++ x) y); simpl buffer; [|apply (held_end d0 _ Htags)|done|].
    + exists (rstrip (b ++ x)). destruct (rstrip_split (b ++ x)) as (w & Hw & Hsp). exists w. rewrite <-Hw.
      split; [|done]. by rewrite Hst, orb_false_r.
    + rewrite app_assoc. apply HE.
    + unfold current. rewrite Hst, app_assoc. eapply first_occ_cut, (first_occ_suffix _ _ (lead ++ R)).
      rewrite <-(app_assoc lead), <-Hpre. exact Hf.
Qed.

(** Behind the end tag, [N] said as answer. *)
Lemma chunk_after b c a q :
  post = a ++ b ++ c ++ q →
  ∃ n b', parse_stream_chunk harmony_parse (set_state false b (bool_decide (lead ≠ [])) d0) c
            = (([], n), set_state false b' (bool_decide (lead ≠ [])) d0)
          ∧ b ++ c = n ++ b'.
Proof using Htags Hout.
  intros Hpost. rewrite chunk_base by eauto. set (d := set_state false b _ d0).
  assert (strips d (b ++ c) = false) as Hst.
  { unfold strips. change (start_text d) with (start_text d0).
    rewrite (contains_part _ (pre ++ think_end_token d0 ++ a) _ q); [apply andb_false_r|].
    rewrite <-(ou_start _ _ _ _ Hout), Hpost. by rewrite <-!app_assoc. }
  destruct (held d0 (b ++ c)) eqn:Hh.
  - rewrite increment_eq. simpl buffer. change (held d (b ++ c)) with (held d0 (b ++ c)). rewrite Hh.
    by eexists [], _.
  - rewrite increment_normal by done. eexists (b ++ c), []. by rewrite app_nil_r.
Qed.

Lemma stream_before chunks : ∀ P R d q,
  before_end P R d → lead ++ pre = P ++ concat chunks ++ q →
  ∃ r d', parse_stream harmony_parse d chunks = ((r, []), d') ∧ before_end (P ++ concat chunks) (R ++ r) d'.
Proof using Htags Hout.
  induction chunks as [|c chunks IH]; intros P R d q Hb Heq; simpl in *.
  - exists [], d. by rewrite !app_nil_r.
  - rewrite <-app_assoc in Heq. destruct (chunk_before P R d c (concat chunks ++ q) Hb Heq) as (r & d1 & -> & Hb1).
    rewrite app_assoc in Heq. destruct (IH (P ++ c) (R ++ r) d1 q Hb1 Heq) as (r2 & d2 & -> & Hb2).
    exists (r ++ r2), d2. split; [done|]. by rewrite !app_assoc.
Qed.

Lemma stream_after chunks : ∀ a b,
  post = a ++ b ++ concat chunks →
  ∃ n b', parse_stream harmony_parse (set_state false b (bool_decide (lead ≠ [])) d0) chunks
            = (([], n), set_state false b' (bool_decide (lead ≠ [])) d0)
          ∧ b ++ concat chunks = n ++ b'.
Proof using Htags Hout.
  induction chunks as [|c chunks IH]; intros a b Hpost; simpl in *.
  - exists [], b. by rewrite app_nil_r.
  - destruct (chunk_after b c a (concat chunks) Hpost) as (n & b1 & -> & Hn).
    destruct (IH (a ++ n) b1) as (n2 & b2 & -> & Hn2).
    { rewrite Hpost, (app_assoc b), Hn. by rewrite <-!app_assoc. }
    exists (n ++ n2), b2. split; [done|]. by rewrite app_assoc, Hn, <-!app_assoc, Hn2.
Qed.

Lemma parse_stream_app d (c1 c2 : list text) :
  parse_stream harmony_parse d (c1 ++ c2)
  = let '((r1, n1), d) := parse_stream harmony_parse d c1 in
    let '((r2, n2), d) := parse_stream harmony_parse d c2 in
    ((r1 ++ r2, n1 ++ n2), d).
Proof using.
  revert d. induction c1 as [|c c1 IH]; intros d; simpl; [by destruct (parse_stream _ d c2) as [[??] ?]|].
  destruct (parse_stream_chunk _ d c) as [[r n] d1]. rewrite IH.
  destruct (parse_stream _ d1 c1) as [[r1 n1] d2]. destruct (parse_stream _ d2 c2) as [[r2 n2] d3]. by rewrite !app_assoc.
Qed.

Lemma set_state_self d : set_state (in_reasoning d) (buffer d) (stripped_think_start d) d = d.
Proof using. by destruct d. Qed.

(** The whole stream, from a detector that has seen nothing. *)
Lemma stream_spec (c1 : list text) x y (c2 : list text) :
  buffer d0 = [] → stripped_think_start d0 = false →
  lead ++ pre = concat c1 ++ x → post = y ++ concat c2 →
  ∃ r w n d, parse_stream harmony_parse d0 (c1 ++ [x ++ think_end_token d0 ++ y] ++ c2) = ((r, n), d)
    ∧ pre = r ++ w ∧ spaces w ∧ post = n ++ buffer d.
Proof using Htags Hout.
  intros Hb Hs Hlead Hpost. rewrite parse_stream_app.
  assert (before_end [] [] d0) as H0.
  { destruct (ou_lead _ _ _ _ Hout) as [Hl|[Hl Hr]].
    - left. split_and!; [done|done|]. exists (in_reasoning d0). by rewrite <-Hb, <-Hs, set_state_self.
    - right. exists []. rewrite bool_decide_false by (by intros []). split; [|by rewrite Hl].
      by rewrite <-Hr, <-Hb, <-Hs, set_state_self. }
  destruct (stream_before c1 [] [] d0 x H0 Hlead) as (r1 & d1 & -> & Hb1). simpl in Hb1.
  simpl app. cbn [parse_stream]. destruct (chunk_end _ _ d1 x y (concat c2) Hb1 Hlead Hpost) as (r2 & w & -> & Hpre & Hw).
  destruct (stream_after c2 y [] Hpost) as (n & b' & -> & Hn). exists (r1 ++ r2), w. eexists _, _. rewrite (app_nil_r r2).
  split_and!; [done|by rewrite <-app_assoc|done|]. simpl in *. by rewrite Hpost, Hn, <-app_assoc.
Qed.

(** The one-time parser. *)
Lemma oneshot_spec :
  base_detect_and_parse d0 (lead ++ pre ++ think_end_token d0 ++ post) = MkParse (strip post) (lstrip pre).
Proof using Htags Hout.
  set (E := think_end_token d0). pose proof (ou_first _ _ _ _ Hout) as Hf. fold E in Hf.
  assert (in_reasoning d0 || contains (think_start_token d0) (lead ++ pre ++ E ++ post) = true) as Hr.
  { destruct (ou_lead _ _ _ _ Hout) as [->|[_ ->]]; [|done]. apply orb_true_iff. right. apply contains_spec.
    exists [], (think_start_self_label d0 ++ pre ++ E ++ post). unfold start_text. by rewrite <-!app_assoc. }
  assert (remove_all (start_text d0) (lead ++ pre ++ E ++ post) = pre ++ E ++ post) as Hrm.
  { destruct (ou_lead _ _ _ _ Hout) as [->|[-> _]].
    - apply remove_all_lead; [apply Htags|apply Hout].
    - apply remove_all_none; [apply Htags|apply Hout]. }
  unfold base_detect_and_parse. rewrite Hr. fold (start_text d0). fold E. rewrite Hrm.
  rewrite strip_around by apply Htags.
  destruct (lstrip_split pre) as (w1 & Hw1 & _). destruct (rstrip_split post) as (w2 & Hw2 & _).
  assert (first_occ E (lstrip pre ++ E ++ rstrip post) (lstrip pre) (rstrip post)) as Hf2.
  { apply (first_occ_cut E (lstrip pre ++ E ++ post) (lstrip pre) (rstrip post) w2). rewrite <-Hw2.
    apply (first_occ_suffix E (lead ++ pre ++ E ++ post) (lead ++ w1)). by rewrite <-app_assoc, <-Hw1. }
  assert (contains E (lstrip pre ++ E ++ rstrip post) = true) as -> by (apply contains_spec; eauto).
  simpl negb. cbv iota. rewrite andb_false_l || simpl andb. rewrite (first_occ_find _ _ _ _ Hf2).
  destruct (first_occ_take _ _ _ _ Hf2) as [-> ->]. by rewrite strip_rstrip.
Qed.
End stream.
