(* ===== verification/Harmony.v ===== *)
(** The Harmony format of GPT-OSS: parser/harmony_parser.py, the structural tokens and
    the parser for output with channel markers ([CanonicalStrategy]), and the facade
    [HarmonyParser].  The fallback for plain text ([TextStrategy.parse]) and the test
    whether a text looks like it are regular expressions; they are arguments. *)
From S2P Require Import Prelude PyStr ReqPool ReasoningParser.
From stdpp Require Import options.

(** ** Holding back *)

(** [text[-k:]] for a positive [k]. *)
Definition last_n (k : nat) (s : text) : text := drop (length s - k) s.

(** The inner loop: the first [k], counting down, for which the end of [s] begins [tok]. *)
Fixpoint hold_len (tok s : text) (k : nat) : nat :=
  match k with
  | 0 => 0
  | S k' => if starts (last_n k s) tok then k else hold_len tok s k'
  end.

(** [prefix_hold] *)
Definition prefix_hold (s : text) (tokens : list text) : text * text :=
  match s with
  | [] => ([], [])
  | _ =>
      let max_hold := foldl (λ m tok, match tok with
                                      | [] => m
                                      | _ => Nat.max m (hold_len tok s (Nat.min (length tok - 1) (length s)))
                                      end) 0 tokens in
      match max_hold with
      | 0 => (s, [])
      | _ => (take (length s - max_hold) s, last_n max_hold s)
      end
  end.

(** ** Structural tokens *)
Inductive TokenType := TEXT | START | CHANNEL | MESSAGE | CONSTRAIN | END | CALL | RETURN.
#[global] Instance TokenType_eq_dec : EqDecision TokenType.
Proof. solve_decision. Defined.

Record Token := MkToken { tok_type : TokenType; tok_start : nat; tok_end : nat }.

Definition TOKENS : list (text * TokenType) :=
  [(t_ "<|start|>", START); (t_ "<|channel|>", CHANNEL); (t_ "<|message|>", MESSAGE);
   (t_ "<|constrain|>", CONSTRAIN); (t_ "<|end|>", END); (t_ "<|call|>", CALL); (t_ "<|return|>", RETURN)].
Definition literals : list text := TOKENS.*1.

(** [text.find(t, pos)] *)
Definition find_from (t s : text) (pos : nat) : option nat := Nat.add pos <$> find t (drop pos s).

(** The loop of [iter_tokens] from [pos]: the tokens, and [pos] and
    [has_unknown_tokens] when it ends. *)
Fixpoint iter_loop (fuel : nat) (s : text) (pos : nat) (unknown : bool) : result (list Token * nat * bool) :=
  if decide (pos < length s) then
    match fuel with
    | 0 => Running
    | S fuel =>
        match find_from (t_ "<|") s pos with
        | None => Ok ([], pos, unknown)
        | Some marker =>
            let before := if decide (pos < marker) then [MkToken TEXT pos marker] else [] in
            let go toks pos unknown :=
              r ← iter_loop fuel s pos unknown; Ok (before ++ toks ++ r.1.1, r.1.2, r.2) in
            match List.find (λ e, starts e.1 (drop marker s)) TOKENS with
            | Some (lit, ty) => go [MkToken ty marker (marker + length lit)] (marker + length lit) unknown
            | None =>
                if existsb (λ lit, starts (drop marker s) lit) literals then
                  Ok (before ++ [MkToken TEXT marker (length s)], length s, unknown)
                else
                  let open := MkToken TEXT marker (marker + 2) in
                  match find_from (t_ "|>") s (marker + 2) with
                  | None => go [open] (marker + 2) true
                  | Some close =>
                      match find_from (t_ "<|") s (close + 2) with
                      | Some next => go [open; MkToken TEXT (marker + 2) next] next true
                      | None => Ok (before ++ [open; MkToken TEXT (marker + 2) (length s)], length s, true)
                      end
                  end
            end
        end
    end
  else Ok ([], pos, unknown).

(** [s.endswith(t)] *)
Definition ends_with (t s : text) : bool := bool_decide (length t ≤ length s) && bool_decide (last_n (length t) s = t).

(** [list(iter_tokens(text))] *)
Definition iter_tokens (s : text) : result (list Token) :=
  r ← iter_loop (length s) s 0 false;
  let '(toks, pos, unknown) := r in
  Ok (toks ++ (if decide (pos < length s) then [MkToken TEXT pos (length s)]
               else if bool_decide (pos = length s) && unknown && existsb (λ lit, ends_with lit s) literals
               then [MkToken TEXT pos pos] else [])).

(** ** CanonicalStrategy *)

(** The text of a token. *)
Definition tok_text (s : text) (t : Token) : text := py_slice (tok_start t) (tok_end t) s.
Definition tok_at (tokens : list Token) (i : nat) : result Token := unwrap IndexError (tokens !! i).

(** [s.lower()]: the comparisons are with ASCII words, which no other character of
    Unicode can turn into. *)
Definition lower_char (x : Z) : Z := if bool_decide (65 <= x <= 90)%Z then (x + 32)%Z else x.
Definition lower_text (s : text) : text := lower_char <$> s.

Inductive ChannelType := Analysis | Commentary | Final.

(** [_extract_channel_type] *)
Definition extract_channel_type (header : text) : option ChannelType :=
  let h := lower_text (strip header) in
  if starts (t_ "analysis") h then Some Analysis
  else if starts (t_ "commentary") h then Some Commentary
  else if starts (t_ "final") h then Some Final
  else None.

(** The first channel token and the message token that ends the search, from token
    [i] on. *)
Fixpoint find_header (tokens : list Token) (i : nat) (channel : option nat) : option nat * option nat :=
  match tokens with
  | [] => (channel, None)
  | t :: tokens =>
      if bool_decide (tok_type t = CHANNEL) && bool_decide (channel = None) then find_header tokens (S i) (Some i)
      else if bool_decide (tok_type t = MESSAGE) then (channel, Some i)
      else find_header tokens (S i) channel
  end.

(** The first token from [i] on whose type is in [l], or the number of tokens. *)
Fixpoint scan_until (l : list TokenType) (tokens : list Token) (i : nat) : nat :=
  match tokens with
  | [] => i
  | t :: tokens => if bool_decide (tok_type t ∈ l) then i else scan_until l tokens (S i)
  end.

(** [pos] behind a leading [<|start|>]. *)
Definition skip_start (tokens : list Token) (pos : nat) : nat :=
  match tokens !! pos with Some t => if bool_decide (tok_type t = START) then S pos else pos | None => pos end.

(** The header between the channel token and the message token. *)
Definition channel_header (s : text) (tokens : list Token) (channel message : nat) : result text :=
  start ← (if decide (channel + 1 < length tokens)
           then tok_start <$> tok_at tokens (channel + 1) else tok_end <$> tok_at tokens channel);
  m ← tok_at tokens message;
  Ok (py_slice start (tok_start m) s).

(** [_parse_block] *)
Definition parse_block (s : text) (tokens : list Token) (start_pos : nat) : result (option (Event * nat)) :=
  let pos := skip_start tokens start_pos in
  match find_header (drop pos tokens) pos None with
  | (_, None) => Ok None
  | (None, Some message) =>
      m ← tok_at tokens message;
      let e := scan_until [END; CALL; RETURN] (drop (message + 1) tokens) (message + 1) in
      match tokens !! e with
      | None => Ok None
      | Some t => Ok (Some (MkEvent "normal" (py_slice (tok_end m) (tok_start t) s) None, e + 1))
      end
  | (Some channel, Some message) =>
      header ← channel_header s tokens channel message;
      match extract_channel_type header with
      | None => Ok None
      | Some ct =>
          m ← tok_at tokens message;
          let stops := match ct with Final => [RETURN] | Analysis | Commentary => [END; CALL] end in
          let e := scan_until stops (drop (message + 1) tokens) (message + 1) in
          match tokens !! e with
          | None =>
              match ct with
              | Final => Ok (Some (MkEvent "normal" (drop (tok_end m) s) None, e))
              | _ => Ok None
              end
          | Some t =>
              let content := py_slice (tok_end m) (tok_start t) s in
              first ← tok_at tokens start_pos;
              let raw := py_slice (tok_start first) (tok_end t) s in
              let call := MkEvent "tool_call" (strip content) (Some raw) in
              match ct with
              | Analysis =>
                  Ok (Some (if bool_decide (tok_type t = CALL) then call else MkEvent "reasoning" content None, e + 1))
              | Commentary =>
                  Ok (Some (if bool_decide (tok_type t = CALL) then call else MkEvent "normal" content None, e + 1))
              | Final =>
                  match (if bool_decide (tok_type t = RETURN) then tokens !! (e + 1) else None) with
                  | Some n =>
                      if bool_decide (tok_type n = TEXT)
                      then Ok (Some (MkEvent "normal" (content ++ tok_text s n) None, e + 2))
                      else Ok (Some (MkEvent "normal" content None, e + 1))
                  | None => Ok (Some (MkEvent "normal" content None, e + 1))
                  end
              end
          end
      end
  end.

(** [_parse_partial_analysis] *)
Definition parse_partial_analysis (s : text) (tokens : list Token) (start_pos : nat) : result (option (Event * text)) :=
  let pos := skip_start tokens start_pos in
  match find_header (drop pos tokens) pos None with
  | (Some channel, Some message) =>
      header ← channel_header s tokens channel message;
      match extract_channel_type header with
      | Some Analysis =>
          m ← tok_at tokens message;
          first ← tok_at tokens start_pos;
          Ok (Some (MkEvent "reasoning" (drop (tok_end m) s) None, py_slice (tok_start first) (tok_end m) s))
      | _ => Ok None
      end
  | _ => Ok None
  end.

(** [_is_commentary_filler_between_blocks] *)
Definition is_commentary_filler (s : text) (tokens : list Token) (pos : nat) : result bool :=
  cur ← tok_at tokens pos;
  let is_commentary := bool_decide (lower_text (strip (tok_text s cur)) = t_ "commentary") in
  match pos with
  | 0 => Ok false
  | S p =>
      prev ← tok_at tokens p;
      let after_call := bool_decide (tok_type prev = CALL) in
      let before_channel := match tokens !! (pos + 1) with Some n => bool_decide (tok_type n = CHANNEL) | None => false end in
      Ok (after_call && before_channel && is_commentary
          || after_call && (bool_decide (tok_type cur = MESSAGE) || bool_decide (tok_type cur = TEXT) && is_commentary))
  end.

(** [_is_standalone_structural_token] *)
Definition is_standalone (content : text) : bool := bool_decide (strip content ∈ literals).

(** The loop of [CanonicalStrategy.parse] from token [pos]: the events and the text kept
    for later. *)
Fixpoint canonical_loop (fuel : nat) (s : text) (tokens : list Token) (pos : nat) : result (list Event * text) :=
  match tokens !! pos with
  | None => Ok ([], [])
  | Some token =>
      match fuel with
      | 0 => Running
      | S fuel =>
          let plain :=
            filler ← is_commentary_filler s tokens pos;
            r ← canonical_loop fuel s tokens (pos + 1);
            Ok (if filler || is_standalone (tok_text s token) then r
                else (MkEvent "normal" (tok_text s token) None :: r.1, r.2)) in
          match tok_type token with
          | TEXT =>
              if decide (pos = length tokens - 1) then
                let '(emit, hold) := prefix_hold (tok_text s token) literals in
                Ok (match emit with [] => [] | _ => [MkEvent "normal" emit None] end, hold)
              else plain
          | START | CHANNEL =>
              block ← parse_block s tokens pos;
              match block with
              | Some (event, new_pos) =>
                  r ← canonical_loop fuel s tokens new_pos;
                  Ok (event :: r.1, r.2)
              | None =>
                  partial ← parse_partial_analysis s tokens pos;
                  match partial with
                  | Some (event, remaining) => Ok ([event], remaining)
                  | None => Ok ([], drop (tok_start token) s)
                  end
              end
          | _ => plain
          end
      end
  end.

(** [CanonicalStrategy.parse] *)
Definition canonical_parse (s : text) : result (list Event * text) :=
  tokens ← iter_tokens s;
  match tokens with [] => Ok ([], []) | _ => canonical_loop (length tokens) s tokens 0 end.

(** ** HarmonyParser *)
Inductive Strategy := CanonicalStrategy | TextStrategy.
Record HarmonyParser := MkHarmony {
  strategy : option Strategy;
  h_buffer : text;
  should_filter_commentary : bool;
  partial_commentary : text;
}.
Definition new_harmony : HarmonyParser := MkHarmony None [] false [].

(** The loop over the events: what is kept, and the two filter attributes. *)
Fixpoint filter_events (has_call filter : bool) (partial : text) (events : list Event) : list Event * bool * text :=
  match events with
  | [] => ([], filter, partial)
  | e :: events =>
      let normal := bool_decide (event_type e = "normal") in
      let building := normal && (filter || bool_decide (partial ≠ [])) in
      let potential := partial ++ lower_text (strip (content e)) in
      let '(should_filter, filter, partial) :=
        if building then
          if bool_decide (potential = t_ "commentary") then (true, false, [])
          else if starts potential (t_ "commentary") then (true, filter, potential)
          else (false, false, [])
        else (false, filter, if normal then [] else partial) in
      if should_filter : bool then filter_events has_call filter partial events
      else
        let '(filter, partial) :=
          if bool_decide (event_type e = "tool_call") then (true, []) else (filter || has_call, partial) in
        let '(kept, filter, partial) := filter_events has_call filter partial events in
        (e :: kept, filter, partial)
  end.

Section facade.
Context (text_parse : text → list Event * text) (looks_like_text : text → bool).

(** [HarmonyParser.parse] *)
Definition harmony_parse (p : HarmonyParser) (chunk : text) : result (list Event * HarmonyParser) :=
  let buf := h_buffer p ++ chunk in
  let strat := match strategy p with
               | Some st => Some st
               | None => if contains (t_ "<|channel|>") buf || contains (t_ "<|start|>") buf then Some CanonicalStrategy
                         else if looks_like_text buf then Some TextStrategy else None
               end in
  match strat with
  | None => Ok ([], MkHarmony None buf (should_filter_commentary p) (partial_commentary p))
  | Some st =>
      r ← match st with CanonicalStrategy => canonical_parse buf | TextStrategy => Ok (text_parse buf) end;
      let '(events, remaining) := r in
      let has_call := ends_with (t_ "<|call|>") (rstrip buf) in
      let '(kept, filter, partial) := filter_events has_call (should_filter_commentary p) (partial_commentary p) events in
      Ok (kept, MkHarmony (Some st) remaining filter partial)
  end.

(** The parser as a detector uses it; it always returns. *)
Definition harmony_step (p : HarmonyParser) (chunk : text) : list Event * HarmonyParser :=
  match harmony_parse p chunk with Ok r => r | _ => ([], p) end.
End facade.
