(* ===== verification/HarmonyInv.v ===== *)
(** The tokens of a text tile it, and the parser for channel markers always returns. *)
From S2P Require Import Prelude PyStr ReqPool ReasoningParser Harmony.
From stdpp Require Import options.

(** ** Holding back *)

Lemma last_n_split k (s : text) : take (length s - k) s ++ last_n k s = s.
Proof. apply take_drop. Qed.
Lemma last_n_length k (s : text) : k ≤ length s → length (last_n k s) = k.
Proof. intros Hk. unfold last_n. rewrite length_drop. lia. Qed.
Lemma last_n_app (a b : text) : last_n (length b) (a ++ b) = b.
Proof. unfold last_n. rewrite length_app, Nat.add_sub. apply drop_app_length. Qed.

Lemma hold_len_spec tok s k :
  k ≤ length s →
  hold_len tok s k ≤ k ∧ starts (last_n (hold_len tok s k) s) tok = true
  ∧ ∀ j, hold_len tok s k < j ≤ k → starts (last_n j s) tok = false.
Proof.
  induction k as [|k IH]; intros Hk; cbn [hold_len].
  - split_and!; [lia| |lia]. apply starts_spec. exists tok. unfold last_n. by rewrite Nat.sub_0_r, drop_all.
  - destruct (starts (last_n (S k) s) tok) eqn:E; [split_and!; [lia|done|lia]|].
    destruct IH as (Hle & Hs & Hj); [lia|]. split_and!; [lia|done|]. intros j Hlt.
    destruct (decide (j = S k)) as [->|]; [done|apply Hj; lia].
Qed.

(** [b] is a proper beginning of a token. *)
Definition begins (tokens : list text) (b : text) : Prop := ∃ tok, tok ∈ tokens ∧ starts b tok = true ∧ length b < length tok.

(** The length that is held back. *)
Definition max_hold (s : text) (tokens : list text) : nat :=
  foldl (λ m tok, match tok with [] => m | _ => Nat.max m (hold_len tok s (Nat.min (length tok - 1) (length s))) end) 0 tokens.

Lemma max_hold_snoc s tokens tok :
  max_hold s (tokens ++ [tok])
  = match tok with
    | [] => max_hold s tokens
    | _ => Nat.max (max_hold s tokens) (hold_len tok s (Nat.min (length tok - 1) (length s)))
    end.
Proof. unfold max_hold. by rewrite foldl_app. Qed.

Lemma max_hold_spec s tokens :
  max_hold s tokens ≤ length s ∧ (max_hold s tokens = 0 ∨ begins tokens (last_n (max_hold s tokens) s))
  ∧ ∀ a b, s = a ++ b → begins tokens b → length b ≤ max_hold s tokens.
Proof.
  induction tokens as [|tok tokens (Hle & Hb & Hmax)] using rev_ind.
  - split_and!; [unfold max_hold; simpl; lia|by left|]. intros a b _ (tok & Hin & _). by apply not_elem_of_nil in Hin.
  - rewrite max_hold_snoc. destruct tok as [|x tok].
    + split_and!; [done| |].
      * destruct Hb as [|(t & Ht & ?)]; [by left|right]. exists t. split; [set_solver|done].
      * intros a b Hs (t & Ht & Hst & Hl). apply elem_of_app in Ht as [Ht|Ht]; [by apply (Hmax a); [|exists t]|].
        apply list_elem_of_singleton in Ht as ->. simpl in Hl. lia.
    + set (t := x :: tok). set (k := Nat.min (length t - 1) (length s)).
      assert (length t = S (length tok)) as Ht by done. clearbody t.
      destruct (hold_len_spec t s k) as (Hk & Hs & Hj); [lia|]. split_and!; [lia| |].
      * destruct (Nat.max_spec (max_hold s tokens) (hold_len t s k)) as [[Hlt ->]|[_ ->]].
        -- right. exists t. split_and!; [set_solver|done|]. rewrite last_n_length by lia. lia.
        -- destruct Hb as [|(u & Hu & ?)]; [by left|right]. exists u. split; [set_solver|done].
      * intros a b Hab (u & Hu & Hst & Hl). apply elem_of_app in Hu as [Hu|Hu].
        -- assert (length b ≤ max_hold s tokens) by (apply (Hmax a); [done|by exists u]). lia.
        -- apply list_elem_of_singleton in Hu as ->. destruct (decide (length b ≤ hold_len t s k)); [lia|].
           assert (last_n (length b) s = b) as Hb' by (rewrite Hab; apply last_n_app).
           specialize (Hj (length b)). rewrite Hb', Hst in Hj.
           assert (length b ≤ length s) by (rewrite Hab, length_app; lia). discriminate Hj. lia.
Qed.

(** [prefix_hold] splits off the longest end of the text that may grow into a token. *)
Lemma prefix_hold_spec s tokens :
  let '(emit, hold) := prefix_hold s tokens in
  s = emit ++ hold ∧ (hold = [] ∨ begins tokens hold) ∧ ∀ a b, s = a ++ b → begins tokens b → length b ≤ length hold.
Proof.
  destruct s as [|x s].
  - split_and!; [done|by left|]. intros a b Hs _. symmetry in Hs. apply app_eq_nil in Hs as [_ ->]. done.
  - set (u := x :: s). change (prefix_hold u tokens) with
      (match max_hold u tokens with
       | 0 => (u, []) | _ => (take (length u - max_hold u tokens) u, last_n (max_hold u tokens) u) end). destruct (max_hold_spec u tokens) as (Hle & Hb & Hmax).
    destruct (max_hold u tokens) as [|m] eqn:E.
    + rewrite app_nil_r. split_and!; [done|by left|]. intros a b Hs Hbe. specialize (Hmax a b Hs Hbe). simpl. lia.
    + split_and!; [by rewrite last_n_split|right; by destruct Hb|].
      intros a b Hs Hbe. rewrite last_n_length by lia. by apply (Hmax a).
Qed.

(** ** Tokens *)

(** The tokens cover a range of the text without gap or overlap. *)
Fixpoint tiles (i : nat) (tokens : list Token) (j : nat) : Prop :=
  match tokens with
  | [] => i = j
  | t :: tokens => tok_start t = i ∧ i ≤ tok_end t ∧ tiles (tok_end t) tokens j
  end.

(** A structural token is its literal. *)
Definition tok_ok (s : text) (t : Token) : Prop := tok_type t ≠ TEXT → (tok_text s t, tok_type t) ∈ TOKENS.

Lemma tiles_app i j k l1 l2 : tiles i l1 j → tiles j l2 k → tiles i (l1 ++ l2) k.
Proof. revert i. induction l1 as [|t l1 IH]; intros i; simpl; [by intros ->|]. intros (? & ? & ?) ?. eauto. Qed.

Lemma tiles_le i l j : tiles i l j → i ≤ j.
Proof. revert i. induction l as [|t l IH]; intros i; simpl; [lia|]. intros (? & ? & Hl). apply IH in Hl. lia. Qed.

Lemma tiles_concat s i l j :
  tiles i l j → j ≤ length s → concat (tok_text s <$> l) = py_slice i j s.
Proof.
  revert i. induction l as [|t l IH]; intros i; simpl tiles.
  - intros -> _. unfold py_slice. by rewrite Nat.sub_diag.
  - intros (Hs & He & Hl) Hj. pose proof (tiles_le _ _ _ Hl). rewrite fmap_cons. cbn [concat]. rewrite (IH (tok_end t)) by done.
    unfold tok_text, py_slice. rewrite Hs. replace (j - i) with ((tok_end t - i) + (j - tok_end t)) by lia.
    rewrite <-take_take_drop. do 2 f_equal. rewrite drop_drop. f_equal. lia.
Qed.

Lemma find_bounds t s i : find t s = Some i → i + length t ≤ length s ∧ starts t (drop i s) = true.
Proof.
  intros Hf. apply find_Some in Hf as (a & b & [-> _] & <-). rewrite !length_app. split; [lia|].
  rewrite drop_app_length. apply starts_spec. by exists b.
Qed.

Lemma find_from_bounds t s pos i :
  find_from t s pos = Some i → pos ≤ length s → pos ≤ i ∧ i + length t ≤ length s ∧ starts t (drop i s) = true.
Proof.
  unfold find_from. destruct (find t (drop pos s)) as [j|] eqn:E; simpl; [|done]. intros [= <-] Hp.
  apply find_bounds in E as [Hl Hs]. rewrite length_drop in Hl. rewrite drop_drop in Hs. split_and!; [lia|lia|done].
Qed.

Lemma literal_ok s i lit ty :
  starts lit (drop i s) = true → (lit, ty) ∈ TOKENS →
  i + length lit ≤ length s ∧ tok_ok s (MkToken ty i (i + length lit)) ∧ 0 < length lit.
Proof.
  intros Hs Hin. assert (0 < length lit) as Hpos.
  { assert (Forall (λ e, 0 < length e.1) TOKENS) as Hall by (repeat constructor).
    by apply (proj1 (Forall_forall _ _) Hall (lit, ty)). }
  apply starts_spec in Hs as [b Hs]. split_and!; [|intros _|done].
  - apply (f_equal length) in Hs. rewrite length_drop, length_app in Hs. lia.
  - unfold tok_text, py_slice. simpl. rewrite Nat.add_comm, Nat.add_sub, Hs, take_app_length. done.
Qed.

Lemma text_ok s i j : tok_ok s (MkToken TEXT i j).
Proof. by intros []. Qed.

Ltac toks := repeat (apply Forall_app_2 || apply Forall_cons_2 || apply Forall_nil_2); try done; try apply text_ok.

(** One round of the loop: the tokens it adds, and where the next one starts. *)
Lemma iter_loop_spec fuel : ∀ s pos unknown,
  length s - pos ≤ fuel → pos ≤ length s →
  ∃ toks p u, iter_loop fuel s pos unknown = Ok (toks, p, u) ∧ p ≤ length s ∧ tiles pos toks p ∧ Forall (tok_ok s) toks.
Proof.
  induction fuel as [|fuel IH]; intros s pos unknown Hfuel Hpos; cbn [iter_loop].
  { rewrite decide_False by lia. by exists [], pos, unknown. }
  destruct (decide (pos < length s)) as [Hlt|]; [|by exists [], pos, unknown].
  destruct (find_from (t_ "<|") s pos) as [m|] eqn:Em; [|by exists [], pos, unknown].
  apply find_from_bounds in Em as (Hm1 & Hm2 & _); [|lia]. change (length (t_ "<|")) with 2 in Hm2.
  set (before := if decide (pos < m) then _ else _).
  assert (tiles pos before m ∧ Forall (tok_ok s) before) as [Hbt Hbo].
  { unfold before. case_decide; simpl; [split_and!; [done|lia|done|by toks]|split; [lia|done]]. }
  assert (∀ toks p u, tiles m toks p → Forall (tok_ok s) toks → m < p ≤ length s →
    ∃ toks' p' u', (r ← iter_loop fuel s p u; Ok (before ++ toks ++ r.1.1, r.1.2, r.2)) = Ok (toks', p', u')
      ∧ p' ≤ length s ∧ tiles pos toks' p' ∧ Forall (tok_ok s) toks') as Hgo.
  { intros toks p u Ht Ho Hp. destruct (IH s p u ltac:(lia) ltac:(lia)) as (l & p' & u' & -> & Hp' & Hl & Hlo). simpl.
    eexists _, _, _. split_and!; [done|done| |by toks].
    eapply tiles_app; [done|]. by eapply tiles_app. }
  destruct (List.find _ TOKENS) as [[lit ty]|] eqn:El.
  { apply List.find_some in El as [Hin Hst]. apply list_elem_of_In in Hin.
    destruct (literal_ok s m lit ty Hst Hin) as (Hle & Hok & Hlen). apply Hgo; [|by toks|lia].
    simpl. split_and!; [done|lia|done]. }
  destruct (existsb _ literals).
  { eexists _, _, _. split_and!; [done|lia| |by toks].
    eapply tiles_app; [done|]. simpl. split_and!; [done|lia|done]. }
  destruct (find_from (t_ "|>") s (m + 2)) as [c|] eqn:Ec; [|apply Hgo; [simpl; split_and!; [done|lia|done]|by toks|lia]].
  apply find_from_bounds in Ec as (Hc1 & Hc2 & _); [|lia]. change (length (t_ "|>")) with 2 in Hc2.
  destruct (find_from (t_ "<|") s (c + 2)) as [n|] eqn:En.
  - apply find_from_bounds in En as (Hn1 & Hn2 & _); [|lia].
    apply Hgo; [simpl; split_and!; try done; lia|by toks|lia].
  - eexists _, _, _. split_and!; [done|lia| |by toks].
    eapply tiles_app; [done|]. simpl. split_and!; try done; lia.
Qed.

(** The structural tokens of a text, with the text between them, are the text. *)
Lemma iter_tokens_spec s :
  ∃ toks, iter_tokens s = Ok toks ∧ tiles 0 toks (length s) ∧ Forall (tok_ok s) toks.
Proof.
  unfold iter_tokens. destruct (iter_loop_spec (length s) s 0 false) as (toks & p & u & -> & Hp & Ht & Ho); [lia..|].
  simpl. eexists. split; [done|]. case_decide as Hlt.
  - split; [eapply tiles_app; [done|]; simpl; split_and!; [done|lia|done]|by toks].
  - assert (p = length s) as -> by lia. destruct (_ && _ && _).
    + split; [eapply tiles_app; [done|]; simpl; split_and!; done|by toks].
    + by rewrite app_nil_r.
Qed.

(** ** The parser returns *)

Lemma find_header_bounds l : ∀ i ch c m,
  find_header l i ch = (c, m) →
  (∀ k, c = Some k → ch = Some k ∨ i ≤ k < i + length l) ∧ (∀ j, m = Some j → i ≤ j < i + length l).
Proof.
  induction l as [|t l IH]; intros i ch c m; cbn [find_header length].
  - intros [= <- <-]. split; [by left|done].
  - destruct (_ && _); [|destruct (bool_decide _)].
    + intros Hf. destruct (IH _ _ _ _ Hf) as [Hc Hm]. split.
      * intros k Hk. destruct (Hc k Hk) as [[= <-]|?]; right; lia.
      * intros j Hj. specialize (Hm j Hj). lia.
    + intros [= <- <-]. split; [by left|]. intros j [= <-]. lia.
    + intros Hf. destruct (IH _ _ _ _ Hf) as [Hc Hm]. split.
      * intros k Hk. destruct (Hc k Hk); [by left|right; lia].
      * intros j Hj. specialize (Hm j Hj). lia.
Qed.

Lemma scan_until_ge tys l i : i ≤ scan_until tys l i.
Proof. revert i. induction l as [|t l IH]; intros i; simpl; [done|]. case_bool_decide; [done|]. specialize (IH (S i)). lia. Qed.

Lemma skip_start_ge tokens pos : pos ≤ skip_start tokens pos.
Proof. unfold skip_start. destruct (tokens !! pos); [case_bool_decide; lia|lia]. Qed.

Lemma tok_at_ok tokens i : i < length tokens → ∃ t, tok_at tokens i = Ok t.
Proof. intros Hi. apply lookup_lt_is_Some_2 in Hi as [t Ht]. exists t. unfold tok_at. by rewrite Ht. Qed.

Lemma header_ok s tokens c m : c < length tokens → m < length tokens → ∃ h, channel_header s tokens c m = Ok h.
Proof.
  intros Hc Hm. unfold channel_header. destruct (tok_at_ok tokens m Hm) as [t ->]. case_decide as Hd.
  - destruct (tok_at_ok tokens (c + 1) Hd) as [u ->]. simpl. by eexists.
  - destruct (tok_at_ok tokens c Hc) as [u ->]. simpl. by eexists.
Qed.

(** Where a header is found. *)
Lemma header_found tokens pos c m :
  find_header (drop (skip_start tokens pos) tokens) (skip_start tokens pos) None = (c, m) →
  (∀ k, c = Some k → k < length tokens) ∧ (∀ j, m = Some j → pos ≤ j < length tokens).
Proof.
  intros Hf. apply find_header_bounds in Hf as [Hc Hm]. rewrite length_drop in *.
  pose proof (skip_start_ge tokens pos). split.
  - intros k Hk. destruct (Hc k Hk) as [|?]; [done|lia].
  - intros j Hj. specialize (Hm j Hj). lia.
Qed.

Lemma parse_block_ok s tokens pos :
  pos < length tokens →
  ∃ r, parse_block s tokens pos = Ok r ∧ match r with Some (_, n) => pos < n | None => True end.
Proof.
  intros Hp. unfold parse_block. destruct (find_header _ _ _) as [c m] eqn:Hf. apply header_found in Hf as [Hc Hm].
  destruct m as [m|]; [|destruct c; by eexists]. specialize (Hm m eq_refl).
  destruct (tok_at_ok tokens m) as [mt Hmt]; [lia|]. destruct (tok_at_ok tokens pos Hp) as [ft Hft].
  rewrite Hft. destruct c as [c|].
  - destruct (header_ok s tokens c m) as [h ->]; [by apply Hc|lia|]. simpl.
    destruct (extract_channel_type h) as [ct|]; [|by eexists]. rewrite Hmt. simpl.
    set (e := scan_until _ _ _). assert (m + 1 ≤ e) by apply scan_until_ge. clearbody e.
    destruct (tokens !! e) as [t|]; [|destruct ct; eexists; (split; [done|]); simpl; try done; lia].
    destruct ct; try (eexists; split; [done|]; simpl; lia).
    destruct (if bool_decide (tok_type t = RETURN) then _ else _) as [n|]; [case_bool_decide|];
      eexists; (split; [done|]); simpl; lia.
  - rewrite Hmt. simpl. set (e := scan_until _ _ _). assert (m + 1 ≤ e) by apply scan_until_ge. clearbody e.
    destruct (tokens !! e) as [t|]; eexists; (split; [done|]); simpl; [lia|done].
Qed.

Lemma parse_partial_ok s tokens pos : pos < length tokens → ∃ r, parse_partial_analysis s tokens pos = Ok r.
Proof.
  intros Hp. unfold parse_partial_analysis. destruct (find_header _ _ _) as [[c|] [m|]] eqn:Hf; try by eexists.
  apply header_found in Hf as [Hc Hm]. specialize (Hm m eq_refl).
  destruct (header_ok s tokens c m) as [h ->]; [by apply Hc|lia|]. simpl.
  destruct (extract_channel_type h) as [[]|]; try by eexists.
  destruct (tok_at_ok tokens m) as [mt ->]; [lia|]. simpl. destruct (tok_at_ok tokens pos Hp) as [ft ->]. simpl. by eexists.
Qed.

Lemma filler_ok s tokens pos : pos < length tokens → ∃ b, is_commentary_filler s tokens pos = Ok b.
Proof.
  intros Hp. unfold is_commentary_filler. destruct (tok_at_ok tokens pos Hp) as [t ->]. simpl.
  destruct pos as [|p]; [by eexists|]. destruct (tok_at_ok tokens p) as [u ->]; [lia|]. simpl. by eexists.
Qed.

Lemma canonical_loop_ok fuel : ∀ s tokens pos,
  length tokens - pos ≤ fuel → ∃ r, canonical_loop fuel s tokens pos = Ok r.
Proof.
  induction fuel as [|fuel IH]; intros s tokens pos Hf; cbn [canonical_loop];
    (destruct (tokens !! pos) as [t|] eqn:Ht; [|by eexists]); apply lookup_lt_Some in Ht; [lia|].
  destruct (filler_ok s tokens pos Ht) as [b ->]. destruct (IH s tokens (pos + 1)) as [r1 ->]; [lia|]. simpl.
  destruct (tok_type t); try by eexists.
  - case_decide; [|by eexists]. destruct (prefix_hold _ _). by eexists.
  - destruct (parse_block_ok s tokens pos Ht) as ([[e n]|] & -> & Hn); simpl.
    + destruct (IH s tokens n) as [r2 ->]; [lia|]. by eexists.
    + destruct (parse_partial_ok s tokens pos Ht) as [[[e k]|] ->]; by eexists.
  - destruct (parse_block_ok s tokens pos Ht) as ([[e n]|] & -> & Hn); simpl.
    + destruct (IH s tokens n) as [r2 ->]; [lia|]. by eexists.
    + destruct (parse_partial_ok s tokens pos Ht) as [[[e k]|] ->]; by eexists.
Qed.

(** The facade returns as well. *)
Lemma canonical_parse_ok s : ∃ r, canonical_parse s = Ok r.
Proof.
  unfold canonical_parse. destruct (iter_tokens_spec s) as (toks & -> & _). simpl.
  destruct toks as [|t toks]; [by eexists|]. by apply canonical_loop_ok.
Qed.

Lemma harmony_parse_ok tp lk p chunk : harmony_parse tp lk p chunk = Ok (harmony_step tp lk p chunk).
Proof.
  assert (∃ r, harmony_parse tp lk p chunk = Ok r) as [r Hr]; [|unfold harmony_step; by rewrite Hr].
  unfold harmony_parse. destruct (match strategy p with Some _ => _ | None => _ end) as [[]|]; [|simpl|by eexists].
  - destruct (canonical_parse_ok (h_buffer p ++ chunk)) as [[es rem] ->]. simpl.
    destruct (filter_events _ _ _ _) as [[??]?]. by eexists.
  - destruct (tp _) as [es rem]. destruct (filter_events _ _ _ _) as [[??]?]. by eexists.
Qed.

(** ** A block of reasoning *)
Definition analysis_header : text := t_ "<|channel|>analysis<|message|>".

Lemma iter_step_literal fuel s pos u m lit ty :
  pos < length s → find_from (t_ "<|") s pos = Some m → List.find (λ e, starts e.1 (drop m s)) TOKENS = Some (lit, ty) →
  iter_loop (S fuel) s pos u
  = r ← iter_loop fuel s (m + length lit) u;
    Ok ((if decide (pos < m) then [MkToken TEXT pos m] else []) ++ [MkToken ty m (m + length lit)] ++ r.1.1, r.1.2, r.2).
Proof. intros Hp Hm Hl. cbn [iter_loop]. by rewrite decide_True, Hm, Hl by done. Qed.

Lemma find_from_end t a b : contains t b = false → find_from t (a ++ b) (length a) = None.
Proof.
  unfold contains, find_from. rewrite drop_app_length. by destruct (find t b).
Qed.

Lemma iter_loop_analysis n c :
  contains (t_ "<|") c = false →
  iter_loop (S (S (S n))) (analysis_header ++ c) 0 false
  = Ok ([MkToken CHANNEL 0 11; MkToken TEXT 11 19; MkToken MESSAGE 19 30], 30, false).
Proof.
  intros Hc. assert (30 ≤ length (analysis_header ++ c)) by (rewrite length_app; vm_compute; lia).
  assert (iter_loop (S n) (analysis_header ++ c) 30 false = Ok ([], 30, false)) as E.
  { pose proof (find_from_end (t_ "<|") analysis_header c Hc) as Hf.
    replace (length analysis_header) with 30 in Hf by (by vm_compute). cbn [iter_loop]. rewrite Hf. by destruct (decide _). }
  rewrite (iter_step_literal _ _ 0 false 0 (t_ "<|channel|>") CHANNEL); [|lia|by vm_compute|by vm_compute].
  replace (0 + length (t_ "<|channel|>")) with 11 by (by vm_compute).
  rewrite (iter_step_literal _ _ 11 false 19 (t_ "<|message|>") MESSAGE); [|lia|by vm_compute|by vm_compute].
  replace (19 + length (t_ "<|message|>")) with 30 by (by vm_compute). by rewrite E.
Qed.

(** The tokens of the header, then one for the rest. *)
Lemma iter_tokens_analysis c :
  contains (t_ "<|") c = false →
  iter_tokens (analysis_header ++ c)
  = Ok ([MkToken CHANNEL 0 11; MkToken TEXT 11 19; MkToken MESSAGE 19 30]
        ++ match c with [] => [] | _ => [MkToken TEXT 30 (30 + length c)] end).
Proof.
  intros Hc. unfold iter_tokens. rewrite !length_app. replace (length analysis_header) with 30 by (by vm_compute).
  replace (iter_loop (30 + length c) (analysis_header ++ c) 0 false)
    with (iter_loop (S (S (S (27 + length c)))) (analysis_header ++ c) 0 false) by (f_equal; lia).
  rewrite iter_loop_analysis by done. cbn [mbind result_bind]. destruct c as [|x c].
  - rewrite decide_False by (simpl; lia). rewrite andb_false_r. done.
  - rewrite decide_True by (simpl; lia). done.
Qed.

(** Text of the reasoning passes through, and the header stays. *)
Lemma canonical_analysis c :
  contains (t_ "<|") c = false →
  canonical_parse (analysis_header ++ c) = Ok ([MkEvent "reasoning" c None], analysis_header).
Proof. intros Hc. unfold canonical_parse. rewrite iter_tokens_analysis by done. destruct c as [|x c]; by vm_compute. Qed.

Section analysis.
Context (text_parse : text → list Event * text) (looks_like_text : text → bool).

(** Inside the block. *)
Definition in_analysis (p : HarmonyParser) : Prop := strategy p = Some CanonicalStrategy ∧ h_buffer p = analysis_header.

Lemma filter_reasoning hc f pa c : ∃ f', filter_events hc f pa [MkEvent "reasoning" c None] = ([MkEvent "reasoning" c None], f', pa).
Proof using. by eexists. Qed.

Lemma step_analysis p c :
  in_analysis p → contains (t_ "<|") c = false →
  ∃ p', harmony_step text_parse looks_like_text p c = ([MkEvent "reasoning" c None], p') ∧ in_analysis p'.
Proof using.
  intros [Hs Hb] Hc. unfold harmony_step, harmony_parse. rewrite Hs, Hb. rewrite canonical_analysis by done.
  destruct (filter_reasoning (ends_with (t_ "<|call|>") (rstrip (analysis_header ++ c))) (should_filter_commentary p)
    (partial_commentary p) c) as [f' Hf]. unfold mbind, result_bind. cbv beta iota zeta.
  rewrite Hf. by eexists.
Qed.

Lemma step_analysis_start :
  ∃ p', harmony_step text_parse looks_like_text new_harmony analysis_header = ([MkEvent "reasoning" [] None], p')
    ∧ in_analysis p'.
Proof using. eexists. vm_compute. done. Qed.

Lemma step_analysis_end p :
  in_analysis p →
  ∃ p', harmony_step text_parse looks_like_text p (t_ "<|end|>") = ([MkEvent "reasoning" [] None], p')
    ∧ h_buffer p' = [].
Proof using.
  intros [Hs Hb]. unfold harmony_step, harmony_parse. rewrite Hs, Hb.
  assert (canonical_parse (analysis_header ++ t_ "<|end|>") = Ok ([MkEvent "reasoning" [] None], [])) as -> by (by vm_compute).
  destruct (filter_reasoning (ends_with (t_ "<|call|>") (rstrip (analysis_header ++ t_ "<|end|>")))
    (should_filter_commentary p) (partial_commentary p) []) as [f' Hf]. unfold mbind, result_bind. cbv beta iota zeta.
  rewrite Hf. by eexists.
Qed.

(** The detector over such a block. *)
Lemma stream_analysis cs : ∀ d p,
  override d = GptOss p → in_analysis p → Forall (λ c, contains (t_ "<|") c = false) cs →
  ∃ d' p', parse_stream (harmony_step text_parse looks_like_text) d cs = ((concat cs, []), d')
    ∧ override d' = GptOss p' ∧ in_analysis p'.
Proof using.
  induction cs as [|c cs IH]; intros d p Ho Hp Hcs; [by exists d, p|]. apply Forall_cons in Hcs as [Hc Hcs].
  destruct (step_analysis p c Hp Hc) as (p1 & E & Hp1).
  destruct (IH (set_override (GptOss p1) d) p1 eq_refl Hp1 Hcs) as (d' & p' & E' & Hd').
  exists d', p'. split; [|done]. cbn [parse_stream]. unfold parse_stream_chunk, parse_streaming_increment. rewrite Ho, E.
  rewrite E'. simpl. by rewrite app_nil_r.
Qed.
End analysis.
