(* ===== verification/ReqFinish.v ===== *)
(** When a request is finished, and what of its output counts: [check_finished] and
    [init_incremental_detokenize] of [Req] (managers/schedule_batch.py).

    [decode] is the tokenizer's [decode], [re_search] is [re.search] on a pattern and a
    text; a set of token ids is the list of its elements in the order of iteration. *)
From S2P Require Import Prelude PyStr ReqPool.
From stdpp Require Import options.
Local Open Scope Z_scope.

Inductive FinishReason :=
  | FINISH_MATCHED_TOKEN (matched : Z)
  | FINISH_MATCHED_STR (matched : text)
  | FINISHED_MATCHED_REGEX (matched : text)
  | FINISH_LENGTH (length : Z)
  | FINISH_ABORT (message : string).

(** What the tokenizer knows of the end of a sequence. *)
Record Tokenizer := MkTokenizer { eos_token_id : option Z; additional_stop_token_ids : list Z }.

(** The attributes of [Req] and of its sampling parameters that are read here; [grammar]
    is [None] or tells whether the grammar has terminated. *)
Record OutReq := MkOut {
  o_prompt : list Z;
  o_output : list Z;
  o_max_new_tokens : Z;
  o_ignore_eos : bool;
  o_stop_token_ids : list Z;
  o_stop_strs : list text;
  o_stop_regex_strs : list text;
  o_stop_str_max_len : nat;
  o_stop_regex_max_len : nat;
  o_eos_token_ids : list Z;
  o_tokenizer : option Tokenizer;
  o_vocab_size : Z;
  o_decoded_text : text;
  o_grammar : option bool;
  o_finished_reason : option FinishReason;
  o_finished_len : option nat;
  o_to_finish : option FinishReason;
  o_offsets : option (nat * nat);  (* surr_offset, read_offset *)
  o_surr_and_decode_ids : list Z;
  o_cur_decode_ids_len : nat;
}.

Definition set_out (ids : list Z) (reason : option FinishReason) (len : option nat) (pending : option FinishReason)
    (r : OutReq) : OutReq :=
  MkOut (o_prompt r) ids (o_max_new_tokens r) (o_ignore_eos r) (o_stop_token_ids r) (o_stop_strs r)
    (o_stop_regex_strs r) (o_stop_str_max_len r) (o_stop_regex_max_len r) (o_eos_token_ids r) (o_tokenizer r)
    (o_vocab_size r) (o_decoded_text r) (o_grammar r) reason len pending (o_offsets r) (o_surr_and_decode_ids r)
    (o_cur_decode_ids_len r).
Definition set_detok (offs : nat * nat) (ids : list Z) (len : nat) (r : OutReq) : OutReq :=
  MkOut (o_prompt r) (o_output r) (o_max_new_tokens r) (o_ignore_eos r) (o_stop_token_ids r) (o_stop_strs r)
    (o_stop_regex_strs r) (o_stop_str_max_len r) (o_stop_regex_max_len r) (o_eos_token_ids r) (o_tokenizer r)
    (o_vocab_size r) (o_decoded_text r) (o_grammar r) (o_finished_reason r) (o_finished_len r) (o_to_finish r)
    (Some offs) ids len.

(** [l[-n:]]: all of [l] for [n = 0]. *)
Definition from_end {A} (n : nat) (l : list A) : list A := match n with O => l | _ => drop (length l - n) l end.

(** [finished], [output_ids_through_stop] *)
Definition o_finished (r : OutReq) : bool := match o_finished_reason r with Some _ => true | None => false end.
Definition output_ids_through_stop (r : OutReq) : list Z :=
  match o_finished_len r with Some n => take n (o_output r) | None => o_output r end.

(** A token that ends the sequence. *)
Definition is_stop_token (r : OutReq) (t : Z) : bool :=
  bool_decide (t ∈ o_stop_token_ids r) || bool_decide (t ∈ o_eos_token_ids r)
  || match o_tokenizer r with
     | Some tk => bool_decide (eos_token_id tk = Some t) || bool_decide (t ∈ additional_stop_token_ids tk)
     | None => false
     end.

(** [_check_token_based_finish]: the loop, [pos] is the position of the next token. *)
Fixpoint token_loop (r : OutReq) (pos : nat) (l : list Z) : option (Z * nat) :=
  match l with
  | [] => None
  | t :: l => if is_stop_token r t then Some (t, pos) else token_loop r (S pos) l
  end.
Definition check_token_based_finish (r : OutReq) (new : list Z) : option OutReq :=
  if o_ignore_eos r then None
  else match token_loop r (length (o_output r) - length new) new with
       | Some (t, pos) =>
           Some (set_out (o_output r) (Some (FINISH_MATCHED_TOKEN t)) (Some (S pos)) (o_to_finish r) r)
       | None => None
       end.

(** [_check_vocab_boundary_finish] *)
Fixpoint boundary_loop (r : OutReq) (pos : nat) (l : list Z) : option nat :=
  match l with
  | [] => None
  | t :: l => if bool_decide (o_vocab_size r < t) || bool_decide (t < 0) then Some pos else boundary_loop r (S pos) l
  end.
Definition check_vocab_boundary_finish (r : OutReq) (new : list Z) : option OutReq :=
  match boundary_loop r (length (o_output r) - length new) new with
  | Some pos =>
      let ids := match o_stop_token_ids r with t :: _ => <[pos := t]> (o_output r) | [] => o_output r end in
      let ids := match o_eos_token_ids r with t :: _ => <[pos := t]> ids | [] => ids end in
      Some (set_out ids (Some (FINISH_MATCHED_STR (of_ascii "NaN happened"))) (Some (S pos)) (o_to_finish r) r)
  | None => None
  end.

Section finish.
Context (decode : list Z → text) (re_search : text → text → bool).

(** [tail_str] *)
Definition tail_str (r : OutReq) : result text :=
  match o_stop_strs r, o_stop_regex_strs r with
  | [], [] => Ok []
  | _, _ =>
      let max_len := Nat.max (o_stop_str_max_len r + 1) (o_stop_regex_max_len r + 1) in
      let tail_len := Nat.min max_len (length (o_output r)) in
      match o_tokenizer r with
      | Some _ => Ok (decode (from_end tail_len (o_output r)))
      | None => Raise AttributeError
      end
  end.

(** [check_match_stop_str_prefix] *)
Definition prefix_overlap (tail stop : text) : bool :=
  existsb (λ i, bool_decide (from_end i tail = take i stop)) (seq 1 (Nat.min (length tail) (length stop))).
Definition check_match_stop_str_prefix (r : OutReq) : result bool :=
  match o_stop_strs r with
  | [] => Ok false
  | strs =>
      tail ← tail_str r;
      Ok match tail with
         | [] => false
         | _ => existsb (λ s, match s with [] => false | _ => contains s tail || prefix_overlap tail s end) strs
         end
  end.

(** [_check_str_based_finish] *)
Definition check_str_based_finish (r : OutReq) : result (option OutReq) :=
  match o_stop_strs r, o_stop_regex_strs r with
  | [], [] => Ok None
  | strs, regexes =>
      tail ← tail_str r;
      Ok match List.find (λ s, contains s tail || contains s (o_decoded_text r)) strs with
         | Some s => Some (set_out (o_output r) (Some (FINISH_MATCHED_STR s)) (o_finished_len r) (o_to_finish r) r)
         | None =>
             match List.find (λ p, re_search p tail) regexes with
             | Some p => Some (set_out (o_output r) (Some (FINISHED_MATCHED_REGEX p)) (o_finished_len r) (o_to_finish r) r)
             | None => None
             end
         end
  end.

(** [check_finished] *)
Definition check_finished (new_accepted_len : nat) (r : OutReq) : result OutReq :=
  if o_finished r then Ok r
  else match o_to_finish r with
  | Some f => Ok (set_out (o_output r) (Some f) (o_finished_len r) None r)
  | None =>
      if bool_decide (o_max_new_tokens r <= Z.of_nat (length (o_output r))) then
        Ok (set_out (o_output r) (Some (FINISH_LENGTH (o_max_new_tokens r))) (Some (Z.to_nat (o_max_new_tokens r)))
              (o_to_finish r) r)
      else match o_grammar r with
      | Some true =>
          t ← unwrap IndexError (last (o_output r));
          Ok (set_out (o_output r) (Some (FINISH_MATCHED_TOKEN t)) (o_finished_len r) (o_to_finish r) r)
      | _ =>
          let new := from_end new_accepted_len (o_output r) in
          match check_token_based_finish r new with
          | Some r' => Ok r'
          | None =>
              match check_vocab_boundary_finish r new with
              | Some r' => Ok r'
              | None => f ← check_str_based_finish r; Ok (default r f)
              end
          end
      end
  end.

(** One decode step of a request that is still running: the accepted tokens are added and
    the check is made ([process_batch_result_decode]); a finished request is skipped. *)
Definition accept (tokens : list Z) (r : OutReq) : result OutReq :=
  if o_finished r then Ok r
  else check_finished (length tokens) (set_out (o_output r ++ tokens) (o_finished_reason r) (o_finished_len r) (o_to_finish r) r).
End finish.

(** [INIT_INCREMENTAL_DETOKENIZATION_OFFSET] *)
Definition INIT_INCREMENTAL_DETOKENIZATION_OFFSET : nat := 5.

(** [init_incremental_detokenize] *)
Definition init_incremental_detokenize (r : OutReq) : (list Z * nat) * OutReq :=
  let output_ids := output_ids_through_stop r in
  match o_offsets r with
  | None =>
      let read := length (o_prompt r) in
      let surr := (read - INIT_INCREMENTAL_DETOKENIZATION_OFFSET)%nat in
      let ids := drop surr (o_prompt r) ++ output_ids in
      ((ids, (read - surr)%nat), set_detok (surr, read) ids (length output_ids) r)
  | Some (surr, read) =>
      let ids := o_surr_and_decode_ids r ++ drop (o_cur_decode_ids_len r) output_ids in
      ((ids, (read - surr)%nat), set_detok (surr, read) ids (length output_ids) r)
  end.

(** ** Properties *)
Section run.
Context (decode : list Z → text) (re_search : text → text → bool).
Implicit Types r : OutReq.

(** Steps, each followed by the ids for the detokenizer. *)
Fixpoint decode_run (steps : list (list Z)) (r : OutReq) : result OutReq :=
  match steps with
  | [] => Ok r
  | tokens :: steps =>
      r ← accept decode re_search tokens r;
      decode_run steps (init_incremental_detokenize r).2
  end.

(** The parameters of [r]: what no step changes. *)
Record settings_ok r : Prop := {
  so_grammar : o_grammar r ≠ Some true;
  so_tokenizer : o_tokenizer r = None → o_stop_strs r = [] ∧ o_stop_regex_strs r = [];
  so_max : 0 < o_max_new_tokens r;
}.

(** A running request. *)
Record unfinished r : Prop := {
  uf_reason : o_finished_reason r = None;
  uf_len : o_finished_len r = None;
  uf_pending : o_to_finish r = None;
  uf_stops : o_ignore_eos r = false → Forall (λ t, is_stop_token r t = false) (o_output r);
  uf_max : Z.of_nat (length (o_output r)) < o_max_new_tokens r;
}.

(** Tokens that do not end the sequence, unless the request ignores those that would. *)
Definition no_stop r (l : list Z) : Prop := o_ignore_eos r = false → Forall (λ t, is_stop_token r t = false) l.

(** The tokens accepted in the steps of the run. *)
Context (all : list (list Z)).

(** What the reason of a finished request says about its output: it ends with the first stop
    token; it has the length that is allowed, and a stop token only among the tokens of the
    step that reached it; the end of its text has a stop string or matches a pattern and no
    token of it is a stop token; or its last token was none of the vocabulary and the others
    are no stop tokens. *)
Definition reason_ok r (f : FinishReason) : Prop :=
  match f with
  | FINISH_MATCHED_TOKEN t =>
      ∃ before, output_ids_through_stop r = before ++ [t] ∧ is_stop_token r t = true
                ∧ Forall (λ t, is_stop_token r t = false) before
  | FINISH_LENGTH n =>
      n = o_max_new_tokens r ∧ Z.of_nat (length (output_ids_through_stop r)) = n
      ∧ ∃ before tokens, tokens ∈ all ∧ output_ids_through_stop r `prefix_of` before ++ tokens
          ∧ Z.of_nat (length before) < n ∧ no_stop r before
  | FINISH_ABORT _ => False
  | FINISH_MATCHED_STR s =>
      s ∈ o_stop_strs r ∧ no_stop r (output_ids_through_stop r)
        ∧ (∃ tail, tail_str decode r = Ok tail ∧ (contains s tail = true ∨ contains s (o_decoded_text r) = true))
      ∨ s = of_ascii "NaN happened"
        ∧ ∃ before t, output_ids_through_stop r = before ++ [t] ∧ no_stop r before
            ∧ (o_vocab_size r < t ∨ t < 0 ∨ t ∈ o_stop_token_ids r ∨ t ∈ o_eos_token_ids r)
  | FINISHED_MATCHED_REGEX p =>
      p ∈ o_stop_regex_strs r ∧ no_stop r (output_ids_through_stop r)
      ∧ ∃ tail, tail_str decode r = Ok tail ∧ re_search p tail = true
  end.

Definition outcome_ok r : Prop :=
  unfinished r
  ∨ ∃ f, o_finished_reason r = Some f ∧ Z.of_nat (length (output_ids_through_stop r)) <= o_max_new_tokens r
         ∧ reason_ok r f.

(** The ids for the detokenizer are the end of the prompt and the output. *)
Definition detok_ok r : Prop :=
  match o_offsets r with
  | None => o_surr_and_decode_ids r = [] ∧ o_cur_decode_ids_len r = 0%nat
  | Some (surr, read) =>
      read = length (o_prompt r) ∧ surr = (read - INIT_INCREMENTAL_DETOKENIZATION_OFFSET)%nat
      ∧ o_surr_and_decode_ids r = drop surr (o_prompt r) ++ take (o_cur_decode_ids_len r) (output_ids_through_stop r)
      ∧ (o_cur_decode_ids_len r <= length (output_ids_through_stop r))%nat
  end.

Lemma token_loop_spec r l pos :
  match token_loop r pos l with
  | Some (t, p) => ∃ a b, l = a ++ t :: b ∧ p = (pos + length a)%nat ∧ is_stop_token r t = true
                          ∧ Forall (λ t, is_stop_token r t = false) a
  | None => Forall (λ t, is_stop_token r t = false) l
  end.
Proof using.
  revert pos. induction l as [|x l IH]; intros pos; simpl; [constructor|]. destruct (is_stop_token r x) eqn:E.
  - exists [], l. split_and!; [done|simpl; lia|done|constructor].
  - specialize (IH (S pos)). destruct (token_loop r (S pos) l) as [[t p]|]; [|by constructor].
    destruct IH as (a & b & -> & -> & Ht & Ha). exists (x :: a), b. split_and!; [done|simpl; lia|done|by constructor].
Qed.

Lemma boundary_loop_spec r l pos p :
  boundary_loop r pos l = Some p →
  (pos <= p < pos + length l)%nat ∧ ∃ t, l !! (p - pos)%nat = Some t ∧ (o_vocab_size r < t ∨ t < 0).
Proof using.
  revert pos. induction l as [|x l IH]; intros pos; simpl; [done|]. destruct (_ || _) eqn:E.
  - intros [= <-]. split; [lia|]. exists x. rewrite Nat.sub_diag. split; [done|].
    rewrite orb_true_iff, !bool_decide_eq_true in E. done.
  - intros Hb. apply IH in Hb as (Hp & t & Ht & Hv). split; [lia|]. exists t. split; [|done].
    by replace (p - pos)%nat with (S (p - S pos)) by lia.
Qed.

Lemma from_end_app (a b : list Z) : b ≠ [] → from_end (length b) (a ++ b) = b.
Proof using.
  intros Hb. unfold from_end. rewrite length_app, Nat.add_sub. destruct b; [done|]. simpl length. cbv iota.
  apply drop_app_length.
Qed.

(** What a check leaves behind: [out] has been said before. *)
Definition checked r (out : list Z) r' : Prop :=
  outcome_ok r' ∧ (∃ ids f n p, r' = set_out ids f n p r) ∧ take (length out) (output_ids_through_stop r') = out.

Lemma is_stop_set_out ids f n p r : is_stop_token (set_out ids f n p r) = is_stop_token r.
Proof using. done. Qed.

(** A finished request with the given output. *)
Lemma checked_finished r out r' f :
  (∃ ids g n p, r' = set_out ids g n p r) → o_finished_reason r' = Some f →
  Z.of_nat (length (output_ids_through_stop r')) <= o_max_new_tokens r' → reason_ok r' f →
  take (length out) (output_ids_through_stop r') = out → checked r out r'.
Proof using. intros Hset Hf Hlen Hr Ht. split_and!; [right; by exists f|done|done]. Qed.

Lemma token_finish_checked r out tokens r' :
  o_output r = out ++ tokens → o_finished_len r = None →
  (o_ignore_eos r = false → Forall (λ t, is_stop_token r t = false) out) →
  Z.of_nat (length (out ++ tokens)) < o_max_new_tokens r →
  check_token_based_finish r tokens = Some r' → checked r out r'.
Proof using.
  intros Ho Hn Hst Hmax Hc. unfold check_token_based_finish in Hc. destruct (o_ignore_eos r); [done|].
  rewrite Ho, length_app, Nat.add_sub in Hc. pose proof (token_loop_spec r tokens (length out)) as Hl.
  destruct (token_loop r (length out) tokens) as [[t p]|]; [|done]. injection Hc as <-.
  destruct Hl as (a & b & -> & -> & Ht & Ha).
  set (r' := set_out _ _ _ _ r).
  assert (output_ids_through_stop r' = (out ++ a) ++ [t]) as Hth.
  { unfold output_ids_through_stop. simpl. replace (out ++ a ++ t :: b) with (((out ++ a) ++ [t]) ++ b) by (by rewrite <-!app_assoc).
    rewrite take_app_le, take_ge; [done|rewrite !length_app; simpl; lia..]. }
  eapply (checked_finished r out r' (FINISH_MATCHED_TOKEN t)); [by eexists _, _, _, _|done| | |].
  - rewrite Hth. rewrite !length_app in *. simpl in *. lia.
  - exists (out ++ a). split_and!; [done|done|]. apply Forall_app. split; [by apply Hst|done].
  - by rewrite Hth, <-app_assoc, take_app_length.
Qed.

Lemma boundary_finish_checked r out tokens r' :
  o_output r = out ++ tokens → o_finished_len r = None → no_stop r (out ++ tokens) →
  Z.of_nat (length (out ++ tokens)) < o_max_new_tokens r →
  check_vocab_boundary_finish r tokens = Some r' → checked r out r'.
Proof using.
  intros Ho Hn Hst Hmax Hc. unfold check_vocab_boundary_finish in Hc. rewrite Ho, length_app, Nat.add_sub in Hc.
  destruct (boundary_loop r (length out) tokens) as [p|] eqn:Hb; [|done]. apply boundary_loop_spec in Hb as (Hb & x & Hx & Hv).
  injection Hc as <-. set (ids := match o_eos_token_ids r with [] => _ | _ => _ end).
  assert (length ids = length (out ++ tokens) ∧ take p ids = take p (out ++ tokens)) as [Hl Ht].
  { unfold ids. destruct (o_eos_token_ids r), (o_stop_token_ids r); rewrite ?length_insert, ?take_insert_ge by lia; done. }
  assert (∃ t, ids !! p = Some t ∧ (o_vocab_size r < t ∨ t < 0 ∨ t ∈ o_stop_token_ids r ∨ t ∈ o_eos_token_ids r)) as (t & Hpt & Hbad).
  { assert ((out ++ tokens) !! p = Some x) as Hpx by (by rewrite lookup_app_r by lia).
    assert (∀ (y : Z) (l : list Z), (p < length l)%nat → <[p := y]> l !! p = Some y) as Hins by (intros; by apply list_lookup_insert_eq).
    unfold ids. destruct (o_eos_token_ids r) as [|e es] eqn:Ee, (o_stop_token_ids r) as [|c cs] eqn:Es.
    - exists x. split; [done|tauto].
    - exists c. split; [apply Hins; rewrite length_app; lia|]. right. right. left. by left.
    - exists e. split; [apply Hins; rewrite length_app; lia|]. do 3 right. by left.
    - exists e. split; [apply Hins; rewrite length_insert, length_app; lia|]. do 3 right. by left. }
  eapply checked_finished; [by eexists _, _, _, _|done| | |]; unfold reason_ok, output_ids_through_stop; cbn [o_finished_len set_out o_output].
  - change (o_max_new_tokens (set_out _ _ _ _ r)) with (o_max_new_tokens r). rewrite length_take. lia.
  - right. split; [done|]. exists (take p ids), t. rewrite (take_S_r _ _ _ Hpt). split_and!; [done| |done].
    rewrite Ht. intros Hi. by apply Forall_take, Hst.
  - rewrite take_take, Nat.min_l by lia. rewrite <-(Nat.min_l (length out) p), <-take_take, Ht, take_take, Nat.min_l by lia. apply take_app_length.
Qed.

Lemma str_finish_checked r out tokens :
  settings_ok r → o_output r = out ++ tokens → o_finished_len r = None → no_stop r (out ++ tokens) →
  Z.of_nat (length (out ++ tokens)) < o_max_new_tokens r →
  ∃ f, check_str_based_finish decode re_search r = Ok f ∧ ∀ r', f = Some r' → checked r out r'.
Proof using.
  intros Hs Ho Hn Hst Hmax.
  assert (∀ g, reason_ok (set_out (o_output r) (Some g) (o_finished_len r) (o_to_finish r) r) g →
    checked r out (set_out (o_output r) (Some g) (o_finished_len r) (o_to_finish r) r)) as Hck.
  { intros g Hg. eapply checked_finished; [by eexists _, _, _, _|done| |done|];
      unfold output_ids_through_stop; cbn [o_finished_len set_out o_output]; rewrite Hn, Ho.
    - change (o_max_new_tokens (set_out _ _ _ _ r)) with (o_max_new_tokens r). lia.
    - apply take_app_length. }
  assert (∀ g, no_stop (set_out (o_output r) g (o_finished_len r) (o_to_finish r) r)
    (output_ids_through_stop (set_out (o_output r) g (o_finished_len r) (o_to_finish r) r))) as Hns.
  { intros g. unfold output_ids_through_stop. cbn [o_finished_len set_out o_output]. by rewrite Hn, Ho. }
  destruct (tail_str decode r) as [tail|e|] eqn:Ht.
  - assert (∀ strs regexes, strs = o_stop_strs r → regexes = o_stop_regex_strs r → ∀ r',
      match List.find (λ s, contains s tail || contains s (o_decoded_text r)) strs with
      | Some s => Some (set_out (o_output r) (Some (FINISH_MATCHED_STR s)) (o_finished_len r) (o_to_finish r) r)
      | None => match List.find (λ p, re_search p tail) regexes with
                | Some p => Some (set_out (o_output r) (Some (FINISHED_MATCHED_REGEX p)) (o_finished_len r) (o_to_finish r) r)
                | None => None
                end
      end = Some r' → checked r out r') as Hmatch.
    { intros strs regexes -> -> r'. destruct (List.find _ (o_stop_strs r)) as [x|] eqn:Ex.
      - intros [= <-]. apply List.find_some in Ex as [Hin Hx]. apply orb_true_iff in Hx. apply Hck. left.
        split_and!; [by apply list_elem_of_In|apply Hns|by exists tail].
      - destruct (List.find _ (o_stop_regex_strs r)) as [x|] eqn:Ey; [|done]. intros [= <-].
        apply List.find_some in Ey as [Hin Hx]. apply Hck. split_and!; [by apply list_elem_of_In|apply Hns|by exists tail]. }
    unfold check_str_based_finish. rewrite Ht.
    destruct (o_stop_strs r) as [|x l] eqn:Es, (o_stop_regex_strs r) as [|y k] eqn:Er; [by exists None|..];
      (eexists; split; [reflexivity|]); exact (Hmatch _ _ eq_refl eq_refl).
  - exfalso. unfold tail_str in Ht. destruct (o_tokenizer r) eqn:Etk; [by destruct (o_stop_strs r), (o_stop_regex_strs r)|].
    destruct (so_tokenizer _ Hs Etk) as [E1 E2]. by rewrite E1, E2 in Ht.
  - exfalso. unfold tail_str in Ht. by destruct (o_tokenizer r), (o_stop_strs r), (o_stop_regex_strs r).
Qed.

Lemma token_finish_none r tokens :
  check_token_based_finish r tokens = None → o_ignore_eos r = false → Forall (λ t, is_stop_token r t = false) tokens.
Proof using.
  unfold check_token_based_finish. intros Hc Hi. rewrite Hi in Hc. pose proof (token_loop_spec r tokens (length (o_output r) - length tokens)).
  by destruct (token_loop _ _ _) as [[??]|].
Qed.

Lemma accept_spec r tokens :
  settings_ok r → unfinished r → tokens ≠ [] → tokens ∈ all →
  ∃ r', accept decode re_search tokens r = Ok r' ∧ checked r (o_output r) r'.
Proof using.
  intros Hs [Hr Hn Hp Hst Hmax] Hne Hin. unfold accept, check_finished. unfold o_finished. rewrite Hr, Hn, Hp.
  set (r1 := set_out (o_output r ++ tokens) None None None r). cbn [o_finished_reason set_out r1 o_to_finish].
  assert (∀ r', checked r1 (o_output r) r' → checked r (o_output r) r') as Hlift.
  { intros r' (? & (ids & f & n & p & ->) & ?). split_and!; [done|by eexists _, _, _, _|done]. }
  assert (settings_ok r1) as Hs1 by (destruct Hs; by split).
  case_bool_decide as Hlen.
  - eexists. split; [done|]. apply Hlift. simpl in Hlen.
    assert (output_ids_through_stop (set_out (o_output r ++ tokens) (Some (FINISH_LENGTH (o_max_new_tokens r)))
      (Some (Z.to_nat (o_max_new_tokens r))) None r1) = take (Z.to_nat (o_max_new_tokens r)) (o_output r ++ tokens)) as Hth by done.
    eapply checked_finished; [by eexists _, _, _, _|done|..]; cbn [reason_ok set_out o_max_new_tokens r1 o_output o_to_finish]; rewrite Hth.
    + rewrite length_take. lia.
    + rewrite length_take, length_app. split_and!; [done|rewrite length_app in Hlen; lia|]. exists (o_output r), tokens.
      split_and!; [done|apply prefix_take|done|done].
    + rewrite take_take, Nat.min_l by lia. apply take_app_length.
  - assert (o_grammar r1 ≠ Some true) as Hg by apply Hs1. change (o_grammar _) with (o_grammar r1).
    assert (∀ (x y : result OutReq), match o_grammar r1 with Some true => x | _ => y end = y) as Hgr.
    { intros x y. by destruct (o_grammar r1) as [[]|]. }
    rewrite Hgr. change (o_output r1) with (o_output r ++ tokens). rewrite from_end_app by done.
    simpl in Hlen. apply Z.nle_gt in Hlen.
    destruct (check_token_based_finish r1 tokens) as [r'|] eqn:Et.
    { exists r'. split; [done|]. apply Hlift. by eapply token_finish_checked. }
    assert (no_stop r1 (o_output r ++ tokens)) as Hns.
    { intros Hi. apply Forall_app. split; [by apply Hst|by eapply token_finish_none]. }
    destruct (check_vocab_boundary_finish r1 tokens) as [r'|] eqn:Eb.
    { exists r'. split; [done|]. apply Hlift. by eapply boundary_finish_checked. }
    destruct (str_finish_checked r1 (o_output r) tokens Hs1 eq_refl eq_refl Hns Hlen) as (f & -> & Hf). simpl.
    eexists. split; [done|]. apply Hlift. destruct f as [r'|]; [by apply Hf|]. simpl. split_and!.
    + left. by split.
    + by eexists _, _, _, _.
    + apply take_app_length.
Qed.

Lemma through_detok o i n r : output_ids_through_stop (set_detok o i n r) = output_ids_through_stop r.
Proof using. done. Qed.

(** A check only adds to what has been handed out. *)
Lemma detok_checked r r' : detok_ok r → unfinished r → checked r (o_output r) r' → detok_ok r'.
Proof using.
  intros Hd [_ Hn _ _ _] (_ & (ids & f & n & p & Hr') & Hout). unfold detok_ok in *.
  assert (output_ids_through_stop r = o_output r) as Hth by (unfold output_ids_through_stop; by rewrite Hn).
  assert (o_offsets r' = o_offsets r ∧ o_prompt r' = o_prompt r ∧ o_surr_and_decode_ids r' = o_surr_and_decode_ids r
    ∧ o_cur_decode_ids_len r' = o_cur_decode_ids_len r) as (-> & -> & -> & ->) by (by rewrite Hr').
  destruct (o_offsets r) as [[surr read]|]; [|done]. rewrite Hth in Hd. destruct Hd as (-> & -> & -> & Hle).
  split_and!; try done.
  - by rewrite <-Hout, take_take, Nat.min_l by done.
  - rewrite <-Hout, length_take in Hle. lia.
Qed.

Lemma detok_refresh r :
  detok_ok r →
  let '((ids, _), r') := init_incremental_detokenize r in
  detok_ok r' ∧ ids = drop (length (o_prompt r) - INIT_INCREMENTAL_DETOKENIZATION_OFFSET) (o_prompt r) ++ output_ids_through_stop r.
Proof using.
  unfold init_incremental_detokenize, detok_ok. set (T := output_ids_through_stop r).
  destruct (o_offsets r) as [[surr read]|]; simpl.
  - intros (-> & -> & -> & Hle). rewrite <-app_assoc, take_drop, through_detok. fold T. by rewrite take_ge by done.
  - intros _. rewrite through_detok. fold T. by rewrite take_ge by done.
Qed.

(** The ids handed out do not change what is finished. *)
Lemma outcome_detok r : outcome_ok r → outcome_ok (init_incremental_detokenize r).2.
Proof using.
  unfold init_incremental_detokenize. intros [[Hr Hn Hp Hs Hm]|(f & Hf & Hl & Hok)]; destruct (o_offsets r) as [[??]|]; simpl;
    try (left; by split); right; exists f; by destruct f.
Qed.
Lemma settings_detok r : settings_ok r → settings_ok (init_incremental_detokenize r).2.
Proof using. unfold init_incremental_detokenize. intros [???]. destruct (o_offsets r) as [[??]|]; by split. Qed.
Lemma through_init r : output_ids_through_stop (init_incremental_detokenize r).2 = output_ids_through_stop r.
Proof using. unfold init_incremental_detokenize. by destruct (o_offsets r) as [[??]|]. Qed.

(** A step of any request. *)
Lemma step_spec r tokens :
  settings_ok r → outcome_ok r → detok_ok r → tokens ≠ [] → tokens ∈ all →
  ∃ r', accept decode re_search tokens r = Ok r' ∧ settings_ok r' ∧ outcome_ok r' ∧ detok_ok r'
    ∧ take (length (output_ids_through_stop r)) (output_ids_through_stop r') = output_ids_through_stop r.
Proof using.
  intros Hs [Hu|Hf] Hd Hne Hin.
  - destruct (accept_spec r tokens Hs Hu Hne Hin) as (r' & E & Hc). pose proof (detok_checked r r' Hd Hu Hc) as Hd'.
    destruct Hc as (Ho & (ids & f & n & p & ->) & Ht). eexists. split_and!; [done|destruct Hs; by split|done|done|].
    destruct Hu as [_ Hn _ _ _]. unfold output_ids_through_stop at 1 3. by rewrite Hn.
  - destruct Hf as (f & Hf & Hok). exists r. unfold accept, o_finished. rewrite Hf. split_and!; try done.
    + right. by exists f.
    + by rewrite take_ge by done.
Qed.

(** A run of decode steps. *)
Lemma decode_run_spec steps : ∀ r,
  settings_ok r → outcome_ok r → detok_ok r → Forall (λ l, l ≠ []) steps → (∀ l, l ∈ steps → l ∈ all) →
  ∃ r', decode_run steps r = Ok r' ∧ outcome_ok r' ∧ detok_ok r'
    ∧ take (length (output_ids_through_stop r)) (output_ids_through_stop r') = output_ids_through_stop r.
Proof using.
  induction steps as [|tokens steps IH]; intros r Hs Ho Hd Hne Hin; simpl.
  - exists r. split_and!; try done. by rewrite take_ge by done.
  - apply Forall_cons in Hne as [Hne Hne']. destruct (step_spec r tokens Hs Ho Hd Hne (Hin _ (list_elem_of_here _ _))) as (r1 & -> & Hs1 & Ho1 & Hd1 & Ht1).
    simpl. pose proof (detok_refresh r1 Hd1) as Hd2. pose proof (through_init r1) as Ht2.
    pose proof (outcome_detok r1 Ho1). pose proof (settings_detok r1 Hs1).
    destruct (init_incremental_detokenize r1) as [[ids k] r2]. destruct Hd2 as [Hd2 _]. simpl in *.
    destruct (IH r2) as (r' & -> & Ho' & Hd' & Ht'); [done..|intros l Hl; apply Hin; by right|]. exists r'. split_and!; try done.
    rewrite <-Ht1 at 2. rewrite <-Ht2, <-Ht' at 1. rewrite take_take. f_equal.
    rewrite <-Ht1, Ht2. rewrite length_take. lia.
Qed.
End run.
