(* ===== verification/ParserTheorems.v ===== *)
(** The properties of the output parsers, with an instance of each. *)
From S2P Require Import Prelude PyStr ReqPool ReasoningParser ReasoningInv Harmony HarmonyInv ReqFinish.
From stdpp Require Import options.

Section reasoning.
Context {H : Type} (harmony_new : H) (harmony_parse : H → text → list Event * H).

Lemma construct_tags c k d :
  construct harmony_new c k = Ok d → kw_stream_reasoning k = true → override d = NoOverride →
  tags_ok d ∧ buffer d = [] ∧ stripped_think_start d = false.
Proof using.
  intros Hc Hs Ho. unfold construct in Hc.
  destruct (match c with Nemotron3Detector => _ | _ => _ end); [done|].
  destruct c; injection Hc as <-; try done; (split; [|done]); split; try done; intros t [= <-]; done.
Qed.

Lemma init_parser_tags model force continue nonempty d :
  init_parser harmony_new model true force continue nonempty = Ok d → override d = NoOverride →
  tags_ok d ∧ buffer d = [] ∧ stripped_think_start d = false.
Proof using.
  unfold init_parser. destruct model as [[|a s]|]; [done| |done].
  destruct (list_find _ _) as [[i [m c]]|]; [|done]. intros Hc Ho. eapply construct_tags; [exact Hc|done|done].
Qed.

(** C31: parsing an output chunk by chunk separates it as parsing it at once does, however
    it is cut into chunks, as long as the end tag is not cut.  This is for every detector that
    [ReasoningParser] builds with [stream_reasoning] and that does not override the parsing
    (all but those for GPT-OSS, Nemotron 3 and MiniMax with appended thinking), and for outputs
    of a start tag (or none, when the detector starts inside the reasoning), reasoning, an end
    tag and an answer, with no second start tag and no tool tag.  The reasoning of the stream
    is the reasoning of [detect_and_parse] up to surrounding space, and the answer of the
    stream, with what is still held back, is its answer up to surrounding space.  Nothing is
    lost but space before the end tag. *)
Theorem stream_like_oneshot model force continue nonempty d lead pre post c1 x y c2 :
  init_parser harmony_new (Some model) true force continue nonempty = Ok d → override d = NoOverride →
  output_ok d lead pre post → lead ++ pre = concat c1 ++ x → post = y ++ concat c2 →
  let chunks := c1 ++ [x ++ think_end_token d ++ y] ++ c2 in
  let one := (detect_and_parse harmony_parse d (concat chunks)).1 in
  ∃ r n w d', parse_stream harmony_parse d chunks = ((r, n), d')
    ∧ pre = r ++ w ∧ spaces w ∧ post = n ++ buffer d'
    ∧ strip r = strip (reasoning_text one) ∧ strip (n ++ buffer d') = normal_text one.
Proof using.
  intros Hi Ho Hout Hlead Hpost chunks one. destruct (init_parser_tags _ _ _ _ _ Hi Ho) as (Htags & Hb & Hs).
  destruct (stream_spec harmony_parse d lead pre post Htags Hout c1 x y c2 Hb Hs Hlead Hpost)
    as (r & w & n & d' & E & Hr & Hw & Hn).
  exists r, n, w, d'. split_and!; try done.
  all: assert (one = MkParse (strip post) (lstrip pre)) as -> by
    (unfold one, chunks, detect_and_parse; rewrite Ho; simpl; rewrite <-(oneshot_spec d lead pre post Htags Hout);
     f_equal; rewrite !concat_app; simpl; rewrite Hpost, (app_assoc lead), Hlead, <-!app_assoc; done); simpl.
  - by rewrite strip_lstrip, Hr, strip_app_space.
  - by rewrite <-Hn.
Qed.
End reasoning.

(** ** Instances *)

(** The detector for DeepSeek-R1. *)
Definition no_harmony (_ : unit) (_ : text) : list Event * unit := ([], tt).
Definition r1 : Detector unit :=
  base_init (t_ "<think>") (t_ "</think>") None true true None None false "always".

(** The start tag arrives in two pieces. *)
Lemma stream_like_oneshot_witness :
  ∃ d', parse_stream no_harmony r1 [t_ "<th"; t_ "ink> ab"; t_ "c </think> d"; t_ "e"; t_ "<"] = ((t_ " abc", t_ " de"), d')
    ∧ buffer d' = t_ "<".
Proof.
  assert (output_ok r1 (t_ "<think>") (t_ " abc ") (t_ " de<")) as Hout.
  { split; [left; reflexivity| |vm_compute; reflexivity|intros t Ht; discriminate Ht].
    apply find_first_occ; vm_compute; reflexivity. }
  destruct (stream_like_oneshot tt no_harmony "deepseek-r1" None None false r1 (t_ "<think>") (t_ " abc ") (t_ " de<")
    [t_ "<th"; t_ "ink> ab"] (t_ "c ") (t_ " d") [t_ "e"; t_ "<"] eq_refl eq_refl Hout eq_refl eq_refl)
    as (r & n & w & d' & E & _ & _ & Hn & _).
  assert (parse_stream no_harmony r1 [t_ "<th"; t_ "ink> ab"; t_ "c </think> d"; t_ "e"; t_ "<"] = ((r, n), d')) as E' by exact E.
  assert ((parse_stream no_harmony r1 [t_ "<th"; t_ "ink> ab"; t_ "c </think> d"; t_ "e"; t_ "<"]).1 = (t_ " abc", t_ " de")) as Ec
    by (vm_compute; reflexivity).
  rewrite E' in Ec. injection Ec as -> ->. exists d'. split; [exact E'|].
  apply (app_inv_head (t_ " de")). symmetry. exact Hn.
Defined.

(** An end tag that is cut after other text is not found: the stream below is all
    reasoning, although [detect_and_parse] finds the answer in it. *)
Theorem cut_end_tag_missed :
  (parse_stream no_harmony r1 [t_ "ab</th"; t_ "ink>cd"]).1 = (t_ "ab</think>cd", [])
  ∧ (detect_and_parse no_harmony r1 (t_ "ab</think>cd")).1 = MkParse (t_ "cd") (t_ "ab").
Proof. split; vm_compute; reflexivity. Qed.

(** ** The Harmony format *)

(** C33: [iter_tokens] ends on every text, and its tokens tile the text: each starts where
    the one before it ends, the first at the beginning and the last at the end, so that
    their texts put together are the text; and a structural token covers exactly its
    literal. *)
Theorem harmony_tokens_tile s :
  ∃ toks, iter_tokens s = Ok toks ∧ tiles 0 toks (length s) ∧ concat (tok_text s <$> toks) = s
    ∧ ∀ t, t ∈ toks → tok_type t ≠ TEXT → (tok_text s t, tok_type t) ∈ TOKENS.
Proof.
  destruct (iter_tokens_spec s) as (toks & E & Ht & Hok). exists toks. split_and!; [done|done| |].
  - rewrite (tiles_concat s 0 toks (length s)) by done. unfold py_slice. by rewrite Nat.sub_0_r, drop_0, firstn_all.
  - intros t Hin. by apply (proj1 (Forall_forall _ _) Hok t Hin).
Qed.

(** [prefix_hold] loses nothing and holds back no more and no less than needed: the
    two parts put together are the text, what is held back is empty or a proper beginning
    of one of the tokens, and no longer end of the text is. *)
Theorem prefix_hold_longest s tokens :
  let '(emit, hold) := prefix_hold s tokens in
  s = emit ++ hold ∧ (hold = [] ∨ begins tokens hold)
  ∧ ∀ a b, s = a ++ b → begins tokens b → length b ≤ length hold.
Proof. apply prefix_hold_spec. Qed.

Section gptoss.
Context (text_parse : text → list Event * text) (looks_like_text : text → bool).

(** The GPT-OSS detector streams the reasoning of a channel block as it comes: over
    the header, any chunks without a structural marker, and the end token, it returns
    exactly the text of the chunks as reasoning and nothing as answer, and keeps nothing
    back. *)
Theorem gptoss_reasoning_streams stream force continue cs d :
  init_parser new_harmony (Some "gpt-oss"%string) stream force continue false = Ok d →
  Forall (λ c, contains (t_ "<|") c = false) cs →
  ∃ d' p, parse_stream (harmony_step text_parse looks_like_text) d ([analysis_header] ++ cs ++ [t_ "<|end|>"])
            = ((concat cs, []), d')
          ∧ override d' = GptOss p ∧ h_buffer p = [].
Proof using.
  intros Hi Hcs. assert (override d = GptOss new_harmony) as Ho by (injection Hi as <-; done). clear Hi.
  destruct (step_analysis_start text_parse looks_like_text) as (p1 & E1 & Hp1).
  destruct (stream_analysis text_parse looks_like_text cs (set_override (GptOss p1) d) p1 eq_refl Hp1 Hcs)
    as (d2 & p2 & E2 & Ho2 & Hp2).
  destruct (step_analysis_end text_parse looks_like_text p2 Hp2) as (p3 & E3 & Hb3).
  exists (set_override (GptOss p3) d2), p3. split; [|done].
  rewrite parse_stream_app. cbn [parse_stream]. unfold parse_stream_chunk, parse_streaming_increment. rewrite Ho, E1.
  cbv beta iota zeta. rewrite parse_stream_app, E2. cbn [parse_stream]. unfold parse_stream_chunk, parse_streaming_increment.
  rewrite Ho2, E3. simpl. by rewrite !app_nil_r.
Qed.
End gptoss.

Lemma gptoss_reasoning_streams_witness :
  ∃ d' p, parse_stream (harmony_step (λ s, ([], s)) (λ _, false))
      (set_override (GptOss new_harmony)
        (base_init (t_ "<|channel|>analysis<|message|>") (t_ "<|end|>") None true true None None false "always"))
      [analysis_header; t_ "so <b"; t_ " |> c"; t_ "<|end|>"] = ((t_ "so <b |> c", []), d')
    ∧ override d' = GptOss p ∧ h_buffer p = [].
Proof.
  apply (gptoss_reasoning_streams (λ s, ([], s)) (λ _, false) true None None [t_ "so <b"; t_ " |> c"]).
  - reflexivity.
  - repeat constructor.
Defined.

(** ** The end of the output *)



