(* ===== verification/DPDispatch.v ===== *)
(** Dispatching requests to data-parallel workers: [DPBudget] and the dispatching
    methods of [DataParallelController] (managers/data_parallel_controller.py).

    A worker is the list of the objects sent to it; there is at least one, and processes
    and sockets are not modelled.  [R] is the type of what is sent; ranks are not
    negative. *)
From S2P Require Import Prelude.
From stdpp Require Import options.
Local Open Scope Z_scope.

Inductive LoadBalanceMethod := ROUND_ROBIN | FOLLOW_BOOTSTRAP_ROOM | TOTAL_REQUESTS | TOTAL_TOKENS.

(** The names of the enumeration in upper case, [from_str] after [upper]. *)
Definition from_str (method : string) : result LoadBalanceMethod :=
  if bool_decide (method = "ROUND_ROBIN"%string) then Ok ROUND_ROBIN
  else if bool_decide (method = "FOLLOW_BOOTSTRAP_ROOM"%string) then Ok FOLLOW_BOOTSTRAP_ROOM
  else if bool_decide (method = "TOTAL_REQUESTS"%string) then Ok TOTAL_REQUESTS
  else if bool_decide (method = "TOTAL_TOKENS"%string) then Ok TOTAL_TOKENS
  else Raise ValueError.

(** ** DPBudget *)
Record DPBudget := MkBudget { dp_size : nat; total_requests : list Z; total_tokens : list Z }.
Definition init_budget (n : nat) : DPBudget := MkBudget n (replicate n 0) (replicate n 0).

(** One entry of a load report. *)
Record Load := MkLoad { l_dp_rank : nat; num_running_reqs : Z; num_waiting_reqs : Z; num_total_tokens : Z }.

(** [l[i] = v] *)
Definition py_set {A} (i : nat) (v : A) (l : list A) : result (list A) :=
  if decide (i < length l)%nat then Ok (<[i := v]> l) else Raise IndexError.

(** [update_budget] *)
Fixpoint update_budget (loads : list Load) (b : DPBudget) : result DPBudget :=
  match loads with
  | [] => Ok b
  | l :: loads =>
      rs ← py_set (l_dp_rank l) (num_running_reqs l + num_waiting_reqs l) (total_requests b);
      ts ← py_set (l_dp_rank l) (num_total_tokens l) (total_tokens b);
      update_budget loads (MkBudget (dp_size b) rs ts)
  end.

(** The first index whose key is least: [i] is the index of the head of [keys], [best]
    with key [kb] the best so far. *)
Section first_min.
Context {K : Type} (lt : K → K → bool).
Fixpoint first_min_from (i best : nat) (kb : K) (keys : list K) : nat :=
  match keys with
  | [] => best
  | k :: keys => if lt k kb then first_min_from (S i) i k keys else first_min_from (S i) best kb keys
  end.
Definition first_min (keys : list K) : result nat :=
  match keys with [] => Raise ValueError | k :: keys => Ok (first_min_from 1 0 k keys) end.
End first_min.
Definition z_lt (a b : Z) : bool := bool_decide (a < b).
Definition pair_lt (a b : Z * Z) : bool := bool_decide (a.1 < b.1) || bool_decide (a.1 = b.1) && bool_decide (a.2 < b.2).

(** [dispatch]; [l.index(min(l))] is the first index with the least element.  Both lists
    have [dp_size] elements, so the ranks of [range(dp_size)] are their indices. *)
Definition dispatch (method : LoadBalanceMethod) (estimated_tokens : Z) (b : DPBudget) : result (option nat * DPBudget) :=
  let charge target :=
    r ← unwrap IndexError (total_requests b !! target);
    t ← unwrap IndexError (total_tokens b !! target);
    Ok (Some target, MkBudget (dp_size b) (<[target := r + 1]> (total_requests b))
                       (<[target := t + estimated_tokens]> (total_tokens b))) in
  match method with
  | TOTAL_REQUESTS => target ← first_min z_lt (total_requests b); charge target
  | TOTAL_TOKENS => target ← first_min pair_lt (zip (total_tokens b) (total_requests b)); charge target
  | _ => Ok (None, b)
  end.

(** ** DataParallelController *)
Section controller.
Context {R : Type}.

Record Controller := MkController {
  load_balance_method : LoadBalanceMethod;
  round_robin_counter : nat;
  dp_budget : DPBudget;
  workers : list (list R);
  status : list bool;
  control_message_step : nat;
}.
Abbreviation C := (ST Controller).

Definition set_workers (ws : list (list R)) (c : Controller) : Controller :=
  MkController (load_balance_method c) (round_robin_counter c) (dp_budget c) ws (status c) (control_message_step c).
Definition set_counter (k : nat) (c : Controller) : Controller :=
  MkController (load_balance_method c) k (dp_budget c) (workers c) (status c) (control_message_step c).
Definition set_budget (b : DPBudget) (c : Controller) : Controller :=
  MkController (load_balance_method c) (round_robin_counter c) b (workers c) (status c) (control_message_step c).
Definition set_status (l : list bool) (c : Controller) : Controller :=
  MkController (load_balance_method c) (round_robin_counter c) (dp_budget c) (workers c) l (control_message_step c).

(** [self.workers[i].send_pyobj(obj)] *)
Definition send (i : nat) (obj : R) : C unit := λ c,
  match workers c !! i with
  | Some w => Ok (tt, set_workers (<[i := w ++ [obj]]> (workers c)) c)
  | None => Raise IndexError
  end.

(** What a request says about its destination; [d_tokens] is [len(req.input_ids)]. *)
Record DReq := MkDReq { d_obj : R; routed_dp_rank : option nat; bootstrap_room : option Z; d_tokens : Z }.

(** [maybe_external_dp_rank_routing] *)
Definition maybe_external_dp_rank_routing (req : DReq) : C bool :=
  match routed_dp_rank req with
  | Some r => _ ← send r (d_obj req); mret true
  | None => mret false
  end.

(** The loop of [round_robin_scheduler]; it does not end when no worker is active. *)
Fixpoint round_robin_loop (fuel : nat) (obj : R) : C unit :=
  match fuel with
  | O => λ _, Running
  | S fuel =>
      k ← st_gets round_robin_counter;
      st ← st_gets status;
      ws ← st_gets workers;
      active ← st_lift (unwrap IndexError (st !! k));
      let next := Nat.modulo (k + 1) (length ws) in
      if active : bool then _ ← send k obj; st_modify (set_counter next)
      else _ ← st_modify (set_counter next); round_robin_loop fuel obj
  end.

(** The four dispatching methods. *)
Definition round_robin_scheduler (fuel : nat) (req : DReq) : C unit :=
  routed ← maybe_external_dp_rank_routing req;
  if routed : bool then mret tt else round_robin_loop fuel (d_obj req).
Definition follow_bootstrap_room_scheduler (req : DReq) : C unit :=
  routed ← maybe_external_dp_rank_routing req;
  if routed : bool then mret tt
  else
    room ← st_lift (unwrap AssertionError (bootstrap_room req));
    ws ← st_gets workers;
    send (Z.to_nat (room `mod` Z.of_nat (length ws))) (d_obj req).
Definition by_load (method : LoadBalanceMethod) (tokens : Z) (req : DReq) : C unit :=
  routed ← maybe_external_dp_rank_routing req;
  if routed : bool then mret tt
  else
    b ← st_gets dp_budget;
    r ← st_lift (dispatch method tokens b);
    _ ← st_modify (set_budget r.2);
    match r.1 with Some target => send target (d_obj req) | None => st_raise TypeError end.
Definition total_requests_scheduler (req : DReq) : C unit := by_load TOTAL_REQUESTS 0 req.
Definition total_tokens_scheduler (req : DReq) : C unit := by_load TOTAL_TOKENS (d_tokens req) req.

(** [self.dispatching] *)
Definition dispatching (fuel : nat) (req : DReq) : C unit :=
  m ← st_gets load_balance_method;
  match m with
  | ROUND_ROBIN => round_robin_scheduler fuel req
  | FOLLOW_BOOTSTRAP_ROOM => follow_bootstrap_room_scheduler req
  | TOTAL_REQUESTS => total_requests_scheduler req
  | TOTAL_TOKENS => total_tokens_scheduler req
  end.
Fixpoint dispatch_batch (fuel : nat) (reqs : list DReq) : C unit :=
  match reqs with
  | [] => mret tt
  | r :: reqs => _ ← dispatching fuel r; dispatch_batch fuel reqs
  end.

(** [handle_load_update_req], [update_active_ranks] *)
Definition handle_load_update_req (loads : list Load) : C unit :=
  b ← st_gets dp_budget;
  b ← st_lift (update_budget loads b);
  st_modify (set_budget b).
Definition update_active_ranks (l : list bool) : C unit := st_modify (set_status l).

(** [send_to_all_workers], [send_control_message]: the workers from [i] on. *)
Fixpoint send_active (obj : R) (i : nat) (ws : list (list R)) : C unit :=
  match ws with
  | [] => mret tt
  | _ :: ws =>
      st ← st_gets status;
      active ← st_lift (unwrap IndexError (st !! i));
      _ ← (if active : bool then send i obj else mret tt);
      send_active obj (S i) ws
  end.
Definition send_to_all_workers (obj : R) : C unit := ws ← st_gets workers; send_active obj 0 ws.
Definition send_control_message (obj : R) : C unit :=
  st_modify (λ c, set_workers
    (imap (λ i w, if decide (Nat.modulo i (control_message_step c) = 0)%nat then w ++ [obj] else w) (workers c)) c).

(** The table of [init_dispatcher]: what arrives from the tokenizer, by type. *)
Inductive Message :=
  | Request (req : DReq)
  | BatchRequest (reqs : list DReq)
  | BlockOrProfile (obj : R)
  | WatchLoadUpdate (loads : list Load)
  | ActiveRanks (status : list bool)
  | OtherMessage (obj : R).
Definition request_dispatcher (fuel : nat) (m : Message) : C unit :=
  match m with
  | Request req => dispatching fuel req
  | BatchRequest reqs => dispatch_batch fuel reqs
  | BlockOrProfile obj => send_to_all_workers obj
  | WatchLoadUpdate loads => handle_load_update_req loads
  | ActiveRanks l => update_active_ranks l
  | OtherMessage obj => send_control_message obj
  end.
End controller.

(** ** Properties *)

(** *** Least loads *)
Section first_min_spec.
Context {K : Type} (lt : K → K → bool).
Context (Hirr : ∀ a, lt a a = false) (Hneg : ∀ a b c, lt a b = false → lt c b = true → lt a c = false).

Lemma first_min_from_spec keys : ∀ seen best kb,
  seen !! best = Some kb → Forall (λ k, lt k kb = false) seen →
  ∃ k, (seen ++ keys) !! first_min_from lt (length seen) best kb keys = Some k
    ∧ Forall (λ k', lt k' k = false) (seen ++ keys).
Proof using Hirr Hneg.
  induction keys as [|k keys IH]; intros seen best kb Hb Hall; simpl.
  - exists kb. by rewrite !app_nil_r.
  - replace (S (length seen)) with (length (seen ++ [k])) by (rewrite length_app; simpl; lia).
    rewrite (cons_middle k seen keys), app_assoc. destruct (lt k kb) eqn:E.
    + apply IH; [by rewrite lookup_app_r, Nat.sub_diag|]. apply Forall_app. split; [|by repeat constructor].
      eapply Forall_impl; [exact Hall|]. intros k' Hk'. by apply (Hneg _ kb).
    + apply IH; [by apply lookup_app_l_Some|]. apply Forall_app. split; [done|by repeat constructor].
Qed.

Lemma first_min_spec keys :
  keys ≠ [] → ∃ i k, first_min lt keys = Ok i ∧ keys !! i = Some k ∧ Forall (λ k', lt k' k = false) keys.
Proof using Hirr Hneg.
  destruct keys as [|k keys]; [done|]. intros _. unfold first_min. eexists.
  destruct (first_min_from_spec keys [k] 0%nat k eq_refl) as (k' & Hk & Hall); [by repeat constructor|]. by exists k'.
Qed.
End first_min_spec.

(** The least element of a list of loads. *)
Lemma least_request l :
  l ≠ [] → ∃ i m, first_min z_lt l = Ok i ∧ l !! i = Some m ∧ ∀ x, x ∈ l → m <= x.
Proof.
  intros Hne. destruct (first_min_spec z_lt) with (keys := l) as (i & m & Hi & Hm & Hall); [..|done|].
  - intros a. apply bool_decide_eq_false. lia.
  - unfold z_lt. intros a b c. rewrite !bool_decide_eq_false, bool_decide_eq_true. lia.
  - exists i, m. split_and!; [done|done|]. intros x Hx. rewrite Forall_forall in Hall.
    specialize (Hall x Hx). apply bool_decide_eq_false in Hall. lia.
Qed.

Lemma least_token ts rs :
  ts ≠ [] → length ts = length rs →
  ∃ i m, first_min pair_lt (zip ts rs) = Ok i ∧ ts !! i = Some m ∧ ∀ x, x ∈ ts → m <= x.
Proof.
  intros Hne Hlen. destruct (first_min_spec pair_lt) with (keys := zip ts rs) as (i & [m r] & Hi & Hm & Hall).
  - intros [a b]. unfold pair_lt. simpl. rewrite orb_false_iff, andb_false_iff, !bool_decide_eq_false. lia.
  - intros [a1 a2] [b1 b2] [c1 c2]. unfold pair_lt. simpl.
    rewrite !orb_false_iff, !andb_false_iff, !orb_true_iff, !andb_true_iff, !bool_decide_eq_false, !bool_decide_eq_true. lia.
  - by destruct ts, rs.
  - exists i, m. split_and!; [done| |].
    + apply lookup_zip_with_Some in Hm as (x & y & [= <- <-] & Hx & _). done.
    + intros x [j Hj]%list_elem_of_lookup. destruct (lookup_lt_is_Some_2 rs j) as [y Hy].
      { rewrite <-Hlen. by eapply lookup_lt_Some. }
      rewrite Forall_forall in Hall. specialize (Hall (x, y)). unfold pair_lt in Hall. simpl in Hall.
      rewrite orb_false_iff, bool_decide_eq_false in Hall. destruct Hall as [Hall _]; [|lia].
      apply list_elem_of_lookup. exists j. rewrite lookup_zip_with, Hj. simpl. by rewrite Hy.
Qed.

(** *** Balance *)

(** No two loads are further apart than [D]. *)
Definition spread (D : Z) (l : list Z) : Prop := ∀ x y, x ∈ l → y ∈ l → x - y <= D.

Lemma spread_charge D T l i m t :
  spread D l → l !! i = Some m → (∀ x, x ∈ l → m <= x) → 0 <= t <= T → spread (Z.max D T) (<[i := m + t]> l).
Proof.
  intros Hs Hi Hmin Ht x y Hx Hy.
  assert (m ∈ l) as Hm by (by eapply list_elem_of_lookup_2).
  assert (∀ z, z ∈ <[i := m + t]> l → z = m + t ∨ z ∈ l) as Hor.
  { intros z [j Hj]%list_elem_of_lookup. apply list_lookup_insert_Some in Hj as [(_ & -> & _)|[_ Hj]]; [by left|].
    right. by eapply list_elem_of_lookup_2. }
  destruct (Hor x Hx) as [->|Hx'], (Hor y Hy) as [->|Hy'].
  - lia.
  - specialize (Hmin y Hy'). lia.
  - specialize (Hs x m Hx' Hm). lia.
  - specialize (Hs x y Hx' Hy'). lia.
Qed.

(** Updating one element of a list. *)
Lemma alter_insert_of {A} (g : A → A) i x (l : list A) : l !! i = Some x → alter g i l = <[i := g x]> l.
Proof. revert i. induction l as [|y l IH]; intros [|i] Hi; simplify_eq/=; [done|]. f_equal. by apply IH. Qed.
Lemma insert_charge (i : nat) x t (l : list Z) : l !! i = Some x → <[i := x + t]> l = alter (Z.add t) i l.
Proof. intros Hi. rewrite (alter_insert_of _ i x) by done. f_equal. lia. Qed.
Lemma zip_with_alter_both {A B C} (f : A → B → C) (g : A → A) (h : B → B) i l : ∀ k,
  (∀ x y, f (g x) y = f x (h y)) → zip_with f (alter g i l) k = zip_with f l (alter h i k).
Proof.
  revert i. induction l as [|x l IH]; intros i [|y k] Hf; [by destruct i..|]. destruct i as [|i]; simpl; [by rewrite Hf|].
  f_equal. by apply IH.
Qed.
Lemma zip_with_neutral {A B} (f : A → list B → A) n l :
  length l = n → (∀ x, f x [] = x) → zip_with f l (replicate n []) = l.
Proof. intros <- Hf. induction l as [|x l IH]; [done|]. simpl. by rewrite Hf, IH. Qed.
Lemma concat_alter_cons {A} (x : A) i l : (i < length l)%nat → concat (alter (cons x) i l) ≡ₚ x :: concat l.
Proof.
  revert i. induction l as [|y l IH]; intros [|i] Hi; simpl in *; [lia|lia|done|].
  change (list_alter (cons x) i l) with (alter (cons x) i l). rewrite IH by lia. by rewrite Permutation_middle.
Qed.

Section balance.
Context {R : Type}.
Implicit Types (c : @Controller R) (r : @DReq R).

(** One worker, one flag and two loads per rank. *)
Record sized c (n : nat) : Prop := {
  sz_pos : (0 < n)%nat;
  sz_workers : length (workers c) = n;
  sz_requests : length (total_requests (dp_budget c)) = n;
  sz_tokens : length (total_tokens (dp_budget c)) = n;
}.

(** The loads a method balances, and what a request adds to them. *)
Definition loads_of (m : LoadBalanceMethod) (b : DPBudget) : list Z :=
  match m with TOTAL_TOKENS => total_tokens b | _ => total_requests b end.

Lemma send_spec c i obj w :
  workers c !! i = Some w → wp (send i obj) (λ _ c', c' = set_workers (<[i := w ++ [obj]]> (workers c)) c) c.
Proof using. intros Hw. unfold wp, send. by rewrite Hw. Qed.

(** Tokens a dispatch charges for one request, and for several. *)
Definition charged_tokens (m : LoadBalanceMethod) r : Z := match m with TOTAL_TOKENS => d_tokens r | _ => 0 end.
Fixpoint sum_tokens (m : LoadBalanceMethod) (reqs : list (@DReq R)) : Z :=
  match reqs with [] => 0 | r :: reqs => charged_tokens m r + sum_tokens m reqs end.

(** The budget after a dispatch by load: the chosen rank is charged. *)
Lemma dispatch_spec m b n D T t :
  (m = TOTAL_REQUESTS ∧ T = 1 ∨ m = TOTAL_TOKENS) → (0 < n)%nat →
  length (total_requests b) = n → length (total_tokens b) = n → spread D (loads_of m b) → 0 <= t <= T →
  ∃ i b', dispatch m t b = Ok (Some i, b') ∧ (i < n)%nat
    ∧ total_requests b' = alter (Z.add 1) i (total_requests b) ∧ total_tokens b' = alter (Z.add t) i (total_tokens b)
    ∧ spread (Z.max D T) (loads_of m b').
Proof using.
  intros Hm Hn Hr Ht Hs Hbound. unfold dispatch.
  assert (∀ i, (i < n)%nat → ∃ x y, total_requests b !! i = Some x ∧ total_tokens b !! i = Some y) as Hboth.
  { intros i Hi. destruct (lookup_lt_is_Some_2 (total_requests b) i) as [x Hx]; [lia|].
    destruct (lookup_lt_is_Some_2 (total_tokens b) i) as [y Hy]; [lia|]. by exists x, y. }
  destruct Hm as [[-> ->]| ->].
  - destruct (least_request (total_requests b)) as (i & k & -> & Hk & Hmin); [by destruct (total_requests b); simpl in *; [lia|]|].
    pose proof (lookup_lt_Some _ _ _ Hk). destruct (Hboth i) as (x & y & Hx & Hy); [lia|]. assert (x = k) as -> by congruence.
    simpl. rewrite Hx, Hy. simpl. eexists i, _. split_and!; [done|lia|by apply insert_charge|by apply insert_charge|].
    simpl. eapply (spread_charge D 1 _ i k 1); [done|done|done|lia].
  - destruct (least_token (total_tokens b) (total_requests b)) as (i & k & -> & Hk & Hmin);
      [by destruct (total_tokens b); simpl in *; [lia|]|congruence|].
    pose proof (lookup_lt_Some _ _ _ Hk). destruct (Hboth i) as (x & y & Hx & Hy); [lia|]. assert (y = k) as -> by congruence.
    simpl. rewrite Hx, Hy. simpl. eexists i, _. split_and!; [done|lia|by apply insert_charge|by apply insert_charge|].
    simpl. by eapply (spread_charge D T _ i k t).
Qed.

(** One request goes to one rank, which is charged for it. *)
Definition sent_to (m : LoadBalanceMethod) (i : nat) r c c' : Prop :=
  workers c' = alter (λ w, w ++ [d_obj r]) i (workers c)
  ∧ total_requests (dp_budget c') = alter (Z.add 1) i (total_requests (dp_budget c))
  ∧ total_tokens (dp_budget c') = alter (Z.add (charged_tokens m r)) i (total_tokens (dp_budget c))
  ∧ load_balance_method c' = load_balance_method c.

(** A request that is not routed from outside. *)
Lemma wp_by_load m c n D T r :
  (m = TOTAL_REQUESTS ∧ T = 1 ∨ m = TOTAL_TOKENS) → sized c n → spread D (loads_of m (dp_budget c)) →
  0 <= charged_tokens m r <= T → routed_dp_rank r = None →
  wp (by_load m (charged_tokens m r) r) (λ _ c', spread (Z.max D T) (loads_of m (dp_budget c'))
    ∧ ∃ i, (i < n)%nat ∧ sent_to m i r c c') c.
Proof using.
  intros Hm [Hn Hw Hr Ht] Hs Hbound Hno. unfold by_load, maybe_external_dp_rank_routing. rewrite Hno. wp_steps.
  destruct (dispatch_spec m (dp_budget c) n D T (charged_tokens m r)) as (i & b' & E & Hi & Hr' & Ht' & Hs'); [done..|].
  wp_steps. simpl. destruct (lookup_lt_is_Some_2 (workers c) i) as [w Hwi]; [lia|].
  eapply wp_mono; [by apply (send_spec _ i _ w)|]. intros ? c' ->. simpl. split; [done|]. exists i. split; [done|].
  split_and!; simpl; [|done|done|done]. symmetry. by apply (alter_insert_of (λ w, w ++ [d_obj r]) i w).
Qed.

(** What one request adds under a method. *)
Definition added_load (m : LoadBalanceMethod) r : Z := match m with TOTAL_TOKENS => d_tokens r | _ => 1 end.

Lemma wp_dispatching m fuel T n c D r :
  m = TOTAL_REQUESTS ∨ m = TOTAL_TOKENS → load_balance_method c = m → sized c n → spread D (loads_of m (dp_budget c)) →
  T <= D → routed_dp_rank r = None → 0 <= added_load m r <= T →
  wp (dispatching fuel r) (λ _ c', spread D (loads_of m (dp_budget c')) ∧ ∃ i, (i < n)%nat ∧ sent_to m i r c c') c.
Proof using.
  intros Hm Hc Hsz Hs HT Hno Hload. unfold dispatching. wp_steps. rewrite Hc. destruct Hm as [-> | ->].
  - eapply wp_mono; [apply (wp_by_load TOTAL_REQUESTS c n D 1 r); [by left|done|done|simpl; lia|done]|].
    simpl in Hload. intros ? c' [Hs' Hi]. split; [|done]. intros x y Hx Hy. specialize (Hs' x y Hx Hy). lia.
  - eapply wp_mono; [by apply (wp_by_load TOTAL_TOKENS c n D T r); [right|..]|]. rewrite Z.max_l by done. done.
Qed.

(** Requests [reqs] were dispatched: [sent] says what each worker got, in the order of
    arrival, and the two loads of a rank grew by what it got. *)
Record dispatched (m : LoadBalanceMethod) (reqs : list DReq) (sent : list (list DReq)) c c' : Prop := {
  di_all : concat sent ≡ₚ reqs;
  di_order : Forall (λ s, s `sublist_of` reqs) sent;
  di_workers : workers c' = zip_with (λ w s, w ++ (d_obj <$> s)) (workers c) sent;
  di_requests : total_requests (dp_budget c') = zip_with (λ k s, k + Z.of_nat (length s)) (total_requests (dp_budget c)) sent;
  di_tokens : total_tokens (dp_budget c') = zip_with (λ k s, k + sum_tokens m s) (total_tokens (dp_budget c)) sent;
}.

Lemma sent_to_sized m i r c c' n : sized c n → sent_to m i r c c' → sized c' n.
Proof using. intros [Hn Hw Hr Ht] (Hw' & Hr' & Ht' & _). split; [done|rewrite Hw'|rewrite Hr'|rewrite Ht']; by rewrite length_alter. Qed.

(** What was sent first, then the rest. *)
Lemma dispatched_cons m i r reqs sent c c1 c2 :
  sent_to m i r c c1 → (i < length sent)%nat → dispatched m reqs sent c1 c2 →
  dispatched m (r :: reqs) (alter (cons r) i sent) c c2.
Proof using.
  intros (Hw & Hr & Ht & _) Hi [Hall Hord Hw2 Hr2 Ht2]. split.
  - by rewrite concat_alter_cons, Hall.
  - apply Forall_lookup. intros j s Hj. destruct (decide (i = j)) as [->|Hne].
    + rewrite list_lookup_alter_eq in Hj. apply fmap_Some in Hj as (s' & E & ->). apply sublist_skip.
      by apply (proj1 (Forall_lookup _ _) Hord j).
    + rewrite list_lookup_alter_ne in Hj by done. apply sublist_cons. by apply (proj1 (Forall_lookup _ _) Hord j).
  - rewrite Hw2, Hw. apply zip_with_alter_both. intros w s. by rewrite <-app_assoc.
  - rewrite Hr2, Hr. apply zip_with_alter_both. intros k s. simpl length. lia.
  - rewrite Ht2, Ht. apply zip_with_alter_both. intros k s. cbn [sum_tokens]. lia.
Qed.

Lemma dispatched_nil m c n : sized c n → dispatched m [] (replicate n []) c c.
Proof using.
  intros [Hn Hw Hr Ht]. split.
  - clear. induction n; [done|by simpl].
  - apply Forall_replicate, sublist_nil_l.
  - symmetry. apply zip_with_neutral; [done|apply app_nil_r].
  - symmetry. apply zip_with_neutral; [done|intros; simpl; lia].
  - symmetry. apply zip_with_neutral; [done|intros; simpl; lia].
Qed.

Lemma wp_dispatch_batch m fuel T n reqs : ∀ c D,
  m = TOTAL_REQUESTS ∨ m = TOTAL_TOKENS → load_balance_method c = m → sized c n → spread D (loads_of m (dp_budget c)) →
  T <= D → Forall (λ r, routed_dp_rank r = None ∧ 0 <= added_load m r <= T) reqs →
  wp (dispatch_batch fuel reqs) (λ _ c', spread D (loads_of m (dp_budget c'))
    ∧ ∃ sent, length sent = n ∧ dispatched m reqs sent c c') c.
Proof using.
  induction reqs as [|r reqs IH]; intros c D Hm Hc Hsz Hs HT Hall; cbn [dispatch_batch].
  - wp_step. split; [done|]. exists (replicate n []). split; [apply length_replicate|by apply dispatched_nil].
  - apply Forall_cons in Hall as [[Hno Hload] Hall]. wp_step. eapply wp_mono; [by apply (wp_dispatching m fuel T n c D r)|].
    intros ? c1 (Hs1 & i & Hi & Hsent). pose proof (sent_to_sized _ _ _ _ _ _ Hsz Hsent) as Hsz1.
    eapply wp_mono; [apply (IH c1 D); [done|by rewrite (proj2 (proj2 (proj2 Hsent)))|done..]|].
    intros ? c2 (Hs2 & sent & Hl & Hd). split; [done|]. exists (alter (cons r) i sent). split; [by rewrite length_alter|].
    eapply dispatched_cons; [done|lia|done].
Qed.

(** *** Round robin *)
Definition rank_of c (j : nat) : nat := Nat.modulo (round_robin_counter c + j) (length (workers c)).

Lemma round_robin_spec obj j : ∀ fuel c w,
  (j < fuel)%nat → (0 < length (workers c))%nat → (round_robin_counter c < length (workers c))%nat →
  (∀ i, (i < j)%nat → status c !! rank_of c i = Some false) → status c !! rank_of c j = Some true →
  workers c !! rank_of c j = Some w →
  round_robin_loop fuel obj c
  = Ok (tt, set_counter (rank_of c (j + 1)) (set_workers (<[rank_of c j := w ++ [obj]]> (workers c)) c)).
Proof using.
  induction j as [|j IH]; intros fuel c w Hf Hpos Hk Hno Hyes Hw; (destruct fuel as [|fuel]; [lia|]);
    unfold rank_of in *; cbn [round_robin_loop].
  - rewrite Nat.add_0_r, (Nat.mod_small (round_robin_counter c)) in * by done.
    unfold mbind, ST_bind, st_bind, st_gets, st_lift. cbv beta iota. rewrite Hyes. simpl. unfold send. by rewrite Hw.
  - pose proof (Hno 0%nat ltac:(lia)) as H0. rewrite Nat.add_0_r, Nat.mod_small in H0 by done.
    assert (∀ i, Nat.modulo (Nat.modulo (round_robin_counter c + 1) (length (workers c)) + i) (length (workers c))
      = Nat.modulo (round_robin_counter c + S i) (length (workers c))) as Hshift.
    { intros i. rewrite Nat.Div0.add_mod_idemp_l. f_equal. lia. }
    unfold mbind, ST_bind, st_bind, st_gets, st_lift, st_modify. cbv beta iota. rewrite H0. simpl unwrap. cbv beta iota.
    rewrite (IH fuel _ w); simpl; rewrite ?Hshift; try done; try lia.
    + apply Nat.mod_upper_bound. lia.
    + intros i Hi. rewrite Hshift. apply Hno. lia.
Qed.

(** With no active worker the loop does not end. *)
Lemma round_robin_stuck obj fuel : ∀ c,
  (0 < length (workers c))%nat → length (status c) = length (workers c) →
  (round_robin_counter c < length (workers c))%nat → Forall (λ b, b = false) (status c) →
  round_robin_loop fuel obj c = Running.
Proof using.
  induction fuel as [|fuel IH]; intros c Hpos Hl Hk Hall; [done|]. cbn [round_robin_loop].
  destruct (lookup_lt_is_Some_2 (status c) (round_robin_counter c)) as [b Hb]; [lia|].
  pose proof (proj1 (Forall_lookup _ _) Hall _ _ Hb) as ->.
  unfold mbind, ST_bind, st_bind, st_gets, st_lift, st_modify. cbv beta iota. rewrite Hb. simpl unwrap. cbv beta iota.
  apply IH; simpl; try done. apply Nat.mod_upper_bound. lia.
Qed.
End balance.
