(* ===== verification/MMCache.v ===== *)
(** The cache of multimodal embeddings: [MultiModalStaticCache] of
    mem_cache/multimodal_cache.py.

    The ordered dictionary is an association list, least recently used first.
    [py_hash] is Python's [hash] of a tuple of integers. *)
From S2P Require Import Prelude.
From stdpp Require Import sorting options.
Local Open Scope Z_scope.

(** A tensor: its element size, its number of elements, and its contents. *)
Record Embedding := MkEmbedding { element_size : nat; numel : nat; contents : Z }.
Definition tensor_size (e : Embedding) : Z := Z.of_nat (element_size e * numel e).

Abbreviation entries := (list (Z * Embedding)).
Record MMCache := MkMM { max_size : Z; mm_cache : entries; current_size : Z }.
Definition init_mm (max_size : Z) : MMCache := MkMM max_size [] 0.

(** [d.get(k)], [d.pop(k)], [d.move_to_end(k)] *)
Definition dict_get (k : Z) (l : entries) : option Embedding := snd <$> (snd <$> list_find (λ e, e.1 = k) l).
Definition dict_del (k : Z) (l : entries) : entries := filter (λ e, e.1 ≠ k) l.
Definition move_to_end (k : Z) (l : entries) : entries :=
  match dict_get k l with Some e => dict_del k l ++ [(k, e)] | None => l end.

Definition set_entries (l : entries) (size : Z) (c : MMCache) : MMCache := MkMM (max_size c) l size.

Section cache.
Context (py_hash : list Z → Z).

(** [combine_hashes] *)
Definition combine_hashes (mm_hashes : list Z) : option Z :=
  match mm_hashes with [] => None | _ => Some (py_hash mm_hashes) end.

(** [get_single], [get] *)
Definition mm_get_single (h : Z) (c : MMCache) : option Embedding * MMCache :=
  match dict_get h (mm_cache c) with
  | Some e => (Some e, set_entries (move_to_end h (mm_cache c)) (current_size c) c)
  | None => (None, c)
  end.
Definition mm_get (mm_hashes : list Z) (c : MMCache) : option Embedding * MMCache :=
  match combine_hashes mm_hashes with Some h => mm_get_single h c | None => (None, c) end.

(** The loop of [set]: what is left, and the size; [None]: the cache is empty and the
    embedding does not fit. *)
Fixpoint make_room (limit size : Z) (l : entries) (cur : Z) : bool * entries * Z :=
  if bool_decide (limit < cur + size) then
    match l with
    | [] => (false, [], cur)
    | (_, e) :: l => make_room limit size l (cur - tensor_size e)
    end
  else (true, l, cur).

(** [set] *)
Definition mm_set (h : Z) (e : Embedding) (c : MMCache) : bool * MMCache :=
  match dict_get h (mm_cache c) with
  | Some _ => (true, set_entries (move_to_end h (mm_cache c)) (current_size c) c)
  | None =>
      let '(ok, l, cur) := make_room (max_size c) (tensor_size e) (mm_cache c) (current_size c) in
      if ok : bool then (true, set_entries (l ++ [(h, e)]) (cur + tensor_size e) c)
      else (false, set_entries l cur c)
  end.

(** [has], [free], [clear] *)
Definition mm_has (h : Z) (c : MMCache) : bool := match dict_get h (mm_cache c) with Some _ => true | None => false end.
Definition mm_free (h : Z) (c : MMCache) : bool * MMCache :=
  match dict_get h (mm_cache c) with
  | Some e => (true, set_entries (dict_del h (mm_cache c)) (current_size c - tensor_size e) c)
  | None => (false, c)
  end.
Definition mm_clear (c : MMCache) : MMCache := set_entries [] 0 c.

(** A call on the cache. *)
Inductive mm_op := OpGet (hs : list Z) | OpGetSingle (h : Z) | OpSet (h : Z) (e : Embedding) | OpFree (h : Z) | OpClear.
Definition mm_step (o : mm_op) (c : MMCache) : MMCache :=
  match o with
  | OpGet hs => (mm_get hs c).2
  | OpGetSingle h => (mm_get_single h c).2
  | OpSet h e => (mm_set h e c).2
  | OpFree h => (mm_free h c).2
  | OpClear => mm_clear c
  end.
End cache.

(** ** Lemmas *)

Definition entries_size (l : entries) : Z := foldr (λ e s, tensor_size e.2 + s) 0 l.

(** The keys are distinct, the size is that of the entries and within the limit. *)
Record mm_ok (c : MMCache) : Prop := {
  mo_keys : NoDup (mm_cache c).*1;
  mo_size : current_size c = entries_size (mm_cache c);
  mo_limit : current_size c <= max_size c;
}.

Lemma entries_size_app l k : entries_size (l ++ k) = entries_size l + entries_size k.
Proof. induction l as [|x l IH]; [done|]. cbn [app entries_size foldr]. fold (entries_size (l ++ k)) (entries_size l). lia. Qed.

Lemma entries_size_nonneg l : 0 <= entries_size l.
Proof. induction l as [|x l IH]; [done|]. cbn [entries_size foldr]. fold (entries_size l). unfold tensor_size. lia. Qed.

Lemma dict_get_Some h l e : dict_get h l = Some e → ∃ a b, l = a ++ (h, e) :: b ∧ h ∉ a.*1.
Proof.
  unfold dict_get. destruct (list_find _ l) as [[i x]|] eqn:E; simpl; [|done]. intros [= <-].
  apply list_find_Some in E as (Hi & <- & Hbefore). exists (take i l), (drop (S i) l). destruct x as [k e]. simpl in *. split.
  - by rewrite <-(take_drop_middle l i _ Hi) at 1.
  - intros Hin. apply list_elem_of_fmap in Hin as (y & -> & Hy). apply list_elem_of_lookup in Hy as [j Hj].
    apply lookup_take_Some in Hj as [Hj Hlt]. by apply (Hbefore j y Hj Hlt).
Qed.

Lemma dict_get_None h l : dict_get h l = None → h ∉ l.*1.
Proof.
  unfold dict_get. destruct (list_find _ l) as [[i x]|] eqn:E; simpl; [done|]. intros _ Hin.
  apply list_find_None in E. rewrite Forall_forall in E. apply list_elem_of_fmap in Hin as (y & -> & Hy). by apply (E y).
Qed.

Lemma dict_del_absent h l : h ∉ l.*1 → dict_del h l = l.
Proof.
  unfold dict_del. induction l as [|[k e] l IH]; intros Hh; [done|]. rewrite fmap_cons, not_elem_of_cons in Hh. destruct Hh as [Hne Hh].
  rewrite filter_cons, decide_True by (simpl in *; congruence). by rewrite IH.
Qed.

(** Removing an entry of a dictionary. *)
Lemma dict_del_split h l e :
  NoDup l.*1 → dict_get h l = Some e → ∃ a b, l = a ++ (h, e) :: b ∧ dict_del h l = a ++ b ∧ h ∉ (a ++ b).*1.
Proof.
  intros Hnd Hg. destruct (dict_get_Some h l e Hg) as (a & b & -> & Ha). exists a, b. split; [done|].
  rewrite fmap_app, NoDup_app, fmap_cons, NoDup_cons in Hnd. destruct Hnd as (_ & _ & Hb & _). simpl in Hb.
  split; [|by rewrite fmap_app, not_elem_of_app]. unfold dict_del. rewrite filter_app. fold (dict_del h a).
  rewrite filter_cons, decide_False by (by intros []). fold (dict_del h b). by rewrite !dict_del_absent.
Qed.

Lemma move_to_end_ok h l :
  NoDup l.*1 → move_to_end h l ≡ₚ l ∧ entries_size (move_to_end h l) = entries_size l ∧ NoDup (move_to_end h l).*1.
Proof.
  intros Hnd. unfold move_to_end. destruct (dict_get h l) as [e|] eqn:Hg; [|done].
  destruct (dict_del_split h l e Hnd Hg) as (a & b & Hl & -> & Hh).
  assert ((a ++ b) ++ [(h, e)] ≡ₚ l) as Hp by (rewrite Hl; solve_Permutation).
  split_and!; [done| |by rewrite Hp]. rewrite Hl, !entries_size_app. cbn [entries_size foldr]. fold (entries_size b). lia.
Qed.

(** The loop drops the oldest entries, as few as are needed. *)
Lemma make_room_spec limit size l : ∀ cur,
  cur = entries_size l → 0 <= size →
  let '(ok, rest, cur') := make_room limit size l cur in
  ∃ gone, l = gone ++ rest ∧ cur' = entries_size rest
    ∧ (ok = bool_decide (size <= limit))
    ∧ (ok = true → cur' + size <= limit) ∧ (ok = false → rest = [])
    ∧ ∀ g x, gone = g ++ [x] → limit < entries_size (x :: rest) + size.
Proof.
  induction l as [|[h e] l IH]; intros cur Hcur Hs; cbn [make_room];
    (destruct (decide (limit < cur + size)) as [Hd|Hd]; [rewrite (bool_decide_true _ Hd)|rewrite (bool_decide_false _ Hd)]).
  - exists []. simpl in *. subst. rewrite bool_decide_false by lia. split_and!; try done; try (intros; lia); intros g x Hg; by destruct g.
  - exists []. simpl in *. subst. rewrite bool_decide_true by lia. split_and!; try done; try (intros; lia); intros g x Hg; by destruct g.
  - assert (cur - tensor_size e = entries_size l) as Hcur'.
    { subst. cbn [entries_size foldr]. fold (entries_size l). simpl. lia. }
    specialize (IH _ Hcur' Hs). destruct (make_room limit size l (cur - tensor_size e)) as [[ok rest] cur'].
    destruct IH as (gone & Hl & Hc & Hok & Hfit & Hno & Hmin).
    exists ((h, e) :: gone). split_and!; [by rewrite Hl|done..|]. intros g x Hg. destruct g as [|y g].
    + injection Hg as <- Hg. rewrite Hg in Hl. simpl in Hl. subst. lia.
    + injection Hg as _ Hg. by apply (Hmin g x).
  - exists []. pose proof (entries_size_nonneg ((h, e) :: l)). rewrite bool_decide_true by lia.
    split_and!; try done; try (intros; lia); intros g x Hg; by destruct g.
Qed.

(** Every call keeps the cache well formed. *)
Lemma mm_step_ok py_hash o c : 0 <= max_size c → mm_ok c → mm_ok (mm_step py_hash o c) ∧ max_size (mm_step py_hash o c) = max_size c.
Proof.
  intros Hmax [Hk Hs Hl].
  assert (∀ h, mm_ok (mm_get_single h c).2 ∧ max_size (mm_get_single h c).2 = max_size c) as Hget.
  { intros h. unfold mm_get_single. destruct (dict_get h (mm_cache c)); [|by split].
    destruct (move_to_end_ok h (mm_cache c) Hk) as (_ & Hsz & Hnd). split; [|done]. split; simpl; [done|by rewrite Hsz|done]. }
  destruct o as [hs|h|h e|h|]; simpl.
  - unfold mm_get. destruct (combine_hashes py_hash hs); [apply Hget|by split].
  - apply Hget.
  - unfold mm_set. destruct (dict_get h (mm_cache c)) as [e'|] eqn:Hg.
    { destruct (move_to_end_ok h (mm_cache c) Hk) as (_ & Hsz & Hnd). split; [|done]. split; simpl; [done|by rewrite Hsz|done]. }
    pose proof (make_room_spec (max_size c) (tensor_size e) (mm_cache c) (current_size c) Hs) as Hr.
    destruct (make_room _ _ _ _) as [[ok rest] cur]. destruct Hr as (gone & Hgone & -> & _ & Hfit & Hno & _); [unfold tensor_size; lia|].
    apply dict_get_None in Hg. rewrite Hgone, fmap_app, NoDup_app in Hk. rewrite Hgone, fmap_app, not_elem_of_app in Hg. destruct Hg as [_ Hg].
    destruct ok; simpl; (split; [|done]); split; simpl.
    + rewrite fmap_app. apply NoDup_app. split_and!; [apply Hk| |apply NoDup_singleton].
      intros x Hx. simpl. rewrite list_elem_of_singleton. by intros ->.
    + rewrite entries_size_app. cbn [entries_size foldr]. simpl. lia.
    + by apply Hfit.
    + apply Hk.
    + done.
    + by rewrite (Hno eq_refl).
  - unfold mm_free. destruct (dict_get h (mm_cache c)) as [e|] eqn:Hg; [|by split].
    destruct (dict_del_split h (mm_cache c) e Hk Hg) as (a & b & Hc & -> & Hh). split; [|done].
    pose proof (entries_size_nonneg [(h, e)]) as Hpos. rewrite Hc, entries_size_app in Hs. cbn [entries_size foldr] in Hs, Hpos.
    fold (entries_size b) in Hs. simpl in Hs, Hpos. split; simpl; [|rewrite entries_size_app; lia|lia].
    rewrite Hc, fmap_app, fmap_cons, NoDup_app, NoDup_cons in Hk. rewrite fmap_app. apply NoDup_app.
    split_and!; [apply Hk| |apply Hk]. intros x Hx Hb. apply (proj1 (proj2 Hk) x Hx). by right.
  - split; [|done]. split; simpl; [constructor|done|done].
Qed.

(** ** Recency

    Which hash a call uses, and the last call that used a hash: its place in the history,
    from 1 on, or 0 when there is none.  Both are read off the calls alone. *)
Section recency.
Context (py_hash : list Z → Z).

Definition mm_uses (h : Z) (o : mm_op) : bool :=
  match o with
  | OpGet hs => bool_decide (combine_hashes py_hash hs = Some h)
  | OpGetSingle k | OpSet k _ => bool_decide (k = h)
  | OpFree _ | OpClear => false
  end.
Fixpoint last_use (h : Z) (ops : list mm_op) : nat :=
  match ops with
  | [] => 0
  | o :: ops => match last_use h ops with O => if mm_uses h o then 1 else 0 | S n => S (S n) end
  end.

Lemma last_use_snoc h ops o : last_use h (ops ++ [o]) = if mm_uses h o then S (length ops) else last_use h ops.
Proof using. induction ops as [|x ops IH]; [done|]. cbn [app last_use length]. rewrite IH. by destruct (mm_uses h o). Qed.
Lemma last_use_le h ops : (last_use h ops <= length ops)%nat.
Proof using. induction ops as [|o ops IH]; [done|]. cbn [last_use length]. destruct (last_use h ops), (mm_uses h o); lia. Qed.

(** [x] was last used before [y]; every entry was stored by a call of the history. *)
Definition older (ops : list mm_op) (x y : Z * Embedding) : Prop := (last_use x.1 ops < last_use y.1 ops)%nat.
Record mm_recent (ops : list mm_op) (l : entries) : Prop := {
  mr_sorted : StronglySorted (older ops) l;
  mr_stored : Forall (λ x, OpSet x.1 x.2 ∈ ops) l;
}.

(** A call that does not use the entries that stay keeps their order. *)
Lemma mm_recent_keep ops o l :
  mm_recent ops l → Forall (λ x, mm_uses x.1 o = false) l → mm_recent (ops ++ [o]) l.
Proof using.
  intros [Hs Hst] Hun. split.
  - induction Hs as [|x l Hs IH Hx]; [constructor|]. apply Forall_cons in Hun as [Hunx Hun]. apply Forall_cons in Hst as [_ Hst].
    constructor; [by apply IH|]. apply Forall_forall. intros y Hy. rewrite Forall_forall in Hx, Hun. unfold older.
    rewrite !last_use_snoc, Hunx, (Hun y Hy). by apply Hx.
  - eapply Forall_impl; [exact Hst|]. intros x Hx. apply elem_of_app. by left.
Qed.

(** The entry a call uses goes to the end. *)
Lemma mm_recent_snoc ops o l x :
  mm_recent ops l → Forall (λ y, mm_uses y.1 o = false) l → mm_uses x.1 o = true → OpSet x.1 x.2 ∈ ops ++ [o] →
  mm_recent (ops ++ [o]) (l ++ [x]).
Proof using.
  intros Hr Hun Hx Hin. destruct (mm_recent_keep _ _ _ Hr Hun) as [Hs Hst]. split.
  - apply StronglySorted_app_2; [|done|by repeat constructor]. intros y z Hy Hz%list_elem_of_singleton. subst z.
    unfold older. rewrite !last_use_snoc, Hx. rewrite Forall_forall in Hun. rewrite (Hun y Hy).
    pose proof (last_use_le y.1 ops). lia.
  - apply Forall_app. split; [done|by repeat constructor].
Qed.

Lemma mm_recent_part ops a b c : mm_recent ops (a ++ b ++ c) → mm_recent ops (a ++ c).
Proof using.
  intros [Hs Hst]. rewrite !Forall_app in Hst. split; [|rewrite Forall_app; naive_solver].
  rewrite !StronglySorted_app in Hs. apply StronglySorted_app. destruct Hs as (Hac & Ha & _ & _ & Hc). split_and!; [|done|done].
  intros x y Hx Hy. apply Hac; [done|]. apply elem_of_app. by right.
Qed.

Lemma mm_recent_move ops o h l :
  NoDup l.*1 → mm_recent ops l → is_Some (dict_get h l) → (∀ k, mm_uses k o = bool_decide (h = k)) →
  mm_recent (ops ++ [o]) (move_to_end h l).
Proof using.
  intros Hnd Hr [e Hg] Hu. unfold move_to_end. rewrite Hg. destruct (dict_del_split h l e Hnd Hg) as (a & b & Hl & -> & Hh).
  assert (mm_recent ops (a ++ b)) as Hab by (apply (mm_recent_part ops a [(h, e)] b); by rewrite Hl in Hr).
  apply mm_recent_snoc; [done| |rewrite Hu; by apply bool_decide_true|].
  - apply Forall_forall. intros x Hx. rewrite Hu. apply bool_decide_false. intros ->. apply Hh. by apply list_elem_of_fmap_2.
  - apply elem_of_app. left. destruct Hr as [_ Hst]. rewrite Hl, Forall_app, Forall_cons in Hst. apply Hst.
Qed.

(** A hash that is not there. *)
Lemma mm_unused h o l : dict_get h l = None → (∀ k, mm_uses k o = bool_decide (h = k)) → Forall (λ x, mm_uses x.1 o = false) l.
Proof using.
  intros Hg%dict_get_None Hu. apply Forall_forall. intros x Hx. rewrite Hu. apply bool_decide_false. intros ->. apply Hg.
  by apply list_elem_of_fmap_2.
Qed.

Lemma mm_recent_get ops o h c :
  NoDup (mm_cache c).*1 → mm_recent ops (mm_cache c) → (∀ k, mm_uses k o = bool_decide (h = k)) →
  mm_recent (ops ++ [o]) (mm_cache (mm_get_single h c).2).
Proof using.
  intros Hnd Hr Hu. unfold mm_get_single. destruct (dict_get h (mm_cache c)) as [e|] eqn:Hg; simpl.
  - by apply (mm_recent_move ops o h).
  - apply mm_recent_keep; [done|by eapply mm_unused].
Qed.

Lemma mm_recent_set ops h e c :
  mm_ok c → mm_recent ops (mm_cache c) → mm_recent (ops ++ [OpSet h e]) (mm_cache (mm_set h e c).2).
Proof using.
  intros [Hk Hs _] Hr. unfold mm_set. destruct (dict_get h (mm_cache c)) as [e'|] eqn:Hg; simpl; [by apply (mm_recent_move ops _ h)|].
  pose proof (make_room_spec (max_size c) (tensor_size e) (mm_cache c) (current_size c) Hs) as Hm.
  destruct (make_room _ _ _ _) as [[ok rest] cur]. destruct Hm as (gone & Hgone & _ & _ & _ & Hno & _); [unfold tensor_size; lia|].
  destruct ok; simpl; [|rewrite (Hno eq_refl); split; constructor].
  assert (Forall (λ x, mm_uses x.1 (OpSet h e) = false) (mm_cache c)) as Hun by (by eapply mm_unused).
  rewrite Hgone in Hr, Hun. apply Forall_app in Hun as [_ Hun]. apply mm_recent_snoc; [|done|by apply bool_decide_true|].
  - apply (mm_recent_part ops [] gone rest Hr).
  - apply elem_of_app. right. by apply list_elem_of_singleton.
Qed.

(** The entries stay in the order of their last use. *)
Lemma mm_step_recent ops o c :
  mm_ok c → mm_recent ops (mm_cache c) → mm_recent (ops ++ [o]) (mm_cache (mm_step py_hash o c)).
Proof using.
  intros Hok Hr. pose proof (mo_keys _ Hok) as Hk. destruct o as [hs|h|h e|h|]; cbn [mm_step].
  - unfold mm_get. destruct (combine_hashes py_hash hs) as [h|] eqn:E.
    + apply (mm_recent_get ops _ h); [done|done|]. intros k. cbn [mm_uses]. rewrite E. apply bool_decide_ext. naive_solver.
    + apply mm_recent_keep; [done|]. apply Forall_forall. intros x _. cbn [mm_uses]. rewrite E. done.
  - by apply (mm_recent_get ops _ h).
  - by apply mm_recent_set.
  - apply mm_recent_keep; [|by apply Forall_forall]. unfold mm_free. destruct (dict_get h (mm_cache c)) as [e|] eqn:Hg; [|done].
    destruct (dict_del_split h _ e Hk Hg) as (a & b & Hl & Hd & _). simpl. rewrite Hd. rewrite Hl in Hr.
    by apply (mm_recent_part ops a [(h, e)] b).
  - split; constructor.
Qed.
End recency.
