(* ===== verification/LoraPool.v ===== *)
(** LoRA adapters on the device: lora/eviction_policy.py, the slots of [LoRAMemoryPool]
    (lora/mem_pool.py) and the adapters of [LoRAManager] (lora/lora_manager.py).

    An adapter is a string, [None] the base model.  Loading the weights of an adapter
    checks their names; the tensors are not modelled: what slicing and copying those of a
    layer gives is part of the adapter, and a copy is recorded as an element of [loads]. *)
From S2P Require Import Prelude.
From stdpp Require Import options.

Abbreviation uid := (option string).

(** ** Eviction policies *)

(** The keys of the ordered dictionaries, oldest first; the times of [access_order] are
    never read. *)
Inductive EvictionPolicy :=
  | LRU (access_order : list string) (total_accesses eviction_count : nat)
  | FIFO (insertion_order : list string) (eviction_count : nat).

Definition tracked (p : EvictionPolicy) : list string :=
  match p with LRU order _ _ => order | FIFO order _ => order end.
Definition with_order (order : list string) (p : EvictionPolicy) : EvictionPolicy :=
  match p with LRU _ t e => LRU order t e | FIFO _ e => FIFO order e end.
Definition pop_key (s : string) (order : list string) : list string := filter (λ x, x ≠ s) order.

Definition mark_used (u : uid) (p : EvictionPolicy) : EvictionPolicy :=
  match u with
  | None => p
  | Some s =>
      match p with
      | LRU order t e => LRU (pop_key s order ++ [s]) (S t) e
      | FIFO order e => if decide (s ∈ order) then p else FIFO (order ++ [s]) e
      end
  end.
Definition count_eviction (p : EvictionPolicy) : EvictionPolicy :=
  match p with LRU order t e => LRU order t (S e) | FIFO order e => FIFO order (S e) end.
Definition select_victim (candidates : gset uid) (p : EvictionPolicy) : result (uid * EvictionPolicy) :=
  match list_find (λ s, Some s ∈ candidates) (tracked p) with
  | Some (_, s) => Ok (Some s, count_eviction p)
  | None => if decide (None ∈ candidates) then Ok (None, count_eviction p) else Raise AssertionError
  end.
Definition policy_remove (u : uid) (p : EvictionPolicy) : EvictionPolicy :=
  match u with None => p | Some s => with_order (pop_key s (tracked p)) p end.
Definition get_eviction_policy (policy_name : string) : result EvictionPolicy :=
  if decide (policy_name = "fifo"%string) then Ok (FIFO [] 0)
  else if decide (policy_name = "lru"%string) then Ok (LRU [] 0 0)
  else Raise ValueError.

(** ** The memory pool *)
(** With a name, a path and [pinned] given, as a request to load an adapter has them. *)
Record LoRARef := MkLoRARef { lora_id : string; lora_name : string; lora_path : string; pinned : bool }.

(** [None] in [buffer_id_to_uid] is [EMPTY_SLOT]. *)
Record LoRAMemoryPool := MkLoRAMemoryPool {
  uid_to_buffer_id : gmap uid nat;
  buffer_id_to_uid : list (option uid);
  eviction_policy : EvictionPolicy;
  loads : list (uid * nat);
}.
Abbreviation P := (ST LoRAMemoryPool).

Definition init_lora_pool (max_loras_per_batch : nat) (policy_name : string) : result LoRAMemoryPool :=
  policy ← get_eviction_policy policy_name;
  Ok (MkLoRAMemoryPool ∅ (replicate max_loras_per_batch None) policy []).

Definition set_policy (p : EvictionPolicy) (m : LoRAMemoryPool) : LoRAMemoryPool :=
  MkLoRAMemoryPool (uid_to_buffer_id m) (buffer_id_to_uid m) p (loads m).

(** The first empty slot. *)
Definition empty_slot (slots : list (option uid)) : option nat := fst <$> list_find (λ s, s = None) slots.

(** [uid] may be evicted: not in the batch and not pinned. *)
Definition is_candidate (cur_uids : list uid) (lora_refs : gmap string LoRARef) (u : uid) : bool :=
  if decide (u ∈ cur_uids) then false
  else match u with
       | None => true
       | Some s => match lora_refs !! s with Some r => negb (pinned r) | None => true end
       end.
Definition candidates_of (cur_uids : list uid) (lora_refs : gmap string LoRARef) (slots : list (option uid)) : gset uid :=
  list_to_set (filter (λ u, is_candidate cur_uids lora_refs u = true) (omap id slots)).

(** [get_available_buffer_slot] *)
Definition get_available_buffer_slot (cur_uids : list uid) (lora_refs : gmap string LoRARef) : P nat :=
  slots ← st_gets buffer_id_to_uid;
  match empty_slot slots with
  | Some b => mret b
  | None =>
      let candidates := candidates_of cur_uids lora_refs slots in
      if decide (candidates = ∅) then st_raise ValueError
      else
        let non_none := candidates ∖ {[None]} in
        let to_use := if decide (non_none = ∅) then candidates else non_none in
        policy ← st_gets eviction_policy;
        r ← st_lift (select_victim to_use policy);
        let victim := r.1 in
        u2b ← st_gets uid_to_buffer_id;
        b ← st_lift (unwrap KeyError (u2b !! victim));
        l ← st_gets loads;
        _ ← st_modify (λ _, MkLoRAMemoryPool (delete victim u2b) (<[b := None]> slots) (policy_remove victim r.2) l);
        mret b
  end.

(** The weights of an adapter: their names, and what slicing and copying the tensors to the
    buffers gives (the assertion on shapes and the checks of shared experts may raise). *)
Record LoRALayer := MkLoRALayer { layer_weights : list string; layer_copies : result unit }.
Record LoRAAdapter := MkLoRAAdapter {
  adapter_layers : list LoRALayer;
  added_copies : result unit;
  embedding_layers : list (string * result unit);
}.

(** The settings of the pool that loading reads. *)
Record PoolConfig := MkPoolConfig { target_modules : list string; strict_loading : bool; num_layer : nat }.

(** [get_target_module_name] *)
Definition get_target_module_name (full_module_name : string) (target_modules : list string) : result string :=
  let best := foldl (λ best t,
    if bool_decide (String.index 0 t full_module_name ≠ None) then
      match best with
      | Some b => if bool_decide (String.length b < String.length t) then Some t else best
      | None => Some t
      end
    else best) None target_modules in
  unwrap ValueError best.

Section loading.
Context (pc : PoolConfig).

(** The loop over names that raises for one without a target module. *)
Fixpoint check_names (names : list string) : result unit :=
  match names with
  | [] => Ok tt
  | name :: names => _ ← get_target_module_name name (target_modules pc); check_names names
  end.
Definition matches (name : string) : bool := is_ok (get_target_module_name name (target_modules pc)).

(** The loop over the layers: the names, then the copies. *)
Fixpoint load_layers (a : LoRAAdapter) (layer_ids : list nat) : result unit :=
  match layer_ids with
  | [] => Ok tt
  | layer_id :: layer_ids =>
      layer ← unwrap IndexError (adapter_layers a !! layer_id);
      _ ← check_names (layer_weights layer);
      _ ← layer_copies layer;
      load_layers a layer_ids
  end.
(** The loop over the embedding weights. *)
Fixpoint load_embeddings (l : list (string * result unit)) : result unit :=
  match l with
  | [] => Ok tt
  | (name, copies) :: l => _ ← get_target_module_name name (target_modules pc); _ ← copies; load_embeddings l
  end.

(** The weights of an adapter that exists: the names are checked before anything is
    copied, and again on the way. *)
Definition load_weights (a : LoRAAdapter) : result unit :=
  let all_weight_names := concat (layer_weights <$> adapter_layers a) ++ (embedding_layers a).*1 in
  let skipped_weight_names := List.filter (λ name, negb (matches name)) all_weight_names in
  _ ← (match skipped_weight_names with
       | [] => Ok tt
       | _ => if strict_loading pc then Raise ValueError else Ok tt
       end);
  _ ← load_layers a (seq 0 (num_layer pc));
  match embedding_layers a with
  | [] => Ok tt
  | l => _ ← added_copies a; load_embeddings l
  end.

(** [load_lora_weight_to_buffer] *)
Definition load_lora_weight_to_buffer (lora_adapters : gmap string LoRAAdapter) (u : uid) (b : nat) : P unit :=
  _ ← match u with
      | None => mret tt
      | Some s => st_lift (a ← unwrap AssertionError (lora_adapters !! s); load_weights a)
      end;
  st_modify (λ m, MkLoRAMemoryPool (uid_to_buffer_id m) (buffer_id_to_uid m) (eviction_policy m) (loads m ++ [(u, b)])).

(** The second loop of [prepare_lora_batch]. *)
Fixpoint load_missing (cur_uids : list uid) (lora_adapters : gmap string LoRAAdapter) (lora_refs : gmap string LoRARef) (todo : list uid) : P unit :=
  match todo with
  | [] => mret tt
  | u :: todo =>
      u2b ← st_gets uid_to_buffer_id;
      _ ← match u2b !! u with
          | Some _ => mret tt
          | None =>
              b ← get_available_buffer_slot cur_uids lora_refs;
              _ ← load_lora_weight_to_buffer lora_adapters u b;
              st_modify (λ m, MkLoRAMemoryPool (<[u := b]> (uid_to_buffer_id m)) (<[b := Some u]> (buffer_id_to_uid m)) (eviction_policy m) (loads m))
          end;
      load_missing cur_uids lora_adapters lora_refs todo
  end.

(** [prepare_lora_batch]; [cur_uids] is the set in the order of its iteration. *)
Definition prepare_lora_batch (cur_uids : list uid) (lora_adapters : gmap string LoRAAdapter) (lora_refs : gmap string LoRARef) : P unit :=
  _ ← st_modify (λ m, set_policy (foldl (λ p u, mark_used u p) (eviction_policy m) cur_uids) m);
  load_missing cur_uids lora_adapters lora_refs cur_uids.

End loading.

Definition get_buffer_id (lora_uid : uid) : P nat :=
  u2b ← st_gets uid_to_buffer_id; st_lift (unwrap KeyError (u2b !! lora_uid)).

(** ** The manager *)

(** What the checks read of a configuration. *)
Record LoRAConfig := MkLoRAConfig { lora_added_tokens_size : nat; use_dora : bool; supported : bool }.

Record LoRAManager := MkLoRAManager {
  max_loras_per_batch : nat;
  configs : gmap string LoRAConfig;
  loras : gmap string LoRAAdapter;
  lora_refs : gmap string LoRARef;
  num_pinned_loras : Z;
  memory_pool : option LoRAMemoryPool;
}.
Abbreviation L := (ST LoRAManager).

Definition new_lora_manager (max_loras_per_batch : nat) : LoRAManager := MkLoRAManager max_loras_per_batch ∅ ∅ ∅ 0 None.

(** [validate_new_adapter]; [supported] is [memory_pool.can_support(config)]. *)
Definition validate_new_adapter (config : LoRAConfig) (r : LoRARef) (m : LoRAManager) : result unit :=
  if bool_decide (0 < lora_added_tokens_size config) then Raise ValueError
  else if use_dora config then Raise ValueError
  else if bool_decide (Exists (λ e, lora_name r = lora_name e.2) (map_to_list (lora_refs m))) then Raise ValueError
  else if (match memory_pool m with Some _ => negb (supported config) | None => false end) then Raise ValueError
  else if pinned r && bool_decide (Z.of_nat (max_loras_per_batch m) - 1 <= num_pinned_loras m)%Z then Raise ValueError
  else Ok tt.

(** [load_lora_adapter]: the value is the success of the update.  [config] and [weights]
    are what reading the configuration and the weights gave (the adapter with its weights). *)
Definition load_lora_adapter (config : result LoRAConfig) (weights : result LoRAAdapter) (r : LoRARef) : L bool :=
  ls ← st_gets loras;
  _ ← st_lift (py_assert (bool_decide (ls !! lora_id r = None)));
  m ← st_gets id;
  match config with
  | Ok c =>
      match validate_new_adapter c r m with
      | Ok _ =>
          let m := MkLoRAManager (max_loras_per_batch m) (<[lora_id r := c]> (configs m)) (loras m) (lora_refs m) (num_pinned_loras m) (memory_pool m) in
          match weights with
          | Ok adapter =>
              _ ← st_modify (λ _, MkLoRAManager (max_loras_per_batch m) (configs m) (<[lora_id r := adapter]> (loras m))
                    (<[lora_id r := r]> (lora_refs m)) (num_pinned_loras m + (if pinned r then 1 else 0)) (memory_pool m));
              mret true
          | _ => _ ← st_modify (λ _, m); mret false
          end
      | _ => mret false
      end
  | _ => mret false
  end.

(** [unload_lora_adapter]; a missing key of [loras] is caught after [configs] has changed.
    The message of the assertion reads [lora_ref.lora_id], of [None] when it is missing. *)
Definition unload_lora_adapter (id : string) : L bool :=
  cs ← st_gets configs;
  refs ← st_gets lora_refs;
  match refs !! id, cs !! id with
  | Some r, Some _ =>
      _ ← st_modify (λ m, MkLoRAManager (max_loras_per_batch m) (delete (lora_id r) (configs m)) (loras m) (lora_refs m) (num_pinned_loras m) (memory_pool m));
      ls ← st_gets loras;
      if decide (is_Some (ls !! lora_id r)) then
        _ ← st_modify (λ m, MkLoRAManager (max_loras_per_batch m) (configs m) (delete (lora_id r) (loras m))
              (delete (lora_id r) (lora_refs m)) (num_pinned_loras m - (if pinned r then 1 else 0)) (memory_pool m));
        mret true
      else mret false
  | Some _, None => st_raise AssertionError
  | None, _ => st_raise AttributeError
  end.

(** The pinned adapters of a batch. *)
Definition pinned_in (refs : gmap string LoRARef) (u : uid) : result Z :=
  match u with
  | None => Ok 0%Z
  | Some s => r ← unwrap AssertionError (refs !! s); Ok (if pinned r then 1%Z else 0%Z)
  end.
Fixpoint count_pinned (refs : gmap string LoRARef) (ids : list uid) : result Z :=
  match ids with
  | [] => Ok 0%Z
  | u :: ids => n ← pinned_in refs u; k ← count_pinned refs ids; Ok (n + k)%Z
  end.

(** [validate_lora_batch] *)
Definition validate_lora_batch (lora_ids : list uid) : L bool :=
  m ← st_gets id;
  if bool_decide (max_loras_per_batch m < length lora_ids) then mret false
  else if bool_decide (num_pinned_loras m = 0%Z) then mret true
  else
    n ← st_lift (count_pinned (lora_refs m) lora_ids);
    _ ← st_lift (py_assert (bool_decide (n <= num_pinned_loras m)%Z));
    pool ← st_lift (unwrap AttributeError (memory_pool m));
    mret (bool_decide (Z.of_nat (length lora_ids) - n <= Z.of_nat (length (buffer_id_to_uid pool)) - num_pinned_loras m)%Z).

(** [fetch_new_loras]; [cur_uids] is [new_loras | running_loras]. *)
Definition fetch_new_loras (pc : PoolConfig) (cur_uids : list uid) : L unit :=
  m ← st_gets id;
  _ ← st_lift (py_assert (bool_decide (length cur_uids ≤ max_loras_per_batch m)));
  pool ← st_lift (unwrap AttributeError (memory_pool m));
  r ← st_lift (prepare_lora_batch pc cur_uids (loras m) (lora_refs m) pool);
  st_modify (λ m, MkLoRAManager (max_loras_per_batch m) (configs m) (loras m) (lora_refs m) (num_pinned_loras m) (Some r.2)).

(** [init_memory_pool], which ends with loading the base model. *)
Definition init_memory_pool (pc : PoolConfig) (policy_name : string) : L unit :=
  m ← st_gets id;
  pool ← st_lift (init_lora_pool (max_loras_per_batch m) policy_name);
  _ ← st_modify (λ m, MkLoRAManager (max_loras_per_batch m) (configs m) (loras m) (lora_refs m) (num_pinned_loras m) (Some pool));
  fetch_new_loras pc [None].
