(* ===== verification/LoraInv.v ===== *)
(** The invariant of the LoRA slots, and what preparing a batch does to them. *)
From S2P Require Import Prelude LoraPool.
From stdpp Require Import options.

(** The two maps are inverse, and every adapter in a slot is known to the policy. *)
Record pool_ok (n : nat) (m : LoRAMemoryPool) : Prop := {
  po_length : length (buffer_id_to_uid m) = n;
  po_inverse : ∀ u b, uid_to_buffer_id m !! u = Some b ↔ buffer_id_to_uid m !! b = Some (Some u);
  po_tracked : ∀ s, is_Some (uid_to_buffer_id m !! Some s) → s ∈ tracked (eviction_policy m);
  po_nodup : NoDup (tracked (eviction_policy m));
}.

(** The pinned adapters, and what a batch keeps in its slots. *)
Definition pinned_set (refs : gmap string LoRARef) : gset uid := set_map Some (dom (filter (λ kv, pinned kv.2 = true) refs)).
Definition kept (cur : list uid) (refs : gmap string LoRARef) : gset uid := list_to_set cur ∪ pinned_set refs.

(** The adapters that can leave their slots, in the order of the policy. *)
Definition evictable (keep : gset uid) (m : LoRAMemoryPool) : list string :=
  filter (λ s, is_Some (uid_to_buffer_id m !! Some s) ∧ Some s ∉ keep) (tracked (eviction_policy m)).

Lemma elem_of_pinned_set refs u :
  u ∈ pinned_set refs ↔ ∃ s r, u = Some s ∧ refs !! s = Some r ∧ pinned r = true.
Proof.
  unfold pinned_set. rewrite elem_of_map. split.
  - intros (s & -> & [r Hr]%elem_of_dom). apply map_lookup_filter_Some in Hr as [Hr Hp]. by exists s, r.
  - intros (s & r & -> & Hr & Hp). exists s. split; [done|]. apply elem_of_dom. exists r. by apply map_lookup_filter_Some.
Qed.

Lemma is_candidate_spec cur refs u : is_candidate cur refs u = true ↔ u ∉ kept cur refs.
Proof.
  unfold kept, is_candidate. rewrite not_elem_of_union, not_elem_of_list_to_set, elem_of_pinned_set.
  destruct (decide (u ∈ cur)) as [Hu|Hu]; [split; [done|by intros []]|]. destruct u as [s|].
  - destruct (refs !! s) as [r|] eqn:Hr.
    + rewrite negb_true_iff. split.
      * intros Hp. split; [done|]. intros (s' & r' & [= <-] & Hr' & Hp'). congruence.
      * intros [_ Hno]. destruct (pinned r) eqn:Hp; [|done]. exfalso. apply Hno. by exists s, r.
    + split; [|done]. intros _. split; [done|]. intros (s' & r' & [= <-] & Hr' & _). congruence.
  - split; [|done]. intros _. split; [done|]. by intros (s & r & ? & _).
Qed.

Lemma elem_of_candidates cur refs slots u :
  u ∈ candidates_of cur refs slots ↔ (∃ b, slots !! b = Some (Some u)) ∧ u ∉ kept cur refs.
Proof.
  unfold candidates_of. rewrite elem_of_list_to_set, list_elem_of_filter, is_candidate_spec, list_elem_of_omap. split.
  - intros [Hk (x & Hx & Hid)]. simpl in Hid. subst x. apply list_elem_of_lookup in Hx as [b Hb]. split; [by exists b|done].
  - intros [[b Hb] Hk]. split; [done|]. exists (Some u). split; [by eapply list_elem_of_lookup_2|done].
Qed.

(** A full pool holds as many adapters as it has slots. *)
Lemma full_pool_size n m :
  pool_ok n m → empty_slot (buffer_id_to_uid m) = None → size (dom (uid_to_buffer_id m)) = n.
Proof.
  intros [Hl Hi _ _] He. unfold empty_slot in He. destruct (list_find _ _) as [[]|] eqn:Hf; [done|]. clear He. apply list_find_None in Hf.
  assert (∃ us, buffer_id_to_uid m = Some <$> us) as [us Hus].
  { clear -Hf. induction Hf as [|x l Hx _ [us IH]]; [by exists []|]. destruct x as [u|]; [|done]. exists (u :: us). by rewrite IH. }
  assert (NoDup us) as Hnd.
  { apply NoDup_alt. intros i j u Hiu Hju. assert (∀ k, us !! k = Some u → uid_to_buffer_id m !! u = Some k) as Hk.
    { intros k Hk. apply Hi. by rewrite Hus, list_lookup_fmap, Hk. }
    apply Hk in Hiu, Hju. congruence. }
  assert (dom (uid_to_buffer_id m) = list_to_set us) as ->.
  { apply set_eq. intros u. rewrite elem_of_dom, elem_of_list_to_set. split.
    - intros [b Hb%Hi]. rewrite Hus, list_lookup_fmap in Hb. destruct (us !! b) as [u'|] eqn:Hb'; [|done]. injection Hb as ->.
      by eapply list_elem_of_lookup_2.
    - intros [b Hb]%list_elem_of_lookup. exists b. apply Hi. by rewrite Hus, list_lookup_fmap, Hb. }
  by rewrite size_list_to_set, <-Hl, Hus, length_fmap.
Qed.

(** There is someone to evict when the batch and the pinned adapters fit. *)
Lemma candidates_exist n m cur refs u :
  pool_ok n m → empty_slot (buffer_id_to_uid m) = None → u ∈ cur → uid_to_buffer_id m !! u = None →
  size (kept cur refs) ≤ n → candidates_of cur refs (buffer_id_to_uid m) ≠ ∅.
Proof.
  intros Hok He Hu Hno Hsize Hempty. pose proof (full_pool_size n m Hok He) as Hfull.
  assert (dom (uid_to_buffer_id m) ⊆ kept cur refs ∖ {[u]}) as Hsub.
  { intros x Hx. apply elem_of_difference. split.
    - destruct (decide (x ∈ kept cur refs)) as [|Hk]; [done|]. exfalso. apply elem_of_dom in Hx as [b Hb%(po_inverse _ _ Hok)].
      assert (x ∈ (∅ : gset uid)); [|set_solver]. rewrite <-Hempty. apply elem_of_candidates. split; [by exists b|done].
    - intros ->%elem_of_singleton. apply elem_of_dom in Hx as [b Hb]. congruence. }
  apply subseteq_size in Hsub. rewrite size_difference in Hsub by (apply singleton_subseteq_l; unfold kept; set_solver).
  rewrite size_singleton in Hsub. assert (size (kept cur refs) ≠ 0) by (apply size_non_empty_iff; unfold kept; set_solver). lia.
Qed.

(** *** Victims *)

Lemma filter_first {A} (Q : A → Prop) `{∀ x, Decision (Q x)} l i x :
  list_find Q l = Some (i, x) → ∃ rest, filter Q l = x :: rest.
Proof.
  revert i. induction l as [|y l IH]; intros i Hf; [done|]. simpl in Hf. rewrite filter_cons. case_decide; [by simplify_eq; eexists|].
  destruct (list_find Q l) as [[j z]|]; simplify_eq/=. by eapply IH.
Qed.

Lemma pop_key_filter (Q : string → Prop) `{∀ x, Decision (Q x)} s order rest :
  NoDup order → filter Q order = s :: rest → filter Q (pop_key s order) = rest.
Proof.
  intros Hnd Hf. unfold pop_key. rewrite list_filter_filter. transitivity (filter (λ x, x ≠ s) (filter Q order)).
  - rewrite list_filter_filter. apply list_filter_iff. tauto.
  - rewrite Hf, filter_cons, decide_False by (intros H'; by apply H'). apply filter_full.
    assert (NoDup (s :: rest)) as Hnd' by (rewrite <-Hf; by apply NoDup_filter). apply NoDup_cons in Hnd' as [Hs _]. apply Forall_forall. by intros x Hx ->.
Qed.

(** The victim is the first evictable adapter in the order of the policy, or the base model
    if there is none. *)
Lemma select_victim_spec n m cur refs :
  let keep := kept cur refs in
  let candidates := candidates_of cur refs (buffer_id_to_uid m) in
  let to_use := if decide (candidates ∖ {[None]} = ∅) then candidates else candidates ∖ {[None]} in
  pool_ok n m → candidates ≠ ∅ →
  ∃ victim, select_victim to_use (eviction_policy m) = Ok (victim, count_eviction (eviction_policy m))
    ∧ victim ∈ candidates
    ∧ match victim with Some s => ∃ rest, evictable keep m = s :: rest | None => evictable keep m = [] end.
Proof.
  intros keep candidates to_use Hok Hne.
  assert (∀ s, Some s ∈ to_use ↔ Some s ∈ candidates) as Huse.
  { intros s. unfold to_use. case_decide as Hd; [done|]. set_solver. }
  assert (∀ s, Some s ∈ candidates ↔ is_Some (uid_to_buffer_id m !! Some s) ∧ Some s ∉ keep) as Hcand.
  { intros s. unfold candidates. rewrite elem_of_candidates. split; intros [[b Hb] Hk]; (split; [|done]); exists b; by apply (po_inverse _ _ Hok). }
  assert (evictable keep m = filter (λ s, Some s ∈ to_use) (tracked (eviction_policy m))) as Hev.
  { apply list_filter_iff. intros s. by rewrite Huse, Hcand. }
  unfold select_victim. destruct (list_find _ _) as [[i s]|] eqn:Hf.
  - exists (Some s). split; [done|]. destruct (filter_first _ _ _ _ Hf) as [rest Hr].
    apply list_find_Some in Hf as (_ & Hs' & _). split; [by apply Huse|]. exists rest. by rewrite Hev.
  - apply list_find_None in Hf. assert (∀ s, Some s ∉ candidates) as Hnone.
    { intros s Hs. pose proof (proj1 (Hcand s) Hs) as [Hl _]. apply (po_tracked _ _ Hok) in Hl.
      rewrite Forall_forall in Hf. apply (Hf s Hl). by apply Huse. }
    assert (None ∈ candidates) as HN.
    { apply set_choose_L in Hne as [[s|] Hx]; [by destruct (Hnone s)|done]. }
    assert (candidates ∖ {[None]} = ∅) as Hd.
    { apply set_eq. intros [s|]; [|set_solver]. specialize (Hnone s). set_solver. }
    exists None. unfold to_use. rewrite (decide_True _ _ Hd), decide_True by done. split_and!; [done|done|].
    rewrite Hev. apply filter_nothing. eapply Forall_impl; [exact Hf|]. done.
Qed.

(** *** Taking a slot *)

(** What taking slots for a batch may do: adapters the batch keeps stay where they are,
    nobody enters, and those who leave are the first in the order of the policy. *)
Record taken (keep : gset uid) (m m' : LoRAMemoryPool) : Prop := {
  tk_keep : ∀ u, u ∈ keep → is_Some (uid_to_buffer_id m !! u) → uid_to_buffer_id m' !! u = uid_to_buffer_id m !! u;
  tk_sub : ∀ u b, u ∉ keep → uid_to_buffer_id m' !! u = Some b → uid_to_buffer_id m !! u = Some b;
  tk_order : ∃ k, evictable keep m' = drop k (evictable keep m);
  tk_known : ∀ s, Some s ∈ keep → s ∈ tracked (eviction_policy m) → s ∈ tracked (eviction_policy m');
}.

Lemma taken_refl keep m : taken keep m m.
Proof. split; [done|done|by exists 0|done]. Qed.
Lemma taken_trans keep m1 m2 m3 : taken keep m1 m2 → taken keep m2 m3 → taken keep m1 m3.
Proof.
  intros [K1 S1 [k1 O1] T1] [K2 S2 [k2 O2] T2]. split.
  - intros u Hu Hs. rewrite K2; [by apply K1|done|by rewrite K1].
  - intros u b Hu Hb. by apply S1, S2.
  - exists (k1 + k2). by rewrite O2, O1, drop_drop.
  - intros s Hs Ht. by apply T2, T1.
Qed.

Lemma tracked_count p : tracked (count_eviction p) = tracked p.
Proof. by destruct p. Qed.
Lemma tracked_remove u p : tracked (policy_remove u p) = match u with Some s => pop_key s (tracked p) | None => tracked p end.
Proof. by destruct u, p. Qed.

(** Taking the victim out of the pool. *)
Lemma evict_victim n m keep victim b p :
  pool_ok n m → victim ∉ keep → uid_to_buffer_id m !! victim = Some b →
  p = policy_remove victim (count_eviction (eviction_policy m)) →
  match victim with Some s => ∃ rest, evictable keep m = s :: rest | None => evictable keep m = [] end →
  let m' := MkLoRAMemoryPool (delete victim (uid_to_buffer_id m)) (<[b := None]> (buffer_id_to_uid m)) p (loads m) in
  pool_ok n m' ∧ taken keep m m'.
Proof.
  intros Hok Hv Hb -> Hev m'. pose proof (proj1 (po_inverse _ _ Hok _ _) Hb) as Hslot. pose proof (lookup_lt_Some _ _ _ Hslot) as Hlt.
  assert (∀ s, s ∈ tracked (eviction_policy m') ↔ s ∈ tracked (eviction_policy m) ∧ victim ≠ Some s) as Htr.
  { intros s. unfold m'. simpl. rewrite tracked_remove, tracked_count. destruct victim as [v|]; [|naive_solver].
    unfold pop_key. rewrite list_elem_of_filter. naive_solver. }
  split; split.
  - unfold m'. simpl. rewrite length_insert. apply Hok.
  - intros u c. unfold m'. simpl. rewrite lookup_delete_Some, (po_inverse _ _ Hok), list_lookup_insert_Some. split.
    + intros [Hne Hc]. right. split; [|done]. intros <-. rewrite Hslot in Hc. congruence.
    + intros [(_ & ? & _)|[Hne Hc]]; [done|]. split; [|done]. intros <-. apply (po_inverse _ _ Hok) in Hc. congruence.
  - intros s [c Hc]. unfold m' in Hc. simpl in Hc. apply lookup_delete_Some in Hc as [Hne Hc]. apply Htr. split; [|done]. apply (po_tracked _ _ Hok). by exists c.
  - unfold m'. simpl. rewrite tracked_remove, tracked_count. destruct victim; [apply NoDup_filter|]; apply (po_nodup _ _ Hok).
  - intros u Hu _. unfold m'. simpl. apply lookup_delete_ne. by intros ->.
  - intros u c Hu Hc. unfold m' in Hc. simpl in Hc. by apply lookup_delete_Some in Hc as [_ Hc].
  - assert (evictable keep m' = filter (λ s, is_Some (uid_to_buffer_id m !! Some s) ∧ Some s ∉ keep) (tracked (eviction_policy m'))) as He.
    { unfold evictable. apply filter_ext_in. intros s Hs. apply Htr in Hs as [_ Hs]. unfold m'. simpl. by rewrite lookup_delete_ne by congruence. }
    rewrite He. unfold m'. simpl. rewrite tracked_remove, tracked_count. destruct victim as [v|].
    + destruct Hev as [rest Hev]. exists 1. rewrite Hev. apply pop_key_filter; [apply (po_nodup _ _ Hok)|done].
    + by exists 0.
  - intros s Hs Ht. apply Htr. split; [done|]. intros ->. done.
Qed.

Lemma wp_available_slot n m cur refs u :
  pool_ok n m → u ∈ cur → uid_to_buffer_id m !! u = None → size (kept cur refs) ≤ n →
  wp (get_available_buffer_slot cur refs) (λ b m', buffer_id_to_uid m' !! b = Some None ∧ pool_ok n m'
    ∧ taken (kept cur refs) m m' ∧ (∀ v, v ∈ kept cur refs → uid_to_buffer_id m' !! v = uid_to_buffer_id m !! v) ∧ loads m' = loads m) m.
Proof.
  intros Hok Hu Hno Hsize. unfold get_available_buffer_slot. wp_steps. destruct (empty_slot (buffer_id_to_uid m)) as [b|] eqn:He.
  - wp_steps. split_and!; [|done|apply taken_refl|done|done]. unfold empty_slot in He. destruct (list_find _ _) as [[i x]|] eqn:Hf; [|done].
    injection He as <-. apply list_find_Some in Hf as (Hi & -> & _). done.
  - pose proof (candidates_exist n m cur refs u Hok He Hu Hno Hsize) as Hne. rewrite decide_False by done.
    destruct (select_victim_spec n m cur refs Hok Hne) as (victim & Hsel & Hv & Hfirst). wp_step. wp_step. wp_step.
    eapply wp_lift; [exact Hsel|]. cbn [fst snd]. apply elem_of_candidates in Hv as [[b Hb] Hk]. apply (po_inverse _ _ Hok) in Hb as Hub.
    wp_step. wp_step. wp_step. eapply wp_lift; [by rewrite Hub|]. wp_steps.
    destruct (evict_victim n m (kept cur refs) victim b _ Hok Hk Hub eq_refl Hfirst) as [Hok' Htk].
    split_and!; [|done|done| |done].
    + simpl. apply list_lookup_insert_eq. by eapply lookup_lt_Some.
    + intros v Hv. simpl. apply lookup_delete_ne. by intros ->.
Qed.

(** Putting an adapter of the batch into an empty slot. *)
Lemma fill_slot n m cur refs u b :
  pool_ok n m → u ∈ cur → uid_to_buffer_id m !! u = None → buffer_id_to_uid m !! b = Some None →
  (∀ s, u = Some s → s ∈ tracked (eviction_policy m)) →
  let m' := MkLoRAMemoryPool (<[u := b]> (uid_to_buffer_id m)) (<[b := Some u]> (buffer_id_to_uid m)) (eviction_policy m) (loads m ++ [(u, b)]) in
  pool_ok n m' ∧ taken (kept cur refs) m m'.
Proof.
  intros Hok Hu Hno Hb Htr m'. assert (u ∈ kept cur refs) as Hk by (unfold kept; set_solver). pose proof (lookup_lt_Some _ _ _ Hb) as Hlt.
  split; split.
  - unfold m'. simpl. rewrite length_insert. apply Hok.
  - intros v c. unfold m'. simpl. rewrite lookup_insert_Some, list_lookup_insert_Some, (po_inverse _ _ Hok). split.
    + intros [[<- <-]|[Hne Hc]]; [by left|]. right. split; [|done]. intros <-. congruence.
    + intros [(<- & [= <-] & _)|[Hne Hc]]; [by left|]. right. split; [|done]. intros <-. apply (po_inverse _ _ Hok) in Hc. congruence.
  - intros s [c Hc]. unfold m' in Hc |- *. simpl in *. apply lookup_insert_Some in Hc as [[-> _]|[_ Hc]]; [by apply Htr|].
    apply (po_tracked _ _ Hok). by exists c.
  - apply (po_nodup _ _ Hok).
  - intros v Hv Hs. unfold m'. simpl. apply lookup_insert_ne. intros <-. rewrite Hno in Hs. by destruct Hs.
  - intros v c Hv Hc. unfold m' in Hc. simpl in Hc. apply lookup_insert_Some in Hc as [[-> _]|[_ Hc]]; [|done]. by destruct Hv.
  - exists 0. unfold evictable, m'. simpl. apply list_filter_iff. intros s. destruct (decide (u = Some s)) as [->|Hne]; [naive_solver|].
    by rewrite lookup_insert_ne.
  - done.
Qed.

(** The weights of an adapter of the batch that is not in a slot can be loaded. *)
Definition loadable (pc : PoolConfig) (adapters : gmap string LoRAAdapter) (s : string) : Prop :=
  ∃ a, adapters !! s = Some a ∧ load_weights pc a = Ok tt.

Section loading_inv.
Context (pc : PoolConfig).

Lemma check_names_ok names : check_names pc names = Ok tt ↔ Forall (λ name, matches pc name = true) names.
Proof using.
  unfold matches. induction names as [|name names IH]; [done|]. cbn [check_names]. rewrite Forall_cons, <-IH.
  destruct (get_target_module_name name (target_modules pc)); simpl; naive_solver.
Qed.

Lemma load_layers_names a ids : load_layers pc a ids = Ok tt →
  Forall (λ i, ∃ layer, adapter_layers a !! i = Some layer ∧ Forall (λ name, matches pc name = true) (layer_weights layer)) ids.
Proof using.
  induction ids as [|i ids IH]; intros Hl; [done|]. cbn [load_layers] in Hl.
  destruct (adapter_layers a !! i) as [layer|] eqn:Hi; [|done]. simpl in Hl.
  destruct (check_names pc (layer_weights layer)) as [[]| |] eqn:Hc; [|done..]. simpl in Hl.
  destruct (layer_copies layer) as [[]| |]; [|done..]. constructor; [|by apply IH]. exists layer. split; [done|]. by apply check_names_ok.
Qed.

(** Strict loading or not, an adapter is loaded only if every weight of the model's layers
    has a target module: without strict loading the mismatch is reported as a warning, and
    the loop over the layers raises. *)
Lemma load_weights_names a : load_weights pc a = Ok tt →
  ∀ i layer, i < num_layer pc → adapter_layers a !! i = Some layer → Forall (λ name, matches pc name = true) (layer_weights layer).
Proof using.
  intros Hl i layer Hi Hlay. unfold load_weights in Hl.
  assert (load_layers pc a (seq 0 (num_layer pc)) = Ok tt) as Hok.
  { destruct (List.filter _ _); [|destruct (strict_loading pc)]; simpl in Hl; try done;
      destruct (load_layers pc a (seq 0 (num_layer pc))) as [[]| |]; done. }
  apply load_layers_names in Hok. rewrite Forall_forall in Hok. destruct (Hok i) as (layer' & Hlay' & Hall); [apply elem_of_seq; lia|].
  congruence.
Qed.

(** With strict loading a weight without a target module is refused before anything is copied. *)
Lemma load_weights_strict a name :
  strict_loading pc = true → name ∈ concat (layer_weights <$> adapter_layers a) ++ (embedding_layers a).*1 → matches pc name = false →
  load_weights pc a = Raise ValueError.
Proof using.
  intros Hs Hin Hm. unfold load_weights. destruct (List.filter _ _) as [|x l] eqn:E; [|by rewrite Hs].
  assert (In name (List.filter (λ name, negb (matches pc name)) (concat (layer_weights <$> adapter_layers a) ++ (embedding_layers a).*1))) as Hf.
  { apply List.filter_In. split; [by apply list_elem_of_In|by rewrite Hm]. }
  by rewrite E in Hf.
Qed.

Lemma wp_load_weight adapters u b (Q : unit → LoRAMemoryPool → Prop) m :
  (∀ s, u = Some s → loadable pc adapters s) →
  Q tt (MkLoRAMemoryPool (uid_to_buffer_id m) (buffer_id_to_uid m) (eviction_policy m) (loads m ++ [(u, b)])) →
  wp (load_lora_weight_to_buffer pc adapters u b) Q m.
Proof using.
  intros Had HQ. unfold load_lora_weight_to_buffer. destruct u as [s|]; [|by wp_steps].
  destruct (Had s eq_refl) as (a & Ha & Hl). wp_step. eapply wp_lift; [rewrite Ha; exact Hl|]. by wp_steps.
Qed.

(** The body of the loop for an adapter that is not in a slot. *)
Lemma wp_load_one n m cur adapters refs u (Q : unit → LoRAMemoryPool → Prop) :
  pool_ok n m → u ∈ cur → uid_to_buffer_id m !! u = None → size (kept cur refs) ≤ n →
  (∀ s, u = Some s → loadable pc adapters s) → (∀ s, Some s ∈ cur → s ∈ tracked (eviction_policy m)) →
  (∀ m1 b, pool_ok n m1 → taken (kept cur refs) m m1 → uid_to_buffer_id m1 !! u = Some b → loads m1 = loads m ++ [(u, b)] →
     (∀ v, v ∈ cur → v ≠ u → uid_to_buffer_id m1 !! v = uid_to_buffer_id m !! v) → Q tt m1) →
  wp (b ← get_available_buffer_slot cur refs;
      _ ← load_lora_weight_to_buffer pc adapters u b;
      st_modify (λ m, MkLoRAMemoryPool (<[u := b]> (uid_to_buffer_id m)) (<[b := Some u]> (buffer_id_to_uid m)) (eviction_policy m) (loads m))) Q m.
Proof.
  intros Hok Hu Hno Hsize Had Htr HQ. apply wp_bind. eapply wp_mono; [by apply (wp_available_slot n m cur refs u)|].
  intros b m0 (Hb & Hok0 & Htk0 & Hsame & Hl). apply wp_bind, wp_load_weight; [done|]. wp_step. simpl.
  assert (∀ v, v ∈ cur → v ∈ kept cur refs) as Hcur by (intros v Hv; unfold kept; set_solver).
  destruct (fill_slot n m0 cur refs u b) as [Hok1 Htk1]; [done|done|by rewrite Hsame by (by apply Hcur)|done| |].
  { intros s ->. apply (tk_known _ _ _ Htk0); [by apply Hcur|by apply Htr]. }
  eapply HQ; [exact Hok1|by eapply taken_trans|simpl; by rewrite lookup_insert_eq|simpl; by rewrite Hl|].
  intros v Hv Hne. simpl. rewrite lookup_insert_ne by done. by apply Hsame, Hcur.
Qed.

Lemma wp_load_missing n cur adapters refs todo : ∀ m,
  pool_ok n m → NoDup todo → (∀ u, u ∈ todo → u ∈ cur) → size (kept cur refs) ≤ n →
  (∀ s, Some s ∈ todo → uid_to_buffer_id m !! Some s = None → loadable pc adapters s) → (∀ s, Some s ∈ cur → s ∈ tracked (eviction_policy m)) →
  wp (load_missing pc cur adapters refs todo) (λ _ m', pool_ok n m' ∧ taken (kept cur refs) m m'
    ∧ (∀ u, u ∈ todo → is_Some (uid_to_buffer_id m' !! u))
    ∧ ∃ new, loads m' = loads m ++ new ∧ Forall (λ x, uid_to_buffer_id m !! x.1 = None ∧ x.1 ∈ todo ∧ uid_to_buffer_id m' !! x.1 = Some x.2) new
        ∧ ∀ u, u ∈ todo → uid_to_buffer_id m !! u = None → u ∈ new.*1) m.
Proof.
  induction todo as [|u todo IH]; intros m Hok Hnd Hsub Hsize Had Htr; cbn [load_missing].
  { wp_steps. split_and!; [done|apply taken_refl|set_solver|]. exists []. rewrite app_nil_r. split_and!; [done|constructor|set_solver]. }
  assert (u ∈ cur) as Hu by (apply Hsub; by left). apply NoDup_cons in Hnd as [Hfresh Hnd]. wp_step. wp_step. apply wp_bind. destruct (uid_to_buffer_id m !! u) as [b|] eqn:Hub.
  - wp_step. eapply wp_mono; [apply IH; [done|done|set_solver|done|intros s Hs; apply Had; by right|done]|].
    intros [] m' (Hok' & Htk & Hall & new & Hl & Hnew & Hcov). split_and!; [done|done| |].
    + intros v [->|Hv]%elem_of_cons; [|by apply Hall]. rewrite (tk_keep _ _ _ Htk); [by rewrite Hub|unfold kept; set_solver|by rewrite Hub].
    + exists new. split_and!; [done| |].
      * eapply Forall_impl; [exact Hnew|]. intros x (? & ? & ?). split_and!; [done|by right|done].
      * intros v [->|Hv]%elem_of_cons Hn; [congruence|by apply Hcov].
  - apply (wp_load_one n); [done|done|done|done|intros s ->; apply Had; [by left|done]|done|]. intros m1 b Hok1 Htk1 Hb Hl1 Hsame.
    eapply wp_mono; [apply IH; [done|done|set_solver|done|intros s Hs; rewrite Hsame by (set_solver || by intros ->); apply Had; by right|]|].
    { intros s Hs. apply (tk_known _ _ _ Htk1); [unfold kept; set_solver|by apply Htr]. }
    intros [] m' (Hok' & Htk & Hall & new & Hl & Hnew & Hcov).
    assert (uid_to_buffer_id m' !! u = Some b) as Hb' by (rewrite (tk_keep _ _ _ Htk); [done|unfold kept; set_solver|by rewrite Hb]).
    split_and!; [done|by eapply taken_trans|intros v [->|Hv]%elem_of_cons; [by exists b|by apply Hall]|].
    exists ((u, b) :: new). rewrite Hl, Hl1, <-app_assoc. split_and!; [done| |].
    + constructor; [split_and!; [done|by left|done]|]. eapply Forall_impl; [exact Hnew|]. intros [v c] (Hv1 & Hv2 & Hv3). simpl in *.
      split_and!; [|by right|done]. rewrite <-(Hsame v); [done|set_solver|by intros ->].
    + intros v [->|Hv]%elem_of_cons Hn; [by left|]. right. apply Hcov; [done|]. rewrite Hsame; [done|set_solver|by intros ->].
Qed.

(** The loop returns only if the weights of every missing adapter can be loaded. *)
Lemma load_missing_loadable n cur adapters refs todo : ∀ m m',
  pool_ok n m → NoDup todo → (∀ u, u ∈ todo → u ∈ cur) → size (kept cur refs) ≤ n →
  (∀ s, Some s ∈ cur → s ∈ tracked (eviction_policy m)) → load_missing pc cur adapters refs todo m = Ok (tt, m') →
  ∀ s, Some s ∈ todo → uid_to_buffer_id m !! Some s = None → loadable pc adapters s.
Proof using.
  induction todo as [|u todo IH]; intros m m' Hok Hnd Hsub Hsize Htr Hrun s Hs Hno; [by apply elem_of_nil in Hs|].
  assert (u ∈ cur) as Hu by (apply Hsub; by left). apply NoDup_cons in Hnd as [Hfresh Hnd]. cbn [load_missing] in Hrun.
  unfold mbind, ST_bind, st_bind at 1, st_gets at 1 in Hrun. destruct (uid_to_buffer_id m !! u) as [b|] eqn:Hub.
  { apply elem_of_cons in Hs as [<-|Hs]; [congruence|]. by apply (IH m m'); [..|set_solver| | |exact Hrun| |]. }
  assert (∀ t, u = Some t → loadable pc adapters t) as Hload.
  { intros t ->. destruct (wp_ok _ _ _ (wp_available_slot n m cur refs (Some t) Hok Hu Hub Hsize)) as (b & m0 & E & _).
    unfold st_bind in Hrun. rewrite E in Hrun. unfold load_lora_weight_to_buffer, mbind, ST_bind, st_bind, st_lift in Hrun.
    destruct (adapters !! t) as [a|] eqn:Ha; [|done]. simpl in Hrun. exists a. split; [done|].
    destruct (load_weights pc a) as [[]| |]; done. }
  destruct (wp_ok _ _ _ (wp_load_one n m cur adapters refs u (λ _ m1, pool_ok n m1 ∧ taken (kept cur refs) m m1
    ∧ ∀ v, v ∈ cur → v ≠ u → uid_to_buffer_id m1 !! v = uid_to_buffer_id m !! v) Hok Hu Hub Hsize Hload Htr
    ltac:(intros m1 b ? ? _ _ ?; done))) as ([] & m1 & E & Hok1 & Htk1 & Hsame).
  unfold mbind, ST_bind in E. unfold st_bind at 1 in Hrun. rewrite E in Hrun.
  apply elem_of_cons in Hs as [<-|Hs]; [by apply Hload|].
  apply (IH m1 m'); [done|done|set_solver|done| |exact Hrun|done|].
  - intros t Ht. apply (tk_known _ _ _ Htk1); [unfold kept; set_solver|by apply Htr].
  - rewrite Hsame; [done|set_solver|by intros <-].
Qed.

(** *** Preparing a batch *)

Lemma mark_used_tracked u p s : s ∈ tracked (mark_used u p) ↔ s ∈ tracked p ∨ u = Some s.
Proof.
  destruct u as [t|]; simpl; [|naive_solver]. destruct p as [o a e|o e]; simpl.
  - unfold pop_key. rewrite elem_of_app, list_elem_of_filter, list_elem_of_singleton. destruct (decide (s = t)); naive_solver.
  - case_decide; simpl; [naive_solver|]. rewrite elem_of_app, list_elem_of_singleton. naive_solver.
Qed.
Lemma mark_used_nodup u p : NoDup (tracked p) → NoDup (tracked (mark_used u p)).
Proof.
  intros Hnd. destruct u as [t|]; [|done]. destruct p as [o a e|o e]; simpl in *.
  - apply NoDup_app. split_and!; [by apply NoDup_filter| |apply NoDup_singleton].
    intros x Hx ->%list_elem_of_singleton. apply list_elem_of_filter in Hx as [? _]. done.
  - case_decide; [done|]. simpl. apply NoDup_app. split_and!; [done| |apply NoDup_singleton]. by intros x Hx ->%list_elem_of_singleton.
Qed.
(** Marking what the batch uses does not touch the order of the others. *)
Lemma mark_used_filter (Q : string → Prop) `{∀ x, Decision (Q x)} u p :
  (∀ s, u = Some s → ¬ Q s) → filter Q (tracked (mark_used u p)) = filter Q (tracked p).
Proof.
  intros Hu. destruct u as [t|]; [|done]. specialize (Hu t eq_refl). destruct p as [o a e|o e]; simpl.
  - rewrite filter_app, filter_cons_False, filter_nil, app_nil_r by done. unfold pop_key. rewrite list_filter_filter. apply list_filter_iff. naive_solver.
  - case_decide; [done|]. simpl. by rewrite filter_app, filter_cons_False, filter_nil, app_nil_r.
Qed.

Lemma mark_all n m cur keep :
  pool_ok n m → (∀ u, u ∈ cur → u ∈ keep) →
  let m' := set_policy (foldl (λ p u, mark_used u p) (eviction_policy m) cur) m in
  pool_ok n m' ∧ taken keep m m' ∧ evictable keep m' = evictable keep m ∧ ∀ s, Some s ∈ cur → s ∈ tracked (eviction_policy m').
Proof.
  intros [Hl Hi Ht Hn] Hk m'.
  assert (∀ p, (∀ s, s ∈ tracked (foldl (λ p u, mark_used u p) p cur) ↔ s ∈ tracked p ∨ Some s ∈ cur)
    ∧ (NoDup (tracked p) → NoDup (tracked (foldl (λ p u, mark_used u p) p cur)))
    ∧ filter (λ s, is_Some (uid_to_buffer_id m !! Some s) ∧ Some s ∉ keep) (tracked (foldl (λ p u, mark_used u p) p cur))
      = filter (λ s, is_Some (uid_to_buffer_id m !! Some s) ∧ Some s ∉ keep) (tracked p)) as Hmark.
  { clear m' Hl Hi Ht Hn. induction cur as [|u cur IH]; intros p; simpl; [split_and!; [set_solver|done|done]|].
    destruct (IH ltac:(set_solver) (mark_used u p)) as (H1 & H2 & H3). split_and!.
    - intros s. rewrite H1, mark_used_tracked, elem_of_cons. naive_solver.
    - intros Hnd. by apply H2, mark_used_nodup.
    - rewrite H3. apply mark_used_filter. intros s -> [_ Hs]. apply Hs, Hk. by left. }
  destruct (Hmark (eviction_policy m)) as (H1 & H2 & H3).
  assert (evictable keep m' = evictable keep m) as Hev by exact H3.
  split_and!; [split; simpl; [done|done|intros s Hs; apply H1; by left; apply Ht|by apply H2]| |done|intros s Hs; apply H1; by right].
  split; [done|done|exists 0; by rewrite Hev|intros s _ Hs; apply H1; by left].
Qed.

(** What a batch does to the pool. *)
Record prepared (cur : list uid) (refs : gmap string LoRARef) (m m' : LoRAMemoryPool) : Prop := {
  pr_loaded : ∀ u, u ∈ cur → is_Some (uid_to_buffer_id m' !! u);
  pr_taken : taken (kept cur refs) m m';
  pr_loads : ∃ new, loads m' = loads m ++ new ∧ (∀ u, u ∈ new.*1 ↔ u ∈ cur ∧ uid_to_buffer_id m !! u = None)
    ∧ Forall (λ x, uid_to_buffer_id m' !! x.1 = Some x.2) new;
}.

Lemma wp_prepare n m cur adapters refs :
  pool_ok n m → NoDup cur → size (kept cur refs) ≤ n → (∀ s, Some s ∈ cur → uid_to_buffer_id m !! Some s = None → loadable pc adapters s) →
  wp (prepare_lora_batch pc cur adapters refs) (λ _ m', pool_ok n m' ∧ prepared cur refs m m') m.
Proof.
  intros Hok Hnd Hsize Had. unfold prepare_lora_batch. wp_step. wp_step.
  destruct (mark_all n m cur (kept cur refs) Hok) as (Hok1 & Htk1 & _ & Htr); [intros u Hu; unfold kept; set_solver|].
  eapply wp_mono; [by apply (wp_load_missing n)|]. intros [] m' (Hok' & Htk & Hall & new & Hl & Hnew & Hcov). split; [done|].
  split; [done|by eapply taken_trans|]. exists new. split_and!; [done| |].
  - intros u. split; [|by intros [Hu Hn]; apply Hcov]. intros (x & -> & Hx)%list_elem_of_fmap. rewrite Forall_forall in Hnew.
    destruct (Hnew x Hx) as (? & ? & _). done.
  - eapply Forall_impl; [exact Hnew|]. intros x Hx. apply Hx.
Qed.


Lemma prepare_loadable n m m' cur adapters refs :
  pool_ok n m → NoDup cur → size (kept cur refs) ≤ n → prepare_lora_batch pc cur adapters refs m = Ok (tt, m') →
  ∀ s, Some s ∈ cur → uid_to_buffer_id m !! Some s = None → loadable pc adapters s.
Proof using.
  intros Hok Hnd Hsize Hrun. destruct (mark_all n m cur (kept cur refs) Hok) as (Hok1 & _ & _ & Htr); [intros u Hu; unfold kept; set_solver|].
  intros s Hs Hno. exact (load_missing_loadable n cur adapters refs cur _ m' Hok1 Hnd (λ u Hu, Hu) Hsize Htr Hrun s Hs Hno).
Qed.
End loading_inv.

(** ** The manager *)
Record manager_ok (m : LoRAManager) : Prop := {
  mg_pool : ∀ pool, memory_pool m = Some pool → pool_ok (max_loras_per_batch m) pool;
  mg_ids : ∀ id r, lora_refs m !! id = Some r → lora_id r = id;
  mg_loras : dom (lora_refs m) = dom (loras m);
  mg_pinned : num_pinned_loras m = Z.of_nat (size (pinned_set (lora_refs m)));
  mg_few : (num_pinned_loras m = 0 ∨ num_pinned_loras m <= Z.of_nat (max_loras_per_batch m) - 1)%Z;
}.

Lemma pinned_set_insert refs id r :
  refs !! id = None → pinned_set (<[id := r]> refs) = (if pinned r then {[Some id]} else ∅) ∪ pinned_set refs.
Proof.
  intros Hno. apply set_eq. intros u. rewrite elem_of_union, !elem_of_pinned_set. split.
  - intros (s & q & -> & Hq & Hp). apply lookup_insert_Some in Hq as [[<- <-]|[Hne Hq]]; [left; rewrite Hp; set_solver|right; by exists s, q].
  - intros [Hu|(s & q & -> & Hq & Hp)].
    + destruct (pinned r) eqn:Hp; [|set_solver]. apply elem_of_singleton in Hu as ->. exists id, r. by rewrite lookup_insert_eq.
    + exists s, q. split_and!; [done| |done]. rewrite lookup_insert_ne; [done|]. intros <-. congruence.
Qed.
Lemma pinned_set_absent refs id : refs !! id = None → Some id ∉ pinned_set refs.
Proof. rewrite elem_of_pinned_set. intros Hno (s & r & [= <-] & Hr & _). congruence. Qed.

Lemma size_pinned_insert refs id r :
  refs !! id = None → size (pinned_set (<[id := r]> refs)) = (if pinned r then 1 else 0) + size (pinned_set refs).
Proof.
  intros Hno. rewrite pinned_set_insert by done. pose proof (pinned_set_absent refs id Hno) as Ha. destruct (pinned r).
  - rewrite size_union by set_solver. by rewrite size_singleton.
  - by rewrite (left_id_L ∅ (∪)).
Qed.

(** The LoRA manager in every reachable state: loading and unloading adapters and fetching
    batches keep it consistent, and a batch it accepts can be fetched. *)

(** ** Batches that are accepted *)

Lemma size_inter_diff (X Y : gset uid) : size Y = size (X ∩ Y) + size (Y ∖ X).
Proof.
  rewrite <-size_union by set_solver. f_equal. apply set_eq. intros u. destruct (decide (u ∈ X)); set_solver.
Qed.

Lemma count_pinned_spec refs ids :
  NoDup ids → (∀ s, Some s ∈ ids → is_Some (refs !! s)) →
  count_pinned refs ids = Ok (Z.of_nat (size (list_to_set ids ∩ pinned_set refs))).
Proof.
  induction ids as [|u ids IH]; intros Hnd Hk; simpl.
  { replace (∅ ∩ pinned_set refs) with (∅ : gset uid) by set_solver. by rewrite size_empty. }
  apply NoDup_cons in Hnd as [Hu Hnd]. specialize (IH Hnd ltac:(set_solver)).
  assert (∃ n, pinned_in refs u = Ok n ∧ n = if decide (u ∈ pinned_set refs) then 1%Z else 0%Z) as (n & -> & ->).
  { destruct u as [s|]; simpl; [|exists 0%Z; split; [done|]; rewrite decide_False; [done|]; rewrite elem_of_pinned_set; naive_solver].
    destruct (Hk s ltac:(by left)) as [r Hr]. rewrite Hr. simpl. eexists. split; [done|]. destruct (pinned r) eqn:Hp.
    - rewrite decide_True; [done|]. apply elem_of_pinned_set. by exists s, r.
    - rewrite decide_False; [done|]. rewrite elem_of_pinned_set. intros (s' & r' & [= <-] & Hr' & Hp'). congruence. }
  simpl. rewrite IH. simpl. f_equal. case_decide as Hd.
  - replace (({[u]} ∪ list_to_set ids) ∩ pinned_set refs) with ({[u]} ∪ (list_to_set ids ∩ pinned_set refs)) by set_solver.
    rewrite (size_union (C := gset uid) {[u]} (list_to_set ids ∩ pinned_set refs)) by set_solver. rewrite size_singleton. lia.
  - replace (({[u]} ∪ list_to_set ids) ∩ pinned_set refs) with (list_to_set ids ∩ pinned_set refs) by set_solver. lia.
Qed.

(** A batch that is accepted fits together with the pinned adapters. *)
Lemma validate_fits m m' ids :
  manager_ok m → NoDup ids → (∀ s, Some s ∈ ids → is_Some (loras m !! s)) → validate_lora_batch ids m = Ok (true, m') →
  size (kept ids (lora_refs m)) ≤ max_loras_per_batch m ∧ length ids ≤ max_loras_per_batch m.
Proof.
  intros Hok Hnd Hk. unfold validate_lora_batch, mbind, ST_bind, st_bind, st_gets, id.
  assert (size (list_to_set ids : gset uid) = length ids) as Hlen by (by apply size_list_to_set).
  case_bool_decide as Hmax; [done|]. case_bool_decide as Hz.
  - intros _. split; [|lia]. unfold kept. rewrite (mg_pinned _ Hok) in Hz.
    assert (pinned_set (lora_refs m) = ∅) as -> by (apply leibniz_equiv, size_empty_inv; lia). rewrite (right_id_L ∅ (∪)). lia.
  - rewrite count_pinned_spec; [|done|intros s Hs; apply elem_of_dom; rewrite (mg_loras _ Hok); by apply elem_of_dom, Hk].
    unfold st_lift, py_assert. case_bool_decide as Hle; [|done]. destruct (memory_pool m) as [pool|] eqn:Hp; [|done]. simpl.
    intros [= Hv _]. apply bool_decide_eq_true in Hv. rewrite (po_length _ _ (mg_pool _ Hok _ Hp)), (mg_pinned _ Hok) in Hv.
    split; [|lia]. unfold kept. rewrite size_union_alt, Hlen.
    pose proof (size_inter_diff (list_to_set ids) (pinned_set (lora_refs m))). lia.
Qed.

Lemma wp_fetch pc m ids pool :
  manager_ok m → memory_pool m = Some pool → NoDup ids →
  (∀ s, Some s ∈ ids → uid_to_buffer_id pool !! Some s = None → loadable pc (loras m) s) →
  size (kept ids (lora_refs m)) ≤ max_loras_per_batch m → length ids ≤ max_loras_per_batch m →
  wp (fetch_new_loras pc ids) (λ _ m', manager_ok m' ∧ ∃ pool', memory_pool m' = Some pool' ∧ prepared ids (lora_refs m) pool pool') m.
Proof.
  intros Hok Hp Hnd Hk Hsize Hlen. unfold fetch_new_loras. wp_step. wp_step. wp_step. eapply wp_lift.
  { unfold py_assert. by rewrite bool_decide_true. }
  wp_step. eapply wp_lift; [unfold id; by rewrite Hp|].
  destruct (wp_ok _ _ _ (wp_prepare pc _ pool ids (loras m) (lora_refs m) (mg_pool _ Hok _ Hp) Hnd Hsize Hk)) as ([] & pool' & E & Hpool' & Hprep).
  wp_step. eapply wp_lift; [exact E|]. wp_steps. split; [|by exists pool'].
  destruct Hok as [H1 H2 H3 H4 H5]. split; simpl; [by intros ? [= <-]|done|done|done|done].
Qed.

(** A batch that was fetched could be loaded. *)
Lemma fetch_loadable pc m m' ids pool :
  manager_ok m → memory_pool m = Some pool → NoDup ids → size (kept ids (lora_refs m)) ≤ max_loras_per_batch m →
  fetch_new_loras pc ids m = Ok (tt, m') →
  ∀ s, Some s ∈ ids → uid_to_buffer_id pool !! Some s = None → loadable pc (loras m) s.
Proof.
  intros Hok Hp Hnd Hsize. unfold fetch_new_loras, mbind, ST_bind, st_bind, st_gets, st_lift, id. destruct (py_assert _) as [[]| |]; [|done..].
  rewrite Hp. simpl. destruct (prepare_lora_batch pc ids (loras m) (lora_refs m) pool) as [[[] pool']| |] eqn:E; [|done..]. intros _.
  by eapply (prepare_loadable pc _ pool pool'); [apply (mg_pool _ Hok)|..].
Qed.

(** ** The other operations *)

Lemma load_adapter_ok config weights r m b m' :
  manager_ok m → load_lora_adapter config weights r m = Ok (b, m') → manager_ok m'.
Proof.
  intros Hok. destruct Hok as [H1 H2 H3 H4 H5]. unfold load_lora_adapter, mbind, ST_bind, st_bind, st_gets, st_lift, py_assert, id.
  case_bool_decide as Hnew; [|done]. destruct config as [c| |]; [|by intros [= _ <-]..].
  destruct (validate_new_adapter c r m) as [[]| |] eqn:Hv; [|by intros [= _ <-]..].
  destruct weights as [a| |]; [|by intros [= _ <-]; split..]. intros [= _ <-].
  assert (lora_refs m !! lora_id r = None) as Hno by (apply not_elem_of_dom; rewrite H3; by apply not_elem_of_dom).
  split; simpl; [done| | | |].
  - intros id q Hq. apply lookup_insert_Some in Hq as [[<- <-]|[_ Hq]]; [done|by apply H2].
  - by rewrite !dom_insert_L, H3.
  - rewrite size_pinned_insert, H4 by done. destruct (pinned r); lia.
  - destruct (pinned r) eqn:Hp; [|by rewrite Z.add_0_r]. unfold validate_new_adapter in Hv. rewrite Hp in Hv. simpl in Hv.
    destruct (bool_decide (Z.of_nat (max_loras_per_batch m) - 1 <= num_pinned_loras m)%Z) eqn:Hb; [repeat case_match; done|].
    apply bool_decide_eq_false in Hb. right. lia.
Qed.

Lemma unload_adapter_ok id m b m' : manager_ok m → unload_lora_adapter id m = Ok (b, m') → manager_ok m'.
Proof.
  intros Hok. destruct Hok as [H1 H2 H3 H4 H5]. unfold unload_lora_adapter, mbind, ST_bind, st_bind, st_gets.
  destruct (lora_refs m !! id) as [r|] eqn:Hr; [|done]. destruct (configs m !! id) as [c|]; [|done]. simpl.
  case_decide as Hin; [|intros [= _ <-]; by split]. intros [= _ <-]. pose proof (H2 _ _ Hr) as Hid.
  rewrite Hid in *. assert (lora_refs m = <[id := r]> (delete id (lora_refs m))) as Hsplit by (by rewrite insert_delete_id).
  assert (num_pinned_loras m = Z.of_nat ((if pinned r then 1 else 0) + size (pinned_set (delete id (lora_refs m))))) as Hsum.
  { rewrite H4. f_equal. rewrite Hsplit at 1. apply size_pinned_insert, lookup_delete_eq. }
  split; simpl; [done| | | |].
  - intros i q Hq. apply lookup_delete_Some in Hq as [_ Hq]. by apply H2.
  - by rewrite !dom_delete_L, H3.
  - destruct (pinned r); lia.
  - destruct (pinned r); lia.
Qed.

(** ** Reachable states *)
Section reachable.
Context (pc : PoolConfig).

Inductive lora_step : LoRAManager → LoRAManager → Prop :=
  | StepLoad config weights r ok m m' : load_lora_adapter config weights r m = Ok (ok, m') → lora_step m m'
  | StepUnload id ok m m' : unload_lora_adapter id m = Ok (ok, m') → lora_step m m'
  | StepInit policy m m' : init_memory_pool pc policy m = Ok (tt, m') → lora_step m m'
  | StepFetch ids m m1 m' :
      NoDup ids → (∀ s, Some s ∈ ids → is_Some (loras m !! s)) → validate_lora_batch ids m = Ok (true, m1) →
      fetch_new_loras pc ids m = Ok (tt, m') → lora_step m m'.

Definition lora_reachable (n : nat) : LoRAManager → Prop := rtc lora_step (new_lora_manager n).

Lemma init_pool_ok n policy : init_lora_pool n policy = Raise ValueError ∨ ∃ pool, init_lora_pool n policy = Ok pool ∧ pool_ok n pool.
Proof.
  unfold init_lora_pool, get_eviction_policy. repeat case_decide; [right..|by left]; eexists; (split; [done|]);
    (split; simpl; [by rewrite length_replicate| |by intros s [b ?%lookup_empty_Some]|constructor]);
    intros u b; (split; [by intros ?%lookup_empty_Some|]); intros [? _]%lookup_replicate; done.
Qed.

Lemma size_kept_base refs : size (kept [None] refs) ≤ 1 + size (pinned_set refs).
Proof.
  unfold kept. replace (list_to_set [None] : gset uid) with ({[None]} : gset uid) by set_solver.
  rewrite (size_union_alt (C := gset uid)), size_singleton.
  pose proof (subseteq_size (pinned_set refs ∖ {[None]}) (pinned_set refs) ltac:(set_solver)). lia.
Qed.

Lemma init_memory_pool_ok policy m m' : manager_ok m → init_memory_pool pc policy m = Ok (tt, m') → manager_ok m'.
Proof.
  intros Hok. unfold init_memory_pool, mbind at 1, ST_bind at 1, st_bind at 1, st_gets, id.
  destruct (init_pool_ok (max_loras_per_batch m) policy) as [E|(pool & E & Hpool)]; unfold mbind, ST_bind, st_bind, st_lift; rewrite E; [done|]. simpl.
  set (m1 := MkLoRAManager _ _ _ _ _ _). assert (manager_ok m1) as Hok1.
  { destruct Hok as [H1 H2 H3 H4 H5]. split; simpl; [by intros ? [= <-]|done|done|done|done]. }
  intros Hf. assert (1 ≤ max_loras_per_batch m) as Hpos.
  { unfold fetch_new_loras, mbind, ST_bind, st_bind, st_gets, st_lift, py_assert, id in Hf. simpl in Hf. by case_bool_decide. }
  assert (size (kept [None] (lora_refs m)) ≤ max_loras_per_batch m) as Hsize.
  { pose proof (size_kept_base (lora_refs m)). pose proof (mg_pinned _ Hok). pose proof (mg_few _ Hok). lia. }
  destruct (wp_ok _ _ _ (wp_fetch pc m1 [None] pool Hok1 eq_refl ltac:(apply NoDup_singleton) ltac:(set_solver) Hsize Hpos)) as (? & m2 & E2 & Hok2 & _).
  rewrite E2 in Hf. by injection Hf as _ <-.
Qed.

Lemma lora_step_ok m m' : manager_ok m → lora_step m m' → manager_ok m'.
Proof.
  intros Hok Hs. destruct Hs as [config weights r ok m m' E|id ok m m' E|policy m m' E|ids m m1 m' Hnd Hk Hv E].
  - by eapply load_adapter_ok.
  - by eapply unload_adapter_ok.
  - by eapply init_memory_pool_ok.
  - destruct (validate_fits m m1 ids Hok Hnd Hk Hv) as [Hsize Hlen].
    destruct (memory_pool m) as [pool|] eqn:Hp.
    + pose proof (fetch_loadable pc m m' ids pool Hok Hp Hnd Hsize E) as Hload.
      destruct (wp_ok _ _ _ (wp_fetch pc m ids pool Hok Hp Hnd Hload Hsize Hlen)) as (? & m2 & E2 & Hok2 & _). rewrite E2 in E. by injection E as _ <-.
    + exfalso. unfold fetch_new_loras, mbind, ST_bind, st_bind, st_gets, st_lift, id in E. rewrite Hp in E. simpl in E.
      destruct (py_assert _); done.
Qed.

Lemma lora_reachable_ok n m : lora_reachable n m → manager_ok m.
Proof.
  unfold lora_reachable. intros Hr. revert m Hr. apply rtc_ind_r; [|intros m m' _ Hs IH; by eapply lora_step_ok].
  split; simpl; [done|by intros id r ?%lookup_empty_Some|by rewrite dom_empty_L| |by left].
  assert (pinned_set ∅ = ∅) as ->; [|by rewrite size_empty]. apply set_eq. intros u. rewrite elem_of_pinned_set. split; [|set_solver].
  intros (s & r & _ & ?%lookup_empty_Some & _). done.
Qed.
End reachable.
