(* ===== verification/ServiceTheorems.v ===== *)
(** The properties of the data-parallel dispatcher, the multimodal cache and the LoRA slots,
    with an instance of each. *)
From S2P Require Import Prelude DPDispatch MMCache LoraPool LoraInv.
From stdpp Require Import sorting options.
Local Open Scope Z_scope.

(** ** Dispatching *)




(** C39: round robin ends when some worker is active: the request goes to the first active
    worker from the counter on, in cyclic order, and the counter moves behind it; when no
    worker is active the loop never ends. *)
Theorem round_robin_next {R} obj (c : @Controller R) n :
  (0 < n)%nat → length (workers c) = n → length (status c) = n → (round_robin_counter c < n)%nat →
  (∀ j, (j < n)%nat → (∀ i, (i < j)%nat → status c !! rank_of c i = Some false) → status c !! rank_of c j = Some true →
     ∃ w c', round_robin_loop n obj c = Ok (tt, c') ∧ workers c !! rank_of c j = Some w
       ∧ workers c' = <[rank_of c j := w ++ [obj]]> (workers c) ∧ round_robin_counter c' = rank_of c (j + 1))
  ∧ (Forall (λ b, b = false) (status c) → ∀ fuel, round_robin_loop fuel obj c = Running).
Proof.
  intros Hn Hw Hst Hk. split.
  - intros j Hj Hno Hyes. destruct (lookup_lt_is_Some_2 (workers c) (rank_of c j)) as [w Hwj].
    { apply Nat.mod_upper_bound. lia. }
    rewrite (round_robin_spec obj j n c w) by (done || lia). eexists w, _. done.
  - intros Hall fuel. apply round_robin_stuck; [lia|lia|lia|done].
Qed.

Lemma round_robin_next_witness :
  let c := MkController ROUND_ROBIN 2 (init_budget 3) [[]; []; []] [true; false; false] 1 : @Controller nat in
  ∃ c', round_robin_loop 3 7%nat c = Ok (tt, c') ∧ round_robin_counter c' = 1%nat.
Proof.
  intros c. destruct (round_robin_next 7%nat c 3) as [Hnext _]; [lia|reflexivity|reflexivity|simpl; lia|].
  destruct (Hnext 1%nat) as (w & c' & E & _ & _ & Hc').
  - lia.
  - intros i Hi. assert (i = 0%nat) as -> by lia. reflexivity.
  - reflexivity.
  - exists c'. split; [exact E|exact Hc'].
Defined.

(** ** The multimodal cache *)

(** C40: after any calls the multimodal cache holds one entry per hash, each stored by an
    earlier [set], counts exactly the bytes of its entries and stays within its limit, and
    its entries are in the order of their last use, where the use of a hash is a [get], a
    [get_single] or a [set] of it in the history of calls.  A new embedding that is not
    larger than the limit is stored as the most recent entry; those that leave for it were
    all used before every one that stays, and are no more than needed; a larger one is
    refused, after every entry has left. *)
Theorem mm_cache_lru py_hash ops limit h e :
  0 <= limit →
  let c := foldl (λ c o, mm_step py_hash o c) (init_mm limit) ops in
  mm_ok c ∧ max_size c = limit ∧ mm_recent py_hash ops (mm_cache c)
  ∧ (mm_has h c = false →
     let '(ok, c') := mm_set h e c in
     ok = bool_decide (tensor_size e <= limit)
     ∧ ∃ gone rest, mm_cache c = gone ++ rest ∧ mm_cache c' = rest ++ (if ok then [(h, e)] else [])
         ∧ (∀ x y, x ∈ gone → y ∈ rest → (last_use py_hash x.1 ops < last_use py_hash y.1 ops)%nat)
         ∧ (ok = false → rest = [])
         ∧ ∀ g x, gone = g ++ [x] → limit < entries_size (x :: rest) + tensor_size e).
Proof.
  intros Hl c. assert (mm_ok c ∧ max_size c = limit ∧ mm_recent py_hash ops (mm_cache c)) as (Hok & Hmax & Hrec).
  { unfold c. clear c. induction ops as [|o ops IH] using rev_ind.
    - split_and!; [|done|]; split; simpl; (constructor || done).
    - rewrite foldl_app. destruct IH as (IH & Hmax & Hrec). simpl.
      destruct (mm_step_ok py_hash o _ ltac:(by rewrite Hmax) IH) as [Hok ->]. split_and!; [done|done|by apply mm_step_recent]. }
  split_and!; [done|done|done|]. unfold mm_has, mm_set. destruct (dict_get h (mm_cache c)); [done|]. intros _.
  pose proof (make_room_spec (max_size c) (tensor_size e) (mm_cache c) (current_size c) (mo_size _ Hok)) as Hr.
  rewrite Hmax in *. destruct (make_room limit (tensor_size e) (mm_cache c) (current_size c)) as [[ok rest] cur].
  destruct Hr as (gone & Hgone & _ & Hb & _ & Hno & Hmin); [unfold tensor_size; lia|].
  assert (∀ x y, x ∈ gone → y ∈ rest → older py_hash ops x y) as Hold.
  { intros x y Hx Hy. destruct Hrec as [Hs _]. rewrite Hgone in Hs. by eapply StronglySorted_app_1_elem_of. }
  destruct ok; (split; [done|]); exists gone, rest; split_and!; try done. simpl. by rewrite app_nil_r.
Qed.

Definition emb (n : nat) : Embedding := MkEmbedding 2 n (Z.of_nat n).

(** Reading the oldest entry saves it: the next oldest one leaves. *)
Lemma mm_cache_lru_witness :
  let c := foldl (λ c o, mm_step (λ _, 0) o c) (init_mm 10) [OpSet 1 (emb 2); OpSet 2 (emb 2); OpGetSingle 1] in
  mm_ok c ∧ (mm_cache (mm_set 3 (emb 3) c).2).*1 = [1; 3].
Proof.
  intros c. destruct (mm_cache_lru (λ _, 0) [OpSet 1 (emb 2); OpSet 2 (emb 2); OpGetSingle 1] 10 3 (emb 3)) as (Hok & _ & _ & _).
  - lia.
  - split; [exact Hok|vm_compute; reflexivity].
Defined.

(** ** LoRA adapters *)

(** C27: a LoRA batch of known adapters that [validate_lora_batch] accepts can be fetched in
    every reachable state exactly if the weights of those of its adapters that are not in a
    slot can be loaded (their names match target modules, the tensors fit); [fetch_new_loras]
    then returns: each adapter of the batch has a slot of its own; the batch and the pinned
    adapters that were in slots keep them; those who leave are the first in the order of the
    eviction policy among those the batch does not need; and exactly the adapters that were
    missing are copied, each to its slot. *)
Theorem lora_batch_fits pc n m ids pool :
  lora_reachable pc n m → memory_pool m = Some pool → NoDup ids → (∀ s, Some s ∈ ids → is_Some (loras m !! s)) →
  validate_lora_batch ids m = Ok (true, m) →
  let keep := kept ids (lora_refs m) in
  ((∃ m', fetch_new_loras pc ids m = Ok (tt, m'))
     ↔ ∀ s, Some s ∈ ids → uid_to_buffer_id pool !! Some s = None → loadable pc (loras m) s)
  ∧ ∀ m', fetch_new_loras pc ids m = Ok (tt, m') → ∃ pool', memory_pool m' = Some pool'
    ∧ (∀ u, u ∈ ids → ∃ b, uid_to_buffer_id pool' !! u = Some b ∧ buffer_id_to_uid pool' !! b = Some (Some u))
    ∧ (∀ u b, u ∈ keep → uid_to_buffer_id pool !! u = Some b → uid_to_buffer_id pool' !! u = Some b)
    ∧ (∃ k, evictable keep pool' = drop k (evictable keep pool))
    ∧ ∃ new, loads pool' = loads pool ++ new ∧ (∀ u, u ∈ new.*1 ↔ u ∈ ids ∧ uid_to_buffer_id pool !! u = None)
        ∧ Forall (λ x, uid_to_buffer_id pool' !! x.1 = Some x.2) new.
Proof.
  intros Hr Hp Hnd Hk Hv keep. pose proof (lora_reachable_ok _ _ _ Hr) as Hok. destruct (validate_fits m m ids Hok Hnd Hk Hv) as [Hsize Hlen].
  split.
  { split; [intros [m' E]; by eapply fetch_loadable|]. intros Hload.
    destruct (wp_ok _ _ _ (wp_fetch pc m ids pool Hok Hp Hnd Hload Hsize Hlen)) as ([] & m' & E & _). by exists m'. }
  intros m' E. pose proof (fetch_loadable pc m m' ids pool Hok Hp Hnd Hsize E) as Hload.
  destruct (wp_ok _ _ _ (wp_fetch pc m ids pool Hok Hp Hnd Hload Hsize Hlen)) as ([] & m2 & E2 & Hok' & pool' & Hp' & [Hall Htk Hloads]).
  rewrite E in E2. injection E2 as <-. exists pool'. split_and!; [done| | |apply Htk|done].
  - intros u Hu. destruct (Hall u Hu) as [b Hb]. exists b. split; [done|]. by apply (po_inverse _ _ (mg_pool _ Hok' _ Hp')).
  - intros u b Hu Hb. rewrite (tk_keep _ _ _ Htk); [done|done|by rewrite Hb].
Qed.

Definition ref_of (id : string) (pin : bool) : LoRARef := MkLoRARef id id id pin.
(** A model of one layer with LoRA on [q_proj], loaded strictly, and an adapter for it. *)
Definition pc1 : PoolConfig := MkPoolConfig ["q_proj"%string] true 1.
Definition adapter1 : LoRAAdapter := MkLoRAAdapter [MkLoRALayer ["layers.0.q_proj.lora_A"%string] (Ok tt)] (Ok tt) [].
Definition loaded (id : string) (pin : bool) : ST LoRAManager unit :=
  _ ← load_lora_adapter (Ok (MkLoRAConfig 0 false true)) (Ok adapter1) (ref_of id pin); mret tt.
Definition lora_ops : list (ST LoRAManager unit) :=
  [loaded "a" true; init_memory_pool pc1 "lru"; loaded "b" false; loaded "c" false; fetch_new_loras pc1 [Some "a"; Some "b"]].
Definition run_lora (m : LoRAManager) (op : ST LoRAManager unit) : LoRAManager :=
  match op m with Ok (_, m') => m' | _ => m end.

(** Three slots hold the base model, the pinned adapter [a] and [b]; a batch with [c] and the
    base model evicts [b]. *)
Definition lora3 : LoRAManager := foldl run_lora (new_lora_manager 3) lora_ops.

Lemma lora3_reachable : lora_reachable pc1 3 lora3.
Proof.
  eapply rtc_l; [eapply (StepLoad pc1 (Ok (MkLoRAConfig 0 false true)) (Ok adapter1) (ref_of "a" true)); vm_compute; reflexivity|].
  eapply rtc_l; [eapply (StepInit pc1 "lru"); vm_compute; reflexivity|].
  eapply rtc_l; [eapply (StepLoad pc1 (Ok (MkLoRAConfig 0 false true)) (Ok adapter1) (ref_of "b" false)); vm_compute; reflexivity|].
  eapply rtc_l; [eapply (StepLoad pc1 (Ok (MkLoRAConfig 0 false true)) (Ok adapter1) (ref_of "c" false)); vm_compute; reflexivity|].
  eapply rtc_l; [eapply (StepFetch pc1 [Some "a"%string; Some "b"%string])|vm_compute; apply rtc_refl].
  - apply (bool_decide_unpack _). vm_compute. exact I.
  - intros s Hs. rewrite !elem_of_cons, elem_of_nil in Hs. destruct Hs as [[= ->]|[[= ->]|[]]]; vm_compute; eauto.
  - vm_compute. reflexivity.
  - vm_compute. reflexivity.
Qed.

Lemma lora_batch_fits_witness :
  ∃ m' pool', fetch_new_loras pc1 [None; Some "c"%string] lora3 = Ok (tt, m') ∧ memory_pool m' = Some pool'
    ∧ buffer_id_to_uid pool' = [Some None; Some (Some "a"%string); Some (Some "c"%string)]
    ∧ ∃ k, evictable (kept [None; Some "c"%string] (lora_refs lora3)) pool' = drop k ["b"%string].
Proof.
  destruct (memory_pool lora3) as [pool|] eqn:Hp; [|exfalso; vm_compute in Hp; discriminate].
  destruct (lora_batch_fits pc1 3 lora3 [None; Some "c"%string] pool) as [[_ Hret] Hpost].
  - exact lora3_reachable.
  - exact Hp.
  - apply (bool_decide_unpack _). vm_compute. exact I.
  - intros s Hs. rewrite !elem_of_cons, elem_of_nil in Hs. destruct Hs as [?|[[= ->]|[]]]; [discriminate|]. vm_compute. eauto.
  - vm_compute. reflexivity.
  - destruct Hret as [m' E].
    { intros s Hs _. rewrite !elem_of_cons, elem_of_nil in Hs. destruct Hs as [?|[[= ->]|[]]]; [discriminate|].
      exists adapter1. split; vm_compute; reflexivity. }
    destruct (Hpost m' E) as (pool' & Hp' & _ & _ & Hev & _). exists m', pool'. split; [exact E|]. split; [exact Hp'|]. split.
    + vm_compute in E. injection E as <-. injection Hp' as <-. reflexivity.
    + destruct Hev as [k Hk]. exists k. rewrite Hk. f_equal. vm_compute in Hp. injection Hp as <-. vm_compute. reflexivity.
Defined.
