(* ===== verification/Eplb.v ===== *)
(** Expert placement: eplb/eplb_algorithms/deepseek.py.

    A tensor of one dimension is a list, an int64 is a [Z], and a weight is an exact
    rational.  [balanced_packing] and [replicate_experts] treat each row of their argument
    by itself; the definitions here are for one row. *)
From S2P Require Import Prelude.
From Stdlib Require Import QArith.
From stdpp Require Import options.
Local Open Scope Z_scope.

(** ** Tensor operations *)

(** What torch leaves open: the order of equal elements in a sort that is not stable, which
    of several largest elements [max] points at, and the contents of new memory. *)
Class Torch := {
  argsort_desc : list Q → list nat;
  argmax : list Q → nat;
  torch_empty : nat → list Z;
}.
Class TorchLaws (t : Torch) : Prop := {
  argsort_perm w : argsort_desc w ≡ₚ seq 0 (length w);
  argmax_largest w : w ≠ [] → ∃ m, w !! argmax w = Some m ∧ Forall (λ x, Qle x m) w;
  torch_empty_length n : length (torch_empty n) = n;
}.

Definition at_index {A} (l : list A) (i : Z) : result A :=
  if bool_decide (0 <= i) then unwrap IndexError (l !! Z.to_nat i) else Raise IndexError.
(** [l.gather(-1, idx)] *)
Definition gather {A} (l : list A) (idx : list Z) : result (list A) := mapM (at_index l) idx.
(** [dst.scatter_(-1, idx, src)] *)
Fixpoint scatter {A} (idx : list Z) (src dst : list A) : result (list A) :=
  match idx, src with
  | i :: idx, v :: src =>
      if bool_decide (0 <= i < Z.of_nat (length dst)) then scatter idx src (<[Z.to_nat i := v]> dst)
      else Raise IndexError
  | _, _ => Ok dst
  end.
(** [l.view(m, k)], [l.unflatten(-1, (m, k))] *)
Fixpoint unflatten {A} (m k : nat) (l : list A) : list (list A) :=
  match m with O => [] | S m => take k l :: unflatten m k (drop k l) end.
Definition qsum (l : list Q) : Q := foldr Qplus 0%Q l.
Definition qdiv (w : Q) (c : Z) : Q := (w / inject_Z c)%Q.

(** [assert a % b == 0] *)
Definition assert_divides (a b : nat) : result unit :=
  if decide (b = 0%nat) then Raise ZeroDivisionError else py_assert (bool_decide (Nat.modulo a b = 0%nat)).

Section eplb.
Context {torch : Torch}.

(** ** balanced_packing *)
Record Packing := MkPacking {
  pack_weights : list Q; pack_items : list Z; pack_index : list Z; rank_in_pack : list Z;
}.

(** [min(js, key=pack_weights.__getitem__)], [best] being the least so far. *)
Fixpoint min_by (key : nat → Q) (best : nat) (js : list nat) : nat :=
  match js with
  | [] => best
  | j :: js => if Qle_bool (key best) (key j) then min_by key best js else min_by key j js
  end.

(** One turn of the loop over the groups. *)
Definition pack_group (cap : Z) (weight : list Q) (group : nat) (s : Packing) : result Packing :=
  match filter (λ j, pack_items s !!! j < cap) (seq 0 (length (pack_items s))) with
  | [] => Raise ValueError
  | j :: js =>
      let pack := min_by (λ j, default 0%Q (pack_weights s !! j)) j js in
      w ← unwrap IndexError (weight !! group);
      items ← unwrap IndexError (pack_items s !! pack);
      _ ← py_assert (bool_decide (items < cap));
      Ok (MkPacking (alter (λ x, (x + w)%Q) pack (pack_weights s)) (<[pack := items + 1]> (pack_items s))
            (<[group := Z.of_nat pack]> (pack_index s)) (<[group := items]> (rank_in_pack s)))
  end.
Fixpoint pack_groups (cap : Z) (weight : list Q) (groups : list nat) (s : Packing) : result Packing :=
  match groups with
  | [] => Ok s
  | g :: groups => s ← pack_group cap weight g s; pack_groups cap weight groups s
  end.
Definition balanced_packing (weight : list Q) (num_packs : nat) : result (list Z * list Z) :=
  let num_groups := length weight in
  _ ← assert_divides num_groups num_packs;
  let groups_per_pack := Nat.div num_groups num_packs in
  if decide (groups_per_pack = 1%nat) then Ok (seqZ 0 (Z.of_nat num_groups), replicate num_groups 0)
  else
    s ← pack_groups (Z.of_nat groups_per_pack) weight (argsort_desc weight)
          (MkPacking (replicate num_packs 0%Q) (replicate num_packs 0) (replicate num_groups (-1)) (replicate num_groups (-1)));
    Ok (pack_index s, rank_in_pack s).

(** ** replicate_experts *)
Record Replicas := MkReplicas { phy2log : list Z; rank : list Z; logcnt : list Z }.

(** The turns of the loop for the physical experts [i], [i + 1], ..., [k] of them. *)
Fixpoint replicate_loop (weight : list Q) (i k : nat) (s : Replicas) : result Replicas :=
  match k with
  | O => Ok s
  | S k =>
      let redundant := argmax (zip_with qdiv weight (logcnt s)) in
      c ← unwrap IndexError (logcnt s !! redundant);
      replicate_loop weight (S i) k
        (MkReplicas (<[i := Z.of_nat redundant]> (phy2log s)) (<[i := c]> (rank s)) (<[redundant := c + 1]> (logcnt s)))
  end.
Definition replicate_experts (weight : list Q) (num_phy : nat) : result Replicas :=
  let num_log := length weight in
  _ ← py_assert (bool_decide (num_log ≤ num_phy)%nat);
  replicate_loop weight num_log (num_phy - num_log)
    (MkReplicas (seqZ 0 (Z.of_nat num_phy)) (replicate num_phy 0) (replicate num_log 1)).

(** ** rebalance_experts_hierarchical, one layer *)
Definition inverse (perm : list Z) : result (list Z) :=
  scatter perm (seqZ 0 (Z.of_nat (length perm))) (torch_empty (length perm)).

(** Steps 2 and 3 for the experts of one node: which of them each place holds, as which
    replica, and how many replicas each has. *)
Definition place_node (phy_per_node gpus_per_node phy_experts_per_gpu : nat) (tokens_per_mlog : list Q) : result Replicas :=
  s ← replicate_experts tokens_per_mlog phy_per_node;
  tokens_per_phy ← gather (zip_with qdiv tokens_per_mlog (logcnt s)) (phy2log s);
  p ← balanced_packing tokens_per_phy gpus_per_node;
  let phy2pphy := zip_with (λ pack r, pack * Z.of_nat phy_experts_per_gpu + r) p.1 p.2 in
  pphy2phy ← inverse phy2pphy;
  pphy2mlog ← gather (phy2log s) pphy2phy;
  pphyrank ← gather (rank s) pphy2phy;
  Ok (MkReplicas pphy2mlog pphyrank (logcnt s)).

Definition log2mlog_of (groups_per_node group_size : nat) (packs ranks : list Z) : list Z :=
  concat (zip_with (λ p r, (λ j, (p * Z.of_nat groups_per_node + r) * Z.of_nat group_size + j) <$> seqZ 0 (Z.of_nat group_size)) packs ranks).

Definition rebalance_experts_hierarchical (weight : list Q) (num_physical_experts num_groups num_nodes num_gpus : nat) : result Replicas :=
  let num_logical_experts := length weight in
  _ ← assert_divides num_logical_experts num_groups;
  let group_size := Nat.div num_logical_experts num_groups in
  _ ← assert_divides num_groups num_nodes;
  let groups_per_node := Nat.div num_groups num_nodes in
  _ ← assert_divides num_gpus num_nodes;
  _ ← assert_divides num_physical_experts num_gpus;
  let phy_experts_per_gpu := Nat.div num_physical_experts num_gpus in
  let log_per_node := Nat.div num_logical_experts num_nodes in
  (* Step 1: pack groups to nodes *)
  p ← balanced_packing (qsum <$> unflatten num_groups group_size weight) num_nodes;
  let log2mlog := log2mlog_of groups_per_node group_size p.1 p.2 in
  mlog2log ← inverse log2mlog;
  (* Steps 2 and 3, node by node *)
  tokens ← gather weight mlog2log;
  nodes ← mapM (place_node (Nat.div num_physical_experts num_nodes) (Nat.div num_gpus num_nodes) phy_experts_per_gpu)
            (unflatten num_nodes log_per_node tokens);
  let pphy2mlog := concat (zip_with (λ o row, Z.add o <$> row)
                     ((λ k, k * Z.of_nat log_per_node) <$> seqZ 0 (Z.of_nat num_nodes)) (phy2log <$> nodes)) in
  pphy2log ← gather mlog2log pphy2mlog;
  logcnt' ← gather (concat (logcnt <$> nodes)) log2mlog;
  Ok (MkReplicas pphy2log (concat (rank <$> nodes)) logcnt').

(** ** rebalance_experts *)
Record Placement := MkPlacement { physical_to_logical : list Z; logical_to_physical : list (list Z); expert_count : list Z }.

Definition zmax_list (l : list Z) : Z := foldr Z.max 0 l.

Definition layer_maps (num_replicas : nat) (maxlogcnt : Z) (s : Replicas) : result Placement :=
  let num_logical_experts := length (logcnt s) in
  log2phy ← scatter (zip_with (λ l r, l * maxlogcnt + r) (phy2log s) (rank s)) (seqZ 0 (Z.of_nat num_replicas))
              (replicate (num_logical_experts * Z.to_nat maxlogcnt) (-1));
  Ok (MkPlacement (phy2log s) (unflatten num_logical_experts (Z.to_nat maxlogcnt) log2phy) (logcnt s)).

Definition rebalance_experts (weight : list (list Q)) (num_replicas num_groups num_nodes num_gpus : nat) (enable_hierarchical : bool)
    : result (list Placement) :=
  layers ← mapM (λ w,
    if enable_hierarchical then rebalance_experts_hierarchical w num_replicas num_groups num_nodes num_gpus
    else rebalance_experts_hierarchical w num_replicas 1 1 num_gpus) weight;
  let maxlogcnt := zmax_list (concat (logcnt <$> layers)) in
  mapM (layer_maps num_replicas maxlogcnt) layers.
End eplb.
