(* ===== verification/EplbInv.v ===== *)
(** Lemmas on expert placement: every routine of Eplb returns, and the replicas it lists are
    exactly the pairs of an expert and a replica number, each once. *)
From S2P Require Import Prelude Eplb.
From Stdlib Require Import QArith Lqa.
From stdpp Require Import options.
Local Open Scope Z_scope.

#[global] Instance Q_inhabited : Inhabited Q := populate 0%Q.

(** ** Gather and scatter *)

(** [idx] lists the indices of [l]. *)
Lemma at_index_ok {A} (l : list A) i : 0 <= i < Z.of_nat (length l) → ∃ x, at_index l i = Ok x ∧ l !! Z.to_nat i = Some x.
Proof.
  intros Hi. destruct (lookup_lt_is_Some_2 l (Z.to_nat i)) as [x Hx]; [lia|]. exists x.
  unfold at_index. by rewrite bool_decide_true, Hx by lia.
Qed.

Lemma gather_spec {A} `{Inhabited A} (l : list A) idx :
  Forall (λ i, 0 <= i < Z.of_nat (length l)) idx → gather l idx = Ok ((λ i, l !!! Z.to_nat i) <$> idx).
Proof.
  unfold gather. induction 1 as [|i idx Hi _ IH]; [done|]. destruct (at_index_ok l i Hi) as (x & E & Hx).
  simpl. rewrite E. simpl. rewrite IH. simpl. by rewrite (list_lookup_total_correct _ _ _ Hx).
Qed.

Lemma scatter_length {A} idx : ∀ (src dst dst' : list A), scatter idx src dst = Ok dst' → length dst' = length dst.
Proof.
  induction idx as [|i idx IH]; intros [|v src] dst dst' E; simpl in E; try (by injection E as ->).
  case_bool_decide; [|done]. apply IH in E. by rewrite length_insert in E.
Qed.

(** Scattering to distinct indices writes each value once and nothing else. *)
Lemma scatter_spec {A} idx : ∀ (src dst : list A),
  Forall (λ i, 0 <= i < Z.of_nat (length dst)) idx → NoDup idx → length src = length idx →
  ∃ dst', scatter idx src dst = Ok dst' ∧ length dst' = length dst
    ∧ (∀ k i v, idx !! k = Some i → src !! k = Some v → dst' !! Z.to_nat i = Some v)
    ∧ (∀ n, Z.of_nat n ∉ idx → dst' !! n = dst !! n).
Proof.
  induction idx as [|i idx IH]; intros [|v src] dst Hr Hnd Hlen; try done.
  - exists dst. done.
  - inversion Hr as [|? ? Hi Hr']; subst. inversion Hnd as [|? ? Hni Hnd']; subst.
    destruct (IH src (<[Z.to_nat i := v]> dst)) as (dst' & E & Hl & Hw & Hk).
    { by rewrite length_insert. } { done. } { simpl in Hlen. lia. }
    exists dst'. simpl. rewrite bool_decide_true by done. split_and!; [done|by rewrite length_insert in Hl| |].
    + intros [|k] i' v' Hi' Hv'; simpl in Hi', Hv'; [|by eapply Hw]. injection Hi' as <-. injection Hv' as <-.
      rewrite Hk by (by rewrite Z2Nat.id by lia). apply list_lookup_insert_eq. lia.
    + intros n Hn. rewrite not_elem_of_cons in Hn. rewrite Hk by apply Hn. apply list_lookup_insert_ne. lia.
Qed.

Lemma seqZ_elem n i : i ∈ seqZ 0 n ↔ 0 <= i < n.
Proof. rewrite elem_of_seqZ. lia. Qed.
Lemma perm_range l n : l ≡ₚ seqZ 0 n → Forall (λ i, 0 <= i < n) l.
Proof. intros ->. apply Forall_forall. intros i Hi. by apply seqZ_elem. Qed.
Lemma perm_length l n : l ≡ₚ seqZ 0 (Z.of_nat n) → length l = n.
Proof. intros ->. rewrite length_seqZ. lia. Qed.

(** The inverse of a permutation. *)
Lemma inverse_spec {torch : Torch} {laws : TorchLaws torch} perm n :
  perm ≡ₚ seqZ 0 (Z.of_nat n) →
  ∃ inv, inverse perm = Ok inv ∧ length inv = n ∧ inv ≡ₚ seqZ 0 (Z.of_nat n)
    ∧ (∀ i, 0 <= i < Z.of_nat n → inv !!! Z.to_nat (perm !!! Z.to_nat i) = i).
Proof.
  intros Hp. pose proof (perm_length _ _ Hp) as Hlen.
  destruct (scatter_spec perm (seqZ 0 (Z.of_nat (length perm))) (torch_empty (length perm))) as (inv & E & Hl & Hw & _).
  { rewrite torch_empty_length, Hlen. by apply perm_range. }
  { rewrite Hp. apply NoDup_seqZ. }
  { rewrite length_seqZ. lia. }
  rewrite torch_empty_length, Hlen in Hl.
  assert (∀ i, 0 <= i < Z.of_nat n → inv !!! Z.to_nat (perm !!! Z.to_nat i) = i) as Hinv.
  { intros i Hi. apply list_lookup_total_correct. eapply (Hw (Z.to_nat i)).
    - apply list_lookup_lookup_total_lt. lia.
    - rewrite lookup_seqZ_lt by lia. f_equal. lia. }
  exists inv. split_and!; [done|done| |done].
  assert (seqZ 0 (Z.of_nat n) ⊆ inv) as Hsub.
  { intros i Hi%seqZ_elem. rewrite <-(Hinv i) by done. apply list_elem_of_lookup_total_2. rewrite Hl.
    assert (0 <= perm !!! Z.to_nat i < Z.of_nat n); [|lia].
    eapply Forall_lookup_total_1; [by apply perm_range|lia]. }
  symmetry. apply submseteq_length_Permutation; [|rewrite length_seqZ; lia].
  apply NoDup_submseteq; [apply NoDup_seqZ|done].
Qed.

(** ** Replicas as pairs *)

(** The pairs of an expert, counted from [b], and a replica number below its count. *)
Fixpoint pairs_from (b : Z) (cnt : list Z) : list (Z * Z) :=
  match cnt with [] => [] | c :: cnt => (pair b <$> seqZ 0 c) ++ pairs_from (b + 1) cnt end.

Lemma elem_of_pairs cnt : ∀ b l r,
  (l, r) ∈ pairs_from b cnt ↔ ∃ i c, l = b + Z.of_nat i ∧ cnt !! i = Some c ∧ 0 <= r < c.
Proof.
  induction cnt as [|c cnt IH]; intros b l r; simpl.
  - rewrite elem_of_nil. split; [done|]. by intros (i & c & _ & Hc & _).
  - rewrite elem_of_app, list_elem_of_fmap, IH. split.
    + intros [(r' & [= -> ->] & Hr%seqZ_elem)|(i & c' & -> & Hc & Hr)].
      * exists 0%nat, c. split_and!; [lia|done|lia|lia].
      * exists (S i), c'. split_and!; [lia|done|lia|lia].
    + intros ([|i] & c' & -> & Hc & Hr); simpl in Hc.
      * injection Hc as ->. left. exists r. split; [f_equal; lia|by apply seqZ_elem].
      * right. exists i, c'. split_and!; [lia|done|lia|lia].
Qed.

Lemma NoDup_pairs cnt : ∀ b, NoDup (pairs_from b cnt).
Proof.
  induction cnt as [|c cnt IH]; intros b; simpl; [constructor|]. apply NoDup_app. split_and!; [|intros [l r]|done].
  - apply (NoDup_fmap_2 (pair b)), NoDup_seqZ.
  - rewrite list_elem_of_fmap, elem_of_pairs. intros (r' & [= -> ->] & _) (i & c' & Hl & _). lia.
Qed.

Lemma pairs_app cnt1 : ∀ b cnt2, pairs_from b (cnt1 ++ cnt2) = pairs_from b cnt1 ++ pairs_from (b + Z.of_nat (length cnt1)) cnt2.
Proof.
  induction cnt1 as [|c cnt1 IH]; intros b cnt2; simpl; [by rewrite Z.add_0_r|].
  rewrite IH, app_assoc. do 2 f_equal. lia.
Qed.

Lemma pairs_shift cnt : ∀ b d, pairs_from (d + b) cnt = prod_map (Z.add d) id <$> pairs_from b cnt.
Proof.
  induction cnt as [|c cnt IH]; intros b d; simpl; [done|]. rewrite fmap_app, <-IH, <-list_fmap_compose.
  f_equal. f_equal. lia.
Qed.

(** One more replica of expert [k]. *)
Lemma pairs_bump cnt : ∀ b k c,
  cnt !! k = Some c → 0 <= c → pairs_from b (<[k := c + 1]> cnt) ≡ₚ (b + Z.of_nat k, c) :: pairs_from b cnt.
Proof.
  induction cnt as [|c' cnt IH]; intros b [|k] c Hk Hc; try done; simpl in Hk |- *.
  - injection Hk as ->. replace (seqZ 0 (c + 1)) with (seqZ 0 c ++ [c]).
    + rewrite fmap_app, Z.add_0_r. rewrite <-app_assoc. symmetry. apply Permutation_middle.
    + replace c with (Z.of_nat (Z.to_nat c)) by lia. rewrite <-(seqZ_S 0). f_equal. lia.
  - rewrite (IH (b + 1) k c) by done. replace (b + 1 + Z.of_nat k) with (b + Z.of_nat (S k)) by lia.
    by rewrite <-Permutation_middle.
Qed.

Lemma pairs_ones n : ∀ b, pairs_from b (replicate n 1) = (λ l, (l, 0)) <$> seqZ b (Z.of_nat n).
Proof.
  induction n as [|n IH]; intros b; [done|]. rewrite seqZ_cons by lia. simpl. rewrite IH. f_equal. f_equal. f_equal; lia.
Qed.
Lemma pairs_zeros n : ∀ b, pairs_from b (replicate n 0) = [].
Proof. induction n; intros b; simpl; auto. Qed.

(** Numbering the pairs of [n] experts with [g] replicas each. *)
Lemma pairs_numbered n g : 0 <= g → ∀ b,
  (λ x, x.1 * g + x.2) <$> pairs_from b (replicate n g) = seqZ (b * g) (Z.of_nat n * g).
Proof.
  intros Hg. induction n as [|n IH]; intros b; [done|]. simpl. rewrite fmap_app, IH, <-list_fmap_compose.
  replace ((λ x : Z * Z, x.1 * g + x.2) ∘ pair b) with (Z.add (b * g)) by done. rewrite fmap_add_seqZ, Z.add_0_r.
  replace (Z.of_nat (S n) * g) with (g + Z.of_nat n * g) by lia. rewrite seqZ_app by nia. do 2 f_equal; lia.
Qed.

(** *** Sums of counts *)
Definition zsum (l : list Z) : Z := foldr Z.add 0 l.

Lemma length_pairs cnt : ∀ b, Forall (λ c, 0 <= c) cnt → Z.of_nat (length (pairs_from b cnt)) = zsum cnt.
Proof.
  induction cnt as [|c cnt IH]; intros b Hc; simpl; [done|]. inversion Hc; subst.
  rewrite length_app, length_fmap, length_seqZ, Nat2Z.inj_add, IH by done. unfold zsum. simpl. lia.
Qed.

Lemma zsum_full cap l : Forall (λ x, cap <= x) l → cap * Z.of_nat (length l) <= zsum l.
Proof. induction 1 as [|x l Hx _ IH]; unfold zsum in *; simpl in *; lia. Qed.

Lemma zsum_all cap l : Forall (λ x, x <= cap) l → zsum l = cap * Z.of_nat (length l) → l = replicate (length l) cap.
Proof.
  assert (∀ l, Forall (λ x, x <= cap) l → zsum l <= cap * Z.of_nat (length l)) as Hle.
  { induction 1 as [|x k Hx _ IH]; unfold zsum in *; simpl in *; lia. }
  induction 1 as [|x k Hx Hk IH]; intros Hs; [done|]. pose proof (Hle k Hk) as Hk'.
  unfold zsum in *. simpl in *. rewrite <-IH by lia. f_equal. lia.
Qed.

(** A list with a larger sum is larger somewhere; so is one with the same sum that is
    smaller somewhere. *)
Lemma zsum_larger l : ∀ l',
  length l = length l' → zsum l' < zsum l → ∃ j y y', l !! j = Some y ∧ l' !! j = Some y' ∧ y' < y.
Proof.
  induction l as [|y l IH]; intros [|y' l'] Hlen Hs; try done. unfold zsum in *. simpl in *.
  destruct (decide (y' < y)) as [Hy|Hy]; [by exists 0%nat, y, y'|].
  destruct (IH l') as (j & z & z' & ? & ? & ?); [lia|lia|]. by exists (S j), z, z'.
Qed.
Lemma zsum_exchange l l' i x x' :
  length l = length l' → zsum l = zsum l' → l !! i = Some x → l' !! i = Some x' → x < x' →
  ∃ j y y', l !! j = Some y ∧ l' !! j = Some y' ∧ y' < y.
Proof.
  intros Hlen Hs Hi Hi' Hx. destruct (zsum_larger (<[i := x']> l) l') as (j & y & y' & Hj & Hj' & Hy).
  - by rewrite length_insert.
  - assert (∀ k i x, k !! i = Some x → zsum (<[i := x']> k) = zsum k + (x' - x)) as Hins; [|rewrite (Hins _ _ _ Hi); lia].
    unfold zsum. clear. induction k as [|y k IH]; intros [|i] x Hi; simplify_eq/=; [lia|]. rewrite (IH i x) by done. lia.
  - exists j, y, y'. destruct (decide (j = i)) as [->|Hne].
    + rewrite list_lookup_insert_eq in Hj by (by eapply lookup_lt_Some). simplify_eq. lia.
    + by rewrite list_lookup_insert_ne in Hj.
Qed.

(** ** Packing *)

Lemma min_by_in key js : ∀ best, min_by key best js ∈ best :: js.
Proof.
  induction js as [|j js IH]; intros best; simpl; [set_solver|].
  destruct (Qle_bool _ _); [specialize (IH best)|specialize (IH j)]; set_solver.
Qed.

(** [seen] are the groups that have been packed. *)
Record packed (n np : nat) (cap : Z) (seen : list nat) (s : Packing) : Prop := {
  pk_index : length (pack_index s) = n;
  pk_rank : length (rank_in_pack s) = n;
  pk_items : length (pack_items s) = np;
  pk_cap : Forall (λ x, 0 <= x <= cap) (pack_items s);
  pk_pairs : (λ g, (pack_index s !!! g, rank_in_pack s !!! g)) <$> seen ≡ₚ pairs_from 0 (pack_items s);
}.

Lemma packed_sum n np cap seen s : packed n np cap seen s → zsum (pack_items s) = Z.of_nat (length seen).
Proof.
  intros [_ _ _ Hc Hp]. rewrite <-(length_pairs _ 0), <-Hp, length_fmap; [done|].
  eapply Forall_impl; [exact Hc|]. simpl. lia.
Qed.

Lemma pack_group_spec n np cap w seen g s :
  packed n np cap seen s → length w = n → (g < n)%nat → g ∉ seen → Z.of_nat (length seen) < cap * Z.of_nat np →
  ∃ s', pack_group cap w g s = Ok s' ∧ packed n np cap (g :: seen) s'.
Proof.
  intros Hpk Hw Hg Hnew Hroom. pose proof (packed_sum _ _ _ _ _ Hpk) as Hsum. destruct Hpk as [Hi Hr Hn Hc Hp].
  unfold pack_group. destruct (filter _ _) as [|j js] eqn:E.
  { exfalso. assert (Forall (λ x, cap <= x) (pack_items s)) as Hfull; [|apply zsum_full in Hfull; lia].
    apply Forall_lookup. intros i x Hx. pose proof (lookup_lt_Some _ _ _ Hx).
    assert (i ∉ filter (λ j, pack_items s !!! j < cap) (seq 0 (length (pack_items s)))) as Hno by (rewrite E; set_solver).
    rewrite list_elem_of_filter, elem_of_seq, (list_lookup_total_correct _ _ _ Hx) in Hno. lia. }
  set (pack := min_by _ _ _). assert (pack ∈ j :: js) as Hin by apply min_by_in.
  rewrite <-E, list_elem_of_filter, elem_of_seq in Hin. destruct Hin as [Hlt Hpack].
  destruct (lookup_lt_is_Some_2 w g) as [wg ->]; [lia|]. simpl.
  destruct (lookup_lt_is_Some_2 (pack_items s) pack) as [c Hk]; [lia|]. rewrite Hk. simpl.
  rewrite (list_lookup_total_correct _ _ _ Hk) in Hlt. unfold py_assert. rewrite bool_decide_true by done. simpl.
  pose proof (Forall_lookup_1 _ _ _ _ Hc Hk) as Hc0. simpl in Hc0.
  eexists. split; [done|]. split; simpl; try by rewrite length_insert.
  - apply Forall_insert; [done|lia].
  - rewrite (pairs_bump _ _ _ c) by (done || lia). rewrite !list_lookup_total_insert_eq by lia. constructor.
    rewrite <-Hp. apply Permutation_refl'. apply list_fmap_ext. intros k x Hx.
    assert (g ≠ x) by (intros ->; apply Hnew; by eapply list_elem_of_lookup_2).
    by rewrite !list_lookup_total_insert_ne.
Qed.

Lemma pack_groups_spec n np cap w groups : ∀ seen s,
  packed n np cap seen s → length w = n → Forall (λ g, (g < n)%nat) groups → NoDup (groups ++ seen) →
  Z.of_nat (length groups + length seen) <= cap * Z.of_nat np →
  ∃ s' seen', pack_groups cap w groups s = Ok s' ∧ seen' ≡ₚ groups ++ seen ∧ packed n np cap seen' s'.
Proof.
  induction groups as [|g groups IH]; intros seen s Hpk Hw Hg Hnd Hroom; simpl.
  - by exists s, seen.
  - simpl in Hnd, Hroom. inversion Hg as [|? ? Hg1 Hg2]; subst. apply NoDup_cons in Hnd as [Hn Hnd].
    destruct (pack_group_spec (length w) np cap w seen g s) as (s1 & -> & Hpk1); [done|done|done|set_solver|lia|].
    destruct (IH (g :: seen) s1) as (s2 & seen' & E & Hp & Hpk2); [done|done|done| |simpl; lia|].
    { rewrite <-Permutation_middle. by constructor. }
    exists s2, seen'. split_and!; [done| |done]. rewrite Hp. symmetry. apply Permutation_middle.
Qed.

Lemma zip_fmap_seq (xs ys : list Z) n :
  length xs = n → length ys = n → zip xs ys = (λ g, (xs !!! g, ys !!! g)) <$> seq 0 n.
Proof.
  intros Hx Hy. apply list_eq_same_length with (n := n); [by rewrite length_fmap, length_seq|rewrite length_zip_with; lia|].
  intros i [a b] [c d] Hi Hab Hcd. rewrite list_lookup_fmap, lookup_seq_lt in Hcd by done. injection Hcd as <- <-.
  apply lookup_zip_with_Some in Hab as (? & ? & [= <- <-] & Ha & Hb). by erewrite !list_lookup_total_correct.
Qed.

Lemma zip_zeros (l : list Z) : zip l (replicate (length l) 0) = (λ x, (x, 0)) <$> l.
Proof. induction l as [|x l IH]; [done|]. simpl. by f_equal. Qed.

Lemma divides_spec a b : b ≠ 0%nat → Nat.modulo a b = 0%nat → assert_divides a b = Ok tt.
Proof. intros Hb Ha. unfold assert_divides. by rewrite decide_False, bool_decide_true. Qed.

Section torch.
Context {torch : Torch} {laws : TorchLaws torch}.

(** Every group gets a place of its own, and the packs are full. *)
Lemma balanced_packing_spec w np :
  np ≠ 0%nat → Nat.modulo (length w) np = 0%nat →
  ∃ ps rs, balanced_packing w np = Ok (ps, rs) ∧ length ps = length w ∧ length rs = length w
    ∧ zip ps rs ≡ₚ pairs_from 0 (replicate np (Z.of_nat (Nat.div (length w) np))).
Proof using laws.
  intros Hnp Hmod. pose proof (Nat.div_mod_eq (length w) np) as Hdiv. rewrite Hmod, Nat.add_0_r in Hdiv.
  unfold balanced_packing. rewrite divides_spec by done. simpl. case_decide as E1.
  - assert (length w = np) as Hl by lia. eexists _, _. split; [done|].
    rewrite length_seqZ, length_replicate. split_and!; [lia|done|]. rewrite E1, Hl, pairs_ones.
    rewrite <-zip_zeros, length_seqZ, Nat2Z.id. done.
  - set (cap := Nat.div (length w) np) in *.
    destruct (pack_groups_spec (length w) np (Z.of_nat cap) w (argsort_desc w) []
      (MkPacking (replicate np 0%Q) (replicate np 0) (replicate (length w) (-1)) (replicate (length w) (-1))))
      as (s & seen & -> & Hseen & Hpk).
    + split; simpl; try by rewrite length_replicate.
      * apply Forall_replicate. lia.
      * by rewrite pairs_zeros.
    + done.
    + rewrite argsort_perm. apply Forall_seq. lia.
    + rewrite app_nil_r, argsort_perm. apply NoDup_seq.
    + rewrite argsort_perm, length_seq. simpl. nia.
    + rewrite app_nil_r, argsort_perm in Hseen. pose proof (packed_sum _ _ _ _ _ Hpk) as Hsum.
      rewrite Hseen, length_seq in Hsum. destruct Hpk as [Hi Hr Hn Hc Hp]. eexists _, _. split; [done|]. split_and!; [done|done|].
      rewrite (zip_fmap_seq _ _ (length w)), <-Hseen, Hp by done.
      rewrite (zsum_all (Z.of_nat cap) (pack_items s)); [by rewrite Hn| |rewrite Hn; nia].
      eapply Forall_impl; [exact Hc|]. simpl. lia.
Qed.

(** Numbering the places of a packing is a permutation. *)
Lemma packing_numbers n np ps rs :
  np ≠ 0%nat → Nat.modulo n np = 0%nat →
  zip ps rs ≡ₚ pairs_from 0 (replicate np (Z.of_nat (Nat.div n np))) →
  zip_with (λ p r, p * Z.of_nat (Nat.div n np) + r) ps rs ≡ₚ seqZ 0 (Z.of_nat n).
Proof using.
  intros Hnp Hmod Hz. pose proof (Nat.div_mod_eq n np) as Hdiv. rewrite Hmod, Nat.add_0_r in Hdiv.
  set (g := Nat.div n np) in *.
  replace (zip_with _ ps rs) with ((λ x, x.1 * Z.of_nat g + x.2) <$> zip ps rs).
  - rewrite Hz, pairs_numbered by lia. replace (0 * Z.of_nat g) with 0 by lia. by replace (Z.of_nat np * Z.of_nat g) with (Z.of_nat n) by nia.
  - clear. revert rs. induction ps as [|p ps IH]; intros [|r rs]; simpl; [done..|]. by rewrite IH.
Qed.

(** ** Replication *)

(** The first [i] places hold the replicas counted so far. *)
Record replicated (n N i : nat) (s : Replicas) : Prop := {
  re_phy : length (phy2log s) = N;
  re_rank : length (rank s) = N;
  re_cnt : length (logcnt s) = n;
  re_pos : Forall (λ c, 1 <= c) (logcnt s);
  re_pairs : zip (take i (phy2log s)) (take i (rank s)) ≡ₚ pairs_from 0 (logcnt s);
}.

(** No expert has a larger share than one that was given a replica had before it. *)
Definition greedy (w : list Q) (cnt : list Z) : Prop :=
  ∀ j k wj wk cj ck, w !! j = Some wj → w !! k = Some wk → cnt !! j = Some cj → cnt !! k = Some ck →
    2 <= cj → (qdiv wk ck <= qdiv wj (cj - 1))%Q.

Lemma qdiv_mono w c d : (0 <= w)%Q → 0 < c <= d → (qdiv w d <= qdiv w c)%Q.
Proof using.
  intros Hw Hc. unfold qdiv.
  assert (0 < inject_Z c)%Q as Hc0 by (unfold Qlt, inject_Z; simpl; lia).
  assert (inject_Z c <= inject_Z d)%Q as Hcd by (unfold Qle, inject_Z; simpl; lia).
  assert (inject_Z d * (w / inject_Z d) == w)%Q as Hd by (apply Qmult_div_r; lra).
  apply Qle_shift_div_l; [done|]. apply Qle_trans with (inject_Z d * (w / inject_Z d))%Q; [|lra].
  rewrite Qmult_comm. apply Qmult_le_compat_r; [done|]. apply Qle_shift_div_l; lra.
Qed.

Lemma greedy_bump w cnt k c :
  Forall (λ x, (0 <= x)%Q) w → length w = length cnt → Forall (λ c, 1 <= c) cnt → greedy w cnt → cnt !! k = Some c →
  Forall (λ x, (x <= default 0%Q (zip_with qdiv w cnt !! k))%Q) (zip_with qdiv w cnt) →
  greedy w (<[k := c + 1]> cnt).
Proof using.
  intros Hw Hlen Hpos Hg Hk Hmax j m wj wm cj cm Hwj Hwm Hcj Hcm H2.
  pose proof (Forall_lookup_1 _ _ _ _ Hpos Hk) as Hc. simpl in Hc.
  assert (∃ cm0, cnt !! m = Some cm0 ∧ (qdiv wm cm <= qdiv wm cm0)%Q) as (cm0 & Hcm0 & Hle).
  { apply list_lookup_insert_Some in Hcm as [(<- & <- & _)|[_ Hcm]]; [|exists cm; split; [done|lra]].
    exists c. split; [done|]. apply qdiv_mono; [|lia]. by apply (Forall_lookup_1 _ _ _ _ Hw Hwm). }
  eapply Qle_trans; [exact Hle|].
  apply list_lookup_insert_Some in Hcj as [(<- & <- & _)|[_ Hcj]]; [|by eapply Hg].
  rewrite lookup_zip_with, Hwj in Hmax. simpl in Hmax. rewrite Hk in Hmax. simpl in Hmax. replace (c + 1 - 1) with c by lia.
  eapply (Forall_lookup_1 _ _ m _ Hmax). rewrite lookup_zip_with, Hwm. simpl. by rewrite Hcm0.
Qed.

Lemma replicate_loop_spec w k : ∀ i s,
  w ≠ [] → replicated (length w) (i + k) i s →
  ∃ s', replicate_loop w i k s = Ok s' ∧ replicated (length w) (i + k) (i + k) s'
    ∧ (Forall (λ x, (0 <= x)%Q) w → greedy w (logcnt s) → greedy w (logcnt s')).
Proof using laws.
  induction k as [|k IH]; intros i s Hne Hs; cbn [replicate_loop].
  { rewrite Nat.add_0_r in *. by exists s. }
  destruct Hs as [Hp Hr Hc Hpos Hz].
  destruct (argmax_largest (zip_with qdiv w (logcnt s))) as (m & Hm & Hall); [by destruct w, (logcnt s)|].
  set (x := argmax _) in *. pose proof (lookup_lt_Some _ _ _ Hm) as Hx. rewrite length_zip_with in Hx.
  destruct (lookup_lt_is_Some_2 (logcnt s) x) as [c Hcx]; [lia|]. rewrite Hcx. simpl.
  pose proof (Forall_lookup_1 _ _ _ _ Hpos Hcx) as Hc1. simpl in Hc1.
  destruct (IH (S i) (MkReplicas (<[i := Z.of_nat x]> (phy2log s)) (<[i := c]> (rank s)) (<[x := c + 1]> (logcnt s)))) as (s' & -> & Hs' & Hg).
  { done. }
  { split; simpl; try (rewrite length_insert; lia).
    - apply Forall_insert; [done|lia].
    - rewrite !(take_S_r _ i (_ : Z)) by (apply list_lookup_insert_eq; lia).
      rewrite !take_insert_ge, zip_with_app by (rewrite ?length_take; lia). rewrite (pairs_bump _ _ _ c) by (done || lia).
      rewrite Hz. simpl. symmetry. apply Permutation_cons_append. }
  exists s'. replace (i + S k)%nat with (S i + k)%nat by lia. split_and!; [done|done|]. intros Hw Hgr. apply Hg; [done|].
  apply greedy_bump; [done|lia|done|done|done|]. rewrite Hm. done.
Qed.

Lemma replicate_experts_spec w N :
  w ≠ [] → (length w ≤ N)%nat →
  ∃ s, replicate_experts w N = Ok s ∧ replicated (length w) N N s ∧ (Forall (λ x, (0 <= x)%Q) w → greedy w (logcnt s)).
Proof using laws.
  intros Hne HN. unfold replicate_experts. unfold py_assert. rewrite bool_decide_true by done. simpl.
  destruct (replicate_loop_spec w (N - length w) (length w)
    (MkReplicas (seqZ 0 (Z.of_nat N)) (replicate N 0) (replicate (length w) 1))) as (s & -> & Hs & Hg).
  { done. }
  { replace (length w + (N - length w))%nat with N by lia. split; simpl; rewrite ?length_seqZ, ?length_replicate; try lia.
    - apply Forall_replicate. lia.
    - rewrite pairs_ones, take_replicate, Nat.min_l by lia.
      replace (Z.of_nat N) with (Z.of_nat (length w) + Z.of_nat (N - length w)) by lia.
      rewrite seqZ_app, take_app_le by (rewrite ?length_seqZ; lia).
      rewrite take_ge by (rewrite length_seqZ; lia). rewrite <-zip_zeros, length_seqZ, Nat2Z.id. done. }
  exists s. replace (length w + (N - length w))%nat with N in Hs by lia. split_and!; [done|done|].
  intros Hw. apply Hg; [done|]. intros j k wj wk cj ck _ _ Hcj _ H2.
  simpl in Hcj. apply lookup_replicate in Hcj as [-> _]. lia.
Qed.

(** Replication is optimal: whatever largest share other counts reach, these reach it. *)
Lemma greedy_optimal w cnt cnt' bound :
  Forall (λ x, (0 <= x)%Q) w → length cnt = length w → Forall (λ c, 1 <= c) cnt → greedy w cnt →
  length cnt' = length w → Forall (λ c, 1 <= c) cnt' → zsum cnt' = zsum cnt →
  Forall (λ x, (x <= bound)%Q) (zip_with qdiv w cnt') → Forall (λ x, (x <= bound)%Q) (zip_with qdiv w cnt).
Proof using.
  intros Hw Hl Hpos Hg Hl' Hpos' Hsum Hb. apply Forall_lookup. intros i x Hx.
  assert (∀ i wi ci, w !! i = Some wi → cnt' !! i = Some ci → (qdiv wi ci <= bound)%Q) as Hb'.
  { intros j wj cj Hwj Hcj. eapply (Forall_lookup_1 _ _ j _ Hb). rewrite lookup_zip_with, Hwj. simpl. by rewrite Hcj. }
  apply lookup_zip_with_Some in Hx as (wi & ci & -> & Hwi & Hci).
  destruct (lookup_lt_is_Some_2 cnt' i) as [ci' Hci']; [rewrite Hl', <-Hl; by eapply lookup_lt_Some|].
  pose proof (Forall_lookup_1 _ _ _ _ Hpos' Hci') as H1. simpl in H1.
  destruct (decide (ci < ci')) as [Hlt|Hge].
  - destruct (zsum_exchange cnt cnt' i ci ci') as (j & cj & cj' & Hj & Hj' & Hlt'); [congruence|done..|].
    destruct (lookup_lt_is_Some_2 w j) as [wj Hwj]; [rewrite <-Hl; by eapply lookup_lt_Some|].
    pose proof (Forall_lookup_1 _ _ _ _ Hpos' Hj') as H2. simpl in H2.
    eapply Qle_trans; [by eapply (Hg j i); try done; lia|]. eapply Qle_trans; [|by eapply (Hb' j)].
    apply qdiv_mono; [by apply (Forall_lookup_1 _ _ _ _ Hw Hwj)|lia].
  - eapply Qle_trans; [|by eapply (Hb' i)]. apply qdiv_mono; [by apply (Forall_lookup_1 _ _ _ _ Hw Hwi)|lia].
Qed.
End torch.
