(* ===== verification/EplbPlace.v ===== *)
(** The whole placement: [rebalance_experts_hierarchical] and [rebalance_experts] return, and
    what they return is a placement of every expert. *)
From S2P Require Import Prelude Eplb EplbInv.
From Stdlib Require Import QArith.
From stdpp Require Import options.
Local Open Scope Z_scope.

(** Every place holds a replica: those of [n] experts, as many as counted, on [N] places. *)
Record placed (n N : nat) (s : Replicas) : Prop := {
  pl_phy : length (phy2log s) = N;
  pl_rank : length (rank s) = N;
  pl_cnt : length (logcnt s) = n;
  pl_pos : Forall (λ c, 1 <= c) (logcnt s);
  pl_pairs : zip (phy2log s) (rank s) ≡ₚ pairs_from 0 (logcnt s);
}.

Lemma replicated_placed n N s : replicated n N N s → placed n N s.
Proof. intros [Hp Hr Hc Hpos Hz]. rewrite !take_ge in Hz by lia. by split. Qed.

Lemma zip_fmap_seqZ (xs ys : list Z) n :
  length xs = n → length ys = n →
  zip xs ys = (λ i, (xs !!! Z.to_nat i, ys !!! Z.to_nat i)) <$> seqZ 0 (Z.of_nat n).
Proof.
  intros Hx Hy. rewrite (zip_fmap_seq xs ys n Hx Hy). unfold seqZ. rewrite Nat2Z.id, <-list_fmap_compose.
  apply list_fmap_ext. intros i x _. unfold compose. simpl. by replace (Z.to_nat (Z.of_nat x + 0)) with x by lia.
Qed.

Lemma zip_fmap_both {A B} (f g : A → B) l : zip (f <$> l) (g <$> l) = (λ x, (f x, g x)) <$> l.
Proof. induction l as [|x l IH]; [done|]. simpl. by f_equal. Qed.
Lemma zip_fmap_fst {A B C} (f : A → B) (l : list A) : ∀ k : list C, zip (f <$> l) k = prod_map f id <$> zip l k.
Proof. induction l as [|x l IH]; intros [|y k]; [done..|]. simpl. by rewrite <-IH. Qed.

Lemma placed_range n N s p l : placed n N s → phy2log s !! p = Some l → 0 <= l < Z.of_nat n.
Proof.
  intros [Hp Hr Hc _ Hz] Hl. destruct (lookup_lt_is_Some_2 (rank s) p) as [r Hr'].
  { rewrite Hr, <-Hp. by eapply lookup_lt_Some. }
  assert ((l, r) ∈ pairs_from 0 (logcnt s)) as Hin.
  { rewrite <-Hz. apply list_elem_of_lookup. exists p. rewrite lookup_zip_with, Hl. simpl. by rewrite Hr'. }
  apply elem_of_pairs in Hin as (i & c & -> & Hi%lookup_lt_Some & _). lia.
Qed.

Lemma mapM_ok {A B} (f : A → result B) (P : B → Prop) l :
  Forall (λ x, ∃ y, f x = Ok y ∧ P y) l → ∃ ys, mapM f l = Ok ys ∧ Forall P ys ∧ length ys = length l.
Proof.
  induction 1 as [|x l (y & E & Hy) _ (ys & Es & Hys & Hlen)]; [by exists []|].
  exists (y :: ys). simpl. rewrite E. simpl. rewrite Es. simpl. split_and!; [done|by constructor|lia].
Qed.

Lemma unflatten_rows {A} m k : ∀ l : list A, length l = (m * k)%nat → Forall (λ row, length row = k) (unflatten m k l) ∧ length (unflatten m k l) = m.
Proof.
  induction m as [|m IH]; intros l Hl; simpl; [by split|]. destruct (IH (drop k l)) as [H1 H2]; [rewrite length_drop; lia|].
  split; [|lia]. constructor; [rewrite length_take; lia|done].
Qed.

Lemma unflatten_lookup {A} m k : ∀ (l : list A) i, (i < m)%nat →
  ∃ row, unflatten m k l !! i = Some row ∧ ∀ j, (j < k)%nat → row !! j = l !! (i * k + j)%nat.
Proof.
  induction m as [|m IH]; intros l i Hi; [lia|]. destruct i as [|i]; simpl.
  - eexists. split; [done|]. intros j Hj. by rewrite lookup_take_lt.
  - destruct (IH (drop k l) i) as (row & Hrow & Hj); [lia|]. exists row. split; [done|]. intros j Hjk.
    rewrite Hj, lookup_drop by done. f_equal. lia.
Qed.

Section torch.
Context {torch : Torch} {laws : TorchLaws torch}.

(** *** One node *)
Lemma place_node_spec w N g per :
  w ≠ [] → (length w ≤ N)%nat → g ≠ 0%nat → N = (per * g)%nat →
  ∃ s, place_node N g per w = Ok s ∧ placed (length w) N s.
Proof using laws.
  intros Hne HN Hg HNg. unfold place_node.
  assert (Nat.modulo N g = 0%nat) as Hmod by (rewrite HNg; apply Nat.Div0.mod_mul).
  assert (Nat.div N g = per) as Hdiv by (rewrite HNg; by apply Nat.div_mul).
  destruct (replicate_experts_spec w N Hne HN) as (s & -> & Hs%replicated_placed & _). cbn [mbind result_bind].
  pose proof Hs as [Hp Hr Hc Hpos Hz].
  assert (Forall (λ i, 0 <= i < Z.of_nat (length (zip_with qdiv w (logcnt s)))) (phy2log s)) as Hrange.
  { apply Forall_lookup. intros p l Hl. rewrite length_zip_with, Hc, Nat.min_id. by eapply placed_range. }
  rewrite (gather_spec _ _ Hrange). cbn [mbind result_bind].
  set (tokens := fmap (λ i, _) (phy2log s)). assert (length tokens = N) as Htok by (unfold tokens; by rewrite length_fmap).
  destruct (balanced_packing_spec tokens g) as (ps & rs & -> & Hps & Hrs & Hpack); [done|by rewrite Htok|]. cbn [mbind result_bind fst snd].
  rewrite Htok in *. pose proof (packing_numbers N g ps rs Hg Hmod Hpack) as Hnum. rewrite Hdiv in Hnum.
  destruct (inverse_spec _ _ Hnum) as (inv & -> & Hlinv & Hinv & _). cbn [mbind result_bind].
  rewrite !gather_spec by (by (rewrite Hp || rewrite Hr); apply perm_range). cbn [mbind result_bind].
  eexists. split; [done|]. split; simpl; [by rewrite length_fmap|by rewrite length_fmap|done|done|].
  rewrite zip_fmap_both, Hinv, <-(zip_fmap_seqZ (phy2log s) (rank s)) by done. done.
Qed.

(** *** Several nodes *)
(** The experts on the places of all nodes, the nodes counted from [b]. *)
Definition all_phy (b : Z) (m : nat) (nodes : list Replicas) : list Z :=
  concat (zip_with (λ o row, Z.add o <$> row) ((λ k, k * Z.of_nat m) <$> seqZ b (Z.of_nat (length nodes))) (phy2log <$> nodes)).

Lemma nodes_pairs m N nodes : Forall (placed m N) nodes → ∀ b,
  zip (all_phy b m nodes) (concat (rank <$> nodes)) ≡ₚ pairs_from (b * Z.of_nat m) (concat (logcnt <$> nodes))
  ∧ length (all_phy b m nodes) = (length nodes * N)%nat.
Proof using.
  unfold all_phy. induction 1 as [|s nodes [Hp Hr Hc Hpos Hz] _ IH]; intros b; [done|]. cbn [length].
  rewrite seqZ_cons by lia. replace (Z.pred (Z.of_nat (S (length nodes)))) with (Z.of_nat (length nodes)) by lia.
  cbn [fmap list_fmap zip_with concat]. destruct (IH (Z.succ b)) as [IHp IHl]. split.
  - rewrite zip_with_app by (rewrite length_fmap; lia). rewrite zip_fmap_fst, Hz, <-pairs_shift, Z.add_0_r, IHp, pairs_app.
    rewrite Hc. by replace (Z.succ b * Z.of_nat m) with (b * Z.of_nat m + Z.of_nat m) by lia.
  - rewrite length_app, length_fmap, Hp. lia.
Qed.

(** The places of a node hold experts of that node. *)
Lemma nodes_local m N nodes : (0 < N)%nat → Forall (placed m N) nodes → ∀ b p l,
  all_phy b m nodes !! p = Some l → l / Z.of_nat m = b + Z.of_nat (p `div` N).
Proof using.
  intros HN. unfold all_phy. induction 1 as [|s nodes Hs _ IH]; intros b p l; [done|]. cbn [length].
  rewrite seqZ_cons by lia. replace (Z.pred (Z.of_nat (S (length nodes)))) with (Z.of_nat (length nodes)) by lia.
  cbn [fmap list_fmap zip_with concat]. rewrite lookup_app_Some, length_fmap, (pl_phy _ _ _ Hs). intros [Hl|[Hge Hl]].
  - apply list_lookup_fmap_Some in Hl as (v & -> & Hv). pose proof (placed_range _ _ _ _ _ Hs Hv).
    apply lookup_lt_Some in Hv. rewrite (pl_phy _ _ _ Hs) in Hv. rewrite Nat.div_small by done.
    rewrite Z.div_add_l, Z.div_small by lia. lia.
  - apply IH in Hl. rewrite Hl. replace p with (1 * N + (p - N))%nat at 2 by lia. rewrite Nat.div_add_l by lia. lia.
Qed.

(** *** Experts in the order of the nodes *)
Lemma blocks_seqZ g n : 0 <= g → ∀ b,
  (seqZ b (Z.of_nat n) ≫= λ q, (λ j, q * g + j) <$> seqZ 0 g) = seqZ (b * g) (Z.of_nat n * g).
Proof using.
  intros Hg. induction n as [|n IH]; intros b; [done|]. rewrite (seqZ_cons b) by lia. rewrite bind_cons.
  replace (Z.pred (Z.of_nat (S n))) with (Z.of_nat n) by lia. rewrite IH. rewrite (fmap_add_seqZ (b * g)), Z.add_0_r.
  replace (Z.of_nat (S n) * g) with (g + Z.of_nat n * g) by lia. rewrite seqZ_app by nia. do 2 f_equal; lia.
Qed.

Lemma log2mlog_perm gpn gs np ps rs :
  zip_with (λ p r, p * Z.of_nat gpn + r) ps rs ≡ₚ seqZ 0 (Z.of_nat np) →
  log2mlog_of gpn gs ps rs ≡ₚ seqZ 0 (Z.of_nat (np * gs)).
Proof using.
  intros Hp. replace (log2mlog_of gpn gs ps rs) with
    (zip_with (λ p r, p * Z.of_nat gpn + r) ps rs ≫= λ q, (λ j, q * Z.of_nat gs + j) <$> seqZ 0 (Z.of_nat gs)).
  - rewrite Hp, blocks_seqZ by lia. by rewrite Nat2Z.inj_mul.
  - unfold log2mlog_of. clear. revert rs. induction ps as [|p ps IH]; intros [|r rs]; simpl; [done..|]. by rewrite <-IH.
Qed.

(** Renaming the experts of a placement by a permutation with inverse [inv]. *)
Lemma pairs_rename (perm inv cnt : list Z) n :
  perm ≡ₚ seqZ 0 (Z.of_nat n) → length cnt = n →
  (∀ i, 0 <= i < Z.of_nat n → inv !!! Z.to_nat (perm !!! Z.to_nat i) = i) →
  prod_map (λ l, inv !!! Z.to_nat l) id <$> pairs_from 0 cnt ≡ₚ pairs_from 0 ((λ l, cnt !!! Z.to_nat l) <$> perm).
Proof using.
  intros Hp Hc Hinv. pose proof (perm_length _ _ Hp) as Hlen.
  assert (∀ l, 0 <= l < Z.of_nat n → ∃ i, (i < n)%nat ∧ perm !! i = Some l ∧ inv !!! Z.to_nat l = Z.of_nat i) as Hsurj.
  { intros l Hl. assert (l ∈ perm) as [i Hi]%list_elem_of_lookup by (by rewrite Hp; apply seqZ_elem).
    pose proof (lookup_lt_Some _ _ _ Hi). exists i. split_and!; [lia|done|].
    rewrite <-(Hinv (Z.of_nat i)), Nat2Z.id by lia. by rewrite (list_lookup_total_correct _ _ _ Hi). }
  apply NoDup_Permutation.
  - apply NoDup_fmap_2_strong; [|apply NoDup_pairs]. intros [l r] [l' r'] Hx Hy [= He ->].
    apply elem_of_pairs in Hx as (i & c & -> & Hi%lookup_lt_Some & _). apply elem_of_pairs in Hy as (i' & c' & -> & Hi'%lookup_lt_Some & _).
    destruct (Hsurj (0 + Z.of_nat i)) as (a & _ & Ha & Ea); [lia|]. destruct (Hsurj (0 + Z.of_nat i')) as (a' & _ & Ha' & Ea'); [lia|].
    rewrite Ea, Ea' in He. apply Nat2Z.inj in He as ->. congruence.
  - apply NoDup_pairs.
  - intros [l r]. rewrite list_elem_of_fmap, elem_of_pairs. split.
    + intros ([m r'] & [= -> ->] & (i & c & -> & Hi & Hr)%elem_of_pairs).
      destruct (Hsurj (0 + Z.of_nat i)) as (a & Han & Ha & ->); [apply lookup_lt_Some in Hi; lia|].
      exists a, c. split_and!; [lia| |lia|lia]. rewrite list_lookup_fmap, Ha. simpl. f_equal. apply list_lookup_total_correct. by rewrite Z.add_0_l, Nat2Z.id.
    + intros (i & c & -> & Hi & Hr). apply list_lookup_fmap_Some in Hi as (m & -> & Hm).
      pose proof (proj1 (Forall_lookup _ _) (perm_range _ _ Hp) _ _ Hm) as Hrange. simpl in Hrange.
      exists (m, r). split.
      * simpl. f_equal. rewrite <-(list_lookup_total_correct _ _ _ Hm). pose proof (lookup_lt_Some _ _ _ Hm).
        specialize (Hinv (Z.of_nat i)). rewrite Nat2Z.id in Hinv. rewrite Hinv by lia. lia.
      * apply elem_of_pairs. exists (Z.to_nat m), (cnt !!! Z.to_nat m). split_and!; [lia| |lia|lia].
        apply list_lookup_lookup_total_lt. lia.
Qed.

(** *** A layer *)

(** The counts divide as the assertions of the code ask: [np] nodes with [gpn] groups of
    [gs] experts and [g] GPUs each, [per] places on a GPU. *)
Record shape (n num_physical num_groups np num_gpus gpn gs g per : nat) : Prop := {
  sh_np : np ≠ 0%nat; sh_gpn : gpn ≠ 0%nat; sh_gs : gs ≠ 0%nat; sh_g : g ≠ 0%nat;
  sh_groups : num_groups = (gpn * np)%nat;
  sh_n : n = (gs * num_groups)%nat;
  sh_gpus : num_gpus = (g * np)%nat;
  sh_phy : num_physical = (per * num_gpus)%nat;
  sh_room : (n ≤ num_physical)%nat;
}.

Lemma shape_of_mods n num_physical num_groups np num_gpus :
  (0 < n)%nat → np ≠ 0%nat → num_groups ≠ 0%nat → num_gpus ≠ 0%nat →
  Nat.modulo n num_groups = 0%nat → Nat.modulo num_groups np = 0%nat → Nat.modulo num_gpus np = 0%nat →
  Nat.modulo num_physical num_gpus = 0%nat → (n ≤ num_physical)%nat →
  ∃ gpn gs g per, shape n num_physical num_groups np num_gpus gpn gs g per ∧ Nat.div num_physical np = (per * g)%nat.
Proof using.
  intros Hn Hnp Hgr Hgpu [gs Hgs]%Nat.Lcm0.mod_divide [gpn Hgpn]%Nat.Lcm0.mod_divide [g Hg]%Nat.Lcm0.mod_divide [per Hper]%Nat.Lcm0.mod_divide Hroom.
  exists gpn, gs, g, per. split; [split; try done; nia|]. rewrite Hper, Hg, Nat.mul_assoc. by apply Nat.div_mul.
Qed.

Lemma divides_mul a b c : b ≠ 0%nat → c = (a * b)%nat → assert_divides c b = Ok tt ∧ Nat.modulo c b = 0%nat ∧ Nat.div c b = a.
Proof using.
  intros Hb ->. split_and!; [|apply Nat.Div0.mod_mul|by apply Nat.div_mul]. apply divides_spec; [done|apply Nat.Div0.mod_mul].
Qed.

(** Step 1: the groups are packed to nodes. *)
Lemma pack_to_nodes w num_groups np gpn gs :
  np ≠ 0%nat → num_groups = (gpn * np)%nat → length w = (gs * num_groups)%nat →
  ∃ ps rs, balanced_packing (qsum <$> unflatten num_groups gs w) np = Ok (ps, rs)
    ∧ log2mlog_of gpn gs ps rs ≡ₚ seqZ 0 (Z.of_nat (length w)).
Proof using laws.
  intros Hnp Hgr Hn. destruct (unflatten_rows num_groups gs w) as [_ Hrows]; [lia|].
  destruct (divides_mul gpn np num_groups Hnp Hgr) as (_ & Hm & Hd).
  destruct (balanced_packing_spec (qsum <$> unflatten num_groups gs w) np) as (ps & rs & -> & _ & _ & Hpack);
    [done|by rewrite length_fmap, Hrows|]. exists ps, rs. split; [done|].
  rewrite length_fmap, Hrows in Hpack. pose proof (packing_numbers num_groups np ps rs Hnp Hm Hpack) as Hnum.
  rewrite Hd in Hnum. rewrite Hn, Nat.mul_comm. by apply log2mlog_perm.
Qed.

(** Steps 2 and 3 for every node. *)
Lemma place_nodes (tokens : list Q) np m g per :
  length tokens = (np * m)%nat → m ≠ 0%nat → (m ≤ per * g)%nat → g ≠ 0%nat →
  ∃ nodes, mapM (place_node (per * g) g per) (unflatten np m tokens) = Ok nodes
    ∧ Forall (placed m (per * g)) nodes ∧ length nodes = np.
Proof using laws.
  intros Htok Hm Hroom Hg. destruct (unflatten_rows np m tokens Htok) as [Hrow Hnodes]. 
  destruct (mapM_ok (place_node (per * g) g per) (placed m (per * g)) (unflatten np m tokens)) as (nodes & E & HP & Hl);
    [|exists nodes; split_and!; [done|done|lia]].
  eapply Forall_impl; [exact Hrow|]. intros row Hr. simpl in Hr. rewrite <-Hr.
  apply place_node_spec; [by destruct row|by rewrite Hr|done|done].
Qed.

(** The nodes put together, with the experts renamed. *)
Lemma join_nodes perm inv nodes m N n :
  Forall (placed m N) nodes → n = (length nodes * m)%nat → perm ≡ₚ seqZ 0 (Z.of_nat n) → length inv = n →
  (∀ i, 0 <= i < Z.of_nat n → inv !!! Z.to_nat (perm !!! Z.to_nat i) = i) →
  ∃ phy cnt, gather inv (all_phy 0 m nodes) = Ok phy ∧ gather (concat (logcnt <$> nodes)) perm = Ok cnt
    ∧ phy = (λ l, inv !!! Z.to_nat l) <$> all_phy 0 m nodes ∧ Forall (λ i, 0 <= i < Z.of_nat n) (all_phy 0 m nodes)
    ∧ placed n (length nodes * N) (MkReplicas phy (concat (rank <$> nodes)) cnt).
Proof using.
  intros Hpl Hn Hperm Hlinv Hleft. destruct (nodes_pairs _ _ _ Hpl 0) as [Hpairs Hall]. simpl (0 * _) in Hpairs.
  assert (length (concat (logcnt <$> nodes)) = n ∧ length (concat (rank <$> nodes)) = (length nodes * N)%nat
    ∧ Forall (λ c, 1 <= c) (concat (logcnt <$> nodes))) as (Hc & Hr & Hpos).
  { clear -Hpl Hn. subst n. induction Hpl as [|s nodes [Hp Hr Hc Hpos Hz] _ (IH1 & IH2 & IH3)]; [done|]. cbn [fmap list_fmap concat length].
    rewrite !length_app, IH1, IH2, Hc, Hr. split_and!; [lia|lia|]. by apply Forall_app. }
  assert (Forall (λ i, 0 <= i < Z.of_nat n) (all_phy 0 m nodes)) as Hrange.
  { apply Forall_lookup. intros p l Hl. destruct (lookup_lt_is_Some_2 (concat (rank <$> nodes)) p) as [r Hrp].
    { rewrite Hr, <-Hall. by eapply lookup_lt_Some. }
    assert ((l, r) ∈ pairs_from 0 (concat (logcnt <$> nodes))) as Hin.
    { rewrite <-Hpairs. apply list_elem_of_lookup. exists p. rewrite lookup_zip_with, Hl. simpl. by rewrite Hrp. }
    apply elem_of_pairs in Hin as (i & c & -> & Hi%lookup_lt_Some & _). lia. }
  eexists _, _. split_and!; [apply gather_spec; by rewrite Hlinv|apply gather_spec; rewrite Hc; by apply perm_range|done|done|].
  pose proof (perm_length _ _ Hperm). split; simpl; [by rewrite length_fmap|done|by rewrite length_fmap| |].
  - apply Forall_fmap, Forall_forall. intros l Hl. rewrite Hperm, seqZ_elem in Hl. simpl.
    eapply Forall_lookup_total_1; [exact Hpos|lia].
  - rewrite zip_fmap_fst, Hpairs. by apply (pairs_rename _ _ _ n).
Qed.

(** A layer is placed, and all replicas of an expert are on one node. *)
Lemma hierarchical_spec w num_physical num_groups np num_gpus gpn gs g per :
  shape (length w) num_physical num_groups np num_gpus gpn gs g per →
  ∃ s, rebalance_experts_hierarchical w num_physical num_groups np num_gpus = Ok s ∧ placed (length w) num_physical s
    ∧ ∀ p q l, phy2log s !! p = Some l → phy2log s !! q = Some l → Nat.div p (per * g) = Nat.div q (per * g).
Proof using laws.
  intros [Hnp Hgpn Hgs Hg Hgr Hn Hgpu Hphy Hroom]. unfold rebalance_experts_hierarchical.
  destruct (divides_mul gs num_groups (length w)) as (-> & _ & ->); [nia|done|].
  destruct (divides_mul gpn np num_groups) as (-> & _ & ->); [done|done|].
  destruct (divides_mul g np num_gpus) as (-> & _ & ->); [done|done|].
  destruct (divides_mul per num_gpus num_physical) as (-> & _ & ->); [nia|done|]. cbn [mbind result_bind].
  destruct (divides_mul (per * g) np num_physical) as (_ & _ & ->); [done|nia|].
  destruct (divides_mul (gs * gpn) np (length w)) as (_ & _ & ->); [done|nia|].
  destruct (pack_to_nodes w num_groups np gpn gs) as (ps & rs & -> & Hperm); [done..|]. cbn [mbind result_bind fst snd].
  destruct (inverse_spec _ _ Hperm) as (inv & -> & Hlinv & Hinv & Hleft). cbn [mbind result_bind].
  rewrite gather_spec by (by apply perm_range). cbn [mbind result_bind].
  destruct (place_nodes ((λ i, w !!! Z.to_nat i) <$> inv) np (gs * gpn) g per) as (nodes & -> & Hpl & Hlen);
    [rewrite length_fmap; nia|nia|nia|done|]. cbn [mbind result_bind]. rewrite <-Hlen.
  change (concat (zip_with _ (_ <$> seqZ 0 (Z.of_nat (length nodes))) _)) with (all_phy 0 (gs * gpn) nodes).
  destruct (join_nodes (log2mlog_of gpn gs ps rs) inv nodes (gs * gpn) (per * g) (length w) Hpl) as (phy & cnt & -> & -> & Ephy & Hrange & Hplaced); [nia|done..|].
  cbn [mbind result_bind]. eexists. split; [done|]. split.
  { by replace num_physical with (length nodes * (per * g))%nat by nia. }
  simpl. rewrite Ephy. intros p q l Hp Hq. apply list_lookup_fmap_Some in Hp as (a & -> & Ha). apply list_lookup_fmap_Some in Hq as (b & Eb & Hb).
  assert (0 < per * g)%nat as HN by nia. assert (a = b) as ->; [|apply (nodes_local _ _ _ HN Hpl) in Ha, Hb; lia].
  pose proof (Forall_lookup_1 _ _ _ _ Hrange Ha). pose proof (Forall_lookup_1 _ _ _ _ Hrange Hb). simpl in *.
  assert (NoDup inv) as Hnd by (rewrite Hinv; apply NoDup_seqZ).
  assert (Z.to_nat a = Z.to_nat b) as Hab; [|lia]. eapply (NoDup_lookup inv); [done|apply list_lookup_lookup_total_lt; lia|].
  rewrite Eb. apply list_lookup_lookup_total_lt. lia.
Qed.
End torch.

(** ** The maps of a layer *)

(** Expert [l] has [c] replicas: its row of the inverse map lists exactly the places that
    hold it, each once, and is filled up with -1. *)
Definition row_ok (P : Placement) (width : nat) (l : nat) : Prop :=
  ∃ row c, logical_to_physical P !! l = Some row ∧ expert_count P !! l = Some c ∧ 1 <= c
    ∧ NoDup (take (Z.to_nat c) row)
    ∧ (∀ x, x ∈ take (Z.to_nat c) row ↔ ∃ p, x = Z.of_nat p ∧ physical_to_logical P !! p = Some (Z.of_nat l))
    ∧ drop (Z.to_nat c) row = replicate (width - Z.to_nat c) (-1).

Lemma flat_inj M l r l' r' : 0 <= r < M → 0 <= r' < M → l * M + r = l' * M + r' → l = l' ∧ r = r'.
Proof.
  intros Hr Hr' E. assert (l = l') as ->; [|lia].
  apply (f_equal (λ v, v / M)) in E. rewrite !Z.div_add_l, !Z.div_small in E by lia. lia.
Qed.

Section maps.
Context (n N : nat) (M : Z) (s : Replicas) (Hs : placed n N s) (HM : Forall (λ c, c <= M) (logcnt s)).

Lemma pair_of_place p l : phy2log s !! p = Some l →
  ∃ i r c, l = Z.of_nat i ∧ rank s !! p = Some r ∧ logcnt s !! i = Some c ∧ 0 <= r < c ∧ c <= M.
Proof using Hs HM.
  intros Hl. destruct (lookup_lt_is_Some_2 (rank s) p) as [r Hr].
  { rewrite (pl_rank _ _ _ Hs), <-(pl_phy _ _ _ Hs). by eapply lookup_lt_Some. }
  assert ((l, r) ∈ pairs_from 0 (logcnt s)) as Hin.
  { rewrite <-(pl_pairs _ _ _ Hs). apply list_elem_of_lookup. exists p. rewrite lookup_zip_with, Hl. simpl. by rewrite Hr. }
  apply elem_of_pairs in Hin as (i & c & -> & Hc & Hrc). exists i, r, c.
  pose proof (Forall_lookup_1 _ _ _ _ HM Hc). split_and!; [lia|done|done|lia|lia|done].
Qed.

Lemma place_of_pair i c r : logcnt s !! i = Some c → 0 <= r < c → ∃ p, phy2log s !! p = Some (Z.of_nat i) ∧ rank s !! p = Some r.
Proof using Hs.
  intros Hc Hr. assert ((Z.of_nat i, r) ∈ zip (phy2log s) (rank s)) as Hin.
  { rewrite (pl_pairs _ _ _ Hs). apply elem_of_pairs. exists i, c. split_and!; [lia|done|lia|lia]. }
  apply list_elem_of_lookup in Hin as [p Hp]. apply lookup_zip_with_Some in Hp as (a & b & [= <- <-] & Ha & Hb). by exists p.
Qed.

Definition flat_index : list Z := zip_with (λ l r, l * M + r) (phy2log s) (rank s).

Lemma flat_index_lookup p v : flat_index !! p = Some v ↔ ∃ l r, v = l * M + r ∧ phy2log s !! p = Some l ∧ rank s !! p = Some r.
Proof using. unfold flat_index. rewrite lookup_zip_with_Some. naive_solver. Qed.

Lemma flat_index_nodup : NoDup flat_index.
Proof using Hs HM.
  apply NoDup_alt. intros p q v Hp Hq. apply flat_index_lookup in Hp as (l & r & -> & Hl & Hr), Hq as (l' & r' & E & Hl' & Hr').
  destruct (pair_of_place p l Hl) as (i & ? & c & _ & Hr0 & _ & Hb & Hm). destruct (pair_of_place q l' Hl') as (i' & ? & c' & _ & Hr0' & _ & Hb' & Hm').
  simplify_eq. destruct (flat_inj M l r l' r') as [<- <-]; [lia|lia|done|].
  assert (NoDup (zip (phy2log s) (rank s))) as Hnd by (rewrite (pl_pairs _ _ _ Hs); apply NoDup_pairs).
  eapply (NoDup_lookup _ p q (l, r)); [exact Hnd|rewrite lookup_zip_with, Hl; simpl; by rewrite Hr|rewrite lookup_zip_with, Hl'; simpl; by rewrite Hr'].
Qed.

Lemma flat_index_range : Forall (λ v, 0 <= v < Z.of_nat (n * Z.to_nat M)) flat_index.
Proof using Hs HM.
  apply Forall_lookup. intros p v (l & r & -> & Hl & Hr)%flat_index_lookup.
  destruct (pair_of_place p l Hl) as (i & ? & c & -> & Hr0 & Hc%lookup_lt_Some & Hb & Hm). simplify_eq.
  rewrite (pl_cnt _ _ _ Hs) in Hc. nia.
Qed.

(** What the scatter leaves in the row of expert [l]. *)
Lemma row_contents (dst : list Z) l c :
  (∀ k i v, flat_index !! k = Some i → seqZ 0 (Z.of_nat N) !! k = Some v → dst !! Z.to_nat i = Some v) →
  (∀ k, Z.of_nat k ∉ flat_index → dst !! k = replicate (n * Z.to_nat M) (-1) !! k) →
  (l < n)%nat → logcnt s !! l = Some c →
  (∀ p r, phy2log s !! p = Some (Z.of_nat l) → rank s !! p = Some r → dst !! (l * Z.to_nat M + Z.to_nat r)%nat = Some (Z.of_nat p))
  ∧ (∀ j, (Z.to_nat c ≤ j < Z.to_nat M)%nat → dst !! (l * Z.to_nat M + j)%nat = Some (-1)).
Proof using Hs HM.
  intros Hw Hk Hl Hc. split.
  - intros p r Hp Hr. destruct (pair_of_place p _ Hp) as (i & r0 & c0 & Ei & Hr0 & Hc0 & Hb & Hm).
    assert (i = l) by lia. subst i. assert (r0 = r) by congruence. subst r0. clear Ei.
    replace (l * Z.to_nat M + Z.to_nat r)%nat with (Z.to_nat (Z.of_nat l * M + r)) by nia. apply (Hw p).
    + apply flat_index_lookup. by exists (Z.of_nat l), r.
    + apply lookup_lt_Some in Hp. rewrite (pl_phy _ _ _ Hs) in Hp. rewrite lookup_seqZ_lt by lia. f_equal; lia.
  - intros j Hj. rewrite Hk; [apply lookup_replicate_2; nia|]. intros [p Hp]%list_elem_of_lookup.
    apply flat_index_lookup in Hp as (l' & r & E & Hl' & Hr). destruct (pair_of_place p l' Hl') as (i & r0 & c0 & -> & Hr0 & Hc0 & Hb & Hm).
    assert (r0 = r) as -> by congruence. destruct (flat_inj M (Z.of_nat l) (Z.of_nat j) (Z.of_nat i) r) as [Eli Er]; [lia|lia|nia|].
    assert (l = i) as -> by lia. assert (c = c0) as -> by congruence. lia.
Qed.

Lemma layer_maps_spec : ∃ P, layer_maps N M s = Ok P ∧ physical_to_logical P = phy2log s ∧ expert_count P = logcnt s
  ∧ ∀ l, (l < n)%nat → row_ok P (Z.to_nat M) l.
Proof using Hs HM.
  unfold layer_maps. rewrite (pl_cnt _ _ _ Hs). fold flat_index.
  assert (length flat_index = N) as Hlen by (unfold flat_index; rewrite length_zip_with, (pl_phy _ _ _ Hs), (pl_rank _ _ _ Hs); lia).
  destruct (scatter_spec flat_index (seqZ 0 (Z.of_nat N)) (replicate (n * Z.to_nat M) (-1))) as (dst & -> & Hd & Hw & Hk).
  { rewrite length_replicate. apply flat_index_range. } { apply flat_index_nodup. } { rewrite length_seqZ, Hlen. lia. }
  cbn [mbind result_bind]. eexists. split; [done|]. split; [done|]. split; [done|]. intros l Hl.
  destruct (unflatten_lookup n (Z.to_nat M) dst l Hl) as (row & Hrow & Hj).
  destruct (unflatten_rows n (Z.to_nat M) dst) as [Hwidth _]; [by rewrite Hd, length_replicate|].
  pose proof (Forall_lookup_1 _ _ _ _ Hwidth Hrow) as Hlrow. simpl in Hlrow.
  destruct (lookup_lt_is_Some_2 (logcnt s) l) as [c Hc]; [by rewrite (pl_cnt _ _ _ Hs)|].
  pose proof (Forall_lookup_1 _ _ _ _ HM Hc) as HcM. pose proof (Forall_lookup_1 _ _ _ _ (pl_pos _ _ _ Hs) Hc) as Hc1. simpl in HcM, Hc1.
  destruct (row_contents dst l c Hw Hk Hl Hc) as [Hfill Hrest].
  assert (∀ j x, take (Z.to_nat c) row !! j = Some x → ∃ p, x = Z.of_nat p ∧ phy2log s !! p = Some (Z.of_nat l) ∧ rank s !! p = Some (Z.of_nat j)) as Hin.
  { intros j x Hx. apply lookup_take_Some in Hx as [Hx Hjc]. destruct (place_of_pair l c (Z.of_nat j) Hc) as (p & Hp & Hr); [lia|].
    specialize (Hfill p _ Hp Hr). rewrite Nat2Z.id, <-Hj, Hx in Hfill by lia. injection Hfill as ->. by exists p. }
  exists row, c. split_and!; [done|done|done| | |].
  - apply NoDup_alt. intros i j x Hi Hx. destruct (Hin i x Hi) as (p & -> & _ & Hp). destruct (Hin j _ Hx) as (q & E & _ & Hq).
    apply Nat2Z.inj in E as ->. simplify_eq. lia.
  - intros x. split.
    + intros [j Hx]%list_elem_of_lookup. destruct (Hin j x Hx) as (p & -> & Hp & _). by exists p.
    + intros (p & -> & Hp). simpl in Hp. destruct (pair_of_place p _ Hp) as (i & r & c0 & Ei & Hr & Hc0 & Hb & Hm).
      assert (i = l) by lia. subst i. assert (c0 = c) by congruence. subst c0.
      apply list_elem_of_lookup. exists (Z.to_nat r). rewrite lookup_take_lt, Hj by lia. by apply Hfill.
  - apply list_eq_same_length with (n := (Z.to_nat M - Z.to_nat c)%nat); [by rewrite length_replicate|by rewrite length_drop, Hlrow|].
    intros j x y Hjm Hx Hy. rewrite lookup_drop, Hj, Hrest in Hx by lia. rewrite lookup_replicate_2 in Hy by done. congruence.
Qed.
End maps.

Lemma zmax_list_ge l x : x ∈ l → x <= zmax_list l.
Proof. unfold zmax_list. induction 1; simpl; lia. Qed.

Lemma placed_sum n N s : placed n N s → zsum (logcnt s) = Z.of_nat N.
Proof.
  intros [Hp Hr _ Hpos Hz]. rewrite <-(length_pairs _ 0), <-Hz, length_zip_with; [lia|].
  eapply Forall_impl; [exact Hpos|]. simpl. lia.
Qed.
