(* ===== verification/ExpertTheorems.v ===== *)
(** The properties of expert placement, with an instance of each. *)
From S2P Require Import Prelude PySort Eplb EplbInv EplbPlace.
From Stdlib Require Import QArith.
From stdpp Require Import options.
Local Open Scope Z_scope.

(** A torch that sorts stably and takes the first of several largest elements. *)
Definition ref_torch : Torch := {|
  argsort_desc w := py_sort (λ i j, Qle_bool (default 0%Q (w !! j)) (default 0%Q (w !! i))) (seq 0 (length w));
  argmax w := foldr (λ i best, if Qle_bool (w !!! best) (w !!! i) then i else best) (length w - 1)%nat (seq 0 (length w));
  torch_empty n := replicate n (-7);
|}.

Lemma ref_torch_laws : TorchLaws ref_torch.
Proof.
  split.
  - intros w. apply py_sort_perm.
  - intros w Hw. simpl.
    assert (∀ js, Forall (λ i, (i < length w)%nat) js →
      let b := foldr (λ i best, if Qle_bool (w !!! best) (w !!! i) then i else best) (length w - 1)%nat js in
      (b < length w)%nat ∧ ∀ i, i ∈ js → (w !!! i <= w !!! b)%Q) as Hfold.
    { induction 1 as [|i js Hi _ (IH1 & IH2)]; simpl; [split; [destruct w; simpl in *; [done|lia]|set_solver]|].
      destruct (Qle_bool _ _) eqn:E.
      - apply Qle_bool_iff in E. split; [done|]. intros j [->|Hj]%elem_of_cons; [apply Qle_refl|]. eapply Qle_trans; [by apply IH2|done].
      - split; [done|]. intros j [->|Hj]%elem_of_cons; [|by apply IH2].
        apply Qlt_le_weak, Qnot_le_lt. intros H. apply Qle_bool_iff in H. congruence. }
    destruct (Hfold (seq 0 (length w))) as [Hb Hmax]; [apply Forall_seq; lia|].
    eexists. split; [by apply list_lookup_lookup_total_lt|]. apply Forall_lookup. intros i x Hx.
    rewrite <-(list_lookup_total_correct _ _ _ Hx). apply Hmax. apply elem_of_seq. apply lookup_lt_Some in Hx. lia.
  - intros n. apply length_replicate.
Qed.

(** C29: rebalancing places every expert.  If the numbers of experts, groups, nodes, GPUs and
    places divide as the assertions ask, and there are at least as many places as experts,
    the code returns for every layer: each place holds an expert, every expert has at least
    one place, its row of the inverse map lists exactly its places, each once, followed by
    -1, the counts add up to the number of places, and all replicas of an expert are on one
    node. *)
Theorem rebalance_places {torch : Torch} {laws : TorchLaws torch} weight n num_replicas num_groups num_nodes num_gpus (hier : bool) :
  let groups := if hier then num_groups else 1%nat in
  let nodes := if hier then num_nodes else 1%nat in
  (0 < n)%nat → Forall (λ w, length w = n) weight → nodes ≠ 0%nat → groups ≠ 0%nat → num_gpus ≠ 0%nat →
  Nat.modulo n groups = 0%nat → Nat.modulo groups nodes = 0%nat → Nat.modulo num_gpus nodes = 0%nat →
  Nat.modulo num_replicas num_gpus = 0%nat → (n ≤ num_replicas)%nat →
  ∃ Ps width, rebalance_experts weight num_replicas num_groups num_nodes num_gpus hier = Ok Ps ∧ length Ps = length weight
    ∧ Forall (λ P, length (physical_to_logical P) = num_replicas
        ∧ zsum (expert_count P) = Z.of_nat num_replicas
        ∧ (∀ p l, physical_to_logical P !! p = Some l → 0 <= l < Z.of_nat n)
        ∧ (∀ l, (l < n)%nat → row_ok P width l)
        ∧ ∀ p q l, physical_to_logical P !! p = Some l → physical_to_logical P !! q = Some l →
            Nat.div p (Nat.div num_replicas nodes) = Nat.div q (Nat.div num_replicas nodes)) Ps.
Proof.
  intros groups nodes Hn Hw Hnodes Hgroups Hgpus Hd1 Hd2 Hd3 Hd4 Hroom.
  destruct (shape_of_mods n num_replicas groups nodes num_gpus) as (gpn & gs & g & per & Hshape & Hper); [done..|].
  unfold rebalance_experts.
  destruct (mapM_ok (λ w, if hier then rebalance_experts_hierarchical w num_replicas num_groups num_nodes num_gpus
      else rebalance_experts_hierarchical w num_replicas 1 1 num_gpus)
    (λ s, placed n num_replicas s ∧ ∀ p q l, phy2log s !! p = Some l → phy2log s !! q = Some l → Nat.div p (per * g) = Nat.div q (per * g)) weight)
    as (layers & -> & Hlayers & Hlen).
  { eapply Forall_impl; [exact Hw|]. intros w Hlw. simpl in Hlw. rewrite <-Hlw in *.
    destruct (hierarchical_spec w num_replicas groups nodes num_gpus gpn gs g per Hshape) as (s & E & Hs & Hloc).
    exists s. split; [|done]. by destruct hier. }
  cbn [mbind result_bind]. set (M := zmax_list _).
  destruct (mapM_ok (layer_maps num_replicas M) (λ P, ∃ s, placed n num_replicas s ∧ physical_to_logical P = phy2log s ∧ expert_count P = logcnt s
    ∧ (∀ l, (l < n)%nat → row_ok P (Z.to_nat M) l)
    ∧ ∀ p q l, phy2log s !! p = Some l → phy2log s !! q = Some l → Nat.div p (per * g) = Nat.div q (per * g)) layers) as (Ps & -> & HPs & HlP).
  { apply Forall_forall. intros s Hin. rewrite Forall_forall in Hlayers. destruct (Hlayers s Hin) as [Hs Hloc].
    destruct (layer_maps_spec n num_replicas M s Hs) as (P & E & HP & Hc & Hrow).
    { apply Forall_forall. intros c Hc. apply zmax_list_ge, list_elem_of_In, in_concat. exists (logcnt s).
      split; apply list_elem_of_In; [by apply list_elem_of_fmap_2|done]. }
    exists P. split; [done|]. by exists s. }
  exists Ps, (Z.to_nat M). split_and!; [done|congruence|]. eapply Forall_impl; [exact HPs|].
  intros P (s & Hs & -> & -> & Hrow & Hloc). rewrite Hper. split_and!; [apply Hs|by eapply placed_sum|intros p l; by eapply placed_range|done|done].
Qed.

(** C30: replication is optimal.  [replicate_experts] returns, gives every expert at least one
    of the places, all places are given out, and no other way to give them out makes the
    largest load per replica smaller. *)
Theorem replicate_optimal {torch : Torch} {laws : TorchLaws torch} w num_phy :
  w ≠ [] → Forall (λ x, (0 <= x)%Q) w → (length w ≤ num_phy)%nat →
  ∃ s, replicate_experts w num_phy = Ok s
    ∧ Forall (λ c, 1 <= c) (logcnt s) ∧ length (logcnt s) = length w ∧ zsum (logcnt s) = Z.of_nat num_phy
    ∧ ∀ cnt bound, length cnt = length w → Forall (λ c, 1 <= c) cnt → zsum cnt = Z.of_nat num_phy →
        Forall (λ x, (x <= bound)%Q) (zip_with qdiv w cnt) → Forall (λ x, (x <= bound)%Q) (zip_with qdiv w (logcnt s)).
Proof.
  intros Hne Hw HN. destruct (replicate_experts_spec w num_phy Hne HN) as (s & E & Hs%replicated_placed & Hg).
  pose proof (placed_sum _ _ _ Hs) as Hsum. exists s. split_and!; [done|apply Hs|apply Hs|done|].
  intros cnt bound Hl Hpos Hc Hb. apply (greedy_optimal w (logcnt s) cnt bound); [done|apply Hs|apply Hs|by apply Hg|done|done|congruence|done].
Qed.

(** The example of the DeepSeek repository: twelve experts on sixteen places. *)
Definition weights12 : list (list Q) :=
  [[90; 132; 40; 61; 104; 165; 39; 4; 73; 56; 183; 86]%Q; [20; 107; 104; 64; 19; 197; 187; 157; 172; 86; 16; 27]%Q].

Lemma rebalance_places_witness :
  ∃ Ps width, rebalance_experts (torch := ref_torch) weights12 16 4 2 8 true = Ok Ps
    ∧ Forall (λ P, ∀ l, (l < 12)%nat → row_ok P width l) Ps
    ∧ physical_to_logical <$> Ps = [[5; 6; 5; 7; 8; 4; 3; 4; 10; 9; 10; 2; 0; 1; 11; 1]; [7; 10; 6; 8; 6; 11; 8; 9; 2; 4; 5; 1; 5; 0; 3; 1]].
Proof.
  destruct (rebalance_places (torch := ref_torch) (laws := ref_torch_laws) weights12 12 16 4 2 8 true) as (Ps & width & E & _ & Hall).
  - lia.
  - repeat constructor.
  - done.
  - done.
  - done.
  - reflexivity.
  - reflexivity.
  - reflexivity.
  - reflexivity.
  - lia.
  - exists Ps, width. split; [exact E|]. split.
    + eapply Forall_impl; [exact Hall|]. intros P (_ & _ & _ & Hrow & _). exact Hrow.
    + vm_compute in E. injection E as <-. reflexivity.
Defined.

(** Four places for experts with loads 9, 2 and 1: the second replica goes to the first. *)
Lemma replicate_optimal_witness :
  ∃ s, replicate_experts (torch := ref_torch) [9; 2; 1]%Q 4 = Ok s ∧ logcnt s = [2; 1; 1]
    ∧ ∀ bound, (9 <= bound)%Q → Forall (λ x, (x <= bound)%Q) (zip_with qdiv [9; 2; 1]%Q (logcnt s)).
Proof.
  destruct (replicate_optimal (torch := ref_torch) (laws := ref_torch_laws) [9; 2; 1]%Q 4) as (s & E & _ & _ & _ & Hopt).
  - done.
  - by repeat constructor.
  - simpl. lia.
  - exists s. split; [exact E|]. split; [vm_compute in E; injection E as <-; reflexivity|]. intros bound Hb.
    apply (Hopt [1; 2; 1]); [reflexivity|by repeat constructor|reflexivity|].
    repeat constructor; (eapply Qle_trans; [|exact Hb]); vm_compute; discriminate.
Defined.
