(* ===== verification/Detok.v ===== *)
(** The detokenizer: incremental decoding in managers/detokenizer_manager.py, and
    [find_printable_text] of sglang/utils.py.

    The tokenizer is a parameter: [decode skip space ids] is [tokenizer.decode] with
    [skip_special_tokens] and [spaces_between_special_tokens], [batch_decode] the same for a
    list of token lists. *)
From S2P Require Import Prelude PyStr.
From stdpp Require Import options.

(** ** find_printable_text *)
Definition is_chinese_char (cp : Z) : bool :=
  bool_decide (19968 <= cp <= 40959)%Z || bool_decide (13312 <= cp <= 19903)%Z || bool_decide (131072 <= cp <= 173791)%Z
  || bool_decide (173824 <= cp <= 177983)%Z || bool_decide (177984 <= cp <= 178207)%Z || bool_decide (178208 <= cp <= 183983)%Z
  || bool_decide (63744 <= cp <= 64255)%Z || bool_decide (194560 <= cp <= 195103)%Z.

(** [s.rfind(c)] for one character, [None] for -1. *)
Fixpoint rfind_char (c : Z) (s : text) : option nat :=
  match s with
  | [] => None
  | x :: s => match rfind_char c s with Some i => Some (S i) | None => if decide (x = c) then Some 0 else None end
  end.

Definition find_printable_text (s : text) : text :=
  match reverse s with
  | x :: r =>
      if bool_decide (x = 10%Z) then s
      else if is_chinese_char x then s
      else match r with
           | y :: _ => if is_chinese_char y then take (length s - 1) s
                       else take (match rfind_char 32 s with Some i => S i | None => 0 end) s
           | [] => take (match rfind_char 32 s with Some i => S i | None => 0 end) s
           end
  | [] => take (match rfind_char 32 s with Some i => S i | None => 0 end) s
  end.

(** ** Requests *)
Record DecodeStatus := MkStatus {
  decoded_text : text; decode_ids : list Z; surr_offset : nat; read_offset : nat; sent_offset : nat;
}.

(** The entry "matched" of a finish reason: a string or a token. *)
Inductive Matched := MatchedStr (t : text) | MatchedInt (i : Z).
Definition falsy (m : Matched) : bool :=
  match m with MatchedStr t => bool_decide (t = []) | MatchedInt i => bool_decide (i = 0%Z) end.

(** One request of a [BatchTokenIDOutput]; [i_finished] is [None] for a request that runs
    on, otherwise the entry "matched" of its finish reason. *)
Record Item := MkItem {
  rid : string; i_decoded_text : text; i_decode_ids : list Z; i_read_offset : nat;
  i_finished : option (option Matched); no_stop_trim : bool; skip_special : bool; spaces_between : bool;
}.

(** What [trim_matched_stop] reacts to: a truthy entry, unless trimming is off. *)
Definition to_trim (finished : option (option Matched)) (no_trim : bool) : option Matched :=
  if no_trim then None
  else match finished with
       | Some (Some m) => if falsy m then None else Some m
       | _ => None
       end.

(** [LimitedCapacityDict]: an association list, oldest first. *)
Abbreviation statuses := (list (string * DecodeStatus)).
Definition status_get (k : string) (l : statuses) : option DecodeStatus := snd <$> (snd <$> list_find (λ e, e.1 = k) l).
Definition status_del (k : string) (l : statuses) : statuses := filter (λ e, e.1 ≠ k) l.
(** [super().__setitem__]: the value of an old key changes in place. *)
Definition status_put (k : string) (s : DecodeStatus) (l : statuses) : statuses :=
  match status_get k l with
  | Some _ => (λ e, if decide (e.1 = k) then (k, s) else e) <$> l
  | None => l ++ [(k, s)]
  end.
Definition setitem (capacity : nat) (k : string) (s : DecodeStatus) (l : statuses) : statuses :=
  status_put k s (if bool_decide (capacity ≤ length l) then drop 1 l else l).

Section detokenizer.
Context (decode : bool → bool → list Z → text).
Context (batch_decode : bool → bool → list (list Z) → list text).
Context (capacity : nat) (disable_batch_decode is_tool_call_parser_gpt_oss : bool).
Abbreviation D := (ST statuses).

(** [trim_matched_stop] for a list of tokens and for a string. *)
Definition trim_ids (output : list Z) (finished : option (option Matched)) (no_trim : bool) : result (list Z) :=
  match to_trim finished no_trim with
  | Some (MatchedInt _) =>
      match last output with
      | None => Raise IndexError
      | Some x => if bool_decide (x = 200012%Z) && is_tool_call_parser_gpt_oss then Ok output else Ok (take (length output - 1) output)
      end
  | _ => Ok output
  end.
Definition trim_text (output : text) (finished : option (option Matched)) (no_trim : bool) : text :=
  match to_trim finished no_trim with
  | Some (MatchedStr m) => match find m output with Some pos => take pos output | None => output end
  | _ => output
  end.

(** The groups of [_grouped_batch_decode], in the order of their first element. *)
Fixpoint add_to_group (key : bool * bool) (i : nat) (groups : list ((bool * bool) * list nat)) : list ((bool * bool) * list nat) :=
  match groups with
  | [] => [(key, [i])]
  | (k, is_) :: groups => if decide (k = key) then (k, is_ ++ [i]) :: groups else (k, is_) :: add_to_group key i groups
  end.
Fixpoint group_indices (i : nat) (keys : list (bool * bool)) (groups : list ((bool * bool) * list nat)) : list ((bool * bool) * list nat) :=
  match keys with [] => groups | k :: keys => group_indices (S i) keys (add_to_group k i groups) end.
(** The texts of a group go to the places of its requests. *)
Fixpoint write_texts (indices : list nat) (texts : list text) (results : list text) : list text :=
  match indices, texts with
  | i :: indices, t :: texts => write_texts indices texts (<[i := t]> results)
  | _, _ => results
  end.
Definition decode_group (ids_list : list (list Z)) (g : (bool * bool) * list nat) (results : list text) : list text :=
  write_texts g.2 (batch_decode g.1.1 g.1.2 ((λ i, ids_list !!! i) <$> g.2)) results.
Definition grouped_batch_decode (ids_list : list (list Z)) (keys : list (bool * bool)) : result (list text) :=
  match keys with
  | [] => Raise IndexError
  | first :: _ =>
      if bool_decide (Forall (λ k, k = first) keys) then Ok (batch_decode first.1 first.2 ids_list)
      else Ok (foldl (λ results g, decode_group ids_list g results) (replicate (length ids_list) []) (group_indices 0 keys []))
  end.

(** The first loop of [_decode_batch_token_id_output]: the status of a request with its new
    ids, and the ids to decode. *)
Definition enter (it : Item) (o : option DecodeStatus) : DecodeStatus :=
  match o with
  | None => MkStatus (i_decoded_text it) (i_decode_ids it) 0 (i_read_offset it) 0
  | Some s => MkStatus (decoded_text s) (decode_ids s ++ i_decode_ids it) (surr_offset s) (read_offset s) (sent_offset s)
  end.
Definition read_ids (it : Item) (s : DecodeStatus) : result (list Z) :=
  trim_ids (drop (surr_offset s) (decode_ids s)) (i_finished it) (no_stop_trim it).
Definition surr_ids (s : DecodeStatus) : list Z := py_slice (surr_offset s) (read_offset s) (decode_ids s).
Definition admit_one (it : Item) : D (list Z * list Z) :=
  l ← st_gets id;
  let o := status_get (rid it) l in
  let s := enter it o in
  _ ← st_modify (match o with None => setitem capacity (rid it) s | Some _ => status_put (rid it) s end);
  read ← st_lift (read_ids it s);
  mret (read, surr_ids s).
Fixpoint admit_all (items : list Item) : D (list (list Z * list Z)) :=
  match items with
  | [] => mret []
  | it :: items => x ← admit_one it; xs ← admit_all items; mret (x :: xs)
  end.

Definition decode_texts (ids_list : list (list Z)) (keys : list (bool * bool)) : result (list text) :=
  if disable_batch_decode then Ok (zip_with (λ k ids, decode k.1 k.2 ids) keys ids_list)
  else grouped_batch_decode ids_list keys.

(** The body of the second loop: the new status and the text that is sent. *)
Definition replacement_char : Z := 65533.
Definition advance (it : Item) (s : DecodeStatus) (surr_text read_text : text) : DecodeStatus * text :=
  let new_text := drop (length surr_text) read_text in
  let commits := bool_decide (new_text ≠ []) && bool_decide (last new_text ≠ Some replacement_char) in
  let '(s, new_text) :=
    match i_finished it with
    | None => if commits then (MkStatus (decoded_text s ++ new_text) (decode_ids s) (read_offset s) (length (decode_ids s)) (sent_offset s), [])
              else (s, find_printable_text new_text)
    | Some _ => (s, new_text)
    end in
  let output_str := trim_text (decoded_text s ++ new_text) (i_finished it) (no_stop_trim it) in
  (MkStatus (decoded_text s) (decode_ids s) (surr_offset s) (read_offset s) (length output_str), drop (sent_offset s) output_str).
Definition emit (it : Item) (surr_text read_text : text) : D text :=
  l ← st_gets id;
  s ← st_lift (unwrap RuntimeError (status_get (rid it) l));
  let r := advance it s surr_text read_text in
  _ ← st_modify (match i_finished it with None => status_put (rid it) r.1 | Some _ => status_del (rid it) end);
  mret r.2.
Fixpoint emit_all (items : list Item) (surr_texts read_texts : list text) : D (list text) :=
  match items with
  | [] => mret []
  | it :: items =>
      su ← st_lift (unwrap IndexError (head surr_texts));
      re ← st_lift (unwrap IndexError (head read_texts));
      t ← emit it su re;
      ts ← emit_all items (tail surr_texts) (tail read_texts);
      mret (t :: ts)
  end.

(** [_decode_batch_token_id_output] *)
Definition decode_batch (items : list Item) : D (list text) :=
  ids ← admit_all items;
  let keys := (λ it, (skip_special it, spaces_between it)) <$> items in
  surr_texts ← st_lift (decode_texts ids.*2 keys);
  read_texts ← st_lift (decode_texts ids.*1 keys);
  emit_all items surr_texts read_texts.

(** [handle_batch_token_id_out], the texts of its result. *)
Definition handle_batch (items : list Item) : D (list text) :=
  match items with [] => mret [] | _ => decode_batch items end.

(** The batches that arrive one after another. *)
Fixpoint run_batches (batches : list (list Item)) : D (list (list text)) :=
  match batches with
  | [] => mret []
  | b :: batches => t ← handle_batch b; ts ← run_batches batches; mret (t :: ts)
  end.
End detokenizer.
