(* ===== verification/DetokInv.v ===== *)
(** Lemmas on the detokenizer: decoding in groups is decoding one by one, and the requests of
    a batch do not disturb each other. *)
From S2P Require Import Prelude PyStr Detok.
From stdpp Require Import options.

(** ** Groups *)

Lemma elem_of_add_to_group key i groups k j :
  (∃ js, (k, js) ∈ add_to_group key i groups ∧ j ∈ js) ↔ (∃ js, (k, js) ∈ groups ∧ j ∈ js) ∨ (k = key ∧ j = i).
Proof.
  induction groups as [|[k' is'] groups IH]; simpl.
  - split; [intros (js & [= -> ->]%list_elem_of_singleton & ->%list_elem_of_singleton); by right|].
    intros [(js & ?%elem_of_nil & _)|[-> ->]]; [done|]. exists [i]. by split; apply list_elem_of_singleton.
  - case_decide as Hk.
    + subst k'. split.
      * intros (js & [[= -> ->]|Hin]%elem_of_cons & Hj); [|left; exists js; split; [by right|done]].
        apply elem_of_app in Hj as [Hj| ->%list_elem_of_singleton]; [left; exists is'; split; [by left|done]|by right].
      * intros [(js & [[= -> ->]|Hin]%elem_of_cons & Hj)|[-> ->]].
        -- exists (is' ++ [i]). split; [by left|]. apply elem_of_app. by left.
        -- exists js. split; [by right|done].
        -- exists (is' ++ [i]). split; [by left|]. apply elem_of_app. right. by apply list_elem_of_singleton.
    + split.
      * intros (js & [[= -> ->]|Hin]%elem_of_cons & Hj); [left; exists is'; split; [by left|done]|].
        destruct (proj1 IH (ex_intro _ js (conj Hin Hj))) as [(js' & ? & ?)|?]; [left; exists js'; split; [by right|done]|by right].
      * intros [(js & [[= -> ->]|Hin]%elem_of_cons & Hj)|Hnew].
        -- exists is'. split; [by left|done].
        -- destruct (proj2 IH (or_introl (ex_intro _ js (conj Hin Hj)))) as (js' & ? & ?). exists js'. split; [by right|done].
        -- destruct (proj2 IH (or_intror Hnew)) as (js' & ? & ?). exists js'. split; [by right|done].
Qed.

(** Request [j] is in the group of its key, and nowhere else. *)
Lemma elem_of_group_indices keys : ∀ i groups k j,
  (∃ js, (k, js) ∈ group_indices i keys groups ∧ j ∈ js)
  ↔ (∃ js, (k, js) ∈ groups ∧ j ∈ js) ∨ (i ≤ j ∧ keys !! (j - i) = Some k).
Proof.
  induction keys as [|k0 keys IH]; intros i groups k j; simpl.
  - split; [by left|]. by intros [?|[_ ?]].
  - rewrite IH, elem_of_add_to_group. split.
    + intros [[?|[-> ->]]|[Hle Hk]]; [by left|right; split; [done|by rewrite Nat.sub_diag]|right; split; [lia|]].
      replace (j - i) with (S (j - S i)) by lia. done.
    + intros [?|[Hle Hk]]; [by left; left|]. destruct (decide (j = i)) as [->|Hne].
      * rewrite Nat.sub_diag in Hk. simpl in Hk. left. right. by simplify_eq.
      * right. split; [lia|]. replace (j - i) with (S (j - S i)) in Hk by lia. done.
Qed.

Lemma write_texts_spec (f : nat → text) js : ∀ results i,
  write_texts js (f <$> js) results !! i = (if decide (i ∈ js ∧ i < length results) then Some (f i) else results !! i)
  ∧ length (write_texts js (f <$> js) results) = length results.
Proof.
  induction js as [|j js IH]; intros results i.
  { split; [|done]. case_decide as Hd; [|done]. destruct Hd as [Hd _]. by apply elem_of_nil in Hd. }
  cbn [write_texts fmap list_fmap].
  destruct (IH (<[j := f j]> results) i) as [E ->]. rewrite length_insert in *. split; [|done]. rewrite E.
  destruct (decide (i ∈ js ∧ i < length results)) as [[Hin Hlt]|Hn].
  - rewrite decide_True; [done|]. split; [by right|done].
  - destruct (decide (i = j)) as [->|Hne].
    + destruct (decide (j < length results)) as [Hlt|Hge].
      * rewrite list_lookup_insert_eq by done. rewrite decide_True; [done|]. split; [by left|done].
      * rewrite list_insert_ge by lia. rewrite decide_False; [done|]. tauto.
    + rewrite list_lookup_insert_ne by done. rewrite decide_False; [done|]. intros [[->|Hi]%elem_of_cons Hlt]; [done|]. apply Hn. done.
Qed.

Section decoding.
Context (decode : bool → bool → list Z → text) (batch_decode : bool → bool → list (list Z) → list text).
Context (Hbatch : ∀ skip space l, batch_decode skip space l = decode skip space <$> l).

Lemma decode_groups_spec (ids_list : list (list Z)) (keys : list (bool * bool)) groups : ∀ results,
  length results = length ids_list →
  (∀ k js j, (k, js) ∈ groups → j ∈ js → keys !! j = Some k) →
  let f j := decode (keys !!! j).1 (keys !!! j).2 (ids_list !!! j) in
  let r := foldl (λ results g, decode_group batch_decode ids_list g results) results groups in
  length r = length ids_list
  ∧ ∀ i, i < length ids_list →
      ((∃ k js, (k, js) ∈ groups ∧ i ∈ js) ∨ results !! i = Some (f i)) → r !! i = Some (f i).
Proof using Hbatch.
  induction groups as [|[k js] groups IH]; intros results Hlen Hkeys f; simpl.
  { split; [done|]. intros i Hi [(k & js & ?%elem_of_nil & _)|Hr]; done. }
  assert (decode_group batch_decode ids_list (k, js) results = write_texts js (f <$> js) results) as Hd.
  { unfold decode_group. simpl. rewrite Hbatch, <-list_fmap_compose. f_equal. apply list_fmap_ext. intros n j Hj. unfold f. simpl.
    rewrite (list_lookup_total_correct keys j k); [done|]. apply (Hkeys k js); [by left|by eapply list_elem_of_lookup_2]. }
  rewrite Hd. destruct (IH (write_texts js (f <$> js) results)) as [Hl Hr].
  { by rewrite (proj2 (write_texts_spec f js results 0)). }
  { intros k' js' j Hin. apply Hkeys. by right. }
  split; [done|]. intros i Hi Hor. apply Hr; [done|]. rewrite (proj1 (write_texts_spec f js results i)).
  destruct Hor as [(k' & js' & [[= -> ->]|Hin]%elem_of_cons & Hj)|Hres].
  - right. rewrite decide_True; [done|]. split; [done|lia].
  - left. by exists k', js'.
  - right. case_decide; done.
Qed.

(** Decoding a batch in groups is decoding its requests one by one. *)
Lemma grouped_decode_spec ids_list keys :
  keys ≠ [] → length ids_list = length keys →
  grouped_batch_decode batch_decode ids_list keys = Ok (zip_with (λ k ids, decode k.1 k.2 ids) keys ids_list).
Proof using Hbatch.
  intros Hne Hlen. unfold grouped_batch_decode. destruct keys as [|first keys]; [done|]. set (ks := first :: keys) in *.
  case_bool_decide as Hall; f_equal.
  - rewrite Hbatch. clear Hne. revert ids_list Hlen. induction Hall as [|k l -> _ IH]; intros [|ids ids_list] Hlen; try done. simpl. f_equal. apply IH. simpl in Hlen. lia.
  - destruct (decode_groups_spec ids_list ks (group_indices 0 ks []) (replicate (length ids_list) [])) as [Hl Hr].
    + by rewrite length_replicate.
    + intros k js j Hin Hj. destruct (proj1 (elem_of_group_indices ks 0 [] k j) (ex_intro _ js (conj Hin Hj))) as [(? & ?%elem_of_nil & _)|[_ Hk]]; [done|].
      by rewrite Nat.sub_0_r in Hk.
    + apply list_eq_same_length with (n := length ids_list); [rewrite length_zip_with; lia|done|]. intros i x y Hi Hx Hy.
      destruct (lookup_lt_is_Some_2 ks i) as [k Hk]; [lia|]. destruct (lookup_lt_is_Some_2 ids_list i Hi) as [ids Hids].
      rewrite Hr in Hx; [|done|].
      * apply lookup_zip_with_Some in Hy as (? & ? & -> & Hk' & Hids'). rewrite (list_lookup_total_correct _ _ _ Hk), (list_lookup_total_correct _ _ _ Hids) in Hx. congruence.
      * left. destruct (proj2 (elem_of_group_indices ks 0 [] k i)) as (js & Hin & Hj); [right; rewrite Nat.sub_0_r; split; [lia|done]|]. by exists k, js.
Qed.

Lemma decode_texts_spec disabled ids_list keys :
  keys ≠ [] → length ids_list = length keys →
  decode_texts decode batch_decode disabled ids_list keys = Ok (zip_with (λ k ids, decode k.1 k.2 ids) keys ids_list).
Proof using Hbatch. intros Hne Hlen. unfold decode_texts. destruct disabled; [done|by apply grouped_decode_spec]. Qed.
End decoding.

(** ** The dictionary *)
Lemma status_get_cons k e l : status_get k (e :: l) = if decide (e.1 = k) then Some e.2 else status_get k l.
Proof. unfold status_get. simpl. case_decide; [done|]. by destruct (list_find _ l) as [[]|]. Qed.

Lemma status_get_None k l : status_get k l = None ↔ k ∉ l.*1.
Proof.
  induction l as [|e l IH]; [split; [intros _ ?%elem_of_nil|]; done|]. rewrite status_get_cons. simpl. rewrite not_elem_of_cons.
  case_decide; naive_solver.
Qed.

Lemma status_get_app k l1 l2 : status_get k (l1 ++ l2) = match status_get k l1 with Some s => Some s | None => status_get k l2 end.
Proof. induction l1 as [|e l1 IH]; [done|]. simpl. rewrite !status_get_cons. by case_decide. Qed.

Lemma status_get_put k k' s l : status_get k (status_put k' s l) = if decide (k = k') then Some s else status_get k l.
Proof.
  unfold status_put. destruct (status_get k' l) as [s'|] eqn:E.
  - assert (∀ l, status_get k ((λ e, if decide (e.1 = k') then (k', s) else e) <$> l)
      = if decide (k = k') then (λ _, s) <$> status_get k l else status_get k l) as Hm.
    { clear. induction l as [|e l IH]; [by case_decide|]. rewrite fmap_cons, !status_get_cons, IH.
      destruct (decide (e.1 = k')), (decide (k = k')), (decide (e.1 = k)); simpl; repeat case_decide; simplify_eq; try done; congruence. }
    rewrite Hm. case_decide; [subst; by rewrite E|done].
  - rewrite status_get_app, status_get_cons. simpl. destruct (decide (k = k')) as [->|Hne].
    + rewrite E. by rewrite decide_True.
    + destruct (status_get k l); [done|]. by rewrite decide_False by congruence.
Qed.

Lemma status_get_del k k' l : status_get k (status_del k' l) = if decide (k = k') then None else status_get k l.
Proof.
  unfold status_del. induction l as [|e l IH]; [by case_decide|]. rewrite filter_cons, status_get_cons.
  repeat case_decide; rewrite ?status_get_cons, ?IH; repeat case_decide; simplify_eq; try done; congruence.
Qed.

Lemma status_put_keys k s l : (status_put k s l).*1 = match status_get k l with Some _ => l.*1 | None => l.*1 ++ [k] end.
Proof.
  unfold status_put. destruct (status_get k l); [|by rewrite fmap_app]. rewrite <-list_fmap_compose. apply list_fmap_ext.
  intros i e _. simpl. by case_decide.
Qed.

(** Distinct keys, all of them among [U]. *)
Definition dict_ok (U : list string) (l : statuses) : Prop := NoDup l.*1 ∧ l.*1 ⊆ U.

Lemma dict_ok_put U k s l : dict_ok U l → k ∈ U → dict_ok U (status_put k s l).
Proof.
  intros [Hnd Hsub] Hk. unfold dict_ok. rewrite status_put_keys. destruct (status_get k l) eqn:E; [done|]. apply status_get_None in E.
  split; [|set_solver]. apply NoDup_app. split_and!; [done| |apply NoDup_singleton]. by intros x Hx ->%list_elem_of_singleton.
Qed.
Lemma dict_ok_del U k l : dict_ok U l → dict_ok U (status_del k l).
Proof.
  intros [Hnd Hsub]. assert ((status_del k l).*1 = filter (λ x, x ≠ k) l.*1) as E.
  { unfold status_del. clear. induction l as [|e l IH]; [done|]. rewrite fmap_cons, !filter_cons. case_decide; simpl; by rewrite <-IH. }
  split; rewrite E; [by apply NoDup_filter|]. intros x Hx%list_elem_of_filter. apply Hsub, Hx.
Qed.

(** A new key does not push out an old one. *)
Lemma setitem_room U capacity k s l :
  dict_ok U l → k ∈ U → k ∉ l.*1 → NoDup U → length U ≤ capacity → setitem capacity k s l = status_put k s l.
Proof.
  intros [Hnd Hsub] Hk Hno HU Hcap. unfold setitem. rewrite bool_decide_false; [done|].
  assert (length (k :: l.*1) ≤ length U) as Hle; [|simpl in Hle; rewrite length_fmap in Hle; lia].
  apply submseteq_length, NoDup_submseteq; [by constructor|]. intros x [->|Hx]%elem_of_cons; [done|by apply Hsub].
Qed.

(** ** A batch, request by request *)
Section batch.
Context (decode : bool → bool → list Z → text) (batch_decode : bool → bool → list (list Z) → list text).
Context (Hbatch : ∀ skip space l, batch_decode skip space l = decode skip space <$> l).
Context (capacity : nat) (disabled gpt_oss : bool) (U : list string) (HU : NoDup U) (Hcap : length U ≤ capacity).

(** What a batch does to one request: its new status, [None] once it is finished, and the
    text that is sent. *)
Definition decode_one (it : Item) (o : option DecodeStatus) : result (option DecodeStatus * text) :=
  let s := enter it o in
  read ← read_ids gpt_oss it s;
  let r := advance it s (decode (skip_special it) (spaces_between it) (surr_ids s)) (decode (skip_special it) (spaces_between it) read) in
  Ok (match i_finished it with None => Some r.1 | Some _ => None end, r.2).

Lemma admit_all_spec items : ∀ l,
  dict_ok U l → NoDup (rid <$> items) → (∀ it, it ∈ items → rid it ∈ U) →
  (∀ it, it ∈ items → ∃ r, read_ids gpt_oss it (enter it (status_get (rid it) l)) = Ok r) →
  ∃ xs l', admit_all capacity gpt_oss items l = Ok (xs, l') ∧ dict_ok U l' ∧ length xs = length items
    ∧ (∀ j it, items !! j = Some it →
         let s := enter it (status_get (rid it) l) in
         status_get (rid it) l' = Some s ∧ ∃ r, read_ids gpt_oss it s = Ok r ∧ xs !! j = Some (r, surr_ids s))
    ∧ ∀ k, k ∉ rid <$> items → status_get k l' = status_get k l.
Proof using HU Hcap.
  induction items as [|it items IH]; intros l Hok Hnd Hin Hread; cbn [admit_all].
  { by exists [], l. }
  rewrite fmap_cons in Hnd. apply NoDup_cons in Hnd as [Hfresh Hnd]. set (s := enter it (status_get (rid it) l)).
  assert (rid it ∈ U) as HitU by (apply Hin; by left). destruct (Hread it ltac:(by left)) as [r Hr].
  set (l1 := status_put (rid it) s l).
  assert (∀ k, k ≠ rid it → status_get k l1 = status_get k l) as Hother by (intros k Hk; unfold l1; by rewrite status_get_put, decide_False).
  assert (admit_one capacity gpt_oss it l = Ok ((r, surr_ids s), l1)) as Eadmit.
  { unfold admit_one, mbind, ST_bind, st_bind, st_gets, st_modify, st_lift, id. fold s. unfold s in Hr. fold s in Hr.
    assert ((match status_get (rid it) l with None => setitem capacity (rid it) s | Some _ => status_put (rid it) s end) l = l1) as ->.
    { destruct (status_get (rid it) l) eqn:E; [done|]. apply status_get_None in E. by apply (setitem_room U). }
    by rewrite Hr. }
  destruct (IH l1) as (xs & l' & E & Hok' & Hlen & Hall & Hrest).
  { by apply dict_ok_put. } { done. } { intros i Hi. apply Hin. by right. }
  { intros i Hi. rewrite Hother by (intros Heq; apply Hfresh; rewrite <-Heq; by apply list_elem_of_fmap_2). apply Hread. by right. }
  exists ((r, surr_ids s) :: xs), l'. unfold mbind, ST_bind, st_bind. rewrite Eadmit, E. split_and!; [done|done|simpl; lia| |].
  - intros [|j] i Hi; simpl in Hi; [injection Hi as <-|].
    + split; [rewrite Hrest by done; unfold l1; by rewrite status_get_put, decide_True|]. by exists r.
    + specialize (Hall j i Hi). rewrite Hother in Hall; [done|]. intros Heq. apply Hfresh. rewrite <-Heq.
      apply list_elem_of_fmap_2. by eapply list_elem_of_lookup_2.
  - intros k Hk. rewrite fmap_cons, not_elem_of_cons in Hk. rewrite Hrest, Hother by apply Hk. done.
Qed.

Lemma emit_all_spec items : ∀ l (f : Item → DecodeStatus) (su re : Item → text),
  dict_ok U l → NoDup (rid <$> items) → (∀ it, it ∈ items → rid it ∈ U) →
  (∀ it, it ∈ items → status_get (rid it) l = Some (f it)) →
  ∃ outs l', emit_all items (su <$> items) (re <$> items) l = Ok (outs, l') ∧ dict_ok U l'
    ∧ outs = (λ it, (advance it (f it) (su it) (re it)).2) <$> items
    ∧ (∀ it, it ∈ items → status_get (rid it) l' = match i_finished it with None => Some (advance it (f it) (su it) (re it)).1 | Some _ => None end)
    ∧ ∀ k, k ∉ rid <$> items → status_get k l' = status_get k l.
Proof using.
  induction items as [|it items IH]; intros l f su re Hok Hnd Hin Hst; cbn [emit_all].
  { exists [], l. split_and!; [done|done|done|by intros it ?%elem_of_nil|done]. }
  rewrite fmap_cons in Hnd. apply NoDup_cons in Hnd as [Hfresh Hnd]. set (r := advance it (f it) (su it) (re it)).
  set (l1 := match i_finished it with None => status_put (rid it) r.1 l | Some _ => status_del (rid it) l end).
  assert (∀ k, k ≠ rid it → status_get k l1 = status_get k l) as Hother.
  { intros k Hk. unfold l1. destruct (i_finished it); [rewrite status_get_del|rewrite status_get_put]; by rewrite decide_False. }
  assert (emit it (su it) (re it) l = Ok (r.2, l1)) as Eemit.
  { unfold emit, mbind, ST_bind, st_bind, st_gets, st_lift, st_modify, id. rewrite Hst by (by left). simpl. fold r. unfold l1. by destruct (i_finished it). }
  assert (∀ i, i ∈ items → rid i ≠ rid it) as Hne by (intros i Hi Heq; apply Hfresh; rewrite <-Heq; by apply list_elem_of_fmap_2).
  destruct (IH l1 f su re) as (outs & l' & E & Hok' & -> & Hall & Hrest).
  { unfold l1. destruct (i_finished it); [by apply dict_ok_del|apply dict_ok_put; [done|apply Hin; by left]]. }
  { done. } { intros i Hi. apply Hin. by right. } { intros i Hi. rewrite Hother by (by apply Hne). apply Hst. by right. }
  eexists _, l'. unfold mbind, ST_bind, st_bind. cbn [fmap list_fmap head tail st_lift unwrap]. rewrite Eemit, E.
  split_and!; [done|done|done| |].
  - intros i [->|Hi]%elem_of_cons; [|by apply Hall]. rewrite Hrest by done. unfold l1.
    destruct (i_finished it); [rewrite status_get_del|rewrite status_get_put]; by rewrite decide_True.
  - intros k Hk. apply not_elem_of_cons in Hk. rewrite Hrest, Hother by apply Hk. done.
Qed.

(** Every request of a batch advances by itself. *)
Lemma handle_batch_spec items l :
  dict_ok U l → NoDup (rid <$> items) → (∀ it, it ∈ items → rid it ∈ U) →
  (∀ it, it ∈ items → ∃ r, read_ids gpt_oss it (enter it (status_get (rid it) l)) = Ok r) →
  ∃ outs l', handle_batch decode batch_decode capacity disabled gpt_oss items l = Ok (outs, l') ∧ dict_ok U l' ∧ length outs = length items
    ∧ (∀ j it, items !! j = Some it → ∃ t, outs !! j = Some t ∧ decode_one it (status_get (rid it) l) = Ok (status_get (rid it) l', t))
    ∧ ∀ k, k ∉ rid <$> items → status_get k l' = status_get k l.
Proof using Hbatch HU Hcap.
  intros Hok Hnd Hin Hread. destruct (decide (items = [])) as [->|Hne].
  { by exists [], l. }
  assert (handle_batch decode batch_decode capacity disabled gpt_oss items = decode_batch decode batch_decode capacity disabled gpt_oss items) as ->.
  { by destruct items. }
  destruct (admit_all_spec items l Hok Hnd Hin Hread) as (xs & l1 & E1 & Hok1 & Hlen & Hall & Hrest).
  set (f it := enter it (status_get (rid it) l)).
  set (dec it ids := decode (skip_special it) (spaces_between it) ids).
  set (rd it := match read_ids gpt_oss it (f it) with Ok r => r | _ => [] end).
  assert (xs = (λ it, (rd it, surr_ids (f it))) <$> items) as ->.
  { apply list_eq_same_length with (n := length items); [by rewrite length_fmap|done|]. intros j x y Hj Hx Hy.
    apply list_lookup_fmap_Some in Hy as (it & -> & Hit). destruct (Hall j it Hit) as (_ & r & Hr & Hx'). unfold rd, f. rewrite Hr. congruence. }
  set (keys := (λ it, (skip_special it, spaces_between it)) <$> items).
  assert (∀ g, zip_with (λ k ids, decode k.1 k.2 ids) keys (g <$> items) = (λ it, dec it (g it)) <$> items) as Hzip.
  { intros g. unfold keys, dec. clear. induction items as [|it items IH]; [done|]. cbn [fmap list_fmap zip_with]. by f_equal. }
  destruct (emit_all_spec items l1 f (λ it, dec it (surr_ids (f it))) (λ it, dec it (rd it)) Hok1 Hnd Hin) as (outs & l' & E2 & Hok' & -> & Hfin & Hrest').
  { intros it [j Hj]%list_elem_of_lookup. by destruct (Hall j it Hj) as [? _]. }
  eexists _, l'. split_and!.
  - unfold decode_batch, mbind, ST_bind, st_bind. rewrite E1. fold keys. rewrite <-!list_fmap_compose.
    rewrite !(decode_texts_spec decode batch_decode Hbatch) by (unfold keys; rewrite ?length_fmap; by destruct items). cbn [st_lift].
    rewrite !Hzip. exact E2.
  - done.
  - by rewrite length_fmap.
  - intros j it Hj. rewrite list_lookup_fmap, Hj. simpl. eexists. split; [done|]. destruct (Hall j it Hj) as (_ & r & Hr & _).
    assert (it ∈ items) as Hit by (by eapply list_elem_of_lookup_2). unfold decode_one. fold (f it). unfold f in Hr. fold (f it) in Hr.
    rewrite Hr, (Hfin it Hit). simpl. unfold rd. rewrite Hr. done.
  - intros k Hk. by rewrite Hrest', Hrest.
Qed.
End batch.

(** The text a request receives over all its batches. *)

(** ** The requests of a sequence of batches *)

(** What the batches hold for request [k], and the texts sent to it. *)
Definition stream (k : string) (batches : list (list Item)) : list Item := filter (λ it, rid it = k) (concat batches).
Definition texts_of (k : string) (batches : list (list Item)) (outs : list (list text)) : list text :=
  (filter (λ x, rid x.1 = k) (concat (zip_with zip batches outs))).*2.

(** At most one request of a batch has a given id. *)
Lemma batch_of k b :
  NoDup (rid <$> b) → (filter (λ it, rid it = k) b = [] ∧ k ∉ rid <$> b) ∨ (∃ j it, b !! j = Some it ∧ rid it = k ∧ filter (λ it, rid it = k) b = [it]
    ∧ ∀ outs : list text, length outs = length b → ∃ t, outs !! j = Some t ∧ filter (λ x, rid x.1 = k) (zip b outs) = [(it, t)]).
Proof.
  induction b as [|it b IH]; intros Hnd; [left; split; [done|by intros ?%elem_of_nil]|]. rewrite fmap_cons in *. apply NoDup_cons in Hnd as [Hf Hnd].
  assert (k ∉ rid <$> b → ∀ outs : list text, filter (λ x, rid x.1 = k) (zip b outs) = []) as Hnone.
  { clear. induction b as [|i b IH]; intros Hk [|t outs]; try done. rewrite fmap_cons, not_elem_of_cons in Hk. cbn [zip_with].
    rewrite filter_cons_False by (simpl; naive_solver). apply IH, Hk. }
  rewrite filter_cons. destruct (decide (rid it = k)) as [<-|Hne].
  - right. exists 0, it. destruct (IH Hnd) as [[-> Hk]|(j & i & Hj & Hi & _)]; [|exfalso; apply Hf; rewrite <-Hi; apply list_elem_of_fmap_2; by eapply list_elem_of_lookup_2].
    split_and!; [done|done|done|]. intros [|t outs] Hlen; [done|]. exists t. split; [done|]. cbn [zip_with]. rewrite filter_cons_True by done. by rewrite Hnone.
  - destruct (IH Hnd) as [[-> Hk]|(j & i & Hj & Hi & -> & Ho)]; [left; split; [done|]; rewrite not_elem_of_cons; naive_solver|].
    right. exists (S j), i. split_and!; [done|done|done|]. intros [|t outs] Hlen; [done|]. destruct (Ho outs) as (t' & Ht & Hz); [simpl in Hlen; lia|].
    exists t'. split; [done|]. cbn [zip_with]. by rewrite filter_cons_False.
Qed.

Section streams.
Context (decode : bool → bool → list Z → text) (batch_decode : bool → bool → list (list Z) → list text).
Context (Hbatch : ∀ skip space l, batch_decode skip space l = decode skip space <$> l).
Context (capacity : nat) (disabled gpt_oss : bool) (U : list string) (HU : NoDup U) (Hcap : length U ≤ capacity).
Local Abbreviation one := (decode_one decode gpt_oss).

(** A request by itself. *)
Fixpoint run_one (its : list Item) (o : option DecodeStatus) : result (list text * option DecodeStatus) :=
  match its with
  | [] => Ok ([], o)
  | it :: its => x ← one it o; y ← run_one its x.1; Ok (x.2 :: y.1, y.2)
  end.

Lemma run_one_app its1 : ∀ its2 o ts1 o1 ts2 o2,
  run_one its1 o = Ok (ts1, o1) → run_one its2 o1 = Ok (ts2, o2) → run_one (its1 ++ its2) o = Ok (ts1 ++ ts2, o2).
Proof using.
  induction its1 as [|it its1 IH]; intros its2 o ts1 o1 ts2 o2; simpl; [by intros [= <- <-]|].
  destruct (one it o) as [[o' t]| |]; simpl; [|done|done]. destruct (run_one its1 o') as [[ts o'']| |] eqn:E; simpl; [|done|done].
  intros [= <- <-] E2. by rewrite (IH _ _ _ _ _ _ E E2).
Qed.

Lemma run_one_cons_inv it its o x : run_one (it :: its) o = Ok x → ∃ y z, one it o = Ok y ∧ run_one its y.1 = Ok z ∧ x = (y.2 :: z.1, z.2).
Proof using.
  simpl. destruct (one it o) as [y| |]; simpl; [|done|done]. destruct (run_one its y.1) as [z| |] eqn:E; simpl; [|done|done].
  intros [= <-]. by exists y, z.
Qed.

Lemma one_read it o x : one it o = Ok x → ∃ r, read_ids gpt_oss it (enter it o) = Ok r.
Proof using. unfold decode_one. destruct (read_ids gpt_oss it (enter it o)) as [r| |]; [by exists r|done|done]. Qed.

(** Over any batches every request advances by itself. *)
Lemma run_batches_spec batches : ∀ l,
  dict_ok U l → Forall (λ b, NoDup (rid <$> b) ∧ ∀ it, it ∈ b → rid it ∈ U) batches →
  (∀ k, ∃ x, run_one (stream k batches) (status_get k l) = Ok x) →
  ∃ outs l', run_batches decode batch_decode capacity disabled gpt_oss batches l = Ok (outs, l')
    ∧ ∀ k, run_one (stream k batches) (status_get k l) = Ok (texts_of k batches outs, status_get k l').
Proof using Hbatch HU Hcap.
  induction batches as [|b batches IH]; intros l Hok Hwf Hrun; cbn [run_batches].
  { exists [], l. done. }
  inversion Hwf as [|? ? [Hnd HbU] Hwf']; subst.
  assert (∀ k, stream k (b :: batches) = filter (λ it, rid it = k) b ++ stream k batches) as Hst by (intros k; unfold stream; simpl; by rewrite filter_app).
  destruct (handle_batch_spec decode batch_decode Hbatch capacity disabled gpt_oss U HU Hcap b l Hok Hnd HbU) as (outs & l1 & E1 & Hok1 & Hlen & Hall & Hrest).
  { intros it Hit. destruct (Hrun (rid it)) as [x Hx]. rewrite Hst in Hx. destruct (batch_of (rid it) b Hnd) as [[_ Hno]|(j & i & Hj & Hi & Hf & _)].
    - exfalso. apply Hno. by apply list_elem_of_fmap_2.
    - assert (i ∈ filter (λ i, rid i = rid it) b) as Hin by (rewrite Hf; by apply list_elem_of_singleton).
      assert (it ∈ filter (λ i, rid i = rid it) b) as Hin' by (by apply list_elem_of_filter). rewrite Hf in Hin', Hx. apply list_elem_of_singleton in Hin' as <-.
      apply run_one_cons_inv in Hx as (y & z & Hy & _). by eapply one_read. }
  assert (∀ k, ∃ ts, run_one (filter (λ it, rid it = k) b) (status_get k l) = Ok (ts, status_get k l1) ∧ (filter (λ x, rid x.1 = k) (zip b outs)).*2 = ts) as Hone.
  { intros k. destruct (batch_of k b Hnd) as [[Hf Hno]|(j & it & Hj & <- & Hf & Ho)].
    - exists []. rewrite Hf, (Hrest k Hno). split; [done|].
      assert (∀ x, x ∈ filter (λ x, rid x.1 = k) (zip b outs) → False) as Hx.
      { intros [i t] [Hi Hz]%list_elem_of_filter. apply elem_of_zip_l in Hz. apply Hno. rewrite <-Hi. by apply list_elem_of_fmap_2. }
      destruct (filter _ (zip b outs)) as [|x ?]; [done|]. destruct (Hx x). by left.
    - destruct (Ho outs Hlen) as (t & Ht & ->). destruct (Hall j it Hj) as (t' & Ht' & Ed). simplify_eq. rewrite Hf. exists [t]. split; [|done].
      simpl. by rewrite Ed. }
  destruct (IH l1 Hok1 Hwf') as (outs2 & l2 & E2 & Hall2).
  { intros k. destruct (Hrun k) as [x Hx]. rewrite Hst in Hx. destruct (Hone k) as (ts & Hts & _). revert Hx Hts. generalize (filter (λ it, rid it = k) b), (status_get k l).
    intros l0. revert ts x. induction l0 as [|i l0 IHl]; intros ts x o Hx Hts; simpl in Hts; [injection Hts as <- <-; by exists x|].
    apply run_one_cons_inv in Hx as (y & z & Hy & Hz & ->). rewrite Hy in Hts. simpl in Hts. destruct (run_one l0 y.1) as [[ts' o']| |] eqn:E; simpl in Hts; [|done|done].
    injection Hts as <- ->. by eapply IHl. }
  exists (outs :: outs2), l2. unfold mbind, ST_bind, st_bind. rewrite E1, E2. split; [done|]. intros k. rewrite Hst.
  destruct (Hone k) as (ts & Hts & Htx). rewrite (run_one_app _ _ _ _ _ _ _ Hts (Hall2 k)). unfold texts_of. simpl. rewrite filter_app, fmap_app. by rewrite Htx.
Qed.
End streams.

(** ** Text *)

(** Text that a further token cannot change: it does not end in a broken character. *)
Definition settled (t : text) : Prop := t ≠ [] ∧ last t ≠ Some replacement_char.

(** What is known of a tokenizer, for [dec] its [decode] and [raw] the text of tokens that
    follow others: behind tokens that end with a whole character the text of further
    tokens does not depend on what is before, and only broken characters at the end of a
    text change when tokens are added. *)
Record tokenizer_laws (dec raw : list Z → text) : Prop := {
  tl_context : ∀ S R, settled (raw S) → dec (S ++ R) = dec S ++ raw R;
  tl_app : ∀ S R, settled (raw S) → raw (S ++ R) = raw S ++ raw R;
  tl_stable : ∀ R R' t k, raw R = t ++ replicate k replacement_char → last t ≠ Some replacement_char → t `prefix_of` raw (R ++ R');
}.
(** A byte-level tokenizer: a token has bytes (none, if it is special and special tokens are
    skipped), and decoding is the UTF-8 decoding of the bytes of all tokens. *)
Definition byte_level (decode : bool → bool → list Z → text) (token_bytes : bool → bool → Z → list Z) : Prop :=
  ∀ skip space ids, decode skip space ids = utf8_decode (concat (token_bytes skip space <$> ids)).

Lemma byte_level_laws decode token_bytes sk sp :
  byte_level decode token_bytes → tokenizer_laws (decode sk sp) (decode sk sp).
Proof.
  intros Hb. assert (∀ S R, settled (decode sk sp S) → decode sk sp (S ++ R) = decode sk sp S ++ decode sk sp R) as Happ.
  { intros S R [_ Hl]. rewrite Hb in *. rewrite (Hb sk sp S), (Hb sk sp R), fmap_app, concat_app. by apply utf8_decode_app. }
  split; [done|done|]. intros R R' t k. rewrite !Hb, fmap_app, concat_app. apply utf8_decode_stable.
Qed.

(** A text that ends with a broken character behind a Chinese one. *)
Definition breaks_after_cjk (t : text) : Prop := ∃ u c, t = u ++ [c; replacement_char] ∧ is_chinese_char c = true.

Definition upto_space (t : text) : text := take (match rfind_char 32 t with Some i => S i | None => 0 end) t.

Lemma rfind_char_Some c s i : rfind_char c s = Some i → s !! i = Some c.
Proof.
  revert i. induction s as [|x s IH]; intros i Hi; [done|]. simpl in Hi. destruct (rfind_char c s) as [j|].
  - injection Hi as <-. simpl. by apply IH.
  - case_decide; [|done]. injection Hi as <-. simpl. congruence.
Qed.
Lemma rfind_char_last c s j : s !! j = Some c → ∃ i, rfind_char c s = Some i ∧ j ≤ i.
Proof.
  revert j. induction s as [|x s IH]; intros [|j] Hj; try done; simpl in *.
  - injection Hj as ->. destruct (rfind_char c s) as [i|]; [exists (S i); split; [done|lia]|]. rewrite decide_True by done. by exists 0.
  - destruct (IH j Hj) as (i & -> & Hi). exists (S i). split; [done|lia].
Qed.

(** [u] is empty or ends with a space. *)
Definition whole_words (u : text) : Prop := u = [] ∨ last u = Some 32%Z.

Lemma upto_space_prefix t : upto_space t `prefix_of` t.
Proof. unfold upto_space. apply prefix_take. Qed.
Lemma upto_space_words t : whole_words (upto_space t).
Proof.
  unfold upto_space, whole_words. destruct (rfind_char 32 t) as [i|] eqn:E; [right|by left].
  apply rfind_char_Some in E. rewrite (take_S_r _ _ _ E). by rewrite last_snoc.
Qed.
Lemma words_upto_space u t : whole_words u → u `prefix_of` t → u `prefix_of` upto_space t.
Proof.
  intros [->|Hl] [k ->]; [apply prefix_nil|]. destruct (decide (u = [])) as [->|Hne]; [done|].
  assert ((u ++ k) !! pred (length u) = Some 32%Z) as Hj by (rewrite lookup_app_l by (destruct u; simpl in *; [done|lia]); by rewrite <-last_lookup).
  destruct (rfind_char_last _ _ _ Hj) as (i & Hi & Hle). unfold upto_space. rewrite Hi. exists (take (S i - length u) k).
  rewrite take_app. f_equal. rewrite take_ge by lia. done.
Qed.

Lemma break_split t : ∃ t' k, t = t' ++ replicate k replacement_char ∧ last t' ≠ Some replacement_char.
Proof.
  induction t as [|x t IH] using rev_ind; [by exists [], 0|]. destruct (decide (x = replacement_char)) as [->|Hne].
  - destruct IH as (t' & k & -> & Hl). exists t', (S k). by rewrite replicate_S_end, app_assoc.
  - exists (t ++ [x]), 0. rewrite app_nil_r, last_snoc. split; [done|congruence].
Qed.

Lemma upto_space_break t k : upto_space (t ++ replicate k replacement_char) `prefix_of` t.
Proof.
  unfold upto_space. destruct (rfind_char _ _) as [i|] eqn:E; [|apply prefix_nil]. apply rfind_char_Some in E.
  assert (i < length t) as Hi.
  { apply lookup_app_Some in E as [E|[_ E]]; [by eapply lookup_lt_Some|]. apply lookup_replicate in E as [E _]. done. }
  rewrite take_app_le by lia. apply prefix_take.
Qed.

(** Whole words of unsettled text stay when tokens are added. *)
Lemma upto_space_stable dec raw R R' : tokenizer_laws dec raw → upto_space (raw R) `prefix_of` upto_space (raw (R ++ R')).
Proof.
  intros Hlaws. apply words_upto_space; [apply upto_space_words|]. destruct (break_split (raw R)) as (t & k & E & Hl).
  transitivity t; [rewrite E; apply upto_space_break|by eapply tl_stable].
Qed.

(** What is printed of unsettled text. *)
Lemma printable_unsettled s :
  ¬ breaks_after_cjk s → ¬ settled s → find_printable_text s = upto_space s.
Proof.
  intros Hno Hun. unfold find_printable_text, upto_space. destruct s as [|x t _] using rev_ind; [done|].
  assert (x = replacement_char) as ->.
  { destruct (decide (x = replacement_char)); [done|]. exfalso. apply Hun. split; [by destruct t|]. rewrite last_snoc. congruence. }
  rewrite reverse_snoc. cbn [bool_decide]. destruct t as [|y t _] using rev_ind; [done|]. rewrite reverse_snoc.
  destruct (is_chinese_char y) eqn:Hy; [|done]. exfalso. apply Hno. exists t, y. by rewrite <-app_assoc.
Qed.
