(* ===== verification/DetokText.v ===== *)
(** The detokenizer sends the text of a request without loss or repetition. *)
From S2P Require Import Prelude PyStr Detok DetokInv.
From stdpp Require Import options.

Section text.
Context (dec raw : list Z → text) (Hlaws : tokenizer_laws dec raw).
(** The text before the request's own tokens, and where these begin. *)
Context (D0 : text) (r0 : nat).

(** A request with tokens [I] whose receiver has [sent]: the text up to [read_offset] is
    settled, and what was sent behind it is in every text that may follow. *)
Record resting (I : list Z) (s : DecodeStatus) (sent : text) : Prop := {
  rs_ids : decode_ids s = I;
  rs_order : surr_offset s ≤ read_offset s ∧ read_offset s ≤ length I ∧ r0 ≤ read_offset s;
  rs_context : settled (raw (py_slice (surr_offset s) (read_offset s) I));
  rs_text : decoded_text s = D0 ++ raw (py_slice r0 (read_offset s) I);
  rs_whole : read_offset s = r0 ∨ settled (raw (py_slice r0 (read_offset s) I));
  rs_sent : sent_offset s = length sent;
  rs_prefix : ∀ c, sent `prefix_of` decoded_text s ++ upto_space (raw (drop (read_offset s) I ++ c));
}.

Lemma raw_nil I s sent : resting I s sent → raw [] = [].
Proof using Hlaws.
  intros Hr. pose proof (tl_context _ _ Hlaws _ [] (rs_context _ _ _ Hr)) as E. rewrite app_nil_r in E.
  apply (f_equal length) in E. rewrite length_app in E. destruct (raw []); [done|]. simpl in E. lia.
Qed.

Lemma slice_app (a b : nat) (I c : list Z) : b ≤ length I → py_slice a b (I ++ c) = py_slice a b I.
Proof using.
  intros Hb. unfold py_slice. destruct (decide (a ≤ length I)) as [Ha|Ha].
  - rewrite drop_app_le, take_app_le by (rewrite ?length_drop; lia). done.
  - replace (b - a) with 0 by lia. done.
Qed.
Lemma slice_all (a : nat) (I : list Z) : py_slice a (length I) I = drop a I.
Proof using. unfold py_slice. apply take_ge. rewrite length_drop. lia. Qed.

Lemma slice_none (a : nat) (I : list Z) : py_slice a a I = [].
Proof using. unfold py_slice. by rewrite Nat.sub_diag, take_0. Qed.

(** New tokens are decoded behind the surrounding ones. *)
Lemma new_text_raw I s sent c :
  resting I s sent →
  drop (length (dec (py_slice (surr_offset s) (read_offset s) I)))
    (dec (py_slice (surr_offset s) (read_offset s) I ++ drop (read_offset s) I ++ c))
  = raw (drop (read_offset s) I ++ c).
Proof using Hlaws. intros Hr. rewrite (tl_context _ _ Hlaws) by apply Hr. by rewrite drop_app_length. Qed.

Lemma prefix_drop_length {A} (u v : list A) : u `prefix_of` v → u ++ drop (length u) v = v.
Proof using. intros [k ->]. by rewrite drop_app_length. Qed.

(** The text of all tokens, given a settled part. *)
Lemma whole_text I s sent c :
  resting I s sent → decoded_text s ++ raw (drop (read_offset s) I ++ c) = D0 ++ raw (drop r0 I ++ c).
Proof using Hlaws.
  intros Hr. pose proof (rs_order _ _ _ Hr) as (_ & Hread & Hr0). rewrite (rs_text _ _ _ Hr), <-app_assoc. f_equal.
  rewrite (py_slice_split r0 (read_offset s) I) by done. rewrite <-app_assoc. destruct (rs_whole _ _ _ Hr) as [E|Hs].
  - rewrite E, slice_none, (raw_nil _ _ _ Hr). done.
  - by rewrite (tl_app _ _ Hlaws (py_slice r0 (read_offset s) I)).
Qed.

(** The tokens behind [a] after new ones have come. *)
Lemma drop_new (a b : nat) (I c : list Z) : a ≤ b ≤ length I → drop a (I ++ c) = py_slice a b I ++ drop b I ++ c.
Proof using. intros Hab. rewrite drop_app_le by lia. by rewrite (py_slice_split a b I), <-app_assoc by lia. Qed.

Lemma sent_prefix I s sent c : resting I s sent → sent `prefix_of` decoded_text s ++ raw (drop (read_offset s) I ++ c).
Proof using. intros Hr. etrans; [apply (rs_prefix _ _ _ Hr c)|]. apply prefix_app, upto_space_prefix. Qed.

(** Settled text is added to the decoded text. *)
Lemma resting_commit I s sent c :
  resting I s sent → let R := drop (read_offset s) I ++ c in settled (raw R) →
  let text := decoded_text s ++ raw R in
  resting (I ++ c) (MkStatus text (I ++ c) (read_offset s) (length (I ++ c)) (length text)) (sent ++ drop (length sent) text).
Proof using Hlaws.
  intros Hr R HR text. pose proof (rs_order _ _ _ Hr) as (Hsr & Hread & Hr0).
  pose proof (drop_new r0 (read_offset s) I c ltac:(lia)) as Hd. fold R in Hd.
  rewrite prefix_drop_length by (by apply sent_prefix).
  split; cbn [decoded_text decode_ids surr_offset read_offset sent_offset].
  - done.
  - rewrite length_app. lia.
  - rewrite slice_all, (drop_new (read_offset s) (read_offset s)), slice_none by lia. done.
  - rewrite slice_all. unfold text, R. rewrite (whole_text I s sent c Hr), drop_app_le by lia. done.
  - right. rewrite slice_all, Hd. destruct (rs_whole _ _ _ Hr) as [E|Hs]; [by rewrite E, slice_none|].
    rewrite (tl_app _ _ Hlaws) by done. destruct HR as [Hne Hlast]. split; [by destruct (raw (py_slice r0 (read_offset s) I)), (raw R)|].
    rewrite last_app. destruct (last (raw R)) eqn:E; [congruence|]. by apply last_None in E.
  - done.
  - intros c'. by apply prefix_app_r.
Qed.

(** Of unsettled text the whole words are sent. *)
Lemma resting_wait I s sent c :
  resting I s sent → let R := drop (read_offset s) I ++ c in
  let text := decoded_text s ++ upto_space (raw R) in
  resting (I ++ c) (MkStatus (decoded_text s) (I ++ c) (surr_offset s) (read_offset s) (length text)) (sent ++ drop (length sent) text).
Proof using Hlaws.
  intros Hr R text. pose proof (rs_order _ _ _ Hr) as (Hsr & Hread & Hr0).
  rewrite prefix_drop_length by apply (rs_prefix _ _ _ Hr).
  split; cbn [decoded_text decode_ids surr_offset read_offset sent_offset]; rewrite ?slice_app by lia; try apply Hr; try done.
  - rewrite length_app. lia.
  - intros c'. apply prefix_app. rewrite (drop_new (read_offset s) (read_offset s)), slice_none by lia. by eapply upto_space_stable.
Qed.

#[local] Instance settled_dec t : Decision (settled t).
Proof using. unfold settled. apply _. Defined.

(** The text of a status with new tokens. *)
Definition entered (s : DecodeStatus) (I c : list Z) : DecodeStatus :=
  MkStatus (decoded_text s) (I ++ c) (surr_offset s) (read_offset s) (sent_offset s).

Lemma entered_surr I s sent c : resting I s sent → surr_ids (entered s I c) = py_slice (surr_offset s) (read_offset s) I.
Proof using. intros Hr. unfold surr_ids. apply slice_app, Hr. Qed.

(** A request that runs on. *)
Lemma advance_running it I s sent c :
  resting I s sent → i_finished it = None → ¬ breaks_after_cjk (raw (drop r0 (I ++ c))) →
  let r := advance it (entered s I c) (dec (surr_ids (entered s I c))) (dec (drop (surr_offset s) (I ++ c))) in
  resting (I ++ c) r.1 (sent ++ r.2).
Proof using Hlaws.
  intros Hr Hf Hcalm. pose proof (rs_order _ _ _ Hr) as (Hsr & Hread & Hr0). unfold advance. cbv zeta.
  rewrite Hf, (entered_surr I s sent c Hr), (drop_new (surr_offset s) (read_offset s)), (new_text_raw I s sent c Hr) by lia.
  unfold trim_text, to_trim. assert (∀ b : bool, (if b then None else None) = (None : option Matched)) as -> by by intros [].
  destruct (decide (settled (raw (drop (read_offset s) I ++ c)))) as [HR|HR].
  - rewrite (bool_decide_true _ (proj1 HR)), (bool_decide_true _ (proj2 HR)). cbn [andb fst snd entered decoded_text decode_ids surr_offset read_offset sent_offset].
    rewrite app_nil_r, (rs_sent _ _ _ Hr). by apply resting_commit.
  - destruct (bool_decide _ && bool_decide _) eqn:E; [rewrite andb_true_iff, !bool_decide_eq_true in E; by destruct HR|].
    cbn [fst snd entered decoded_text decode_ids surr_offset read_offset sent_offset].
    rewrite printable_unsettled, (rs_sent _ _ _ Hr); [by apply resting_wait| |done].
    intros (u & ch & Hb & Hc). apply Hcalm. exists (raw (py_slice r0 (read_offset s) I) ++ u), ch. split; [|done].
    pose proof (whole_text I s sent c Hr) as Hw. rewrite (rs_text _ _ _ Hr), <-app_assoc in Hw. apply app_inv_head in Hw.
    by rewrite drop_app_le, <-Hw, Hb, app_assoc by lia.
Qed.

(** The last step: [R] are the tokens behind [r0] after trimming. *)
Lemma advance_finished it f I s sent c' :
  resting I s sent → i_finished it = Some f →
  ∀ c, let r := advance it (entered s I c) (dec (surr_ids (entered s I c))) (dec (py_slice (surr_offset s) (read_offset s) I ++ drop (read_offset s) I ++ c')) in
  let T := D0 ++ raw (drop r0 I ++ c') in
  sent `prefix_of` T ∧ sent ++ r.2 = sent ++ drop (length sent) (trim_text T (i_finished it) (no_stop_trim it)).
Proof using Hlaws.
  intros Hr Hf c. cbv zeta. unfold advance. cbv zeta.
  rewrite Hf, (entered_surr I s sent c Hr), (new_text_raw I s sent c' Hr). cbn [fst snd entered decoded_text decode_ids surr_offset read_offset sent_offset].
  rewrite (rs_sent _ _ _ Hr), (whole_text I s sent c' Hr). split; [|done]. rewrite <-(whole_text I s sent c' Hr). by apply sent_prefix.
Qed.
End text.

(** ** Requests over all their batches *)

(** New tokens in every batch, the first of them behind the prompt; only the last batch may
    finish the request. *)
Definition stream_ok (its : list Item) : Prop :=
  match its with
  | [] => True
  | first :: _ => i_read_offset first < length (i_decode_ids first) ∧ Forall (λ it, i_decode_ids it ≠ []) its
      ∧ Forall (λ it, i_finished it = None) (take (length its - 1) its)
  end.

(** At the end of no batch after which the request runs on does the text of its own tokens end with
    a broken character behind a Chinese one; [I] are tokens before the batches, [r0] of all
    the tokens those of the prompt. *)
Definition calm (raw : list Z → text) (r0 : nat) (I : list Z) (its : list Item) : Prop :=
  ∀ j it, its !! j = Some it → i_finished it = None →
    ¬ breaks_after_cjk (raw (drop r0 (I ++ concat (i_decode_ids <$> take (S j) its)))).

Lemma calm_cons raw r0 I it its :
  calm raw r0 I (it :: its) → i_finished it = None →
  ¬ breaks_after_cjk (raw (drop r0 (I ++ i_decode_ids it))) ∧ calm raw r0 (I ++ i_decode_ids it) its.
Proof.
  intros Hc Hf. split.
  - specialize (Hc 0 it eq_refl Hf). simpl in Hc. by rewrite app_nil_r in Hc.
  - intros j x Hj Hx. specialize (Hc (S j) x Hj Hx). change (take (S (S j)) (it :: its)) with (it :: take (S j) its) in Hc.
    rewrite fmap_cons in Hc. cbn [concat] in Hc. by rewrite <-app_assoc.
Qed.

Lemma calm_snoc raw r0 I its fin :
  calm raw r0 I (its ++ [fin]) →
  calm raw r0 I its ∧ (i_finished fin = None → ¬ breaks_after_cjk (raw (drop r0 ((I ++ concat (i_decode_ids <$> its)) ++ i_decode_ids fin)))).
Proof.
  intros Hc. split.
  - intros j x Hj Hx. specialize (Hc j x). pose proof (lookup_lt_Some _ _ _ Hj). rewrite lookup_app_l, take_app_le in Hc by lia. by apply Hc.
  - intros Hf. specialize (Hc (length its) fin). rewrite lookup_app_r, Nat.sub_diag, take_ge in Hc by (rewrite ?length_app; simpl; lia).
    rewrite fmap_app, concat_app in Hc. simpl in Hc. rewrite app_nil_r in Hc. rewrite <-app_assoc. by apply Hc.
Qed.

Lemma to_trim_running b : to_trim None b = None.
Proof. by destruct b. Qed.

Lemma take_init {A} (l : list A) x : take (length (l ++ [x]) - 1) (l ++ [x]) = l.
Proof. rewrite length_app, Nat.add_sub. apply take_app_length. Qed.

(** Trimming tokens looks at the last one only. *)
Lemma trim_ids_app gpt_oss c f nt :
  c ≠ [] → ∃ c', trim_ids gpt_oss c f nt = Ok c' ∧ ∀ P, trim_ids gpt_oss (P ++ c) f nt = Ok (P ++ c').
Proof.
  intros Hc. unfold trim_ids. destruct (to_trim f nt) as [[m|i]|]; try by exists c.
  destruct c as [|x c _] using rev_ind; [done|]. exists (if bool_decide (x = 200012%Z) && gpt_oss then c ++ [x] else c).
  split; [rewrite last_snoc, take_init; by destruct (_ && _)|].
  intros P. rewrite app_assoc, last_snoc, take_init. destruct (_ && _); by rewrite <-?app_assoc.
Qed.

Section run.
Context (decode : bool → bool → list Z → text) (gpt_oss : bool).
Local Abbreviation one := (decode_one decode gpt_oss).
Local Abbreviation run := (run_one decode gpt_oss).

(** Whatever the tokenizer, no step of a request fails. *)
Definition sane (s : DecodeStatus) : Prop := surr_offset s ≤ length (decode_ids s) ∧ read_offset s ≤ length (decode_ids s).

Lemma one_sane it o :
  i_decode_ids it ≠ [] → match o with Some s => sane s | None => i_read_offset it < length (i_decode_ids it) end →
  ∃ o' t, one it o = Ok (o', t) ∧ match o' with Some s => i_finished it = None ∧ sane s | None => i_finished it ≠ None end.
Proof using.
  intros Hc Ho. unfold decode_one. set (s := enter it o).
  assert (∃ P, drop (surr_offset s) (decode_ids s) = P ++ i_decode_ids it) as [P HP].
  { destruct o as [s0|]; simpl; [|by exists []]. exists (drop (surr_offset s0) (decode_ids s0)). apply drop_app_le, Ho. }
  assert (sane s) as Hs.
  { unfold sane. destruct o as [s0|]; simpl; [rewrite length_app; destruct Ho; lia|lia]. }
  unfold read_ids. rewrite HP. destruct (trim_ids_app gpt_oss _ (i_finished it) (no_stop_trim it) Hc) as (c' & _ & ->). cbn [mbind result_bind].
  eexists _, _. split; [done|]. destruct (i_finished it) eqn:Hf; [done|]. split; [done|]. unfold advance. rewrite Hf. unfold sane in *.
  destruct (bool_decide _ && bool_decide _); simpl; [|done]. lia.
Qed.

Lemma run_sane its : ∀ o,
  Forall (λ it, i_decode_ids it ≠ []) its → Forall (λ it, i_finished it = None) (take (length its - 1) its) →
  match o with Some s => sane s | None => match its with [] => True | it :: _ => i_read_offset it < length (i_decode_ids it) end end →
  ∃ x, run its o = Ok x.
Proof using.
  induction its as [|it its IH]; intros o Hne Hfin Ho; [by eexists|]. inversion Hne as [|? ? Hc Hne']; subst.
  destruct (one_sane it o Hc) as (o' & t & E & Ho'); [by destruct o|]. simpl. rewrite E. simpl.
  destruct its as [|it2 its]; [by eexists|]. simpl in Hfin. inversion Hfin as [|? ? Hf Hfin']; subst.
  destruct (IH o') as [x ->]; [done| |destruct o' as [s|]; [apply Ho'|by destruct Ho']|by eexists].
  simpl. by rewrite Nat.sub_0_r.
Qed.

Lemma stream_runs its : stream_ok its → ∃ x, run its None = Ok x.
Proof using. destruct its as [|it its]; intros Hs; [by eexists|]. destruct Hs as (? & ? & ?). by apply run_sane. Qed.

(** *** With a tokenizer that keeps its promises *)
Context (sk sp : bool) (raw : list Z → text) (Hlaws : tokenizer_laws (decode sk sp) raw).
Context (D0 : text) (r0 : nat).
Local Abbreviation rest_at := (resting raw D0 r0).

Definition flags (it : Item) : Prop := skip_special it = sk ∧ spaces_between it = sp.

Lemma one_running it I s sent :
  rest_at I s sent → i_finished it = None → flags it → ¬ breaks_after_cjk (raw (drop r0 (I ++ i_decode_ids it))) →
  ∃ s' t, one it (Some s) = Ok (Some s', t) ∧ rest_at (I ++ i_decode_ids it) s' (sent ++ t).
Proof using Hlaws.
  intros Hr Hf [Hsk Hsp] Hcalm. pose proof (advance_running _ raw Hlaws D0 r0 it I s sent (i_decode_ids it) Hr Hf Hcalm) as Hadv.
  unfold decode_one. rewrite Hf, Hsk, Hsp.
  assert (enter it (Some s) = entered s I (i_decode_ids it)) as -> by (unfold entered; simpl; by rewrite (rs_ids _ _ _ _ _ _ Hr)).
  unfold read_ids, trim_ids. rewrite Hf, to_trim_running. cbn [mbind result_bind]. eexists _, _. split; [done|]. exact Hadv.
Qed.

Lemma run_running its : ∀ I s sent,
  rest_at I s sent → Forall (λ it, i_finished it = None) its → Forall flags its → calm raw r0 I its →
  ∃ ts s', run its (Some s) = Ok (ts, Some s') ∧ rest_at (I ++ concat (i_decode_ids <$> its)) s' (sent ++ concat ts).
Proof using Hlaws.
  induction its as [|it its IH]; intros I s sent Hr Hf Hfl Hcalm.
  { exists [], s. simpl. by rewrite !app_nil_r. }
  inversion Hf; inversion Hfl; subst. destruct (calm_cons _ _ _ _ _ Hcalm) as [Hc1 Hc2]; [done|].
  destruct (one_running it I s sent) as (s1 & t & E & Hr1); [done..|].
  destruct (IH _ s1 _ Hr1) as (ts & s2 & E2 & Hr2); [done..|]. exists (t :: ts), s2. simpl. rewrite E. simpl. rewrite E2. simpl.
  split; [done|]. by rewrite !app_assoc.
Qed.

(** How much of the whole text has reached the receiver in the end. *)
Lemma cut_prefix (T u v : text) : u `prefix_of` T → v `prefix_of` T → u ++ drop (length u) v = take (Nat.max (length u) (length v)) T.
Proof using.
  intros Hu Hv. destruct (decide (length u ≤ length v)) as [Hle|Hle].
  - rewrite Nat.max_r, <-(prefix_take_id v T) by (done || lia). apply prefix_drop_length. by eapply prefix_le.
  - rewrite Nat.max_l, <-(prefix_take_id u T) by (done || lia). rewrite drop_ge by lia. apply app_nil_r.
Qed.
Lemma trim_text_prefix T f nt : trim_text T f nt `prefix_of` T.
Proof using. unfold trim_text. destruct (to_trim f nt) as [[m|]|]; [|done|done]. destruct (find m T); [apply prefix_take|done]. Qed.

Lemma one_finished it f I s sent :
  rest_at I s sent → i_finished it = Some f → flags it → i_decode_ids it ≠ [] → r0 ≤ length I →
  ∃ R t, one it (Some s) = Ok (None, t) ∧ trim_ids gpt_oss (drop r0 (I ++ i_decode_ids it)) (i_finished it) (no_stop_trim it) = Ok R
    ∧ sent ++ t = take (Nat.max (length sent) (length (trim_text (D0 ++ raw R) (i_finished it) (no_stop_trim it)))) (D0 ++ raw R).
Proof using Hlaws.
  intros Hr Hf [Hsk Hsp] Hc Hr0. destruct (trim_ids_app gpt_oss _ (i_finished it) (no_stop_trim it) Hc) as (c' & _ & Htrim).
  pose proof (rs_order _ _ _ _ _ _ Hr) as (Hsr & Hread & Hr0').
  destruct (advance_finished _ raw Hlaws D0 r0 it f I s sent c' Hr Hf (i_decode_ids it)) as [Hpre Hadv].
  exists (drop r0 I ++ c'). eexists. split_and!.
  - unfold decode_one. rewrite Hsk, Hsp.
    assert (enter it (Some s) = entered s I (i_decode_ids it)) as -> by (unfold entered; simpl; by rewrite (rs_ids _ _ _ _ _ _ Hr)).
    unfold read_ids. cbn [entered surr_offset decode_ids]. rewrite (drop_new (surr_offset s) (read_offset s) I) by lia. rewrite app_assoc, Htrim, <-app_assoc.
    cbn [mbind result_bind]. rewrite Hf. reflexivity.
  - rewrite drop_app_le by lia. apply Htrim.
  - rewrite Hadv. apply cut_prefix; [done|apply trim_text_prefix].
Qed.
End run.

(** The first batch of a request continues its prompt. *)
Lemma first_resting dec raw it :
  tokenizer_laws dec raw → let r0 := i_read_offset it in
  r0 < length (i_decode_ids it) → settled (raw (take r0 (i_decode_ids it))) →
  let s := MkStatus (i_decoded_text it) (take r0 (i_decode_ids it)) 0 r0 0 in
  resting raw (i_decoded_text it) r0 (take r0 (i_decode_ids it)) s []
  ∧ enter it None = enter (MkItem (rid it) (i_decoded_text it) (drop r0 (i_decode_ids it)) r0 (i_finished it) (no_stop_trim it) (skip_special it) (spaces_between it)) (Some s).
Proof.
  intros Hlaws r0 Hr0 Hset s. split; [|simpl; by rewrite take_drop].
  assert (raw [] = []) as Hnil.
  { pose proof (tl_app _ _ Hlaws _ [] Hset) as E. rewrite app_nil_r in E. apply (f_equal length) in E. rewrite length_app in E.
    destruct (raw []); [done|]. simpl in E. lia. }
  split; simpl; [done|rewrite length_take; lia| | |by left|done|intros c; apply prefix_nil].
  - unfold py_slice. rewrite Nat.sub_0_r. change (drop 0 ?l) with l. by rewrite take_take, Nat.min_id.
  - by rewrite slice_none, Hnil, app_nil_r.
Qed.

(** What a request has received after the batches [its], as the texts [ts]: while it runs, a
    beginning of its text; in the end all of it, cut at a stop string, but never before what
    was sent earlier. *)
Definition text_received (gpt_oss : bool) (raw : list Z → text) (its : list Item) (ts : list text) : Prop :=
  match its, last its with
  | first :: _, Some fin =>
      let own := drop (i_read_offset first) (concat (i_decode_ids <$> its)) in
      match i_finished fin with
      | None => concat ts `prefix_of` i_decoded_text first ++ raw own
      | Some _ =>
          ∃ R, trim_ids gpt_oss own (i_finished fin) (no_stop_trim fin) = Ok R ∧
          let whole := i_decoded_text first ++ raw R in
          let before := concat (take (length ts - 1) ts) in
          concat ts = take (Nat.max (length before) (length (trim_text whole (i_finished fin) (no_stop_trim fin)))) whole
      end
  | _, _ => True
  end.

(** The same for a request whose prompt has been set aside: [I] is the prompt. *)
Lemma received_from decode gpt_oss sk sp raw D0 r0 init fin I s :
  tokenizer_laws (decode sk sp) raw → calm raw r0 I (init ++ [fin]) → resting raw D0 r0 I s [] →
  r0 = length I → Forall (λ it, i_finished it = None) init → Forall (flags sk sp) (init ++ [fin]) → i_decode_ids fin ≠ [] →
  let own := concat (i_decode_ids <$> init) ++ i_decode_ids fin in
  ∃ ts t o, run_one decode gpt_oss (init ++ [fin]) (Some s) = Ok (ts ++ [t], o)
    ∧ match i_finished fin with
      | None => concat ts ++ t `prefix_of` D0 ++ raw own
      | Some _ => ∃ R, trim_ids gpt_oss own (i_finished fin) (no_stop_trim fin) = Ok R
          ∧ concat ts ++ t = take (Nat.max (length (concat ts)) (length (trim_text (D0 ++ raw R) (i_finished fin) (no_stop_trim fin)))) (D0 ++ raw R)
      end.
Proof.
  intros Hlaws Hcalm Hr Hr0 Hf Hfl Hc own. destruct (calm_snoc _ _ _ _ _ Hcalm) as [Hcalm1 Hcalm2]. apply Forall_app in Hfl as [Hfl Hfl']. inversion Hfl' as [|? ? Hflag _]; subst.
  destruct (run_running decode gpt_oss sk sp raw Hlaws D0 (length I) init I s [] Hr Hf Hfl Hcalm1) as (ts & s1 & E & Hr1).
  set (J := I ++ concat (i_decode_ids <$> init)) in *.
  assert (∀ c, drop (length I) (J ++ c) = concat (i_decode_ids <$> init) ++ c) as Hown by (intros c; unfold J; by rewrite <-app_assoc, drop_app_length).
  destruct (i_finished fin) as [f|] eqn:Hff.
  - destruct (one_finished decode gpt_oss sk sp raw Hlaws D0 (length I) fin f J s1 (concat ts)) as (R & t & E1 & HR & Ht); [done..|unfold J; rewrite length_app; lia|].
    exists ts, t, None. rewrite Hown, Hff in HR. rewrite Hff in Ht. split.
    + eapply run_one_app; [exact E|]. simpl. by rewrite E1.
    + by exists R.
  - destruct (one_running decode gpt_oss sk sp raw Hlaws D0 (length I) fin J s1 (concat ts)) as (s2 & t & E1 & Hr2); [done..|by apply Hcalm2|].
    exists ts, t, (Some s2). split; [eapply run_one_app; [exact E|]; simpl; by rewrite E1|].
    pose proof (sent_prefix _ _ _ _ _ _ [] Hr2) as Hp. rewrite (whole_text _ raw Hlaws _ _ _ _ _ [] Hr2), app_nil_r, Hown in Hp. done.
Qed.

Lemma stream_text decode gpt_oss sk sp raw first rest :
  tokenizer_laws (decode sk sp) raw → calm raw (i_read_offset first) [] (first :: rest) → stream_ok (first :: rest) → Forall (flags sk sp) (first :: rest) →
  settled (raw (take (i_read_offset first) (i_decode_ids first))) →
  ∃ ts o, run_one decode gpt_oss (first :: rest) None = Ok (ts, o) ∧ text_received gpt_oss raw (first :: rest) ts.
Proof.
  intros Hlaws Hcalm (Hr0 & Hne & Hfin) Hfl Hset. set (r0 := i_read_offset first) in *.
  destruct (first_resting _ _ first Hlaws Hr0 Hset) as [Hrest Henter]. fold r0 in Hrest, Henter.
  set (s := MkStatus _ _ _ _ _) in *. set (it1 := MkItem _ _ _ _ _ _ _ _) in *.
  assert (run_one decode gpt_oss (first :: rest) None = run_one decode gpt_oss (it1 :: rest) (Some s)) as ->.
  { simpl. unfold decode_one. rewrite Henter. done. }
  assert (concat (i_decode_ids <$> first :: rest) = take r0 (i_decode_ids first) ++ concat (i_decode_ids <$> it1 :: rest)) as Hids.
  { simpl. by rewrite app_assoc, take_drop. }
  assert (length (take r0 (i_decode_ids first)) = r0) as Hl by (rewrite length_take; lia).
  assert (∃ init fin, it1 :: rest = init ++ [fin] ∧ last (first :: rest) = Some (match rest with [] => first | _ => fin end)
    ∧ i_finished fin = i_finished (match rest with [] => first | _ => fin end) ∧ no_stop_trim fin = no_stop_trim (match rest with [] => first | _ => fin end)
    ∧ i_decode_ids fin ≠ [] ∧ Forall (λ it, i_finished it = None) init) as (init & fin & Hsplit & Hlast & Hf & Hn & Hc & Hrun).
  { destruct rest as [|fin rest _] using rev_ind.
    - exists [], it1. split_and!; [done|done|done|done| |constructor]. simpl. intros E. apply (f_equal length) in E. rewrite length_drop in E. simpl in E. lia.
    - exists (it1 :: rest), fin. rewrite (app_comm_cons rest [fin] first) in Hne, Hfin |- *. rewrite last_snoc. rewrite take_init in Hfin. apply Forall_app in Hne as [_ Hne]. inversion Hne; subst.
      inversion Hfin; subst. destruct (rest ++ [fin]) eqn:E; [by destruct rest|]. split_and!; [simpl; by rewrite E|done|done|done|done|by constructor]. }
  assert (calm raw r0 (take r0 (i_decode_ids first)) (init ++ [fin])) as Hcalm'.
  { rewrite <-Hsplit. intros j it Hj Hrun'. specialize (Hcalm j (match j with O => first | _ => it end)). destruct j as [|j]; simpl in Hj.
    - injection Hj as <-. simpl. rewrite app_nil_r, take_drop. simpl in Hcalm. rewrite app_nil_r in Hcalm. by apply Hcalm.
    - specialize (Hcalm Hj Hrun'). change (take (S (S j)) (first :: rest)) with (first :: take (S j) rest) in Hcalm.
      change (take (S (S j)) (it1 :: rest)) with (it1 :: take (S j) rest). rewrite fmap_cons in Hcalm |- *. cbn [concat app] in Hcalm |- *.
      change (i_decode_ids it1) with (drop r0 (i_decode_ids first)). by rewrite app_assoc, take_drop. }
  destruct (received_from decode gpt_oss sk sp raw (i_decoded_text first) r0 init fin _ s Hlaws Hcalm' Hrest) as (ts & t & o & E & Hrec); [done|done| |done|].
  { rewrite <-Hsplit. inversion Hfl; subst. by constructor. }
  assert (drop r0 (concat (i_decode_ids <$> first :: rest)) = concat (i_decode_ids <$> init) ++ i_decode_ids fin) as Hown.
  { rewrite Hids, drop_app_length' by done. rewrite Hsplit, fmap_app, concat_app. simpl. by rewrite app_nil_r. }
  exists (ts ++ [t]), o. rewrite Hsplit. split; [done|]. unfold text_received. rewrite Hlast. fold r0. rewrite Hown.
  set (fin' := match rest with [] => first | _ => fin end) in *.
  rewrite concat_app, take_init. cbn [concat]. rewrite app_nil_r. rewrite Hf, Hn in Hrec. destruct (i_finished fin'); done.
Qed.
