(* ===== verification/DetokTheorems.v ===== *)
(** The properties of the detokenizer, with an instance of each. *)
From S2P Require Import Prelude PyStr Detok DetokInv DetokText.
From stdpp Require Import options.


(** *** A tokenizer with broken characters *)

(** Token 0 is the first half of a character and -1 the second; other tokens are the
    characters [ch] gives them. *)
Fixpoint toy (ch : Z → Z) (ids : list Z) : text :=
  match ids with
  | [] => []
  | t :: r =>
      if decide (t = 0%Z) then
        match r with
        | t' :: r' => if decide (t' = (-1)%Z) then 12398%Z :: toy ch r' else replacement_char :: toy ch r
        | [] => [replacement_char]
        end
      else if decide (t = (-1)%Z) then replacement_char :: toy ch r
      else ch t :: toy ch r
  end.

Lemma toy_app ch n : ∀ S R, length S ≤ n → last S ≠ Some 0%Z ∨ head R ≠ Some (-1)%Z → toy ch (S ++ R) = toy ch S ++ toy ch R.
Proof.
  induction n as [|n IH]; intros [|t S] R Hn Hor; try done; [simpl in Hn; lia|]. simpl in Hn.
  assert (S ≠ [] → last (t :: S) = last S) as Hlast by (by destruct S).
  assert (toy ch (S ++ R) = toy ch S ++ toy ch R) as HS.
  { apply IH; [lia|]. destruct S; [by left|]. by rewrite <-Hlast. }
  simpl. destruct (decide (t = 0%Z)) as [->|Ht0]; [|destruct (decide (t = (-1)%Z)); simpl; by rewrite HS].
  destruct S as [|t' S]; simpl in *.
  - destruct R as [|u R]; [done|]. rewrite decide_False; [done|]. intros ->. destruct Hor; naive_solver.
  - destruct (decide (t' = (-1)%Z)) as [->|Hne]; [|by rewrite HS]. simpl. f_equal. apply IH; [lia|]. destruct S; [by left|done].
Qed.

Lemma toy_last ch S : last S = Some 0%Z → last (toy ch S) = Some replacement_char.
Proof.
  intros Hl. destruct S as [|x S _] using rev_ind; [done|]. rewrite last_snoc in Hl. injection Hl as ->.
  rewrite (toy_app ch (length S)); [|done|by right]. change (toy ch [0%Z]) with [replacement_char]. by rewrite last_snoc.
Qed.

Lemma toy_laws ch : tokenizer_laws (toy ch) (toy ch).
Proof.
  assert (∀ S R, settled (toy ch S) → toy ch (S ++ R) = toy ch S ++ toy ch R) as Happ.
  { intros S R [_ Hs]. apply (toy_app ch (length S)); [done|]. left. intros Hl. by apply Hs, toy_last. }
  split; [done|done|]. intros R R' t k E Hl. destruct (decide (last R = Some 0%Z)) as [H0|H0].
  - destruct R as [|x R _] using rev_ind; [done|]. rewrite last_snoc in H0. injection H0 as ->.
    rewrite (toy_app ch (length R)) in E by (done || by right). change (toy ch [0%Z]) with [replacement_char] in E. destruct k as [|k].
    { rewrite app_nil_r in E. rewrite <-E, last_snoc in Hl. done. }
    rewrite replicate_S_end, app_assoc in E. apply app_inj_2 in E as [E _]; [|done].
    rewrite <-app_assoc, (toy_app ch (length R)) by (done || by right). rewrite E, <-app_assoc. by eexists.
  - rewrite (toy_app ch (length R)) by (done || by left). rewrite E, <-app_assoc. by eexists.
Qed.

Definition item_of (k : string) (ids : list Z) (r0 : nat) (fin : option (option Matched)) : Item := MkItem k [] ids r0 fin false true true.
Definition ascii_of (t : Z) : Z := (t `mod` 128)%Z.



(** C34: the detokenizer can send text twice.  With a tokenizer that keeps its promises, a
    Chinese character in front of a broken one is sent; when the broken character turns out
    not to be Chinese and another broken one follows, the sent offset goes back, and the
    next batch sends the character again. *)
Theorem detok_sends_twice :
  let ch t := if decide (t = 5%Z) then 26085%Z else ascii_of t in
  let batches := [[item_of "x" [90; 5; 0]%Z 1 None]; [item_of "x" [-1; 0]%Z 1 None]; [item_of "x" [-1; 10]%Z 1 None]] in
  tokenizer_laws (toy ch) (toy ch) ∧ stream_ok (stream "x" batches)
  ∧ ∃ outs l, run_batches (λ _ _, toy ch) (λ _ _ l, toy ch <$> l) 4 false false batches [] = Ok (outs, l)
      ∧ texts_of "x" batches outs = [[26085]; []; [26085; 12398; 12398; 10]]%Z
      ∧ toy ch (drop 1 [90; 5; 0; -1; 0; -1; 10]%Z) = [26085; 12398; 12398; 10]%Z.
Proof.
  intros ch batches. split; [apply toy_laws|]. split.
  - vm_compute. split; [lia|]. split; [repeat constructor; discriminate|repeat constructor].
  - eexists _, _. split; [vm_compute; reflexivity|]. split; vm_compute; reflexivity.
Qed.
