(* ===== verification/SwaLru.v ===== *)
(** The nodes of the sliding-window tree and the LRU lists through them: [class TreeNode]
    and [class LRUList] of mem_cache/swa_radix_cache.py, and the refinement of the linked
    lists by lists.

    A node is an object in a store, as in TreeNode.  [last_access_time], which only the
    sanity check reads, and [hit_count] and [host_value], which nothing reads, are left
    out. *)
From S2P Require Import Prelude RadixKey.
From stdpp Require Import options.

(** The attributes [prev], [next] or [swa_prev], [swa_next]. *)
Record Links := MkLinks { prv : option nat; nxt : option nat }.

Record SNode := MkSNode {
  s_children : gmap ckey nat;
  s_parent : option nat;
  s_key : RadixKey;
  s_value : option (list Z);
  swa_tombstone : bool;
  full_lock_ref : Z;
  swa_lock_ref : Z;
  full_links : Links;
  swa_links : Links;
  swa_uuid : option Z;
}.
Definition new_SNode : SNode :=
  MkSNode ∅ None (MkRadixKey [] None false) None false 0 0 (MkLinks None None) (MkLinks None None) None.

(** Assignments to single attributes. *)
Definition set_s_children (f : gmap ckey nat → gmap ckey nat) (x : SNode) : SNode :=
  MkSNode (f (s_children x)) (s_parent x) (s_key x) (s_value x) (swa_tombstone x) (full_lock_ref x) (swa_lock_ref x) (full_links x) (swa_links x) (swa_uuid x).
Definition set_s_parent (p : option nat) (x : SNode) : SNode :=
  MkSNode (s_children x) p (s_key x) (s_value x) (swa_tombstone x) (full_lock_ref x) (swa_lock_ref x) (full_links x) (swa_links x) (swa_uuid x).
Definition set_s_key (k : RadixKey) (x : SNode) : SNode :=
  MkSNode (s_children x) (s_parent x) k (s_value x) (swa_tombstone x) (full_lock_ref x) (swa_lock_ref x) (full_links x) (swa_links x) (swa_uuid x).
Definition set_s_value (v : list Z) (x : SNode) : SNode :=
  MkSNode (s_children x) (s_parent x) (s_key x) (Some v) (swa_tombstone x) (full_lock_ref x) (swa_lock_ref x) (full_links x) (swa_links x) (swa_uuid x).
Definition set_tombstone (t : bool) (x : SNode) : SNode :=
  MkSNode (s_children x) (s_parent x) (s_key x) (s_value x) t (full_lock_ref x) (swa_lock_ref x) (full_links x) (swa_links x) (swa_uuid x).
Definition add_full_lock (d : Z) (x : SNode) : SNode :=
  MkSNode (s_children x) (s_parent x) (s_key x) (s_value x) (swa_tombstone x) (full_lock_ref x + d) (swa_lock_ref x) (full_links x) (swa_links x) (swa_uuid x).
Definition add_swa_lock (d : Z) (x : SNode) : SNode :=
  MkSNode (s_children x) (s_parent x) (s_key x) (s_value x) (swa_tombstone x) (full_lock_ref x) (swa_lock_ref x + d) (full_links x) (swa_links x) (swa_uuid x).
Definition set_swa_uuid (u : option Z) (x : SNode) : SNode :=
  MkSNode (s_children x) (s_parent x) (s_key x) (s_value x) (swa_tombstone x) (full_lock_ref x) (swa_lock_ref x) (full_links x) (swa_links x) u.
(** [setattr(x, self.prv, ...)] and the like: which attributes depends on the list. *)
Definition links (swa : bool) (x : SNode) : Links := if swa then swa_links x else full_links x.
Definition set_links (swa : bool) (f : Links → Links) (x : SNode) : SNode :=
  MkSNode (s_children x) (s_parent x) (s_key x) (s_value x) (swa_tombstone x) (full_lock_ref x) (swa_lock_ref x)
    (if swa then full_links x else f (full_links x)) (if swa then f (swa_links x) else swa_links x) (swa_uuid x).
Definition set_prv (o : option nat) (l : Links) : Links := MkLinks o (nxt l).
Definition set_nxt (o : option nat) (l : Links) : Links := MkLinks (prv l) o.
Definition lock_of (swa : bool) (x : SNode) : Z := if swa then swa_lock_ref x else full_lock_ref x.

(** ** LRUList *)
Record LRUList := MkLRU { is_swa_list : bool; lru_head : nat; lru_tail : nat; lru_cache : gset nat }.
Abbreviation store := (gmap nat SNode).
Abbreviation lru := (store * LRUList)%type.
Abbreviation R := (ST lru).

Definition lru_get (n : nat) : R SNode := s ← st_gets fst; st_lift (unwrap Dangling (s !! n)).
Definition lru_upd (n : nat) (f : SNode → SNode) : R unit :=
  x ← lru_get n; st_modify (λ s, (<[n := f x]> s.1, s.2)).
Definition is_swa : R bool := st_gets (λ s, is_swa_list s.2).
Definition get_links (n : nat) : R Links := sw ← is_swa; x ← lru_get n; mret (links sw x).
Definition upd_links (n : nat) (f : Links → Links) : R unit := sw ← is_swa; lru_upd n (set_links sw f).
Definition set_cache (f : gset nat → gset nat) (s : lru) : lru :=
  (s.1, MkLRU (is_swa_list s.2) (lru_head s.2) (lru_tail s.2) (f (lru_cache s.2))).

(** [_add_node_after] *)
Definition add_node_after (old new : nat) : R unit :=
  _ ← upd_links new (set_prv (Some old));
  lo ← get_links old;
  _ ← upd_links new (set_nxt (nxt lo));
  lo ← get_links old;
  b ← st_lift (unwrap AttributeError (nxt lo));
  _ ← upd_links b (set_prv (Some new));
  upd_links old (set_nxt (Some new)).
(** [_add_node] *)
Definition add_node (node : nat) : R unit := h ← st_gets (λ s, lru_head s.2); add_node_after h node.
(** [_remove_node] *)
Definition unlink_node (node : nat) : R unit :=
  l ← get_links node;
  a ← st_lift (unwrap AttributeError (prv l));
  _ ← upd_links a (set_nxt (nxt l));
  l ← get_links node;
  b ← st_lift (unwrap AttributeError (nxt l));
  upd_links b (set_prv (prv l)).

(** [assert node.id in self.cache] and
    [assert not self.is_swa_list or not node.swa_tombstone] *)
Definition assert_in (node : nat) : R unit := s ← st_gets snd; st_lift (py_assert (bool_decide (node ∈ lru_cache s))).
Definition assert_listed (node : nat) : R unit :=
  sw ← is_swa; x ← lru_get node; st_lift (py_assert (negb sw || negb (swa_tombstone x))).

Definition reset_node_mru (node : nat) : R unit :=
  _ ← assert_in node; _ ← assert_listed node; _ ← unlink_node node; add_node node.

(** The loop of [reset_node_and_parents_mru]. *)
Fixpoint reset_parents (fuel : nat) (prev_node node root_node : nat) : R unit :=
  match fuel with
  | 0 => λ _, Running
  | S fuel =>
      if decide (node = root_node) then mret tt
      else
        sw ← is_swa;
        x ← lru_get node;
        prev_node ← (if negb sw || negb (swa_tombstone x) then
                       _ ← assert_in node; _ ← unlink_node node; _ ← add_node_after prev_node node; mret node
                     else mret prev_node);
        x ← lru_get node;
        p ← st_lift (unwrap AttributeError (s_parent x));
        reset_parents fuel prev_node p root_node
  end.
Definition reset_node_and_parents_mru (node root_node : nat) : R unit :=
  h ← st_gets (λ s, lru_head s.2);
  n ← st_gets (λ s, size s.1);
  reset_parents (S n) h node root_node.

Definition insert_mru (node : nat) : R unit :=
  _ ← assert_listed node;
  s ← st_gets snd;
  _ ← st_lift (py_assert (bool_decide (node ∉ lru_cache s)));
  _ ← st_modify (set_cache (λ X, {[node]} ∪ X));
  add_node node.
Definition remove_node (node : nat) : R unit :=
  _ ← assert_in node; _ ← assert_listed node;
  _ ← st_modify (set_cache (λ X, X ∖ {[node]}));
  unlink_node node.

(** The loops of [get_prev_no_lock] and [get_prev_leaf_no_lock]: [skip] says which nodes
    they pass over. *)
Definition locked_node (sw : bool) (x : SNode) : bool := bool_decide (0 < lock_of sw x)%Z.
Definition locked_or_inner (sw : bool) (x : SNode) : bool := locked_node sw x || bool_decide (s_children x ≠ ∅).
Fixpoint walk_prev (fuel : nat) (skip : SNode → bool) (n : nat) : R nat :=
  match fuel with
  | 0 => λ _, Running
  | S fuel =>
      x ← lru_get n;
      if skip x then
        l ← get_links n;
        a ← st_lift (unwrap AttributeError (prv l));
        walk_prev fuel skip a
      else mret n
  end.
Definition prev_where (skip : bool → SNode → bool) (check_id : bool) (node : nat) : R (option nat) :=
  _ ← (if check_id then assert_in node else mret tt);
  sw ← is_swa;
  l ← get_links node;
  a ← st_lift (unwrap AttributeError (prv l));
  k ← st_gets (λ s, size s.1);
  n ← walk_prev (S k) (skip sw) a;
  h ← st_gets (λ s, lru_head s.2);
  mret (if decide (n = h) then None else Some n).
Definition get_prev_no_lock (node : nat) : R (option nat) := prev_where locked_node true node.
Definition get_prev_leaf_no_lock (node : nat) : R (option nat) := prev_where locked_or_inner true node.
Definition get_lru_no_lock : R (option nat) := t ← st_gets (λ s, lru_tail s.2); prev_where locked_node false t.
Definition get_leaf_lru_no_lock : R (option nat) := t ← st_gets (λ s, lru_tail s.2); prev_where locked_or_inner false t.
Definition in_list (node : option nat) (l : LRUList) : bool :=
  match node with None => false | Some n => bool_decide (n ∈ lru_cache l) end.

(** The LRU lists of SwaLru refine lists: [lru_ok sw s L l] says that the nodes of [l],
    most recently used first, are linked in the store [s] between the two dummy nodes of
    [L].  Every method of [LRUList] is an operation on [l], and changes nothing of a node
    but the two attributes of its own list. *)

Section lru.
Implicit Types (s : store) (L : LRUList) (l xs : list nat) (x : SNode) (sw : bool).

(** A node without the links of one list, and without both. *)
Definition unlinked sw x : SNode := set_links sw (λ _, MkLinks None None) x.
Definition plain x : SNode := unlinked true (unlinked false x).

(** Only the links of one list change. *)
Definition only_links sw s s' : Prop := ∀ n, unlinked sw <$> s' !! n = unlinked sw <$> s !! n.

#[global] Instance only_links_preorder sw : PreOrder (only_links sw).
Proof. split; [done|]. intros s1 s2 s3 H1 H2 n. by rewrite H2, H1. Qed.

Lemma only_links_plain sw s s' n : only_links sw s s' → plain <$> s' !! n = plain <$> s !! n.
Proof.
  intros Ho. specialize (Ho n). apply (f_equal (fmap plain)) in Ho. rewrite <-!option_fmap_compose in Ho.
  assert (∀ o : option SNode, (plain ∘ unlinked sw) <$> o = plain <$> o) as Hp by (intros [[]|]; destruct sw; done).
  by rewrite !Hp in Ho.
Qed.
Lemma only_links_lookup sw s s' n x : only_links sw s s' → s !! n = Some x → ∃ x', s' !! n = Some x' ∧ plain x' = plain x.
Proof.
  intros Ho Hx. pose proof (only_links_plain _ _ _ n Ho) as E. rewrite Hx in E. simpl in E.
  apply fmap_Some in E as (x' & ? & ?). by exists x'.
Qed.
Lemma only_links_size sw s s' : only_links sw s s' → size s' = size s.
Proof.
  intros Ho. rewrite <-!size_dom. f_equal. apply set_eq. intros n. rewrite !elem_of_dom. specialize (Ho n).
  destruct (s' !! n), (s !! n); simpl in Ho; try done; naive_solver.
Qed.

Lemma only_links_upd sw s n x f : s !! n = Some x → only_links sw s (<[n := set_links sw f x]> s).
Proof.
  intros Hx m. rewrite lookup_insert. case_decide as E; [|done]. subst m. rewrite Hx. simpl. by destruct x, sw.
Qed.

(** ** Chains *)
Definition snx sw s n : option nat := s !! n ≫= λ x, nxt (links sw x).
Definition spv sw s n : option nat := s !! n ≫= λ x, prv (links sw x).
Fixpoint chain sw s xs : Prop :=
  match xs with
  | a :: ((b :: _) as xs) => snx sw s a = Some b ∧ spv sw s b = Some a ∧ chain sw s xs
  | _ => True
  end.

Lemma chain_app sw s l1 a l2 : chain sw s (l1 ++ a :: l2) ↔ chain sw s (l1 ++ [a]) ∧ chain sw s (a :: l2).
Proof.
  induction l1 as [|b l1 IH]; simpl; [tauto|]. destruct l1 as [|c l1]; simpl in *; tauto.
Qed.
Lemma chain_snoc_frame sw s s' l z :
  chain sw s (l ++ [z]) → (∀ n, n ∈ l → snx sw s' n = snx sw s n) → (∀ n, n ∈ l ++ [z] → spv sw s' n = spv sw s n) →
  chain sw s' (l ++ [z]).
Proof.
  induction l as [|a l IH]; intros Hc Hn Hp; [done|].
  destruct l as [|b l]; simpl in *; destruct Hc as (H1 & H2 & H3).
  - split_and!; [rewrite Hn by set_solver; done|rewrite Hp by set_solver; done|done].
  - split_and!; [rewrite Hn by set_solver; done|rewrite Hp by set_solver; done|].
    apply IH; [done|intros; apply Hn; set_solver|intros; apply Hp; set_solver].
Qed.
Lemma chain_cons_frame sw s s' a l :
  chain sw s (a :: l) → (∀ n, n ∈ a :: l → snx sw s' n = snx sw s n) → (∀ n, n ∈ l → spv sw s' n = spv sw s n) →
  chain sw s' (a :: l).
Proof.
  revert a. induction l as [|b l IH]; intros a Hc Hn Hp; [done|]. simpl in *. destruct Hc as (H1 & H2 & H3).
  split_and!; [rewrite Hn by set_solver; done|rewrite Hp by set_solver; done|].
  apply IH; [done|intros; apply Hn; set_solver|intros; apply Hp; set_solver].
Qed.
Lemma chain_other sw s s' xs : only_links (negb sw) s s' → chain sw s xs → chain sw s' xs.
Proof.
  intros Ho. assert (∀ n, links sw <$> s' !! n = links sw <$> s !! n) as Hl.
  { intros n. specialize (Ho n). apply (f_equal (fmap (links sw))) in Ho. rewrite <-!option_fmap_compose in Ho.
    assert (∀ o : option SNode, (links sw ∘ unlinked (negb sw)) <$> o = links sw <$> o) as Hp by (intros [[]|]; destruct sw; done).
    by rewrite !Hp in Ho. }
  assert (∀ n, snx sw s' n = snx sw s n ∧ spv sw s' n = spv sw s n) as Hs.
  { intros n. specialize (Hl n). unfold snx, spv. destruct (s' !! n), (s !! n); simplify_eq/=; [|done]. by rewrite Hl. }
  destruct xs as [|a xs]; [done|]. intros Hc. eapply chain_cons_frame; [done|intros; apply Hs..].
Qed.

(** Reading and writing links. *)
Lemma snx_upd sw s n x f m : s !! n = Some x →
  snx sw (<[n := set_links sw f x]> s) m = if decide (n = m) then nxt (f (links sw x)) else snx sw s m.
Proof. intros Hx. unfold snx. rewrite lookup_insert. case_decide; [|done]. simpl. by destruct x, sw. Qed.
Lemma spv_upd sw s n x f m : s !! n = Some x →
  spv sw (<[n := set_links sw f x]> s) m = if decide (n = m) then prv (f (links sw x)) else spv sw s m.
Proof. intros Hx. unfold spv. rewrite lookup_insert. case_decide; [|done]. simpl. by destruct x, sw. Qed.
Lemma snx_live sw s n m : snx sw s n = Some m → is_Some (s !! n).
Proof. unfold snx. destruct (s !! n); [eauto|done]. Qed.
Lemma spv_live sw s n m : spv sw s n = Some m → is_Some (s !! n).
Proof. unfold spv. destruct (s !! n); [eauto|done]. Qed.

Lemma wp_lru_get s L n x Q : s !! n = Some x → Q x (s, L) → wp (lru_get n) Q (s, L).
Proof. intros Hx HQ. unfold lru_get. wp_steps. simpl. rewrite Hx. by wp_step. Qed.
Lemma wp_get_links s L n x Q : s !! n = Some x → Q (links (is_swa_list L) x) (s, L) → wp (get_links n) Q (s, L).
Proof. intros Hx HQ. unfold get_links, is_swa, lru_get. wp_steps. simpl. rewrite Hx. by wp_steps. Qed.
Lemma wp_upd_links s L n x f Q :
  s !! n = Some x → Q tt (<[n := set_links (is_swa_list L) f x]> s, L) → wp (upd_links n f) Q (s, L).
Proof. intros Hx HQ. unfold upd_links, is_swa, lru_upd, lru_get. wp_steps. simpl. rewrite Hx. by wp_steps. Qed.

(** What an update of the links of [n] does. *)
Lemma wp_link s L n f (Q : unit → lru → Prop) :
  is_Some (s !! n) →
  (∀ s', only_links (is_swa_list L) s s' →
    (∀ m, snx (is_swa_list L) s' m = if decide (n = m) then nxt (f (MkLinks (spv (is_swa_list L) s n) (snx (is_swa_list L) s n))) else snx (is_swa_list L) s m) →
    (∀ m, spv (is_swa_list L) s' m = if decide (n = m) then prv (f (MkLinks (spv (is_swa_list L) s n) (snx (is_swa_list L) s n))) else spv (is_swa_list L) s m) →
    Q tt (s', L)) →
  wp (upd_links n f) Q (s, L).
Proof.
  intros [x Hx] HQ. eapply wp_upd_links; [done|].
  assert (MkLinks (spv (is_swa_list L) s n) (snx (is_swa_list L) s n) = links (is_swa_list L) x) as Hl.
  { unfold snx, spv. rewrite Hx. simpl. by destruct (links (is_swa_list L) x). }
  apply HQ; rewrite ?Hl; [by apply only_links_upd|intros m; by apply snx_upd|intros m; by apply spv_upd].
Qed.
Lemma wp_links s L n Q :
  is_Some (s !! n) → Q (MkLinks (spv (is_swa_list L) s n) (snx (is_swa_list L) s n)) (s, L) → wp (get_links n) Q (s, L).
Proof.
  intros [x Hx] HQ. eapply wp_get_links; [done|]. unfold snx, spv in HQ. rewrite Hx in HQ. simpl in HQ.
  by destruct (links (is_swa_list L) x).
Qed.
Lemma only_links_live sw s s' n : only_links sw s s' → is_Some (s !! n) → is_Some (s' !! n).
Proof. intros Ho [x Hx]. destruct (only_links_lookup _ _ _ _ _ Ho Hx) as (x' & ? & _). eauto. Qed.

(** [_add_node_after]: [new] is linked behind [old]. *)
Lemma wp_add_node_after s L l1 old b l2 new (Q : unit → lru → Prop) :
  chain (is_swa_list L) s (l1 ++ old :: b :: l2) → NoDup (l1 ++ old :: b :: l2) → new ∉ l1 ++ old :: b :: l2 → is_Some (s !! new) →
  (∀ s', chain (is_swa_list L) s' (l1 ++ old :: new :: b :: l2) → only_links (is_swa_list L) s s' → Q tt (s', L)) →
  wp (add_node_after old new) Q (s, L).
Proof.
  set (sw := is_swa_list L). intros Hc Hnd Hnew Hlive HQ.
  pose proof Hc as [Hc1 (Hob & Hbo & Hc2)]%chain_app.
  assert (new ≠ old ∧ new ≠ b ∧ old ≠ b) as (Hno & Hnb & Hob').
  { apply NoDup_app in Hnd as (_ & _ & [Hnd _]%NoDup_cons). set_solver. }
  apply NoDup_app in Hnd as (Hnd1 & Hdis & [Hold Hnd2]%NoDup_cons).
  apply NoDup_cons in Hnd2 as [Hb Hnd2].
  unfold add_node_after. wp_step. apply wp_link; [done|]. fold sw. intros s1 Ho1 Hn1 Hp1. simpl in Hn1, Hp1.
  wp_step. apply wp_links; [eapply only_links_live; [done|by eapply snx_live]|]. fold sw. simpl.
  rewrite Hn1, decide_False, Hob by done.
  wp_step. apply wp_link; [by eapply only_links_live|]. fold sw. intros s2 Ho2 Hn2 Hp2. simpl in Hn2, Hp2.
  wp_step. apply wp_links.
  { eapply only_links_live; [done|]. eapply only_links_live; [done|by eapply snx_live]. }
  fold sw. simpl. rewrite Hn2, decide_False, Hn1, decide_False, Hob by done. wp_steps.
  apply wp_link.
  { eapply only_links_live; [done|]. eapply only_links_live; [done|by eapply spv_live]. }
  fold sw. intros s3 Ho3 Hn3 Hp3. simpl in Hn3, Hp3. apply wp_link.
  { eapply only_links_live; [done|]. eapply only_links_live; [done|]. eapply only_links_live; [done|by eapply snx_live]. }
  fold sw. intros s4 Ho4 Hn4 Hp4. simpl in Hn4, Hp4. apply HQ; [|by do 3 (etrans; [done|])].
  assert (∀ m, snx sw s4 m = if decide (old = m) then Some new else if decide (new = m) then Some b else snx sw s m) as Hn.
  { intros m. rewrite Hn4, !Hn3, !Hn2, !Hn1. repeat case_decide; subst; try done; congruence. }
  assert (∀ m, spv sw s4 m = if decide (b = m) then Some new else if decide (new = m) then Some old else spv sw s m) as Hp.
  { intros m. rewrite Hp4, !Hp3, !Hp2, !Hp1. repeat case_decide; subst; try done; congruence. }
  apply chain_app. split.
  - eapply chain_snoc_frame; [done|intros m Hm|intros m Hm]; rewrite ?Hn, ?Hp; rewrite !decide_False; set_solver.
  - simpl. split_and!.
    + by rewrite Hn, decide_True.
    + by rewrite Hp, decide_False, decide_True.
    + by rewrite Hn, decide_False, decide_True.
    + by rewrite Hp, decide_True.
    + eapply chain_cons_frame; [done|intros m Hm|intros m Hm]; rewrite ?Hn, ?Hp; rewrite !decide_False; set_solver.
Qed.

(** [_remove_node]: [n] is taken out. *)
Lemma wp_unlink_node s L l1 a n b l2 (Q : unit → lru → Prop) :
  chain (is_swa_list L) s (l1 ++ a :: n :: b :: l2) → NoDup (l1 ++ a :: n :: b :: l2) →
  (∀ s', chain (is_swa_list L) s' (l1 ++ a :: b :: l2) → only_links (is_swa_list L) s s' → Q tt (s', L)) →
  wp (unlink_node n) Q (s, L).
Proof.
  set (sw := is_swa_list L). intros Hc Hnd HQ.
  pose proof Hc as [Hc1 (Han & Hna & Hnb & Hbn & Hc2)]%chain_app.
  apply NoDup_app in Hnd as (Hnd1 & Hdis & [Ha Hnd]%NoDup_cons). apply NoDup_cons in Hnd as [Hn' Hnd].
  assert (a ≠ n ∧ a ≠ b ∧ n ≠ b) as (? & ? & ?) by set_solver.
  apply NoDup_cons in Hnd as [Hb Hnd].
  unfold unlink_node. wp_step. apply wp_links; [by eapply snx_live|]. fold sw. rewrite Hna, Hnb. wp_steps. simpl.
  apply wp_link; [by eapply snx_live|]. fold sw. intros s1 Ho1 Hn1 Hp1. simpl in Hn1, Hp1.
  wp_step. apply wp_links; [eapply only_links_live; [done|by eapply snx_live]|]. fold sw.
  rewrite Hn1, decide_False by done. rewrite Hp1, decide_False, Hnb, Hna by done. wp_steps. simpl.
  apply wp_link; [eapply only_links_live; [done|by eapply spv_live]|]. fold sw. intros s2 Ho2 Hn2 Hp2. simpl in Hn2, Hp2.
  apply HQ; [|by etrans].
  assert (∀ m, snx sw s2 m = if decide (a = m) then Some b else snx sw s m) as Hn.
  { intros m. rewrite Hn2, !Hn1. repeat case_decide; subst; try done; congruence. }
  assert (∀ m, spv sw s2 m = if decide (b = m) then Some a else spv sw s m) as Hp.
  { intros m. rewrite Hp2, !Hp1. repeat case_decide; subst; try done; congruence. }
  apply chain_app. split.
  - eapply chain_snoc_frame; [done|intros m Hm|intros m Hm]; rewrite ?Hn, ?Hp; rewrite !decide_False; set_solver.
  - simpl. split_and!; [by rewrite Hn, decide_True|by rewrite Hp, decide_True|].
    eapply chain_cons_frame; [done|intros m Hm|intros m Hm]; rewrite ?Hn, ?Hp; rewrite !decide_False; set_solver.
Qed.

(** ** The lists *)
Record lru_ok sw s L l : Prop := {
  lr_sw : is_swa_list L = sw;
  lr_nodup : NoDup (lru_head L :: l ++ [lru_tail L]);
  lr_chain : chain sw s (lru_head L :: l ++ [lru_tail L]);
  lr_cache : lru_cache L = list_to_set l;
  lr_head : plain <$> s !! lru_head L = Some new_SNode;
  lr_tail : plain <$> s !! lru_tail L = Some new_SNode;
}.

(** What a method of the list leaves alone. *)
Record lru_frame s L s' L' : Prop := {
  lf_links : only_links (is_swa_list L) s s';
  lf_sw : is_swa_list L' = is_swa_list L;
  lf_head : lru_head L' = lru_head L;
  lf_tail : lru_tail L' = lru_tail L;
}.
Lemma lru_frame_trans s1 L1 s2 L2 s3 L3 : lru_frame s1 L1 s2 L2 → lru_frame s2 L2 s3 L3 → lru_frame s1 L1 s3 L3.
Proof. intros [] []. split; [|congruence..]. etrans; [done|]. congruence. Qed.

Lemma lru_ok_frame sw s L l s' L' l' :
  lru_ok sw s L l → lru_frame s L s' L' → NoDup (lru_head L :: l' ++ [lru_tail L]) → chain sw s' (lru_head L :: l' ++ [lru_tail L]) →
  lru_cache L' = list_to_set l' → lru_ok sw s' L' l'.
Proof.
  intros [Hsw _ _ _ Hh Ht] [Hl Hs Eh Et] Hnd Hc Hcache. rewrite <-Eh, <-Et in *.
  split; [congruence|done..| |]; by rewrite (only_links_plain _ _ _ _ Hl).
Qed.
(** The other list does not notice. *)
Lemma lru_ok_other sw s L l s' L' s2 : 
  lru_ok sw s L l → is_swa_list L' = negb sw → only_links (is_swa_list L') s s2 → s' = s2 → lru_ok sw s' L l.
Proof.
  intros [Hsw Hnd Hc Hcache Hh Ht] E Ho ->. rewrite E in Ho. split; try done.
  - by eapply chain_other.
  - by rewrite (only_links_plain _ _ _ _ Ho).
  - by rewrite (only_links_plain _ _ _ _ Ho).
Qed.

Lemma lru_ok_live sw s L l n : lru_ok sw s L l → n ∈ l → is_Some (s !! n).
Proof.
  intros Hok (l1 & l2 & ->)%list_elem_of_split. pose proof (lr_chain _ _ _ _ Hok) as Hc. rewrite <-app_assoc, app_comm_cons in Hc.
  simpl in Hc. apply (chain_app sw s (lru_head L :: l1)) in Hc as [_ Hc]. destruct l2; destruct Hc as (? & _); by eapply snx_live.
Qed.

Lemma wp_assert_in s L l n Q sw : lru_ok sw s L l → n ∈ l → Q tt (s, L) → wp (assert_in n) Q (s, L).
Proof.
  intros Hok Hn HQ. unfold assert_in. wp_steps. simpl. rewrite bool_decide_true; [by wp_step|].
  rewrite (lr_cache _ _ _ _ Hok). set_solver.
Qed.
Lemma wp_assert_listed s L n x Q :
  s !! n = Some x → is_swa_list L && swa_tombstone x = false → Q tt (s, L) → wp (assert_listed n) Q (s, L).
Proof.
  intros Hx Ht HQ. unfold assert_listed, is_swa, lru_get. wp_steps. simpl. rewrite Hx. wp_steps. simpl.
  destruct (is_swa_list L), (swa_tombstone x); simplify_eq/=; by wp_step.
Qed.

(** The node behind [n], and the one before it. *)
Lemma split_before (h : nat) l1 : ∃ l0 a, h :: l1 = l0 ++ [a].
Proof. destruct (exists_last (l := h :: l1)) as (l0 & a & ->); [done|]. eauto. Qed.
Lemma split_after (t : nat) l2 : ∃ b l3, l2 ++ [t] = b :: l3.
Proof. destruct l2; simpl; eauto. Qed.

Lemma wp_unlink sw s L l1 n l2 (Q : unit → lru → Prop) :
  is_swa_list L = sw → NoDup (lru_head L :: (l1 ++ n :: l2) ++ [lru_tail L]) → chain sw s (lru_head L :: (l1 ++ n :: l2) ++ [lru_tail L]) →
  (∀ s', only_links sw s s' → chain sw s' (lru_head L :: (l1 ++ l2) ++ [lru_tail L]) → Q tt (s', L)) →
  wp (unlink_node n) Q (s, L).
Proof.
  intros <- Hnd Hc HQ. destruct (split_before (lru_head L) l1) as (l0 & a & E1).
  destruct (split_after (lru_tail L) l2) as (b & l3 & E2).
  assert (lru_head L :: (l1 ++ n :: l2) ++ [lru_tail L] = l0 ++ a :: n :: b :: l3) as E.
  { rewrite <-app_assoc. simpl. rewrite E2, app_comm_cons, E1, <-app_assoc. done. }
  assert (lru_head L :: (l1 ++ l2) ++ [lru_tail L] = l0 ++ a :: b :: l3) as E'.
  { rewrite <-app_assoc, E2, app_comm_cons, E1, <-app_assoc. done. }
  rewrite E in *. eapply wp_unlink_node; [done..|]. intros s' Hc' Ho. apply HQ; [done|]. by rewrite E'.
Qed.

Lemma wp_insert_mru sw s L l n x (Q : unit → lru → Prop) :
  lru_ok sw s L l → s !! n = Some x → sw && swa_tombstone x = false → n ∉ lru_head L :: l ++ [lru_tail L] →
  (∀ s' L', lru_ok sw s' L' (n :: l) → lru_frame s L s' L' → Q tt (s', L')) →
  wp (insert_mru n) Q (s, L).
Proof.
  intros Hok Hx Ht Hn HQ. pose proof Hok as [Hsw Hnd Hc Hcache _ _]. unfold insert_mru. wp_step.
  eapply wp_assert_listed; [done|by rewrite Hsw|]. wp_steps. simpl.
  rewrite bool_decide_true by (rewrite Hcache; set_solver). wp_steps. simpl. unfold add_node. wp_steps. simpl.
  destruct (split_after (lru_tail L) l) as (b & l2 & E). unfold set_cache. simpl. rewrite E in *.
  eapply (wp_add_node_after _ _ [] _ b l2); simpl; [by rewrite Hsw|done..|by eexists|].
  rewrite Hsw. intros s' Hc' Ho.
  assert (lru_frame s L s' (MkLRU sw (lru_head L) (lru_tail L) ({[n]} ∪ lru_cache L))) as Hf by (split; by rewrite ?Hsw).
  apply HQ; [|done]. eapply lru_ok_frame; [done|done| | |].
  - simpl. rewrite E. apply NoDup_cons in Hnd as [H1 H2]. apply NoDup_cons. split; [set_solver|]. apply NoDup_cons. split; [set_solver|done].
  - simpl. by rewrite E.
  - simpl. by rewrite Hcache.
Qed.

Lemma NoDup_remove_mid (h : nat) l1 n l2 t : NoDup (h :: (l1 ++ n :: l2) ++ [t]) →
  NoDup (h :: (l1 ++ l2) ++ [t]) ∧ n ∉ h :: (l1 ++ l2) ++ [t].
Proof.
  intros Hnd. assert (h :: (l1 ++ n :: l2) ++ [t] ≡ₚ n :: (h :: (l1 ++ l2) ++ [t])) as Hp.
  { rewrite <-(Permutation_middle l1 l2 n). simpl. apply Permutation_swap. }
  rewrite Hp in Hnd. by apply NoDup_cons in Hnd as [? ?].
Qed.

Lemma wp_remove_node sw s L l1 n l2 x (Q : unit → lru → Prop) :
  lru_ok sw s L (l1 ++ n :: l2) → s !! n = Some x → sw && swa_tombstone x = false →
  (∀ s' L', lru_ok sw s' L' (l1 ++ l2) → lru_frame s L s' L' → Q tt (s', L')) →
  wp (remove_node n) Q (s, L).
Proof.
  intros Hok Hx Ht HQ. pose proof Hok as [Hsw Hnd Hc Hcache _ _]. destruct (NoDup_remove_mid _ _ _ _ _ Hnd) as [Hnd' Hn].
  unfold remove_node. wp_step. eapply wp_assert_in; [done|set_solver|]. wp_step.
  eapply wp_assert_listed; [done|by rewrite Hsw|]. wp_steps. unfold set_cache. simpl.
  eapply wp_unlink; simpl; [done|done|done|]. intros s' Ho Hc'.
  assert (lru_frame s L s' (MkLRU sw (lru_head L) (lru_tail L) (lru_cache L ∖ {[n]}))) as Hf by (split; by rewrite ?Hsw).
  rewrite Hsw. apply HQ; [|done]. eapply lru_ok_frame; [done|done|done|done|]. simpl. rewrite Hcache.
  rewrite !list_to_set_app_L, list_to_set_cons. apply set_eq. intros m. destruct (decide (m = n)); set_solver.
Qed.

Lemma wp_reset_node_mru sw s L l1 n l2 x (Q : unit → lru → Prop) :
  lru_ok sw s L (l1 ++ n :: l2) → s !! n = Some x → sw && swa_tombstone x = false →
  (∀ s', lru_ok sw s' L (n :: l1 ++ l2) → lru_frame s L s' L → Q tt (s', L)) →
  wp (reset_node_mru n) Q (s, L).
Proof.
  intros Hok Hx Ht HQ. pose proof Hok as [Hsw Hnd Hc Hcache _ _]. destruct (NoDup_remove_mid _ _ _ _ _ Hnd) as [Hnd' Hn].
  unfold reset_node_mru. wp_step. eapply wp_assert_in; [done|set_solver|]. wp_step.
  eapply wp_assert_listed; [done|by rewrite Hsw|]. wp_steps.
  eapply wp_unlink; [done|done|done|]. intros s1 Ho1 Hc1. unfold add_node. wp_steps. simpl.
  destruct (split_after (lru_tail L) (l1 ++ l2)) as (b & l3 & E). rewrite E in *.
  eapply (wp_add_node_after _ _ [] _ b l3); simpl; rewrite ?Hsw; [done..|eapply only_links_live; [done|by eexists]|].
  intros s2 Hc2 Ho2. assert (lru_frame s L s2 L) as Hf by (split; rewrite ?Hsw; [by etrans|done..]).
  apply HQ; [|done]. eapply lru_ok_frame; [done|done| | |].
  - simpl. rewrite E. apply NoDup_cons in Hnd' as [H1 H2]. apply NoDup_cons. split; [set_solver|]. apply NoDup_cons. split; [set_solver|done].
  - simpl. by rewrite E.
  - rewrite Hcache. rewrite list_to_set_cons, !list_to_set_app_L, list_to_set_cons. set_solver.
Qed.

(** ** The walks *)
Definition skipped (skip : SNode → bool) s (m : nat) : bool := from_option skip true (s !! m).
(** The node nearest to the tail among [l] that is not skipped. *)
Definition last_kept (skip : SNode → bool) s l : option nat := last (filter (λ m, skipped skip s m = false) l).
Lemma last_kept_snoc skip s l m :
  last_kept skip s (l ++ [m]) = if skipped skip s m then last_kept skip s l else Some m.
Proof.
  unfold last_kept. rewrite filter_app, filter_cons, filter_nil. destruct (skipped skip s m) eqn:E.
  - rewrite decide_False by done. by rewrite app_nil_r.
  - rewrite decide_True by done. apply last_snoc.
Qed.
Lemma last_kept_spec skip s l m : last_kept skip s l = Some m →
  ∃ l1 l2, l = l1 ++ m :: l2 ∧ skipped skip s m = false ∧ Forall (λ q, skipped skip s q = true) l2.
Proof.
  induction l as [|q l IH] using rev_ind; [done|]. rewrite last_kept_snoc. destruct (skipped skip s q) eqn:E.
  - intros (l1 & l2 & -> & Hm & Hall)%IH. exists l1, (l2 ++ [q]). rewrite <-app_assoc. split_and!; [done..|].
    apply Forall_app. by rewrite Forall_singleton.
  - intros [= ->]. exists l, []. done.
Qed.
Lemma last_kept_none skip s l : last_kept skip s l = None → Forall (λ q, skipped skip s q = true) l.
Proof.
  induction l as [|q l IH] using rev_ind; [by constructor|]. rewrite last_kept_snoc. destruct (skipped skip s q) eqn:E; [|done].
  intros ?%IH. apply Forall_app. by rewrite Forall_singleton.
Qed.
Lemma skipped_ext sw skip s s' m : (∀ x, skip x = skip (plain x)) → only_links sw s s' → skipped skip s' m = skipped skip s m.
Proof.
  intros Hskip Ho. pose proof (only_links_plain _ _ _ m Ho) as E. unfold skipped.
  destruct (s' !! m) as [x'|], (s !! m) as [x|]; try done. simpl in *. apply (inj Some) in E. by rewrite Hskip, E, <-Hskip.
Qed.

Lemma wp_walk_prev skip s L l1 rest fuel l0 a Q :
  lru_head L :: l1 = l0 ++ [a] → chain (is_swa_list L) s (lru_head L :: l1 ++ rest) → rest ≠ [] → length l1 < fuel →
  skipped skip s (lru_head L) = false → is_Some (s !! lru_head L) →
  Q (default (lru_head L) (last_kept skip s l1)) (s, L) → wp (walk_prev fuel skip a) Q (s, L).
Proof.
  revert fuel l0 a rest. induction l1 as [|m l1 IH] using rev_ind; intros fuel l0 a rest E Hc Hrest Hfuel Hhead Hlive HQ.
  - apply (f_equal last) in E. rewrite last_snoc in E. simpl in E. injection E as <-. destruct fuel; [lia|].
    simpl. unfold lru_get. wp_steps. simpl. destruct Hlive as [x Hx]. unfold skipped in Hhead. rewrite Hx in *. wp_steps. simpl in Hhead.
    rewrite Hhead. by wp_step.
  - rewrite app_comm_cons in E. apply app_inj_tail in E as [_ <-]. rewrite length_app in Hfuel. simpl in Hfuel.
    destruct fuel as [|fuel]; [lia|]. simpl. rewrite <-app_assoc in Hc. change ([m] ++ rest) with (m :: rest) in Hc.
    destruct (split_before (lru_head L) l1) as (l0' & b & Eb).
    assert (spv (is_swa_list L) s m = Some b) as Hp.
    { rewrite app_comm_cons, Eb, <-app_assoc in Hc. apply chain_app in Hc as [_ (_ & Hp & _)]. done. }
    destruct (spv_live _ _ _ _ Hp) as [x Hx]. unfold lru_get. wp_steps. simpl. rewrite last_kept_snoc in HQ.
    unfold skipped at 1 in HQ. rewrite Hx in *. simpl in HQ. wp_steps. destruct (skip x); [|by wp_step].
    wp_step. apply wp_links; [by eexists|]. rewrite Hp. wp_steps. simpl. eapply IH; [exact Eb|exact Hc|done|lia|done|done|done].
Qed.

Lemma lru_length sw s L l : lru_ok sw s L l → length l ≤ size s.
Proof.
  intros Hok. pose proof (lr_nodup _ _ _ _ Hok) as [_ [Hnd _]%NoDup_app]%NoDup_cons.
  rewrite <-(size_list_to_set (C := gset nat)) by done. rewrite <-size_dom. apply subseteq_size. intros n Hn%elem_of_list_to_set.
  apply elem_of_dom. by eapply lru_ok_live.
Qed.

(** The nodes the walks skip do not depend on links, and never are dummies. *)
Record skip_ok (skip : bool → SNode → bool) : Prop := {
  sk_plain : ∀ sw x, skip sw x = skip sw (plain x);
  sk_new : ∀ sw, skip sw new_SNode = false;
}.
Lemma locked_skip_ok : skip_ok locked_node.
Proof. split; intros sw; [|by destruct sw]. intros []. by destruct sw. Qed.
Lemma inner_skip_ok : skip_ok locked_or_inner.
Proof. split; intros sw; [|by destruct sw]. intros []. by destruct sw. Qed.

Lemma wp_prev_where skip sw s L l1 n l2 check Q :
  skip_ok skip → lru_ok sw s L (l1 ++ l2) → (check = true ∧ head l2 = Some n ∨ check = false ∧ l2 = [] ∧ n = lru_tail L) →
  Q (last_kept (skip sw) s l1) (s, L) → wp (prev_where skip check n) Q (s, L).
Proof.
  intros Hskip Hok Hn HQ. pose proof Hok as [Hsw Hnd Hc _ Hh _]. unfold prev_where.
  assert (wp (if check then assert_in n else mret tt) (λ _ st, st = (s, L)) (s, L)) as Hchk.
  { destruct Hn as [[-> Hl2]|[-> _]]; [|done]. eapply wp_assert_in; [done| |done]. destruct l2; simplify_eq/=. set_solver. }
  destruct (split_before (lru_head L) l1) as (l0 & a & E).
  assert (∃ rest, lru_head L :: (l1 ++ l2) ++ [lru_tail L] = lru_head L :: l1 ++ n :: rest) as [rest Er].
  { destruct Hn as [[_ Hl2]|(_ & -> & ->)]; [destruct l2 as [|? l2]; simplify_eq/=; exists (l2 ++ [lru_tail L]); by rewrite <-app_assoc|].
    exists []. by rewrite app_nil_r. }
  rewrite Er in Hc, Hnd.
  assert (spv sw s n = Some a) as Hp.
  { rewrite app_comm_cons, E, <-app_assoc in Hc. apply chain_app in Hc as [_ (_ & Hp & _)]. done. }
  apply fmap_Some in Hh as (hx & Hhx & Hh).
  assert (skipped (skip sw) s (lru_head L) = false) as Hhs.
  { unfold skipped. rewrite Hhx. simpl. rewrite (sk_plain _ Hskip), <-Hh. apply (sk_new _ Hskip). }
  wp_step. eapply wp_mono; [exact Hchk|]. intros _ st ->. unfold is_swa. wp_steps. cbn [fst snd].
  apply wp_links; [by eapply spv_live|]. wp_step. rewrite Hsw, Hp. wp_steps. cbn [fst snd prv].
  eapply wp_walk_prev; [exact E|rewrite Hsw; exact Hc|done| |done|by eexists|].
  { pose proof (lru_length _ _ _ _ Hok) as Hlen. rewrite length_app in Hlen. lia. }
  wp_steps. simpl. destruct (last_kept (skip sw) s l1) as [m|] eqn:Em; simpl; [|by rewrite decide_True].
  rewrite decide_False; [done|]. intros ->. apply last_kept_spec in Em as (la & lb & -> & _).
  apply NoDup_cons in Hnd as [Hnd _]. set_solver.
Qed.

(** [reset_node_and_parents_mru]: the listed nodes of [ns], from a node up to the root,
    go to the front. *)
Inductive up_path s (root : nat) : nat → list nat → Prop :=
  | up_root : up_path s root root []
  | up_step n x p ns : n ≠ root → s !! n = Some x → s_parent x = Some p → up_path s root p ns → up_path s root n (n :: ns).

Definition listed sw s (m : nat) : bool := from_option (λ x, negb (sw && swa_tombstone x)) false (s !! m).
Definition move_front (ns l : list nat) : list nat := ns ++ filter (λ m, m ∉ ns) l.

Lemma up_path_ext sw s s' root n ns : only_links sw s s' → up_path s root n ns → up_path s' root n ns.
Proof.
  intros Ho. induction 1 as [|n x p ns Hn Hx Hp _ IH]; [constructor|].
  destruct (only_links_lookup _ _ _ _ _ Ho Hx) as (x' & Hx' & E). econstructor; [done|done| |done].
  rewrite <-Hp. change (s_parent (plain x') = s_parent (plain x)). by rewrite E.
Qed.
Lemma listed_ext sw sw' s s' m : only_links sw' s s' → listed sw s' m = listed sw s m.
Proof.
  intros Ho. pose proof (only_links_plain _ _ _ m Ho) as E. unfold listed.
  destruct (s' !! m) as [x'|], (s !! m) as [x|]; try done. simpl in *. apply (inj Some) in E.
  assert (swa_tombstone x' = swa_tombstone x) as ->; [|done].
  change (swa_tombstone (plain x') = swa_tombstone (plain x)). by rewrite E.
Qed.
Definition listed_of sw s (ns : list nat) : list nat := filter (λ m, listed sw s m = true) ns.
Lemma listed_of_ext sw sw' s s' ns : only_links sw' s s' → listed_of sw s' ns = listed_of sw s ns.
Proof. intros Ho. apply list_filter_iff. intros m. by rewrite (listed_ext _ _ _ _ _ Ho). Qed.

Lemma move_front_mid n ns la lb : n ∉ la ++ lb → n :: move_front ns (la ++ lb) = move_front (n :: ns) (la ++ n :: lb).
Proof.
  intros Hn. unfold move_front. simpl. f_equal. f_equal. rewrite !filter_app, filter_cons. rewrite decide_False by set_solver.
  f_equal; apply filter_ext_in; set_solver.
Qed.

Lemma wp_reset_parents sw L root ns : ∀ s n fuel prev_node l0 dn l (Q : unit → lru → Prop),
  up_path s root n ns → lru_ok sw s L (dn ++ l) → lru_head L :: dn = l0 ++ [prev_node] → NoDup ns → (∀ m, m ∈ listed_of sw s ns → m ∈ l) →
  length ns < fuel →
  (∀ s', lru_ok sw s' L (dn ++ move_front (listed_of sw s ns) l) → lru_frame s L s' L → Q tt (s', L)) →
  wp (reset_parents fuel prev_node n root) Q (s, L).
Proof.
  induction ns as [|m ns IH]; intros s n fuel prev_node l0 dn l Q Hup Hok E Hnd Hin Hfuel HQ; (destruct fuel as [|fuel]; [simpl in Hfuel; lia|]);
    inversion Hup as [|? x p ? Hn Hx Hp Hup']; subst; cbn [reset_parents].
  { rewrite decide_True by done. wp_step. apply HQ; [|by split]. unfold move_front, listed_of. simpl.
    by rewrite filter_full by (apply Forall_forall; set_solver). }
  rewrite decide_False by done. unfold is_swa. do 2 wp_step. cbn [snd]. pose proof (lr_sw _ _ _ _ Hok) as Hsw. rewrite Hsw.
  wp_steps. eapply wp_lru_get; [done|]. wp_step.
  apply NoDup_cons in Hnd as [Hm Hnd]. assert (listed sw s m = negb (sw && swa_tombstone x)) as Hl by (unfold listed; by rewrite Hx).
  assert (negb sw || negb (swa_tombstone x) = listed sw s m) as -> by (rewrite Hl; by destruct sw, (swa_tombstone x)).
  unfold listed_of in Hin, HQ. rewrite filter_cons in Hin, HQ. fold (listed_of sw s ns) in Hin, HQ.
  destruct (listed sw s m) eqn:Elst.
  - rewrite decide_True in Hin, HQ by done. destruct (list_elem_of_split _ _ (Hin m ltac:(by left))) as (la & lb & ->).
    pose proof Hok as [_ Hnd' Hc Hcache _ _].
    rewrite app_assoc in Hnd', Hc. destruct (NoDup_remove_mid _ _ _ _ _ Hnd') as [Hnd'' Hm'].
    wp_step. eapply wp_assert_in; [exact Hok|set_solver|]. wp_step. eapply wp_unlink; [done|exact Hnd'|exact Hc|]. intros s1 Ho1 Hc1.
    assert (∃ b l3, (la ++ lb) ++ [lru_tail L] = b :: l3) as (b & l3 & Eb) by apply split_after.
    assert (lru_head L :: ((dn ++ la) ++ lb) ++ [lru_tail L] = l0 ++ prev_node :: b :: l3) as Ex.
    { rewrite <-(app_assoc dn), <-(app_assoc dn), Eb, app_comm_cons, E, <-app_assoc. done. }
    rewrite Ex in Hnd'', Hm', Hc1. wp_step.
    eapply wp_add_node_after; [by rewrite Hsw|done|done|eapply only_links_live; [done|by eexists]|]. rewrite Hsw. intros s2 Hc2 Ho2. wp_step.
    assert (only_links sw s s2) as Ho by (by etrans).
    assert (lru_frame s L s2 L) as Hf by (split; by rewrite ?Hsw).
    assert (l0 ++ prev_node :: m :: b :: l3 = lru_head L :: ((dn ++ [m]) ++ la ++ lb) ++ [lru_tail L]) as Ey.
    { rewrite <-!(app_assoc _ _ [lru_tail L]), <-(app_assoc dn), app_comm_cons, E. simpl. rewrite app_assoc, Eb, <-app_assoc. done. }
    rewrite Ey in Hc2. assert (lru_ok sw s2 L ((dn ++ [m]) ++ la ++ lb)) as Hok2.
    { eapply lru_ok_frame; [done|done| |done|].
      - assert ((dn ++ [m]) ++ la ++ lb ≡ₚ (dn ++ la) ++ m :: lb) as ->; [|done].
        rewrite <-!app_assoc. f_equiv. apply (Permutation_middle la lb m).
      - rewrite Hcache, <-(app_assoc dn). rewrite !list_to_set_app_L, !list_to_set_cons. set_solver. }
    destruct (only_links_lookup _ _ _ _ _ Ho Hx) as (x2 & Hx2 & Exx).
    wp_step. eapply wp_lru_get; [done|].
    assert (s_parent x2 = Some p) as ->. { rewrite <-Hp. change (s_parent (plain x2) = s_parent (plain x)). by rewrite Exx. }
    wp_steps. eapply (IH s2 p fuel m (lru_head L :: dn) (dn ++ [m]) (la ++ lb)); [by eapply up_path_ext|done|done|done| |simpl in *; lia|].
    + rewrite (listed_of_ext _ _ _ _ _ Ho). intros q Hq. assert (q ≠ m) by (intros ->; unfold listed_of in Hq; by apply list_elem_of_filter in Hq as [_ ?]).
      specialize (Hin q). set_solver.
    + intros s' Hok' Hf'. apply HQ; [|by eapply lru_frame_trans]. rewrite (listed_of_ext _ _ _ _ _ Ho) in Hok'.
      rewrite <-app_assoc in Hok'. simpl in Hok'. rewrite move_front_mid in Hok'; [done|].
      assert (m ∉ lru_head L :: ((dn ++ la) ++ lb) ++ [lru_tail L]) by (by rewrite Ex). set_solver.
  - rewrite decide_False in Hin, HQ by done. wp_steps. eapply wp_lru_get; [done|]. rewrite Hp. wp_steps.
    eapply (IH s p fuel prev_node l0 dn l); [done..|simpl in *; lia|done].
Qed.
End lru.
