(* ===== verification/SwaCache.v ===== *)
(** The sliding-window radix cache: [class SWARadixCache] of mem_cache/swa_radix_cache.py.

    Every cached slot belongs to the pool of the full-attention layers; a slot may also be
    backed by a slot of the sliding-window layers.  The backing of a node can be given up
    while its slots stay cached: the node is then a tombstone.  The cache reaches the
    allocator of the two pools through [SWAAllocator]. *)
From S2P Require Import Prelude RadixKey SwaLru.
From stdpp Require Import options.

Class SWAAllocator (A : Type) := {
  sa_free : list Z → A → result A;
  sa_free_swa : list Z → A → result A;
}.

(** [split_leaf] and [compact] are SGLANG_OPT_SWA_SPLIT_LEAF_ON_INSERT and
    SGLANG_OPT_SWA_RADIX_CACHE_COMPACT. *)
Record SWAConfig := MkSWAConfig {
  sw_disable : bool; sw_page_size : nat; sw_eagle : bool; sliding_window_size : nat; split_leaf : bool; compact : bool;
}.
Record SWACache (A : Type) := MkSWA {
  sw_cfg : SWAConfig;
  sw_root : nat;
  sw_nodes : store;
  sw_counter : nat;
  swa_uuid_counter : Z;
  full_evictable_size_ : Z;
  swa_evictable_size_ : Z;
  full_protected_size_ : Z;
  swa_protected_size_ : Z;
  full_lru_list : LRUList;
  swa_lru_list : LRUList;
  sw_alloc : A;
}.
Arguments MkSWA {A}.
Arguments sw_cfg {A}. Arguments sw_root {A}. Arguments sw_nodes {A}. Arguments sw_counter {A}. Arguments swa_uuid_counter {A}.
Arguments full_evictable_size_ {A}. Arguments swa_evictable_size_ {A}. Arguments full_protected_size_ {A}. Arguments swa_protected_size_ {A}.
Arguments full_lru_list {A}. Arguments swa_lru_list {A}. Arguments sw_alloc {A}.

Section swa_cache.
Context {A : Type} `{SWAAllocator A}.
Abbreviation cache := (SWACache A).
Abbreviation M := (ST cache).

(** Assignments to single attributes. *)
Definition set_sw_nodes (s : store) (c : cache) : cache :=
  MkSWA (sw_cfg c) (sw_root c) s (sw_counter c) (swa_uuid_counter c) (full_evictable_size_ c) (swa_evictable_size_ c)
    (full_protected_size_ c) (swa_protected_size_ c) (full_lru_list c) (swa_lru_list c) (sw_alloc c).
Definition set_sw_counter (n : nat) (c : cache) : cache :=
  MkSWA (sw_cfg c) (sw_root c) (sw_nodes c) n (swa_uuid_counter c) (full_evictable_size_ c) (swa_evictable_size_ c)
    (full_protected_size_ c) (swa_protected_size_ c) (full_lru_list c) (swa_lru_list c) (sw_alloc c).
Definition set_uuid_counter (u : Z) (c : cache) : cache :=
  MkSWA (sw_cfg c) (sw_root c) (sw_nodes c) (sw_counter c) u (full_evictable_size_ c) (swa_evictable_size_ c)
    (full_protected_size_ c) (swa_protected_size_ c) (full_lru_list c) (swa_lru_list c) (sw_alloc c).
(** The four counters: [ev] and [pr] are added to the evictable and the protected size. *)
Definition add_full (ev pr : Z) (c : cache) : cache :=
  MkSWA (sw_cfg c) (sw_root c) (sw_nodes c) (sw_counter c) (swa_uuid_counter c) (full_evictable_size_ c + ev)%Z (swa_evictable_size_ c)
    (full_protected_size_ c + pr)%Z (swa_protected_size_ c) (full_lru_list c) (swa_lru_list c) (sw_alloc c).
Definition add_swa (ev pr : Z) (c : cache) : cache :=
  MkSWA (sw_cfg c) (sw_root c) (sw_nodes c) (sw_counter c) (swa_uuid_counter c) (full_evictable_size_ c) (swa_evictable_size_ c + ev)%Z
    (full_protected_size_ c) (swa_protected_size_ c + pr)%Z (full_lru_list c) (swa_lru_list c) (sw_alloc c).
Definition set_lru (swa : bool) (l : LRUList) (c : cache) : cache :=
  MkSWA (sw_cfg c) (sw_root c) (sw_nodes c) (sw_counter c) (swa_uuid_counter c) (full_evictable_size_ c) (swa_evictable_size_ c)
    (full_protected_size_ c) (swa_protected_size_ c) (if swa then full_lru_list c else l) (if swa then l else swa_lru_list c) (sw_alloc c).
Definition set_sw_alloc (a : A) (c : cache) : cache :=
  MkSWA (sw_cfg c) (sw_root c) (sw_nodes c) (sw_counter c) (swa_uuid_counter c) (full_evictable_size_ c) (swa_evictable_size_ c)
    (full_protected_size_ c) (swa_protected_size_ c) (full_lru_list c) (swa_lru_list c) a.

Definition get_snode (n : nat) : M SNode := s ← st_gets sw_nodes; st_lift (unwrap Dangling (s !! n)).
Definition upd_snode (n : nat) (f : SNode → SNode) : M unit :=
  x ← get_snode n; st_modify (λ c, set_sw_nodes (<[n := f x]> (sw_nodes c)) c).
(** [node.value] where the code needs a tensor. *)
Definition value_of (x : SNode) : M (list Z) := st_lift (unwrap TypeError (s_value x)).
Definition parent_of (x : SNode) : M nat := st_lift (unwrap AttributeError (s_parent x)).

(** A method of one of the LRU lists. *)
Definition on_lru {B} (swa : bool) (m : ST (store * LRUList) B) : M B := λ c,
  match m (sw_nodes c, if swa then swa_lru_list c else full_lru_list c) with
  | Ok (b, s) => Ok (b, set_lru swa s.2 (set_sw_nodes s.1 c))
  | Raise e => Raise e
  | Running => Running
  end.
Definition full_lru {B} (m : ST (store * LRUList) B) : M B := on_lru false m.
Definition swa_lru {B} (m : ST (store * LRUList) B) : M B := on_lru true m.
(** [if not node.swa_tombstone: self.swa_lru_list....] *)
Definition swa_lru_unless (t : bool) (m : ST (store * LRUList) unit) : M unit := if t then mret tt else swa_lru m.

Definition free (l : list Z) : M unit := a ← st_gets sw_alloc; a ← st_lift (sa_free l a); st_modify (set_sw_alloc a).
Definition free_swa (l : list Z) : M unit := a ← st_gets sw_alloc; a ← st_lift (sa_free_swa l a); st_modify (set_sw_alloc a).

(** [TreeNode()], then the attributes of [x]. *)
Definition make_SNode (x : SNode) : M nat :=
  n ← st_gets sw_counter;
  _ ← st_modify (λ c, set_sw_counter (S n) (set_sw_nodes (<[n := x]> (sw_nodes c)) c));
  mret n.
Definition gen_swa_uuid : M Z :=
  u ← st_gets swa_uuid_counter; _ ← st_modify (set_uuid_counter (u + 1)); mret (u + 1)%Z.

(** ** reset *)

(** [LRUList(is_swa_list)] *)
Definition make_LRUList (swa : bool) : M LRUList :=
  h ← make_SNode new_SNode;
  t ← make_SNode new_SNode;
  _ ← upd_snode h (set_links swa (set_nxt (Some t)));
  _ ← upd_snode t (set_links swa (set_prv (Some h)));
  mret (MkLRU swa h t ∅).
Definition swa_reset : M unit :=
  r ← make_SNode (MkSNode ∅ None (MkRadixKey [] None false) (Some []) false 1 1 (MkLinks None None) (MkLinks None None) None);
  _ ← st_modify (λ c, MkSWA (sw_cfg c) r (sw_nodes c) (sw_counter c) (swa_uuid_counter c) 0 0 0 0 (full_lru_list c) (swa_lru_list c) (sw_alloc c));
  f ← make_LRUList false;
  _ ← st_modify (set_lru false f);
  s ← make_LRUList true;
  st_modify (set_lru true s).
(** [__init__]: the class attributes of [TreeNode] start at 0 and 1. *)
Definition swa_init (cf : SWAConfig) (a : A) : result cache :=
  snd <$> swa_reset (MkSWA cf 0 ∅ 0 1 0 0 0 0 (MkLRU false 0 0 ∅) (MkLRU true 0 0 ∅) a).

(** ** Nodes *)

(** [_split_node] *)
Definition swa_split_node (key : RadixKey) (child split_len : nat) : M nat :=
  cf ← st_gets sw_cfg;
  x ← get_snode child;
  rest_key ← st_lift (key_suffix key split_len);
  rest_ck ← st_lift (child_key rest_key (sw_page_size cf));
  pre_key ← st_lift (key_prefix (s_key x) split_len);
  _ ← st_lift (py_assert (bool_decide (0 < key_len pre_key)));
  v ← value_of x;
  new_node ← make_SNode (MkSNode {[rest_ck := child]} (s_parent x) pre_key (Some (take split_len v)) (swa_tombstone x)
                           (full_lock_ref x) (swa_lock_ref x) (MkLinks None None) (MkLinks None None) (swa_uuid x));
  _ ← upd_snode child (set_swa_uuid None);
  _ ← full_lru (remove_node child);
  _ ← swa_lru_unless (swa_tombstone x) (remove_node child);
  _ ← upd_snode child (set_s_parent (Some new_node));
  post_key ← st_lift (key_suffix (s_key x) split_len);
  _ ← upd_snode child (set_s_key post_key);
  _ ← st_lift (py_assert (bool_decide (0 < key_len post_key)));
  _ ← upd_snode child (set_s_value (drop split_len v));
  p ← parent_of x;
  ck ← st_lift (child_key key (sw_page_size cf));
  _ ← upd_snode p (set_s_children <[ck := new_node]>);
  _ ← full_lru (insert_mru new_node);
  _ ← full_lru (insert_mru child);
  _ ← swa_lru_unless (swa_tombstone x) (insert_mru new_node);
  _ ← swa_lru_unless (swa_tombstone x) (insert_mru child);
  mret new_node.

(** [_add_new_node] *)
Definition add_new_node (parent : nat) (key : RadixKey) (value : list Z) (tombstone : bool) : M nat :=
  _ ← st_lift (py_assert (bool_decide (0 < key_len key)));
  cf ← st_gets sw_cfg;
  n ← make_SNode (MkSNode ∅ (Some parent) key (Some value) tombstone 0 0 (MkLinks None None) (MkLinks None None) None);
  ck ← st_lift (child_key key (sw_page_size cf));
  _ ← upd_snode parent (set_s_children <[ck := n]>);
  _ ← full_lru (insert_mru n);
  _ ← st_modify (add_full (Z.of_nat (length value)) 0);
  _ ← swa_lru_unless tombstone (insert_mru n);
  _ ← (if tombstone then mret tt else st_modify (add_swa (Z.of_nat (length value)) 0));
  mret n.

(** [node.parent.children.pop(key, None)] of [_delete_leaf] and [_delete_tombstone_leaf] *)
Definition pop_child (node : nat) (x : SNode) : M unit :=
  cf ← st_gets sw_cfg;
  _ ← st_lift (py_assert (bool_decide (s_children x = ∅)));
  ck ← st_lift (child_key (s_key x) (sw_page_size cf));
  p ← parent_of x;
  px ← get_snode p;
  _ ← upd_snode p (set_s_children (delete ck));
  st_lift (py_assert (bool_decide (s_children px !! ck = Some node))).
Definition swa_delete_leaf (node : nat) : M unit :=
  x ← get_snode node;
  _ ← pop_child node x;
  _ ← st_modify (add_full (- Z.of_nat (key_len (s_key x))) 0);
  if swa_tombstone x then mret tt else st_modify (add_swa (- Z.of_nat (key_len (s_key x))) 0).
Definition delete_tombstone_leaf (node : nat) : M unit :=
  x ← get_snode node;
  _ ← st_lift (py_assert (swa_tombstone x));
  _ ← pop_child node x;
  st_modify (add_full (- Z.of_nat (key_len (s_key x))) 0).
Definition tombstone_internal_node (node : nat) : M unit :=
  x ← get_snode node;
  _ ← st_lift (py_assert (bool_decide (s_children x ≠ ∅)));
  _ ← upd_snode node (set_tombstone true);
  st_modify (add_swa (- Z.of_nat (key_len (s_key x))) 0).

(** The loop of [_iteratively_delete_tombstone_leaf]. *)
Fixpoint delete_tombstones (fuel : nat) (node : nat) (full_num_evicted : Z) : M (nat * Z) :=
  match fuel with
  | 0 => λ _, Running
  | S fuel =>
      x ← get_snode node;
      p ← parent_of x;
      px ← get_snode p;
      root ← st_gets sw_root;
      if swa_tombstone px && bool_decide (s_children px = ∅) && bool_decide (p ≠ root) && bool_decide (full_lock_ref px <= 0)%Z then
        _ ← st_lift (py_assert (bool_decide (swa_lock_ref px = 0%Z)));
        v ← value_of px;
        _ ← free v;
        _ ← full_lru (remove_node p);
        _ ← delete_tombstone_leaf p;
        delete_tombstones fuel p (full_num_evicted + Z.of_nat (length v))
      else mret (node, full_num_evicted)
  end.
Definition iteratively_delete_tombstone_leaf (node : nat) : M (nat * Z) :=
  k ← st_gets (λ c, size (sw_nodes c)); delete_tombstones (S k) node 0.

(** ** Matching *)

(** [_compact_single_child_chain], the body of the loop: the only child of [node] is
    joined with it. *)
Definition join_child (node : nat) (x : SNode) (child : nat) (y : SNode) : M unit :=
  vx ← value_of x;
  vy ← value_of y;
  _ ← upd_snode node (set_s_key (MkRadixKey (token_ids (s_key x) ++ token_ids (s_key y)) (extra_key (s_key x)) (is_bigram (s_key x))));
  _ ← upd_snode node (set_s_value (vx ++ vy));
  _ ← upd_snode node (set_s_children (λ _, s_children y));
  _ ← st_modify (λ c, set_sw_nodes (foldr (λ e s, alter (set_s_parent (Some node)) e.2 s) (sw_nodes c) (map_to_list (s_children y))) c);
  _ ← (match swa_uuid y with Some u => upd_snode node (set_swa_uuid (Some u)) | None => mret tt end);
  _ ← full_lru (remove_node child);
  swa_lru_unless (swa_tombstone y) (remove_node child).
Fixpoint compact_chain (fuel : nat) (node : nat) : M unit :=
  match fuel with
  | 0 => λ _, Running
  | S fuel =>
      x ← get_snode node;
      match map_to_list (s_children x) with
      | [(_, child)] =>
          y ← get_snode child;
          s ← st_gets sw_nodes;
          let sum_gc := foldr (λ e a, (from_option full_lock_ref 0 (s !! e.2) + a)%Z) 0%Z (map_to_list (s_children y)) in
          if bool_decide (s_children y = ∅) || bool_decide (sum_gc < full_lock_ref y)%Z
             || negb (bool_decide (swa_tombstone y = swa_tombstone x)) || negb (bool_decide (full_lock_ref y = full_lock_ref x))
             || negb (bool_decide (swa_lock_ref y = swa_lock_ref x))
          then mret tt
          else _ ← join_child node x child y; compact_chain fuel node
      | _ => mret tt
      end
  end.

(** [match_len_since_tombstone], [None] for infinity. *)
Definition reaches (w : nat) (m : option nat) : bool := match m with None => true | Some m => bool_decide (w ≤ m) end.
Definition grow (t : bool) (k : nat) (m : option nat) : option nat := if t then m else (λ m, m + k) <$> m.

(** The variables of the loop of [_match_prefix_helper]. *)
Record MatchState := MkMatch { m_value : list (list Z); m_since : option nat; best_value_len : nat; best_last_node : nat }.
(** Keeps the current node as the best one if the match since the last tombstone is long enough. *)
Definition keep_best (w node : nat) (m : MatchState) : MatchState :=
  if reaches w (m_since m) then MkMatch (m_value m) (m_since m) (length (m_value m)) node else m.
Definition enter_child (w node : nat) (t : bool) (m : MatchState) : MatchState :=
  if t then let m := keep_best w node m in MkMatch (m_value m) (Some 0) (best_value_len m) (best_last_node m) else m.
Definition push_value (t : bool) (v : list Z) (m : MatchState) : MatchState :=
  MkMatch (m_value m ++ [v]) (grow t (length v) (m_since m)) (best_value_len m) (best_last_node m).

Fixpoint swa_match_loop (fuel : nat) (node : nat) (key : RadixKey) (ck : ckey) (m : MatchState) : M (nat * MatchState) :=
  match fuel with
  | 0 => λ _, Running
  | S fuel =>
      nx ← get_snode node;
      match (if decide (0 < key_len key) then s_children nx !! ck else None) with
      | None => mret (node, m)
      | Some child =>
          cf ← st_gets sw_cfg;
          k ← st_gets (λ c, size (sw_nodes c));
          _ ← (if compact cf then compact_chain (S k) child else mret tt);
          x ← get_snode child;
          let m := enter_child (sliding_window_size cf) node (swa_tombstone x) m in
          prefix_len ← st_lift (key_match (s_key x) key (sw_page_size cf));
          if decide (prefix_len < key_len (s_key x)) then
            new_node ← swa_split_node (s_key x) child prefix_len;
            y ← get_snode new_node;
            v ← value_of y;
            mret (new_node, push_value (swa_tombstone y) v m)
          else
            v ← value_of x;
            key' ← st_lift (key_suffix key prefix_len);
            ck' ← (if decide (0 < key_len key') then st_lift (child_key key' (sw_page_size cf)) else mret ck);
            swa_match_loop fuel child key' ck' (push_value (swa_tombstone x) v m)
      end
  end.
(** [_match_prefix_helper] *)
Definition swa_match_helper (key : RadixKey) : M MatchState :=
  node ← st_gets sw_root;
  cf ← st_gets sw_cfg;
  ck ← st_lift (child_key key (sw_page_size cf));
  r ← swa_match_loop (S (key_len key)) node key ck (MkMatch [] None 0 node);
  mret (keep_best (sliding_window_size cf) r.1 r.2).

(** [match_prefix]: the slots and the last node. *)
Definition swa_match_prefix (key : RadixKey) : M (list Z * nat) :=
  cf ← st_gets sw_cfg;
  root ← st_gets sw_root;
  let key := (maybe_to_bigram_view key (sw_eagle cf) None).1 in
  if sw_disable cf || bool_decide (key_len key = 0) then mret ([], root)
  else
    key ← st_lift (page_aligned key (sw_page_size cf));
    if bool_decide (key_len key = 0) then mret ([], root)
    else
      m ← swa_match_helper key;
      _ ← full_lru (reset_node_and_parents_mru (best_last_node m) root);
      _ ← swa_lru (reset_node_and_parents_mru (best_last_node m) root);
      mret (concat (take (best_value_len m) (m_value m)), best_last_node m).

(** ** Insertion *)

(** [_maybe_split_leaf_for_swa_lock] *)
Definition maybe_split_leaf (leaf : nat) : M unit :=
  cf ← st_gets sw_cfg;
  root ← st_gets sw_root;
  x ← get_snode leaf;
  v ← value_of x;
  let ps := sw_page_size cf in
  let tail_size := (sliding_window_size cf + ps - 1) / ps * ps in
  let split_at := length v - tail_size in
  if bool_decide (leaf = root) || bool_decide (0 < swa_lock_ref x)%Z || swa_tombstone x || bool_decide (length v = 0) then mret tt
  else if bool_decide (length v ≤ tail_size) then mret tt
  else if bool_decide (split_at = 0) || bool_decide (length v ≤ split_at) then mret tt
  else if bool_decide (1 < ps) && (bool_decide (split_at `mod` ps ≠ 0) || bool_decide (length v `mod` ps ≠ 0)) then mret tt
  else _ ← swa_split_node (s_key x) leaf split_at; mret tt.

(** The update of a node the key has run through: [value] are the slots of the request,
    of which [prefix_len] belong to the node. *)
Definition revive (node : nat) (v : list Z) : M unit :=
  _ ← upd_snode node (set_tombstone false);
  _ ← swa_lru (insert_mru node);
  st_modify (add_swa (Z.of_nat (length v)) 0).
Definition update_node (node : nat) (value : list Z) (prefix_len total swa_evicted_seqlen : nat) : M unit :=
  cf ← st_gets sw_cfg;
  x ← get_snode node;
  if swa_tombstone x then
    _ ← st_lift (py_assert (bool_decide (swa_lock_ref x = 0%Z)));
    _ ← st_lift (py_assert (bool_decide (swa_evicted_seqlen `mod` sw_page_size cf = 0)));
    v ← value_of x;
    if bool_decide (swa_evicted_seqlen ≤ total) then
      _ ← free (take prefix_len v);
      _ ← upd_snode node (set_s_value (take prefix_len value));
      revive node (take prefix_len value)
    else if bool_decide (swa_evicted_seqlen < total + prefix_len) then
      let start := swa_evicted_seqlen - total in
      _ ← free (py_slice start prefix_len v);
      _ ← swa_split_node (s_key x) node start;
      _ ← upd_snode node (set_s_value (py_slice start prefix_len value));
      _ ← free (take start value);
      revive node (py_slice start prefix_len value)
    else free (take prefix_len value)
  else free (take prefix_len value).

Definition touch_node (node : nat) : M unit :=
  x ← get_snode node;
  _ ← full_lru (reset_node_mru node);
  swa_lru_unless (swa_tombstone x) (reset_node_mru node).

(** The loop of [_insert_helper]: the matched length, the node and what is left. *)
Fixpoint swa_insert_loop (fuel : nat) (node : nat) (key : RadixKey) (ck : ckey) (value : list Z) (update_kv_after_len swa_evicted_seqlen total : nat)
    : M (nat * nat * RadixKey * list Z) :=
  match fuel with
  | 0 => λ _, Running
  | S fuel =>
      nx ← get_snode node;
      match (if decide (0 < key_len key) then s_children nx !! ck else None) with
      | None => mret (total, node, key, value)
      | Some child =>
          cf ← st_gets sw_cfg;
          _ ← touch_node child;
          x ← get_snode child;
          prefix_len ← st_lift (key_match (s_key x) key (sw_page_size cf));
          node ← (if decide (prefix_len < key_len (s_key x)) then swa_split_node (s_key x) child prefix_len else mret child);
          _ ← (if bool_decide (update_kv_after_len < total + prefix_len)
               then update_node node value prefix_len total swa_evicted_seqlen else mret tt);
          key' ← st_lift (key_suffix key prefix_len);
          ck' ← (if decide (0 < key_len key') then st_lift (child_key key' (sw_page_size cf)) else mret ck);
          swa_insert_loop fuel node key' ck' (drop prefix_len value) update_kv_after_len swa_evicted_seqlen (total + prefix_len)
      end
  end.

(** The rest of the key becomes new nodes. *)
Definition insert_rest (node : nat) (key : RadixKey) (value : list Z) (swa_evicted_seqlen total : nat) : M unit :=
  cf ← st_gets sw_cfg;
  if bool_decide (swa_evicted_seqlen = total + key_len key) then free value
  else
    r ← (if bool_decide (total < swa_evicted_seqlen) && bool_decide (swa_evicted_seqlen < total + key_len key) then
           let k := swa_evicted_seqlen - total in
           pre ← st_lift (key_prefix key k);
           node ← add_new_node node pre (take k value) true;
           post ← st_lift (key_suffix key k);
           mret (node, post, drop k value)
         else mret (node, key, value));
    let '(node, key, value) := r in
    leaf ← add_new_node node key value false;
    if split_leaf cf then maybe_split_leaf leaf else mret tt.

(** [_insert_helper], called with the root. *)
Definition swa_insert_helper (key : RadixKey) (value : list Z) (update_kv_after_len swa_evicted_seqlen : nat) : M nat :=
  root ← st_gets sw_root;
  cf ← st_gets sw_cfg;
  if decide (key_len key = 0) then mret 0
  else
    ck ← st_lift (child_key key (sw_page_size cf));
    r ← swa_insert_loop (S (key_len key)) root key ck value update_kv_after_len swa_evicted_seqlen 0;
    let '(total, node, key, value) := r in
    _ ← (if decide (0 < key_len key) then insert_rest node key value swa_evicted_seqlen total else mret tt);
    mret total.
(** [insert] *)
Definition swa_insert (key : RadixKey) (value : option (list Z)) (prev_prefix_len swa_evicted_seqlen : nat) : M nat :=
  cf ← st_gets sw_cfg;
  if sw_disable cf then mret 0
  else
    let kv := maybe_to_bigram_view key (sw_eagle cf) value in
    key ← st_lift (page_aligned kv.1 (sw_page_size cf));
    let value := match kv.2 with Some v => take (key_len key) v | None => take (key_len key) (token_ids key) end in
    swa_insert_helper key value prev_prefix_len swa_evicted_seqlen.

(** ** Eviction *)

(** The body of the first loop of [evict]: the unlocked leaf [x] goes. *)
Definition evict_full_one (x : nat) : M (option nat * Z * Z) :=
  root ← st_gets sw_root;
  _ ← st_lift (py_assert (bool_decide (x ≠ root)));
  n ← get_snode x;
  _ ← st_lift (py_assert (bool_decide (full_lock_ref n = 0%Z)));
  v ← value_of n;
  _ ← free v;
  x_next ← full_lru (get_prev_leaf_no_lock x);
  _ ← full_lru (remove_node x);
  _ ← swa_lru_unless (swa_tombstone n) (remove_node x);
  _ ← swa_delete_leaf x;
  r ← iteratively_delete_tombstone_leaf x;
  y ← get_snode r.1;
  p ← parent_of y;
  px ← get_snode p;
  x_next ← (if bool_decide (s_children px = ∅) then full_lru get_leaf_lru_no_lock else mret x_next);
  mret (x_next, (Z.of_nat (length v) + r.2)%Z, if swa_tombstone n then 0%Z else Z.of_nat (length v)).
Fixpoint evict_full (fuel : nat) (x : option nat) (want full_num swa_num : Z) : M (Z * Z) :=
  match fuel with
  | 0 => λ _, Running
  | S fuel =>
      l ← st_gets full_lru_list;
      match (if bool_decide (full_num < want)%Z && in_list x l then x else None) with
      | None => mret (full_num, swa_num)
      | Some n => r ← evict_full_one n; evict_full fuel r.1.1 want (full_num + r.1.2) (swa_num + r.2)
      end
  end.

(** The body of the second loop: the window slots of [x] are given up, and the node too
    if it is an unlocked leaf. *)
Definition evict_swa_one (x : nat) : M (option nat * Z * Z) :=
  n ← get_snode x;
  root ← st_gets sw_root;
  _ ← st_lift (py_assert (negb (swa_tombstone n)));
  _ ← st_lift (py_assert (bool_decide (x ≠ root)));
  _ ← st_lift (py_assert (bool_decide (swa_lock_ref n = 0%Z)));
  v ← value_of n;
  let len := Z.of_nat (length v) in
  if bool_decide (s_children n ≠ ∅) then
    _ ← free_swa v;
    x_next ← swa_lru (get_prev_no_lock x);
    _ ← swa_lru (remove_node x);
    _ ← tombstone_internal_node x;
    mret (x_next, 0%Z, len)
  else if bool_decide (0 < full_lock_ref n)%Z then
    _ ← free_swa v;
    x_next ← swa_lru (get_prev_no_lock x);
    _ ← swa_lru (remove_node x);
    _ ← st_modify (add_swa (- len) 0);
    _ ← upd_snode x (set_tombstone true);
    mret (x_next, 0%Z, len)
  else
    _ ← st_lift (py_assert (bool_decide (full_lock_ref n = 0%Z)));
    _ ← free v;
    x_next ← swa_lru (get_prev_no_lock x);
    _ ← full_lru (remove_node x);
    _ ← swa_lru (remove_node x);
    _ ← swa_delete_leaf x;
    _ ← iteratively_delete_tombstone_leaf x;
    mret (x_next, len, len).
Fixpoint evict_swa (fuel : nat) (x : option nat) (want full_num swa_num : Z) : M (Z * Z) :=
  match fuel with
  | 0 => λ _, Running
  | S fuel =>
      l ← st_gets swa_lru_list;
      match (if bool_decide (swa_num < want)%Z && in_list x l then x else None) with
      | None => mret (full_num, swa_num)
      | Some n => r ← evict_swa_one n; evict_swa fuel r.1.1 want (full_num + r.1.2) (swa_num + r.2)
      end
  end.
(** [evict]: the numbers of slots evicted from the two pools. *)
Definition swa_evict (num_tokens swa_num_tokens : Z) : M (Z * Z) :=
  cf ← st_gets sw_cfg;
  if sw_disable cf then mret (0%Z, 0%Z)
  else
    k ← st_gets (λ c, size (sw_nodes c));
    r ← (if bool_decide (0 < num_tokens)%Z then
           x ← full_lru get_leaf_lru_no_lock; evict_full (S k) x num_tokens 0 0
         else mret (0%Z, 0%Z));
    if bool_decide (r.2 < swa_num_tokens)%Z then
      x ← swa_lru get_lru_no_lock; evict_swa (S k) x swa_num_tokens r.1 r.2
    else mret r.

(** ** Locks *)
Definition lock_swa_part (node : nat) (len : nat) (x : SNode) (size : nat) (uuid : option Z) : M (nat * option Z) :=
  cf ← st_gets sw_cfg;
  if bool_decide (size < sliding_window_size cf) then
    _ ← st_lift (py_assert (negb (swa_tombstone x)));
    _ ← (if bool_decide (swa_lock_ref x = 0%Z) then st_modify (add_swa (- Z.of_nat len) (Z.of_nat len)) else mret tt);
    _ ← upd_snode node (add_swa_lock 1);
    let size := size + len in
    if bool_decide (sliding_window_size cf ≤ size) then
      u ← (match swa_uuid x with Some u => mret u | None => u ← gen_swa_uuid; _ ← upd_snode node (set_swa_uuid (Some u)); mret u end);
      mret (size, Some u)
    else mret (size, uuid)
  else mret (size, uuid).
Fixpoint swa_inc_loop (fuel : nat) (node : nat) (size : nat) (uuid : option Z) : M (option Z) :=
  match fuel with
  | 0 => λ _, Running
  | S fuel =>
      root ← st_gets sw_root;
      if decide (node = root) then mret uuid
      else
        x ← get_snode node;
        v ← value_of x;
        let len := Z.of_nat (length v) in
        _ ← st_lift (py_assert (bool_decide (0 <= full_lock_ref x)%Z));
        _ ← (if bool_decide (full_lock_ref x = 0%Z) then st_modify (add_full (- len) len) else mret tt);
        _ ← upd_snode node (add_full_lock 1);
        r ← lock_swa_part node (length v) x size uuid;
        p ← parent_of x;
        swa_inc_loop fuel p r.1 r.2
  end.
(** [inc_lock_ref]: the value is [swa_uuid_for_lock]. *)
Definition swa_inc_lock_ref (node : nat) : M (option Z) :=
  cf ← st_gets sw_cfg;
  if sw_disable cf then mret None
  else k ← st_gets (λ c, size (sw_nodes c)); swa_inc_loop (S k) node 0 None.

(** [swa_uuid_for_lock and node.swa_uuid == swa_uuid_for_lock]: ids start at 2. *)
Definition is_last (uuid : option Z) (x : SNode) : bool :=
  match uuid with Some u => bool_decide (u ≠ 0%Z) && bool_decide (swa_uuid x = Some u) | None => false end.
Fixpoint swa_dec_loop (fuel : nat) (node : nat) (uuid : option Z) (dec_lock_swa : bool) : M unit :=
  match fuel with
  | 0 => λ _, Running
  | S fuel =>
      root ← st_gets sw_root;
      if decide (node = root) then mret tt
      else
        x ← get_snode node;
        v ← value_of x;
        let len := Z.of_nat (length v) in
        _ ← st_lift (py_assert (bool_decide (0 < full_lock_ref x)%Z));
        _ ← (if bool_decide (full_lock_ref x = 1%Z) then st_modify (add_full len (- len)) else mret tt);
        _ ← upd_snode node (add_full_lock (-1));
        _ ← (if dec_lock_swa then
               _ ← st_lift (py_assert (negb (swa_tombstone x)));
               _ ← st_lift (py_assert (bool_decide (0 < swa_lock_ref x)%Z));
               _ ← (if bool_decide (swa_lock_ref x = 1%Z) then st_modify (add_swa len (- len)) else mret tt);
               upd_snode node (add_swa_lock (-1))
             else mret tt);
        p ← parent_of x;
        swa_dec_loop fuel p uuid (dec_lock_swa && negb (is_last uuid x))
  end.
Definition swa_dec_lock_ref (node : nat) (uuid : option Z) (skip_swa : bool) : M unit :=
  cf ← st_gets sw_cfg;
  if sw_disable cf then mret tt
  else k ← st_gets (λ c, size (sw_nodes c)); swa_dec_loop (S k) node uuid (negb skip_swa).

Fixpoint dec_swa_loop (fuel : nat) (node : nat) (uuid : option Z) : M unit :=
  match fuel with
  | 0 => λ _, Running
  | S fuel =>
      root ← st_gets sw_root;
      if decide (node = root) then mret tt
      else
        x ← get_snode node;
        v ← value_of x;
        let len := Z.of_nat (length v) in
        _ ← st_lift (py_assert (negb (swa_tombstone x)));
        _ ← st_lift (py_assert (bool_decide (0 < swa_lock_ref x)%Z));
        _ ← (if bool_decide (swa_lock_ref x = 1%Z) then
               _ ← st_modify (add_swa 0 (- len));
               if bool_decide (s_children x = ∅) then
                 _ ← free_swa v;
                 _ ← swa_lru (remove_node node);
                 upd_snode node (set_tombstone true)
               else st_modify (add_swa len 0)
             else mret tt);
        _ ← upd_snode node (add_swa_lock (-1));
        if is_last uuid x then mret tt
        else p ← parent_of x; dec_swa_loop fuel p uuid
  end.
Definition dec_swa_lock_only (node : nat) (uuid : option Z) : M unit :=
  cf ← st_gets sw_cfg;
  if sw_disable cf then mret tt
  else k ← st_gets (λ c, size (sw_nodes c)); dec_swa_loop (S k) node uuid.
End swa_cache.
