(* ===== verification/SwaAbs.v ===== *)
(** The sliding-window tree with its LRU lists as lists.  [abs c a] relates a cache to an
    abstract one, whose nodes have no links and whose LRU lists are lists of nodes; the
    primitives of SwaCache are simulated by changes of the abstract cache. *)
From S2P Require Import Prelude RadixKey SwaLru SwaCache.
From stdpp Require Import options.

Record ACache (A : Type) := MkA {
  a_cfg : SWAConfig; a_root : nat; a_nodes : store; a_counter : nat; a_uuid : Z;
  a_fev : Z; a_sev : Z; a_fpr : Z; a_spr : Z; a_fl : list nat; a_sl : list nat; a_alloc : A;
}.
Arguments MkA {A}.
Arguments a_cfg {A}. Arguments a_root {A}. Arguments a_nodes {A}. Arguments a_counter {A}. Arguments a_uuid {A}. Arguments a_fev {A}.
Arguments a_sev {A}. Arguments a_fpr {A}. Arguments a_spr {A}. Arguments a_fl {A}. Arguments a_sl {A}. Arguments a_alloc {A}.

Section abs.
Context {A : Type}.
Implicit Types (c : SWACache A) (a : ACache A) (x y : SNode) (n : nat) (l : list nat).

Definition aset_nodes (s : store) a : ACache A :=
  MkA (a_cfg a) (a_root a) s (a_counter a) (a_uuid a) (a_fev a) (a_sev a) (a_fpr a) (a_spr a) (a_fl a) (a_sl a) (a_alloc a).
Definition aset_fl l a : ACache A :=
  MkA (a_cfg a) (a_root a) (a_nodes a) (a_counter a) (a_uuid a) (a_fev a) (a_sev a) (a_fpr a) (a_spr a) l (a_sl a) (a_alloc a).
Definition aset_sl l a : ACache A :=
  MkA (a_cfg a) (a_root a) (a_nodes a) (a_counter a) (a_uuid a) (a_fev a) (a_sev a) (a_fpr a) (a_spr a) (a_fl a) l (a_alloc a).
Definition aset_list (sw : bool) l a : ACache A := if sw then aset_sl l a else aset_fl l a.
Definition a_list (sw : bool) a : list nat := if sw then a_sl a else a_fl a.
Definition aset_counter n a : ACache A :=
  MkA (a_cfg a) (a_root a) (a_nodes a) n (a_uuid a) (a_fev a) (a_sev a) (a_fpr a) (a_spr a) (a_fl a) (a_sl a) (a_alloc a).
Definition aset_uuid (u : Z) a : ACache A :=
  MkA (a_cfg a) (a_root a) (a_nodes a) (a_counter a) u (a_fev a) (a_sev a) (a_fpr a) (a_spr a) (a_fl a) (a_sl a) (a_alloc a).
Definition aadd_full (ev pr : Z) a : ACache A :=
  MkA (a_cfg a) (a_root a) (a_nodes a) (a_counter a) (a_uuid a) (a_fev a + ev)%Z (a_sev a) (a_fpr a + pr)%Z (a_spr a) (a_fl a) (a_sl a) (a_alloc a).
Definition aadd_swa (ev pr : Z) a : ACache A :=
  MkA (a_cfg a) (a_root a) (a_nodes a) (a_counter a) (a_uuid a) (a_fev a) (a_sev a + ev)%Z (a_fpr a) (a_spr a + pr)%Z (a_fl a) (a_sl a) (a_alloc a).
Definition aset_alloc (al : A) a : ACache A :=
  MkA (a_cfg a) (a_root a) (a_nodes a) (a_counter a) (a_uuid a) (a_fev a) (a_sev a) (a_fpr a) (a_spr a) (a_fl a) (a_sl a) al.

Definition lru_list (sw : bool) c : LRUList := if sw then swa_lru_list c else full_lru_list c.

Record abs c a : Prop := {
  ab_cfg : sw_cfg c = a_cfg a;
  ab_root : sw_root c = a_root a;
  ab_nodes : plain <$> sw_nodes c = a_nodes a;
  ab_counter : sw_counter c = a_counter a;
  ab_uuid : swa_uuid_counter c = a_uuid a;
  ab_fev : full_evictable_size_ c = a_fev a;
  ab_sev : swa_evictable_size_ c = a_sev a;
  ab_fpr : full_protected_size_ c = a_fpr a;
  ab_spr : swa_protected_size_ c = a_spr a;
  ab_list : ∀ sw, lru_ok sw (sw_nodes c) (lru_list sw c) (a_list sw a);
  ab_alloc : sw_alloc c = a_alloc a;
}.

(** A node with the same attributes, the links apart. *)
Lemma plain_fields x y : plain y = x →
  s_children y = s_children x ∧ s_parent y = s_parent x ∧ s_key y = s_key x ∧ s_value y = s_value x
  ∧ swa_tombstone y = swa_tombstone x ∧ full_lock_ref y = full_lock_ref x ∧ swa_lock_ref y = swa_lock_ref x ∧ swa_uuid y = swa_uuid x.
Proof. intros <-. done. Qed.
Lemma plain_idem x : plain (plain x) = plain x.
Proof. by destruct x. Qed.

(** ** Reading *)
Lemma abs_node c a n x : abs c a → a_nodes a !! n = Some x → ∃ y, sw_nodes c !! n = Some y ∧ plain y = x.
Proof. intros Hab Hx. rewrite <-(ab_nodes _ _ Hab), lookup_fmap in Hx. apply fmap_Some in Hx as (y & ? & ->). eauto. Qed.
Lemma abs_size c a : abs c a → size (sw_nodes c) = size (a_nodes a).
Proof. intros Hab. by rewrite <-(ab_nodes _ _ Hab), map_size_fmap. Qed.
Lemma wp_get_snode c a n x (Q : SNode → SWACache A → Prop) :
  abs c a → a_nodes a !! n = Some x → (∀ y, plain y = x → Q y c) → wp (get_snode n) Q c.
Proof.
  intros Hab Hx HQ. destruct (abs_node _ _ _ _ Hab Hx) as (y & Hy & Ey). unfold get_snode. wp_steps. rewrite Hy. wp_step. auto.
Qed.

(** ** Writing nodes *)

(** The links and the dummy nodes stay. *)
Lemma lru_ok_upd sw s s' L l :
  lru_ok sw s L l → (∀ n, n ∈ lru_head L :: l ++ [lru_tail L] → links sw <$> s' !! n = links sw <$> s !! n) →
  (∀ n, plain <$> s !! n = Some new_SNode → s' !! n = s !! n) → lru_ok sw s' L l.
Proof.
  intros [Hsw Hnd Hc Hcache Hh Ht] Hl Hdummy.
  assert (∀ n, n ∈ lru_head L :: l ++ [lru_tail L] → snx sw s' n = snx sw s n ∧ spv sw s' n = spv sw s n) as Hs.
  { intros n Hn. specialize (Hl n Hn). unfold snx, spv. destruct (s' !! n), (s !! n); simpl in *; [|done..]. apply (inj Some) in Hl. by rewrite Hl. }
  split; try done.
  - eapply chain_cons_frame; [done|intros n Hn; by apply Hs|intros n Hn; apply Hs; by right].
  - by rewrite Hdummy.
  - by rewrite Hdummy.
Qed.

(** An assignment that does not touch the links. *)
Definition link_free (f : SNode → SNode) : Prop :=
  ∀ x, plain (f x) = f (plain x) ∧ full_links (f x) = full_links x ∧ swa_links (f x) = swa_links x.

Lemma wp_upd_snode c a n x f (Q : unit → SWACache A → Prop) :
  abs c a → a_nodes a !! n = Some x → x ≠ new_SNode → link_free f →
  (∀ c', abs c' (aset_nodes (<[n := f x]> (a_nodes a)) a) → Q tt c') → wp (upd_snode n f) Q c.
Proof.
  intros Hab Hx Hnew Hf HQ. destruct (abs_node _ _ _ _ Hab Hx) as (y & Hy & Ey). unfold upd_snode, get_snode. wp_steps. rewrite Hy. wp_steps.
  apply HQ. destruct (Hf y) as (Hp & H1 & H2). destruct Hab. split; simpl; try done.
  - by rewrite fmap_insert, Hp, ab_nodes0, Ey.
  - intros sw. eapply (lru_ok_upd sw (sw_nodes c)); [apply ab_list0| |].
    + intros m _. rewrite lookup_insert. case_decide; [|done]. subst m. rewrite Hy. simpl. destruct sw; simpl; by rewrite ?H1, ?H2.
    + intros m Hm. rewrite lookup_insert_ne; [done|]. intros <-. rewrite Hy in Hm. simpl in Hm. congruence.
Qed.

(** A new node is fresh. *)
Lemma wp_make_SNode c a x (Q : nat → SWACache A → Prop) :
  abs c a → a_nodes a !! a_counter a = None → plain x = x →
  (∀ c', abs c' (aset_counter (S (a_counter a)) (aset_nodes (<[a_counter a := x]> (a_nodes a)) a)) → Q (a_counter a) c') →
  wp (make_SNode x) Q c.
Proof.
  intros Hab Hfresh Hx HQ. unfold make_SNode. wp_steps. rewrite (ab_counter _ _ Hab). apply HQ.
  assert (sw_nodes c !! a_counter a = None) as Hnone.
  { rewrite <-(ab_nodes _ _ Hab), lookup_fmap in Hfresh. by apply fmap_None in Hfresh. }
  destruct Hab. split; simpl; try done.
  - by rewrite fmap_insert, ab_nodes0, Hx.
  - intros sw. eapply (lru_ok_upd sw (sw_nodes c)); [apply ab_list0| |].
    + change (lru_list sw (set_sw_counter _ _)) with (lru_list sw c). intros m Hm. rewrite lookup_insert_ne; [done|]. intros E. rewrite <-E in Hm. pose proof (ab_list0 sw) as Hok.
      destruct Hok as [_ _ _ _ Hh Ht]. rewrite elem_of_cons, elem_of_app, list_elem_of_singleton in Hm.
      destruct Hm as [Hm|[Hm|Hm]].
      * rewrite <-Hm, Hnone in Hh. done.
      * destruct (lru_ok_live _ _ _ _ _ (ab_list0 sw) Hm). congruence.
      * rewrite <-Hm, Hnone in Ht. done.
    + intros m Hm. rewrite lookup_insert_ne; [done|]. intros <-. by rewrite Hnone in Hm.
Qed.

(** ** The counters and the allocator *)
Lemma abs_add_full c a ev pr : abs c a → abs (add_full ev pr c) (aadd_full ev pr a).
Proof. intros []. split; simpl; try done; congruence. Qed.
Lemma abs_add_swa c a ev pr : abs c a → abs (add_swa ev pr c) (aadd_swa ev pr a).
Proof. intros []. split; simpl; try done; congruence. Qed.
Lemma abs_set_alloc c a al : abs c a → abs (set_sw_alloc al c) (aset_alloc al a).
Proof. intros []. split; simpl; done. Qed.
Lemma abs_set_uuid c a u : abs c a → abs (set_uuid_counter u c) (aset_uuid u a).
Proof. intros []. split; simpl; done. Qed.

(** ** The lists *)
Lemma abs_lru c a sw s' L' l' :
  abs c a → lru_frame (sw_nodes c) (lru_list sw c) s' L' → lru_ok sw s' L' l' →
  abs (set_lru sw L' (set_sw_nodes s' c)) (aset_list sw l' a).
Proof.
  intros Hab Hf Hok'. pose proof (lf_links _ _ _ _ Hf) as Ho. rewrite (lr_sw _ _ _ _ (ab_list _ _ Hab sw)) in Ho.
  assert (plain <$> s' = plain <$> sw_nodes c) as Hpl by (apply map_eq; intros n; rewrite !lookup_fmap; by eapply only_links_plain).
  pose proof (ab_list _ _ Hab (negb sw)) as Hother.
  assert (lru_ok (negb sw) s' (lru_list (negb sw) c) (a_list (negb sw) a)) as Hother'.
  { eapply (lru_ok_other (negb sw) (sw_nodes c) _ _ s' (lru_list sw c) s'); [done| |by rewrite (lr_sw _ _ _ _ (ab_list _ _ Hab sw))|done].
    rewrite negb_involutive. apply (lr_sw _ _ _ _ (ab_list _ _ Hab sw)). }
  destruct Hab. destruct sw; split; simpl; try done; try congruence; intros []; simpl; done.
Qed.

Lemma wp_on_lru {B} c sw (m : ST (store * LRUList) B) (Q : B → SWACache A → Prop) :
  wp m (λ b s, Q b (set_lru sw s.2 (set_sw_nodes s.1 c))) (sw_nodes c, lru_list sw c) → wp (on_lru sw m) Q c.
Proof. unfold wp, on_lru, lru_list. destruct (m _) as [[b s]| |]; done. Qed.

(** A node with a value is no dummy. *)
Lemma not_dummy c a sw n x : abs c a → a_nodes a !! n = Some x → x ≠ new_SNode → n ≠ lru_head (lru_list sw c) ∧ n ≠ lru_tail (lru_list sw c).
Proof.
  intros Hab Hx Hnew. destruct (abs_node _ _ _ _ Hab Hx) as (y & Hy & <-). destruct (ab_list _ _ Hab sw) as [_ _ _ _ Hh Ht].
  split; intros E; rewrite <-E, Hy in *; simpl in *; congruence.
Qed.

Lemma wp_lru_insert c a sw n x (Q : unit → SWACache A → Prop) :
  abs c a → a_nodes a !! n = Some x → x ≠ new_SNode → sw && swa_tombstone x = false → n ∉ a_list sw a →
  (∀ c', abs c' (aset_list sw (n :: a_list sw a) a) → Q tt c') → wp (on_lru sw (insert_mru n)) Q c.
Proof.
  intros Hab Hx Hnew Ht Hn HQ. destruct (abs_node _ _ _ _ Hab Hx) as (y & Hy & Ey). destruct (not_dummy c a sw n x) as [Hh Htl]; [done..|].
  apply wp_on_lru. eapply wp_insert_mru; [apply (ab_list _ _ Hab)|done| | |].
  - destruct (plain_fields _ _ Ey) as (_ & _ & _ & _ & -> & _). done.
  - set_solver.
  - intros s' L' Hok Hf. apply HQ. by apply abs_lru.
Qed.
Lemma wp_lru_remove c a sw l1 n l2 x (Q : unit → SWACache A → Prop) :
  abs c a → a_list sw a = l1 ++ n :: l2 → a_nodes a !! n = Some x → sw && swa_tombstone x = false →
  (∀ c', abs c' (aset_list sw (l1 ++ l2) a) → Q tt c') → wp (on_lru sw (remove_node n)) Q c.
Proof.
  intros Hab El Hx Ht HQ. destruct (abs_node _ _ _ _ Hab Hx) as (y & Hy & Ey). pose proof (ab_list _ _ Hab sw) as Hok. rewrite El in Hok.
  apply wp_on_lru. eapply wp_remove_node; [done|done| |].
  - destruct (plain_fields _ _ Ey) as (_ & _ & _ & _ & -> & _). done.
  - intros s' L' Hok' Hf. apply HQ. by apply abs_lru.
Qed.
Lemma wp_lru_reset c a sw l1 n l2 x (Q : unit → SWACache A → Prop) :
  abs c a → a_list sw a = l1 ++ n :: l2 → a_nodes a !! n = Some x → sw && swa_tombstone x = false →
  (∀ c', abs c' (aset_list sw (n :: l1 ++ l2) a) → Q tt c') → wp (on_lru sw (reset_node_mru n)) Q c.
Proof.
  intros Hab El Hx Ht HQ. destruct (abs_node _ _ _ _ Hab Hx) as (y & Hy & Ey). pose proof (ab_list _ _ Hab sw) as Hok. rewrite El in Hok.
  apply wp_on_lru. eapply wp_reset_node_mru; [done|done| |].
  - destruct (plain_fields _ _ Ey) as (_ & _ & _ & _ & -> & _). done.
  - intros s' Hok' Hf. apply HQ. by apply abs_lru.
Qed.

(** Walks read the list. *)
Lemma set_lru_id c sw : set_lru sw (lru_list sw c) (set_sw_nodes (sw_nodes c) c) = c.
Proof. destruct c, sw; done. Qed.
Lemma last_kept_plain skip (s : store) l : (∀ x, skip x = skip (plain x)) → last_kept skip s l = last_kept skip (plain <$> s) l.
Proof.
  intros Hs. unfold last_kept. f_equal. apply list_filter_iff. intros n. unfold skipped. rewrite lookup_fmap.
  destruct (s !! n); simpl; [by rewrite <-Hs|done].
Qed.
Lemma wp_lru_prev skip c a sw l1 n l2 (Q : option nat → SWACache A → Prop) :
  skip_ok skip → abs c a → a_list sw a = l1 ++ n :: l2 → Q (last_kept (skip sw) (a_nodes a) l1) c → wp (on_lru sw (prev_where skip true n)) Q c.
Proof.
  intros Hs Hab El HQ. pose proof (ab_list _ _ Hab sw) as Hok. rewrite El in Hok. apply wp_on_lru.
  eapply (wp_prev_where _ _ _ _ l1 _ (n :: l2)); [done|done|by left|]. cbn [fst snd]. rewrite set_lru_id.
  rewrite last_kept_plain by apply Hs. by rewrite (ab_nodes _ _ Hab).
Qed.
Lemma wp_lru_last skip c a sw (Q : option nat → SWACache A → Prop) :
  skip_ok skip → abs c a → Q (last_kept (skip sw) (a_nodes a) (a_list sw a)) c →
  wp (on_lru sw (t ← st_gets (λ s, lru_tail s.2); prev_where skip false t)) Q c.
Proof.
  intros Hs Hab HQ. pose proof (ab_list _ _ Hab sw) as Hok. apply wp_on_lru. wp_steps. cbn [snd].
  eapply (wp_prev_where _ _ _ _ (a_list sw a) _ []); [done|by rewrite app_nil_r|by right|]. cbn [fst snd]. rewrite set_lru_id.
  rewrite last_kept_plain by apply Hs. by rewrite (ab_nodes _ _ Hab).
Qed.

(** Moving a path to the front. *)
Lemma up_path_plain (s : store) root n ns : up_path (plain <$> s) root n ns → up_path s root n ns.
Proof.
  induction 1 as [|n x p ns Hn Hx Hp _ IH]; [constructor|]. rewrite lookup_fmap in Hx. apply fmap_Some in Hx as (y & Hy & ->).
  econstructor; done.
Qed.
Lemma listed_of_plain sw (s : store) ns : listed_of sw s ns = listed_of sw (plain <$> s) ns.
Proof. apply list_filter_iff. intros n. unfold listed. rewrite lookup_fmap. by destruct (s !! n). Qed.
Lemma wp_lru_front c a sw root n ns (Q : unit → SWACache A → Prop) :
  abs c a → up_path (a_nodes a) root n ns → NoDup ns → length ns ≤ size (a_nodes a) → (∀ m, m ∈ listed_of sw (a_nodes a) ns → m ∈ a_list sw a) →
  (∀ c', abs c' (aset_list sw (move_front (listed_of sw (a_nodes a) ns) (a_list sw a)) a) → Q tt c') →
  wp (on_lru sw (reset_node_and_parents_mru n root)) Q c.
Proof.
  intros Hab Hup Hnd Hlen Hin HQ. apply wp_on_lru. unfold reset_node_and_parents_mru. wp_steps. cbn [fst snd].
  assert (listed_of sw (sw_nodes c) ns = listed_of sw (a_nodes a) ns) as El by (rewrite listed_of_plain; by rewrite (ab_nodes _ _ Hab)).
  eapply (wp_reset_parents sw _ root ns _ n _ _ [] [] (a_list sw a)); [|apply (ab_list _ _ Hab)|done|done|by rewrite El| |].
  - apply up_path_plain. by rewrite (ab_nodes _ _ Hab).
  - rewrite (abs_size _ _ Hab). lia.
  - rewrite El. intros s' Hok Hf. apply HQ. by apply abs_lru.
Qed.
End abs.

(** Steps of the abstract cache: [a_norm] writes it out. *)
Ltac a_norm_in H :=
  unfold aset_list, a_list, aset_nodes, aset_fl, aset_sl, aset_counter, aset_uuid, aadd_full, aadd_swa, aset_alloc in H;
  cbn [a_cfg a_root a_nodes a_counter a_uuid a_fev a_sev a_fpr a_spr a_fl a_sl a_alloc] in H;
  rewrite ?insert_insert_eq in H.
Ltac a_node := cbn [a_nodes]; first [eassumption|apply lookup_insert_eq|rewrite lookup_insert_ne by done; a_node].
Ltac not_new := first [assumption|let E := fresh in intros E; apply (f_equal s_value) in E; simpl in E; congruence].
Ltac a_next := let c := fresh "c" in let Hab := fresh "Hab" in intros c Hab; a_norm_in Hab.
Ltac wp_upd := wp_steps; eapply wp_upd_snode; [eassumption|a_node|not_new|by intros ?|a_next].
Ltac wp_node := wp_steps; eapply wp_get_snode; [eassumption|a_node|
  let y := fresh "y" in let E := fresh "Ey" in intros y E;
  let E1 := fresh "Ekids" in let E2 := fresh "Epar" in let E3 := fresh "Ekey" in let E4 := fresh "Eval" in
  let E5 := fresh "Etomb" in let E6 := fresh "Efl" in let E7 := fresh "Esl" in let E8 := fresh "Euu" in
  destruct (plain_fields _ _ E) as (E1 & E2 & E3 & E4 & E5 & E6 & E7 & E8);
  clear E; rewrite ?E1, ?E2, ?E3, ?E4, ?E5, ?E6, ?E7, ?E8].
