(* ===== verification/SwaInv.v ===== *)
(** The invariant of the sliding-window tree.

    The shape of the tree, the locks of the full-attention slots and their counters are
    the invariant of RadixInv, for the view [sview].  What is new is said of the view
    [sx]: tombstones, window locks and the marks [swa_uuid].  A lock taken by
    [inc_lock_ref] is a [hold]: it protects the path of its node, and the windows of the
    nodes strictly below [h_top] while [h_swa] is set. *)
From S2P Require Import Prelude RadixKey TreeNode EvictPolicy RadixCache RadixInv RadixSplit RadixLeaf RadixLock RadixSpec RadixOps RadixLockOps SwaLru SwaCache SwaAbs.
From stdpp Require Import options.

(** ** Views *)
Definition s_core (x : SNode) : core := MkCore (s_children x) (s_parent x) (s_key x) (s_value x) (full_lock_ref x).
(** [lv] are the evictable leaves, which the view of RadixInv has and this tree does not keep. *)
Definition sview {A} (lv : gset nat) (a : ACache A) : tview :=
  MkView (sw_page_size (a_cfg a)) (sw_eagle (a_cfg a)) (a_root a) (s_core <$> a_nodes a) (a_counter a) (a_fev a) (a_fpr a) lv.

Record xcore := MkX { x_tomb : bool; x_lock : Z; x_uuid : option Z }.
Definition x_core (x : SNode) : xcore := MkX (swa_tombstone x) (swa_lock_ref x) (swa_uuid x).
Definition sx {A} (a : ACache A) : gmap nat xcore := x_core <$> a_nodes a.

Definition xt (X : gmap nat xcore) (n : nat) : bool := from_option x_tomb false (X !! n).
Definition xl (X : gmap nat xcore) (n : nat) : Z := from_option x_lock 0%Z (X !! n).
Definition xu (X : gmap nat xcore) (n : nat) : option Z := X !! n ≫= x_uuid.

(** ** Holds *)
Record hold := MkHold { h_node : nat; h_uuid : option Z; h_top : nat; h_swa : bool }.

Section inv.
Implicit Types (v : tview) (X : gmap nat xcore) (G : gmap nat gnode) (H : list hold) (h : hold) (n m p q : nat).

Definition plen G n : nat := from_option (λ g, length (g_path g)) 0 (G !! n).
(** [q] is in the window [h] protects. *)
Definition in_window v G h q : bool :=
  h_swa h && on_path G (tv_root v) (h_node h) q && bool_decide (plen G (h_top h) < plen G q).
Definition count_holds (f : hold → bool) H : Z := Z.of_nat (length (filter (λ h, f h = true) H)).
Definition full_holds H n : Z := count_holds (λ h, bool_decide (h_node h = n)) H.
Definition swa_holds v G H q : Z := count_holds (λ h, in_window v G h q) H.

(** The node above the window, and the mark on the last node of the window. *)
Record hold_ok v X G h : Prop := {
  ho_node : ∃ g gt, G !! h_node h = Some g ∧ G !! h_top h = Some gt ∧ g_path gt `prefix_of` g_path g;
  ho_mark : h_swa h = true →
    match h_uuid h with
    | None => h_top h = tv_root v
    | Some u => ∃ r, on_path G (tv_root v) (h_node h) r = true ∧ xu X r = Some u ∧ hpar (tv_h v) r = Some (h_top h)
    end;
}.

Definition swa_ev_w X v n : Z := if xt X n then 0%Z else ev_w (xl X n) (hlen (tv_h v) n).
Definition swa_pr_w X v n : Z := pr_w (xl X n) (hlen (tv_h v) n).

(** [W n] is the number of window locks [n] should have. *)
Record swa_ok v X (ev pr uc : Z) G (W : nat → Z) : Prop := {
  xo_tomb : ∀ n, n ∈ inner v G → xt X n = true → xl X n = 0%Z;
  xo_lock : ∀ n, n ∈ inner v G → xl X n = W n;
  xo_ev : ev = gsum (swa_ev_w X v) (inner v G);
  xo_pr : pr = gsum (swa_pr_w X v) (inner v G);
  xo_uuid : ∀ n m u, n ∈ inner v G → m ∈ inner v G → xu X n = Some u → xu X m = Some u → n = m;
  xo_bound : ∀ n u, n ∈ inner v G → xu X n = Some u → (0 < u <= uc)%Z;
}.
Record swa_inv v X (ev pr uc : Z) G H : Prop := {
  xi_ok : swa_ok v X ev pr uc G (swa_holds v G H);
  xi_holds : Forall (hold_ok v X G) H;
}.

(** *** Counting *)
Lemma count_holds_ext f f' H : (∀ h, h ∈ H → f h = f' h) → count_holds f H = count_holds f' H.
Proof. intros E. unfold count_holds. do 2 f_equal. apply filter_ext_in. intros h Hh. by rewrite E. Qed.
Lemma count_holds_cons f h H : count_holds f (h :: H) = ((if f h then 1 else 0) + count_holds f H)%Z.
Proof. unfold count_holds. rewrite filter_cons. destruct (f h); [rewrite decide_True by done|rewrite decide_False by done]; simpl; lia. Qed.
Lemma count_holds_nonneg f H : (0 <= count_holds f H)%Z.
Proof. unfold count_holds. lia. Qed.
Lemma count_holds_perm f H H' : H ≡ₚ H' → count_holds f H = count_holds f H'.
Proof. intros E. unfold count_holds. by rewrite E. Qed.
Lemma count_holds_pos f H h : h ∈ H → f h = true → (0 < count_holds f H)%Z.
Proof.
  intros Hh Hf. unfold count_holds. assert (h ∈ filter (λ h, f h = true) H) as Hin by (by apply list_elem_of_filter).
  destruct (filter _ H); [by apply elem_of_nil in Hin|simpl; lia].
Qed.
Lemma count_holds_pos_inv f H : (0 < count_holds f H)%Z → ∃ h, h ∈ H ∧ f h = true.
Proof.
  unfold count_holds. destruct (filter _ H) as [|h l] eqn:E; [simpl; lia|]. intros _. exists h.
  assert (h ∈ filter (λ h, f h = true) H) as Hin by (rewrite E; by left). apply list_elem_of_filter in Hin. tauto.
Qed.

(** *** Paths *)
Lemma on_path_inner v G n q : on_path G (tv_root v) n q = true → q ∈ inner v G.
Proof.
  unfold on_path. destruct (G !! q) eqn:E; [|done]. destruct (G !! n); [|done]. intros [_ Hq]%andb_prop.
  apply elem_of_inner. split; [by eexists|]. intros ->. by rewrite bool_decide_true in Hq.
Qed.
Lemma on_path_refl v G n : n ∈ inner v G → on_path G (tv_root v) n n = true.
Proof.
  intros [[g Hg] Hn]%elem_of_inner. unfold on_path. rewrite Hg. by rewrite bool_decide_true, bool_decide_false.
Qed.
Lemma on_path_trans v G a b c : on_path G (tv_root v) a b = true → on_path G (tv_root v) b c = true → on_path G (tv_root v) a c = true.
Proof.
  unfold on_path. destruct (G !! b); [|done]. destruct (G !! a); [|by destruct (G !! c)]. destruct (G !! c); [|done].
  intros [H1%bool_decide_eq_true _]%andb_prop [H2%bool_decide_eq_true ->]%andb_prop.
  rewrite bool_decide_true; [done|by etrans].
Qed.
(** The path of a node, seen from its parent. *)
Lemma hpar_node_ok v G n : tree_ok v G → n ∈ inner v G → ∃ g x p gp px, G !! n = Some g ∧ n ≠ tv_root v ∧ node_ok v G n g x p gp px ∧ hpar (tv_h v) n = Some p.
Proof.
  intros Ht [[g Hg] Hn]%elem_of_inner. destruct (to_node Ht n g) as (x & p & gp & px & Hok); [done..|].
  exists g, x, p, gp, px. split_and!; [done..|]. unfold hpar. by rewrite (no_heap Hok), <-(no_par Hok).
Qed.
(** Two nodes of one path: one is above the other. *)
Lemma on_path_linear v G n a b :
  on_path G (tv_root v) n a = true → on_path G (tv_root v) n b = true →
  on_path G (tv_root v) a b = true ∨ on_path G (tv_root v) b a = true.
Proof.
  unfold on_path. destruct (G !! a), (G !! b), (G !! n); try done.
  intros [H1%bool_decide_eq_true ->]%andb_prop [H2%bool_decide_eq_true ->]%andb_prop.
  destruct (prefix_weak_total _ _ _ H1 H2); [right|left]; by rewrite bool_decide_true.
Qed.
(** Between a node and its parent there is no node of the path. *)
Lemma plen_between v G n g x p gp px q :
  tree_ok v G → G !! n = Some g → n ≠ tv_root v → node_ok v G n g x p gp px →
  on_path G (tv_root v) n q = true → q = n ∨ plen G q ≤ plen G p.
Proof.
  intros Ht Hg Hn Hok Hq. destruct (on_path_step v G n g x p gp px q Ht Hg Hn Hok) as [E _]. rewrite E in Hq.
  apply orb_prop in Hq as [->%bool_decide_eq_true|Hq]; [by left|right].
  unfold on_path, plen in *. rewrite (no_gpar Hok) in *. destruct (G !! q); [|done].
  apply andb_prop in Hq as [Hq%bool_decide_eq_true _]. by apply prefix_length.
Qed.
End inv.

(** ** Splitting a node *)
Section split.
Context (v : tview) (G : gmap nat gnode) (n : nat) (g : gnode) (x : core) (p : nat) (gp : gnode) (px : core).
Context (ck rest_ck : ckey) (pre post : RadixKey) (k : nat) (vv : list Z).
Context (Hsp : split_pre v G n g x p gp px ck rest_ck pre post k vv).
Abbreviation m := (tv_next v).
Abbreviation v' := (split_view v n x p px ck rest_ck pre post k vv).
Abbreviation gm := (split_gnode gp x k vv).
Abbreviation G' := (<[m := gm]> G).

Local Lemma gm_fresh : G !! m = None.
Proof using Hsp. by destruct (RadixSplit.split_facts _ _ _ _ _ _ _ _ _ _ _ _ _ _ Hsp) as (?&?&?&?&?&?). Qed.
Lemma gm_below : g_path gm `prefix_of` g_path g ∧ length (g_path gp) < length (g_path gm) < length (g_path g).
Proof using Hsp.
  pose proof Hsp as [Ht Hlive Hn Hok Hvv Hk0 Hk]. simpl. rewrite (no_path Hok). split; [apply prefix_app, prefix_take|].
  rewrite !length_app, length_take, titer_length. lia.
Qed.

Lemma split_plen q : q ≠ m → plen G' q = plen G q.
Proof using. intros Hq. unfold plen. by rewrite lookup_insert_ne. Qed.
Lemma split_on_path_old a q : a ≠ m → q ≠ m → on_path G' (tv_root v) a q = on_path G (tv_root v) a q.
Proof using. intros Ha Hq. unfold on_path. by rewrite !lookup_insert_ne. Qed.
Lemma split_on_path_new a : a ∈ dom G → on_path G' (tv_root v) a m = on_path G (tv_root v) a n.
Proof using Hsp.
  intros Ha. pose proof gm_fresh as Hm. pose proof gm_below as (Hpre & Hlo & Hhi). pose proof Hsp as [Ht Hlive Hn Hok].
  destruct (RadixSplit.split_facts _ _ _ _ _ _ _ _ _ _ _ _ _ _ Hsp) as (Hnm & Hpm & _ & Hrm & _ & _).
  apply elem_of_dom in Ha as [ga Ha]. assert (a ≠ m) as Ham by congruence.
  unfold on_path. rewrite lookup_insert_eq, (lookup_insert_ne G m a) by done. rewrite Ha, Hlive.
  rewrite (bool_decide_false (m = _)), (bool_decide_false (n = _)) by done. f_equal. apply bool_decide_ext.
  split; [|intros; by etrans]. intros Hpa.
  pose proof (split_tree_ok _ _ _ _ _ _ _ _ _ _ _ _ _ _ Hsp) as Ht'.
  assert (G' !! a = Some ga) as Ha' by (by rewrite lookup_insert_ne).
  destruct (way_down v' G' Ht' a ga Ha' m gm) as [E|(c & gc & xc & ga' & ax & Hc & Hokc & Hpc)];
    [apply lookup_insert_eq|done|congruence|].
  enough (c = n) as -> by (rewrite lookup_insert_ne in Hc by done; by assert (gc = g) as -> by congruence).
  destruct (decide (c = n)) as [|Hcn]; [done|]. exfalso.
  destruct (decide (c = m)) as [->|Hcm].
  { pose proof (node_ok_lt _ _ _ _ _ _ _ _ Hokc) as Hlt. pose proof (no_gpar Hokc) as Hg'.
    rewrite lookup_insert_eq in Hg', Hc. assert (ga' = gc) as -> by congruence. lia. }
  apply (split_no_kids _ _ _ _ _ _ _ _ _ _ _ _ _ _ Hsp c).
  - rewrite lookup_insert_ne in Hc by done. by apply elem_of_dom.
  - rewrite <-(split_hpar _ _ _ _ _ _ _ _ _ _ _ _ _ _ Hsp c) by done.
    unfold hpar. rewrite (no_heap Hokc). apply (no_par Hokc).
Qed.

Lemma split_window X h q : hold_ok v X G h → q ≠ m →
  in_window v' G' h q = in_window v G h q ∧ in_window v' G' h m = in_window v G h n.
Proof using Hsp.
  intros [(gh & gt & Hgh & Hgt & Hpre) _] Hq. pose proof gm_fresh as Hm. pose proof gm_below as (_ & Hlo & Hhi).
  pose proof Hsp as [Ht Hlive Hn Hok].
  assert (h_node h ≠ m) as Hhm by congruence. assert (h_top h ≠ m) as Htm by congruence.
  unfold in_window. change (tv_root v') with (tv_root v).
  rewrite !split_plen by done. rewrite split_on_path_old by done. rewrite split_on_path_new by (by apply elem_of_dom). split; [done|].
  assert (plen G' m = length (g_path gm)) as -> by (unfold plen; by rewrite lookup_insert_eq).
  destruct (h_swa h); [|done]. simpl. destruct (on_path G (tv_root v) (h_node h) n) eqn:Hon; [|done]. simpl.
  apply bool_decide_ext. assert (plen G n = length (g_path g)) as En by (unfold plen; by rewrite Hlive).
  cbn [split_gnode g_path] in *. rewrite En. split; [lia|]. intros Hlt.
  destruct (decide (h_top h = tv_root v)) as [E|Htr].
  { unfold plen. rewrite E, (to_groot Ht). simpl. lia. }
  assert (on_path G (tv_root v) (h_node h) (h_top h) = true) as Hont.
  { unfold on_path. by rewrite Hgt, Hgh, bool_decide_true, bool_decide_false. }
  destruct (on_path_linear _ _ _ _ _ Hon Hont) as [Hnt|Htn].
  - destruct (plen_between v G n g x p gp px (h_top h) Ht Hlive Hn Hok Hnt) as [E|Hle].
    + rewrite E, En in Hlt. lia.
    + assert (plen G p = length (g_path gp)) as Ep by (unfold plen; by rewrite (no_gpar Hok)). lia.
  - exfalso. unfold on_path in Htn. rewrite Hlive, Hgt in Htn. apply andb_prop in Htn as [Hp%bool_decide_eq_true _].
    apply prefix_length in Hp. unfold plen in Hlt. rewrite Hgt in Hlt. simpl in Hlt. lia.
Qed.

(** The attributes of the two parts: the upper one takes the mark. *)
Definition split_x X t l u : gmap nat xcore := <[n := MkX t l None]> (<[m := MkX t l u]> X).
Lemma split_x_at X t l u : let X' := split_x X t l u in
  (xt X' m = t ∧ xl X' m = l ∧ xu X' m = u) ∧ (xt X' n = t ∧ xl X' n = l ∧ xu X' n = None) ∧ ∀ q, q ≠ m → q ≠ n → xt X' q = xt X q ∧ xl X' q = xl X q ∧ xu X' q = xu X q.
Proof using Hsp.
  destruct (RadixSplit.split_facts _ _ _ _ _ _ _ _ _ _ _ _ _ _ Hsp) as (Hnm & _). intros X'. unfold xt, xl, xu, X', split_x. split_and!; intros; by simplify_map_eq.
Qed.
Lemma split_hold_ok X t l u h : X !! n = Some (MkX t l u) → hold_ok v X G h → hold_ok v' (split_x X t l u) G' h.
Proof using Hsp.
  intros HX [(gh & gt & Hgh & Hgt & Hpre) Hmark]. destruct (split_x_at X t l u) as ((_ & _ & Eum) & _ & Hsame). assert (xu X n = u) as Eu by (unfold xu; by rewrite HX).
  destruct (RadixSplit.split_facts _ _ _ _ _ _ _ _ _ _ _ _ _ _ Hsp) as (Hnm & Hpm & Hnp & Hrm & Hm & _). destruct (split_inner _ _ _ _ _ _ _ _ _ _ _ _ _ _ Hsp) as [_ Hmin]. pose proof Hsp as [Ht Hlive Hn Hok].
  assert (h_node h ≠ m) by congruence. assert (h_top h ≠ m) by congruence. split.
  - exists gh, gt. by rewrite !lookup_insert_ne.
  - intros Hs. specialize (Hmark Hs). destruct (h_uuid h) as [u'|]; [|done]. destruct Hmark as (r & Hr & Hru & Hrp).
    destruct (decide (r = n)) as [->|Hrn].
    + exists m. rewrite split_on_path_new by (by apply elem_of_dom). rewrite Eum, <-Eu. split_and!; [done|done|].
      unfold hpar. rewrite (split_lookup_m _ _ _ _ _ _ _ _ _ _ _ _ _ _ Hsp). simpl. rewrite <-Hrp. unfold hpar. rewrite (no_heap Hok). symmetry. apply (no_par Hok).
    + assert (r ∈ inner v G) as Hrin by (by eapply on_path_inner). assert (r ≠ m) by (intros ->; done). exists r.
      change (tv_root v') with (tv_root v). rewrite split_on_path_old by done. destruct (Hsame r) as (_ & _ & ->); [done..|].
      rewrite (split_hpar _ _ _ _ _ _ _ _ _ _ _ _ _ _ Hsp) by done. done.
Qed.
Lemma split_swa_inv X t l u ev pr uc H :
  X !! n = Some (MkX t l u) → swa_inv v X ev pr uc G H →
  swa_inv v' (split_x X t l u) ev pr uc G' H.
Proof using Hsp.
  intros HX [[Htomb Hlock Hev Hpr Hinj Hbound] Hholds]. set (X' := split_x X t l u).
  destruct (RadixSplit.split_facts _ _ _ _ _ _ _ _ _ _ _ _ _ _ Hsp) as (Hnm & Hpm & Hnp & Hrm & Hm & _).
  destruct (split_inner _ _ _ _ _ _ _ _ _ _ _ _ _ _ Hsp) as [Ein Hmin]. pose proof Hsp as [Ht Hlive Hn Hok].
  assert (n ∈ inner v G) as Hnin by (apply elem_of_inner; eauto).
  assert (xt X n = t ∧ xl X n = l ∧ xu X n = u) as (Et & El & Eu) by (unfold xt, xl, xu; by rewrite HX).
  destruct (split_x_at X t l u) as ((Etm & Elm & Eum) & (Etn & Eln & Eun) & Hsame). fold X' in Etm, Elm, Eum, Etn, Eln, Eun, Hsame.
  assert (∀ q, q ∈ inner v G → q ≠ m) as Hne by (intros q Hq ->; done).
  assert (∀ q, q ∈ inner v G → swa_holds v' G' H q = swa_holds v G H q ∧ swa_holds v' G' H m = swa_holds v G H n) as Hh.
  { intros q Hq. split; apply count_holds_ext; intros h Hh; eapply Forall_forall in Hholds; try done;
      by destruct (split_window X h q Hholds (Hne q Hq)). }
  assert (∀ (w : bool → Z → Z → Z), (∀ t l a b, w t l (a + b) = w t l a + w t l b)%Z →
    gsum (λ q, w (xt X' q) (xl X' q) (hlen (tv_h v') q)) (inner v' G') = gsum (λ q, w (xt X q) (xl X q) (hlen (tv_h v) q)) (inner v G)) as Hsum.
  { intros w Hw. rewrite Ein, gsum_insert by done.
    rewrite (gsum_update (λ q, w (xt X q) (xl X q) (hlen (tv_h v) q)) _ n); [|done|].
    - rewrite <-(split_hlen_mn _ _ _ _ _ _ _ _ _ _ _ _ _ _ Hsp). rewrite Hw, Etm, Elm, Etn, Eln, Et, El. lia.
    - intros q Hq Hqn. destruct (Hsame q (Hne q Hq) Hqn) as (-> & -> & _).
      by rewrite (split_hlen _ _ _ _ _ _ _ _ _ _ _ _ _ _ Hsp) by eauto. }
  split; [split|].
  - intros q. rewrite Ein, elem_of_union, elem_of_singleton. intros [->|Hq]; [rewrite Etm, Elm, <-Et, <-El; auto|].
    destruct (decide (q = n)) as [->|Hqn]; [rewrite Etn, Eln, <-Et, <-El; auto|].
    destruct (Hsame q (Hne q Hq) Hqn) as (-> & -> & _). auto.
  - intros q. rewrite Ein, elem_of_union, elem_of_singleton. intros [->|Hq].
    { destruct (Hh n Hnin) as [_ ->]. rewrite Elm, <-El. auto. }
    destruct (Hh q Hq) as [-> _]. destruct (decide (q = n)) as [->|Hqn]; [rewrite Eln, <-El; auto|].
    destruct (Hsame q (Hne q Hq) Hqn) as (_ & -> & _). auto.
  - rewrite Hev. symmetry. apply (Hsum (λ t l a, if t then 0%Z else ev_w l a)). intros [] ? ? ?; unfold ev_w; try case_decide; lia.
  - rewrite Hpr. symmetry. apply (Hsum (λ t l a, pr_w l a)). intros ? ? ? ?; unfold pr_w; case_decide; lia.
  - assert (∀ q u', q ∈ inner v' G' → xu X' q = Some u' → ∃ r, r ∈ inner v G ∧ xu X r = Some u' ∧ (q = m ∧ r = n ∨ q = r ∧ q ≠ n ∧ q ≠ m)) as Hu.
    { intros q u'. rewrite Ein, elem_of_union, elem_of_singleton. intros [->|Hq] E.
      - exists n. rewrite Eu, <-Eum. auto.
      - destruct (decide (q = n)) as [->|Hqn]; [congruence|]. exists q. destruct (Hsame q (Hne q Hq) Hqn) as (_ & _ & E'). rewrite <-E'. split_and!; [done..|]. right. eauto. }
    intros a b u' Ha Hb Hua Hub. destruct (Hu a u' Ha Hua) as (ra & Hra & Hra' & Ca). destruct (Hu b u' Hb Hub) as (rb & Hrb & Hrb' & Cb).
    pose proof (Hinj _ _ _ Hra Hrb Hra' Hrb'). naive_solver congruence.
  - intros q u'. rewrite Ein, elem_of_union, elem_of_singleton. intros [->|Hq]; [rewrite Eum, <-Eu; eauto|].
    destruct (decide (q = n)) as [->|Hqn]; [congruence|]. destruct (Hsame q (Hne q Hq) Hqn) as (_ & _ & ->). eauto.
  - eapply Forall_impl; [exact Hholds|]. intros h. by apply split_hold_ok.
Qed.
End split.

(** ** Changes that keep the shape *)
Section same_shape.
Implicit Types (v : tview) (X : gmap nat xcore) (G : gmap nat gnode) (H : list hold) (W : nat → Z) (n m p q : nat).

(** Only the root, the edges and the lengths of the view are read. *)
Record same_shape v v' : Prop := {
  ss_root : tv_root v' = tv_root v;
  ss_hlen : ∀ q, hlen (tv_h v') q = hlen (tv_h v) q;
  ss_hpar : ∀ q, hpar (tv_h v') q = hpar (tv_h v) q;
}.
Lemma same_shape_refl_ext v v' : tv_root v' = tv_root v → tv_h v' = tv_h v → same_shape v v'.
Proof. intros E1 E2. split; [done|intros; by rewrite E2..]. Qed.

Lemma shape_inner v v' G : same_shape v v' → inner v' G = inner v G.
Proof. intros [E _ _]. unfold inner. by rewrite E. Qed.
Lemma shape_window v v' G h q : same_shape v v' → in_window v' G h q = in_window v G h q.
Proof. intros [E _ _]. unfold in_window. by rewrite E. Qed.
Lemma shape_hold_ok v v' X G h : same_shape v v' → hold_ok v X G h → hold_ok v' X G h.
Proof.
  intros [E1 E2 E3] [Hn Hm]. split; [done|]. intros Hs. specialize (Hm Hs). destruct (h_uuid h); [|congruence].
  destruct Hm as (r & ? & ? & ?). exists r. by rewrite E1, E3.
Qed.
Lemma shape_swa_ok v v' X ev pr uc G W : same_shape v v' → swa_ok v X ev pr uc G W → swa_ok v' X ev pr uc G W.
Proof.
  intros Hs [H1 H2 H3 H4 H5 H6]. pose proof (shape_inner _ _ G Hs) as Ei. split; rewrite ?Ei; try done.
  - rewrite H3. apply gsum_ext. intros q _. unfold swa_ev_w. by rewrite (ss_hlen _ _ Hs).
  - rewrite H4. apply gsum_ext. intros q _. unfold swa_pr_w. by rewrite (ss_hlen _ _ Hs).
Qed.
Lemma shape_swa_inv v v' X ev pr uc G H : same_shape v v' → swa_inv v X ev pr uc G H → swa_inv v' X ev pr uc G H.
Proof.
  intros Hs [Hok Hh]. split.
  - apply (shape_swa_ok v v') in Hok; [|done]. destruct Hok. split; try done. intros n Hn. rewrite xo_lock0 by done.
    apply count_holds_ext. intros. symmetry. by apply shape_window.
  - eapply Forall_impl; [done|]. intros h. by apply shape_hold_ok.
Qed.
Lemma swa_ok_ext v X ev pr uc G W W' : (∀ q, q ∈ inner v G → W' q = W q) → swa_ok v X ev pr uc G W → swa_ok v X ev pr uc G W'.
Proof. intros E []. split; try done. intros n Hn. rewrite E by done. auto. Qed.

(** A window lock more or less on [n]; it may get a fresh mark. *)
Lemma lock_swa_ok v X ev pr uc uc' G W n t l u u' d :
  n ∈ inner v G → X !! n = Some (MkX t l u) → t = false → (u' = u ∨ u = None ∧ u' = Some uc' ∧ (uc < uc')%Z) → (uc <= uc')%Z → (0 <= uc)%Z →
  swa_ok v X ev pr uc G W →
  swa_ok v (<[n := MkX t (l + d) u']> X) (ev + (ev_w (l + d) (hlen (tv_h v) n) - ev_w l (hlen (tv_h v) n)))
    (pr + (pr_w (l + d) (hlen (tv_h v) n) - pr_w l (hlen (tv_h v) n))) uc' G (λ q, W q + if decide (q = n) then d else 0)%Z.
Proof.
  intros Hn HX -> Hu Huc Huc0 [Htomb Hlock Hev Hpr Hinj Hbound]. set (X' := <[n := _]> X).
  assert (xt X n = false ∧ xl X n = l ∧ xu X n = u) as (Et & El & Eu) by (unfold xt, xl, xu; by rewrite HX).
  assert (xt X' n = false ∧ xl X' n = (l + d)%Z ∧ xu X' n = u') as (Etn & Eln & Eun) by (unfold xt, xl, xu, X'; by rewrite lookup_insert_eq).
  assert (∀ q, q ≠ n → xt X' q = xt X q ∧ xl X' q = xl X q ∧ xu X' q = xu X q) as Hsame by (intros q ?; unfold xt, xl, xu, X'; by rewrite lookup_insert_ne).
  split.
  - intros q Hq. destruct (decide (q = n)) as [->|Hqn]; [congruence|]. destruct (Hsame q Hqn) as (-> & -> & _). auto.
  - intros q Hq. case_decide as E; [subst q; rewrite Eln, <-El, Hlock; [done|done]|]. destruct (Hsame q E) as (_ & -> & _). rewrite Hlock by done. lia.
  - rewrite Hev. rewrite (gsum_update (swa_ev_w X v) (swa_ev_w X' v) n); [|done|].
    + unfold swa_ev_w. rewrite Etn, Eln, Et, El. lia.
    + intros q Hq Hqn. unfold swa_ev_w. by destruct (Hsame q Hqn) as (-> & -> & _).
  - rewrite Hpr. rewrite (gsum_update (swa_pr_w X v) (swa_pr_w X' v) n); [|done|].
    + unfold swa_pr_w. rewrite Eln, El. lia.
    + intros q Hq Hqn. unfold swa_pr_w. by destruct (Hsame q Hqn) as (_ & -> & _).
  - assert (∀ q a, q ∈ inner v G → xu X' q = Some a → xu X q = Some a ∨ q = n ∧ a = uc' ∧ (uc < uc')%Z) as Hcase.
    { intros q a Hq. destruct (decide (q = n)) as [->|Hqn]; [|destruct (Hsame q Hqn) as (_ & _ & ->); by left].
      rewrite Eun. destruct Hu as [->|(-> & -> & ?)]; [rewrite Eu; by left|]. intros [= <-]. auto. }
    intros a b w Ha Hb Hua Hub. destruct (Hcase a w Ha Hua) as [Ca|(Ea & Ew & ?)], (Hcase b w Hb Hub) as [Cb|(Eb & Ew' & ?)].
    + by eapply Hinj.
    + pose proof (Hbound _ _ Ha Ca). lia.
    + pose proof (Hbound _ _ Hb Cb). lia.
    + congruence.
  - intros q w Hq Hw. destruct (decide (q = n)) as [->|Hqn].
    + rewrite Eun in Hw. destruct Hu as [->|(-> & -> & ?)]; [specialize (Hbound n w Hq); rewrite Eu in Hbound; specialize (Hbound Hw); lia|]. simplify_eq. lia.
    + destruct (Hsame q Hqn) as (_ & _ & E). rewrite E in Hw. specialize (Hbound q w Hq Hw). lia.
Qed.

(** A tombstone set on an unlocked node, and removed again. *)
Lemma tomb_swa_ok v X ev pr uc G W n t t' u :
  n ∈ inner v G → X !! n = Some (MkX t 0 u) → swa_ok v X ev pr uc G W →
  swa_ok v (<[n := MkX t' 0 u]> X) (ev + ((if t' then 0 else hlen (tv_h v) n) - (if t then 0 else hlen (tv_h v) n))) pr uc G W.
Proof.
  intros Hn HX [Htomb Hlock Hev Hpr Hinj Hbound]. set (X' := <[n := _]> X).
  assert (xt X n = t ∧ xl X n = 0%Z ∧ xu X n = u) as (Et & El & Eu) by (unfold xt, xl, xu; by rewrite HX).
  assert (xt X' n = t' ∧ xl X' n = 0%Z ∧ xu X' n = u) as (Etn & Eln & Eun) by (unfold xt, xl, xu, X'; by rewrite lookup_insert_eq).
  assert (∀ q, q ≠ n → xt X' q = xt X q) as Hsame by (intros q ?; unfold xt, X'; by rewrite lookup_insert_ne).
  assert (∀ q, xl X' q = xl X q ∧ xu X' q = xu X q) as Hsame2.
  { intros q. destruct (decide (q = n)) as [->|]; [rewrite El, Eu; done|]. unfold xl, xu, X'. by rewrite lookup_insert_ne. }
  split.
  - intros q Hq. destruct (Hsame2 q) as [-> _]. destruct (decide (q = n)) as [->|Hqn]; [done|]. rewrite Hsame by done. auto.
  - intros q Hq. destruct (Hsame2 q) as [-> _]. auto.
  - rewrite Hev. rewrite (gsum_update (swa_ev_w X v) (swa_ev_w X' v) n); [|done|].
    + unfold swa_ev_w. rewrite Etn, Eln, Et, El. unfold ev_w. rewrite decide_True by done. done.
    + intros q Hq Hqn. unfold swa_ev_w. by rewrite Hsame, (proj1 (Hsame2 q)).
  - rewrite Hpr. apply gsum_ext. intros q _. unfold swa_pr_w. by rewrite (proj1 (Hsame2 q)).
  - intros a b w Ha Hb. rewrite (proj2 (Hsame2 a)), (proj2 (Hsame2 b)). by apply Hinj.
  - intros q w Hq. rewrite (proj2 (Hsame2 q)). by apply Hbound.
Qed.
Lemma tomb_hold_ok v X G n t l u t' l' h : X !! n = Some (MkX t l u) → hold_ok v X G h → hold_ok v (<[n := MkX t' l' u]> X) G h.
Proof.
  intros HX [Hn Hm]. split; [done|]. intros Hs. specialize (Hm Hs). destruct (h_uuid h); [|done].
  destruct Hm as (r & ? & Hr & ?). exists r. split_and!; [done| |done]. unfold xu in *. rewrite lookup_insert.
  case_decide; [subst; rewrite HX in Hr; done|done].
Qed.
Lemma tomb_swa_inv v X ev pr uc G H n t t' u :
  n ∈ inner v G → X !! n = Some (MkX t 0 u) → swa_inv v X ev pr uc G H →
  swa_inv v (<[n := MkX t' 0 u]> X) (ev + ((if t' then 0 else hlen (tv_h v) n) - (if t then 0 else hlen (tv_h v) n))) pr uc G H.
Proof.
  intros Hn HX [Hok Hh]. split; [by apply tomb_swa_ok|]. eapply Forall_impl; [done|]. intros h. by eapply tomb_hold_ok.
Qed.
End same_shape.

(** ** Leaves *)

(** Only the path of a leaf itself ends in it. *)
Lemma leaf_path_end v G n x a :
  tree_ok v G → tv_h v !! n = Some x → c_children x = ∅ → on_path G (tv_root v) a n = true → a = n.
Proof.
  intros Ht Hx Hc. unfold on_path. destruct (G !! n) as [g|] eqn:Hg; [|done]. destruct (G !! a) as [ga|] eqn:Ha; [|done].
  intros [Hp%bool_decide_eq_true _]%andb_prop.
  destruct (way_down v G Ht a ga Ha n g Hg Hp) as [->|(c & gc & xc & g' & px & _ & Hok & _)]; [done|].
  destruct (no_link Hok) as (ck & _ & Hl). pose proof (no_parheap Hok). simplify_eq. by rewrite Hc in Hl.
Qed.

Section add_leaf.
Context (v : tview) (G : gmap nat gnode) (p : nat) (gp : gnode) (px : core) (K : RadixKey) (ck : ckey) (vv : list Z).
Context (Ht : tree_ok v G) (Hlp : leaf_pre v G p gp px K ck vv).
Abbreviation m := (tv_next v).
Abbreviation v' := (leaf_view v p px K ck vv).
Abbreviation G' := (<[m := leaf_gnode gp K vv]> G).

Lemma leaf_window X h q : hold_ok v X G h → q ≠ m → in_window v' G' h q = in_window v G h q ∧ in_window v' G' h m = false.
Proof using Ht Hlp.
  intros [(gh & gt & Hgh & Hgt & _) _] Hq. destruct (leaf_facts _ _ _ _ _ _ _ _ Ht Hlp) as (_ & Hrm & Hm & _).
  assert (h_node h ≠ m) by congruence. assert (h_top h ≠ m) by congruence.
  unfold in_window, on_path, plen. change (tv_root v') with (tv_root v). rewrite !lookup_insert_ne by done. split; [done|].
  destruct (on_path G' (tv_root v) (h_node h) m) eqn:Hon.
  - exfalso. assert (h_node h = m); [|done]. eapply (leaf_path_end v' G'); [by apply leaf_tree_ok|by eapply leaf_lookup_m|done|done].
  - unfold on_path in Hon. rewrite (lookup_insert_ne G m (h_node h)) in Hon by done. by rewrite Hon, andb_false_r.
Qed.

Lemma leaf_swa_inv X t ev pr uc H :
  swa_inv v X ev pr uc G H →
  swa_inv v' (<[m := MkX t 0 None]> X) (ev + (if t then 0 else Z.of_nat (key_len K))) pr uc G' H.
Proof using Ht Hlp.
  intros [[Htomb Hlock Hev Hpr Hinj Hbound] Hholds]. set (X' := <[m := _]> X).
  destruct (leaf_facts _ _ _ _ _ _ _ _ Ht Hlp) as (_ & Hrm & Hm & _). destruct (leaf_inner _ _ _ _ _ _ _ _ Ht Hlp) as (Ein & Hmin & _).
  assert (xt X' m = t ∧ xl X' m = 0%Z ∧ xu X' m = None) as (Etm & Elm & Eum) by (unfold xt, xl, xu, X'; by rewrite lookup_insert_eq).
  assert (∀ q, q ≠ m → xt X' q = xt X q ∧ xl X' q = xl X q ∧ xu X' q = xu X q) as Hsame by (intros q ?; unfold xt, xl, xu, X'; by rewrite lookup_insert_ne).
  assert (∀ q, q ∈ inner v G → q ≠ m) as Hne by (intros q Hq ->; done).
  assert (hlen (tv_h v') m = Z.of_nat (key_len K)) as Hlen by (unfold hlen; by rewrite (leaf_lookup_m _ _ _ _ _ _ _ _ Ht Hlp)).
  assert (∀ q, q ∈ inner v G → hlen (tv_h v') q = hlen (tv_h v) q ∧ hpar (tv_h v') q = hpar (tv_h v) q) as Hl.
  { intros q Hq. by destruct (leaf_same _ _ _ _ _ _ _ _ Ht Hlp q (Hne q Hq)) as (_ & ? & ?). }
  split; [split|].
  - intros q. rewrite Ein, elem_of_union, elem_of_singleton. intros [->|Hq]; [done|]. destruct (Hsame q (Hne q Hq)) as (-> & -> & _). auto.
  - intros q. rewrite Ein, elem_of_union, elem_of_singleton. intros [->|Hq].
    + rewrite Elm. symmetry. unfold swa_holds. rewrite (count_holds_ext _ (λ _, false)).
      * unfold count_holds. by rewrite filter_nothing by (apply Forall_forall; done).
      * intros h Hh. eapply Forall_forall in Hholds; [|done]. by destruct (leaf_window X h (tv_root v) Hholds Hrm).
    + destruct (Hsame q (Hne q Hq)) as (_ & -> & _). rewrite Hlock by done. apply count_holds_ext. intros h Hh.
      eapply Forall_forall in Hholds; [|done]. by destruct (leaf_window X h q Hholds (Hne q Hq)).
  - rewrite Ein, gsum_insert, Hev by done. unfold swa_ev_w at 2. rewrite Etm, Elm, Hlen.
    rewrite (gsum_ext (swa_ev_w X' v') (swa_ev_w X v)).
    + unfold ev_w. destruct t; [|rewrite decide_True by done]; lia.
    + intros q Hq. unfold swa_ev_w. destruct (Hsame q (Hne q Hq)) as (-> & -> & _). by rewrite (proj1 (Hl q Hq)).
  - rewrite Ein, gsum_insert, Hpr by done. unfold swa_pr_w at 2. rewrite Elm. unfold pr_w at 1. rewrite decide_True by done.
    apply gsum_ext. intros q Hq. unfold swa_pr_w. destruct (Hsame q (Hne q Hq)) as (_ & -> & _). by rewrite (proj1 (Hl q Hq)).
  - intros a b u. rewrite Ein, !elem_of_union, !elem_of_singleton. intros [->|Ha] [->|Hb]; [done|rewrite Eum; done|intros _; rewrite Eum; done|].
    destruct (Hsame a (Hne a Ha)) as (_ & _ & ->), (Hsame b (Hne b Hb)) as (_ & _ & ->). by apply Hinj.
  - intros q u. rewrite Ein, elem_of_union, elem_of_singleton. intros [->|Hq]; [by rewrite Eum|]. destruct (Hsame q (Hne q Hq)) as (_ & _ & ->). eauto.
  - eapply Forall_impl; [exact Hholds|]. intros h [(gh & gt & Hgh & Hgt & Hpre) Hmark].
    assert (h_node h ≠ m) by congruence. assert (h_top h ≠ m) by congruence. split.
    + exists gh, gt. by rewrite !lookup_insert_ne.
    + intros Hs. specialize (Hmark Hs). destruct (h_uuid h) as [u'|]; [|done]. destruct Hmark as (r & Hr & Hru & Hrp).
      assert (r ∈ inner v G) as Hrin by (by eapply on_path_inner). exists r.
      destruct (Hsame r (Hne r Hrin)) as (_ & _ & ->). rewrite (proj2 (Hl r Hrin)). split_and!; [|done|done].
      pose proof (Hne r Hrin). unfold on_path in *. by rewrite !lookup_insert_ne by done.
Qed.
End add_leaf.

Section del_leaf.
Context (v : tview) (G : gmap nat gnode) (n : nat) (g : gnode) (x : core) (p : nat) (gp : gnode) (px : core) (ck : ckey).
Context (Ht : tree_ok v G) (Hdp : del_pre v G n g x p gp px ck).
Abbreviation v' := (del_view v n x p px ck).
Abbreviation G' := (delete n G).

Lemma del_swa_inv X t u ev pr uc H :
  X !! n = Some (MkX t 0 u) → full_holds H n = 0%Z → swa_inv v X ev pr uc G H →
  swa_inv v' X (ev - (if t then 0 else Z.of_nat (key_len (c_key x)))) pr uc G' H.
Proof using Ht Hdp.
  intros HX Hno [[Htomb Hlock Hev Hpr Hinj Hbound] Hholds]. pose proof Hdp as [Hlive Hn Hok Hck Hkids _].
  destruct (del_inner _ _ _ _ _ _ _ _ _ Ht Hdp) as [Ein Hnin].
  assert (∀ q, q ∈ inner v' G' → q ≠ n ∧ q ∈ inner v G) as Hne by (intros q Hq; split; [by intros ->|set_solver]).
  assert (∀ q, hlen (tv_h v') q = hlen (tv_h v) q ∧ hpar (tv_h v') q = hpar (tv_h v) q) as Hl.
  { intros q. by destruct (del_same _ _ _ _ _ _ _ _ _ Ht Hdp q) as (_ & ? & ?). }
  assert (hlen (tv_h v) n = Z.of_nat (key_len (c_key x))) as Hlen by (unfold hlen; by rewrite (no_heap Hok)).
  assert (xt X n = t ∧ xl X n = 0%Z) as (Et & El) by (unfold xt, xl; by rewrite HX).
  assert (∀ h, h ∈ H → h_node h ≠ n ∧ h_top h ≠ n) as Hhn.
  { intros h Hh. assert (h_node h ≠ n) as Hhn.
    { intros E. pose proof (count_holds_pos (λ h, bool_decide (h_node h = n)) H h Hh (bool_decide_eq_true_2 _ E)) as Hpos.
      unfold full_holds in Hno. lia. }
    split; [done|]. intros E. eapply Forall_forall in Hholds as [(gh & gt & Hgh & Hgt & Hpre) _]; [|done].
    apply Hhn. eapply (leaf_path_end v G n x); [done|apply (no_heap Hok)|done|]. rewrite E in Hgt. unfold on_path. rewrite Hgt, Hgh.
    by rewrite bool_decide_true, bool_decide_false. }
  assert (∀ h q, h ∈ H → q ≠ n → in_window v' G' h q = in_window v G h q) as Hwin.
  { intros h q Hh Hq. destruct (Hhn h Hh). unfold in_window, on_path, plen. by rewrite !lookup_delete_ne. }
  split; [split|].
  - intros q Hq. apply Hne in Hq as [_ Hq]. auto.
  - intros q Hq. apply Hne in Hq as [Hqn Hq]. rewrite Hlock by done. apply count_holds_ext. intros h Hh. by rewrite Hwin.
  - rewrite Hev, Ein, gsum_insert by done. unfold swa_ev_w at 1. rewrite Et, El, Hlen.
    rewrite (gsum_ext (swa_ev_w X v') (swa_ev_w X v)).
    + unfold ev_w. destruct t; [|rewrite decide_True by done]; lia.
    + intros q Hq. unfold swa_ev_w. by rewrite (proj1 (Hl q)).
  - rewrite Hpr, Ein, gsum_insert by done. unfold swa_pr_w at 1. rewrite El. unfold pr_w at 1. rewrite decide_True by done.
    apply gsum_ext. intros q Hq. unfold swa_pr_w. by rewrite (proj1 (Hl q)).
  - intros a b w Ha Hb. apply Hinj; by apply Hne.
  - intros q w Hq. apply Hbound; by apply Hne.
  - apply Forall_forall. intros h Hh. destruct (Hhn h Hh). eapply Forall_forall in Hholds as [(gh & gt & Hgh & Hgt & Hpre) Hmark]; [|done]. split.
    + exists gh, gt. by rewrite !lookup_delete_ne.
    + intros Hs. specialize (Hmark Hs). destruct (h_uuid h) as [u'|]; [|done]. destruct Hmark as (r & Hr & Hru & Hrp). exists r.
      rewrite (proj2 (Hl r)). split_and!; [|done|done].
      assert (r ≠ n). { intros ->. destruct Hhn with h as [Hc _]; [done|]. apply Hc. eapply (leaf_path_end v G n x); [done|apply (no_heap Hok)|done|done]. }
      unfold on_path in *. by rewrite !lookup_delete_ne.
Qed.
End del_leaf.

(** Replacing the slots of one node of the tree, as [insert] does when it revives a
    tombstone: the shape, the locks and the counters stay, and the slots cached for the
    prefixes through the node change. *)

Section revalue.
Context (v : tview) (G : gmap nat gnode) (n : nat) (g : gnode) (x : core) (p : nat) (gp : gnode) (px : core) (old new : list Z).
Context (Ht : tree_ok v G) (Hlive : G !! n = Some g) (Hn : n ≠ tv_root v) (Hok : node_ok v G n g x p gp px).
Context (Hold : c_value x = Some old) (Hlen : length new = length old).

Definition revalue_core : core := MkCore (c_children x) (c_parent x) (c_key x) (Some new) (c_lock x).
Definition revalue_view : tview :=
  MkView (tv_ps v) (tv_eagle v) (tv_root v) (<[n := revalue_core]> (tv_h v)) (tv_next v) (tv_ev v) (tv_pr v) (tv_leaves v).
Definition revalue_gnode (gq : gnode) : gnode :=
  if bool_decide (g_path g `prefix_of` g_path gq)
  then MkG (g_path gq) (take (length (g_path gp)) (g_vals gq) ++ new ++ drop (length (g_path g)) (g_vals gq))
  else gq.
Abbreviation v' := revalue_view.
Abbreviation G' := (revalue_gnode <$> G).

Lemma revalue_path gq : g_path (revalue_gnode gq) = g_path gq.
Proof using. unfold revalue_gnode. by case_bool_decide. Qed.
Lemma revalue_lookup q : tv_h v' !! q = if decide (q = n) then Some revalue_core else tv_h v !! q.
Proof using. simpl. rewrite lookup_insert. repeat case_decide; congruence. Qed.
Lemma revalue_lookup_core q y : tv_h v !! q = Some y →
  ∃ y', tv_h v' !! q = Some y' ∧ c_children y' = c_children y ∧ c_parent y' = c_parent y ∧ c_key y' = c_key y ∧ c_lock y' = c_lock y ∧ (q ≠ n → y' = y).
Proof using Hok.
  intros Hq. rewrite revalue_lookup. case_decide as E; [|by exists y]. exists revalue_core. subst q.
  assert (y = x) as -> by (pose proof (no_heap Hok); congruence). done.
Qed.
Lemma revalue_lookup_inv q y' : tv_h v' !! q = Some y' →
  ∃ y, tv_h v !! q = Some y ∧ c_children y' = c_children y ∧ c_parent y' = c_parent y ∧ c_key y' = c_key y ∧ c_lock y' = c_lock y.
Proof using Hok.
  rewrite revalue_lookup. case_decide as E; [|intros; by exists y']. intros [= <-]. exists x. subst q. by rewrite (no_heap Hok).
Qed.

Local Lemma vals_len q gq : G !! q = Some gq → length (g_vals gq) = length (g_path gq).
Proof using Ht. intros Hq. by destruct (tree_path_shape v G q gq Ht Hq). Qed.

(** The node itself. *)
Lemma revalue_node_n : node_ok v' G' n (revalue_gnode g) revalue_core p (revalue_gnode gp) px.
Proof using Ht Hlive Hn Hok Hold Hlen.
  pose proof (node_ok_lt _ _ _ _ _ _ _ _ Hok) as Hlt. pose proof (node_ok_ne _ _ _ _ _ _ _ _ Hok Hlive) as Hnp.
  assert (revalue_gnode gp = gp) as Egp.
  { unfold revalue_gnode. rewrite bool_decide_false; [done|]. intros Hp%prefix_length. lia. }
  destruct (no_vals Hok) as (vv & Hvv & Hl & Hgv). assert (vv = old) as -> by congruence.
  pose proof (vals_len p gp (no_gpar Hok)) as Hgl. pose proof (vals_len n g Hlive) as Hgl'.
  constructor.
  - rewrite revalue_lookup. by rewrite decide_True.
  - apply (no_par Hok).
  - rewrite lookup_fmap, (no_gpar Hok). done.
  - rewrite revalue_lookup, decide_False by done. apply (no_parheap Hok).
  - apply (no_link Hok).
  - apply (no_mode Hok).
  - apply (no_pos Hok).
  - apply (no_aligned Hok).
  - rewrite !revalue_path. apply (no_path Hok).
  - exists new. split_and!; [done|by rewrite Hlen|]. rewrite Egp. unfold revalue_gnode. rewrite bool_decide_true by done. simpl.
    rewrite drop_ge by lia. rewrite Hgv, take_app_le, take_ge, app_nil_r by lia. done.
Qed.
(** A node below keeps its own slots. *)
Lemma revalue_node_other q gq y r gr ry :
  G !! q = Some gq → q ≠ n → q ≠ tv_root v → node_ok v G q gq y r gr ry →
  ∃ ry', node_ok v' G' q (revalue_gnode gq) y r (revalue_gnode gr) ry'.
Proof using Ht Hlive Hn Hok Hold Hlen.
  intros Hq Hqn Hqr Hokq. destruct (revalue_lookup_core r ry (no_parheap Hokq)) as (ry' & Hry' & Ekids & _). exists ry'.
  pose proof (no_gpar Hokq) as Hr. pose proof (vals_len r gr Hr) as Hrl.
  assert (g_path g `prefix_of` g_path gq ↔ g_path g `prefix_of` g_path gr) as Hiff.
  { split; [|intros; etrans; [done|by eapply node_ok_prefix]]. intros Hp.
    destruct (on_path_step v G q gq y r gr ry n Ht Hq Hqr Hokq) as [E _]. unfold on_path in E. rewrite Hlive, Hq, Hr in E.
    rewrite (bool_decide_true (_ `prefix_of` g_path gq)), (bool_decide_false (n = tv_root v)), (bool_decide_false (n = q)) in E by done.
    simpl in E. rewrite andb_true_r in E. symmetry in E. by apply bool_decide_eq_true in E. }
  constructor.
  - rewrite revalue_lookup, decide_False by done. apply (no_heap Hokq).
  - apply (no_par Hokq).
  - by rewrite lookup_fmap, Hr.
  - done.
  - destruct (no_link Hokq) as (ck & ? & ?). exists ck. by rewrite Ekids.
  - apply (no_mode Hokq).
  - apply (no_pos Hokq).
  - apply (no_aligned Hokq).
  - rewrite !revalue_path. apply (no_path Hokq).
  - destruct (no_vals Hokq) as (vv & Hvv & Hl & Hgv). exists vv. split_and!; [done..|]. unfold revalue_gnode.
    destruct (decide (g_path g `prefix_of` g_path gr)) as [Hp|Hp].
    + rewrite !bool_decide_true by tauto. simpl. rewrite Hgv. pose proof (prefix_length _ _ Hp).
      pose proof (node_ok_lt _ _ _ _ _ _ _ _ Hok). rewrite take_app_le, drop_app_le, <-!app_assoc by lia. done.
    + by rewrite !bool_decide_false by tauto.
Qed.

Lemma revalue_tree_ok : tree_ok v' G'.
Proof using Ht Hlive Hn Hok Hold Hlen.
  constructor.
  - apply (to_ps Ht).
  - destruct (to_root Ht) as (xr & Hr & Hrest). exists xr. rewrite revalue_lookup, decide_False by done. done.
  - change (tv_root v') with (tv_root v). rewrite lookup_fmap, (to_groot Ht). simpl. f_equal. unfold revalue_gnode. rewrite bool_decide_false; [done|].
    intros Hp%prefix_length. pose proof (node_ok_lt _ _ _ _ _ _ _ _ Hok). simpl in Hp. lia.
  - intros q [y' (y & Hy & _)%revalue_lookup_inv]. apply (to_fresh Ht). eauto.
  - intros q gq'. rewrite lookup_fmap. intros (gq & Hq & ->)%fmap_Some Hqr. destruct (decide (q = n)) as [->|Hqn].
    + assert (gq = g) as -> by congruence. eauto using revalue_node_n.
    + destruct (to_node Ht q gq) as (y & r & gr & ry & Hokq); [done..|].
      destruct (revalue_node_other q gq y r gr ry) as [ry' ?]; [done..|]. eauto.
  - intros r gr' ry' ck q. rewrite lookup_fmap. intros (gr & Hr & ->)%fmap_Some (ry & Hry & Ek & _)%revalue_lookup_inv Hq. rewrite Ek in Hq.
    destruct (to_child Ht r gr ry ck q) as (gq & y & Hgq & Hy & Hp & Hqr & Hck); [done..|].
    destruct (revalue_lookup_core q y Hy) as (y' & Hy' & _ & Ep & Eky & _). exists (revalue_gnode gq), y'.
    rewrite lookup_fmap, Hgq, Ep, Eky. done.
Qed.

Lemma revalue_inner : inner v' G' = inner v G.
Proof using. unfold inner. by rewrite dom_fmap_L. Qed.
Lemma revalue_shape : same_shape v v'.
Proof using Hn Hok.
  assert (∀ q, (c_key <$> tv_h v' !! q) = (c_key <$> tv_h v !! q) ∧ (c_parent <$> tv_h v' !! q) = (c_parent <$> tv_h v !! q)) as E.
  { intros q. rewrite revalue_lookup. case_decide; [|done]. subst q. by rewrite (no_heap Hok). }
  split; [done| |]; intros q; specialize (E q) as [E1 E2]; unfold hlen, hpar; destruct (tv_h v' !! q), (tv_h v !! q); simplify_eq/=; congruence.
Qed.
Lemma revalue_hlock q : hlock (tv_h v') q = hlock (tv_h v) q.
Proof using Hok. unfold hlock. rewrite revalue_lookup. case_decide; [|done]. subst q. by rewrite (no_heap Hok). Qed.
Lemma revalue_on_path a q : on_path G' (tv_root v) a q = on_path G (tv_root v) a q.
Proof using. unfold on_path. rewrite !lookup_fmap. destruct (G !! q), (G !! a); simpl; rewrite ?revalue_path; done. Qed.
Lemma revalue_plen q : plen G' q = plen G q.
Proof using. unfold plen. rewrite lookup_fmap. destruct (G !! q); simpl; [by rewrite revalue_path|done]. Qed.

Lemma revalue_Inv L : Inv v G L → Inv v' G' L.
Proof using Ht Hlive Hn Hok Hold Hlen.
  intros [_ [Hnn Hsum Hout] [Hev Hpr Hlv]]. pose proof revalue_shape as Hss. pose proof revalue_inner as Ei.
  split; [apply revalue_tree_ok| |]; split; rewrite ?Ei.
  - intros q Hq. rewrite revalue_hlock. auto.
  - intros q Hq. rewrite revalue_hlock, Hsum by done. f_equal. unfold child_locks. rewrite dom_fmap_L. apply gsum_ext.
    intros r _. by rewrite revalue_hlock, (ss_hpar _ _ Hss).
  - intros q. rewrite dom_fmap_L. apply Hout.
  - simpl tv_ev. rewrite Hev. apply gsum_ext. intros q _. unfold ev_weight. by rewrite revalue_hlock, (ss_hlen _ _ Hss).
  - simpl tv_pr. rewrite Hpr. apply gsum_ext. intros q _. unfold pr_weight. by rewrite revalue_hlock, (ss_hlen _ _ Hss).
  - intros q. simpl tv_leaves. rewrite Hlv. unfold is_evictable_leaf. rewrite Ei, revalue_hlock.
    assert ((∃ y, tv_h v' !! q = Some y ∧ c_children y = ∅) ↔ (∃ y, tv_h v !! q = Some y ∧ c_children y = ∅)) as Hk; [|by rewrite Hk].
    rewrite revalue_lookup. case_decide; [|done]. subst q. rewrite (no_heap Hok). naive_solver.
Qed.
Lemma revalue_swa_inv X ev pr uc H : swa_inv v X ev pr uc G H → swa_inv v' X ev pr uc G' H.
Proof using Hn Hok.
  intros Hi. pose proof revalue_shape as Hss. apply (shape_swa_inv v v') in Hi; [|done]. destruct Hi as [[H1 H2 H3 H4 H5 H6] Hh].
  assert (inner v' G' = inner v' G) as Ei by (unfold inner; by rewrite dom_fmap_L).
  split; [split; rewrite ?Ei; try done|].
  - intros q Hq. rewrite H2 by done. apply count_holds_ext. intros h _. unfold in_window.
    change (tv_root v') with (tv_root v). by rewrite !revalue_plen, revalue_on_path.
  - eapply Forall_impl; [exact Hh|]. intros h [(gh & gt & Hgh & Hgt & Hp) Hm]. split.
    + exists (revalue_gnode gh), (revalue_gnode gt). by rewrite !lookup_fmap, Hgh, Hgt, !revalue_path.
    + intros Hs. specialize (Hm Hs). destruct (h_uuid h); [|done]. destruct Hm as (r & Hr & ? & ?). exists r.
      change (tv_root v') with (tv_root v). by rewrite revalue_on_path.
Qed.
Lemma revalue_slots i : (slot_count v' G' i = slot_count v G i + (occ i new - occ i old))%Z.
Proof using Ht Hlive Hn Hok Hold.
  unfold slot_count. rewrite revalue_inner. rewrite (gsum_update (λ q, occ i (hval (tv_h v) q)) _ n).
  - unfold hval. rewrite revalue_lookup, decide_True, (no_heap Hok) by done. simpl. by rewrite Hold.
  - apply elem_of_inner. eauto.
  - intros q _ Hq. unfold hval. by rewrite revalue_lookup, decide_False.
Qed.
End revalue.
