(* ===== verification/SwaOps.v ===== *)
(** The invariant of the sliding-window cache and the operations on single nodes:
    [_split_node], [_add_new_node], deleting leaves, and tombstones. *)
From S2P Require Import Prelude RadixKey TreeNode EvictPolicy RadixCache RadixInv RadixSplit RadixLeaf RadixLock RadixSpec RadixOps RadixLockOps.
From S2P Require Import SwaLru SwaCache SwaAbs SwaInv.
From stdpp Require Import options.

(** What the tree relies on of the allocator of the two pools: [sa_used] are the slots in
    use, [sa_backed] those of them that are backed by a slot of the window pool.  Lists
    are taken back in whole pages of [ps] slots ([sa_fits]). *)
Class SWAAllocatorLaws (A : Type) `{SWAAllocator A} (ps : nat) := {
  sa_ok : A → Prop;
  sa_used : A → gset Z;
  sa_backed : A → gset Z;
  sa_fits : list Z → Prop;
  sa_fits_take : ∀ l k, k `mod` ps = 0 → sa_fits l → sa_fits (take k l) ∧ sa_fits (drop k l);
  sa_free_ok : ∀ al l, sa_ok al → NoDup l → sa_fits l → (∀ i, i ∈ l → i ∈ sa_used al) →
    ∃ al', sa_free l al = Ok al' ∧ sa_ok al' ∧ sa_used al' = sa_used al ∖ list_to_set l ∧ sa_backed al' = sa_backed al ∖ list_to_set l;
  sa_free_swa_ok : ∀ al l, sa_ok al → NoDup l → sa_fits l → (∀ i, i ∈ l → i ∈ sa_backed al) →
    ∃ al', sa_free_swa l al = Ok al' ∧ sa_ok al' ∧ sa_used al' = sa_used al ∧ sa_backed al' = sa_backed al ∖ list_to_set l;
}.

(** Every slot in use is held once, by a node of the tree or by a request ([own]). *)
Record slots_ok {A} `{SWAAllocatorLaws A ps} (v : tview) (X : gmap nat xcore) (al : A) (G : gmap nat gnode) (own : Z → Z) : Prop := {
  sl_alloc : sa_ok al;
  sl_own : ∀ i, (0 <= own i)%Z;
  sl_count : ∀ i, (slot_count v G i + own i)%Z = if decide (i ∈ sa_used al) then 1%Z else 0%Z;
  sl_fits : ∀ n, n ∈ inner v G → sa_fits (hval (tv_h v) n);
  sl_back : ∀ n i, n ∈ inner v G → i ∈ hval (tv_h v) n → (i ∈ sa_backed al ↔ xt X n = false);
}.

Record AInv {A} `{SWAAllocatorLaws A ps} (lv : gset nat) (a : ACache A) (G : gmap nat gnode) (H : list hold) (own : Z → Z) : Prop := {
  ai_ps : ps = sw_page_size (a_cfg a);
  ai_tree : Inv (sview lv a) G (full_holds H);
  ai_swa : swa_inv (sview lv a) (sx a) (a_sev a) (a_spr a) (a_uuid a) G H;
  ai_fl : ∀ n, n ∈ a_fl a ↔ n ∈ inner (sview lv a) G;
  ai_sl : ∀ n, n ∈ a_sl a ↔ n ∈ inner (sview lv a) G ∧ xt (sx a) n = false;
  ai_uc : (0 <= a_uuid a)%Z;
  ai_slots : slots_ok (sview lv a) (sx a) (a_alloc a) G own;
}.

(** The same with any number of locks and window locks per node: the state inside a walk
    that takes or gives back locks. *)
Record LInv {A} `{SWAAllocatorLaws A ps} (lv : gset nat) (a : ACache A) (G : gmap nat gnode) (L W : nat → Z) (own : Z → Z) : Prop := {
  li_ps : ps = sw_page_size (a_cfg a);
  li_tree : Inv (sview lv a) G L;
  li_swa : swa_ok (sview lv a) (sx a) (a_sev a) (a_spr a) (a_uuid a) G W;
  li_fl : ∀ n, n ∈ a_fl a ↔ n ∈ inner (sview lv a) G;
  li_sl : ∀ n, n ∈ a_sl a ↔ n ∈ inner (sview lv a) G ∧ xt (sx a) n = false;
  li_uc : (0 <= a_uuid a)%Z;
  li_slots : slots_ok (sview lv a) (sx a) (a_alloc a) G own;
}.
Section ops.
Context {A : Type} {alloc : SWAAllocator A} {ps : nat} {laws : SWAAllocatorLaws A ps}.
Implicit Types (c : SWACache A) (a : ACache A) (G : gmap nat gnode) (H : list hold) (own : Z → Z) (x y : SNode) (n m p : nat) (lv : gset nat).

Lemma AInv_LInv lv a G H own :
  AInv lv a G H own ↔ LInv lv a G (full_holds H) (swa_holds (sview lv a) G H) own ∧ Forall (hold_ok (sview lv a) (sx a) G) H.
Proof. split; [intros [? ? [] ? ? ? ?]; split; [by constructor|done]|intros [[] ?]; constructor; try done; by constructor]. Qed.
Lemma full_holds_nonneg H : locks_nonneg (full_holds H).
Proof. intros n. apply count_holds_nonneg. Qed.

Lemma sview_lookup lv a n x : a_nodes a !! n = Some x → tv_h (sview lv a) !! n = Some (s_core x).
Proof. intros Hx. simpl. by rewrite lookup_fmap, Hx. Qed.
Lemma sview_lookup_inv lv a n (y : core) : tv_h (sview lv a) !! n = Some y → ∃ x, a_nodes a !! n = Some x ∧ y = s_core x.
Proof. simpl. rewrite lookup_fmap. intros (x & ? & ?)%fmap_Some. eauto. Qed.
Lemma sx_lookup a n x : a_nodes a !! n = Some x → sx a !! n = Some (x_core x) ∧ xt (sx a) n = swa_tombstone x ∧ xl (sx a) n = swa_lock_ref x ∧ xu (sx a) n = swa_uuid x.
Proof. intros Hx. unfold xt, xl, xu, sx. by rewrite lookup_fmap, Hx. Qed.

(** A node of the tree, with its parent. *)
Lemma tree_node lv a G H own n : AInv lv a G H own → n ∈ inner (sview lv a) G →
  ∃ g x p gp px vv, G !! n = Some g ∧ n ≠ a_root a ∧ a_nodes a !! n = Some x ∧ a_nodes a !! p = Some px
    ∧ node_ok (sview lv a) G n g (s_core x) p gp (s_core px) ∧ s_parent x = Some p ∧ s_value x = Some vv ∧ length vv = key_len (s_key x)
    ∧ hval (tv_h (sview lv a)) n = vv ∧ hlen (tv_h (sview lv a)) n = Z.of_nat (key_len (s_key x)).
Proof.
  intros HI [[g Hg] Hn]%elem_of_inner. pose proof (inv_tree _ _ _ (ai_tree _ _ _ _ _ HI)) as Ht.
  destruct (to_node Ht n g) as (x' & p & gp & px' & Hok); [done..|].
  destruct (sview_lookup_inv _ _ _ _ (no_heap Hok)) as (x & Hx & ->). destruct (sview_lookup_inv _ _ _ _ (no_parheap Hok)) as (px & Hpx & ->).
  destruct (no_vals Hok) as (vv & Hvv & Hl & _). pose proof (no_par Hok) as Hp. simpl in Hvv, Hl, Hp.
  exists g, x, p, gp, px, vv. split_and!; try done.
  - unfold hval. rewrite (no_heap Hok). simpl. by rewrite Hvv.
  - unfold hlen. by rewrite (no_heap Hok).
Qed.
Lemma tree_not_new lv a G H own n x : AInv lv a G H own → is_Some (G !! n) → a_nodes a !! n = Some x → x ≠ new_SNode.
Proof.
  intros HI [g Hg] Hx ->. pose proof (tree_values _ _ _ _ _ (inv_tree _ _ _ (ai_tree _ _ _ _ _ HI)) Hg (sview_lookup lv _ _ _ Hx)) as [? Hv]. done.
Qed.
Lemma fresh_node lv a G H own : AInv lv a G H own → a_nodes a !! a_counter a = None ∧ G !! a_counter a = None.
Proof.
  intros HI. pose proof (inv_tree _ _ _ (ai_tree _ _ _ _ _ HI)) as Ht. split; [|exact (tree_fresh _ _ Ht)].
  pose proof (tree_heap_fresh _ _ Ht) as Hf. simpl in Hf. rewrite lookup_fmap in Hf. by apply fmap_None in Hf.
Qed.
Lemma list_has_split (l : list nat) n : n ∈ l → ∃ l1 l2, l = l1 ++ n :: l2.
Proof. apply list_elem_of_split. Qed.
Lemma abs_nodup c a sw : abs c a → NoDup (a_list sw a).
Proof. intros Hab. destruct (ab_list _ _ Hab sw) as [_ [_ [Hnd _]%NoDup_app]%NoDup_cons _ _ _ _]. done. Qed.

(** Taking a node out of a list. *)
Lemma NoDup_mid n (l1 l2 : list nat) : NoDup (l1 ++ n :: l2) → NoDup (l1 ++ l2) ∧ n ∉ l1 ++ l2.
Proof. intros Hnd. rewrite <-(Permutation_middle l1 l2 n) in Hnd. by apply NoDup_cons in Hnd as [? ?]. Qed.
Definition without (n : nat) (l : list nat) : list nat := filter (λ m, m ≠ n) l.
Lemma without_split n l1 l2 : NoDup (l1 ++ n :: l2) → without n (l1 ++ n :: l2) = l1 ++ l2.
Proof.
  intros [_ [Hd [Hn _]%NoDup_cons]]%NoDup_app. unfold without. rewrite filter_app, filter_cons_False by (intros E; done).
  rewrite !filter_full; [done| |]; apply Forall_forall; intros m Hm ->; [done|]. specialize (Hd n Hm). set_solver.
Qed.

(** The list operations of the tree, by their effect. *)
Lemma wp_full_remove c a n x (Q : unit → SWACache A → Prop) :
  abs c a → a_nodes a !! n = Some x → n ∈ a_fl a → (∀ c', abs c' (aset_fl (without n (a_fl a)) a) → Q tt c') → wp (full_lru (remove_node n)) Q c.
Proof.
  intros Hab Hx Hn HQ. destruct (list_has_split _ _ Hn) as (l1 & l2 & E). pose proof (abs_nodup c a false Hab) as Hnd. simpl in Hnd.
  rewrite E in Hnd. rewrite E, without_split in HQ by done. eapply wp_lru_remove; [done|exact E|done|done|done].
Qed.
Lemma wp_full_insert c a n x (Q : unit → SWACache A → Prop) :
  abs c a → a_nodes a !! n = Some x → x ≠ new_SNode → n ∉ a_fl a → (∀ c', abs c' (aset_fl (n :: a_fl a) a) → Q tt c') → wp (full_lru (insert_mru n)) Q c.
Proof. intros Hab Hx Hnew Hn HQ. by eapply wp_lru_insert. Qed.
Lemma wp_swa_remove c a n x (Q : unit → SWACache A → Prop) :
  abs c a → a_nodes a !! n = Some x → swa_tombstone x = false → n ∈ a_sl a → (∀ c', abs c' (aset_sl (without n (a_sl a)) a) → Q tt c') →
  wp (swa_lru (remove_node n)) Q c.
Proof.
  intros Hab Hx Ht Hn HQ. destruct (list_has_split _ _ Hn) as (l1 & l2 & E). pose proof (abs_nodup c a true Hab) as Hnd. simpl in Hnd.
  rewrite E in Hnd. rewrite E, without_split in HQ by done. eapply wp_lru_remove; [done|exact E|done|done|done].
Qed.
Lemma aset_sl_id a : aset_sl (a_sl a) a = a.
Proof. by destruct a. Qed.
Lemma wp_unless_remove c a t n x (Q : unit → SWACache A → Prop) :
  abs c a → a_nodes a !! n = Some x → (t = false → swa_tombstone x = false ∧ n ∈ a_sl a) →
  (∀ c', abs c' (aset_sl (if t then a_sl a else without n (a_sl a)) a) → Q tt c') → wp (swa_lru_unless t (remove_node n)) Q c.
Proof.
  intros Hab Hx Ht HQ. destruct t; simpl; [wp_step; apply HQ; by rewrite aset_sl_id|]. destruct Ht; [done|]. by eapply wp_swa_remove.
Qed.
Lemma wp_unless_insert c a t n x (Q : unit → SWACache A → Prop) :
  abs c a → a_nodes a !! n = Some x → x ≠ new_SNode → (t = false → swa_tombstone x = false ∧ n ∉ a_sl a) →
  (∀ c', abs c' (aset_sl (if t then a_sl a else n :: a_sl a) a) → Q tt c') → wp (swa_lru_unless t (insert_mru n)) Q c.
Proof.
  intros Hab Hx Hnew Ht HQ. destruct t; simpl; [wp_step; apply HQ; by rewrite aset_sl_id|]. destruct Ht as [Ht Hn]; [done|].
  eapply wp_lru_insert; [done|done|done|simpl; by rewrite Ht|done|done].
Qed.
Lemma elem_of_without n q l : q ∈ without n l ↔ q ≠ n ∧ q ∈ l.
Proof. unfold without. by rewrite list_elem_of_filter. Qed.

(** ** _split_node *)
Section split.
Context (n k p m : nat) (x px : SNode) (ck rest_ck : ckey) (pre post : RadixKey) (vv : list Z).

Definition split_top : SNode :=
  MkSNode {[rest_ck := n]} (Some p) pre (Some (take k vv)) (swa_tombstone x) (full_lock_ref x) (swa_lock_ref x) (MkLinks None None) (MkLinks None None) (swa_uuid x).
Definition split_low : SNode :=
  MkSNode (s_children x) (Some m) post (Some (drop k vv)) (swa_tombstone x) (full_lock_ref x) (swa_lock_ref x) (MkLinks None None) (MkLinks None None) None.
Definition asplit a : ACache A :=
  MkA (a_cfg a) (a_root a)
    (<[p := set_s_children <[ck := m]> px]> (<[n := split_low]> (<[m := split_top]> (a_nodes a)))) (S m) (a_uuid a)
    (a_fev a) (a_sev a) (a_fpr a) (a_spr a) (n :: m :: without n (a_fl a))
    (if swa_tombstone x then a_sl a else n :: m :: without n (a_sl a)) (a_alloc a).
End split.

(** What [_split_node] is applied to. *)
Record split_at a G n g p gp (x px : SNode) (ck rest_ck : ckey) (pre post : RadixKey) k vv : Prop := {
  sa_x : a_nodes a !! n = Some x;
  sa_px : a_nodes a !! p = Some px;
  sa_pre : key_prefix (s_key x) k = Ok pre;
  sa_post : key_suffix (s_key x) k = Ok post;
  sa_lens : key_len pre = k ∧ key_len post = key_len (s_key x) - k;
  sa_value : s_value x = Some vv;
  sa_split : ∀ lv, tree_ok (sview lv a) G → split_pre (sview lv a) G n g (s_core x) p gp (s_core px) ck rest_ck pre post k vv;
}.

Lemma split_exists lv a G H own n x k :
  AInv lv a G H own → n ∈ inner (sview lv a) G → a_nodes a !! n = Some x → 0 < k → k < key_len (s_key x) → k `mod` ps = 0 →
  ∃ g p gp px ck rest_ck pre post vv, G !! n = Some g ∧ node_ok (sview lv a) G n g (s_core x) p gp (s_core px)
    ∧ split_at a G n g p gp x px ck rest_ck pre post k vv ∧ split_pre (sview lv a) G n g (s_core x) p gp (s_core px) ck rest_ck pre post k vv.
Proof.
  intros HI Hn Hx Hk0 Hk Hal. destruct (tree_node _ _ _ _ _ _ HI Hn) as (g & x' & p & gp & px & vv & Hg & Hnr & Hx' & Hpx & Hok & Hpar & Hvv & Hlen & _).
  assert (x' = x) as -> by congruence. pose proof (inv_tree _ _ _ (ai_tree _ _ _ _ _ HI)) as Ht. pose proof (ai_ps _ _ _ _ _ HI) as Eps.
  destruct (key_prefix_titer (s_key x) k) as (pre & Hpre & Hpit & Hpmode & _). destruct (key_suffix_titer (s_key x) k) as (post & Hpost & Hsit & Hsmode & _).
  destruct (no_link Hok) as (ck & Hck & Hlink). pose proof (no_aligned Hok) as Hnal. simpl in Hck, Hnal.
  assert (key_len post = key_len (s_key x) - k) as Hlpost by (by rewrite <-titer_length, Hsit, length_drop, titer_length).
  assert (key_len pre = k) as Hlpre by (rewrite <-titer_length, Hpit, length_take, titer_length; lia).
  pose proof (to_ps Ht) as Hps. simpl in Hps. rewrite <-Eps in Hnal, Hps.
  assert (ps ≤ key_len post) as Hpage by (apply (aligned_lt 0); [apply aligned_0|rewrite Hlpost; by auto with py|lia]).
  destruct (child_key_ok post ps) as (rest_ck & Hrest); [done..|].
  assert (split_pre (sview lv a) G n g (s_core x) p gp (s_core px) ck rest_ck pre post k vv) as Hsp.
  { constructor; try done; simpl; by rewrite <-Eps. }
  exists g, p, gp, px, ck, rest_ck, pre, post, vv. split_and!; [done..| |done]. constructor; try done.
  intros lv' Ht'. destruct Hsp. constructor; try done. destruct sp_ok. by constructor.
Qed.

(** The slots of a split node are shared out. *)
Lemma split_slots_ok v X al G own n g (cx : core) p gp (px : core) ck rest_ck pre post k vv t l u :
  split_pre v G n g cx p gp px ck rest_ck pre post k vv → X !! n = Some (MkX t l u) → tv_ps v = ps →
  slots_ok v X al G own →
  slots_ok (split_view v n cx p px ck rest_ck pre post k vv) (<[n := MkX t l None]> (<[tv_next v := MkX t l u]> X)) al
    (<[tv_next v := split_gnode gp cx k vv]> G) own.
Proof.
  intros Hsp HX Eps [Hal Hown Hcount Hfits Hback]. set (v' := split_view _ _ _ _ _ _ _ _ _ _ _). set (X' := <[n := _]> _).
  destruct (RadixSplit.split_facts _ _ _ _ _ _ _ _ _ _ _ _ _ _ Hsp) as (Hnm & Hpm & Hnp & Hrm & Hm & _).
  destruct (split_inner _ _ _ _ _ _ _ _ _ _ _ _ _ _ Hsp) as [Ein Hmin]. fold v' in Ein. pose proof Hsp as [Ht Hlive Hn Hok Hvv _ _ Hka].
  assert (n ∈ inner v G) as Hnin by (apply elem_of_inner; eauto).
  assert (hval (tv_h v) n = vv) as Ev by (unfold hval; rewrite (no_heap Hok); simpl; by rewrite Hvv).
  assert (hval (tv_h v') n = drop k vv ∧ hval (tv_h v') (tv_next v) = take k vv) as [Evn Evm].
  { unfold hval, v'. by rewrite (split_lookup_n _ _ _ _ _ _ _ _ _ _ _ _ _ _ Hsp), (split_lookup_m _ _ _ _ _ _ _ _ _ _ _ _ _ _ Hsp). }
  assert (∀ q, q ≠ tv_next v → q ≠ n → hval (tv_h v') q = hval (tv_h v) q) as Evq.
  { intros q Hq1 Hq2. unfold hval, v'. simpl. rewrite !lookup_insert. pose proof (no_parheap Hok). repeat case_decide; subst; simplify_map_eq; done. }
  rewrite Eps in Hka. destruct (sa_fits_take vv k Hka) as [Hft Hfd]; [rewrite <-Ev; auto|].
  assert (∀ q, q ≠ tv_next v → q ≠ n → xt X' q = xt X q) as Hxq by (intros q ??; unfold xt, X'; by rewrite !lookup_insert_ne).
  assert (xt X n = t ∧ xt X' n = t ∧ xt X' (tv_next v) = t) as (Et & Etn & Etm).
  { unfold xt, X'. rewrite HX, lookup_insert_eq, lookup_insert_ne, lookup_insert_eq by done. done. }
  split; [done..| | |].
  - intros i. unfold v'. by rewrite (split_slots _ _ _ _ _ _ _ _ _ _ _ _ _ _ Hsp).
  - intros q. rewrite Ein, elem_of_union, elem_of_singleton. intros [->|Hq]; [by rewrite Evm|].
    destruct (decide (q = n)) as [->|Hqn]; [by rewrite Evn|]. rewrite Evq; [auto|by intros ->|done].
  - intros q i. rewrite Ein, elem_of_union, elem_of_singleton. intros [->|Hq].
    + rewrite Evm, Etm, <-Et. intros Hi. apply Hback; [done|]. rewrite Ev. by eapply elem_of_submseteq, sublist_submseteq, sublist_take.
    + destruct (decide (q = n)) as [->|Hqn].
      * rewrite Evn, Etn, <-Et. intros Hi. apply Hback; [done|]. rewrite Ev. by eapply elem_of_submseteq, sublist_submseteq, sublist_drop.
      * assert (q ≠ tv_next v) by (by intros ->). rewrite Evq, Hxq by done. by apply Hback.
Qed.

Lemma asplit_views lv a G n g p gp x px ck rest_ck pre post k vv :
  split_at a G n g p gp x px ck rest_ck pre post k vv → split_pre (sview lv a) G n g (s_core x) p gp (s_core px) ck rest_ck pre post k vv →
  let a' := asplit n k p (a_counter a) x px ck rest_ck pre post vv a in
  sview lv a' = split_view (sview lv a) n (s_core x) p (s_core px) ck rest_ck pre post k vv
  ∧ sx a' = <[n := MkX (swa_tombstone x) (swa_lock_ref x) None]> (<[a_counter a := MkX (swa_tombstone x) (swa_lock_ref x) (swa_uuid x)]> (sx a)).
Proof.
  intros [Hx Hpx _ _ _ _ _] Hsp a'. destruct (RadixSplit.split_facts _ _ _ _ _ _ _ _ _ _ _ _ _ _ Hsp) as (Hnm & Hpm & Hnp & _).
  simpl in Hnm, Hpm. split.
  - unfold sview, split_view. simpl. by rewrite !fmap_insert.
  - unfold sx. simpl. rewrite !fmap_insert. rewrite (insert_id _ p); [done|]. rewrite !lookup_insert_ne by done. by rewrite lookup_fmap, Hpx.
Qed.

Lemma asplit_inv lv a G H own n g p gp x px ck rest_ck pre post k vv :
  AInv lv a G H own → n ∈ inner (sview lv a) G →
  split_at a G n g p gp x px ck rest_ck pre post k vv → split_pre (sview lv a) G n g (s_core x) p gp (s_core px) ck rest_ck pre post k vv →
  AInv lv (asplit n k p (a_counter a) x px ck rest_ck pre post vv a) (<[a_counter a := split_gnode gp (s_core x) k vv]> G) H own.
Proof.
  intros HI Hn Hsa Hsp. destruct (asplit_views lv _ _ _ _ _ _ _ _ _ _ _ _ _ _ Hsa Hsp) as [Ev Ex]. set (a' := asplit _ _ _ _ _ _ _ _ _ _ _ _) in *.
  pose proof HI as [Eps Hinv Hswa Hfl Hsl Huc Hslots]. pose proof Hsa as [Hx _ _ _ _ _ _]. destruct (sx_lookup _ _ _ Hx) as (HX & Ext & _).
  destruct (split_inner _ _ _ _ _ _ _ _ _ _ _ _ _ _ Hsp) as [Ein Hmin]. rewrite <-Ev in Ein. change (tv_next (sview lv a)) with (a_counter a) in *.
  destruct (RadixSplit.split_facts _ _ _ _ _ _ _ _ _ _ _ _ _ _ Hsp) as (Hnm & _). simpl in Hnm.
  split; try done.
  - rewrite Ev. by apply (split_Inv _ _ _ _ _ _ _ _ _ _ _ _ _ _ Hsp).
  - rewrite Ev, Ex. by eapply (split_swa_inv _ _ _ _ _ _ _ _ _ _ _ _ _ _ Hsp).
  - intros q. rewrite Ein. unfold a'. simpl. rewrite !elem_of_cons, elem_of_union, elem_of_singleton. unfold without. rewrite list_elem_of_filter, Hfl.
    destruct (decide (q = n)) as [->|]; tauto.
  - intros q. rewrite Ein, Ex, elem_of_union, elem_of_singleton. unfold a'. simpl. unfold xt at 1. rewrite !lookup_insert.
    assert (∀ q, q ∈ inner (sview lv a) G → q ≠ a_counter a) as Hne by (intros ? ? ->; done).
    destruct (swa_tombstone x) eqn:Et.
    + rewrite Hsl. repeat case_decide; subst; simpl; unfold xt in *; rewrite ?Ext; naive_solver.
    + rewrite !elem_of_cons. unfold without. rewrite list_elem_of_filter, Hsl. repeat case_decide; subst; simpl; unfold xt in *; rewrite ?Ext; naive_solver.
  - rewrite Ev, Ex. by eapply split_slots_ok.
Qed.

Lemma wp_swa_split_alloc al lv c a G H own n x k (Q : nat → SWACache A → Prop) :
  abs c (aset_alloc al a) → AInv lv a G H own → n ∈ inner (sview lv a) G → a_nodes a !! n = Some x → 0 < k → k < key_len (s_key x) → k `mod` ps = 0 →
  (∀ c' g p gp px ck rest_ck pre post vv,
    G !! n = Some g → node_ok (sview lv a) G n g (s_core x) p gp (s_core px) → split_at a G n g p gp x px ck rest_ck pre post k vv →
    split_pre (sview lv a) G n g (s_core x) p gp (s_core px) ck rest_ck pre post k vv →
    let a' := asplit n k p (a_counter a) x px ck rest_ck pre post vv a in
    abs c' (aset_alloc al a') → AInv lv a' (<[a_counter a := split_gnode gp (s_core x) k vv]> G) H own → Q (a_counter a) c') →
  wp (swa_split_node (s_key x) n k) Q c.
Proof.
  intros Hab HI Hn Hx Hk0 Hk Hal HQ.
  destruct (split_exists _ _ _ _ _ _ _ _ HI Hn Hx Hk0 Hk Hal) as (g & p & gp & px & ck & rest_ck & pre & post & vv & Hg & Hok & Hsa & Hsp).
  pose proof (asplit_inv _ _ _ _ _ _ _ _ _ _ _ _ _ _ _ _ _ HI Hn Hsa Hsp) as HI'.
  pose proof Hsa as [_ Hpx Hpre Hpost [Hlpre Hlpost] Hvv _]. destruct (fresh_node _ _ _ _ _ HI) as [Hfr HfrG].
  destruct (RadixSplit.split_facts _ _ _ _ _ _ _ _ _ _ _ _ _ _ Hsp) as (Hnm & Hpm & Hnp & _). simpl in Hnm, Hpm.
  pose proof Hsp as [_ _ _ _ _ _ _ _ Hck Hrest _ _ _ _]. simpl in Hck, Hrest.
  pose proof (no_par Hok) as Hpar. simpl in Hpar.
  pose proof (tree_not_new _ _ _ _ _ _ _ HI (ex_intro _ _ Hg) Hx) as Hxn.
  pose proof (tree_not_new _ _ _ _ _ _ _ HI (ex_intro _ _ (no_gpar Hok)) Hpx) as Hpn.
  assert (n ∈ a_fl a) as Hnf by (by apply (ai_fl _ _ _ _ _ HI)).
  assert (swa_tombstone x = false → n ∈ a_sl a) as Hns.
  { intros Et. apply (ai_sl _ _ _ _ _ HI). split; [done|]. destruct (sx_lookup _ _ _ Hx) as (_ & -> & _). done. }
  assert (a_counter a ∉ a_fl a) as Hmf by (rewrite (ai_fl _ _ _ _ _ HI), elem_of_inner, HfrG; intros [[? ?] _]; done).
  assert (a_counter a ∉ a_sl a) as Hms by (rewrite (ai_sl _ _ _ _ _ HI), elem_of_inner, HfrG; intros [[[? ?] _] _]; done).
  unfold swa_split_node. wp_node. rewrite (ab_cfg _ _ Hab). wp_steps.
  rewrite bool_decide_true by lia. wp_steps. unfold value_of, parent_of. rewrite ?Ekey, ?Eval, ?Epar, Hvv, Hpar. wp_steps.
  eapply wp_make_SNode; [done|done|done|]. a_next.
  wp_upd. wp_step. eapply wp_full_remove; [done|a_node|done|]. a_next.
  wp_step. eapply wp_unless_remove; [done|a_node|intros Et; split; [exact Et|by apply Hns]|]. a_next.
  wp_upd. wp_upd. wp_steps. rewrite bool_decide_true by lia. wp_upd. wp_upd.
  wp_step. eapply wp_full_insert; [done|a_node|not_new|cbn [a_fl]; rewrite elem_of_without; tauto|]. a_next.
  wp_step. eapply wp_full_insert; [done|a_node|not_new|cbn [a_fl]; rewrite elem_of_cons, elem_of_without; naive_solver|]. a_next.
  wp_step. eapply wp_unless_insert; [done|a_node|not_new| |].
  { intros Et. split; [done|]. cbn [a_sl]. rewrite Et, elem_of_without. tauto. }
  a_next. wp_step. eapply wp_unless_insert; [done|a_node|not_new| |].
  { intros Et. split; [done|]. cbn [a_sl]. rewrite Et, elem_of_cons, elem_of_without. naive_solver. }
  a_next. wp_step. eapply HQ; [done..| |exact HI']. unfold asplit. match goal with Hab : abs ?c _ |- abs ?c _ => rename Hab into Hfin end.
  assert (set_s_value (drop k vv) (set_s_key post (set_s_parent (Some (a_counter a)) (set_swa_uuid None x))) = split_low k (a_counter a) x post vv) as El.
  { destruct (abs_node _ _ _ _ Hab Hx) as (y' & _ & <-). done. }
  unfold split_top. rewrite <-El. destruct (swa_tombstone x); exact Hfin.
Qed.
Lemma aset_alloc_id a : aset_alloc (a_alloc a) a = a.
Proof. by destruct a. Qed.
Lemma wp_swa_split lv c a G H own n x k (Q : nat → SWACache A → Prop) :
  abs c a → AInv lv a G H own → n ∈ inner (sview lv a) G → a_nodes a !! n = Some x → 0 < k → k < key_len (s_key x) → k `mod` ps = 0 →
  (∀ c' g p gp px ck rest_ck pre post vv,
    G !! n = Some g → node_ok (sview lv a) G n g (s_core x) p gp (s_core px) → split_at a G n g p gp x px ck rest_ck pre post k vv →
    split_pre (sview lv a) G n g (s_core x) p gp (s_core px) ck rest_ck pre post k vv →
    let a' := asplit n k p (a_counter a) x px ck rest_ck pre post vv a in
    abs c' a' → AInv lv a' (<[a_counter a := split_gnode gp (s_core x) k vv]> G) H own → Q (a_counter a) c') →
  wp (swa_split_node (s_key x) n k) Q c.
Proof.
  intros Hab HI Hn Hx Hk0 Hk Hal HQ. rewrite <-(aset_alloc_id a) in Hab. eapply wp_swa_split_alloc; [exact Hab|done..|].
  intros c' g p gp px ck rest_ck pre post vv H1 H2 H3 H4 a' Hab' HI'. eapply HQ; [done..| |done]. exact Hab'.
Qed.
End ops.
