(* ===== verification/SwaNodes.v ===== *)
(** Adding and removing leaves of the sliding-window tree: [_add_new_node],
    [_delete_leaf], [_delete_tombstone_leaf] and [_iteratively_delete_tombstone_leaf]. *)
From S2P Require Import Prelude RadixKey TreeNode EvictPolicy RadixCache RadixInv RadixSplit RadixLeaf RadixLock RadixSpec RadixOps RadixLockOps.
From S2P Require Import SwaLru SwaCache SwaAbs SwaInv SwaOps.
From stdpp Require Import options.

Section nodes.
Context {A : Type} {alloc : SWAAllocator A} {ps : nat} {laws : SWAAllocatorLaws A ps}.
Implicit Types (c : SWACache A) (a : ACache A) (G : gmap nat gnode) (H : list hold) (own : Z → Z) (x y : SNode) (n m p : nat) (lv : gset nat).

(** ** Locks of a path *)

Lemma kid_lock_nonneg v G L p q : Inv v G L → q ∈ dom G → hpar (tv_h v) q = Some p → (0 <= hlock (tv_h v) q)%Z.
Proof.
  intros HI Hq Hpar. apply (inv_locks _ _ _ HI), elem_of_inner. split; [by apply elem_of_dom|]. intros ->.
  destruct (to_root (inv_tree _ _ _ HI)) as (xr & Hxr & Hp' & _). unfold hpar in Hpar. rewrite Hxr in Hpar. simpl in Hpar. congruence.
Qed.
Lemma kids_lock_nonneg v G L n : Inv v G L → (0 <= child_locks (tv_h v) G n)%Z.
Proof. intros HI. apply gsum_nonneg. intros q Hq. case_decide; [by eapply kid_lock_nonneg|done]. Qed.
(** A node is locked at least as often as a node below it. *)
Lemma path_lock_le v G L (a : nat) n : Inv v G L → locks_nonneg L → on_path G (tv_root v) a n = true → (hlock (tv_h v) a <= hlock (tv_h v) n)%Z.
Proof.
  intros HI HL. pose proof (inv_tree _ _ _ HI) as Ht.
  destruct (G !! a) as [ga|] eqn:Ha; [|unfold on_path; rewrite Ha; by destruct (G !! n)].
  revert a ga Ha. apply (tree_ind v G (λ (a : nat) _, on_path G (tv_root v) a n = true → (hlock (tv_h v) a <= hlock (tv_h v) n)%Z) Ht).
  { by rewrite on_path_root. }
  intros a ga x p gp px Ha Hr Hok IH. destruct (on_path_step v G a ga x p gp px n Ht Ha Hr Hok) as [-> _].
  intros [->%bool_decide_eq_true|Hp]%orb_prop; [done|]. etrans; [|by apply IH].
  assert (p ∈ inner v G) as Hpin.
  { apply elem_of_inner. split; [eexists; apply (no_gpar Hok)|]. intros ->. by rewrite on_path_root in Hp. }
  destruct (inv_locks _ _ _ HI) as [Hnn Hsum _]. rewrite (Hsum p Hpin).
  assert (hlock (tv_h v) a <= child_locks (tv_h v) G p)%Z; [|specialize (HL p); lia].
  unfold child_locks. rewrite (gsum_delete _ a) by (by apply elem_of_dom).
  rewrite decide_True by (unfold hpar; rewrite (no_heap Hok); apply (no_par Hok)).
  match goal with |- (_ <= _ + ?s)%Z => assert (0 <= s)%Z; [|lia] end. apply gsum_nonneg. intros q [Hq _]%elem_of_difference.
  case_decide as Hpar; [by eapply kid_lock_nonneg|done].
Qed.
Lemma hold_locked v G H h n : Inv v G (full_holds H) → h ∈ H → on_path G (tv_root v) (h_node h) n = true → (0 < hlock (tv_h v) n)%Z.
Proof.
  intros HI Hh Hon. pose proof (path_lock_le _ _ _ _ _ HI (full_holds_nonneg H) Hon) as Hle.
  assert (0 < hlock (tv_h v) (h_node h))%Z; [|lia]. destruct (inv_locks _ _ _ HI) as [Hnn Hsum _].
  assert (h_node h ∈ inner v G) as Hin.
  { apply elem_of_inner. unfold on_path in Hon. destruct (G !! n) as [gn|] eqn:Hn; [|done]. destruct (G !! h_node h) as [gh|] eqn:Hgh; [|done].
    split; [done|]. intros E. pose proof (on_path_root v G n (inv_tree _ _ _ HI)) as Hr. rewrite <-E in Hr, Hon. unfold on_path in Hr. rewrite Hn, Hgh in Hr.
    rewrite Hr in Hon. done. }
  assert (0 < full_holds H (h_node h))%Z as Hpos by (apply (count_holds_pos _ _ h Hh), bool_decide_eq_true; done).
  rewrite (Hsum _ Hin). pose proof (kids_lock_nonneg _ _ _ (h_node h) HI). lia.
Qed.
(** An unlocked node has no window lock and no holder. *)
Lemma unlocked_free lv a G H own n x : AInv lv a G H own → n ∈ inner (sview lv a) G → a_nodes a !! n = Some x → full_lock_ref x = 0%Z →
  swa_lock_ref x = 0%Z ∧ full_holds H n = 0%Z.
Proof.
  intros HI Hn Hx Hl. pose proof (ai_tree _ _ _ _ _ HI) as Hi. destruct (xi_ok _ _ _ _ _ _ _ (ai_swa _ _ _ _ _ HI)) as [_ Hlock _ _ _ _].
  assert (hlock (tv_h (sview lv a)) n = 0%Z) as Hl0 by (unfold hlock; by rewrite (sview_lookup _ _ _ _ Hx)).
  destruct (sx_lookup _ _ _ Hx) as (_ & _ & <- & _). rewrite Hlock by done. split.
  - unfold swa_holds. destruct (decide (0 < count_holds (λ h, in_window (sview lv a) G h n) H)%Z) as [Hpos|]; [|pose proof (count_holds_nonneg (λ h, in_window (sview lv a) G h n) H); lia].
    apply count_holds_pos_inv in Hpos as (h & Hh & Hw). unfold in_window in Hw. apply andb_prop in Hw as [[_ Hon]%andb_prop _].
    pose proof (hold_locked _ _ _ _ _ Hi Hh Hon). lia.
  - destruct (decide (0 < full_holds H n)%Z) as [Hpos|]; [|pose proof (full_holds_nonneg H n); lia].
    apply count_holds_pos_inv in Hpos as (h & Hh & E%bool_decide_eq_true).
    assert (on_path G (tv_root (sview lv a)) (h_node h) n = true) as Hon by (rewrite E; by apply on_path_refl).
    pose proof (hold_locked _ _ _ _ _ Hi Hh Hon). lia.
Qed.
(** A locked window is not a tombstone. *)
Lemma window_live lv a G H own n x : AInv lv a G H own → n ∈ inner (sview lv a) G → a_nodes a !! n = Some x → swa_tombstone x = true → swa_lock_ref x = 0%Z.
Proof.
  intros HI Hn Hx Ht. destruct (xi_ok _ _ _ _ _ _ _ (ai_swa _ _ _ _ _ HI)) as [Htomb _ _ _ _ _].
  destruct (sx_lookup _ _ _ Hx) as (_ & Et & <- & _). apply Htomb; congruence.
Qed.

(** ** _add_new_node *)
Section add.
Context (p : nat) (px : SNode) (K : RadixKey) (ck : ckey) (vv : list Z) (t : bool).

Definition leaf_snode : SNode := MkSNode ∅ (Some p) K (Some vv) t 0 0 (MkLinks None None) (MkLinks None None) None.
Definition aleaf a : ACache A :=
  let m := a_counter a in
  MkA (a_cfg a) (a_root a) (<[p := set_s_children <[ck := m]> px]> (<[m := leaf_snode]> (a_nodes a))) (S m) (a_uuid a)
    (a_fev a + Z.of_nat (length vv)) (a_sev a + if t then 0 else Z.of_nat (length vv)) (a_fpr a) (a_spr a) (m :: a_fl a)
    (if t then a_sl a else m :: a_sl a) (a_alloc a).

(** The slots of the new node leave the request. *)
Definition own_less own : Z → Z := λ i, (own i - occ i vv)%Z.
Record add_pre a G own (gp : gnode) : Prop := {
  ap_leaf : ∀ lv, leaf_pre (sview lv a) G p gp (s_core px) K ck vv;
  ap_px : a_nodes a !! p = Some px;
  ap_own : ∀ i, (0 <= own_less own i)%Z;
  ap_fits : sa_fits vv;
  ap_back : ∀ i, i ∈ vv → (i ∈ sa_backed (a_alloc a) ↔ t = false);
}.

Lemma leaf_slots_ok lv a G H own gp :
  AInv lv a G H own → add_pre a G own gp →
  slots_ok (leaf_view (sview lv a) p (s_core px) K ck vv) (<[a_counter a := MkX t 0 None]> (sx a)) (a_alloc a) (<[a_counter a := leaf_gnode gp K vv]> G) (own_less own).
Proof.
  intros HI [Hlp' Hpx Hown Hvf Hvb]. specialize (Hlp' lv). pose proof (inv_tree _ _ _ (ai_tree _ _ _ _ _ HI)) as Ht.
  destruct (leaf_inner _ _ _ _ _ _ _ _ Ht Hlp') as (Ein & Hmin & _). change (tv_next (sview lv a)) with (a_counter a) in *.
  destruct (ai_slots _ _ _ _ _ HI) as [Hal Hown0 Hcount Hfits Hback]. set (v' := leaf_view _ _ _ _ _ _) in *.
  assert (hval (tv_h v') (a_counter a) = vv) as Evm.
  { unfold hval. pose proof (leaf_lookup_m _ _ _ _ _ _ _ _ Ht Hlp') as E. unfold v'. change (tv_next (sview lv a)) with (a_counter a) in E. by rewrite E. }
  assert (∀ q, q ∈ inner (sview lv a) G → q ≠ a_counter a) as Hne by (intros q Hq ->; done).
  assert (∀ q, q ∈ inner (sview lv a) G → hval (tv_h v') q = hval (tv_h (sview lv a)) q) as Evq.
  { intros q Hq%Hne. unfold hval, v'. simpl. rewrite !lookup_insert. repeat case_decide; subst; try done. by rewrite lookup_fmap, Hpx. }
  split; [done|done| | |].
  - intros i. unfold v'. rewrite (leaf_slots _ _ _ _ _ _ _ _ Ht Hlp'). rewrite <-Hcount. unfold own_less. lia.
  - intros q. rewrite Ein, elem_of_union, elem_of_singleton. intros [->|Hq]; [by rewrite Evm|]. rewrite Evq by done. auto.
  - intros q i. rewrite Ein, elem_of_union, elem_of_singleton. unfold xt. intros [->|Hq].
    + rewrite Evm, lookup_insert_eq. apply Hvb.
    + rewrite Evq, lookup_insert_ne by (done || by apply not_eq_sym, Hne). by apply Hback.
Qed.

Lemma aleaf_inv lv a G H own gp :
  AInv lv a G H own → add_pre a G own gp →
  AInv ({[a_counter a]} ∪ (lv ∖ {[p]})) (aleaf a) (<[a_counter a := leaf_gnode gp K vv]> G) H (own_less own).
Proof.
  intros HI Hap. pose proof (leaf_slots_ok _ _ _ _ _ _ HI Hap) as Hso. pose proof Hap as [Hlp Hpx _ _ _]. specialize (Hlp lv).
  pose proof (inv_tree _ _ _ (ai_tree _ _ _ _ _ HI)) as Ht. pose proof (lp_vals _ _ _ _ _ _ _ _ Hlp) as Hlen.
  set (lv' := {[a_counter a]} ∪ (lv ∖ {[p]})).
  assert (sview lv' (aleaf a) = leaf_view (sview lv a) p (s_core px) K ck vv) as Ev.
  { unfold sview, leaf_view. simpl. rewrite !fmap_insert, Hlen. done. }
  assert (sx (aleaf a) = <[a_counter a := MkX t 0 None]> (sx a)) as Ex.
  { unfold sx. simpl. rewrite !fmap_insert. rewrite (insert_id _ p); [done|]. destruct (leaf_facts _ _ _ _ _ _ _ _ Ht Hlp) as (Hpm & _).
    rewrite lookup_insert_ne by (by apply not_eq_sym). by rewrite lookup_fmap, Hpx. }
  destruct (leaf_inner _ _ _ _ _ _ _ _ Ht Hlp) as (Ein & Hmin & _). change (tv_next (sview lv a)) with (a_counter a) in *. rewrite <-Ev in Ein.
  assert (∀ q, q ∈ inner (sview lv a) G → q ≠ a_counter a) as Hne by (intros q Hq ->; done).
  destruct HI as [Eps Hinv Hswa Hfl Hsl Huc Hslots]. split; try done.
  - rewrite Ev. by apply leaf_Inv.
  - rewrite Ev, Ex. unfold aleaf. simpl. rewrite Hlen. by apply (leaf_swa_inv _ _ _ _ _ _ _ _ Ht Hlp).
  - intros q. rewrite Ein. simpl. rewrite elem_of_cons, elem_of_union, elem_of_singleton, Hfl. done.
  - intros q. rewrite Ein, Ex, elem_of_union, elem_of_singleton. simpl. unfold xt at 1. rewrite lookup_insert.
    destruct t; [rewrite Hsl|rewrite elem_of_cons, Hsl]; case_decide; subst; unfold xt; simpl; naive_solver.
  - by rewrite Ev, Ex.
Qed.

Lemma wp_add_new_node lv c a G H own gp (Q : nat → SWACache A → Prop) :
  abs c a → AInv lv a G H own → add_pre a G own gp →
  (∀ c', abs c' (aleaf a) → AInv ({[a_counter a]} ∪ (lv ∖ {[p]})) (aleaf a) (<[a_counter a := leaf_gnode gp K vv]> G) H (own_less own) → Q (a_counter a) c') →
  wp (add_new_node p K vv t) Q c.
Proof.
  intros Hab HI Hap HQ. pose proof (aleaf_inv _ _ _ _ _ _ HI Hap) as HI'. pose proof Hap as [Hlp Hpx _ _ _]. specialize (Hlp lv).
  pose proof (inv_tree _ _ _ (ai_tree _ _ _ _ _ HI)) as Ht. destruct (fresh_node _ _ _ _ _ HI) as [Hfr HfrG].
  destruct (leaf_facts _ _ _ _ _ _ _ _ Ht Hlp) as (Hpm & _). simpl in Hpm.
  pose proof (tree_not_new _ _ _ _ _ _ _ HI (ex_intro _ _ (lp_live _ _ _ _ _ _ _ _ Hlp)) Hpx) as Hpn.
  pose proof (lp_ck _ _ _ _ _ _ _ _ Hlp) as Hck. simpl in Hck. rewrite <-(ab_cfg _ _ Hab) in Hck.
  assert (a_counter a ∉ a_fl a) as Hmf by (rewrite (ai_fl _ _ _ _ _ HI), elem_of_inner, HfrG; intros [[? ?] _]; done).
  assert (a_counter a ∉ a_sl a) as Hms by (rewrite (ai_sl _ _ _ _ _ HI), elem_of_inner, HfrG; intros [[[? ?] _] _]; done).
  unfold add_new_node. rewrite bool_decide_true by apply Hlp. wp_steps.
  eapply wp_make_SNode; [done|done|done|]. a_next. wp_upd.
  wp_step. eapply wp_full_insert; [done|a_node|by intros|done|]. a_next. wp_steps.
  match goal with Hab : abs ?c _ |- wp _ _ (add_full _ _ ?c) => apply (abs_add_full _ _ (Z.of_nat (length vv)) 0) in Hab; a_norm_in Hab end.
  eapply wp_unless_insert; [done|a_node|by intros|by intros ->|]. a_next. wp_step.
  destruct t eqn:Et; wp_steps; apply HQ; try done; unfold aleaf, leaf_snode; rewrite !Et.
  - rewrite !Z.add_0_r in *. done.
  - match goal with Hab : abs ?c _ |- abs (add_swa _ _ ?c) _ => apply (abs_add_swa _ _ (Z.of_nat (length vv)) 0) in Hab; a_norm_in Hab end.
    rewrite !Z.add_0_r in *. done.
Qed.
End add.

(** ** Slots *)

Lemma occ_in_pos i l : i ∈ l → (0 < occ i l)%Z.
Proof.
  induction l as [|y l IH]; [by intros ?%elem_of_nil|]. rewrite elem_of_cons, occ_cons. pose proof (occ_nonneg i l).
  intros [->|Hi]; [rewrite decide_True by done; lia|]. specialize (IH Hi). case_decide; lia.
Qed.
Lemma occ_le_NoDup l : (∀ i, (occ i l <= 1)%Z) → NoDup l.
Proof.
  induction l as [|y l IH]; [constructor|]. intros Hle. constructor.
  - intros Hy%occ_in_pos. specialize (Hle y). rewrite occ_cons, decide_True in Hle by done. lia.
  - apply IH. intros i. specialize (Hle i). rewrite occ_cons in Hle. case_decide; lia.
Qed.

(** The slots of a node: each once, in use, and nobody else's. *)
Lemma node_slots v X (al : A) G own n : slots_ok v X al G own → n ∈ inner v G →
  NoDup (hval (tv_h v) n) ∧ ∀ i, i ∈ hval (tv_h v) n → i ∈ sa_used al ∧ own i = 0%Z ∧ slot_count v G i = 1%Z ∧ ∀ q, q ∈ inner v G → q ≠ n → i ∉ hval (tv_h v) q.
Proof.
  intros [Hal Hown Hcount Hfits Hback] Hn.
  assert (∀ i, slot_count v G i = (occ i (hval (tv_h v) n) + gsum (λ q, occ i (hval (tv_h v) q)) (inner v G ∖ {[n]}))%Z) as E.
  { intros i. unfold slot_count. by rewrite (gsum_delete _ n). }
  assert (∀ i, (0 <= gsum (λ q, occ i (hval (tv_h v) q)) (inner v G ∖ {[n]}))%Z) as Hnn by (intros i; apply gsum_nonneg; intros; apply occ_nonneg).
  split.
  - apply occ_le_NoDup. intros i. specialize (Hcount i). rewrite E in Hcount. specialize (Hnn i). specialize (Hown i). case_decide; lia.
  - intros i Hi%occ_in_pos. specialize (Hcount i). rewrite E in Hcount. specialize (Hnn i). specialize (Hown i).
    case_decide as Hu; [|lia]. split_and!; [done|lia|rewrite E; lia|]. intros q Hq Hqn Hiq%occ_in_pos.
    rewrite (gsum_delete _ q) in Hcount by set_solver.
    assert (0 <= gsum (λ q, occ i (hval (tv_h v) q)) (inner v G ∖ {[n]} ∖ {[q]}))%Z by (apply gsum_nonneg; intros; apply occ_nonneg). lia.
Qed.

(** Freeing slots of a node does not touch what requests own. *)
Definition own_backed (own : Z → Z) a a' : Prop := ∀ i, (1 <= own i)%Z → (i ∈ sa_backed (a_alloc a') ↔ i ∈ sa_backed (a_alloc a)).
Lemma own_backed_refl own a : own_backed own a a.
Proof. done. Qed.
Lemma own_backed_trans own a1 a2 a3 : own_backed own a1 a2 → own_backed own a2 a3 → own_backed own a1 a3.
Proof. intros H1 H2 i Hi. by rewrite (H2 i Hi), (H1 i Hi). Qed.
Lemma free_node_backed v X (al al' : A) G own n i : slots_ok v X al G own → n ∈ inner v G → sa_free (hval (tv_h v) n) al = Ok al' → (1 <= own i)%Z → i ∈ sa_backed al' ↔ i ∈ sa_backed al.
Proof.
  intros Hsl Hn Hfr Hi. destruct (node_slots _ _ _ _ _ _ Hsl Hn) as [Hnd Hno]. pose proof Hsl as [Hok _ _ Hfits _].
  destruct (sa_free_ok al (hval (tv_h v) n) Hok Hnd) as (al2 & E & _ & _ & Eb); [auto|intros j Hj; by apply Hno|]. assert (al2 = al') as -> by congruence.
  rewrite Eb, elem_of_difference, elem_of_list_to_set. enough (i ∉ hval (tv_h v) n) by tauto. intros Hv. destruct (Hno i Hv) as (_ & E0 & _). lia.
Qed.
Lemma free_swa_node_backed v X (al al' : A) G own n i : slots_ok v X al G own → n ∈ inner v G → xt X n = false → sa_free_swa (hval (tv_h v) n) al = Ok al' → (1 <= own i)%Z →
  i ∈ sa_backed al' ↔ i ∈ sa_backed al.
Proof.
  intros Hsl Hn Ht Hfr Hi. destruct (node_slots _ _ _ _ _ _ Hsl Hn) as [Hnd Hno]. pose proof Hsl as [Hok _ _ Hfits Hback].
  destruct (sa_free_swa_ok al (hval (tv_h v) n) Hok Hnd) as (al2 & E & _ & _ & Eb); [auto|intros j Hj; by apply (Hback n)|]. assert (al2 = al') as -> by congruence.
  rewrite Eb, elem_of_difference, elem_of_list_to_set. enough (i ∉ hval (tv_h v) n) by tauto. intros Hv. destruct (Hno i Hv) as (_ & E0 & _). lia.
Qed.

(** ** Deleting a leaf *)
Section del.
Context (n : nat) (x : SNode) (p : nat) (px : SNode) (ck : ckey) (al : A).

Definition adel a : ACache A :=
  MkA (a_cfg a) (a_root a) (<[p := set_s_children (delete ck) px]> (a_nodes a)) (a_counter a) (a_uuid a)
    (a_fev a - Z.of_nat (key_len (s_key x))) (a_sev a - if swa_tombstone x then 0 else Z.of_nat (key_len (s_key x))) (a_fpr a) (a_spr a)
    (without n (a_fl a)) (if swa_tombstone x then a_sl a else without n (a_sl a)) al.

Record del_at a G (g gp : gnode) (vv : list Z) : Prop := {
  da_x : a_nodes a !! n = Some x;
  da_px : a_nodes a !! p = Some px;
  da_del : ∀ lv, del_pre (sview lv a) G n g (s_core x) p gp (s_core px) ck;
  da_value : s_value x = Some vv;
  da_free : sa_free vv (a_alloc a) = Ok al;
}.

Lemma adel_inv lv a G H own g gp vv :
  AInv lv a G H own → del_at a G g gp vv →
  let lv' := tv_leaves (del_view (sview lv a) n (s_core x) p (s_core px) ck) in
  AInv lv' (adel a) (delete n G) H own.
Proof.
  intros HI [Hx Hpx Hdp Hvv Hfree] lv'. specialize (Hdp lv). pose proof (inv_tree _ _ _ (ai_tree _ _ _ _ _ HI)) as Ht.
  pose proof Hdp as [Hlive Hnr Hok Hck Hkids Hlock]. simpl in Hkids, Hlock.
  assert (n ∈ inner (sview lv a) G) as Hn by (apply elem_of_inner; eauto).
  destruct (unlocked_free _ _ _ _ _ _ _ HI Hn Hx Hlock) as [Hsl0 Hfh].
  assert (sview lv' (adel a) = del_view (sview lv a) n (s_core x) p (s_core px) ck) as Ev.
  { unfold sview, del_view. simpl. by rewrite fmap_insert. }
  assert (sx (adel a) = sx a) as Ex.
  { unfold sx. simpl. rewrite fmap_insert, insert_id; [done|]. by rewrite lookup_fmap, Hpx. }
  destruct (sx_lookup _ _ _ Hx) as (HX & Et & _). unfold x_core in HX. rewrite Hsl0 in HX.
  destruct (del_inner _ _ _ _ _ _ _ _ _ Ht Hdp) as [Ein Hnin]. rewrite <-Ev in Ein, Hnin.
  destruct HI as [Eps Hinv Hswa Hfl Hsl Huc Hslots]. split; try done.
  - rewrite Ev. by apply (del_Inv _ _ _ _ _ _ _ _ _ Ht Hdp).
  - rewrite Ev, Ex. unfold adel. simpl. by eapply (del_swa_inv _ _ _ _ _ _ _ _ _ Ht Hdp).
  - intros q. simpl. rewrite elem_of_without, Hfl, Ein. set_solver.
  - intros q. rewrite Ex. simpl. destruct (swa_tombstone x).
    + rewrite Hsl, Ein. split; [|set_solver]. intros [Hq Hqt]. split; [|done]. assert (q ≠ n) by (intros ->; congruence). set_solver.
    + rewrite elem_of_without, Hsl, Ein. set_solver.
  - rewrite Ev, Ex. destruct (node_slots _ _ _ _ _ _ Hslots Hn) as [Hnd Hi]. rewrite Ev in Ein, Hnin. clear Ev. destruct Hslots as [Hal Hown Hcount Hfits Hback].
    assert (hval (tv_h (sview lv a)) n = vv) as Eval by (unfold hval; rewrite (sview_lookup _ _ _ _ Hx); simpl; by rewrite Hvv).
    destruct (sa_free_ok (a_alloc a) vv) as (al' & Hal' & Hok' & Eu & Eb); [done|by rewrite <-Eval|rewrite <-Eval; auto| |].
    { intros i Hiv. apply Hi. by rewrite Eval. }
    assert (al' = al) as -> by congruence.
    assert (∀ q, hval (tv_h (del_view (sview lv a) n (s_core x) p (s_core px) ck)) q = hval (tv_h (sview lv a)) q) as Evq.
    { intros q. unfold hval. simpl. rewrite lookup_insert. case_decide; [|done]. subst q. by rewrite lookup_fmap, Hpx. }
    split; [done|done| | |].
    + intros i. specialize (Hcount i). rewrite (del_slots _ _ _ _ _ _ _ _ _ Ht Hdp i) in Hcount. simpl a_alloc. rewrite Eu.
      rewrite Eval, (occ_NoDup i vv) in Hcount by (by rewrite <-Eval).
      destruct (decide (i ∈ vv)) as [Hiv|Hiv].
      * rewrite (decide_False (P := i ∈ _ ∖ _)) by set_solver.
        destruct (Hi i) as (Hu & Ho & _); [by rewrite Eval|]. rewrite decide_True in Hcount by done. lia.
      * rewrite (decide_ext _ (i ∈ sa_used (a_alloc a))); [lia|]. set_solver.
    + intros q Hq. rewrite Evq. apply Hfits. set_solver.
    + intros q i Hq. rewrite Evq. simpl a_alloc. rewrite Eb. intros Hiq. assert (q ∈ inner (sview lv a) G) as Hq' by set_solver.
      rewrite <-(Hback q i Hq' Hiq), elem_of_difference, elem_of_list_to_set. split; [tauto|]. intros; split; [done|]. intros Hiv.
      destruct (Hi i) as (_ & _ & _ & Hother); [by rewrite Eval|]. apply (Hother q Hq'); [by intros ->|done].
Qed.
Lemma adel_backed lv a G H own g gp vv : AInv lv a G H own → del_at a G g gp vv → own_backed own a (adel a).
Proof.
  intros HI [Hx Hpx Hdp Hvv Hfree] i Hi. destruct (Hdp lv) as [Hlive Hnr _ _ _ _]. assert (n ∈ inner (sview lv a) G) as Hin by (apply elem_of_inner; eauto).
  eapply (free_node_backed (sview lv a)); [apply (ai_slots _ _ _ _ _ HI)|exact Hin| |exact Hi]. unfold hval. rewrite (sview_lookup _ _ _ _ Hx). simpl. by rewrite Hvv.
Qed.
End del.

(** *** The deletions of the code *)
Lemma del_exists lv a G H own n x :
  AInv lv a G H own → n ∈ inner (sview lv a) G → a_nodes a !! n = Some x → s_children x = ∅ → full_lock_ref x = 0%Z →
  ∃ g p gp px ck vv al, s_parent x = Some p ∧ G !! n = Some g ∧ G !! p = Some gp ∧ del_at n x p px ck al a G g gp vv
    ∧ s_children px !! ck = Some n ∧ length vv = key_len (s_key x) ∧ n ≠ p.
Proof.
  intros HI Hn Hx Hkids Hlock. destruct (tree_node _ _ _ _ _ _ HI Hn) as (g & x' & p & gp & px & vv & Hg & Hnr & Hx' & Hpx & Hok & Hpar & Hvv & Hlen & Hval & _).
  assert (x' = x) as -> by congruence. destruct (no_link Hok) as (ck & Hck & Hlink). simpl in Hck, Hlink.
  destruct (node_slots _ _ _ _ _ _ (ai_slots _ _ _ _ _ HI) Hn) as [Hnd Hi]. rewrite Hval in Hnd, Hi.
  destruct (sa_free_ok (a_alloc a) vv) as (al & Hal & _); [apply (ai_slots _ _ _ _ _ HI)|done| |intros i Hiv; by apply Hi|].
  { rewrite <-Hval. by apply (ai_slots _ _ _ _ _ HI). }
  exists g, p, gp, px, ck, vv, al. split_and!; try done; [apply (no_gpar Hok)| |by eapply node_ok_ne].
  split; try done. intros lv'. split; try done. destruct Hok. by constructor.
Qed.

Lemma wp_free c a l al (Q : unit → SWACache A → Prop) :
  abs c a → sa_free l (a_alloc a) = Ok al → (∀ c', abs c' (aset_alloc al a) → Q tt c') → wp (free l) Q c.
Proof.
  intros Hab Hf HQ. unfold free. wp_steps. rewrite (ab_alloc _ _ Hab), Hf. wp_steps. apply HQ. by apply abs_set_alloc.
Qed.
Lemma wp_free_swa c a l al (Q : unit → SWACache A → Prop) :
  abs c a → sa_free_swa l (a_alloc a) = Ok al → (∀ c', abs c' (aset_alloc al a) → Q tt c') → wp (free_swa l) Q c.
Proof.
  intros Hab Hf HQ. unfold free_swa. wp_steps. rewrite (ab_alloc _ _ Hab), Hf. wp_steps. apply HQ. by apply abs_set_alloc.
Qed.

Lemma wp_pop_child c a n x y p px ck (Q : unit → SWACache A → Prop) :
  abs c a → a_nodes a !! p = Some px → px ≠ new_SNode → plain y = x → s_children x = ∅ → s_parent x = Some p →
  child_key (s_key x) (sw_page_size (a_cfg a)) = Ok ck → s_children px !! ck = Some n →
  (∀ c', abs c' (aset_nodes (<[p := set_s_children (delete ck) px]> (a_nodes a)) a) → Q tt c') → wp (pop_child n y) Q c.
Proof.
  intros Hab Hpx Hnew Ey Hkids Hpar Hck Hlink HQ. destruct (plain_fields _ _ Ey) as (Ek & Ep & Eky & _).
  unfold pop_child, parent_of. rewrite Ek, Ep, Eky, Hkids, Hpar. rewrite bool_decide_true by done. wp_steps. rewrite (ab_cfg _ _ Hab). wp_steps.
  wp_node. wp_upd. rewrite bool_decide_true by done. wp_step. by apply HQ.
Qed.

(** The node is out of the lists and its slots are free: it is cut off. *)
Lemma wp_swa_delete_leaf c lv a a0 G H own n x p px ck al g gp vv (Q : unit → SWACache A → Prop) :
  AInv lv a G H own → del_at n x p px ck al a G g gp vv → s_parent x = Some p → s_children px !! ck = Some n →
  a0 = aset_alloc al (aset_sl (if swa_tombstone x then a_sl a else without n (a_sl a)) (aset_fl (without n (a_fl a)) a)) →
  abs c a0 → (∀ c', abs c' (adel n x p px ck al a) → Q tt c') → wp (swa_delete_leaf n) Q c.
Proof.
  intros HI [Hx Hpx Hdp Hvv Hfree] Hpar Hlink -> Hab HQ. specialize (Hdp lv). destruct Hdp as [Hlive Hnr Hok Hck Hkids Hlock]. simpl in Hkids, Hck.
  pose proof (tree_not_new _ _ _ _ _ _ _ HI (ex_intro _ _ (no_gpar Hok)) Hpx) as Hpn.
  unfold swa_delete_leaf. wp_step. eapply wp_get_snode; [done|exact Hx|]. intros y Ey. destruct (plain_fields _ _ Ey) as (_ & _ & Eky & _ & Et & _). rewrite Eky, Et.
  wp_step. eapply wp_pop_child; [done|exact Hpx|done|exact Ey|done|done|exact Hck|done|]. intros c1 Hab1. wp_steps.
  apply (abs_add_full _ _ (- Z.of_nat (key_len (s_key x))) 0) in Hab1. destruct (swa_tombstone x) eqn:Etx; wp_steps; apply HQ; unfold adel; rewrite Etx.
  - a_norm_in Hab1. rewrite !Z.add_0_r in Hab1. by rewrite Z.sub_0_r.
  - apply (abs_add_swa _ _ (- Z.of_nat (key_len (s_key x))) 0) in Hab1. a_norm_in Hab1. by rewrite !Z.add_0_r in Hab1.
Qed.
Lemma wp_delete_tombstone_leaf c lv a a0 G H own n x p px ck al g gp vv (Q : unit → SWACache A → Prop) :
  AInv lv a G H own → del_at n x p px ck al a G g gp vv → s_parent x = Some p → s_children px !! ck = Some n → swa_tombstone x = true →
  a0 = aset_alloc al (aset_fl (without n (a_fl a)) a) →
  abs c a0 → (∀ c', abs c' (adel n x p px ck al a) → Q tt c') → wp (delete_tombstone_leaf n) Q c.
Proof.
  intros HI [Hx Hpx Hdp Hvv Hfree] Hpar Hlink Ht -> Hab HQ. specialize (Hdp lv). destruct Hdp as [Hlive Hnr Hok Hck Hkids Hlock]. simpl in Hkids, Hck.
  pose proof (tree_not_new _ _ _ _ _ _ _ HI (ex_intro _ _ (no_gpar Hok)) Hpx) as Hpn.
  unfold delete_tombstone_leaf. wp_step. eapply wp_get_snode; [done|exact Hx|]. intros y Ey. destruct (plain_fields _ _ Ey) as (_ & _ & Eky & _ & Et & _). rewrite Eky, Et, Ht.
  wp_steps. eapply wp_pop_child; [done|exact Hpx|done|exact Ey|done|done|exact Hck|done|]. intros c1 Hab1. wp_steps.
  apply (abs_add_full _ _ (- Z.of_nat (key_len (s_key x))) 0) in Hab1. apply HQ. unfold adel. rewrite Ht. a_norm_in Hab1. rewrite !Z.add_0_r in Hab1. by rewrite Z.sub_0_r.
Qed.
End nodes.
