(* ===== verification/SwaEvict.v ===== *)
(** Eviction from the sliding-window tree: [_iteratively_delete_tombstone_leaf] and [evict]. *)
From S2P Require Import Prelude RadixKey TreeNode EvictPolicy RadixCache RadixInv RadixSplit RadixLeaf RadixLock RadixSpec RadixOps RadixLockOps RadixEvict.
From S2P Require Import SwaLru SwaCache SwaAbs SwaInv SwaOps SwaNodes.
From stdpp Require Import options.

(** What eviction leaves of a node: children may go and the window may be given up, unless it is locked. *)
Record kept (x x' : SNode) : Prop := {
  kp_kids : s_children x' ⊆ s_children x;
  kp_parent : s_parent x' = s_parent x;
  kp_key : s_key x' = s_key x;
  kp_value : s_value x' = s_value x;
  kp_full : full_lock_ref x' = full_lock_ref x;
  kp_swa : swa_lock_ref x' = swa_lock_ref x;
  kp_uuid : swa_uuid x' = swa_uuid x;
  kp_tomb : swa_tombstone x = true → swa_tombstone x' = true;
  kp_window : (0 < swa_lock_ref x)%Z → swa_tombstone x' = swa_tombstone x;
}.
#[global] Instance kept_refl : Reflexive kept.
Proof. intros x. by split. Qed.
#[global] Instance kept_trans : Transitive kept.
Proof.
  intros x y z [] []. split; try congruence.
  - by etrans.
  - auto.
  - intros Hl. rewrite kp_window1 by (rewrite kp_swa0; lia). auto.
Qed.

Section evict.
Context {A : Type} {alloc : SWAAllocator A} {ps : nat} {laws : SWAAllocatorLaws A ps}.
Implicit Types (c : SWACache A) (a : ACache A) (G : gmap nat gnode) (H : list hold) (own : Z → Z) (x y : SNode) (n m p q : nat) (lv : gset nat).

(** The tree after an eviction: some unlocked nodes are gone. *)
Record shrinks a G a' G' : Prop := {
  sh_cfg : a_cfg a' = a_cfg a;
  sh_root : a_root a' = a_root a;
  sh_counter : a_counter a' = a_counter a;
  sh_uuid : a_uuid a' = a_uuid a;
  sh_fpr : a_fpr a' = a_fpr a;
  sh_spr : a_spr a' = a_spr a;
  sh_sub : G' ⊆ G;
  sh_gone : ∀ q x, q ∈ dom G → q ∉ dom G' → a_nodes a !! q = Some x → full_lock_ref x = 0%Z;
  sh_node : ∀ q x, a_nodes a !! q = Some x → ∃ x', a_nodes a' !! q = Some x' ∧ kept x x';
  sh_fl : sublist (a_fl a') (a_fl a);
  sh_sl : sublist (a_sl a') (a_sl a);
}.
Lemma shrinks_refl a G : shrinks a G a G.
Proof. split; try done. intros q x Hx. by exists x. Qed.
Lemma shrinks_trans a1 G1 a2 G2 a3 G3 : shrinks a1 G1 a2 G2 → shrinks a2 G2 a3 G3 → shrinks a1 G1 a3 G3.
Proof.
  intros [E1 E2 E3 E4 E5 E6 Hs Hg Hn Hf Hl] [E1' E2' E3' E4' E5' E6' Hs' Hg' Hn' Hf' Hl']. split; try congruence.
  - by etrans.
  - intros q x Hq Hq3 Hx. destruct (decide (q ∈ dom G2)) as [Hq2|Hq2]; [|eauto]. destruct (Hn q x Hx) as (x' & Hx' & Hk).
    rewrite <-(kp_full _ _ Hk). eauto.
  - intros q x Hx. destruct (Hn q x Hx) as (x' & Hx' & Hk). destruct (Hn' q x' Hx') as (x'' & Hx'' & Hk'). exists x''. split; [done|by etrans].
  - by etrans.
  - by etrans.
Qed.

Lemma adel_shrinks lv a G H own n x p px ck al g gp vv :
  AInv lv a G H own → del_at n x p px ck al a G g gp vv → shrinks a G (adel n x p px ck al a) (delete n G).
Proof.
  intros HI [Hx Hpx Hdp Hvv Hfree]. specialize (Hdp lv). destruct Hdp as [Hlive Hnr Hok Hck Hkids Hlock]. simpl in Hlock. split; try done; simpl.
  - apply delete_subseteq.
  - intros q y Hq Hq' Hy. destruct (decide (q = n)) as [->|]; [congruence|]. destruct Hq'. apply elem_of_dom. apply elem_of_dom in Hq. by rewrite lookup_delete_ne.
  - intros q y Hy. rewrite lookup_insert. case_decide; [|by exists y]. subst q. assert (y = px) as -> by congruence. eexists. split; [done|].
    split; try done; simpl. apply delete_subseteq.
  - apply sublist_filter.
  - destruct (swa_tombstone x); [done|apply sublist_filter].
Qed.

(** The tombstones above a deleted leaf are gone too, up to [p']. *)
Record pruned own a G a' G' p p' (d : Z) : Prop := {
  pr_shrinks : shrinks a G a' G';
  pr_fev : a_fev a' = (a_fev a - d)%Z;
  pr_sev : a_sev a' = a_sev a;
  pr_sl : a_sl a' = a_sl a;
  pr_fl : a_fl a' = filter (λ q, q ∈ dom G') (a_fl a);
  pr_num : (0 <= d)%Z;
  pr_live : p' ∈ dom G';
  pr_end : p' = p ∨ p ∉ dom G';
  pr_inner : ∀ q, q ∈ dom G → q ∉ dom G' → q = p ∨ ∃ x, a_nodes a !! q = Some x ∧ s_children x ≠ ∅;
  pr_same : ∀ q, q ∈ dom G' → q ≠ p' → a_nodes a' !! q = a_nodes a !! q;
  pr_back : own_backed own a a';
}.

Lemma inner_dom lv a G q : q ∈ inner (sview lv a) G → q ∈ dom G.
Proof. intros [[g Hg] _]%elem_of_inner. by apply elem_of_dom. Qed.
Lemma pruned_refl lv a G H own p gp : AInv lv a G H own → G !! p = Some gp → pruned own a G a G p p 0.
Proof.
  intros HI Hp. split; try done; [apply shrinks_refl|lia| |apply elem_of_dom; eauto|by left].
  symmetry. apply filter_full. apply Forall_forall. intros q Hq. apply (ai_fl _ _ _ _ _ HI) in Hq. by eapply inner_dom.
Qed.
(** One tombstone more. *)
Lemma pruned_step lv lv2 a G H own n x p px ck al g gp vv a' G' p' d :
  AInv lv a G H own → del_at n x p px ck al a G g gp vv → n ≠ p → s_children px !! ck = Some n → swa_tombstone x = true →
  AInv lv2 a' G' H own → pruned own (adel n x p px ck al a) (delete n G) a' G' p p' d → pruned own a G a' G' n p' (d + Z.of_nat (key_len (s_key x))).
Proof.
  intros HI Hda Hnp Hlink Ht HI2 [Hsh Hfev Hsev Hsl Hfl Hnum Hlive Hend Hinner Hsame Hbk]. pose proof (adel_shrinks _ _ _ _ _ _ _ _ _ _ _ _ _ _ HI Hda) as Hsh1.
  assert (n ∉ dom G') as Hn.
  { intros [gn Hgn]%elem_of_dom. pose proof (lookup_weaken _ _ _ _ Hgn (sh_sub _ _ _ _ Hsh)) as E. by rewrite lookup_delete_eq in E. }
  unfold adel in Hfev, Hsev, Hsl, Hfl. rewrite Ht in Hsev, Hsl. simpl in *. split; try done.
  - by eapply shrinks_trans.
  - lia.
  - lia.
  - rewrite Hfl. unfold without. rewrite list_filter_filter. apply list_filter_iff. intros q. split; [tauto|]. intros Hq. assert (q ≠ n) by (by intros ->). tauto.
  - lia.
  - by right.
  - intros q Hq Hq'. destruct (decide (q = n)) as [->|Hqn]; [by left|right]. destruct (Hinner q) as [->|(y & Hy & Hk)]; [|done| |].
    + apply elem_of_dom. apply elem_of_dom in Hq. by rewrite lookup_delete_ne.
    + exists px. split; [apply Hda|]. by intros E; rewrite E in Hlink.
    + rewrite lookup_insert in Hy. case_decide; [|by exists y]. subst q. exists px. split; [apply Hda|]. by intros E; rewrite E in Hlink.
  - intros q Hq Hqp. rewrite Hsame by done. rewrite lookup_insert_ne; [done|]. intros <-. destruct Hend as [->|]; done.
  - eapply own_backed_trans; [by eapply adel_backed|exact Hbk].
Qed.

Lemma wp_delete_tombstones fuel c lv a G H own n x p gp num (Q : nat * Z → SWACache A → Prop) :
  abs c a → AInv lv a G H own → a_nodes a !! n = Some x → s_parent x = Some p → G !! p = Some gp → size G < fuel →
  (∀ c' lv' a' G' n' x' p' d, abs c' a' → AInv lv' a' G' H own → pruned own a G a' G' p p' d →
    a_nodes a' !! n' = Some x' → s_parent x' = Some p' → Q (n', num + d)%Z c') →
  wp (delete_tombstones fuel n num) Q c.
Proof.
  revert c lv a G n x p gp num. induction fuel as [|fuel IH]; [lia|]. intros c lv a G n x p gp num Hab HI Hx Hpar Hp Hfuel HQ. simpl.
  destruct (tree_live _ _ _ _ (inv_tree _ _ _ (ai_tree _ _ _ _ _ HI)) Hp) as [cx Hcx]. destruct (sview_lookup_inv _ _ _ _ Hcx) as (px & Hpx & ->).
  wp_step. eapply wp_get_snode; [done|exact Hx|]. intros y Ey. destruct (plain_fields _ _ Ey) as (_ & Epar & _). unfold parent_of. rewrite Epar, Hpar.
  wp_steps. eapply wp_get_snode; [done|exact Hpx|]. intros yp Eyp. destruct (plain_fields _ _ Eyp) as (Ekids & _ & _ & Eval & Etomb & Efl & Esl & _).
  wp_steps. rewrite Etomb, Ekids, Efl, Esl, (ab_root _ _ Hab). unfold value_of. rewrite Eval.
  destruct (swa_tombstone px && bool_decide (s_children px = ∅) && bool_decide (p ≠ a_root a) && bool_decide (full_lock_ref px <= 0)%Z) eqn:Hb.
  2: { wp_step. replace num with (num + 0)%Z by lia. eapply HQ; [done|done|by eapply pruned_refl|done|done]. }
  apply andb_prop in Hb as [[[Ht Hk%bool_decide_eq_true]%andb_prop Hr%bool_decide_eq_true]%andb_prop Hl%bool_decide_eq_true].
  assert (p ∈ inner (sview lv a) G) as Hpin by (apply elem_of_inner; eauto).
  assert (full_lock_ref px = 0%Z) as Hl0.
  { pose proof (lo_nonneg _ _ _ (inv_locks _ _ _ (ai_tree _ _ _ _ _ HI)) p Hpin) as Hnn. unfold hlock in Hnn. rewrite Hcx in Hnn. simpl in Hnn. lia. }
  destruct (unlocked_free _ _ _ _ _ _ _ HI Hpin Hpx Hl0) as [Hs0 _].
  destruct (del_exists _ _ _ _ _ _ _ HI Hpin Hpx Hk Hl0) as (g & pp & gpp & ppx & ck & vv & al & Hppar & Hg & Hgpp & Hda & Hlink & Hlen & Hne).
  rewrite bool_decide_true by done. rewrite (da_value _ _ _ _ _ _ _ _ _ _ _ Hda). wp_steps.
  eapply wp_free; [done|apply Hda|]. a_next. wp_step. eapply wp_full_remove; [done|exact Hpx|by apply (ai_fl _ _ _ _ _ HI)|]. a_next.
  wp_step. eapply wp_delete_tombstone_leaf; [exact HI|exact Hda|done|done|done|reflexivity|done|]. intros c3 Hab3.
  pose proof (adel_inv _ _ _ _ _ _ _ _ _ _ _ _ _ _ HI Hda) as HI3.
  eapply (IH _ _ _ _ p px pp gpp); [exact Hab3|exact HI3| |done|by rewrite lookup_delete_ne| |].
  - simpl. by rewrite lookup_insert_ne.
  - rewrite map_size_delete, Hg. simpl. assert (size G ≠ 0); [|lia]. apply map_size_non_empty_iff. intros ->. done.
  - intros c' lv' a' G' n' x' p' d Hab' HI' Hpr Hn' Hpar'. replace (num + Z.of_nat (length vv) + d)%Z with (num + (d + Z.of_nat (key_len (s_key px))))%Z by (rewrite Hlen; lia).
    eapply HQ; [done|done| |done|done]. eapply pruned_step; [exact HI|exact Hda|done|done|done|exact HI'|done].
Qed.

Lemma tree_size lv a G H own : AInv lv a G H own → size G ≤ size (a_nodes a).
Proof.
  intros HI. rewrite <-!size_dom. apply subseteq_size. intros n [g Hg]%elem_of_dom.
  destruct (tree_live _ _ _ _ (inv_tree _ _ _ (ai_tree _ _ _ _ _ HI)) Hg) as [cx Hcx]. destruct (sview_lookup_inv _ _ _ _ Hcx) as (x & Hx & _).
  apply elem_of_dom. eauto.
Qed.
Lemma wp_iteratively_delete c lv a G H own n x p gp (Q : nat * Z → SWACache A → Prop) :
  abs c a → AInv lv a G H own → a_nodes a !! n = Some x → s_parent x = Some p → G !! p = Some gp →
  (∀ c' lv' a' G' n' x' p' d, abs c' a' → AInv lv' a' G' H own → pruned own a G a' G' p p' d →
    a_nodes a' !! n' = Some x' → s_parent x' = Some p' → Q (n', d) c') →
  wp (iteratively_delete_tombstone_leaf n) Q c.
Proof.
  intros Hab HI Hx Hpar Hp HQ. unfold iteratively_delete_tombstone_leaf. wp_steps. rewrite (abs_size _ _ Hab).
  eapply wp_delete_tombstones; [done|done|exact Hx|done|done|pose proof (tree_size _ _ _ _ _ HI); lia|done].
Qed.

(** The unlocked leaf used longest ago, and the unlocked window used longest ago. *)
Definition lru_leaf a : option nat := last_kept (locked_or_inner false) (a_nodes a) (a_fl a).
Definition lru_window a : option nat := last_kept (locked_node true) (a_nodes a) (a_sl a).

Lemma lru_leaf_spec lv a G H own n : AInv lv a G H own → lru_leaf a = Some n →
  n ∈ inner (sview lv a) G ∧ ∃ x l1 l2, a_nodes a !! n = Some x ∧ s_children x = ∅ ∧ full_lock_ref x = 0%Z ∧ a_fl a = l1 ++ n :: l2
    ∧ Forall (λ q, skipped (locked_or_inner false) (a_nodes a) q = true) l2.
Proof.
  intros HI (l1 & l2 & El & Hsk & Hl2)%last_kept_spec.
  assert (n ∈ inner (sview lv a) G) as Hn by (apply (ai_fl _ _ _ _ _ HI); rewrite El, elem_of_app, elem_of_cons; auto).
  split; [done|]. destruct (tree_node _ _ _ _ _ _ HI Hn) as (g & x & p & gp & px & vv & Hg & Hnr & Hx & _).
  unfold skipped in Hsk. rewrite Hx in Hsk. simpl in Hsk. unfold locked_or_inner, locked_node, lock_of in Hsk.
  apply orb_false_iff in Hsk as [Hlk%bool_decide_eq_false Hk%bool_decide_eq_false]. apply dec_stable in Hk.
  exists x, l1, l2. split_and!; try done.
  pose proof (lo_nonneg _ _ _ (inv_locks _ _ _ (ai_tree _ _ _ _ _ HI)) n Hn) as Hnn. unfold hlock in Hnn. rewrite (sview_lookup _ _ _ _ Hx) in Hnn. simpl in Hnn. lia.
Qed.

(** The leaf before an evicted one is the next to evict, unless its parent has become a leaf. *)
Lemma next_leaf lv lv2 a G H own n x p px ck al g gp vv a' G' p' px' d l1 l2 :
  AInv lv a G H own → del_at n x p px ck al a G g gp vv → s_children px !! ck = Some n → n ≠ p →
  a_fl a = l1 ++ n :: l2 → NoDup (a_fl a) → Forall (λ q, skipped (locked_or_inner false) (a_nodes a) q = true) l2 →
  AInv lv2 a' G' H own → pruned own (adel n x p px ck al a) (delete n G) a' G' p p' d →
  a_nodes a' !! p' = Some px' → s_children px' ≠ ∅ →
  last_kept (locked_or_inner false) (a_nodes a) l1 = lru_leaf a'.
Proof.
  intros HI Hda Hlink Hnp El Hnd Hl2 HI' [Hsh _ _ _ Hfl _ Hlive Hend Hinner Hsame _] Hpx' Hkids. unfold lru_leaf, last_kept. f_equal.
  rewrite Hfl. simpl. rewrite El in Hnd |- *. rewrite without_split by done. rewrite list_filter_filter.
  assert (∀ q, q ∈ a_fl a → q ≠ n → (skipped (locked_or_inner false) (a_nodes a') q = false ∧ q ∈ dom G') ↔ skipped (locked_or_inner false) (a_nodes a) q = false) as Hiff.
  { intros q Hq Hqn. apply (ai_fl _ _ _ _ _ HI) in Hq.
    assert (∀ y, a_nodes a !! q = Some y → s_children y ≠ ∅ → skipped (locked_or_inner false) (a_nodes a) q = true) as Hskip.
    { intros y Hy Hk. unfold skipped. rewrite Hy. simpl. unfold locked_or_inner. rewrite (bool_decide_true _ Hk). apply orb_true_r. }
    assert (s_children px ≠ ∅) as Hpk by (intros E; by rewrite E in Hlink).
    destruct (decide (q ∈ dom G')) as [HqG|HqG].
    - destruct (decide (q = p')) as [->|Hqp].
      + assert (skipped (locked_or_inner false) (a_nodes a') p' = true) as ->.
        { unfold skipped. rewrite Hpx'. simpl. unfold locked_or_inner. rewrite (bool_decide_true _ Hkids). apply orb_true_r. }
        destruct (tree_node _ _ _ _ _ _ HI Hq) as (_ & y & _ & _ & _ & _ & _ & _ & Hy & _).
        rewrite (Hskip y Hy); [naive_solver|]. pose proof (adel_shrinks _ _ _ _ _ _ _ _ _ _ _ _ _ _ HI Hda) as Hsh1.
        destruct (sh_node _ _ _ _ (shrinks_trans _ _ _ _ _ _ Hsh1 Hsh) p' y Hy) as (y' & Hy' & Hk). assert (y' = px') as -> by congruence.
        intros E. apply Hkids. pose proof (kp_kids _ _ Hk) as Hs. rewrite E in Hs. apply map_eq. intros k.
        destruct (s_children px' !! k) eqn:Ek; [|done]. eapply lookup_weaken in Ek; [|exact Hs]. done.
      + unfold skipped. rewrite Hsame by done. simpl. rewrite lookup_insert_ne; [tauto|]. intros <-. by destruct Hend as [->|].
    - destruct (Hinner q) as [->|(y & Hy & Hk)]; [|done| |].
      + apply elem_of_dom. destruct (proj1 (elem_of_inner _ _ _) Hq) as [Hq' _]. by rewrite lookup_delete_ne.
      + rewrite (Hskip px) by (done || apply Hda). naive_solver.
      + simpl in Hy. rewrite lookup_insert in Hy. case_decide as E.
        * subst q. rewrite (Hskip px) by (done || apply Hda). naive_solver.
        * rewrite (Hskip y) by done. naive_solver. }
  pose proof (NoDup_mid _ _ _ Hnd) as [_ Hn]. rewrite filter_app, (filter_nothing _ l2), app_nil_r.
  - apply filter_ext_in. intros q Hq. rewrite Hiff; [done|rewrite El, elem_of_app; auto|set_solver].
  - apply Forall_forall. intros q Hq. rewrite Forall_forall in Hl2. rewrite Hiff; [rewrite Hl2 by done; done|rewrite El, elem_of_app, elem_of_cons; auto|set_solver].
Qed.

(** An eviction of [d] slots and of [e] windows. *)
Record swa_evicted a G H own (d e : Z) a' G' : Prop := {
  ev_inv : ∃ lv, AInv lv a' G' H own;
  ev_shrinks : shrinks a G a' G';
  ev_full : a_fev a' = (a_fev a - d)%Z;
  ev_swa : a_sev a' = (a_sev a - e)%Z;
  ev_back : own_backed own a a';
  ev_d : (0 <= d)%Z;
  ev_e : (0 <= e)%Z;
}.
Lemma evicted_refl lv a G H own : AInv lv a G H own → swa_evicted a G H own 0 0 a G.
Proof. intros HI. split; try lia; [eauto|apply shrinks_refl|apply own_backed_refl]. Qed.
Lemma evicted_trans a1 G1 H own d1 e1 a2 G2 d2 e2 a3 G3 :
  swa_evicted a1 G1 H own d1 e1 a2 G2 → swa_evicted a2 G2 H own d2 e2 a3 G3 → swa_evicted a1 G1 H own (d1 + d2) (e1 + e2) a3 G3.
Proof. intros [] []. split; try lia; [done|by eapply shrinks_trans|by eapply own_backed_trans]. Qed.

Lemma del_evicted lv lv2 a G H own n x p px ck al g gp vv a' G' p' d :
  AInv lv a G H own → del_at n x p px ck al a G g gp vv → AInv lv2 a' G' H own →
  pruned own (adel n x p px ck al a) (delete n G) a' G' p p' d →
  swa_evicted a G H own (Z.of_nat (key_len (s_key x)) + d) (if swa_tombstone x then 0 else Z.of_nat (key_len (s_key x))) a' G' ∧ G' !! n = None ∧ 0 < key_len (s_key x).
Proof.
  intros HI Hda HI2 [Hsh Hfev Hsev _ _ Hnum _ _ _ _ Hbk]. pose proof (adel_shrinks _ _ _ _ _ _ _ _ _ _ _ _ _ _ HI Hda) as Hsh1. split_and!.
  - simpl in Hfev, Hsev. split; [eauto|by eapply shrinks_trans|lia|lia|eapply own_backed_trans; [by eapply adel_backed|exact Hbk]|lia|destruct (swa_tombstone x); lia].
  - destruct (G' !! n) as [gn|] eqn:E; [|done]. pose proof (lookup_weaken _ _ _ _ E (sh_sub _ _ _ _ Hsh)) as E'. by rewrite lookup_delete_eq in E'.
  - destruct Hda as [_ _ Hdp _ _]. destruct (Hdp lv) as [_ _ Hok _ _ _]. apply (no_pos Hok).
Qed.

Lemma wp_evict_full_one c lv a G H own n (Q : option nat * Z * Z → SWACache A → Prop) :
  abs c a → AInv lv a G H own → lru_leaf a = Some n →
  (∀ c' a' G' d e, abs c' a' → swa_evicted a G H own d e a' G' → G' !! n = None → (0 < d)%Z → Q (lru_leaf a', d, e) c') →
  wp (evict_full_one n) Q c.
Proof.
  intros Hab HI Hlru HQ. destruct (lru_leaf_spec _ _ _ _ _ _ HI Hlru) as (Hn & x & l1 & l2 & Hx & Hk & Hl & El & Hl2).
  pose proof (abs_nodup c a false Hab) as Hnd. simpl in Hnd. pose proof (proj1 (elem_of_inner _ _ _) Hn) as [_ Hnr]. simpl in Hnr.
  destruct (del_exists _ _ _ _ _ _ _ HI Hn Hx Hk Hl) as (g & p & gp & px & ck & vv & al & Hpar & Hg & Hgp & Hda & Hlink & Hlen & Hnp).
  pose proof (adel_inv _ _ _ _ _ _ _ _ _ _ _ _ _ _ HI Hda) as HI1.
  assert (swa_tombstone x = false → n ∈ a_sl a) as Hns.
  { intros Et. apply (ai_sl _ _ _ _ _ HI). split; [done|]. destruct (sx_lookup _ _ _ Hx) as (_ & -> & _). done. }
  unfold evict_full_one. wp_steps. rewrite (ab_root _ _ Hab), bool_decide_true by done. wp_steps.
  eapply wp_get_snode; [done|exact Hx|]. intros y Ey. destruct (plain_fields _ _ Ey) as (_ & _ & _ & Eval & Etomb & Efl & _). unfold value_of.
  rewrite Efl, Hl, bool_decide_true, Eval, Etomb, (da_value _ _ _ _ _ _ _ _ _ _ _ Hda) by done. wp_steps.
  eapply wp_free; [done|apply Hda|]. a_next. wp_step.
  eapply (wp_lru_prev locked_or_inner _ _ false l1 n l2); [apply inner_skip_ok|done|exact El|]. cbn [a_nodes].
  wp_step. eapply wp_full_remove; [done|exact Hx|by apply (ai_fl _ _ _ _ _ HI)|]. a_next.
  wp_step. eapply wp_unless_remove; [done|exact Hx|by intros Et; split; [|apply Hns]|]. a_next.
  wp_step. eapply wp_swa_delete_leaf; [exact HI|exact Hda|done|done|reflexivity|done|]. intros c3 Hab3.
  wp_step. eapply (wp_iteratively_delete _ _ _ _ _ _ n x p gp); [done|exact HI1|simpl; by rewrite lookup_insert_ne|done|by rewrite lookup_delete_ne|].
  intros c' lv' a' G' n' x' p' d Hab' HI' Hpr Hn' Hpar'. cbn [fst snd].
  destruct (del_evicted _ _ _ _ _ _ _ _ _ _ _ _ _ _ _ _ _ _ _ HI Hda HI' Hpr) as (Hev & Hgone & Hpos).
  pose proof (pr_live _ _ _ _ _ _ _ _ Hpr) as [gp' Hgp']%elem_of_dom.
  destruct (tree_live _ _ _ _ (inv_tree _ _ _ (ai_tree _ _ _ _ _ HI')) Hgp') as [cx Hcx]. destruct (sview_lookup_inv _ _ _ _ Hcx) as (px' & Hpx' & ->).
  wp_step. eapply wp_get_snode; [done|exact Hn'|]. intros y' Ey'. destruct (plain_fields _ _ Ey') as (_ & Epar' & _). unfold parent_of. rewrite Epar', Hpar'.
  wp_steps. eapply wp_get_snode; [done|exact Hpx'|]. intros yp' Eyp'. destruct (plain_fields _ _ Eyp') as (Ekp' & _). rewrite Ekp'. wp_step.
  rewrite Hlen. pose proof (pr_num _ _ _ _ _ _ _ _ Hpr) as Hd. case_bool_decide as Hke.
  - eapply (wp_lru_last locked_or_inner _ _ false); [apply inner_skip_ok|done|]. wp_step. eapply HQ; [done|done|done|lia].
  - wp_steps. rewrite (next_leaf _ _ _ _ _ _ _ _ _ _ _ _ _ _ _ _ _ _ _ _ _ _ HI Hda Hlink Hnp El Hnd Hl2 HI' Hpr Hpx' Hke). eapply HQ; [done|done|done|lia].
Qed.

Lemma gone_size G G' n : G' ⊆ G → is_Some (G !! n) → G' !! n = None → size G' < size G.
Proof.
  intros Hs Hn Hn'. rewrite <-!size_dom. apply subset_size. split; [by apply subseteq_dom|]. intros Hd. specialize (Hd n).
  rewrite !elem_of_dom, Hn' in Hd. by destruct (Hd Hn).
Qed.
Lemma in_list_spec c a sw n : abs c a → in_list (Some n) (lru_list sw c) = bool_decide (n ∈ a_list sw a).
Proof. intros Hab. simpl. apply bool_decide_ext. rewrite (lr_cache _ _ _ _ (ab_list _ _ Hab sw)). by rewrite elem_of_list_to_set. Qed.

Lemma wp_evict_full fuel c lv a G H own want f s (Q : Z * Z → SWACache A → Prop) :
  abs c a → AInv lv a G H own → size G < fuel →
  (∀ c' a' G' d e, abs c' a' → swa_evicted a G H own d e a' G' → (want <= f + d)%Z ∨ lru_leaf a' = None → Q (f + d, s + e)%Z c') →
  wp (evict_full fuel (lru_leaf a) want f s) Q c.
Proof.
  revert c lv a G f s. induction fuel as [|fuel IH]; [lia|]. intros c lv a G f s Hab HI Hfuel HQ. simpl. wp_steps.
  assert ((want <= f)%Z ∨ lru_leaf a = None → Q (f, s) c) as Hstop.
  { intros Hs. replace f with (f + 0)%Z by lia. replace s with (s + 0)%Z by lia. eapply HQ; [done|by eapply evicted_refl|]. by rewrite Z.add_0_r. }
  destruct (lru_leaf a) as [n|] eqn:Hlru; [|rewrite andb_false_r; wp_step; auto].
  destruct (lru_leaf_spec _ _ _ _ _ _ HI Hlru) as (Hn & x & l1 & l2 & Hx & Hk & Hl & El & Hl2).
  rewrite (in_list_spec c a false) by done. rewrite (bool_decide_true (n ∈ _)) by (by apply (ai_fl _ _ _ _ _ HI)).
  case_bool_decide as Hw; simpl; [|wp_step; apply Hstop; left; lia].
  wp_step. eapply wp_evict_full_one; [done|exact HI|done|]. intros c1 a1 G1 d1 e1 Hab1 Hev1 Hgone Hd1. cbn [fst snd].
  pose proof (ev_inv _ _ _ _ _ _ _ _ Hev1) as [lv1 HI1]. pose proof (ev_shrinks _ _ _ _ _ _ _ _ Hev1) as Hsh.
  eapply (IH _ _ _ G1); [exact Hab1|exact HI1| |].
  - apply elem_of_inner in Hn as [Hn _]. pose proof (gone_size _ _ _ (sh_sub _ _ _ _ Hsh) Hn Hgone). lia.
  - intros c' a' G' d e Hab' Hev Hend. replace (f + d1 + d)%Z with (f + (d1 + d))%Z by lia. replace (s + e1 + e)%Z with (s + (e1 + e))%Z by lia.
    eapply HQ; [done|by eapply evicted_trans|]. destruct Hend; [left; lia|by right].
Qed.

(** *** Giving up a window *)
Definition atomb n x al a : ACache A :=
  MkA (a_cfg a) (a_root a) (<[n := set_tombstone true x]> (a_nodes a)) (a_counter a) (a_uuid a)
    (a_fev a) (a_sev a - Z.of_nat (key_len (s_key x))) (a_fpr a) (a_spr a) (a_fl a) (without n (a_sl a)) al.

Lemma atomb_views lv a n x al : a_nodes a !! n = Some x →
  sview lv (atomb n x al a) = sview lv a ∧ sx (atomb n x al a) = <[n := MkX true (swa_lock_ref x) (swa_uuid x)]> (sx a).
Proof.
  intros Hx. split.
  - unfold sview. simpl. rewrite fmap_insert, insert_id; [done|]. by rewrite lookup_fmap, Hx.
  - unfold sx. simpl. by rewrite fmap_insert.
Qed.
(** The window slots of [n] are given back. *)
Lemma tomb_slots_ok v X al al' G own n l u vv :
  slots_ok v X al G own → n ∈ inner v G → hval (tv_h v) n = vv → sa_free_swa vv al = Ok al' → xt X n = false →
  slots_ok v (<[n := MkX true l u]> X) al' G own.
Proof.
  intros Hslots Hn Hval Hfree Ht. destruct (node_slots _ _ _ _ _ _ Hslots Hn) as [Hnd Hi]. pose proof Hslots as [Hal Hown Hcount Hfits Hback]. rewrite Hval in *.
  destruct (sa_free_swa_ok al vv) as (al0 & Hal0 & Hok0 & Eu & Eb); [done|done|rewrite <-Hval; auto|intros i Hiv; apply (Hback n); [done|by rewrite Hval|done]|].
  assert (al0 = al') as -> by congruence. split; [done|done| |done|].
  - intros i. rewrite Eu. apply Hcount.
  - intros q i Hq Hiq. rewrite Eb, elem_of_difference, elem_of_list_to_set. unfold xt. rewrite lookup_insert. case_decide as E.
    + subst q. rewrite Hval in Hiq. simpl. naive_solver.
    + fold (xt X q). rewrite <-(Hback q i Hq Hiq). split; [tauto|]. intros; split; [done|]. intros Hiv.
      destruct (Hi i Hiv) as (_ & _ & _ & Hother). by apply (Hother q Hq).
Qed.
Lemma free_swa_exists v X al G own n : slots_ok v X al G own → n ∈ inner v G → xt X n = false → ∃ al', sa_free_swa (hval (tv_h v) n) al = Ok al'.
Proof.
  intros Hslots Hn Ht. destruct (node_slots _ _ _ _ _ _ Hslots Hn) as [Hnd _]. destruct Hslots as [Hal _ _ Hfits Hback].
  destruct (sa_free_swa_ok al (hval (tv_h v) n)) as (al' & ? & _); [done|done|auto| |eauto]. intros i Hi. by apply (Hback n).
Qed.
Lemma atomb_linv lv a G L W own n x vv al :
  LInv lv a G L W own → n ∈ inner (sview lv a) G → a_nodes a !! n = Some x → swa_tombstone x = false → swa_lock_ref x = 0%Z →
  s_value x = Some vv → sa_free_swa vv (a_alloc a) = Ok al → LInv lv (atomb n x al a) G L W own.
Proof.
  intros HI Hn Hx Ht Hl Hvv Hfree. destruct (atomb_views lv a n x al Hx) as [Ev Ex]. rewrite Hl in Ex. destruct (sx_lookup _ _ _ Hx) as (HX & Et & _).
  assert (hval (tv_h (sview lv a)) n = vv) as Hval by (unfold hval; rewrite (sview_lookup _ _ _ _ Hx); simpl; by rewrite Hvv).
  assert (hlen (tv_h (sview lv a)) n = Z.of_nat (key_len (s_key x))) as Hhl by (unfold hlen; by rewrite (sview_lookup _ _ _ _ Hx)).
  unfold x_core in HX. rewrite Ht, Hl in HX. destruct HI as [Eps Hinv Hswa Hfl Hsl Huc Hslots]. split; rewrite ?Ev, ?Ex; try done.
  - simpl a_sev. simpl a_spr. simpl a_uuid. pose proof (tomb_swa_ok _ _ _ _ _ _ _ _ _ true _ Hn HX Hswa) as Hs. rewrite Hhl in Hs.
    replace (a_sev a - Z.of_nat (key_len (s_key x)))%Z with (a_sev a + (0 - Z.of_nat (key_len (s_key x))))%Z by lia. done.
  - intros q. simpl. rewrite elem_of_without, Hsl. unfold xt. rewrite lookup_insert. case_decide; subst; simpl; naive_solver.
  - eapply tomb_slots_ok; [done|done|done|done|congruence].
Qed.
Lemma atomb_inv lv a G H own n x vv al :
  AInv lv a G H own → n ∈ inner (sview lv a) G → a_nodes a !! n = Some x → swa_tombstone x = false → swa_lock_ref x = 0%Z →
  s_value x = Some vv → sa_free_swa vv (a_alloc a) = Ok al → AInv lv (atomb n x al a) G H own.
Proof.
  intros [HI Hh]%AInv_LInv Hn Hx Ht Hl Hvv Hfree. pose proof (atomb_linv _ _ _ _ _ _ _ _ _ _ HI Hn Hx Ht Hl Hvv Hfree) as HI'.
  destruct (atomb_views lv a n x al Hx) as [Ev Ex]. apply AInv_LInv. rewrite Ev. split; [done|]. rewrite Ex. eapply Forall_impl; [done|].
  intros h. eapply tomb_hold_ok. exact (proj1 (sx_lookup _ _ _ Hx)).
Qed.
Lemma atomb_evicted lv a G H own n x vv al :
  AInv lv a G H own → n ∈ inner (sview lv a) G → a_nodes a !! n = Some x → swa_tombstone x = false → swa_lock_ref x = 0%Z →
  s_value x = Some vv → sa_free_swa vv (a_alloc a) = Ok al → swa_evicted a G H own 0 (Z.of_nat (key_len (s_key x))) (atomb n x al a) G.
Proof.
  intros HI Hn Hx Ht Hl Hvv Hfree. split; simpl; try lia; [eexists; by eapply atomb_inv| |].
  2: { intros i Hi. eapply (free_swa_node_backed (sview lv a)); [apply (ai_slots _ _ _ _ _ HI)|exact Hn|by destruct (sx_lookup _ _ _ Hx) as (_ & -> & _)| |exact Hi].
    unfold hval. rewrite (sview_lookup _ _ _ _ Hx). simpl. by rewrite Hvv. }
  split; try done; simpl.
  - intros q y Hy. rewrite lookup_insert. case_decide; [|by exists y]. subst q. assert (y = x) as -> by congruence. eexists. split; [done|].
    split; try done; simpl. lia.
  - apply sublist_filter.
Qed.

Lemma lru_window_spec lv a G H own n : AInv lv a G H own → lru_window a = Some n →
  n ∈ inner (sview lv a) G ∧ ∃ x l1 l2, a_nodes a !! n = Some x ∧ swa_tombstone x = false ∧ swa_lock_ref x = 0%Z ∧ a_sl a = l1 ++ n :: l2
    ∧ Forall (λ q, skipped (locked_node true) (a_nodes a) q = true) l2.
Proof.
  intros HI (l1 & l2 & El & Hsk & Hl2)%last_kept_spec.
  assert (n ∈ a_sl a) as Hn by (rewrite El, elem_of_app, elem_of_cons; auto). apply (ai_sl _ _ _ _ _ HI) in Hn as [Hn Ht].
  split; [done|]. destruct (tree_node _ _ _ _ _ _ HI Hn) as (g & x & p & gp & px & vv & Hg & Hnr & Hx & _).
  destruct (sx_lookup _ _ _ Hx) as (_ & Et & El' & _). unfold skipped in Hsk. rewrite Hx in Hsk. simpl in Hsk. unfold locked_node, lock_of in Hsk.
  apply bool_decide_eq_false in Hsk. exists x, l1, l2. split_and!; try done; [congruence|].
  destruct (xi_ok _ _ _ _ _ _ _ (ai_swa _ _ _ _ _ HI)) as [_ Hlock _ _ _ _]. specialize (Hlock n Hn). rewrite El' in Hlock.
  pose proof (count_holds_nonneg (λ h, in_window (sview lv a) G h n) H) as Hnn. unfold swa_holds in Hlock. lia.
Qed.
(** The window before it is the next one. *)
Lemma next_window lv a G H own n l1 l2 a' G' :
  AInv lv a G H own → a_sl a = l1 ++ n :: l2 → NoDup (a_sl a) → Forall (λ q, skipped (locked_node true) (a_nodes a) q = true) l2 →
  shrinks a G a' G' → a_sl a' = without n (a_sl a) → last_kept (locked_node true) (a_nodes a) l1 = lru_window a'.
Proof.
  intros HI El Hnd Hl2 Hsh Esl. unfold lru_window, last_kept. f_equal. rewrite Esl. rewrite El in Hnd |- *. rewrite without_split by done.
  assert (∀ q, q ∈ a_sl a → skipped (locked_node true) (a_nodes a') q = skipped (locked_node true) (a_nodes a) q) as Hs.
  { intros q [Hq _]%(ai_sl _ _ _ _ _ HI). destruct (tree_node _ _ _ _ _ _ HI Hq) as (_ & y & _ & _ & _ & _ & _ & _ & Hy & _).
    destruct (sh_node _ _ _ _ Hsh q y Hy) as (y' & Hy' & Hk). unfold skipped. rewrite Hy, Hy'. simpl. unfold locked_node, lock_of. by rewrite (kp_swa _ _ Hk). }
  rewrite filter_app, (filter_nothing _ l2), app_nil_r.
  - apply filter_ext_in. intros q Hq. rewrite Hs; [done|rewrite El, elem_of_app; auto].
  - apply Forall_forall. intros q Hq. rewrite Forall_forall in Hl2. rewrite Hs, Hl2; [done|done|rewrite El, elem_of_app, elem_of_cons; auto].
Qed.

Lemma wp_evict_swa_one c lv a G H own n (Q : option nat * Z * Z → SWACache A → Prop) :
  abs c a → AInv lv a G H own → lru_window a = Some n →
  (∀ c' a' G' d d' e, abs c' a' → swa_evicted a G H own d e a' G' → length (a_sl a') < length (a_sl a) → (0 <= d' <= d)%Z → Q (lru_window a', d', e) c') →
  wp (evict_swa_one n) Q c.
Proof.
  intros Hab HI Hlru HQ. destruct (lru_window_spec _ _ _ _ _ _ HI Hlru) as (Hn & x & l1 & l2 & Hx & Ht & Hl & El & Hl2).
  pose proof (abs_nodup c a true Hab) as Hnd. simpl in Hnd. pose proof (proj1 (elem_of_inner _ _ _) Hn) as [_ Hnr]. simpl in Hnr.
  destruct (tree_node _ _ _ _ _ _ HI Hn) as (g & x' & p & gp & px & vv & Hg & _ & Hx' & Hpx & Hok & Hpar & Hvv & Hlen & Hval & Hhl).
  assert (x' = x) as -> by congruence. pose proof (tree_not_new _ _ _ _ _ _ _ HI (ex_intro _ _ Hg) Hx) as Hxn.
  assert (length (without n (a_sl a)) < length (a_sl a)) as Hshort.
  { rewrite El in Hnd |- *. rewrite without_split by done. rewrite !length_app. simpl. lia. }
  destruct (free_swa_exists _ _ _ _ _ _ (ai_slots _ _ _ _ _ HI) Hn) as [al Hal]; [by destruct (sx_lookup _ _ _ Hx) as (_ & -> & _)|]. rewrite Hval in Hal.
  pose proof (atomb_evicted _ _ _ _ _ _ _ _ _ HI Hn Hx Ht Hl Hvv Hal) as Hevt.
  pose proof (next_window _ _ _ _ _ _ _ _ _ _ HI El Hnd Hl2 (ev_shrinks _ _ _ _ _ _ _ _ Hevt) eq_refl) as Hnext.
  assert (n ∈ a_sl a) as Hns by (rewrite El, elem_of_app, elem_of_cons; auto).
  unfold evict_swa_one. wp_step. eapply wp_get_snode; [done|exact Hx|]. intros y Ey.
  destruct (plain_fields _ _ Ey) as (Ekids & _ & _ & Eval & Etomb & Efl & Esl & _). unfold value_of.
  rewrite Etomb, Ekids, Efl, Esl, Eval, Ht, Hl, Hvv. wp_steps. rewrite (ab_root _ _ Hab), !bool_decide_true by done. wp_steps. cbv zeta.
  case_bool_decide as Hk; [|case_bool_decide as Hfl].
  - wp_step. eapply wp_free_swa; [done|done|]. a_next. wp_step.
    eapply (wp_lru_prev locked_node _ _ true l1 n l2); [apply locked_skip_ok|done|exact El|]. cbn [a_nodes].
    wp_step. eapply wp_swa_remove; [done|exact Hx|done|done|]. a_next.
    wp_step. unfold tombstone_internal_node. wp_node. rewrite bool_decide_true by done. wp_upd. wp_steps. rewrite Hlen, Hnext.
    eapply (HQ _ _ G 0%Z); [|exact Hevt|exact Hshort|lia].
    match goal with Hab : abs ?c _ |- abs (add_swa _ _ ?c) _ => apply (abs_add_swa _ _ (- Z.of_nat (key_len (s_key x))) 0) in Hab; a_norm_in Hab; rewrite Z.add_0_r in Hab end.
    done.
  - wp_step. eapply wp_free_swa; [done|done|]. a_next. wp_step.
    eapply (wp_lru_prev locked_node _ _ true l1 n l2); [apply locked_skip_ok|done|exact El|]. cbn [a_nodes].
    wp_step. eapply wp_swa_remove; [done|exact Hx|done|done|]. intros c2 Hab2. wp_steps. rewrite Hlen, Hnext.
    apply (abs_add_swa _ _ (- Z.of_nat (key_len (s_key x))) 0) in Hab2. a_norm_in Hab2. rewrite Z.add_0_r in Hab2.
    wp_upd. wp_steps. eapply (HQ _ _ G 0%Z); [|exact Hevt|exact Hshort|lia]. done.
  - 
    assert (full_lock_ref x = 0%Z) as Hfl0.
    { pose proof (lo_nonneg _ _ _ (inv_locks _ _ _ (ai_tree _ _ _ _ _ HI)) n Hn) as Hnn. unfold hlock in Hnn. rewrite (sview_lookup _ _ _ _ Hx) in Hnn. simpl in Hnn. lia. }
    destruct (del_exists _ _ _ _ _ _ _ HI Hn Hx Hk Hfl0) as (g' & p' & gp' & px' & ck & vv' & al' & Hpar' & _ & Hgp & Hda & Hlink & Hlen' & Hnp).
    assert (p' = p) as -> by congruence. assert (vv' = vv) as -> by (pose proof (da_value _ _ _ _ _ _ _ _ _ _ _ Hda); congruence).
    pose proof (adel_inv _ _ _ _ _ _ _ _ _ _ _ _ _ _ HI Hda) as HI1.
    rewrite bool_decide_true by done. wp_steps. eapply wp_free; [done|apply Hda|]. a_next. wp_step.
    eapply (wp_lru_prev locked_node _ _ true l1 n l2); [apply locked_skip_ok|done|exact El|]. cbn [a_nodes].
    wp_step. eapply wp_full_remove; [done|exact Hx|by apply (ai_fl _ _ _ _ _ HI)|]. a_next.
    wp_step. eapply wp_swa_remove; [done|exact Hx|done|done|]. a_next.
    wp_step. eapply wp_swa_delete_leaf; [exact HI|exact Hda|done|done|by rewrite Ht|done|]. intros c3 Hab3.
    wp_step. eapply (wp_iteratively_delete _ _ _ _ _ _ n x p gp'); [done|exact HI1|simpl; by rewrite lookup_insert_ne|done|by rewrite lookup_delete_ne|].
    intros c' lv' a' G' n' x'' p'' d Hab' HI' Hpr Hn' Hparn. wp_steps.
    destruct (del_evicted _ _ _ _ _ _ _ _ _ _ _ _ _ _ _ _ _ _ _ HI Hda HI' Hpr) as (Hev & _ & Hpos). rewrite Ht in Hev.
    assert (a_sl a' = without n (a_sl a)) as Esl' by (rewrite (pr_sl _ _ _ _ _ _ _ _ Hpr); simpl; by rewrite Ht).
    rewrite (next_window _ _ _ _ _ _ _ _ _ _ HI El Hnd Hl2 (ev_shrinks _ _ _ _ _ _ _ _ Hev) Esl'), Hlen.
    pose proof (pr_num _ _ _ _ _ _ _ _ Hpr). eapply HQ; [done|exact Hev|by rewrite Esl'|lia].
Qed.

Lemma wp_evict_swa fuel c lv a G H own want f s (Q : Z * Z → SWACache A → Prop) :
  abs c a → AInv lv a G H own → length (a_sl a) < fuel →
  (∀ c' a' G' d d' e, abs c' a' → swa_evicted a G H own d e a' G' → (0 <= d' <= d)%Z → (want <= s + e)%Z ∨ lru_window a' = None → Q (f + d', s + e)%Z c') →
  wp (evict_swa fuel (lru_window a) want f s) Q c.
Proof.
  revert c lv a G f s. induction fuel as [|fuel IH]; [lia|]. intros c lv a G f s Hab HI Hfuel HQ. simpl. wp_steps.
  assert ((want <= s)%Z ∨ lru_window a = None → Q (f, s) c) as Hstop.
  { intros Hs. replace f with (f + 0)%Z by lia. replace s with (s + 0)%Z by lia. eapply HQ; [done|by eapply evicted_refl|lia|]. by rewrite Z.add_0_r. }
  destruct (lru_window a) as [n|] eqn:Hlru; [|rewrite andb_false_r; wp_step; auto].
  destruct (lru_window_spec _ _ _ _ _ _ HI Hlru) as (Hn & x & l1 & l2 & Hx & Hk & Hl & El & Hl2).
  rewrite (in_list_spec c a true) by done. rewrite (bool_decide_true (n ∈ _)) by (simpl; rewrite El, elem_of_app, elem_of_cons; auto).
  case_bool_decide as Hw; simpl; [|wp_step; apply Hstop; left; lia].
  wp_step. eapply wp_evict_swa_one; [done|exact HI|done|]. intros c1 a1 G1 d1 d1' e1 Hab1 Hev1 Hshort Hd1. cbn [fst snd].
  pose proof (ev_inv _ _ _ _ _ _ _ _ Hev1) as [lv1 HI1]. eapply (IH _ _ _ G1); [exact Hab1|exact HI1|lia|].
  intros c' a' G' d d' e Hab' Hev Hd Hend. replace (f + d1' + d')%Z with (f + (d1' + d'))%Z by lia. replace (s + e1 + e)%Z with (s + (e1 + e))%Z by lia.
  eapply HQ; [done|by eapply evicted_trans|lia|]. destruct Hend; [left; lia|by right].
Qed.

(** Nothing is left to evict when the walks find nothing. *)
Lemma no_leaf_left lv a G H own : AInv lv a G H own → lru_leaf a = None → a_fev a = 0%Z.
Proof.
  intros HI Hnone%last_kept_none. pose proof (ai_tree _ _ _ _ _ HI) as Hi. change (a_fev a) with (tv_ev (sview lv a)).
  destruct (inv_sizes _ _ _ Hi) as [-> _ _]. apply gsum_zero. intros n [[g Hg] Hn]%elem_of_inner. unfold ev_weight, ev_w. case_decide as Hlock; [|done].
  destruct (unlocked_leaf (sview lv a) G _ Hi (full_holds_nonneg H) n g Hg Hn Hlock) as (m & Hm & Hml & cx & Hcx & Hk).
  destruct (sview_lookup_inv _ _ _ _ Hcx) as (x & Hx & ->). simpl in Hk. rewrite Forall_forall in Hnone.
  specialize (Hnone m (proj2 (ai_fl _ _ _ _ _ HI m) Hm)). unfold skipped in Hnone. rewrite Hx in Hnone. simpl in Hnone.
  unfold locked_or_inner, locked_node, lock_of in Hnone. unfold hlock in Hml. rewrite Hcx in Hml. simpl in Hml.
  rewrite Hml, Hk in Hnone. by rewrite !bool_decide_false in Hnone by (lia || tauto).
Qed.
Lemma no_window_left lv a G H own : AInv lv a G H own → lru_window a = None → a_sev a = 0%Z.
Proof.
  intros HI Hnone%last_kept_none. destruct (xi_ok _ _ _ _ _ _ _ (ai_swa _ _ _ _ _ HI)) as [_ _ -> _ _ _]. apply gsum_zero.
  intros n Hn. unfold swa_ev_w. destruct (xt (sx a) n) eqn:Et; [done|]. rewrite Forall_forall in Hnone.
  specialize (Hnone n (proj2 (ai_sl _ _ _ _ _ HI n) (conj Hn Et))). destruct (tree_node _ _ _ _ _ _ HI Hn) as (_ & x & _ & _ & _ & _ & _ & _ & Hx & _).
  destruct (sx_lookup _ _ _ Hx) as (_ & _ & -> & _). unfold skipped in Hnone. rewrite Hx in Hnone. simpl in Hnone. unfold locked_node, lock_of in Hnone.
  apply bool_decide_eq_true in Hnone. unfold ev_w. rewrite decide_False by lia. done.
Qed.
Lemma sizes_nonneg lv a G H own : AInv lv a G H own → (0 <= a_fev a)%Z ∧ (0 <= a_sev a)%Z.
Proof.
  intros HI. split.
  - change (a_fev a) with (tv_ev (sview lv a)). destruct (inv_sizes _ _ _ (ai_tree _ _ _ _ _ HI)) as [-> _ _]. apply gsum_nonneg. intros n _.
    unfold ev_weight, ev_w, hlen. repeat case_match; lia.
  - destruct (xi_ok _ _ _ _ _ _ _ (ai_swa _ _ _ _ _ HI)) as [_ _ -> _ _ _]. apply gsum_nonneg. intros n _.
    unfold swa_ev_w, ev_w, hlen. repeat case_match; lia.
Qed.
Lemma windows_short c lv a G H own : abs c a → AInv lv a G H own → length (a_sl a) ≤ size (a_nodes a).
Proof.
  intros Hab HI. rewrite <-size_dom, <-(size_list_to_set (C := gset nat) (a_sl a)) by (apply (abs_nodup c a true Hab)).
  apply subseteq_size. intros n [Hn _]%elem_of_list_to_set%(ai_sl _ _ _ _ _ HI).
  destruct (tree_node _ _ _ _ _ _ HI Hn) as (_ & x & _ & _ & _ & _ & _ & _ & Hx & _). apply elem_of_dom. eauto.
Qed.

(** *** evict *)
Lemma wp_swa_evict c lv a G H own nt st (Q : Z * Z → SWACache A → Prop) :
  abs c a → AInv lv a G H own → sw_disable (a_cfg a) = false →
  (∀ c' a' G' d f s, abs c' a' → swa_evicted a G H own d s a' G' → (0 <= f <= d)%Z →
    (nt <= f)%Z ∨ a_fev a' = 0%Z → (st <= s)%Z ∨ a_sev a' = 0%Z → Q (f, s) c') →
  wp (swa_evict nt st) Q c.
Proof.
  intros Hab HI Hdis HQ. unfold swa_evict. wp_steps. rewrite (ab_cfg _ _ Hab), Hdis. wp_steps. rewrite (abs_size _ _ Hab).
  eapply (wp_mono _ (λ r c1, ∃ a1 G1, abs c1 a1 ∧ swa_evicted a G H own r.1 r.2 a1 G1 ∧ ((nt <= r.1)%Z ∨ a_fev a1 = 0%Z))).
  { case_bool_decide as Hnt.
    - wp_step. eapply (wp_lru_last locked_or_inner _ _ false); [apply inner_skip_ok|done|].
      eapply (wp_evict_full _ _ _ _ G); [done|exact HI|pose proof (tree_size _ _ _ _ _ HI); lia|].
      intros c1 a1 G1 d e Hab1 Hev Hend. exists a1, G1. simpl. split_and!; [done|done|].
      destruct Hend as [|Hnone]; [by left|right]. destruct (ev_inv _ _ _ _ _ _ _ _ Hev) as [lv1 HI1]. by eapply no_leaf_left.
    - wp_step. exists a, G. simpl. split_and!; [done|by eapply evicted_refl|left; lia]. }
  intros [f1 s1] c1 (a1 & G1 & Hab1 & Hev1 & Hend1). cbn [fst snd] in *. pose proof (ev_d _ _ _ _ _ _ _ _ Hev1) as Hf1.
  destruct (ev_inv _ _ _ _ _ _ _ _ Hev1) as [lv1 HI1]. case_bool_decide as Hst; [|wp_step; eapply HQ; [done|done|lia|done|left; lia]].
  wp_step. eapply (wp_lru_last locked_node _ _ true); [apply locked_skip_ok|done|]. eapply (wp_evict_swa _ _ _ _ G1); [done|exact HI1| |].
  { pose proof (sublist_length _ _ (sh_sl _ _ _ _ (ev_shrinks _ _ _ _ _ _ _ _ Hev1))). pose proof (windows_short _ _ _ _ _ _ Hab HI). lia. }
  intros c' a' G' d d' e Hab' Hev Hd Hend. destruct (ev_inv _ _ _ _ _ _ _ _ Hev) as [lv' HI'].
  eapply HQ; [done|by eapply evicted_trans|lia| |].
  - destruct Hend1 as [|E]; [left; lia|right]. pose proof (ev_full _ _ _ _ _ _ _ _ Hev). destruct (sizes_nonneg _ _ _ _ _ HI'). lia.
  - destruct Hend as [|Hnone]; [by left|right]. by eapply no_window_left.
Qed.
End evict.
