(* ===== verification/SwaLocks.v ===== *)
(** Locks of the sliding-window tree: [inc_lock_ref], [dec_lock_ref] and [dec_swa_lock_only]. *)
From S2P Require Import Prelude RadixKey TreeNode EvictPolicy RadixCache RadixInv RadixSplit RadixLeaf RadixLock RadixSpec RadixOps RadixLockOps SwaLru SwaCache SwaAbs SwaInv SwaOps SwaNodes SwaEvict.
From stdpp Require Import options.

Section locks.
Context {A : Type} {alloc : SWAAllocator A} {ps : nat} {laws : SWAAllocatorLaws A ps}.
Implicit Types (c : SWACache A) (a : ACache A) (G : gmap nat gnode) (H : list hold) (own : Z → Z) (x y : SNode) (n m p q : nat) (lv : gset nat) (L W : nat → Z).

(** One node: [d] locks and [e] window locks more, and the mark [u]. *)
Definition lock_node (d e : Z) (u : option Z) x : SNode := set_swa_uuid u (add_swa_lock e (add_full_lock d x)).
Definition alock n x (d e : Z) (u : option Z) (uc : Z) a : ACache A :=
  let len := Z.of_nat (key_len (s_key x)) in
  MkA (a_cfg a) (a_root a) (<[n := lock_node d e u x]> (a_nodes a)) (a_counter a) uc
    (a_fev a + (ev_w (full_lock_ref x + d) len - ev_w (full_lock_ref x) len))
    (a_sev a + (ev_w (swa_lock_ref x + e) len - ev_w (swa_lock_ref x) len))
    (a_fpr a + (pr_w (full_lock_ref x + d) len - pr_w (full_lock_ref x) len))
    (a_spr a + (pr_w (swa_lock_ref x + e) len - pr_w (swa_lock_ref x) len))
    (a_fl a) (a_sl a) (a_alloc a).

Definition add_window W n (e : Z) : nat → Z := λ q, (W q + if decide (q = n) then e else 0)%Z.

(** What a step may do to the window of its node. *)
Definition window_step (t : bool) (e : Z) (u u' : option Z) (uc uc' : Z) : Prop :=
  e = 0%Z ∧ u' = u ∧ uc' = uc ∨ t = false ∧ (uc <= uc')%Z ∧ (u' = u ∨ u = None ∧ u' = Some uc' ∧ (uc < uc')%Z).

Lemma alock_linv lv a G L W own n x g p gp px d e u uc :
  LInv lv a G L W own → a_nodes a !! n = Some x → G !! n = Some g → n ≠ a_root a → node_ok (sview lv a) G n g (s_core x) p gp px →
  (0 <= full_lock_ref x + d)%Z → window_step (swa_tombstone x) e (swa_uuid x) u (a_uuid a) uc →
  LInv (lock_leaves (sview lv a) n (s_core x) d) (alock n x d e u uc a) G (add_lock (add_lock L n d) p (- d)) (add_window W n e) own.
Proof.
  intros HI Hx Hg Hnr Hok Hd Hw. set (lv' := lock_leaves _ _ _ _). destruct HI as [Eps Hinv Hswa Hfl Hsl Huc Hslots].
  pose proof (inv_tree _ _ _ Hinv) as Ht. assert (n ∈ inner (sview lv a) G) as Hn by (apply elem_of_inner; eauto).
  assert (sview lv' (alock n x d e u uc a) = lock_view (sview lv a) n (s_core x) d) as Ev.
  { unfold sview, lock_view. simpl. rewrite fmap_insert. done. }
  assert (sx (alock n x d e u uc a) = <[n := MkX (swa_tombstone x) (swa_lock_ref x + e) u]> (sx a)) as Ex by (unfold sx; simpl; by rewrite fmap_insert).
  destruct (sx_lookup _ _ _ Hx) as (HX & Et & El & Eu). unfold x_core in HX.
  assert (same_shape (sview lv a) (lock_view (sview lv a) n (s_core x) d)) as Hss.
  { split; [done| |]; intros q; [by eapply lock_hlen|by eapply lock_hpar]. }
  assert (∀ q, xt (<[n := MkX (swa_tombstone x) (swa_lock_ref x + e) u]> (sx a)) q = xt (sx a) q) as Ext.
  { intros q. unfold xt at 1. rewrite lookup_insert. case_decide; [subst q; by rewrite Et|done]. }
  assert (∀ q, hval (tv_h (lock_view (sview lv a) n (s_core x) d)) q = hval (tv_h (sview lv a)) q) as Ehv.
  { intros q. unfold hval. rewrite (lock_lookup _ _ _ _ _ _ _ _ _ Hok). destruct (tv_h (sview lv a) !! q); [|done]. simpl. by case_decide. }
  assert (hlen (tv_h (sview lv a)) n = Z.of_nat (key_len (s_key x))) as Ehl by (unfold hlen; by rewrite (sview_lookup _ _ _ _ Hx)).
  split; rewrite ?Ev, ?Ex; try done.
  - by eapply lock_Inv.
  - apply (shape_swa_ok (sview lv a)); [done|]. simpl a_sev. simpl a_spr. simpl a_uuid. rewrite <-Ehl.
    destruct Hw as [(-> & -> & ->)|(Htf & Hle & Hu)].
    + rewrite Z.add_0_r, !Z.sub_diag, !Z.add_0_r, insert_id by done. eapply swa_ok_ext; [|done]. intros q _. unfold add_window. case_decide; lia.
    + by eapply (lock_swa_ok (sview lv a) (sx a)).
  - intros q. simpl. rewrite Hsl. setoid_rewrite Ext. done.
  - simpl. destruct Hw as [(_ & _ & ->)|(_ & ? & _)]; lia.
  - simpl a_alloc. destruct Hslots as [Hal Hown Hcount Hfits Hback]. split; try done.
    + intros i. rewrite (lock_slots _ _ _ _ _ _ _ _ _ Hok). done.
    + intros q Hq. rewrite Ehv. by apply Hfits.
    + intros q i Hq. rewrite Ehv, Ext. by apply Hback.
Qed.

(** The rest of the cache: nothing but locks, marks and counters changes. *)
Record lock_frame a a' : Prop := {
  lf_cfg : a_cfg a' = a_cfg a;
  lf_root : a_root a' = a_root a;
  lf_counter : a_counter a' = a_counter a;
  lf_fl : a_fl a' = a_fl a;
  lf_sl : a_sl a' = a_sl a;
  lf_alloc : a_alloc a' = a_alloc a;
  lf_dom : dom (a_nodes a') = dom (a_nodes a);
  lf_node : ∀ q x, a_nodes a !! q = Some x → ∃ d e u, a_nodes a' !! q = Some (lock_node d e u x) ∧ (swa_uuid x = u ∨ swa_uuid x = None);
}.
Lemma lock_node_twice d e u d' e' u' x : lock_node d' e' u' (lock_node d e u x) = lock_node (d + d') (e + e') u' x.
Proof. destruct x. unfold lock_node, set_swa_uuid, add_swa_lock, add_full_lock. simpl. f_equal; lia. Qed.
Lemma lock_node_id x : lock_node 0 0 (swa_uuid x) x = x.
Proof. destruct x. unfold lock_node, set_swa_uuid, add_swa_lock, add_full_lock. simpl. f_equal; lia. Qed.
Lemma lock_frame_refl a : lock_frame a a.
Proof. split; try done. intros q x Hx. exists 0%Z, 0%Z, (swa_uuid x). rewrite lock_node_id. auto. Qed.
Lemma lock_frame_trans a1 a2 a3 : lock_frame a1 a2 → lock_frame a2 a3 → lock_frame a1 a3.
Proof.
  intros [E1 E2 E3 E4 E5 E6 Ed Hn] [E1' E2' E3' E4' E5' E6' Ed' Hn']. split; try congruence.
  intros q x Hx. destruct (Hn q x Hx) as (d & e & u & Hx2 & Hu). destruct (Hn' q _ Hx2) as (d' & e' & u' & Hx3 & Hu').
  rewrite lock_node_twice in Hx3. eexists _, _, _. split; [done|]. simpl in Hu'. destruct Hu as [<-|]; [|by right]. done.
Qed.
Lemma alock_frame n x d e u uc a : a_nodes a !! n = Some x → swa_uuid x = u ∨ swa_uuid x = None → lock_frame a (alock n x d e u uc a).
Proof.
  intros Hx Hu. split; try done; simpl.
  - rewrite dom_insert_L. apply elem_of_dom_2 in Hx. set_solver.
  - intros q y Hy. rewrite lookup_insert. case_decide as E; [subst q; assert (y = x) as -> by congruence; eauto|].
    exists 0%Z, 0%Z, (swa_uuid y). rewrite lock_node_id. auto.
Qed.
(** [top] is the node above the window that starts at [m] and ends at the node marked [uuid]. *)
Definition top_ok (v : tview) (X : gmap nat xcore) G m (uuid : option Z) (top : nat) : Prop :=
  match uuid with
  | None => top = tv_root v
  | Some u => ∃ r, on_path G (tv_root v) m r = true ∧ xu X r = Some u ∧ hpar (tv_h v) r = Some top
  end.
(** Marks survive. *)
Record mark_frame a a' : Prop := {
  mf_root : a_root a' = a_root a;
  mf_node : ∀ q x, a_nodes a !! q = Some x → ∃ x', a_nodes a' !! q = Some x' ∧ s_parent x' = s_parent x ∧ (swa_uuid x = swa_uuid x' ∨ swa_uuid x = None);
}.
Lemma lock_mark_frame a a' : lock_frame a a' → mark_frame a a'.
Proof. intros Hf. split; [apply (lf_root _ _ Hf)|]. intros q x Hx. destruct (lf_node _ _ Hf q x Hx) as (d & e & u & Hx' & Hu). eauto. Qed.
Lemma frame_top_ok lv lv' a a' G m uuid top : mark_frame a a' → top_ok (sview lv a) (sx a) G m uuid top → top_ok (sview lv' a') (sx a') G m uuid top.
Proof.
  intros Hf Hm. unfold top_ok in *. change (tv_root (sview lv' a')) with (a_root a'). rewrite (mf_root _ _ Hf). destruct uuid as [u|]; [|done].
  destruct Hm as (r & Hr & Hru & Hrp). exists r. split; [done|]. unfold xu, sx in Hru. rewrite lookup_fmap in Hru.
  destruct (a_nodes a !! r) as [x|] eqn:Hx; [|done]. simpl in Hru. unfold hpar in *. rewrite (sview_lookup lv _ _ _ Hx) in Hrp. simpl in Hrp.
  destruct (mf_node _ _ Hf r x Hx) as (x' & Hx' & Hp & Hu). rewrite (sview_lookup lv' _ _ _ Hx').
  unfold xu, sx. rewrite lookup_fmap, Hx'. simpl. split; [|congruence]. destruct Hu; congruence.
Qed.
Lemma frame_hold_ok lv lv' a a' G h : mark_frame a a' → hold_ok (sview lv a) (sx a) G h → hold_ok (sview lv' a') (sx a') G h.
Proof. intros Hf [Hn Hm]. split; [done|]. intros Hs. exact (frame_top_ok lv lv' _ _ _ _ _ _ Hf (Hm Hs)). Qed.
Lemma frame_xt a a' q : lock_frame a a' → xt (sx a') q = xt (sx a) q.
Proof.
  intros Hf. unfold xt, sx. rewrite !lookup_fmap. destruct (a_nodes a !! q) as [x|] eqn:Hx.
  - by destruct (lf_node _ _ Hf q x Hx) as (d & e & u & -> & _).
  - apply not_elem_of_dom in Hx. rewrite <-(lf_dom _ _ Hf) in Hx. apply not_elem_of_dom in Hx. by rewrite Hx.
Qed.

(** *** The statements of the loops *)
Lemma abs_eq c a a' : abs c a → a = a' → abs c a'.
Proof. by intros ? <-. Qed.

(** The counters follow a lock count [l]. *)
Definition count_step (l d len : Z) : Z * Z := ((ev_w (l + d) len - ev_w l len)%Z, (pr_w (l + d) len - pr_w l len)%Z).
Lemma count_inc l len : (0 <= l)%Z → count_step l 1 len = if bool_decide (l = 0%Z) then (- len, len)%Z else (0, 0)%Z.
Proof. intros Hl. unfold count_step, ev_w, pr_w. case_bool_decide; repeat case_decide; try lia; f_equal; lia. Qed.
Lemma count_dec l len : (0 < l)%Z → count_step l (-1) len = if bool_decide (l = 1%Z) then (len, - len)%Z else (0, 0)%Z.
Proof. intros Hl. unfold count_step, ev_w, pr_w. case_bool_decide; repeat case_decide; try lia; f_equal; lia. Qed.

Lemma aadd_full_0 a : aadd_full 0 0 a = a.
Proof. destruct a. unfold aadd_full. simpl. by rewrite !Z.add_0_r. Qed.
Lemma aadd_swa_0 a : aadd_swa 0 0 a = a.
Proof. destruct a. unfold aadd_swa. simpl. by rewrite !Z.add_0_r. Qed.
(** [if the count crosses 0: the counters move] *)
Lemma wp_count_full c a (b : bool) (ev pr : Z) (st : Z * Z) (Q : unit → SWACache A → Prop) :
  abs c a → st = (if b then (ev, pr) else (0, 0)%Z) → (∀ c', abs c' (aadd_full st.1 st.2 a) → Q tt c') →
  wp (if b then st_modify (add_full ev pr) else mret tt) Q c.
Proof. intros Hab -> HQ. destruct b; wp_step; apply HQ; [by apply abs_add_full|by rewrite aadd_full_0]. Qed.
Lemma wp_count_swa c a (b : bool) (ev pr : Z) (st : Z * Z) (Q : unit → SWACache A → Prop) :
  abs c a → st = (if b then (ev, pr) else (0, 0)%Z) → (∀ c', abs c' (aadd_swa st.1 st.2 a) → Q tt c') →
  wp (if b then st_modify (add_swa ev pr) else mret tt) Q c.
Proof. intros Hab -> HQ. destruct b; wp_step; apply HQ; [by apply abs_add_swa|by rewrite aadd_swa_0]. Qed.

Definition afull n x d a : ACache A :=
  let st := count_step (full_lock_ref x) d (Z.of_nat (key_len (s_key x))) in aset_nodes (<[n := add_full_lock d x]> (a_nodes a)) (aadd_full st.1 st.2 a).
Definition aswa n x e u uc a : ACache A :=
  let st := count_step (swa_lock_ref x) e (Z.of_nat (key_len (s_key x))) in
  aset_uuid uc (aset_nodes (<[n := lock_node 0 e u x]> (a_nodes a)) (aadd_swa st.1 st.2 a)).
Lemma alock_parts n x d e u uc a : aswa n (add_full_lock d x) e u uc (afull n x d a) = alock n x d e u uc a.
Proof.
  unfold aswa, afull, alock, aset_uuid, aset_nodes, aadd_swa, aadd_full. simpl. rewrite insert_insert_eq. do 2 f_equal.
  destruct x. unfold lock_node, set_swa_uuid, add_swa_lock, add_full_lock. simpl. f_equal; lia.
Qed.
Lemma afull_alock n x d a : afull n x d a = alock n x d 0 (swa_uuid x) (a_uuid a) a.
Proof.
  rewrite <-alock_parts. unfold aswa, count_step. rewrite Z.add_0_r, !Z.sub_diag. simpl fst. simpl snd. rewrite aadd_swa_0.
  change (swa_uuid x) with (swa_uuid (add_full_lock d x)). rewrite lock_node_id. unfold afull, aset_uuid, aset_nodes, aadd_full. simpl. by rewrite insert_insert_eq.
Qed.

Lemma aswa_alock n x e u uc a : aswa n x e u uc a = alock n x 0 e u uc a.
Proof. rewrite <-alock_parts. unfold afull, count_step. rewrite Z.add_0_r, !Z.sub_diag. simpl fst. simpl snd. rewrite aadd_full_0.
  assert (add_full_lock 0 x = x) as -> by (destruct x; unfold add_full_lock; simpl; f_equal; lia).
  unfold aswa, aset_nodes, aset_uuid, aadd_swa. simpl. by rewrite insert_insert_eq.
Qed.
(** A node a walk meets. *)
Lemma walk_node lv a G L W own n g : LInv lv a G L W own → G !! n = Some g → n ≠ a_root a →
  ∃ x p gp px vv, n ∈ inner (sview lv a) G ∧ a_nodes a !! n = Some x ∧ node_ok (sview lv a) G n g (s_core x) p gp px ∧ s_parent x = Some p
    ∧ s_value x = Some vv ∧ length vv = key_len (s_key x) ∧ x ≠ new_SNode ∧ (0 <= full_lock_ref x)%Z ∧ swa_lock_ref x = W n.
Proof.
  intros HI Hg Hn. assert (n ∈ inner (sview lv a) G) as Hin by (apply elem_of_inner; eauto).
  destruct (to_node (inv_tree _ _ _ (li_tree _ _ _ _ _ _ HI)) n g) as (x' & p & gp & px & Hok); [done..|].
  destruct (sview_lookup_inv _ _ _ _ (no_heap Hok)) as (x & Hx & ->). destruct (no_vals Hok) as (vv & Hvv & Hl & _). pose proof (no_par Hok) as Hp. simpl in Hvv, Hl, Hp.
  exists x, p, gp, px, vv. split_and!; try done; [by intros ->| |].
  - pose proof (lo_nonneg _ _ _ (inv_locks _ _ _ (li_tree _ _ _ _ _ _ HI)) n Hin) as Hnn. unfold hlock in Hnn. by rewrite (sview_lookup _ _ _ _ Hx) in Hnn.
  - destruct (sx_lookup _ _ _ Hx) as (_ & _ & <- & _). by apply (li_swa _ _ _ _ _ _ HI).
Qed.

(** The window part of [inc_lock_ref] at one node; [u] is the mark of the last node of the window. *)
Definition mark_of x (uc : Z) : Z := default (uc + 1)%Z (swa_uuid x).
Definition next_uc x (uc : Z) : Z := match swa_uuid x with Some _ => uc | None => (uc + 1)%Z end.
Lemma wp_lock_swa_part c a n x y σ uuid (Q : nat * option Z → SWACache A → Prop) :
  let w := sliding_window_size (a_cfg a) in let len := key_len (s_key x) in
  abs c a → a_nodes a !! n = Some x → x ≠ new_SNode → (0 <= swa_lock_ref x)%Z → swa_tombstone y = swa_tombstone x → swa_lock_ref y = swa_lock_ref x → swa_uuid y = swa_uuid x →
  (σ < w → swa_tombstone x = false) →
  (w ≤ σ → Q (σ, uuid) c) →
  (σ < w → σ + len < w → ∀ c', abs c' (aswa n x 1 (swa_uuid x) (a_uuid a) a) → Q (σ + len, uuid) c') →
  (σ < w → w ≤ σ + len → ∀ c', abs c' (aswa n x 1 (Some (mark_of x (a_uuid a))) (next_uc x (a_uuid a)) a) → Q (σ + len, Some (mark_of x (a_uuid a))) c') →
  wp (lock_swa_part n len y σ uuid) Q c.
Proof.
  intros w len Hab Hx Hxn Hl Et El Eu Htomb HQ1 HQ2 HQ3. unfold lock_swa_part. wp_steps. rewrite (ab_cfg _ _ Hab). fold w.
  case_bool_decide as Hσ; [|wp_step; apply HQ1; lia]. specialize (Htomb Hσ). specialize (HQ2 Hσ). specialize (HQ3 Hσ).
  rewrite Et, Htomb. wp_steps. rewrite El. eapply wp_count_swa; [done|by apply count_inc|]. intros c1 Hab1. wp_step.
  eapply wp_upd_snode; [done|exact Hx|done|by intros ?|]. intros c2 Hab2. cbv zeta.
  case_bool_decide as Hw.
  - wp_step. rewrite Eu. unfold mark_of, next_uc in HQ3. destruct (swa_uuid x) as [u|] eqn:Exu; simpl in HQ3.
    + wp_steps. apply HQ3; [done|]. eapply abs_eq; [exact Hab2|]. unfold aswa, aset_uuid, aset_nodes, aadd_swa. simpl. do 2 f_equal.
      destruct x. unfold lock_node, set_swa_uuid, add_swa_lock, add_full_lock. simpl in *. f_equal; [lia|done].
    + wp_step. unfold gen_swa_uuid. wp_steps. rewrite (ab_uuid _ _ Hab2).
      apply (abs_set_uuid _ _ (a_uuid a + 1)) in Hab2. simpl a_uuid.
      eapply wp_upd_snode; [exact Hab2|simpl; apply lookup_insert_eq| |by intros ?|].
      { intros E. apply (f_equal swa_lock_ref) in E. simpl in E. lia. }
      intros c3 Hab3. wp_steps. apply HQ3; [done|]. eapply abs_eq; [exact Hab3|]. unfold aswa, aset_uuid, aset_nodes, aadd_swa. simpl.
      rewrite insert_insert_eq. do 2 f_equal. destruct x. unfold lock_node, set_swa_uuid, add_swa_lock, add_full_lock. simpl in *. f_equal; lia.
  - wp_step. apply HQ2; [lia|]. eapply abs_eq; [exact Hab2|]. unfold aswa, aset_uuid, aset_nodes, aadd_swa. simpl. do 2 f_equal.
    destruct x. unfold lock_node, set_swa_uuid, add_swa_lock, add_full_lock. simpl in *. f_equal; lia.
Qed.

(** *** Windows *)
Definition window_of G (root m top q : nat) : bool := on_path G root m q && bool_decide (plen G top < plen G q).
Lemma on_path_plen G root m q : on_path G root m q = true → plen G q ≤ plen G m.
Proof.
  unfold on_path, plen. destruct (G !! q); [|done]. destruct (G !! m); [|done]. intros [Hp%bool_decide_eq_true _]%andb_prop. by apply prefix_length.
Qed.
Lemma parent_plen v G n g (x : core) p gp px : G !! n = Some g → node_ok v G n g x p gp px → plen G n = plen G p + key_len (c_key x) ∧ 0 < key_len (c_key x).
Proof.
  intros Hg Hok. split; [|apply (no_pos Hok)]. unfold plen. rewrite Hg, (no_gpar Hok). simpl. apply (node_ok_len _ _ _ _ _ _ _ _ Hok).
Qed.
Lemma top_above v X G m gm uuid top : tree_ok v G → G !! m = Some gm → top_ok v X G m uuid top →
  plen G top ≤ plen G m ∧ (m ≠ tv_root v → plen G top < plen G m) ∧ ∃ gt, G !! top = Some gt ∧ g_path gt `prefix_of` g_path gm.
Proof.
  intros Ht Hm. unfold top_ok. destruct uuid as [u|].
  - intros (r & Hr & _ & Hp). pose proof (on_path_plen _ _ _ _ Hr) as Hle. pose proof (on_path_inner v G m r Hr) as Hin.
    destruct (hpar_node_ok v G r Ht Hin) as (g & x & p & gp & px & Hg & Hrr & Hok & Hp'). assert (p = top) as -> by congruence.
    destruct (parent_plen _ _ _ _ _ _ _ _ Hg Hok) as [E1 E2]. split_and!; [lia|lia|]. exists gp. split; [apply (no_gpar Hok)|].
    etrans; [by eapply node_ok_prefix|]. unfold on_path in Hr. rewrite Hg, Hm in Hr. by apply andb_prop in Hr as [?%bool_decide_eq_true _].
  - intros ->. assert (plen G (tv_root v) = 0) as E by (unfold plen; by rewrite (to_groot Ht)). split_and!; [lia| |].
    + intros Hn. destruct (to_node Ht m gm Hm Hn) as (x & p & gp & px & Hok). destruct (parent_plen _ _ _ _ _ _ _ _ Hm Hok). lia.
    + exists (MkG [] []). split; [apply (to_groot Ht)|]. apply prefix_nil.
Qed.
(** The window at a node, from the window at its parent. *)
Lemma window_step_up v G m gm (x : core) p gp px top q : tree_ok v G → G !! m = Some gm → m ≠ tv_root v → node_ok v G m gm x p gp px → plen G top ≤ plen G p →
  window_of G (tv_root v) m top q = bool_decide (q = m) || window_of G (tv_root v) p top q ∧ (q = m → window_of G (tv_root v) p top q = false).
Proof.
  intros Ht Hm Hr Hok Hle. destruct (parent_plen _ _ _ _ _ _ _ _ Hm Hok) as [E1 E2]. unfold window_of.
  destruct (on_path_step v G m gm x p gp px q Ht Hm Hr Hok) as [-> Hno]. split; [|by intros ->; rewrite Hno].
  case_bool_decide as E; simpl; [|done]. subst q. by rewrite bool_decide_true by lia.
Qed.
Lemma window_single v G m gm (x : core) p gp px q : tree_ok v G → G !! m = Some gm → m ≠ tv_root v → node_ok v G m gm x p gp px →
  window_of G (tv_root v) m p q = bool_decide (q = m).
Proof.
  intros Ht Hm Hr Hok. destruct (window_step_up v G m gm x p gp px p q Ht Hm Hr Hok) as [-> _]; [done|].
  case_bool_decide; [done|]. simpl. unfold window_of. destruct (on_path G (tv_root v) p q) eqn:E; [|done]. apply on_path_plen in E.
  simpl. by rewrite bool_decide_false by lia.
Qed.

Lemma LInv_ext lv a G L L' W W' own :
  LInv lv a G L W own → (∀ k, k ∈ inner (sview lv a) G → L k = L' k) → (∀ k, k ∉ dom G → L' k = 0%Z) → (∀ k, k ∈ inner (sview lv a) G → W' k = W k) →
  LInv lv a G L' W' own.
Proof. intros [] H1 H2 H3. split; try done; [by eapply Inv_locks_ext|by eapply swa_ok_ext]. Qed.
End locks.

(** The walks of [inc_lock_ref], [dec_lock_ref] and [dec_swa_lock_only]: a hold is taken,
    given back, or gives back its window only. *)

Section lock_ops.
Context {A : Type} {alloc : SWAAllocator A} {ps : nat} {laws : SWAAllocatorLaws A ps}.
Implicit Types (c : SWACache A) (a : ACache A) (G : gmap nat gnode) (H : list hold) (own : Z → Z) (x y : SNode) (n m p q : nat) (lv : gset nat) (L W : nat → Z).

(** ** inc_lock_ref *)

(** At the root nothing is left to do. *)
Lemma root_linv lv a G L W W' own d :
  LInv lv a G L W own → (∀ q, q ∈ inner (sview lv a) G → W' q = W q) → LInv lv a G (add_lock L (a_root a) d) W' own.
Proof.
  intros HI HW. eapply LInv_ext; [done| | |done].
  - intros k [_ Hk]%elem_of_inner. unfold add_lock. rewrite decide_False by done. lia.
  - intros k Hk. unfold add_lock. destruct (inv_locks _ _ _ (li_tree _ _ _ _ _ _ HI)) as [_ _ ->]; [|done].
    rewrite decide_False; [done|]. intros ->. apply Hk, elem_of_dom. exists (MkG [] []). exact (to_groot (inv_tree _ _ _ (li_tree _ _ _ _ _ _ HI))).
Qed.
(** The locks after the step at [m] and the rest of the walk. *)
Lemma step_locks L m p d k : add_lock (add_lock (add_lock L m d) p (- d)) p d k = add_lock L m d k.
Proof. unfold add_lock. repeat case_decide; lia. Qed.
Lemma locks_out lv a G L W own m gm d k : LInv lv a G L W own → G !! m = Some gm → k ∉ dom G → add_lock L m d k = 0%Z.
Proof.
  intros HI Hm Hk. unfold add_lock. destruct (inv_locks _ _ _ (li_tree _ _ _ _ _ _ HI)) as [_ _ ->]; [|done].
  rewrite decide_False; [done|]. intros ->. apply Hk, elem_of_dom. eauto.
Qed.

Definition lockable w a G m (σ : nat) : Prop :=
  ∀ q, on_path G (a_root a) m q = true → σ + (plen G m - plen G q) < w → xt (sx a) q = false.

(** The windows of a walk from [m]: [d] more on the nodes below [top]. *)
Definition add_windows (b : bool) G (root m top : nat) (d : Z) W : nat → Z := λ q, (W q + if b && window_of G root m top q then d else 0)%Z.

Lemma top_ok_up v v' X G m gm (x : core) p gp px uuid top :
  tree_ok v G → G !! m = Some gm → m ≠ tv_root v → node_ok v G m gm x p gp px → tv_root v' = tv_root v →
  top_ok v' X G p uuid top → top_ok v' X G m uuid top.
Proof.
  intros Ht Hm Hr Hok Er. unfold top_ok. rewrite Er. destruct uuid; [|done]. intros (r & Hrp & Hr'). exists r. split; [|done].
  destruct (on_path_step v G m gm x p gp px r Ht Hm Hr Hok) as [-> _]. rewrite Hrp. apply orb_true_r.
Qed.
(** The step at [m], then the windows above. *)
Lemma add_windows_step v G m gm (x : core) p gp px top d W q :
  tree_ok v G → G !! m = Some gm → m ≠ tv_root v → node_ok v G m gm x p gp px → plen G top ≤ plen G p →
  add_windows true G (tv_root v) m top d W q = add_windows true G (tv_root v) p top d (add_window W m d) q.
Proof.
  intros Ht Hm Hr Hok Hle. unfold add_windows, add_window. destruct (window_step_up v G m gm x p gp px top q Ht Hm Hr Hok Hle) as [-> Hno]. simpl.
  destruct (decide (q = m)) as [E|E]; [rewrite (Hno E), bool_decide_true by done; simpl; lia|rewrite bool_decide_false by done; simpl; lia].
Qed.
Lemma add_windows_last v G m gm (x : core) p gp px d W q :
  tree_ok v G → G !! m = Some gm → m ≠ tv_root v → node_ok v G m gm x p gp px →
  add_windows true G (tv_root v) m p d W q = add_window W m d q.
Proof.
  intros Ht Hm Hr Hok. unfold add_windows, add_window. rewrite (window_single v G m gm x p gp px q Ht Hm Hr Hok). simpl.
  case_bool_decide; [by rewrite decide_True|by rewrite decide_False].
Qed.
Lemma add_windows_none G root m top d W q : add_windows false G root m top d W q = W q.
Proof. unfold add_windows. simpl. lia. Qed.

(** What the loop of [inc_lock_ref] does from [m] on, when [σ] tokens have been locked. *)
Definition inc_spec (fuel : nat) : Prop := ∀ c lv a G L W own m gm σ uuid (Q : option Z → SWACache A → Prop),
  let w := sliding_window_size (a_cfg a) in
  abs c a → LInv lv a G L W own → (∀ q, (0 <= W q)%Z) → G !! m = Some gm → rank G gm < fuel →
  (σ < w → uuid = None ∧ lockable w a G m σ) →
  (∀ c' lv' a' uuid' top, abs c' a' → lock_frame a a' →
    (if decide (σ < w) then top_ok (sview lv' a') (sx a') G m uuid' top else uuid' = uuid) → (σ < w → top = a_root a ∨ w ≤ σ + (plen G m - plen G top)) →
    LInv lv' a' G (add_lock L m 1) (add_windows (bool_decide (σ < w)) G (a_root a) m top 1 W) own → Q uuid' c') →
  wp (swa_inc_loop fuel m σ uuid) Q c.
(** One node is locked, the loop goes on with its parent. *)
Lemma inc_up fuel c3 lv a G L W own m gm x p gp px e u uc σ σ' uuid' (Q : option Z → SWACache A → Prop) (w := sliding_window_size (a_cfg a)) :
  inc_spec fuel → LInv lv a G L W own → (∀ q, (0 <= W q)%Z) → a_nodes a !! m = Some x → G !! m = Some gm → m ≠ a_root a → node_ok (sview lv a) G m gm (s_core x) p gp px →
  (0 <= full_lock_ref x)%Z → rank G gm < S fuel → (σ < w → lockable w a G m σ) →
  abs c3 (alock m x 1 e u uc a) → window_step (swa_tombstone x) e (swa_uuid x) u (a_uuid a) uc → (0 <= e)%Z → (σ' < w → σ' = σ + key_len (s_key x) ∧ uuid' = None) →
  (∀ c' lv' a' uuid'' top, abs c' a' → lock_frame a a' → lock_frame (alock m x 1 e u uc a) a' →
    (if decide (σ' < w) then top_ok (sview lv' a') (sx a') G p uuid'' top ∧ plen G top ≤ plen G p else uuid'' = uuid') →
    (σ' < w → top = a_root a ∨ w ≤ σ' + (plen G p - plen G top)) →
    LInv lv' a' G (add_lock L m 1) (add_windows (bool_decide (σ' < w)) G (a_root a) p top 1 (add_window W m e)) own → Q uuid'' c') →
  wp (swa_inc_loop fuel p σ' uuid') Q c3.
Proof.
  intros IH HI HW Hx Hm Hroot Hok Hl Hfuel Hσ Hab3 Hw He Hσ' HQ'. assert (0 <= full_lock_ref x + 1)%Z as Hl1 by lia. pose proof (inv_tree _ _ _ (li_tree _ _ _ _ _ _ HI)) as Ht.
  destruct (parent_plen _ _ _ _ _ _ _ _ Hm Hok) as [Eplen Hpos]. simpl in Eplen, Hpos. pose proof (alock_linv _ _ _ _ _ _ _ _ _ _ _ _ _ _ _ _ HI Hx Hm Hroot Hok Hl1 Hw) as HI3.
  assert (lock_frame a (alock m x 1 e u uc a)) as Hf.
  { apply alock_frame; [done|]. destruct Hw as [(_ & -> & _)|(_ & _ & [->|[-> _]])]; auto. }
  eapply (IH _ _ _ _ _ _ _ p gp); [exact Hab3|exact HI3| |apply (no_gpar Hok)|pose proof (rank_parent _ _ _ _ _ _ _ _ Hok); lia| |].
  - intros q. unfold add_window. pose proof (HW q). destruct (decide (q = m)); lia.
  - intros Hlt. destruct (Hσ' Hlt) as [-> ->]. split; [done|]. intros q Hq Hq'. rewrite (frame_xt _ _ _ Hf).
    assert (σ < w) as Hσw by (simpl in Hlt; fold w in Hlt; lia). apply (Hσ Hσw).
    + destruct (on_path_step (sview lv a) G m gm (s_core x) p gp px q Ht Hm Hroot Hok) as [E _]. simpl in E, Hq |- *. rewrite E, Hq. apply orb_true_r.
    + pose proof (on_path_plen _ _ _ _ Hq). simpl in Hq'. fold w in Hq'. lia.
  - intros c' lv' a' uuid'' top Hab' Hf' Htop Hwide HI'. eapply (HQ' c' lv' a' uuid'' top); [done|by eapply lock_frame_trans|done| |done|].
    + simpl in Htop. fold w in Htop. destruct (decide (σ' < w)); [|done]. split; [done|].
      eapply (top_above (sview lv' a') (sx a')); [apply (li_tree _ _ _ _ _ _ HI')|apply (no_gpar Hok)|done].
    + eapply LInv_ext; [exact HI'|intros k _; apply step_locks|intros k Hk; by eapply locks_out|done].
Qed.
Lemma wp_swa_inc_loop fuel : inc_spec fuel.
Proof.
  induction fuel as [|fuel IH]; intros c lv a G L W own m gm σ uuid Q w Hab HI HW Hm Hfuel Hσ HQ; [lia|]. simpl.
  pose proof (inv_tree _ _ _ (li_tree _ _ _ _ _ _ HI)) as Ht. wp_steps. rewrite (ab_root _ _ Hab). destruct (decide (m = a_root a)) as [Hroot|Hroot].
  { subst m. wp_step. eapply (HQ _ lv a uuid (a_root a)); [done|apply lock_frame_refl| |by left|].
    - destruct (decide (σ < w)) as [Hlt|]; [by destruct (Hσ Hlt) as [-> _]|done].
    - apply root_linv with W; [done|]. intros q _. unfold add_windows, window_of. pose proof (on_path_root (sview lv a) G q Ht) as E. simpl in E. rewrite E. simpl. rewrite andb_false_r. lia. }
  destruct (walk_node _ _ _ _ _ _ _ _ HI Hm Hroot) as (x & p & gp & px & vv & Hin & Hx & Hok & Hpar & Hvv & Hlen & Hxn & Hl & Hs).
  destruct (parent_plen _ _ _ _ _ _ _ _ Hm Hok) as [Eplen Hpos]. simpl in Eplen, Hpos.
  assert (0 <= swa_lock_ref x)%Z as Hs0 by (rewrite Hs; apply HW). destruct (sx_lookup _ _ _ Hx) as (_ & Ext & _).
  assert (σ < w → swa_tombstone x = false) as Htomb.
  { intros Hlt. destruct (Hσ Hlt) as [_ Hlk]. rewrite <-Ext. apply Hlk; [by apply (on_path_refl (sview lv a))|lia]. }
  wp_step. eapply wp_get_snode; [done|exact Hx|]. intros y Ey. destruct (plain_fields _ _ Ey) as (_ & Epar & _ & Eval & Et & Ef & Es & Eu).
  unfold value_of, parent_of. rewrite Epar, Eval, Ef, Hpar, Hvv. wp_steps. rewrite bool_decide_true by done. wp_steps. rewrite Hlen.
  eapply wp_count_full; [done|by apply count_inc|]. intros c1 Hab1. wp_step.
  eapply wp_upd_snode; [done|exact Hx|done|by intros ?|]. intros c2 Hab2. change (abs c2 (afull m x 1 a)) in Hab2. wp_step.
  assert (σ < w → lockable w a G m σ) as Hlk by (intros Hlt; apply (Hσ Hlt)).
  pose proof (λ c3 e u uc σ' uuid', inc_up fuel c3 lv a G L W own m gm x p gp px e u uc σ σ' uuid' Q IH HI HW Hx Hm Hroot Hok Hl Hfuel Hlk) as Hrest. fold w in Hrest.
  eapply (wp_lock_swa_part c2 (afull m x 1 a) m (add_full_lock 1 x) y σ uuid); [done|apply lookup_insert_eq| |done|done|done|done|done|..].
  { intros E. apply (f_equal full_lock_ref) in E. simpl in E. lia. }
  - intros Hw. simpl in Hw. fold w in Hw. wp_steps. cbn [fst snd]. rewrite afull_alock in Hab2.
    eapply (Hrest _ 0%Z); [exact Hab2|by left|done|lia|]. intros c' lv' a' uuid'' top Hab' Hf _ Htop _ HI'.
    rewrite decide_False in Htop by lia. eapply (HQ _ _ _ _ top); [done|done|by rewrite decide_False by lia|lia|].
    eapply LInv_ext; [exact HI'|done|intros; by eapply locks_out|]. intros q _. rewrite !bool_decide_false by lia. rewrite !add_windows_none.
    unfold add_window. destruct (decide (q = m)); lia.
  - intros Hlt Hlt' c3 Hab3. simpl in Hlt, Hlt'. fold w in Hlt, Hlt'. wp_steps. cbn [fst snd]. simpl key_len in *. rewrite alock_parts in Hab3.
    destruct (Hσ Hlt) as [-> _]. specialize (Htomb Hlt).
    eapply (Hrest _ 1%Z); [exact Hab3|right; simpl; split_and!; [done|done|by left]|done|done|]. intros c' lv' a' uuid'' top Hab' Hf _ Htop Hwide HI'.
    rewrite decide_True in Htop by done. destruct Htop as [Htop Hle]. pose proof (inv_tree _ _ _ (li_tree _ _ _ _ _ _ HI')) as Ht'.
    eapply (HQ _ _ _ _ top); [done|done| |intros _; destruct (Hwide Hlt') as [|Hwd]; [by left|right; lia]|].
    + rewrite decide_True by done. eapply (top_ok_up (sview lv a)); [done|done|done|exact Hok|exact (lf_root _ _ Hf)|exact Htop].
    + eapply LInv_ext; [exact HI'|done|intros; by eapply locks_out|]. intros q _. rewrite !bool_decide_true by done.
      by eapply (add_windows_step (sview lv a)).
  - intros Hlt Hge c3 Hab3. simpl in Hlt, Hge. fold w in Hlt, Hge. wp_steps. cbn [fst snd]. simpl key_len in *. rewrite alock_parts in Hab3. specialize (Htomb Hlt).
    set (u := mark_of (add_full_lock 1 x) (a_uuid (afull m x 1 a))) in *. set (uc := next_uc (add_full_lock 1 x) (a_uuid (afull m x 1 a))) in *.
    assert (window_step (swa_tombstone x) 1 (swa_uuid x) (Some u) (a_uuid a) uc) as Hws.
    { right. unfold u, uc, mark_of, next_uc. simpl. destruct (swa_uuid x); simpl; split_and!; (done || lia || auto). right. split_and!; [done|done|lia]. }
    eapply (Hrest _ 1%Z); [exact Hab3|exact Hws|done|lia|]. intros c' lv' a' uuid'' top Hab' Hf Hf' Htop _ HI'.
    rewrite decide_False in Htop by lia. subst uuid''. eapply (HQ _ _ _ _ p); [done|done| |intros _; right; lia|].
    + rewrite decide_True by done. eapply (frame_top_ok (lock_leaves (sview lv a) m (s_core x) 1)); [exact (lock_mark_frame _ _ Hf')|]. exists m. split_and!.
      * by apply (on_path_refl (sview lv a)).
      * unfold xu, sx. simpl. by rewrite lookup_fmap, lookup_insert_eq.
      * unfold hpar. simpl. rewrite lookup_fmap, lookup_insert_eq. done.
    + eapply LInv_ext; [exact HI'|done|intros; by eapply locks_out|]. intros q _. rewrite (bool_decide_true (σ < w)), bool_decide_false by lia.
      rewrite add_windows_none. by eapply (add_windows_last (sview lv a)).
Qed.

Lemma rank_size G g : rank G g ≤ size G.
Proof. unfold rank. apply map_subseteq_size, map_filter_subseteq. Qed.
Lemma full_holds_cons h H k : full_holds (h :: H) k = add_lock (full_holds H) (h_node h) 1 k.
Proof. unfold full_holds, add_lock. rewrite count_holds_cons. case_bool_decide as E; [rewrite decide_True by done|rewrite decide_False by done]; lia. Qed.
Lemma swa_holds_cons v G h H k : swa_holds v G (h :: H) k = add_windows (h_swa h) G (tv_root v) (h_node h) (h_top h) 1 (swa_holds v G H) k.
Proof. unfold swa_holds, add_windows. rewrite count_holds_cons. unfold in_window, window_of. rewrite andb_assoc. lia. Qed.
Lemma frame_swa_holds lv lv' a a' G H k : a_root a' = a_root a → swa_holds (sview lv' a') G H k = swa_holds (sview lv a) G H k.
Proof. intros E. apply count_holds_ext. intros h _. unfold in_window. simpl. by rewrite E. Qed.

(** A walk that took or gave back a hold: the holds are now [H']. *)
Lemma LInv_AInv lv lv' a a' G H H' L W own :
  LInv lv' a' G L W own → mark_frame a a' → Forall (hold_ok (sview lv a) (sx a) G) H →
  (∀ h, h ∈ H' → h ∈ H ∨ hold_ok (sview lv' a') (sx a') G h) →
  (∀ k, k ∈ inner (sview lv' a') G → full_holds H' k = L k) → (∀ k, k ∉ dom G → full_holds H' k = 0%Z) →
  (∀ k, k ∈ inner (sview lv' a') G → swa_holds (sview lv' a') G H' k = W k) → AInv lv' a' G H' own.
Proof.
  intros HI Hf Hh HH HL Hout HW. apply AInv_LInv. split.
  - eapply LInv_ext; [exact HI|intros; symmetry; auto|done|auto].
  - apply Forall_forall. intros h Hin. destruct (HH h Hin) as [Hin'|]; [|done]. rewrite Forall_forall in Hh. eapply (frame_hold_ok lv); [done|auto].
Qed.
Lemma holds_out v G X H k : Forall (hold_ok v X G) H → k ∉ dom G → full_holds H k = 0%Z.
Proof.
  intros Hh Hk. destruct (decide (0 < full_holds H k)%Z) as [Hpos|]; [|pose proof (full_holds_nonneg H k); lia].
  apply count_holds_pos_inv in Hpos as (h & Hin & E%bool_decide_eq_true). rewrite Forall_forall in Hh. destruct (Hh h Hin) as [(g & _ & Hg & _) _].
  destruct Hk. apply elem_of_dom. rewrite <-E. eauto.
Qed.

Lemma wp_swa_inc_lock_ref c lv a G H own n g (Q : option Z → SWACache A → Prop) :
  let w := sliding_window_size (a_cfg a) in
  abs c a → AInv lv a G H own → sw_disable (a_cfg a) = false → 0 < w → G !! n = Some g → lockable w a G n 0 →
  (∀ c' lv' a' u top, abs c' a' → lock_frame a a' → top = a_root a ∨ w ≤ plen G n - plen G top →
    AInv lv' a' G (MkHold n u top true :: H) own → Q u c') →
  wp (swa_inc_lock_ref n) Q c.
Proof.
  intros w Hab HI Hdis Hw Hg Hlk HQ. unfold swa_inc_lock_ref. wp_steps. rewrite (ab_cfg _ _ Hab), Hdis. wp_steps. rewrite (abs_size _ _ Hab).
  pose proof HI as [HL Hh]%AInv_LInv. pose proof (inv_tree _ _ _ (ai_tree _ _ _ _ _ HI)) as Ht.
  eapply (wp_swa_inc_loop _ _ _ _ _ _ _ _ n g); [done|exact HL|intros; apply count_holds_nonneg|done| |done|].
  { pose proof (rank_size G g). pose proof (tree_size _ _ _ _ _ HI). lia. }
  intros c' lv' a' u top Hab' Hf Htop Hwide HI'. rewrite decide_True in Htop by done. rewrite bool_decide_true in HI' by done.
  apply (HQ c' lv' a' u top); [done|done|by apply Hwide|]. eapply LInv_AInv; [exact HI'|exact (lock_mark_frame _ _ Hf)|exact Hh| |intros k _; apply full_holds_cons| |].
  - intros h [->|?]%elem_of_cons; [right|by left]. split; [|done]. simpl.
    destruct (top_above _ _ _ _ _ _ _ (inv_tree _ _ _ (li_tree _ _ _ _ _ _ HI')) Hg Htop) as (_ & _ & gt & Hgt & Hpre). eauto.
  - intros k Hk. rewrite full_holds_cons. by eapply locks_out.
  - intros k _. rewrite swa_holds_cons. simpl. unfold add_windows. rewrite (frame_swa_holds lv lv' a a') by apply (lf_root _ _ Hf). by rewrite (lf_root _ _ Hf).
Qed.

(** ** dec_lock_ref *)

(** The walk has passed the last node of the window iff it has met the mark. *)
Lemma mark_last lv a G L W own m gm x p gp px uuid top :
  LInv lv a G L W own → a_nodes a !! m = Some x → G !! m = Some gm → m ≠ a_root a → node_ok (sview lv a) G m gm (s_core x) p gp px →
  top_ok (sview lv a) (sx a) G m uuid top →
  if is_last uuid x then top = p else top_ok (sview lv a) (sx a) G p uuid top ∧ plen G top ≤ plen G p.
Proof.
  intros HI Hx Hm Hr Hok Htop. pose proof (inv_tree _ _ _ (li_tree _ _ _ _ _ _ HI)) as Ht. destruct (sx_lookup _ _ _ Hx) as (_ & _ & _ & Eu).
  assert (m ∈ inner (sview lv a) G) as Hin by (apply elem_of_inner; eauto). destruct (li_swa _ _ _ _ _ _ HI) as [_ _ _ _ Hinj Hbound].
  assert (top_ok (sview lv a) (sx a) G p uuid top → plen G top ≤ plen G p) as Hle by (intros Hp; by eapply top_above; [|apply (no_gpar Hok)|]).
  unfold top_ok in Htop. destruct uuid as [u|]; [|simpl; split; [done|by apply Hle]]. destruct Htop as (r & Hon & Hru & Hrp).
  pose proof (on_path_inner (sview lv a) G m r Hon) as Hrin. pose proof (Hbound r u Hrin Hru) as Hu.
  unfold is_last. rewrite (bool_decide_true (u ≠ 0%Z)) by lia. simpl. case_bool_decide as E.
  - assert (r = m) as -> by (apply (Hinj r m u); [done|done|done|congruence]).
    unfold hpar in Hrp. rewrite (sview_lookup lv _ _ _ Hx) in Hrp. pose proof (no_par Hok) as Hp. simpl in Hrp, Hp. congruence.
  - assert (top_ok (sview lv a) (sx a) G p (Some u) top) as Hp; [|auto]. exists r. split_and!; [|done|done].
    destruct (on_path_step (sview lv a) G m gm (s_core x) p gp px r Ht Hm Hr Hok) as [E' _]. rewrite E' in Hon.
    apply orb_prop in Hon as [->%bool_decide_eq_true|]; [congruence|done].
Qed.

(** What the loop of [dec_lock_ref] does from [m] on. *)
Definition dec_spec (fuel : nat) : Prop := ∀ c lv a G L W own m gm uuid b top (Q : unit → SWACache A → Prop),
  abs c a → LInv lv a G L W own → G !! m = Some gm → has_lock L m → rank G gm < fuel →
  (b = true → top_ok (sview lv a) (sx a) G m uuid top) →
  (∀ q, b && window_of G (a_root a) m top q = true → (1 <= W q)%Z) →
  (∀ c' lv' a', abs c' a' → lock_frame a a' → LInv lv' a' G (add_lock L m (-1)) (add_windows b G (a_root a) m top (-1) W) own → Q tt c') →
  wp (swa_dec_loop fuel m uuid b) Q c.
(** One node is unlocked, the loop goes on with its parent. *)
Lemma dec_up fuel c3 lv a G L W own m gm x p gp px e uuid b b' top (Q : unit → SWACache A → Prop) :
  dec_spec fuel → LInv lv a G L W own → a_nodes a !! m = Some x → G !! m = Some gm → m ≠ a_root a → node_ok (sview lv a) G m gm (s_core x) p gp px →
  has_lock L m → (0 < full_lock_ref x)%Z → rank G gm < S fuel →
  abs c3 (alock m x (-1) e (swa_uuid x) (a_uuid a) a) → window_step (swa_tombstone x) e (swa_uuid x) (swa_uuid x) (a_uuid a) (a_uuid a) →
  (b' = true → top_ok (sview lv a) (sx a) G p uuid top) → (∀ q, b' && window_of G (a_root a) p top q = true → (1 <= add_window W m e q)%Z) →
  (∀ q, add_windows b G (a_root a) m top (-1) W q = add_windows b' G (a_root a) p top (-1) (add_window W m e) q) →
  (∀ c' lv' a', abs c' a' → lock_frame a a' → LInv lv' a' G (add_lock L m (-1)) (add_windows b G (a_root a) m top (-1) W) own → Q tt c') →
  wp (swa_dec_loop fuel p uuid b') Q c3.
Proof.
  intros IH HI Hx Hm Hroot Hok [HL1 HL0] Hl1 Hfuel Hab3 Hw Htop' HW' Heq HQ. assert (0 <= full_lock_ref x + -1)%Z as Hl2 by lia.
  assert (has_lock (add_lock (add_lock L m (-1)) p (- -1)) p) as Hlp.
  { pose proof (node_ok_ne _ _ _ _ _ _ _ _ Hok Hm) as Hmp. unfold add_lock. split.
    - pose proof (HL0 p (not_eq_sym Hmp)). rewrite (decide_False (P := p = m)), decide_True by done. lia.
    - intros k Hk. rewrite (decide_False (P := k = p)) by done. destruct (decide (k = m)); [subst; lia|]. pose proof (HL0 k). lia. }
  pose proof (alock_linv _ _ _ _ _ _ _ _ _ _ _ _ _ _ _ _ HI Hx Hm Hroot Hok Hl2 Hw) as HI3.
  assert (lock_frame a (alock m x (-1) e (swa_uuid x) (a_uuid a) a)) as Hf by (apply alock_frame; auto).
  eapply (IH _ _ _ _ _ _ _ p gp); [exact Hab3|exact HI3|apply (no_gpar Hok)|done|pose proof (rank_parent _ _ _ _ _ _ _ _ Hok); lia| |exact HW'|].
  - intros Hb. eapply frame_top_ok; [exact (lock_mark_frame _ _ Hf)|by apply Htop'].
  - intros c' lv' a' Hab' Hf' HI'. apply (HQ c' lv' a'); [done|by eapply lock_frame_trans|]. eapply LInv_ext; [exact HI'| |intros k Hk; by eapply locks_out|].
    + intros k _. apply (step_locks L m p (-1)).
    + intros k _. apply Heq.
Qed.
Lemma wp_swa_dec_loop fuel : dec_spec fuel.
Proof.
  induction fuel as [|fuel IH]; intros c lv a G L W own m gm uuid b top Q Hab HI Hm HL Hfuel Htop HW HQ; [lia|]. simpl. pose proof HL as [HL1 HL0].
  pose proof (inv_tree _ _ _ (li_tree _ _ _ _ _ _ HI)) as Ht. wp_steps. rewrite (ab_root _ _ Hab). destruct (decide (m = a_root a)) as [Hroot|Hroot].
  { subst m. wp_step. apply (HQ _ lv a); [done|apply lock_frame_refl|]. apply root_linv with W; [done|]. intros q _. unfold add_windows, window_of.
    pose proof (on_path_root (sview lv a) G q Ht) as E. simpl in E. rewrite E. simpl. rewrite andb_false_r. lia. }
  destruct (walk_node _ _ _ _ _ _ _ _ HI Hm Hroot) as (x & p & gp & px & vv & Hin & Hx & Hok & Hpar & Hvv & Hlen & Hxn & Hl & Hs).
  assert (0 < full_lock_ref x)%Z as Hl1.
  { destruct (inv_locks _ _ _ (li_tree _ _ _ _ _ _ HI)) as [_ Hsum _]. specialize (Hsum m Hin). unfold hlock in Hsum at 1. rewrite (sview_lookup _ _ _ _ Hx) in Hsum.
    simpl in Hsum. pose proof (kids_lock_nonneg _ _ _ m (li_tree _ _ _ _ _ _ HI)) as Hk. simpl in Hk. lia. }
  wp_step. eapply wp_get_snode; [done|exact Hx|]. intros y Ey. destruct (plain_fields _ _ Ey) as (_ & Epar & _ & Eval & Et & Ef & Es & Eu).
  unfold value_of, parent_of. rewrite Epar, Eval, Ef, Es, Et, Hpar, Hvv. wp_steps. rewrite bool_decide_true by done. wp_steps. rewrite Hlen.
  replace (is_last uuid y) with (is_last uuid x) by (unfold is_last; by rewrite Eu).
  eapply wp_count_full; [done|by apply count_dec|]. intros c1 Hab1. wp_step.
  eapply wp_upd_snode; [done|exact Hx|done|by intros ?|]. intros c2 Hab2. change (abs c2 (afull m x (-1) a)) in Hab2. wp_step.
  pose proof (λ c3 e b', dec_up fuel c3 lv a G L W own m gm x p gp px e uuid b b' top Q IH HI Hx Hm Hroot Hok HL Hl1 Hfuel) as Hrest.
  destruct b; simpl.
  - assert (plen G top < plen G m) as Hlt by (by eapply (top_above (sview lv a)); [done|done|apply Htop|]).
    assert (1 <= W m)%Z as HWm.
    { apply HW. unfold window_of. pose proof (on_path_refl (sview lv a) G m Hin) as E. simpl in E. by rewrite E, bool_decide_true. }
    assert (swa_tombstone x = false) as Htf.
    { destruct (swa_tombstone x) eqn:Etx; [|done]. destruct (sx_lookup _ _ _ Hx) as (_ & E1 & E2 & _). rewrite Etx in E1.
      pose proof (xo_tomb _ _ _ _ _ _ _ (li_swa _ _ _ _ _ _ HI) m Hin E1). lia. }
    rewrite Htf. wp_steps. rewrite bool_decide_true by lia. wp_steps.
    eapply wp_count_swa; [done|apply count_dec; lia|]. intros c3 Hab3.
    eapply wp_upd_snode; [done|simpl; apply lookup_insert_eq| |by intros ?|].
    { intros E. apply (f_equal s_value) in E. simpl in E. congruence. }
    intros c4 Hab4. wp_steps.
    assert (abs c4 (alock m x (-1) (-1) (swa_uuid x) (a_uuid a) a)) as Hab5.
    { rewrite <-alock_parts. eapply abs_eq; [exact Hab4|]. unfold aswa, afull, aset_uuid, aset_nodes, aadd_swa, aadd_full. simpl. rewrite !insert_insert_eq. do 2 f_equal.
      destruct x. unfold lock_node, set_swa_uuid, add_swa_lock, add_full_lock. simpl. f_equal; lia. }
    pose proof (mark_last _ _ _ _ _ _ _ _ _ _ _ _ _ _ HI Hx Hm Hroot Hok (Htop eq_refl)) as Hlast.
    eapply (Hrest _ (-1)%Z); [exact Hab5|right; split_and!; [done|lia|by left]| | | |exact HQ].
    + intros Hb. destruct (is_last uuid x); [done|apply Hlast].
    + intros q. destruct (is_last uuid x); simpl; [done|]. destruct Hlast as [_ Hle]. intros Hq.
      destruct (window_step_up (sview lv a) G m gm (s_core x) p gp px top q Ht Hm Hroot Hok Hle) as [E1 E2]. simpl in E1, E2.
      unfold add_window. destruct (decide (q = m)) as [Eq|]; [rewrite E2 in Hq by done; done|]. rewrite Z.add_0_r. apply HW. simpl. rewrite E1, Hq. apply orb_true_r.
    + intros q. destruct (is_last uuid x); simpl.
      * subst top. rewrite add_windows_none. by eapply (add_windows_last (sview lv a)).
      * destruct Hlast as [_ Hle]. by eapply (add_windows_step (sview lv a)).
  - wp_steps. rewrite afull_alock in Hab2. eapply (Hrest _ 0%Z); [exact Hab2|by left|done|done| |exact HQ].
    intros q. rewrite !add_windows_none. unfold add_window. destruct (decide (q = m)); lia.
Qed.

Lemma AInv_perm lv a G H H' own : H ≡ₚ H' → AInv lv a G H own → AInv lv a G H' own.
Proof.
  intros Hp [HL Hh]%AInv_LInv. apply AInv_LInv. split; [|by rewrite <-Hp].
  eapply LInv_ext; [exact HL|intros; by apply count_holds_perm| |intros; by apply count_holds_perm].
  intros k Hk. transitivity (full_holds H k); [symmetry; by apply count_holds_perm|by eapply holds_out].
Qed.

Lemma wp_swa_dec_lock_ref c lv a G h H own (Q : unit → SWACache A → Prop) :
  abs c a → AInv lv a G (h :: H) own → sw_disable (a_cfg a) = false →
  (∀ c' lv' a', abs c' a' → lock_frame a a' → AInv lv' a' G H own → Q tt c') →
  wp (swa_dec_lock_ref (h_node h) (h_uuid h) (negb (h_swa h))) Q c.
Proof.
  intros Hab HI Hdis HQ. unfold swa_dec_lock_ref. wp_steps. rewrite (ab_cfg _ _ Hab), Hdis. wp_steps. rewrite (abs_size _ _ Hab), negb_involutive.
  pose proof HI as [HL Hh]%AInv_LInv. pose proof Hh as [Hho Hh']%Forall_cons. destruct Hho as [(g & gt & Hg & _) Hmark].
  eapply (wp_swa_dec_loop _ _ _ _ _ _ _ _ _ g _ _ (h_top h)); [done|exact HL|done| | |done| |].
  - split; [|intros; apply full_holds_nonneg]. rewrite full_holds_cons. unfold add_lock. rewrite decide_True by done. pose proof (full_holds_nonneg H (h_node h)). lia.
  - pose proof (rank_size G g). pose proof (tree_size _ _ _ _ _ HI). lia.
  - intros q Hq. rewrite swa_holds_cons. unfold add_windows. simpl. rewrite Hq. pose proof (count_holds_nonneg (λ h, in_window (sview lv a) G h q) H). unfold swa_holds. lia.
  - intros c' lv' a' Hab' Hf HI'. apply (HQ c' lv' a'); [done|done|]. eapply (LInv_AInv lv lv' a a' G H); [exact HI'|exact (lock_mark_frame _ _ Hf)|done|auto| |intros; by eapply holds_out|].
    + intros k _. unfold add_lock at 1. rewrite full_holds_cons. unfold add_lock. destruct (decide (k = h_node h)); lia.
    + intros k _. rewrite (frame_swa_holds lv lv' a a') by apply (lf_root _ _ Hf). unfold add_windows at 1. rewrite swa_holds_cons. unfold add_windows. simpl.
      destruct (_ && _); lia.
Qed.

(** ** dec_swa_lock_only *)

(** Nothing but windows and their locks changes. *)
Definition rewindow (e : Z) (t : bool) x : SNode := set_tombstone t (add_swa_lock e x).
Record win_frame a a' : Prop := {
  wf_cfg : a_cfg a' = a_cfg a;
  wf_root : a_root a' = a_root a;
  wf_counter : a_counter a' = a_counter a;
  wf_uuid : a_uuid a' = a_uuid a;
  wf_fl : a_fl a' = a_fl a;
  wf_fev : a_fev a' = a_fev a;
  wf_fpr : a_fpr a' = a_fpr a;
  wf_node : ∀ q x, a_nodes a !! q = Some x → ∃ e t, a_nodes a' !! q = Some (rewindow e t x);
}.
Lemma rewindow_id x : rewindow 0 (swa_tombstone x) x = x.
Proof. destruct x. unfold rewindow, set_tombstone, add_swa_lock. simpl. f_equal. lia. Qed.
Lemma rewindow_twice e t e' t' x : rewindow e' t' (rewindow e t x) = rewindow (e + e') t' x.
Proof. destruct x. unfold rewindow, set_tombstone, add_swa_lock. simpl. f_equal. lia. Qed.
Lemma win_frame_refl a : win_frame a a.
Proof. split; try done. intros q x Hx. exists 0%Z, (swa_tombstone x). by rewrite rewindow_id. Qed.
Lemma win_frame_trans a1 a2 a3 : win_frame a1 a2 → win_frame a2 a3 → win_frame a1 a3.
Proof.
  intros [] []. split; try congruence. intros q x Hx. destruct (wf_node0 q x Hx) as (e & t & Hx2). destruct (wf_node1 q _ Hx2) as (e' & t' & Hx3).
  rewrite rewindow_twice in Hx3. eauto.
Qed.
Lemma win_mark_frame a a' : win_frame a a' → mark_frame a a'.
Proof. intros Hf. split; [apply (wf_root _ _ Hf)|]. intros q x Hx. destruct (wf_node _ _ Hf q x Hx) as (e & t & Hx'). eauto. Qed.

(** The window of one node, one lock less; the last lock of a leaf gives its window up. *)
Definition aunlock n x al a : ACache A :=
  let a1 := aswa n x (-1) (swa_uuid x) (a_uuid a) a in
  if bool_decide (swa_lock_ref x = 1%Z) && bool_decide (s_children x = ∅) then atomb n (lock_node 0 (-1) (swa_uuid x) x) al a1 else a1.
Lemma aunlock_frame n x al a : a_nodes a !! n = Some x → win_frame a (aunlock n x al a).
Proof.
  intros Hx. unfold aunlock.
  assert (lock_node 0 (-1) (swa_uuid x) x = rewindow (-1) (swa_tombstone x) x) as E.
  { destruct x. unfold lock_node, rewindow, set_swa_uuid, add_swa_lock, add_full_lock, set_tombstone. simpl. f_equal; lia. }
  assert (set_tombstone true (lock_node 0 (-1) (swa_uuid x) x) = rewindow (-1) true x) as E'.
  { destruct x. unfold lock_node, rewindow, set_swa_uuid, add_swa_lock, add_full_lock, set_tombstone. simpl. f_equal; lia. }
  assert (∀ (b : bool) q y, a_nodes a !! q = Some y → ∃ e t, (if decide (n = q) then Some (rewindow (-1) b x) else a_nodes a !! q) = Some (rewindow e t y)) as Hb.
  { intros b q y Hy. case_decide as En; [subst q; simplify_eq; eauto|]. exists 0%Z, (swa_tombstone y). by rewrite rewindow_id. }
  destruct (_ && _); split; try done; simpl; rewrite ?insert_insert_eq, ?E', ?E; intros q y Hy; rewrite lookup_insert; by apply Hb.
Qed.
Lemma aunlock_linv lv a G L W own m gm x p gp px vv al :
  LInv lv a G L W own → a_nodes a !! m = Some x → G !! m = Some gm → m ≠ a_root a → node_ok (sview lv a) G m gm (s_core x) p gp px →
  swa_tombstone x = false → s_value x = Some vv → sa_free_swa vv (a_alloc a) = Ok al → (0 <= full_lock_ref x)%Z →
  ∃ lv', LInv lv' (aunlock m x al a) G L (add_window W m (-1)) own.
Proof.
  intros HI Hx Hm Hr Hok Ht Hvv Hal Hl. assert (0 <= full_lock_ref x + 0)%Z as Hl0 by lia.
  assert (window_step (swa_tombstone x) (-1) (swa_uuid x) (swa_uuid x) (a_uuid a) (a_uuid a)) as Hw by (right; split_and!; [done|lia|by left]).
  pose proof (alock_linv _ _ _ _ _ _ _ _ _ _ _ _ _ _ _ _ HI Hx Hm Hr Hok Hl0 Hw) as HI1. rewrite <-aswa_alock in HI1.
  exists (lock_leaves (sview lv a) m (s_core x) 0). set (lv' := lock_leaves _ _ _ _) in *.
  assert (LInv lv' (aswa m x (-1) (swa_uuid x) (a_uuid a) a) G L (add_window W m (-1)) own) as HI2.
  { eapply LInv_ext; [exact HI1| | |done]; [intros k _; unfold add_lock; repeat case_decide; lia|apply (inv_locks _ _ _ (li_tree _ _ _ _ _ _ HI))]. }
  unfold aunlock. destruct (bool_decide (swa_lock_ref x = 1%Z) && _) eqn:Hb; [|done]. apply andb_prop in Hb as [Hs%bool_decide_eq_true _].
  eapply atomb_linv; [exact HI2| |apply lookup_insert_eq|done|simpl; lia|exact Hvv|done].
  apply elem_of_inner. simpl. eauto.
Qed.

Lemma wp_unlock_window c a m x vv al :
  abs c a → a_nodes a !! m = Some x → swa_tombstone x = false → s_value x = Some vv → sa_free_swa vv (a_alloc a) = Ok al →
  (1 <= swa_lock_ref x)%Z → m ∈ a_sl a →
  let len := Z.of_nat (key_len (s_key x)) in
  wp (if bool_decide (swa_lock_ref x = 1%Z) then
        _ ← st_modify (add_swa 0 (- len));
        if bool_decide (s_children x = ∅) then _ ← free_swa vv; _ ← swa_lru (remove_node m); upd_snode m (set_tombstone true)
        else st_modify (add_swa len 0)
      else mret tt)
    (λ _ c1, wp (upd_snode m (add_swa_lock (-1))) (λ _ c2, abs c2 (aunlock m x al a)) c1) c.
Proof.
  intros Hab Hx Ht Hvv Hal Hl Hm len.
  assert (∀ x', s_value x' = s_value x → x' ≠ new_SNode) as Hnew by (intros x' E ->; simpl in E; congruence).
  unfold aunlock. case_bool_decide as H1; [case_bool_decide as H2|]; simpl; wp_steps.
  - apply (abs_add_swa _ _ 0 (- len)) in Hab. eapply wp_free_swa; [done|done|]. a_next. wp_step.
    eapply wp_swa_remove; [done|exact Hx|done|done|]. a_next.
    eapply wp_upd_snode; [done|exact Hx|by apply Hnew|by intros ?|]. a_next.
    eapply wp_upd_snode; [done|apply lookup_insert_eq|by apply Hnew|by intros ?|]. a_next.
    match goal with Hab : abs ?c _ |- abs ?c _ => eapply abs_eq; [exact Hab|] end. unfold atomb, aswa, aset_uuid, aset_nodes, aadd_swa, count_step, ev_w, pr_w. simpl.
    rewrite insert_insert_eq, H1, !(decide_True (P := (1 + -1)%Z = _)), !(decide_False (P := 1%Z = _)) by lia. f_equal; try lia. f_equal.
    destruct x. unfold lock_node, set_swa_uuid, add_swa_lock, add_full_lock, set_tombstone. simpl. f_equal; lia.
  - apply (abs_add_swa _ _ 0 (- len)), (abs_add_swa _ _ len 0) in Hab. eapply wp_upd_snode; [done|exact Hx|by apply Hnew|by intros ?|]. a_next.
    match goal with Hab : abs ?c _ |- abs ?c _ => eapply abs_eq; [exact Hab|] end. unfold aswa, aset_uuid, aset_nodes, aadd_swa, count_step, ev_w, pr_w. simpl.
    rewrite H1, !(decide_True (P := (1 + -1)%Z = _)), !(decide_False (P := 1%Z = _)) by lia. f_equal; try lia. f_equal.
    destruct x. unfold lock_node, set_swa_uuid, add_swa_lock, add_full_lock. simpl. f_equal; lia.
  - eapply wp_upd_snode; [done|exact Hx|by apply Hnew|by intros ?|]. a_next.
    match goal with Hab : abs ?c _ |- abs ?c _ => eapply abs_eq; [exact Hab|] end. unfold aswa, aset_uuid, aset_nodes, aadd_swa, count_step, ev_w, pr_w. simpl.
    rewrite !decide_False by lia. f_equal; try lia. f_equal. destruct x. unfold lock_node, set_swa_uuid, add_swa_lock, add_full_lock. simpl. f_equal; lia.
Qed.

Lemma aunlock_backed lv a G L W own m x vv al :
  LInv lv a G L W own → m ∈ inner (sview lv a) G → xt (sx a) m = false → hval (tv_h (sview lv a)) m = vv → sa_free_swa vv (a_alloc a) = Ok al → own_backed own a (aunlock m x al a).
Proof.
  intros HI Hin Ht <- Hal i Hi. unfold aunlock. destruct (_ && _); [|done]. eapply (free_swa_node_backed (sview lv a)); [apply (li_slots _ _ _ _ _ _ HI)|done..].
Qed.

Lemma wp_dec_swa_loop fuel c lv a G L W own m gm uuid top (Q : unit → SWACache A → Prop) :
  abs c a → LInv lv a G L W own → G !! m = Some gm → rank G gm < fuel →
  top_ok (sview lv a) (sx a) G m uuid top → (∀ q, window_of G (a_root a) m top q = true → (1 <= W q)%Z) →
  (∀ c' lv' a', abs c' a' → win_frame a a' → own_backed own a a' → LInv lv' a' G L (add_windows true G (a_root a) m top (-1) W) own → Q tt c') →
  wp (dec_swa_loop fuel m uuid) Q c.
Proof.
  revert c lv a W m gm. induction fuel as [|fuel IH]; [lia|]. intros c lv a W m gm Hab HI Hm Hfuel Htop HW HQ. simpl.
  pose proof (inv_tree _ _ _ (li_tree _ _ _ _ _ _ HI)) as Ht. wp_steps. rewrite (ab_root _ _ Hab). destruct (decide (m = a_root a)) as [Hroot|Hroot].
  { subst m. wp_step. apply (HQ _ lv a); [done|apply win_frame_refl|done|]. eapply LInv_ext; [done|done|apply (inv_locks _ _ _ (li_tree _ _ _ _ _ _ HI))|].
    intros q _. unfold add_windows, window_of. pose proof (on_path_root (sview lv a) G q Ht) as E. simpl in E. rewrite E. simpl. lia. }
  destruct (walk_node _ _ _ _ _ _ _ _ HI Hm Hroot) as (x & p & gp & px & vv & Hin & Hx & Hok & Hpar & Hvv & Hlen & Hxn & Hl & Hs).
  destruct (sx_lookup _ _ _ Hx) as (_ & Ext & Exl & _).
  assert (plen G top < plen G m) as Hlt by (by eapply (top_above (sview lv a)); [done|done|apply Htop|]).
  assert (1 <= W m)%Z as HWm.
  { apply HW. unfold window_of. pose proof (on_path_refl (sview lv a) G m Hin) as E. simpl in E. by rewrite E, bool_decide_true. }
  assert (swa_tombstone x = false) as Htf.
  { destruct (swa_tombstone x) eqn:Etx; [|done]. pose proof (xo_tomb _ _ _ _ _ _ _ (li_swa _ _ _ _ _ _ HI) m Hin Ext). lia. }
  assert (hval (tv_h (sview lv a)) m = vv) as Hval by (unfold hval; rewrite (sview_lookup _ _ _ _ Hx); simpl; by rewrite Hvv).
  destruct (free_swa_exists _ _ _ _ _ _ (li_slots _ _ _ _ _ _ HI) Hin) as [al Hal]; [congruence|]. rewrite Hval in Hal.
  destruct (aunlock_linv _ _ _ _ _ _ _ _ _ _ _ _ _ _ HI Hx Hm Hroot Hok Htf Hvv Hal Hl) as [lv1 HI1].
  pose proof (aunlock_frame m x al a Hx) as Hf1. pose proof (aunlock_backed _ _ _ _ _ _ m x _ _ HI Hin ltac:(congruence) Hval Hal) as Hb1.
  pose proof (mark_last _ _ _ _ _ _ _ _ _ _ _ _ _ _ HI Hx Hm Hroot Hok Htop) as Hlast.
  wp_step. eapply wp_get_snode; [done|exact Hx|]. intros y Ey. destruct (plain_fields _ _ Ey) as (Ek & Epar & _ & Eval & Et & Ef & Es & Eu).
  unfold value_of, parent_of. rewrite Ek, Epar, Eval, Es, Et, Hpar, Hvv, Htf. wp_steps. rewrite bool_decide_true by lia. wp_steps. rewrite Hlen.
  replace (is_last uuid y) with (is_last uuid x) by (unfold is_last; by rewrite Eu).
  eapply (wp_mono _ (λ _ c1, wp (upd_snode m (add_swa_lock (-1))) (λ _ c2, abs c2 (aunlock m x al a)) c1)).
  { apply wp_unlock_window; try done; [lia|]. apply (li_sl _ _ _ _ _ _ HI). split; [done|congruence]. }
  intros _ c1 Hw1. wp_step. eapply wp_mono; [exact Hw1|]. intros [] c2 Hab2. cbv beta.
  destruct (is_last uuid x).
  - wp_step. apply (HQ _ lv1 _ Hab2 Hf1 Hb1). subst top. eapply LInv_ext; [exact HI1|done|apply (inv_locks _ _ _ (li_tree _ _ _ _ _ _ HI))|].
    intros q _. by eapply (add_windows_last (sview lv a)).
  - destruct Hlast as [Htp Hle]. wp_steps. assert (a_root (aunlock m x al a) = a_root a) as Er by apply (wf_root _ _ Hf1).
    eapply (IH _ _ _ _ p gp); [exact Hab2|exact HI1|apply (no_gpar Hok)|pose proof (rank_parent _ _ _ _ _ _ _ _ Hok); lia| | |].
    + eapply frame_top_ok; [exact (win_mark_frame _ _ Hf1)|exact Htp].
    + intros q Hq. rewrite Er in Hq. destruct (window_step_up (sview lv a) G m gm (s_core x) p gp px top q Ht Hm Hroot Hok Hle) as [E1 E2]. simpl in E1, E2.
      unfold add_window. destruct (decide (q = m)) as [Eq|]; [rewrite E2 in Hq by done; done|]. rewrite Z.add_0_r. apply HW. rewrite E1, Hq. apply orb_true_r.
    + intros c' lv' a' Hab' Hf' Hb' HI'. rewrite Er in HI'. apply (HQ c' lv' a'); [done|by eapply win_frame_trans|intros i Hi; by rewrite (Hb' i Hi), (Hb1 i Hi)|].
      eapply LInv_ext; [exact HI'|done|apply (inv_locks _ _ _ (li_tree _ _ _ _ _ _ HI))|]. intros q _. by eapply (add_windows_step (sview lv a)).
Qed.

Lemma wp_dec_swa_lock_only c lv a G h H own (Q : unit → SWACache A → Prop) :
  abs c a → AInv lv a G (h :: H) own → h_swa h = true → sw_disable (a_cfg a) = false →
  (∀ c' lv' a', abs c' a' → win_frame a a' → own_backed own a a' → AInv lv' a' G (MkHold (h_node h) (h_uuid h) (h_top h) false :: H) own → Q tt c') →
  wp (dec_swa_lock_only (h_node h) (h_uuid h)) Q c.
Proof.
  intros Hab HI Hsw Hdis HQ. unfold dec_swa_lock_only. wp_steps. rewrite (ab_cfg _ _ Hab), Hdis. wp_steps. rewrite (abs_size _ _ Hab).
  pose proof HI as [HL Hh]%AInv_LInv. pose proof Hh as [Hho Hh']%Forall_cons. pose proof Hho as [(g & gt & Hg & Hrest) Hmark].
  eapply (wp_dec_swa_loop _ _ _ _ _ _ _ _ _ g _ (h_top h)); [done|exact HL|done| |by apply Hmark| |].
  - pose proof (rank_size G g). pose proof (tree_size _ _ _ _ _ HI). lia.
  - intros q Hq. rewrite swa_holds_cons, Hsw. unfold add_windows. simpl. rewrite Hq. pose proof (count_holds_nonneg (λ h, in_window (sview lv a) G h q) H). unfold swa_holds. lia.
  - intros c' lv' a' Hab' Hf Hb HI'. apply (HQ c' lv' a'); [done|done|done|].
    eapply (LInv_AInv lv lv' a a' G (h :: H)); [exact HI'|exact (win_mark_frame _ _ Hf)|done| | | |].
    + intros h' [->|?]%elem_of_cons; [right; split; [simpl; eauto|done]|left; by right].
    + intros k _. by rewrite !full_holds_cons.
    + intros k Hk. transitivity (full_holds (h :: H) k); [by rewrite !full_holds_cons|by eapply holds_out].
    + intros k _. rewrite swa_holds_cons. simpl. rewrite add_windows_none, (frame_swa_holds lv lv' a a') by apply (wf_root _ _ Hf).
      unfold add_windows at 1. rewrite swa_holds_cons, Hsw. unfold add_windows. simpl. destruct (window_of _ _ _ _ _); lia.
Qed.
End lock_ops.
