(* ===== verification/SwaMatch.v ===== *)
(** [match_prefix] of the sliding-window tree: the deepest node on the way along the key
    whose last window has no tombstone. *)
From S2P Require Import Prelude RadixKey TreeNode EvictPolicy RadixCache RadixInv RadixSplit RadixLeaf RadixLock RadixSpec RadixOps RadixMatch RadixLockOps.
From S2P Require Import SwaLru SwaCache SwaAbs SwaInv SwaOps SwaNodes SwaEvict SwaLocks.
From stdpp Require Import options.

Section match_prefix.
Context {A : Type} {alloc : SWAAllocator A} {ps : nat} {laws : SWAAllocatorLaws A ps}.
Implicit Types (c : SWACache A) (a : ACache A) (G : gmap nat gnode) (H : list hold) (own : Z → Z) (x y : SNode) (n m p q : nat) (lv : gset nat).

(** A split changes nothing outside the tree. *)
Record tframe a a' : Prop := {
  tf_cfg : a_cfg a' = a_cfg a;
  tf_root : a_root a' = a_root a;
  tf_uuid : a_uuid a' = a_uuid a;
  tf_fev : a_fev a' = a_fev a;
  tf_sev : a_sev a' = a_sev a;
  tf_fpr : a_fpr a' = a_fpr a;
  tf_spr : a_spr a' = a_spr a;
  tf_alloc : a_alloc a' = a_alloc a;
}.
#[local] Instance tframe_refl : Reflexive tframe.
Proof. by intros a. Qed.
#[local] Instance tframe_trans : Transitive tframe.
Proof. intros a b c [] []. split; congruence. Qed.

(** ** What the walk knows of its path *)

(** [s] is the length of the match since the last tombstone. *)
Definition since_ok a G node (s : option nat) : Prop :=
  match s with
  | None => ∀ q, on_path G (a_root a) node q = true → xt (sx a) q = false
  | Some k => ∃ q0, on_path G (a_root a) node q0 = true ∧ xt (sx a) q0 = true ∧ plen G node = plen G q0 + k
                ∧ ∀ q, on_path G (a_root a) node q = true → plen G q0 < plen G q → xt (sx a) q = false
  end.
(** Where a lock may be taken: the last window has no tombstone. *)
Abbreviation good w a G n := (lockable w a G n 0).

Lemma since_good w a G node s : since_ok a G node s → reaches w s = true → good w a G node.
Proof.
  destruct s as [k|]; simpl; [|intros Hs _ q Hq _; auto]. intros (q0 & _ & _ & Ek & Hs) Hw%bool_decide_eq_true q Hq Hlt. apply Hs; [done|lia].
Qed.

Record match_inv w a G node (g : gnode) (ms : MatchState) : Prop := {
  mi_vals : concat (m_value ms) = g_vals g;
  mi_since : since_ok a G node (m_since ms);
  mi_best : ∃ gb, G !! best_last_node ms = Some gb ∧ g_path gb `prefix_of` g_path g
              ∧ concat (take (best_value_len ms) (m_value ms)) = g_vals gb ∧ good w a G (best_last_node ms);
  mi_max : ∀ q gq, G !! q = Some gq → g_path gq `prefix_of` g_path g → good w a G q →
             match m_since ms with
             | None => True
             | Some k => length (g_path gq) ≤ plen G (best_last_node ms) ∨ plen G node < length (g_path gq) + k
             end;
  mi_len : best_value_len ms ≤ length (m_value ms);
}.

Lemma prefix_on_path v G node g q gq : G !! node = Some g → G !! q = Some gq → g_path gq `prefix_of` g_path g → q ≠ tv_root v → on_path G (tv_root v) node q = true.
Proof. intros Hg Hq Hp Hr. unfold on_path. by rewrite Hq, Hg, bool_decide_true, bool_decide_false. Qed.

(** The current node is taken if it is good; if not, nothing below the last tombstone is. *)
Lemma match_keep w lv a G H own node g ms :
  AInv lv a G H own → G !! node = Some g → 0 < w → match_inv w a G node g ms →
  let ms' := keep_best w node ms in
  match_inv w a G node g ms' ∧ ∀ q gq, G !! q = Some gq → g_path gq `prefix_of` g_path g → good w a G q → length (g_path gq) ≤ plen G (best_last_node ms').
Proof.
  intros HI Hg Hw [Hvals Hsince Hbest Hmax Hlen]. unfold keep_best. assert (plen G node = length (g_path g)) as Epl by (unfold plen; by rewrite Hg).
  destruct (reaches w (m_since ms)) eqn:Hr; cbv zeta.
  - split; [|intros q gq _ Hp _; simpl; rewrite Epl; by apply prefix_length]. split; simpl; try done.
    + exists g. split_and!; [done|done|by rewrite take_ge|by eapply since_good].
    + intros q gq Hq Hp _. destruct (m_since ms); [|done]. left. rewrite Epl. by apply prefix_length.
  - split; [done|]. intros q gq Hq Hp Hgood. specialize (Hmax q gq Hq Hp Hgood). destruct (m_since ms) as [k|]; [|done].
    destruct Hmax as [|Hlow]; [done|]. exfalso. simpl in Hr. apply bool_decide_eq_false in Hr.
    destruct Hsince as (q0 & Hon0 & Ht0 & Ek & _). pose proof (inv_tree _ _ _ (ai_tree _ _ _ _ _ HI)) as Ht.
    assert (plen G q = length (g_path gq)) as Eq by (unfold plen; by rewrite Hq).
    assert (q ≠ a_root a) as Hqr. { intros ->. pose proof (to_groot Ht) as Hrt. simpl in Hrt. rewrite Hrt in Hq. injection Hq as <-. simpl in *. lia. }
    pose proof (prefix_on_path (sview lv a) G node g q gq Hg Hq Hp Hqr) as Honq. simpl in Honq.
    assert (on_path G (a_root a) q q0 = true) as Hq0.
    { destruct (on_path_linear (sview lv a) G node q q0 Honq Hon0) as [E|E]; [exact E|]. pose proof (on_path_plen _ _ _ _ E). lia. }
    pose proof (on_path_plen _ _ _ _ Honq). specialize (Hgood q0 Hq0 ltac:(lia)). congruence.
Qed.

(** One edge further. *)
Lemma match_step w lv a G H own node g child gc x px ms v :
  AInv lv a G H own → G !! node = Some g → G !! child = Some gc → child ≠ a_root a → node_ok (sview lv a) G child gc (s_core x) node g px →
  a_nodes a !! child = Some x → s_value x = Some v → 0 < w → match_inv w a G node g ms →
  match_inv w a G child gc (push_value (swa_tombstone x) v (enter_child w node (swa_tombstone x) ms)).
Proof.
  intros HI Hg Hgc Hr Hok Hx Hv Hw Hmi. pose proof (inv_tree _ _ _ (ai_tree _ _ _ _ _ HI)) as Ht. destruct (sx_lookup _ _ _ Hx) as (_ & Ext & _).
  destruct (no_vals Hok) as (v' & Hv' & Hlen & Hgv). simpl in Hv', Hlen. assert (v' = v) as -> by congruence.
  destruct (parent_plen _ _ _ _ _ _ _ _ Hgc Hok) as [Epl Hpos]. simpl in Epl, Hpos.
  assert (∀ q, on_path G (a_root a) child q = bool_decide (q = child) || on_path G (a_root a) node q) as Hon.
  { intros q. by destruct (on_path_step (sview lv a) G child gc (s_core x) node g px q Ht Hgc Hr Hok) as [? _]. }
  pose proof (node_ok_prefix _ _ _ _ _ _ _ _ Hok) as Hpre.
  assert (∀ q gq, G !! q = Some gq → g_path gq `prefix_of` g_path gc → q = child ∨ g_path gq `prefix_of` g_path g) as Hcase.
  { intros q gq Hq Hp. destruct (decide (q = child)) as [|Hqc]; [by left|right]. destruct (decide (q = a_root a)) as [->|Hqr].
    - pose proof (to_groot Ht) as Hrt. simpl in Hrt. rewrite Hrt in Hq. injection Hq as <-. apply prefix_nil.
    - pose proof (prefix_on_path (sview lv a) G child gc q gq Hgc Hq Hp Hqr) as E. simpl in E. rewrite Hon, bool_decide_false in E by done. simpl in E.
      unfold on_path in E. rewrite Hq, Hg in E. by apply andb_prop in E as [?%bool_decide_eq_true _]. }
  assert (∀ (b : nat) gb, G !! b = Some gb → length (g_path gb) = plen G b) as Hpl by (intros b gb Hb; unfold plen; by rewrite Hb).
  destruct (swa_tombstone x) eqn:Etx.
  - (* a tombstone: the node above may be the best *)
    destruct (match_keep w _ _ _ _ _ _ _ _ HI Hg Hw Hmi) as [[Hvals Hsince Hbest Hmax Hln] Hkeep]. unfold enter_child, push_value, grow. simpl. split; simpl.
    + rewrite concat_app, Hvals, Hgv. simpl. by rewrite app_nil_r.
    + exists child. split_and!; [rewrite Hon; by rewrite bool_decide_true|done|lia|]. intros q Hq Hlt. pose proof (on_path_plen _ _ _ _ Hq). lia.
    + destruct Hbest as (gb & Hgb & Hpb & Hcb & Hgood). exists gb. split_and!; [done|by etrans| |done].
      by rewrite take_app_le by lia.
    + intros q gq Hq Hp Hgood. destruct (Hcase q gq Hq Hp) as [->|Hp']; [|left; by eapply Hkeep].
      exfalso. assert (xt (sx a) child = false) as E; [|congruence]. apply Hgood; [rewrite Hon; by rewrite bool_decide_true|lia].
    + rewrite length_app. simpl. lia.
  - (* the match grows *)
    destruct Hmi as [Hvals Hsince Hbest Hmax Hln]. unfold enter_child, push_value, grow. split; simpl.
    + rewrite concat_app, Hvals, Hgv. simpl. by rewrite app_nil_r.
    + destruct (m_since ms) as [k|]; simpl in *.
      * destruct Hsince as (q0 & Hq0 & Ht0 & Ek & Hs). exists q0. split_and!; [rewrite Hon, Hq0; apply orb_true_r|done|lia|].
        intros q. rewrite Hon. intros [->%bool_decide_eq_true|Hq]%orb_prop Hlt; [done|auto].
      * intros q. rewrite Hon. intros [->%bool_decide_eq_true|Hq]%orb_prop; [done|auto].
    + destruct Hbest as (gb & Hgb & Hpb & Hcb & Hgood). exists gb. split_and!; [done|by etrans| |done]. by rewrite take_app_le by lia.
    + intros q gq Hq Hp Hgood. destruct (Hcase q gq Hq Hp) as [->|Hp'].
      * destruct (m_since ms) as [k|]; simpl; [|done]. right. rewrite (Hpl child gq) by done. destruct Hsince as (q0 & Hq0 & _ & Ek & _). lia.
      * specialize (Hmax q gq Hq Hp' Hgood). destruct (m_since ms) as [k|]; simpl; [|done]. destruct Hmax as [|Hlow]; [by left|right; lia].
    + rewrite length_app. simpl. lia.
Qed.

(** The way down to a node is not touched by changes below it. *)
Record same_above a G a' G' (g : gnode) : Prop := {
  sm_root : a_root a' = a_root a;
  sm_sub : G ⊆ G';
  sm_old : ∀ q gq, G' !! q = Some gq → g_path gq `prefix_of` g_path g → G !! q = Some gq;
  sm_tomb : ∀ q gq, G !! q = Some gq → g_path gq `prefix_of` g_path g → xt (sx a') q = xt (sx a) q;
}.
Lemma same_above_on_path a G a' G' g q gq r : same_above a G a' G' g → G !! q = Some gq → g_path gq `prefix_of` g_path g →
  on_path G' (a_root a') q r = on_path G (a_root a) q r.
Proof.
  intros [Er Hsub Hold _] Hq Hp. unfold on_path. rewrite Er, Hq, (lookup_weaken _ _ _ _ Hq Hsub). destruct (G' !! r) as [gr|] eqn:Hr.
  - destruct (decide (g_path gr `prefix_of` g_path gq)) as [Hrq|Hrq].
    + rewrite (Hold r gr Hr); [done|by etrans].
    + rewrite bool_decide_false by done. destruct (G !! r) as [gr'|] eqn:Hr'; [|done]. rewrite (lookup_weaken _ _ _ _ Hr' Hsub) in Hr. injection Hr as ->. by rewrite (bool_decide_false (_ `prefix_of` _)).
  - destruct (G !! r) as [gr'|] eqn:Hr'; [|done]. rewrite (lookup_weaken _ _ _ _ Hr' Hsub) in Hr. done.
Qed.
Lemma same_above_plen a G a' G' g q gq : same_above a G a' G' g → G !! q = Some gq → plen G' q = plen G q.
Proof. intros Hs Hq. unfold plen. by rewrite Hq, (lookup_weaken _ _ _ _ Hq (sm_sub _ _ _ _ _ Hs)). Qed.
Lemma same_above_good w a G a' G' g q gq : same_above a G a' G' g → G !! q = Some gq → g_path gq `prefix_of` g_path g → good w a' G' q ↔ good w a G q.
Proof.
  intros Hs Hq Hp. unfold lockable.
  assert (∀ r, on_path G (a_root a) q r = true → plen G' r = plen G r ∧ xt (sx a') r = xt (sx a) r) as Hr.
  { intros r Hr. unfold on_path in Hr. destruct (G !! r) as [gr|] eqn:Hgr; [|done]. rewrite Hq in Hr. apply andb_prop in Hr as [Hpr%bool_decide_eq_true _].
    split; [by eapply same_above_plen|]. eapply (sm_tomb _ _ _ _ _ Hs); [done|by etrans]. }
  pose proof (same_above_plen _ _ _ _ _ _ _ Hs Hq) as Eq. split; intros Hg r Hon Hlt.
  - destruct (Hr r Hon) as [E1 <-]. apply Hg; [by rewrite (same_above_on_path _ _ _ _ _ _ _ _ Hs Hq Hp)|by rewrite Eq, E1].
  - rewrite (same_above_on_path _ _ _ _ _ _ _ _ Hs Hq Hp) in Hon. destruct (Hr r Hon) as [E1 ->]. apply Hg; [done|by rewrite <-Eq, <-E1].
Qed.
Lemma match_inv_same w a G a' G' node g ms : same_above a G a' G' g → G !! node = Some g → match_inv w a G node g ms → match_inv w a' G' node g ms.
Proof.
  intros Hs Hg [Hvals Hsince (gb & Hgb & Hpb & Hcb & Hgood) Hmax Hln]. pose proof (same_above_plen _ _ _ _ _ _ _ Hs Hg) as Epl.
  assert (∀ r, on_path G (a_root a) node r = true → plen G' r = plen G r ∧ xt (sx a') r = xt (sx a) r) as Hr.
  { intros r Hr. unfold on_path in Hr. destruct (G !! r) as [gr|] eqn:Hgr; [|done]. rewrite Hg in Hr. apply andb_prop in Hr as [Hpr%bool_decide_eq_true _].
    split; [by eapply same_above_plen|by eapply (sm_tomb _ _ _ _ _ Hs)]. }
  assert (∀ r, on_path G' (a_root a') node r = on_path G (a_root a) node r) as Hon by (intros r; by eapply same_above_on_path).
  split; try done.
  - destruct (m_since ms) as [k|]; simpl in *.
    + destruct Hsince as (q0 & Hq0 & Ht0 & Ek & Hn). destruct (Hr q0 Hq0) as [E1 E2]. exists q0. rewrite Hon, E1, E2, Epl. split_and!; [done..|].
      intros q. rewrite Hon. intros Hq. destruct (Hr q Hq) as [-> ->]. auto.
    + intros q. rewrite Hon. intros Hq. destruct (Hr q Hq) as [_ ->]. auto.
  - exists gb. split_and!; [by eapply lookup_weaken; [|apply Hs]|done|done|]. by eapply same_above_good.
  - intros q gq Hq Hp Hg'. pose proof (sm_old _ _ _ _ _ Hs q gq Hq Hp) as Hq'. rewrite (same_above_plen _ _ _ _ _ _ _ Hs Hgb), Epl. eapply Hmax; [done|done|].
    exact (proj1 (same_above_good _ _ _ _ _ _ _ _ Hs Hq' Hp) Hg').
Qed.

(** Splitting an edge below [node]. *)
Lemma split_above lv a G H own n g p gp x px ck rest_ck pre post k vv :
  AInv lv a G H own → n ∈ inner (sview lv a) G →
  split_at a G n g p gp x px ck rest_ck pre post k vv → split_pre (sview lv a) G n g (s_core x) p gp (s_core px) ck rest_ck pre post k vv →
  same_above a G (asplit n k p (a_counter a) x px ck rest_ck pre post vv a) (<[a_counter a := split_gnode gp (s_core x) k vv]> G) gp.
Proof.
  intros HI Hn Hsa Hsp. destruct (fresh_node _ _ _ _ _ HI) as [_ HfrG]. destruct (asplit_views lv _ _ _ _ _ _ _ _ _ _ _ _ _ _ Hsa Hsp) as [_ Ex].
  pose proof Hsp as [Ht Hlive Hnr Hok Hvv Hk0 Hk]. simpl in Hk. split; [done|by apply insert_subseteq| |].
  - intros q gq. rewrite lookup_insert. case_decide as E; [|done]. intros [= <-] Hp%prefix_length. simpl in Hp.
    rewrite length_app, length_take, titer_length in Hp. lia.
  - intros q gq Hq Hp. rewrite Ex. unfold xt. rewrite !lookup_insert. repeat case_decide; subst; [|congruence|done].
    exfalso. apply prefix_length in Hp. pose proof (node_ok_lt _ _ _ _ _ _ _ _ Hok). assert (gq = g) as -> by congruence. lia.
Qed.

(** A window without tombstones stays one. *)
Lemma split_good lv w a a' G n g p gp (x px : core) ck rest_ck pre post k vv q :
  split_pre (sview lv a) G n g x p gp px ck rest_ck pre post k vv → q ∈ dom G → a_root a' = a_root a →
  (∀ r, r ∈ dom G → xt (sx a') r = xt (sx a) r) → xt (sx a') (a_counter a) = xt (sx a) n →
  good w a G q → good w a' (<[a_counter a := split_gnode gp x k vv]> G) q.
Proof.
  intros Hsp Hq Er Ht Hm Hgood r Hon Hlt. pose proof Hsp as [Htr Hlive Hnr Hok Hvv Hk0 Hk]. pose proof (gm_below _ _ _ _ _ _ _ _ _ _ _ _ _ _ Hsp) as (_ & _ & Hlow).
  assert (q ≠ a_counter a) as Hqm. { intros ->. apply elem_of_dom in Hq as [gq Hq]. pose proof (tree_fresh _ _ Htr) as E. simpl in E. congruence. }
  pose proof (split_plen (sview lv a) G x gp k vv q Hqm) as Eq. simpl in Eq. rewrite Eq in Hlt. rewrite Er in Hon. destruct (decide (r = a_counter a)) as [->|Hr].
  - pose proof (split_on_path_new _ _ _ _ _ _ _ _ _ _ _ _ _ _ Hsp q Hq) as E. simpl in E. rewrite E in Hon. rewrite Hm. apply Hgood; [done|].
    unfold plen at 2 in Hlt. rewrite lookup_insert_eq in Hlt. simpl in Hlt, Hlow. assert (plen G n = length (g_path g)) as En by (unfold plen; by rewrite Hlive). lia.
  - pose proof (split_plen (sview lv a) G x gp k vv r Hr) as E. simpl in E. rewrite E in Hlt.
    pose proof (split_on_path_old (sview lv a) G x gp k vv q r Hqm Hr) as Eo. simpl in Eo. rewrite Eo in Hon. rewrite Ht; [by apply Hgood|].
    unfold on_path in Hon. destruct (G !! r) eqn:E'; [by eapply elem_of_dom_2|done].
Qed.

(** ** The walk *)
Definition skey a (key : RadixKey) : Prop := key_len key `mod` sw_page_size (a_cfg a) = 0 ∧ is_bigram key = sw_eagle (a_cfg a).
Lemma skey_suffix a key k key' : skey a key → k `mod` sw_page_size (a_cfg a) = 0 → key_suffix key k = Ok key' →
  skey a key' ∧ titer key' = drop k (titer key) ∧ key_len key' = key_len key - k.
Proof.
  intros [Hal Hm] Hk Hs. destruct (key_suffix_titer key k) as (key'' & Hs' & Hit & Hm' & _). assert (key'' = key') as -> by congruence.
  assert (key_len key' = key_len key - k) as Hlen by (by rewrite <-!titer_length, Hit, length_drop).
  split; [|done]. split; [rewrite Hlen; by auto with py|congruence].
Qed.
Lemma wp_next_ckey c lv a G H own key ck (Q : ckey → SWACache A → Prop) :
  AInv lv a G H own → skey a key → (∀ ck', (0 < key_len key → child_key key (sw_page_size (a_cfg a)) = Ok ck') → Q ck' c) →
  wp (if decide (0 < key_len key) then st_lift (child_key key (sw_page_size (a_cfg a))) else mret ck) Q c.
Proof.
  intros HI [Hal _] HQ. case_decide as Hpos; [|wp_step; by apply HQ]. destruct (child_key_ok key (sw_page_size (a_cfg a))) as [ck' Hck'].
  - exact (to_ps (inv_tree _ _ _ (ai_tree _ _ _ _ _ HI))).
  - apply (aligned_lt 0); [apply aligned_0|done..].
  - wp_step. by apply HQ.
Qed.
Lemma sview_node lv a G H own n g : AInv lv a G H own → G !! n = Some g → ∃ x, a_nodes a !! n = Some x ∧ tv_h (sview lv a) !! n = Some (s_core x).
Proof.
  intros HI Hg. destruct (tree_live _ _ _ _ (inv_tree _ _ _ (ai_tree _ _ _ _ _ HI)) Hg) as [cx Hcx].
  destruct (sview_lookup_inv _ _ _ _ Hcx) as (x & Hx & ->). eauto.
Qed.

(** A split in the middle of an edge the key runs along. *)
Lemma wp_walk_split lv c a G H own node g child gc x px key k (Q : nat → SWACache A → Prop) :
  abs c a → AInv lv a G H own → G !! node = Some g → a_nodes a !! child = Some x → G !! child = Some gc → child ≠ a_root a →
  node_ok (sview lv a) G child gc (s_core x) node g px → edge_match (sw_page_size (a_cfg a)) (s_core x) key k → k < key_len (s_key x) →
  (∀ c' a' G' new gn y vv, abs c' a' → AInv lv a' G' H own → refines G G' → tframe a a' → same_above a G a' G' g → G' = <[new := gn]> G → G !! new = None →
    s_value x = Some vv → a_nodes a' !! new = Some y → s_value y = Some (take k vv) → swa_tombstone y = swa_tombstone x → full_lock_ref y = full_lock_ref x → swa_lock_ref y = swa_lock_ref x →
    gn = MkG (g_path g ++ take k (titer key)) (g_vals g ++ take k vv) → new ≠ a_root a →
    node_ok (sview lv a') G' new gn (s_core y) node g (s_core (default new_SNode (a_nodes a' !! node))) →
    (∀ q, q ∈ dom G → xt (sx a') q = xt (sx a) q) → (∀ w q, q ∈ dom G → good w a G q → good w a' G' q) → Q new c') →
  wp (swa_split_node (s_key x) child k) Q c.
Proof.
  intros Hab HI Hg Hx Hgc Hr Hok Hem Hk HQ. pose proof Hem as [Hk0 Hkal _ _ Hsame _]. simpl in Hsame. pose proof (ai_ps _ _ _ _ _ HI) as Eps.
  assert (child ∈ inner (sview lv a) G) as Hin by (apply elem_of_inner; eauto).
  eapply wp_swa_split; [done|exact HI|done|done|done|done|by rewrite Eps|].
  intros c' g' p gp px' ck rest_ck pre post vv Hg' Hok' Hsa Hsp a' Hab' HI'.
  assert (g' = gc) as -> by congruence. assert (p = node) as -> by (pose proof (no_par Hok); pose proof (no_par Hok'); congruence).
  assert (gp = g) as -> by (pose proof (no_gpar Hok'); congruence). pose proof (split_above _ _ _ _ _ _ _ _ _ _ _ _ _ _ _ _ _ HI Hin Hsa Hsp) as Habove.
  destruct (fresh_node _ _ _ _ _ HI) as [Hfr HfrG]. destruct (RadixSplit.split_facts _ _ _ _ _ _ _ _ _ _ _ _ _ _ Hsp) as (Hnm & Hpm & Hnp & Hrm & _). simpl in Hnm, Hpm, Hrm.
  pose proof (sa_value _ _ _ _ _ _ _ _ _ _ _ _ _ _ Hsa) as Hvv.
  assert (a_nodes a' !! a_counter a = Some (split_top child k node x rest_ck pre vv)) as Hnew.
  { unfold a'. simpl. by rewrite lookup_insert_ne, lookup_insert_ne, lookup_insert_eq. }
  assert (a_counter a ∈ inner (sview lv a') (<[a_counter a := split_gnode g (s_core x) k vv]> G)) as Hin'.
  { apply elem_of_inner. rewrite lookup_insert_eq. split; [eauto|]. simpl. done. }
  destruct (tree_node _ _ _ _ _ _ HI' Hin') as (gn & y & p & gp & px0 & vv' & Hgn & _ & Hy & Hpx0 & Hokn & Hparn & _).
  rewrite lookup_insert_eq in Hgn. injection Hgn as <-. assert (y = split_top child k node x rest_ck pre vv) as -> by congruence.
  simpl in Hparn. assert (p = node) as -> by congruence. assert (gp = g) as -> by (pose proof (no_gpar Hokn) as E; rewrite lookup_insert_ne in E by done; congruence).
  assert (∀ q, q ∈ dom G → xt (sx a') q = xt (sx a) q) as Htomb.
  { intros q [gq Hq]%elem_of_dom. destruct (asplit_views lv _ _ _ _ _ _ _ _ _ _ _ _ _ _ Hsa Hsp) as [_ Ex]. fold a' in Ex. destruct (sx_lookup _ _ _ Hx) as (_ & Et & _).
    rewrite Ex. unfold xt at 1. rewrite !lookup_insert. repeat case_decide; subst; simpl; [done|congruence|done]. }
  eapply (HQ c' a' _ (a_counter a)); [exact Hab'|exact HI'|by eapply split_refines|done|exact Habove|done|done|exact Hvv|exact Hnew|done|done|done|done| |done| | |].
  - unfold split_gnode. simpl. by rewrite Hsame.
  - rewrite Hpx0. exact Hokn.
  - exact Htomb.
  - intros w q Hq Hgood. eapply (split_good lv); [exact Hsp|exact Hq|done|exact Htomb| |exact Hgood]. destruct (asplit_views lv _ _ _ _ _ _ _ _ _ _ _ _ _ _ Hsa Hsp) as [_ Ex]. fold a' in Ex.
    destruct (sx_lookup _ _ _ Hx) as (_ & Et & _). rewrite Ex, Et. unfold xt. by rewrite lookup_insert_ne, lookup_insert_eq.
Qed.

(** Where the walk ends. *)
Definition walk_end (w : nat) a G H own (us : list tunit) (last : nat) (ms : MatchState) a' : Prop :=
  ∃ lv' G' gl, AInv lv' a' G' H own ∧ refines G G' ∧ tframe a a' ∧ G' !! last = Some gl ∧ g_path gl `prefix_of` us
    ∧ longest_match ps G us (g_vals gl) ∧ match_inv w a' G' last gl ms ∧ (∀ q, q ∈ dom G → good w a G q → good w a' G' q).

Lemma wp_swa_match_loop fuel c lv a G H own node g key ck ms (Q : nat * MatchState → SWACache A → Prop) :
  let w := sliding_window_size (a_cfg a) in
  abs c a → AInv lv a G H own → compact (a_cfg a) = false → 0 < w → G !! node = Some g → skey a key → key_len key < fuel →
  (0 < key_len key → child_key key (sw_page_size (a_cfg a)) = Ok ck) → match_inv w a G node g ms →
  (∀ c' a' last ms', abs c' a' → walk_end w a G H own (g_path g ++ titer key) last ms' a' → Q (last, ms') c') →
  wp (swa_match_loop fuel node key ck ms) Q c.
Proof.
  revert c node g key ck ms. induction fuel as [|fuel IH]; [lia|]. intros c node g key ck ms w Hab HI Hcomp Hw Hg Hkey Hfuel Hck Hmi HQ. simpl.
  pose proof (inv_tree _ _ _ (ai_tree _ _ _ _ _ HI)) as Ht. pose proof (ai_ps _ _ _ _ _ HI) as Eps. destruct (sview_node _ _ _ _ _ _ _ HI Hg) as (nx & Hnx & Hvnx).
  assert (longest_match ps G (g_path g ++ titer key) (g_vals g) → Q (node, ms) c) as Hstop.
  { intros Hlm. apply (HQ c a node ms Hab). exists lv, G, g. split_and!; try done. by eexists. }
  wp_step. eapply wp_get_snode; [done|exact Hnx|]. intros ny Eny. destruct (plain_fields _ _ Eny) as (Ekn & _). rewrite Ekn.
  destruct (decide (0 < key_len key)) as [Hpos|Hpos].
  2: { wp_step. apply Hstop. assert (titer key = []) as -> by (apply nil_length_inv; rewrite titer_length; lia). rewrite app_nil_r.
    rewrite Eps. apply (descent_stops (sview lv a) G Ht node g _ (length (g_path g))); [done|by rewrite take_ge|done|].
    intros c0 gc xc px Hc Hok Heq. apply (f_equal length) in Heq. rewrite !length_take in Heq.
    pose proof (node_ok_page _ _ Ht _ _ _ _ _ _ Hok). pose proof (to_ps Ht). lia. }
  specialize (Hck Hpos). destruct Hkey as [Hal Hmode]. destruct (s_children nx !! ck) as [child|] eqn:Hchild.
  2: { wp_step. apply Hstop. rewrite Eps. by eapply (descend_none_longest (sview lv a)). }
  destruct (descend_some (sview lv a) G Ht node g (s_core nx) key ck Hg Hvnx Hpos Hal Hmode Hck child) as (gc & xc & k & Hgc & Hroot & Hok & Hmatch & Hem); [done|].
  destruct (sview_lookup_inv _ _ _ _ (no_heap Hok)) as (x & Hx & ->). simpl in Hmatch, Hem, Hroot.
  wp_steps. rewrite (ab_cfg _ _ Hab), Hcomp. wp_steps. eapply wp_get_snode; [done|exact Hx|]. intros y Ey.
  destruct (plain_fields _ _ Ey) as (_ & _ & Ekey & Eval & Etomb & _). unfold value_of. rewrite Ekey, Eval, Etomb. wp_steps.
  destruct (decide (k < key_len (s_key x))) as [Hk|Hk].
  - wp_step. eapply wp_walk_split; [done|exact HI|exact Hg|exact Hx|exact Hgc|done|exact Hok|exact Hem|done|].
    intros c' a' G' new gn z vv Hab' HI' Href Htf Habove EG' Hfresh Hvv Hz Hzv Hzt _ _ Egn Hnr Hokn _ Hopen.
    wp_step. eapply wp_get_snode; [done|exact Hz|]. intros z' Ez'. destruct (plain_fields _ _ Ez') as (_ & _ & _ & Evz & Etz & _). rewrite Evz, Hzv, Etz. wp_steps.
    apply (HQ c' a'); [done|]. assert (G' !! new = Some gn) as Hgn by (rewrite EG'; apply lookup_insert_eq).
    destruct (no_vals Hok) as (vv' & Hvv' & Hvl & _). simpl in Hvv', Hvl. assert (vv' = vv) as -> by congruence.
    exists lv, G', gn. split_and!; try done; [| | |by apply Hopen].
    + rewrite Egn. simpl. exists (drop k (titer key)). by rewrite <-app_assoc, take_drop.
    + rewrite Eps, Egn. simpl. eapply (descend_split (sview lv a)); [exact Ht|exact Hg|exact Hgc|exact Hok|exact Hem|done|done].
    + rewrite <-Hzt. eapply match_step; [exact HI'|by eapply lookup_weaken; [exact Hg|apply Href]|exact Hgn|by rewrite (tf_root _ _ Htf)|exact Hokn|exact Hz|done|done|].
      by eapply match_inv_same.
  - destruct (no_vals Hok) as (vv & Hvv & _ & Hgvals). simpl in Hvv. rewrite Hvv.
    destruct (key_suffix_titer key k) as (key' & Hs & _). destruct (skey_suffix a key k key') as (Hkey' & Hit & Hlen'); [done|apply Hem|done|].
    wp_steps. destruct (descend_full _ _ _ _ _ _ _ _ _ _ Hok Hem) as [Hkeq Happ]; [simpl; lia|].
    eapply wp_next_ckey; [exact HI|done|]. intros ck' Hck'.
    eapply (IH _ child gc); [done|exact HI|done|done|done|done|pose proof (em_pos _ _ _ _ Hem); lia|done| |].
    + by eapply match_step.
    + intros c' a' last ms' Hab' Hend. apply (HQ c' a' last ms' Hab'). rewrite Hit, Happ in Hend. exact Hend.
Qed.

(** ** The path to the front of the lists *)
Lemma path_nodes lv a G H own n g : AInv lv a G H own → G !! n = Some g →
  ∃ ns, up_path (a_nodes a) (a_root a) n ns ∧ NoDup ns ∧ ∀ q, q ∈ ns ↔ on_path G (a_root a) n q = true.
Proof.
  intros HI. pose proof (inv_tree _ _ _ (ai_tree _ _ _ _ _ HI)) as Ht. revert n g.
  apply (tree_ind (sview lv a) G (λ n _, ∃ ns, up_path (a_nodes a) (a_root a) n ns ∧ NoDup ns ∧ ∀ q, q ∈ ns ↔ on_path G (a_root a) n q = true) Ht).
  - exists []. simpl. split_and!; [constructor|constructor|]. intros q. pose proof (on_path_root (sview lv a) G q Ht) as E. simpl in E. rewrite E. set_solver.
  - intros n g cx p gp cpx Hg Hr Hok (ns & Hup & Hnd & Hin). destruct (sview_lookup_inv _ _ _ _ (no_heap Hok)) as (x & Hx & ->).
    assert (∀ q, on_path G (a_root a) n q = bool_decide (q = n) || on_path G (a_root a) p q ∧ on_path G (a_root a) p n = false) as Hon.
    { intros q. exact (on_path_step (sview lv a) G n g (s_core x) p gp cpx q Ht Hg Hr Hok). }
    exists (n :: ns). split_and!.
    + econstructor; [done|done|apply (no_par Hok)|done].
    + constructor; [|done]. rewrite Hin. destruct (Hon n) as [_ ->]. done.
    + intros q. destruct (Hon q) as [-> _]. rewrite elem_of_cons, Hin, orb_true_iff, bool_decide_eq_true. done.
Qed.
Lemma path_short lv a G H own n ns : AInv lv a G H own → NoDup ns → (∀ q, q ∈ ns → on_path G (a_root a) n q = true) → length ns ≤ size (a_nodes a).
Proof.
  intros HI Hnd Hin. etrans; [|by eapply tree_size]. rewrite <-size_dom, <-(size_list_to_set (C := gset nat) ns) by done. apply subseteq_size.
  intros q Hq%elem_of_list_to_set%Hin. eapply inner_dom. by apply (on_path_inner (sview lv a) G n).
Qed.
Lemma elem_of_listed sw a ns q : (∀ q, q ∈ ns → is_Some (a_nodes a !! q)) → q ∈ listed_of sw (a_nodes a) ns ↔ q ∈ ns ∧ (sw = true → xt (sx a) q = false).
Proof.
  intros Hns. unfold listed_of. rewrite list_elem_of_filter. unfold listed, xt, sx. rewrite lookup_fmap. split.
  - intros [Hl Hq]. split; [done|]. intros ->. destruct (a_nodes a !! q); [|done]. simpl in *. by apply negb_true_iff.
  - intros [Hq Hs]. split; [|done]. destruct (Hns q Hq) as [x Hx]. rewrite Hx in *. simpl in *. apply negb_true_iff. destruct sw; [by rewrite Hs|done].
Qed.
Lemma elem_of_move_front ns l q : (∀ q, q ∈ ns → q ∈ l) → q ∈ move_front ns l ↔ q ∈ l.
Proof. intros Hns. unfold move_front. rewrite elem_of_app, list_elem_of_filter. destruct (decide (q ∈ ns)); naive_solver. Qed.

(** The two lists reordered. *)
Lemma lists_AInv lv a G H own fl sl : AInv lv a G H own → (∀ q, q ∈ fl ↔ q ∈ a_fl a) → (∀ q, q ∈ sl ↔ q ∈ a_sl a) → AInv lv (aset_sl sl (aset_fl fl a)) G H own.
Proof. intros [] Hf Hs. split; try done; simpl; intros q; rewrite ?Hf, ?Hs; auto. Qed.

Record recent a G n : Prop := {
  rc_full : ∃ ns l, a_fl a = ns ++ l ∧ ∀ q, q ∈ ns ↔ on_path G (a_root a) n q = true;
  rc_swa : ∃ ns l, a_sl a = ns ++ l ∧ ∀ q, q ∈ ns ↔ on_path G (a_root a) n q = true ∧ xt (sx a) q = false;
}.
Lemma wp_reset_path c lv a G H own n g (Q : unit → SWACache A → Prop) :
  abs c a → AInv lv a G H own → G !! n = Some g →
  (∀ c' fl sl, let a' := aset_sl sl (aset_fl fl a) in abs c' a' → AInv lv a' G H own → recent a' G n → Q tt c') →
  wp (full_lru (reset_node_and_parents_mru n (a_root a))) (λ _ c1, wp (swa_lru (reset_node_and_parents_mru n (a_root a))) Q c1) c.
Proof.
  intros Hab HI Hg HQ. destruct (path_nodes _ _ _ _ _ _ _ HI Hg) as (ns & Hup & Hnd & Hns).
  assert (∀ q, q ∈ ns → q ∈ inner (sview lv a) G) as Hin by (intros q Hq%Hns; by apply (on_path_inner (sview lv a) G n)).
  assert (∀ q, q ∈ ns → is_Some (a_nodes a !! q)) as Hlive.
  { intros q Hq%Hin. destruct (tree_node _ _ _ _ _ _ HI Hq) as (_ & x & _ & _ & _ & _ & _ & _ & Hx & _). eauto. }
  assert (length ns ≤ size (a_nodes a)) as Hshort by (eapply path_short; [done|done|intros q; by rewrite Hns]).
  assert (∀ q, q ∈ listed_of false (a_nodes a) ns → q ∈ a_fl a) as Hf by (intros q [Hq _]%elem_of_listed; [|done]; apply (ai_fl _ _ _ _ _ HI); auto).
  assert (∀ q, q ∈ listed_of true (a_nodes a) ns → q ∈ a_sl a) as Hs by (intros q [Hq ?]%elem_of_listed; [|done]; apply (ai_sl _ _ _ _ _ HI); auto).
  eapply (wp_lru_front _ _ false _ n ns); [done|done|done|done|done|]. intros c1 Hab1. simpl in Hab1.
  eapply (wp_lru_front _ _ true _ n ns); [done|done|done|done|done|]. intros c2 Hab2. simpl in Hab2.
  eapply HQ; [exact Hab2|apply lists_AInv; [done|intros q; by apply elem_of_move_front|intros q; by apply elem_of_move_front]|].
  split; simpl; eexists _, _; (split; [reflexivity|]); intros q; rewrite elem_of_listed by done; rewrite Hns; naive_solver.
Qed.

(** ** match_prefix *)

(** The units of the key the tree looks at. *)
Definition swa_units (cf : SWAConfig) (key : RadixKey) : list tunit :=
  let k := (maybe_to_bigram_view key (sw_eagle cf) None).1 in take (floor_align (key_len k) (sw_page_size cf)) (titer k).
Definition swa_query_ok (cf : SWAConfig) (key : RadixKey) : Prop := is_bigram key = true → sw_eagle cf = true.

Record swa_match_post a G H own (us : list tunit) (vs : list Z) n a' G' : Prop := {
  sp_inv : ∃ lv, AInv lv a' G' H own;
  sp_refines : refines G G';
  sp_frame : tframe a a';
  sp_node : G' !! n = Some (MkG (take (length vs) us) vs);
  sp_good : good (sliding_window_size (a_cfg a)) a' G' n;
  sp_max : ∀ q gq, G' !! q = Some gq → g_path gq `prefix_of` us → good (sliding_window_size (a_cfg a)) a' G' q → length (g_path gq) ≤ length vs;
  sp_open : ∀ q, q ∈ dom G → good (sliding_window_size (a_cfg a)) a G q → good (sliding_window_size (a_cfg a)) a' G' q;
}.

Lemma root_good w lv a G H own : AInv lv a G H own → good w a G (a_root a).
Proof. intros HI q Hq. pose proof (on_path_root (sview lv a) G q (inv_tree _ _ _ (ai_tree _ _ _ _ _ HI))) as E. simpl in E. congruence. Qed.
Lemma root_post lv a G H own us : AInv lv a G H own → us = [] → swa_match_post a G H own us [] (a_root a) a G.
Proof.
  intros HI ->. pose proof (to_groot (inv_tree _ _ _ (ai_tree _ _ _ _ _ HI))) as Hr. simpl in Hr.
  split; [eauto|done|done|done|by eapply root_good| |done]. intros q gq _ ->%prefix_nil_inv _. done.
Qed.
(** Nodes on the way along the key are above the end of the walk. *)
Lemma longest_above lv a G H own us vs q gq : AInv lv a G H own → longest_match ps G us vs → G !! q = Some gq → g_path gq `prefix_of` us → length (g_path gq) ≤ length vs.
Proof.
  intros HI Hlm Hq Hp. destruct (decide (length (g_path gq) ≤ length vs)) as [|Hgt]; [done|]. exfalso.
  pose proof (ai_ps _ _ _ _ _ HI) as Eps. destruct (tree_path_shape _ _ _ _ (inv_tree _ _ _ (ai_tree _ _ _ _ _ HI)) Hq) as [Hal Hlen]. simpl in Hal.
  eapply (lm_max _ _ _ _ Hlm (length (g_path gq)) (g_vals gq)); [split; [lia|by apply prefix_length]|].
  exists q, gq, (length (g_path gq)). split_and!; [done|lia|done|by rewrite Eps|by rewrite <-(prefix_take_id _ _ Hp), take_ge|by rewrite take_ge by lia].
Qed.

(** The end of the walk, with the best node taken. *)
Lemma walk_end_post a G H own us last ms a' lv :
  let w := sliding_window_size (a_cfg a) in
  AInv lv a G H own → 0 < w → walk_end w a G H own us last ms a' →
  let ms' := keep_best w last ms in ∃ G', swa_match_post a G H own us (concat (take (best_value_len ms') (m_value ms'))) (best_last_node ms') a' G'.
Proof.
  intros w HI Hw (lv' & G' & gl & HI' & Href & Htf & Hlast & Hpre & Hlm & Hmi & Hopen) ms'. exists G'.
  destruct (match_keep w _ _ _ _ _ _ _ _ HI' Hlast Hw Hmi) as [[Hvals _ (gb & Hgb & Hpb & Hcb & Hgood) _ _] Hmax]. fold ms' in Hcb, Hgb, Hgood, Hmax. rewrite Hcb.
  destruct (tree_path_shape _ _ _ _ (inv_tree _ _ _ (ai_tree _ _ _ _ _ HI')) Hgb) as [_ Hlb].
  destruct (tree_path_shape _ _ _ _ (inv_tree _ _ _ (ai_tree _ _ _ _ _ HI')) Hlast) as [_ Hll].
  assert (longest_match ps G' us (g_vals gl)) as Hlm'.
  { pose proof (ai_ps _ _ _ _ _ HI) as Eps. rewrite Eps in *. apply (refines_longest (sview lv a) (sview lv' a') G G'); [apply HI|apply HI'|simpl; by rewrite (tf_cfg _ _ Htf)|done|done]. }
  split; [eauto|done|done| |done| |done].
  - rewrite Hgb. f_equal. rewrite Hlb. assert (g_path gb `prefix_of` us) as Hp by (by etrans). rewrite <-(prefix_take_id _ _ Hp). by destruct gb.
  - intros q gq Hq Hp Hg'. rewrite Hlb. unfold plen in Hmax. rewrite Hgb in Hmax. eapply (Hmax q gq); [done| |done].
    pose proof (longest_above _ _ _ _ _ _ _ _ _ HI' Hlm' Hq Hp) as Hle. eapply prefix_le; [exact Hp|exact Hpre|lia].
Qed.

(** The lists are no part of what the walk established. *)
Lemma post_lists a G H own us vs n a' G' fl sl lv :
  swa_match_post a G H own us vs n a' G' → AInv lv (aset_sl sl (aset_fl fl a')) G' H own → swa_match_post a G H own us vs n (aset_sl sl (aset_fl fl a')) G'.
Proof. intros [_ ? [] ? ? ? ?] HI. split; try done; eauto. Qed.

Lemma query_pages a key : swa_query_ok (a_cfg a) key →
  let k := (maybe_to_bigram_view key (sw_eagle (a_cfg a)) None).1 in
  ∃ key', page_aligned k (sw_page_size (a_cfg a)) = Ok key' ∧ skey a key' ∧ titer key' = swa_units (a_cfg a) key.
Proof.
  intros Hq k. pose proof (maybe_to_bigram_view_spec key (sw_eagle (a_cfg a)) None Hq) as Hv.
  destruct (page_aligned_titer k (sw_page_size (a_cfg a))) as (key' & Hpa & Hit & Hm & _). exists key'. split_and!; [done| |done]. split.
  - rewrite <-titer_length, Hit, length_take, titer_length, Nat.min_l by auto with py. auto with py.
  - rewrite Hm. subst k. destruct (maybe_to_bigram_view _ _ _) as [k' v']. by destruct Hv.
Qed.

Lemma wp_swa_match_prefix c lv a G H own key (Q : list Z * nat → SWACache A → Prop) :
  let w := sliding_window_size (a_cfg a) in
  abs c a → AInv lv a G H own → sw_disable (a_cfg a) = false → compact (a_cfg a) = false → 0 < w → swa_query_ok (a_cfg a) key →
  (∀ c' a' G' vs n, abs c' a' → swa_match_post a G H own (swa_units (a_cfg a) key) vs n a' G' → (n ≠ a_root a → recent a' G' n) → Q (vs, n) c') →
  wp (swa_match_prefix key) Q c.
Proof.
  intros w Hab HI Hdis Hcomp Hw Hq HQ. destruct (query_pages a key Hq) as (key' & Hpa & Hkey & Hit). pose proof (inv_tree _ _ _ (ai_tree _ _ _ _ _ HI)) as Ht.
  unfold swa_match_prefix. wp_steps. rewrite (ab_cfg _ _ Hab), (ab_root _ _ Hab), Hdis. simpl. cbv zeta.
  assert (swa_units (a_cfg a) key = [] → Q ([], a_root a) c) as Hnone by (intros Hus; eapply HQ; [done|by eapply root_post|done]).
  unfold swa_units in *. destruct (maybe_to_bigram_view key (sw_eagle (a_cfg a)) None) as [kk vv0]. simpl in *.
  case_bool_decide as Hlen; [wp_step; apply Hnone; rewrite Hlen; unfold floor_align; by rewrite Nat.Div0.div_0_l, take_0|].
  wp_steps. case_bool_decide as Hlen'; [wp_step; apply Hnone; rewrite <-Hit; apply nil_length_inv; by rewrite titer_length|].
  unfold swa_match_helper. wp_steps. rewrite (ab_cfg _ _ Hab), (ab_root _ _ Hab).
  destruct (child_key_ok key' (sw_page_size (a_cfg a))) as [ck Hck]; [exact (to_ps Ht)|apply (aligned_lt 0); [apply aligned_0|apply Hkey|lia]|]. wp_steps.
  pose proof (to_groot Ht) as Hgr. simpl in Hgr.
  eapply (wp_swa_match_loop _ _ _ _ _ _ _ _ (MkG [] [])); [done|exact HI|done|done|done|done|lia|done| |].
  { split; simpl; try done.
    - intros q Hon. pose proof (on_path_root (sview lv a) G q Ht) as E. simpl in E. congruence.
    - exists (MkG [] []). split_and!; [done|done|done|by eapply root_good]. }
  intros c1 a1 last ms Hab1 Hend. simpl in Hend. rewrite Hit in Hend. wp_steps. cbn [fst snd].
  destruct (walk_end_post _ _ _ _ _ _ _ _ _ HI Hw Hend) as [G1 Hpost]. fold w in Hpost |- *.
  destruct (sp_inv _ _ _ _ _ _ _ _ _ Hpost) as [lv1 HI1]. pose proof (tf_root _ _ (sp_frame _ _ _ _ _ _ _ _ _ Hpost)) as Er. rewrite <-Er.
  eapply wp_mono; [eapply wp_reset_path; [done|exact HI1|apply (sp_node _ _ _ _ _ _ _ _ _ Hpost)|]|].
  2: { intros [] c2 Hw2. wp_step. exact Hw2. }
  intros c3 fl sl a3 Hab3 HI3 Hrec. wp_steps. eapply HQ; [exact Hab3|by eapply post_lists|done].
Qed.
End match_prefix.
