(* ===== verification/SwaRevive.v ===== *)
(** What [_insert_helper] does to a node it has run through: the slots of the request are
    freed, or they replace those of a tombstone, which is then none any more. *)
From S2P Require Import Prelude RadixKey TreeNode EvictPolicy RadixCache RadixInv RadixSplit RadixLeaf RadixLock RadixSpec RadixOps RadixMatch RadixLockOps.
From S2P Require Import SwaLru SwaCache SwaAbs SwaInv SwaOps SwaNodes SwaEvict SwaLocks SwaMatch.
From stdpp Require Import options.

Section revive.
Context {A : Type} {alloc : SWAAllocator A} {ps : nat} {laws : SWAAllocatorLaws A ps}.
Implicit Types (c : SWACache A) (a : ACache A) (G : gmap nat gnode) (H : list hold) (own : Z → Z) (x y : SNode) (n m p q : nat) (lv : gset nat).

(** ** The slots of the request *)

(** [l] belongs to the request. *)
Definition owned own (l : list Z) : Prop := ∀ i, (occ i l <= own i)%Z.
Lemma own_less_app l1 l2 own i : own_less (l1 ++ l2) own i = own_less l2 (own_less l1 own) i.
Proof. unfold own_less. rewrite occ_app. lia. Qed.
Lemma owned_app own l1 l2 : owned own (l1 ++ l2) → owned own l1 ∧ owned (own_less l1 own) l2.
Proof. intros Ho. split; intros i; specialize (Ho i); rewrite occ_app in Ho; unfold own_less; pose proof (occ_nonneg i l2); lia. Qed.
Lemma own_nonneg own l : owned own l → ∀ i, (0 <= own_less l own i)%Z.
Proof. intros Ho i. specialize (Ho i). unfold own_less. lia. Qed.
Lemma owned_slots v X (al : A) G own l : slots_ok v X al G own → owned own l →
  NoDup l ∧ (∀ i, i ∈ l → i ∈ sa_used al ∧ slot_count v G i = 0%Z) ∧ ∀ q i, q ∈ inner v G → i ∈ hval (tv_h v) q → i ∉ l.
Proof.
  intros Hs Ho. pose proof Hs as [_ Hown Hcount _ _].
  assert (∀ i, (0 <= slot_count v G i)%Z) as Hsc by (intros i; apply gsum_nonneg; intros; apply occ_nonneg).
  assert (∀ i, i ∈ l → i ∈ sa_used al ∧ slot_count v G i = 0%Z) as Hl.
  { intros i Hi%occ_in_pos. specialize (Ho i). specialize (Hcount i). specialize (Hsc i). case_decide; [|lia]. split; [done|lia]. }
  split_and!; [|done|].
  - apply occ_le_NoDup. intros i. specialize (Ho i). specialize (Hcount i). specialize (Hsc i). case_decide; lia.
  - intros q i Hq Hi Hil. destruct (node_slots _ _ _ _ _ _ Hs Hq) as [_ Hn]. destruct (Hn i Hi) as (_ & _ & E & _). destruct (Hl i Hil). lia.
Qed.
(** The request gives slots back. *)
Lemma free_own v X (al : A) G own l : slots_ok v X al G own → owned own l → sa_fits l →
  ∃ al', sa_free l al = Ok al' ∧ slots_ok v X al' G (own_less l own) ∧ sa_backed al' = sa_backed al ∖ list_to_set l.
Proof.
  intros Hs Ho Hf. destruct (owned_slots _ _ _ _ _ _ Hs Ho) as (Hnd & Hl & Hdis). pose proof Hs as [Hal Hown Hcount Hfits Hback].
  destruct (sa_free_ok al l Hal Hnd Hf) as (al' & Hfr & Hal' & Eu & Eb); [intros i Hi; by apply Hl|]. exists al'. split_and!; [done| |done].
  split; [done|by apply own_nonneg| |done|].
  - intros i. specialize (Hcount i). rewrite Eu. unfold own_less. rewrite occ_NoDup by done. destruct (decide (i ∈ l)) as [Hi|Hi].
    + rewrite (decide_False (P := i ∈ _ ∖ _)) by set_solver. destruct (Hl i Hi) as [Hu ?]. rewrite decide_True in Hcount by done. lia.
    + rewrite (decide_ext _ (i ∈ sa_used al)); [lia|]. set_solver.
  - intros q i Hq Hi. rewrite Eb, elem_of_difference, elem_of_list_to_set. rewrite (Hback q i Hq Hi). pose proof (Hdis q i Hq Hi). tauto.
Qed.
Lemma free_own_AInv lv a G H own l : AInv lv a G H own → owned own l → sa_fits l →
  ∃ al, sa_free l (a_alloc a) = Ok al ∧ AInv lv (aset_alloc al a) G H (own_less l own) ∧ sa_backed al = sa_backed (a_alloc a) ∖ list_to_set l.
Proof.
  intros HI Ho Hf. destruct (free_own _ _ _ _ _ _ (ai_slots _ _ _ _ _ HI) Ho Hf) as (al & Hfr & Hs & Eb). exists al. split_and!; [done| |done].
  destruct HI. by split.
Qed.

(** ** Reviving a tombstone *)
Definition revived (new : list Z) x : SNode := set_tombstone false (set_s_value new x).
Definition arevive n x (new : list Z) al a : ACache A :=
  MkA (a_cfg a) (a_root a) (<[n := revived new x]> (a_nodes a)) (a_counter a) (a_uuid a)
    (a_fev a) (a_sev a + Z.of_nat (length new)) (a_fpr a) (a_spr a) (a_fl a) (n :: a_sl a) al.

(** The old slots of [n] are freed, and those of the request take their place. *)
Lemma revive_slots_ok v X al al' G own n g (cx : core) p gp px old new :
  tree_ok v G → G !! n = Some g → n ≠ tv_root v → node_ok v G n g cx p gp px → c_value cx = Some old → length new = length old →
  slots_ok v X al G own → sa_free old al = Ok al' → owned own new → sa_fits new → (∀ i, i ∈ new → i ∈ sa_backed al) →
  ∀ l u, slots_ok (revalue_view v n cx new) (<[n := MkX false l u]> X) al' (revalue_gnode g gp new <$> G) (own_less new own)
    ∧ sa_backed al' = sa_backed al ∖ list_to_set old.
Proof.
  intros Ht Hg Hn Hok Hold Hlen Hs Hfree Ho Hf Hnb l u. destruct (owned_slots _ _ _ _ _ _ Hs Ho) as (Hndn & Hln & Hdis).
  assert (n ∈ inner v G) as Hin by (apply elem_of_inner; eauto). destruct (node_slots _ _ _ _ _ _ Hs Hin) as [Hndo Hlo].
  assert (hval (tv_h v) n = old) as Ev by (unfold hval; rewrite (no_heap Hok); simpl; by rewrite Hold). rewrite Ev in *.
  pose proof Hs as [Hal Hown Hcount Hfits Hback].
  destruct (sa_free_ok al old Hal Hndo) as (al0 & Hfr & Hal0 & Eu & Eb); [rewrite <-Ev; auto|intros i Hi; by apply Hlo|].
  assert (al0 = al') as -> by congruence. split; [|done].
  assert (∀ i, i ∈ new → i ∉ old) as Hno by (intros i Hi Hi'; apply (Hdis n i Hin); [by rewrite Ev|done]).
  assert (hval (tv_h (revalue_view v n cx new)) n = new) as Evn by (unfold hval; rewrite revalue_lookup; by rewrite decide_True).
  assert (∀ q, q ≠ n → hval (tv_h (revalue_view v n cx new)) q = hval (tv_h v) q) as Evq by (intros q Hq; unfold hval; rewrite revalue_lookup; by rewrite decide_False).
  split; [done|by apply own_nonneg| | |].
  - intros i. rewrite (revalue_slots v G n g cx p gp px old new Ht Hg Hn Hok Hold). specialize (Hcount i). rewrite Eu. unfold own_less. rewrite (occ_NoDup i old) by done.
    destruct (decide (i ∈ old)) as [Hi|Hi].
    + rewrite (decide_False (P := i ∈ _ ∖ _)) by set_solver. destruct (Hlo i Hi) as (Hu & _). rewrite decide_True in Hcount by done. lia.
    + rewrite (decide_ext _ (i ∈ sa_used al)); [lia|]. set_solver.
  - intros q. rewrite revalue_inner. intros Hq. destruct (decide (q = n)) as [->|Hqn]; [by rewrite Evn|]. rewrite Evq by done. auto.
  - intros q i. rewrite revalue_inner. intros Hq Hi. rewrite Eb, elem_of_difference, elem_of_list_to_set. unfold xt. rewrite lookup_insert. case_decide as E.
    + subst q. rewrite Evn in Hi. simpl. split; [done|]. intros _. split; [auto|by apply Hno].
    + rewrite Evq in Hi by done. fold (xt X q). rewrite <-(Hback q i Hq Hi). split; [tauto|]. intros Hb. split; [done|]. intros Hio.
      destruct (Hlo i Hio) as (_ & _ & _ & Hoth). by apply (Hoth q Hq).
Qed.

Lemma arevive_views lv a n x new al : a_nodes a !! n = Some x →
  sview lv (arevive n x new al a) = revalue_view (sview lv a) n (s_core x) new ∧ sx (arevive n x new al a) = <[n := MkX false (swa_lock_ref x) (swa_uuid x)]> (sx a).
Proof.
  intros Hx. split; [|unfold sx; simpl; by rewrite fmap_insert]. unfold sview, revalue_view. simpl. by rewrite fmap_insert.
Qed.
Lemma arevive_inv lv a G H own n g x p gp px old new al :
  AInv lv a G H own → G !! n = Some g → n ≠ a_root a → node_ok (sview lv a) G n g (s_core x) p gp px → a_nodes a !! n = Some x →
  swa_tombstone x = true → s_value x = Some old → length new = length old → sa_free old (a_alloc a) = Ok al →
  owned own new → sa_fits new → (∀ i, i ∈ new → i ∈ sa_backed (a_alloc a)) →
  AInv lv (arevive n x new al a) (revalue_gnode g gp new <$> G) H (own_less new own) ∧ sa_backed al = sa_backed (a_alloc a) ∖ list_to_set old.
Proof.
  intros HI Hg Hn Hok Hx Ht Hold Hlen Hfree Ho Hf Hnb. pose proof (inv_tree _ _ _ (ai_tree _ _ _ _ _ HI)) as Htree.
  assert (n ∈ inner (sview lv a) G) as Hin by (apply elem_of_inner; eauto). pose proof (window_live _ _ _ _ _ _ _ HI Hin Hx Ht) as Hl0.
  destruct (revive_slots_ok _ _ _ _ _ _ _ _ _ _ _ _ _ _ Htree Hg Hn Hok Hold Hlen (ai_slots _ _ _ _ _ HI) Hfree Ho Hf Hnb 0%Z (swa_uuid x)) as [Hs Eb]. split; [|done].
  destruct (arevive_views lv a n x new al Hx) as [Ev Ex]. rewrite Hl0 in Ex. destruct (sx_lookup _ _ _ Hx) as (HX & Et & _). unfold x_core in HX. rewrite Ht, Hl0 in HX.
  assert (length old = key_len (s_key x)) as Hko. { destruct (no_vals Hok) as (v0 & Hv0 & Hvl & _). simpl in Hv0, Hvl. congruence. }
  destruct HI as [Eps Hinv Hswa Hfl Hsl Huc Hslots]. pose proof (tomb_swa_inv _ _ _ _ _ _ _ _ _ false _ Hin HX Hswa) as Hswa'.
  assert (hlen (tv_h (sview lv a)) n = Z.of_nat (key_len (s_key x))) as Hhl by (unfold hlen; by rewrite (sview_lookup _ _ _ _ Hx)).
  assert (inner (sview lv (arevive n x new al a)) (revalue_gnode g gp new <$> G) = inner (sview lv a) G) as Ein by (rewrite Ev; apply revalue_inner).
  split; rewrite ?Ev, ?Ex; try done.
  - by eapply revalue_Inv.
  - simpl a_sev. simpl a_spr. simpl a_uuid. eapply (revalue_swa_inv (sview lv a)); [exact Hn|exact Hok|]. rewrite Hlen, Hko. rewrite Hhl, Z.sub_0_r in Hswa'. exact Hswa'.
  - intros q. simpl. rewrite Hfl, revalue_inner. done.
  - intros q. simpl. rewrite revalue_inner, elem_of_cons, Hsl. unfold xt at 2. rewrite lookup_insert. case_decide; subst; simpl; [tauto|]. unfold xt. naive_solver.
Qed.

(** ** The node is updated *)

(** The tree only gains nodes and windows. *)
Record grows a G a' G' : Prop := {
  gw_cfg : a_cfg a' = a_cfg a;
  gw_root : a_root a' = a_root a;
  gw_uuid : a_uuid a' = a_uuid a;
  gw_fpr : a_fpr a' = a_fpr a;
  gw_spr : a_spr a' = a_spr a;
  gw_paths : ∀ q gq, G !! q = Some gq → ∃ gq', G' !! q = Some gq' ∧ g_path gq' = g_path gq;
  gw_live : ∀ q, q ∈ dom G → xt (sx a) q = false → xt (sx a') q = false;
}.
Lemma grows_refl a G : grows a G a G.
Proof. split; eauto. Qed.
Lemma grows_trans a1 G1 a2 G2 a3 G3 : grows a1 G1 a2 G2 → grows a2 G2 a3 G3 → grows a1 G1 a3 G3.
Proof.
  intros [E1 E2 E3 E4 E5 Hp Hl] [E1' E2' E3' E4' E5' Hp' Hl']. split; try congruence.
  - intros q gq Hq. destruct (Hp q gq Hq) as (gq2 & Hq2 & Ep). destruct (Hp' q gq2 Hq2) as (gq3 & Hq3 & Ep'). exists gq3. split; [done|congruence].
  - intros q Hq Ht. apply Hl'; [|auto]. apply elem_of_dom in Hq as [gq Hq]. destruct (Hp q gq Hq) as (gq2 & Hq2 & _). by eapply elem_of_dom_2.
Qed.
(** The slots the request keeps are backed as before. *)
Definition keeps_backing own l a a' : Prop := ∀ i, (occ i l < own i)%Z → (i ∈ sa_backed (a_alloc a') ↔ i ∈ sa_backed (a_alloc a)).

(** Every node lies on a path of the old tree. *)
Definition cuts G G' : Prop := ∀ q gq, G' !! q = Some gq → ∃ q0 g0, G !! q0 = Some g0 ∧ g_path gq `prefix_of` g_path g0.
Lemma cuts_refl G : cuts G G.
Proof. intros q gq Hq. by exists q, gq. Qed.
Lemma cuts_trans G1 G2 G3 : cuts G1 G2 → cuts G2 G3 → cuts G1 G3.
Proof. intros H1 H2 q gq Hq. destruct (H2 q gq Hq) as (q2 & g2 & Hq2 & Hp). destruct (H1 q2 g2 Hq2) as (q1 & g1 & Hq1 & Hp'). exists q1, g1. split; [done|by etrans]. Qed.
Lemma refines_cuts G G' : refines G G' → cuts G G'.
Proof. intros Hr q gq Hq. destruct (rf_cut _ _ Hr q gq Hq) as (n & g & ? & ? & _). eauto. Qed.

(** Nodes with at most [m] tokens on their path keep their slots. *)
Definition keeps_low (m : nat) G G' : Prop := ∀ q gq, G !! q = Some gq → length (g_path gq) ≤ m → G' !! q = Some gq.
Lemma keeps_low_sub m G G' : G ⊆ G' → keeps_low m G G'.
Proof. intros Hs q gq Hq _. by eapply lookup_weaken. Qed.
Lemma keeps_low_trans m1 m2 G1 G2 G3 : m1 ≤ m2 → keeps_low m1 G1 G2 → keeps_low m2 G2 G3 → keeps_low m1 G1 G3.
Proof. intros Hm H1 H2 q gq Hq Hl. apply H2; [by apply H1|lia]. Qed.

(** [nd], between the paths of [gp] and [g], has been updated with slots whose windows start at [ev]. *)
Record updated a G a' G' nd (g gp : gnode) (ev : nat) : Prop := {
  up_grows : grows a G a' G';
  up_new : ∀ q gq, G' !! q = Some gq → q ∈ dom G ∨ length (g_path gp) < length (g_path gq) ∧ length (g_path gq) = ev;
  up_tomb : ev < length (g_path g) → xt (sx a') nd = false;
  up_cut : cuts G G';
  up_low : keeps_low (length (g_path gp)) G G';
}.

Lemma own_le_1 v X (al : A) G own i : slots_ok v X al G own → (own i <= 1)%Z.
Proof.
  intros [_ Hown Hcount _ _]. specialize (Hcount i). assert (0 <= slot_count v G i)%Z by (apply gsum_nonneg; intros; apply occ_nonneg). case_decide; lia.
Qed.
Lemma minus_backing v X (al : A) G own l i : slots_ok v X al G own → owned own l → (occ i l < own i)%Z → i ∉ l.
Proof. intros Hs Ho Hlt Hi%occ_in_pos. pose proof (own_le_1 _ _ _ _ _ i Hs). lia. Qed.

(** The slots of the request are given back: a node that is no tombstone, or slots without windows. *)
Lemma wp_update_free c lv a G H own nd g gp ev l (Q : unit → SWACache A → Prop) :
  abs c a → AInv lv a G H own → owned own l → sa_fits l → (ev < length (g_path g) → xt (sx a) nd = false) →
  (∀ c' lv' a' G', abs c' a' → AInv lv' a' G' H (own_less l own) → updated a G a' G' nd g gp ev → keeps_backing own l a a' → Q tt c') →
  wp (free l) Q c.
Proof.
  intros Hab HI Ho Hf Ht HQ. destruct (free_own_AInv _ _ _ _ _ _ HI Ho Hf) as (al & Hfr & HI' & Eb).
  eapply wp_free; [done|done|]. intros c' Hab'. eapply HQ; [exact Hab'|exact HI'| |].
  - split; [by split; eauto|intros q gq Hq; left; by eapply elem_of_dom_2|exact Ht|apply cuts_refl|by apply keeps_low_sub].
  - intros i Hi. simpl. rewrite Eb, elem_of_difference, elem_of_list_to_set.
    pose proof (minus_backing _ _ _ _ _ _ _ (ai_slots _ _ _ _ _ HI) Ho Hi). tauto.
Qed.

Lemma AInv_own_ext lv a G H own own' : (∀ i, own i = own' i) → AInv lv a G H own → AInv lv a G H own'.
Proof.
  intros E [? ? ? ? ? ? [Hal Hown Hcount Hfits Hback]]. split; try done. split; try done; intros i; rewrite <-E; auto.
Qed.
Lemma wp_revive c a al n x new (Q : unit → SWACache A → Prop) :
  abs c (aset_alloc al (aset_nodes (<[n := set_s_value new x]> (a_nodes a)) a)) → n ∉ a_sl a →
  (∀ c', abs c' (arevive n x new al a) → Q tt c') → wp (revive n new) Q c.
Proof.
  intros Hab Hn HQ. unfold revive. wp_step. eapply wp_upd_snode; [exact Hab|apply lookup_insert_eq|by intros ?|by intros ?|]. intros c1 Hab1. a_norm_in Hab1.
  wp_step. eapply (wp_lru_insert _ _ true); [exact Hab1|apply lookup_insert_eq|by intros ?|done|done|]. intros c2 Hab2. a_norm_in Hab2.
  wp_step. apply HQ. apply (abs_add_swa _ _ (Z.of_nat (length new)) 0) in Hab2. a_norm_in Hab2. by rewrite Z.add_0_r in Hab2.
Qed.

(** The revived node: what grows, and the slots that stay backed. *)
Lemma arevive_updated lv a G H own n g x p gp px old new al ev :
  AInv lv a G H own → G !! n = Some g → n ≠ a_root a → node_ok (sview lv a) G n g (s_core x) p gp px → a_nodes a !! n = Some x → s_value x = Some old →
  sa_backed al = sa_backed (a_alloc a) ∖ list_to_set old →
  updated a G (arevive n x new al a) (revalue_gnode g gp new <$> G) n g gp ev ∧ ∀ i, (0 < own i)%Z → (i ∈ sa_backed al ↔ i ∈ sa_backed (a_alloc a)).
Proof.
  intros HI Hg Hn Hok Hx Hold Eb. destruct (arevive_views lv a n x new al Hx) as [_ Ex].
  assert (∀ q, xt (sx (arevive n x new al a)) q = if decide (n = q) then false else xt (sx a) q) as Ext.
  { intros q. rewrite Ex. unfold xt at 1. rewrite lookup_insert. by case_decide. }
  split; [split; [split; try done| | | |]|].
  - intros q gq Hq. exists (revalue_gnode g gp new gq). rewrite lookup_fmap, Hq. split; [done|apply revalue_path].
  - intros q _ Ht. rewrite Ext. by case_decide.
  - intros q gq Hq. left. rewrite lookup_fmap in Hq. apply fmap_Some in Hq as (gq0 & Hq & _). by eapply elem_of_dom_2.
  - intros _. rewrite Ext. by rewrite decide_True.
  - intros q gq Hq. rewrite lookup_fmap in Hq. apply fmap_Some in Hq as (gq0 & Hq & ->). exists q, gq0. by rewrite revalue_path.
  - intros q gq Hq Hl. rewrite lookup_fmap, Hq. simpl. f_equal. unfold revalue_gnode. rewrite bool_decide_false; [done|]. intros Hp%prefix_length.
    pose proof (node_ok_len _ _ _ _ _ _ _ _ Hok). pose proof (no_pos Hok). lia.
  - intros i Hi. rewrite Eb, elem_of_difference, elem_of_list_to_set. split; [tauto|]. intros Hb. split; [done|]. intros Hio.
    assert (n ∈ inner (sview lv a) G) as Hin by (apply elem_of_inner; eauto). destruct (node_slots _ _ _ _ _ _ (ai_slots _ _ _ _ _ HI) Hin) as [_ Hno].
    destruct (Hno i) as (_ & E & _); [|lia]. unfold hval. rewrite (sview_lookup _ _ _ _ Hx). simpl. by rewrite Hold.
Qed.

(** A split only adds a node. *)
Lemma asplit_grows lv a G H own n g p gp x px ck rest_ck pre post k vv :
  AInv lv a G H own → split_at a G n g p gp x px ck rest_ck pre post k vv → split_pre (sview lv a) G n g (s_core x) p gp (s_core px) ck rest_ck pre post k vv →
  grows a G (asplit n k p (a_counter a) x px ck rest_ck pre post vv a) (<[a_counter a := split_gnode gp (s_core x) k vv]> G).
Proof.
  intros HI Hsa Hsp. destruct (fresh_node _ _ _ _ _ HI) as [_ HfrG]. destruct (asplit_views lv _ _ _ _ _ _ _ _ _ _ _ _ _ _ Hsa Hsp) as [_ Ex].
  destruct (sx_lookup _ _ _ (sa_x _ _ _ _ _ _ _ _ _ _ _ _ _ _ Hsa)) as (_ & Et & _). split; try done.
  - intros q gq Hq. exists gq. split; [|done]. rewrite lookup_insert_ne; [done|]. intros <-. congruence.
  - intros q [gq Hq]%elem_of_dom Ht. rewrite Ex. unfold xt. rewrite !lookup_insert. repeat case_decide; subst; simpl; [congruence|congruence|done].
Qed.

Section update.
Context (c : SWACache A) (lv : gset nat) (a : ACache A) (G : gmap nat gnode) (H : list hold) (own : Z → Z).
Context (nd : nat) (g : gnode) (x : SNode) (p : nat) (gp : gnode) (px : core) (value : list Z) (ev : nat).
Abbreviation k := (key_len (s_key x)).
Abbreviation total := (length (g_path gp)).
Context (Hab : abs c a) (HI : AInv lv a G H own) (Hg : G !! nd = Some g) (Hn : nd ≠ a_root a) (Hok : node_ok (sview lv a) G nd g (s_core x) p gp px).
Context (Hx : a_nodes a !! nd = Some x) (Hk : k ≤ length value) (Ho : owned own (take k value)) (Hf : sa_fits (take k value)).
Context (Hb : ∀ j i, j < k → value !! j = Some i → (i ∈ sa_backed (a_alloc a) ↔ ev ≤ total + j)).

Local Lemma upd_value : ∃ vv, s_value x = Some vv ∧ length vv = k.
Proof using Hok. destruct (no_vals Hok) as (vv & Hvv & Hl & _). eauto. Qed.
Local Lemma upd_inner : nd ∈ inner (sview lv a) G.
Proof using Hg Hn. apply elem_of_inner. eauto. Qed.
Local Lemma upd_unlisted : swa_tombstone x = true → nd ∉ a_sl a.
Proof using HI Hx. intros Ht [_ E]%(ai_sl _ _ _ _ _ HI). destruct (sx_lookup _ _ _ Hx) as (_ & E' & _). congruence. Qed.

(** Branch 1: all the windows of the request are there. *)
Lemma wp_update_whole (Q : unit → SWACache A → Prop) vv :
  s_value x = Some vv → swa_tombstone x = true → ev ≤ total →
  (∀ c' lv' a' G', abs c' a' → AInv lv' a' G' H (own_less (take k value) own) → updated a G a' G' nd g gp ev → keeps_backing own (take k value) a a' → Q tt c') →
  wp (_ ← free (take k vv); _ ← upd_snode nd (set_s_value (take k value)); revive nd (take k value)) Q c.
Proof using Hab HI Hg Hn Hok Hx Hk Ho Hf Hb.
  intros Hvv Ht Hle HQ. destruct upd_value as (vv' & Hvv' & Hlen). assert (vv' = vv) as -> by congruence.
  pose proof upd_inner as Hin. pose proof (tree_not_new _ _ _ _ _ _ _ HI (ex_intro _ _ Hg) Hx) as Hxn.
  destruct (node_slots _ _ _ _ _ _ (ai_slots _ _ _ _ _ HI) Hin) as [Hnd Hno].
  assert (hval (tv_h (sview lv a)) nd = vv) as Ev by (unfold hval; rewrite (sview_lookup _ _ _ _ Hx); simpl; by rewrite Hvv). rewrite Ev in *.
  destruct (sa_free_ok (a_alloc a) vv) as (al & Hfr & _); [apply (ai_slots _ _ _ _ _ HI)|done|rewrite <-Ev; by apply (ai_slots _ _ _ _ _ HI)|intros i Hi; by apply Hno|].
  destruct (arevive_inv _ _ _ _ _ _ _ _ _ _ _ _ (take k value) _ HI Hg Hn Hok Hx Ht Hvv ltac:(rewrite length_take; lia) Hfr Ho Hf) as [HI' Eb].
  { intros i [j Hj]%list_elem_of_lookup. apply lookup_take_Some in Hj as [Hj Hjk]. apply (Hb j i Hjk Hj). lia. }
  destruct (arevive_updated _ _ _ _ _ _ _ _ _ _ _ _ (take k value) _ ev HI Hg Hn Hok Hx Hvv Eb) as [Hup Hkb].
  rewrite (take_ge vv) by lia. wp_step. eapply wp_free; [done|exact Hfr|]. intros c1 Hab1. wp_step.
  eapply wp_upd_snode; [exact Hab1|exact Hx|done|by intros ?|]. intros c2 Hab2. eapply (wp_revive _ a al); [exact Hab2|by apply upd_unlisted|]. intros c3 Hab3.
  eapply HQ; [exact Hab3|exact HI'|exact Hup|]. intros i Hi. apply Hkb. pose proof (occ_nonneg i (take k value)). lia.
Qed.

(** Where the windows start inside the node: what the request hands over, in two parts. *)
Lemma given_parts start (new := py_slice start k value) : start `mod` ps = 0 → start ≤ k →
  take k value = take start value ++ new ∧ owned own new ∧ owned (own_less new own) (take start value) ∧ sa_fits (take start value) ∧ sa_fits new.
Proof using Hn Hk Ho Hf.
  intros Hsal Hle. assert (take k value = take start value ++ new) as Esplit.
  { unfold new, py_slice. rewrite <-(take_drop start (take k value)), take_take, skipn_firstn_comm. f_equal. f_equal. lia. }
  pose proof Ho as Ho'. rewrite Esplit in Ho'. destruct (sa_fits_take _ start Hsal Hf) as [Hf1 Hf2]. rewrite Esplit in Hf1, Hf2.
  assert (length (take start value) = start) as Els by (rewrite length_take; lia).
  rewrite take_app_le, take_ge in Hf1 by lia. rewrite drop_app_ge, Els, Nat.sub_diag, drop_0 in Hf2 by lia.
  assert (owned own new ∧ owned (own_less new own) (take start value)) as [Ho2 Ho3]; [|done]. apply owned_app. intros i. specialize (Ho' i). rewrite !occ_app in *. lia.
Qed.
(** The slots of the lower part can be freed. *)
Lemma free_low start vv : s_value x = Some vv → start `mod` ps = 0 → ∃ al, sa_free (drop start vv) (a_alloc a) = Ok al.
Proof using HI Hg Hn Hok Hx.
  intros Hvv Hsal. pose proof upd_inner as Hin. destruct (node_slots _ _ _ _ _ _ (ai_slots _ _ _ _ _ HI) Hin) as [Hnd Hno].
  assert (hval (tv_h (sview lv a)) nd = vv) as Ev by (unfold hval; rewrite (sview_lookup _ _ _ _ Hx); simpl; by rewrite Hvv). rewrite Ev in *.
  pose proof (sl_fits _ _ _ _ _ (ai_slots _ _ _ _ _ HI) nd Hin) as Hfv. rewrite Ev in Hfv.
  destruct (sa_free_ok (a_alloc a) (drop start vv)) as (al & Hfr & _);
    [apply (ai_slots _ _ _ _ _ HI)|by eapply sublist_NoDup; [|apply sublist_drop]|by apply sa_fits_take| |by exists al].
  intros i Hi. apply Hno. by eapply elem_of_submseteq, sublist_submseteq, sublist_drop.
Qed.

(** Branch 2: the windows start inside the node, which is split there. *)
Lemma wp_update_split (Q : unit → SWACache A → Prop) vv :
  let start := ev - total in
  s_value x = Some vv → swa_tombstone x = true → total < ev → ev < total + k → ev `mod` ps = 0 →
  (∀ c' lv' a' G', abs c' a' → AInv lv' a' G' H (own_less (take k value) own) → updated a G a' G' nd g gp ev → keeps_backing own (take k value) a a' → Q tt c') →
  wp (_ ← free (py_slice start k vv); _ ← swa_split_node (s_key x) nd start; _ ← upd_snode nd (set_s_value (py_slice start k value));
      _ ← free (take start value); revive nd (py_slice start k value)) Q c.
Proof using Hab HI Hg Hn Hok Hx Hk Ho Hf Hb.
  intros start Hvv Ht Hlo Hhi Hev HQ. destruct upd_value as (vv' & Hvv' & Hlen). assert (vv' = vv) as -> by congruence. pose proof upd_inner as Hin.
  pose proof (ai_ps _ _ _ _ _ HI) as Eps. destruct (tree_path_shape _ _ _ _ (inv_tree _ _ _ (ai_tree _ _ _ _ _ HI)) (no_gpar Hok)) as [Htal _]. simpl in Htal. rewrite <-Eps in Htal.
  assert (start `mod` ps = 0) as Hsal by (unfold start; by auto with py).
  assert (py_slice start k vv = drop start vv) as Evv by (unfold py_slice; apply take_ge; rewrite length_drop; lia). rewrite Evv.
  destruct (given_parts start Hsal ltac:(lia)) as (Esplit & Ho2 & Ho3 & Hf1 & Hf2). set (new := py_slice start k value) in *. destruct (free_low start vv Hvv Hsal) as [al Hfr].
  wp_step. eapply wp_free; [done|exact Hfr|]. intros c1 Hab1. wp_step.
  eapply wp_swa_split_alloc; [exact Hab1|exact HI|done|done|lia|lia|done|].
  intros c2 g' p' gp' px' ck rest_ck pre post vv' Hg' Hok' Hsa Hsp a1 Hab2 HI1.
  assert (g' = g) as -> by congruence. assert (p' = p) as -> by (pose proof (no_par Hok); pose proof (no_par Hok'); congruence).
  assert (gp' = gp) as -> by (pose proof (no_gpar Hok); pose proof (no_gpar Hok'); congruence).
  assert (vv' = vv) as -> by (pose proof (sa_value _ _ _ _ _ _ _ _ _ _ _ _ _ _ Hsa); congruence).
  pose proof (asplit_grows _ _ _ _ _ _ _ _ _ _ _ _ _ _ _ _ _ HI Hsa Hsp) as Hgr1. fold a1 in Hgr1. set (G1 := <[a_counter a := _]> G) in *.
  destruct (RadixSplit.split_facts _ _ _ _ _ _ _ _ _ _ _ _ _ _ Hsp) as (Hnm & Hpm & Hnp & Hrm & _). simpl in Hnm, Hpm, Hrm.
  set (x1 := split_low start (a_counter a) x post vv). assert (a_nodes a1 !! nd = Some x1) as Hx1 by (unfold a1; simpl; by rewrite lookup_insert_ne, lookup_insert_eq).
  assert (G1 !! nd = Some g) as Hg1 by (unfold G1; by rewrite lookup_insert_ne).
  assert (nd ∈ inner (sview lv a1) G1) as Hin1 by (apply elem_of_inner; split; [eauto|done]).
  destruct (tree_node _ _ _ _ _ _ HI1 Hin1) as (g1 & y1 & p1 & gp1 & px1 & vv1 & Hg1' & Hn1 & Hy1 & _ & Hok1 & Hpar1 & _).
  assert (y1 = x1) as -> by congruence. assert (g1 = g) as -> by congruence. simpl in Hpar1. assert (p1 = a_counter a) as -> by congruence.
  destruct (arevive_inv lv a1 G1 H own nd g x1 _ gp1 (s_core px1) (drop start vv) new al HI1 Hg1 Hn1 Hok1 Hx1 Ht eq_refl) as [HI2 Eb2]; [|exact Hfr|done|done| |].
  { unfold new. rewrite py_slice_length, length_drop. lia. }
  { intros i [j Hj]%list_elem_of_lookup. unfold new, py_slice in Hj. apply lookup_take_Some in Hj as [Hj Hjk]. rewrite lookup_drop in Hj.
    apply (Hb (start + j) i); [lia|done|lia]. }
  destruct (arevive_updated _ _ _ _ own _ _ x1 _ gp1 _ _ new al ev HI1 Hg1 Hn1 Hok1 Hx1 eq_refl Eb2) as [[Hgr2 Hnew2 Htomb2 Hcut2 Hlow2] Hkb2].
  destruct (free_own_AInv _ _ _ _ _ _ HI2 Ho3 Hf1) as (al2 & Hfr2 & HI3 & Eb3).
  wp_step. eapply wp_upd_snode; [exact Hab2|exact Hx1|by intros ?|by intros ?|]. intros c3 Hab3.
  wp_step. eapply wp_free; [exact Hab3|exact Hfr2|]. intros c4 Hab4. eapply (wp_revive _ a1 al2 nd x1 new); [exact Hab4| |].
  { intros Hs%(ai_sl _ _ _ _ _ HI1). destruct (sx_lookup _ _ _ Hx1) as (_ & E & _). simpl in E. destruct Hs. congruence. }
  intros c5 Hab5. eapply (HQ c5 lv (aset_alloc al2 (arevive nd x1 new al a1))); [exact Hab5| | |].
  - eapply AInv_own_ext; [|exact HI3]. intros i. rewrite Esplit. unfold own_less. rewrite occ_app. lia.
  - split.
    + eapply grows_trans; [exact Hgr1|]. destruct Hgr2. by split.
    + intros q gq Hq. destruct (Hnew2 q gq Hq) as [Hd|[Hlt E]]; [|right].
      * unfold G1 in Hd. rewrite dom_insert_L in Hd. apply elem_of_union in Hd as [->%elem_of_singleton|]; [right|by left].
        rewrite lookup_fmap in Hq. apply fmap_Some in Hq as (gq0 & Hq0 & ->). unfold G1 in Hq0. rewrite lookup_insert_eq in Hq0. injection Hq0 as <-.
        rewrite revalue_path. simpl. rewrite length_app, length_take, titer_length. lia.
      * assert (gp1 = split_gnode gp (s_core x) start vv) as -> by (pose proof (no_gpar Hok1) as E1; unfold G1 in E1; rewrite lookup_insert_eq in E1; congruence).
        simpl in Hlt. rewrite length_app in Hlt. split; [lia|done].
    + intros Hlt. by apply Htomb2.
    + eapply cuts_trans; [|exact Hcut2]. apply refines_cuts. eapply split_refines; [exact Hok|done|by apply (fresh_node _ _ _ _ _ HI)|done].
    + eapply keeps_low_trans; [|apply keeps_low_sub, insert_subseteq; by apply (fresh_node _ _ _ _ _ HI)|exact Hlow2].
      pose proof (no_gpar Hok1) as E1. unfold G1 in E1. rewrite lookup_insert_eq in E1. injection E1 as <-. simpl. rewrite length_app. lia.
  - intros i Hi. simpl. rewrite Eb3. simpl. rewrite elem_of_difference, elem_of_list_to_set. rewrite Hkb2 by (pose proof (occ_nonneg i (take k value)); lia).
    pose proof (minus_backing _ _ _ _ _ _ _ (ai_slots _ _ _ _ _ HI) Ho Hi) as Hni. rewrite Esplit in Hni. rewrite elem_of_app in Hni. tauto.
Qed.

Lemma wp_update_node (Q : unit → SWACache A → Prop) :
  ev `mod` ps = 0 →
  (∀ c' lv' a' G', abs c' a' → AInv lv' a' G' H (own_less (take k value) own) → updated a G a' G' nd g gp ev → keeps_backing own (take k value) a a' → Q tt c') →
  wp (update_node nd value k total ev) Q c.
Proof using Hab HI Hg Hn Hok Hx Hk Ho Hf Hb.
  intros Hev HQ. destruct upd_value as (vv & Hvv & Hlen). pose proof upd_inner as Hin. destruct (sx_lookup _ _ _ Hx) as (_ & Ext & _).
  unfold update_node. wp_steps. eapply wp_get_snode; [done|exact Hx|]. intros y Ey.
  destruct (plain_fields _ _ Ey) as (_ & _ & Ekey & Eval & Et & _ & Es & _). unfold value_of. rewrite Ekey, Eval, Et, Es, Hvv.
  destruct (swa_tombstone x) eqn:Ht; [|eapply (wp_update_free _ _ _ _ _ _ nd g gp ev); [done|exact HI|done|done|done|done]].
  rewrite (window_live _ _ _ _ _ _ _ HI Hin Hx Ht), (bool_decide_true (0%Z = _)) by done. wp_steps.
  rewrite (ab_cfg _ _ Hab), <-(ai_ps _ _ _ _ _ HI), bool_decide_true by done. wp_steps.
  case_bool_decide as H1; [by apply wp_update_whole|]. case_bool_decide as H2.
  - cbv zeta. apply wp_update_split; try done. lia.
  - eapply (wp_update_free _ _ _ _ _ _ nd g gp ev); [done|exact HI|done|done| |done]. intros Hlt. rewrite (node_ok_len _ _ _ _ _ _ _ _ Hok) in Hlt. simpl in Hlt. lia.
Qed.
End update.
End revive.
