(* ===== verification/SwaInsert.v ===== *)
(** [insert] of the sliding-window tree: every slot the request hands over is freed or held
    by the tree, and the key is cached with the windows the request had. *)
From S2P Require Import Prelude RadixKey TreeNode EvictPolicy RadixCache RadixInv RadixSplit RadixLeaf RadixLock RadixSpec RadixOps RadixMatch RadixLockOps SwaLru SwaCache SwaAbs SwaInv SwaOps SwaNodes SwaEvict SwaLocks SwaMatch SwaRevive.
From stdpp Require Import options.

Section insert.
Context {A : Type} {alloc : SWAAllocator A} {ps : nat} {laws : SWAAllocatorLaws A ps}.
Implicit Types (c : SWACache A) (a : ACache A) (G : gmap nat gnode) (H : list hold) (own : Z → Z) (x y : SNode) (n m p q : nat) (lv : gset nat).

Lemma wp_touch_node c lv a G H own n (Q : unit → SWACache A → Prop) :
  abs c a → AInv lv a G H own → n ∈ inner (sview lv a) G →
  (∀ c' fl sl, let a' := aset_sl sl (aset_fl fl a) in abs c' a' → AInv lv a' G H own → Q tt c') → wp (touch_node n) Q c.
Proof.
  intros Hab HI Hn HQ. destruct (tree_node _ _ _ _ _ _ HI Hn) as (g & x & p & gp & px & vv & _ & _ & Hx & _).
  assert (n ∈ a_fl a) as Hnf by (by apply (ai_fl _ _ _ _ _ HI)). destruct (list_has_split _ _ Hnf) as (l1 & l2 & El).
  assert (∀ q, q ∈ n :: l1 ++ l2 ↔ q ∈ a_fl a) as Hfl by (intros q; rewrite El, elem_of_cons, !elem_of_app, elem_of_cons; tauto).
  unfold touch_node. wp_step. eapply wp_get_snode; [done|exact Hx|]. intros y Ey. destruct (plain_fields _ _ Ey) as (_ & _ & _ & _ & -> & _).
  wp_step. eapply (wp_lru_reset _ _ false l1 n l2); [done|exact El|exact Hx|done|]. intros c1 Hab1. unfold aset_list, a_list in Hab1.
  destruct (swa_tombstone x) eqn:Et; simpl.
  - wp_step. apply (HQ c1 (n :: l1 ++ l2) (a_sl a)); [exact Hab1|by apply lists_AInv].
  - assert (n ∈ a_sl a) as Hns by (apply (ai_sl _ _ _ _ _ HI); split; [done|]; by destruct (sx_lookup _ _ _ Hx) as (_ & -> & _)).
    destruct (list_has_split _ _ Hns) as (k1 & k2 & Ek). eapply (wp_lru_reset _ _ true k1 n k2); [exact Hab1|exact Ek|exact Hx|by rewrite Et|]. intros c2 Hab2.
    apply (HQ c2 (n :: l1 ++ l2) (n :: k1 ++ k2)); [exact Hab2|apply lists_AInv; [done|done|]].
    intros q. rewrite Ek, elem_of_cons, !elem_of_app, elem_of_cons. tauto.
Qed.

(** One edge of the walk: the child is touched, and split where the key leaves it. *)
Record edge_done a G a1 G1 lv H own node (g : gnode) x key k nd (g1 : gnode) x1 px1 : Prop := {
  ed_same : k < key_len (s_key x) ∨ G1 = G;
  ed_inv : AInv lv a1 G1 H own;
  ed_grows : grows a G a1 G1;
  ed_above : same_above a G a1 G1 g;
  ed_cut : cuts G G1;
  ed_new : ∀ q gq, G1 !! q = Some gq → q ∈ dom G ∨ length (g_path gq) = length (g_path g) + k;
  ed_node : G1 !! nd = Some g1;
  ed_inner : nd ≠ a_root a1;
  ed_ok : node_ok (sview lv a1) G1 nd g1 (s_core x1) node g px1;
  ed_x : a_nodes a1 !! nd = Some x1;
  ed_len : key_len (s_key x1) = k;
  ed_path : g_path g1 = g_path g ++ take k (titer key);
  ed_alloc : a_alloc a1 = a_alloc a;
  ed_sub : G ⊆ G1;
}.
Lemma wp_insert_edge c lv a G H own node g child gc x px key k (Q : nat → SWACache A → Prop) :
  abs c a → AInv lv a G H own → G !! node = Some g → a_nodes a !! child = Some x → G !! child = Some gc → child ≠ a_root a →
  node_ok (sview lv a) G child gc (s_core x) node g px → edge_match (sw_page_size (a_cfg a)) (s_core x) key k →
  (∀ c' a1 G1 nd g1 x1 px1, abs c' a1 → edge_done a G a1 G1 lv H own node g x key k nd g1 x1 px1 → Q nd c') →
  wp (if decide (k < key_len (s_key x)) then swa_split_node (s_key x) child k else mret child) Q c.
Proof.
  intros Hab HI Hg Hx Hgc Hr Hok Hem HQ. destruct (decide (k < key_len (s_key x))) as [Hk|Hk].
  - eapply wp_walk_split; [done|exact HI|exact Hg|exact Hx|exact Hgc|done|exact Hok|exact Hem|done|].
    intros c' a' G' new gn y vv Hab' HI' Href Htf Habove EG' Hfresh Hvv Hy Hyv Hyt Hyf Hys Egn Hnr Hokn Htombs _.
    assert (G' !! new = Some gn) as Hgn by (rewrite EG'; apply lookup_insert_eq).
    assert (length (g_path gn) = length (g_path g) + k) as Elen.
    { rewrite Egn. simpl. rewrite length_app, length_take, titer_length. pose proof (em_key _ _ _ _ Hem). lia. }
    apply (HQ c' a' G' new gn y (s_core (default new_SNode (a_nodes a' !! node)))); [exact Hab'|]. split; try done.
    + by left.
    + split; try apply Htf.
      * intros q gq Hq. exists gq. split; [|done]. exact (lookup_weaken _ _ _ _ Hq (rf_sub _ _ Href)).
      * intros q Hq Ht. by rewrite Htombs.
    + by apply refines_cuts.
    + intros q gq Hq. rewrite EG' in Hq. rewrite lookup_insert in Hq. case_decide; [subst q; injection Hq as <-; by right|left; by eapply elem_of_dom_2].
    + by rewrite (tf_root _ _ Htf).
    + pose proof (node_ok_len _ _ _ _ _ _ _ _ Hokn) as E. simpl in E. lia.
    + by rewrite Egn.
    + apply (tf_alloc _ _ Htf).
    + apply (rf_sub _ _ Href).
  - wp_step. destruct (descend_full _ _ _ _ _ _ _ _ _ _ Hok Hem) as [Hkeq Happ]; [simpl; lia|]. simpl in Hkeq.
    apply (HQ c a G child gc x px); [exact Hab|]. split; try done; [by right|apply grows_refl|apply cuts_refl|intros q gq Hq; left; by eapply elem_of_dom_2|].
    pose proof (em_same _ _ _ _ Hem) as Hs. simpl in Hs. rewrite (no_path Hok). simpl. rewrite <-Hs, take_ge; [done|]. rewrite titer_length. lia.
Qed.

(** A node of the tree on the way of the key is met by the walk. *)
Lemma step_boundary v G node g child gc (cx px : core) key k n0 g0 prev :
  tree_ok v G → G !! node = Some g → G !! child = Some gc → node_ok v G child gc cx node g px → edge_match (tv_ps v) cx key k →
  G !! n0 = Some g0 → g_path g0 = take prev (g_path g ++ titer key) → prev ≤ length (g_path g ++ titer key) → length (g_path g) < prev →
  k = key_len (c_key cx) ∧ length (g_path g) + k ≤ prev.
Proof.
  intros Ht Hg Hgc Hok Hem Hn0 Ep0 Hle Hlt. set (us := g_path g ++ titer key) in *.
  assert (length (g_path g0) = prev) as El0 by (rewrite Ep0, length_take; lia).
  assert (g_path g `prefix_of` g_path g0) as Hpre by (eapply (prefix_le _ _ us); [by eexists|rewrite Ep0; apply prefix_take|lia]).
  pose proof (to_ps Ht) as Hps. destruct (way_down v G Ht n0 g0 Hn0 node g Hg Hpre) as [->|(ch & gch & xch & g' & px' & Hch & Hokc & Hpc)]; [congruence || (exfalso; assert (g0 = g) as -> by congruence; lia)|].
  assert (g' = g) as -> by (pose proof (no_gpar Hokc); congruence).
  assert (gch = gc ∧ ch = child) as [-> ->].
  { assert (ch = child) as ->; [|split; congruence]. eapply (edge_uniq v G Ht); [exact Hokc|exact Hok|].
    pose proof (node_ok_page v G Ht _ _ _ _ _ _ Hokc) as Hpg. pose proof (node_ok_page v G Ht _ _ _ _ _ _ Hok) as Hpg'.
    assert (tv_ps v ≤ k) as Hkp by (apply (aligned_lt 0); [apply aligned_0|apply Hem|apply Hem]).
    transitivity (take (length (g_path g) + tv_ps v) us).
    - assert (g_path gch `prefix_of` us) as Hpu by (etrans; [exact Hpc|rewrite Ep0; apply prefix_take]). rewrite (prefix_take_id _ _ Hpu), take_take. f_equal. lia.
    - unfold us. rewrite (no_path Hok), !take_app_add. f_equal. pose proof (em_same _ _ _ _ Hem) as Hs.
      apply (f_equal (take (tv_ps v))) in Hs. rewrite !take_take, Nat.min_l in Hs by lia. done. }
  assert (g_path gc `prefix_of` us) as [rest Hrest] by (etrans; [exact Hpc|rewrite Ep0; apply prefix_take]).
  rewrite (no_path Hok), <-app_assoc in Hrest. apply app_inv_head in Hrest.
  assert (length (g_path g) + key_len (c_key cx) ≤ prev) as Hfin.
  { apply prefix_length in Hpc. rewrite (node_ok_len _ _ _ _ _ _ _ _ Hok) in Hpc. lia. }
  assert (k = key_len (c_key cx)) as ->; [|done]. pose proof (em_edge _ _ _ _ Hem) as He. destruct (decide (k = key_len (c_key cx))) as [|Hne]; [done|exfalso].
  assert (k + tv_ps v ≤ key_len (c_key cx)) as Hkk by (apply aligned_lt; [apply Hem|apply (no_aligned Hok)|lia]).
  assert (key_len (c_key cx) ≤ key_len key) as Hkl by (apply (f_equal length) in Hrest; rewrite length_app, !titer_length in Hrest; lia).
  apply (em_diff _ _ _ _ Hem); [done|lia|]. rewrite Hrest, take_app_le; [done|]. rewrite titer_length. lia.
Qed.

(** Longest matches, when nodes are cut and slots replaced. *)
Lemma longest_transfer lv a lv' a' G G' H own own' us vs n g :
  AInv lv a G H own → AInv lv' a' G' H own' → a_cfg a' = a_cfg a → cuts G G' → (∀ q gq, G !! q = Some gq → ∃ gq', G' !! q = Some gq' ∧ g_path gq' = g_path gq) →
  longest_match ps G' us (g_vals g) → G' !! n = Some g → g_path g = take (length (g_path g)) us → vs = length (g_path g) →
  ∃ vs0, longest_match ps G us vs0 ∧ length vs0 = vs.
Proof.
  intros HI HI' Ecfg Hcut Hpaths [Hle Hc Hmax] Hn Hp ->. destruct (tree_path_shape _ _ _ _ (inv_tree _ _ _ (ai_tree _ _ _ _ _ HI')) Hn) as [Hal Hlen]. simpl in Hal.
  rewrite <-(ai_ps _ _ _ _ _ HI') in Hal. destruct (Hcut n g Hn) as (q0 & g0 & Hq0 & Hpre). pose proof (prefix_length _ _ Hpre) as Hl0.
  destruct (tree_path_shape _ _ _ _ (inv_tree _ _ _ (ai_tree _ _ _ _ _ HI)) Hq0) as [_ Hlen0].
  exists (take (length (g_path g)) (g_vals g0)). assert (length (take (length (g_path g)) (g_vals g0)) = length (g_path g)) as El by (rewrite length_take; lia).
  split; [|done]. split; rewrite ?El.
  - lia.
  - destruct (decide (length (g_path g) = 0)) as [E|E]; [left; by rewrite E|right]. exists q0, g0, (length (g_path g)). rewrite <-Hp.
    split_and!; [done|lia|lia|done|exact (prefix_take_id _ _ Hpre)|done].
  - intros j vs' Hj (q & gq & k & Hq & Hk & Hka & Eus & _). destruct (Hpaths q gq Hq) as (gq' & Hq' & Epq). apply (Hmax j (take k (g_vals gq'))); [lia|].
    exists q, gq', k. rewrite Epq. done.
Qed.

(** ** A new leaf *)
Lemma add_pre_intro lv a G H own node g nx key ck vv t :
  AInv lv a G H own → G !! node = Some g → a_nodes a !! node = Some nx → skey a key → 0 < key_len key →
  child_key key (sw_page_size (a_cfg a)) = Ok ck → s_children nx !! ck = None → length vv = key_len key →
  owned own vv → sa_fits vv → (∀ i, i ∈ vv → (i ∈ sa_backed (a_alloc a) ↔ t = false)) → add_pre node nx key ck vv t a G own g.
Proof.
  intros HI Hg Hnx [Hal Hmode] Hpos Hck Hnone Hlen Ho Hf Hb. split; try done; [|by apply own_nonneg]. intros lv'. split; try done. by apply sview_lookup.
Qed.
Lemma aleaf_facts lv a G H own node g nx key ck vv t :
  AInv lv a G H own → add_pre node nx key ck vv t a G own g →
  let a' := aleaf node nx key ck vv t a in
  grows a G a' (<[a_counter a := leaf_gnode g key vv]> G) ∧ xt (sx a') (a_counter a) = t ∧ (∀ q, q ∈ dom G → xt (sx a') q = xt (sx a) q)
  ∧ a_nodes a' !! a_counter a = Some (leaf_snode node key vv t) ∧ G !! a_counter a = None.
Proof.
  intros HI Hap a'. pose proof (ap_leaf _ _ _ _ _ _ _ _ _ _ Hap lv) as Hlp. pose proof (ap_px _ _ _ _ _ _ _ _ _ _ Hap) as Hpx.
  destruct (fresh_node _ _ _ _ _ HI) as [Hfr HfrG]. destruct (leaf_facts _ _ _ _ _ _ _ _ (inv_tree _ _ _ (ai_tree _ _ _ _ _ HI)) Hlp) as (Hpm & _). simpl in Hpm.
  assert (sx a' = <[a_counter a := MkX t 0 None]> (sx a)) as Ex.
  { unfold sx. simpl. rewrite !fmap_insert. rewrite (insert_id _ node); [done|]. rewrite lookup_insert_ne by done. by rewrite lookup_fmap, Hpx. }
  assert (∀ q, q ∈ dom G → xt (sx a') q = xt (sx a) q) as Hold.
  { intros q [gq Hq]%elem_of_dom. rewrite Ex. unfold xt. rewrite lookup_insert_ne; [done|]. intros <-. congruence. }
  split_and!; [split; try done| |done| |done].
  - intros q gq Hq. exists gq. split; [|done]. rewrite lookup_insert_ne; [done|]. intros <-. congruence.
  - intros q Hq Ht. by rewrite Hold.
  - rewrite Ex. unfold xt. by rewrite lookup_insert_eq.
  - simpl. by rewrite lookup_insert_ne, lookup_insert_eq.
Qed.
(** The child key of a key only depends on its first page. *)
Lemma prefix_ckey lv a G H own key k pre ck :
  AInv lv a G H own → skey a key → 0 < k → k ≤ key_len key → k `mod` sw_page_size (a_cfg a) = 0 → key_prefix key k = Ok pre →
  child_key key (sw_page_size (a_cfg a)) = Ok ck →
  skey a pre ∧ key_len pre = k ∧ titer pre = take k (titer key) ∧ child_key pre (sw_page_size (a_cfg a)) = Ok ck.
Proof.
  intros HI [Hal Hmode] Hk0 Hk Hka Hpre Hck. destruct (key_prefix_titer key k) as (pre' & Hp & Hit & Hm & _). assert (pre' = pre) as -> by congruence.
  assert (key_len pre = k) as Hl by (rewrite <-titer_length, Hit, length_take, titer_length; lia).
  pose proof (to_ps (inv_tree _ _ _ (ai_tree _ _ _ _ _ HI))) as Hps. simpl in Hps.
  assert (sw_page_size (a_cfg a) ≤ k) as Hpk by (apply (aligned_lt 0); [apply aligned_0|done..]).
  split_and!; [split; [by rewrite Hl|congruence]|done|done|]. destruct (child_key_ok pre (sw_page_size (a_cfg a))) as [ck' Hck']; [done|lia|]. rewrite Hck'. f_equal.
  apply (child_key_titer pre key (sw_page_size (a_cfg a))); try done; [lia|lia|]. rewrite Hit, take_take. f_equal. lia.
Qed.

(** The last node of a key: it may be split so that a lock protects one window only. *)
Record leaf_stored a G H own (g : gnode) (us : list tunit) lv' a' G' : Prop := {
  ls_inv : AInv lv' a' G' H own;
  ls_grows : grows a G a' G';
  ls_end : ∃ n gn, G' !! n = Some gn ∧ g_path gn = us;
  ls_new : ∀ q gq, G' !! q = Some gq → q ∈ dom G ∨ length (g_path g) < length (g_path gq) ∧ xt (sx a') q = false;
  ls_sub : G ⊆ G';
}.
Lemma wp_maybe_split_leaf c lv a G H own leaf x g p gp px (Q : unit → SWACache A → Prop) :
  abs c a → AInv lv a G H own → G !! leaf = Some g → leaf ≠ a_root a → a_nodes a !! leaf = Some x → swa_tombstone x = false →
  node_ok (sview lv a) G leaf g (s_core x) p gp px →
  (∀ c' lv' a' G', abs c' a' → leaf_stored a G H own gp (g_path g) lv' a' G' → Q tt c') → wp (maybe_split_leaf leaf) Q c.
Proof.
  intros Hab HI Hg Hr Hx Ht Hok HQ. destruct (no_vals Hok) as (vv & Hvv & Hlen & _). simpl in Hvv, Hlen.
  assert (leaf_stored a G H own gp (g_path g) lv a G) as Hid.
  { split; [done|apply grows_refl|eauto| |done]. intros q gq Hq. left. by eapply elem_of_dom_2. }
  assert (leaf ∈ inner (sview lv a) G) as Hin by (apply elem_of_inner; eauto). pose proof (to_ps (inv_tree _ _ _ (ai_tree _ _ _ _ _ HI))) as Hps. simpl in Hps.
  unfold maybe_split_leaf. wp_steps. eapply wp_get_snode; [done|exact Hx|]. intros y Ey. destruct (plain_fields _ _ Ey) as (_ & _ & Ekey & Eval & Et & _ & Es & _).
  unfold value_of. rewrite Ekey, Eval, Et, Es, Hvv, Ht. wp_steps. rewrite (ab_cfg _ _ Hab). cbv zeta.
  destruct (_ || _); [wp_step; by eapply HQ|]. case_bool_decide as H1; [wp_step; by eapply HQ|]. destruct (_ || _) eqn:H2; [wp_step; by eapply HQ|].
  destruct (bool_decide (1 < _) && _) eqn:H3; [wp_step; by eapply HQ|]. set (sp := length vv - _) in *.
  apply orb_false_iff in H2 as [H2%bool_decide_eq_false H2'%bool_decide_eq_false].
  assert (sp `mod` ps = 0) as Hal.
  { rewrite (ai_ps _ _ _ _ _ HI). destruct (decide (sw_page_size (a_cfg a) = 1)) as [->|Hne]; [apply Nat.mod_1_r|].
    rewrite bool_decide_true in H3 by lia. simpl in H3. apply orb_false_iff in H3 as [H3%bool_decide_eq_false _]. by apply dec_stable in H3. }
  wp_step. eapply wp_swa_split; [done|exact HI|done|done|lia|lia|done|]. intros c' g' p' gp' px' ck rest_ck pre post vv' Hg' Hok' Hsa Hsp a' Hab' HI'. wp_steps.
  assert (p' = p) as -> by (pose proof (no_par Hok); pose proof (no_par Hok'); congruence).
  assert (gp' = gp) as -> by (pose proof (no_gpar Hok); pose proof (no_gpar Hok'); congruence).
  destruct (RadixSplit.split_facts _ _ _ _ _ _ _ _ _ _ _ _ _ _ Hsp) as (Hnm & _). simpl in Hnm. destruct (asplit_views lv _ _ _ _ _ _ _ _ _ _ _ _ _ _ Hsa Hsp) as [_ Ex]. fold a' in Ex.
  eapply HQ; [exact Hab'|]. split; [exact HI'|by eapply asplit_grows|exists leaf, g; split; [rewrite lookup_insert_ne; done|done]| |apply insert_subseteq; by apply (fresh_node _ _ _ _ _ HI)].
  intros q gq. rewrite lookup_insert. destruct (decide (a_counter a = q)) as [E|E]; [|intros Hq; left; by eapply elem_of_dom_2]. intros [= <-]. right. subst q. split.
  - simpl. rewrite length_app, length_take, titer_length. lia.
  - rewrite Ex. unfold xt. rewrite lookup_insert_ne, lookup_insert_eq by done. done.
Qed.
Lemma wp_store_leaf c lv a G H own node g nx key ck vv (us : list tunit) (Q : unit → SWACache A → Prop) :
  abs c a → AInv lv a G H own → add_pre node nx key ck vv false a G own g → g_path g ++ titer key = us →
  (∀ c' lv' a' G', abs c' a' → leaf_stored a G H (own_less vv own) g us lv' a' G' → Q tt c') →
  wp (add_new_node node key vv false) (λ leaf c1, wp (if split_leaf (a_cfg a) then maybe_split_leaf leaf else mret tt) Q c1) c.
Proof.
  intros Hab HI Hap Hus HQ. destruct (aleaf_facts _ _ _ _ _ _ _ _ _ _ _ _ HI Hap) as (Hgr & Htm & Hold & Hm & HfrG). pose proof (ap_leaf _ _ _ _ _ _ _ _ _ _ Hap lv) as Hlp.
  eapply wp_add_new_node; [done|exact HI|exact Hap|]. intros c1 Hab1 HI1. set (lv1 := {[a_counter a]} ∪ _) in *. set (a1 := aleaf _ _ _ _ _ _ a) in *.
  set (G1 := <[a_counter a := leaf_gnode g key vv]> G) in *. assert (G1 !! a_counter a = Some (leaf_gnode g key vv)) as Hg1 by apply lookup_insert_eq.
  assert (∀ q gq, G1 !! q = Some gq → q ∈ dom G ∨ length (g_path g) < length (g_path gq) ∧ xt (sx a1) q = false) as Hnew.
  { intros q gq. unfold G1. rewrite lookup_insert. destruct (decide (a_counter a = q)) as [E|E]; [|intros Hq; left; by eapply elem_of_dom_2]. intros [= <-]. right. subst q. split; [|done].
    simpl. rewrite length_app, titer_length. pose proof (lp_pos _ _ _ _ _ _ _ _ Hlp). lia. }
  assert (a_counter a ≠ a_root a1) as Hr1.
  { destruct (leaf_facts _ _ _ _ _ _ _ _ (inv_tree _ _ _ (ai_tree _ _ _ _ _ HI)) Hlp) as (_ & Hrm & _). simpl in Hrm. done. }
  destruct (split_leaf (a_cfg a)).
  - assert (a_counter a ∈ inner (sview lv1 a1) G1) as Hin1 by (apply elem_of_inner; eauto).
    destruct (tree_node _ _ _ _ _ _ HI1 Hin1) as (g1 & x1 & p1 & gp1 & px1 & vv1 & Hg1' & _ & Hx1 & _ & Hok1 & Hpar1 & _).
    assert (g1 = leaf_gnode g key vv) as -> by congruence. assert (x1 = leaf_snode node key vv false) as -> by congruence. simpl in Hpar1. assert (p1 = node) as -> by congruence.
    assert (gp1 = g) as ->.
    { pose proof (no_gpar Hok1) as E. unfold G1 in E. rewrite lookup_insert_ne in E by (intros <-; pose proof (lp_live _ _ _ _ _ _ _ _ Hlp); congruence). pose proof (lp_live _ _ _ _ _ _ _ _ Hlp). congruence. }
    eapply wp_maybe_split_leaf; [exact Hab1|exact HI1|exact Hg1|done|exact Hx1|done|exact Hok1|].
    intros c' lv' a' G' Hab' [HI' Hgr' Hend' Hnew' Hsub']. eapply HQ; [exact Hab'|]. split; [exact HI'|by eapply grows_trans| | |etrans; [|exact Hsub']; by apply insert_subseteq].
    + simpl in Hend'. by rewrite Hus in Hend'.
    + intros q gq Hq. destruct (Hnew' q gq Hq) as [Hd|]; [|by right]. apply elem_of_dom in Hd as [gq1 Hq1]. destruct (Hnew q gq1 Hq1) as [|[Hl Hx]]; [by left|right].
      destruct (gw_paths _ _ _ _ Hgr' q gq1 Hq1) as (gq' & Hq' & E). assert (gq' = gq) as -> by congruence. rewrite E. split; [done|].
      apply (gw_live _ _ _ _ Hgr'); [by eapply elem_of_dom_2|done].
  - wp_step. eapply HQ; [exact Hab1|]. split; [exact HI1|done|eauto|done|by apply insert_subseteq].
Qed.

(** ** The walk *)
Section walk.
Context (H : list hold) (a0 : ACache A) (G0 : gmap nat gnode) (own0 : Z → Z) (us : list tunit) (VAL : list Z) (prev ev n0 : nat) (g0 : gnode).

(** What the request hands over: the slots from [prev] on, whose windows start at [ev].  Its prefix ends at a node. *)
Record handed_over : Prop := {
  hd_len : length VAL = length us;
  hd_prev : prev ≤ length us;
  hd_node : G0 !! n0 = Some g0;
  hd_path : g_path g0 = take prev us;
  hd_own : owned own0 (drop prev VAL);
  hd_fits : sa_fits (drop prev VAL);
  hd_back : ∀ j i, prev ≤ j → VAL !! j = Some i → (i ∈ sa_backed (a_alloc a0) ↔ ev ≤ j);
  hd_ev : ev `mod` ps = 0;
}.

Definition gone (total : nat) : list Z := drop prev (take total VAL).
Record iwalk lv a G node (g : gnode) (key : RadixKey) (value : list Z) (total : nat) : Prop := {
  iw_inv : AInv lv a G H (own_less (gone total) own0);
  iw_grows : grows a0 G0 a G;
  iw_cut : cuts G0 G;
  iw_new : ∀ q gq, G !! q = Some gq → q ∈ dom G0 ∨ prev < length (g_path gq);
  iw_node : G !! node = Some g;
  iw_us : g_path g ++ titer key = us;
  iw_total : total = length (g_path g);
  iw_value : value = drop total VAL;
  iw_key : skey a key;
  iw_back : ∀ j i, prev ≤ j → total ≤ j → VAL !! j = Some i → (i ∈ sa_backed (a_alloc a) ↔ ev ≤ j);
  iw_fresh : ∀ q gq, G !! q = Some gq → g_path gq `prefix_of` g_path g → prev < length (g_path gq) → ev < length (g_path gq) → xt (sx a) q = false;
  iw_low : keeps_low prev G0 G;
}.

Lemma gone_before total : total ≤ prev → gone total = [].
Proof using. intros Hle. unfold gone. apply drop_ge. rewrite length_take. lia. Qed.
Lemma gone_step total k : prev ≤ total → gone (total + k) = gone total ++ take k (drop total VAL).
Proof using.
  intros Hle. unfold gone. rewrite <-take_take_drop. destruct (decide (prev ≤ length (take total VAL))) as [Hl|Hl].
  - by rewrite drop_app_le.
  - rewrite length_take in Hl. rewrite (drop_ge VAL total) by lia. by rewrite take_nil, !app_nil_r.
Qed.
Lemma drop_gone total : prev ≤ total → drop prev VAL = gone total ++ drop total VAL.
Proof using.
  intros Hle. unfold gone. destruct (decide (prev ≤ length (take total VAL))) as [Hl|Hl].
  - by rewrite <-drop_app_le, take_drop by done.
  - rewrite length_take in Hl. rewrite !(drop_ge VAL) by lia. rewrite drop_ge; [done|]. rewrite length_take. lia.
Qed.
(** The next slots the request gives away. *)
Lemma next_slots (Hh : handed_over) total k : prev ≤ total → total `mod` ps = 0 → prev `mod` ps = 0 → k `mod` ps = 0 →
  owned (own_less (gone total) own0) (drop total VAL) ∧ sa_fits (take k (drop total VAL)) ∧ sa_fits (drop total VAL).
Proof using.
  intros Hle Ht Hp Hk. pose proof (hd_own Hh) as Ho. pose proof (hd_fits Hh) as Hf.
  rewrite (drop_gone total Hle) in Ho. apply owned_app in Ho as [_ Ho].
  assert (drop total VAL = drop (total - prev) (drop prev VAL)) as E2 by (rewrite drop_drop; f_equal; lia).
  assert (sa_fits (drop total VAL)) as Hf' by (rewrite E2; apply sa_fits_take; [by auto with py|done]). split_and!; [done|by apply sa_fits_take|done].
Qed.

Section step.
Context (Hh : handed_over) (lv : gset nat) (a : ACache A) (G : gmap nat gnode) (node : nat) (g : gnode) (key : RadixKey) (value : list Z) (total : nat).
Context (Hw : iwalk lv a G node g key value total).
Context (a1 : ACache A) (G1 : gmap nat gnode) (k nd : nat) (g1 : gnode) (x x1 : SNode) (px1 : core).
Context (Hed : edge_done a G a1 G1 lv H (own_less (gone total) own0) node g x key k nd g1 x1 px1).
Context (key' : RadixKey) (Hk : k ≤ key_len key) (Hkal : k `mod` ps = 0) (Hsuf : key_suffix key k = Ok key').
Context (Hbound : total < prev → k = key_len (s_key x) ∧ total + k ≤ prev).

Local Lemma step_key : skey a1 key' ∧ titer key' = drop k (titer key) ∧ key_len key' = key_len key - k.
Proof using Hw Hed Hkal Hsuf.
  assert (skey a1 key) as Hk1 by (unfold skey; rewrite (gw_cfg _ _ _ _ (ed_grows _ _ _ _ _ _ _ _ _ _ _ _ _ _ _ _ Hed)); apply (iw_key _ _ _ _ _ _ _ _ Hw)).
  eapply skey_suffix; [exact Hk1| |done]. rewrite <-(ai_ps _ _ _ _ _ (ed_inv _ _ _ _ _ _ _ _ _ _ _ _ _ _ _ _ Hed)). done.
Qed.
Local Lemma step_path : g_path g1 ++ titer key' = us ∧ length (g_path g1) = total + k.
Proof using Hw Hed Hkal Hk Hsuf Hbound.
  destruct step_key as (_ & Hit & _). rewrite (ed_path _ _ _ _ _ _ _ _ _ _ _ _ _ _ _ _ Hed), Hit, <-app_assoc, take_drop.
  split; [apply (iw_us _ _ _ _ _ _ _ _ Hw)|]. rewrite length_app, length_take, titer_length, (iw_total _ _ _ _ _ _ _ _ Hw). lia.
Qed.
Local Lemma step_aligned : total `mod` ps = 0 ∧ prev `mod` ps = 0.
Proof using Hh Hw.
  pose proof (iw_inv _ _ _ _ _ _ _ _ Hw) as HI. pose proof (inv_tree _ _ _ (ai_tree _ _ _ _ _ HI)) as Ht. pose proof (ai_ps _ _ _ _ _ HI) as Eps.
  destruct (gw_paths _ _ _ _ (iw_grows _ _ _ _ _ _ _ _ Hw) n0 g0 (hd_node Hh)) as (g0' & Hg0' & Ep).
  destruct (tree_path_shape _ _ _ _ Ht (iw_node _ _ _ _ _ _ _ _ Hw)) as [E _], (tree_path_shape _ _ _ _ Ht Hg0') as [E' _]. simpl in E, E'. rewrite <-Eps in E, E'.
  rewrite (iw_total _ _ _ _ _ _ _ _ Hw). split; [done|]. rewrite Ep, (hd_path Hh), length_take, Nat.min_l in E' by apply (hd_prev Hh). done.
Qed.
(** The nodes above [nd] are [nd] itself and those above [node]. *)
Local Lemma step_above q gq : G1 !! q = Some gq → g_path gq `prefix_of` g_path g1 → q = nd ∨ G !! q = Some gq ∧ g_path gq `prefix_of` g_path g ∧ xt (sx a1) q = xt (sx a) q.
Proof using Hed.
  intros Hq Hp. destruct (decide (q = nd)) as [|Hqn]; [by left|right]. pose proof (ed_inv _ _ _ _ _ _ _ _ _ _ _ _ _ _ _ _ Hed) as HI1.
  pose proof (inv_tree _ _ _ (ai_tree _ _ _ _ _ HI1)) as Ht. pose proof (ed_above _ _ _ _ _ _ _ _ _ _ _ _ _ _ _ _ Hed) as Hab.
  assert (g_path gq `prefix_of` g_path g) as Hpg.
  { destruct (decide (q = a_root a1)) as [->|Hqr].
    - pose proof (to_groot Ht) as Hrt. simpl in Hrt. rewrite Hrt in Hq. injection Hq as <-. apply prefix_nil.
    - pose proof (prefix_on_path (sview lv a1) G1 nd g1 q gq (ed_node _ _ _ _ _ _ _ _ _ _ _ _ _ _ _ _ Hed) Hq Hp Hqr) as E.
      destruct (on_path_step (sview lv a1) G1 nd g1 (s_core x1) node g px1 q Ht (ed_node _ _ _ _ _ _ _ _ _ _ _ _ _ _ _ _ Hed) (ed_inner _ _ _ _ _ _ _ _ _ _ _ _ _ _ _ _ Hed)
        (ed_ok _ _ _ _ _ _ _ _ _ _ _ _ _ _ _ _ Hed)) as [E' _].
      rewrite E', bool_decide_false in E by done. simpl in E. unfold on_path in E.
      rewrite Hq, (no_gpar (ed_ok _ _ _ _ _ _ _ _ _ _ _ _ _ _ _ _ Hed)) in E. by apply andb_prop in E as [?%bool_decide_eq_true _]. }
  pose proof (sm_old _ _ _ _ _ Hab q gq Hq Hpg) as Hq0. split_and!; [done|done|by eapply (sm_tomb _ _ _ _ _ Hab)].
Qed.

(** Below the prefix of the request nothing is updated. *)
Lemma iwalk_skip : total + k ≤ prev → iwalk lv a1 G1 nd g1 key' (drop k value) (total + k).
Proof using Hh Hw Hed Hk Hkal Hsuf Hbound.
  intros Hle. destruct step_key as (Hk1 & Hit & Hlen). destruct step_path as [Hus Hpl]. pose proof Hw as [HI Hgr Hcut Hnew Hg Hgus Htot Hval Hkey Hback Hfresh Hlow].
  pose proof Hed as [Hsame HI1 Hgr1 Hab1 Hcut1 Hnew1 Hnd Hndr Hok1 Hx1 Hlen1 Hpath1 Hal1 Hsub1]. split.
  - rewrite gone_before in * by lia. done.
  - by eapply grows_trans.
  - by eapply cuts_trans.
  - intros q gq Hq. destruct (decide (q ∈ dom G)) as [Hd|Hd].
    + apply elem_of_dom in Hd as [gq0 Hq0]. destruct (gw_paths _ _ _ _ Hgr1 q gq0 Hq0) as (gq' & Hq' & E). assert (gq' = gq) as -> by congruence. rewrite E. eauto.
    + pose proof (no_pos Hok1) as Hpos. simpl in Hpos. destruct Hbound as [E _]; [lia|]. destruct Hsame as [Hs|Hs]; [lia|]; rewrite Hs in Hq. destruct Hd. by eapply elem_of_dom_2.
  - done.
  - done.
  - done.
  - rewrite Hval, drop_drop. done.
  - done.
  - intros j i Hj1 Hj2 Hv. rewrite Hal1. apply Hback; [done|lia|done].
  - intros q gq Hq Hp Hlt. apply prefix_length in Hp. lia.
  - eapply keeps_low_trans; [reflexivity|exact Hlow|by apply keeps_low_sub].
Qed.

(** Beyond it the node has been updated. *)
Lemma iwalk_update lv2 a2 G2 :
  prev < total + k → AInv lv2 a2 G2 H (own_less (take k value) (own_less (gone total) own0)) → updated a1 G1 a2 G2 nd g1 g ev →
  keeps_backing (own_less (gone total) own0) (take k value) a1 a2 →
  ∃ g2, g_path g2 = g_path g1 ∧ iwalk lv2 a2 G2 nd g2 key' (drop k value) (total + k).
Proof using Hh Hw Hed Hk Hkal Hsuf Hbound.
  intros Hlt HI2 [Hgr2 Hnew2 Htomb2 Hcut2 Hlow2] Hkb. destruct step_key as (Hk1 & Hit & Hlen). destruct step_path as [Hus Hpl].
  pose proof Hw as [HI Hgr Hcut Hnew Hg Hgus Htot Hval Hkey Hback Hfresh Hlow]. pose proof Hed as [Hsame HI1 Hgr1 Hab1 Hcut1 Hnew1 Hnd Hndr Hok1 Hx1 Hlen1 Hpath1 Hal1 Hsub1].
  assert (prev ≤ total) as Hpt by (destruct (decide (total < prev)); [destruct Hbound; [done|lia]|lia]).
  destruct (gw_paths _ _ _ _ Hgr2 nd g1 Hnd) as (g2 & Hg2 & Ep2). exists g2. split; [done|]. split.
  - eapply AInv_own_ext; [|exact HI2]. intros i. rewrite gone_step, own_less_app, <-Hval by done. done.
  - eapply grows_trans; [|exact Hgr2]. by eapply grows_trans.
  - eapply cuts_trans; [|exact Hcut2]. by eapply cuts_trans.
  - intros q gq Hq. destruct (Hnew2 q gq Hq) as [Hd|[Hl _]]; [|right; lia]. apply elem_of_dom in Hd as [gq1 Hq1].
    destruct (gw_paths _ _ _ _ Hgr2 q gq1 Hq1) as (gq' & Hq' & E). assert (gq' = gq) as -> by congruence. rewrite E.
    destruct (Hnew1 q gq1 Hq1) as [Hd|Hl]; [|right; lia]. apply elem_of_dom in Hd as [gq0 Hq0].
    destruct (gw_paths _ _ _ _ Hgr1 q gq0 Hq0) as (gq' & Hq'' & E'). assert (gq' = gq1) as -> by congruence. rewrite E'. eauto.
  - done.
  - by rewrite Ep2.
  - by rewrite Ep2.
  - rewrite Hval, drop_drop. done.
  - unfold skey in *. by rewrite (gw_cfg _ _ _ _ Hgr2).
  - intros j i Hj1 Hj2 Hv. rewrite (Hkb i).
    + rewrite Hal1. apply Hback; [done|lia|done].
    + destruct step_aligned as [Hta Hpa]. destruct (next_slots Hh total k Hpt Hta Hpa Hkal) as (Ho & _ & _). specialize (Ho i). rewrite <-Hval in Ho.
      rewrite (occ_take_drop i k value) in Ho. assert (0 < occ i (drop k value))%Z; [|lia]. apply occ_in_pos. rewrite Hval, drop_drop.
      apply list_elem_of_lookup. exists (j - (total + k)). rewrite lookup_drop. rewrite <-Hv. f_equal. lia.
  - intros q gq Hq Hp Hl1 Hl2. rewrite Ep2 in Hp. destruct (Hnew2 q gq Hq) as [Hd|[_ E]]; [|lia]. apply elem_of_dom in Hd as [gq1 Hq1].
    destruct (gw_paths _ _ _ _ Hgr2 q gq1 Hq1) as (gq' & Hq' & E). assert (gq' = gq) as -> by congruence. rewrite E in *.
    destruct (step_above q gq1 Hq1 Hp) as [->|(Hq0 & Hp0 & Et)]; [apply Htomb2; congruence|].
    apply (gw_live _ _ _ _ Hgr2); [by eapply elem_of_dom_2|]. rewrite Et. by eapply Hfresh.
  - eapply keeps_low_trans; [|eapply keeps_low_trans; [reflexivity|exact Hlow|apply (keeps_low_sub prev); exact Hsub1]|exact Hlow2]. lia.
Qed.
End step.

(** Where the loop ends: no child continues along the key. *)
Definition walk_stops a G node (g : gnode) (key : RadixKey) : Prop :=
  longest_match ps G us (g_vals g)
  ∧ (0 < key_len key → ∃ nx ck, a_nodes a !! node = Some nx ∧ child_key key (sw_page_size (a_cfg a)) = Ok ck ∧ s_children nx !! ck = None).

Lemma iwalk_lists lv a G node g key value total fl sl :
  iwalk lv a G node g key value total → AInv lv (aset_sl sl (aset_fl fl a)) G H (own_less (gone total) own0) → iwalk lv (aset_sl sl (aset_fl fl a)) G node g key value total.
Proof using. intros [HI [] ? ? ? ? ? ? ? ? ? ?] HI'. split; try done. Qed.

(** What the loop of [_insert_helper] does from [node] on. *)
Definition insert_spec (fuel : nat) : Prop := ∀ c lv a G node g key ck value total (Q : nat * nat * RadixKey * list Z → SWACache A → Prop),
  abs c a → iwalk lv a G node g key value total → key_len key < fuel →
  (0 < key_len key → child_key key (sw_page_size (a_cfg a)) = Ok ck) →
  (∀ c' lv' a' G' node' g' key' value' total', abs c' a' → iwalk lv' a' G' node' g' key' value' total' → walk_stops a' G' node' g' key' → Q (total', node', key', value') c') →
  wp (swa_insert_loop fuel node key ck value prev ev total) Q c.
(** The end of the body of the loop. *)
Lemma insert_next fuel c lv a G nd g key key' ck k value total cf (Q : nat * nat * RadixKey * list Z → SWACache A → Prop) :
  insert_spec fuel → abs c a → iwalk lv a G nd g key' (drop k value) (total + k) → a_cfg a = cf → key_suffix key k = Ok key' → 0 < k → k ≤ key_len key → key_len key < S fuel →
  (∀ c' lv' a' G' node' g' key' value' total', abs c' a' → iwalk lv' a' G' node' g' key' value' total' → walk_stops a' G' node' g' key' → Q (total', node', key', value') c') →
  wp (key'' ← st_lift (key_suffix key k); ck' ← (if decide (0 < key_len key'') then st_lift (child_key key'' (sw_page_size cf)) else mret ck);
      swa_insert_loop fuel nd key'' ck' (drop k value) prev ev (total + k)) Q c.
Proof using.
  intros IH Hab Hw <- Hs Hk0 Hkk Hfuel HQ. rewrite Hs. wp_steps. pose proof (iw_key _ _ _ _ _ _ _ _ Hw) as Hkey.
  eapply wp_next_ckey; [exact (iw_inv _ _ _ _ _ _ _ _ Hw)|done|]. intros ck' Hck'. eapply (IH _ _ _ _ nd g); [exact Hab|exact Hw| |done|done].
  destruct (key_suffix_titer key k) as (key'' & Hs' & Hit' & _). assert (key'' = key') as -> by congruence. rewrite <-titer_length, Hit', length_drop, titer_length. lia.
Qed.
Lemma wp_swa_insert_loop (Hh : handed_over) fuel : insert_spec fuel.
Proof using.
  induction fuel as [|fuel IH]; intros c lv a G node g key ck value total Q Hab Hw Hfuel Hck HQ; [lia|]. simpl.
  pose proof Hw as [HI Hgr Hcut Hnew Hg Hgus Htot Hval [Hal Hmode] Hback Hfresh Hlow]. pose proof (inv_tree _ _ _ (ai_tree _ _ _ _ _ HI)) as Ht. pose proof (ai_ps _ _ _ _ _ HI) as Eps.
  destruct (sview_node _ _ _ _ _ _ _ HI Hg) as (nx & Hnx & Hvnx).
  wp_step. eapply wp_get_snode; [done|exact Hnx|]. intros ny Eny. destruct (plain_fields _ _ Eny) as (Ekn & _). rewrite Ekn.
  destruct (decide (0 < key_len key)) as [Hpos|Hpos].
  2: { wp_step. eapply HQ; [exact Hab|exact Hw|]. split; [|lia]. rewrite <-Hgus. assert (titer key = []) as -> by (apply nil_length_inv; rewrite titer_length; lia). rewrite app_nil_r.
    rewrite Eps. apply (descent_stops (sview lv a) G Ht node g _ (length (g_path g))); [done|by rewrite take_ge|done|].
    intros c0 gc xc px Hc Hok Heq. apply (f_equal length) in Heq. rewrite !length_take in Heq.
    pose proof (node_ok_page _ _ Ht _ _ _ _ _ _ Hok). pose proof (to_ps Ht). lia. }
  specialize (Hck Hpos). destruct (s_children nx !! ck) as [child|] eqn:Hchild.
  2: { wp_step. eapply HQ; [exact Hab|exact Hw|]. split; [|eauto]. rewrite <-Hgus, Eps. by eapply (descend_none_longest (sview lv a)). }
  destruct (descend_some (sview lv a) G Ht node g (s_core nx) key ck Hg Hvnx Hpos Hal Hmode Hck child) as (gc & xc & k & Hgc & Hroot & Hok & Hmatch & Hem); [done|].
  destruct (sview_lookup_inv _ _ _ _ (no_heap Hok)) as (x & Hx & ->). simpl in Hmatch, Hem, Hroot.
  assert (child ∈ inner (sview lv a) G) as Hcin by (apply elem_of_inner; eauto).
  wp_steps. eapply wp_touch_node; [exact Hab|exact HI|done|]. intros c1 fl sl a1 Hab1 HI1. pose proof (iwalk_lists _ _ _ _ _ _ _ _ fl sl Hw HI1) as Hw1. fold a1 in Hw1.
  wp_step. eapply wp_get_snode; [exact Hab1|exact Hx|]. intros y Ey. destruct (plain_fields _ _ Ey) as (_ & _ & Ekey & _). rewrite Ekey.
  wp_steps. rewrite (ab_cfg _ _ Hab), Hmatch. wp_steps.
  destruct (key_suffix_titer key k) as (key' & Hs & _). assert (k `mod` ps = 0) as Hkal by (rewrite Eps; apply Hem).
  assert (total < prev → k = key_len (s_key x) ∧ total + k ≤ prev) as Hbound.
  { intros Hlt. destruct (gw_paths _ _ _ _ Hgr n0 g0 (hd_node Hh)) as (g0' & Hg0' & Ep0). rewrite Htot in *.
    eapply (step_boundary (sview lv a) G node g child gc (s_core x) _ key k n0 g0' prev); try done.
    - by rewrite Ep0, (hd_path Hh), Hgus.
    - rewrite Hgus. apply (hd_prev Hh). }
  eapply (wp_insert_edge _ lv a1 G); [exact Hab1|exact HI1|exact Hg|exact Hx|exact Hgc|done|exact Hok|exact Hem|].
  intros c2 a2 G2 nd g2 x2 px2 Hab2 Hed.
  assert (k ≤ key_len key) as Hkk by apply Hem. assert (0 < k) as Hk0 by apply Hem.
  assert (∀ lv3 a3 G3 g3, iwalk lv3 a3 G3 nd g3 key' (drop k value) (total + k) → a_cfg a3 = a_cfg a) as Hcfg.
  { intros lv3 a3 G3 g3 Hw3. by rewrite (gw_cfg _ _ _ _ (iw_grows _ _ _ _ _ _ _ _ Hw3)), (gw_cfg _ _ _ _ Hgr). }
  wp_step. case_bool_decide as Hup.
  - (* the node is updated *)
    assert (prev ≤ total) as Hpt by (destruct (decide (total < prev)); [destruct Hbound; [done|lia]|lia]).
    destruct (step_aligned Hh _ _ _ _ _ _ _ _ Hw) as [Hta Hpa]. destruct (next_slots Hh total k Hpt Hta Hpa Hkal) as (Ho & Hf & _). rewrite <-Hval in Ho, Hf.
    pose proof Hed as [_ HI2 Hgr2 _ _ _ Hnd Hndr Hok2 Hx2 Hlen2 Hpath2 Hal2 _].
    assert (k ≤ length value) as Hkv.
    { rewrite Hval, length_drop, (hd_len Hh), <-Hgus, length_app, titer_length. lia. }
    rewrite <-Hlen2 in *. rewrite Htot in *.
    eapply (wp_update_node c2 lv a2 G2 H (own_less (gone (length (g_path g))) own0) nd g2 x2 node g px2 value ev); [exact Hab2|exact HI2|done|done|exact Hok2|done|done| |done| |apply (hd_ev Hh)|].
    + intros i. specialize (Ho i). rewrite (occ_take_drop i (key_len (s_key x2)) value) in Ho. pose proof (occ_nonneg i (drop (key_len (s_key x2)) value)). lia.
    + intros j i Hj Hv. rewrite Hal2. rewrite Hval, lookup_drop in Hv. apply (iw_back _ _ _ _ _ _ _ _ Hw1); [lia|lia|done].
    + intros c3 lv3 a3 G3 Hab3 HI3 Hupd Hkb.
      destruct (iwalk_update Hh _ _ _ _ _ _ _ _ Hw1 _ _ _ _ _ _ _ _ Hed key' Hkk Hkal Hs Hbound _ _ _ Hup HI3 Hupd Hkb) as (g3 & _ & Hw3).
      eapply insert_next; [exact IH|exact Hab3|exact Hw3|by eapply Hcfg|done|done|done|done|done].
  - assert (iwalk lv a2 G2 nd g2 key' (drop k value) (total + k)) as Hw2 by (eapply iwalk_skip; [done|exact Hw1|exact Hed|done|done|done|done|lia]).
    wp_step. eapply insert_next; [exact IH|exact Hab2|exact Hw2|by eapply Hcfg|done|done|done|done|done].
Qed.

(** ** What an insertion establishes *)
Record inserted lv a G : Prop := {
  in_inv : AInv lv a G H (own_less (drop prev VAL) own0);
  in_grows : grows a0 G0 a G;
  in_new : ∀ q gq, G !! q = Some gq → q ∈ dom G0 ∨ prev < length (g_path gq);
  in_fresh : ∀ q gq, G !! q = Some gq → g_path gq `prefix_of` us → prev < length (g_path gq) → ev < length (g_path gq) → xt (sx a) q = false;
  in_low : keeps_low prev G0 G;
}.
Definition caches_key G : Prop := ∃ n g, G !! n = Some g ∧ g_path g = us.

Section rest.
Context (Hh : handed_over) (lv : gset nat) (a : ACache A) (G : gmap nat gnode) (node : nat) (g : gnode) (key : RadixKey) (value : list Z) (total : nat).
Context (Hw : iwalk lv a G node g key value total) (Hst : walk_stops a G node g key).

Local Lemma rest_above q gq : G !! q = Some gq → g_path gq `prefix_of` us → g_path gq `prefix_of` g_path g.
Proof using Hw Hst.
  intros Hq Hp. pose proof (iw_inv _ _ _ _ _ _ _ _ Hw) as HI. pose proof (longest_above _ _ _ _ _ _ _ _ _ HI (proj1 Hst) Hq Hp) as Hle.
  destruct (tree_path_shape _ _ _ _ (inv_tree _ _ _ (ai_tree _ _ _ _ _ HI)) (iw_node _ _ _ _ _ _ _ _ Hw)) as [_ Hl].
  eapply prefix_le; [exact Hp|rewrite <-(iw_us _ _ _ _ _ _ _ _ Hw); by eexists|lia].
Qed.
Local Lemma rest_prev : prev ≤ total.
Proof using Hh Hw Hst.
  destruct (gw_paths _ _ _ _ (iw_grows _ _ _ _ _ _ _ _ Hw) n0 g0 (hd_node Hh)) as (g0' & Hg0' & Ep). pose proof (hd_prev Hh).
  assert (g_path g0' `prefix_of` g_path g) as Hp%prefix_length by (eapply rest_above; [exact Hg0'|rewrite Ep, (hd_path Hh); apply prefix_take]).
  rewrite Ep, (hd_path Hh), length_take in Hp. rewrite (iw_total _ _ _ _ _ _ _ _ Hw). lia.
Qed.
Lemma rest_slots : owned (own_less (gone total) own0) value ∧ sa_fits value ∧ length value = key_len key
  ∧ (∀ j i, value !! j = Some i → (i ∈ sa_backed (a_alloc a) ↔ ev ≤ total + j)) ∧ (∀ i, own_less value (own_less (gone total) own0) i = own_less (drop prev VAL) own0 i)
  ∧ length us = total + key_len key ∧ total `mod` ps = 0.
Proof using Hh Hw Hst.
  pose proof rest_prev as Hpt. destruct (step_aligned Hh _ _ _ _ _ _ _ _ Hw) as [Hta Hpa]. pose proof Hw as [HI Hgr Hcut Hnew Hg Hgus Htot Hval Hkey Hback Hfresh Hlow].
  destruct (next_slots Hh total 0 Hpt Hta Hpa) as (Ho & _ & Hf); [apply Nat.Div0.mod_0_l|]. rewrite <-Hval in Ho, Hf.
  assert (length us = total + key_len key) as El by (rewrite <-Hgus, length_app, titer_length; lia). split_and!; try done.
  - rewrite Hval, length_drop, (hd_len Hh). lia.
  - intros j i Hj. rewrite Hval, lookup_drop in Hj. apply Hback; [lia|lia|done].
  - intros i. by rewrite (drop_gone total Hpt), own_less_app, <-Hval.
Qed.
(** New nodes below [node]: [G1] has those of the old tree, and some beyond the last window slot that was given up. *)
Lemma rest_stored lv' a' G' :
  AInv lv' a' G' H (own_less (drop prev VAL) own0) → grows a G a' G' →
  (∀ q gq, G' !! q = Some gq → q ∈ dom G ∨ total < length (g_path gq) ∧ (ev < length (g_path gq) → xt (sx a') q = false)) → G ⊆ G' → inserted lv' a' G'.
Proof using Hh Hw Hst.
  intros HI' Hgr Hnew' Hsub. pose proof rest_prev as Hpt. pose proof Hw as [HI Hgr0 Hcut Hnew Hg Hgus Htot Hval Hkey Hback Hfresh Hlow]. split; [done|by eapply grows_trans| | |eapply keeps_low_trans; [reflexivity|exact Hlow|by apply keeps_low_sub]].
  - intros q gq Hq. destruct (Hnew' q gq Hq) as [Hd|[Hl _]]; [|right; lia]. apply elem_of_dom in Hd as [gq0 Hq0].
    destruct (gw_paths _ _ _ _ Hgr q gq0 Hq0) as (gq' & Hq' & E). assert (gq' = gq) as -> by congruence. rewrite E. eauto.
  - intros q gq Hq Hp Hl1 Hl2. destruct (Hnew' q gq Hq) as [Hd|[_ Hl]]; [|auto]. apply elem_of_dom in Hd as [gq0 Hq0].
    destruct (gw_paths _ _ _ _ Hgr q gq0 Hq0) as (gq' & Hq' & E). assert (gq' = gq) as -> by congruence. rewrite E in *.
    apply (gw_live _ _ _ _ Hgr); [by eapply elem_of_dom_2|]. eapply Hfresh; [done|by eapply rest_above|done|done].
Qed.

Lemma wp_insert_rest c (Q : unit → SWACache A → Prop) :
  abs c a → 0 < key_len key → ev ≤ length us →
  (∀ c' lv' a' G', abs c' a' → inserted lv' a' G' → (ev ≠ length us → caches_key G') → Q tt c') → wp (insert_rest node key value ev total) Q c.
Proof using Hh Hw Hst.
  intros Hab Hpos Hev HQ. destruct rest_slots as (Ho & Hf & Hlen & Hb & Eown & Eus & Hta). pose proof Hw as [HI Hgr0 Hcut Hnew Hg Hgus Htot Hval Hkey Hback Hfresh Hlow].
  destruct (proj2 Hst Hpos) as (nx & ck & Hnx & Hck & Hnone). pose proof (ai_ps _ _ _ _ _ HI) as Eps.
  unfold insert_rest. wp_steps. rewrite (ab_cfg _ _ Hab). case_bool_decide as H1.
  { (* no window is left *)
    destruct (free_own_AInv _ _ _ _ _ _ HI Ho Hf) as (al & Hfr & HI' & _). eapply wp_free; [done|exact Hfr|]. intros c' Hab'. eapply HQ; [exact Hab'| |lia].
    eapply rest_stored; [eapply AInv_own_ext; [exact Eown|exact HI']|by split; eauto| |done]. intros q gq Hq. left. by eapply elem_of_dom_2. }
  destruct (bool_decide (total < ev) && bool_decide (ev < total + key_len key)) eqn:H2.
  - (* a tombstone, then the leaf *)
    apply andb_prop in H2 as [H2%bool_decide_eq_true H3%bool_decide_eq_true]. set (k := ev - total) in *.
    assert (k `mod` ps = 0) as Hkal by (unfold k; pose proof (hd_ev Hh); by auto with py).
    destruct (key_prefix_titer key k) as (pre & Hpre & _). destruct (key_suffix_titer key k) as (post & Hpost & _).
    destruct (prefix_ckey _ _ _ _ _ key k pre ck HI Hkey) as (Hkpre & Hlpre & Hipre & Hckpre); [lia|lia|by rewrite <-Eps|done|done|].
    destruct (skey_suffix a key k post Hkey) as (Hkpost & Hipost & Hlpost); [by rewrite <-Eps|done|].
    pose proof Ho as Ho'. rewrite <-(take_drop k value) in Ho'. apply owned_app in Ho' as [Ho1 Ho2]. destruct (sa_fits_take value k Hkal Hf) as [Hf1 Hf2].
    assert (add_pre node nx pre ck (take k value) true a G (own_less (gone total) own0) g) as Hap.
    { eapply add_pre_intro; try done; [lia|rewrite length_take; lia|]. intros i [j Hj]%list_elem_of_lookup. apply lookup_take_Some in Hj as [Hj Hjk].
      rewrite (Hb j i Hj). split; [lia|done]. }
    destruct (aleaf_facts _ _ _ _ _ _ _ _ _ _ _ _ HI Hap) as (Hgr1 & Htm & Hold & Hm & HfrG).
    wp_steps. eapply wp_add_new_node; [done|exact HI|exact Hap|]. intros c1 Hab1 HI1. wp_steps. set (a1 := aleaf _ _ _ _ _ _ a) in *.
    set (G1 := <[a_counter a := leaf_gnode g pre (take k value)]> G) in *. assert (G1 !! a_counter a = Some (leaf_gnode g pre (take k value))) as Hg1 by apply lookup_insert_eq.
    destruct (child_key_ok post (sw_page_size (a_cfg a))) as [ck2 Hck2]; [exact (to_ps (inv_tree _ _ _ (ai_tree _ _ _ _ _ HI)))|apply (aligned_lt 0); [apply aligned_0|apply Hkpost|lia]|].
    change (a_cfg a) with (a_cfg a1).
    eapply (wp_store_leaf _ _ a1 G1 _ _ _ _ _ post ck2 (drop k value) us); [exact Hab1|exact HI1| | |].
    + eapply add_pre_intro; [exact HI1|exact Hg1|exact Hm|exact Hkpost|lia|exact Hck2|done|rewrite length_drop; lia|exact Ho2|done|].
      intros i [j Hj]%list_elem_of_lookup. rewrite lookup_drop in Hj. change (a_alloc a1) with (a_alloc a). rewrite (Hb (k + j) i Hj). split; [done|lia].
    + simpl. by rewrite Hipre, Hipost, <-app_assoc, take_drop.
    + intros c' lv' a' G' Hab' [HI' Hgr' Hend' Hnew' Hsub']. eapply HQ; [exact Hab'| |by intros _]. eapply rest_stored; [| | |etrans; [|exact Hsub']; by apply insert_subseteq].
      * eapply AInv_own_ext; [|exact HI']. intros i. rewrite <-Eown. unfold own_less. rewrite (occ_take_drop i k value). lia.
      * by eapply grows_trans.
      * intros q gq Hq. destruct (Hnew' q gq Hq) as [Hd|[Hl Hx]].
        -- apply elem_of_dom in Hd as [gq1 Hq1]. destruct (gw_paths _ _ _ _ Hgr' q gq1 Hq1) as (gq' & Hq' & E). assert (gq' = gq) as -> by congruence.
           unfold G1 in Hq1. rewrite lookup_insert in Hq1. destruct (decide (a_counter a = q)) as [E'|E']; [|left; by eapply elem_of_dom_2]. injection Hq1 as <-. right.
           rewrite E. simpl. rewrite length_app, titer_length. split; lia.
        -- right. split; [|done]. simpl in Hl. rewrite length_app in Hl. lia.
  - (* the leaf *)
    wp_steps. assert (ev ≤ total) as H3.
    { apply andb_false_iff in H2 as [H2%bool_decide_eq_false|H2%bool_decide_eq_false]; lia. }
    eapply (wp_store_leaf _ _ a G _ _ _ _ _ key ck value us); [exact Hab|exact HI| |done|].
    + eapply add_pre_intro; try done. intros i [j Hj]%list_elem_of_lookup. rewrite (Hb j i Hj). split; [done|lia].
    + intros c' lv' a' G' Hab' [HI' Hgr' Hend' Hnew' Hsub']. eapply HQ; [exact Hab'| |by intros _]. eapply rest_stored; [by eapply AInv_own_ext|done| |done].
      intros q gq Hq. destruct (Hnew' q gq Hq) as [|[Hl Hx]]; [by left|right]. split; [lia|done].
Qed.
End rest.
End walk.
End insert.

(** [insert] of the sliding-window tree as a whole, from the root. *)

Section insert_top.
Context {A : Type} {alloc : SWAAllocator A} {ps : nat} {laws : SWAAllocatorLaws A ps}.
Implicit Types (c : SWACache A) (a : ACache A) (G : gmap nat gnode) (H : list hold) (own : Z → Z) (n : nat) (lv : gset nat).

Lemma iwalk_start lv a G H own us VAL prev ev key :
  AInv lv a G H own → titer key = us → skey a key → (∀ j i, prev ≤ j → VAL !! j = Some i → (i ∈ sa_backed (a_alloc a) ↔ ev ≤ j)) →
  iwalk H a G own us VAL prev ev lv a G (a_root a) (MkG [] []) key VAL 0.
Proof.
  intros HI Hus Hkey Hback. pose proof (to_groot (inv_tree _ _ _ (ai_tree _ _ _ _ _ HI))) as Hr. simpl in Hr.
  split; simpl; try done; try by eauto.
  - eapply AInv_own_ext; [|exact HI]. intros i. unfold gone, own_less. rewrite take_0, drop_nil, occ_nil. lia.
  - apply grows_refl.
  - apply cuts_refl.
  - intros q gq Hq. left. by eapply elem_of_dom_2.
  - intros q gq Hq ->%prefix_nil_inv. simpl. lia.
  - by apply keeps_low_sub.
Qed.

(** What the length returned by [insert] is: the longest match before it. *)
Definition matched_length G (us : list tunit) (r : nat) : Prop := ∃ vs, longest_match ps G us vs ∧ length vs = r.

Section helper.
Context (H : list hold) (a : ACache A) (G : gmap nat gnode) (own : Z → Z) (lv : gset nat) (us : list tunit) (VAL : list Z) (prev ev n0 : nat) (g0 : gnode).
Context (HI : AInv lv a G H own) (Hh : handed_over a G own us VAL prev ev n0 g0).

(** The key is used up: every slot has been taken over. *)
Lemma walk_all lv' a' G' node g key value total :
  iwalk H a G own us VAL prev ev lv' a' G' node g key value total → walk_stops (ps:=ps) us a' G' node g key → key_len key = 0 →
  inserted H a G own us VAL prev ev lv' a' G' ∧ caches_key us G'.
Proof using Hh.
  intros Hw Hst Hk. pose proof (rest_slots _ _ _ _ _ _ _ _ _ _ Hh _ _ _ _ _ _ _ _ Hw Hst) as (_ & _ & Hl & _ & Eown & Eus & _).
  assert (titer key = []) as Et by (apply nil_length_inv; by rewrite titer_length). pose proof (iw_us _ _ _ _ _ _ _ _ _ _ _ _ _ _ _ _ Hw) as Hus. rewrite Et, app_nil_r in Hus.
  split; [|exists node, g; split; [apply Hw|done]].
  eapply (rest_stored _ _ _ _ _ _ _ _ _ _ Hh _ _ _ _ _ _ _ _ Hw Hst); [|apply grows_refl|intros q gq Hq; left; by eapply elem_of_dom_2|done].
  eapply AInv_own_ext; [|apply (iw_inv _ _ _ _ _ _ _ _ _ _ _ _ _ _ _ _ Hw)]. intros i. rewrite <-(Eown i). unfold own_less.
  assert (value = []) as -> by (apply nil_length_inv; lia). rewrite occ_nil. lia.
Qed.

Lemma walk_length lv' a' G' node g key value total :
  iwalk H a G own us VAL prev ev lv' a' G' node g key value total → walk_stops (ps:=ps) us a' G' node g key → matched_length G us total.
Proof using HI.
  intros Hw [Hlm _]. pose proof Hw as [HI' Hgr Hcut _ Hg Hus Htot _ _ _ _ _].
  eapply (longest_transfer lv a lv' a'); [exact HI|exact HI'|apply Hgr|done|apply Hgr|exact Hlm|done| |done].
  by rewrite <-Hus, take_app_length.
Qed.

Lemma wp_swa_insert_helper c key (Q : nat → SWACache A → Prop) :
  abs c a → skey a key → titer key = us → ev ≤ length us →
  (∀ c' lv' a' G' r, abs c' a' → inserted H a G own us VAL prev ev lv' a' G' → matched_length G us r →
    (ev ≠ length us ∨ r = length us → caches_key us G') → Q r c') →
  wp (swa_insert_helper key VAL prev ev) Q c.
Proof using HI Hh.
  intros Hab Hkey Hus Hev HQ. pose proof (inv_tree _ _ _ (ai_tree _ _ _ _ _ HI)) as Ht. pose proof (to_groot Ht) as Hr. simpl in Hr.
  assert (key_len key = length us) as Hkl by (by rewrite <-titer_length, Hus).
  pose proof (iwalk_start _ _ _ _ _ _ _ _ _ _ HI Hus Hkey (hd_back _ _ _ _ _ _ _ _ _ Hh)) as Hw0.
  unfold swa_insert_helper. wp_steps. rewrite (ab_cfg _ _ Hab), (ab_root _ _ Hab). destruct (decide (key_len key = 0)) as [Hk|Hk].
  - assert (us = []) as Eus by (apply nil_length_inv; lia).
    assert (walk_stops (ps:=ps) us a G (a_root a) (MkG [] []) key) as Hst.
    { split; [|lia]. rewrite Eus. split; simpl; [done|by left|lia]. }
    wp_step. destruct (walk_all _ _ _ _ _ _ _ _ Hw0 Hst Hk) as [Hin Hc]. eapply HQ; [exact Hab|exact Hin|by eapply walk_length|done].
  - destruct (child_key_ok key (sw_page_size (a_cfg a))) as [ck Hck]; [exact (to_ps Ht)|apply (aligned_lt 0); [apply aligned_0|apply Hkey|lia]|]. wp_steps.
    eapply (wp_swa_insert_loop _ _ _ _ _ _ _ _ _ _ Hh); [exact Hab|exact Hw0|lia|done|].
    intros c1 lv1 a1 G1 node1 g1 key1 val1 tot1 Hab1 Hw1 Hst1. pose proof (walk_length _ _ _ _ _ _ _ _ Hw1 Hst1) as Hml.
    destruct (decide (0 < key_len key1)) as [Hk1|Hk1]; wp_steps.
    + eapply (wp_insert_rest _ _ _ _ _ _ _ _ _ _ Hh); [exact Hw1|exact Hst1|exact Hab1|done|done|]. intros c2 lv2 a2 G2 Hab2 Hin Hc. wp_step.
      eapply HQ; [exact Hab2|exact Hin|done|]. intros [?|?]; [auto|].
      pose proof (rest_slots _ _ _ _ _ _ _ _ _ _ Hh _ _ _ _ _ _ _ _ Hw1 Hst1) as (_ & _ & _ & _ & _ & Eus & _). lia.
    + wp_steps. destruct (walk_all _ _ _ _ _ _ _ _ Hw1 Hst1) as [Hin Hc]; [lia|]. eapply HQ; [exact Hab1|exact Hin|done|done].
Qed.
End helper.

(** ** insert *)
Lemma wp_swa_insert c lv a G H own key v prev ev n0 g0 (Q : nat → SWACache A → Prop) :
  let us := swa_units (a_cfg a) key in
  abs c a → AInv lv a G H own → sw_disable (a_cfg a) = false → swa_query_ok (a_cfg a) key →
  handed_over a G own us (take (length us) v) prev ev n0 g0 → ev ≤ length us →
  (∀ c' lv' a' G' r, abs c' a' → inserted H a G own us (take (length us) v) prev ev lv' a' G' → matched_length G us r →
    (ev ≠ length us ∨ r = length us → caches_key us G') → Q r c') →
  wp (swa_insert key (Some v) prev ev) Q c.
Proof.
  intros us Hab HI Hdis Hq Hh Hev HQ. destruct (query_pages a key Hq) as (key' & Hpa & Hkey & Hit). unfold swa_insert. wp_steps. rewrite (ab_cfg _ _ Hab), Hdis. cbv zeta.
  assert (key_len key' = length us) as Hl by (by rewrite <-titer_length, Hit).
  assert (∃ w, maybe_to_bigram_view key (sw_eagle (a_cfg a)) (Some v) = ((maybe_to_bigram_view key (sw_eagle (a_cfg a)) None).1, Some w)
    ∧ take (length us) w = take (length us) v) as (w & -> & Ew).
  { unfold us, swa_units in *. unfold maybe_to_bigram_view in *. destruct (_ && _); simpl; eexists; (split; [reflexivity|]); [|done].
    rewrite take_take, Nat.min_l; [done|]. rewrite length_take, titer_length. lia. }
  simpl. wp_steps. rewrite Hl, Ew. eapply (wp_swa_insert_helper H a G own lv); [exact HI|exact Hh|done|done|done|done|done].
Qed.
End insert_top.
