(* ===== verification/SwaSpec.v ===== *)
(** What a client can see of the sliding-window cache: the keys and slots of its nodes,
    read off the objects, with the proof that this is the tree of the invariant. *)
From S2P Require Import Prelude RadixKey TreeNode EvictPolicy RadixCache RadixInv RadixSplit RadixLeaf RadixLock RadixSpec RadixOps RadixMatch RadixLockOps RadixTotal.
From S2P Require Import SwaLru SwaCache SwaAbs SwaInv SwaOps SwaNodes SwaEvict SwaLocks SwaMatch SwaRevive SwaInsert.
From stdpp Require Import options.

(** The key of a node, read upwards. *)
Fixpoint path_units (fuel : nat) (s : store) (root n : nat) : option (list tunit) :=
  match fuel with
  | 0 => None
  | S fuel => if decide (n = root) then Some [] else x ← s !! n; p ← s_parent x; us ← path_units fuel s root p; Some (us ++ titer (s_key x))
  end.
(** The slots of a node's path, from the root. *)
Fixpoint path_slots (fuel : nat) (s : store) (root n : nat) : option (list Z) :=
  match fuel with
  | 0 => None
  | S fuel => if decide (n = root) then Some [] else x ← s !! n; p ← s_parent x; v ← s_value x; vs ← path_slots fuel s root p; Some (vs ++ v)
  end.
(** No tombstone among the last [w] tokens of the path, [k] of which are below [n]. *)
Fixpoint window_open (w fuel : nat) (s : store) (root n k : nat) : bool :=
  match fuel with
  | 0 => false
  | S fuel =>
      if bool_decide (n = root) || bool_decide (w ≤ k) then true
      else match s !! n with
           | None => false
           | Some x => negb (swa_tombstone x) && match s_parent x with None => false | Some p => window_open w fuel s root p (k + key_len (s_key x)) end
           end
  end.

Section spec.
Context {A : Type}.
Implicit Types (c : SWACache A).
Definition depth c : nat := S (size (sw_nodes c)).
Definition node_key c n : option (list tunit) := path_units (depth c) (sw_nodes c) (sw_root c) n.
Definition node_kv c n : option (list Z) := path_slots (depth c) (sw_nodes c) (sw_root c) n.
Definition node_open c n : bool := window_open (sliding_window_size (sw_cfg c)) (depth c) (sw_nodes c) (sw_root c) n 0.
(** The nodes of the tree: the root and the members of the list of all nodes. *)
Definition members c : gset nat := lru_cache (full_lru_list c).
Definition windows c : gset nat := lru_cache (swa_lru_list c).
Definition in_tree c n : Prop := n = sw_root c ∨ n ∈ members c.

Definition value_at c n : list Z := default [] (sw_nodes c !! n ≫= s_value).
Definition cached_slots c : list Z := concat (value_at c <$> elements (members c)).
Definition window_slots c : list Z := concat (value_at c <$> elements (windows c)).
End spec.

(** ** Sums over nodes *)
Lemma concat_occ (f : nat → list Z) (X : gset nat) i : occ i (concat (f <$> elements X)) = gsum (λ n, occ i (f n)) X.
Proof. unfold gsum. induction (elements X) as [|n l IH]; [done|]. simpl. rewrite occ_app. f_equal. exact IH. Qed.
Lemma concat_lengths (f : nat → list Z) (X : gset nat) : Z.of_nat (length (concat (f <$> elements X))) = gsum (λ n, Z.of_nat (length (f n))) X.
Proof. unfold gsum. induction (elements X) as [|n l IH]; [done|]. simpl. rewrite length_app, Nat2Z.inj_add. f_equal. exact IH. Qed.
Lemma gsum_add f g (X : gset nat) : gsum (λ n, f n + g n)%Z X = (gsum f X + gsum g X)%Z.
Proof. unfold gsum. induction (elements X) as [|n l IH]; [done|]. simpl. lia. Qed.
Lemma gsum_sub f (X Y : gset nat) : Y ⊆ X → (∀ n, n ∈ X → n ∉ Y → f n = 0%Z) → gsum f X = gsum f Y.
Proof.
  intros Hsub Hz. replace X with (Y ∪ X ∖ Y) by (symmetry; apply union_difference_L; done). clear Hsub.
  assert (∀ Z0 : gset nat, Y ## Z0 → (∀ n, n ∈ Z0 → f n = 0%Z) → gsum f (Y ∪ Z0) = gsum f Y) as Hgen; [|apply Hgen; set_solver].
  intros Z0. induction Z0 as [|n Z0 Hn IH] using set_ind_L; [by rewrite union_empty_r_L|]. intros Hd Hf.
  replace (Y ∪ ({[n]} ∪ Z0)) with ({[n]} ∪ (Y ∪ Z0)) by set_solver. rewrite gsum_insert by set_solver. rewrite IH by set_solver. rewrite Hf by set_solver. lia.
Qed.

Section observe.
Context {A : Type} {alloc : SWAAllocator A} {ps : nat} {laws : SWAAllocatorLaws A ps}.
Context (c : SWACache A) (lv : gset nat) (a : ACache A) (G : gmap nat gnode) (H : list hold) (own : Z → Z) (Hab : abs c a) (HI : AInv lv a G H own).

Lemma members_inner : members c = inner (sview lv a) G.
Proof using Hab HI.
  apply set_eq. intros n. pose proof (lr_cache _ _ _ _ (ab_list _ _ Hab false)) as E. simpl in E. unfold members. rewrite E, elem_of_list_to_set. apply (ai_fl _ _ _ _ _ HI).
Qed.
Lemma windows_inner n : n ∈ windows c ↔ n ∈ inner (sview lv a) G ∧ xt (sx a) n = false.
Proof using Hab HI.
  pose proof (lr_cache _ _ _ _ (ab_list _ _ Hab true)) as E. simpl in E. unfold windows. rewrite E, elem_of_list_to_set. apply (ai_sl _ _ _ _ _ HI).
Qed.
Lemma in_tree_live n : in_tree c n ↔ is_Some (G !! n).
Proof using Hab HI.
  unfold in_tree. rewrite members_inner, elem_of_inner, (ab_root _ _ Hab). pose proof (to_groot (inv_tree _ _ _ (ai_tree _ _ _ _ _ HI))) as Hr. simpl in Hr |- *.
  split; [intros [->|[? _]]; [eauto|done]|]. intros Hn. destruct (decide (n = a_root a)); auto.
Qed.
(** A node below the root, as an object. *)
Lemma object n g : G !! n = Some g → n ≠ sw_root c →
  ∃ y x p gp px vv, sw_nodes c !! n = Some y ∧ s_parent y = Some p ∧ s_value y = Some vv ∧ s_key y = s_key x ∧ swa_tombstone y = xt (sx a) n
    ∧ node_ok (sview lv a) G n g (s_core x) p gp px ∧ g_vals g = g_vals gp ++ vv ∧ hval (tv_h (sview lv a)) n = vv ∧ hlen (tv_h (sview lv a)) n = Z.of_nat (length vv).
Proof using Hab HI.
  intros Hg Hr. rewrite (ab_root _ _ Hab) in Hr. assert (n ∈ inner (sview lv a) G) as Hn by (apply elem_of_inner; eauto).
  destruct (tree_node _ _ _ _ _ _ HI Hn) as (g' & x & p & gp & px & vv & Hg' & _ & Hx & _ & Hok & Hpar & Hvv & Hlen & Hval & Hhl). assert (g' = g) as -> by congruence.
  destruct (abs_node _ _ _ _ Hab Hx) as (y & Hy & Ey). destruct (plain_fields _ _ Ey) as (_ & Epar & Ekey & Eval & Et & _). destruct (no_vals Hok) as (v' & Hv' & _ & Hgv). simpl in Hv'.
  destruct (sx_lookup _ _ _ Hx) as (_ & Ext & _). exists y, x, p, gp, (s_core px), vv. split_and!; congruence.
Qed.

Lemma depth_enough n g : G !! n = Some g → rank G g < depth c.
Proof using Hab HI.
  intros Hg. pose proof (rank_size G g). pose proof (tree_size _ _ _ _ _ HI) as Hs. unfold depth. rewrite (abs_size _ _ Hab). lia.
Qed.
(** The facts read upwards from a node. *)
Lemma path_read n g fuel : G !! n = Some g → rank G g < fuel →
  path_units fuel (sw_nodes c) (sw_root c) n = Some (g_path g) ∧ path_slots fuel (sw_nodes c) (sw_root c) n = Some (g_vals g)
  ∧ ∀ w k, window_open w fuel (sw_nodes c) (sw_root c) n k = true ↔ lockable w a G n k.
Proof using Hab HI.
  pose proof (inv_tree _ _ _ (ai_tree _ _ _ _ _ HI)) as Ht. revert n g. induction fuel as [|fuel IH]; [lia|]. intros n g Hg Hfuel. simpl.
  destruct (decide (n = sw_root c)) as [->|Hn].
  { pose proof (to_groot Ht) as Hr. simpl in Hr. rewrite (ab_root _ _ Hab) in *. rewrite Hr in Hg. injection Hg as <-. split_and!; [done..|]. intros w k. rewrite bool_decide_true by done.
    split; [|done]. intros _ q Hq. pose proof (on_path_root (sview lv a) G q Ht) as E. simpl in E. congruence. }
  destruct (object n g Hg Hn) as (y & x & p & gp & px & vv & Hy & Hpar & Hvv & Hkey & Ht0 & Hok & Hgv & _). rewrite Hy. simpl. rewrite Hpar, Hvv, Hkey. simpl.
  destruct (IH p gp (no_gpar Hok)) as (Hu & Hs & Hw); [pose proof (rank_parent _ _ _ _ _ _ _ _ Hok); lia|]. rewrite Hu, Hs. simpl.
  split_and!; [by rewrite (no_path Hok)|by rewrite Hgv|]. intros w k. rewrite (bool_decide_false (n = _)) by done. simpl. rewrite (ab_root _ _ Hab) in Hn.
  destruct (parent_plen _ _ _ _ _ _ _ _ Hg Hok) as [Epl Hpos]. simpl in Epl, Hpos. case_bool_decide as Hk.
  { split; [|done]. intros _ q Hq Hlt. lia. }
  rewrite Ht0, andb_true_iff, negb_true_iff, Hw. unfold lockable.
  assert (∀ q, on_path G (a_root a) n q = bool_decide (q = n) || on_path G (a_root a) p q) as Hon.
  { intros q. by destruct (on_path_step (sview lv a) G n g (s_core x) p gp px q Ht Hg Hn Hok) as [? _]. }
  split.
  - intros [Hn0 Hp] q Hq Hlt. rewrite Hon in Hq. apply orb_prop in Hq as [->%bool_decide_eq_true|Hq]; [done|]. apply Hp; [done|]. pose proof (on_path_plen _ _ _ _ Hq). lia.
  - intros Hl. split; [apply Hl; [rewrite Hon; by rewrite bool_decide_true|lia]|]. intros q Hq Hlt. apply Hl; [rewrite Hon, Hq; apply orb_true_r|]. pose proof (on_path_plen _ _ _ _ Hq). lia.
Qed.
Lemma node_read n g : G !! n = Some g →
  node_key c n = Some (g_path g) ∧ node_kv c n = Some (g_vals g) ∧ (node_open c n = true ↔ lockable (sliding_window_size (a_cfg a)) a G n 0).
Proof using Hab HI.
  intros Hg. destruct (path_read n g (depth c) Hg (depth_enough n g Hg)) as (Hu & Hs & Hw). unfold node_key, node_kv, node_open. rewrite (ab_cfg _ _ Hab). by split_and!.
Qed.

Lemma value_at_hval n : n ∈ inner (sview lv a) G → value_at c n = hval (tv_h (sview lv a)) n ∧ Z.of_nat (length (value_at c n)) = hlen (tv_h (sview lv a)) n.
Proof using Hab HI.
  intros [[g Hg] Hr]%elem_of_inner. simpl in Hr. rewrite <-(ab_root _ _ Hab) in Hr. destruct (object n g Hg Hr) as (y & x & p & gp & px & vv & Hy & _ & Hvv & _ & _ & _ & _ & Hv & Hl).
  unfold value_at. rewrite Hy. cbn [mbind option_bind]. rewrite Hvv. cbn [default from_option]. by rewrite Hv, Hl.
Qed.

(** Every slot in use is cached once or with a request. *)
Lemma cached_count i : occ i (cached_slots c) = slot_count (sview lv a) G i.
Proof using Hab HI.
  unfold cached_slots, slot_count. rewrite concat_occ, members_inner. apply gsum_ext. intros n Hn. by destruct (value_at_hval n Hn) as [-> _].
Qed.
Lemma cached_backed i : i ∈ cached_slots c → (i ∈ sa_backed (sw_alloc c) ↔ i ∈ window_slots c).
Proof using Hab HI.
  intros Hi. pose proof (ai_slots _ _ _ _ _ HI) as Hs. rewrite (ab_alloc _ _ Hab).
  assert (∀ X : gset nat, i ∈ concat (value_at c <$> elements X) ↔ ∃ n, n ∈ X ∧ i ∈ value_at c n) as Hin.
  { intros X. rewrite elem_of_concat. split.
    - intros (l & (n & -> & Hn)%list_elem_of_fmap & Hil). exists n. by rewrite elem_of_elements in Hn.
    - intros (n & Hn & Hiv). exists (value_at c n). split; [|done]. apply list_elem_of_fmap. exists n. by rewrite elem_of_elements. }
  unfold cached_slots in Hi. apply Hin in Hi as (n & Hn & Hi). rewrite members_inner in Hn. destruct (value_at_hval n Hn) as [E _]. rewrite E in Hi.
  rewrite (sl_back _ _ _ _ _ Hs n i Hn Hi). unfold window_slots. rewrite Hin. split.
  - intros Ht. exists n. rewrite windows_inner, E. done.
  - intros (m & [Hm Htm]%windows_inner & Him). destruct (value_at_hval m Hm) as [Em _]. rewrite Em in Him.
    destruct (decide (m = n)) as [->|Hne]; [done|]. exfalso. pose proof (sl_count _ _ _ _ _ Hs i) as Hc. pose proof (sl_own _ _ _ _ _ Hs i) as Ho. unfold slot_count in Hc.
    rewrite (gsum_delete _ n), (gsum_delete _ m) in Hc by set_solver. apply occ_in_pos in Hi, Him.
    assert (0 <= gsum (λ q, occ i (hval (tv_h (sview lv a)) q)) (inner (sview lv a) G ∖ {[n]} ∖ {[m]}))%Z by (apply gsum_nonneg; intros; apply occ_nonneg). case_decide; lia.
Qed.
Lemma full_sizes : (full_evictable_size_ c + full_protected_size_ c)%Z = Z.of_nat (length (cached_slots c)).
Proof using Hab HI.
  destruct (inv_sizes _ _ _ (ai_tree _ _ _ _ _ HI)) as [Hev Hpr _]. simpl in Hev, Hpr. rewrite (ab_fev _ _ Hab), (ab_fpr _ _ Hab), Hev, Hpr.
  unfold cached_slots. rewrite concat_lengths, <-gsum_add, members_inner. apply gsum_ext. intros n Hn. destruct (value_at_hval n Hn) as [_ E]. rewrite E.
  unfold ev_weight, pr_weight, ev_w, pr_w. simpl. destruct (decide _); lia.
Qed.
Lemma swa_sizes : (swa_evictable_size_ c + swa_protected_size_ c)%Z = Z.of_nat (length (window_slots c)).
Proof using Hab HI.
  destruct (xi_ok _ _ _ _ _ _ _ (ai_swa _ _ _ _ _ HI)) as [Htomb _ Hev Hpr _ _]. rewrite (ab_sev _ _ Hab), (ab_spr _ _ Hab), Hev, Hpr.
  unfold window_slots. rewrite concat_lengths, <-gsum_add. rewrite (gsum_sub _ _ (windows c)).
  - apply gsum_ext. intros n [Hn Ht]%windows_inner. destruct (value_at_hval n Hn) as [_ E]. rewrite E. unfold swa_ev_w, swa_pr_w, ev_w, pr_w. rewrite Ht. destruct (decide _); lia.
  - intros n [Hn _]%windows_inner. done.
  - intros n Hn Hnw. assert (xt (sx a) n = true) as Ht by (destruct (xt (sx a) n) eqn:E; [done|]; destruct Hnw; by apply windows_inner).
    unfold swa_ev_w, swa_pr_w, pr_w. rewrite Ht, decide_True by (by apply Htomb). done.
Qed.
Lemma swa_evictable_nonneg : (0 <= full_evictable_size_ c)%Z ∧ (0 <= swa_evictable_size_ c)%Z.
Proof using Hab HI.
  destruct (inv_sizes _ _ _ (ai_tree _ _ _ _ _ HI)) as [Hf _ _]. destruct (xi_ok _ _ _ _ _ _ _ (ai_swa _ _ _ _ _ HI)) as [_ _ Hs _ _ _]. simpl in Hf.
  rewrite (ab_fev _ _ Hab), (ab_sev _ _ Hab), Hf, Hs.
  split; apply gsum_nonneg; intros n Hn; destruct (value_at_hval n Hn) as [_ E]; simpl in E; unfold swa_ev_w, ev_weight, ev_w; simpl; try destruct (xt _ _); try case_decide; lia.
Qed.
End observe.
