(* ===== verification/SwaReach.v ===== *)
(** Sequences of calls to the sliding-window cache: the initial state, the calls its
    clients make, and the invariant that holds in between. *)
From S2P Require Import Prelude RadixKey TreeNode EvictPolicy RadixCache RadixInv RadixSplit RadixLeaf RadixLock RadixSpec RadixOps RadixMatch RadixLockOps RadixTotal SwaLru SwaCache SwaAbs SwaInv SwaOps SwaNodes SwaEvict SwaLocks SwaMatch SwaRevive SwaInsert SwaSpec.
From stdpp Require Import options.

(** ** A new cache *)
Section init.
Context {A : Type} {alloc : SWAAllocator A} {ps : nat} {laws : SWAAllocatorLaws A ps}.

(** The root, and the two dummy nodes of each list. *)
Definition init_nodes : store := list_to_map
  [(0, MkSNode ∅ None (MkRadixKey [] None false) (Some []) false 1 1 (MkLinks None None) (MkLinks None None) None);
   (1, set_links false (set_nxt (Some 2)) new_SNode); (2, set_links false (set_prv (Some 1)) new_SNode);
   (3, set_links true (set_nxt (Some 4)) new_SNode); (4, set_links true (set_prv (Some 3)) new_SNode)].
Lemma init_nodes_small n : is_Some (init_nodes !! n) → n < 5.
Proof. intros [x Hx]. apply elem_of_list_to_map_2 in Hx. repeat (apply elem_of_cons in Hx as [[= -> _]|Hx]; [lia|]). by apply elem_of_nil in Hx. Qed.

Definition init_acache (cf : SWAConfig) (al : A) : ACache A := MkA cf 0 (plain <$> init_nodes) 5 1 0 0 0 0 [] [] al.
Lemma swa_init_ok cf (al : A) : 1 ≤ sw_page_size cf → ps = sw_page_size cf → sa_ok al → sa_used al = ∅ →
  ∃ c, swa_init cf al = Ok c ∧ abs c (init_acache cf al) ∧ AInv ∅ (init_acache cf al) (empty_tree 0) [] (λ _, 0%Z).
Proof.
  intros Hps Eps Hal Hu. exists (MkSWA cf 0 init_nodes 5 1 0 0 0 0 (MkLRU false 1 2 ∅) (MkLRU true 3 4 ∅) al). split; [reflexivity|]. split.
  - split; simpl; try reflexivity. intros [|]; split; simpl; try reflexivity; try done; repeat constructor; set_solver.
  - set (a := init_acache cf al). assert (inner (sview ∅ a) (empty_tree 0) = ∅) as Hin by (unfold inner, empty_tree; rewrite dom_singleton_L; simpl; set_solver).
    assert (∀ n, n ∉ inner (sview ∅ a) (empty_tree 0)) as Hno by (rewrite Hin; set_solver).
    split; simpl; try done.
    + change (full_holds []) with no_locks. change (empty_tree 0) with (empty_tree (tv_root (sview ∅ a))).
      eapply empty_view_Inv; simpl; try done. intros n. rewrite !lookup_fmap, !fmap_is_Some. apply init_nodes_small.
    + intros n. split; [intros Hn; by apply elem_of_nil in Hn|intros Hn; by apply Hno in Hn].
    + intros n. split; [intros Hn; by apply elem_of_nil in Hn|intros [Hn _]; by apply Hno in Hn].
    + split; simpl; try done; try (intros n Hn; by apply Hno in Hn).
      * intros i. unfold slot_count. rewrite Hin, gsum_empty, decide_False by (rewrite Hu; set_solver). done.
Qed.
End init.

(** ** Clients

    A client is the scheduler with its requests: it remembers the locks it has taken, with
    the ids [inc_lock_ref] returned, and the slots its requests have not handed over. *)
Record lock := MkLock { l_node : nat; l_uuid : option Z; l_swa : bool }.
Record client (A : Type) := MkClient { cl_cache : SWACache A; cl_locks : list lock; cl_own : list Z }.
Arguments MkClient {A}. Arguments cl_cache {A}. Arguments cl_locks {A}. Arguments cl_own {A}.

(** Locks are named by their position.  [CAlloc], [CFree] and [CFreeSwa] are the requests' own use of
    the allocator. *)
Inductive scall (A : Type) :=
  | CMatch (key : RadixKey)
  | CLock (n : nat)
  | CUnlock (i : nat)
  | CUnlockWindow (i : nat)
  | CEvict (num_tokens swa_num_tokens : Z)
  | CInsert (key : RadixKey) (v : list Z) (prev ev : nat)
  | CAlloc (l : list Z) (al : A)
  | CFree (l : list Z)
  | CFreeSwa (l : list Z).
Arguments CMatch {A}. Arguments CLock {A}. Arguments CUnlock {A}. Arguments CUnlockWindow {A}. Arguments CEvict {A}.
Arguments CInsert {A}. Arguments CAlloc {A}. Arguments CFree {A}. Arguments CFreeSwa {A}.

Section client.
Context {A : Type} {alloc : SWAAllocator A} {ps : nat} {laws : SWAAllocatorLaws A ps}.
Implicit Types (s : client A) (c : SWACache A) (a : ACache A) (G : gmap nat gnode) (H : list hold) (lv : gset nat).

(** The slots an insertion hands over. *)
Definition given (cf : SWAConfig) (key : RadixKey) (v : list Z) (prev : nat) : list Z := drop prev (take (length (swa_units cf key)) v).

Definition with_cache {B} (locks : B → list lock) (own : list Z) (r : result (B * SWACache A)) : result (client A) :=
  '(b, c) ← r; Ok (MkClient c (locks b) own).
Definition run (call : scall A) (s : client A) : result (client A) :=
  let c := cl_cache s in let locks := cl_locks s in let own := cl_own s in
  match call with
  | CMatch key => with_cache (λ _, locks) own (swa_match_prefix key c)
  | CLock n => with_cache (λ u, MkLock n u true :: locks) own (swa_inc_lock_ref n c)
  | CUnlock i => h ← unwrap IndexError (locks !! i); with_cache (λ _, delete i locks) own (swa_dec_lock_ref (l_node h) (l_uuid h) (negb (l_swa h)) c)
  | CUnlockWindow i =>
      h ← unwrap IndexError (locks !! i);
      with_cache (λ _, <[i := MkLock (l_node h) (l_uuid h) false]> locks) own (dec_swa_lock_only (l_node h) (l_uuid h) c)
  | CEvict n w => with_cache (λ _, locks) own (swa_evict n w c)
  | CInsert key v prev ev => with_cache (λ _, locks) (list_difference own (given (sw_cfg c) key v prev)) (swa_insert key (Some v) prev ev c)
  | CAlloc l al => Ok (MkClient (set_sw_alloc al c) locks (l ++ own))
  | CFree l => al ← sa_free l (sw_alloc c); Ok (MkClient (set_sw_alloc al c) locks (list_difference own l))
  | CFreeSwa l => al ← sa_free_swa l (sw_alloc c); Ok (MkClient (set_sw_alloc al c) locks own)
  end.

(** [prev] tokens of [us] are protected: a lock is held on the node where they end. *)
Definition protected_prefix s (us : list tunit) (prev : nat) : Prop :=
  prev = 0 ∨ ∃ h, h ∈ cl_locks s ∧ node_key (cl_cache s) (l_node h) = Some (take prev us).

(** What a client has to see to. *)
Definition legal (call : scall A) s : Prop :=
  let cf := sw_cfg (cl_cache s) in let al := sw_alloc (cl_cache s) in
  match call with
  | CMatch key => swa_query_ok cf key
  | CLock n => in_tree (cl_cache s) n ∧ node_open (cl_cache s) n = true
  | CUnlock i => is_Some (cl_locks s !! i)
  | CUnlockWindow i => ∃ h, cl_locks s !! i = Some h ∧ l_swa h = true
  | CEvict _ _ => True
  | CInsert key v prev ev =>
      let us := swa_units cf key in
      swa_query_ok cf key ∧ length us ≤ length v ∧ prev ≤ length us ∧ protected_prefix s us prev ∧ given cf key v prev ⊆+ cl_own s
      ∧ sa_fits (given cf key v prev) ∧ (∀ j i, prev ≤ j → take (length us) v !! j = Some i → (i ∈ sa_backed al ↔ ev ≤ j)) ∧ ev `mod` ps = 0 ∧ ev ≤ length us
  | CAlloc l al' =>
      sa_ok al' ∧ NoDup l ∧ (∀ i, i ∈ l → i ∉ sa_used al) ∧ sa_used al' = sa_used al ∪ list_to_set l
      ∧ (∀ i, i ∉ l → (i ∈ sa_backed al' ↔ i ∈ sa_backed al))
  | CFree l => l ⊆+ cl_own s ∧ sa_fits l
  | CFreeSwa l => l ⊆+ cl_own s ∧ sa_fits l ∧ ∀ i, i ∈ l → i ∈ sa_backed al
  end.

Record cfg_ok (cf : SWAConfig) : Prop := {
  co_on : sw_disable cf = false;
  co_compact : compact cf = false;
  co_window : 0 < sliding_window_size cf;
  co_page : 1 ≤ sw_page_size cf;
}.
Inductive reachable : client A → Prop :=
  | reach_init cf al c : cfg_ok cf → ps = sw_page_size cf → sa_ok al → sa_used al = ∅ → swa_init cf al = Ok c → reachable (MkClient c [] [])
  | reach_step s s' call : reachable s → legal call s → run call s = Ok s' → reachable s'.

(** ** The invariant of a client *)
Definition lock_of (h : hold) : lock := MkLock (h_node h) (h_uuid h) (h_swa h).
Definition own_of (l : list Z) : Z → Z := λ i, occ i l.
(** A window lock covers a window, or everything. *)
Definition wide (w root : nat) G (h : hold) : Prop := h_swa h = true → h_top h = root ∨ w ≤ plen G (h_node h) - plen G (h_top h).
Abbreviation all_wide a G H := (Forall (wide (sliding_window_size (a_cfg a)) (a_root a) G) H).
Record cinv s lv a G H : Prop := {
  ci_abs : abs (cl_cache s) a;
  ci_inv : AInv lv a G H (own_of (cl_own s));
  ci_locks : cl_locks s = lock_of <$> H;
  ci_cfg : cfg_ok (a_cfg a);
  ci_wide : all_wide a G H;
}.
Definition sinv s : Prop := ∃ lv a G H, cinv s lv a G H.

(** *** The slots of the requests *)
Lemma own_nodup lv a G H own : AInv lv a G H (own_of own) → NoDup own.
Proof.
  intros HI. apply occ_le_NoDup. intros i. pose proof (sl_count _ _ _ _ _ (ai_slots _ _ _ _ _ HI) i) as Hc. unfold own_of in Hc.
  assert (0 <= slot_count (sview lv a) G i)%Z by (apply gsum_nonneg; intros; apply occ_nonneg). case_decide; lia.
Qed.
Lemma own_diff own l : NoDup own → l ⊆+ own → owned (own_of own) l ∧ ∀ i, own_less l (own_of own) i = own_of (list_difference own l) i.
Proof.
  intros Hnd Hl. destruct (submseteq_Permutation _ _ Hl) as [k Hk]. assert (NoDup l) as Hndl by (rewrite Hk in Hnd; by apply NoDup_app in Hnd as (? & _ & _)). clear k Hk.
  assert (∀ i, i ∈ l → i ∈ own) as Hin by (intros i Hi; by eapply elem_of_submseteq).
  assert (∀ i, occ i own = if decide (i ∈ own) then 1%Z else 0%Z) as E1 by (intros; by apply occ_NoDup).
  assert (∀ i, occ i l = if decide (i ∈ l) then 1%Z else 0%Z) as E2 by (intros; by apply occ_NoDup). split.
  - intros i. unfold own_of. rewrite E1, E2. repeat case_decide; try lia. naive_solver.
  - intros i. unfold own_less, own_of. rewrite E1, E2, (occ_NoDup i (list_difference own l)) by (by apply NoDup_list_difference).
    destruct (decide (i ∈ list_difference own l)) as [Hi|Hi]; rewrite list_elem_of_difference in Hi; destruct (decide (i ∈ own)), (decide (i ∈ l)); try done; naive_solver.
Qed.

(** *** Windows *)
Lemma wide_same lv a G H own a' G' : AInv lv a G H own → a_cfg a' = a_cfg a → a_root a' = a_root a →
  (∀ q, q ∈ dom G → plen G' q = plen G q) → all_wide a G H → all_wide a' G' H.
Proof.
  intros HI Ec Er Hp. rewrite Ec, Er. pose proof (xi_holds _ _ _ _ _ _ _ (ai_swa _ _ _ _ _ HI)) as Hok. rewrite !Forall_forall in *. intros Hw h Hh Hsw.
  destruct (ho_node _ _ _ _ (Hok h Hh)) as (g & gt & Hg & Hgt & _). rewrite !Hp by (by eapply elem_of_dom_2). by apply Hw.
Qed.
Lemma plen_paths G G' : (∀ q gq, G !! q = Some gq → ∃ gq', G' !! q = Some gq' ∧ g_path gq' = g_path gq) → ∀ q, q ∈ dom G → plen G' q = plen G q.
Proof. intros Hp q [g Hg]%elem_of_dom. destruct (Hp q g Hg) as (g' & Hg' & E). unfold plen. rewrite Hg, Hg'. simpl. by rewrite E. Qed.
Lemma plen_sub G G' : G ⊆ G' → ∀ q, q ∈ dom G → plen G' q = plen G q.
Proof. intros Hs. apply plen_paths. intros q g Hq. exists g. split; [by eapply lookup_weaken|done]. Qed.

Lemma wide_back lv a G H own a' G' : AInv lv a G H own → a_cfg a' = a_cfg a → a_root a' = a_root a → G ⊆ G' → all_wide a' G' H → all_wide a G H.
Proof.
  intros HI Ec Er Hsub. rewrite Ec, Er. pose proof (xi_holds _ _ _ _ _ _ _ (ai_swa _ _ _ _ _ HI)) as Hok. rewrite !Forall_forall in *. intros Hw h Hh Hsw.
  destruct (ho_node _ _ _ _ (Hok h Hh)) as (g & gt & Hg & Hgt & _). rewrite <-!(plen_sub G G' Hsub) by (by eapply elem_of_dom_2). by apply Hw.
Qed.

(** *** One call *)
Lemma list_delete_insert {B} i (x : B) (l : list B) : delete i (<[i := x]> l) = delete i l.
Proof. revert i. induction l as [|y l IH]; intros [|i]; simpl; [done..|]. by rewrite IH. Qed.
Lemma cinv_intro c locks own lv a G H :
  abs c a → AInv lv a G H (own_of own) → locks = lock_of <$> H → cfg_ok (a_cfg a) → all_wide a G H → sinv (MkClient c locks own).
Proof. intros. exists lv, a, G, H. by split. Qed.
(** A call that returns in a state of the invariant. *)
Lemma run_wp {B} (m : ST (SWACache A) B) c locks own : wp m (λ b c', sinv (MkClient c' (locks b) own)) c → ∃ s', with_cache locks own (m c) = Ok s' ∧ sinv s'.
Proof. intros (b & c' & E & Hs)%wp_ok. exists (MkClient c' (locks b) own). unfold with_cache. by rewrite E. Qed.

Section call.
Context (s : client A) (lv : gset nat) (a : ACache A) (G : gmap nat gnode) (H : list hold) (Hs : cinv s lv a G H).

Lemma run_match_ok key : swa_query_ok (sw_cfg (cl_cache s)) key → ∃ s', run (CMatch key) s = Ok s' ∧ sinv s'.
Proof using Hs.
  destruct Hs as [Hab HI Hl [Hon Hcomp Hw Hpg] Hwd]. rewrite (ab_cfg _ _ Hab). intros Hq. apply run_wp.
  eapply wp_swa_match_prefix; [exact Hab|exact HI|done..|]. intros c' a' G' vs n Hab' Hpost _. destruct (sp_inv _ _ _ _ _ _ _ _ _ Hpost) as [lv' HI'].
  pose proof (sp_frame _ _ _ _ _ _ _ _ _ Hpost) as Hf. eapply cinv_intro; [exact Hab'|exact HI'|done|by rewrite (tf_cfg _ _ Hf)|].
  eapply wide_same; [exact HI|apply Hf|apply Hf|apply plen_sub, Hpost|done].
Qed.
Lemma run_lock_ok n : in_tree (cl_cache s) n → node_open (cl_cache s) n = true → ∃ s', run (CLock n) s = Ok s' ∧ sinv s'.
Proof using Hs.
  destruct Hs as [Hab HI Hl [Hon Hcomp Hw Hpg] Hwd]. intros Hn Hopen. apply (in_tree_live _ _ _ _ _ _ Hab HI) in Hn as [g Hg].
  destruct (node_read _ _ _ _ _ _ Hab HI n g Hg) as (_ & _ & Hlk). apply run_wp. eapply wp_swa_inc_lock_ref; [exact Hab|exact HI|done|done|exact Hg|by apply Hlk|].
  intros c2 lv2 a2 u top Hab2 Hf Hwd' HI2. eapply cinv_intro; [exact Hab2|exact HI2|by rewrite fmap_cons, Hl|by rewrite (lf_cfg _ _ Hf)|].
  rewrite (lf_cfg _ _ Hf), (lf_root _ _ Hf). constructor; [by intros _|done].
Qed.
Lemma lock_hold i h : cl_locks s !! i = Some h → ∃ hd, H !! i = Some hd ∧ h = lock_of hd ∧ H ≡ₚ hd :: delete i H.
Proof using Hs. rewrite (ci_locks _ _ _ _ _ Hs), list_lookup_fmap. intros (hd & Hhd & ->)%fmap_Some. exists hd. split_and!; [done|done|]. by apply delete_Permutation. Qed.
Lemma run_unlock_ok i : is_Some (cl_locks s !! i) → ∃ s', run (CUnlock i) s = Ok s' ∧ sinv s'.
Proof using Hs.
  intros [h Hi]. destruct (lock_hold i h Hi) as (hd & Hhd & -> & Hperm). simpl. rewrite Hi. destruct Hs as [Hab HI Hl Hcf Hwd]. cbn [unwrap mbind result_bind].
  apply run_wp. simpl. eapply wp_swa_dec_lock_ref; [exact Hab|eapply AInv_perm; [exact Hperm|exact HI]|apply Hcf|].
  intros c' lv' a' Hab' Hf HI'. eapply cinv_intro; [exact Hab'|exact HI'|by rewrite Hl, list_fmap_delete|by rewrite (lf_cfg _ _ Hf)|].
  rewrite (lf_cfg _ _ Hf), (lf_root _ _ Hf). rewrite Hperm in Hwd. by apply Forall_cons in Hwd as [_ ?].
Qed.
Lemma run_unlock_window_ok i : (∃ h, cl_locks s !! i = Some h ∧ l_swa h = true) → ∃ s', run (CUnlockWindow i) s = Ok s' ∧ sinv s'.
Proof using Hs.
  intros (h & Hi & Hsw). destruct (lock_hold i h Hi) as (hd & Hhd & -> & Hperm). simpl. rewrite Hi. destruct Hs as [Hab HI Hl Hcf Hwd]. cbn [unwrap mbind result_bind].
  apply run_wp. simpl. eapply wp_dec_swa_lock_only; [exact Hab|eapply AInv_perm; [exact Hperm|exact HI]|done|apply Hcf|].
  intros c' lv' a' Hab' Hf _ HI'. set (hd' := MkHold (h_node hd) (h_uuid hd) (h_top hd) false) in *.
  eapply (cinv_intro _ _ _ _ _ _ (<[i := hd']> H)); [exact Hab'|eapply AInv_perm; [|exact HI']|by rewrite Hl, list_fmap_insert|by rewrite (wf_cfg _ _ Hf)|].
  2: { rewrite (wf_cfg _ _ Hf), (wf_root _ _ Hf). by apply Forall_insert. }
  rewrite (delete_Permutation (<[i := hd']> H) i hd'); [|apply list_lookup_insert_eq; by eapply lookup_lt_Some]. by rewrite list_delete_insert.
Qed.
Lemma run_evict_ok n w : ∃ s', run (CEvict n w) s = Ok s' ∧ sinv s'.
Proof using Hs.
  destruct Hs as [Hab HI Hl Hcf Hwd]. apply run_wp. eapply wp_swa_evict; [exact Hab|exact HI|apply Hcf|]. intros c' a' G' d f w' Hab' Hev _ _ _. destruct (ev_inv _ _ _ _ _ _ _ _ Hev) as [lv' HI'].
  pose proof (ev_shrinks _ _ _ _ _ _ _ _ Hev) as Hsh. eapply cinv_intro; [exact Hab'|exact HI'|done|by rewrite (sh_cfg _ _ _ _ Hsh)|].
  eapply (wide_back lv' a' G'); [exact HI'|symmetry; apply Hsh|symmetry; apply Hsh|apply Hsh|done].
Qed.

Lemma protected_node us prev : protected_prefix s us prev → prev ≤ length us → ∃ n g, G !! n = Some g ∧ g_path g = take prev us.
Proof using Hs.
  pose proof Hs as [Hab HI Hl _ _]. intros [->|(h & Hh & Hp)] Hle.
  - pose proof (to_groot (inv_tree _ _ _ (ai_tree _ _ _ _ _ HI))) as Hr. exists (a_root a), (MkG [] []). by rewrite take_0.
  - rewrite Hl in Hh. apply list_elem_of_fmap in Hh as (hd & -> & Hhd). pose proof (xi_holds _ _ _ _ _ _ _ (ai_swa _ _ _ _ _ HI)) as Hok. rewrite Forall_forall in Hok.
    destruct (ho_node _ _ _ _ (Hok hd Hhd)) as (g & gt & Hg & _). exists (h_node hd), g. split; [done|].
    destruct (node_read _ _ _ _ _ _ Hab HI _ g Hg) as (E & _). simpl in Hp. congruence.
Qed.
Lemma run_insert_ok key v prev ev : legal (CInsert key v prev ev) s → ∃ s', run (CInsert key v prev ev) s = Ok s' ∧ sinv s'.
Proof using Hs.
  intros (Hq & Hlen & Hprev & Hpp & Hsub & Hfits & Hback & Hal & Hev). destruct (protected_node _ _ Hpp Hprev) as (n0 & g0 & Hn0 & Hg0).
  destruct Hs as [Hab HI Hl Hcf Hwd]. rewrite (ab_cfg _ _ Hab) in *. rewrite (ab_alloc _ _ Hab) in Hback. set (us := swa_units (a_cfg a) key) in *.
  destruct (own_diff _ _ (own_nodup _ _ _ _ _ HI) Hsub) as [Ho Eown]. simpl. rewrite (ab_cfg _ _ Hab). apply run_wp.
  eapply (wp_swa_insert _ lv a G H (own_of (cl_own s)) key v prev ev n0 g0); [exact Hab|exact HI|apply Hcf|done| |done|].
  { split; try done. fold us. rewrite length_take. lia. }
  intros c' lv' a' G' r Hab' [HI' Hgr _ _] _ _. eapply cinv_intro; [exact Hab'|eapply AInv_own_ext; [exact Eown|exact HI']|done|by rewrite (gw_cfg _ _ _ _ Hgr)|].
  eapply wide_same; [exact HI|apply Hgr|apply Hgr|apply plen_paths, Hgr|done].
Qed.

(** The allocator changes under the tree. *)
Lemma set_alloc_ok al own : slots_ok (sview lv a) (sx a) al G (own_of own) → sinv (MkClient (set_sw_alloc al (cl_cache s)) (cl_locks s) own).
Proof using Hs.
  intros Hsl. destruct Hs as [Hab HI Hl Hcf Hwd]. eapply (cinv_intro _ _ _ lv (aset_alloc al a) G H); [by apply abs_set_alloc| |done|done|done]. destruct HI. by split.
Qed.
Lemma run_alloc_ok l al : legal (CAlloc l al) s → ∃ s', run (CAlloc l al) s = Ok s' ∧ sinv s'.
Proof using Hs.
  intros (Hal & Hnd & Hdis & Eu & Eb). simpl. eexists. split; [done|]. apply set_alloc_ok. pose proof Hs as [Hab HI _ _ _]. rewrite (ab_alloc _ _ Hab) in *.
  pose proof (ai_slots _ _ _ _ _ HI) as [Hok Hown Hcount Hfits Hback]. split; try done.
  - intros i. apply occ_nonneg.
  - intros i. specialize (Hcount i). unfold own_of in *. rewrite occ_app, (occ_NoDup i l Hnd), Eu. destruct (decide (i ∈ l)) as [Hi|Hi].
    + rewrite decide_False in Hcount by auto. rewrite decide_True by set_solver. lia.
    + rewrite (decide_ext _ (i ∈ sa_used (a_alloc a))) by set_solver. lia.
  - intros n i Hn Hi. rewrite Eb; [by apply Hback|]. intros Hil. specialize (Hdis i Hil).
    destruct (node_slots _ _ _ _ _ _ (ai_slots _ _ _ _ _ HI) Hn) as [_ Hnode]. by destruct (Hnode i Hi) as (? & _).
Qed.
Lemma run_free_ok l : legal (CFree l) s → ∃ s', run (CFree l) s = Ok s' ∧ sinv s'.
Proof using Hs.
  intros [Hsub Hfits]. pose proof Hs as [Hab HI _ _ _]. destruct (own_diff _ _ (own_nodup _ _ _ _ _ HI) Hsub) as [Ho Eown].
  destruct (free_own _ _ _ _ _ _ (ai_slots _ _ _ _ _ HI) Ho Hfits) as (al & Hf & Hsl & _). simpl. rewrite (ab_alloc _ _ Hab), Hf. eexists. split; [done|].
  apply set_alloc_ok. destruct Hsl. split; try done; intros i; rewrite <-Eown; done.
Qed.
Lemma run_free_swa_ok l : legal (CFreeSwa l) s → ∃ s', run (CFreeSwa l) s = Ok s' ∧ sinv s'.
Proof using Hs.
  intros (Hsub & Hfits & Hb). pose proof Hs as [Hab HI _ _ _]. rewrite (ab_alloc _ _ Hab) in Hb. destruct (own_diff _ _ (own_nodup _ _ _ _ _ HI) Hsub) as [Ho Eown].
  pose proof (ai_slots _ _ _ _ _ HI) as Hsl. destruct (owned_slots _ _ _ _ _ _ Hsl Ho) as (Hnd & _ & Hdis). pose proof Hsl as [Hok Hown Hcount Hfit Hback].
  destruct (sa_free_swa_ok (a_alloc a) l Hok Hnd Hfits Hb) as (al & Hf & Hal & Eu & Eb). simpl. rewrite (ab_alloc _ _ Hab), Hf. eexists. split; [done|].
  apply set_alloc_ok. split; try done.
  - intros i. by rewrite Eu.
  - intros n i Hn Hi. rewrite Eb, elem_of_difference, elem_of_list_to_set, (Hback n i Hn Hi). pose proof (Hdis n i Hn Hi). tauto.
Qed.
End call.

Lemma run_ok s call : sinv s → legal call s → ∃ s', run call s = Ok s' ∧ sinv s'.
Proof.
  intros (lv & a & G & H & Hs) Hleg. destruct call.
  - by eapply run_match_ok.
  - destruct Hleg. by eapply run_lock_ok.
  - by eapply run_unlock_ok.
  - by eapply run_unlock_window_ok.
  - by eapply run_evict_ok.
  - by eapply run_insert_ok.
  - by eapply run_alloc_ok.
  - by eapply run_free_ok.
  - by eapply run_free_swa_ok.
Qed.
Lemma reachable_sinv s : reachable s → sinv s.
Proof.
  induction 1 as [cf al c Hcf Eps Hal Hu Hi|s s' call _ IH Hleg Hr].
  - destruct (swa_init_ok cf al) as (c' & E & Hab & HI); [apply Hcf|done|done|done|]. assert (c' = c) as -> by congruence.
    eapply cinv_intro; [exact Hab|eapply AInv_own_ext; [|exact HI]; done|done|done|done].
  - destruct (run_ok s call IH Hleg) as (s'' & E & Hs). by assert (s'' = s') as <- by congruence.
Qed.
End client.

(** What the single calls do, as a client sees it. *)

(** [match_prefix] found [n]: the deepest node along [us] whose last window is whole. *)
Record swa_matched {A} (c : SWACache A) (us : list tunit) (vs : list Z) (n : nat) (c' : SWACache A) : Prop := {
  md_node : in_tree c' n;
  md_key : node_key c' n = Some (take (length vs) us);
  md_len : length vs ≤ length us;
  md_kv : node_kv c' n = Some vs;
  md_open : node_open c' n = true;
  md_best : ∀ q k, in_tree c' q → node_key c' q = Some k → k `prefix_of` us → node_open c' q = true → length k ≤ length vs;
  md_kept : ∀ q, in_tree c q → in_tree c' q ∧ node_key c' q = node_key c q ∧ node_kv c' q = node_kv c q ∧ (node_open c q = true → node_open c' q = true);
}.
(** [insert] put [us] into the tree; it had [r] tokens of it. *)
Record stored (ps : nat) {A} (c : SWACache A) (us : list tunit) (prev ev r : nat) (c' : SWACache A) : Prop := {
  st_cfg : sw_cfg c' = sw_cfg c;
  st_len : r ≤ length us;
  st_had : ∃ q k, in_tree c q ∧ node_key c q = Some k ∧ take r us `prefix_of` k;
  st_most : ∀ q k j, in_tree c q → node_key c q = Some k → r < j → j ≤ length us → j `mod` ps = 0 → ¬ take j us `prefix_of` k;
  st_whole : ev < length us → ∃ n, in_tree c' n ∧ node_key c' n = Some us;
  st_kept : ∀ q, in_tree c q → in_tree c' q ∧ node_key c' q = node_key c q;
  st_live : ∀ q k, q ∈ members c' → node_key c' q = Some k → k `prefix_of` us → prev < length k → ev < length k → q ∈ windows c';
  st_low : ∀ q k, in_tree c q → node_key c q = Some k → length k ≤ prev → node_kv c' q = node_kv c q;
}.
(** What stays with a lock: the node, its key and slots, and its last window. *)
Definition lock_kept {A} (c c' : SWACache A) (h : lock) : Prop :=
  in_tree c' (l_node h) ∧ node_key c' (l_node h) = node_key c (l_node h) ∧ node_kv c' (l_node h) = node_kv c (l_node h)
  ∧ (l_swa h = true → node_open c' (l_node h) = true).

Section calls.
Context {A : Type} {alloc : SWAAllocator A} {ps : nat} {laws : SWAAllocatorLaws A ps}.
Implicit Types (c : SWACache A) (a : ACache A) (G : gmap nat gnode) (H : list hold) (own : Z → Z) (lv : gset nat).

(** A lock of a window keeps tombstones out of it. *)
Lemma hold_window lv a G H own h w q : AInv lv a G H own → h ∈ H → h_swa h = true → wide w (a_root a) G h →
  on_path G (a_root a) (h_node h) q = true → plen G (h_node h) - plen G q < w → xt (sx a) q = false.
Proof.
  intros HI Hh Hsw Hwd Hq Hlt. destruct (xi_ok _ _ _ _ _ _ _ (ai_swa _ _ _ _ _ HI)) as [Htomb Hlock _ _ _ _].
  pose proof (on_path_inner (sview lv a) G _ _ Hq) as Hin. destruct (xt (sx a) q) eqn:Et; [|done]. exfalso.
  assert (0 < swa_holds (sview lv a) G H q)%Z as Hpos; [|rewrite <-(Hlock q Hin), (Htomb q Hin Et) in Hpos; lia].
  eapply (count_holds_pos _ _ h); [done|]. unfold in_window. simpl. rewrite Hsw, Hq. simpl. apply bool_decide_eq_true.
  pose proof (inv_tree _ _ _ (ai_tree _ _ _ _ _ HI)) as Ht. destruct (Hwd Hsw) as [E|Hw'].
  - destruct (hpar_node_ok _ _ _ Ht Hin) as (g & x & p & gp & px & Hg & _ & Hok & _). destruct (parent_plen _ _ _ _ _ _ _ _ Hg Hok) as [Epl Hp].
    pose proof (to_groot Ht) as Hr. simpl in Hr. rewrite E. unfold plen at 1. rewrite Hr. simpl. lia.
  - pose proof (on_path_plen _ _ _ _ Hq). lia.
Qed.
Lemma hold_open lv a G H own h w : AInv lv a G H own → h ∈ H → h_swa h = true → wide w (a_root a) G h → lockable w a G (h_node h) 0.
Proof. intros HI Hh Hsw Hwd q Hq Hlt. eapply hold_window; [exact HI|exact Hh|done|exact Hwd|done|lia]. Qed.

Section cinv.
Context (s : client A) (lv : gset nat) (a : ACache A) (G : gmap nat gnode) (H : list hold) (Hs : cinv s lv a G H).
Abbreviation c := (cl_cache s).
Abbreviation cf := (sw_cfg (cl_cache s)).

Lemma locks_open h : h ∈ cl_locks s → l_swa h = true → node_open c (l_node h) = true.
Proof using Hs.
  destruct Hs as [Hab HI Hl Hcf Hwd]. rewrite Hl. intros (hd & -> & Hhd)%list_elem_of_fmap Hsw. simpl in *.
  pose proof (xi_holds _ _ _ _ _ _ _ (ai_swa _ _ _ _ _ HI)) as Hok. rewrite Forall_forall in Hok, Hwd. destruct (ho_node _ _ _ _ (Hok hd Hhd)) as (g & _ & Hg & _).
  destruct (node_read _ _ _ _ _ _ Hab HI _ g Hg) as (_ & _ & E). apply E. by eapply hold_open; [exact HI|exact Hhd|done|apply Hwd].
Qed.

Lemma match_call key (us := swa_units cf key) : swa_query_ok cf key →
  ∃ vs n c' lv' a' G', swa_match_prefix key c = Ok ((vs, n), c') ∧ swa_matched c us vs n c' ∧ cinv (MkClient c' (cl_locks s) (cl_own s)) lv' a' G' H.
Proof using Hs.
  subst us. destruct Hs as [Hab HI Hl [Hon Hcomp Hw Hpg] Hwd]. rewrite (ab_cfg _ _ Hab). intros Hq. set (us := swa_units (a_cfg a) key).
  assert (wp (swa_match_prefix key) (λ m c', ∃ lv' a' G', swa_matched c us m.1 m.2 c' ∧ cinv (MkClient c' (cl_locks s) (cl_own s)) lv' a' G' H) c) as Hm.
  2: { apply wp_ok in Hm as ([vs n] & c' & E & lv' & a' & G' & ? & ?). by exists vs, n, c', lv', a', G'. }
  eapply wp_swa_match_prefix; [exact Hab|exact HI|done..|]. intros c' a' G' vs n Hab' Hpost _. destruct (sp_inv _ _ _ _ _ _ _ _ _ Hpost) as [lv' HI'].
  pose proof (sp_frame _ _ _ _ _ _ _ _ _ Hpost) as Hf. pose proof (tf_cfg _ _ Hf) as Ecf. pose proof (sp_node _ _ _ _ _ _ _ _ _ Hpost) as Hn. fold us in Hpost, Hn.
  exists lv', a', G'. simpl. split.
  - destruct (node_read _ _ _ _ _ _ Hab' HI' n _ Hn) as (Ek & Ev & Eo). simpl in Ek, Ev. rewrite Ecf in Eo.
    assert (length (take (length vs) us) = length vs) as El by (destruct (tree_path_shape _ _ _ _ (inv_tree _ _ _ (ai_tree _ _ _ _ _ HI')) Hn) as [_ E]; simpl in E; congruence).
    split; try done.
    + apply (in_tree_live _ _ _ _ _ _ Hab' HI'). eauto.
    + rewrite length_take in El. lia.
    + apply Eo, Hpost.
    + intros q k Hq' Hk Hp Ho. apply (in_tree_live _ _ _ _ _ _ Hab' HI') in Hq' as [gq Hgq]. destruct (node_read _ _ _ _ _ _ Hab' HI' q gq Hgq) as (Ekq & _ & Eoq).
      rewrite Ekq in Hk. injection Hk as <-. eapply (sp_max _ _ _ _ _ _ _ _ _ Hpost); [done|done|]. rewrite <-Ecf. by apply Eoq.
    + intros q Hq'. apply (in_tree_live _ _ _ _ _ _ Hab HI) in Hq' as [gq Hgq]. pose proof (lookup_weaken _ _ _ _ Hgq (rf_sub _ _ (sp_refines _ _ _ _ _ _ _ _ _ Hpost))) as Hgq'.
      destruct (node_read _ _ _ _ _ _ Hab HI q gq Hgq) as (-> & -> & Eoq). destruct (node_read _ _ _ _ _ _ Hab' HI' q gq Hgq') as (-> & -> & Eoq'). split_and!; [|done|done|].
      * apply (in_tree_live _ _ _ _ _ _ Hab' HI'). eauto.
      * intros Ho%Eoq. apply Eoq'. rewrite Ecf. eapply (sp_open _ _ _ _ _ _ _ _ _ Hpost); [by eapply elem_of_dom_2|done].
  - split; [exact Hab'|exact HI'|done|by rewrite Ecf|]. eapply wide_same; [exact HI|apply Hf|apply Hf|apply plen_sub, Hpost|done].
Qed.

(** The whole key can be locked afterwards, if its prefix was. *)
Lemma insert_open key v prev n0 g0 h lv' a' G' n g (us := swa_units (a_cfg a) key) (w := sliding_window_size (a_cfg a)) :
  handed_over a G (own_of (cl_own s)) us (take (length us) v) prev 0 n0 g0 → inserted H a G (own_of (cl_own s)) us (take (length us) v) prev 0 lv' a' G' →
  G' !! n = Some g → g_path g = us → h ∈ H → h_node h = n0 → h_swa h = true → lockable w a' G' n 0.
Proof using Hs.
  intros Hh [HI' Hgr Hnew Hfresh] Hg Eg Hin En Hsw q Hq Hlt. destruct Hs as [Hab HI Hl Hcf Hwd].
  assert (∃ gq, G' !! q = Some gq ∧ g_path gq `prefix_of` us ∧ q ≠ a_root a') as (gq & Hgq & Hp & Hqr).
  { unfold on_path in Hq. destruct (G' !! q) as [gq|]; [|done]. rewrite Hg in Hq. apply andb_prop in Hq as [Hp%bool_decide_eq_true Hr]. exists gq. rewrite <-Eg.
    split_and!; [done|done|]. intros ->. by rewrite bool_decide_true in Hr. }
  assert (plen G' q = length (g_path gq)) as Epq by (unfold plen; by rewrite Hgq). assert (plen G' n = length us) as Epn by (unfold plen; rewrite Hg; simpl; by rewrite Eg).
  assert (0 < length (g_path gq)) as Hpos.
  { assert (q ∈ inner (sview lv' a') G') as Hqi by (apply elem_of_inner; eauto). destruct (hpar_node_ok _ _ _ (inv_tree _ _ _ (ai_tree _ _ _ _ _ HI')) Hqi) as (g' & x & p & gp & px & Hg' & _ & Hok & _).
    destruct (parent_plen _ _ _ _ _ _ _ _ Hg' Hok) as [Epl Hp0]. lia. }
  destruct (decide (prev < length (g_path gq))) as [Hlong|Hshort]; [by eapply Hfresh|].
  destruct (Hnew q gq Hgq) as [Hd|]; [|lia]. apply elem_of_dom in Hd as [gq0 Hgq0]. destruct (gw_paths _ _ _ _ Hgr q gq0 Hgq0) as (gq' & Hgq' & Epath). assert (gq' = gq) as -> by congruence.
  apply (gw_live _ _ _ _ Hgr); [by eapply elem_of_dom_2|]. rewrite Forall_forall in Hwd. rewrite (gw_root _ _ _ _ Hgr) in Hqr.
  assert (g_path gq0 `prefix_of` g_path g0) as Hp0.
  { rewrite <-Epath, (hd_path _ _ _ _ _ _ _ _ _ Hh). eapply prefix_le; [exact Hp|apply prefix_take|]. rewrite length_take. pose proof (hd_prev _ _ _ _ _ _ _ _ _ Hh). lia. }
  pose proof (hd_node _ _ _ _ _ _ _ _ _ Hh) as Hn0. assert (plen G n0 = prev) as Epn0.
  { unfold plen. rewrite Hn0. simpl. rewrite (hd_path _ _ _ _ _ _ _ _ _ Hh), length_take. pose proof (hd_prev _ _ _ _ _ _ _ _ _ Hh). lia. }
  assert (plen G q = length (g_path gq)) as Eq0 by (unfold plen; rewrite Hgq0; simpl; by rewrite Epath).
  eapply (hold_window _ _ _ _ _ h w); [exact HI|exact Hin|done|by apply Hwd| |].
  - rewrite En. by eapply (prefix_on_path (sview lv a)).
  - rewrite En, Epn0, Eq0. pose proof (hd_prev _ _ _ _ _ _ _ _ _ Hh). lia.
Qed.

Lemma insert_call key v prev ev (us := swa_units cf key) : legal (CInsert key v prev ev) s →
  ∃ r c' lv' a' G', swa_insert key (Some v) prev ev c = Ok (r, c') ∧ stored ps c us prev ev r c'
    ∧ cinv (MkClient c' (cl_locks s) (list_difference (cl_own s) (given cf key v prev))) lv' a' G' H
    ∧ (ev = 0 → 0 < length us → ∀ h, h ∈ cl_locks s → l_swa h = true → node_key c (l_node h) = Some (take prev us) →
       ∃ n, in_tree c' n ∧ node_key c' n = Some us ∧ node_open c' n = true).
Proof using Hs.
  intros Hleg. pose proof Hleg as (Hq & Hlen & Hprev & Hpp & Hsub & Hfits & Hback & Hal & Hev). destruct (protected_node _ _ _ _ _ Hs _ _ Hpp Hprev) as (n0 & g0 & Hn0 & Hg0).
  pose proof Hs as [Hab HI Hl Hcf Hwd]. subst us. rewrite (ab_cfg _ _ Hab) in *. rewrite (ab_alloc _ _ Hab) in Hback. set (us := swa_units (a_cfg a) key) in *.
  destruct (own_diff _ _ (own_nodup _ _ _ _ _ HI) Hsub) as [Ho Eown].
  assert (handed_over a G (own_of (cl_own s)) us (take (length us) v) prev ev n0 g0) as Hh by (split; try done; rewrite length_take; lia).
  assert (wp (swa_insert key (Some v) prev ev) (λ r c', ∃ lv' a' G', stored ps c us prev ev r c'
    ∧ cinv (MkClient c' (cl_locks s) (list_difference (cl_own s) (given (a_cfg a) key v prev))) lv' a' G' H
    ∧ (ev = 0 → 0 < length us → ∀ h, h ∈ cl_locks s → l_swa h = true → node_key c (l_node h) = Some (take prev us) →
       ∃ n, in_tree c' n ∧ node_key c' n = Some us ∧ node_open c' n = true)) c) as Hi.
  2: { apply wp_ok in Hi as (r & c' & E & lv' & a' & G' & ?). by exists r, c', lv', a', G'. }
  eapply (wp_swa_insert _ lv a G H (own_of (cl_own s)) key v prev ev n0 g0); [exact Hab|exact HI|apply Hcf|done|exact Hh|done|].
  intros c' lv' a' G' r Hab' Hins (vs & [Hle Hc Hmax] & El) Hwhole. fold us in Hins, Hwhole, Hle, Hc, Hmax. pose proof Hins as [HI' Hgr Hnew Hfresh Hlow]. pose proof (ai_ps _ _ _ _ _ HI) as Eps.
  assert (∀ q g, G !! q = Some g → in_tree c q) as Hlive by (intros q g' Hg'; apply (in_tree_live _ _ _ _ _ _ Hab HI); eauto).
  assert (∀ q g', G' !! q = Some g' → in_tree c' q) as Hlive' by (intros q g' Hg'; apply (in_tree_live _ _ _ _ _ _ Hab' HI'); eauto).
  exists lv', a', G'. split_and!.
  - split.
    + rewrite (ab_cfg _ _ Hab'), (ab_cfg _ _ Hab). apply Hgr.
    + lia.
    + rewrite <-El. destruct Hc as [->|(q & gq & k & Hgq & Hk & Hka & Eus & _)].
      * exists (sw_root c), []. split_and!; [by left| |apply prefix_nil]. pose proof (to_groot (inv_tree _ _ _ (ai_tree _ _ _ _ _ HI))) as Hr. simpl in Hr. rewrite (ab_root _ _ Hab).
        by destruct (node_read _ _ _ _ _ _ Hab HI _ _ Hr) as (-> & _).
      * exists q, (g_path gq). destruct (node_read _ _ _ _ _ _ Hab HI _ _ Hgq) as (-> & _). split_and!; [by eapply Hlive|done|]. rewrite Eus. apply prefix_take.
    + intros q k j Hq' Hk Hj Hju Hja Hp. apply (in_tree_live _ _ _ _ _ _ Hab HI) in Hq' as [gq Hgq]. destruct (node_read _ _ _ _ _ _ Hab HI _ _ Hgq) as (E & _). rewrite E in Hk. injection Hk as <-.
      apply (Hmax j (take j (g_vals gq))); [lia|]. exists q, gq, j. apply prefix_take_id in Hp. rewrite length_take, Nat.min_l in Hp by done.
      destruct (tree_path_shape _ _ _ _ (inv_tree _ _ _ (ai_tree _ _ _ _ _ HI)) Hgq) as [_ Hl2]. assert (j ≤ length (g_path gq)) as Hjl.
      { apply (f_equal length) in Hp. rewrite !length_take in Hp. lia. }
      split_and!; try done; lia.
    + intros Hlt. destruct Hwhole as (n & g & Hg & Eg); [lia|]. exists n. destruct (node_read _ _ _ _ _ _ Hab' HI' n g Hg) as (-> & _). rewrite Eg. split; [by eapply Hlive'|done].
    + intros q Hq'. apply (in_tree_live _ _ _ _ _ _ Hab HI) in Hq' as [gq Hgq]. destruct (gw_paths _ _ _ _ Hgr q gq Hgq) as (gq' & Hgq' & Ep).
      destruct (node_read _ _ _ _ _ _ Hab HI _ _ Hgq) as (-> & _). destruct (node_read _ _ _ _ _ _ Hab' HI' _ _ Hgq') as (-> & _). rewrite Ep. split; [by eapply Hlive'|done].
    + intros q k Hq' Hk Hp Hl1 Hl2. rewrite (members_inner _ _ _ _ _ _ Hab' HI') in Hq'. pose proof Hq' as [[gq Hgq] _]%elem_of_inner.
      destruct (node_read _ _ _ _ _ _ Hab' HI' _ _ Hgq) as (E & _). rewrite E in Hk. injection Hk as <-. apply (windows_inner _ _ _ _ _ _ Hab' HI'). split; [done|]. by eapply Hfresh.
    + intros q k Hq' Hk Hl1. apply (in_tree_live _ _ _ _ _ _ Hab HI) in Hq' as [gq Hgq]. destruct (node_read _ _ _ _ _ _ Hab HI _ _ Hgq) as (E & -> & _).
      rewrite E in Hk. injection Hk as <-. by destruct (node_read _ _ _ _ _ _ Hab' HI' _ _ (Hlow q gq Hgq Hl1)) as (_ & -> & _).
  - split; [exact Hab'|by eapply AInv_own_ext; [exact Eown|]|done|by rewrite (gw_cfg _ _ _ _ Hgr)|]. eapply wide_same; [exact HI|apply Hgr|apply Hgr|apply plen_paths, Hgr|done].
  - intros -> Hpos h Hhl Hsw Hk. destruct Hwhole as (n & g & Hg & Eg); [lia|]. exists n. destruct (node_read _ _ _ _ _ _ Hab' HI' n g Hg) as (-> & _ & Eo). rewrite Eg.
    split_and!; [by eapply Hlive'|done|]. apply Eo. rewrite Hl in Hhl. apply list_elem_of_fmap in Hhl as (hd & -> & Hhd). simpl in *.
    pose proof (xi_holds _ _ _ _ _ _ _ (ai_swa _ _ _ _ _ HI)) as Hok. rewrite Forall_forall in Hok. destruct (ho_node _ _ _ _ (Hok hd Hhd)) as (gh & _ & Hgh & _).
    destruct (node_read _ _ _ _ _ _ Hab HI _ gh Hgh) as (Ekh & _). rewrite (gw_cfg _ _ _ _ Hgr).
    eapply (insert_open key v prev (h_node hd) gh hd); [|exact Hins|exact Hg|exact Eg|exact Hhd|done|done]. destruct Hh. split; try done. rewrite Ekh in Hk. by injection Hk.
Qed.

(** A lock keeps its node through a change that keeps the locks. *)
Lemma keeps_lock c' locks' (owns : list Z) lv' a' G' H' hd :
  cinv (MkClient c' locks' owns) lv' a' G' H' → hd ∈ H → hd ∈ H' → (∀ q g, G !! q = Some g → is_Some (G' !! q) → G' !! q = Some g) → lock_kept c c' (lock_of hd).
Proof using Hs.
  intros Hs' Hin Hin' HG. pose proof Hs as [Hab HI _ _ _]. pose proof Hs' as [Hab' HI' Hl' _ _]. simpl in Hab', HI', Hl'.
  pose proof (xi_holds _ _ _ _ _ _ _ (ai_swa _ _ _ _ _ HI)) as Hok. pose proof (xi_holds _ _ _ _ _ _ _ (ai_swa _ _ _ _ _ HI')) as Hok'. rewrite Forall_forall in Hok, Hok'.
  destruct (ho_node _ _ _ _ (Hok hd Hin)) as (g & _ & Hg & _). destruct (ho_node _ _ _ _ (Hok' hd Hin')) as (g' & _ & Hg' & _).
  assert (g' = g) as -> by (specialize (HG _ _ Hg (mk_is_Some _ _ Hg')); congruence).
  destruct (node_read _ _ _ _ _ _ Hab HI _ g Hg) as (Ek & Ev & _). destruct (node_read _ _ _ _ _ _ Hab' HI' _ g Hg') as (Ek' & Ev' & _). unfold lock_kept. simpl. rewrite Ek, Ev, Ek', Ev'.
  split_and!; [|done|done|].
  - apply (in_tree_live _ _ _ _ _ _ Hab' HI'). eauto.
  - pose proof Hs' as Hc. intros Hsw. destruct Hc as [_ _ _ _ Hwd']. rewrite Forall_forall in Hwd'. destruct (node_read _ _ _ _ _ _ Hab' HI' _ g Hg') as (_ & _ & E). apply E.
    by eapply hold_open; [exact HI'|exact Hin'|done|apply Hwd'].
Qed.
Lemma locks_hold h : h ∈ cl_locks s → lock_kept c c h.
Proof using Hs.
  pose proof Hs as [_ _ Hl _ _]. rewrite Hl. intros (hd & -> & Hhd)%list_elem_of_fmap. assert (cinv (MkClient c (cl_locks s) (cl_own s)) lv a G H) as Hs' by (by destruct s).
  by eapply keeps_lock; [exact Hs'|..].
Qed.

Lemma evict_call nt st :
  ∃ f w c' lv' a' G', swa_evict nt st c = Ok ((f, w), c') ∧ cinv (MkClient c' (cl_locks s) (cl_own s)) lv' a' G' H
    ∧ (0 <= f <= full_evictable_size_ c - full_evictable_size_ c')%Z ∧ w = (swa_evictable_size_ c - swa_evictable_size_ c')%Z
    ∧ full_protected_size_ c' = full_protected_size_ c ∧ swa_protected_size_ c' = swa_protected_size_ c
    ∧ ((nt <= f)%Z ∨ full_evictable_size_ c' = 0%Z) ∧ ((st <= w)%Z ∨ swa_evictable_size_ c' = 0%Z)
    ∧ (∀ h, h ∈ cl_locks s → lock_kept c c' h)
    ∧ ∀ x, x ∈ cl_own s → (x ∈ sa_backed (sw_alloc c') ↔ x ∈ sa_backed (sw_alloc c)).
Proof using Hs.
  pose proof Hs as [Hab HI Hl Hcf Hwd].
  assert (wp (swa_evict nt st) (λ r c', ∃ lv' a' G', cinv (MkClient c' (cl_locks s) (cl_own s)) lv' a' G' H
    ∧ (0 <= r.1 <= full_evictable_size_ c - full_evictable_size_ c')%Z ∧ r.2 = (swa_evictable_size_ c - swa_evictable_size_ c')%Z
    ∧ full_protected_size_ c' = full_protected_size_ c ∧ swa_protected_size_ c' = swa_protected_size_ c
    ∧ ((nt <= r.1)%Z ∨ full_evictable_size_ c' = 0%Z) ∧ ((st <= r.2)%Z ∨ swa_evictable_size_ c' = 0%Z)
    ∧ (∀ h, h ∈ cl_locks s → lock_kept c c' h) ∧ ∀ x, x ∈ cl_own s → (x ∈ sa_backed (sw_alloc c') ↔ x ∈ sa_backed (sw_alloc c))) c) as He.
  2: { apply wp_ok in He as ([f w] & c' & E & lv' & a' & G' & ?). by exists f, w, c', lv', a', G'. }
  eapply wp_swa_evict; [exact Hab|exact HI|apply Hcf|]. intros c' a' G' d f w Hab' Hev Hf Hnt Hst. destruct (ev_inv _ _ _ _ _ _ _ _ Hev) as [lv' HI'].
  pose proof (ev_shrinks _ _ _ _ _ _ _ _ Hev) as Hsh. exists lv', a', G'. simpl.
  assert (cinv (MkClient c' (cl_locks s) (cl_own s)) lv' a' G' H) as Hs'.
  { split; [exact Hab'|exact HI'|done|by rewrite (sh_cfg _ _ _ _ Hsh)|]. eapply (wide_back lv' a' G'); [exact HI'|symmetry; apply Hsh|symmetry; apply Hsh|apply Hsh|done]. }
  rewrite (ab_fev _ _ Hab), (ab_sev _ _ Hab), (ab_fpr _ _ Hab), (ab_spr _ _ Hab), (ab_fev _ _ Hab'), (ab_sev _ _ Hab'), (ab_fpr _ _ Hab'), (ab_spr _ _ Hab').
  rewrite (sh_fpr _ _ _ _ Hsh), (sh_spr _ _ _ _ Hsh). rewrite (ev_full _ _ _ _ _ _ _ _ Hev), (ev_swa _ _ _ _ _ _ _ _ Hev) in *. split_and!; try done; try lia.
  2: { intros x Hx. rewrite (ab_alloc _ _ Hab), (ab_alloc _ _ Hab'). apply (ev_back _ _ _ _ _ _ _ _ Hev). unfold own_of. apply occ_in_pos in Hx. lia. }
  intros h. rewrite Hl. intros (hd & -> & Hhd)%list_elem_of_fmap. eapply keeps_lock; [exact Hs'|done|done|].
  intros q g Hg [g' Hg']. pose proof (lookup_weaken _ _ _ _ Hg' (sh_sub _ _ _ _ Hsh)). congruence.
Qed.

Lemma lock_call n : in_tree c n → node_open c n = true →
  ∃ u c' lv' a' H', swa_inc_lock_ref n c = Ok (u, c') ∧ cinv (MkClient c' (MkLock n u true :: cl_locks s) (cl_own s)) lv' a' G H'
    ∧ ∀ q, in_tree c q → in_tree c' q ∧ node_key c' q = node_key c q ∧ node_kv c' q = node_kv c q.
Proof using Hs.
  pose proof Hs as [Hab HI Hl Hcf Hwd]. intros [g Hg]%(in_tree_live _ _ _ _ _ _ Hab HI) Hopen.
  destruct (node_read _ _ _ _ _ _ Hab HI n g Hg) as (_ & _ & Hlk).
  assert (wp (swa_inc_lock_ref n) (λ u c', ∃ lv' a' H', cinv (MkClient c' (MkLock n u true :: cl_locks s) (cl_own s)) lv' a' G H'
    ∧ ∀ q, in_tree c q → in_tree c' q ∧ node_key c' q = node_key c q ∧ node_kv c' q = node_kv c q) c) as He.
  2: { apply wp_ok in He as (u & c' & E & lv' & a' & H' & ?). by exists u, c', lv', a', H'. }
  eapply wp_swa_inc_lock_ref; [exact Hab|exact HI|apply Hcf|apply Hcf|exact Hg|by apply Hlk|].
  intros c2 lv2 a2 u top Hab2 Hf Hwd' HI2. exists lv2, a2, (MkHold n u top true :: H). split.
  - split; [exact Hab2|exact HI2|by rewrite fmap_cons, <-Hl|by rewrite (lf_cfg _ _ Hf)|]. rewrite (lf_cfg _ _ Hf), (lf_root _ _ Hf). constructor; [by intros _|done].
  - intros q [gq Hgq]%(in_tree_live _ _ _ _ _ _ Hab HI). destruct (node_read _ _ _ _ _ _ Hab HI q gq Hgq) as (-> & -> & _). destruct (node_read _ _ _ _ _ _ Hab2 HI2 q gq Hgq) as (-> & -> & _).
    split_and!; [|done|done]. apply (in_tree_live _ _ _ _ _ _ Hab2 HI2). eauto.
Qed.
Lemma unlock_call i h : cl_locks s !! i = Some h →
  ∃ c' lv' a', swa_dec_lock_ref (l_node h) (l_uuid h) (negb (l_swa h)) c = Ok (tt, c') ∧ cinv (MkClient c' (delete i (cl_locks s)) (cl_own s)) lv' a' G (delete i H)
    ∧ ∀ q, in_tree c q → in_tree c' q ∧ node_key c' q = node_key c q ∧ node_kv c' q = node_kv c q ∧ (node_open c q = true → node_open c' q = true).
Proof using Hs.
  intros Hi. destruct (lock_hold _ _ _ _ _ Hs i h Hi) as (hd & Hhd & -> & Hperm). pose proof Hs as [Hab HI Hl Hcf Hwd].
  assert (wp (swa_dec_lock_ref (h_node hd) (h_uuid hd) (negb (h_swa hd))) (λ _ c', ∃ lv' a', cinv (MkClient c' (delete i (cl_locks s)) (cl_own s)) lv' a' G (delete i H)
    ∧ ∀ q, in_tree c q → in_tree c' q ∧ node_key c' q = node_key c q ∧ node_kv c' q = node_kv c q ∧ (node_open c q = true → node_open c' q = true)) c) as He.
  2: { apply wp_ok in He as ([] & c' & E & lv' & a' & ?). by exists c', lv', a'. }
  eapply wp_swa_dec_lock_ref; [exact Hab|eapply AInv_perm; [exact Hperm|exact HI]|apply Hcf|]. intros c' lv' a' Hab' Hf HI'. exists lv', a'. split.
  - split; [exact Hab'|exact HI'|by rewrite Hl, list_fmap_delete|by rewrite (lf_cfg _ _ Hf)|]. rewrite (lf_cfg _ _ Hf), (lf_root _ _ Hf). rewrite Hperm in Hwd. by apply Forall_cons in Hwd as [_ ?].
  - intros q [gq Hgq]%(in_tree_live _ _ _ _ _ _ Hab HI). destruct (node_read _ _ _ _ _ _ Hab HI q gq Hgq) as (-> & -> & Eo). destruct (node_read _ _ _ _ _ _ Hab' HI' q gq Hgq) as (-> & -> & Eo').
    split_and!; [|done|done|]. { apply (in_tree_live _ _ _ _ _ _ Hab' HI'). eauto. }
    intros Ho%Eo. apply Eo'. rewrite (lf_cfg _ _ Hf). intros r Hr Hlt. rewrite (frame_xt _ _ _ Hf). apply Ho; [by rewrite <-(lf_root _ _ Hf)|done].
Qed.
Lemma unlock_window_call i h : cl_locks s !! i = Some h → l_swa h = true →
  ∃ c' lv' a', dec_swa_lock_only (l_node h) (l_uuid h) c = Ok (tt, c')
    ∧ cinv (MkClient c' (<[i := MkLock (l_node h) (l_uuid h) false]> (cl_locks s)) (cl_own s)) lv' a' G (<[i := MkHold (l_node h) (l_uuid h) (from_option h_top 0 (H !! i)) false]> H)
    ∧ (∀ q, in_tree c q → in_tree c' q ∧ node_key c' q = node_key c q ∧ node_kv c' q = node_kv c q)
    ∧ (∀ x, x ∈ cl_own s → (x ∈ sa_backed (sw_alloc c') ↔ x ∈ sa_backed (sw_alloc c))) ∧ sw_cfg c' = sw_cfg c.
Proof using Hs.
  intros Hi Hsw. destruct (lock_hold _ _ _ _ _ Hs i h Hi) as (hd & Hhd & -> & Hperm). pose proof Hs as [Hab HI Hl Hcf Hwd]. simpl in Hsw. rewrite Hhd. simpl.
  set (hd' := MkHold (h_node hd) (h_uuid hd) (h_top hd) false).
  assert (wp (dec_swa_lock_only (h_node hd) (h_uuid hd)) (λ _ c', ∃ lv' a', cinv (MkClient c' (<[i := MkLock (h_node hd) (h_uuid hd) false]> (cl_locks s)) (cl_own s)) lv' a' G (<[i := hd']> H)
    ∧ (∀ q, in_tree c q → in_tree c' q ∧ node_key c' q = node_key c q ∧ node_kv c' q = node_kv c q)
    ∧ (∀ x, x ∈ cl_own s → (x ∈ sa_backed (sw_alloc c') ↔ x ∈ sa_backed (sw_alloc c))) ∧ sw_cfg c' = sw_cfg c) c) as He.
  2: { apply wp_ok in He as ([] & c' & E & lv' & a' & ?). by exists c', lv', a'. }
  eapply wp_dec_swa_lock_only; [exact Hab|eapply AInv_perm; [exact Hperm|exact HI]|done|apply Hcf|]. intros c' lv' a' Hab' Hf Hb HI'. exists lv', a'.
  assert (AInv lv' a' G (<[i := hd']> H) (own_of (cl_own s))) as HI2.
  { eapply AInv_perm; [|exact HI']. rewrite (delete_Permutation (<[i := hd']> H) i hd'); [|apply list_lookup_insert_eq; by eapply lookup_lt_Some]. by rewrite list_delete_insert. }
  split_and!.
  - split; [exact Hab'|exact HI2|by rewrite Hl, list_fmap_insert|by rewrite (wf_cfg _ _ Hf)|]. rewrite (wf_cfg _ _ Hf), (wf_root _ _ Hf). by apply Forall_insert.
  - intros q [gq Hgq]%(in_tree_live _ _ _ _ _ _ Hab HI). destruct (node_read _ _ _ _ _ _ Hab HI q gq Hgq) as (-> & -> & _). destruct (node_read _ _ _ _ _ _ Hab' HI2 q gq Hgq) as (-> & -> & _).
    split_and!; [|done|done]. apply (in_tree_live _ _ _ _ _ _ Hab' HI2). eauto.
  - intros x Hx. rewrite (ab_alloc _ _ Hab), (ab_alloc _ _ Hab'). apply Hb. unfold own_of. apply occ_in_pos in Hx. lia.
  - by rewrite (ab_cfg _ _ Hab), (ab_cfg _ _ Hab'), (wf_cfg _ _ Hf).
Qed.
End cinv.

(** *** Where the slots are *)
#[global] Instance concat_perm {B} : Proper ((≡ₚ) ==> (≡ₚ)) (concat (A:=B)).
Proof. intros l l'. induction 1 as [|x l l' _ IH|x y l|l1 l2 l3 _ IH1 _ IH2]; simpl; [done|by rewrite IH|rewrite !(assoc (++)); by rewrite (comm (++) y)|by etrans]. Qed.
Lemma reachable_slots s : reachable s → cached_slots (cl_cache s) ++ cl_own s ≡ₚ elements (sa_used (sw_alloc (cl_cache s))).
Proof.
  intros Hr. destruct (reachable_sinv s Hr) as (lv & a & G & H & [Hab HI _ _ _]). set (c := cl_cache s) in *.
  assert (∀ i, occ i (cached_slots c ++ cl_own s) = if decide (i ∈ sa_used (sw_alloc c)) then 1%Z else 0%Z) as Hc.
  { intros i. rewrite occ_app, (cached_count _ _ _ _ _ _ Hab HI), (ab_alloc _ _ Hab). apply (sl_count _ _ _ _ _ (ai_slots _ _ _ _ _ HI)). }
  apply NoDup_Permutation; [apply occ_le_NoDup; intros i; rewrite Hc; case_decide; lia|apply NoDup_elements|]. intros i. rewrite elem_of_elements.
  specialize (Hc i). destruct (decide (i ∈ sa_used (sw_alloc c))) as [Hi|Hi]; (split; [|try done]).
  - done.
  - intros _. destruct (decide (i ∈ cached_slots c ++ cl_own s)) as [|Hn]; [done|]. exfalso. apply occ_notin in Hn. lia.
  - intros Hin%occ_in_pos. lia.
Qed.
(** The window slots are behind the nodes that are no tombstones and behind slots of requests. *)
Lemma reachable_windows s : reachable s → (∀ i, i ∈ sa_backed (sw_alloc (cl_cache s)) → i ∈ sa_used (sw_alloc (cl_cache s))) →
  window_slots (cl_cache s) ++ filter (λ i, i ∈ sa_backed (sw_alloc (cl_cache s))) (cl_own s) ≡ₚ elements (sa_backed (sw_alloc (cl_cache s))).
Proof.
  intros Hr Hbu. pose proof (reachable_slots s Hr) as Hsl. destruct (reachable_sinv s Hr) as (lv & a & G & H & [Hab HI _ _ _]). set (c := cl_cache s) in *.
  assert (cached_slots c ≡ₚ window_slots c ++ concat (value_at c <$> elements (members c ∖ windows c))) as Hsplit.
  { assert (windows c ⊆ members c) as Hsub by (intros n [Hn _]%(windows_inner _ _ _ _ _ _ Hab HI); by rewrite (members_inner _ _ _ _ _ _ Hab HI)).
    unfold cached_slots, window_slots. rewrite <-concat_app, <-fmap_app. apply concat_perm, fmap_Permutation. rewrite <-elements_disj_union by set_solver. by rewrite <-union_difference_L. }
  assert (NoDup (cached_slots c ++ cl_own s)) as Hnd by (rewrite Hsl; apply NoDup_elements). pose proof Hnd as (Hndc & Hdis & Hndo)%NoDup_app.
  assert (∀ i, i ∈ window_slots c → i ∈ cached_slots c) as Hwc by (intros i Hi; rewrite Hsplit, elem_of_app; by left).
  apply NoDup_Permutation; [|apply NoDup_elements|].
  - apply NoDup_app. split_and!; [rewrite Hsplit in Hndc; by apply NoDup_app in Hndc as (? & _)| |by apply NoDup_filter].
    intros i Hi [_ Ho]%list_elem_of_filter. by apply (Hdis i); [apply Hwc|].
  - intros i. rewrite elem_of_app, list_elem_of_filter, elem_of_elements. pose proof (cached_backed _ _ _ _ _ _ Hab HI i) as Hcb. split.
    + intros [Hw|[Hb _]]; [|done]. apply Hcb; auto.
    + intros Hb. assert (i ∈ cached_slots c ++ cl_own s) as [Hi|Hi]%elem_of_app by (rewrite Hsl; by apply elem_of_elements, Hbu); [left; by apply Hcb|by right].
Qed.
End calls.
