(* ===== verification/SwaReq.v ===== *)
(** Requests and the sliding-window cache: [cache_finished_req] and
    [cache_unfinished_req] of mem_cache/swa_radix_cache.py, and [maybe_evict_swa] of
    managers/schedule_batch.py, which gives up the window slots and the window locks the
    requests of a decode batch have left behind. *)
From S2P Require Import Prelude RadixKey TreeNode EvictPolicy RadixCache RadixInv RadixSplit RadixLeaf RadixLock RadixSpec RadixOps RadixMatch RadixLockOps RadixTotal ReqPool.
From S2P Require Import SwaLru SwaCache SwaAbs SwaInv SwaOps SwaNodes SwaEvict SwaLocks SwaMatch SwaRevive SwaInsert SwaSpec SwaReach.
From stdpp Require Import options.

(** A request with its attributes for the window pool. *)
Record SwaReq := MkSwaReq { sr_req : Req; swa_evicted_seqlen : nat; swa_uuid_for_lock : option Z; swa_prefix_lock_released : bool }.
Record SWorld (A : Type) := MkSWorld { sw_cache : SWACache A; sw_pool : ReqToTokenPool }.
Arguments MkSWorld {A}. Arguments sw_cache {A}. Arguments sw_pool {A}.

Section req.
Context {A : Type} {alloc : SWAAllocator A}.
Abbreviation W := (ST (SWorld A)).

Definition in_swa {B} (m : ST (SWACache A) B) : W B := λ w,
  match m (sw_cache w) with Ok (b, c) => Ok (b, MkSWorld c (sw_pool w)) | Raise e => Raise e | Running => Running end.
Definition in_rows (f : ReqToTokenPool → result ReqToTokenPool) : W unit := λ w,
  match f (sw_pool w) with Ok p => Ok (tt, MkSWorld (sw_cache w) p) | Raise e => Raise e | Running => Running end.
(** [req_to_token_pool.req_to_token[req.req_pool_idx]] *)
Definition swa_row (req : Req) : W (list Z) :=
  idx ← st_lift (unwrap TypeError (req_pool_idx req)); p ← st_gets sw_pool; st_lift (get_row p idx).
Definition swa_req_key (req : Req) (toks : list Z) : W RadixKey :=
  cf ← st_gets (λ w, sw_cfg (sw_cache w));
  st_lift (page_aligned (MkRadixKey toks (req_extra_key req) (sw_eagle cf)) (sw_page_size cf)).
(** [dec_lock_ref(req.last_node, ...)], then the flag is reset. *)
Definition unlock_req (r : SwaReq) : W SwaReq :=
  n ← st_lift (unwrap AttributeError (last_node (sr_req r)));
  _ ← in_swa (swa_dec_lock_ref n (swa_uuid_for_lock r) (swa_prefix_lock_released r));
  mret (MkSwaReq (sr_req r) (swa_evicted_seqlen r) (swa_uuid_for_lock r) false).

Definition swa_cache_finished_req (strip : bool) (r : SwaReq) (is_insert : bool) : W SwaReq :=
  cf ← st_gets (λ w, sw_cfg (sw_cache w));
  pop ← st_lift (pop_committed_kv_cache strip (sr_req r));
  let '(kv_committed_len, req) := pop in
  let r := MkSwaReq req (swa_evicted_seqlen r) (swa_uuid_for_lock r) (swa_prefix_lock_released r) in
  row ← swa_row req;
  let kv_indices := take kv_committed_len row in
  if sw_disable cf then _ ← in_swa (free kv_indices); mret r
  else
    let token_ids := take kv_committed_len (origin_input_ids req ++ output_ids req) in
    radix_key ← swa_req_key req token_ids;
    let page_aligned_len := key_len radix_key in
    let values := take page_aligned_len kv_indices in
    let old_prefix_len := cache_protected_len req in
    _ ← (if is_insert : bool then _ ← in_swa (swa_insert radix_key (Some values) old_prefix_len (swa_evicted_seqlen r)); mret tt
         else in_swa (free (py_slice old_prefix_len page_aligned_len kv_indices)));
    _ ← in_swa (free (drop page_aligned_len kv_indices));
    unlock_req r.

Definition swa_cache_unfinished_req (r : SwaReq) : W SwaReq :=
  cf ← st_gets (λ w, sw_cfg (sw_cache w));
  let req := sr_req r in
  row ← swa_row req;
  let token_ids := fill_ids req in
  let kv_indices := take (length token_ids) row in
  if sw_disable cf then
    mret (MkSwaReq (set_prefix kv_indices (cache_protected_len req) (last_node req) req) (swa_evicted_seqlen r) (swa_uuid_for_lock r) (swa_prefix_lock_released r))
  else
    radix_key ← swa_req_key req token_ids;
    let values := take (key_len radix_key) kv_indices in
    let old_prefix_len := cache_protected_len req in
    new_prefix_len ← in_swa (swa_insert radix_key (Some values) old_prefix_len 0);
    m ← in_swa (swa_match_prefix radix_key);
    let '(new_indices, new_last_node) := m in
    _ ← st_lift (py_assert (bool_decide (old_prefix_len ≤ length new_indices)));
    _ ← st_lift (py_assert (bool_decide (new_prefix_len ≤ length new_indices)));
    idx ← st_lift (unwrap TypeError (req_pool_idx req));
    _ ← in_rows (write_slice idx old_prefix_len (length new_indices) (drop old_prefix_len new_indices));
    r ← unlock_req r;
    u ← in_swa (swa_inc_lock_ref new_last_node);
    (* [kv_indices] is a view: its tail is read after the write above *)
    row ← swa_row req;
    let kv_indices := take (length token_ids) row in
    let prefix := if decide (length new_indices < length kv_indices) then new_indices ++ drop (length new_indices) kv_indices else new_indices in
    mret (MkSwaReq (set_prefix prefix (length new_indices) (Some new_last_node) req) (swa_evicted_seqlen r) u (swa_prefix_lock_released r)).

(** [_evict_swa] *)
Definition evict_swa_req (r : SwaReq) (pre_len : nat) : W SwaReq :=
  cf ← st_gets (λ w, sw_cfg (sw_cache w));
  let req := sr_req r in
  let ps := sw_page_size cf in
  _ ← st_lift (py_assert (bool_decide (cache_protected_len req `mod` ps = 0)));
  let evicted := Nat.max (swa_evicted_seqlen r) (cache_protected_len req) in
  let new := Nat.max evicted (pre_len - sliding_window_size cf - ps) in
  let new := if decide (1 < ps) then new / ps * ps else new in
  if decide (evicted < new) then
    row ← swa_row req;
    _ ← in_swa (free_swa (py_slice evicted new row));
    mret (MkSwaReq req new (swa_uuid_for_lock r) (swa_prefix_lock_released r))
  else mret (MkSwaReq req evicted (swa_uuid_for_lock r) (swa_prefix_lock_released r)).

(** [maybe_evict_swa] of a decode batch.  A request comes with its [decode_batch_idx];
    [scaled] is [int(sliding_window_size * multiplier)], [release] tells that the window
    locks are given back early. *)
Definition eviction_interval (ps scaled : nat) : nat := Nat.max ps scaled / ps * ps.
Definition past_window (release : bool) (cf : SWAConfig) (r : SwaReq) (decode_batch_idx : nat) : bool :=
  release && negb (swa_prefix_lock_released r) && bool_decide (swa_uuid_for_lock r ≠ None) && bool_decide (last_node (sr_req r) ≠ None)
  && bool_decide (sliding_window_size cf ≤ decode_batch_idx).
Definition decode_evict (release : bool) (scaled : nat) (e : SwaReq * nat) : W (SwaReq * nat) :=
  let '(r, decode_batch_idx) := e in
  cf ← st_gets (λ w, sw_cfg (sw_cache w));
  r ← (if bool_decide (decode_batch_idx `mod` eviction_interval (sw_page_size cf) scaled = 1) then evict_swa_req r (seqlen (sr_req r) - 1) else mret r);
  if past_window release cf r decode_batch_idx then
    n ← st_lift (unwrap AttributeError (last_node (sr_req r)));
    _ ← in_swa (dec_swa_lock_only n (swa_uuid_for_lock r));
    mret (MkSwaReq (sr_req r) (swa_evicted_seqlen r) (swa_uuid_for_lock r) true, decode_batch_idx)
  else mret (r, decode_batch_idx).
Fixpoint maybe_evict_swa (release : bool) (scaled : nat) (reqs : list (SwaReq * nat)) : W (list (SwaReq * nat)) :=
  match reqs with
  | [] => mret []
  | e :: reqs => e ← decode_evict release scaled e; es ← maybe_evict_swa release scaled reqs; mret (e :: es)
  end.

Lemma wp_in_swa {B} (m : ST (SWACache A) B) w (Q : B → SWorld A → Prop) :
  wp m (λ b c, Q b (MkSWorld c (sw_pool w))) (sw_cache w) → wp (in_swa m) Q w.
Proof. unfold wp, in_swa. destruct (m (sw_cache w)) as [[b c]| |]; done. Qed.
Lemma wp_in_rows f w p (Q : unit → SWorld A → Prop) : f (sw_pool w) = Ok p → Q tt (MkSWorld (sw_cache w) p) → wp (in_rows f) Q w.
Proof. intros Hf HQ. unfold wp, in_rows. by rewrite Hf. Qed.
Lemma wp_swa_row req idx row w (Q : list Z → SWorld A → Prop) :
  req_pool_idx req = Some idx → req_to_token (sw_pool w) !! idx = Some row → Q row w → wp (swa_row req) Q w.
Proof. intros Hidx Hrow HQ. unfold swa_row. rewrite Hidx. wp_steps. unfold get_row. rewrite Hrow. by wp_step. Qed.
End req.

(** ** A request and its lock *)
Section proofs.
Context {A : Type} {alloc : SWAAllocator A} {ps : nat} {laws : SWAAllocatorLaws A ps}.
Implicit Types (s : client A) (w : SWorld A) (r : SwaReq).

(** The units of the key the cache uses for [toks]. *)
Definition req_units (cf : SWAConfig) (req : Req) (toks : list Z) : list tunit := swa_units cf (MkRadixKey toks (req_extra_key req) (sw_eagle cf)).
Lemma wp_swa_req_key w req toks (Q : RadixKey → SWorld A → Prop) (us := req_units (sw_cfg (sw_cache w)) req toks) :
  (∀ rk, swa_query_ok (sw_cfg (sw_cache w)) rk → swa_units (sw_cfg (sw_cache w)) rk = us → key_len rk = length us → length us ≤ length toks → Q rk w) →
  wp (swa_req_key req toks) Q w.
Proof.
  intros HQ. subst us. unfold swa_req_key, req_units in *. set (cf := sw_cfg (sw_cache w)) in *. set (k := MkRadixKey toks (req_extra_key req) (sw_eagle cf)) in *. wp_steps. fold cf k.
  assert (∀ k', is_bigram k' = sw_eagle cf → maybe_to_bigram_view k' (sw_eagle cf) None = (k', None)) as Hv.
  { intros k' E. unfold maybe_to_bigram_view. rewrite E. by destruct (sw_eagle cf). }
  destruct (page_aligned_titer k (sw_page_size cf)) as (rk & Hpa & Hit & Hm & _). simpl in Hm.
  assert (swa_units cf k = titer rk) as Eu by (unfold swa_units; rewrite Hv by done; simpl; by rewrite Hit).
  assert (key_len rk = length (titer rk)) as Hl by (by rewrite titer_length).
  assert (key_len rk ≤ key_len k) as Hkk by (rewrite Hl, Hit, length_take, titer_length; lia).
  wp_step. apply HQ; rewrite ?Eu.
  - unfold swa_query_ok. congruence.
  - unfold swa_units. rewrite Hv by done. simpl. apply take_ge. rewrite titer_length.
    assert (key_len rk = floor_align (key_len k) (sw_page_size cf)) as E by (rewrite Hl, Hit, length_take, titer_length, Nat.min_l by auto with py; done).
    assert (floor_align (key_len rk) (sw_page_size cf) = key_len rk) as ->; [|done]. rewrite E. unfold floor_align. destruct (sw_page_size cf) as [|n]; [done|]. by rewrite Nat.div_mul by done.
  - done.
  - rewrite <-Hl. etrans; [exact Hkk|]. unfold key_len, k. simpl. destruct (sw_eagle cf); [case_decide; lia|done].
Qed.

(** The request holds a lock on the node where its protected prefix ends, and the slots beyond. *)
Record req_ready s (p : ReqToTokenPool) r (toks : list Z) (ev i idx n : nat) (row : list Z) (us : list tunit) : Prop := {
  rr_units : us = req_units (sw_cfg (cl_cache s)) (sr_req r) toks;
  rr_idx : req_pool_idx (sr_req r) = Some idx;
  rr_row : req_to_token p !! idx = Some row;
  rr_fits : length toks ≤ length row;
  rr_node : last_node (sr_req r) = Some n;
  rr_lock : cl_locks s !! i = Some (MkLock n (swa_uuid_for_lock r) (negb (swa_prefix_lock_released r)));
  rr_len : cache_protected_len (sr_req r) ≤ length us;
  rr_key : node_key (cl_cache s) n = Some (take (cache_protected_len (sr_req r)) us);
  rr_own : drop (cache_protected_len (sr_req r)) (take (length toks) row) ⊆+ cl_own s;
  rr_whole : sa_fits (drop (cache_protected_len (sr_req r)) (take (length us) row)) ∧ sa_fits (drop (length us) (take (length toks) row));
  rr_back : ∀ j x, cache_protected_len (sr_req r) ≤ j → take (length us) row !! j = Some x → (x ∈ sa_backed (sw_alloc (cl_cache s)) ↔ ev ≤ j);
  rr_ev : ev `mod` ps = 0 ∧ ev ≤ length us;
}.
Lemma ready_insert s p r toks ev i idx n row us rk :
  req_ready s p r toks ev i idx n row us → length us ≤ length toks → swa_query_ok (sw_cfg (cl_cache s)) rk → swa_units (sw_cfg (cl_cache s)) rk = us →
  let v := take (length us) (take (length toks) row) in
  legal (CInsert rk v (cache_protected_len (sr_req r)) ev) s ∧ given (sw_cfg (cl_cache s)) rk v (cache_protected_len (sr_req r)) = drop (cache_protected_len (sr_req r)) (take (length us) row).
Proof.
  intros [_ _ _ Hfits _ Hlock Hlen Hkey Hown [Hwhole _] Hback [Hal Hev]] Hle Hq Hus v.
  assert (v = take (length us) row) as Ev by (unfold v; rewrite take_take, Nat.min_l by done; done).
  assert (given (sw_cfg (cl_cache s)) rk v (cache_protected_len (sr_req r)) = drop (cache_protected_len (sr_req r)) (take (length us) row)) as Eg.
  { unfold given. by rewrite Hus, Ev, take_take, Nat.min_id. }
  split; [|done]. simpl. rewrite Eg, Hus, Ev, take_take, Nat.min_id. split_and!; try done.
  - rewrite length_take. lia.
  - right. eexists. split; [by eapply list_elem_of_lookup_2|]. done.
  - etrans; [|exact Hown]. rewrite <-(Nat.min_l (length us) (length toks)) by done. rewrite <-take_take.
    destruct (decide (cache_protected_len (sr_req r) ≤ length (take (length us) (take (length toks) row)))) as [Hl|Hl]; [|rewrite drop_ge by lia; apply submseteq_nil_l].
    rewrite <-(take_drop (length us) (take (length toks) row)) at 2. rewrite drop_app_le by done. apply submseteq_inserts_r. done.
Qed.

Lemma wp_in_ok {B} (m : ST (SWACache A) B) b c' w (Q : B → SWorld A → Prop) : m (sw_cache w) = Ok (b, c') → Q b (MkSWorld c' (sw_pool w)) → wp (in_swa m) Q w.
Proof. intros E HQ. apply wp_in_swa. by eapply wp_intro. Qed.

(** What [cache_unfinished_req] leaves behind: the whole key is cached and locked. *)
Record req_cached s r (i idx : nat) (row : list Z) (us : list tunit) (toks : list Z) r' w' s' : Prop := {
  rc_reach : reachable s';
  rc_cache : cl_cache s' = sw_cache w';
  rc_own : cl_own s' = list_difference (cl_own s) (drop (cache_protected_len (sr_req r)) (take (length us) row));
  rc_locks : ∃ n, last_node (sr_req r') = Some n ∧ cl_locks s' = MkLock n (swa_uuid_for_lock r') true :: delete i (cl_locks s) ∧ node_key (sw_cache w') n = Some us
    ∧ ∃ vs, node_kv (sw_cache w') n = Some vs ∧ length vs = length us ∧ prefix_indices (sr_req r') = vs ++ drop (length us) (take (length toks) row)
        ∧ req_to_token (sw_pool w') !! idx = Some (take (cache_protected_len (sr_req r)) row ++ drop (cache_protected_len (sr_req r)) vs ++ drop (length us) row)
        ∧ (∀ m, last_node (sr_req r) = Some m → node_kv (cl_cache s) m = Some (take (cache_protected_len (sr_req r)) vs));
  rc_protected : cache_protected_len (sr_req r') = length us;
  rc_released : swa_prefix_lock_released r' = false;
}.

(** A node has the first slots of the nodes below it. *)
Lemma kv_above s n1 n2 us k vs : reachable s → in_tree (cl_cache s) n1 → in_tree (cl_cache s) n2 → node_key (cl_cache s) n1 = Some (take k us) → k ≤ length us →
  node_key (cl_cache s) n2 = Some us → node_kv (cl_cache s) n2 = Some vs → node_kv (cl_cache s) n1 = Some (take k vs).
Proof.
  intros Hr H1 H2 Hk1 Hle Hk2 Hv2. destruct (reachable_sinv s Hr) as (lv & a & G & H & [Hab HI _ _ _]). pose proof (inv_tree _ _ _ (ai_tree _ _ _ _ _ HI)) as Ht.
  apply (in_tree_live _ _ _ _ _ _ Hab HI) in H1 as [g1 H1], H2 as [g2 H2]. destruct (node_read _ _ _ _ _ _ Hab HI _ _ H1) as (E1 & -> & _), (node_read _ _ _ _ _ _ Hab HI _ _ H2) as (E2 & Ev2 & _).
  rewrite E1 in Hk1. rewrite E2 in Hk2. rewrite Ev2 in Hv2. injection Hk1 as Hk1. injection Hk2 as <-. injection Hv2 as <-.
  destruct (tree_path_shape _ _ _ _ Ht H1) as [Hal Hl1]. assert (length (g_path g1) = k) as El by (rewrite Hk1, length_take; lia). rewrite El in Hal. f_equal.
  rewrite <-(vals_agree _ _ Ht n1 g1 n2 g2 k H1 H2 Hal); [rewrite take_ge; [done|lia]|lia|done|]. by rewrite Hk1, take_take, Nat.min_id.
Qed.

Lemma unfinished_ok s w r i idx n row us (toks := fill_ids (sr_req r)) :
  reachable s → sw_cache w = cl_cache s → req_ready s (sw_pool w) r toks 0 i idx n row us → 0 < length us → swa_prefix_lock_released r = false →
  ∃ r' w' s', swa_cache_unfinished_req r w = Ok (r', w') ∧ req_cached s r i idx row us toks r' w' s'.
Proof.
  intros Hr Ew Hrr Hpos Hrel. destruct (reachable_sinv s Hr) as (lv & a & G & H & Hs). pose proof (ci_cfg _ _ _ _ _ Hs) as [Hon _ _ _]. pose proof (ab_cfg _ _ (ci_abs _ _ _ _ _ Hs)) as Ecf. pose proof Hrr as [Eus Hidx Hrow Hfits Hnode Hlock Hlen Hkey _ _ _ _].
  set (prot := cache_protected_len (sr_req r)) in *.
  assert (wp (swa_cache_unfinished_req r) (λ r' w', ∃ s', req_cached s r i idx row us toks r' w' s') w) as Hw; [|apply wp_ok in Hw as (r' & w' & E & s' & ?); by exists r', w', s'].
  unfold swa_cache_unfinished_req. wp_steps. eapply wp_swa_row; [exact Hidx|exact Hrow|]. rewrite Ew, Ecf, Hon. fold toks. wp_step.
  apply wp_swa_req_key. rewrite Ew, <-Eus. intros rk Hq Hus Hkl Hle. rewrite Hkl.
  destruct (ready_insert _ _ _ _ _ _ _ _ _ _ rk Hrr Hle Hq Hus) as [Hleg Egiven]. fold prot in Hleg, Egiven.
  (* insert *)
  destruct (insert_call s _ _ _ _ Hs _ _ _ _ Hleg) as (r0 & c1 & lv1 & a1 & G1 & E1 & Hst & Hs1 & Hopen). rewrite Hus in Hst, Hopen.
  destruct (Hopen eq_refl Hpos _ (list_elem_of_lookup_2 _ _ _ Hlock)) as (nw & Hnw & Hknw & Honw); [simpl; by rewrite Hrel|exact Hkey|].
  wp_steps. eapply wp_in_ok; [rewrite Ew; exact E1|]. set (s1 := MkClient c1 _ _) in *.
  assert (reachable s1) as Hr1 by (eapply (reach_step s _ _); [done|exact Hleg|]; simpl; by rewrite E1). simpl sw_pool.
  (* match *)
  assert (swa_query_ok (sw_cfg (cl_cache s1)) rk) as Hq1 by (simpl; by rewrite (st_cfg _ _ _ _ _ _ _ Hst)).
  destruct (match_call s1 _ _ _ _ Hs1 rk Hq1) as (vs & n2 & c2 & lv2 & a2 & G2 & E2 & Hm & Hs2). simpl in E2, Hm. rewrite (st_cfg _ _ _ _ _ _ _ Hst), Hus in Hm.
  pose proof Hm as [Hn2 Hk2 Hl2 Hv2 Ho2 Hbest Hkept].
  assert (length vs = length us) as Evs.
  { destruct (Hkept nw Hnw) as (Ht & Ek & _ & Eo). rewrite Hknw in Ek. pose proof (Hbest nw us Ht Ek (reflexivity us) (Eo Honw)). lia. }
  rewrite Evs, take_ge in Hk2 by done. wp_step. eapply wp_in_ok; [exact E2|]. set (s2 := MkClient c2 _ _) in *.
  assert (reachable s2) as Hr2 by (eapply (reach_step s1 _ (CMatch rk)); [done|exact Hq1|]; simpl; by rewrite E2). simpl sw_pool. simpl cl_locks in *.
  pose proof (st_len _ _ _ _ _ _ _ Hst) as Hr0. cbv beta iota. rewrite !bool_decide_true by lia. wp_steps. rewrite Hidx. wp_steps.
  (* the row *)
  eapply wp_in_rows; [apply (write_slice_ok idx prot (length vs) _ _ row Hrow); [lia|lia|rewrite length_drop; lia]|]. simpl sw_cache. rewrite Evs.
  (* the old lock *)
  unfold unlock_req. wp_steps. rewrite Hnode. wp_steps.
  destruct (unlock_call s2 _ _ _ _ Hs2 i _ Hlock) as (c3 & lv3 & a3 & E3 & Hs3 & Hkept3). simpl in E3, Hkept3. rewrite negb_involutive in E3.
  eapply wp_in_ok; [exact E3|]. set (s3 := MkClient c3 _ _) in *.
  assert (reachable s3) as Hr3 by (eapply (reach_step s2 _ (CUnlock i)); [done|by eexists|]; simpl; rewrite Hlock; cbn [unwrap mbind result_bind]; simpl; by rewrite negb_involutive, E3).
  destruct (Hkept3 n2 Hn2) as (Hn3 & Hk3 & Hv3 & Ho3). specialize (Ho3 Ho2). rewrite Hk2 in Hk3. rewrite Hv2 in Hv3. wp_steps.
  (* the new lock *)
  destruct (lock_call s3 _ _ _ _ Hs3 n2 Hn3 Ho3) as (u & c4 & lv4 & a4 & H4 & E4 & Hs4 & Hkept4). simpl in E4. eapply wp_in_ok; [exact E4|]. set (s4 := MkClient c4 _ _) in *.
  assert (reachable s4) as Hr4 by (eapply (reach_step s3 _ (CLock n2)); [done|done|]; simpl; by rewrite E4).
  destruct (Hkept4 n2 Hn3) as (_ & Hk4 & Hv4). simpl in Hk4, Hv4, Hk3, Hv3. rewrite Hk3 in Hk4. rewrite Hv3 in Hv4. wp_steps. simpl sw_pool.
  eapply wp_swa_row; [exact Hidx|simpl; apply list_lookup_insert_eq; by eapply lookup_lt_Some|]. wp_step.
  set (row' := take prot row ++ drop prot vs ++ drop (length us) row).
  assert (length (take prot row ++ drop prot vs) = length us) as Ela by (rewrite length_app, length_take, length_drop; lia).
  assert (drop (length us) (take (length toks) row') = drop (length us) (take (length toks) row)) as Ed.
  { rewrite !skipn_firstn_comm. f_equal. unfold row'. rewrite (assoc (++)), drop_app_le by lia. by rewrite drop_ge by lia. }
  exists s4. split; [done|done|by simpl; rewrite Egiven| |done|done]. exists n2. simpl. split_and!; [done|done|done|]. exists vs. split_and!; [done|done| | |].
  - fold prot. fold row'. rewrite Ed. destruct (decide _) as [|Hge]; [done|]. rewrite drop_ge, app_nil_r; [done|]. unfold row' in Hge. rewrite length_take in Hge |- *.
    rewrite (assoc (++)), length_app, length_drop, Ela in Hge. lia.
  - rewrite list_lookup_insert_eq; [done|by eapply lookup_lt_Some].
  - intros m Em. assert (m = n) as -> by congruence. destruct (locks_hold s _ _ _ _ Hs _ (list_elem_of_lookup_2 _ _ _ Hlock)) as [Hin _]. simpl in Hin.
    assert (length (take prot us) ≤ prot) as Hlp by (rewrite length_take; lia). rewrite <-(st_low _ _ _ _ _ _ _ Hst n _ Hin Hkey Hlp).
    destruct (st_kept _ _ _ _ _ _ _ Hst n Hin) as [Hin1 Ek1]. destruct (Hkept n Hin1) as (Hin2 & Ek2 & <- & _).
    apply (kv_above s2 n n2 us prot vs Hr2 Hin2 Hn2); [simpl; congruence|done|done|done].
Qed.

(** ** The end of a request *)
Lemma free_call s l : reachable s → legal (CFree l) s →
  ∃ c', free l (cl_cache s) = Ok (tt, c') ∧ reachable (MkClient c' (cl_locks s) (list_difference (cl_own s) l)).
Proof.
  intros Hr Hleg. destruct (run_ok s (CFree l) (reachable_sinv s Hr) Hleg) as (s' & E & _). pose proof (reach_step _ _ _ Hr Hleg E) as Hr'. simpl in E.
  destruct (sa_free l (sw_alloc (cl_cache s))) as [al| |] eqn:Ef; simplify_eq/=. exists (set_sw_alloc al (cl_cache s)). split; [|done].
  unfold free, st_gets, st_lift, st_modify. unfold mbind, ST_bind, st_bind. by rewrite Ef.
Qed.
Lemma free_swa_call s l : reachable s → legal (CFreeSwa l) s →
  ∃ al, free_swa l (cl_cache s) = Ok (tt, set_sw_alloc al (cl_cache s)) ∧ reachable (MkClient (set_sw_alloc al (cl_cache s)) (cl_locks s) (cl_own s))
    ∧ sa_backed al = sa_backed (sw_alloc (cl_cache s)) ∖ list_to_set l.
Proof.
  intros Hr Hleg. destruct (reachable_sinv s Hr) as (lv & a & G & H & Hs). pose proof Hs as [Hab HI _ _ _].
  destruct (run_ok s (CFreeSwa l) (reachable_sinv s Hr) Hleg) as (s' & E & _). pose proof (reach_step _ _ _ Hr Hleg E) as Hr'. simpl in E.
  destruct Hleg as (Hsub & Hfits & Hb). destruct (own_diff _ _ (own_nodup _ _ _ _ _ HI) Hsub) as [Ho _]. pose proof (ai_slots _ _ _ _ _ HI) as Hsl.
  destruct (owned_slots _ _ _ _ _ _ Hsl Ho) as (Hnd & _). rewrite (ab_alloc _ _ Hab) in *.
  destruct (sa_free_swa_ok (a_alloc a) l (sl_alloc _ _ _ _ _ Hsl) Hnd Hfits Hb) as (al & Ef & _ & _ & Eb). rewrite Ef in E. simplify_eq/=. exists al. split_and!; [|done|done].
  unfold free_swa, st_gets, st_lift, st_modify. unfold mbind, ST_bind, st_bind. by rewrite (ab_alloc _ _ Hab), Ef.
Qed.
Lemma own_tail (own g t : list Z) : NoDup own → g ++ t ⊆+ own → t ⊆+ list_difference own g.
Proof.
  intros Hnd Hsub. destruct (submseteq_Permutation _ _ Hsub) as [k Hk]. rewrite Hk, <-(assoc (++)) in Hnd. apply NoDup_app in Hnd as (_ & Hd & Hnd). apply NoDup_app in Hnd as (Hnt & _ & _).
  apply NoDup_submseteq; [done|]. intros x Hx. rewrite list_elem_of_difference, Hk, !elem_of_app. split; [auto|]. intros Hg. apply (Hd x Hg). rewrite elem_of_app. auto.
Qed.
Lemma reachable_nodup s : reachable s → NoDup (cl_own s).
Proof. intros Hr. destruct (reachable_sinv s Hr) as (lv & a & G & H & Hs). eapply own_nodup, (ci_inv _ _ _ _ _ Hs). Qed.

(** The request is gone: its lock is given back, and so are all its slots beyond the protected prefix. *)
Record req_left s r (i : nat) (row : list Z) (commit : nat) w' s' : Prop := {
  rl_reach : reachable s';
  rl_cache : cl_cache s' = sw_cache w';
  rl_locks : cl_locks s' = delete i (cl_locks s);
  rl_own : ∀ x, x ∈ cl_own s' ↔ x ∈ cl_own s ∧ x ∉ drop (cache_protected_len (sr_req r)) (take commit row);
}.
Lemma ready_slots s p r toks ev i idx n row us (prot := cache_protected_len (sr_req r)) : req_ready s p r toks ev i idx n row us → length us ≤ length toks →
  drop prot (take (length toks) row) = drop prot (take (length us) row) ++ drop (length us) (take (length toks) row)
  ∧ py_slice prot (length us) (take (length toks) row) = drop prot (take (length us) row).
Proof.
  intros Hrr Hle. pose proof (rr_len _ _ _ _ _ _ _ _ _ _ Hrr) as Hl. pose proof (rr_fits _ _ _ _ _ _ _ _ _ _ Hrr) as Hf. fold prot in Hl.
  assert (take (length us) (take (length toks) row) = take (length us) row) as Et by (by rewrite take_take, Nat.min_l).
  split; [|unfold py_slice; rewrite <-skipn_firstn_comm, Et; done]. rewrite <-(take_drop (length us) (take (length toks) row)) at 1. rewrite Et, drop_app_le; [done|]. rewrite length_take. lia.
Qed.
(** After the slots are dealt with: the tail is freed and the lock given back. *)
Lemma finish_tail s s1 r i commit row c1 pool g t (Q : SwaReq → SWorld A → Prop) n :
  reachable s1 → cl_cache s1 = c1 → cl_locks s1 = cl_locks s → cl_own s1 = list_difference (cl_own s) g → NoDup (cl_own s) →
  drop (cache_protected_len (sr_req r)) (take commit row) = g ++ t → g ++ t ⊆+ cl_own s → sa_fits t → last_node (sr_req r) = Some n →
  cl_locks s !! i = Some (MkLock n (swa_uuid_for_lock r) (negb (swa_prefix_lock_released r))) →
  (∀ r' w' s', req_left s r i row commit w' s' → swa_prefix_lock_released r' = false → Q r' w') →
  wp (_ ← in_swa (free t); unlock_req r) Q (MkSWorld c1 pool).
Proof.
  intros Hr1 <- El Eo Hnd Eslots Hsub Hft Hnode Hlock HQ.
  destruct (free_call s1 t Hr1) as (c2 & E2 & Hr2); [split; [rewrite Eo; by apply own_tail|done]|]. wp_step. eapply wp_in_ok; [exact E2|].
  set (s2 := MkClient c2 _ _) in *. unfold unlock_req. wp_steps. rewrite Hnode. wp_steps.
  destruct (reachable_sinv s2 Hr2) as (lv2 & a2 & G2 & H2 & Hs2). assert (cl_locks s2 !! i = Some (MkLock n (swa_uuid_for_lock r) (negb (swa_prefix_lock_released r)))) as Hlock2 by (simpl; by rewrite El).
  destruct (unlock_call s2 _ _ _ _ Hs2 i _ Hlock2) as (c3 & lv3 & a3 & E3 & Hs3 & _). simpl in E3. rewrite negb_involutive in E3.
  eapply wp_in_ok; [exact E3|]. wp_step. eapply (HQ _ _ (MkClient c3 (delete i (cl_locks s2)) (cl_own s2))); [|done]. split; simpl.
  - eapply (reach_step s2 _ (CUnlock i)); [done|by eexists|]. simpl. simpl in Hlock2. rewrite Hlock2. cbn [unwrap mbind result_bind]. simpl. by rewrite negb_involutive, E3.
  - done.
  - by rewrite El.
  - intros x. rewrite !list_elem_of_difference, Eo, list_elem_of_difference, Eslots, elem_of_app. tauto.
Qed.

Lemma finished_ok s w r strip is_insert i idx n row us (commit := cache_commit_len strip (sr_req r)) (toks := take commit (origin_input_ids (sr_req r) ++ output_ids (sr_req r))) :
  reachable s → sw_cache w = cl_cache s → kv_committed_freed (sr_req r) = false → length toks = commit →
  req_ready s (sw_pool w) r toks (swa_evicted_seqlen r) i idx n row us →
  ∃ r' w' s', swa_cache_finished_req strip r is_insert w = Ok (r', w') ∧ req_left s r i row commit w' s' ∧ swa_prefix_lock_released r' = false.
Proof.
  intros Hr Ew Hnf Hcm Hrr. destruct (reachable_sinv s Hr) as (lv & a & G & H & Hs). pose proof (ci_cfg _ _ _ _ _ Hs) as [Hon _ _ _]. pose proof (ab_cfg _ _ (ci_abs _ _ _ _ _ Hs)) as Ecf.
  pose proof Hrr as [Eus Hidx Hrow Hfits Hnode Hlock Hlen Hkey Hown [Hf1 Hf2] _ _]. rewrite Hcm in Hown, Hf2.
  assert (wp (swa_cache_finished_req strip r is_insert) (λ r' w', ∃ s', req_left s r i row commit w' s' ∧ swa_prefix_lock_released r' = false) w) as Hw; [|apply wp_ok in Hw as (r' & w' & E & s' & ?); by exists r', w', s'].
  unfold swa_cache_finished_req. wp_step. apply wp_gets. unfold pop_committed_kv_cache. rewrite Hnf. wp_step. eapply wp_lift; [reflexivity|]. simpl kv_committed_freed. cbv beta iota.
  change (cache_commit_len strip (set_freed true (kv_overallocated_freed (sr_req r)) (sr_req r))) with commit.
  wp_step. eapply wp_swa_row; [exact Hidx|exact Hrow|]. rewrite Ew, Ecf, Hon. wp_step. simpl origin_input_ids. simpl output_ids. fold toks.
  apply wp_swa_req_key. rewrite Ew. change (req_units _ _ toks) with (req_units (sw_cfg (cl_cache s)) (sr_req r) toks). rewrite <-Eus. intros rk Hq Hus Hkl Hle. rewrite Hkl.
  destruct (ready_slots _ _ _ _ _ _ _ _ _ _ Hrr Hle) as [Eslots Eslice]. rewrite Hcm in Eslots, Eslice. rewrite Eslots in Hown. pose proof (reachable_nodup s Hr) as Hnd.
  assert (drop (cache_protected_len (sr_req r)) (take (length us) row) ⊆+ cl_own s) as Hg by (etrans; [|exact Hown]; by apply submseteq_inserts_r).
  destruct is_insert.
  - destruct (ready_insert _ _ _ _ _ _ _ _ _ _ rk Hrr Hle Hq Hus) as [Hleg Egiven]. rewrite Hcm in Hleg, Egiven.
    destruct (insert_call s _ _ _ _ Hs _ _ _ _ Hleg) as (r0 & c1 & lv1 & a1 & G1 & E1 & _ & _ & _).
    wp_steps. eapply wp_in_ok; [rewrite Ew; exact E1|]. wp_step. simpl sw_pool.
    eapply (finish_tail s (MkClient c1 (cl_locks s) (list_difference (cl_own s) (drop (cache_protected_len (sr_req r)) (take (length us) row)))) (MkSwaReq _ _ _ _));
      [|done|done|done|done|exact Eslots|done|done|exact Hnode|exact Hlock|].
    + eapply (reach_step s); [done|exact Hleg|]. simpl. rewrite E1. simpl. by rewrite Egiven.
    + intros r' w' s' [] Hrel. by exists s'.
  - destruct (free_call s (drop (cache_protected_len (sr_req r)) (take (length us) row)) Hr) as (c1 & E1 & Hr1); [by split|].
    wp_steps. simpl cache_protected_len. rewrite Eslice. eapply wp_in_ok; [rewrite Ew; exact E1|]. simpl sw_pool.
    eapply (finish_tail s _ (MkSwaReq _ _ _ _)); [exact Hr1|done|done|done|done|exact Eslots|done|done|exact Hnode|exact Hlock|].
    intros r' w' s' [] Hrel. by exists s'.
Qed.

(** ** Leaving the window behind *)
Lemma NoDup_pos {B} (l : list B) a b j x : NoDup l → l !! j = Some x → (x ∈ take (b - a) (drop a l) ↔ a ≤ j < b).
Proof.
  intros Hnd Hj. split.
  - intros [k Hk]%list_elem_of_lookup. apply lookup_take_Some in Hk as [Hk Hlt]. rewrite lookup_drop in Hk. pose proof (NoDup_lookup _ _ _ _ Hnd Hj Hk). lia.
  - intros [Ha Hb]. apply list_elem_of_lookup. exists (j - a). apply lookup_take_Some. split; [|lia]. rewrite lookup_drop. rewrite <-Hj. f_equal. lia.
Qed.
Lemma ready_aligned s p r toks ev i idx n row us : reachable s → req_ready s p r toks ev i idx n row us → cache_protected_len (sr_req r) `mod` ps = 0.
Proof.
  intros Hr Hrr. destruct (reachable_sinv s Hr) as (lv & a & G & H & Hs). destruct (lock_hold _ _ _ _ _ Hs i _ (rr_lock _ _ _ _ _ _ _ _ _ _ Hrr)) as (hd & Hhd & E & _).
  pose proof Hs as [Hab HI _ _ _]. pose proof (xi_holds _ _ _ _ _ _ _ (ai_swa _ _ _ _ _ HI)) as Hok. rewrite Forall_forall in Hok. destruct (ho_node _ _ _ _ (Hok hd (list_elem_of_lookup_2 _ _ _ Hhd))) as (g & _ & Hg & _).
  destruct (node_read _ _ _ _ _ _ Hab HI _ g Hg) as (Ek & _). injection E as E _ _. rewrite <-E, (rr_key _ _ _ _ _ _ _ _ _ _ Hrr) in Ek. injection Ek as Ek.
  destruct (tree_path_shape _ _ _ _ (inv_tree _ _ _ (ai_tree _ _ _ _ _ HI)) Hg) as [Ha _]. simpl in Ha. rewrite <-(ai_ps _ _ _ _ _ HI), <-Ek, length_take, Nat.min_l in Ha; [done|].
  apply (rr_len _ _ _ _ _ _ _ _ _ _ Hrr).
Qed.
Lemma req_units_long cf req toks : 1 ≤ sw_page_size cf → length (req_units cf req toks) ≤ length toks ≤ length (req_units cf req toks) + sw_page_size cf.
Proof.
  intros Hp. unfold req_units, swa_units. set (k := MkRadixKey toks _ _). assert ((maybe_to_bigram_view k (sw_eagle cf) None).1 = k) as -> by (unfold maybe_to_bigram_view, k; simpl; by destruct (sw_eagle cf)).
  rewrite length_take, titer_length, Nat.min_l by auto with py. assert (key_len k ≤ length toks ≤ S (key_len k)) as Hk by (unfold key_len, k; simpl; destruct (sw_eagle cf); [case_decide|]; lia).
  pose proof (floor_align_le (key_len k) (sw_page_size cf)). unfold floor_align in *. pose proof (Nat.div_mod_eq (key_len k) (sw_page_size cf)). pose proof (Nat.mod_upper_bound (key_len k) (sw_page_size cf) ltac:(lia)). lia.
Qed.
(** What one request does leaves the others alone: [mine] are its slots, [i] its lock. *)
Record others_keep s s' (mine : list Z) (i : nat) : Prop := {
  ok_cfg : sw_cfg (cl_cache s') = sw_cfg (cl_cache s);
  ok_own : cl_own s' = cl_own s;
  ok_locks : ∀ j, j ≠ i → cl_locks s' !! j = cl_locks s !! j;
  ok_keys : ∀ q, in_tree (cl_cache s) q → in_tree (cl_cache s') q ∧ node_key (cl_cache s') q = node_key (cl_cache s) q;
  ok_back : ∀ x, x ∈ cl_own s → x ∉ mine → (x ∈ sa_backed (sw_alloc (cl_cache s')) ↔ x ∈ sa_backed (sw_alloc (cl_cache s)));
}.
Lemma others_keep_refl s mine i : others_keep s s mine i.
Proof. by split. Qed.
Lemma others_keep_trans s1 s2 s3 mine i : others_keep s1 s2 mine i → others_keep s2 s3 mine i → others_keep s1 s3 mine i.
Proof.
  intros H1 H2. split.
  - by rewrite (ok_cfg _ _ _ _ H2), (ok_cfg _ _ _ _ H1).
  - by rewrite (ok_own _ _ _ _ H2), (ok_own _ _ _ _ H1).
  - intros j Hj. by rewrite (ok_locks _ _ _ _ H2), (ok_locks _ _ _ _ H1).
  - intros q Hq. destruct (ok_keys _ _ _ _ H1 q Hq) as [Hq2 E1]. destruct (ok_keys _ _ _ _ H2 q Hq2) as [Hq3 E2]. split; [done|congruence].
  - intros x Hx Hm. rewrite (ok_back _ _ _ _ H2); [by apply (ok_back _ _ _ _ H1)|by rewrite (ok_own _ _ _ _ H1)|done].
Qed.

Lemma evict_window_ok s w r toks i idx n row us pre_len (ev := Nat.max (swa_evicted_seqlen r) (cache_protected_len (sr_req r))) (cf := sw_cfg (cl_cache s)) :
  reachable s → sw_cache w = cl_cache s → req_ready s (sw_pool w) r toks (swa_evicted_seqlen r) i idx n row us → pre_len ≤ length toks →
  ∃ r' w' s', evict_swa_req r pre_len w = Ok (r', w') ∧ reachable s' ∧ cl_cache s' = sw_cache w' ∧ cl_own s' = cl_own s ∧ cl_locks s' = cl_locks s
    ∧ req_ready s' (sw_pool w') r' toks (swa_evicted_seqlen r') i idx n row us
    ∧ (swa_evicted_seqlen r' = ev ∨ ev < swa_evicted_seqlen r' ∧ swa_evicted_seqlen r' + sliding_window_size cf + sw_page_size cf ≤ pre_len)
    ∧ sw_pool w' = sw_pool w ∧ (sr_req r' = sr_req r ∧ swa_uuid_for_lock r' = swa_uuid_for_lock r ∧ swa_prefix_lock_released r' = swa_prefix_lock_released r)
    ∧ others_keep s s' (drop (cache_protected_len (sr_req r)) (take (length toks) row)) i.
Proof.
  intros Hr Ew Hrr Hpre. destruct (reachable_sinv s Hr) as (lv & a & G & H & Hs). pose proof Hs as [Hab HI _ [_ _ Hw Hps] _]. pose proof (ai_ps _ _ _ _ _ HI) as Eps. rewrite <-(ab_cfg _ _ Hab) in Eps, Hw, Hps.
  pose proof Hrr as [Eus Hidx Hrow Hfits Hnode Hlock Hlen Hkey Hown [Hf1 Hf2] Hback [Hal Hev]]. set (prot := cache_protected_len (sr_req r)) in *. fold cf in Eps, Hw, Hps.
  assert (prot `mod` ps = 0) as Hpa by (by eapply ready_aligned).
  assert (ev `mod` ps = 0 ∧ ev ≤ length us) as [Heva Hevl] by (unfold ev; destruct (Nat.max_spec (swa_evicted_seqlen r) prot) as [[_ ->]|[_ ->]]; done).
  assert (length us ≤ length toks ≤ length us + ps) as Hlong by (rewrite Eus, Eps; by apply req_units_long).
  assert (wp (evict_swa_req r pre_len) (λ r' w', ∃ s', reachable s' ∧ cl_cache s' = sw_cache w' ∧ cl_own s' = cl_own s ∧ cl_locks s' = cl_locks s
    ∧ req_ready s' (sw_pool w') r' toks (swa_evicted_seqlen r') i idx n row us
    ∧ (swa_evicted_seqlen r' = ev ∨ ev < swa_evicted_seqlen r' ∧ swa_evicted_seqlen r' + sliding_window_size cf + sw_page_size cf ≤ pre_len)
    ∧ sw_pool w' = sw_pool w ∧ (sr_req r' = sr_req r ∧ swa_uuid_for_lock r' = swa_uuid_for_lock r ∧ swa_prefix_lock_released r' = swa_prefix_lock_released r)
    ∧ others_keep s s' (drop (cache_protected_len (sr_req r)) (take (length toks) row)) i) w) as Hwp; [|apply wp_ok in Hwp as (r' & w' & E & s' & ?); by exists r', w', s'].
  unfold evict_swa_req. wp_steps. rewrite Ew. fold cf prot ev. rewrite bool_decide_true by (by rewrite <-Eps). wp_steps.
  set (m := Nat.max ev _). set (new := if decide (1 < _) then _ else m). assert (new `mod` ps = 0 ∧ ev ≤ new ≤ m) as (Hna & Hn1 & Hn2).
  { assert (new = floor_align m ps) as ->.
    { unfold new. rewrite <-Eps. destruct (decide (1 < ps)); [done|]. assert (ps = 1) as E1 by lia. by rewrite E1, floor_align_1. }
    split; [apply floor_align_mod|]. split; [|apply floor_align_le]. rewrite <-(floor_align_id ev ps Heva). apply floor_align_mono. unfold m. lia. }
  destruct (decide (ev < new)) as [Hlt|Hlt].
  2: { wp_step. exists s. split_and!; try done; [|by left]. split; try done; simpl. intros j x Hj Hx. rewrite (Hback j x Hj Hx). unfold ev. fold prot in Hj. lia. }
  assert (new + sliding_window_size cf + sw_page_size cf ≤ pre_len) as Hkeep by (unfold m in Hn2; lia). wp_step. eapply wp_swa_row; [exact Hidx|exact Hrow|].
  set (l := py_slice ev new row). pose proof (reachable_nodup s Hr) as Hnd. destruct (submseteq_Permutation _ _ Hown) as [rest Hrest]. rewrite Hrest in Hnd. apply NoDup_app in Hnd as (Hnd & _ & _).
  assert (l = take (new - prot - (ev - prot)) (drop (ev - prot) (drop prot (take (length toks) row)))) as El.
  { unfold l, py_slice. rewrite drop_drop. replace (new - prot - (ev - prot)) with (new - ev) by lia. replace (prot + (ev - prot)) with ev by lia.
    rewrite skipn_firstn_comm, take_take. f_equal. lia. }
  assert (l = take (new - ev) (drop (ev - prot) (drop prot (take (length us) row)))) as El2.
  { unfold l, py_slice. rewrite drop_drop. replace (prot + (ev - prot)) with ev by lia. rewrite skipn_firstn_comm, take_take. f_equal. lia. }
  assert (∀ j x, prot ≤ j → take (length us) row !! j = Some x → (x ∈ l ↔ ev ≤ j < new)) as Hin.
  { intros j x Hj Hx. rewrite El. rewrite (NoDup_pos _ (ev - prot) (new - prot) (j - prot) x Hnd); [lia|]. rewrite lookup_drop. replace (prot + (j - prot)) with j by lia.
    apply lookup_take_Some in Hx as [Hx Hju]. apply lookup_take_Some. split; [done|lia]. }
  destruct (free_swa_call s l Hr) as (al & E1 & Hr1 & Eb).
  { split_and!.
    - etrans; [|exact Hown]. rewrite El. etrans; [apply sublist_submseteq, sublist_take|apply sublist_submseteq, sublist_drop].
    - rewrite El2. apply sa_fits_take; [by auto with py|]. apply sa_fits_take; [by auto with py|done].
    - intros x Hx. pose proof Hx as Hx'. rewrite El2 in Hx'. apply list_elem_of_lookup in Hx' as [k Hk]. apply lookup_take_Some in Hk as [Hk Hkl]. rewrite !lookup_drop in Hk.
      eapply (Hback _ x); [|exact Hk|]; fold prot; lia. }
  wp_step. eapply wp_in_ok; [rewrite Ew; exact E1|]. wp_step. simpl sw_pool. exists (MkClient (set_sw_alloc al (cl_cache s)) (cl_locks s) (cl_own s)). split_and!; try done; [|right; done|].
  2: { split; try done. intros x Hx Hm. simpl. rewrite Eb, elem_of_difference, elem_of_list_to_set. enough (x ∉ l) by tauto. intros Hxl. apply Hm. fold prot. rewrite El in Hxl.
    eapply elem_of_submseteq in Hxl; [|apply sublist_submseteq, sublist_take]. by eapply elem_of_submseteq in Hxl; [|apply sublist_submseteq, sublist_drop]. }
  split; try done; simpl.
  - intros j x Hj Hx. fold prot in Hj. rewrite Eb, elem_of_difference, elem_of_list_to_set, (Hin j x Hj Hx), (Hback j x Hj Hx). lia.
  - split; [done|lia].
Qed.

(** ** A decode batch *)

(** What the readiness of a request refers to. *)
Record rview := MkRview { v_toks : list Z; v_lock : nat; v_idx : nat; v_node : nat; v_row : list Z; v_us : list tunit }.
Abbreviation entry := (SwaReq * nat * rview)%type.
Definition e_req (e : entry) : SwaReq := e.1.1.
Definition e_slots (e : entry) : list Z := drop (cache_protected_len (sr_req (e_req e))) (take (length (v_toks e.2)) (v_row e.2)).
Abbreviation entry_ready s p e := (req_ready s p (e_req e) (v_toks e.2) (swa_evicted_seqlen (e_req e)) (v_lock e.2) (v_idx e.2) (v_node e.2) (v_row e.2) (v_us e.2)).
(** Every request is ready, and no two share a lock or a slot. *)
Record batch_ready s (p : ReqToTokenPool) (l : list entry) : Prop := {
  br_each : ∀ e, e ∈ l → entry_ready s p e ∧ seqlen (sr_req (e_req e)) - 1 ≤ length (v_toks e.2);
  br_locks : NoDup ((λ e, v_lock e.2) <$> l);
  br_own : concat (e_slots <$> l) ⊆+ cl_own s;
}.
(** How one request comes out. *)
Record decoded (cf : SWAConfig) (release : bool) (scaled : nat) (e e' : entry) : Prop := {
  dd_same : e'.2 = e.2 ∧ e'.1.2 = e.1.2 ∧ sr_req (e_req e') = sr_req (e_req e) ∧ swa_uuid_for_lock (e_req e') = swa_uuid_for_lock (e_req e);
  dd_kept : swa_evicted_seqlen (e_req e) ≤ swa_evicted_seqlen (e_req e');
  dd_window : swa_evicted_seqlen (e_req e') ≤ Nat.max (swa_evicted_seqlen (e_req e)) (cache_protected_len (sr_req (e_req e)))
    ∨ swa_evicted_seqlen (e_req e') + sliding_window_size cf + sw_page_size cf ≤ seqlen (sr_req (e_req e)) - 1;
  dd_released : swa_prefix_lock_released (e_req e') = swa_prefix_lock_released (e_req e) || past_window release cf (e_req e) e.1.2;
}.

Lemma ready_in_tree s p r toks ev i idx n row us : reachable s → req_ready s p r toks ev i idx n row us → in_tree (cl_cache s) n.
Proof.
  intros Hr Hrr. destruct (reachable_sinv s Hr) as (lv & a & G & H & Hs). destruct (lock_hold _ _ _ _ _ Hs i _ (rr_lock _ _ _ _ _ _ _ _ _ _ Hrr)) as (hd & Hhd & E & _).
  pose proof Hs as [Hab HI _ _ _]. pose proof (xi_holds _ _ _ _ _ _ _ (ai_swa _ _ _ _ _ HI)) as Hok. rewrite Forall_forall in Hok. destruct (ho_node _ _ _ _ (Hok hd (list_elem_of_lookup_2 _ _ _ Hhd))) as (g & _ & Hg & _).
  injection E as -> _ _. apply (in_tree_live _ _ _ _ _ _ Hab HI). eauto.
Qed.
Lemma ready_slot s p r toks ev i idx n row us j x : reachable s → req_ready s p r toks ev i idx n row us → cache_protected_len (sr_req r) ≤ j → take (length us) row !! j = Some x →
  x ∈ drop (cache_protected_len (sr_req r)) (take (length toks) row).
Proof.
  intros Hr Hrr Hj Hx. apply list_elem_of_lookup. exists (j - cache_protected_len (sr_req r)). rewrite lookup_drop. replace (_ + (j - _)) with j by lia.
  apply lookup_take_Some in Hx as [Hx Hju]. apply lookup_take_Some. split; [done|]. apply (Nat.lt_le_trans _ (length us)); [done|]. rewrite (rr_units _ _ _ _ _ _ _ _ _ _ Hrr).
  destruct (reachable_sinv s Hr) as (lv & a & G & H & Hs). pose proof (ci_cfg _ _ _ _ _ Hs) as [_ _ _ Hps]. rewrite <-(ab_cfg _ _ (ci_abs _ _ _ _ _ Hs)) in Hps. by apply req_units_long.
Qed.
(** Another request stays ready. *)
Lemma other_stays s s' p r toks ev i idx n row us mine k : reachable s → others_keep s s' mine k → i ≠ k →
  (∀ x, x ∈ drop (cache_protected_len (sr_req r)) (take (length toks) row) → x ∉ mine) → req_ready s p r toks ev i idx n row us → req_ready s' p r toks ev i idx n row us.
Proof.
  intros Hr [Ec Eo El Ek Eb] Hik Hdis Hrr. pose proof (ready_in_tree _ _ _ _ _ _ _ _ _ _ Hr Hrr) as Hin. destruct (Ek n Hin) as [_ Ekn].
  pose proof Hrr as Hrr0. destruct Hrr as [Eus Hidx Hrow Hfits Hnode Hlock Hlen Hkey Hown Hf Hback Hev]. split; try done; rewrite ?Ec, ?Eo, ?El, ?Ekn by done; try done.
  intros j x Hj Hx. rewrite <-(Hback j x Hj Hx). pose proof (ready_slot _ _ _ _ _ _ _ _ _ _ j x Hr Hrr0 Hj Hx) as Hm.
  apply Eb; [by eapply elem_of_submseteq|by apply Hdis].
Qed.

(** The window lock of a ready request is given back. *)
Lemma release_ok s p r toks ev i idx n row us : reachable s → req_ready s p r toks ev i idx n row us → swa_prefix_lock_released r = false →
  ∃ c' s', dec_swa_lock_only n (swa_uuid_for_lock r) (cl_cache s) = Ok (tt, c') ∧ reachable s' ∧ cl_cache s' = c'
    ∧ req_ready s' p (MkSwaReq (sr_req r) (swa_evicted_seqlen r) (swa_uuid_for_lock r) true) toks ev i idx n row us ∧ others_keep s s' [] i.
Proof.
  intros Hr Hrr Hrel. destruct (reachable_sinv s Hr) as (lv & a & G & H & Hs). pose proof (ready_in_tree _ _ _ _ _ _ _ _ _ _ Hr Hrr) as Hin.
  pose proof Hrr as [Eus Hidx Hrow Hfits Hnode Hlock Hlen Hkey Hown Hf Hback Hev]. rewrite Hrel in Hlock. simpl in Hlock.
  destruct (unlock_window_call s _ _ _ _ Hs i _ Hlock eq_refl) as (c' & lv' & a' & E & _ & Hkeep & Hb & Ec). simpl in E, Hkeep.
  set (s' := MkClient c' (<[i := MkLock n (swa_uuid_for_lock r) false]> (cl_locks s)) (cl_own s)). exists c', s'. split_and!; [done| |done| |].
  - eapply (reach_step s _ (CUnlockWindow i)); [done|by eexists|]. simpl. rewrite Hlock. cbn [unwrap mbind result_bind]. simpl. by rewrite E.
  - destruct (Hkeep n Hin) as (_ & Ekn & _). split; simpl; rewrite ?Ec, ?Ekn; try done; [apply list_lookup_insert_eq; by eapply lookup_lt_Some|].
    intros j x Hj Hx. rewrite <-(Hback j x Hj Hx). apply Hb. eapply elem_of_submseteq; [|exact Hown]. by eapply ready_slot.
  - split; simpl; try done; [intros j Hj; by rewrite list_lookup_insert_ne| |intros x Hx _; by apply Hb]. intros q Hq. by destruct (Hkeep q Hq) as (? & ? & _).
Qed.

(** One request of the batch. *)
Lemma decode_evict_ok s w release scaled (e : entry) : reachable s → sw_cache w = cl_cache s → entry_ready s (sw_pool w) e → seqlen (sr_req (e_req e)) - 1 ≤ length (v_toks e.2) →
  ∃ e' w' s', decode_evict release scaled e.1 w = Ok (e'.1, w') ∧ reachable s' ∧ cl_cache s' = sw_cache w' ∧ sw_pool w' = sw_pool w
    ∧ entry_ready s' (sw_pool w') e' ∧ decoded (sw_cfg (cl_cache s)) release scaled e e' ∧ others_keep s s' (e_slots e) (v_lock e.2).
Proof.
  destruct e as [[r k] v]. unfold e_req, e_slots. simpl. intros Hr Ew Hrr Hlen. set (cf := sw_cfg (cl_cache s)).
  assert (wp (decode_evict release scaled (r, k)) (λ e' w', ∃ s', reachable s' ∧ cl_cache s' = sw_cache w' ∧ sw_pool w' = sw_pool w ∧ entry_ready s' (sw_pool w') (e', v)
    ∧ decoded cf release scaled (r, k, v) (e', v) ∧ others_keep s s' (e_slots (r, k, v)) (v_lock v)) w) as Hw; [|apply wp_ok in Hw as (e' & w' & E & s' & ?); by exists (e', v), w', s'].
  unfold decode_evict. wp_step. apply wp_gets. rewrite Ew. fold cf. wp_step.
  (* the slots behind the window *)
  eapply (wp_mono _ (λ r1 w1, ∃ s1, reachable s1 ∧ cl_cache s1 = sw_cache w1 ∧ sw_pool w1 = sw_pool w ∧ entry_ready s1 (sw_pool w1) (r1, k, v)
    ∧ (sr_req r1 = sr_req r ∧ swa_uuid_for_lock r1 = swa_uuid_for_lock r ∧ swa_prefix_lock_released r1 = swa_prefix_lock_released r)
    ∧ swa_evicted_seqlen r ≤ swa_evicted_seqlen r1
    ∧ (swa_evicted_seqlen r1 ≤ Nat.max (swa_evicted_seqlen r) (cache_protected_len (sr_req r)) ∨ swa_evicted_seqlen r1 + sliding_window_size cf + sw_page_size cf ≤ seqlen (sr_req r) - 1)
    ∧ others_keep s s1 (e_slots (r, k, v)) (v_lock v))).
  { case_bool_decide; [|wp_step; exists s; split_and!; try done; left; lia].
    destruct (evict_window_ok s w r _ _ _ _ _ _ _ Hr Ew Hrr Hlen) as (r1 & w1 & s1 & E & Hr1 & Ec1 & Eo1 & El1 & Hrr1 & Hev & Ep & Es & Hk). eapply wp_intro; [exact E|].
    exists s1. split_and!; try done; try apply Es; destruct Hev as [->|[? ?]]; lia || by right. }
  intros r1 w1 (s1 & Hr1 & Ec1 & Ep1 & Hrr1 & (Er & Eu & Erel) & Hge & Hev & Hk1). cbv beta.
  assert (past_window release cf r1 k = past_window release cf r k) as Epast by (unfold past_window; by rewrite Er, Eu, Erel). rewrite Epast. destruct (past_window release cf r k) eqn:Hpast.
  - assert (swa_prefix_lock_released r1 = false) as Hrel1 by (rewrite Erel; unfold past_window in Hpast; destruct (swa_prefix_lock_released r), release; done).
    destruct (release_ok _ _ _ _ _ _ _ _ _ _ Hr1 Hrr1 Hrel1) as (c2 & s2 & E2 & Hr2 & Ec2 & Hrr2 & Hk2). unfold e_req in *. simpl in *.
    rewrite (rr_node _ _ _ _ _ _ _ _ _ _ Hrr1). wp_steps. eapply wp_in_ok; [rewrite <-Ec1; exact E2|]. wp_step. exists s2. split_and!; try done.
    + split; unfold e_req; simpl; [done..|]. by rewrite Hpast, orb_true_r.
    + eapply others_keep_trans; [exact Hk1|]. destruct Hk2. split; try done. intros x Hx _. apply ok_back0; [done|apply not_elem_of_nil].
  - wp_step. exists s1. split_and!; try done. split; unfold e_req; simpl; [done..|]. by rewrite Erel, Hpast, orb_false_r.
Qed.

#[global] Instance batch_ready_proper s p : Proper ((≡ₚ) ==> iff) (batch_ready s p).
Proof.
  assert (∀ l l', l ≡ₚ l' → batch_ready s p l → batch_ready s p l') as Hp; [|intros l l' Hl; split; by apply Hp].
  intros l l' Hl [He Hn Ho]. split.
  - intros e. rewrite <-Hl. apply He.
  - by rewrite <-Hl.
  - by rewrite <-Hl.
Qed.
Lemma batch_step s s' p e e' l cf release scaled : reachable s → batch_ready s p (e :: l) → others_keep s s' (e_slots e) (v_lock e.2) →
  entry_ready s' p e' → decoded cf release scaled e e' → batch_ready s' p (e' :: l).
Proof.
  intros Hr [He Hn Ho] Hk Hrr [(Ev & Ei & Es & Eu) _ _ _]. rewrite fmap_cons in Hn. apply NoDup_cons in Hn as [Hni Hn].
  pose proof (reachable_nodup s Hr) as Hnd. destruct (submseteq_Permutation _ _ Ho) as [rest Hrest]. rewrite Hrest in Hnd. apply NoDup_app in Hnd as (Hnd & _ & _).
  simpl in Hnd. apply NoDup_app in Hnd as (_ & Hdis & _). split.
  - intros e2 [->|Hin]%elem_of_cons; [split; [done|rewrite Es, Ev; by apply (He e); left]|]. destruct (He e2) as [Hrr2 Hl2]; [by right|]. split; [|done].
    eapply other_stays; [exact Hr|exact Hk| |intros x Hx Hm|exact Hrr2].
    + intros E. apply Hni. rewrite <-E. apply list_elem_of_fmap. by exists e2.
    + apply (Hdis x Hm). apply elem_of_concat. exists (e_slots e2). split; [|done]. apply list_elem_of_fmap. by exists e2.
  - rewrite fmap_cons, Ev. by apply NoDup_cons.
  - rewrite (ok_own _ _ _ _ Hk). simpl. unfold e_slots at 1. rewrite Es, Ev. exact Ho.
Qed.
Lemma maybe_evict_ok release scaled todo l1 s w : reachable s → sw_cache w = cl_cache s → batch_ready s (sw_pool w) (l1 ++ todo) →
  ∃ todo' w' s', maybe_evict_swa release scaled todo.*1 w = Ok (todo'.*1, w') ∧ reachable s' ∧ cl_cache s' = sw_cache w' ∧ sw_pool w' = sw_pool w ∧ cl_own s' = cl_own s
    ∧ batch_ready s' (sw_pool w') (l1 ++ todo') ∧ Forall2 (decoded (sw_cfg (cl_cache s)) release scaled) todo todo'.
Proof.
  revert l1 s w. induction todo as [|e todo IH]; intros l1 s w Hr Ew Hb; [exists [], w, s; split_and!; try done; by constructor|].
  rewrite <-Permutation_middle in Hb. destruct (br_each _ _ _ Hb e) as [Hrr Hlen]; [by left|].
  destruct (decode_evict_ok s w release scaled e Hr Ew Hrr Hlen) as (e1 & w1 & s1 & E1 & Hr1 & Ec1 & Ep1 & Hrr1 & Hd & Hk). rewrite Ep1 in Hrr1.
  pose proof (batch_step _ _ _ _ _ _ _ _ _ Hr Hb Hk Hrr1 Hd) as Hb1. assert (e1 :: l1 ++ todo ≡ₚ (l1 ++ [e1]) ++ todo) as Hperm by (rewrite <-(assoc (++)); apply Permutation_middle).
  rewrite Hperm, <-Ep1 in Hb1. destruct (IH (l1 ++ [e1]) s1 w1 Hr1 (eq_sym Ec1) Hb1) as (l' & w' & s' & E & Hr' & Ec & Ep & Eo & Hb' & Hds). rewrite (ok_cfg _ _ _ _ Hk) in Hds. rewrite (ok_own _ _ _ _ Hk) in Eo.
  exists (e1 :: l'), w', s'. rewrite <-(assoc (++)) in Hb'. split_and!; try done; [|congruence|by constructor].
  rewrite !fmap_cons. cbn [maybe_evict_swa]. unfold mbind at 1, ST_bind, st_bind. rewrite E1. unfold mbind, ST_bind, st_bind. by rewrite E.
Qed.
End proofs.
