(* ===== verification/SwaAlloc.v ===== *)
(** The allocator of the two pools: [class SWATokenToKVPoolAllocator] of
    mem_cache/swa_memory_pool.py.

    A slot of the full-attention pool is handed to requests and to the tree; its number
    indexes [full_to_swa_index_mapping], which holds the slot of the window pool behind
    it, or 0.  The mapping ends with an extra -1, so that the index -1 maps to -1. *)
From S2P Require Import Prelude RadixCache Allocator AllocKernel SwaLru SwaCache SwaAbs SwaInv SwaOps.
From stdpp Require Import options.

Local Open Scope Z_scope.

Record SWAPool := MkSWAPool {
  size_full : Z;
  size_swa : Z;
  swa_ps : Z;
  full_attn_allocator : KVPool;
  swa_attn_allocator : KVPool;
  full_to_swa : list Z;
  swa_open : bool;
  swa_group : list (list Z);
}.

(** ** Tensors of indices *)

(** The position of index [i] in a tensor of [n] items: negative indices count from the end. *)
Definition tidx (n : nat) (i : Z) : result nat :=
  let j := if bool_decide (i < 0) then i + Z.of_nat n else i in
  if bool_decide (0 <= j) && bool_decide (j < Z.of_nat n) then Ok (Z.to_nat j) else Raise IndexError.
(** [t[index]] *)
Fixpoint gather (t : list Z) (index : list Z) : result (list Z) :=
  match index with
  | [] => Ok []
  | i :: index => j ← tidx (length t) i; v ← unwrap IndexError (t !! j); vs ← gather t index; Ok (v :: vs)
  end.
(** [t[index] = values] *)
Fixpoint scatter (t : list Z) (ws : list (Z * Z)) : result (list Z) :=
  match ws with
  | [] => Ok t
  | w :: ws => j ← tidx (length t) w.1; scatter (<[j := w.2]> t) ws
  end.
Definition fill (t index : list Z) (v : Z) : result (list Z) := scatter t ((λ i, (i, v)) <$> index).

(** ** The pools *)
Definition set_full (k : KVPool) (p : SWAPool) : SWAPool :=
  MkSWAPool (size_full p) (size_swa p) (swa_ps p) k (swa_attn_allocator p) (full_to_swa p) (swa_open p) (swa_group p).
Definition set_window (k : KVPool) (p : SWAPool) : SWAPool :=
  MkSWAPool (size_full p) (size_swa p) (swa_ps p) (full_attn_allocator p) k (full_to_swa p) (swa_open p) (swa_group p).
Definition set_mapping (t : list Z) (p : SWAPool) : SWAPool :=
  MkSWAPool (size_full p) (size_swa p) (swa_ps p) (full_attn_allocator p) (swa_attn_allocator p) t (swa_open p) (swa_group p).
Definition set_swa_group (b : bool) (g : list (list Z)) (p : SWAPool) : SWAPool :=
  MkSWAPool (size_full p) (size_swa p) (swa_ps p) (full_attn_allocator p) (swa_attn_allocator p) (full_to_swa p) b g.

(** The methods of the pools: [TokenToKVPoolAllocator] with pages of one slot, else
    [PagedTokenToKVPoolAllocator]. *)
Definition pool_available (ps : Z) (k : KVPool) : Z := if bool_decide (ps = 1) then Token.available_size k else Base.available_size k.
Definition pool_free (ps : Z) (l : list Z) (k : KVPool) : result KVPool :=
  if bool_decide (ps = 1) then Ok (Token.free l k) else Paged.free l k.
Definition pool_clear (ps : Z) (k : KVPool) : KVPool := if bool_decide (ps = 1) then Token.clear k else Paged.clear k.
Definition pool_init (size ps : Z) (sort debug : bool) : KVPool :=
  if bool_decide (ps = 1) then Token.init size sort else Paged.init size ps sort debug.

Module SWA.
Definition full_available_size (p : SWAPool) : Z := pool_available (swa_ps p) (full_attn_allocator p).
Definition swa_available_size (p : SWAPool) : Z := pool_available (swa_ps p) (swa_attn_allocator p).
Definition available_size (p : SWAPool) : Z := Z.min (full_available_size p) (swa_available_size p).
Definition size (p : SWAPool) : Z := Z.min (size_full p) (size_swa p).

(** [clear]: the last item of the mapping is kept. *)
Definition clear (p : SWAPool) : SWAPool :=
  let t := full_to_swa p in
  MkSWAPool (size_full p) (size_swa p) (swa_ps p) (pool_clear (swa_ps p) (full_attn_allocator p)) (pool_clear (swa_ps p) (swa_attn_allocator p))
    (replicate (length t - 1) 0 ++ drop (length t - 1) t) true [].
Definition init (size_f size_s page_size : Z) (sort debug : bool) : SWAPool :=
  clear (MkSWAPool size_f size_s page_size (pool_init size_f page_size sort debug) (pool_init size_s page_size sort debug)
    (replicate (Z.to_nat (size_f + page_size)) 0 ++ [-1]) true []).

Definition translate_loc_from_full_to_swa (kv_indices : list Z) (p : SWAPool) : result (list Z) := gather (full_to_swa p) kv_indices.
Definition set_full_to_swa_mapping (full_indices swa_indices : list Z) (p : SWAPool) : result SWAPool :=
  match full_indices with
  | [] => Ok p
  | _ =>
      _ ← py_assert (bool_decide (length full_indices = length swa_indices));
      t ← scatter (full_to_swa p) (zip full_indices swa_indices);
      Ok (set_mapping t p)
  end.

Definition alloc (need_size : nat) (p : SWAPool) : result (option (list Z) * SWAPool) :=
  _ ← py_assert (bool_decide (swa_ps p = 1));
  if bool_decide (full_available_size p < Z.of_nat need_size) then Ok (None, p)
  else if bool_decide (swa_available_size p < Z.of_nat need_size) then Ok (None, p)
  else
    let rf := Token.alloc need_size (full_attn_allocator p) in
    let rs := Token.alloc need_size (swa_attn_allocator p) in
    let p := set_window rs.2 (set_full rf.2 p) in
    full ← unwrap AssertionError rf.1;
    swa ← unwrap AssertionError rs.1;
    t ← scatter (full_to_swa p) (zip full swa);
    Ok (Some full, set_mapping t p).

Section kernels.
Context (masked : AllocKernel.MaskedLanes) (oob : Z → Z) (fresh : Z → Z).

Definition alloc_extend (prefix_lens prefix_lens_cpu seq_lens seq_lens_cpu last_loc : list Z) (extend_num_tokens : nat) (p : SWAPool)
    : result (option (list Z) * SWAPool) :=
  _ ← py_assert (bool_decide (1 < swa_ps p));
  num_new_pages ← get_num_new_pages seq_lens_cpu (swa_ps p) (Some prefix_lens_cpu) false;
  if bool_decide (full_available_size p / swa_ps p < num_new_pages) then Ok (None, p)
  else if bool_decide (swa_available_size p / swa_ps p < num_new_pages) then Ok (None, p)
  else
    swa_last_loc ← translate_loc_from_full_to_swa last_loc p;
    rf ← AllocKernel.alloc_extend masked oob fresh prefix_lens prefix_lens_cpu seq_lens seq_lens_cpu last_loc extend_num_tokens (Some num_new_pages) (full_attn_allocator p);
    rs ← AllocKernel.alloc_extend masked oob fresh prefix_lens prefix_lens_cpu seq_lens seq_lens_cpu swa_last_loc extend_num_tokens (Some num_new_pages) (swa_attn_allocator p);
    let p := set_window rs.2 (set_full rf.2 p) in
    full ← unwrap AssertionError rf.1;
    swa ← unwrap AssertionError rs.1;
    t ← scatter (full_to_swa p) (zip full swa);
    Ok (Some full, set_mapping t p).

Definition alloc_decode (seq_lens seq_lens_cpu last_loc : list Z) (p : SWAPool) : result (option (list Z) * SWAPool) :=
  _ ← py_assert (bool_decide (1 < swa_ps p));
  swa_last_loc ← translate_loc_from_full_to_swa last_loc p;
  rf ← AllocKernel.alloc_decode masked oob fresh seq_lens seq_lens_cpu last_loc (full_attn_allocator p);
  rs ← AllocKernel.alloc_decode masked oob fresh seq_lens seq_lens_cpu swa_last_loc (swa_attn_allocator p);
  let p := set_window rs.2 (set_full rf.2 p) in
  match rf.1, rs.1 with
  | Some full, Some swa => t ← scatter (full_to_swa p) (zip full swa); Ok (Some full, set_mapping t p)
  | _, _ => Ok (None, p)
  end.
End kernels.

Definition free_swa (free_index : list Z) (p : SWAPool) : result SWAPool :=
  swa_indices ← gather (full_to_swa p) free_index;
  k ← pool_free (swa_ps p) (filter (λ i, 0 < i) swa_indices) (swa_attn_allocator p);
  t ← fill (full_to_swa p) free_index 0;
  Ok (set_mapping t (set_window k p)).

Definition free (free_index : list Z) (p : SWAPool) : result SWAPool :=
  match free_index with
  | [] => Ok p
  | _ =>
      p ← (if swa_open p then
             k ← pool_free (swa_ps p) free_index (full_attn_allocator p);
             free_swa free_index (set_full k p)
           else Ok (set_swa_group (swa_open p) (swa_group p ++ [free_index]) p));
      _ ← py_assert (bool_decide (full_available_size p <= pool_size (full_attn_allocator p)));
      _ ← py_assert (bool_decide (swa_available_size p <= pool_size (swa_attn_allocator p)));
      Ok p
  end.

(** The methods of the base class. *)
Definition free_group_begin (p : SWAPool) : SWAPool := set_swa_group false [] p.
Definition free_group_end (p : SWAPool) : result SWAPool :=
  let p := set_swa_group true (swa_group p) p in
  match swa_group p with [] => Ok p | g => free (concat g) p end.

Definition backup_state (p : SWAPool) : (list Z * list Z) * (list Z * list Z) :=
  (Base.backup_state (full_attn_allocator p), Base.backup_state (swa_attn_allocator p)).
Definition restore_state (st : (list Z * list Z) * (list Z * list Z)) (p : SWAPool) : SWAPool :=
  set_window (Base.restore_state st.2 (swa_attn_allocator p)) (set_full (Base.restore_state st.1 (full_attn_allocator p)) p).
End SWA.

#[global] Instance SWAPool_SWAAllocator : SWAAllocator SWAPool := {| sa_free := SWA.free; sa_free_swa := SWA.free_swa |}.

(** The allocator of the two pools keeps them apart: every window slot is free or behind
    exactly one slot of the full pool, and free slots of the full pool have none.  With
    pages of one slot it is what the sliding-window tree relies on. *)

Local Open Scope Z_scope.

(** ** Tensors *)
Section tensors.
Implicit Types (t l : list Z) (i j v : Z).

Definition in_range (n : nat) (i : Z) : Prop := 0 <= i < Z.of_nat n.
Lemma tidx_in n i : in_range n i → tidx n i = Ok (Z.to_nat i).
Proof. intros [H0 H1]. unfold tidx. rewrite (bool_decide_false (i < 0)) by lia. by rewrite !bool_decide_true. Qed.

(** What the tensor holds at [i]. *)
Definition tget t i : Z := default 0 (t !! Z.to_nat i).
Lemma tget_lookup t i : in_range (length t) i → t !! Z.to_nat i = Some (tget t i).
Proof. intros [H0 H1]. unfold tget. destruct (lookup_lt_is_Some_2 t (Z.to_nat i)) as [v Hv]; [lia|]. by rewrite Hv. Qed.
Lemma tget_insert t i j v : in_range (length t) i → 0 <= j → tget (<[Z.to_nat i := v]> t) j = if decide (j = i) then v else tget t j.
Proof.
  intros [H0 H1] Hj. unfold tget. destruct (decide (j = i)) as [->|Hne]; [by rewrite list_lookup_insert_eq by lia|]. rewrite list_lookup_insert_ne; [done|lia].
Qed.

Lemma gather_in t l : Forall (in_range (length t)) l → gather t l = Ok (tget t <$> l).
Proof.
  induction 1 as [|i l Hi _ IH]; [done|]. simpl. rewrite tidx_in by done. cbn [mbind result_bind]. rewrite tget_lookup by done. cbn [unwrap mbind result_bind].
  by rewrite IH.
Qed.

(** Several writes: the last one to an index counts. *)
Lemma scatter_in ws t : Forall (in_range (length t)) ws.*1 → NoDup ws.*1 →
  ∃ t', scatter t ws = Ok t' ∧ length t' = length t ∧ (∀ j, 0 <= j → j ∉ ws.*1 → tget t' j = tget t j) ∧ (∀ w, w ∈ ws → tget t' w.1 = w.2).
Proof.
  revert t. induction ws as [|[i v] ws IH]; intros t; simpl.
  - intros _ _. exists t. split_and!; try done. by intros ? ?%elem_of_nil.
  - intros [Hi Hr]%Forall_cons [Hni Hnd]%NoDup_cons. rewrite tidx_in by done. cbn [mbind result_bind].
    destruct (IH (<[Z.to_nat i := v]> t)) as (t' & Ht' & Hl & Hout & Hin); [by rewrite length_insert|done|]. rewrite length_insert in *.
    exists t'. split_and!; [done|done| |].
    + intros j Hj Hnj. apply not_elem_of_cons in Hnj as [Hne Hnj]. rewrite Hout by done. rewrite tget_insert by done. by rewrite decide_False.
    + intros w [->|Hw]%elem_of_cons; [|by apply Hin]. simpl. rewrite Hout; [|by destruct Hi|done]. rewrite tget_insert; [|done|by destruct Hi]. by rewrite decide_True.
Qed.

(** The positive entries, when one of them is cleared or set. *)
Definition positives t : list Z := filter (λ v, 0 < v) t.
Lemma positives_insert t i v : in_range (length t) i → positives [v] ++ positives t ≡ₚ positives [tget t i] ++ positives (<[Z.to_nat i := v]> t).
Proof.
  intros Hi. pose proof (tget_lookup t i Hi) as Hl. set (n := Z.to_nat i) in *. rewrite insert_take_drop by (apply lookup_lt_Some in Hl; done).
  rewrite <-(take_drop_middle t n (tget t i) Hl) at 1. unfold positives. rewrite !filter_app, !(filter_cons _ _ (drop _ _)), !filter_cons, !filter_nil.
  destruct (decide (0 < v)), (decide (0 < tget t i)); simpl; rewrite <-?Permutation_middle; done || (by constructor).
Qed.
Lemma positives_scatter ws t t' : Forall (in_range (length t)) ws.*1 → NoDup ws.*1 → scatter t ws = Ok t' →
  positives (ws.*2) ++ positives t ≡ₚ positives (tget t <$> ws.*1) ++ positives t'.
Proof.
  revert t. induction ws as [|[i v] ws IH]; intros t; simpl; [by intros _ _ [= ->]|].
  intros [Hi Hr]%Forall_cons [Hni Hnd]%NoDup_cons. rewrite tidx_in by done. cbn [mbind result_bind]. intros Hs.
  specialize (IH (<[Z.to_nat i := v]> t)). rewrite length_insert in IH. specialize (IH Hr Hnd Hs).
  assert (tget (<[Z.to_nat i := v]> t) <$> ws.*1 = tget t <$> ws.*1) as E.
  { apply list_fmap_ext. intros k j Hk. rewrite tget_insert; [|done|]. { rewrite decide_False; [done|]. intros ->. apply Hni. by eapply list_elem_of_lookup_2. }
    rewrite Forall_forall in Hr. apply list_elem_of_lookup_2 in Hk. by destruct (Hr _ Hk). }
  rewrite E in IH. pose proof (positives_insert t i v Hi) as Hp.
  assert (∀ w l, positives (w :: l) = positives [w] ++ positives l) as Hc by (intros w l; unfold positives; by rewrite <-filter_app).
  rewrite (Hc v), (Hc (tget t i)), <-!(assoc (++)), (Permutation_app_swap_app (positives [v])), Hp, (Permutation_app_swap_app _ (positives [_])). by rewrite IH.
Qed.
End tensors.

(** ** The invariant *)
Definition full_slots (p : SWAPool) : list Z := arange 1 (Z.to_nat (size_full p)).
Definition swa_slots (p : SWAPool) : list Z := arange 1 (Z.to_nat (size_swa p)).
(** The window slot behind [i], or 0. *)
Definition behind (p : SWAPool) (i : Z) : Z := tget (full_to_swa p) i.

Record swa_pool_ok (p : SWAPool) : Prop := {
  po_ps : swa_ps p = 1;
  po_open : swa_open p = true ∧ is_not_in_free_group (full_attn_allocator p) = true ∧ is_not_in_free_group (swa_attn_allocator p) = true;
  po_wf : pool_wf (full_attn_allocator p) ∧ pool_wf (swa_attn_allocator p);
  po_sizes : 0 <= size_full p ∧ 0 <= size_swa p ∧ pool_size (full_attn_allocator p) = size_full p ∧ pool_size (swa_attn_allocator p) = size_swa p;
  po_len : length (full_to_swa p) = Z.to_nat (size_full p + 2);
  po_free : NoDup (held (full_attn_allocator p)) ∧ ∀ i, i ∈ held (full_attn_allocator p) → i ∈ full_slots p ∧ behind p i = 0;
  po_ends : behind p 0 = 0 ∧ behind p (size_full p + 1) = -1;
  po_nonneg : ∀ i, i ∈ full_slots p → 0 <= behind p i;
  po_window : held (swa_attn_allocator p) ++ positives (full_to_swa p) ≡ₚ swa_slots p;
}.

Definition used_slots (p : SWAPool) : gset Z := list_to_set (filter (λ i, i ∉ held (full_attn_allocator p)) (full_slots p)).
Definition backed_slots (p : SWAPool) : gset Z := list_to_set (filter (λ i, 0 < behind p i) (full_slots p)).

Lemma elem_of_full_slots p i : i ∈ full_slots p ↔ 1 <= i ∧ i < 1 + Z.of_nat (Z.to_nat (size_full p)).
Proof. apply elem_of_arange. Qed.
Lemma elem_of_used p i : i ∈ used_slots p ↔ i ∈ full_slots p ∧ i ∉ held (full_attn_allocator p).
Proof. unfold used_slots. rewrite elem_of_list_to_set, list_elem_of_filter. tauto. Qed.
Lemma elem_of_backed p i : i ∈ backed_slots p ↔ i ∈ full_slots p ∧ 0 < behind p i.
Proof. unfold backed_slots. rewrite elem_of_list_to_set, list_elem_of_filter. tauto. Qed.
Lemma token_free_held l k : is_not_in_free_group k = true → held (Token.free l k) ≡ₚ held k ++ l.
Proof.
  intros Ho. unfold held, Token.free. destruct l; [by rewrite app_nil_r|]. rewrite Ho. destruct (need_sort k); simpl; rewrite <-!(assoc (++)); [done|].
  f_equiv. by rewrite (comm (++)).
Qed.
Lemma token_free_size l k : pool_size (Token.free l k) = pool_size k.
Proof. unfold Token.free. destruct l; [done|]. by destruct (is_not_in_free_group k), (need_sort k). Qed.
Lemma token_available k : Token.available_size k = Z.of_nat (length (held k)).
Proof. unfold Token.available_size, held. rewrite length_app. lia. Qed.

Section pool.
Context (p : SWAPool) (Hp : swa_pool_ok p).

Lemma slot_in_range i : i ∈ full_slots p → in_range (length (full_to_swa p)) i.
Proof using Hp. rewrite elem_of_full_slots. destruct (po_sizes _ Hp) as (? & _). unfold in_range. rewrite (po_len _ Hp). lia. Qed.
Lemma range_slots l : (∀ i, i ∈ l → i ∈ full_slots p) → Forall (in_range (length (full_to_swa p))) l.
Proof using Hp. intros Hl. apply Forall_forall. intros i Hi. by apply slot_in_range, Hl. Qed.

(** [free_swa]: the window slots behind [l] are free again. *)
Lemma free_swa_spec l : NoDup l → (∀ i, i ∈ l → i ∈ full_slots p) →
  ∃ p', SWA.free_swa l p = Ok p' ∧ swa_pool_ok p' ∧ full_attn_allocator p' = full_attn_allocator p ∧ size_full p' = size_full p
    ∧ (∀ i, i ∈ full_slots p → behind p' i = if decide (i ∈ l) then 0 else behind p i).
Proof using Hp.
  intros Hnd Hl. pose proof (range_slots l Hl) as Hr. pose proof Hp as [Hps (Ho & Hof & Hos) [Hwf Hws] (Hs0 & Hs1 & Esf & Ess) Hlen [Hnf Hfree] [Hz Hend] Hnn Hwin].
  unfold SWA.free_swa. rewrite gather_in by done. cbn [mbind result_bind]. unfold pool_free. rewrite Hps, bool_decide_true by done. cbn [mbind result_bind].
  set (ws := (λ i : Z, (i, 0)) <$> l). assert (ws.*1 = l) as E1 by (unfold ws; rewrite <-list_fmap_compose; apply list_fmap_id).
  assert (positives ws.*2 = []) as E2.
  { unfold ws. rewrite <-list_fmap_compose. unfold positives. apply filter_nothing. apply Forall_forall. intros v (i & -> & _)%list_elem_of_fmap. simpl. lia. }
  destruct (scatter_in ws (full_to_swa p)) as (t' & Ht' & Hlt & Hout & Hin); [by rewrite E1..|].
  pose proof (positives_scatter ws (full_to_swa p) t') as Hpos. rewrite E1, E2 in *. specialize (Hpos Hr Hnd Ht'). simpl in Hpos.
  unfold fill. fold ws. rewrite Ht'. cbn [mbind result_bind]. eexists. split; [done|].
  assert (∀ i, i ∈ l → tget t' i = 0) as Hzero by (intros i Hi; apply (Hin (i, 0)); unfold ws; apply list_elem_of_fmap; by exists i).
  assert (∀ i, 0 <= i → tget t' i = if decide (i ∈ l) then 0 else behind p i) as Hbehind.
  { intros i Hi. destruct (decide (i ∈ l)); [auto|by apply Hout]. }
  assert (∀ i, i ∈ l → 1 <= i < size_full p + 1) as Hlr by (intros i Hi; specialize (Hl i Hi); rewrite elem_of_full_slots in Hl; lia).
  split_and!; [|done|done|].
  - split; simpl; try done.
    + split_and!; [done|done|by rewrite token_free_flag].
    + split; [done|by apply token_free_wf].
    + split_and!; [done|done|done|by rewrite token_free_size].
    + by rewrite Hlt.
    + split; [done|]. intros i Hi. destruct (Hfree i Hi) as [Hi1 Hi2]. split; [done|]. rewrite elem_of_full_slots in Hi1. unfold behind. simpl. rewrite Hbehind by lia. by case_decide.
    + unfold behind. simpl. rewrite !Hbehind by lia. rewrite !decide_False; [done| |]; intros Hi%Hlr; lia.
    + intros i Hi. unfold behind. simpl. pose proof (Hnn i Hi). rewrite elem_of_full_slots in Hi. rewrite Hbehind by lia. case_decide; [lia|done].
    + rewrite token_free_held by done. rewrite <-(assoc (++)). fold (positives (tget (full_to_swa p) <$> l)). by rewrite <-Hpos.
  - intros i Hi. rewrite elem_of_full_slots in Hi. unfold behind at 1. simpl. apply Hbehind. lia.
Qed.

Lemma free_swa_set_full l k : SWA.free_swa l (set_full k p) = set_full k <$> SWA.free_swa l p.
Proof using.
  unfold SWA.free_swa. simpl. destruct (gather _ _); [|done..]. cbn [mbind result_bind]. destruct (pool_free _ _ _); [|done..]. cbn [mbind result_bind].
  by destruct (fill _ _ _).
Qed.
(** The sizes the code asserts. *)
Lemma full_fits : Z.of_nat (length (held (full_attn_allocator p))) <= size_full p.
Proof using Hp.
  destruct (po_free _ Hp) as [Hnd Hin]. assert (held (full_attn_allocator p) ⊆+ full_slots p) as Hs by (apply NoDup_submseteq; [done|intros i Hi; by apply Hin]).
  apply submseteq_length in Hs. unfold full_slots in Hs. rewrite arange_length in Hs. destruct (po_sizes _ Hp) as (? & _). lia.
Qed.
Lemma window_fits : Z.of_nat (length (held (swa_attn_allocator p))) <= size_swa p.
Proof using Hp.
  pose proof (Permutation_length (po_window _ Hp)) as Hl. unfold swa_slots in Hl. rewrite length_app, arange_length in Hl. destruct (po_sizes _ Hp) as (_ & ? & _). lia.
Qed.
End pool.

(** [free]: the slots [l] and the window slots behind them. *)
Lemma free_pool_spec p l : swa_pool_ok p → NoDup l → (∀ i, i ∈ l → i ∈ used_slots p) →
  ∃ p', SWA.free l p = Ok p' ∧ swa_pool_ok p' ∧ held (full_attn_allocator p') ≡ₚ held (full_attn_allocator p) ++ l ∧ size_full p' = size_full p
    ∧ (∀ i, i ∈ full_slots p → behind p' i = if decide (i ∈ l) then 0 else behind p i).
Proof.
  intros Hp Hnd Hl. assert (∀ i, i ∈ l → i ∈ full_slots p ∧ i ∉ held (full_attn_allocator p)) as Hl' by (intros i Hi; by apply elem_of_used, Hl).
  destruct (free_swa_spec p Hp l Hnd) as (p1 & Hf & Hp1 & Ef & Es & Hb); [intros i Hi; by apply Hl'|].
  pose proof Hp as [Hps (Ho & Hof & Hos) [Hwf Hws] _ _ [Hnf Hfree] _ _ _].
  set (p' := set_full (Token.free l (full_attn_allocator p)) p1).
  assert (full_slots p1 = full_slots p) as Efs by (unfold full_slots; by rewrite Es).
  pose proof (token_free_held l (full_attn_allocator p) Hof) as Hh.
  assert (swa_pool_ok p') as Hp'.
  { pose proof Hp1 as [Hps1 (Ho1 & _ & Hos1) [_ Hws1] (Hs0 & Hs1 & Esf & Ess) Hlen1 _ Hend1 Hnn1 Hwin1]. split; simpl; try done.
    - split_and!; [done|by rewrite token_free_flag|done].
    - split; [by apply token_free_wf|done].
    - split_and!; [done|done| |done]. rewrite token_free_size, <-Ef. done.
    - split.
      + rewrite Hh. apply NoDup_app. split_and!; [done| |done]. intros i Hi Hil. by destruct (Hl' i Hil).
      + intros i Hi. change (full_slots p') with (full_slots p1). rewrite Efs. rewrite Hh, elem_of_app in Hi. destruct Hi as [Hi|Hi].
        * destruct (Hfree i Hi) as [? E]. split; [done|]. change (behind p1 i = 0). rewrite Hb by done. by case_decide.
        * destruct (Hl' i Hi). split; [done|]. change (behind p1 i = 0). rewrite Hb by done. by rewrite decide_True. }
  destruct l as [|i0 l0].
  { exists p. split_and!; [done|done|by rewrite app_nil_r|done|]. intros i _. by rewrite decide_False by apply not_elem_of_nil. }
  exists p'. split_and!; [|done|exact Hh|done|done]. unfold SWA.free. rewrite Ho. unfold pool_free. rewrite Hps, bool_decide_true by done. cbn [mbind result_bind].
  rewrite free_swa_set_full, Hf. cbn [mbind result_bind fmap result_fmap]. fold p'. pose proof Hp' as [Hps' _ _ (_ & _ & E1 & E2) _ _ _ _ _].
  unfold SWA.full_available_size, SWA.swa_available_size, pool_available. rewrite Hps', (bool_decide_true (1 = 1)) by done. rewrite !token_available, E1, E2.
  rewrite (bool_decide_true (_ <= size_full _)) by (by apply full_fits). by rewrite bool_decide_true by (by apply window_fits).
Qed.

#[global] Instance SWAPool_Laws : SWAAllocatorLaws SWAPool 1.
Proof.
  refine {| sa_ok := swa_pool_ok; sa_used := used_slots; sa_backed := backed_slots; sa_fits _ := True |}; [done| |].
  - intros p l Hp Hnd _ Hl. destruct (free_pool_spec p l Hp Hnd Hl) as (p' & Hf & Hp' & Hh & Es & Hb). exists p'. split_and!; [done|done| |].
    + apply set_eq. intros i. rewrite elem_of_difference, elem_of_list_to_set, !elem_of_used, Hh, elem_of_app. unfold full_slots. rewrite Es. tauto.
    + apply set_eq. intros i. rewrite elem_of_difference, elem_of_list_to_set, !elem_of_backed. unfold full_slots. rewrite Es. fold (full_slots p).
      split; [intros [Hi H0]|intros [[Hi H0] Hn]]; rewrite (Hb i Hi) in *; destruct (decide (i ∈ l)); try done; lia.
  - intros p l Hp Hnd _ Hl. destruct (free_swa_spec p Hp l Hnd) as (p' & Hf & Hp' & Ef & Es & Hb); [intros i Hi; by apply Hl, elem_of_backed in Hi as [? _]|].
    exists p'. split_and!; [done|done| |].
    + apply set_eq. intros i. rewrite !elem_of_used, Ef. unfold full_slots. by rewrite Es.
    + apply set_eq. intros i. rewrite elem_of_difference, elem_of_list_to_set, !elem_of_backed. unfold full_slots. rewrite Es. fold (full_slots p).
      split; [intros [Hi H0]|intros [[Hi H0] Hn]]; rewrite (Hb i Hi) in *; destruct (decide (i ∈ l)); try done; lia.
Defined.

(** ** alloc *)
Lemma token_alloc_frame n k : let k' := (Token.alloc n k).2 in pool_size k' = pool_size k ∧ is_not_in_free_group k' = is_not_in_free_group k.
Proof.
  unfold Token.alloc. cbv zeta. destruct (_ && _); [|by case_decide]. unfold Base.merge_and_sort_free. destruct (decide (0 < length (release_pages k))%nat); by case_decide.
Qed.
Lemma token_alloc_some n k : pool_wf k → Z.of_nat n <= Z.of_nat (length (held k)) →
  ∃ out k', Token.alloc n k = (Some out, k') ∧ length out = n ∧ held k ≡ₚ out ++ held k' ∧ pool_wf k' ∧ pool_size k' = pool_size k ∧ is_not_in_free_group k' = is_not_in_free_group k.
Proof.
  intros Hwf Hn. pose proof (token_alloc_spec n k Hwf) as Hs. pose proof (token_alloc_frame n k) as [E1 E2]. rewrite <-token_available in Hn.
  destruct (Token.alloc n k) as [[out|] k']; [|lia]. destruct Hs as (? & ? & ? & ? & ?). by exists out, k'.
Qed.

Record allocated (p : SWAPool) (out : list Z) (p' : SWAPool) : Prop := {
  al_ok : swa_pool_ok p';
  al_nodup : NoDup out;
  al_fresh : ∀ i, i ∈ out → i ∉ used_slots p;
  al_used : used_slots p' = used_slots p ∪ list_to_set out;
  al_backed : backed_slots p' = backed_slots p ∪ list_to_set out;
}.
Lemma alloc_pool_spec p n : swa_pool_ok p →
  if decide (Z.of_nat n <= SWA.available_size p) then ∃ out p', SWA.alloc n p = Ok (Some out, p') ∧ length out = n ∧ allocated p out p'
  else SWA.alloc n p = Ok (None, p).
Proof.
  intros Hp. pose proof Hp as [Hps (Ho & Hof & Hos) [Hwf Hws] (Hs0 & Hs1 & Esf & Ess) Hlen [Hnf Hfree] [Hz Hend] Hnn Hwin].
  unfold SWA.alloc. rewrite Hps, (bool_decide_true (1 = 1)) by done. cbn [py_assert mbind result_bind].
  unfold SWA.available_size, SWA.full_available_size, SWA.swa_available_size, pool_available. rewrite Hps, (bool_decide_true (1 = 1)) by done. rewrite !token_available.
  set (nf := length (held (full_attn_allocator p))). set (ns := length (held (swa_attn_allocator p))). destruct (decide _) as [Hn|Hn].
  2: { destruct (decide (Z.of_nat nf < Z.of_nat n)); [by rewrite bool_decide_true|]. rewrite bool_decide_false by done. by rewrite bool_decide_true by lia. }
  rewrite !bool_decide_false by lia.
  destruct (token_alloc_some n (full_attn_allocator p)) as (full & kf & -> & Lf & Pf & Wf & Sf & Of); [done|lia|].
  destruct (token_alloc_some n (swa_attn_allocator p)) as (swa & ks & -> & Lw & Pw & Ww & Sw & Ow); [done|lia|]. cbn [fst snd unwrap mbind result_bind]. simpl full_to_swa.
  assert ((zip full swa).*1 = full) as E1 by (apply fst_zip; lia). assert ((zip full swa).*2 = swa) as E2 by (apply snd_zip; lia).
  assert (∀ i, i ∈ full → i ∈ full_slots p ∧ behind p i = 0) as Hfull by (intros i Hi; apply Hfree; rewrite Pf, elem_of_app; by left).
  rewrite Pf in Hnf. apply NoDup_app in Hnf as (Hnd & Hdis & Hnd').
  pose proof (range_slots p Hp full (λ i Hi, proj1 (Hfull i Hi))) as Hr.
  destruct (scatter_in (zip full swa) (full_to_swa p)) as (t' & Ht' & Hlt & Hout & Hin); [by rewrite E1..|].
  pose proof (positives_scatter (zip full swa) (full_to_swa p) t') as Hpos. rewrite E1, E2 in *. specialize (Hpos Hr Hnd Ht'). rewrite Ht'. cbn [mbind result_bind].
  assert (∀ s, s ∈ swa → 0 < s) as Hsw.
  { intros s Hs. assert (s ∈ swa_slots p) as Hs' by (rewrite <-Hwin, Pw, !elem_of_app; auto). unfold swa_slots in Hs'. rewrite elem_of_arange in Hs'. lia. }
  assert (positives swa = swa) as Eps by (apply filter_full; by apply Forall_forall).
  assert (positives (tget (full_to_swa p) <$> full) = []) as Epf.
  { apply filter_nothing. apply Forall_forall. intros v (i & -> & Hi)%list_elem_of_fmap. destruct (Hfull i Hi) as [_ E]. unfold behind in E. lia. }
  rewrite Eps, Epf in Hpos. simpl in Hpos.
  assert (∀ i, i ∈ full → 0 < tget t' i) as Hset.
  { intros i [j Hj]%list_elem_of_lookup. destruct (lookup_lt_is_Some_2 swa j) as [s Hs]; [apply lookup_lt_Some in Hj; lia|].
    assert ((i, s) ∈ zip full swa) as Hz' by (apply list_elem_of_lookup; exists j; apply lookup_zip_Some; done). pose proof (Hin _ Hz') as E; simpl in E; rewrite E. apply Hsw. by eapply list_elem_of_lookup_2. }
  assert (∀ i, 0 <= i → i ∉ full → tget t' i = behind p i) as Hkeep by (intros i Hi Hni; by apply Hout).
  assert (∀ i, i ∈ full → 1 <= i < size_full p + 1) as Hlr by (intros i Hi; destruct (Hfull i Hi) as [Hi' _]; rewrite elem_of_full_slots in Hi'; lia).
  eexists full, _. split_and!; [done|done|]. split; [split; simpl; try done| | | |].
  - split_and!; [done|congruence|congruence].
  - split_and!; [done|done|congruence|congruence].
  - by rewrite Hlt.
  - split; [done|]. intros i Hi. destruct (Hfree i) as [Hi1 Hi2]; [rewrite Pf, elem_of_app; by right|]. split; [done|]. unfold behind. simpl.
    rewrite elem_of_full_slots in Hi1. rewrite Hkeep; [done|lia|]. intros Hf. by apply (Hdis i).
  - unfold behind. simpl. rewrite !Hkeep; [done|lia| |lia|]; intros Hi%Hlr; lia.
  - intros i Hi. unfold behind. simpl. destruct (decide (i ∈ full)) as [Hf|Hf]; [specialize (Hset i Hf); lia|]. pose proof (Hnn i Hi). rewrite elem_of_full_slots in Hi. rewrite Hkeep; [done|lia|done].
  - rewrite <-Hpos, (assoc (++)), (comm (++) _ swa), <-Pw. done.
  - done.
  - intros i Hi. rewrite elem_of_used, Pf, elem_of_app. tauto.
  - apply set_eq. intros i. rewrite elem_of_union, elem_of_list_to_set, !elem_of_used, Pf, elem_of_app. simpl. change (full_slots _) with (full_slots p) at 1.
    destruct (decide (i ∈ full)) as [Hf|Hf]; [|tauto]. specialize (Hdis i Hf). destruct (Hfull i Hf). tauto.
  - apply set_eq. intros i. rewrite elem_of_union, elem_of_list_to_set, !elem_of_backed. change (full_slots _) with (full_slots p) at 1. unfold behind at 1. simpl.
    destruct (decide (i ∈ full)) as [Hf|Hf]; [specialize (Hset i Hf); destruct (Hfull i Hf); naive_solver|].
    split; [intros [Hi Hb]|intros [[Hi Hb]|?]]; [left; split; [done|]| |done]; pose proof Hi as Hi'; rewrite elem_of_full_slots in Hi'.
    + rewrite Hkeep in Hb by (done || lia). done.
    + rewrite Hkeep by (done || lia). done.
Qed.

(** ** A new allocator *)
Lemma init_pool_spec f s sort debug : 0 <= f → 0 <= s →
  let p := SWA.init f s 1 sort debug in swa_pool_ok p ∧ used_slots p = ∅ ∧ backed_slots p = ∅ ∧ size_full p = f ∧ size_swa p = s.
Proof.
  intros Hf Hs p. assert (full_to_swa p = replicate (Z.to_nat (f + 1)) 0 ++ [-1]) as Et.
  { unfold p, SWA.init, SWA.clear. simpl. rewrite length_app, length_replicate. simpl. replace (Z.to_nat (f + 1) + 1 - 1)%nat with (Z.to_nat (f + 1)) by lia.
    f_equal. by rewrite drop_app_length' by (by rewrite length_replicate). }
  assert (∀ i, 0 <= i < f + 1 → behind p i = 0) as Hb.
  { intros i Hi. unfold behind, tget. rewrite Et, lookup_app_l by (rewrite length_replicate; lia). by rewrite lookup_replicate_2 by lia. }
  assert (∀ i, i ∈ full_slots p → 0 <= i < f + 1) as Hin by (intros i; rewrite elem_of_full_slots; simpl; lia).
  assert (∀ sz, held (Token.clear (Token.init sz sort)) = arange 1 (Z.to_nat sz)) as Hh by (intros sz; unfold held; simpl; apply app_nil_r).
  assert (held (full_attn_allocator p) = full_slots p) as Hhf by (unfold p; simpl; apply Hh).
  split; [split; try done|split_and!; try done].
  - rewrite Et, length_app, length_replicate. simpl. lia.
  - rewrite Hhf. split; [apply NoDup_seqZ|]. intros i Hi. split; [done|]. by apply Hb, Hin.
  - split; [apply Hb; lia|]. unfold behind, tget. rewrite Et. simpl size_full. rewrite lookup_app_r by (rewrite length_replicate; lia).
    rewrite length_replicate. by replace (Z.to_nat (f + 1) - Z.to_nat (f + 1))%nat with 0%nat by lia.
  - intros i Hi. by rewrite Hb by (by apply Hin).
  - assert (positives (full_to_swa p) = []) as ->.
    { rewrite Et. apply filter_nothing. apply Forall_forall. intros v [Hv|Hv]%elem_of_app; [apply elem_of_replicate in Hv; lia|apply list_elem_of_singleton in Hv; lia]. }
    rewrite app_nil_r. change (held (swa_attn_allocator p)) with (held (Token.clear (Token.init s sort))). by rewrite Hh.
  - apply set_eq. intros i. rewrite elem_of_used, Hhf. set_solver.
  - apply set_eq. intros i. rewrite elem_of_backed. split; [|set_solver]. intros [Hi%Hin Hpos]. rewrite Hb in Hpos by done. lia.
Qed.

(** No slot of either pool is lost. *)
Lemma filter_split_length {B} (P : B → Prop) `{∀ x, Decision (P x)} (l : list B) : (length (filter P l) + length (filter (λ x, ¬ P x) l) = length l)%nat.
Proof. induction l as [|x l IH]; [done|]. rewrite !filter_cons. destruct (decide (P x)), (decide (¬ P x)); simpl; try done; lia. Qed.
Lemma list_to_set_size (l : list Z) : NoDup l → size (list_to_set l : gset Z) = length l.
Proof. intros Hnd. unfold size, set_size. simpl. by rewrite (Permutation_length (elements_list_to_set l Hnd)). Qed.
Lemma pool_conserved p : swa_pool_ok p →
  SWA.full_available_size p + Z.of_nat (size (used_slots p)) = size_full p ∧ SWA.swa_available_size p + Z.of_nat (size (backed_slots p)) = size_swa p.
Proof.
  intros Hp. pose proof Hp as [Hps _ _ (Hs0 & Hs1 & _) Hlen [Hnf Hfree] [Hz Hend] Hnn Hwin].
  unfold SWA.full_available_size, SWA.swa_available_size, pool_available. rewrite Hps, bool_decide_true by done. rewrite !token_available.
  assert (NoDup (full_slots p)) as Hnd by apply NoDup_seqZ.
  unfold used_slots, backed_slots. rewrite !list_to_set_size by (by apply NoDup_filter). split.
  - pose proof (filter_split_length (λ i, i ∉ held (full_attn_allocator p)) (full_slots p)) as Hl. cbv beta in Hl.
    assert (filter (λ i, ¬ (i ∉ held (full_attn_allocator p))) (full_slots p) ≡ₚ held (full_attn_allocator p)) as E.
    { apply NoDup_Permutation; [by apply NoDup_filter|done|]. intros i. rewrite list_elem_of_filter. destruct (decide (i ∈ held (full_attn_allocator p))) as [Hi|Hi]; [|tauto].
      destruct (Hfree i Hi). tauto. }
    apply Permutation_length in E. unfold full_slots in Hl at 3. rewrite arange_length in Hl. lia.
  - apply Permutation_length in Hwin. rewrite length_app in Hwin. unfold swa_slots in Hwin. rewrite arange_length in Hwin.
    enough (length (positives (full_to_swa p)) = length (filter (λ i, 0 < behind p i) (full_slots p))) by lia.
    assert (full_to_swa p = 0 :: (behind p <$> full_slots p) ++ [-1]) as ->.
    { apply list_eq. intros j. destruct (decide (j < length (full_to_swa p))%nat) as [Hj|Hj].
      - assert (full_to_swa p !! j = Some (behind p (Z.of_nat j))) as ->.
        { unfold behind. rewrite <-tget_lookup by (unfold in_range; lia). by rewrite Nat2Z.id. }
        destruct j as [|j]; [change (Z.of_nat 0) with 0; by rewrite Hz|]. simpl. rewrite (po_len _ Hp) in Hj. unfold full_slots.
        destruct (decide (j < Z.to_nat (size_full p))%nat) as [Hj'|Hj'].
        + rewrite lookup_app_l by (rewrite length_fmap, arange_length; done). rewrite list_lookup_fmap, arange_lookup by done. simpl. do 2 f_equal. lia.
        + rewrite lookup_app_r by (rewrite length_fmap, arange_length; lia). rewrite length_fmap, arange_length. replace (j - Z.to_nat (size_full p))%nat with 0%nat by lia.
          simpl. f_equal. rewrite <-Hend. f_equal. lia.
      - rewrite !lookup_ge_None_2; [done| |lia]. rewrite (po_len _ Hp) in Hj. simpl. rewrite length_app, length_fmap. unfold full_slots. rewrite arange_length. simpl. lia. }
    unfold positives. rewrite filter_cons_False by lia. rewrite filter_app. rewrite (filter_cons_False _ (-1)) by lia. rewrite filter_nil, app_nil_r.
    clear. induction (full_slots p) as [|i l IH]; [done|]. rewrite fmap_cons, !filter_cons. case_decide; simpl; lia.
Qed.

Lemma backed_used p i : swa_pool_ok p → i ∈ backed_slots p → i ∈ used_slots p.
Proof. intros Hp [Hi Hb]%elem_of_backed. apply elem_of_used. split; [done|]. intros Hh. destruct (po_free _ Hp) as [_ Hf]. destruct (Hf i Hh). lia. Qed.

(** The sizes are fixed. *)
Abbreviation same_sizes p p' := (size_full p' = size_full p ∧ size_swa p' = size_swa p).
Lemma alloc_sizes n p o p' : SWA.alloc n p = Ok (o, p') → same_sizes p p'.
Proof.
  unfold SWA.alloc. destruct (py_assert _) as [[]| |]; [|done..]. cbn [mbind result_bind]. do 2 (case_bool_decide; [by intros [= _ <-]|]).
  destruct (Token.alloc n (full_attn_allocator p)).1; [|done]. cbn [unwrap mbind result_bind]. destruct (Token.alloc n (swa_attn_allocator p)).1; [|done]. cbn [unwrap mbind result_bind]. by destruct (scatter _ _); [intros [= _ <-]|..].
Qed.
Lemma free_swa_sizes l p p' : SWA.free_swa l p = Ok p' → same_sizes p p'.
Proof. unfold SWA.free_swa. destruct (gather _ _); [|done..]. cbn [mbind result_bind]. destruct (pool_free _ _ _); [|done..]. cbn [mbind result_bind]. by destruct (fill _ _ _); [intros [= <-]|..]. Qed.
Lemma free_sizes l p p' : SWA.free l p = Ok p' → same_sizes p p'.
Proof.
  unfold SWA.free. destruct l as [|i l]; [by intros [= <-]|]. destruct (swa_open p).
  - destruct (pool_free _ _ _) as [k| |]; [|done..]. cbn [mbind result_bind]. destruct (SWA.free_swa _ _) as [p1| |] eqn:E; [|done..]. apply free_swa_sizes in E. cbn [mbind result_bind].
    repeat case_bool_decide; try done. by intros [= <-].
  - cbn [mbind result_bind]. repeat case_bool_decide; try done. by intros [= <-].
Qed.
