(* ===== verification/SwaMem.v ===== *)
(** Slots for a batch from the two pools: the branch for the hybrid allocator of
    [evict_from_tree_cache] and [alloc_token_slots] of mem_cache/common.py. *)
From S2P Require Import Prelude RadixKey TreeNode EvictPolicy RadixCache RadixInv RadixSplit RadixLeaf RadixLock RadixSpec Allocator.
From S2P Require Import SwaLru SwaCache SwaAbs SwaInv SwaOps SwaNodes SwaEvict SwaLocks SwaSpec SwaReach SwaAlloc.
From stdpp Require Import options.

Abbreviation MS := (ST (SWACache SWAPool)).

(** [evict_from_tree_cache], hybrid allocator. *)
Definition evict_from_hybrid (num_tokens : Z) : MS unit :=
  full_available_size ← st_gets (λ c, SWA.full_available_size (sw_alloc c));
  swa_available_size ← st_gets (λ c, SWA.swa_available_size (sw_alloc c));
  if bool_decide (full_available_size < num_tokens)%Z || bool_decide (swa_available_size < num_tokens)%Z then
    _ ← swa_evict (Z.max 0 (num_tokens - full_available_size)) (Z.max 0 (num_tokens - swa_available_size)); mret tt
  else mret tt.
(** [allocator.alloc(n)] *)
Definition hybrid_alloc (n : nat) : MS (option (list Z)) := λ c,
  match SWA.alloc n (sw_alloc c) with Ok (o, p) => Ok (o, set_sw_alloc p c) | Raise e => Raise e | Running => Running end.
Definition swa_alloc_token_slots (num_tokens : nat) (backup_state : bool) : MS (list Z * option ((list Z * list Z) * (list Z * list Z))) :=
  _ ← evict_from_hybrid (Z.of_nat num_tokens);
  state ← st_gets (λ c, if backup_state then Some (SWA.backup_state (sw_alloc c)) else None);
  out_cache_loc ← hybrid_alloc num_tokens;
  match out_cache_loc with
  | None => st_raise RuntimeError
  | Some out => mret (out, state)
  end.

(** ** What the cache does to its allocator

    The cache calls nothing but [free] and [free_swa] of it, so that what these two keep
    is kept by the cache. *)
Create HintDb keeps.
Section keeps.
Context {A : Type} {alloc : SWAAllocator A} (P : A → Prop).
Context (Pfree : ∀ l a a', P a → sa_free l a = Ok a' → P a') (Pfree_swa : ∀ l a a', P a → sa_free_swa l a = Ok a' → P a').

Definition keeps {B} (m : ST (SWACache A) B) : Prop := ∀ c b c', P (sw_alloc c) → m c = Ok (b, c') → P (sw_alloc c').
Lemma keeps_ret {B} (b : B) : keeps (mret b).
Proof using. by intros c b' c' Hc [= _ <-]. Qed.
Lemma keeps_bind {B C} (m : ST (SWACache A) B) (f : B → ST (SWACache A) C) : keeps m → (∀ b, keeps (f b)) → keeps (m ≫= f).
Proof using.
  intros Hm Hf c b c' Hc. unfold mbind, ST_bind, st_bind. destruct (m c) as [[b1 c1]| |] eqn:E; [|done..]. intros E2. eapply Hf; [|exact E2]. by eapply Hm.
Qed.
Lemma keeps_gets {B} (f : SWACache A → B) : keeps (st_gets f).
Proof using. by intros c b c' Hc [= _ <-]. Qed.
Lemma keeps_lift {B} (r : result B) : keeps (st_lift r).
Proof using. intros c b c' Hc. unfold st_lift. by destruct r; [intros [= _ <-]|..]. Qed.
Lemma keeps_modify f : (∀ c, sw_alloc (f c) = sw_alloc c) → keeps (st_modify f).
Proof using. intros Hf c b c' Hc [= _ <-]. by rewrite Hf. Qed.
Lemma keeps_stuck {B} : keeps (λ _, Running : result (B * SWACache A)).
Proof using. by intros c b c'. Qed.
Lemma keeps_lru {B} sw (m : ST (store * LRUList) B) : keeps (on_lru sw m).
Proof using.
  intros c b c' Hc. unfold on_lru. destruct (m _) as [[b1 [s l]]| |]; [|done..]. intros [= _ <-]. by destruct sw.
Qed.
Lemma keeps_free l : keeps (free l).
Proof using Pfree.
  intros c b c' Hc. unfold free, mbind, ST_bind, st_bind, st_gets, st_lift, st_modify. destruct (sa_free l (sw_alloc c)) eqn:E; [|done..]. intros [= _ <-]. by eapply Pfree.
Qed.
Lemma keeps_free_swa l : keeps (free_swa l).
Proof using Pfree_swa.
  intros c b c' Hc. unfold free_swa, mbind, ST_bind, st_bind, st_gets, st_lift, st_modify. destruct (sa_free_swa l (sw_alloc c)) eqn:E; [|done..]. intros [= _ <-]. by eapply Pfree_swa.
Qed.

(** Walks through a program of the cache. *)
Ltac keep := repeat first
  [ apply keeps_ret | apply keeps_gets | apply keeps_lift | apply keeps_lru | apply keeps_stuck | apply keeps_free | apply keeps_free_swa
  | apply keeps_modify; intros ?; done | progress eauto with keeps
  | apply keeps_bind; [|intros ?]
  | match goal with
    | |- keeps (if ?b then _ else _) => destruct b
    | |- keeps (let '(_, _) := ?r in _) => destruct r
    | |- keeps (match ?o with _ => _ end) => destruct o
    end ].

Lemma keeps_get n : keeps (get_snode n).
Proof using. unfold get_snode. keep. Qed.
Lemma keeps_upd n f : keeps (upd_snode n f).
Proof using. unfold upd_snode, get_snode. keep. Qed.
Lemma keeps_unless t m : keeps (swa_lru_unless t m).
Proof using. unfold swa_lru_unless, swa_lru. keep. Qed.
Hint Resolve keeps_get keeps_upd keeps_unless : keeps.
Lemma keeps_pop n x : keeps (pop_child n x).
Proof using. unfold pop_child, parent_of. keep. Qed.
Hint Resolve keeps_pop : keeps.
Lemma keeps_delete_leaf n : keeps (swa_delete_leaf n).
Proof using. unfold swa_delete_leaf. keep. Qed.
Lemma keeps_delete_tombstones fuel n k : keeps (delete_tombstones fuel n k).
Proof using Pfree. revert n k. induction fuel as [|fuel IH]; intros n k; simpl; [keep|]. unfold parent_of, value_of, full_lru, delete_tombstone_leaf. keep. Qed.
Hint Resolve keeps_delete_leaf keeps_delete_tombstones : keeps.
Lemma keeps_evict_full fuel x want f s : keeps (evict_full fuel x want f s).
Proof using Pfree.
  revert x f s. induction fuel as [|fuel IH]; intros x f s; simpl; [keep|]. unfold evict_full_one, value_of, parent_of, full_lru, iteratively_delete_tombstone_leaf. keep.
Qed.
Lemma keeps_evict_swa fuel x want f s : keeps (evict_swa fuel x want f s).
Proof using Pfree Pfree_swa.
  revert x f s. induction fuel as [|fuel IH]; intros x f s; simpl; [keep|]. unfold evict_swa_one, value_of, parent_of, full_lru, swa_lru, tombstone_internal_node, iteratively_delete_tombstone_leaf. keep.
Qed.
Lemma keeps_evict nt st : keeps (swa_evict nt st).
Proof using Pfree Pfree_swa. unfold swa_evict, full_lru, swa_lru. pose proof keeps_evict_full. pose proof keeps_evict_swa. keep. Qed.
End keeps.

(** ** Slots for a batch *)
Section batch.
Implicit Types (s : client SWAPool) (c : SWACache SWAPool).
Abbreviation reach := (reachable (ps:=1)).

Lemma evict_sizes nt st c r c' : swa_evict nt st c = Ok (r, c') → same_sizes (sw_alloc c) (sw_alloc c').
Proof.
  apply (keeps_evict (λ p, same_sizes (sw_alloc c) p)); [| |done].
  - intros l p p' [E1 E2] Hf. destruct (free_sizes _ _ _ Hf) as [E3 E4]. split; congruence.
  - intros l p p' [E1 E2] Hf. destruct (free_swa_sizes _ _ _ Hf) as [E3 E4]. split; congruence.
Qed.
Lemma reachable_pool s : reach s → swa_pool_ok (sw_alloc (cl_cache s)).
Proof. intros Hr. destruct (reachable_sinv s Hr) as (lv & a & G & H & [Hab HI _ _ _]). rewrite (ab_alloc _ _ Hab). exact (sl_alloc _ _ _ _ _ (ai_slots _ _ _ _ _ HI)). Qed.
(** Both pools are divided between the free slots, the tree and the requests. *)
Lemma pools_divided s (c := cl_cache s) : reach s →
  (SWA.full_available_size (sw_alloc c) + full_evictable_size_ c + full_protected_size_ c + Z.of_nat (length (cl_own s)) = size_full (sw_alloc c))%Z
  ∧ (SWA.swa_available_size (sw_alloc c) + swa_evictable_size_ c + swa_protected_size_ c
     + Z.of_nat (length (filter (λ i, i ∈ backed_slots (sw_alloc c)) (cl_own s))) = size_swa (sw_alloc c))%Z.
Proof.
  intros Hr. pose proof (reachable_pool s Hr) as Hp. fold c in Hp. destruct (pool_conserved _ Hp) as [<- <-]. pose proof (reachable_slots s Hr) as Hu%Permutation_length.
  pose proof (reachable_windows s Hr (λ i, backed_used _ i Hp)) as Hb%Permutation_length. rewrite length_app in Hu, Hb. fold c in Hu, Hb.
  destruct (reachable_sinv s Hr) as (lv & a & G & H & [Hab HI _ _ _]). pose proof (full_sizes _ _ _ _ _ _ Hab HI) as E1. pose proof (swa_sizes _ _ _ _ _ _ Hab HI) as E2. fold c in E1, E2.
  unfold size, set_size. simpl in Hu, Hb |- *. unfold size, set_size in Hu, Hb. split; lia.
Qed.
Record made_room s (n : Z) (c' : SWACache SWAPool) : Prop := {
  mr_reach : reach (MkClient c' (cl_locks s) (cl_own s));
  mr_full : (SWA.full_available_size (sw_alloc c') + full_evictable_size_ c' = SWA.full_available_size (sw_alloc (cl_cache s)) + full_evictable_size_ (cl_cache s))%Z;
  mr_swa : (SWA.swa_available_size (sw_alloc c') + swa_evictable_size_ c' = SWA.swa_available_size (sw_alloc (cl_cache s)) + swa_evictable_size_ (cl_cache s))%Z;
  mr_full_enough : (n <= SWA.full_available_size (sw_alloc c'))%Z ∨ full_evictable_size_ c' = 0%Z;
  mr_swa_enough : (n <= SWA.swa_available_size (sw_alloc c'))%Z ∨ swa_evictable_size_ c' = 0%Z;
  mr_locks : ∀ h, h ∈ cl_locks s → lock_kept (cl_cache s) c' h;
}.
Lemma evict_hybrid_ok s n : reach s → ∃ c', evict_from_hybrid n (cl_cache s) = Ok (tt, c') ∧ made_room s n c'.
Proof.
  intros Hr. destruct (reachable_sinv s Hr) as (lv & a & G & H & Hs). set (c := cl_cache s). unfold evict_from_hybrid, st_gets, mbind, ST_bind, st_bind.
  set (fa := SWA.full_available_size (sw_alloc c)). set (sa := SWA.swa_available_size (sw_alloc c)).
  destruct (bool_decide (fa < n)%Z || bool_decide (sa < n)%Z) eqn:Hb.
  - destruct (evict_call s _ _ _ _ Hs (Z.max 0 (n - fa)) (Z.max 0 (n - sa))) as (f & w & c' & lv' & a' & G' & E & Hs' & Hf & Hw & Epf & Eps & Hnt & Hst & Hlk & Hbk).
    fold c in E, Hf, Hw, Epf, Eps, Hlk, Hbk. rewrite E. exists c'. split; [done|].
    assert (reach (MkClient c' (cl_locks s) (cl_own s))) as Hr' by (eapply (reach_step s _ (CEvict _ _)); [done|exact I|]; simpl; fold c; by rewrite E).
    destruct (pools_divided s Hr) as [D1 D2]. destruct (pools_divided _ Hr') as [D3 D4]. simpl in D3, D4. fold c in D1, D2. destruct (evict_sizes _ _ _ _ _ E) as [S1 S2].
    assert (length (filter (λ i, i ∈ backed_slots (sw_alloc c')) (cl_own s)) = length (filter (λ i, i ∈ backed_slots (sw_alloc c)) (cl_own s))) as Ef.
    { f_equal. apply filter_ext_in. intros i Hi. by apply Hbk. }
    fold fa in D1. fold sa in D2. split; try done; fold c; fold fa; fold sa; lia.
  - apply orb_false_iff in Hb as [H1%bool_decide_eq_false H2%bool_decide_eq_false]. exists c. split; [done|]. split; try done; fold c; fold fa; fold sa; [by destruct s|left; lia|left; lia|].
    intros h Hh. by eapply locks_hold.
Qed.

(** [alloc] in a reachable state. *)
Lemma hybrid_alloc_ok s n : reach s →
  if decide (Z.of_nat n <= SWA.available_size (sw_alloc (cl_cache s)))%Z
  then ∃ out p, hybrid_alloc n (cl_cache s) = Ok (Some out, set_sw_alloc p (cl_cache s)) ∧ length out = n ∧ allocated (sw_alloc (cl_cache s)) out p
    ∧ reach (MkClient (set_sw_alloc p (cl_cache s)) (cl_locks s) (out ++ cl_own s))
  else hybrid_alloc n (cl_cache s) = Ok (None, set_sw_alloc (sw_alloc (cl_cache s)) (cl_cache s)).
Proof.
  intros Hr. pose proof (reachable_pool s Hr) as Hp. pose proof (alloc_pool_spec _ n Hp) as Ha. unfold hybrid_alloc. case_decide; [|by rewrite Ha].
  destruct Ha as (out & p & E & El & Hal). rewrite E. exists out, p. split_and!; try done. eapply (reach_step s _ (CAlloc out p)); [done| |done].
  destruct Hal as [Hok Hnd Hfr Hu Hb]. simpl. split_and!; try done. intros i Hi. rewrite Hb, elem_of_union, elem_of_list_to_set. tauto.
Qed.
Definition slots_enough c (n : nat) : Prop :=
  (Z.of_nat n <= SWA.full_available_size (sw_alloc c) + full_evictable_size_ c)%Z ∧ (Z.of_nat n <= SWA.swa_available_size (sw_alloc c) + swa_evictable_size_ c)%Z.
#[global] Instance slots_enough_dec c n : Decision (slots_enough c n) := and_dec _ _.
Lemma alloc_slots_iff s n backup : reach s →
  if decide (slots_enough (cl_cache s) n)
  then ∃ out st c', swa_alloc_token_slots n backup (cl_cache s) = Ok ((out, st), c') ∧ length out = n ∧ NoDup out ∧ (∀ i, i ∈ out → (i ∉ cl_own s) ∧ i ∈ backed_slots (sw_alloc c'))
    ∧ reach (MkClient c' (cl_locks s) (out ++ cl_own s)) ∧ (∀ h, h ∈ cl_locks s → lock_kept (cl_cache s) c' h)
  else swa_alloc_token_slots n backup (cl_cache s) = Raise RuntimeError.
Proof.
  intros Hr. destruct (evict_hybrid_ok s (Z.of_nat n) Hr) as (c1 & E1 & [Hr1 Ef Es Hf Hs Hlk]). pose proof (hybrid_alloc_ok _ n Hr1) as Ha. simpl in Ha.
  destruct (reachable_sinv _ Hr1) as (lv & a & G & H & [Hab HI _ _ _]). destruct (swa_evictable_nonneg _ _ _ _ _ _ Hab HI) as [N1 N2]. simpl in N1, N2.
  assert (slots_enough (cl_cache s) n ↔ (Z.of_nat n <= SWA.available_size (sw_alloc c1))%Z) as Hiff by (unfold slots_enough, SWA.available_size; lia).
  unfold swa_alloc_token_slots, mbind, ST_bind, st_bind. rewrite E1. unfold st_gets. destruct (decide (slots_enough _ _)) as [Hn|Hn]; rewrite Hiff in Hn.
  - rewrite decide_True in Ha by done. destruct Ha as (out & p & E & El & Hal & Hr2). rewrite E. eexists out, _, _. split_and!; [done|done|apply Hal| |done|done].
    intros i Hi. split; [|simpl; rewrite (al_backed _ _ _ Hal), elem_of_union, elem_of_list_to_set; by right].
    intros Ho. apply (al_fresh _ _ _ Hal i Hi). pose proof (reachable_slots _ Hr1) as Hp. simpl in Hp. apply elem_of_elements. rewrite <-Hp, elem_of_app. by right.
  - rewrite decide_False in Ha by done. by rewrite Ha.
Qed.
End batch.
