(* ===== verification/SwaTheorems.v ===== *)
(** The contract of the sliding-window cache, of the allocator of its two pools, and of the
    requests that use them. *)
From S2P Require Import Prelude RadixKey TreeNode EvictPolicy RadixCache RadixInv RadixSplit RadixLeaf RadixLock RadixSpec RadixOps RadixMatch RadixLockOps RadixTotal Allocator AllocKernel ReqPool.
From S2P Require Import SwaLru SwaCache SwaAbs SwaInv SwaOps SwaNodes SwaEvict SwaLocks SwaMatch SwaRevive SwaInsert SwaSpec SwaReach SwaReq SwaAlloc SwaMem.
From stdpp Require Import options.

(** ** A small cache: a window of two tokens, pages of one slot, eight slots in each pool *)
Definition cf2 : SWAConfig := MkSWAConfig false 1 false 2 false false.
Definition pool2 : SWAPool := SWA.init 8 8 1 false false.
Definition key_of (l : list Z) : RadixKey := MkRadixKey l None false.
(** The client after a call. *)
Definition after (call : scall SWAPool) (s : client SWAPool) : client SWAPool := match run call s with Ok s' => s' | _ => s end.
Lemma reach_after s call : reachable (ps:=1) s → legal (ps:=1) call s → reachable (ps:=1) (after call s).
Proof. intros Hr Hl. destruct (run_ok s call (reachable_sinv s Hr) Hl) as (s' & E & _). unfold after. rewrite E. by eapply reach_step. Qed.
(** What the allocator hands out may be taken. *)
Definition alloc_call (n : nat) (s : client SWAPool) : scall SWAPool :=
  match SWA.alloc n (sw_alloc (cl_cache s)) with Ok (Some l, p) => CAlloc l p | _ => CEvict 0 0 end.
Lemma alloc_call_legal n s : reachable (ps:=1) s → legal (ps:=1) (alloc_call n s) s.
Proof.
  intros Hr. destruct (reachable_sinv s Hr) as (lv & a & G & H & Hs). pose proof Hs as [Hab HI _ _ _]. pose proof (sl_alloc _ _ _ _ _ (ai_slots _ _ _ _ _ HI)) as Hp. rewrite <-(ab_alloc _ _ Hab) in Hp.
  unfold alloc_call. pose proof (alloc_pool_spec _ n Hp) as Ha. destruct (decide _); [|by rewrite Ha]. destruct Ha as (out & p' & -> & _ & [Hok Hnd Hfr Hu Hb]). simpl. split_and!; try done.
  intros i Hi. rewrite Hb, elem_of_union, elem_of_list_to_set. tauto.
Qed.

(** Two tokens are cached in slots 1 and 2 and locked; a request owns 3 to 7. *)
Definition client0 : client SWAPool := match swa_init cf2 pool2 with Ok c => MkClient c [] [] | _ => MkClient (MkSWA cf2 0 ∅ 0 0 0 0 0 0 (MkLRU false 0 0 ∅) (MkLRU true 0 0 ∅) pool2) [] [] end.
Definition client1 : client SWAPool := after (CInsert (key_of [1; 2]%Z) [1; 2]%Z 0 0) (after (alloc_call 2 client0) client0).
Definition client2 : client SWAPool := let s := after (CLock 5) client1 in after (alloc_call 5 s) s.

Lemma cfg2_ok : cfg_ok cf2.
Proof. split; [done|done|simpl; lia|simpl; lia]. Qed.
Lemma client0_reach : reachable (ps:=1) client0.
Proof.
  unfold client0. destruct (swa_init cf2 pool2) as [c| |] eqn:E; [|by vm_compute in E..]. destruct (init_pool_spec 8 8 false false) as (Hp & Hu & _); [done..|].
  by eapply (reach_init cf2 pool2 c cfg2_ok).
Qed.
(** A legal insertion in a concrete state: what is handed over is owned and has its window
    slots, and the first [prev] tokens end at a locked node. *)
Definition insert_legal_b (key : RadixKey) (v : list Z) (prev : nat) (s : client SWAPool) : bool :=
  let us := swa_units (sw_cfg (cl_cache s)) key in
  negb (is_bigram key) && bool_decide (length us = length v) && bool_decide (prev ≤ length us)
  && (bool_decide (prev = 0) || bool_decide (Exists (λ h, node_key (cl_cache s) (l_node h) = Some (take prev us)) (cl_locks s)))
  && bool_decide (drop prev v ⊆+ cl_own s) && bool_decide (Forall (λ i, i ∈ backed_slots (sw_alloc (cl_cache s))) (drop prev v)).
Lemma insert_legal key v prev s : insert_legal_b key v prev s = true → legal (ps:=1) (CInsert key v prev 0) s.
Proof.
  unfold insert_legal_b. rewrite !andb_true_iff, orb_true_iff, !bool_decide_eq_true, negb_true_iff. intros (((((H1 & H2) & H3) & H4) & H5) & H6). simpl.
  unfold given. rewrite H2, firstn_all. split_and!; try done; try lia.
  - intros E. congruence.
  - destruct H4 as [->|(h & Hh & Hk)%Exists_exists]; [by left|right; by exists h].
  - intros j i Hj Hi. rewrite Forall_forall in H6. split; [lia|]. intros _. apply H6, list_elem_of_lookup. exists (j - prev). rewrite lookup_drop. by replace (prev + (j - prev)) with j by lia.
Qed.
Lemma client1_reach : reachable (ps:=1) client1.
Proof.
  unfold client1. apply reach_after; [apply reach_after; [apply client0_reach|apply alloc_call_legal, client0_reach]|]. apply insert_legal. by vm_compute.
Qed.
Lemma client2_reach : reachable (ps:=1) client2.
Proof.
  unfold client2. assert (reachable (ps:=1) (after (CLock 5) client1)) as Hr; [|apply reach_after; [done|by apply alloc_call_legal]].
  apply reach_after; [apply client1_reach|]. split; [right|]; by vm_compute.
Qed.

(** A request whose first two tokens are the cached ones, with its row. *)
Definition row2 : list Z := [1; 2; 3; 4; 5; 6; 7; 0]%Z.
Definition rows2 : ReqToTokenPool := MkRPool 1 8 [replicate 8 0%Z; row2] [].
Definition req2 (toks : list Z) : SwaReq := MkSwaReq (MkReq toks [] toks None None (Some 1) [] (Some 5) 2 (length toks) (length toks) false false 0 0 false) 0 (Some 2%Z) false.
Definition world2 : SWorld SWAPool := MkSWorld (cl_cache client2) rows2.
Definition toks7 : list Z := [1; 2; 3; 4; 5; 6; 7]%Z.
Definition units_of (l : list Z) : list tunit := swa_units cf2 (key_of l).

Lemma client2_ready k : 2 ≤ k ≤ 7 → let toks := take k toks7 in req_ready (ps:=1) client2 rows2 (req2 toks) toks 0 0 1 5 row2 (units_of toks).
Proof.
  intros Hk toks. assert (k = 2 ∨ k = 3 ∨ k = 4 ∨ k = 5 ∨ k = 6 ∨ k = 7) as Hcases by lia.
  assert (Forall (λ x, x ∈ backed_slots (sw_alloc (cl_cache client2))) (take 7 row2)) as Hb by (apply (bool_decide_unpack _); by vm_compute).
  unfold toks. destruct Hcases as [->|[->|[->|[->|[->| ->]]]]]; (split; [reflexivity|reflexivity|reflexivity|simpl; lia|reflexivity|reflexivity|simpl; lia|reflexivity
    |apply (bool_decide_unpack _); by vm_compute|done| |split; [done|simpl; lia]]); intros j x _ Hx; (split; [lia|]); intros _; rewrite Forall_forall in Hb; apply Hb;
    apply lookup_take_Some in Hx as [Hx Hj]; apply list_elem_of_lookup; exists j; apply lookup_take_Some; (split; [done|vm_compute in Hj; lia]).
Qed.

(** ** The cache *)
Section theorems.
Context {A : Type} {alloc : SWAAllocator A} {ps : nat} {laws : SWAAllocatorLaws A ps}.
Implicit Types (s : client A) (w : SWorld A) (r : SwaReq).

(** C7: from every state a client can reach, every legal call returns: no assertion of the
    code fires, no attribute is missing and every loop ends; and the state is again one
    that can be reached. *)
Theorem swa_calls_return s call : reachable s → legal call s → ∃ s', run call s = Ok s' ∧ reachable s'.
Proof. intros Hr Hl. destruct (run_ok s call (reachable_sinv s Hr) Hl) as (s' & E & _). exists s'. split; [done|by eapply reach_step]. Qed.

(** C8: in every reachable state each slot in use is cached once or owned by a request, a
    cached slot has a slot of the window pool exactly if its node is no tombstone, and the
    four counters add up to the slots of the two lists. *)
Theorem swa_accounting s : reachable s →
  let c := cl_cache s in
  cached_slots c ++ cl_own s ≡ₚ elements (sa_used (sw_alloc c))
  ∧ (∀ i, i ∈ cached_slots c → (i ∈ sa_backed (sw_alloc c) ↔ i ∈ window_slots c))
  ∧ (full_evictable_size_ c + full_protected_size_ c)%Z = Z.of_nat (length (cached_slots c))
  ∧ (swa_evictable_size_ c + swa_protected_size_ c)%Z = Z.of_nat (length (window_slots c)).
Proof.
  intros Hr c. destruct (reachable_sinv s Hr) as (lv & a & G & H & [Hab HI _ _ _]). split_and!; [by apply reachable_slots|by eapply cached_backed|by eapply full_sizes|by eapply swa_sizes].
Qed.

(** C9: the two lists of every reachable state are well-formed: doubly linked between their
    dummy nodes, without repetition; the list of all nodes has exactly the nodes that hang
    below the root, each in the dictionary of its parent, and the window list those of
    them that are no tombstones. *)
Theorem swa_lists_linked s : reachable s →
  let c := cl_cache s in
  (∃ l, lru_ok false (sw_nodes c) (full_lru_list c) l) ∧ (∃ l, lru_ok true (sw_nodes c) (swa_lru_list c) l)
  ∧ (∀ p px ck n, in_tree c p → sw_nodes c !! p = Some px → s_children px !! ck = Some n → n ∈ members c)
  ∧ (∀ n, n ∈ members c → ∃ x p px ck, sw_nodes c !! n = Some x ∧ s_parent x = Some p ∧ in_tree c p ∧ sw_nodes c !! p = Some px
      ∧ child_key (s_key x) (sw_page_size (sw_cfg c)) = Ok ck ∧ s_children px !! ck = Some n ∧ (n ∈ windows c ↔ swa_tombstone x = false)).
Proof.
  intros Hr c. destruct (reachable_sinv s Hr) as (lv & a & G & H & [Hab HI _ _ _]). pose proof (inv_tree _ _ _ (ai_tree _ _ _ _ _ HI)) as Ht. fold c in Hab. split_and!.
  - exists (a_list false a). apply (ab_list _ _ Hab false).
  - exists (a_list true a). apply (ab_list _ _ Hab true).
  - intros p px ck n [gp Hp]%(in_tree_live _ _ _ _ _ _ Hab HI) Hpx Hck. assert (a_nodes a !! p = Some (plain px)) as Hpa by (rewrite <-(ab_nodes _ _ Hab), lookup_fmap, Hpx; done).
    destruct (to_child Ht p gp (s_core (plain px)) ck n Hp (sview_lookup lv _ _ _ Hpa) Hck) as (g & x & Hg & _ & _ & Hn & _).
    rewrite (members_inner _ _ _ _ _ _ Hab HI). apply elem_of_inner. eauto.
  - intros n Hn. pose proof Hn as Hn'. rewrite (members_inner _ _ _ _ _ _ Hab HI) in Hn'. destruct (tree_node _ _ _ _ _ _ HI Hn') as (g & x & p & gp & px & vv & Hg & Hnr & Hx & Hpx & Hok & Hpar & _).
    destruct (abs_node _ _ _ _ Hab Hx) as (y & Hy & Ey). destruct (abs_node _ _ _ _ Hab Hpx) as (py & Hpy & Epy). destruct (plain_fields _ _ Ey) as (_ & E1 & E2 & _ & E3 & _). destruct (plain_fields _ _ Epy) as (E4 & _).
    destruct (no_link Hok) as (ck & Hck & Hl). simpl in Hck, Hl. exists y, p, py, ck. rewrite E1, E2, E3, E4, (ab_cfg _ _ Hab). split_and!; try done.
    + apply (in_tree_live _ _ _ _ _ _ Hab HI). exists gp. apply (no_gpar Hok).
    + rewrite (windows_inner _ _ _ _ _ _ Hab HI). destruct (sx_lookup _ _ _ Hx) as (_ & <- & _). tauto.
Qed.

(** C10: [match_prefix] returns the deepest node along the key whose last window has no
    tombstone, with exactly the slots of its path; it may split a node, but every node
    keeps its key, its slots and an intact window. *)
Theorem swa_match_deepest s key : reachable s → swa_query_ok (sw_cfg (cl_cache s)) key →
  ∃ vs n c', swa_match_prefix key (cl_cache s) = Ok ((vs, n), c') ∧ swa_matched (cl_cache s) (swa_units (sw_cfg (cl_cache s)) key) vs n c'.
Proof.
  intros Hr Hq. destruct (reachable_sinv s Hr) as (lv & a & G & H & Hs). destruct (match_call s _ _ _ _ Hs key Hq) as (vs & n & c' & _ & _ & _ & E & Hm & _). by exists vs, n, c'.
Qed.

(** C11: [insert] returns the length of the longest cached prefix of the key; afterwards the
    whole key ends at a node unless all its windows had been given up, all nodes that
    were there are still there, and no node of the key beyond the protected prefix and
    the given-up windows is a tombstone, and nodes as long as the protected prefix or
    shorter keep their slots. *)
Theorem swa_insert_stores s key v prev ev : reachable s → legal (CInsert key v prev ev) s →
  ∃ (r : nat) c', swa_insert key (Some v) prev ev (cl_cache s) = Ok (r, c') ∧ stored ps (cl_cache s) (swa_units (sw_cfg (cl_cache s)) key) prev ev r c'.
Proof.
  intros Hr Hl. destruct (reachable_sinv s Hr) as (lv & a & G & H & Hs). destruct (insert_call s _ _ _ _ Hs key v prev ev Hl) as (r & c' & _ & _ & _ & E & Hm & _). by exists r, c'.
Qed.

(** C12: [evict] frees as many slots of each pool as it was asked for, or leaves nothing
    evictable there; the window count is exact, protected sizes do not change, every lock
    keeps its node, its key and slots and, while its window is locked, that window, and
    what requests own keeps its windows. *)
Theorem swa_evict_enough s nt st : reachable s →
  let c := cl_cache s in
  ∃ (f w : Z) c', swa_evict nt st c = Ok ((f, w), c')
    ∧ (0 <= f <= full_evictable_size_ c - full_evictable_size_ c')%Z ∧ w = (swa_evictable_size_ c - swa_evictable_size_ c')%Z
    ∧ full_protected_size_ c' = full_protected_size_ c ∧ swa_protected_size_ c' = swa_protected_size_ c
    ∧ ((nt <= f)%Z ∨ full_evictable_size_ c' = 0%Z) ∧ ((st <= w)%Z ∨ swa_evictable_size_ c' = 0%Z)
    ∧ (∀ h, h ∈ cl_locks s → lock_kept c c' h)
    ∧ ∀ x, x ∈ cl_own s → (x ∈ sa_backed (sw_alloc c') ↔ x ∈ sa_backed (sw_alloc c)).
Proof.
  intros Hr c. destruct (reachable_sinv s Hr) as (lv & a & G & H & Hs). destruct (evict_call s _ _ _ _ Hs nt st) as (f & w & c' & _ & _ & _ & E & _ & Hrest). by exists f, w, c'.
Qed.

(** ** Requests *)

(** C13: [cache_unfinished_req] of a request that has locked its prefix, window included
    and not given back, and owns its other slots returns: both its assertions hold.  The
    request has then locked a node with its whole page-aligned key.  Its prefix is the
    slots of that node and its unaligned tail; its row keeps the entries below the
    protected length and has the slots of the node from there to the end of the key.
    The node begins with the slots of the node that was locked before, so if the row
    began with these, it now begins with all the slots of the node. *)
Theorem swa_unfinished_caches s w r i idx n row us :
  reachable s → sw_cache w = cl_cache s → req_ready s (sw_pool w) r (fill_ids (sr_req r)) 0 i idx n row us → 0 < length us → swa_prefix_lock_released r = false →
  ∃ r' w' s', swa_cache_unfinished_req r w = Ok (r', w') ∧ req_cached s r i idx row us (fill_ids (sr_req r)) r' w' s'
    ∧ (node_kv (cl_cache s) n = Some (take (cache_protected_len (sr_req r)) row) →
       ∃ m vs, last_node (sr_req r') = Some m ∧ node_kv (sw_cache w') m = Some vs ∧ req_to_token (sw_pool w') !! idx = Some (vs ++ drop (length us) row)).
Proof.
  intros Hr Ew Hrr Hpos Hrel. destruct (unfinished_ok s w r i idx n row us Hr Ew Hrr Hpos Hrel) as (r' & w' & s' & E & Hc). exists r', w', s'. split_and!; [done|done|].
  intros Hkv. destruct (rc_locks _ _ _ _ _ _ _ _ _ _ Hc) as (m & Hm & _ & _ & vs & Hvs & _ & _ & Hrow & Hlow). exists m, vs. split_and!; [done|done|].
  rewrite (Hlow n (rr_node _ _ _ _ _ _ _ _ _ _ Hrr)) in Hkv. injection Hkv as Hkv. by rewrite Hrow, <-Hkv, (assoc (++)), take_drop.
Qed.

(** C14: [cache_finished_req], inserting or not, leaves the request without its lock and
    without any of the slots beyond its protected prefix. *)
Theorem swa_finished_releases s w r strip is_insert i idx n row us :
  let commit := cache_commit_len strip (sr_req r) in
  let toks := take commit (origin_input_ids (sr_req r) ++ output_ids (sr_req r)) in
  reachable s → sw_cache w = cl_cache s → kv_committed_freed (sr_req r) = false → length toks = commit →
  req_ready s (sw_pool w) r toks (swa_evicted_seqlen r) i idx n row us →
  ∃ r' w' s', swa_cache_finished_req strip r is_insert w = Ok (r', w') ∧ req_left s r i row commit w' s' ∧ swa_prefix_lock_released r' = false.
Proof. apply finished_ok. Qed.

(** C15: [maybe_evict_swa] of a decode batch returns: for every request the slots that stay
    behind the new boundary are more than a window and a page away from its position,
    slots are backed exactly from the boundary on, the window lock of a request that has
    decoded a window of tokens is given back once, and every request can still be cached:
    no other's slots, locks or nodes are touched. *)
Theorem swa_decode_windows s w release scaled (l : list (SwaReq * nat * rview)) :
  reachable s → sw_cache w = cl_cache s → batch_ready s (sw_pool w) l →
  ∃ l' w' s', maybe_evict_swa release scaled l.*1 w = Ok (l'.*1, w') ∧ reachable s' ∧ cl_cache s' = sw_cache w' ∧ sw_pool w' = sw_pool w ∧ cl_own s' = cl_own s
    ∧ batch_ready s' (sw_pool w') l' ∧ Forall2 (decoded (sw_cfg (cl_cache s)) release scaled) l l'.
Proof. apply (maybe_evict_ok release scaled l []). Qed.
End theorems.

(** *** The theorems on the small cache *)
Lemma units2 l : swa_units (sw_cfg (cl_cache client2)) (key_of l) = units_of l.
Proof. unfold units_of. by assert (sw_cfg (cl_cache client2) = cf2) as -> by (by vm_compute). Qed.
Lemma swa_calls_return_witness : ∃ s', run (CEvict 4 4) client2 = Ok s' ∧ reachable (ps:=1) s'.
Proof. apply (swa_calls_return client2 (CEvict 4 4)); [exact client2_reach|exact I]. Defined.
Lemma swa_accounting_witness : cached_slots (cl_cache client2) ++ cl_own client2 ≡ₚ elements (sa_used (sw_alloc (cl_cache client2))).
Proof. destruct (swa_accounting client2 client2_reach) as [H _]. exact H. Defined.
Lemma swa_lists_linked_witness : ∃ l, lru_ok true (sw_nodes (cl_cache client2)) (swa_lru_list (cl_cache client2)) l.
Proof. exact (proj1 (proj2 (swa_lists_linked client2 client2_reach))). Defined.
Lemma swa_match_deepest_witness : ∃ vs n c', swa_match_prefix (key_of [1; 2; 9]%Z) (cl_cache client2) = Ok ((vs, n), c') ∧ swa_matched (cl_cache client2) (units_of [1; 2; 9]%Z) vs n c'.
Proof. rewrite <-units2. apply (swa_match_deepest client2 (key_of [1; 2; 9]%Z)); [exact client2_reach|intros E; discriminate E]. Defined.
Lemma swa_insert_stores_witness : ∃ (r : nat) c', swa_insert (key_of [1; 2; 3; 4]%Z) (Some [1; 2; 3; 4]%Z) 2 0 (cl_cache client2) = Ok (r, c') ∧ stored 1 (cl_cache client2) (units_of [1; 2; 3; 4]%Z) 2 0 r c'.
Proof. rewrite <-units2. apply (swa_insert_stores client2 (key_of [1; 2; 3; 4]%Z)); [exact client2_reach|]. apply insert_legal. by vm_compute. Defined.
Lemma swa_evict_enough_witness : ∃ (f w : Z) c', swa_evict 4 4 (cl_cache client2) = Ok ((f, w), c') ∧ ((4 <= f)%Z ∨ full_evictable_size_ c' = 0%Z).
Proof. destruct (swa_evict_enough client2 4 4 client2_reach) as (f & w & c' & E & _ & _ & _ & _ & H & _). exists f, w, c'. split; [exact E|exact H]. Defined.
Lemma swa_unfinished_caches_witness : let toks := take 4 toks7 in
  ∃ r' w' s', swa_cache_unfinished_req (req2 toks) world2 = Ok (r', w') ∧ req_cached client2 (req2 toks) 0 1 row2 (units_of toks) toks r' w' s'
    ∧ ∃ m vs, last_node (sr_req r') = Some m ∧ node_kv (sw_cache w') m = Some vs ∧ req_to_token (sw_pool w') !! 1 = Some (vs ++ drop 4 row2).
Proof.
  destruct (swa_unfinished_caches client2 world2 (req2 (take 4 toks7)) 0 1 5 row2 (units_of (take 4 toks7))) as (r' & w' & s' & E & Hc & Hrow);
    [exact client2_reach|reflexivity|apply (client2_ready 4); lia|vm_compute; lia|reflexivity|]. exists r', w', s'. split; [exact E|split; [exact Hc|apply Hrow; vm_compute; reflexivity]].
Defined.
Lemma swa_finished_releases_witness : ∃ r' w' s', swa_cache_finished_req false (req2 (take 4 toks7)) true world2 = Ok (r', w') ∧ req_left client2 (req2 (take 4 toks7)) 0 row2 4 w' s' ∧ swa_prefix_lock_released r' = false.
Proof. apply (swa_finished_releases client2 world2 (req2 (take 4 toks7)) false true 0 1 5 row2 (units_of (take 4 toks7))); [exact client2_reach|reflexivity|reflexivity|reflexivity|apply (client2_ready 4); lia]. Defined.
Definition entry2 : SwaReq * nat * rview := (req2 toks7, 3, MkRview toks7 0 1 5 row2 (units_of toks7)).
Lemma swa_decode_windows_witness : ∃ l' w' s', maybe_evict_swa true 2 [(req2 toks7, 3)] world2 = Ok (l'.*1, w') ∧ batch_ready (ps:=1) s' (sw_pool w') l'.
Proof.
  destruct (swa_decode_windows client2 world2 true 2 [entry2]) as (l' & w' & s' & E & _ & _ & _ & _ & Hb & _); [exact client2_reach|reflexivity| |exists l', w', s'; split; [exact E|exact Hb]].
  pose proof (client2_ready 7 ltac:(lia)) as Hr. split.
  - intros e He%list_elem_of_singleton. subst e. split; [exact Hr|vm_compute; lia].
  - apply NoDup_singleton.
  - change (concat (e_slots <$> [entry2])) with (e_slots entry2 ++ []). rewrite app_nil_r. exact (rr_own _ _ _ _ _ _ _ _ _ _ Hr).
Defined.

(** ** A lock does not keep the slots

    Tokens 1 to 4 are cached at the nodes 5 and 6 and node 6 is locked; the lock covers the
    window of node 6, and eviction makes node 5 a tombstone.  Another request with the
    tokens 1, 2, 5, 6 finds no whole window, computes all four and inserts them. *)
Definition locked6 : client SWAPool :=
  let s := after (CLock 5) client1 in let s := after (alloc_call 2 s) s in
  after (CEvict 0 2) (after (CLock 6) (after (CUnlock 0) (after (CInsert (key_of [1; 2; 3; 4]%Z) [1; 2; 3; 4]%Z 2 0) s))).
Definition other_ready : client SWAPool := after (alloc_call 4 locked6) locked6.
Definition other_insert : scall SWAPool := CInsert (key_of [1; 2; 5; 6]%Z) [5; 6; 7; 8]%Z 0 0.
Lemma other_ready_reach : reachable (ps:=1) other_ready.
Proof.
  assert (reachable (ps:=1) locked6) as Hr; [|by apply reach_after, alloc_call_legal]. unfold locked6. cbv zeta.
  assert (reachable (ps:=1) (after (CLock 5) client1)) as H1 by (apply reach_after; [apply client1_reach|split; [right|]; by vm_compute]).
  apply reach_after; [|exact I]. apply reach_after; [|split; [right|]; by vm_compute]. apply reach_after; [|eexists; by vm_compute].
  apply reach_after; [by apply reach_after, alloc_call_legal|]. apply insert_legal. by vm_compute.
Qed.

(** C36: inserting frees slots that are locked: [_insert_helper] gives a tombstone on its way
    the new slots and frees the old ones without looking at its [full_lock_ref], although
    a request that has locked a node below still reads them. *)
Theorem revive_frees_locked : ∃ (s s' : client SWAPool) call h old new i,
  reachable (ps:=1) s ∧ legal (ps:=1) call s ∧ run call s = Ok s' ∧ h ∈ cl_locks s ∧ h ∈ cl_locks s'
  ∧ node_kv (cl_cache s) (l_node h) = Some old ∧ node_kv (cl_cache s') (l_node h) = Some new ∧ old ≠ new
  ∧ i ∈ old ∧ i ∈ used_slots (sw_alloc (cl_cache s)) ∧ i ∉ used_slots (sw_alloc (cl_cache s')).
Proof.
  exists other_ready, (after other_insert other_ready), other_insert, (MkLock 6 (Some 3%Z) true), [1; 2; 3; 4]%Z, [5; 6; 3; 4]%Z, 1%Z. split_and!.
  - apply other_ready_reach.
  - apply insert_legal. by vm_compute.
  - vm_compute. reflexivity.
  - assert (cl_locks other_ready = [MkLock 6 (Some 3%Z) true]) as -> by (by vm_compute). by left.
  - assert (cl_locks (after other_insert other_ready) = [MkLock 6 (Some 3%Z) true]) as -> by (by vm_compute). by left.
  - by vm_compute.
  - by vm_compute.
  - done.
  - by left.
  - apply (bool_decide_unpack _); by vm_compute.
  - apply (bool_decide_unpack _); by vm_compute.
Qed.

(** ** The allocator *)

(** C16: [alloc_token_slots] succeeds exactly if in each pool the free and the evictable slots
    cover the tokens, evicting from the tree as needed, and raises otherwise; the new slots
    are nobody else's and have window slots, and every lock keeps what it protects. *)
Theorem swa_slots_iff (s : client SWAPool) (n : nat) (backup : bool) : reachable (ps:=1) s →
  let c := cl_cache s in
  if decide (slots_enough c n)
  then ∃ out st c', swa_alloc_token_slots n backup c = Ok ((out, st), c') ∧ length out = n ∧ NoDup out ∧ (∀ i, i ∈ out → (i ∉ cl_own s) ∧ i ∈ backed_slots (sw_alloc c'))
    ∧ reachable (ps:=1) (MkClient c' (cl_locks s) (out ++ cl_own s)) ∧ (∀ h, h ∈ cl_locks s → lock_kept c c' h)
  else swa_alloc_token_slots n backup c = Raise RuntimeError.
Proof. apply alloc_slots_iff. Qed.
(** Two of the eight slots are cached and nothing is locked: seven are had by evicting, nine are not. *)
Lemma swa_slots_iff_witness : (∃ out st c', swa_alloc_token_slots 7 true (cl_cache client1) = Ok ((out, st), c') ∧ length out = 7) ∧ swa_alloc_token_slots 9 true (cl_cache client1) = Raise RuntimeError.
Proof.
  split.
  - pose proof (swa_slots_iff client1 7 true client1_reach) as H. cbv zeta in H. rewrite decide_True in H by (apply (bool_decide_unpack _); by vm_compute).
    destruct H as (out & st & c' & E & El & _). exists out, st, c'. split; [exact E|exact El].
  - pose proof (swa_slots_iff client1 9 true client1_reach) as H. cbv zeta in H. rewrite decide_False in H by (apply (bool_decide_unpack _); by vm_compute). exact H.
Defined.

(** C17: [alloc] hands out as many slots as asked for exactly if both pools have them, and
    nothing is lost: in each pool the free slots and the used ones, or those behind used
    ones, add up to its size.  New slots come with window slots, and freeing them leaves
    the pools as they were. *)
Theorem swa_alloc_free_roundtrip (p : SWAPool) (n : nat) : swa_pool_ok p →
  (SWA.full_available_size p + Z.of_nat (size (used_slots p)) = size_full p ∧ SWA.swa_available_size p + Z.of_nat (size (backed_slots p)) = size_swa p)%Z
  ∧ if decide (Z.of_nat n <= SWA.available_size p)%Z
    then ∃ out p', SWA.alloc n p = Ok (Some out, p') ∧ length out = n ∧ allocated p out p'
      ∧ ∃ p'', SWA.free out p' = Ok p'' ∧ swa_pool_ok p'' ∧ used_slots p'' = used_slots p ∧ backed_slots p'' = backed_slots p
        ∧ SWA.full_available_size p'' = SWA.full_available_size p ∧ SWA.swa_available_size p'' = SWA.swa_available_size p
    else SWA.alloc n p = Ok (None, p).
Proof.
  intros Hp. split; [by apply pool_conserved|]. pose proof (alloc_pool_spec p n Hp) as Ha. case_decide as Hn; [|done].
  destruct Ha as (out & p' & E & El & Hal). exists out, p'. split_and!; try done. pose proof Hal as [Hok Hnd Hfr Eu Eb].
  destruct (@sa_free_ok _ _ _ SWAPool_Laws p' out Hok Hnd I) as (p'' & Ef & Hok' & Eu' & Eb'); [intros i Hi; simpl; rewrite Eu, elem_of_union, elem_of_list_to_set; by right|].
  simpl in Ef, Hok', Eu', Eb'. rewrite Eu in Eu'. rewrite Eb in Eb'.
  assert (used_slots p'' = used_slots p) as Hu by (rewrite Eu'; apply set_eq; intros i; specialize (Hfr i); set_solver).
  assert (backed_slots p'' = backed_slots p) as Hb.
  { rewrite Eb'. apply set_eq. intros i. pose proof (backed_used p i Hp). specialize (Hfr i). set_solver. }
  pose proof (pool_conserved p Hp) as [C1 C2]. pose proof (pool_conserved p'' Hok') as [C3 C4]. destruct (alloc_sizes _ _ _ _ E) as [S1 S2]. destruct (free_sizes _ _ _ Ef) as [S3 S4].
  exists p''. rewrite Hu, S3, S1 in C3. rewrite Hb, S4, S2 in C4. split_and!; try done; lia.
Qed.
Lemma swa_alloc_free_roundtrip_witness : ∃ out p', SWA.alloc 5 pool2 = Ok (Some out, p') ∧ ∃ p'', SWA.free out p' = Ok p'' ∧ used_slots p'' = used_slots pool2.
Proof.
  assert (swa_pool_ok pool2) as Hp by (destruct (init_pool_spec 8 8 false false) as [H _]; [lia|lia|exact H]).
  destruct (swa_alloc_free_roundtrip pool2 5 Hp) as [_ H]. rewrite decide_True in H by (vm_compute; congruence).
  destruct H as (out & p' & E & _ & _ & p'' & Ef & _ & Eu & _). exists out, p'. split; [exact E|]. exists p''. split; [exact Ef|exact Eu].
Defined.

(** When the window pool has no page left, [alloc_decode] returns [None] and the page it has
    taken from the full pool is lost: one request holds the only page of the window pool
    and starts a new page. *)
Definition decode_pool : SWAPool := SWA.init 4 2 2 false false.
Theorem decode_alloc_leaks : ∃ p out p', SWA.alloc_extend (λ _ _ _, 0%Z) (λ _, 0%Z) (λ _, 0%Z) [0]%Z [0]%Z [2]%Z [2]%Z [-1]%Z 2 decode_pool = Ok (Some out, p)
  ∧ SWA.alloc_decode (λ _ _ _, 0%Z) (λ _, 0%Z) (λ _, 0%Z) [3]%Z [3]%Z (drop 1 out) p = Ok (None, p')
  ∧ SWA.full_available_size p = 2%Z ∧ SWA.full_available_size p' = 0%Z.
Proof. eexists _, _, _. split; [vm_compute; reflexivity|]. split; [vm_compute; reflexivity|]. by vm_compute. Qed.
